(* ===== verification/_CoqProject ===== *)
-Q . S2P
Prelude.v
Collections.v
Envelope.v
FrameIO.v
Program.v
Egress.v
Flow.v
FlowSteps.v
Tokens.v
ScopeTypes.v
Scopes.v
ScopeTombstones.v
ScopeLinks.v
ScopeSettle.v
ScopeSync.v
ScopeRefresh.v
ScopeInvariant.v
ScopeGraph.v
ScopeTableOk.v
ScopeSweep.v
ScopeTags.v
ScopeDrains.v
Forwarding.v
ForwardingSlots.v
ForwardingInvariant.v
ForwardingOps.v
ForwardingCleanup.v
ForwardingWorld.v
ForwardingDrains.v
ScopeEffects.v
ScopeAdmit.v
ScopeWorld.v
Daemon.v
DrainRun.v
ForwardingStore.v
Router.v
RouterTraces.v
RouterSplice.v
RouterRetry.v
ScopeIdentity.v
ScopeExamples.v
DaemonExamples.v
ScopeTheorems.v
RoutingTheorems.v
RouterTheorems.v
Jsonc.v
JsoncEdit.v
JsoncLayout.v
JsoncGrammar.v
JsoncTree.v
JsoncPath.v
JsoncRender.v
JsoncSet.v
JsoncInsert.v
JsoncPut.v
JsoncCut.v
JsoncRemove.v
JsoncSpec.v
JsoncSpan.v
JsoncStrict.v
JsoncExamples.v
JsoncTheorems.v
Registry.v
RegistryOk.v
RegistrySteps.v
RegistryView.v
RegistryTheorems.v
LaunchNonces.v
Hello.v
HelloWorld.v
HelloPhases.v
HelloInvariant.v
HelloSwap.v
HelloExamples.v
HelloTheorems.v
Capabilities.v
CapabilityEval.v
CapabilitySettle.v
CapabilityHistory.v
CapabilityTheorems.v
