(* ===== verification/Prelude.v ===== *)
(** * A verification library for the subc daemon

    The repository is a local daemon that connects clients to supervised
    modules over framed, multiplexed connections.  This library models its core
    in Rocq and proves what the code relies on.

    ** Parts of the program and where they are modelled

    - The wire ([crates/subc-protocol], [crates/subc-transport]): a 21-byte
      envelope header with flags, frames of header and body, the asynchronous
      reader and writer.  [Envelope] models [lib.rs] and [frame.rs]: [FrameType],
      [Flags], [EnvelopeHeader.encode], [decode_header], [Frame.build], and the
      classes of [error_codes].  [FrameIO] models [frame_io.rs]: [read_frame] and
      [write_frame] over a stream given as the chunks its reads return.
    - Field checks ([tool_call.rs], [scope.rs], [machine_id.rs],
      [framed_body.rs]): [Tokens].
    - Scopes ([scope.rs], [call_mode.rs] and [crates/subc-daemon/src/scopes.rs]):
      an owner module publishes records of scopes; the daemon keeps the table,
      links scopes to parents, admits binds, hands out leases and tells the
      router which routes a change closes.  [ScopeTypes] has the records,
      [Scopes] every operation of the table.
    - Routes ([crates/subc-daemon/src/forwarding.rs]): which client channel is
      joined to which module channel, in which epoch, on whose behalf and under
      which scope; how many requests a route may have in flight.  [Forwarding]
      models the table ([ForwardingInner]) and each operation on it, [Flow] the
      credit ledger and [ChannelFlow].  What an operation sends or wakes is a
      list of [Effect]s.
    - The two together ([crates/subc-daemon/src/control.rs]): a scope change or
      sweep publishes what it changed to the forwarding table; [route.open] is
      admitted by the one table and opens a route in the other.  [Daemon] models
      these handlers and the steps the two tables take between them.
    - The data plane ([crates/subc-daemon/src/router.rs], the reader of
      [server.rs]): what becomes of one frame of a connection.  [Router] models
      [route_for_connection], the splice in both directions
      ([ForwardBackend::handle_bound], module frames), the answers and refusals
      ([RouterError::to_error_frame]), the notices of closed routes and the
      limiter of orphan GOODBYEs.  Handlers await other tasks, so they are
      programs of atomic actions in the sense of [Program]; [perform] says what
      each action does to the daemon, and [interferes] what may come between.
    - The egress queue of a connection ([router.rs]): [Egress] models the
      byte accounting and [FrameSink::charge_waiting], one atomic operation a
      step.
    - The module registry ([crates/subc-daemon/src/registry.rs]): which process
      holds which id in which of three slots, active, candidate or superseded;
      what [catalog.list] shows; who is woken.  [Registry] models every operation.
    - Launch nonces ([SupervisorHandle] in [supervise.rs]): who may register under
      a reserved id or prefix, and as the candidate of a swap.  [LaunchNonces].
    - Modules coming and going: [Hello] models [handle_hello],
      [register_swap_candidate], [cleanup_connection_with_end_reason] and
      [handle_goodbye] of [control.rs] and the cutover of [run_swap_inner] in
      [supervise_swap.rs], as programs of actions on the registry, the forwarding
      table, the handle and the recorded nonces; [HelloWorld] interleaves the
      handlers of all connections and the swaps of all modules.
    - Capability requirements ([capability_requirements.rs]): which capabilities
      the modules declare to need, whether some module provides each or may
      still come to, and who may claim a reserved one.  [Capabilities] models the
      evaluator; the time is an argument in milliseconds.
    - Configuration files, JSON with comments and trailing commas
      ([crates/subc-jsonc]): [Jsonc] models [lib.rs], that is [jsonc_to_json],
      the tokenizer, the parser and the spans; [JsoncEdit] models [edit.rs], the
      edits that change a document in place.  A document is a list of bytes, an
      offset a [nat]; an edit returns the document it leaves and its answer.

    ** Conventions

    A fallible function returns [Result]; one that may panic returns [option],
    and theorems state that [None] does not happen.  An unsigned integer is a
    [Z], with [wrap] at its width where the code lets it overflow.  A [str] is a
    [string] of its UTF-8 bytes.  A refusal of a table carries its code, not its
    message; an error of the router carries both.
    The clock is an argument.  A [BTreeMap] is a [gmap] iterated in key order; a
    [HashMap] is a [gmap] iterated in an order about which only [HashOrder] is
    known.  Reference-counted cells live in an explicit [Heap] that the table
    and the leases share; the flow of a route is named by an address, as both
    indexes share it.  Crates the repository depends on are type classes:
    [ProofCrypto] (base64, SHA-256), [AttributeJson], [Json], [RouteOpenJson] and
    [ErrorJson] (serde_json), [StringJson] and [ValueJson] with its
    [ValueJsonLaws] (serde_json's strings and printers, for which
    [JsoncExamples] has a model), [Semaphore] with its [SemaphoreLaws] and
    [Watch] with its [WatchLaws] (tokio), [ManifestTypes] (the parts of a
    manifest that are only stored).

    ** What the theorems show

    - [Envelope], [FrameIO]: decoding inverts encoding and accepts nothing else;
      frames survive any chunking of the stream; truncation and invalid frames
      are errors.
    - [ScopeTombstones], [ScopeLinks], [ScopeSettle], [ScopeSync], [ScopeRefresh]:
      lemmas on the parts of one [sync] or [apply] call; the two cycle checks
      against one ancestry relation; the settling loop terminates.
    - [ScopeInvariant], [ScopeGraph], [ScopeTableOk], [ScopeSweep]: the table
      invariant and that every operation keeps it.
    - [ScopeTags], [ScopeDrains], [ScopeEffects], [ScopeIdentity]: what a call
      reports, which routes its drains close, what a tag and an epoch stand for; what stays fixed over a run in
      which a scope lives on.
    - [ScopeAdmit]: admission, bind proofs, launch nonces.
    - [ScopeWorld]: table, heap, leases and acknowledgements as a step relation,
      with the invariants of reachable states.
    - [ScopeTheorems]: the statements about the table, applied at the states of
      [ScopeExamples].
    - [ForwardingInvariant], [ForwardingSlots], [ForwardingOps]: the invariant of
      the forwarding table, in parts that each speak of a few maps, and that
      every operation keeps it, exhaustion of channels, epochs and correlation
      ids included.
    - [ForwardingCleanup], [ForwardingWorld], [ForwardingDrains]: exactly what
      cleanup, publication and drains remove and whom they tell, and that no
      operation but the commit of a bind adds a route.
    - [FlowSteps]: requests, waits, answers and drains of one route as a step
      relation; windows are kept, watches are counted by their flag, and a drain
      waits for what is not a watch.
    - [Daemon]: in every reachable state of both tables the published tags are
      the tables' tags and each route has the authority it was opened under.
    - [DrainRun]: an endpoint whose module drain began takes on no work in any
      later state of the daemon, as long as it stays marked.
    - [RoutingTheorems]: the statements about routing, a refinement of an
      abstract authority among them, applied at the states of [DaemonExamples].
    - [Egress]: the counters of a queue are what is outstanding, in every
      interleaving, and no wake-up is lost.
    - [RouterTraces]: which frames a handled frame had taken by which queues and
      which credits it moved; [RouterSplice]: every frame it may offer, cut
      short anywhere; [RouterRetry]: what may still be said once it is forwarded.
    - [RouterTheorems]: these in a running daemon, and the limiter against its
      contract.
    - [RegistryOk], [RegistrySteps], [RegistryView]: the registry's invariant,
      every operation against it, what each does to one connection's slot.
    - [RegistryTheorems]: what the catalog, its generation, subscriptions,
      departures and promotions promise.
    - [ForwardingStore]: the part of the forwarding table that says which
      connection is which module's endpoint, and what each operation does to it.
    - [HelloPhases], [HelloInvariant]: what a handler knows between two actions,
      and that no other handler takes it away; hence what holds of the tables in
      every interleaving.  [HelloSwap]: where the endpoints of a module sit while
      it is swapped, as long as its HELLOs do not overlap the cutover ([calm]).
    - [HelloTheorems]: the statements about registering, swapping and leaving,
      applied at the states of [HelloExamples]; the run in which a HELLO overtakes
      a handover ([handover_overtaken]) shows what [calm] excludes.
    - [CapabilityEval], [CapabilitySettle]: an evaluation, requirement by
      requirement, and that one repeated before the next deadline is idle;
      [CapabilityHistory]: since when modules are starting and which absences
      were reported, over every history of configurations, HELLOs and evaluations.
    - [CapabilityTheorems]: when each verdict is given, how absences are
      numbered, that waiting misses nothing, and reserved capabilities.
    - [JsoncLayout], [JsoncGrammar], [JsoncTree]: a document is the lexemes of a
      concrete syntax tree with the gaps between them; the tokenizer and the
      parser find exactly that tree, and [denotes] says which tree of values a
      document stands for.
    - [JsoncPath], [JsoncRender], [JsoncSet], [JsoncInsert], [JsoncPut],
      [JsoncCut], [JsoncRemove]: each edit, on the text and on the tree.
    - [JsoncSpec], [JsoncSpan], [JsoncStrict]: the edits refine a machine on
      trees; the span of a member; normalised documents are strict JSON,
      but for form feeds.
    - [JsoncTheorems]: the statements about documents, applied at the document
      of [JsoncExamples].

    ** Fuel

    The ancestry walks run with [link_fuel], two more than the number of records
    they can visit, and [link_closes_cycle_reaches] and
    [link_closes_cycle_cached_spec] show it is enough.  The settling loop runs
    with one more turn than there are records; each turn refuses one
    ([settle_loop_spec]).  The search for a free channel has a turn for each of
    the 65,535 channels, and [find_channel_spec] shows that it returns the first
    free one whenever there is one.  The tokenizer has a turn for each byte and
    takes at least one in each; the parser has two per token and one more, and
    [parse_whole_iff] shows that it accepts every well-formed document.

    ** Not modelled

    Logging and metrics, but for the counters the router bumps; serde renderings
    beyond the codecs named above; files, sockets, processes and timers; the
    rest of the supervisor and the handlers of the control plane that are not
    named above (what they answer to a control frame is an answer of the
    environment); the decoding and the field checks of a HELLO's body, whose
    outcome is an argument, and so is the capability evaluator's verdict on it,
    which [Capabilities] models by itself; poisoned locks; the daemon's registry
    of close requests; [read_document], which opens a file, and the depth at
    which the recursive parser would exhaust its stack; the interleaving of lease
    releases with the inside of one table call (the table is behind a lock, and
    a release is a step of its own), and of the mutexes of the supervisor's
    handle within one of its calls (each reads and writes its fields at one
    instant).  Outside the daemon's tables:
    the activity ledger and the outage log, which are files and log lines; the
    client library, the MCP gateway, the stdio adapter, the bus, the installer,
    the release tool and the operating-system layers, which are programs of their
    own around sockets, processes and files. *)

From stdpp Require Export base gmap strings sorting countable numbers list.
From Stdlib Require Import ZArith Lia.
From Stdlib Require Strings.Byte.

Abbreviation byte := Byte.byte.

#[export] Set Default Goal Selector "!".

Open Scope Z_scope.

(** ** Rust's [Result] and the [?] operator *)

Inductive Result (T E : Type) : Type :=
  | Ok (t : T)
  | Err (e : E).
Arguments Ok {T E} t.
Arguments Err {T E} e.

Declare Scope rust_scope.
Delimit Scope rust_scope with rust.
Open Scope rust_scope.

Definition result_bind {T U E} (c : Result T E) (k : T → Result U E) : Result U E :=
  match c with
  | Ok t => k t
  | Err e => Err e
  end.

(** [let! x := c in k] is [let x = c?; k]. *)
Notation "'let!' x := c 'in' k" := (result_bind c (λ x, k))
  (at level 10, x name, c at level 100, k at level 200,
   format "'[v' 'let!'  x  :=  c  'in' '/' k ']'") : rust_scope.

(** Code that may panic returns an [option], [None] being the panic.
    [let? x := o in k] continues after an operation that may panic;
    [try! x := c in k] is [let x = c?; k] inside such code. *)
Notation "'let?' x := o 'in' k" :=
  (match o with Some x => k | None => None end)
  (at level 10, x name, o at level 100, k at level 200,
   format "'[v' 'let?'  x  :=  o  'in' '/' k ']'") : rust_scope.

Notation "'try!' x := c 'in' k" :=
  (match c with Ok x => k | Err e => Some (Err e) end)
  (at level 10, x name, c at level 100, k at level 200,
   format "'[v' 'try!'  x  :=  c  'in' '/' k ']'") : rust_scope.

Definition ok_or {T E} (o : option T) (e : E) : Result T E :=
  match o with
  | Some t => Ok t
  | None => Err e
  end.

Definition map_err {T E F} (f : E → F) (r : Result T E) : Result T F :=
  match r with
  | Ok t => Ok t
  | Err e => Err (f e)
  end.

Definition is_ok {T E} (r : Result T E) : bool :=
  match r with
  | Ok _ => true
  | Err _ => false
  end.

Definition or_else {T} (o : option T) (k : option T) : option T :=
  match o with
  | Some t => Some t
  | None => k
  end.

(** [Option::is_some_and], [Option::is_none_or], [Option::is_some],
    [Option::filter]. *)
Definition is_some_and {A} (p : A → bool) (o : option A) : bool :=
  match o with
  | Some a => p a
  | None => false
  end.

Definition is_none_or {A} (p : A → bool) (o : option A) : bool :=
  match o with
  | Some a => p a
  | None => true
  end.

Definition is_some {A} (o : option A) : bool :=
  match o with
  | Some _ => true
  | None => false
  end.

Definition is_none {A} (o : option A) : bool := negb (is_some o).

Definition opt_filter {A} (p : A → bool) (o : option A) : option A :=
  match o with
  | Some a => if p a then Some a else None
  | None => None
  end.

Lemma result_bind_Ok_inv {T U E} (c : Result T E) (k : T → Result U E) u :
  result_bind c k = Ok u → ∃ t, c = Ok t ∧ k t = Ok u.
Proof. destruct c as [t|e]; simpl; [by exists t|discriminate]. Qed.

Lemma ok_or_Ok_inv {T E} (o : option T) (e : E) t : ok_or o e = Ok t → o = Some t.
Proof. destruct o; simpl; congruence. Qed.

Lemma is_some_true {A} (o : option A) : is_some o = true ↔ ∃ a, o = Some a.
Proof. destruct o; simpl; naive_solver. Qed.

Lemma is_some_false {A} (o : option A) : is_some o = false ↔ o = None.
Proof. destruct o; simpl; naive_solver. Qed.

Lemma is_none_true {A} (o : option A) : is_none o = true ↔ o = None.
Proof. unfold is_none. destruct o; simpl; naive_solver. Qed.

Lemma opt_filter_Some {A} (p : A → bool) o a :
  opt_filter p o = Some a ↔ o = Some a ∧ p a = true.
Proof. destruct o as [x|]; simpl; [destruct (p x) eqn:Hp|]; intuition congruence. Qed.

(** ** Record update

    [r <| f := v |>] is [r] with field [f] set to [v].  A record type declares
    how a value is put together from its projections; the setter of one of them
    abstracts it there. *)

Class Expand (R : Type) := expand : R → R.

Class Setter {R A} (proj : R → A) := set_field : (A → A) → R → R.
Arguments set_field {R A} proj {_} f r /.

#[global] Hint Extern 1 (@Setter ?R ?A ?proj) =>
  (let whole := constr:(_ : Expand R) in
   let whole := eval hnf in whole in
   let parts := lazymatch (eval pattern proj in whole) with (λ _, ?same) _ => fail | ?parts _ => parts end in
   exact (λ f r, parts (λ r, f (proj r)) r)) : typeclass_instances.

Notation "r <| f := v |>" := (set_field f (λ _, v) r)
  (at level 1, left associativity, f at level 10, v at level 200, format "r  <|  f  :=  v  |>").

(** ** Machine-width integers

    An unsigned [w]-bit integer is a [Z] in [0, 2^w); [wrap] is the
    wrap-around of release-mode arithmetic. *)

Definition wrap (w z : Z) : Z := z mod 2 ^ w.

Definition in_width (w z : Z) : Prop := 0 ≤ z < 2 ^ w.

Abbreviation u8 := (in_width 8).
Abbreviation u16 := (in_width 16).
Abbreviation u32 := (in_width 32).
Abbreviation u64 := (in_width 64).

#[global] Instance in_width_dec w z : Decision (in_width w z).
Proof. unfold in_width. apply _. Defined.

Lemma wrap_in_width w z : 0 ≤ w → in_width w (wrap w z).
Proof. intros. unfold in_width, wrap. apply Z.mod_pos_bound, Z.pow_pos_nonneg; lia. Qed.

Lemma wrap_id w z : in_width w z → wrap w z = z.
Proof. unfold in_width, wrap. intros. by apply Z.mod_small. Qed.

(** ** Bytes and byte strings *)

Definition byte_val (b : byte) : Z := Z.of_N (Byte.to_N b).

Definition byte_of (z : Z) : byte :=
  match Byte.of_N (Z.to_N (wrap 8 z)) with
  | Some b => b
  | None => Byte.x00
  end.

#[global] Instance byte_eq_dec : EqDecision byte.
Proof. intros x y. destruct (Byte.byte_eq_dec x y); [left|right]; done. Defined.

Lemma byte_val_range b : 0 ≤ byte_val b < 256.
Proof. unfold byte_val. pose proof (Byte.to_N_bounded b). lia. Qed.

Lemma byte_of_val b : byte_of (byte_val b) = b.
Proof.
  unfold byte_of. rewrite wrap_id by (unfold in_width; pose proof (byte_val_range b); lia).
  unfold byte_val. rewrite N2Z.id. by rewrite Byte.of_to_N.
Qed.

Lemma byte_val_of z : byte_val (byte_of z) = wrap 8 z.
Proof.
  unfold byte_of, byte_val. pose proof (wrap_in_width 8 z) as Hw.
  unfold in_width in Hw.
  destruct (Byte.of_N _) eqn:E.
  - apply Byte.to_of_N in E. rewrite E. lia.
  - apply Byte.of_N_None_iff in E. lia.
Qed.

Lemma byte_val_inj b1 b2 : byte_val b1 = byte_val b2 → b1 = b2.
Proof. intros H. rewrite <-(byte_of_val b1), <-(byte_of_val b2). by f_equal. Qed.

(** [[bytes[i], bytes[j], ...]]: every index in range, or a panic. *)
Definition index_bytes (bytes : list byte) (ixs : list nat) : option (list byte) :=
  mapM (λ i, bytes !! i) ixs.

(** Little-endian rendering of the low [n] bytes ([to_le_bytes]) and its
    inverse ([from_le_bytes]); [be_*] are the big-endian pair. *)
Fixpoint le_bytes (n : nat) (z : Z) : list byte :=
  match n with
  | O => []
  | S n => byte_of z :: le_bytes n (z / 256)
  end.

Fixpoint le_val (l : list byte) : Z :=
  match l with
  | [] => 0
  | b :: l => byte_val b + 256 * le_val l
  end.

Definition be_bytes (n : nat) (z : Z) : list byte := reverse (le_bytes n z).
Definition be_val (l : list byte) : Z := le_val (reverse l).

Lemma length_le_bytes n z : length (le_bytes n z) = n.
Proof. revert z; induction n; intros; simpl; auto. Qed.

Lemma le_val_range l : 0 ≤ le_val l < 2 ^ (8 * Z.of_nat (length l)).
Proof.
  induction l as [|b l IH]; cbn [le_val length]; [lia|].
  pose proof (byte_val_range b).
  replace (8 * Z.of_nat (S (length l))) with (8 + 8 * Z.of_nat (length l)) by lia.
  rewrite Z.pow_add_r by lia. change (2 ^ 8) with 256. nia.
Qed.

Lemma le_val_bytes n z : in_width (8 * Z.of_nat n) z → le_val (le_bytes n z) = z.
Proof.
  revert z; induction n as [|n IH]; intros z Hz; unfold in_width in Hz; cbn [le_bytes le_val].
  { change (8 * Z.of_nat 0) with 0 in Hz. lia. }
  replace (8 * Z.of_nat (S n)) with (8 + 8 * Z.of_nat n) in Hz by lia.
  rewrite Z.pow_add_r in Hz by lia. change (2 ^ 8) with 256 in Hz.
  rewrite IH, byte_val_of.
  - unfold wrap. change (2 ^ 8) with 256. rewrite (Z.div_mod z 256) at 3 by lia. lia.
  - unfold in_width. split; [apply Z.div_pos; lia|]. apply Z.div_lt_upper_bound; lia.
Qed.

Lemma le_bytes_val l : le_bytes (length l) (le_val l) = l.
Proof.
  induction l as [|b l IH]; cbn [le_val length le_bytes]; [done|].
  pose proof (byte_val_range b).
  replace ((byte_val b + 256 * le_val l) / 256) with (le_val l)
    by (rewrite Z.mul_comm, Z.div_add, Z.div_small by lia; lia).
  rewrite IH. f_equal. apply byte_val_inj. rewrite byte_val_of.
  unfold wrap. change (2 ^ 8) with 256. rewrite Z.mul_comm, Z_mod_plus_full.
  apply Z.mod_small; lia.
Qed.

Lemma length_be_bytes n z : length (be_bytes n z) = n.
Proof. unfold be_bytes. by rewrite length_reverse, length_le_bytes. Qed.

Lemma be_val_bytes n z : in_width (8 * Z.of_nat n) z → be_val (be_bytes n z) = z.
Proof. intros. unfold be_val, be_bytes. rewrite reverse_involutive. by apply le_val_bytes. Qed.

Lemma be_val_range l : 0 ≤ be_val l < 2 ^ (8 * Z.of_nat (length l)).
Proof. unfold be_val. pose proof (le_val_range (reverse l)). by rewrite length_reverse in *. Qed.

(** A Rust [str] is its UTF-8 bytes: [string] is the byte sequence, [str_len]
    its [len()], [str_bytes] its [bytes()] as integers. *)
Fixpoint str_bytes (s : string) : list Z :=
  match s with
  | EmptyString => []
  | String a s => Z.of_N (Ascii.N_of_ascii a) :: str_bytes s
  end.

Definition str_len (s : string) : Z := Z.of_nat (String.length s).

Definition str_is_empty (s : string) : bool := str_len s =? 0.

Lemma length_str_bytes s : length (str_bytes s) = String.length s.
Proof. induction s; simpl; auto. Qed.

Lemma str_is_empty_true s : str_is_empty s = true ↔ s = ""%stdpp.
Proof. unfold str_is_empty, str_len. destruct s; simpl; split; intros; simplify_eq; done || lia. Qed.

(** [Iterator::position]. *)
Fixpoint position {A} (p : A → bool) (l : list A) : option nat :=
  match l with
  | [] => None
  | a :: l => if p a then Some O else S <$> position p l
  end.

Lemma position_None {A} (p : A → bool) l :
  position (λ a, negb (p a)) l = None ↔ forallb p l = true.
Proof.
  induction l as [|a l IH]; simpl; [done|].
  destruct (p a); simpl; [|done]. rewrite <-IH.
  destruct (position _ l); simpl; done.
Qed.

Lemma position_Some {A} (p : A → bool) l i :
  position p l = Some i →
  (∃ a, l !! i = Some a ∧ p a = true) ∧
  ∀ j a, (j < i)%nat → l !! j = Some a → p a = false.
Proof.
  revert i; induction l as [|a l IH]; intros i; simpl; [done|].
  destruct (p a) eqn:E; intros H; simplify_eq.
  - split; [by exists a|lia].
  - destruct (position p l) as [k|] eqn:Ek; simplify_eq/=.
    destruct (IH k eq_refl) as [Hk Hlt]. split; [done|].
    intros [|j] b Hj Hb; simplify_eq/=; [done|]. eapply Hlt; [|done]. lia.
Qed.

Lemma position_eq_Some `{EqDecision A} (x : A) l i :
  position (λ y, bool_decide (y = x)) l = Some i → l !! i = Some x.
Proof. intros [(y & Hy & ->%bool_decide_eq_true) _]%position_Some. done. Qed.

Lemma position_eq_None `{EqDecision A} (x : A) l :
  position (λ y, bool_decide (y = x)) l = None → x ∉ l.
Proof.
  induction l as [|y l IH]; simpl; [set_solver|].
  case_bool_decide; [done|]. destruct (position _ l); [done|]. set_solver.
Qed.

(** ** Exhaustive checks over a byte *)

Lemma u8_forall (P : Z → bool) :
  forallb P (seqZ 0 256) = true → ∀ z, u8 z → P z = true.
Proof.
  intros H z Hz. rewrite forallb_forall in H. apply H.
  apply list_elem_of_In, elem_of_seqZ. unfold in_width in Hz. lia.
Qed.

(** ** Tactics *)

(** Split a conjunction of boolean tests in a hypothesis. *)
Ltac split_bools :=
  repeat match goal with
  | H : (_ && _)%bool = true |- _ => apply andb_prop in H; destruct H
  | H : (_ || _)%bool = false |- _ => apply orb_false_elim in H; destruct H
  | H : negb _ = true |- _ => apply negb_true_iff in H
  | H : negb _ = false |- _ => apply negb_false_iff in H
  end.

(** Case analysis on the scrutinee a hypothesis or the goal is stuck on. *)
Ltac case_one :=
  match goal with
  | H : context [match ?x with _ => _ end] |- _ =>
      lazymatch x with context [match _ with _ => _ end] => fail | _ => destruct x eqn:? end
  end.

Ltac invert_ok :=
  repeat match goal with
  | H : result_bind _ _ = Ok _ |- _ => apply result_bind_Ok_inv in H as (? & ? & ?)
  | H : ok_or _ _ = Ok _ |- _ => apply ok_or_Ok_inv in H
  | H : Ok _ = Ok _ |- _ => injection H as ?
  | H : Err _ = Ok _ |- _ => discriminate H
  | H : Ok _ = Err _ |- _ => discriminate H
  | H : Some _ = Some _ |- _ => injection H as ?
  | H : None = Some _ |- _ => discriminate H
  | H : Some _ = None |- _ => discriminate H
  end; subst.
