(* ===== verification/Collections.v ===== *)
(** * Rust's ordered and hashed collections

    A [BTreeMap] is a [gmap] iterated in key order; a [HashMap] is a [gmap]
    iterated in an order the program may not rely on, an instance of
    [HashOrder]. *)

From S2P Require Import Prelude.

(** ** [BTreeMap<String, V>] *)

Definition key_le {V} (a b : string * V) : Prop := String.le a.1 b.1.

#[global] Instance key_le_dec {V} : RelDecision (@key_le V).
Proof. intros a b. unfold key_le. apply _. Defined.

#[global] Instance key_le_total {V} : Total (@key_le V).
Proof. intros a b. unfold key_le. apply (total String.le). Qed.

#[global] Instance key_le_trans {V} : Transitive (@key_le V).
Proof. intros a b c. unfold key_le. apply transitivity. Qed.

Definition btree_iter {V} (m : gmap string V) : list (string * V) :=
  merge_sort key_le (map_to_list m).

(** [BTreeSet<String>::iter]. *)
Definition btree_set_iter (s : gset string) : list string :=
  merge_sort String.le (elements s).

(** [BTreeMap<u64, V>::last_key_value], the key. *)
Definition last_key {V} (m : gmap Z V) : option Z :=
  match (map_to_list m).*1 with
  | [] => None
  | k :: ks => Some (foldl Z.max k ks)
  end.

Lemma btree_iter_perm {V} (m : gmap string V) : btree_iter m ≡ₚ map_to_list m.
Proof. apply merge_sort_Permutation. Qed.

Lemma elem_of_btree_iter {V} (m : gmap string V) k v : (k, v) ∈ btree_iter m ↔ m !! k = Some v.
Proof. rewrite btree_iter_perm. apply elem_of_map_to_list. Qed.

Lemma NoDup_fst_btree_iter {V} (m : gmap string V) : NoDup (btree_iter m).*1.
Proof. rewrite btree_iter_perm. apply NoDup_fst_map_to_list. Qed.

Lemma length_btree_iter {V} (m : gmap string V) : length (btree_iter m) = size m.
Proof. rewrite btree_iter_perm. apply length_map_to_list. Qed.

Lemma btree_iter_sorted {V} (m : gmap string V) : StronglySorted key_le (btree_iter m).
Proof. apply (StronglySorted_merge_sort key_le). Qed.

Lemma elem_of_btree_set_iter s k : k ∈ btree_set_iter s ↔ k ∈ s.
Proof. unfold btree_set_iter. rewrite merge_sort_Permutation. apply elem_of_elements. Qed.

Lemma NoDup_btree_set_iter s : NoDup (btree_set_iter s).
Proof. unfold btree_set_iter. rewrite merge_sort_Permutation. apply NoDup_elements. Qed.

Lemma foldl_max_ge ks k x : x ∈ k :: ks → x ≤ foldl Z.max k ks.
Proof.
  revert k x. induction ks as [|k' ks IH]; intros k x; simpl.
  - rewrite elem_of_cons, elem_of_nil. lia.
  - rewrite !elem_of_cons. intros [->|[->|?]].
    + transitivity (Z.max k k'); [lia|]. apply IH, elem_of_cons. by left.
    + transitivity (Z.max k k'); [lia|]. apply IH, elem_of_cons. by left.
    + apply IH, elem_of_cons. by right.
Qed.

Lemma foldl_max_elem ks k : foldl Z.max k ks ∈ k :: ks.
Proof.
  revert k. induction ks as [|k' ks IH]; intros k; simpl; [by apply elem_of_cons; left|].
  specialize (IH (Z.max k k')). rewrite !elem_of_cons in *.
  destruct (Z.max_spec k k') as [[_ ->]|[_ ->]] in IH; tauto.
Qed.

Lemma last_key_None {V} (m : gmap Z V) : last_key m = None ↔ m = ∅.
Proof.
  unfold last_key. split.
  - destruct (map_to_list m) as [|[]] eqn:E; [|done]. intros _. by apply map_to_list_empty_iff.
  - intros ->. by rewrite map_to_list_empty.
Qed.

Lemma last_key_Some {V} (m : gmap Z V) k :
  last_key m = Some k ↔ is_Some (m !! k) ∧ ∀ j, is_Some (m !! j) → j ≤ k.
Proof.
  assert (∀ j, is_Some (m !! j) ↔ j ∈ (map_to_list m).*1) as Hdom.
  { intros j. rewrite list_elem_of_fmap. split.
    - intros [v ?]. exists (j, v). by rewrite elem_of_map_to_list.
    - intros ([? v] & -> & ?%elem_of_map_to_list). by eexists. }
  setoid_rewrite Hdom. unfold last_key. destruct (_.*1) as [|k' ks] eqn:E.
  { split; [done|]. intros [?%elem_of_nil _]. done. }
  pose proof (foldl_max_elem ks k'). split.
  - intros [= <-]. split; [done|]. intros j. apply foldl_max_ge.
  - intros [Hk Hmax]. f_equal. apply Z.le_antisymm; [by apply Hmax|]. by apply foldl_max_ge.
Qed.

Lemma filter_ext_in {A} (P Q : A → Prop) `{∀ x, Decision (P x), ∀ x, Decision (Q x)} (l : list A) :
  (∀ x, x ∈ l → P x ↔ Q x) → filter P l = filter Q l.
Proof.
  induction l as [|x l IH]; intros Hl; [done|]. specialize (IH (λ y Hy, Hl y (list_elem_of_further _ _ _ Hy))).
  destruct (decide (P x)) as [Hp|Hp].
  - rewrite (filter_cons_True P), (filter_cons_True Q), IH; [done|by apply Hl; [left|]|done].
  - rewrite (filter_cons_False P), (filter_cons_False Q), IH; [done| |done]. intros Hq. by apply Hp, Hl; [left|].
Qed.

(** ** Keys *)

(** A partial map that keeps keys keeps them distinct. *)
Lemma NoDup_omap_key {A B K} (f : A → option B) (ka : A → K) (kb : B → K) l :
  (∀ a b, f a = Some b → kb b = ka a) → NoDup (ka <$> l) → NoDup (kb <$> omap f l).
Proof.
  intros Hf. induction l as [|a l IH]; [constructor|].
  rewrite fmap_cons, NoDup_cons. intros [Ha Hnd]. cbn [omap list_omap].
  destruct (f a) as [b|] eqn:Hb; [|by apply IH].
  rewrite fmap_cons, NoDup_cons. split; [|by apply IH].
  intros (b' & Heq & (a' & Ha' & Hb')%list_elem_of_omap)%list_elem_of_fmap.
  apply Ha, list_elem_of_fmap. exists a'. split; [|done].
  rewrite <-(Hf _ _ Hb), <-(Hf _ _ Hb'). done.
Qed.

(** ** Sizes *)

Lemma size_list_to_set_le `{Countable A} (l : list A) :
  (size (list_to_set l : gset A) ≤ length l)%nat.
Proof.
  induction l as [|x l IH]; [done|].
  change (list_to_set (x :: l) : gset A) with ({[x]} ∪ list_to_set l : gset A).
  cbn [length]. rewrite size_union_alt, size_singleton.
  pose proof (subseteq_size (list_to_set l ∖ {[x]}) (list_to_set l : gset A) ltac:(set_solver)).
  lia.
Qed.

(** ** [HashMap<K, V>] *)

(** The order a [HashMap] yields its entries in: any permutation of them. *)
Class HashOrder := {
  hash_iter {K} `{Countable K} {V} : gmap K V → list (K * V);
  hash_iter_perm {K} `{Countable K} {V} (m : gmap K V) : hash_iter m ≡ₚ map_to_list m;
}.

Section hash_order.
Context `{HashOrder} {K : Type} `{Countable K} {V : Type}.
Implicit Types (m : gmap K V).

Lemma elem_of_hash_iter m k v : (k, v) ∈ hash_iter m ↔ m !! k = Some v.
Proof. rewrite hash_iter_perm. apply elem_of_map_to_list. Qed.

Lemma NoDup_fst_hash_iter m : NoDup (hash_iter m).*1.
Proof. rewrite hash_iter_perm. apply NoDup_fst_map_to_list. Qed.
End hash_order.

(** The order of the keys in the map's tree is one such order; the examples run
    under it. *)
Definition tree_hash_order : HashOrder := {|
  hash_iter K _ _ V m := map_to_list m;
  hash_iter_perm K _ _ V m := reflexivity (map_to_list m);
|}.

(** ** Loops *)

(** An invariant of a loop's body is one of the loop. *)
Lemma foldl_inv {A B} (P : A → Prop) (f : A → B → A) (l : list B) (a : A) :
  P a → (∀ a b, b ∈ l → P a → P (f a b)) → P (foldl f a l).
Proof.
  revert a. induction l as [|b l IH]; intros a Ha Hf; simpl; [done|].
  apply IH; [apply Hf; [by left|done]|]. intros ???. apply Hf. by right.
Qed.

(** A loop that does something to each element, and never undoes it. *)
Lemma foldl_each {A B} (P : A → Prop) (Q : B → A → Prop) (f : A → B → A) (l : list B) (a : A) :
  P a → (∀ a b, b ∈ l → P a → P (f a b) ∧ Q b (f a b)) →
  (∀ a b b', P a → Q b' a → Q b' (f a b)) →
  P (foldl f a l) ∧ ∀ b, b ∈ l → Q b (foldl f a l).
Proof.
  revert a. induction l as [|b l IH]; intros a Ha Hf Hkeep; simpl.
  { split; [done|]. by intros b ?%not_elem_of_nil. }
  destruct (Hf a b) as [HP HQ]; [by left|done|].
  destruct (IH (f a b) HP) as [HP' HQ']; [intros ???; apply Hf; by right|done|].
  split; [done|]. intros b' [->|?]%elem_of_cons; [|by apply HQ'].
  apply (foldl_inv (λ a, P a ∧ Q b a)); [done|].
  intros a' b' ? [? ?]. split; [|by apply Hkeep]. apply Hf; [by right|done].
Qed.
