(* ===== verification/Envelope.v ===== *)
(** * The wire envelope

    [crates/subc-protocol/src/lib.rs] and [frame.rs]: frame types, the flags
    byte, the 21-byte header with its encoder and decoder, frame
    construction, and the retry predicates over error codes.

    The decoder indexes its input directly, so it is modelled with [option]
    for a panic around the [Result] it returns; [decode_header_total] shows no
    input panics. *)

From S2P Require Import Prelude.

(** ** Frame kinds *)

Module FrameType.

Inductive t :=
  | Request | Response | Push | StreamData | StreamEnd | Error
  | Cancel | Ping | Pong | Hello | HelloAck | Goodbye.

#[global] Instance eq_dec : EqDecision t.
Proof. solve_decision. Defined.

(** [ty as u8]. *)
Definition as_u8 (ty : t) : Z :=
  match ty with
  | Request => 0 | Response => 1 | Push => 2 | StreamData => 3
  | StreamEnd => 4 | Error => 5 | Cancel => 6 | Ping => 7
  | Pong => 8 | Hello => 9 | HelloAck => 10 | Goodbye => 11
  end.

Definition from_u8 (b : Z) : option t :=
  match b with
  | 0 => Some Request
  | 1 => Some Response
  | 2 => Some Push
  | 3 => Some StreamData
  | 4 => Some StreamEnd
  | 5 => Some Error
  | 6 => Some Cancel
  | 7 => Some Ping
  | 8 => Some Pong
  | 9 => Some Hello
  | 10 => Some HelloAck
  | 11 => Some Goodbye
  | _ => None
  end.

Definition is_pure_header (ty : t) : bool :=
  match ty with
  | Cancel | Ping | Pong | Goodbye => true
  | _ => false
  end.

Lemma as_u8_range ty : u8 (as_u8 ty).
Proof. unfold in_width. destruct ty; simpl; lia. Qed.

Lemma from_as_u8 ty : from_u8 (as_u8 ty) = Some ty.
Proof. by destruct ty. Qed.

Lemma as_from_u8 b ty : from_u8 b = Some ty → as_u8 ty = b.
Proof.
  unfold from_u8. intros H. repeat (case_match; simplify_eq/=; try done).
Qed.

End FrameType.

(** ** The flags byte *)

Module Priority.

Inductive t := Passive | Interactive | Background.

Definition as_u8 (p : t) : Z :=
  match p with Passive => 0 | Interactive => 1 | Background => 2 end.

Definition from_bits (bits : Z) : option t :=
  match bits with
  | 0 => Some Passive
  | 1 => Some Interactive
  | 2 => Some Background
  | _ => None
  end.

End Priority.

Module AdmissionClass.

Inductive t := Normal | Expedite | Sheddable.

#[global] Instance eq_dec : EqDecision t.
Proof. solve_decision. Defined.

Definition as_u8 (a : t) : Z :=
  match a with Normal => 0 | Expedite => 1 | Sheddable => 2 end.

Definition from_bits (bits : Z) : option t :=
  match bits with
  | 0 => Some Normal
  | 1 => Some Expedite
  | 2 => Some Sheddable
  | _ => None
  end.

End AdmissionClass.

Module Flags.

Definition FLAG_BINARY : Z := 1.
Definition FLAG_PRIORITY_MASK : Z := 6.
Definition FLAG_PRIORITY_SHIFT : Z := 1.
Definition FLAG_LAST : Z := 8.
Definition FLAG_ADMISSION_MASK : Z := 48.
Definition FLAG_ADMISSION_SHIFT : Z := 4.
Definition FLAG_DAEMON_ORIGIN : Z := 64.
Definition FLAG_SUBSCRIPTION : Z := 128.

(** [struct Flags(pub u8)]. *)
Record t := mk { bits : Z }.

#[global] Instance eq_dec : EqDecision t.
Proof. solve_decision. Defined.

(** [!m] on a [u8]. *)
Definition not_u8 (m : Z) : Z := Z.lxor 255 m.

Definition new (binary : bool) (priority : Priority.t) (last : bool) : t :=
  let b := 0 in
  let b := if binary then Z.lor b FLAG_BINARY else b in
  let b := Z.lor b (Z.shiftl (Priority.as_u8 priority) FLAG_PRIORITY_SHIFT) in
  let b := if last then Z.lor b FLAG_LAST else b in
  mk b.

Definition with_admission_class (f : t) (a : AdmissionClass.t) : t :=
  mk (Z.lor (Z.land (bits f) (not_u8 FLAG_ADMISSION_MASK))
            (Z.shiftl (AdmissionClass.as_u8 a) FLAG_ADMISSION_SHIFT)).

Definition is_binary (f : t) : bool := negb (Z.land (bits f) FLAG_BINARY =? 0).
Definition is_last (f : t) : bool := negb (Z.land (bits f) FLAG_LAST =? 0).

Definition priority (f : t) : option Priority.t :=
  Priority.from_bits (Z.shiftr (Z.land (bits f) FLAG_PRIORITY_MASK) FLAG_PRIORITY_SHIFT).

Definition admission_class (f : t) : option AdmissionClass.t :=
  AdmissionClass.from_bits
    (Z.shiftr (Z.land (bits f) FLAG_ADMISSION_MASK) FLAG_ADMISSION_SHIFT).

Definition is_subscription (f : t) : bool :=
  negb (Z.land (bits f) FLAG_SUBSCRIPTION =? 0).
Definition is_daemon_origin (f : t) : bool :=
  negb (Z.land (bits f) FLAG_DAEMON_ORIGIN =? 0).
Definition with_daemon_origin (f : t) : t := mk (Z.lor (bits f) FLAG_DAEMON_ORIGIN).
Definition without_daemon_origin (f : t) : t :=
  mk (Z.land (bits f) (not_u8 FLAG_DAEMON_ORIGIN)).

Definition wf (f : t) : Prop := u8 (bits f).

(** Every field a reader can take out of a flags byte. *)
Definition view (f : t) :=
  (is_binary f, priority f, is_last f, admission_class f,
   is_daemon_origin f, is_subscription f).

End Flags.

(** ** The header *)

Definition PROTOCOL_VERSION : Z := 2.
Definition HEADER_LEN : Z := 21.
Definition FROZEN_PREFIX_LEN : Z := 5.
Definition MAX_FRAME_BODY_LEN : Z := 64 * 1024 * 1024.
Definition MAX_DELIVERED_FRAME_LEN : Z := 4 * 1024 * 1024.

Module EnvelopeHeader.

Record t := mk {
  len : Z;
  ver : Z;
  ty : FrameType.t;
  flags : Flags.t;
  channel : Z;
  epoch : Z;
  corr : Z;
}.

#[global] Instance eq_dec : EqDecision t.
Proof. solve_decision. Defined.

Definition encode (h : t) : list byte :=
  le_bytes 4 (len h)
  ++ [byte_of (ver h)]
  ++ [byte_of (FrameType.as_u8 (ty h))]
  ++ [byte_of (Flags.bits (flags h))]
  ++ le_bytes 2 (channel h)
  ++ le_bytes 4 (epoch h)
  ++ le_bytes 8 (corr h).

(** Every field within its declared width. *)
Definition wf (h : t) : Prop :=
  u32 (len h) ∧ u8 (ver h) ∧ Flags.wf (flags h) ∧
  u16 (channel h) ∧ u32 (epoch h) ∧ u64 (corr h).

End EnvelopeHeader.

Inductive DecodeError :=
  | TooShortForPrefix (have : Z)
  | UnsupportedVersion (ver : Z)
  | TooShortForHeader (have need : Z)
  | UnknownFrameType (b : Z)
  | ReservedFlagBits (flags : Z)
  | ReservedPriorityBits (flags : Z)
  | ReservedAdmissionClass (flags : Z)
  | SheddableIllegalFrameType (ty : FrameType.t) (flags : Z)
  | NonzeroEpochOnControlChannel (epoch : Z)
  | PureHeaderFrameWithBody (ty : FrameType.t) (len : Z).

#[global] Instance DecodeError_eq_dec : EqDecision DecodeError.
Proof. solve_decision. Defined.

Definition header_len_for_version (ver : Z) : option Z :=
  if ver =? PROTOCOL_VERSION then Some HEADER_LEN else None.

(** The frame kinds that may carry SHEDDABLE. *)
Definition may_shed (ty : FrameType.t) : bool :=
  match ty with
  | FrameType.Push | FrameType.StreamData => true
  | _ => false
  end.

Definition decode_header (bytes : list byte)
    : option (Result EnvelopeHeader.t DecodeError) :=
  let have := Z.of_nat (length bytes) in
  if have <? FROZEN_PREFIX_LEN then Some (Err (TooShortForPrefix have)) else
  let? b4 := bytes !! 4%nat in
  let ver := byte_val b4 in
  try! need := ok_or (header_len_for_version ver) (UnsupportedVersion ver) in
  if have <? need then Some (Err (TooShortForHeader have need)) else
  let? len_bytes := index_bytes bytes [0; 1; 2; 3]%nat in
  let len := le_val len_bytes in
  let? b5 := bytes !! 5%nat in
  try! ty := ok_or (FrameType.from_u8 (byte_val b5)) (UnknownFrameType (byte_val b5)) in
  let? b6 := bytes !! 6%nat in
  let flags := Flags.mk (byte_val b6) in
  if is_none (Flags.priority flags) then Some (Err (ReservedPriorityBits (byte_val b6))) else
  try! admission_class :=
    ok_or (Flags.admission_class flags) (ReservedAdmissionClass (byte_val b6)) in
  if bool_decide (admission_class = AdmissionClass.Sheddable) && negb (may_shed ty)
  then Some (Err (SheddableIllegalFrameType ty (byte_val b6))) else
  if FrameType.is_pure_header ty && negb (len =? 0)
  then Some (Err (PureHeaderFrameWithBody ty len)) else
  let? channel_bytes := index_bytes bytes [7; 8]%nat in
  let channel := le_val channel_bytes in
  let? epoch_bytes := index_bytes bytes [9; 10; 11; 12]%nat in
  let epoch := le_val epoch_bytes in
  if (channel =? 0) && negb (epoch =? 0)
  then Some (Err (NonzeroEpochOnControlChannel epoch)) else
  let? corr_bytes := index_bytes bytes [13; 14; 15; 16; 17; 18; 19; 20]%nat in
  Some (Ok (EnvelopeHeader.mk len ver ty flags channel epoch (le_val corr_bytes))).

(** ** Frames ([frame.rs]) *)

Module Frame.

Record t := mk { header : EnvelopeHeader.t; body : list byte }.

Inductive FrameBuildError :=
  | BodyTooLarge (body_len : Z)
  | BodyExceedsMax (body_len max : Z).

Definition build_with_version (ver : Z) (ty : FrameType.t) (flags : Flags.t)
    (channel epoch corr : Z) (body : list byte) : Result t FrameBuildError :=
  let body_len := Z.of_nat (length body) in
  if MAX_FRAME_BODY_LEN <? body_len
  then Err (BodyExceedsMax body_len MAX_FRAME_BODY_LEN) else
  (* [u32::try_from] *)
  let! len := (if bool_decide (u32 body_len) then Ok body_len
               else Err (BodyTooLarge body_len)) in
  Ok (mk (EnvelopeHeader.mk len ver ty flags channel epoch corr) body).

Definition build (ty : FrameType.t) (flags : Flags.t) (channel epoch corr : Z)
    (body : list byte) : Result t FrameBuildError :=
  build_with_version PROTOCOL_VERSION ty flags channel epoch corr body.

Definition from_wire (header : EnvelopeHeader.t) (body : list byte) : t :=
  mk header body.

End Frame.

(** ** Retry predicates over error codes *)

Module error_codes.

Definition UNKNOWN_CHANNEL := "unknown_channel".
Definition STALE_ROUTE_EPOCH := "stale_route_epoch".
Definition ROUTE_BUSY := "route_busy".
Definition MODULE_RELOADING := "module_reloading".
Definition MODULE_WARMING := "module_warming".
Definition TARGET_UNAVAILABLE := "target_unavailable".
Definition TARGET_FLOW_UNSUPPORTED := "target_flow_unsupported".
Definition TARGET_AGENT_RUN_UNSUPPORTED := "target_agent_run_unsupported".
Definition MODULE_TIMEOUT := "module_timeout".
Definition SCOPE_NOT_SYNCED := "scope_not_synced".
Definition SCOPE_CHANGED := "scope_changed".
Definition SESSION_ADDRESS_UNAVAILABLE := "session_address_unavailable".
Definition BIND_BUSY := "bind_busy".
Definition SCOPE_EPOCH_REQUIRED := "scope_epoch_required".
Definition SCOPE_NOT_LIVE := "scope_not_live".
Definition SCOPE_ENDED := "scope_ended".
Definition SCOPE_NOT_CARRIER := "scope_not_carrier".
Definition SCOPE_BIND_PROOF_REQUIRED := "scope_bind_proof_required".
Definition SCOPE_BIND_PROOF_MISMATCH := "scope_bind_proof_mismatch".
Definition SCOPE_EPOCH_IN_USE := "scope_epoch_in_use".
Definition SCOPE_SYNC_NOT_AUTHORITY := "scope_sync_not_authority".
Definition SCOPE_SYNC_REQUIRED := "scope_sync_required".
Definition SCOPE_SYNC_STALE := "scope_sync_stale".
Definition SCOPE_LIVE_LIMIT_EXCEEDED := "scope_live_limit_exceeded".
Definition SCOPE_ATTRIBUTES_TOO_LARGE := "scope_attributes_too_large".
Definition SCOPE_EPOCH_REGRESSED := "scope_epoch_regressed".
Definition SCOPE_EPOCH_ENDED := "scope_epoch_ended".
Definition SCOPE_EXPIRED := "scope_expired".
Definition SCOPE_EXPIRY_IMMUTABLE := "scope_expiry_immutable".
Definition SCOPE_EXPIRY_TOO_FAR := "scope_expiry_too_far".
Definition SCOPE_KIND_CHANGED := "scope_kind_changed".
Definition SCOPE_WORKDIR_CHANGED := "scope_workdir_changed".
Definition SCOPE_FLOW_IDENTITY_CHANGED := "scope_flow_identity_changed".
Definition SCOPE_PROJECT_CHANGED := "scope_project_changed".
Definition SCOPE_ATTRIBUTE_NOT_PERMITTED := "scope_attribute_not_permitted".
Definition SCOPE_PARENT_NOT_PERMITTED := "scope_parent_not_permitted".
Definition SCOPE_CARRIER_TARGETS_INVALID := "scope_carrier_targets_invalid".
Definition SCOPE_DELEGATES_WITHOUT_AGENT := "scope_delegates_without_agent".
Definition SCOPE_RUN_ID_WITHOUT_AGENT := "scope_run_id_without_agent".
Definition SCOPE_RUN_ID_WITH_FLOW_ID := "scope_run_id_with_flow_id".

Definition is_retryable_route_open (code : string) : bool :=
  if bool_decide (code ∈ [TARGET_FLOW_UNSUPPORTED; TARGET_AGENT_RUN_UNSUPPORTED;
                          SCOPE_BIND_PROOF_REQUIRED; SCOPE_BIND_PROOF_MISMATCH;
                          SCOPE_EPOCH_IN_USE])
  then false
  else bool_decide (code ∈ [MODULE_RELOADING; MODULE_WARMING; TARGET_UNAVAILABLE;
                            MODULE_TIMEOUT; SCOPE_NOT_SYNCED; SCOPE_CHANGED;
                            SESSION_ADDRESS_UNAVAILABLE; BIND_BUSY]).

Definition is_established_route_dead (_flags : Flags.t) (code : string) : bool :=
  bool_decide (code ∈ [UNKNOWN_CHANNEL; STALE_ROUTE_EPOCH]).

Definition is_route_busy_retryable (flags : Flags.t) (code : string)
    (route_opted_in : bool) : bool :=
  route_opted_in && Flags.is_daemon_origin flags && bool_decide (code = ROUTE_BUSY).

End error_codes.

(** ** Theorems *)

(** What the decoder accepts, as one predicate on a header. *)
Definition header_ok (h : EnvelopeHeader.t) : bool :=
  (EnvelopeHeader.ver h =? PROTOCOL_VERSION)
  && is_some (Flags.priority (EnvelopeHeader.flags h))
  && match Flags.admission_class (EnvelopeHeader.flags h) with
     | None => false
     | Some AdmissionClass.Sheddable => may_shed (EnvelopeHeader.ty h)
     | Some _ => true
     end
  && (negb (FrameType.is_pure_header (EnvelopeHeader.ty h)) || (EnvelopeHeader.len h =? 0))
  && (negb (EnvelopeHeader.channel h =? 0) || (EnvelopeHeader.epoch h =? 0)).

(** The decoder on a full-length input, with the fields already split out. *)
Definition decode_fields (len ver tyb fl channel epoch corr : Z)
    : Result EnvelopeHeader.t DecodeError :=
  if negb (ver =? PROTOCOL_VERSION) then Err (UnsupportedVersion ver) else
  match FrameType.from_u8 tyb with
  | None => Err (UnknownFrameType tyb)
  | Some ty =>
      let h := EnvelopeHeader.mk len ver ty (Flags.mk fl) channel epoch corr in
      match Flags.priority (Flags.mk fl), Flags.admission_class (Flags.mk fl) with
      | None, _ => Err (ReservedPriorityBits fl)
      | _, None => Err (ReservedAdmissionClass fl)
      | Some _, Some a =>
          if bool_decide (a = AdmissionClass.Sheddable) && negb (may_shed ty)
          then Err (SheddableIllegalFrameType ty fl)
          else if FrameType.is_pure_header ty && negb (len =? 0)
          then Err (PureHeaderFrameWithBody ty len)
          else if (channel =? 0) && negb (epoch =? 0)
          then Err (NonzeroEpochOnControlChannel epoch)
          else Ok h
      end
  end.

Lemma list_of_length_2 {A} (l : list A) : length l = 2%nat → ∃ a b, l = [a; b].
Proof. destruct l as [|a [|b [|]]]; try done. by exists a, b. Qed.

Lemma list_of_length_4 {A} (l : list A) :
  length l = 4%nat → ∃ a b c d, l = [a; b; c; d].
Proof. destruct l as [|a [|b [|c [|d [|]]]]]; try done. by exists a, b, c, d. Qed.

Lemma list_of_length_8 {A} (l : list A) :
  length l = 8%nat → ∃ a b c d e f g h, l = [a; b; c; d; e; f; g; h].
Proof.
  destruct l as [|a [|b [|c [|d [|e [|f [|g [|h [|]]]]]]]]]; try done.
  by exists a, b, c, d, e, f, g, h.
Qed.

Lemma decode_header_split lb vb tb fb cb eb kb rest :
  length lb = 4%nat → length cb = 2%nat → length eb = 4%nat → length kb = 8%nat →
  decode_header (lb ++ [vb] ++ [tb] ++ [fb] ++ cb ++ eb ++ kb ++ rest)
  = Some (decode_fields (le_val lb) (byte_val vb) (byte_val tb) (byte_val fb)
                        (le_val cb) (le_val eb) (le_val kb)).
Proof.
  intros (?&?&?&?&->)%list_of_length_4 (?&?&->)%list_of_length_2
    (?&?&?&?&->)%list_of_length_4 (?&?&?&?&?&?&?&?&->)%list_of_length_8.
  unfold decode_header. rewrite !length_app. cbn [length].
  rewrite (proj2 (Z.ltb_ge _ _)) by (unfold FROZEN_PREFIX_LEN; lia).
  cbn [app lookup list_lookup]. unfold header_len_for_version, decode_fields.
  destruct (byte_val vb =? PROTOCOL_VERSION); cbn [ok_or negb]; [|done].
  rewrite (proj2 (Z.ltb_ge _ _)) by (unfold HEADER_LEN; lia).
  cbn [index_bytes mapM mbind option_bind mret option_ret lookup list_lookup].
  destruct (FrameType.from_u8 _) as [ty|]; cbn [ok_or]; [|done].
  destruct (Flags.priority _); cbn [is_none is_some negb]; [|done].
  destruct (Flags.admission_class _); cbn [ok_or]; [|done].
  by repeat case_match.
Qed.

Lemma decode_fields_ok len ver tyb fl channel epoch corr h :
  decode_fields len ver tyb fl channel epoch corr = Ok h ↔
  ∃ ty, FrameType.from_u8 tyb = Some ty ∧
        h = EnvelopeHeader.mk len ver ty (Flags.mk fl) channel epoch corr ∧
        header_ok h = true.
Proof.
  unfold decode_fields. destruct (ver =? PROTOCOL_VERSION) eqn:Hv; cbn [negb].
  2:{ split; [done|]. intros (ty & _ & -> & H). unfold header_ok in H.
      cbn [EnvelopeHeader.ver] in H. by rewrite Hv in H. }
  destruct (FrameType.from_u8 tyb) as [ty|]; [|split; [done|by intros (?&?&_)]].
  set (h0 := EnvelopeHeader.mk len ver ty (Flags.mk fl) channel epoch corr).
  transitivity (h = h0 ∧ header_ok h0 = true); [|naive_solver].
  unfold header_ok, h0; cbn [EnvelopeHeader.ver EnvelopeHeader.flags EnvelopeHeader.ty
    EnvelopeHeader.len EnvelopeHeader.channel EnvelopeHeader.epoch]. rewrite Hv.
  destruct (Flags.priority _), (Flags.admission_class _) as [[]|], (may_shed ty),
    (FrameType.is_pure_header ty), (len =? 0), (channel =? 0), (epoch =? 0);
    repeat case_bool_decide; cbn; split; intros; destruct_and?; simplify_eq; done.
Qed.

Lemma encode_parts h rest :
  EnvelopeHeader.encode h ++ rest
  = le_bytes 4 (EnvelopeHeader.len h) ++ [byte_of (EnvelopeHeader.ver h)]
    ++ [byte_of (FrameType.as_u8 (EnvelopeHeader.ty h))]
    ++ [byte_of (Flags.bits (EnvelopeHeader.flags h))]
    ++ le_bytes 2 (EnvelopeHeader.channel h) ++ le_bytes 4 (EnvelopeHeader.epoch h)
    ++ le_bytes 8 (EnvelopeHeader.corr h) ++ rest.
Proof. unfold EnvelopeHeader.encode. by rewrite <-!app_assoc. Qed.

Lemma length_encode h : length (EnvelopeHeader.encode h) = 21%nat.
Proof. unfold EnvelopeHeader.encode. rewrite !length_app, !length_le_bytes. done. Qed.

(** Decoding an encoded header is checking the envelope rules on it. *)
Lemma decode_header_of_encode h rest :
  EnvelopeHeader.wf h →
  ∃ r, decode_header (EnvelopeHeader.encode h ++ rest) = Some r ∧
       ∀ h', r = Ok h' ↔ h' = h ∧ header_ok h = true.
Proof.
  intros (Hl & Hv & Hf & Hc & He & Hk).
  rewrite encode_parts, decode_header_split by apply length_le_bytes.
  rewrite !le_val_bytes, !byte_val_of, !wrap_id by (done || apply FrameType.as_u8_range).
  eexists; split; [done|]. intros h'. rewrite decode_fields_ok, FrameType.from_as_u8.
  destruct h as [? ? ty [] ? ? ?]; cbn. naive_solver.
Qed.

Lemma decode_header_of_ok h rest :
  EnvelopeHeader.wf h → header_ok h = true →
  decode_header (EnvelopeHeader.encode h ++ rest) = Some (Ok h).
Proof.
  intros Hwf Hok. destruct (decode_header_of_encode h rest Hwf) as (r & -> & Hr).
  f_equal. by apply Hr.
Qed.

Lemma split_header_bytes (bytes : list byte) :
  (21 ≤ length bytes)%nat →
  ∃ lb vb tb fb cb eb kb rest,
    bytes = lb ++ [vb] ++ [tb] ++ [fb] ++ cb ++ eb ++ kb ++ rest ∧
    length lb = 4%nat ∧ length cb = 2%nat ∧ length eb = 4%nat ∧ length kb = 8%nat.
Proof.
  intros H.
  destruct bytes as [|b0 [|b1 [|b2 [|b3 [|b4 [|b5 [|b6 [|b7 [|b8 [|b9 [|b10
    [|b11 [|b12 [|b13 [|b14 [|b15 [|b16 [|b17 [|b18 [|b19 [|b20 rest]]]]]]]]]]]]]]]]]]]]];
    cbn [length] in H; try lia.
  by exists [b0; b1; b2; b3], b4, b5, b6, [b7; b8], [b9; b10; b11; b12],
    [b13; b14; b15; b16; b17; b18; b19; b20], rest.
Qed.

(** Short inputs: the only outcomes before all 21 bytes are present. *)
Lemma decode_header_short bytes :
  (length bytes < 21)%nat →
  decode_header bytes =
    Some (Err (match bytes !! 4%nat with
               | None => TooShortForPrefix (Z.of_nat (length bytes))
               | Some b =>
                   if byte_val b =? PROTOCOL_VERSION
                   then TooShortForHeader (Z.of_nat (length bytes)) HEADER_LEN
                   else UnsupportedVersion (byte_val b)
               end)).
Proof.
  intros H. unfold decode_header, FROZEN_PREFIX_LEN.
  destruct (Z.of_nat (length bytes) <? 5) eqn:E.
  - apply Z.ltb_lt in E. rewrite lookup_ge_None_2 by lia. done.
  - apply Z.ltb_ge in E. destruct (lookup_lt_is_Some_2 bytes 4) as [b ->]; [lia|].
    unfold header_len_for_version. destruct (byte_val b =? _); cbn [ok_or]; [|done].
    rewrite (proj2 (Z.ltb_lt _ _)) by (unfold HEADER_LEN; lia). done.
Qed.

(** C5: the decoder accepts exactly the encodings of well-formed headers that
    satisfy the envelope rules (current version, known frame type, no reserved
    priority or admission value, SHEDDABLE only on PUSH and STREAM_DATA, no body
    on a pure-header frame, epoch 0 on channel 0), whatever bytes follow, and
    gives back the header that was encoded. *)
Theorem decode_header_iff bytes h :
  decode_header bytes = Some (Ok h) ↔
  EnvelopeHeader.wf h ∧ header_ok h = true ∧
  ∃ rest, bytes = EnvelopeHeader.encode h ++ rest.
Proof.
  split.
  - intros Hdec. destruct (decide (21 ≤ length bytes)%nat) as [Hlen|Hlen].
    2:{ rewrite decode_header_short in Hdec by lia. done. }
    destruct (split_header_bytes bytes Hlen)
      as (lb & vb & tb & fb & cb & eb & kb & rest & -> & Hl & Hc & He & Hk).
    rewrite decode_header_split in Hdec by done. injection Hdec as Hdec.
    apply decode_fields_ok in Hdec as (ty & Hty & -> & Hok).
    pose proof (le_val_range lb). pose proof (le_val_range cb).
    pose proof (le_val_range eb). pose proof (le_val_range kb).
    pose proof (byte_val_range vb). pose proof (byte_val_range fb).
    rewrite Hl, Hc, He, Hk in *.
    split; [|split; [done|exists rest]].
    + unfold EnvelopeHeader.wf, Flags.wf, in_width. cbn. done.
    + rewrite encode_parts. cbn [EnvelopeHeader.len EnvelopeHeader.ver EnvelopeHeader.ty
        EnvelopeHeader.flags EnvelopeHeader.channel EnvelopeHeader.epoch
        EnvelopeHeader.corr Flags.bits].
      rewrite (FrameType.as_from_u8 _ _ Hty), !byte_of_val.
      rewrite <-Hl at 1. rewrite <-Hc at 1. rewrite <-He at 1. rewrite <-Hk at 1.
      by rewrite !le_bytes_val.
  - intros (Hwf & Hok & rest & ->). by apply decode_header_of_ok.
Qed.

(** No input makes the decoder panic; a shorter input is refused by the
    first missing piece, and the version is read from the frozen 5-byte prefix
    before anything else is required of the header. *)
Theorem decode_header_total bytes :
  (∃ r, decode_header bytes = Some r) ∧
  ((length bytes < 5)%nat →
     decode_header bytes = Some (Err (TooShortForPrefix (Z.of_nat (length bytes))))) ∧
  (∀ b, bytes !! 4%nat = Some b → byte_val b ≠ PROTOCOL_VERSION →
     decode_header bytes = Some (Err (UnsupportedVersion (byte_val b)))).
Proof.
  destruct (decide (length bytes < 21)%nat) as [Hlen|Hlen].
  - rewrite decode_header_short by done. split; [by eexists|]. split.
    + intros H5. by rewrite lookup_ge_None_2 by lia.
    + intros b -> Hne. by rewrite (proj2 (Z.eqb_neq _ _) Hne).
  - destruct (split_header_bytes bytes)
      as (lb & vb & tb & fb & cb & eb & kb & rest & -> & Hl & Hc & He & Hk); [lia|].
    rewrite decode_header_split by done. split; [by eexists|]. split; [lia|].
    intros b Hb Hne. rewrite lookup_app_r, Hl in Hb by lia. cbn in Hb. simplify_eq.
    unfold decode_fields. by rewrite (proj2 (Z.eqb_neq _ _) Hne).
Qed.

(** Each field put into a flags byte is the one read back, and stamping or
    clearing the daemon-origin bit changes that field and no other. *)
Theorem flags_fields :
  (∀ binary p last a,
     Flags.view (Flags.with_admission_class (Flags.new binary p last) a)
     = (binary, Some p, last, Some a, false, false)) ∧
  (∀ b, let f := Flags.mk (byte_val b) in
     let '(bin, p, last, a, _, sub) := Flags.view f in
     Flags.view (Flags.with_daemon_origin f) = (bin, p, last, a, true, sub) ∧
     Flags.view (Flags.without_daemon_origin f) = (bin, p, last, a, false, sub) ∧
     Flags.wf (Flags.with_daemon_origin f) ∧ Flags.wf (Flags.without_daemon_origin f)).
Proof.
  split.
  - by intros [] [] [] [].
  - intros []; (split; [reflexivity|]; split; [reflexivity|];
                split; vm_compute; split; congruence).
Qed.
