(* ===== verification/FrameIO.v ===== *)
(** * Frame input and output on a stream

    [crates/subc-transport/src/frame_io.rs].  The reader is the list of answers
    its [read] calls will give: bytes as they arrive, or an I/O failure; an
    exhausted list is end of file.  One [read] into a buffer of [k] bytes takes
    at most [k] bytes from the first chunk and leaves the rest, so the model
    shows every way a frame can be split across reads.  The writer records the
    argument of every [write_all], because the code promises a frame is a
    single write.  [read_frame] panics ([None]) only if [decode_header] does. *)

From S2P Require Import Prelude Envelope.

Inductive ReadStage := Header | Body.

Inductive FrameIoError :=
  | Io
  | DecodeHeader (e : DecodeError)
  | BodyTooLarge (len max : Z)
  | UnexpectedEof (stage : ReadStage) (expected actual : Z)
  | BodyLengthMismatch (header_len body_len : Z).

(** ** Streams *)

Inductive read_event :=
  | Data (bs : list byte)
  | Fail.

Abbreviation stream := (list read_event).

Record writer := Writer { written : list (list byte); broken : bool }.

(** [AsyncWriteExt::write_all]. *)
Definition write_all (w : writer) (bs : list byte) : Result unit FrameIoError * writer :=
  if broken w then (Err Io, w) else (Ok tt, Writer (written w ++ [bs]) false).

(** ** Reading *)

(** The loop of [read_exact_or_clean_eof]: [acc] is [buf[..actual]]. *)
Fixpoint read_exact_or_clean_eof (expected : nat) (stage : ReadStage)
    (acc : list byte) (s : stream) : Result (option (list byte)) FrameIoError * stream :=
  if decide (expected ≤ length acc)%nat then (Ok (Some acc), s) else
  let eof s' :=
    if decide (length acc = 0%nat) then (Ok None, s')
    else (Err (UnexpectedEof stage (Z.of_nat expected) (Z.of_nat (length acc))), s') in
  match s with
  | [] => eof []
  | Fail :: s' => (Err Io, s')
  | Data bs :: s' =>
      let k := (expected - length acc)%nat in
      match bs with
      | [] => eof s'
      | _ :: _ =>
          if decide (k < length bs)%nat
          then (Ok (Some (acc ++ take k bs)), Data (drop k bs) :: s')
          else read_exact_or_clean_eof expected stage (acc ++ bs) s'
      end
  end.

(** The loop of [read_exact_or_unexpected_eof]. *)
Fixpoint read_exact_or_unexpected_eof (expected : nat) (stage : ReadStage)
    (acc : list byte) (s : stream) : Result (list byte) FrameIoError * stream :=
  if decide (expected ≤ length acc)%nat then (Ok acc, s) else
  let eof s' :=
    (Err (UnexpectedEof stage (Z.of_nat expected) (Z.of_nat (length acc))), s') in
  match s with
  | [] => eof []
  | Fail :: s' => (Err Io, s')
  | Data bs :: s' =>
      let k := (expected - length acc)%nat in
      match bs with
      | [] => eof s'
      | _ :: _ =>
          if decide (k < length bs)%nat
          then (Ok (acc ++ take k bs), Data (drop k bs) :: s')
          else read_exact_or_unexpected_eof expected stage (acc ++ bs) s'
      end
  end.

Definition read_frame (s : stream)
    : option (Result (option Frame.t) FrameIoError * stream) :=
  match read_exact_or_clean_eof (Z.to_nat FROZEN_PREFIX_LEN) Header [] s with
  | (Err e, s) => Some (Err e, s)
  | (Ok None, s) => Some (Ok None, s)
  | (Ok (Some prefix), s) =>
      let? b4 := prefix !! 4%nat in
      let ver := byte_val b4 in
      if negb (ver =? PROTOCOL_VERSION)
      then Some (Err (DecodeHeader (UnsupportedVersion ver)), s) else
      match read_exact_or_unexpected_eof (Z.to_nat (HEADER_LEN - FROZEN_PREFIX_LEN))
              Header [] s with
      | (Err e, s) => Some (Err e, s)
      | (Ok rest, s) =>
          let header_bytes := prefix ++ rest in
          let? decoded := decode_header header_bytes in
          match decoded with
          | Err e => Some (Err (DecodeHeader e), s)
          | Ok header =>
              let len := EnvelopeHeader.len header in
              if MAX_FRAME_BODY_LEN <? len
              then Some (Err (BodyTooLarge len MAX_FRAME_BODY_LEN), s) else
              let body_len := Z.to_nat len in
              if decide (0 < body_len)%nat then
                match read_exact_or_unexpected_eof body_len Body [] s with
                | (Err e, s) => Some (Err e, s)
                | (Ok body, s) => Some (Ok (Some (Frame.from_wire header body)), s)
                end
              else Some (Ok (Some (Frame.from_wire header [])), s)
          end
      end
  end.

(** ** Writing *)

Definition write_frame (w : writer) (frame : Frame.t)
    : option (Result unit FrameIoError * writer) :=
  let len := EnvelopeHeader.len (Frame.header frame) in
  let body_len := Z.of_nat (length (Frame.body frame)) in
  if negb (len =? body_len) then Some (Err (BodyLengthMismatch len body_len), w) else
  if MAX_FRAME_BODY_LEN <? len then Some (Err (BodyTooLarge len MAX_FRAME_BODY_LEN), w) else
  let header := EnvelopeHeader.encode (Frame.header frame) in
  let? decoded := decode_header header in
  match decoded with
  | Err e => Some (Err (DecodeHeader e), w)
  | Ok _ =>
      match Frame.body frame with
      | [] => Some (write_all w header)
      | _ :: _ => Some (write_all w (header ++ Frame.body frame))
      end
  end.

(** Repeating [read_frame] until it stops giving frames. *)
Fixpoint read_frames (fuel : nat) (s : stream)
    : list Frame.t * option (Result (option Frame.t) FrameIoError) :=
  match fuel with
  | O => ([], None)
  | S fuel =>
      match read_frame s with
      | Some (Ok (Some f), s') =>
          let '(fs, last) := read_frames fuel s' in (f :: fs, last)
      | Some (r, _) => ([], Some r)
      | None => ([], None)
      end
  end.

(** Repeating [write_frame] over a sequence of frames, stopping at an error. *)
Fixpoint write_frames (w : writer) (fs : list Frame.t)
    : option (Result unit FrameIoError * writer) :=
  match fs with
  | [] => Some (Ok tt, w)
  | f :: fs =>
      let? r := write_frame w f in
      match r with
      | (Ok _, w) => write_frames w fs
      | (Err e, w) => Some (Err e, w)
      end
  end.

(** ** Lemmas *)

(** A stream that only delivers data, at least one byte at a time, and the
    bytes it delivers in all. *)
Definition delivers (s : stream) : Prop :=
  Forall (λ e, match e with Data bs => bs ≠ [] | Fail => False end) s.

Definition stream_bytes (s : stream) : list byte :=
  concat (map (λ e, match e with Data bs => bs | Fail => [] end) s).

(** What [write_frame] accepts. *)
Definition writable (f : Frame.t) : Prop :=
  EnvelopeHeader.wf (Frame.header f) ∧ header_ok (Frame.header f) = true ∧
  EnvelopeHeader.len (Frame.header f) = Z.of_nat (length (Frame.body f)) ∧
  EnvelopeHeader.len (Frame.header f) ≤ MAX_FRAME_BODY_LEN.

Definition frame_bytes (f : Frame.t) : list byte :=
  EnvelopeHeader.encode (Frame.header f) ++ Frame.body f.

Lemma delivers_chunks chunks : Forall (λ c, c ≠ []) chunks → delivers (map Data chunks).
Proof. intros H. unfold delivers. by rewrite Forall_map. Qed.

Lemma stream_bytes_chunks chunks : stream_bytes (map Data chunks) = concat chunks.
Proof. unfold stream_bytes. by rewrite map_map, map_id. Qed.

Lemma read_unexpected_spec stage n s acc :
  delivers s → (length acc ≤ n)%nat →
  let bs := stream_bytes s in
  let k := (n - length acc)%nat in
  if decide (k ≤ length bs)%nat
  then ∃ s', read_exact_or_unexpected_eof n stage acc s = (Ok (acc ++ take k bs), s') ∧
             delivers s' ∧ stream_bytes s' = drop k bs
  else read_exact_or_unexpected_eof n stage acc s
       = (Err (UnexpectedEof stage (Z.of_nat n) (Z.of_nat (length acc + length bs))), []).
Proof.
  cbn zeta. intros Hd. revert acc. induction Hd as [|e s He Hd IH]; intros acc Hacc.
  - cbn [read_exact_or_unexpected_eof stream_bytes map concat length].
    repeat case_decide; try lia.
    + exists []. rewrite take_nil, app_nil_r, drop_nil. split; [done|]. split; [by constructor|done].
    + by rewrite Nat.add_0_r.
  - destruct e as [bs|]; [|done].
    change (stream_bytes (Data bs :: s)) with (bs ++ stream_bytes s).
    rewrite length_app. cbn [read_exact_or_unexpected_eof].
    destruct (decide (n ≤ length acc)%nat) as [Hn|Hn].
    { replace (n - length acc)%nat with 0%nat by lia. case_decide; [|lia].
      exists (Data bs :: s). rewrite take_0, app_nil_r, drop_0.
      split; [done|]. split; [by constructor|done]. }
    destruct bs as [|b bs]; [done|].
    set (c := b :: bs) in *.
    destruct (decide (n - length acc < length c)%nat) as [Hlt|Hge].
    + case_decide; [|lia]. exists (Data (drop (n - length acc) c) :: s).
      rewrite take_app_le, drop_app_le by lia. split; [done|]. split; [|done].
      constructor; [|done]. intros Hnil.
      apply (f_equal length) in Hnil. rewrite length_drop in Hnil. cbn [length] in Hnil. lia.
    + specialize (IH (acc ++ c)). rewrite length_app in IH.
      specialize (IH ltac:(lia)).
      replace (n - (length acc + length c))%nat with (n - length acc - length c)%nat in IH by lia.
      repeat case_decide; try lia.
      * destruct IH as (s' & -> & Hd' & Hb'). exists s'.
        rewrite take_app_ge, drop_app_ge by lia. by rewrite <-app_assoc.
      * rewrite IH. do 3 f_equal. lia.
Qed.

Lemma read_clean_eof_agrees stage n s acc :
  acc ≠ [] →
  read_exact_or_clean_eof n stage acc s =
    (let '(r, s') := read_exact_or_unexpected_eof n stage acc s in
     (match r with Ok bs => Ok (Some bs) | Err e => Err e end, s')).
Proof.
  revert acc; induction s as [|[bs|] s IH]; intros acc Hacc;
    cbn [read_exact_or_clean_eof read_exact_or_unexpected_eof];
    (case_decide; [done|]); try (by destruct acc); try done.
  destruct bs as [|b bs]; [by destruct acc|].
  case_decide; [done|]. apply IH. by destruct acc.
Qed.

Lemma read_clean_eof_start stage n s :
  (0 < n)%nat → delivers s →
  let bs := stream_bytes s in
  if decide (n ≤ length bs)%nat
  then ∃ s', read_exact_or_clean_eof n stage [] s = (Ok (Some (take n bs)), s') ∧
             delivers s' ∧ stream_bytes s' = drop n bs
  else read_exact_or_clean_eof n stage [] s
       = (if decide (bs = []) then Ok None
          else Err (UnexpectedEof stage (Z.of_nat n) (Z.of_nat (length bs))), []).
Proof.
  intros Hn Hd. pose proof (read_unexpected_spec stage n s [] Hd) as Hspec.
  cbn [length] in Hspec. specialize (Hspec ltac:(lia)). cbn zeta in *.
  rewrite Nat.sub_0_r in Hspec. cbn [Nat.add app] in Hspec.
  destruct Hd as [|[[|b c]|] s He Hd]; [|done| |done].
  { cbn. repeat (case_decide; try lia; try done). }
  enough (read_exact_or_clean_eof n stage [] (Data (b :: c) :: s) =
    (let '(r, s') := read_exact_or_unexpected_eof n stage [] (Data (b :: c) :: s) in
     (match r with Ok bs => Ok (Some bs) | Err e => Err e end, s'))) as ->.
  { case_decide as Hle.
    - destruct Hspec as (s' & -> & ?). by exists s'.
    - rewrite Hspec. case_decide; [done|]. done. }
  clear Hspec.
  cbn [read_exact_or_clean_eof read_exact_or_unexpected_eof length app].
  case_decide; [lia|]. case_decide; [done|]. by apply read_clean_eof_agrees.
Qed.

Lemma encode_version_byte h rest n :
  EnvelopeHeader.wf h → header_ok h = true → (5 ≤ n)%nat →
  ∃ b, take n (EnvelopeHeader.encode h ++ rest) !! 4%nat = Some b ∧
       byte_val b = PROTOCOL_VERSION.
Proof.
  intros Hwf Hok Hn. pose proof (length_encode h).
  rewrite lookup_take_lt, lookup_app_l by lia. unfold EnvelopeHeader.encode.
  rewrite lookup_app_r, length_le_bytes by (rewrite length_le_bytes; lia). cbn.
  eexists; split; [done|]. rewrite byte_val_of, wrap_id by apply Hwf.
  unfold header_ok in Hok. split_bools. lia.
Qed.

(** The body part of [read_frame], once [header] has been decoded. *)
Definition read_body (header : EnvelopeHeader.t) (s : stream)
    : option (Result (option Frame.t) FrameIoError * stream) :=
  if decide (0 < Z.to_nat (EnvelopeHeader.len header))%nat then
    match read_exact_or_unexpected_eof (Z.to_nat (EnvelopeHeader.len header)) Body [] s with
    | (Err e, s) => Some (Err e, s)
    | (Ok body, s) => Some (Ok (Some (Frame.from_wire header body)), s)
    end
  else Some (Ok (Some (Frame.from_wire header [])), s).

(** [read_frame] on a stream that starts with (part of) an acceptable header. *)
Lemma read_frame_header s h tl n :
  delivers s → EnvelopeHeader.wf h → header_ok h = true →
  EnvelopeHeader.len h ≤ MAX_FRAME_BODY_LEN →
  stream_bytes s = take n (EnvelopeHeader.encode h ++ tl) → (n ≤ 21 + length tl)%nat →
  if decide (21 ≤ n)%nat
  then ∃ s', read_frame s = read_body h s' ∧ delivers s' ∧
             stream_bytes s' = take (n - 21) tl
  else if decide (n = 0%nat) then read_frame s = Some (Ok None, [])
  else ∃ expected actual,
         read_frame s = Some (Err (UnexpectedEof Header expected actual), []) ∧
         actual < expected.
Proof.
  intros Hd Hwf Hok Hmax Hs Hn. pose proof (length_encode h) as Hl.
  assert (length (stream_bytes s) = n) as Hbl by (rewrite Hs, length_take, length_app; lia).
  pose proof (read_clean_eof_start Header 5 s ltac:(lia) Hd) as H1. cbn zeta in H1.
  unfold read_frame. change (Z.to_nat FROZEN_PREFIX_LEN) with 5%nat.
  change (Z.to_nat (HEADER_LEN - FROZEN_PREFIX_LEN)) with 16%nat.
  rewrite Hbl in H1. destruct (decide (5 ≤ n)%nat) as [H5|H5].
  2:{ rewrite H1, decide_False by lia. destruct (stream_bytes s) eqn:E; cbn [length] in Hbl.
      - rewrite decide_True by lia. done.
      - rewrite decide_False by lia. do 2 eexists; split; [done|]. cbn [length]. lia. }
  destruct H1 as (s1 & -> & Hd1 & Hb1).
  destruct (encode_version_byte h tl n) as (vb & Hvb & Hver); [done..|].
  assert (take 5 (stream_bytes s) !! 4%nat = Some vb) as ->
    by (by rewrite lookup_take_lt, Hs by lia).
  rewrite Hver. cbn [negb Z.eqb PROTOCOL_VERSION Pos.eqb].
  pose proof (read_unexpected_spec Header 16 s1 [] Hd1 ltac:(cbn; lia)) as H2.
  cbn [length app] in H2. cbn zeta in H2. change (16 - 0)%nat with 16%nat in H2.
  rewrite Hb1, length_drop, Hbl in H2. destruct (decide (16 ≤ n - 5)%nat) as [H16|H16].
  2:{ rewrite H2, decide_False, decide_False by lia. do 2 eexists; split; [done|lia]. }
  destruct H2 as (s2 & -> & Hd2 & Hb2). rewrite decide_True by lia.
  rewrite take_take_drop, Hs, take_take, Nat.min_l, take_app_le, take_ge by lia.
  rewrite <-(app_nil_r (EnvelopeHeader.encode _)), decode_header_of_ok by done.
  rewrite (proj2 (Z.ltb_ge _ _)) by done. exists s2. split; [done|]. split; [done|].
  rewrite Hb2, Hs, drop_drop. change (5 + 16)%nat with 21%nat.
  rewrite take_app_ge, Hl, <-Hl by lia. by rewrite Hl, drop_app_length' by lia.
Qed.

Lemma read_frame_of_bytes s f rest :
  delivers s → writable f → stream_bytes s = frame_bytes f ++ rest →
  ∃ s', read_frame s = Some (Ok (Some f), s') ∧ delivers s' ∧ stream_bytes s' = rest.
Proof.
  intros Hd (Hwf & Hok & Hlen & Hmax) Hs. unfold frame_bytes in Hs. rewrite <-app_assoc in Hs.
  set (tl := Frame.body f ++ rest) in *.
  pose proof (length_encode (Frame.header f)) as Hl.
  pose proof (read_frame_header s (Frame.header f) tl (21 + length tl) Hd Hwf Hok Hmax) as H.
  rewrite decide_True in H by lia. replace (21 + length tl - 21)%nat with (length tl) in H by lia.
  rewrite (take_ge tl) in H by lia. destruct H as (s2 & -> & Hd2 & Hb2); [|lia|].
  { rewrite Hs, take_ge; [done|]. rewrite length_app. lia. }
  unfold read_body. rewrite Hlen, Nat2Z.id. case_decide as Hpos.
  - pose proof (read_unexpected_spec Body (length (Frame.body f)) s2 [] Hd2 ltac:(cbn; lia)) as H3.
    cbn [length app] in H3. cbn zeta in H3.
    rewrite Nat.sub_0_r, Hb2 in H3. unfold tl in H3. rewrite length_app in H3.
    rewrite decide_True in H3 by lia. destruct H3 as (s3 & -> & Hd3 & Hb3).
    exists s3. rewrite take_app_length. rewrite drop_app_length in Hb3.
    split; [|done]. by destruct f.
  - exists s2. unfold tl in Hb2. destruct f as [h [|]]; cbn in *; [|lia]. done.
Qed.

Lemma write_frame_spec ws f :
  EnvelopeHeader.wf (Frame.header f) →
  (writable f ∧ write_frame (Writer ws false) f
                = Some (Ok tt, Writer (ws ++ [frame_bytes f]) false)) ∨
  (¬ writable f ∧ ∃ e, write_frame (Writer ws false) f = Some (Err e, Writer ws false)).
Proof.
  intros Hwf. unfold write_frame, writable.
  destruct (Z.eqb_spec (EnvelopeHeader.len (Frame.header f)) (Z.of_nat (length (Frame.body f))))
    as [Hlen|Hlen]; cbn [negb]; [|right; naive_solver].
  destruct (Z.ltb_spec MAX_FRAME_BODY_LEN (EnvelopeHeader.len (Frame.header f))) as [Hm|Hm].
  { right. split; [|by eexists]. intros (_ & _ & _ & ?). lia. }
  destruct (decode_header_of_encode (Frame.header f) [] Hwf) as (r & Hr & Hiff).
  rewrite app_nil_r in Hr. rewrite Hr. destruct r as [h|e].
  - destruct (proj1 (Hiff h) eq_refl) as [-> Hok]. left. split; [naive_solver|].
    unfold write_all, frame_bytes. cbn [broken written].
    destruct (Frame.body f); [by rewrite app_nil_r|done].
  - right. split; [|by eexists]. intros (_ & Hok & _). by specialize (proj2 (Hiff _) (conj eq_refl Hok)).
Qed.

Lemma write_frames_spec ws fs :
  Forall writable fs →
  write_frames (Writer ws false) fs = Some (Ok tt, Writer (ws ++ map frame_bytes fs) false).
Proof.
  intros H. revert ws. induction H as [|f fs Hf Hfs IH]; intros ws; cbn [write_frames map].
  { by rewrite app_nil_r. }
  destruct (write_frame_spec ws f) as [[_ ->]|[Hn _]]; [apply Hf| |done].
  rewrite IH, <-app_assoc. done.
Qed.

Lemma read_frames_spec fs s fuel :
  Forall writable fs → delivers s → stream_bytes s = concat (map frame_bytes fs) →
  (length fs < fuel)%nat → read_frames fuel s = (fs, Some (Ok None)).
Proof.
  intros H. revert s fuel. induction H as [|f fs Hf Hfs IH]; intros s fuel Hd Hs Hfuel;
    (destruct fuel as [|fuel]; [cbn in Hfuel; lia|]); cbn [read_frames map concat] in *.
  - unfold read_frame. change (Z.to_nat FROZEN_PREFIX_LEN) with 5%nat.
    pose proof (read_clean_eof_start Header 5 s ltac:(lia) Hd) as H1. cbn zeta in H1.
    rewrite Hs in H1. cbn in H1. by rewrite H1.
  - destruct (read_frame_of_bytes s f _ Hd Hf Hs) as (s' & -> & Hd' & Hs').
    by rewrite (IH s' fuel Hd' Hs') by (cbn in Hfuel; lia).
Qed.

(** C6: writing frames and reading the stream back gives exactly those frames in
    order and then a clean end of file, however the bytes are split across
    reads; each frame goes out as one write. *)
Theorem frames_roundtrip fs chunks fuel :
  Forall writable fs →
  Forall (λ c, c ≠ []) chunks →
  (length fs < fuel)%nat →
  ∃ w, write_frames (Writer [] false) fs = Some (Ok tt, w) ∧
       written w = map frame_bytes fs ∧
       (concat chunks = concat (written w) →
        read_frames fuel (map Data chunks) = (fs, Some (Ok None))).
Proof.
  intros Hfs Hchunks Hfuel. rewrite write_frames_spec by done.
  eexists; split; [done|]. split; [done|]. cbn [written app]. intros Hcat.
  apply read_frames_spec; [done| | |done].
  - by apply delivers_chunks.
  - by rewrite stream_bytes_chunks.
Qed.

(** [write_frame] emits bytes only for a frame a peer can read back: one
    whose header passes the decoder and whose declared length is the body's and
    within the cap.  Any other frame is refused before anything is written. *)
Theorem write_frame_guards ws f :
  EnvelopeHeader.wf (Frame.header f) →
  (writable f ∧ write_frame (Writer ws false) f
                = Some (Ok tt, Writer (ws ++ [frame_bytes f]) false)) ∨
  (¬ writable f ∧ ∃ e, write_frame (Writer ws false) f = Some (Err e, Writer ws false)).
Proof. apply write_frame_spec. Qed.

(** a stream that ends inside a frame is never read as a frame: at a frame
    boundary it is a clean end of file, and anywhere else an
    [UnexpectedEof]. *)
Theorem read_frame_truncated f n chunks :
  writable f → (n < length (frame_bytes f))%nat →
  Forall (λ c, c ≠ []) chunks → concat chunks = take n (frame_bytes f) →
  if decide (n = 0%nat) then ∃ s, read_frame (map Data chunks) = Some (Ok None, s)
  else ∃ stage expected actual s,
         read_frame (map Data chunks) = Some (Err (UnexpectedEof stage expected actual), s) ∧
         actual < expected.
Proof.
  intros (Hwf & Hok & Hlen & Hmax) Hn Hch Hcat.
  set (s := map Data chunks). unfold frame_bytes in *. rewrite length_app, length_encode in Hn.
  assert (delivers s) as Hd by by apply delivers_chunks.
  assert (stream_bytes s = take n (EnvelopeHeader.encode (Frame.header f) ++ Frame.body f)) as Hs
    by (unfold s; rewrite stream_bytes_chunks; done).
  pose proof (read_frame_header s _ _ n Hd Hwf Hok Hmax Hs ltac:(lia)) as H.
  destruct (decide (21 ≤ n)%nat) as [H21|H21].
  2:{ destruct (decide (n = 0%nat)); [by eexists|].
      destruct H as (e & a & -> & Hlt). by do 4 eexists. }
  rewrite decide_False by lia. destruct H as (s2 & -> & Hd2 & Hb2).
  unfold read_body. rewrite Hlen, Nat2Z.id, decide_True by lia.
  pose proof (read_unexpected_spec Body (length (Frame.body f)) s2 [] Hd2 ltac:(cbn; lia)) as H3.
  cbn [length app] in H3. cbn zeta in H3. rewrite Nat.sub_0_r, Hb2, length_take in H3.
  rewrite decide_False in H3 by lia. rewrite H3. do 4 eexists; split; [done|lia].
Qed.

(** *** Witnesses *)

Definition sample_frame : Frame.t :=
  Frame.mk (EnvelopeHeader.mk 3 2 FrameType.Request (Flags.mk 2) 7 1 99)
           [Byte.x61; Byte.x62; Byte.x63].

Definition sample_chunks : list (list byte) :=
  let bs := frame_bytes sample_frame in
  [take 2 bs; drop 2 bs ++ take 22 bs; drop 22 bs].

Lemma sample_frame_writable : writable sample_frame.
Proof. repeat split; vm_compute; congruence. Qed.

Lemma frames_roundtrip_witness :
  ∃ w, write_frames (Writer [] false) [sample_frame; sample_frame] = Some (Ok tt, w) ∧
       written w = map frame_bytes [sample_frame; sample_frame] ∧
       (concat sample_chunks = concat (written w) →
        read_frames 3 (map Data sample_chunks) = ([sample_frame; sample_frame], Some (Ok None))).
Proof.
  apply (frames_roundtrip [sample_frame; sample_frame] sample_chunks 3).
  - repeat constructor; apply sample_frame_writable.
  - repeat constructor; discriminate.
  - cbn. lia.
Defined.

Lemma write_frame_guards_witness :
  (writable sample_frame ∧ write_frame (Writer [] false) sample_frame
                = Some (Ok tt, Writer ([] ++ [frame_bytes sample_frame]) false)) ∨
  (¬ writable sample_frame ∧
   ∃ e, write_frame (Writer [] false) sample_frame = Some (Err e, Writer [] false)).
Proof. apply (write_frame_guards [] sample_frame). apply sample_frame_writable. Defined.

Lemma read_frame_truncated_witness :
  ∃ stage expected actual s,
    read_frame (map Data [take 22 (frame_bytes sample_frame)])
      = Some (Err (UnexpectedEof stage expected actual), s) ∧
    actual < expected.
Proof.
  apply (read_frame_truncated sample_frame 22 [take 22 (frame_bytes sample_frame)]).
  - apply sample_frame_writable.
  - vm_compute. lia.
  - repeat constructor; discriminate.
  - reflexivity.
Defined.
