(* ===== verification/Program.v ===== *)
(** * Programs of atomic actions

    An [async] function, as far as others can see it: a sequence of atomic
    actions on shared state, each with an answer the rest depends on.  Anything
    may happen between two actions, and a function that is cancelled stops
    between two of them.  Actions and their answers are a parameter. *)

From S2P Require Import Prelude.

Class Signature := {
  Act : Type;
  resp : Act → Type;
}.

Section program.
Context `{Signature}.

Inductive Prog (R : Type) : Type :=
  | Ret (r : R)
  | Do (a : Act) (k : resp a → Prog R).
#[global] Arguments Ret {_} _.
#[global] Arguments Do {_} _ _.

Definition act (a : Act) : Prog (resp a) := Do a Ret.

#[global] Instance prog_ret : MRet Prog := @Ret.

#[global] Instance prog_bind : MBind Prog := λ A B f,
  fix go (p : Prog A) : Prog B :=
    match p with
    | Ret r => f r
    | Do a k => Do a (λ x, go (k x))
    end.

(** [let x = p.await?; f x] *)
Definition bind_ok {A B X} (p : Prog (Result A X)) (f : A → Prog (Result B X)) : Prog (Result B X) :=
  p ≫= λ r, match r with Ok x => f x | Err e => Ret (Err e) end.

(** An action that was performed, and its answer. *)
Definition Event : Type := { a : Act & resp a }.
Definition ev (a : Act) (x : resp a) : Event := existT a x.

(** ** Runs *)

Section runs.
Context {W : Type} (perform : W → ∀ a, resp a → W → Prop) (env : W → W → Prop).

(** What the program has left to do after a stretch of actions, with the steps
    of the environment in between. *)
Inductive run {R} : W → Prog R → list Event → W → Prog R → Prop :=
  | run_nil w p : run w p [] w p
  | run_env w w1 p tr w' p' : env w w1 → run w1 p tr w' p' → run w p tr w' p'
  | run_act w w1 a k x tr w' p' :
      perform w a x w1 → run w1 (k x) tr w' p' → run w (Do a k) (ev a x :: tr) w' p'.

(** Every action of a run is performed in a state the invariant holds of. *)
Lemma run_event {R} (I : W → Prop) w (p : Prog R) tr w' p' :
  (∀ w w1, I w → env w w1 → I w1) →
  (∀ w a x w1, I w → perform w a x w1 → I w1) →
  I w → run w p tr w' p' →
  I w' ∧ ∀ a x, ev a x ∈ tr → ∃ w1 w2, I w1 ∧ perform w1 a x w2.
Proof.
  intros Henv Hact HI Hrun.
  induction Hrun as [w p|w w1 p tr w' p' He _ IH|w w1 a k x tr w' p' Hp _ IH].
  - split; [done|]. by intros a x ?%elem_of_nil.
  - apply IH. by eapply Henv.
  - destruct IH as [HI' Hev]; [by eapply Hact|]. split; [done|]. intros b y Hin.
    apply elem_of_cons in Hin as [Heq|Hin]; [|by apply Hev].
    change (existT b y = (existT a x : Event)) in Heq.
    pose (P := λ e : Event, ∃ w1 w2, I w1 ∧ perform w1 (projT1 e) (projT2 e) w2).
    assert (P (existT a x)) as HP by (exists w, w1; done). by rewrite <-Heq in HP.
Qed.
End runs.

(** ** Traces of a finished program, whatever the answers *)

Fixpoint traces {R} (p : Prog R) (l : list Event) (r : R) : Prop :=
  match p with
  | Ret r' => l = [] ∧ r = r'
  | Do a k => ∃ x l', l = ev a x :: l' ∧ traces (k x) l' r
  end.

Lemma traces_bind {A B} (p : Prog A) (f : A → Prog B) l r :
  traces (p ≫= f) l r → ∃ x l1 l2, l = l1 ++ l2 ∧ traces p l1 x ∧ traces (f x) l2 r.
Proof.
  revert l. induction p as [x|a k IH]; intros l; simpl.
  - intros Hf. by exists x, [], l.
  - intros (y & l' & -> & (x & l1 & l2 & -> & Hk & Hf)%IH). exists x, (ev a y :: l1), l2.
    split_and!; [done| |done]. eauto.
Qed.

Lemma traces_bind_ok {A B X} (p : Prog (Result A X)) (f : A → Prog (Result B X)) l r :
  traces (bind_ok p f) l r →
  (∃ x l1 l2, l = l1 ++ l2 ∧ traces p l1 (Ok x) ∧ traces (f x) l2 r) ∨
  (∃ e, traces p l (Err e) ∧ r = Err e).
Proof.
  intros ([x|e] & l1 & l2 & -> & Hp & Hf)%traces_bind; [by left; exists x, l1, l2|right].
  destruct Hf as [-> ->]. rewrite app_nil_r. by exists e.
Qed.

Lemma traces_act a l x : traces (act a) l x → l = [ev a x].
Proof. by intros (y & l' & -> & -> & ->). Qed.

Lemma run_traces {W} (perform : W → ∀ a, resp a → W → Prop) (env : W → W → Prop)
    {R} w (p : Prog R) tr w' r : run perform env w p tr w' (Ret r) → traces p tr r.
Proof.
  remember (Ret r) as p' eqn:Hp'. intros Hrun. revert Hp'.
  induction Hrun as [w p|w w1 p tr w' p' _ _ IH|w w1 a k x tr w' p' _ _ IH]; intros ->; [done|auto|].
  simpl. exists x, tr. auto.
Qed.

(** ** What holds of every run

    [wp p E Q h]: after the actions of [h], every action of [p] satisfies [E]
    at the history it happens in, whatever the answers, and a result satisfies
    [Q]. *)
Section wp.
Context (E : list Event → Event → Prop).

Fixpoint wp {R} (p : Prog R) (Q : list Event → R → Prop) (h : list Event) : Prop :=
  match p with
  | Ret r => Q h r
  | Do a k => ∀ x, E h (ev a x) ∧ wp (k x) Q (h ++ [ev a x])
  end.

Lemma wp_bind {A B} (p : Prog A) (f : A → Prog B) Q h :
  wp p (λ h r, wp (f r) Q h) h → wp (p ≫= f) Q h.
Proof.
  revert h. induction p as [r|a k IH]; intros h; [done|]. simpl. intros Hp x.
  destruct (Hp x) as [He Hk]. split; [done|]. by apply IH.
Qed.

Lemma wp_mono {R} (p : Prog R) (Q Q' : list Event → R → Prop) h :
  (∀ h r, Q h r → Q' h r) → wp p Q h → wp p Q' h.
Proof.
  intros HQ. revert h. induction p as [r|a k IH]; simpl; intros h Hp; [by apply HQ|].
  intros x. destruct (Hp x). auto.
Qed.

Lemma wp_act a Q h : (∀ x, E h (ev a x) ∧ Q (h ++ [ev a x]) x) → wp (act a) Q h.
Proof. done. Qed.

Lemma wp_bind_ok {A B X} (p : Prog (Result A X)) (f : A → Prog (Result B X)) Q h :
  wp p (λ h r, match r with Ok x => wp (f x) Q h | Err e => Q h (Err e) end) h →
  wp (bind_ok p f) Q h.
Proof.
  intros Hp. apply wp_bind. eapply wp_mono; [|exact Hp]. by intros h' [x|e].
Qed.

(** A program that may be cut anywhere, and what is left of it when it is done. *)
Lemma wp_traces {R} (p : Prog R) Q h :
  wp p (λ _ _, True) h → (∀ l r, traces p l r → Q (h ++ l) r) → wp p Q h.
Proof.
  revert h. induction p as [r|a k IH]; intros h Hp HQ; simpl.
  - specialize (HQ [] r). rewrite app_nil_r in HQ. by apply HQ.
  - intros x. destruct (Hp x) as [He Hk]. split; [done|]. apply IH; [done|]. intros l r Hl.
    rewrite <-app_assoc. apply HQ. simpl. eauto.
Qed.

Lemma wp_trace {R} (p : Prog R) Q h l r :
  wp p Q h → traces p l r → (∀ l1 e l2, l = l1 ++ e :: l2 → E (h ++ l1) e) ∧ Q (h ++ l) r.
Proof.
  revert h l. induction p as [r'|a k IH]; simpl; intros h l Hp Hl.
  - destruct Hl as [-> ->]. rewrite app_nil_r. split; [|done]. by intros [|e0 l1].
  - destruct Hl as (x & l' & -> & Hl). destruct (Hp x) as [He Hk].
    destruct (IH x _ _ Hk Hl) as [Hall HQ]. rewrite <-app_assoc in HQ. split; [|done].
    intros [|e1 l1] e l2 Heq; apply (f_equal (λ l, (head l, tail l))) in Heq; simpl in Heq.
    + assert (ev a x = e) as <- by congruence. by rewrite app_nil_r.
    + assert (ev a x = e1) as <- by congruence. assert (l' = l1 ++ e :: l2) as Hl' by congruence.
      specialize (Hall l1 e l2 Hl'). by rewrite <-app_assoc in Hall.
Qed.

Lemma wp_run {W} (perform : W → ∀ a, resp a → W → Prop) (env : W → W → Prop)
    {R} w (p : Prog R) Q h tr w' p' :
  wp p Q h → run perform env w p tr w' p' →
  (∀ tr1 e tr2, tr = tr1 ++ e :: tr2 → E (h ++ tr1) e) ∧ wp p' Q (h ++ tr).
Proof.
  intros Hwp Hrun. revert h Hwp.
  induction Hrun as [w p|w w1 p tr w' p' _ _ IH|w w1 a k x tr w' p' _ _ IH]; intros h Hwp.
  - rewrite app_nil_r. split; [|done]. by intros [|e0 tr1] e tr2.
  - by apply IH.
  - destruct (Hwp x) as [He Hk]. destruct (IH _ Hk) as [Htr Hp]. rewrite <-app_assoc in Hp.
    split; [|done]. intros [|e1 tr1] e tr2 Heq; apply (f_equal (λ l, (head l, tail l))) in Heq; simpl in Heq.
    + assert (ev a x = e) as <- by congruence. by rewrite app_nil_r.
    + assert (ev a x = e1) as <- by congruence. assert (tr = tr1 ++ e :: tr2) as Htr1 by congruence.
      specialize (Htr tr1 e tr2 Htr1). by rewrite <-app_assoc in Htr.
Qed.
End wp.

Lemma wp_weaken {R} (E E' : list Event → Event → Prop) (p : Prog R) Q h :
  (∀ h e, E h e → E' h e) → wp E p Q h → wp E' p Q h.
Proof.
  intros HE. revert h. induction p as [r|a k IH]; simpl; intros h Hp; [done|].
  intros x. destruct (Hp x). auto.
Qed.

(** A property of single events. *)
Lemma wp_Forall {R} (P : Event → Prop) (p : Prog R) h l r :
  wp (λ _ e, P e) p (λ _ _, True) h → traces p l r → Forall P l.
Proof.
  intros Hp Hl. destruct (wp_trace _ _ _ _ _ _ Hp Hl) as [Hall _]. apply Forall_forall.
  intros e (l1 & l2 & ->)%list_elem_of_split. by eapply Hall.
Qed.
End program.

Notation "x ←! p ; k" := (bind_ok p (λ x, k))
  (at level 20, p at level 100, k at level 200, only parsing) : rust_scope.
