(* ===== verification/Egress.v ===== *)
(** * The egress queue of a connection ([crates/subc-daemon/src/router.rs])

    The queued-byte accounting every clone of a connection's sink shares, and
    the senders that wait for room in it.  The code takes no lock: each atomic
    operation is a step of its own here, and the operations of different
    senders, frames and the writer interleave freely. *)

From S2P Require Import Prelude Collections Envelope.

(** ** The accounting *)

Module EgressAccounting.
Record t := mk {
  byte_budget : Z;
  queued_bytes : Z;
  queued_frames : Z;
  oldest_enqueued_nanos : Z;
  waiters : Z;
  client_delivery_closed : bool;
}.

#[global] Instance expand : Expand t := λ e,
  mk (byte_budget e) (queued_bytes e) (queued_frames e) (oldest_enqueued_nanos e) (waiters e)
     (client_delivery_closed e).

Definition new (byte_budget : Z) : t := mk byte_budget 0 0 0 0 false.

(** Nanoseconds after the time base, plus one. *)
Definition stamp (time_base at_ : Z) : Z := Z.min (wrap 64 (Z.max 0 (at_ - time_base)) + 1) (2 ^ 64 - 1).

Definition has_room (e : t) (bytes : Z) : bool :=
  (queued_bytes e =? 0) || (Z.min (queued_bytes e + bytes) (2 ^ 64 - 1) <=? byte_budget e).

(** The exchange that succeeds: the value it replaces is the one just checked. *)
Definition try_charge (e : t) (bytes : Z) : option t :=
  if has_room e bytes
  then Some (e <| queued_bytes := wrap 64 (queued_bytes e + bytes) |>) else None.

Definition charge_unconditionally (e : t) (bytes : Z) : t :=
  e <| queued_bytes := wrap 64 (queued_bytes e + bytes) |>.

(** [record], in its two steps: count the frame, and mark it as the head if it
    made the queue non-empty. *)
Definition count_frame (e : t) : bool * t :=
  (queued_frames e =? 0, e <| queued_frames := wrap 64 (queued_frames e + 1) |>).

Definition taken_by_writer (e : t) (stamp : Z) : t := e <| oldest_enqueued_nanos := stamp |>.

(** [release], in its steps: give the bytes back, uncount the frame, clear the
    marker if the queue drained and it still names this frame, look for
    waiters. *)
Definition free_bytes (e : t) (bytes : Z) : t :=
  e <| queued_bytes := wrap 64 (queued_bytes e - bytes) |>.

Definition uncount_frame (e : t) : bool * t :=
  (queued_frames e =? 1, e <| queued_frames := wrap 64 (queued_frames e - 1) |>).

Definition clear_marker (e : t) (stamp : Z) : t :=
  if oldest_enqueued_nanos e =? stamp then e <| oldest_enqueued_nanos := 0 |> else e.

Definition has_waiters (e : t) : bool := negb (waiters e =? 0).

Definition add_waiter (e : t) : t := e <| waiters := wrap 64 (waiters e + 1) |>.
Definition drop_waiter (e : t) : t := e <| waiters := wrap 64 (waiters e - 1) |>.

(** What [backlog] reports, in nanoseconds. *)
Definition backlog (e : t) (time_base now : Z) : Z * Z * option Z :=
  (queued_bytes e, queued_frames e,
   if negb (queued_frames e =? 0) && negb (oldest_enqueued_nanos e =? 0)
   then Some (Z.max 0 (now - (time_base + (oldest_enqueued_nanos e - 1)))) else None).
End EgressAccounting.

(** Bytes a frame occupies: header and body. *)
Definition queued_frame_bytes (frame : Frame.t) : Z :=
  HEADER_LEN + Z.of_nat (length (Frame.body frame)).

(** ** Frames and senders at work *)

(** Where a charged frame is. *)
Inductive ChargePhase :=
  | Charged                (* its bytes are counted *)
  | CountedFirst           (* it is counted, and has yet to mark itself as the head *)
  | Queued                 (* on the queue, or with the writer *)
  | Freed                  (* dropped: its bytes are given back *)
  | UncountedLast          (* uncounted, and has yet to clear the marker *)
  | Waking                 (* about to look for waiters *)
  | Notifying.             (* it saw waiters, and is about to wake them *)
#[global] Instance ChargePhase_eq_dec : EqDecision ChargePhase.
Proof. solve_decision. Defined.

(** An [EgressCharge]; a [reserved] one was sent through a permit. *)
Record EgressCharge := mkEgressCharge {
  bytes : Z;
  charge_stamp : Z;
  reserved_slot : bool;
  charge_phase : ChargePhase;
}.

Definition at_phase (c : EgressCharge) (p : ChargePhase) : EgressCharge :=
  mkEgressCharge (bytes c) (charge_stamp c) (reserved_slot c) p.

(** Where a sender inside [charge_waiting] is. *)
Inductive SenderPhase :=
  | Refused                (* its first attempt failed *)
  | Counting               (* it is counted as a waiter, and at the head of its loop *)
  | Listening              (* it asked to be notified, and is about to check again *)
  | Parked                 (* that check failed: it waits *)
  | Leaving.               (* it has its charge, or gave up, and is still counted *)

Record Sender := mkSender {
  wanted : Z;
  sender_phase : SenderPhase;
  notified : bool;
}.

Record Queue := mkQueue {
  accounting : EgressAccounting.t;
  charges : gmap nat EgressCharge;
  senders : gmap nat Sender;
}.

#[global] Instance queue_expand : Expand Queue := λ q, mkQueue (accounting q) (charges q) (senders q).

(** [Notify::notify_waiters]: wakes those who asked to be notified. *)
Definition notify (s : Sender) : Sender :=
  match sender_phase s with
  | Listening | Parked => mkSender (wanted s) (sender_phase s) true
  | _ => s
  end.

Definition set_charge (q : Queue) (e : EgressAccounting.t) (id : nat) (c : EgressCharge) : Queue :=
  mkQueue e (<[id := c]> (charges q)) (senders q).

Definition set_sender (q : Queue) (e : EgressAccounting.t) (id : nat) (s : Sender) : Queue :=
  mkQueue e (charges q) (<[id := s]> (senders q)).

(** ** Sums over what is at work *)

Definition msum {A} (f : A → Z) (m : gmap nat A) : Z := map_fold (λ _ a z, f a + z) 0 m.

Section msum.
Context {A : Type} (f : A → Z).
Implicit Types (m : gmap nat A).

Lemma msum_empty : msum f ∅ = 0.
Proof. apply map_fold_empty. Qed.

Lemma msum_insert m i x : m !! i = None → msum f (<[i := x]> m) = f x + msum f m.
Proof. intros Hi. unfold msum. rewrite map_fold_insert_L; [done|intros; lia|done]. Qed.

Lemma msum_delete m i x : m !! i = Some x → msum f m = f x + msum f (delete i m).
Proof. intros Hi. unfold msum. rewrite (map_fold_delete_L _ _ i x m); [done|intros; lia|done]. Qed.

Lemma msum_update m i x y : m !! i = Some x → msum f (<[i := y]> m) = msum f m - f x + f y.
Proof.
  intros Hi. rewrite <-insert_delete_eq, msum_insert by apply lookup_delete_eq.
  rewrite (msum_delete m i x Hi). lia.
Qed.

Lemma msum_without m i x : m !! i = Some x → msum f (delete i m) = msum f m - f x.
Proof. intros Hi. rewrite (msum_delete m i x Hi). lia. Qed.

Lemma msum_nonneg m : (∀ i x, m !! i = Some x → 0 ≤ f x) → 0 ≤ msum f m.
Proof.
  induction m as [|i x m Hi IH] using map_ind; intros Hx; [rewrite msum_empty; lia|].
  rewrite msum_insert by done. pose proof (Hx i x (lookup_insert_eq _ _ _)).
  enough (0 ≤ msum f m) by lia. apply IH. intros j y Hj. apply (Hx j y).
  rewrite lookup_insert_ne by congruence. done.
Qed.

Lemma msum_bound m i x : (∀ j y, m !! j = Some y → 0 ≤ f y) → m !! i = Some x → f x ≤ msum f m.
Proof.
  intros Hf Hi. rewrite (msum_delete m i x Hi). enough (0 ≤ msum f (delete i m)) by lia.
  apply msum_nonneg. intros j y [_ Hj]%lookup_delete_Some. eauto.
Qed.
End msum.

Lemma msum_fmap {A B} (f : A → Z) (g : B → A) (m : gmap nat B) : msum f (g <$> m) = msum (f ∘ g) m.
Proof.
  induction m as [|i x m Hi IH] using map_ind; [by rewrite fmap_empty, !msum_empty|].
  rewrite fmap_insert, !msum_insert by (rewrite ?lookup_fmap, ?Hi; done). by rewrite IH.
Qed.

Lemma msum_ext {A} (f g : A → Z) (m : gmap nat A) :
  (∀ i x, m !! i = Some x → f x = g x) → msum f m = msum g m.
Proof.
  induction m as [|i x m Hi IH] using map_ind; intros Hx; [by rewrite !msum_empty|].
  rewrite !msum_insert by done. rewrite (Hx i x (lookup_insert_eq _ _ _)). f_equal. apply IH.
  intros j y Hj. apply (Hx j y). rewrite lookup_insert_ne by congruence. done.
Qed.

(** ** Steps *)

(** The bytes and the frame a charge still counts for. *)
Definition holds_bytes (c : EgressCharge) : bool :=
  match charge_phase c with Charged | CountedFirst | Queued => true | _ => false end.

Definition bytes_of (c : EgressCharge) : Z := if holds_bytes c then bytes c else 0.

Definition frames_of (c : EgressCharge) : Z :=
  match charge_phase c with CountedFirst | Queued | Freed => 1 | _ => 0 end.

(** Charges made under the budget check. *)
Definition plain_bytes_of (c : EgressCharge) : Z := if reserved_slot c then 0 else bytes_of c.
Definition plain_frames_of (c : EgressCharge) : Z :=
  if reserved_slot c || negb (holds_bytes c) then 0 else 1.

Definition waits (s : Sender) : Z := match sender_phase s with Refused => 0 | _ => 1 end.

(** Given back its bytes, and has yet to wake whom it must. *)
Definition releasing (c : EgressCharge) : bool :=
  match charge_phase c with Freed | UncountedLast | Waking | Notifying => true | _ => false end.

(** Every atomic operation of every frame and sender.  Two premises say that no
    64-bit counter of bytes or waiters overflows. *)
Inductive egress_step (q : Queue) : Queue → Prop :=
  | eg_charge id n stamp e :
      charges q !! id = None → 0 < n < 2 ^ 64 →
      EgressAccounting.try_charge (accounting q) n = Some e →
      egress_step q (set_charge q e id (mkEgressCharge n stamp false Charged))
  | eg_permit id n stamp :
      charges q !! id = None → 0 < n → msum bytes_of (charges q) + n < 2 ^ 64 →
      egress_step q (set_charge q (EgressAccounting.charge_unconditionally (accounting q) n) id
                       (mkEgressCharge n stamp true Charged))
  | eg_count id c first e :
      charges q !! id = Some c → charge_phase c = Charged →
      EgressAccounting.count_frame (accounting q) = (first, e) →
      egress_step q (set_charge q e id (at_phase c (if first : bool then CountedFirst else Queued)))
  | eg_mark id c :
      charges q !! id = Some c → charge_phase c = CountedFirst →
      egress_step q (set_charge q (EgressAccounting.taken_by_writer (accounting q) (charge_stamp c)) id
                       (at_phase c Queued))
  | eg_taken id c :
      charges q !! id = Some c → charge_phase c = Queued →
      egress_step q (set_charge q (EgressAccounting.taken_by_writer (accounting q) (charge_stamp c)) id c)
  | eg_free id c :
      charges q !! id = Some c → charge_phase c = Queued →
      egress_step q (set_charge q (EgressAccounting.free_bytes (accounting q) (bytes c)) id
                       (at_phase c Freed))
  | eg_uncount id c last e :
      charges q !! id = Some c → charge_phase c = Freed →
      EgressAccounting.uncount_frame (accounting q) = (last, e) →
      egress_step q (set_charge q e id (at_phase c (if last : bool then UncountedLast else Waking)))
  | eg_clear id c :
      charges q !! id = Some c → charge_phase c = UncountedLast →
      egress_step q (set_charge q (EgressAccounting.clear_marker (accounting q) (charge_stamp c)) id
                       (at_phase c Waking))
  | eg_look id c :
      charges q !! id = Some c → charge_phase c = Waking →
      EgressAccounting.has_waiters (accounting q) = true →
      egress_step q (set_charge q (accounting q) id (at_phase c Notifying))
  | eg_look_none id c :
      charges q !! id = Some c → charge_phase c = Waking →
      EgressAccounting.has_waiters (accounting q) = false →
      egress_step q (mkQueue (accounting q) (delete id (charges q)) (senders q))
  | eg_notify id c :
      charges q !! id = Some c → charge_phase c = Notifying →
      egress_step q (mkQueue (accounting q) (delete id (charges q)) (notify <$> senders q))
  | eg_wait id n :
      senders q !! id = None → 0 < n < 2 ^ 64 →
      EgressAccounting.try_charge (accounting q) n = None →
      egress_step q (set_sender q (accounting q) id (mkSender n Refused false))
  | eg_add_waiter id n b :
      senders q !! id = Some (mkSender n Refused b) → msum waits (senders q) + 1 < 2 ^ 64 →
      egress_step q (set_sender q (EgressAccounting.add_waiter (accounting q)) id (mkSender n Counting false))
  | eg_listen id n b :
      senders q !! id = Some (mkSender n Counting b) →
      egress_step q (set_sender q (accounting q) id (mkSender n Listening false))
  | eg_recheck id n b cid stamp e :
      senders q !! id = Some (mkSender n Listening b) → charges q !! cid = None →
      EgressAccounting.try_charge (accounting q) n = Some e →
      egress_step q (mkQueue e (<[cid := mkEgressCharge n stamp false Charged]> (charges q))
                       (<[id := mkSender n Leaving b]> (senders q)))
  | eg_park id n b :
      senders q !! id = Some (mkSender n Listening b) →
      EgressAccounting.try_charge (accounting q) n = None →
      egress_step q (set_sender q (accounting q) id (mkSender n Parked b))
  | eg_wake id n :
      senders q !! id = Some (mkSender n Parked true) →
      egress_step q (set_sender q (accounting q) id (mkSender n Counting false))
  | eg_give_up id n b :
      senders q !! id = Some (mkSender n Parked b) →
      egress_step q (set_sender q (accounting q) id (mkSender n Leaving b))
  | eg_leave id n b :
      senders q !! id = Some (mkSender n Leaving b) →
      egress_step q (mkQueue (EgressAccounting.drop_waiter (accounting q)) (charges q) (delete id (senders q))).

Inductive egress_reachable (budget : Z) : Queue → Prop :=
  | egress_initial : egress_reachable budget (mkQueue (EgressAccounting.new budget) ∅ ∅)
  | egress_next q q' : egress_reachable budget q → egress_step q q' → egress_reachable budget q'.

(** ** The invariant *)

Record queue_ok (budget : Z) (q : Queue) : Prop := {
  qk_budget : EgressAccounting.byte_budget (accounting q) = budget;
  qk_bytes : EgressAccounting.queued_bytes (accounting q) = msum bytes_of (charges q);
  qk_width : msum bytes_of (charges q) < 2 ^ 64;
  qk_size id c : charges q !! id = Some c → 0 < bytes c;
  qk_wanted id s : senders q !! id = Some s → 0 < wanted s < 2 ^ 64;
  qk_frames : EgressAccounting.queued_frames (accounting q) = wrap 64 (msum frames_of (charges q));
  qk_waiters : EgressAccounting.waiters (accounting q) = msum waits (senders q) ∧
               msum waits (senders q) < 2 ^ 64;
  qk_limit : msum plain_bytes_of (charges q) ≤ budget ∨ msum plain_frames_of (charges q) = 1;
  qk_parked id n : senders q !! id = Some (mkSender n Parked false) →
    EgressAccounting.has_room (accounting q) n = false ∨
    ∃ cid c, charges q !! cid = Some c ∧ releasing c = true;
}.

Section queue.
Context (budget : Z) (Hbudget : 0 ≤ budget < 2 ^ 64 - 1).
Implicit Types (q : Queue).

Lemma msum_le {A} (f g : A → Z) (m : gmap nat A) :
  (∀ i x, m !! i = Some x → f x ≤ g x) → msum f m ≤ msum g m.
Proof.
  induction m as [|i x m Hi IH] using map_ind; intros Hx; [rewrite !msum_empty; lia|].
  rewrite !msum_insert by done. pose proof (Hx i x (lookup_insert_eq _ _ _)).
  enough (msum f m ≤ msum g m) by lia. apply IH. intros j y Hj. apply (Hx j y).
  rewrite lookup_insert_ne by congruence. done.
Qed.

Lemma bytes_nonneg q : queue_ok budget q → 0 ≤ msum bytes_of (charges q).
Proof.
  intros Hok. apply msum_nonneg. intros i c Hc. pose proof (qk_size _ _ Hok i c Hc).
  unfold bytes_of. destruct (holds_bytes c); lia.
Qed.

Lemma plain_nonneg q : queue_ok budget q → 0 ≤ msum plain_bytes_of (charges q) ≤ msum bytes_of (charges q).
Proof.
  intros Hok. split; [apply msum_nonneg|apply msum_le]; intros i c Hc;
    pose proof (qk_size _ _ Hok i c Hc); unfold plain_bytes_of, bytes_of;
    destruct (reserved_slot c), (holds_bytes c); lia.
Qed.

Lemma plain_frames_le q :
  queue_ok budget q → 0 ≤ msum plain_frames_of (charges q) ≤ msum bytes_of (charges q).
Proof.
  intros Hok. split; [apply msum_nonneg|apply msum_le]; intros i c Hc;
    pose proof (qk_size _ _ Hok i c Hc); unfold plain_frames_of, bytes_of;
    destruct (reserved_slot c), (holds_bytes c); simpl; lia.
Qed.

Lemma plain_frames_nonneg (m : gmap nat EgressCharge) : 0 ≤ msum plain_frames_of m.
Proof. apply msum_nonneg. intros i c _. unfold plain_frames_of. case_match; lia. Qed.

Lemma queued_measures c :
  charge_phase c = Queued →
  bytes_of c = bytes c ∧ frames_of c = 1 ∧
  plain_bytes_of c = (if reserved_slot c then 0 else bytes c) ∧
  plain_frames_of c = (if reserved_slot c then 0 else 1).
Proof.
  intros Hp. unfold plain_bytes_of, plain_frames_of, bytes_of, frames_of, holds_bytes. rewrite Hp.
  by destruct (reserved_slot c).
Qed.

(** Phases after the bytes are given back. *)
Lemma freed_measures c :
  bytes_of (at_phase c Freed) = 0 ∧ frames_of (at_phase c Freed) = 1 ∧
  plain_bytes_of (at_phase c Freed) = 0 ∧ plain_frames_of (at_phase c Freed) = 0.
Proof. unfold plain_bytes_of, plain_frames_of; simpl. by destruct (reserved_slot c). Qed.

Lemma gone_measures c :
  charge_phase c = Waking ∨ charge_phase c = Notifying →
  bytes_of c = 0 ∧ frames_of c = 0 ∧ plain_bytes_of c = 0 ∧ plain_frames_of c = 0.
Proof.
  unfold plain_bytes_of, plain_frames_of, bytes_of, frames_of, holds_bytes.
  by intros [-> | ->]; destruct (reserved_slot c).
Qed.

Lemma waits_nonneg (m : gmap nat Sender) : 0 ≤ msum waits m.
Proof. apply msum_nonneg. intros i s _. unfold waits. destruct (sender_phase s); lia. Qed.

(** Room, in terms of the bytes outstanding. *)
Lemma has_room_iff q n :
  queue_ok budget q → 0 < n →
  EgressAccounting.has_room (accounting q) n = true ↔
  msum bytes_of (charges q) = 0 ∨ msum bytes_of (charges q) + n ≤ budget.
Proof.
  intros Hok Hn. unfold EgressAccounting.has_room. rewrite (qk_bytes _ _ Hok), (qk_budget _ _ Hok).
  rewrite orb_true_iff, Z.eqb_eq, Z.leb_le. pose proof (bytes_nonneg q Hok). lia.
Qed.

Lemma try_charge_Some q n e :
  queue_ok budget q → 0 < n < 2 ^ 64 →
  EgressAccounting.try_charge (accounting q) n = Some e →
  e = (accounting q) <| EgressAccounting.queued_bytes := msum bytes_of (charges q) + n |> ∧
  (msum bytes_of (charges q) = 0 ∨ msum bytes_of (charges q) + n ≤ budget).
Proof.
  intros Hok Hn. unfold EgressAccounting.try_charge.
  destruct (EgressAccounting.has_room (accounting q) n) eqn:Hroom; [|done]. intros [= <-].
  apply has_room_iff in Hroom; [|done|lia]. split; [|done]. rewrite (qk_bytes _ _ Hok).
  pose proof (bytes_nonneg q Hok). rewrite wrap_id; [done|]. unfold in_width. lia.
Qed.

(** Nothing frees room but a release. *)
Lemma no_room_kept (e e' : EgressAccounting.t) n :
  EgressAccounting.byte_budget e' = EgressAccounting.byte_budget e →
  0 ≤ EgressAccounting.queued_bytes e ≤ EgressAccounting.queued_bytes e' →
  EgressAccounting.has_room e n = false → EgressAccounting.has_room e' n = false.
Proof. unfold EgressAccounting.has_room. intros -> Hle. rewrite !orb_false_iff, !Z.eqb_neq, !Z.leb_gt. lia. Qed.

Lemma parked_kept q e ch :
  queue_ok budget q →
  EgressAccounting.byte_budget e = EgressAccounting.byte_budget (accounting q) →
  EgressAccounting.queued_bytes (accounting q) ≤ EgressAccounting.queued_bytes e →
  (∀ cid c, charges q !! cid = Some c → releasing c = true →
     ∃ c', ch !! cid = Some c' ∧ releasing c' = true) →
  ∀ id n, senders q !! id = Some (mkSender n Parked false) →
    EgressAccounting.has_room e n = false ∨
    ∃ cid c, (ch : gmap nat EgressCharge) !! cid = Some c ∧ releasing c = true.
Proof.
  intros Hok Hb Hle Hrel id n Hs. destruct (qk_parked _ _ Hok id n Hs) as [Hno|(cid & c & Hc & Hr)].
  - left. eapply no_room_kept; [exact Hb| |exact Hno]. split; [|done].
    rewrite (qk_bytes _ _ Hok). by apply bytes_nonneg.
  - right. destruct (Hrel cid c Hc Hr) as (c' & ? & ?). eauto.
Qed.

(** A frame is charged. *)
Lemma charged_ok q e id n stamp reserved :
  queue_ok budget q → charges q !! id = None → 0 < n → msum bytes_of (charges q) + n < 2 ^ 64 →
  e = (accounting q) <| EgressAccounting.queued_bytes := msum bytes_of (charges q) + n |> →
  (reserved = false → msum bytes_of (charges q) = 0 ∨ msum bytes_of (charges q) + n ≤ budget) →
  queue_ok budget (set_charge q e id (mkEgressCharge n stamp reserved Charged)).
Proof.
  intros Hok Hid Hn Hw -> Hroom. pose proof (bytes_nonneg q Hok). pose proof (plain_nonneg q Hok).
  pose proof (plain_frames_le q Hok). set (c := mkEgressCharge n stamp reserved Charged).
  split; simpl; rewrite ?msum_insert by done.
  - apply Hok.
  - change (bytes_of c) with n. lia.
  - change (bytes_of c) with n. lia.
  - intros id' c' [[<- <-]|[_ Hc]]%lookup_insert_Some; [done|by eapply qk_size].
  - apply Hok.
  - apply Hok.
  - apply Hok.
  - change (plain_bytes_of c) with (if reserved then 0 else n).
    change (plain_frames_of c) with (if reserved || false then 0 else 1).
    destruct (qk_limit _ _ Hok), reserved; simpl; try lia; specialize (Hroom eq_refl); lia.
  - apply (parked_kept q); simpl; [done|done| |].
    + rewrite (qk_bytes _ _ Hok). lia.
    + intros cid c' Hc Hr. exists c'. by rewrite lookup_insert_ne by congruence.
Qed.

(** A frame moves on, without giving its bytes back. *)
Lemma moved_ok q e id c p :
  queue_ok budget q → charges q !! id = Some c →
  EgressAccounting.byte_budget e = EgressAccounting.byte_budget (accounting q) →
  EgressAccounting.queued_bytes e = EgressAccounting.queued_bytes (accounting q) →
  EgressAccounting.waiters e = EgressAccounting.waiters (accounting q) →
  EgressAccounting.queued_frames e
  = wrap 64 (msum frames_of (charges q) - frames_of c + frames_of (at_phase c p)) →
  holds_bytes (at_phase c p) = holds_bytes c → (releasing c = true → releasing (at_phase c p) = true) →
  queue_ok budget (set_charge q e id (at_phase c p)).
Proof.
  intros Hok Hid Hb Hq Hw Hf Hh Hr.
  assert (bytes_of (at_phase c p) = bytes_of c) as Hbytes by (unfold bytes_of; by rewrite Hh).
  assert (plain_bytes_of (at_phase c p) = plain_bytes_of c) as Hplain
    by (unfold plain_bytes_of; by rewrite Hbytes).
  assert (plain_frames_of (at_phase c p) = plain_frames_of c) as Hcount
    by (unfold plain_frames_of; by rewrite Hh).
  split; simpl; rewrite ?(msum_update _ _ _ _ _ Hid); rewrite ?Hb, ?Hq, ?Hw.
  - apply Hok.
  - rewrite Hbytes, (qk_bytes _ _ Hok). lia.
  - rewrite Hbytes. pose proof (qk_width _ _ Hok). lia.
  - intros id' c' [[<- <-]|[_ Hc]]%lookup_insert_Some; [exact (qk_size _ _ Hok id c Hid)|by eapply qk_size].
  - apply Hok.
  - exact Hf.
  - apply Hok.
  - rewrite Hplain, Hcount. destruct (qk_limit _ _ Hok); [left|right]; lia.
  - apply (parked_kept q); simpl; [done|done|lia|].
    intros cid c' Hc Hr'. destruct (decide (cid = id)) as [->|Hne].
    + rewrite lookup_insert_eq. assert (c' = c) as -> by congruence. eauto.
    + rewrite lookup_insert_ne by done. eauto.
Qed.

Lemma at_phase_same c : at_phase c (charge_phase c) = c.
Proof. by destruct c. Qed.

(** The same, when the frames counted do not change. *)
Lemma moved_in_place_ok q e id c p :
  queue_ok budget q → charges q !! id = Some c →
  EgressAccounting.byte_budget e = EgressAccounting.byte_budget (accounting q) →
  EgressAccounting.queued_bytes e = EgressAccounting.queued_bytes (accounting q) →
  EgressAccounting.waiters e = EgressAccounting.waiters (accounting q) →
  EgressAccounting.queued_frames e = EgressAccounting.queued_frames (accounting q) →
  frames_of (at_phase c p) = frames_of c →
  holds_bytes (at_phase c p) = holds_bytes c → (releasing c = true → releasing (at_phase c p) = true) →
  queue_ok budget (set_charge q e id (at_phase c p)).
Proof.
  intros Hok Hid Hb Hq Hw Hf Hsame Hh Hr. apply moved_ok; try done.
  rewrite Hf, Hsame, Z.sub_add. apply (qk_frames _ _ Hok).
Qed.

(** No frame under the budget check, no bytes under it. *)
Lemma no_plain_frames (m : gmap nat EgressCharge) :
  msum plain_frames_of m = 0 → msum plain_bytes_of m = 0.
Proof.
  induction m as [|i c m Hi IH] using map_ind; [by rewrite !msum_empty|].
  rewrite !msum_insert by done. intros Hs. pose proof (plain_frames_nonneg m).
  unfold plain_frames_of in Hs at 1. unfold plain_bytes_of at 1. unfold bytes_of.
  destruct (reserved_slot c), (holds_bytes c); simpl in *; rewrite IH; lia.
Qed.

(** A dropped frame gives its bytes back. *)
Lemma freed_ok q id c :
  queue_ok budget q → charges q !! id = Some c → charge_phase c = Queued →
  queue_ok budget (set_charge q (EgressAccounting.free_bytes (accounting q) (bytes c)) id (at_phase c Freed)).
Proof.
  intros Hok Hid Hp. pose proof (qk_size _ _ Hok id c Hid) as Hn. pose proof (qk_width _ _ Hok) as Hwidth.
  destruct (queued_measures c Hp) as (Hb & Hf & Hpb & Hpf).
  destruct (freed_measures c) as (Hb' & Hf' & Hpb' & Hpf').
  assert (bytes c ≤ msum bytes_of (charges q)) as Hle.
  { rewrite <-Hb. eapply msum_bound; [|exact Hid]. intros i d Hd. pose proof (qk_size _ _ Hok i d Hd).
    unfold bytes_of. destruct (holds_bytes d); lia. }
  split; simpl; rewrite ?(msum_update _ _ _ _ _ Hid), ?Hb, ?Hb', ?Hf, ?Hf', ?Hpb', ?Hpf'.
  - apply Hok.
  - rewrite (qk_bytes _ _ Hok), wrap_id by (unfold in_width; lia). lia.
  - lia.
  - intros id' c' [[<- <-]|[_ Hc]]%lookup_insert_Some; [exact Hn|by eapply qk_size].
  - apply Hok.
  - rewrite (qk_frames _ _ Hok). f_equal. lia.
  - apply Hok.
  - rewrite Hpb, Hpf. destruct (qk_limit _ _ Hok) as [Hl|Hl]; [left; case_match; lia|].
    destruct (reserved_slot c) eqn:Hres; [right; lia|left].
    pose proof (msum_delete plain_frames_of _ _ _ Hid) as Hrest. rewrite Hpf in Hrest.
    pose proof (msum_delete plain_bytes_of _ _ _ Hid) as Hrest'. rewrite Hpb in Hrest'.
    rewrite (no_plain_frames (delete id (charges q))) in Hrest' by lia. lia.
  - intros id' n Hs. right. exists id, (at_phase c Freed). by rewrite lookup_insert_eq.
Qed.

(** A release is over, and whoever was parked is woken. *)
Lemma gone_ok q id c ss :
  queue_ok budget q → charges q !! id = Some c → charge_phase c = Waking ∨ charge_phase c = Notifying →
  msum waits ss = msum waits (senders q) →
  (∀ sid s, ss !! sid = Some s → ∃ s0, senders q !! sid = Some s0 ∧ wanted s0 = wanted s) →
  (∀ sid n, ss !! sid ≠ Some (mkSender n Parked false)) →
  queue_ok budget (mkQueue (accounting q) (delete id (charges q)) ss).
Proof.
  intros Hok Hid Hp Hw Hss Hnone. destruct (gone_measures c Hp) as (Hb & Hf & Hpb & Hpf).
  split; simpl; rewrite ?(msum_without _ _ _ _ Hid), ?Hb, ?Hf, ?Hpb, ?Hpf, ?Z.sub_0_r, ?Hw; try apply Hok.
  - intros id' c' [_ Hc]%lookup_delete_Some. by eapply qk_size.
  - intros sid s (s0 & Hs0 & <-)%Hss. by eapply qk_wanted.
  - intros sid n Hs. by destruct (Hnone sid n).
Qed.

(** A sender moves on. *)
Lemma sender_ok q e ss :
  queue_ok budget q →
  EgressAccounting.byte_budget e = EgressAccounting.byte_budget (accounting q) →
  EgressAccounting.queued_bytes e = EgressAccounting.queued_bytes (accounting q) →
  EgressAccounting.queued_frames e = EgressAccounting.queued_frames (accounting q) →
  EgressAccounting.waiters e = msum waits ss → msum waits ss < 2 ^ 64 →
  (∀ sid s, ss !! sid = Some s → 0 < wanted s < 2 ^ 64) →
  (∀ sid n, ss !! sid = Some (mkSender n Parked false) →
     senders q !! sid = Some (mkSender n Parked false) ∨
     EgressAccounting.has_room (accounting q) n = false) →
  queue_ok budget (mkQueue e (charges q) ss).
Proof.
  intros Hok Hb Hq Hf Hw Hlt Hss Hpark. split; simpl; rewrite ?Hb, ?Hq, ?Hf; try apply Hok; try done.
  assert (∀ n, EgressAccounting.has_room e n = EgressAccounting.has_room (accounting q) n) as Hroom.
  { intros n. unfold EgressAccounting.has_room. by rewrite Hb, Hq. }
  intros sid n [Hs|Hs]%Hpark; rewrite Hroom; [by eapply qk_parked|by left].
Qed.

Lemma set_sender_ok q e id s0 s :
  queue_ok budget q → senders q !! id = Some s0 → wanted s = wanted s0 →
  e = (accounting q) <| EgressAccounting.waiters := msum waits (senders q) - waits s0 + waits s |> →
  msum waits (senders q) - waits s0 + waits s < 2 ^ 64 →
  (sender_phase s = Parked → notified s = false → EgressAccounting.has_room (accounting q) (wanted s) = false) →
  queue_ok budget (set_sender q e id s).
Proof.
  intros Hok Hs0 Hwant -> Hlt Hpark. apply sender_ok; simpl; try done.
  - by rewrite (msum_update _ _ _ _ _ Hs0).
  - by rewrite (msum_update _ _ _ _ _ Hs0).
  - intros sid s' [[<- <-]|[_ Hs]]%lookup_insert_Some; [rewrite Hwant|]; by eapply qk_wanted.
  - intros sid n [[<- ->]|[_ Hs]]%lookup_insert_Some; [right; by apply Hpark|by left].
Qed.

(** The same, when the sender stays counted, or uncounted. *)
Lemma sender_moves_ok q id s0 s :
  queue_ok budget q → senders q !! id = Some s0 → wanted s = wanted s0 → waits s = waits s0 →
  (sender_phase s = Parked → notified s = false → EgressAccounting.has_room (accounting q) (wanted s) = false) →
  queue_ok budget (set_sender q (accounting q) id s).
Proof.
  intros Hok Hs0 Hwant Hw Hpark. destruct (qk_waiters _ _ Hok) as [Hn Hlt].
  apply (set_sender_ok q _ id s0 s); try done; rewrite Hw; [|lia].
  rewrite Z.sub_add, <-Hn. by destruct (accounting q).
Qed.

(** A sender starts waiting, and leaves. *)
Lemma sender_comes_ok q id n :
  queue_ok budget q → senders q !! id = None → 0 < n < 2 ^ 64 →
  queue_ok budget (set_sender q (accounting q) id (mkSender n Refused false)).
Proof.
  intros Hok Hid Hn. destruct (qk_waiters _ _ Hok) as [Hw Hlt].
  apply sender_ok; try done; rewrite ?msum_insert by done;
    change (waits (mkSender n Refused false)) with 0; [lia..| |].
  - intros sid s [[<- <-]|[_ Hs]]%lookup_insert_Some; [done|by eapply qk_wanted].
  - intros sid m [[<- ?]|[_ Hs]]%lookup_insert_Some; [done|by left].
Qed.

Lemma sender_leaves_ok q id n b :
  queue_ok budget q → senders q !! id = Some (mkSender n Leaving b) →
  queue_ok budget (mkQueue (EgressAccounting.drop_waiter (accounting q)) (charges q) (delete id (senders q))).
Proof.
  intros Hok Hid. destruct (qk_waiters _ _ Hok) as [Hw Hlt].
  pose proof (msum_without waits _ _ _ Hid) as Hrest. change (waits (mkSender n Leaving b)) with 1 in Hrest.
  pose proof (waits_nonneg (delete id (senders q))).
  apply sender_ok; try done; [|lia|..].
  - simpl. rewrite Hw, Hrest. apply wrap_id. unfold in_width. lia.
  - intros sid s [_ Hs]%lookup_delete_Some. by eapply qk_wanted.
  - intros sid m [_ Hs]%lookup_delete_Some. by left.
Qed.

(** With no waiter counted nobody is parked. *)
Lemma nobody_waits q :
  queue_ok budget q → EgressAccounting.has_waiters (accounting q) = false →
  ∀ sid n b, senders q !! sid ≠ Some (mkSender n Parked b).
Proof.
  intros Hok Hno sid n b Hs. destruct (qk_waiters _ _ Hok) as [Hw _].
  unfold EgressAccounting.has_waiters in Hno. apply negb_false_iff, Z.eqb_eq in Hno.
  assert (waits (mkSender n Parked b) ≤ msum waits (senders q)) as Hle.
  { eapply msum_bound; [|exact Hs]. intros j s _. unfold waits. destruct (sender_phase s); lia. }
  change (waits (mkSender n Parked b)) with 1 in Hle. lia.
Qed.

Lemma notified_gone_ok q id c :
  queue_ok budget q → charges q !! id = Some c → charge_phase c = Notifying →
  queue_ok budget (mkQueue (accounting q) (delete id (charges q)) (notify <$> senders q)).
Proof.
  intros Hok Hid Hp. apply (gone_ok q id c); try done; [by right|..].
  - rewrite msum_fmap. apply msum_ext. intros i s _. unfold waits, notify. simpl. by destruct s as [? [] ?].
  - intros sid s Hs. apply lookup_fmap_Some in Hs as (s0 & <- & Hs0). exists s0. split; [done|].
    by destruct s0 as [? [] ?].
  - intros sid n Hs. apply lookup_fmap_Some in Hs as (s0 & Hs0 & _). by destruct s0 as [? [] ?].
Qed.

Lemma wrap_shift a b : wrap 64 (wrap 64 a + b) = wrap 64 (a + b).
Proof. unfold wrap. by rewrite Zplus_mod_idemp_l. Qed.

Lemma counted_ok q id c e first :
  queue_ok budget q → charges q !! id = Some c → charge_phase c = Charged →
  EgressAccounting.count_frame (accounting q) = (first, e) →
  queue_ok budget (set_charge q e id (at_phase c (if first : bool then CountedFirst else Queued))).
Proof.
  intros Hok Hid Hp [= <- <-]. apply moved_ok; simpl; try done.
  - rewrite (qk_frames _ _ Hok), wrap_shift. f_equal.
    assert (frames_of c = 0) as -> by (unfold frames_of; by rewrite Hp).
    assert (∀ b : bool, frames_of (at_phase c (if b then CountedFirst else Queued)) = 1) as -> by (by intros []). lia.
  - unfold holds_bytes at 2. rewrite Hp. by destruct (_ =? _).
  - unfold releasing. by rewrite Hp.
Qed.

Lemma uncounted_ok q id c e last :
  queue_ok budget q → charges q !! id = Some c → charge_phase c = Freed →
  EgressAccounting.uncount_frame (accounting q) = (last, e) →
  queue_ok budget (set_charge q e id (at_phase c (if last : bool then UncountedLast else Waking))).
Proof.
  intros Hok Hid Hp [= <- <-]. apply moved_ok; simpl; try done.
  - rewrite (qk_frames _ _ Hok), <-Z.add_opp_r, wrap_shift. f_equal.
    assert (frames_of c = 1) as -> by (unfold frames_of; by rewrite Hp).
    assert (∀ b : bool, frames_of (at_phase c (if b then UncountedLast else Waking)) = 0) as -> by (by intros []). lia.
  - unfold holds_bytes at 2. rewrite Hp. by destruct (_ =? _).
  - intros _. by destruct (_ =? _).
Qed.

Theorem egress_step_ok q q' : queue_ok budget q → egress_step q q' → queue_ok budget q'.
Proof.
  intros Hok Hstep. pose proof (bytes_nonneg q Hok) as Hnn. destruct (qk_waiters _ _ Hok) as [Hw Hlt].
  destruct Hstep as
    [id n stamp e Hid Hn Htry|id n stamp Hid Hn Hlim|id c first e Hid Hp He|id c Hid Hp|id c Hid Hp
    |id c Hid Hp|id c last e Hid Hp He|id c Hid Hp|id c Hid Hp Hl|id c Hid Hp Hl|id c Hid Hp
    |id n Hid Hn Htry|id n b Hid Hlim|id n b Hid|id n b cid stamp e Hid Hcid Htry|id n b Hid Htry
    |id n Hid|id n b Hid|id n b Hid].
  - apply (try_charge_Some q n e Hok) in Htry as [He Hroom]; [|done].
    apply (charged_ok q e id n); try done; lia.
  - apply (charged_ok q _ id n); try done. unfold EgressAccounting.charge_unconditionally.
    rewrite (qk_bytes _ _ Hok), wrap_id; [done|]. unfold in_width. lia.
  - by apply counted_ok.
  - apply (moved_in_place_ok q); try done; unfold frames_of, holds_bytes, releasing; by rewrite Hp.
  - rewrite <-(at_phase_same c) at 2. apply (moved_in_place_ok q); try done; by destruct c.
  - by apply freed_ok.
  - by apply uncounted_ok.
  - apply (moved_in_place_ok q); try done; unfold frames_of, holds_bytes, releasing; rewrite ?Hp; try done;
      unfold EgressAccounting.clear_marker; by case_match.
  - apply (moved_in_place_ok q); try done; unfold frames_of, holds_bytes, releasing; by rewrite Hp.
  - apply (gone_ok q id c); try done; [by left|by eauto|]. intros sid m. by apply nobody_waits.
  - by eapply notified_gone_ok.
  - by apply sender_comes_ok.
  - apply (set_sender_ok q _ id (mkSender n Refused b)); try done;
      change (waits (mkSender n Refused b)) with 0; change (waits (mkSender n Counting false)) with 1; [|lia].
    unfold EgressAccounting.add_waiter. rewrite Hw, wrap_id; [by rewrite Z.sub_0_r|].
    pose proof (waits_nonneg (senders q)). unfold in_width. lia.
  - by eapply sender_moves_ok.
  - pose proof (qk_wanted _ _ Hok _ _ Hid) as Hn.
    apply (try_charge_Some q n e Hok) in Htry as [He Hroom]; [|done].
    apply (sender_moves_ok (set_charge q e cid (mkEgressCharge n stamp false Charged)) id
             (mkSender n Listening b) (mkSender n Leaving b)); try done.
    apply (charged_ok q e cid n); try done; simpl in Hn; lia.
  - eapply sender_moves_ok; try done. simpl. intros _ _. unfold EgressAccounting.try_charge in Htry.
    by destruct (EgressAccounting.has_room (accounting q) n).
  - by eapply sender_moves_ok.
  - by eapply sender_moves_ok.
  - by eapply sender_leaves_ok.
Qed.

Lemma egress_reachable_ok q : egress_reachable budget q → queue_ok budget q.
Proof.
  induction 1 as [|q q' _ IH Hstep]; [|by eapply egress_step_ok].
  split; simpl; rewrite ?msum_empty; try done; try lia.
Qed.

(** ** Wake-ups *)

(** A run of the steps of one frame: it touches no other frame and no sender,
    but for the notification. *)
Definition runs_release (cid : nat) (q q' : Queue) : Prop :=
  rtc egress_step q q' ∧ charges q' = delete cid (charges q) ∧ senders q' = notify <$> senders q.

Lemma notifying_runs q cid c :
  charges q !! cid = Some c → charge_phase c = Notifying → ∃ q', runs_release cid q q'.
Proof. intros Hc Hp. eexists. split; [eapply rtc_once, eg_notify; eauto|done]. Qed.

Lemma runs_step cid q c e :
  egress_step q (set_charge q e cid c) →
  (∃ q', runs_release cid (set_charge q e cid c) q') → ∃ q', runs_release cid q q'.
Proof.
  intros Hs (q' & Hr & Hc & Hss). exists q'. split; [by eapply rtc_l|]. simpl in *.
  by rewrite delete_insert_eq in Hc.
Qed.

Lemma waking_runs q cid c :
  charges q !! cid = Some c → charge_phase c = Waking →
  EgressAccounting.has_waiters (accounting q) = true → ∃ q', runs_release cid q q'.
Proof.
  intros Hc Hp Hw. eapply runs_step; [by eapply eg_look|].
  eapply notifying_runs; [apply lookup_insert_eq|done].
Qed.

(** With a waiter counted, a release under way runs to its notification. *)
Lemma release_runs q cid c :
  charges q !! cid = Some c → releasing c = true →
  EgressAccounting.has_waiters (accounting q) = true → ∃ q', runs_release cid q q'.
Proof.
  assert (∀ q c, charges q !! cid = Some c → charge_phase c = UncountedLast →
    EgressAccounting.has_waiters (accounting q) = true → ∃ q', runs_release cid q q') as Hlast.
  { intros q0 c0 Hc Hp Hw. eapply runs_step; [by eapply eg_clear|].
    eapply waking_runs; [apply lookup_insert_eq|done|]. simpl. unfold EgressAccounting.clear_marker.
    by case_match. }
  intros Hc Hr Hw. unfold releasing in Hr. destruct (charge_phase c) eqn:Hp; try done.
  - destruct (EgressAccounting.uncount_frame (accounting q)) as [last e] eqn:He.
    eapply runs_step; [by eapply eg_uncount|]. injection He as <- <-. destruct (_ =? _).
    + by eapply Hlast; [apply lookup_insert_eq|..].
    + by eapply waking_runs; [apply lookup_insert_eq|..].
  - by eapply Hlast.
  - by eapply waking_runs.
  - by eapply notifying_runs.
Qed.

(** A parked sender is counted. *)
Lemma parked_counted q sid n b :
  queue_ok budget q → senders q !! sid = Some (mkSender n Parked b) →
  EgressAccounting.has_waiters (accounting q) = true.
Proof.
  intros Hok Hs. destruct (EgressAccounting.has_waiters (accounting q)) eqn:Hw; [done|].
  by destruct (nobody_waits q Hok Hw sid n b).
Qed.
End queue.
