(* ===== verification/Flow.v ===== *)
(** * Request credits of a route ([crates/subc-daemon/src/forwarding.rs])

    The credit ledger and the per-channel flow: how many requests and watches
    may be in flight on a route, and what a drain still waits for.  The
    semaphores are tokio's: the operations and laws the flow relies on are a
    type class. *)

From S2P Require Import Prelude Collections.

(** ** The semaphore *)

(** [tokio::sync::Semaphore].  Permits are counted one by one; a permit that is
    forgotten stays taken, one that is dropped is given back. *)
Class Semaphore := {
  sem : Type;
  sem_new : Z → sem;
  sem_try_acquire : sem → option sem;
  sem_add_permit : sem → sem;
  sem_close : sem → sem;
  sem_available : sem → Z;
  sem_is_closed : sem → bool;
}.

(** What the documentation promises of it. *)
Class SemaphoreLaws `{Semaphore} := {
  sem_new_available n : 0 ≤ n → sem_available (sem_new n) = n;
  sem_new_open n : sem_is_closed (sem_new n) = false;
  sem_acquire_Some s s' : sem_try_acquire s = Some s' →
    sem_is_closed s = false ∧ 0 < sem_available s ∧
    sem_available s' = sem_available s - 1 ∧ sem_is_closed s' = sem_is_closed s;
  sem_acquire_None s : sem_try_acquire s = None →
    sem_is_closed s = true ∨ sem_available s ≤ 0;
  sem_add_available s : sem_available (sem_add_permit s) = sem_available s + 1;
  sem_add_closed s : sem_is_closed (sem_add_permit s) = sem_is_closed s;
  sem_close_available s : sem_available (sem_close s) = sem_available s;
  sem_close_closed s : sem_is_closed (sem_close s) = true;
}.

(** ** The ledger *)

Record RequestCredit := mkRequestCredit {
  subscription : bool;
  watch_credit : bool;
  excluded_from_drain : bool;
}.

Module CreditLedger.
Abbreviation t := (gmap Z (list RequestCredit)).

(** Every credit held, by correlation id. *)
Definition credits (self : t) : list (Z * RequestCredit) :=
  e ← map_to_list self; (λ c, (e.1, c)) <$> e.2.

Definition acquire (self : t) (corr : Z) (subscription watch_credit : bool) : t :=
  <[corr := default [] (self !! corr) ++ [mkRequestCredit subscription watch_credit false]]> self.

(** [Vec::pop]: the last element and the rest. *)
Definition pop {A} (l : list A) : option (A * list A) :=
  match rev l with
  | [] => None
  | a :: l => Some (a, rev l)
  end.

Definition release (self : t) (corr : Z) : option RequestCredit * t :=
  match self !! corr with
  | None => (None, self)
  | Some credits =>
      match pop credits with
      | None => (None, delete corr self)
      | Some (released, rest) =>
          (Some released, match rest with [] => delete corr self | _ => <[corr := rest]> self end)
      end
  end.

Definition exclude (c : RequestCredit) : RequestCredit :=
  if subscription c && negb (excluded_from_drain c)
  then mkRequestCredit (subscription c) (watch_credit c) true else c.

Definition saturating_add32 (a b : Z) : Z := Z.min (a + b) (2 ^ 32 - 1).

Definition capture_subscription_exclusions (self : t) : Z * t :=
  (foldl (λ excluded e,
            if subscription e.2 && negb (excluded_from_drain e.2)
            then saturating_add32 excluded 1 else excluded) 0 (credits self),
   fmap (M := gmap Z) (map exclude) self).

Definition in_flight (self : t) : nat :=
  sum_list ((λ e, length e.2) <$> map_to_list self).

Definition drain_in_flight (self : t) : nat :=
  length (filter (λ e, excluded_from_drain e.2 = false) (credits self)).

Definition watch_in_flight (self : t) : nat :=
  length (filter (λ e, subscription e.2 = true) (credits self)).

Definition drain_held_corrs (self : t) : list Z :=
  merge_sort Z.le ((filter (λ e, excluded_from_drain e.2 = false) (credits self)).*1).
End CreditLedger.

(** ** The flow of one route *)

Inductive Concurrency := Serial | ModuleManaged | StatelessParallel.
#[global] Instance Concurrency_eq_dec : EqDecision Concurrency.
Proof. solve_decision. Defined.

Definition DEFAULT_MODULE_MANAGED_WINDOW : Z := 32.
Definition DEFAULT_MODULE_MANAGED_WATCH_WINDOW : Z := 24.
Definition STATELESS_PARALLEL_WINDOW : Z := 1024.

Definition window_for (concurrency : Concurrency) : Z :=
  match concurrency with
  | Serial => 1
  | ModuleManaged => DEFAULT_MODULE_MANAGED_WINDOW
  | StatelessParallel => STATELESS_PARALLEL_WINDOW
  end.

Module RouteBusyDetail.
Record t := mk {
  reason : string;
  request_in_flight : Z;
  watch_in_flight : Z;
  request_window : Z;
  watch_window : option Z;
}.
End RouteBusyDetail.

Inductive RequestAdmission :=
  | IsAdmitted
  | Busy (detail : RouteBusyDetail.t)
  | ModuleReloading
  | Stale.

Module ChannelFlow.
Section flow.
Context `{Semaphore}.

(** The [Mutex<ChannelFlowState>] is flattened into the flow. *)
Record t := mk {
  permits : sem;
  window : Z;
  busy_refusals : bool;
  watch_sem : option sem;
  watch_window : option Z;
  closed : bool;
  credits : CreditLedger.t;
  last_busy_warn : option Z;
}.

Definition with_admission (window : Z) (busy_refusals : bool) (watch_window : option Z) : t :=
  mk (sem_new window) window busy_refusals (sem_new <$> watch_window) watch_window false ∅ None.

Definition new (window : Z) : t := with_admission window false None.

Definition update (f : t) (permits : sem) (watch_sem : option sem) (closed : bool)
    (credits : CreditLedger.t) : t :=
  mk permits (window f) (busy_refusals f) watch_sem (watch_window f) closed credits (last_busy_warn f).

Definition busy (f : t) : RequestAdmission :=
  Busy (RouteBusyDetail.mk "no_credit" (Z.of_nat (CreditLedger.in_flight (credits f)))
          (Z.of_nat (CreditLedger.watch_in_flight (credits f))) (window f) (watch_window f)).

(** A watch takes the total credit first; without a watch credit the total one
    is dropped again before anything is recorded. *)
Definition try_acquire_tagged (f : t) (corr : Z) (subscription : bool) : RequestAdmission * t :=
  if closed f then (Stale, f) else
  match sem_try_acquire (permits f) with
  | None => (busy f, f)
  | Some total =>
      match (if subscription then watch_sem f else None) with
      | None => (IsAdmitted, update f total (watch_sem f) (closed f)
                             (CreditLedger.acquire (credits f) corr subscription false))
      | Some ws =>
          match sem_try_acquire ws with
          | None => (busy f, update f (sem_add_permit total) (watch_sem f) (closed f) (credits f))
          | Some ws => (IsAdmitted, update f total (Some ws) (closed f)
                                    (CreditLedger.acquire (credits f) corr subscription true))
          end
      end
  end.

(** [acquire_tagged] waits for a permit and then records the request; other
    operations may come between the two. *)
Definition acquire_permit (f : t) : option t :=
  (λ s, update f s (watch_sem f) (closed f) (credits f)) <$> sem_try_acquire (permits f).

Definition acquire_recorded (f : t) (corr : Z) (subscription : bool) : Result unit unit * t :=
  if closed f
  then (Err tt, update f (sem_add_permit (permits f)) (watch_sem f) (closed f) (credits f))
  else (Ok tt, update f (permits f) (watch_sem f) (closed f)
                 (CreditLedger.acquire (credits f) corr subscription false)).

Definition release_corr (f : t) (corr : Z) : t :=
  match CreditLedger.release (credits f) corr with
  | (None, credits) => update f (permits f) (watch_sem f) (closed f) credits
  | (Some released, credits) =>
      update f
        (if sem_is_closed (permits f) then permits f else sem_add_permit (permits f))
        (if watch_credit released
         then (λ s, if sem_is_closed s then s else sem_add_permit s) <$> watch_sem f
         else watch_sem f)
        (closed f) credits
  end.

Definition drain_in_flight (f : t) : nat := CreditLedger.drain_in_flight (credits f).

Definition drain_held_corrs (f : t) : list Z := CreditLedger.drain_held_corrs (credits f).

Definition begin_drain (f : t) : Z * t :=
  let '(excluded, credits) := CreditLedger.capture_subscription_exclusions (credits f) in
  (excluded, update f (sem_close (permits f)) (sem_close <$> watch_sem f) true credits).

Definition close (f : t) : t :=
  update f (sem_close (permits f)) (sem_close <$> watch_sem f) true (credits f).

(** At most one warning a minute; times are in milliseconds. *)
Definition should_warn_busy (f : t) (now : Z) : bool * t :=
  if is_some_and (λ last, now - last <? 60000) (last_busy_warn f) then (false, f)
  else (true, mk (permits f) (window f) (busy_refusals f) (watch_sem f) (watch_window f) (closed f)
                (credits f) (Some now)).
End flow.
Arguments t {_}.
End ChannelFlow.

(** ** Ledger lemmas *)

Section ledger.
Implicit Types (l : CreditLedger.t) (corr : Z) (c : RequestCredit).

(** No correlation id is kept without a credit. *)
Definition ledger_ok l : Prop := ∀ corr, l !! corr ≠ Some [].

Lemma credits_lookup l corr cs :
  l !! corr = Some cs →
  CreditLedger.credits l ≡ₚ ((λ c, (corr, c)) <$> cs) ++ CreditLedger.credits (delete corr l).
Proof.
  intros Hl. unfold CreditLedger.credits.
  rewrite <-(insert_delete_id l corr cs Hl) at 1.
  rewrite map_to_list_insert by apply lookup_delete_eq. done.
Qed.

Lemma credits_insert_new l corr cs :
  l !! corr = None →
  CreditLedger.credits (<[corr := cs]> l) ≡ₚ ((λ c, (corr, c)) <$> cs) ++ CreditLedger.credits l.
Proof. intros Hl. unfold CreditLedger.credits. by rewrite map_to_list_insert by done. Qed.

Lemma credits_insert l corr cs :
  CreditLedger.credits (<[corr := cs]> l)
  ≡ₚ ((λ c, (corr, c)) <$> cs) ++ CreditLedger.credits (delete corr l).
Proof. rewrite <-insert_delete_eq. apply credits_insert_new, lookup_delete_eq. Qed.

Lemma credits_acquire l corr s w :
  CreditLedger.credits (CreditLedger.acquire l corr s w)
  ≡ₚ (corr, mkRequestCredit s w false) :: CreditLedger.credits l.
Proof.
  unfold CreditLedger.acquire. rewrite credits_insert, fmap_app.
  destruct (l !! corr) as [cs|] eqn:Hl; simpl.
  - rewrite (credits_lookup l corr cs Hl). solve_Permutation.
  - by rewrite delete_id by done.
Qed.

Lemma acquire_ok l corr s w : ledger_ok l → ledger_ok (CreditLedger.acquire l corr s w).
Proof.
  intros Hok corr'. unfold CreditLedger.acquire. destruct (decide (corr' = corr)) as [->|?].
  - rewrite lookup_insert_eq. by destruct (default [] (l !! corr)).
  - rewrite lookup_insert_ne by done. apply Hok.
Qed.

Lemma pop_None {A} (l : list A) : CreditLedger.pop l = None ↔ l = [].
Proof.
  unfold CreditLedger.pop. destruct (rev l) as [|a r] eqn:Hr; split; try done.
  - intros _. rewrite <-(rev_involutive l), Hr. done.
  - intros ->. done.
Qed.

Lemma pop_Some {A} (l : list A) a r : CreditLedger.pop l = Some (a, r) → l = r ++ [a].
Proof.
  unfold CreditLedger.pop. destruct (rev l) as [|b r'] eqn:Hr; [done|]. intros [= <- <-].
  rewrite <-(rev_involutive l), Hr. done.
Qed.

(** Releasing removes one credit of the correlation id, when there is one. *)
Lemma release_Some l corr c l' :
  CreditLedger.release l corr = (Some c, l') →
  CreditLedger.credits l ≡ₚ (corr, c) :: CreditLedger.credits l' ∧ (ledger_ok l → ledger_ok l').
Proof.
  unfold CreditLedger.release. destruct (l !! corr) as [cs|] eqn:Hl; [|done].
  destruct (CreditLedger.pop cs) as [[c' rest]|] eqn:Hp; [|done]. apply pop_Some in Hp as ->.
  intros [= <- <-]. rewrite (credits_lookup l corr _ Hl), fmap_app. simpl. destruct rest as [|c0 rest].
  - split; [done|]. intros Hok corr'. destruct (decide (corr' = corr)) as [->|?].
    + by rewrite lookup_delete_eq.
    + rewrite lookup_delete_ne by done. apply Hok.
  - split; [rewrite credits_insert; solve_Permutation|]. intros Hok corr'.
    destruct (decide (corr' = corr)) as [->|?].
    + by rewrite lookup_insert_eq.
    + rewrite lookup_insert_ne by done. apply Hok.
Qed.

Lemma release_None l corr l' :
  ledger_ok l → CreditLedger.release l corr = (None, l') →
  l' = l ∧ ∀ c, (corr, c) ∉ CreditLedger.credits l.
Proof.
  intros Hok. unfold CreditLedger.release. destruct (l !! corr) as [cs|] eqn:Hl.
  - destruct (CreditLedger.pop cs) as [[c' rest]|] eqn:Hp; [done|]. apply pop_None in Hp as ->.
    by destruct (Hok corr).
  - intros [= <-]. split; [done|]. intros c Hin. unfold CreditLedger.credits in Hin.
    apply list_elem_of_bind in Hin as ([corr' cs] & Hc & Hm%elem_of_map_to_list).
    apply list_elem_of_fmap in Hc as (c' & [= -> ->] & _). simpl in *. congruence.
Qed.

Lemma in_flight_credits l : CreditLedger.in_flight l = length (CreditLedger.credits l).
Proof.
  unfold CreditLedger.in_flight, CreditLedger.credits.
  induction (map_to_list l) as [|[k cs] es IH]; simpl; [done|].
  rewrite length_app, length_fmap. f_equal. exact IH.
Qed.

Lemma credits_exclude l :
  CreditLedger.credits (fmap (M := gmap Z) (map CreditLedger.exclude) l)
  = prod_map id CreditLedger.exclude <$> CreditLedger.credits l.
Proof.
  unfold CreditLedger.credits. rewrite map_to_list_fmap.
  induction (map_to_list l) as [|[k cs] es IH]; simpl; [done|].
  rewrite fmap_app. f_equal; [|exact IH]. clear. induction cs; simpl; f_equal; done.
Qed.
End ledger.
