(* ===== verification/FlowSteps.v ===== *)
(** * Request credits, step by step

    Every sequence of operations on a flow; how permits and credits add up, which
    requests are admitted, and what a drain waits for. *)

From S2P Require Import Prelude Collections Flow.

(** ** The flow, step by step *)

Section flow_steps.
Context `{SemaphoreLaws}.
Implicit Types (f : ChannelFlow.t).

Definition requests f : nat := CreditLedger.in_flight (ChannelFlow.credits f).

(** The watches among the requests in flight: those that came with the
    subscription flag. *)
Definition watches f : nat :=
  length (filter (λ e, subscription e.2 = true) (CreditLedger.credits (ChannelFlow.credits f))).

(** The credits that hold a watch permit. *)
Definition watch_permits f : nat :=
  length (filter (λ e, watch_credit e.2 = true) (CreditLedger.credits (ChannelFlow.credits f))).

(** A flow with the permits handed out by [acquire_permit] and not yet recorded.
    Only a flow without busy refusals has requests wait ([handle_bound]). *)
Inductive flow_step : ChannelFlow.t * nat → ChannelFlow.t * nat → Prop :=
  | flow_try_acquire f held corr subscription :
      flow_step (f, held) ((ChannelFlow.try_acquire_tagged f corr subscription).2, held)
  | flow_acquire_permit f held f' :
      ChannelFlow.busy_refusals f = false → ChannelFlow.acquire_permit f = Some f' → flow_step (f, held) (f', S held)
  | flow_acquire_recorded f held corr subscription :
      ChannelFlow.busy_refusals f = false →
      flow_step (f, S held) ((ChannelFlow.acquire_recorded f corr subscription).2, held)
  | flow_release f held corr : flow_step (f, held) (ChannelFlow.release_corr f corr, held)
  | flow_begin_drain f held : flow_step (f, held) ((ChannelFlow.begin_drain f).2, held)
  | flow_close f held : flow_step (f, held) (ChannelFlow.close f, held)
  | flow_warn f held now : flow_step (f, held) ((ChannelFlow.should_warn_busy f now).2, held).

Inductive flow_reachable (window : Z) (busy_refusals : bool) (watch_window : option Z)
    : ChannelFlow.t * nat → Prop :=
  | flow_initial :
      flow_reachable window busy_refusals watch_window
        (ChannelFlow.with_admission window busy_refusals watch_window, 0%nat)
  | flow_next s s' :
      flow_reachable window busy_refusals watch_window s → flow_step s s' →
      flow_reachable window busy_refusals watch_window s'.

(** Permits and credits add up to the windows while the flow is open, and never
    exceed them. *)
Record flow_ok (window : Z) (watch_window : option Z) (s : ChannelFlow.t * nat) : Prop := {
  fk_ledger : ledger_ok (ChannelFlow.credits s.1);
  fk_window : ChannelFlow.window s.1 = window;
  fk_watch_window : ChannelFlow.watch_window s.1 = watch_window;
  fk_closed : sem_is_closed (ChannelFlow.permits s.1) = ChannelFlow.closed s.1;
  fk_available : 0 ≤ sem_available (ChannelFlow.permits s.1);
  fk_bound : Z.of_nat (requests s.1) + Z.of_nat s.2 ≤ window;
  fk_open : ChannelFlow.closed s.1 = false →
    sem_available (ChannelFlow.permits s.1) + Z.of_nat (requests s.1) + Z.of_nat s.2 = window;
  fk_watch : match ChannelFlow.watch_sem s.1, watch_window with
    | Some ws, Some ww =>
        sem_is_closed ws = ChannelFlow.closed s.1 ∧ 0 ≤ sem_available ws ∧
        Z.of_nat (watch_permits s.1) ≤ ww ∧
        (ChannelFlow.closed s.1 = false → sem_available ws + Z.of_nat (watch_permits s.1) = ww)
    | None, None => watch_permits s.1 = 0%nat
    | _, _ => False
    end;
}.

Lemma requests_credits f : requests f = length (CreditLedger.credits (ChannelFlow.credits f)).
Proof. apply in_flight_credits. Qed.

Lemma watch_permits_acquire l corr s w :
  length (filter (λ e, watch_credit e.2 = true)
            (CreditLedger.credits (CreditLedger.acquire l corr s w)))
  = ((if w then 1 else 0)
     + length (filter (λ e, watch_credit e.2 = true) (CreditLedger.credits l)))%nat.
Proof.
  rewrite credits_acquire. rewrite filter_cons. by destruct w.
Qed.

Lemma requests_acquire l corr s w :
  CreditLedger.in_flight (CreditLedger.acquire l corr s w) = S (CreditLedger.in_flight l).
Proof. by rewrite !in_flight_credits, credits_acquire. Qed.

Lemma flow_new_ok window busy ww :
  0 ≤ window → (∀ w, ww = Some w → 0 ≤ w) →
  flow_ok window ww (ChannelFlow.with_admission window busy ww, 0%nat).
Proof.
  intros Hw Hww. split; simpl; try done.
  - apply sem_new_open.
  - by rewrite sem_new_available.
  - intros _. rewrite sem_new_available by done. change (requests _) with 0%nat. lia.
  - destruct ww as [w|]; simpl; [|done]. rewrite sem_new_open, sem_new_available by auto.
    change (watch_permits _) with 0%nat. split_and!; auto; lia.
Qed.

(** The outcome of an admission attempt, with what it means for the windows. *)
Lemma try_acquire_cases window ww f held corr sub :
  flow_ok window ww (f, held) →
  let '(adm, f') := ChannelFlow.try_acquire_tagged f corr sub in
  flow_ok window ww (f', held) ∧
  match adm with
  | Stale => ChannelFlow.closed f = true ∧ f' = f
  | IsAdmitted => ChannelFlow.closed f = false ∧ Z.of_nat (requests f) + Z.of_nat held < window ∧
      (sub = true → ∀ w, ww = Some w → Z.of_nat (watch_permits f) < w) ∧
      ∃ tagged, (is_Some ww → tagged = sub) ∧
        ChannelFlow.credits f' = CreditLedger.acquire (ChannelFlow.credits f) corr sub tagged
  | Busy d => ChannelFlow.closed f = false ∧ ChannelFlow.credits f' = ChannelFlow.credits f ∧
      d = RouteBusyDetail.mk "no_credit" (Z.of_nat (requests f)) (Z.of_nat (watches f)) window ww ∧
      (Z.of_nat (requests f) + Z.of_nat held = window ∨
       sub = true ∧ ∃ w, ww = Some w ∧ Z.of_nat (watch_permits f) = w)
  | ModuleReloading => False
  end.
Proof.
  intros Hok. pose proof Hok as [Hl Hw Hww Hcl Hav Hb Ho Hwt]. simpl in *.
  unfold ChannelFlow.try_acquire_tagged. destruct (ChannelFlow.closed f) eqn:Hclosed; [done|].
  specialize (Ho eq_refl). destruct (sem_try_acquire (ChannelFlow.permits f)) as [total|] eqn:Ht.
  2:{ split; [done|]. split_and!; [done..|by rewrite <-Hw, <-Hww|]. left.
      apply sem_acquire_None in Ht as [?|?]; [congruence|lia]. }
  apply sem_acquire_Some in Ht as (_ & Hpos & Htot & Htcl).
  assert (sub = false ∨ ChannelFlow.watch_sem f = None →
    flow_ok window ww (ChannelFlow.update f total (ChannelFlow.watch_sem f) false
      (CreditLedger.acquire (ChannelFlow.credits f) corr sub false), held)) as Hplain.
  { intros _. split; simpl; try done; try congruence.
    - by apply acquire_ok.
    - lia.
    - unfold requests; simpl. rewrite requests_acquire. unfold requests in Ho. lia.
    - intros _. unfold requests in *; simpl. rewrite requests_acquire. lia.
    - unfold watch_permits; simpl. rewrite watch_permits_acquire. exact Hwt. }
  destruct sub; [|split; [by apply Hplain; left|]; split_and!; [done|lia|done|by exists false]].
  destruct (ChannelFlow.watch_sem f) as [ws|] eqn:Hws; (destruct ww as [w|]; try done).
  2:{ split; [by apply Hplain; right|]. split_and!; [done|lia|done|].
      exists false. split; [by intros []|done]. }
  clear Hplain. destruct Hwt as (Hwc & Hwa & Hwb & Hwo).
  specialize (Hwo eq_refl). destruct (sem_try_acquire ws) as [ws'|] eqn:Htw.
  - apply sem_acquire_Some in Htw as (_ & Hwpos & Hwtot & Hwcl). split.
    + split; simpl; try done; try congruence.
      * by apply acquire_ok.
      * lia.
      * unfold requests in *; simpl. rewrite requests_acquire. lia.
      * intros _. unfold requests in *; simpl. rewrite requests_acquire. lia.
      * unfold watch_permits in *; simpl. rewrite watch_permits_acquire.
        split_and!; [congruence|lia|lia|intros _; lia].
    + split_and!; [done|lia|intros _ ? [= <-]; lia|by exists true].
  - split.
    + split; simpl; try done; rewrite ?sem_add_available, ?sem_add_closed.
      * congruence.
      * lia.
      * intros _. change (requests _) with (requests f). lia.
    + split_and!; [done..|by rewrite <-Hw, <-Hww|]. right. split; [done|]. exists w. split; [done|].
      apply sem_acquire_None in Htw as [?|?]; [congruence|]. lia.
Qed.

Lemma acquire_permit_ok window ww f held f' :
  flow_ok window ww (f, held) → ChannelFlow.acquire_permit f = Some f' →
  flow_ok window ww (f', S held).
Proof.
  intros [Hl Hw Hww Hcl Hav Hb Ho Hwt] Hacq. simpl in *. unfold ChannelFlow.acquire_permit in Hacq.
  destruct (sem_try_acquire (ChannelFlow.permits f)) as [s|] eqn:Ht; [|done]. injection Hacq as <-.
  apply sem_acquire_Some in Ht as (Hopen & Hpos & Htot & Htcl).
  assert (ChannelFlow.closed f = false) as Hclosed by congruence. specialize (Ho Hclosed).
  split; simpl; try done; try congruence.
  - lia.
  - change (requests (ChannelFlow.update _ _ _ _ _)) with (requests f). lia.
  - intros _. change (requests (ChannelFlow.update _ _ _ _ _)) with (requests f). lia.
Qed.

Lemma acquire_recorded_ok window ww f held corr sub :
  flow_ok window ww (f, S held) →
  flow_ok window ww ((ChannelFlow.acquire_recorded f corr sub).2, held).
Proof.
  intros [Hl Hw Hww Hcl Hav Hb Ho Hwt]. simpl in *. unfold ChannelFlow.acquire_recorded.
  destruct (ChannelFlow.closed f) eqn:Hclosed; simpl.
  - split; simpl; try done; rewrite ?sem_add_available, ?sem_add_closed; try done; try lia.
    change (requests (ChannelFlow.update _ _ _ _ _)) with (requests f). lia.
  - specialize (Ho eq_refl). split; simpl; try done; try congruence.
    + by apply acquire_ok.
    + unfold requests in *; simpl. rewrite requests_acquire. lia.
    + intros _. unfold requests in *; simpl. rewrite requests_acquire. lia.
    + unfold watch_permits; simpl. rewrite watch_permits_acquire. exact Hwt.
Qed.

Lemma watch_permits_release f corr c l' :
  CreditLedger.release (ChannelFlow.credits f) corr = (Some c, l') →
  watch_permits f = ((if watch_credit c then 1 else 0)
     + length (filter (λ e, watch_credit e.2 = true) (CreditLedger.credits l')))%nat.
Proof.
  intros [Hr _]%release_Some. unfold watch_permits. rewrite Hr, filter_cons. simpl.
  by destruct (watch_credit c).
Qed.

Lemma release_corr_ok window ww f held corr :
  flow_ok window ww (f, held) → flow_ok window ww (ChannelFlow.release_corr f corr, held).
Proof.
  intros Hok. pose proof Hok as [Hl Hw Hww Hcl Hav Hb Ho Hwt]. simpl in *.
  unfold ChannelFlow.release_corr.
  destruct (CreditLedger.release (ChannelFlow.credits f) corr) as [[c|] l'] eqn:Hr.
  2:{ apply release_None in Hr as [-> _]; [|done]. destruct f; exact Hok. }
  pose proof (watch_permits_release f corr c l' Hr) as Hwat.
  apply release_Some in Hr as [Hcr Hl'].
  assert (requests f = S (CreditLedger.in_flight l')) as Hreq
    by (unfold requests; by rewrite !in_flight_credits, Hcr).
  split; simpl; try done.
  - by apply Hl'.
  - destruct (sem_is_closed _) eqn:Hc; [congruence|]. rewrite sem_add_closed. congruence.
  - destruct (sem_is_closed _) eqn:Hc; [done|]. rewrite sem_add_available. lia.
  - change (requests _) with (CreditLedger.in_flight l'). lia.
  - intros Hopen. rewrite Hcl, Hopen, sem_add_available. specialize (Ho Hopen).
    change (requests _) with (CreditLedger.in_flight l'). lia.
  - change (watch_permits _) with
      (length (filter (λ e, watch_credit e.2 = true) (CreditLedger.credits l'))).
    destruct (ChannelFlow.watch_sem f) as [ws|], ww as [w|]; simpl in *; try done.
    + destruct Hwt as (Hwc & Hwa & Hwb & Hwo). destruct (watch_credit c); simpl in Hwat |- *; [|by rewrite <-Hwat].
      destruct (sem_is_closed ws) eqn:Hc; rewrite ?sem_add_closed, ?sem_add_available.
      * split_and!; [congruence|done|lia|]. intros Hopen. congruence.
      * split_and!; [congruence|lia|lia|]. intros Hopen. specialize (Hwo Hopen). lia.
    + destruct (watch_credit c); simpl in *; lia.
Qed.

(** Closing and draining touch no credit's watch permit. *)
Lemma closed_ok window ww f held l' :
  flow_ok window ww (f, held) → ledger_ok l' →
  CreditLedger.in_flight l' = requests f →
  length (filter (λ e, watch_credit e.2 = true) (CreditLedger.credits l')) = watch_permits f →
  flow_ok window ww
    (ChannelFlow.update f (sem_close (ChannelFlow.permits f)) (sem_close <$> ChannelFlow.watch_sem f)
       true l', held).
Proof.
  intros [Hl Hw Hww Hcl Hav Hb Ho Hwt] Hl' Hreq Hwat. simpl in *.
  split; simpl; try done; rewrite ?sem_close_available; try done.
  - apply sem_close_closed.
  - change (requests _) with (CreditLedger.in_flight l'). lia.
  - change (watch_permits _) with
      (length (filter (λ e, watch_credit e.2 = true) (CreditLedger.credits l'))). rewrite Hwat.
    destruct (ChannelFlow.watch_sem f) as [ws|], ww as [w|]; simpl; try done.
    destruct Hwt as (_ & Hwa & Hwb & _). rewrite sem_close_available, sem_close_closed.
    by split_and!.
Qed.

Lemma ledger_ok_fmap l (g : RequestCredit → RequestCredit) :
  ledger_ok l → ledger_ok (fmap (M := gmap Z) (map g) l).
Proof.
  intros Hok corr. rewrite lookup_fmap. specialize (Hok corr).
  destruct (l !! corr) as [[|c cs]|]; simpl; congruence.
Qed.

Lemma flow_begin_drain_ok window ww f held :
  flow_ok window ww (f, held) → flow_ok window ww ((ChannelFlow.begin_drain f).2, held).
Proof.
  intros Hok. unfold ChannelFlow.begin_drain. simpl. apply closed_ok; [done|..].
  - apply ledger_ok_fmap, Hok.
  - unfold requests. rewrite !in_flight_credits, credits_exclude. apply length_fmap.
  - unfold watch_permits. rewrite credits_exclude.
    induction (CreditLedger.credits (ChannelFlow.credits f)) as [|[k c] cs IH]; [done|].
    cbn [fmap list_fmap]. rewrite !filter_cons. simpl.
    assert (watch_credit (CreditLedger.exclude c) = watch_credit c) as ->
      by (unfold CreditLedger.exclude; by destruct (_ && _)).
    destruct (watch_credit c); simpl; [f_equal|]; exact IH.
Qed.

Lemma flow_step_ok window ww s s' : flow_step s s' → flow_ok window ww s → flow_ok window ww s'.
Proof.
  intros Hstep Hok. destruct Hstep as [f held corr sub| | | | | |f held now].
  - pose proof (try_acquire_cases window ww f held corr sub Hok) as Hc.
    destruct (ChannelFlow.try_acquire_tagged f corr sub) as [adm f']. apply Hc.
  - by eapply acquire_permit_ok.
  - by apply acquire_recorded_ok.
  - by apply release_corr_ok.
  - by apply flow_begin_drain_ok.
  - apply closed_ok; [done|apply Hok|done..].
  - unfold ChannelFlow.should_warn_busy. by destruct (is_some_and _ _); destruct f, Hok.
Qed.

Lemma flow_reachable_ok window busy ww s :
  0 ≤ window → (∀ w, ww = Some w → 0 ≤ w) → flow_reachable window busy ww s → flow_ok window ww s.
Proof. intros Hw Hww. induction 1; [by apply flow_new_ok|by eapply flow_step_ok]. Qed.

(** ** Tags *)

(** What the tags of the credits say: only watches are excluded from a drain,
    and on a flow with a watch window exactly the watches hold a watch permit. *)
Record tags_ok f : Prop := {
  tg_excluded e : e ∈ CreditLedger.credits (ChannelFlow.credits f) → excluded_from_drain e.2 = true → subscription e.2 = true;
  tg_watch e : is_Some (ChannelFlow.watch_window f) → e ∈ CreditLedger.credits (ChannelFlow.credits f) →
    watch_credit e.2 = subscription e.2;
  tg_waits : is_Some (ChannelFlow.watch_window f) → ChannelFlow.busy_refusals f = true;
}.

(** Fewer credits, and the same flow otherwise. *)
Lemma tags_subset f f' :
  tags_ok f → CreditLedger.credits (ChannelFlow.credits f') ⊆ CreditLedger.credits (ChannelFlow.credits f) →
  ChannelFlow.watch_window f' = ChannelFlow.watch_window f → ChannelFlow.busy_refusals f' = ChannelFlow.busy_refusals f →
  tags_ok f'.
Proof. intros [Hx Hw Hb] Hsub Hww Hbr. split; rewrite ?Hww, ?Hbr; auto. Qed.

Lemma tags_acquire f f' corr sub tagged :
  tags_ok f → (is_Some (ChannelFlow.watch_window f) → tagged = sub) →
  ChannelFlow.credits f' = CreditLedger.acquire (ChannelFlow.credits f) corr sub tagged →
  ChannelFlow.watch_window f' = ChannelFlow.watch_window f → ChannelFlow.busy_refusals f' = ChannelFlow.busy_refusals f →
  tags_ok f'.
Proof.
  intros [Hx Hw Hb] Htag Hcr Hww Hbr. split; rewrite ?Hww, ?Hbr, ?Hcr; [| |done]; setoid_rewrite credits_acquire.
  - intros e [->|He]%elem_of_cons; [done|by apply Hx].
  - intros e His [->|He]%elem_of_cons; [by apply Htag|by apply Hw].
Qed.

Lemma release_corr_subset f corr :
  ledger_ok (ChannelFlow.credits f) →
  CreditLedger.credits (ChannelFlow.credits (ChannelFlow.release_corr f corr)) ⊆ CreditLedger.credits (ChannelFlow.credits f).
Proof.
  intros Hl. unfold ChannelFlow.release_corr.
  destruct (CreditLedger.release (ChannelFlow.credits f) corr) as [[c|] l'] eqn:Hr; simpl.
  - apply release_Some in Hr as [-> _]. set_solver.
  - by apply release_None in Hr as [-> _].
Qed.

Lemma exclude_excluded c :
  (excluded_from_drain c = true → subscription c = true) →
  excluded_from_drain (CreditLedger.exclude c) = subscription (CreditLedger.exclude c).
Proof. destruct c as [[] w []]; simpl; naive_solver. Qed.

Lemma exclude_tags c :
  subscription (CreditLedger.exclude c) = subscription c ∧ watch_credit (CreditLedger.exclude c) = watch_credit c.
Proof. unfold CreditLedger.exclude. by destruct (_ && _). Qed.

Lemma elem_of_exclude l e :
  e ∈ CreditLedger.credits (fmap (M := gmap Z) (map CreditLedger.exclude) l) →
  ∃ c, (e.1, c) ∈ CreditLedger.credits l ∧ e.2 = CreditLedger.exclude c.
Proof. rewrite credits_exclude. intros ([k c] & -> & He)%list_elem_of_fmap. by exists c. Qed.

Lemma flow_step_tags window ww s s' : flow_ok window ww s → flow_step s s' → tags_ok s.1 → tags_ok s'.1.
Proof.
  intros Hok Hstep Htags.
  destruct Hstep as [f held corr sub|f held f' Hbr Hacq|f held corr sub Hbr|f held corr|f held|f held|f held now]; simpl in *.
  - pose proof (try_acquire_cases window ww f held corr sub Hok) as Hc.
    assert (ChannelFlow.watch_window (ChannelFlow.try_acquire_tagged f corr sub).2 = ChannelFlow.watch_window f ∧
            ChannelFlow.busy_refusals (ChannelFlow.try_acquire_tagged f corr sub).2 = ChannelFlow.busy_refusals f) as [Hww Hb]
      by (unfold ChannelFlow.try_acquire_tagged; repeat case_match; done).
    destruct (ChannelFlow.try_acquire_tagged f corr sub) as [[] f']; simpl in *; destruct Hc as [_ Hc]; [| |done|].
    + destruct Hc as (_ & _ & _ & tagged & Htag & Hcr). eapply tags_acquire; [done| |done..].
      pose proof (fk_watch_window _ _ _ Hok) as Hw. simpl in Hw. by rewrite Hw.
    + destruct Hc as (_ & Hcr & _). eapply tags_subset; [done| |done..]. by rewrite Hcr.
    + by destruct Hc as [_ ->].
  - unfold ChannelFlow.acquire_permit in Hacq. destruct (sem_try_acquire _); [|done]. injection Hacq as <-. by eapply tags_subset.
  - unfold ChannelFlow.acquire_recorded. destruct (ChannelFlow.closed f); [by eapply tags_subset|].
    eapply tags_acquire; [done| |done..]. intros Hw%(tg_waits _ Htags). congruence.
  - eapply tags_subset; [done|apply release_corr_subset, Hok|..]; unfold ChannelFlow.release_corr; by repeat case_match.
  - destruct Htags as [Hx Hw Hb]. split; simpl; [| |done].
    + intros e (c & Hc & ->)%elem_of_exclude. by rewrite exclude_excluded by apply (Hx _ Hc).
    + intros e His (c & Hc & ->)%elem_of_exclude. destruct (exclude_tags c) as [-> ->]. by apply (Hw (e.1, c)).
  - by eapply tags_subset.
  - unfold ChannelFlow.should_warn_busy. destruct (is_some_and _ _); [done|by eapply tags_subset].
Qed.

Lemma flow_reachable_tags window busy ww s :
  0 ≤ window → (∀ w, ww = Some w → 0 ≤ w ∧ busy = true) → flow_reachable window busy ww s →
  flow_ok window ww s ∧ tags_ok s.1.
Proof.
  intros Hw Hww Hreach. assert (∀ w, ww = Some w → 0 ≤ w) as Hpos by (intros w ?; by apply (Hww w)).
  induction Hreach as [|s s' Hreach [Hok Htags] Hstep].
  - split; [by apply flow_new_ok|]. split; simpl; [intros e He..|]; [by apply elem_of_nil in He|by intros ?%elem_of_nil|].
    intros [w ->]. by apply (Hww w).
  - split; [by eapply flow_step_ok|by eapply flow_step_tags].
Qed.

Lemma watches_permits f : tags_ok f → is_Some (ChannelFlow.watch_window f) → watches f = watch_permits f.
Proof.
  intros [_ Hw _] His. unfold watches, watch_permits. f_equal. apply filter_ext_in. intros e He. by rewrite (Hw e His He).
Qed.

(** ** Drains *)

(** A flow that drains: closed, and of the credits exactly the watches are
    excluded. *)
Definition drained f : Prop :=
  ChannelFlow.closed f = true ∧
  ∀ e, e ∈ CreditLedger.credits (ChannelFlow.credits f) → excluded_from_drain e.2 = subscription e.2.

Lemma begin_drain_drained f : tags_ok f → drained (ChannelFlow.begin_drain f).2.
Proof.
  intros Htags. split; [done|]. simpl. intros e (c & Hc & ->)%elem_of_exclude. apply exclude_excluded, (tg_excluded _ Htags _ Hc).
Qed.

(** What is waited for are the requests that are no watches. *)
Lemma drain_waits f :
  drained f →
  ChannelFlow.drain_in_flight f = length (filter (λ e, subscription e.2 = false) (CreditLedger.credits (ChannelFlow.credits f))).
Proof.
  intros [_ Hx]. unfold ChannelFlow.drain_in_flight, CreditLedger.drain_in_flight. f_equal. apply filter_ext_in.
  intros e He. by rewrite (Hx e He).
Qed.

Lemma begin_drain_keeps f b :
  length (filter (λ e, subscription e.2 = b) (CreditLedger.credits (ChannelFlow.credits (ChannelFlow.begin_drain f).2)))
  = length (filter (λ e, subscription e.2 = b) (CreditLedger.credits (ChannelFlow.credits f))).
Proof.
  simpl. rewrite credits_exclude. induction (CreditLedger.credits _) as [|[k c] cs IH]; [done|].
  cbn [fmap list_fmap]. rewrite !filter_cons. cbn [prod_map fst snd id]. rewrite (proj1 (exclude_tags c)).
  destruct (decide (subscription c = b)); simpl; congruence.
Qed.

Lemma drain_release l corr c l' :
  CreditLedger.release l corr = (Some c, l') →
  CreditLedger.drain_in_flight l
  = ((if excluded_from_drain c then 0 else 1) + CreditLedger.drain_in_flight l')%nat.
Proof.
  intros [Hr _]%release_Some. unfold CreditLedger.drain_in_flight. rewrite Hr, filter_cons. simpl.
  by destruct (excluded_from_drain c).
Qed.

Lemma drain_exclude l :
  (CreditLedger.drain_in_flight (fmap (M := gmap Z) (map CreditLedger.exclude) l)
   ≤ CreditLedger.drain_in_flight l)%nat.
Proof.
  unfold CreditLedger.drain_in_flight. rewrite credits_exclude.
  induction (CreditLedger.credits l) as [|[k [s w x]] cs IH]; [done|]. cbn [fmap list_fmap].
  rewrite !filter_cons. destruct s, x; simpl in *; lia.
Qed.

(** A flow that drains takes nothing new on and goes on draining. *)
Lemma drained_step s s' :
  flow_step s s' → ledger_ok (ChannelFlow.credits s.1) → drained s.1 →
  drained s'.1 ∧ (ChannelFlow.drain_in_flight s'.1 ≤ ChannelFlow.drain_in_flight s.1)%nat.
Proof.
  intros Hstep Hl Hd. pose proof Hd as [Hcl Hx]. unfold ChannelFlow.drain_in_flight.
  destruct Hstep as [f held corr sub|f held f' _ Hacq|f held corr sub _|f held corr|f held|f held|f held now];
    simpl in *.
  - unfold ChannelFlow.try_acquire_tagged. by rewrite Hcl.
  - unfold ChannelFlow.acquire_permit in Hacq. destruct (sem_try_acquire (ChannelFlow.permits f)); [|done]. by injection Hacq as <-.
  - unfold ChannelFlow.acquire_recorded. by rewrite Hcl.
  - split.
    + split; [unfold ChannelFlow.release_corr; by repeat case_match|]. intros e He%(release_corr_subset f corr Hl). by apply Hx.
    + unfold ChannelFlow.release_corr.
      destruct (CreditLedger.release (ChannelFlow.credits f) corr) as [[c|] l'] eqn:Hr; simpl.
      * rewrite (drain_release _ _ _ _ Hr). lia.
      * by apply release_None in Hr as [-> _].
  - split; [|apply drain_exclude]. split; [done|]. simpl. intros e (c & Hc & ->)%elem_of_exclude. apply exclude_excluded.
    specialize (Hx _ Hc). simpl in Hx. by rewrite Hx.
  - done.
  - unfold ChannelFlow.should_warn_busy. by destruct (is_some_and _ _).
Qed.

Lemma drained_run window ww s s' :
  rtc flow_step s s' → flow_ok window ww s → drained s.1 →
  drained s'.1 ∧ (ChannelFlow.drain_in_flight s'.1 ≤ ChannelFlow.drain_in_flight s.1)%nat.
Proof.
  induction 1 as [s|s s1 s' Hstep _ IH]; intros Hok Hd; [done|].
  destruct (drained_step _ _ Hstep (fk_ledger _ _ _ Hok) Hd) as [Hd1 Hle1].
  destruct (IH (flow_step_ok _ _ _ _ Hstep Hok) Hd1) as [? ?]. split; [done|lia].
Qed.

Lemma filter_nil_iff {A} (P : A → Prop) `{∀ x, Decision (P x)} (l : list A) : length (filter P l) = 0%nat ↔ ∀ x, x ∈ l → ¬ P x.
Proof.
  rewrite length_zero_iff_nil. split.
  - intros Hnil x Hx HP. apply (not_elem_of_nil x). rewrite <-Hnil. by apply list_elem_of_filter.
  - intros Hall. destruct (filter P l) as [|x r] eqn:Hf; [done|]. assert (x ∈ filter P l) as Hx by (rewrite Hf; left).
    apply list_elem_of_filter in Hx as [HP Hx]. by destruct (Hall x Hx).
Qed.

(** The wait is over exactly when only watches are left. *)
Lemma drain_over f :
  drained f →
  ChannelFlow.drain_in_flight f = 0%nat ↔ ∀ e, e ∈ CreditLedger.credits (ChannelFlow.credits f) → subscription e.2 = true.
Proof.
  intros Hd. rewrite (drain_waits f Hd), filter_nil_iff. split; intros Hall e He; specialize (Hall e He); by destruct (subscription e.2).
Qed.

(** No correlation id is shared by a watch and another request. *)
Definition watches_apart f : Prop :=
  ∀ corr c c', (corr, c) ∈ CreditLedger.credits (ChannelFlow.credits f) →
    (corr, c') ∈ CreditLedger.credits (ChannelFlow.credits f) → subscription c = subscription c'.

Lemma release_corr_one f corr c :
  ledger_ok (ChannelFlow.credits f) → (corr, c) ∈ CreditLedger.credits (ChannelFlow.credits f) →
  ledger_ok (ChannelFlow.credits (ChannelFlow.release_corr f corr)) ∧
  ∃ c', CreditLedger.credits (ChannelFlow.credits f)
        ≡ₚ (corr, c') :: CreditLedger.credits (ChannelFlow.credits (ChannelFlow.release_corr f corr)).
Proof.
  intros Hl Hin. unfold ChannelFlow.release_corr.
  destruct (CreditLedger.release (ChannelFlow.credits f) corr) as [[c'|] l'] eqn:Hr.
  - apply release_Some in Hr as [Hcr Hl']. split; [by apply Hl'|]. by exists c'.
  - apply release_None in Hr as [_ Hno]; [|done]. by destruct (Hno c).
Qed.

(** Answering what is waited for, and nothing else, ends the wait and leaves the
    watches. *)
Lemma answered_requests f corrs :
  ledger_ok (ChannelFlow.credits f) → drained f → watches_apart f →
  (filter (λ e, subscription e.2 = false) (CreditLedger.credits (ChannelFlow.credits f))).*1 ≡ₚ corrs →
  let f' := foldl ChannelFlow.release_corr f corrs in
  ChannelFlow.drain_in_flight f' = 0%nat ∧ watches f' = watches f.
Proof.
  revert f. induction corrs as [|corr corrs IH]; intros f Hl Hd Hap Hperm; cbn [foldl].
  - split; [|done]. apply Permutation_nil_r, fmap_nil_inv in Hperm. by rewrite (drain_waits f Hd), Hperm.
  - assert (corr ∈ (filter (λ e, subscription e.2 = false) (CreditLedger.credits (ChannelFlow.credits f))).*1) as Hin by (rewrite Hperm; left).
    apply list_elem_of_fmap in Hin as ([k c] & -> & [Hsub Hin]%list_elem_of_filter). simpl in *.
    pose proof (proj1 (drained_step _ _ (flow_release f 0 k) Hl Hd)) as Hd'.
    destruct (release_corr_one f k c Hl Hin) as (Hl' & c' & Hcr).
    assert (subscription c' = false) as Hc' by (rewrite <-Hsub; apply (Hap k); [rewrite Hcr; left|done]).
    rewrite Hcr, filter_cons in Hperm. simpl in Hperm. rewrite decide_True in Hperm by done.
    apply Permutation_cons_inv in Hperm. destruct (IH _ Hl' Hd') as [Hz Hw]; [|done|].
    + intros k' c1 c2 H1 H2. apply (Hap k'); rewrite Hcr; by right.
    + split; [done|]. rewrite Hw. unfold watches. rewrite Hcr, filter_cons. simpl. by rewrite Hc'.
Qed.

Lemma begin_drain_apart f : watches_apart f → watches_apart (ChannelFlow.begin_drain f).2.
Proof.
  intros Hap corr c c' (d & Hd & Hc)%elem_of_exclude (d' & Hd' & Hc')%elem_of_exclude. simpl in *. subst c c'.
  rewrite (proj1 (exclude_tags d)), (proj1 (exclude_tags d')). by apply (Hap corr).
Qed.

Lemma drain_held_requests f :
  drained f →
  (filter (λ e, subscription e.2 = false) (CreditLedger.credits (ChannelFlow.credits f))).*1 ≡ₚ ChannelFlow.drain_held_corrs f.
Proof.
  intros [_ Hx]. unfold ChannelFlow.drain_held_corrs, CreditLedger.drain_held_corrs. rewrite merge_sort_Permutation.
  erewrite filter_ext_in; [done|]. intros e He. simpl. by rewrite (Hx e He).
Qed.
End flow_steps.
