(* ===== verification/Tokens.v ===== *)
(** * Field validators, machine ids and framed bodies

    The checks [subc-protocol] makes on opaque fields
    ([tool_call.rs], [scope.rs]), the machine id ([machine_id.rs]), and the
    JSON-head-plus-bytes body codec ([framed_body.rs]).  [serde_json] is a
    parameter of the codec. *)

From S2P Require Import Prelude.

(** ** Byte classes *)

Definition is_ascii_digit (b : Z) : bool := (48 <=? b) && (b <=? 57).
Definition is_ascii_lowercase (b : Z) : bool := (97 <=? b) && (b <=? 122).
Definition is_a_to_f (b : Z) : bool := (97 <=? b) && (b <=? 102).
(** [(0x21..=0x7e).contains(&b)]. *)
Definition is_token_byte (b : Z) : bool := (33 <=? b) && (b <=? 126).
Definition is_lower_hex (b : Z) : bool := is_ascii_digit b || is_a_to_f b.

(** ** Opaque fields ([tool_call.rs]) *)

Definition OPAQUE_FIELD_MAX_LEN : Z := 256.
Definition PRESET_MAX_LEN : Z := 64.
Definition CALL_KEY_FIELD := "call_key".
Definition SCHEMA_PIN_FIELD := "schema_pin".
Definition ORIGIN_CALL_KEY_FIELD := "origin.call_key".
Definition ORIGIN_MESSAGE_ID_FIELD := "origin.message_position.message_id".
Definition ORIGIN_SCHEMA_PIN_FIELD := "origin.schema_pin".

Inductive OpaqueFieldError :=
  | Empty (field : string)
  | TooLong (field : string) (length : Z)
  | InvalidCharacter (field : string) (index : nat).

Definition validate_opaque_field (field value : string) : Result unit OpaqueFieldError :=
  if str_is_empty value then Err (Empty field) else
  if OPAQUE_FIELD_MAX_LEN <? str_len value then Err (TooLong field (str_len value)) else
  match position (λ b, negb (is_token_byte b)) (str_bytes value) with
  | Some index => Err (InvalidCharacter field index)
  | None => Ok tt
  end.

Definition validate_call_key (key : string) := validate_opaque_field CALL_KEY_FIELD key.
Definition validate_schema_pin (pin : string) := validate_opaque_field SCHEMA_PIN_FIELD pin.

Inductive PresetError :=
  | PresetEmpty
  | PresetTooLong (length : Z)
  | PresetInvalidCharacter (index : nat).

Definition validate_preset (preset : string) : Result unit PresetError :=
  if str_is_empty preset then Err PresetEmpty else
  if PRESET_MAX_LEN <? str_len preset then Err (PresetTooLong (str_len preset)) else
  match position (λ b, negb (is_ascii_lowercase b || is_ascii_digit b
                             || ((b =? 95) || (b =? 45)))) (str_bytes preset) with
  | Some index => Err (PresetInvalidCharacter index)
  | None => Ok tt
  end.

(** ** Caller identity ([lib.rs], [tool_call.rs]) *)

Inductive Principal :=
  | Reserved (module_id : string)
  | Direct
  | Unverified.

#[global] Instance Principal_eq_dec : EqDecision Principal.
Proof. solve_decision. Defined.

Record MessagePosition := { message_id : string; index : Z }.

Record CallOrigin := {
  carrier : Principal;
  call_key : string;
  message_position : option MessagePosition;
  schema_pin : option string;
}.

Definition validate_call_origin (origin : CallOrigin) : Result unit OpaqueFieldError :=
  let! _ := validate_opaque_field ORIGIN_CALL_KEY_FIELD (call_key origin) in
  let! _ := match message_position origin with
            | Some p => validate_opaque_field ORIGIN_MESSAGE_ID_FIELD (message_id p)
            | None => Ok tt
            end in
  let! _ := match schema_pin origin with
            | Some pin => validate_opaque_field ORIGIN_SCHEMA_PIN_FIELD pin
            | None => Ok tt
            end in
  Ok tt.

(** ** Scope fields ([scope.rs]) *)

Definition validate_bind_proof_sha256 (hash : string) : Result unit string :=
  if (str_len hash =? 64) && forallb (λ b, is_ascii_digit b || is_a_to_f b) (str_bytes hash)
  then Ok tt
  else Err "bind_proof_sha256 must be exactly 64 lowercase hexadecimal characters".

Definition validate_flow_version (flow_version : Z) : Result unit string :=
  if negb ((1 <=? flow_version) && (flow_version <=? 9007199254740991))
  then Err "flow_version must be from 1 to 9007199254740991"
  else Ok tt.

Definition validate_flow_code_hash (h : string) : Result unit string :=
  if negb (str_len h =? 64)
     || negb (forallb (λ b, is_ascii_digit b || is_a_to_f b) (str_bytes h))
  then Err "flow_code_hash must contain exactly 64 lowercase hex characters"
  else Ok tt.

Definition validate_flow_id (s : string) := validate_opaque_field "flow_id" s.
Definition validate_flow_install_id (s : string) := validate_opaque_field "flow_install_id" s.
Definition validate_run_id (s : string) := validate_opaque_field "run_id" s.
Definition validate_on_behalf_of_agent (s : string) :=
  validate_opaque_field "on_behalf_of_agent" s.

Definition validate_project_id (value : string) : Result unit string :=
  if str_is_empty value || (128 <? str_len value)
  then Err "project_id must contain 1 to 128 bytes" else
  if negb (forallb is_token_byte (str_bytes value))
  then Err "project_id must be printable ASCII without whitespace"
  else Ok tt.

(** ** Machine ids ([machine_id.rs]) *)

Module MachineId.

Definition HEX_LEN : Z := 32.

Inductive MachineIdError :=
  | WrongLength (len : Z)
  | NotLowercaseHex (position : nat).

Definition parse (value : string) : Result string MachineIdError :=
  if negb (str_len value =? HEX_LEN) then Err (WrongLength (str_len value)) else
  match position (λ b, negb (is_lower_hex b)) (str_bytes value) with
  | Some p => Err (NotLowercaseHex p)
  | None => Ok value
  end.

(** A lowercase hex digit of a nibble. *)
Definition hex_digit (n : Z) : Ascii.ascii :=
  Ascii.ascii_of_N (Z.to_N (if n <? 10 then 48 + n else 87 + n)).

(** [{:0kx}] of a value below [16^k]: [k] digits, most significant first. *)
Fixpoint hex_fixed (k : nat) (n : Z) (tail : string) : string :=
  match k with
  | O => tail
  | S k => hex_fixed k (n / 16) (String (hex_digit (n mod 16)) tail)
  end.

Definition from_bytes (bytes : list byte) : string := hex_fixed 32 (be_val bytes) "".

End MachineId.

(** ** Framed bodies ([framed_body.rs]) *)

(** [serde_json], as the codec uses it. *)
Class Json := {
  json : Type;
  is_object : json → bool;
  to_vec : json → option (list byte);
  from_slice : list byte → option json;
}.

Module FramedBody.

Definition MAX_FRAMED_HEAD_BYTES : Z := 65536.

Inductive FramedBodyError :=
  | ShortBody | EmptyHead | HeadTooLarge | HeadLongerThanBody | InvalidJson | HeadNotObject.

Section codec.
Context {J : Json}.

Definition encode (head : json) (payload : list byte) : Result (list byte) FramedBodyError :=
  if negb (is_object head) then Err HeadNotObject else
  let! js := ok_or (to_vec head) InvalidJson in
  if MAX_FRAMED_HEAD_BYTES <? Z.of_nat (length js) then Err HeadTooLarge else
  Ok (be_bytes 4 (wrap 32 (Z.of_nat (length js))) ++ js ++ payload).

Definition decode (body : list byte) : Result (json * list byte) FramedBodyError :=
  let! prefix := ok_or (if decide (4 ≤ length body)%nat then Some (take 4 body) else None)
                       ShortBody in
  let len := be_val prefix in
  if len =? 0 then Err EmptyHead else
  if MAX_FRAMED_HEAD_BYTES <? len then Err HeadTooLarge else
  if Z.of_nat (length body) - 4 <? len then Err HeadLongerThanBody else
  let! head := ok_or (from_slice (take (Z.to_nat len) (drop 4 body))) InvalidJson in
  if negb (is_object head) then Err HeadNotObject else
  Ok (head, drop (4 + Z.to_nat len) body).

End codec.
End FramedBody.

(** ** Theorems *)

Definition token_ok (max : Z) (s : string) : Prop :=
  1 ≤ str_len s ≤ max ∧ Forall (λ b, 33 ≤ b ≤ 126) (str_bytes s).

Lemma forallb_Forall_iff {A} (p : A → bool) (P : A → Prop) l :
  (∀ a, p a = true ↔ P a) → forallb p l = true ↔ Forall P l.
Proof.
  intros H. induction l as [|a l IH]; cbn [forallb]; [done|].
  rewrite andb_true_iff, Forall_cons_iff, IH, H. done.
Qed.

Lemma is_token_byte_iff b : is_token_byte b = true ↔ 33 ≤ b ≤ 126.
Proof. unfold is_token_byte. rewrite andb_true_iff, !Z.leb_le. done. Qed.

Lemma validate_opaque_field_ok field value :
  validate_opaque_field field value = Ok tt ↔ token_ok OPAQUE_FIELD_MAX_LEN value.
Proof.
  unfold validate_opaque_field, token_ok, str_is_empty.
  pose proof (Nat2Z.is_nonneg (String.length value)) as Hnn. fold (str_len value) in Hnn.
  destruct (Z.eqb_spec (str_len value) 0); [split; [done|lia]|].
  destruct (Z.ltb_spec OPAQUE_FIELD_MAX_LEN (str_len value)); [split; [done|lia]|].
  rewrite <-(forallb_Forall_iff is_token_byte) by apply is_token_byte_iff.
  rewrite <-position_None. destruct (position _ _); [|split; [|done]; intros _; split; [lia|done]].
  split; [done|]. by intros [_ ?].
Qed.

(** The shared token rule accepts exactly the strings of 1 to 256 bytes in
    [0x21..0x7e], and a refusal for a character points at the first offending
    byte of a string whose length is in bounds. *)
Theorem validate_opaque_field_spec field value :
  (validate_opaque_field field value = Ok tt ↔ token_ok OPAQUE_FIELD_MAX_LEN value) ∧
  (∀ f i, validate_opaque_field field value = Err (InvalidCharacter f i) →
     f = field ∧ 1 ≤ str_len value ≤ OPAQUE_FIELD_MAX_LEN ∧
     (∃ b, str_bytes value !! i = Some b ∧ ¬ (33 ≤ b ≤ 126)) ∧
     ∀ j b, (j < i)%nat → str_bytes value !! j = Some b → 33 ≤ b ≤ 126).
Proof.
  split; [apply validate_opaque_field_ok|].
  intros f i. unfold validate_opaque_field, str_is_empty.
  pose proof (Nat2Z.is_nonneg (String.length value)) as Hnn. fold (str_len value) in Hnn.
  destruct (Z.eqb_spec (str_len value) 0); [done|].
  destruct (Z.ltb_spec OPAQUE_FIELD_MAX_LEN (str_len value)); [done|].
  destruct (position _ _) as [k|] eqn:E; [|done]. intros [= <- <-].
  apply position_Some in E as [(b & Hb & Hneg) Hlt].
  split; [done|]. split; [lia|]. split.
  - exists b. split; [done|]. rewrite <-is_token_byte_iff. by apply negb_true_iff in Hneg as ->.
  - intros j c Hj Hc. apply is_token_byte_iff. apply negb_false_iff. by eapply Hlt.
Qed.

(** *** Machine ids *)

Lemma hex_digit_val n :
  0 ≤ n < 16 →
  Z.of_N (Ascii.N_of_ascii (MachineId.hex_digit n)) = if n <? 10 then 48 + n else 87 + n.
Proof.
  intros Hn. unfold MachineId.hex_digit. rewrite Ascii.N_ascii_embedding.
  - case_match; rewrite Z2N.id; lia.
  - case_match; lia.
Qed.

Lemma hex_fixed_length k n t :
  String.length (MachineId.hex_fixed k n t) = (k + String.length t)%nat.
Proof. revert n t; induction k; intros; cbn [MachineId.hex_fixed]; [done|]. rewrite IHk. cbn. lia. Qed.

Lemma hex_fixed_lower k n t :
  forallb is_lower_hex (str_bytes t) = true →
  forallb is_lower_hex (str_bytes (MachineId.hex_fixed k n t)) = true.
Proof.
  revert n t; induction k as [|k IH]; intros n t Ht; cbn [MachineId.hex_fixed]; [done|].
  apply IH. cbn [str_bytes forallb]. rewrite Ht, andb_true_r.
  pose proof (Z.mod_pos_bound n 16 ltac:(lia)).
  rewrite hex_digit_val by lia. unfold is_lower_hex, is_ascii_digit, is_a_to_f.
  destruct (Z.ltb_spec (n mod 16) 10); lia.
Qed.

Lemma hex_fixed_inj k n m t t' :
  MachineId.hex_fixed k n t = MachineId.hex_fixed k m t' →
  n mod 16 ^ Z.of_nat k = m mod 16 ^ Z.of_nat k ∧ t = t'.
Proof.
  revert n m t t'; induction k as [|k IH]; intros n m t t'; cbn [MachineId.hex_fixed].
  { change (16 ^ Z.of_nat 0) with 1. by rewrite !Z.mod_1_r. }
  intros [Hdiv Hs]%IH. injection Hs as Hd Ht. split; [|done].
  pose proof (Z.mod_pos_bound n 16 ltac:(lia)). pose proof (Z.mod_pos_bound m 16 ltac:(lia)).
  assert (n mod 16 = m mod 16) as Hlow.
  { apply (f_equal (λ a, Z.of_N (Ascii.N_of_ascii a))) in Hd.
    rewrite !hex_digit_val in Hd by lia.
    destruct (Z.ltb_spec (n mod 16) 10), (Z.ltb_spec (m mod 16) 10); lia. }
  rewrite Nat2Z.inj_succ, Z.pow_succ_r by lia.
  rewrite !Z.rem_mul_r by (try lia; apply Z.pow_nonzero; lia). congruence.
Qed.

(** An id minted from 16 bytes always parses back to itself, two different
    16-byte values never render to the same id, and nothing but 32 lowercase
    hex characters parses. *)
Theorem machine_id_roundtrip :
  (∀ bytes, MachineId.parse (MachineId.from_bytes bytes) = Ok (MachineId.from_bytes bytes)) ∧
  (∀ b1 b2, length b1 = 16%nat → length b2 = 16%nat →
     MachineId.from_bytes b1 = MachineId.from_bytes b2 → b1 = b2) ∧
  (∀ s id, MachineId.parse s = Ok id →
     id = s ∧ str_len s = 32 ∧ forallb is_lower_hex (str_bytes s) = true).
Proof.
  split; [|split].
  - intros bytes. unfold MachineId.parse, MachineId.from_bytes, str_len.
    rewrite hex_fixed_length. cbn [String.length Nat.add negb Z.of_nat Z.eqb].
    by rewrite (proj2 (position_None _ _) (hex_fixed_lower 32 (be_val bytes) "" eq_refl)).
  - intros b1 b2 H1 H2 [Heq _]%hex_fixed_inj.
    pose proof (be_val_range b1) as R1. pose proof (be_val_range b2) as R2.
    rewrite H1 in R1. rewrite H2 in R2.
    rewrite !Z.mod_small in Heq by done.
    unfold be_val in Heq. rewrite <-(reverse_involutive b1), <-(reverse_involutive b2). f_equal.
    rewrite <-(le_bytes_val (reverse b1)), <-(le_bytes_val (reverse b2)).
    rewrite !length_reverse. congruence.
  - intros s id. unfold MachineId.parse.
    destruct (Z.eqb_spec (str_len s) MachineId.HEX_LEN) as [Hl|]; cbn [negb]; [|done].
    destruct (position _ _) eqn:E; [done|]. intros [= <-].
    split; [done|]. split; [done|]. by apply position_None.
Qed.

(** *** Framed bodies *)

Section framed.
Context {J : Json}.

(** a framed body decodes to the head and payload it was built from, for
    any object head that serializes to non-empty JSON which parses back to it;
    and every body that decodes is a 4-byte big-endian length, that many head
    bytes, and the payload, unchanged. *)
Theorem framed_body_roundtrip :
  (∀ head payload js,
     is_object head = true → to_vec head = Some js → from_slice js = Some head → js ≠ [] →
     Z.of_nat (length js) ≤ FramedBody.MAX_FRAMED_HEAD_BYTES →
     ∃ body, FramedBody.encode head payload = Ok body ∧
             FramedBody.decode body = Ok (head, payload)) ∧
  (∀ body head payload,
     FramedBody.decode body = Ok (head, payload) →
     ∃ js, body = be_bytes 4 (Z.of_nat (length js)) ++ js ++ payload ∧
           from_slice js = Some head ∧ is_object head = true ∧
           0 < Z.of_nat (length js) ≤ FramedBody.MAX_FRAMED_HEAD_BYTES).
Proof.
  split.
  - intros head payload js Ho Hv Hf Hne Hmax. unfold FramedBody.encode.
    rewrite Ho, Hv. cbn [negb ok_or result_bind].
    rewrite (proj2 (Z.ltb_ge _ _)) by done. eexists; split; [done|].
    assert (u32 (Z.of_nat (length js))) as Hw
      by (unfold in_width, FramedBody.MAX_FRAMED_HEAD_BYTES in *; lia).
    assert (0 < length js)%nat by (destruct js; [done|cbn; lia]).
    unfold FramedBody.decode. rewrite wrap_id by done.
    pose proof (length_be_bytes 4 (Z.of_nat (length js))) as Hl4.
    pose proof (be_val_bytes 4 _ Hw) as Hv4.
    set (p := be_bytes 4 (Z.of_nat (length js))) in *. clearbody p.
    rewrite !length_app, decide_True by lia. cbn [ok_or result_bind].
    rewrite take_app_le, take_ge, Hv4 by lia.
    rewrite (proj2 (Z.eqb_neq _ _)), !(proj2 (Z.ltb_ge _ _)) by lia.
    rewrite Nat2Z.id, drop_app_length', take_app_length by lia.
    rewrite Hf. cbn [ok_or result_bind]. rewrite Ho. cbn [negb].
    rewrite app_assoc, drop_app_length' by (rewrite length_app; lia). done.
  - intros body head payload. unfold FramedBody.decode. intros H.
    destruct (decide (4 ≤ length body)%nat); invert_ok.
    set (len := be_val (take 4 body)) in *. cbn [ok_or result_bind] in *.
    destruct (Z.eqb_spec len 0); [done|].
    destruct (Z.ltb_spec FramedBody.MAX_FRAMED_HEAD_BYTES len); [done|].
    destruct (Z.ltb_spec (Z.of_nat (length body) - 4) len); [done|].
    pose proof (be_val_range (take 4 body)) as Hr. fold len in Hr.
    invert_ok. destruct (is_object _) eqn:Ho; cbn [negb] in *; invert_ok.
    set (js := take (Z.to_nat len) (drop 4 body)) in *.
    assert (length js = Z.to_nat len) as Hlj by (unfold js; rewrite length_take, length_drop; lia).
    exists js. split; [|split; [done|split; [done|]]]; rewrite Hlj, Z2Nat.id by lia; [|lia].
    unfold be_bytes, len, be_val.
    replace 4%nat with (length (reverse (take 4 body))) at 1
      by (rewrite length_reverse, length_take; lia).
    rewrite le_bytes_val, reverse_involutive. unfold js.
    assert (drop (4 + Z.to_nat len) body = drop (Z.to_nat len) (drop 4 body)) as Hdd
      by (by rewrite drop_drop).
    transitivity (take 4 body ++ take (Z.to_nat len) (drop 4 body)
                  ++ drop (Z.to_nat len) (drop 4 body)); [by rewrite !take_drop|].
    do 2 f_equal. exact (eq_sym Hdd).
Qed.

End framed.

(** *** Witness: a one-value JSON type *)

Definition braces : list byte := [Byte.x7b; Byte.x7d].

Definition unit_json : Json := {|
  json := unit;
  is_object := λ _, true;
  to_vec := λ _, Some braces;
  from_slice := λ bs, if decide (bs = braces) then Some tt else None;
|}.

Lemma framed_body_roundtrip_witness :
  ∃ body, FramedBody.encode (J := unit_json) tt [Byte.x01; Byte.x02] = Ok body ∧
          FramedBody.decode (J := unit_json) body = Ok (tt, [Byte.x01; Byte.x02]).
Proof.
  apply (proj1 (framed_body_roundtrip (J := unit_json)) tt [Byte.x01; Byte.x02] braces);
    try reflexivity; [discriminate|vm_compute; congruence].
Defined.
