(* ===== verification/ScopeTypes.v ===== *)
(** * Scope records, selectors, stamps and call modes

    The data of [crates/subc-protocol/src/scope.rs] and [call_mode.rs]: what a
    scope owner registers, what a [route.open] selects, and what the daemon
    stamps on a bind. *)

From S2P Require Import Prelude Tokens.

Definition MAX_LIVE_SCOPES_PER_OWNER : Z := 10000.
Definition MAX_SCOPE_ATTRIBUTE_BYTES : Z := 4 * 1024.
Definition MAX_SCOPE_TOMBSTONES_PER_OWNER : Z := 1000.
Definition MAX_CARRIER_TARGETS : Z := 16.
Definition MAX_SCOPE_EXPIRY_AHEAD_MS : Z := 86400000.

Definition FLOW_SCOPES_CAPABILITY := "flow-scopes/v1".
Definition CALL_MODES_CAPABILITY := "call-modes/v1".
Definition AGENT_RUN_SCOPES_CAPABILITY := "agent-run-scopes/v1".
Definition WORKER_RUNS_CAPABILITY := "worker-runs/v1".

Module ScopeKind.
Inductive t := Head | Worker | Ephemeral.
#[global] Instance eq_dec : EqDecision t.
Proof. solve_decision. Defined.
End ScopeKind.

Module ScopeParent.
Record t := mk { owner : Principal; scope_ref : string; scope_epoch : Z }.
#[global] Instance eq_dec : EqDecision t.
Proof. solve_decision. Defined.
End ScopeParent.

Module ScopeCarrier.
Record t := mk { principal : Principal; targets : option (list string) }.
#[global] Instance eq_dec : EqDecision t.
Proof. solve_decision. Defined.
End ScopeCarrier.

Module ScopeAttributes.
Record t := mk {
  agent_id : option string;
  on_behalf_of_agent : option string;
  delegates : bool;
  flow_id : option string;
  flow_version : option Z;
  flow_code_hash : option string;
  flow_install_id : option string;
  run_id : option string;
}.
#[global] Instance eq_dec : EqDecision t.
Proof. solve_decision. Defined.

Definition new : t := mk None None false None None None None None.

Definition is_empty (a : t) : bool :=
  is_none (agent_id a)
  && is_none (on_behalf_of_agent a)
  && negb (delegates a)
  && is_none (flow_id a)
  && is_none (flow_version a)
  && is_none (flow_code_hash a)
  && is_none (flow_install_id a)
  && is_none (run_id a).
End ScopeAttributes.

Module ScopeRecord.
Record t := mk {
  scope_ref : string;
  scope_epoch : Z;
  kind : ScopeKind.t;
  workdir : option string;
  project_id : option string;
  bind_proof_sha256 : option string;
  replace_only_if_idle : bool;
  expires_at_ms : option Z;
  parent : option ScopeParent.t;
  child_owners : list Principal;
  carriers : list ScopeCarrier.t;
  attributes : ScopeAttributes.t;
}.
#[global] Instance eq_dec : EqDecision t.
Proof. solve_decision. Defined.

Definition new (scope_ref : string) (scope_epoch : Z) (kind : ScopeKind.t) : t :=
  mk scope_ref scope_epoch kind None None None false None None [] []
     ScopeAttributes.new.

(** [stored.replace_only_if_idle = false]. *)
Definition without_idle_condition (r : t) : t :=
  mk (scope_ref r) (scope_epoch r) (kind r) (workdir r) (project_id r)
     (bind_proof_sha256 r) false (expires_at_ms r) (parent r) (child_owners r)
     (carriers r) (attributes r).
End ScopeRecord.

Module ScopeEnd.
Record t := mk { scope_ref : string; scope_epoch : Z }.
End ScopeEnd.

Module ScopeEndOutcome.
Inductive t := Ended | NotLive.
#[global] Instance eq_dec : EqDecision t.
Proof. solve_decision. Defined.
End ScopeEndOutcome.

Module ScopeEndResult.
Record t := mk { scope_ref : string; scope_epoch : Z; outcome : ScopeEndOutcome.t }.
End ScopeEndResult.

Module ScopeSelector.
Record t := mk {
  owner : Principal;
  scope_ref : string;
  scope_epoch : option Z;
  bind_proof : option string;
  hold_presence : bool;
}.
End ScopeSelector.

Module ParentState.
Inductive t := Linked | Pending | Ended.
#[global] Instance eq_dec : EqDecision t.
Proof. solve_decision. Defined.
End ParentState.

Module ScopeRecordOutcome.
Inductive t := Created | Replaced | Updated | Unchanged | Refused.
#[global] Instance eq_dec : EqDecision t.
Proof. solve_decision. Defined.
End ScopeRecordOutcome.

Module ScopeRecordResult.
Record t := mk {
  scope_ref : string;
  scope_epoch : Z;
  outcome : ScopeRecordOutcome.t;
  code : option string;
  version : option Z;
  parent_state : option ParentState.t;
}.
End ScopeRecordResult.

Module ScopeEnded.
Record t := mk { scope_ref : string; scope_epoch : Z }.
End ScopeEnded.

Module ScopeStatus.
Inductive t := Live | Ended | NotLive.
End ScopeStatus.

Module ScopeStamp.
Record t := mk {
  owner : Principal;
  scope_ref : string;
  scope_epoch : Z;
  kind : ScopeKind.t;
  workdir : option string;
  project_id : option string;
  parent : option ScopeParent.t;
  parent_state : option ParentState.t;
  attributes : ScopeAttributes.t;
  owner_authorized : bool;
  expires_at_ms : option Z;
}.
End ScopeStamp.

Module RouteCloseReason.
Inductive t :=
  | Reload | Restart | Disable | Crash | CapabilityDenied
  | ScopeEnded | ScopeCarrierRemoved | ScopeDelegationChanged | ScopeParentEnded.
#[global] Instance eq_dec : EqDecision t.
Proof. solve_decision. Defined.
End RouteCloseReason.

(** ** Call modes ([call_mode.rs]) *)

Module CallMode.
Inductive t := Classic | Codemode | Flow | Unknown (s : string).

(** The string a mode serializes to, and the mode a string decodes to. *)
Definition to_wire (m : t) : string :=
  match m with
  | Classic => "classic"
  | Codemode => "codemode"
  | Flow => "flow"
  | Unknown value => value
  end.

Definition of_wire (s : string) : t :=
  if decide (s = "classic") then Classic else
  if decide (s = "codemode") then Codemode else
  if decide (s = "flow") then Flow else Unknown s.
End CallMode.

Definition derive_call_mode (scope : option ScopeStamp.t) : CallMode.t :=
  match scope with
  | Some stamp =>
      if is_some (ScopeAttributes.run_id (ScopeStamp.attributes stamp)) then CallMode.Codemode
      else if is_some (ScopeAttributes.flow_id (ScopeStamp.attributes stamp)) then CallMode.Flow
      else CallMode.Classic
  | None => CallMode.Classic
  end.
