(* ===== verification/Scopes.v ===== *)
(** * The daemon's scope table ([crates/subc-daemon/src/scopes.rs])

    Definitions: launch nonces, bind proofs, drains, tombstones, the table and
    every operation on it.  The reference-counted cells a live scope shares
    with the leases of its binds are locations of an explicit [Heap].  A clock
    reading is an argument [now]; refusals carry their code, not their text. *)

From S2P Require Import Prelude Collections Envelope Tokens ScopeTypes.

Abbreviation ConnectionId := Z (only parsing).

Definition INVALID_CONTROL_BODY := "invalid_control_body".

(** ** Launch nonces *)

(** [a.iter().zip(b).fold(0u8, |diff, (x, y)| diff | (x ^ y)) == 0]. *)
Definition constant_time_eq (a b : list Z) : bool :=
  if negb (Z.of_nat (length a) =? Z.of_nat (length b)) then false else
  foldl (λ diff '(x, y), Z.lor diff (Z.lxor x y)) 0 (zip a b) =? 0.

Module HelloLaunchNonces.
Record t := mk { by_connection : gmap Z string }.

Definition record (self : t) (connection_id : ConnectionId) (nonce : option string) : t :=
  match nonce with
  | Some n =>
      if negb (str_is_empty n) then mk (<[connection_id := n]> (by_connection self))
      else mk (delete connection_id (by_connection self))
  | None => mk (delete connection_id (by_connection self))
  end.

Definition forget (self : t) (connection_id : ConnectionId) : t :=
  mk (delete connection_id (by_connection self)).

Definition nonce (self : t) (connection_id : ConnectionId) : option string :=
  by_connection self !! connection_id.

Definition presented (self : t) (connection_id : ConnectionId) (current : option string) : bool :=
  match by_connection self !! connection_id, current with
  | Some presented, Some current => constant_time_eq (str_bytes presented) (str_bytes current)
  | _, _ => false
  end.
End HelloLaunchNonces.

(** ** Bind proofs *)

(** The base64 and SHA-256 crates: [decode_slice s n] is the bytes written into
    a buffer of [n] bytes, [None] for an error. *)
Class ProofCrypto := {
  decode_slice : string → Z → option (list byte);
  sha256 : list byte → list byte;
}.

Definition nibble (b : Z) : Z :=
  if b <=? 57 then wrap 8 (b - 48) else wrap 8 (b - 97 + 10).

(** The digest bytes a 64-character hex string stands for. *)
Definition expected_digest (hash : list Z) : list byte :=
  (λ i, byte_of (Z.lor (wrap 8 (Z.shiftl (nibble (nth (2 * i) hash 0)) 4))
                       (nibble (nth (2 * i + 1) hash 0)))) <$> seq 0 32.

Definition bind_proof_matches `{ProofCrypto} (proof hash : string) : bool :=
  if negb (str_len proof =? 43) then false else
  match decode_slice proof 32 with
  | Some decoded =>
      if Z.of_nat (length decoded) =? 32
      then bool_decide (sha256 decoded = expected_digest (str_bytes hash))
      else false
  | None => false
  end.

(** ** Tags, drains and the cells a scope shares *)

Module ScopeTag.
Record t := mk { scope_epoch : Z; version : Z }.
#[global] Instance eq_dec : EqDecision t.
Proof. solve_decision. Defined.
End ScopeTag.

Module ScopeDrain.
Inductive t :=
  | Nothing
  | All (reason : RouteCloseReason.t)
  | Carriers (narrowed : list (Principal * option (gset string))).
#[global] Instance eq_dec : EqDecision t.
Proof. solve_decision. Defined.

Definition rank (d : t) : Z :=
  match d with
  | Nothing => 0
  | Carriers _ => 1
  | All RouteCloseReason.ScopeDelegationChanged => 2
  | All RouteCloseReason.ScopeParentEnded => 3
  | All _ => 4
  end.

Definition widen (self other : t) : t :=
  if rank self <? rank other then other else self.
End ScopeDrain.

Module ScopeTagChange.
Record t := mk {
  owner : string;
  scope_ref : string;
  before : option ScopeTag.t;
  after : option ScopeTag.t;
  drain : ScopeDrain.t;
}.
End ScopeTagChange.

(** A location of a reference-counted cell. *)
Abbreviation loc := positive (only parsing).

Module LiveScope.
Record t := mk {
  record : ScopeRecord.t;
  version : Z;
  parent_state : option ParentState.t;
  binds : loc;                        (* Arc<AtomicUsize> *)
  presence : gmap Z loc;              (* HashMap<ConnectionId, Arc<AtomicBool>> *)
  served_modules : loc;               (* Arc<Mutex<BTreeSet<String>>> *)
}.

Definition tag (s : t) : ScopeTag.t :=
  ScopeTag.mk (ScopeRecord.scope_epoch (record s)) (version s).
End LiveScope.

Definition carrier_allowance (record : ScopeRecord.t) (principal : Principal)
    : option (option (gset string)) :=
  foldl (λ allowance carrier,
           Some (match allowance, ScopeCarrier.targets carrier with
                 | Some None, _ => None
                 | _, None => None
                 | Some (Some set), Some targets => Some (set ∪ list_to_set targets)
                 | None, Some targets => Some (list_to_set targets)
                 end))
        None
        (filter (λ c, ScopeCarrier.principal c = principal) (ScopeRecord.carriers record)).

(** Principals with a carrier entry, each once, in order of first mention. *)
Definition carrier_principals (record : ScopeRecord.t) : list Principal :=
  foldl (λ principals carrier,
           if decide (ScopeCarrier.principal carrier ∈ principals) then principals
           else principals ++ [ScopeCarrier.principal carrier])
        [] (ScopeRecord.carriers record).

Definition narrowed_carriers (before after : ScopeRecord.t)
    : list (Principal * option (gset string)) :=
  omap (λ principal,
          match carrier_allowance before principal, carrier_allowance after principal with
          | Some _, None => Some (principal, None)
          | Some None, Some (Some set) => Some (principal, Some set)
          | Some (Some old), Some (Some set) =>
              if negb (bool_decide (old ⊆ set)) then Some (principal, Some set) else None
          | _, _ => None
          end)
       (carrier_principals before).

Definition delegation_changed (b a : ScopeAttributes.t) : bool :=
  (ScopeAttributes.delegates b && negb (ScopeAttributes.delegates a))
  || negb (bool_decide (ScopeAttributes.agent_id b = ScopeAttributes.agent_id a))
  || negb (bool_decide (ScopeAttributes.on_behalf_of_agent b
                        = ScopeAttributes.on_behalf_of_agent a))
  || negb (bool_decide (ScopeAttributes.flow_id b = ScopeAttributes.flow_id a))
  || negb (bool_decide (ScopeAttributes.run_id b = ScopeAttributes.run_id a)).

Definition drain_for_change (before after : LiveScope.t) : ScopeDrain.t :=
  let narrowed := narrowed_carriers (LiveScope.record before) (LiveScope.record after) in
  let drain := match narrowed with [] => ScopeDrain.Nothing | _ => ScopeDrain.Carriers narrowed end in
  let drain :=
    if delegation_changed (ScopeRecord.attributes (LiveScope.record before))
                          (ScopeRecord.attributes (LiveScope.record after))
    then ScopeDrain.widen drain (ScopeDrain.All RouteCloseReason.ScopeDelegationChanged)
    else drain in
  if bool_decide (LiveScope.parent_state after = Some ParentState.Ended)
     && negb (bool_decide (LiveScope.parent_state before = Some ParentState.Ended))
  then ScopeDrain.widen drain (ScopeDrain.All RouteCloseReason.ScopeParentEnded)
  else drain.

(** ** Bind leases *)

Module ScopeBindLease.
Record t := mk {
  binds : loc;
  released : bool;
  presence : option loc;
  served_modules : loc;
}.
End ScopeBindLease.

(** The cells reachable through an [Arc], and the leases still alive. A cell
    is allocated at [next_loc]; an absent entry reads as a fresh cell does. *)
Module Heap.
Record t := mk {
  counters : gmap loc Z;
  flags : gmap loc bool;
  sets : gmap loc (gset string);
  leases : gmap loc ScopeBindLease.t;
  next_loc : loc;
}.

Definition empty : t := mk ∅ ∅ ∅ ∅ 1.

Definition alloc (h : t) : loc * t :=
  (next_loc h, mk (counters h) (flags h) (sets h) (leases h) (Pos.succ (next_loc h))).

Definition counter (h : t) (l : loc) : Z := default 0 (counters h !! l).
Definition flag (h : t) (l : loc) : bool := default false (flags h !! l).
Definition set_of (h : t) (l : loc) : gset string := default ∅ (sets h !! l).

Definition set_counter (h : t) (l : loc) (z : Z) : t :=
  mk (<[l := z]> (counters h)) (flags h) (sets h) (leases h) (next_loc h).
Definition set_flag (h : t) (l : loc) (b : bool) : t :=
  mk (counters h) (<[l := b]> (flags h)) (sets h) (leases h) (next_loc h).
Definition set_set (h : t) (l : loc) (s : gset string) : t :=
  mk (counters h) (flags h) (<[l := s]> (sets h)) (leases h) (next_loc h).
Definition set_leases (h : t) (ls : gmap loc ScopeBindLease.t) : t :=
  mk (counters h) (flags h) (sets h) ls (next_loc h).

(** [fetch_add] and [fetch_sub] on an [AtomicUsize] wrap. *)
Definition fetch_add (h : t) (l : loc) (d : Z) : t :=
  set_counter h l (wrap 64 (counter h l + d)).

(** [Arc::strong_count(present) > 1] for a presence cell the table holds once:
    some live lease holds it too. *)
Definition presence_shared (h : t) (l : loc) : bool :=
  existsb (λ e, bool_decide (ScopeBindLease.presence e.2 = Some l)) (map_to_list (leases h)).
End Heap.

Module BoundScope.
Record t := mk {
  owner : string;
  scope_ref : string;
  tag : ScopeTag.t;
  workdir : option string;
  lease : loc;                        (* Arc<ScopeBindLease> *)
}.

Definition record_served (h : Heap.t) (self : t) (module_id : string) : Heap.t :=
  match Heap.leases h !! lease self with
  | Some l =>
      let s := ScopeBindLease.served_modules l in
      Heap.set_set h s ({[module_id]} ∪ Heap.set_of h s)
  | None => h
  end.

Definition commit_presence (h : Heap.t) (self : t) : Heap.t :=
  match Heap.leases h !! lease self with
  | Some l =>
      match ScopeBindLease.presence l with
      | Some p => Heap.set_flag h p true
      | None => h
      end
  | None => h
  end.

(** [ScopeBindLease::release], which [release_bind] calls. *)
Definition release_bind (h : Heap.t) (self : t) : Heap.t :=
  match Heap.leases h !! lease self with
  | Some l =>
      let h' := Heap.set_leases h
                  (<[lease self := ScopeBindLease.mk (ScopeBindLease.binds l) true
                                     (ScopeBindLease.presence l)
                                     (ScopeBindLease.served_modules l)]> (Heap.leases h)) in
      if negb (ScopeBindLease.released l)
      then Heap.fetch_add h' (ScopeBindLease.binds l) (-1)
      else h'
  | None => h
  end.

(** The last [BoundScope] sharing the lease goes away: [Drop], then the lease
    is freed. *)
Definition drop (h : Heap.t) (self : t) : Heap.t :=
  let h' := release_bind h self in
  Heap.set_leases h' (delete (lease self) (Heap.leases h')).
End BoundScope.

Module ScopeAdmission.
Record t := mk {
  owner : string;
  stamp : ScopeStamp.t;
  tag : ScopeTag.t;
}.
End ScopeAdmission.

(** ** Target capabilities *)

(** [capabilities] is the target's [provides] list, when it declared one. *)
Definition provides (capabilities : option (list string)) (wanted : string) : bool :=
  is_some_and (λ caps, existsb (λ cap, bool_decide (cap = wanted)) caps) capabilities.

Definition check_target_flow_support (stamp : ScopeStamp.t)
    (capabilities : option (list string)) : Result unit string :=
  if is_none (ScopeAttributes.flow_id (ScopeStamp.attributes stamp)) then Ok tt else
  let supported :=
    is_some_and (λ caps, existsb (λ cap, bool_decide (cap = FLOW_SCOPES_CAPABILITY)
                                         || bool_decide (cap = CALL_MODES_CAPABILITY)) caps)
                capabilities in
  if supported then Ok tt else Err error_codes.TARGET_FLOW_UNSUPPORTED.

Definition is_worker_run (stamp : ScopeStamp.t) : bool :=
  is_some (ScopeAttributes.run_id (ScopeStamp.attributes stamp))
  && is_none (ScopeAttributes.agent_id (ScopeStamp.attributes stamp)).

Definition check_target_agent_run_support (stamp : ScopeStamp.t)
    (capabilities : option (list string)) : Result unit string :=
  if is_none (ScopeAttributes.run_id (ScopeStamp.attributes stamp)) then Ok tt else
  if is_worker_run stamp then
    if provides capabilities WORKER_RUNS_CAPABILITY then Ok tt
    else Err error_codes.TARGET_AGENT_RUN_UNSUPPORTED
  else
  if provides capabilities CALL_MODES_CAPABILITY
     || (negb (ScopeAttributes.delegates (ScopeStamp.attributes stamp))
         && provides capabilities AGENT_RUN_SCOPES_CAPABILITY)
  then Ok tt
  else Err error_codes.TARGET_AGENT_RUN_UNSUPPORTED.

(** ** The table *)

Inductive EndCause := Expired | OwnerEnded.
#[global] Instance EndCause_eq_dec : EqDecision EndCause.
Proof. solve_decision. Defined.

Module Tombstones.
Record t := mk {
  order : list (string * Z);                    (* VecDeque, front first *)
  by_ref : gmap string (gmap Z EndCause);
}.

Definition empty : t := mk [] ∅.

(** The body of the eviction loop: forget one pair. *)
Definition forget (by_ref : gmap string (gmap Z EndCause)) (evicted_ref : string)
    (evicted_epoch : Z) : gmap string (gmap Z EndCause) :=
  match by_ref !! evicted_ref with
  | Some epochs =>
      let epochs := delete evicted_epoch epochs in
      if decide (epochs = ∅) then delete evicted_ref by_ref
      else <[evicted_ref := epochs]> by_ref
  | None => by_ref
  end.

Fixpoint evict (order : list (string * Z)) (by_ref : gmap string (gmap Z EndCause)) : t :=
  match order with
  | [] => mk [] by_ref
  | (r, e) :: rest =>
      if MAX_SCOPE_TOMBSTONES_PER_OWNER <? Z.of_nat (length order)
      then evict rest (forget by_ref r e)
      else mk order by_ref
  end.

Definition insert (self : t) (scope_ref : string) (scope_epoch : Z) (cause : EndCause) : t :=
  let epochs := default ∅ (by_ref self !! scope_ref) in
  if is_some (epochs !! scope_epoch) then self else
  evict (order self ++ [(scope_ref, scope_epoch)])
        (<[scope_ref := <[scope_epoch := cause]> epochs]> (by_ref self)).

Definition cause (self : t) (scope_ref : string) (scope_epoch : Z) : option EndCause :=
  epochs ← by_ref self !! scope_ref; epochs !! scope_epoch.

Definition latest (self : t) (scope_ref : string) : option Z :=
  epochs ← by_ref self !! scope_ref; last_key epochs.
End Tombstones.

Module SyncAuthority.
Record t := mk { connection_id : ConnectionId; last_generation : Z }.
End SyncAuthority.

Module OwnerScopes.
Record t := mk {
  authority : option SyncAuthority.t;
  synced : bool;
  live : gmap string LiveScope.t;
  tombstones : Tombstones.t;
}.

Definition empty : t := mk None false ∅ Tombstones.empty.
Definition with_live (s : t) (l : gmap string LiveScope.t) : t :=
  mk (authority s) (synced s) l (tombstones s).
End OwnerScopes.

Record ScopeTable := mkScopeTable {
  authority_owners : gset string;
  owners : gmap string OwnerScopes.t;
  last_version : Z;
}.

Definition new_table (authority_owners : list string) : ScopeTable :=
  mkScopeTable (list_to_set authority_owners) ∅ 0.

Definition with_owners (t : ScopeTable) (o : gmap string OwnerScopes.t) : ScopeTable :=
  mkScopeTable (authority_owners t) o (last_version t).

Definition reserved_module_id (principal : Principal) : option string :=
  match principal with
  | Reserved module_id => Some module_id
  | _ => None
  end.

Definition reserved (module_id : string) : Principal := Reserved module_id.

Definition owner_authorized (t : ScopeTable) (owner : string) : bool :=
  bool_decide (owner ∈ authority_owners t).

(** [self.last_version += 1]. *)
Definition next_version (last : Z) : Z := wrap 64 (last + 1).

(** ** Expiry *)

Module ScopeExpired.
Record t := mk { owner : string; scope_ref : string; scope_epoch : Z; expires_at_ms : Z }.
End ScopeExpired.

(** [record.expires_at_ms.filter(|deadline| *deadline <= now)]. *)
Definition passed_deadline (now : Z) (record : ScopeRecord.t) : option Z :=
  opt_filter (λ deadline, deadline <=? now) (ScopeRecord.expires_at_ms record).

Definition expire_one (owner : string) (now : Z)
    (acc : OwnerScopes.t * list ScopeExpired.t) (entry : string * LiveScope.t)
    : OwnerScopes.t * list ScopeExpired.t :=
  let '(state, expired) := acc in
  let '(scope_ref, scope) := entry in
  match passed_deadline now (LiveScope.record scope) with
  | None => acc
  | Some deadline =>
      let epoch := ScopeRecord.scope_epoch (LiveScope.record scope) in
      (OwnerScopes.mk (OwnerScopes.authority state) (OwnerScopes.synced state)
         (delete scope_ref (OwnerScopes.live state))
         (Tombstones.insert (OwnerScopes.tombstones state) scope_ref epoch Expired),
       expired ++ [ScopeExpired.mk owner scope_ref epoch deadline])
  end.

(** [state.live.retain(..)] visits the entries in key order. *)
Definition expire_owner (owner : string) (state : OwnerScopes.t) (now : Z)
    : OwnerScopes.t * list ScopeExpired.t :=
  foldl (expire_one owner now) (state, []) (btree_iter (OwnerScopes.live state)).

(** ** Parent links *)

(** The record [owner/scope_ref] names, the syncing owner's from [next]. *)
Definition Overlay : Type := option (string * gmap string ScopeRecord.t).

Definition lookup (t : ScopeTable) (overlay : Overlay) (owner scope_ref : string)
    : option ScopeRecord.t :=
  let from_table :=
    state ← owners t !! owner;
    LiveScope.record <$> (OwnerScopes.live state !! scope_ref) in
  match overlay with
  | Some (syncing_owner, next) =>
      if decide (syncing_owner = owner) then next !! scope_ref else from_table
  | None => from_table
  end.

Definition check_new_link (t : ScopeTable) (owner : string) (parent : ScopeParent.t)
    (next : gmap string ScopeRecord.t) : option ParentState.t :=
  match reserved_module_id (ScopeParent.owner parent) with
  | None => None
  | Some parent_owner =>
      let parent_owner_synced :=
        bool_decide (parent_owner = owner)
        || is_some_and OwnerScopes.synced (owners t !! parent_owner) in
      if negb parent_owner_synced then Some ParentState.Pending else
      match lookup t (Some (owner, next)) parent_owner (ScopeParent.scope_ref parent) with
      | None => None
      | Some parent_record =>
          if negb (ScopeRecord.scope_epoch parent_record =? ScopeParent.scope_epoch parent)
          then None else
          if negb (bool_decide (parent_owner = owner))
             && negb (bool_decide (reserved owner ∈ ScopeRecord.child_owners parent_record))
          then None
          else Some ParentState.Linked
      end
  end.

Abbreviation ScopeLinkKey := (string * string * Z)%type (only parsing).

Module LinkCycleCache.
Record t := mk {
  acyclic : gset (string * string * Z);
  cycles : gmap (string * string * Z) nat;
  members : list (gset (string * string));
}.
Definition empty : t := mk ∅ ∅ [].
Definition extend_acyclic (c : t) (path : list (string * string * Z)) : t :=
  mk (acyclic c ∪ list_to_set path) (cycles c) (members c).
End LinkCycleCache.

(** [path[start..]] is a cycle: a fresh member set, every member mapped to it;
    the rest of the path only leads into it. *)
Definition record_cycle (c : LinkCycleCache.t) (path : list (string * string * Z)) (start : nat)
    : LinkCycleCache.t :=
  let cycle := length (LinkCycleCache.members c) in
  LinkCycleCache.mk
    (LinkCycleCache.acyclic c ∪ list_to_set (take start path))
    (foldl (λ m member, <[member := cycle]> m) (LinkCycleCache.cycles c) (drop start path))
    (LinkCycleCache.members c ++ [list_to_set (fst <$> drop start path)]).

(** The [while] loop of [link_closes_cycle_cached]; [path] is both the path and
    the [visited] map, whose value for a key is its position in the path. *)
Fixpoint closes_cycle_cached_loop (fuel : nat) (t : ScopeTable) (overlay : Overlay)
    (child : string * string) (path : list (string * string * Z)) (link : ScopeParent.t)
    (cache : LinkCycleCache.t) : option (bool * LinkCycleCache.t) :=
  match fuel with
  | O => None
  | S fuel =>
      let finish := Some (false, LinkCycleCache.extend_acyclic cache path) in
      match reserved_module_id (ScopeParent.owner link) with
      | None => finish
      | Some owner =>
          let key := (owner, ScopeParent.scope_ref link, ScopeParent.scope_epoch link) in
          if decide ((owner, ScopeParent.scope_ref link) = child) then Some (true, cache) else
          if decide (key ∈ LinkCycleCache.acyclic cache) then finish else
          match LinkCycleCache.cycles cache !! key with
          | Some cycle =>
              let closes_cycle :=
                bool_decide (child ∈ default ∅ (LinkCycleCache.members cache !! cycle)) in
              Some (closes_cycle,
                    if closes_cycle then cache else LinkCycleCache.extend_acyclic cache path)
          | None =>
              match position (λ k, bool_decide (k = key)) path with
              | Some start => Some (false, record_cycle cache path start)
              | None =>
                  let path := path ++ [key] in
                  let finish := Some (false, LinkCycleCache.extend_acyclic cache path) in
                  match lookup t overlay owner (ScopeParent.scope_ref link) with
                  | None => finish
                  | Some record =>
                      if negb (ScopeRecord.scope_epoch record =? ScopeParent.scope_epoch link)
                      then finish else
                      match ScopeRecord.parent record with
                      | None => finish
                      | Some up => closes_cycle_cached_loop fuel t overlay child path up cache
                      end
                  end
              end
          end
      end
  end.

(** One more than the records a walk can pass through. *)
Definition link_fuel (t : ScopeTable) (overlay : Overlay) : nat :=
  2 + match overlay with Some (_, next) => size next | None => 0%nat end
    + sum_list_with (λ e, size (OwnerScopes.live e.2)) (map_to_list (owners t)).

Definition link_closes_cycle_cached (t : ScopeTable) (overlay : Overlay)
    (child_owner child_ref : string) (parent : ScopeParent.t) (cache : LinkCycleCache.t)
    : bool * LinkCycleCache.t :=
  default (false, cache)
    (closes_cycle_cached_loop (link_fuel t overlay) t overlay (child_owner, child_ref) []
       parent cache).

Fixpoint closes_cycle_loop (fuel : nat) (t : ScopeTable) (overlay : Overlay)
    (child : string * string) (visited : gset (string * string)) (link : ScopeParent.t)
    : option bool :=
  match fuel with
  | O => None
  | S fuel =>
      match reserved_module_id (ScopeParent.owner link) with
      | None => Some false
      | Some owner =>
          if decide ((owner, ScopeParent.scope_ref link) = child) then Some true else
          if decide ((owner, ScopeParent.scope_ref link) ∈ visited) then Some false else
          let visited := {[(owner, ScopeParent.scope_ref link)]} ∪ visited in
          match lookup t overlay owner (ScopeParent.scope_ref link) with
          | None => Some false
          | Some record =>
              if negb (ScopeRecord.scope_epoch record =? ScopeParent.scope_epoch link)
              then Some false else
              match ScopeRecord.parent record with
              | None => Some false
              | Some up => closes_cycle_loop fuel t overlay child visited up
              end
          end
      end
  end.

Definition link_closes_cycle (t : ScopeTable) (overlay : Overlay)
    (child_owner child_ref : string) (parent : ScopeParent.t) : bool :=
  default false (closes_cycle_loop (link_fuel t overlay) t overlay (child_owner, child_ref) ∅ parent).

(** ** Settling the links into one owner's scopes *)

Definition settle_link (t : ScopeTable) (parent_owner child_owner child_ref : string)
    (scope : LiveScope.t) (parent : ScopeParent.t) : ParentState.t :=
  let parent_record :=
    parent_state ← owners t !! parent_owner;
    LiveScope.record <$>
      opt_filter (λ parent_scope,
                    ScopeRecord.scope_epoch (LiveScope.record parent_scope)
                    =? ScopeParent.scope_epoch parent)
                 (OwnerScopes.live parent_state !! ScopeParent.scope_ref parent) in
  match LiveScope.parent_state scope, parent_record with
  | Some ParentState.Ended, _ => ParentState.Ended
  | _, None => ParentState.Ended
  | Some ParentState.Linked, Some _ => ParentState.Linked
  | _, Some parent_record =>
      let permitted := bool_decide (child_owner = parent_owner)
                       || bool_decide (reserved child_owner ∈ ScopeRecord.child_owners parent_record) in
      if permitted && negb (link_closes_cycle t None child_owner child_ref parent)
      then ParentState.Linked
      else ParentState.Ended
  end.

(** What the scan does at one live scope: the update it queues, if any. *)
Definition link_update (t : ScopeTable) (parent_owner child_owner : string)
    (entry : string * LiveScope.t) : option (string * string * ParentState.t) :=
  let '(child_ref, scope) := entry in
  parent ← ScopeRecord.parent (LiveScope.record scope);
  if decide (ScopeParent.owner parent = reserved parent_owner) then
    let settled := settle_link t parent_owner child_owner child_ref scope parent in
    if decide (Some settled = LiveScope.parent_state scope) then None
    else Some (child_owner, child_ref, settled)
  else None.

Definition link_updates `{HashOrder} (t : ScopeTable) (parent_owner : string)
    : list (string * string * ParentState.t) :=
  e ← hash_iter (owners t);
  omap (link_update t parent_owner e.1) (btree_iter (OwnerScopes.live e.2)).

Definition settle_drain (settled : ParentState.t) : ScopeDrain.t :=
  if decide (settled = ParentState.Ended)
  then ScopeDrain.All RouteCloseReason.ScopeParentEnded
  else ScopeDrain.Nothing.

(** [tag_changes.iter_mut().find(..)], moving its [after] and widening its
    drain; a new entry when there is none. *)
Fixpoint merge_tag_change (tag_changes : list ScopeTagChange.t) (new : ScopeTagChange.t)
    : list ScopeTagChange.t :=
  match tag_changes with
  | [] => [new]
  | c :: rest =>
      if decide (ScopeTagChange.owner c = ScopeTagChange.owner new
                 ∧ ScopeTagChange.scope_ref c = ScopeTagChange.scope_ref new)
      then ScopeTagChange.mk (ScopeTagChange.owner c) (ScopeTagChange.scope_ref c)
             (ScopeTagChange.before c) (ScopeTagChange.after new)
             (ScopeDrain.widen (ScopeTagChange.drain c) (ScopeTagChange.drain new)) :: rest
      else c :: merge_tag_change rest new
  end.

Definition apply_link_update (acc : ScopeTable * list ScopeTagChange.t)
    (update : string * string * ParentState.t) : ScopeTable * list ScopeTagChange.t :=
  let '(t, tag_changes) := acc in
  let '(child_owner, child_ref, settled) := update in
  let version := next_version (last_version t) in
  let bumped := mkScopeTable (authority_owners t) (owners t) version in
  match owners t !! child_owner with
  | None => (bumped, tag_changes)
  | Some state =>
      match OwnerScopes.live state !! child_ref with
      | None => (bumped, tag_changes)
      | Some scope =>
          let scope' := LiveScope.mk (LiveScope.record scope) version (Some settled)
                          (LiveScope.binds scope) (LiveScope.presence scope)
                          (LiveScope.served_modules scope) in
          (mkScopeTable (authority_owners t)
             (<[child_owner := OwnerScopes.with_live state
                                 (<[child_ref := scope']> (OwnerScopes.live state))]> (owners t))
             version,
           merge_tag_change tag_changes
             (ScopeTagChange.mk child_owner child_ref (Some (LiveScope.tag scope))
                (Some (LiveScope.tag scope')) (settle_drain settled)))
      end
  end.

Definition refresh_links_to `{HashOrder} (t : ScopeTable) (parent_owner : string)
    (tag_changes : list ScopeTagChange.t) : ScopeTable * list ScopeTagChange.t :=
  foldl apply_link_update (t, tag_changes) (link_updates t parent_owner).

(** ** Sweeping expired scopes *)

Definition has_deadlines (t : ScopeTable) : bool :=
  existsb (λ e, existsb (λ s, is_some (ScopeRecord.expires_at_ms (LiveScope.record s.2)))
                        (map_to_list (OwnerScopes.live e.2)))
          (map_to_list (owners t)).

Record ExpirySwept := mkExpirySwept {
  swept_expired : list ScopeExpired.t;
  swept_tag_changes : list ScopeTagChange.t;
}.

(** [before[&scope.scope_ref]] is the tag the scope had; every expired scope
    was live, so the index never panics. *)
Definition expired_tag_change (owner : string) (live : gmap string LiveScope.t)
    (scope : ScopeExpired.t) : ScopeTagChange.t :=
  ScopeTagChange.mk owner (ScopeExpired.scope_ref scope)
    (LiveScope.tag <$> (live !! ScopeExpired.scope_ref scope)) None
    (ScopeDrain.All RouteCloseReason.ScopeEnded).

Definition sweep_owner (now : Z)
    (acc : gmap string OwnerScopes.t * list ScopeExpired.t * list ScopeTagChange.t * list string)
    (entry : string * OwnerScopes.t)
    : gmap string OwnerScopes.t * list ScopeExpired.t * list ScopeTagChange.t * list string :=
  let '(os, all_expired, tag_changes, changed_owners) := acc in
  let '(owner, state) := entry in
  let '(state', expired) := expire_owner owner state now in
  let os := <[owner := state']> os in
  match expired with
  | [] => (os, all_expired, tag_changes, changed_owners)
  | _ => (os, all_expired ++ expired,
          tag_changes ++ (expired_tag_change owner (OwnerScopes.live state) <$> expired),
          changed_owners ++ [owner])
  end.

Definition sweep_expired `{HashOrder} (t : ScopeTable) (now : Z) : ScopeTable * ExpirySwept :=
  let '(os, expired, tag_changes, changed_owners) :=
    foldl (sweep_owner now) (owners t, [], [], []) (hash_iter (owners t)) in
  let '(t', tag_changes) :=
    foldl (λ acc owner, refresh_links_to acc.1 owner acc.2)
          (with_owners t os, tag_changes) changed_owners in
  (t', mkExpirySwept expired tag_changes).

(** ** A connection going away *)

Definition release_scope (connection_id : ConnectionId) (s : LiveScope.t) : LiveScope.t :=
  LiveScope.mk (LiveScope.record s) (LiveScope.version s) (LiveScope.parent_state s)
    (LiveScope.binds s) (delete connection_id (LiveScope.presence s))
    (LiveScope.served_modules s).

Definition release_owner (connection_id : ConnectionId) (state : OwnerScopes.t) : OwnerScopes.t :=
  OwnerScopes.mk
    (if is_some_and (λ a, SyncAuthority.connection_id a =? connection_id)
                    (OwnerScopes.authority state)
     then None else OwnerScopes.authority state)
    (OwnerScopes.synced state)
    (release_scope connection_id <$> OwnerScopes.live state)
    (OwnerScopes.tombstones state).

Definition release_connection (t : ScopeTable) (connection_id : ConnectionId) : ScopeTable :=
  with_owners t (release_owner connection_id <$> owners t).

(** ** Whole-call checks of a sync *)

Definition check_authority (state : OwnerScopes.t) (connection_id : ConnectionId)
    (is_current_launch : Z → bool) : Result bool string :=
  if negb (is_current_launch connection_id)
  then Err error_codes.SCOPE_SYNC_NOT_AUTHORITY else
  match OwnerScopes.authority state with
  | Some authority =>
      if SyncAuthority.connection_id authority =? connection_id then Ok false else
      if is_current_launch (SyncAuthority.connection_id authority)
      then Err error_codes.SCOPE_SYNC_NOT_AUTHORITY
      else Ok true
  | None => Ok true
  end.

(** [serde_json::to_vec(&attributes)]: the length of the rendering, [None] for
    an error. *)
Class AttributeJson := attributes_to_vec : ScopeAttributes.t → option (list byte).

Definition validate_field {A E} (validate : A → Result unit E) (field : option A)
    : Result unit string :=
  match field with
  | Some v => map_err (λ _, INVALID_CONTROL_BODY) (validate v)
  | None => Ok tt
  end.

Definition attribute_bytes `{AttributeJson} (a : ScopeAttributes.t) : Z :=
  match attributes_to_vec a with
  | Some bytes => Z.of_nat (length bytes)
  | None => 2 ^ 64 - 1
  end.

Definition check_record_bounds `{AttributeJson} (seen : gset string) (record : ScopeRecord.t)
    : Result unit string :=
  let a := ScopeRecord.attributes record in
  let! _ := validate_field validate_project_id (ScopeRecord.project_id record) in
  let! _ := validate_field validate_bind_proof_sha256 (ScopeRecord.bind_proof_sha256 record) in
  if str_is_empty (ScopeRecord.scope_ref record) then Err INVALID_CONTROL_BODY else
  if decide (ScopeRecord.scope_ref record ∈ seen) then Err INVALID_CONTROL_BODY else
  let! _ := validate_field validate_flow_id (ScopeAttributes.flow_id a) in
  let! _ := validate_field validate_flow_version (ScopeAttributes.flow_version a) in
  let! _ := validate_field validate_flow_code_hash (ScopeAttributes.flow_code_hash a) in
  let! _ := validate_field validate_flow_install_id (ScopeAttributes.flow_install_id a) in
  let! _ := validate_field validate_run_id (ScopeAttributes.run_id a) in
  let! _ := validate_field validate_on_behalf_of_agent (ScopeAttributes.on_behalf_of_agent a) in
  if MAX_SCOPE_ATTRIBUTE_BYTES <? attribute_bytes a
  then Err error_codes.SCOPE_ATTRIBUTES_TOO_LARGE
  else Ok tt.

Fixpoint check_records_bounds `{AttributeJson} (seen : gset string) (scopes : list ScopeRecord.t)
    : Result unit string :=
  match scopes with
  | [] => Ok tt
  | record :: rest =>
      let! _ := check_record_bounds seen record in
      check_records_bounds ({[ScopeRecord.scope_ref record]} ∪ seen) rest
  end.

Definition check_sync_bounds `{AttributeJson} (scopes : list ScopeRecord.t)
    : Result unit string :=
  if MAX_LIVE_SCOPES_PER_OWNER <? Z.of_nat (length scopes)
  then Err error_codes.SCOPE_LIVE_LIMIT_EXCEEDED
  else check_records_bounds ∅ scopes.

Fixpoint check_end_entries (seen : gset string) (ends : list ScopeEnd.t) : Result unit string :=
  match ends with
  | [] => Ok tt
  | entry :: rest =>
      if str_is_empty (ScopeEnd.scope_ref entry) || bool_decide (ScopeEnd.scope_ref entry ∈ seen)
      then Err INVALID_CONTROL_BODY
      else check_end_entries ({[ScopeEnd.scope_ref entry]} ∪ seen) rest
  end.

Definition check_end_bounds (scopes : list ScopeRecord.t) (ends : list ScopeEnd.t)
    : Result unit string :=
  if MAX_LIVE_SCOPES_PER_OWNER <? Z.of_nat (length ends)
  then Err error_codes.SCOPE_LIVE_LIMIT_EXCEEDED
  else check_end_entries (list_to_set (ScopeRecord.scope_ref <$> scopes)) ends.

(** ** One record on its own *)

Definition bad_targets (carrier : ScopeCarrier.t) : bool :=
  is_some_and (λ targets, (Z.of_nat (length targets) =? 0)
                          || (MAX_CARRIER_TARGETS <? Z.of_nat (length targets)))
              (ScopeCarrier.targets carrier).

(** The rules on attributes alone. *)
Definition attribute_refusal (a : ScopeAttributes.t) (owner_authorized : bool) : option string :=
  if negb (ScopeAttributes.is_empty a) && negb owner_authorized
  then Some error_codes.SCOPE_ATTRIBUTE_NOT_PERMITTED else
  if is_some (ScopeAttributes.on_behalf_of_agent a)
     && (is_some (ScopeAttributes.agent_id a) || ScopeAttributes.delegates a
         || is_some (ScopeAttributes.flow_id a))
  then Some error_codes.SCOPE_ATTRIBUTE_NOT_PERMITTED else
  if ScopeAttributes.delegates a && is_none (ScopeAttributes.agent_id a)
  then Some error_codes.SCOPE_DELEGATES_WITHOUT_AGENT else
  if is_some (ScopeAttributes.run_id a) then
    if is_none (ScopeAttributes.agent_id a) && is_none (ScopeAttributes.on_behalf_of_agent a)
    then Some error_codes.SCOPE_RUN_ID_WITHOUT_AGENT else
    if is_some (ScopeAttributes.flow_id a)
    then Some error_codes.SCOPE_RUN_ID_WITH_FLOW_ID else None
  else None.

(** [epoch_refusal]: the record against the held one, or the ended epochs. *)
Definition epoch_refusal (record : ScopeRecord.t) (held : option LiveScope.t)
    (tombstones : Tombstones.t) : option string :=
  let epoch := ScopeRecord.scope_epoch record in
  match held with
  | Some held =>
      let h := LiveScope.record held in
      let same := epoch =? ScopeRecord.scope_epoch h in
      let a := ScopeRecord.attributes record in
      let ha := ScopeRecord.attributes h in
      if epoch <? ScopeRecord.scope_epoch h then Some error_codes.SCOPE_EPOCH_REGRESSED else
      if same && negb (bool_decide (ScopeRecord.kind record = ScopeRecord.kind h))
      then Some error_codes.SCOPE_KIND_CHANGED else
      if same
         && (negb (bool_decide (ScopeAttributes.flow_version a = ScopeAttributes.flow_version ha))
             || negb (bool_decide (ScopeAttributes.flow_code_hash a
                                   = ScopeAttributes.flow_code_hash ha))
             || negb (bool_decide (ScopeAttributes.flow_install_id a
                                   = ScopeAttributes.flow_install_id ha)))
      then Some error_codes.SCOPE_FLOW_IDENTITY_CHANGED else
      if same && negb (bool_decide (ScopeRecord.workdir record = ScopeRecord.workdir h))
      then Some error_codes.SCOPE_WORKDIR_CHANGED else
      if same && negb (bool_decide (ScopeRecord.project_id record = ScopeRecord.project_id h))
      then Some error_codes.SCOPE_PROJECT_CHANGED
      else None
  | None =>
      (λ _, error_codes.SCOPE_EPOCH_REGRESSED) <$>
        opt_filter (λ latest, epoch <? latest)
                   (Tombstones.latest tombstones (ScopeRecord.scope_ref record))
  end.

Definition flow_identity_refusal (a : ScopeAttributes.t) : option string :=
  let identity_fields := [is_some (ScopeAttributes.flow_version a);
                          is_some (ScopeAttributes.flow_code_hash a);
                          is_some (ScopeAttributes.flow_install_id a)] in
  if existsb id identity_fields
     && (negb (forallb id identity_fields) || is_none (ScopeAttributes.flow_id a))
  then Some error_codes.SCOPE_ATTRIBUTE_NOT_PERMITTED
  else None.

Definition expiry_refusal (record : ScopeRecord.t) (held : option LiveScope.t) (now : Z)
    : option string :=
  match opt_filter (λ held, ScopeRecord.scope_epoch record
                            =? ScopeRecord.scope_epoch (LiveScope.record held)) held with
  | Some held =>
      if bool_decide (ScopeRecord.expires_at_ms (LiveScope.record held)
                      = ScopeRecord.expires_at_ms record)
      then None else Some error_codes.SCOPE_EXPIRY_IMMUTABLE
  | None =>
      match ScopeRecord.expires_at_ms record with
      | Some deadline =>
          if deadline <=? now then Some error_codes.SCOPE_EXPIRED else
          if MAX_SCOPE_EXPIRY_AHEAD_MS <? deadline - now
          then Some error_codes.SCOPE_EXPIRY_TOO_FAR else None
      | None => None
      end
  end.

Definition record_refusal (record : ScopeRecord.t) (held : option LiveScope.t)
    (tombstones : Tombstones.t) (owner_authorized : bool) (now : Z) : option string :=
  if existsb bad_targets (ScopeRecord.carriers record)
  then Some error_codes.SCOPE_CARRIER_TARGETS_INVALID else
  or_else (attribute_refusal (ScopeRecord.attributes record) owner_authorized) (
  match Tombstones.cause tombstones (ScopeRecord.scope_ref record)
          (ScopeRecord.scope_epoch record) with
  | Some cause =>
      Some (if decide (cause = Expired) then error_codes.SCOPE_EXPIRED
            else error_codes.SCOPE_EPOCH_ENDED)
  | None =>
      or_else (epoch_refusal record held tombstones) (
      or_else (flow_identity_refusal (ScopeRecord.attributes record))
              (expiry_refusal record held now))
  end).

(** ** Staging the next set *)

Definition scope_in_use (h : Heap.t) (held : LiveScope.t) : bool :=
  negb (Heap.counter h (LiveScope.binds held) =? 0)
  || existsb (λ e, Heap.flag h e.2) (map_to_list (LiveScope.presence held)).

Definition idle_refusal (h : Heap.t) (record : ScopeRecord.t) (held : option LiveScope.t)
    : option string :=
  (λ _, error_codes.SCOPE_EPOCH_IN_USE) <$>
    opt_filter (λ held,
      ScopeRecord.replace_only_if_idle record
      && ((ScopeRecord.scope_epoch (LiveScope.record held) <? ScopeRecord.scope_epoch record)
          || negb (bool_decide (ScopeRecord.bind_proof_sha256 record
                                = ScopeRecord.bind_proof_sha256 (LiveScope.record held))))
      && scope_in_use h held) held.

(** The indexes refused so far with their codes, and the set as it will stand. *)
Abbreviation staged := (gmap nat string * gmap string ScopeRecord.t)%type (only parsing).

Definition stage_record (h : Heap.t) (state : OwnerScopes.t) (owner_authorized : bool) (now : Z)
    (acc : gmap nat string * gmap string ScopeRecord.t) (entry : nat * ScopeRecord.t)
    : gmap nat string * gmap string ScopeRecord.t :=
  let '(refusals, next) := acc in
  let '(index, record) := entry in
  let held := OwnerScopes.live state !! ScopeRecord.scope_ref record in
  let refusal :=
    or_else (refusals !! index) (
    or_else (record_refusal record held (OwnerScopes.tombstones state) owner_authorized now)
            (idle_refusal h record held)) in
  match refusal with
  | Some code =>
      (<[index := code]> refusals,
       match held with
       | Some held => <[ScopeRecord.scope_ref record := LiveScope.record held]> next
       | None => next
       end)
  | None =>
      (refusals,
       <[ScopeRecord.scope_ref record := ScopeRecord.without_idle_condition record]> next)
  end.

(** [scopes.iter().enumerate()]. *)
Definition enumerate {A} (l : list A) : list (nat * A) := imap pair l.

Definition stage_records (h : Heap.t) (state : OwnerScopes.t) (owner_authorized : bool) (now : Z)
    (scopes : list ScopeRecord.t) (refusals : gmap nat string)
    (next : gmap string ScopeRecord.t) : gmap nat string * gmap string ScopeRecord.t :=
  foldl (stage_record h state owner_authorized now) (refusals, next) (enumerate scopes).

Definition end_result (state : OwnerScopes.t) (entry : ScopeEnd.t) : ScopeEndResult.t :=
  ScopeEndResult.mk (ScopeEnd.scope_ref entry) (ScopeEnd.scope_epoch entry)
    (if is_some_and (λ held, ScopeRecord.scope_epoch (LiveScope.record held)
                             =? ScopeEnd.scope_epoch entry)
                    (OwnerScopes.live state !! ScopeEnd.scope_ref entry)
     then ScopeEndOutcome.Ended else ScopeEndOutcome.NotLive).

(** The set staging starts from: nothing for a sync, the held records less the
    ended ones for an apply. *)
Definition initial_next (state : OwnerScopes.t) (is_apply : bool)
    (end_results : list ScopeEndResult.t) : gmap string ScopeRecord.t :=
  foldl (λ next entry,
           if decide (ScopeEndResult.outcome entry = ScopeEndOutcome.Ended)
           then delete (ScopeEndResult.scope_ref entry) next else next)
        (if is_apply then LiveScope.record <$> OwnerScopes.live state else ∅)
        end_results.

(** ** Settling new links *)

Definition is_new_link (state : OwnerScopes.t) (record : ScopeRecord.t) : bool :=
  match ScopeRecord.parent record with
  | None => false
  | Some parent =>
      is_none_or (λ held,
        negb (ScopeRecord.scope_epoch (LiveScope.record held) =? ScopeRecord.scope_epoch record)
        || negb (bool_decide (ScopeRecord.parent (LiveScope.record held) = Some parent)))
        (OwnerScopes.live state !! ScopeRecord.scope_ref record)
  end.

(** [children.get(scope_ref)]: the indexes, in order, of the records whose
    parent is that ref of the syncing owner. *)
Definition children_of (owner : string) (scopes : list ScopeRecord.t) (scope_ref : string)
    : list nat :=
  fst <$> filter (λ e : nat * ScopeRecord.t,
                    is_some_and (λ p, bool_decide (reserved_module_id (ScopeParent.owner p)
                                                   = Some owner)
                                      && bool_decide (ScopeParent.scope_ref p = scope_ref))
                                (ScopeRecord.parent e.2) = true)
                 (enumerate scopes).

Module Settle.
Record t := mk {
  pending : list nat;                         (* VecDeque, front first *)
  queued : list bool;
  refusals : gmap nat string;
  link_states : gmap string ParentState.t;    (* new_link_states *)
  next : gmap string ScopeRecord.t;
}.
End Settle.

(** The inner [while]: check queued links until one is rejected. *)
Fixpoint drain_pending (t : ScopeTable) (owner : string) (state : OwnerScopes.t)
    (scopes : list ScopeRecord.t) (refusals : gmap nat string)
    (next : gmap string ScopeRecord.t)
    (pending : list nat) (queued : list bool) (link_states : gmap string ParentState.t)
    : option nat * list nat * list bool * gmap string ParentState.t :=
  match pending with
  | [] => (None, [], queued, link_states)
  | index :: pending =>
      let queued := <[index := false]> queued in
      let continue := drain_pending t owner state scopes refusals next pending queued in
      if is_some (refusals !! index) then continue link_states else
      match scopes !! index with
      | None => continue link_states
      | Some record =>
          match ScopeRecord.parent record with
          | None => continue link_states
          | Some parent =>
              if negb (is_new_link state record) then continue link_states else
              match check_new_link t owner parent next with
              | Some link_state =>
                  continue (<[ScopeRecord.scope_ref record := link_state]> link_states)
              | None => (Some index, pending, queued, link_states)
              end
          end
      end
  end.

(** The ancestry pass over the records, in order, sharing one cache. *)
Fixpoint find_cycle (t : ScopeTable) (owner : string) (next : gmap string ScopeRecord.t)
    (link_states : gmap string ParentState.t) (entries : list (nat * ScopeRecord.t))
    (cache : LinkCycleCache.t) : option nat :=
  match entries with
  | [] => None
  | (index, record) :: rest =>
      if bool_decide (link_states !! ScopeRecord.scope_ref record = Some ParentState.Linked) then
        match ScopeRecord.parent record with
        | Some parent =>
            let '(closes, cache) :=
              link_closes_cycle_cached t (Some (owner, next)) owner
                (ScopeRecord.scope_ref record) parent cache in
            if closes then Some index
            else find_cycle t owner next link_states rest cache
        | None => find_cycle t owner next link_states rest cache
        end
      else find_cycle t owner next link_states rest cache
  end.

(** Back to the held record, or to nothing. *)
Definition restore_held (state : OwnerScopes.t) (scope_ref : string)
    (next : gmap string ScopeRecord.t) : gmap string ScopeRecord.t :=
  match OwnerScopes.live state !! scope_ref with
  | Some held => <[scope_ref := LiveScope.record held]> next
  | None => delete scope_ref next
  end.

(** A rejected link: refuse the record, restore what was held, queue the
    records hanging under it. *)
Definition reject_link (owner : string) (state : OwnerScopes.t) (scopes : list ScopeRecord.t)
    (index : nat) (record : ScopeRecord.t) (s : Settle.t) : Settle.t :=
  let scope_ref := ScopeRecord.scope_ref record in
  let '(pending, queued) :=
    foldl (λ '(pending, queued) child,
             if decide (queued !! child = Some false)
             then (pending ++ [child], <[child := true]> queued)
             else (pending, queued))
          (Settle.pending s, Settle.queued s) (children_of owner scopes scope_ref) in
  Settle.mk pending queued
    (<[index := error_codes.SCOPE_PARENT_NOT_PERMITTED]> (Settle.refusals s))
    (delete scope_ref (Settle.link_states s))
    (restore_held state scope_ref (Settle.next s)).

(** The outer [loop]. Every turn but the last refuses one more record. *)
Fixpoint settle_loop (fuel : nat) (t : ScopeTable) (owner : string) (state : OwnerScopes.t)
    (scopes : list ScopeRecord.t) (s : Settle.t) : option Settle.t :=
  match fuel with
  | O => None
  | S fuel =>
      let '(rejected, pending, queued, link_states) :=
        drain_pending t owner state scopes (Settle.refusals s) (Settle.next s)
          (Settle.pending s) (Settle.queued s) (Settle.link_states s) in
      let s := Settle.mk pending queued (Settle.refusals s) link_states (Settle.next s) in
      let rejected :=
        match rejected with
        | Some index => Some index
        | None => find_cycle t owner (Settle.next s) link_states (enumerate scopes)
                    LinkCycleCache.empty
        end in
      match rejected with
      | None => Some s
      | Some index =>
          match scopes !! index with
          | None => None
          | Some record =>
              settle_loop fuel t owner state scopes
                (reject_link owner state scopes index record s)
          end
      end
  end.

Definition settle_links (t : ScopeTable) (owner : string) (state : OwnerScopes.t)
    (scopes : list ScopeRecord.t) (refusals : gmap nat string)
    (next : gmap string ScopeRecord.t) : option Settle.t :=
  settle_loop (S (length scopes)) t owner state scopes
    (Settle.mk (seq 0 (length scopes)) (replicate (length scopes) true) refusals ∅ next).

(** ** Committing the staged set *)

Definition bury_replaced (next : gmap string ScopeRecord.t)
    (acc : Tombstones.t * list ScopeEnded.t) (entry : string * LiveScope.t)
    : Tombstones.t * list ScopeEnded.t :=
  let '(tombstones, ended) := acc in
  let '(scope_ref, held) := entry in
  let epoch := ScopeRecord.scope_epoch (LiveScope.record held) in
  if is_none_or (λ record, negb (ScopeRecord.scope_epoch record =? epoch)) (next !! scope_ref)
  then (Tombstones.insert tombstones scope_ref epoch OwnerEnded,
        ended ++ [ScopeEnded.mk scope_ref epoch])
  else acc.

Definition committed_parent_state (link_states : gmap string ParentState.t)
    (scope_ref : string) (record : ScopeRecord.t) (held : option LiveScope.t)
    : option ParentState.t :=
  match ScopeRecord.parent record with
  | None => None
  | Some _ =>
      match link_states !! scope_ref with
      | Some link_state => Some link_state
      | None =>
          match held with
          | Some held => LiveScope.parent_state held
          | None => Some ParentState.Pending
          end
      end
  end.

(** The held scope a record of the next set continues: same ref, same epoch. *)
Definition continued (old : gmap string LiveScope.t) (scope_ref : string)
    (record : ScopeRecord.t) : option LiveScope.t :=
  opt_filter (λ held, ScopeRecord.scope_epoch (LiveScope.record held)
                      =? ScopeRecord.scope_epoch record) (old !! scope_ref).

Definition commit_record (old : gmap string LiveScope.t)
    (link_states : gmap string ParentState.t)
    (acc : Z * Heap.t * gmap string LiveScope.t) (entry : string * ScopeRecord.t)
    : Z * Heap.t * gmap string LiveScope.t :=
  let '(last_version, h, live) := acc in
  let '(scope_ref, record) := entry in
  let held := continued old scope_ref record in
  let parent_state := committed_parent_state link_states scope_ref record held in
  let unchanged :=
    is_some_and (λ held, bool_decide (LiveScope.record held = record)
                         && bool_decide (LiveScope.parent_state held = parent_state)) held in
  match held with
  | Some held =>
      let version := if unchanged then LiveScope.version held else next_version last_version in
      (if unchanged then last_version else version, h,
       <[scope_ref := LiveScope.mk record version parent_state (LiveScope.binds held)
                        (LiveScope.presence held) (LiveScope.served_modules held)]> live)
  | None =>
      let version := next_version last_version in
      let '(binds, h) := Heap.alloc h in
      let '(served_modules, h) := Heap.alloc h in
      (version, h,
       <[scope_ref := LiveScope.mk record version parent_state binds ∅ served_modules]> live)
  end.

Definition tag_change_of (owner : string) (before_call live : gmap string LiveScope.t)
    (scope_ref : string) : option ScopeTagChange.t :=
  let old_scope := before_call !! scope_ref in
  let new_scope := live !! scope_ref in
  let before := LiveScope.tag <$> old_scope in
  let after := LiveScope.tag <$> new_scope in
  if decide (before = after) then None else
  let drain :=
    match old_scope, new_scope with
    | Some old, Some new =>
        if ScopeRecord.scope_epoch (LiveScope.record old)
           =? ScopeRecord.scope_epoch (LiveScope.record new)
        then drain_for_change old new
        else ScopeDrain.All RouteCloseReason.ScopeEnded
    | Some _, None => ScopeDrain.All RouteCloseReason.ScopeEnded
    | None, _ => ScopeDrain.Nothing
    end in
  Some (ScopeTagChange.mk owner scope_ref before after drain).

Definition record_result (refusals : gmap nat string) (old live : gmap string LiveScope.t)
    (entry : nat * ScopeRecord.t) : ScopeRecordResult.t :=
  let '(index, record) := entry in
  let scope_ref := ScopeRecord.scope_ref record in
  let '(outcome, code) :=
    match refusals !! index with
    | Some code => (ScopeRecordOutcome.Refused, Some code)
    | None =>
        (match old !! scope_ref, live !! scope_ref with
         | None, _ => ScopeRecordOutcome.Created
         | Some held, live =>
             if negb (ScopeRecord.scope_epoch (LiveScope.record held)
                      =? ScopeRecord.scope_epoch record)
             then ScopeRecordOutcome.Replaced
             else if is_some_and (λ live, LiveScope.version held =? LiveScope.version live) live
             then ScopeRecordOutcome.Unchanged
             else ScopeRecordOutcome.Updated
         end, None)
    end in
  ScopeRecordResult.mk scope_ref (ScopeRecord.scope_epoch record) outcome code None None.

Module SyncApplied.
Record t := mk {
  results : list ScopeRecordResult.t;
  end_results : list ScopeEndResult.t;
  ended : list ScopeEnded.t;
  tag_changes : list ScopeTagChange.t;
  expired : list ScopeExpired.t;
}.
End SyncApplied.

(** One [scope.sync] ([change_end] is [None]) or [scope.apply]; the refusals
    found while preparing the records travel with their indexes. *)
Record ScopeChange := mkScopeChange {
  generation : Z;
  records : list ScopeRecord.t;
  prepared_refusals : gmap nat string;
  change_end : option (list ScopeEnd.t);
}.

(** The guards before anything is read from the clock. *)
Definition sync_guards `{AttributeJson} (state : OwnerScopes.t) (connection_id : ConnectionId)
    (is_current_launch : Z → bool) (c : ScopeChange) : Result unit string :=
  let! taking_authority := check_authority state connection_id is_current_launch in
  if is_some (change_end c) && (taking_authority || negb (OwnerScopes.synced state))
  then Err error_codes.SCOPE_SYNC_REQUIRED else
  if negb taking_authority
     && is_some_and (λ a, generation c <=? SyncAuthority.last_generation a)
                    (OwnerScopes.authority state)
  then Err error_codes.SCOPE_SYNC_STALE else
  let! _ := check_sync_bounds (records c) in
  match change_end c with
  | Some ends => check_end_bounds (records c) ends
  | None => Ok tt
  end.

(** What is committed: the owner's new state, the version counter, the heap. *)
Definition commit_owner (t : ScopeTable) (h : Heap.t) (state : OwnerScopes.t)
    (connection_id : ConnectionId) (generation : Z) (s : Settle.t) (ended : list ScopeEnded.t)
    : OwnerScopes.t * Z * Heap.t * list ScopeEnded.t :=
  let old := OwnerScopes.live state in
  let '(tombstones, ended) :=
    foldl (bury_replaced (Settle.next s)) (OwnerScopes.tombstones state, ended) (btree_iter old) in
  let '(version, h, live) :=
    foldl (commit_record old (Settle.link_states s)) (last_version t, h, ∅)
      (btree_iter (Settle.next s)) in
  (OwnerScopes.mk (Some (SyncAuthority.mk connection_id generation)) true live tombstones,
   version, h, ended).

Definition sync_owner `{AttributeJson} (t : ScopeTable) (h : Heap.t) (owner : string)
    (original : OwnerScopes.t) (connection_id : ConnectionId) (is_current_launch : Z → bool)
    (now : Z) (c : ScopeChange)
    : option (Result (SyncApplied.t * OwnerScopes.t * Z * Heap.t) string) :=
  try! _ := sync_guards original connection_id is_current_launch c in
  let before_call := OwnerScopes.live original in
  let '(state, expired) := expire_owner owner original now in
  let ended := (λ e, ScopeEnded.mk (ScopeExpired.scope_ref e) (ScopeExpired.scope_epoch e))
                 <$> expired in
  let end_results := end_result state <$> default [] (change_end c) in
  let next := initial_next state (is_some (change_end c)) end_results in
  let '(refusals, next) :=
    stage_records h state (owner_authorized t owner) now (records c) (prepared_refusals c) next in
  let? s := settle_links t owner state (records c) refusals next in
  if MAX_LIVE_SCOPES_PER_OWNER <? Z.of_nat (size (Settle.next s))
  then Some (Err error_codes.SCOPE_LIVE_LIMIT_EXCEEDED) else
  let '(state', version, h', ended) :=
    commit_owner t h state connection_id (generation c) s ended in
  let tag_changes :=
    omap (tag_change_of owner before_call (OwnerScopes.live state'))
      (btree_set_iter (dom before_call ∪ dom (OwnerScopes.live state'))) in
  let results :=
    record_result (Settle.refusals s) (OwnerScopes.live state) (OwnerScopes.live state')
      <$> enumerate (records c) in
  Some (Ok (SyncApplied.mk results end_results ended tag_changes expired, state', version, h')).

(** The reply as read back after the links are refreshed. *)
Definition refresh_result (owner : string) (live : gmap string LiveScope.t)
    (tag_changes : list ScopeTagChange.t) (result : ScopeRecordResult.t)
    : ScopeRecordResult.t :=
  let scope := live !! ScopeRecordResult.scope_ref result in
  let tag_moved :=
    existsb (λ change, bool_decide (ScopeTagChange.owner change = owner)
                       && bool_decide (ScopeTagChange.scope_ref change
                                       = ScopeRecordResult.scope_ref result)) tag_changes in
  ScopeRecordResult.mk (ScopeRecordResult.scope_ref result) (ScopeRecordResult.scope_epoch result)
    (if bool_decide (ScopeRecordResult.outcome result = ScopeRecordOutcome.Unchanged) && tag_moved
     then ScopeRecordOutcome.Updated else ScopeRecordResult.outcome result)
    (ScopeRecordResult.code result)
    (LiveScope.version <$> scope)
    (scope ← scope; LiveScope.parent_state scope).

Definition change `{HashOrder} `{AttributeJson} (t : ScopeTable) (h : Heap.t) (owner : string)
    (connection_id : ConnectionId) (is_current_launch : Z → bool) (now : Z) (c : ScopeChange)
    : option (ScopeTable * Heap.t * Result SyncApplied.t string) :=
  let original := default OwnerScopes.empty (owners t !! owner) in
  let without := with_owners t (delete owner (owners t)) in
  let? outcome := sync_owner without h owner original connection_id is_current_launch now c in
  match outcome with
  | Err code => Some (with_owners t (<[owner := original]> (owners t)), h, Err code)
  | Ok (applied, state, version, h') =>
      let t' := mkScopeTable (authority_owners t) (<[owner := state]> (owners t)) version in
      let '(t'', tag_changes) := refresh_links_to t' owner (SyncApplied.tag_changes applied) in
      let live := default ∅ (OwnerScopes.live <$> (owners t'' !! owner)) in
      Some (t'', h',
            Ok (SyncApplied.mk
                  (refresh_result owner live tag_changes <$> SyncApplied.results applied)
                  (SyncApplied.end_results applied) (SyncApplied.ended applied)
                  tag_changes (SyncApplied.expired applied)))
  end.

Definition sync `{HashOrder} `{AttributeJson} (t : ScopeTable) (h : Heap.t) (owner : string)
    (connection_id : ConnectionId) (is_current_launch : Z → bool) (now generation : Z)
    (scopes : list ScopeRecord.t) (refusals : gmap nat string) :=
  change t h owner connection_id is_current_launch now
    (mkScopeChange generation scopes refusals None).

Definition apply `{HashOrder} `{AttributeJson} (t : ScopeTable) (h : Heap.t) (owner : string)
    (connection_id : ConnectionId) (is_current_launch : Z → bool) (now generation : Z)
    (upsert : list ScopeRecord.t) (refusals : gmap nat string) (ends : list ScopeEnd.t) :=
  change t h owner connection_id is_current_launch now
    (mkScopeChange generation upsert refusals (Some ends)).

(** ** Admission *)

Definition scope_stamp (t : ScopeTable) (owner : Principal) (owner_id scope_ref : string)
    (scope : LiveScope.t) : ScopeStamp.t :=
  let r := LiveScope.record scope in
  ScopeStamp.mk owner scope_ref (ScopeRecord.scope_epoch r) (ScopeRecord.kind r)
    (ScopeRecord.workdir r) (ScopeRecord.project_id r) (ScopeRecord.parent r)
    (LiveScope.parent_state scope) (ScopeRecord.attributes r)
    (owner_authorized t owner_id) (ScopeRecord.expires_at_ms r).

Definition carrier_permitted (record : ScopeRecord.t) (opener : Principal) (target : string)
    : bool :=
  match carrier_allowance record opener with
  | None => false
  | Some None => true
  | Some (Some targets) => bool_decide (target ∈ targets)
  end.

Definition attribute (t : ScopeTable) (opener : Principal) (target_module : string)
    (selector : ScopeSelector.t) (owner_configured : bool) (now : Z)
    : Result ScopeAdmission.t string :=
  let scope_ref := ScopeSelector.scope_ref selector in
  let! scope_epoch := ok_or (ScopeSelector.scope_epoch selector)
                            error_codes.SCOPE_EPOCH_REQUIRED in
  let! owner := ok_or (reserved_module_id (ScopeSelector.owner selector))
                      error_codes.SCOPE_NOT_LIVE in
  let! state := ok_or (opt_filter OwnerScopes.synced (owners t !! owner))
                      (if owner_configured then error_codes.SCOPE_NOT_SYNCED
                       else error_codes.SCOPE_NOT_LIVE) in
  let! scope := ok_or (OwnerScopes.live state !! scope_ref) error_codes.SCOPE_NOT_LIVE in
  if negb (ScopeRecord.scope_epoch (LiveScope.record scope) =? scope_epoch)
  then Err error_codes.SCOPE_ENDED else
  if is_some (passed_deadline now (LiveScope.record scope))
  then Err error_codes.SCOPE_NOT_LIVE else
  if negb (bool_decide (reserved_module_id opener = Some owner))
     && negb (carrier_permitted (LiveScope.record scope) opener target_module)
  then Err error_codes.SCOPE_NOT_CARRIER
  else Ok (ScopeAdmission.mk owner
             (scope_stamp t (ScopeSelector.owner selector) owner scope_ref scope)
             (LiveScope.tag scope)).

Definition is_reserved (p : Principal) : bool :=
  match p with Reserved _ => true | _ => false end.

Definition check_bind_proof `{ProofCrypto} (t : ScopeTable) (opener : Principal)
    (selector : ScopeSelector.t) : Result unit string :=
  if is_reserved opener then Ok tt else
  let record :=
    opt_filter (λ record, bool_decide (Some (ScopeRecord.scope_epoch record)
                                       = ScopeSelector.scope_epoch selector))
      (owner ← reserved_module_id (ScopeSelector.owner selector);
       state ← owners t !! owner;
       LiveScope.record <$> (OwnerScopes.live state !! ScopeSelector.scope_ref selector)) in
  match record ≫= ScopeRecord.bind_proof_sha256 with
  | None => Ok tt
  | Some hash =>
      let! proof := ok_or (ScopeSelector.bind_proof selector)
                          error_codes.SCOPE_BIND_PROOF_REQUIRED in
      if negb (bind_proof_matches proof hash)
      then Err error_codes.SCOPE_BIND_PROOF_MISMATCH
      else Ok tt
  end.

Definition admit_bind `{ProofCrypto} (t : ScopeTable) (opener : Principal) (target_module : string)
    (selector : ScopeSelector.t) (owner_configured : bool) (now : Z)
    : Result ScopeAdmission.t string :=
  let! admission := attribute t opener target_module selector owner_configured now in
  let! _ := check_bind_proof t opener selector in
  Ok admission.

(** The presence cell a bind shares: the connection's own, a fresh one while
    there is room, or none. *)
Definition reserve_presence (h : Heap.t) (presence : gmap Z loc) (connection_id : ConnectionId)
    (wanted : bool) : option loc * gmap Z loc * Heap.t :=
  if wanted then
    match presence !! connection_id with
    | Some present => (Some present, presence, h)
    | None =>
        if Z.of_nat (size presence) <? 8 then
          let '(present, h) := Heap.alloc h in
          (Some present, <[connection_id := present]> presence, h)
        else (None, presence, h)
    end
  else (None, presence, h).

(** Two [unwrap]s: [None] when the scope is not in the table. *)
Definition reserve_bind (t : ScopeTable) (h : Heap.t) (admission : ScopeAdmission.t)
    (opener : Principal) (connection_id : ConnectionId) (hold_presence : bool)
    : option (ScopeTable * Heap.t * BoundScope.t) :=
  let owner := ScopeAdmission.owner admission in
  let scope_ref := ScopeStamp.scope_ref (ScopeAdmission.stamp admission) in
  let? state := owners t !! owner in
  let? held := OwnerScopes.live state !! scope_ref in
  let counts_for_idle := negb (is_reserved opener) in
  let h := if counts_for_idle then Heap.fetch_add h (LiveScope.binds held) 1 else h in
  let kept := filter (λ e : Z * loc, Heap.flag h e.2 || Heap.presence_shared h e.2 = true)
                     (LiveScope.presence held) in
  let '(presence, kept, h) :=
    reserve_presence h kept connection_id (hold_presence && counts_for_idle) in
  let '(lease, h) := Heap.alloc h in
  let h := Heap.set_leases h
             (<[lease := ScopeBindLease.mk (LiveScope.binds held) (negb counts_for_idle) presence
                           (LiveScope.served_modules held)]> (Heap.leases h)) in
  let held' := LiveScope.mk (LiveScope.record held) (LiveScope.version held)
                 (LiveScope.parent_state held) (LiveScope.binds held) kept
                 (LiveScope.served_modules held) in
  Some (with_owners t (<[owner := OwnerScopes.with_live state
                                    (<[scope_ref := held']> (OwnerScopes.live state))]> (owners t)),
        h,
        BoundScope.mk owner scope_ref (ScopeAdmission.tag admission)
          (ScopeStamp.workdir (ScopeAdmission.stamp admission)) lease).

(** ** Queries *)

Module ScopeServedByAnswer.
Inductive t := Served | NotServed | Unknown.
End ScopeServedByAnswer.

Definition served_by (t : ScopeTable) (h : Heap.t) (owner scope_ref : string) (scope_epoch : Z)
    (module_id : string) (now : Z) : ScopeServedByAnswer.t :=
  match state ← owners t !! owner; OwnerScopes.live state !! scope_ref with
  | None => ScopeServedByAnswer.Unknown
  | Some scope =>
      if negb (ScopeRecord.scope_epoch (LiveScope.record scope) =? scope_epoch)
         || is_some_and (λ deadline, deadline <=? now)
                        (ScopeRecord.expires_at_ms (LiveScope.record scope))
      then ScopeServedByAnswer.Unknown
      else if bool_decide (module_id ∈ Heap.set_of h (LiveScope.served_modules scope))
      then ScopeServedByAnswer.Served
      else ScopeServedByAnswer.NotServed
  end.

Module ScopeDescription.
Record t := mk {
  status : ScopeStatus.t;
  scope_epoch : option Z;
  owner_synced : bool;
  stamp : option ScopeStamp.t;
}.
End ScopeDescription.

Definition describe (t : ScopeTable) (owner : Principal) (scope_ref : string)
    : ScopeDescription.t :=
  let not_live synced := ScopeDescription.mk ScopeStatus.NotLive None synced None in
  match reserved_module_id owner with
  | None => not_live false
  | Some owner_id =>
      match owners t !! owner_id with
      | None => not_live false
      | Some state =>
          match OwnerScopes.live state !! scope_ref with
          | Some scope =>
              ScopeDescription.mk ScopeStatus.Live
                (Some (ScopeRecord.scope_epoch (LiveScope.record scope)))
                (OwnerScopes.synced state)
                (Some (scope_stamp t owner owner_id scope_ref scope))
          | None =>
              match Tombstones.latest (OwnerScopes.tombstones state) scope_ref with
              | Some epoch =>
                  ScopeDescription.mk ScopeStatus.Ended (Some epoch) (OwnerScopes.synced state) None
              | None => not_live (OwnerScopes.synced state)
              end
          end
      end
  end.
