(* ===== verification/ScopeTombstones.v ===== *)
(** * Tombstones and expiry

    The bounded record of ended [(ref, scope_epoch)] pairs, and what expiring
    an owner's scopes does to it. *)

From S2P Require Import Prelude Collections Tokens ScopeTypes Scopes.

Section tombstones.
Implicit Types (ts : Tombstones.t) (r : string) (e : Z).

(** The order and the index hold the same pairs, each once, and at most the
    configured number of them; no ref is indexed without an epoch. *)
Record tombstones_ok ts : Prop := {
  ts_bound : Z.of_nat (length (Tombstones.order ts)) ≤ MAX_SCOPE_TOMBSTONES_PER_OWNER;
  ts_NoDup : NoDup (Tombstones.order ts);
  ts_order r e : (r, e) ∈ Tombstones.order ts ↔ is_Some (Tombstones.cause ts r e);
  ts_nonempty r : Tombstones.by_ref ts !! r ≠ Some ∅;
}.

Lemma tombstones_ok_empty : tombstones_ok Tombstones.empty.
Proof.
  split; simpl; [done|constructor| |]; intros *; rewrite ?lookup_empty; [|done].
  unfold Tombstones.cause; simpl. rewrite lookup_empty. simpl. rewrite is_Some_alt. set_solver.
Qed.

Definition cause_in (by_ref : gmap string (gmap Z EndCause)) r e : option EndCause :=
  epochs ← by_ref !! r; epochs !! e.

Lemma forget_cause by_ref r e r' e' :
  cause_in (Tombstones.forget by_ref r e) r' e'
  = if decide ((r', e') = (r, e)) then None else cause_in by_ref r' e'.
Proof.
  unfold Tombstones.forget, cause_in. destruct (by_ref !! r) as [epochs|] eqn:Hr.
  - destruct (decide (r' = r)) as [->|Hne].
    + rewrite Hr; simpl. case_decide as Hem; rewrite ?lookup_delete_eq, ?lookup_insert_eq; simpl.
      * case_decide; [done|]. assert (e' ≠ e) as Hne by congruence.
        rewrite <-(lookup_delete_ne epochs e e') by done. by rewrite Hem, lookup_empty.
      * case_decide; simplify_eq; [apply lookup_delete_eq|]. apply lookup_delete_ne. congruence.
    + repeat case_decide; simplify_eq;
        by rewrite ?lookup_delete_ne, ?lookup_insert_ne by done.
  - case_decide; simplify_eq; [by rewrite Hr|done].
Qed.

Lemma forget_nonempty by_ref r e r' :
  (∀ r, by_ref !! r ≠ Some ∅) → Tombstones.forget by_ref r e !! r' ≠ Some ∅.
Proof.
  intros Hn. unfold Tombstones.forget. destruct (by_ref !! r); [|apply Hn].
  case_decide; destruct (decide (r' = r)) as [->|].
  - by rewrite lookup_delete_eq.
  - by rewrite lookup_delete_ne.
  - rewrite lookup_insert_eq. congruence.
  - by rewrite lookup_insert_ne.
Qed.

(** Eviction drops a prefix of the order, and exactly its pairs. *)
Lemma evict_spec order by_ref :
  NoDup order → (∀ r e, (r, e) ∈ order ↔ is_Some (cause_in by_ref r e)) →
  (∀ r, by_ref !! r ≠ Some ∅) →
  tombstones_ok (Tombstones.evict order by_ref) ∧
  (∀ r e, (r, e) ∈ Tombstones.order (Tombstones.evict order by_ref) →
          Tombstones.cause (Tombstones.evict order by_ref) r e = cause_in by_ref r e) ∧
  Tombstones.order (Tombstones.evict order by_ref)
  = drop (length order - Z.to_nat MAX_SCOPE_TOMBSTONES_PER_OWNER) order.
Proof.
  revert by_ref; induction order as [|[r e] order IH]; intros by_ref Hnd Hord Hne.
  { simpl. split; [|done]. split; simpl; [done|constructor|done|done]. }
  cbn [Tombstones.evict]. destruct (_ <? _) eqn:Hlt.
  - apply NoDup_cons in Hnd as [Hnew Hnd].
    destruct (IH (Tombstones.forget by_ref r e)) as (Hok & Hcause & Hdrop).
    + done.
    + intros r' e'. rewrite forget_cause. case_decide as Heq; simplify_eq.
      * split; [done|]. by intros [? ?].
      * rewrite <-Hord. set_solver.
    + intros. by apply forget_nonempty.
    + split_and!; [done| |].
      * intros r' e' Hin. rewrite Hcause by done. rewrite forget_cause, decide_False; [done|].
        intros [= -> ->]. rewrite Hdrop in Hin. apply Hnew.
        rewrite <-(take_drop (length order - Z.to_nat MAX_SCOPE_TOMBSTONES_PER_OWNER) order).
        set_solver.
      * rewrite Hdrop. apply Z.ltb_lt in Hlt. cbn [length] in *.
        replace (S (length order) - Z.to_nat MAX_SCOPE_TOMBSTONES_PER_OWNER)%nat
          with (S (length order - Z.to_nat MAX_SCOPE_TOMBSTONES_PER_OWNER)) by lia. done.
  - apply Z.ltb_ge in Hlt. split_and!; [by split|done|].
    cbn [Tombstones.order]. by replace (_ - _)%nat with 0%nat by lia.
Qed.

Lemma insert_spec ts r e c :
  tombstones_ok ts →
  tombstones_ok (Tombstones.insert ts r e c) ∧
  is_Some (Tombstones.cause (Tombstones.insert ts r e c) r e) ∧
  (∀ r' e' c', Tombstones.cause (Tombstones.insert ts r e c) r' e' = Some c' →
     Tombstones.cause ts r' e' = Some c' ∨ (r', e', c') = (r, e, c)).
Proof.
  intros [Hb Hnd Hord Hne]. unfold Tombstones.insert.
  assert (Tombstones.cause ts r e = default ∅ (Tombstones.by_ref ts !! r) !! e) as Hce.
  { unfold Tombstones.cause. destruct (Tombstones.by_ref ts !! r); [done|]. simpl. by rewrite lookup_empty. }
  rewrite <-Hce. destruct (is_some (Tombstones.cause ts r e)) eqn:Hs.
  { apply is_some_true in Hs as [c0 Hc0]. split_and!; [done|by eexists|by left]. }
  apply is_some_false in Hs.
  set (by_ref' := <[r := _]> (Tombstones.by_ref ts)).
  assert (∀ r' e', cause_in by_ref' r' e'
    = if decide ((r', e') = (r, e)) then Some c else Tombstones.cause ts r' e') as Hin.
  { intros r' e'. unfold cause_in, by_ref'. destruct (decide (r' = r)) as [->|Hr].
    - rewrite lookup_insert_eq; simpl. destruct (decide (e' = e)) as [->|He].
      + by rewrite lookup_insert_eq, decide_True.
      + rewrite lookup_insert_ne, decide_False by congruence. unfold Tombstones.cause.
        destruct (Tombstones.by_ref ts !! r); [done|]. simpl. by rewrite lookup_empty.
    - by rewrite lookup_insert_ne, decide_False by congruence. }
  destruct (evict_spec (Tombstones.order ts ++ [(r, e)]) by_ref') as (Hok & Hcause & Hdrop).
  - rewrite Permutation_app_comm. apply NoDup_cons. split; [|done].
    intros [? ?]%Hord. congruence.
  - intros r' e'. rewrite Hin, elem_of_app, list_elem_of_singleton.
    case_decide; simplify_eq; [naive_solver|]. rewrite Hord. naive_solver.
  - intros r'. unfold by_ref'. destruct (decide (r' = r)) as [->|?].
    + rewrite lookup_insert_eq. intros [= Hem]. eapply (insert_non_empty _ e c), Hem.
    + by rewrite lookup_insert_ne.
  - split; [done|]. split.
    + apply Hok. rewrite Hdrop, drop_app_le; [set_solver|].
      rewrite length_app; unfold MAX_SCOPE_TOMBSTONES_PER_OWNER in *; cbn [length]; lia.
    + intros r' e' c' Hc'. rewrite Hcause in Hc' by (apply Hok; by eexists).
      rewrite Hin in Hc'. case_decide; simplify_eq; auto.
Qed.

Lemma latest_spec ts r e :
  Tombstones.latest ts r = Some e ↔
  is_Some (Tombstones.cause ts r e) ∧ ∀ e', is_Some (Tombstones.cause ts r e') → e' ≤ e.
Proof.
  unfold Tombstones.latest, Tombstones.cause.
  destruct (Tombstones.by_ref ts !! r) as [epochs|]; simpl; [apply last_key_Some|].
  split; [done|]. by intros [[] _].
Qed.

Lemma latest_None ts r :
  tombstones_ok ts → Tombstones.latest ts r = None ↔ ∀ e, Tombstones.cause ts r e = None.
Proof.
  intros Hok. unfold Tombstones.latest, Tombstones.cause.
  destruct (Tombstones.by_ref ts !! r) as [epochs|] eqn:Hr; simpl; [|done].
  rewrite last_key_None. split; [intros ->; intros; apply lookup_empty|].
  intros H. by apply map_empty.
Qed.

(** A run of insertions. *)
Definition insert_all ts (l : list (string * Z * EndCause)) : Tombstones.t :=
  foldl (λ ts '(r, e, c), Tombstones.insert ts r e c) ts l.

Lemma insert_all_app ts l k : insert_all ts (l ++ k) = insert_all (insert_all ts l) k.
Proof. apply foldl_app. Qed.

Lemma insert_all_ok ts l : tombstones_ok ts → tombstones_ok (insert_all ts l).
Proof.
  revert ts; induction l as [|[[r e] c] l IH]; intros ts Hok; simpl; [done|].
  by apply IH, insert_spec.
Qed.

Lemma insert_all_cause ts l r e c :
  tombstones_ok ts → Tombstones.cause (insert_all ts l) r e = Some c →
  Tombstones.cause ts r e = Some c ∨ (r, e, c) ∈ l.
Proof.
  revert ts; induction l as [|[[r' e'] c'] l IH]; intros ts Hok Hc; simpl in *; [by left|].
  destruct (insert_spec ts r' e' c' Hok) as (Hok' & _ & Hold).
  destruct (IH _ Hok' Hc) as [Hc'|?]; [|set_solver].
  destruct (Hold _ _ _ Hc') as [?|?]; set_solver.
Qed.

(** The newest insertion is always remembered. *)
Lemma insert_all_last ts l r e c :
  tombstones_ok ts → is_Some (Tombstones.cause (insert_all ts (l ++ [(r, e, c)])) r e).
Proof. intros Hok. rewrite insert_all_app. simpl. by apply insert_spec, insert_all_ok. Qed.

End tombstones.

(** ** Expiring *)

Definition expired_of (owner : string) (now : Z) (entry : string * LiveScope.t)
    : option ScopeExpired.t :=
  ScopeExpired.mk owner entry.1 (ScopeRecord.scope_epoch (LiveScope.record entry.2))
    <$> passed_deadline now (LiveScope.record entry.2).

Definition grave (e : ScopeExpired.t) : string * Z * EndCause :=
  (ScopeExpired.scope_ref e, ScopeExpired.scope_epoch e, Expired).

Lemma expire_fold owner now state acc l :
  foldl (expire_one owner now) (state, acc) l
  = (OwnerScopes.mk (OwnerScopes.authority state) (OwnerScopes.synced state)
       (foldl (λ m e, delete (ScopeExpired.scope_ref e) m) (OwnerScopes.live state)
          (omap (expired_of owner now) l))
       (insert_all (OwnerScopes.tombstones state) (grave <$> omap (expired_of owner now) l)),
     acc ++ omap (expired_of owner now) l).
Proof.
  revert state acc; induction l as [|[x s] l IH]; intros state acc; simpl.
  { rewrite app_nil_r. by destruct state. }
  assert (expired_of owner now (x, s) = match passed_deadline now (LiveScope.record s) with
    | Some d => Some (ScopeExpired.mk owner x (ScopeRecord.scope_epoch (LiveScope.record s)) d)
    | None => None end) as -> by (unfold expired_of; simpl; by destruct (passed_deadline _ _)).
  destruct (passed_deadline now (LiveScope.record s)) as [d|] eqn:Hd; simpl; rewrite IH; simpl;
    [|done]. by rewrite <-(assoc_L app).
Qed.

Lemma foldl_delete_lookup (l : list ScopeExpired.t) (m : gmap string LiveScope.t) x :
  foldl (λ m e, delete (ScopeExpired.scope_ref e) m) m l !! x
  = if decide (x ∈ ScopeExpired.scope_ref <$> l) then None else m !! x.
Proof.
  revert m; induction l as [|e l IH]; intros m; simpl; [done|]. rewrite IH.
  destruct (decide (x = ScopeExpired.scope_ref e)) as [->|Hne].
  - rewrite lookup_delete_eq. repeat case_decide; set_solver.
  - rewrite lookup_delete_ne by done. repeat case_decide; set_solver.
Qed.

Definition not_expired (now : Z) (s : LiveScope.t) : Prop :=
  passed_deadline now (LiveScope.record s) = None.

#[global] Instance not_expired_dec now s : Decision (not_expired now s).
Proof. unfold not_expired. apply _. Defined.

Lemma expire_owner_spec owner state now :
  let '(state', expired) := expire_owner owner state now in
  OwnerScopes.authority state' = OwnerScopes.authority state ∧
  OwnerScopes.synced state' = OwnerScopes.synced state ∧
  OwnerScopes.live state' = filter (λ e, not_expired now e.2) (OwnerScopes.live state) ∧
  OwnerScopes.tombstones state' = insert_all (OwnerScopes.tombstones state) (grave <$> expired) ∧
  expired = omap (expired_of owner now) (btree_iter (OwnerScopes.live state)).
Proof.
  unfold expire_owner. rewrite expire_fold. split_and!; try done. simpl.
  apply map_eq. intros x. rewrite foldl_delete_lookup.
  assert (x ∈ ScopeExpired.scope_ref <$> omap (expired_of owner now)
            (btree_iter (OwnerScopes.live state)) ↔
          ∃ s, OwnerScopes.live state !! x = Some s ∧ ¬ not_expired now s) as Hiff.
  { rewrite list_elem_of_fmap. setoid_rewrite list_elem_of_omap. unfold not_expired. split.
    - intros (e & -> & [y s] & Hin & He). apply elem_of_btree_iter in Hin.
      unfold expired_of in He; simpl in He.
      destruct (passed_deadline now (LiveScope.record s)) eqn:Hd; simplify_eq/=.
      exists s. split; [done|]. by rewrite Hd.
    - intros (s & Hs & Hd). destruct (passed_deadline now (LiveScope.record s)) as [d|] eqn:Hd'; [|done].
      exists (ScopeExpired.mk owner x (ScopeRecord.scope_epoch (LiveScope.record s)) d).
      split; [done|]. exists (x, s). split; [by apply elem_of_btree_iter|].
      unfold expired_of; simpl. by rewrite Hd'. }
  case_decide as Hx; rewrite Hiff in Hx.
  - destruct Hx as (s & Hs & Hd). symmetry. apply map_lookup_filter_None. right.
    intros s' Hs'. simpl. congruence.
  - symmetry. destruct (OwnerScopes.live state !! x) as [s|] eqn:Hs.
    + apply map_lookup_filter_Some. split; [done|]. simpl. apply dec_stable. naive_solver.
    + apply map_lookup_filter_None. by left.
Qed.

(** ** Burying replaced scopes *)

Definition buried (next : gmap string ScopeRecord.t) (entry : string * LiveScope.t)
    : option ScopeEnded.t :=
  let epoch := ScopeRecord.scope_epoch (LiveScope.record entry.2) in
  if is_none_or (λ record, negb (ScopeRecord.scope_epoch record =? epoch)) (next !! entry.1)
  then Some (ScopeEnded.mk entry.1 epoch) else None.

Definition ended_grave (e : ScopeEnded.t) : string * Z * EndCause :=
  (ScopeEnded.scope_ref e, ScopeEnded.scope_epoch e, OwnerEnded).

Lemma bury_fold next ts ended l :
  foldl (bury_replaced next) (ts, ended) l
  = (insert_all ts (ended_grave <$> omap (buried next) l), ended ++ omap (buried next) l).
Proof.
  revert ts ended; induction l as [|[x s] l IH]; intros ts ended; simpl.
  { by rewrite app_nil_r. }
  change (buried next (x, s)) with
    (if is_none_or (λ record, negb (ScopeRecord.scope_epoch record
                                    =? ScopeRecord.scope_epoch (LiveScope.record s))) (next !! x)
     then Some (ScopeEnded.mk x (ScopeRecord.scope_epoch (LiveScope.record s))) else None).
  destruct (is_none_or _ _); simpl; rewrite IH; [|done]. by rewrite <-(assoc_L app).
Qed.
