(* ===== verification/ScopeLinks.v ===== *)
(** * Parent links: ancestry walks and cycles

    The two cycle checks of the scope table against one reference relation:
    the partial function from a link to the link its live record holds. *)

From S2P Require Import Prelude Collections Tokens ScopeTypes Scopes.

(** The key a parent link names, when its owner is a supervised module. *)
Definition link_key (p : ScopeParent.t) : option (string * string * Z) :=
  owner ← reserved_module_id (ScopeParent.owner p);
  Some (owner, ScopeParent.scope_ref p, ScopeParent.scope_epoch p).

Section ancestry.
Context (t : ScopeTable) (overlay : Overlay).

(** One step up: the link of the record live at exactly the named epoch. *)
Definition up (k : string * string * Z) : option (string * string * Z) :=
  record ← lookup t overlay k.1.1 k.1.2;
  if ScopeRecord.scope_epoch record =? k.2
  then parent ← ScopeRecord.parent record; link_key parent
  else None.

Fixpoint ancestor (n : nat) (k : string * string * Z) : option (string * string * Z) :=
  match n with
  | O => Some k
  | S n => k' ← up k; ancestor n k'
  end.

Definition on_cycle (k : string * string * Z) : Prop := ∃ n, ancestor (S n) k = Some k.

(** The walk from [k] passes a link naming [x]. *)
Definition reaches (k : string * string * Z) (x : string * string) : Prop :=
  ∃ n k', ancestor n k = Some k' ∧ k'.1 = x.

Lemma ancestor_plus n m k :
  ancestor (n + m) k = (k' ← ancestor n k; ancestor m k').
Proof.
  revert k; induction n as [|n IH]; intros k; simpl; [done|].
  destruct (up k); simpl; [apply IH|done].
Qed.

Lemma ancestor_S_r n k : ancestor (S n) k = (k' ← ancestor n k; up k').
Proof.
  rewrite <-Nat.add_1_r, ancestor_plus. destruct (ancestor n k); simpl; [|done].
  by destruct (up _).
Qed.

Lemma ancestor_trans n m k k' k'' :
  ancestor n k = Some k' → ancestor m k' = Some k'' → ancestor (n + m) k = Some k''.
Proof. intros H1 H2. rewrite ancestor_plus, H1. done. Qed.

Lemma ancestor_rounds n k j : ancestor n k = Some k → ancestor (j * n) k = Some k.
Proof.
  intros Hn. induction j as [|j IH]; simpl; [done|]. by eapply ancestor_trans.
Qed.

(** On a cycle, whatever is reached is on the cycle and reaches back. *)
Lemma on_cycle_back k n k' :
  on_cycle k → ancestor n k = Some k' → ∃ m, ancestor (S m) k' = Some k.
Proof.
  intros [p Hp] Hn.
  pose proof (ancestor_rounds (S p) k (S n) Hp) as Hr.
  replace (S n * S p)%nat with (n + S (n * p + p))%nat in Hr by lia.
  rewrite ancestor_plus, Hn in Hr. by eexists.
Qed.

Lemma on_cycle_ancestor k n k' : on_cycle k → ancestor n k = Some k' → on_cycle k'.
Proof.
  intros Hc Hn. destruct (on_cycle_back k n k' Hc Hn) as [m Hm].
  exists (m + n)%nat. change (S (m + n)) with (S m + n)%nat. by eapply ancestor_trans.
Qed.

Lemma on_cycle_up k : on_cycle k → is_Some (up k).
Proof. intros [n Hn]. simpl in Hn. destruct (up k); [by eexists|done]. Qed.

Lemma not_on_cycle_ancestor k n k' : ancestor n k = Some k' → ¬ on_cycle k' → ¬ on_cycle k.
Proof. intros ? Hk' ?. apply Hk'. by eapply on_cycle_ancestor. Qed.

Lemma not_on_cycle_end k n k' : ancestor n k = Some k' → up k' = None → ¬ on_cycle k.
Proof.
  intros Hn Hup. eapply not_on_cycle_ancestor; [done|].
  intros [? Hs]%on_cycle_up. congruence.
Qed.

Lemma reaches_step k k' x : up k = Some k' → reaches k x ↔ k.1 = x ∨ reaches k' x.
Proof.
  intros Hup. split.
  - intros ([|n] & k'' & Hn & Hx); simplify_eq/=; [by left|].
    rewrite Hup in Hn. right. by exists n, k''.
  - intros [Hx|(n & k'' & Hn & Hx)]; [by exists 0%nat, k|].
    exists (S n), k''. simpl. by rewrite Hup.
Qed.

Lemma reaches_stop k x : up k = None → reaches k x ↔ k.1 = x.
Proof.
  intros Hup. split.
  - intros ([|n] & k'' & Hn & Hx); simplify_eq/=; [done|]. by rewrite Hup in Hn.
  - intros Hx. by exists 0%nat, k.
Qed.

(** ** The records a walk can pass through *)

Definition view : list (string * string) :=
  match overlay with
  | Some (o, next) => (λ e, (o, e.1)) <$> map_to_list next
  | None => []
  end ++ (e ← map_to_list (owners t); (λ s, (e.1, s.1)) <$> map_to_list (OwnerScopes.live e.2)).

Lemma length_view : (2 + length view = link_fuel t overlay)%nat.
Proof.
  unfold view, link_fuel. rewrite length_app.
  replace (length (match overlay with Some (o, next) => _ | None => [] end))
    with (match overlay with Some (_, next) => size next | None => 0%nat end)
    by (destruct overlay as [[]|]; [rewrite length_fmap, length_map_to_list|]; done).
  assert (∀ l : list (string * OwnerScopes.t),
    length (e ← l; (λ s, (e.1, s.1)) <$> map_to_list (OwnerScopes.live e.2))
    = sum_list_with (λ e, size (OwnerScopes.live e.2)) l) as ->; [|lia].
  induction l as [|e l IH]; simpl; [done|].
  rewrite length_app, length_fmap, length_map_to_list. by f_equal.
Qed.

Lemma lookup_view o r record : lookup t overlay o r = Some record → (o, r) ∈ view.
Proof.
  assert (∀ rec, (state ← owners t !! o; LiveScope.record <$> OwnerScopes.live state !! r) = Some rec →
    (o, r) ∈ (e ← map_to_list (owners t); (λ s, (e.1, s.1)) <$> map_to_list (OwnerScopes.live e.2)))
    as Htable.
  { intros rec Hl. destruct (owners t !! o) as [state|] eqn:Ho; simplify_eq/=.
    destruct (OwnerScopes.live state !! r) as [s|] eqn:Hr; simplify_eq/=.
    apply list_elem_of_bind. exists (o, state). split; [|by apply elem_of_map_to_list].
    apply list_elem_of_fmap. exists (r, s). split; [done|]. by apply elem_of_map_to_list. }
  unfold lookup, view. rewrite elem_of_app. destruct overlay as [[so next]|]; simpl.
  - case_decide as Hso; [|intros; right; by eapply Htable].
    subst. intros Hr. left. apply list_elem_of_fmap. exists (r, record).
    split; [done|]. by apply elem_of_map_to_list.
  - intros. right. by eapply Htable.
Qed.

(** ** The uncached check *)

(** What one turn of either loop finds at a link that is not the child. *)
Lemma up_link owner link :
  reserved_module_id (ScopeParent.owner link) = Some owner →
  up (owner, ScopeParent.scope_ref link, ScopeParent.scope_epoch link)
  = match lookup t overlay owner (ScopeParent.scope_ref link) with
    | None => None
    | Some record =>
        if negb (ScopeRecord.scope_epoch record =? ScopeParent.scope_epoch link) then None else
        match ScopeRecord.parent record with
        | None => None
        | Some p => link_key p
        end
    end.
Proof.
  intros _. unfold up; simpl. destruct (lookup _ _ _ _) as [record|]; simpl; [|done].
  destruct (_ =? _); simpl; [|done]. by destruct (ScopeRecord.parent record).
Qed.

(** Every visited scope is live, is not the child, and its link leads to a
    visited scope or to the link in hand. *)
Definition visited_ok (child : string * string) (visited : gset (string * string))
    (link : ScopeParent.t) : Prop :=
  ∀ x, x ∈ visited → x ≠ child ∧ x ∈ view ∧
    ∀ e k, up (x, e) = Some k → k.1 ∈ visited ∨ Some k = link_key link.

Lemma visited_closed child visited link k x :
  visited_ok child visited link →
  (∀ k, link_key link = Some k → k.1 ∈ visited) →
  k.1 ∈ visited → reaches k x → x ∈ visited.
Proof.
  intros Hok Hlink Hk (n & k' & Hn & <-).
  revert k Hk Hn; induction n as [|n IH]; intros k Hk Hn; simplify_eq/=; [done|].
  destruct (up k) as [k1|] eqn:Hup; simplify_eq/=. apply (IH k1); [|done].
  destruct k as [x e]. destruct (Hok x Hk) as (_ & _ & Hstep).
  destruct (Hstep e k1 Hup) as [?|?]; [done|]. by apply Hlink.
Qed.

Lemma visited_size child visited link :
  visited_ok child visited link → (size visited ≤ length view)%nat.
Proof.
  intros Hok. transitivity (size (list_to_set view : gset (string * string))).
  - apply subseteq_size. intros x Hx. apply elem_of_list_to_set. by apply Hok.
  - apply size_list_to_set_le.
Qed.

Lemma closes_cycle_loop_spec fuel child visited link :
  visited_ok child visited link →
  (length view < fuel + size visited)%nat →
  ∃ b, closes_cycle_loop fuel t overlay child visited link = Some b ∧
       (b = true ↔ ∃ k, link_key link = Some k ∧ reaches k child).
Proof.
  revert visited link; induction fuel as [|fuel IH]; intros visited link Hok Hfuel.
  { pose proof (visited_size _ _ _ Hok). lia. }
  cbn [closes_cycle_loop]. unfold link_key.
  destruct (reserved_module_id (ScopeParent.owner link)) as [owner|] eqn:Ho; simpl;
    [|exists false; naive_solver].
  set (k := (owner, ScopeParent.scope_ref link, ScopeParent.scope_epoch link)).
  assert (link_key link = Some k) as Hk by (unfold link_key; by rewrite Ho).
  case_decide as Hchild.
  { exists true. split; [done|]. split; [|done]. intros _. exists k. split; [done|].
    by exists 0%nat, k. }
  case_decide as Hvis.
  { exists false. split; [done|]. split; [done|]. intros (? & [= <-] & Hreach).
    destruct (Hok child) as [? _]; [|done].
    apply (visited_closed child visited link k); [done| |done|done]. intros k'. by rewrite Hk; intros [= <-]. }
  pose proof (up_link owner link Ho) as Hup. fold k in Hup.
  assert (up k = None → ∃ b, Some false = Some b ∧ (b = true ↔ ∃ k0, Some k = Some k0 ∧ reaches k0 child)) as Hstop.
  { intros Hnone. exists false. split; [done|]. split; [done|]. intros (? & [= <-] & Hr).
    by apply reaches_stop in Hr. }
  destruct (lookup t overlay owner (ScopeParent.scope_ref link)) as [record|] eqn:Hl; [|auto].
  destruct (_ =? _) eqn:He; simpl in *; [|auto].
  destruct (ScopeRecord.parent record) as [p|] eqn:Hp; [|auto].
  destruct (IH ({[(owner, ScopeParent.scope_ref link)]} ∪ visited) p) as (b & -> & Hb).
  - intros x [->%elem_of_singleton|Hx]%elem_of_union.
    + split; [done|]. split; [by eapply lookup_view|].
      intros e k' Hup'. right. unfold up in Hup'; simpl in Hup'. rewrite Hl in Hup'; simpl in Hup'.
      destruct (_ =? e); simplify_eq/=. by rewrite Hp in Hup'.
    + destruct (Hok x Hx) as (? & ? & Hstep). split_and!; [done..|].
      intros e k' Hup'. left. destruct (Hstep e k' Hup') as [?|Hk']; [set_solver|].
      rewrite Hk in Hk'. simplify_eq. subst k; simpl. set_solver.
  - rewrite size_union_alt, size_singleton, difference_disjoint by set_solver. lia.
  - exists b. split; [done|]. rewrite Hb. split.
    + intros (k' & Hk' & Hr). exists k. split; [done|].
      apply (reaches_step k k'); [congruence|]. by right.
    + intros (? & [= <-] & Hr). destruct (link_key p) as [k'|] eqn:Hk'.
      * exists k'. split; [done|]. apply (reaches_step k k') in Hr; [|congruence].
        by destruct Hr.
      * apply reaches_stop in Hr; [done|congruence].
Qed.

Lemma link_closes_cycle_reaches child_owner child_ref parent :
  link_closes_cycle t overlay child_owner child_ref parent = true ↔
  ∃ k, link_key parent = Some k ∧ reaches k (child_owner, child_ref).
Proof.
  unfold link_closes_cycle.
  destruct (closes_cycle_loop_spec (link_fuel t overlay) (child_owner, child_ref) ∅ parent)
    as (b & -> & Hb); [|rewrite <-length_view, size_empty; lia|done].
  intros x Hx. set_solver.
Qed.

(** ** The cached check *)

(** What a cache says of this view: keys noted acyclic are on no cycle; keys
    noted cyclic are, with the member set of exactly their cycle. *)
Record cache_ok (c : LinkCycleCache.t) : Prop := {
  cache_acyclic k : k ∈ LinkCycleCache.acyclic c → ¬ on_cycle k;
  cache_cycle k i : LinkCycleCache.cycles c !! k = Some i → on_cycle k;
  cache_members k i : LinkCycleCache.cycles c !! k = Some i →
    ∃ M, LinkCycleCache.members c !! i = Some M ∧ ∀ x, x ∈ M ↔ reaches k x;
  cache_closed k k' : is_Some (LinkCycleCache.cycles c !! k) → up k = Some k' →
    is_Some (LinkCycleCache.cycles c !! k');
}.

Lemma cache_ok_empty : cache_ok LinkCycleCache.empty.
Proof. split; simpl; try set_solver; intros *; rewrite lookup_empty; naive_solver. Qed.

Lemma cache_closed_ancestor c n k k' :
  cache_ok c → is_Some (LinkCycleCache.cycles c !! k) → ancestor n k = Some k' →
  is_Some (LinkCycleCache.cycles c !! k').
Proof.
  intros Hc. revert k; induction n as [|n IH]; intros k Hk Hn; simplify_eq/=; [done|].
  destruct (up k) as [k1|] eqn:Hup; simplify_eq/=. apply (IH k1); [|done].
  by eapply cache_closed.
Qed.

Lemma extend_acyclic_ok c path :
  cache_ok c → (∀ p, p ∈ path → ¬ on_cycle p) →
  cache_ok (LinkCycleCache.extend_acyclic c path).
Proof.
  intros [Ha Hc Hm Hcl] Hpath. split; simpl; [|done..].
  intros k [?|?%elem_of_list_to_set]%elem_of_union; auto.
Qed.

(** The path walked so far: each key's link is the next key, the last one's the
    link in hand; none is the child, and none is cached. *)
Record path_ok (child : string * string) (c : LinkCycleCache.t)
    (path : list (string * string * Z)) (tip : option (string * string * Z)) : Prop := {
  path_up i p : path !! i = Some p → up p = (path ++ option_list tip) !! S i;
  path_child p : p ∈ path → p.1 ≠ child;
  path_fresh p : p ∈ path → LinkCycleCache.cycles c !! p = None;
  path_live p : p ∈ path →
    ∃ record, lookup t overlay p.1.1 p.1.2 = Some record ∧ ScopeRecord.scope_epoch record = p.2;
  path_NoDup : NoDup path;
}.

Lemma path_ancestor child c path tip i j p :
  path_ok child c path tip → path !! i = Some p → (i + j ≤ length path)%nat →
  ancestor j p = (path ++ option_list tip) !! (i + j)%nat.
Proof.
  intros Hp Hi. induction j as [|j IH]; intros Hj.
  { rewrite Nat.add_0_r. simpl. symmetry. by apply lookup_app_l_Some. }
  rewrite ancestor_S_r, IH by lia.
  destruct (lookup_lt_is_Some_2 path (i + j)) as [q Hq]; [lia|].
  rewrite (lookup_app_l_Some _ _ _ _ Hq). simpl.
  rewrite (path_up _ _ _ _ Hp _ _ Hq). f_equal. lia.
Qed.

(** The link in hand is an ancestor of every key of the path. *)
Lemma path_to_tip child c path k p :
  path_ok child c path (Some k) → p ∈ path → ∃ n, ancestor n p = Some k.
Proof.
  intros Hp [i Hi]%list_elem_of_lookup. pose proof (lookup_lt_Some _ _ _ Hi).
  exists (length path - i)%nat. rewrite (path_ancestor _ _ _ _ i _ _ Hp Hi) by lia.
  replace (i + (length path - i))%nat with (length path) by lia.
  rewrite lookup_app_r by lia. by rewrite Nat.sub_diag.
Qed.

(** A path whose last key has no link runs into nothing. *)
Lemma path_end child c path p :
  path_ok child c path None → p ∈ path → ¬ on_cycle p.
Proof.
  intros Hp [i Hi]%list_elem_of_lookup. pose proof (lookup_lt_Some _ _ _ Hi).
  destruct (lookup_lt_is_Some_2 path (length path - 1)) as [q Hq]; [lia|].
  apply (not_on_cycle_end p (length path - 1 - i) q).
  - rewrite (path_ancestor _ _ _ _ i _ _ Hp Hi) by lia.
    replace (i + (length path - 1 - i))%nat with (length path - 1)%nat by lia.
    by apply lookup_app_l_Some.
  - rewrite (path_up _ _ _ _ Hp _ _ Hq). apply lookup_ge_None. simpl. rewrite app_nil_r. lia.
Qed.

(** Keys on the path are live at their epoch, so no two share an owner and ref. *)
Lemma path_size child c path tip :
  path_ok child c path tip → (length path ≤ length view)%nat.
Proof.
  intros Hp. rewrite <-(length_fmap fst path).
  transitivity (size (list_to_set path.*1 : gset (string * string))).
  - rewrite size_list_to_set; [done|]. apply NoDup_fmap_2_strong; [|apply Hp].
    intros [x e] [y f] Hx Hy Heq; simpl in Heq; subst.
    destruct (path_live _ _ _ _ Hp _ Hx) as (? & ? & ?), (path_live _ _ _ _ Hp _ Hy) as (? & ? & ?).
    simpl in *. congruence.
  - transitivity (size (list_to_set view : gset (string * string))).
    + apply subseteq_size. intros x (p & -> & Hx)%elem_of_list_to_set%list_elem_of_fmap.
      destruct (path_live _ _ _ _ Hp _ Hx) as (? & Hl & _).
      apply elem_of_list_to_set. destruct p as [[]]. by eapply lookup_view.
    + apply size_list_to_set_le.
Qed.

(** *** A path that returns to itself *)

Section loop_found.
Context (child : string * string) (c : LinkCycleCache.t) (path : list (string * string * Z))
  (key : string * string * Z) (start : nat).
Context (Hpath : path_ok child c path (Some key)) (Hstart : path !! start = Some key).

Lemma in_loop p : p ∈ drop start path ↔ ∃ i, path !! (start + i)%nat = Some p.
Proof.
  rewrite list_elem_of_lookup. by setoid_rewrite lookup_drop.
Qed.

Lemma loop_closed p n p' : p ∈ drop start path → ancestor n p = Some p' → p' ∈ drop start path.
Proof.
  revert p; induction n as [|n IH]; intros p Hp Hn; simplify_eq/=; [done|].
  destruct (up p) as [q|] eqn:Hup; simplify_eq/=. apply (IH q); [|done].
  apply in_loop in Hp as [i Hi]. rewrite (path_up _ _ _ _ Hpath _ _ Hi) in Hup.
  apply in_loop. apply lookup_app_Some in Hup as [?|[Hlen Hq]].
  - exists (S i). by rewrite Nat.add_succ_r.
  - pose proof (lookup_lt_Some _ _ _ Hi). exists 0%nat. rewrite Nat.add_0_r, Hstart.
    replace (S (start + i) - length path)%nat with 0%nat in Hq by lia. done.
Qed.

Lemma loop_from_key p : p ∈ drop start path → ∃ n, ancestor n key = Some p.
Proof.
  intros [i Hi]%in_loop. pose proof (lookup_lt_Some _ _ _ Hi). exists i.
  rewrite (path_ancestor _ _ _ _ start _ _ Hpath Hstart) by lia. by apply lookup_app_l_Some.
Qed.

Lemma loop_to_key p : p ∈ path → ∃ n, ancestor (S n) p = Some key.
Proof.
  intros [i Hi]%list_elem_of_lookup. pose proof (lookup_lt_Some _ _ _ Hi).
  exists (length path - S i)%nat. replace (S (length path - S i)) with (length path - i)%nat by lia.
  rewrite (path_ancestor _ _ _ _ i _ _ Hpath Hi) by lia.
  replace (i + (length path - i))%nat with (length path) by lia.
  rewrite lookup_app_r by lia. by rewrite Nat.sub_diag.
Qed.

Lemma loop_on_cycle p : p ∈ drop start path → on_cycle p.
Proof.
  intros Hp. destruct (loop_from_key p Hp) as [n Hn].
  destruct (loop_to_key p) as [m Hm]; [by apply list_elem_of_lookup; apply in_loop in Hp as [i ?]; eauto|].
  exists (m + n)%nat. change (S (m + n)) with (S m + n)%nat. by eapply ancestor_trans.
Qed.

Lemma loop_reaches p x : p ∈ drop start path → reaches p x ↔ x ∈ fst <$> drop start path.
Proof.
  intros Hp. rewrite list_elem_of_fmap. split.
  - intros (n & q & Hn & <-). exists q. split; [done|]. by eapply loop_closed.
  - intros (q & -> & Hq). destruct (loop_from_key q Hq) as [n Hn].
    destruct (loop_to_key p) as [m Hm]; [by apply list_elem_of_lookup; apply in_loop in Hp as [i ?]; eauto|].
    exists (S m + n)%nat, q. split; [|done]. by eapply ancestor_trans.
Qed.

(** Keys before the loop only lead into it. *)
Lemma before_loop p : p ∈ take start path → ¬ on_cycle p.
Proof.
  intros Hp Hc. assert (p ∈ path) as Hin by (rewrite <-(take_drop start path); set_solver).
  destruct (loop_to_key p Hin) as [n Hn]. destruct (on_cycle_back _ _ _ Hc Hn) as [m Hm].
  assert (p ∈ drop start path) as Hd.
  { apply (loop_closed key (S m)); [|done]. apply in_loop. exists 0%nat. by rewrite Nat.add_0_r. }
  pose proof (path_NoDup _ _ _ _ Hpath) as Hnd. rewrite <-(take_drop start path) in Hnd.
  apply list.NoDup_app in Hnd as (_ & Hdisj & _). by apply (Hdisj p).
Qed.

Lemma foldl_insert_lookup (l : list (string * string * Z)) (m : gmap (string * string * Z) nat) v k :
  foldl (λ m member, <[member := v]> m) m l !! k = if decide (k ∈ l) then Some v else m !! k.
Proof.
  revert m; induction l as [|x l IH]; intros m; simpl; [done|]. rewrite IH.
  destruct (decide (k = x)) as [->|Hne].
  - rewrite lookup_insert_eq. repeat case_decide; set_solver.
  - rewrite lookup_insert_ne by done. repeat case_decide; set_solver.
Qed.

Lemma record_cycle_ok : cache_ok c → cache_ok (record_cycle c path start).
Proof.
  intros Hc. split; simpl.
  - intros k [?|?%elem_of_list_to_set]%elem_of_union; [by eapply cache_acyclic|by apply before_loop].
  - intros k i. rewrite foldl_insert_lookup. case_decide; [by intros; apply loop_on_cycle|].
    by apply cache_cycle.
  - intros k i. rewrite foldl_insert_lookup. case_decide as Hk.
    + intros [= <-]. eexists. rewrite lookup_app_r, Nat.sub_diag by lia. split; [done|].
      intros x. by rewrite elem_of_list_to_set, loop_reaches.
    + intros Hi. destruct (cache_members c Hc k i Hi) as (M & HM & ?). exists M.
      split; [by apply lookup_app_l_Some|done].
  - intros k k'. rewrite !foldl_insert_lookup. case_decide as Hk.
    + intros _ Hup. rewrite decide_True; [done|]. apply (loop_closed k 1 k' Hk). simpl. by rewrite Hup.
    + intros Hi Hup. case_decide; [done|]. by eapply cache_closed.
Qed.
End loop_found.

(** *** The loop *)

Lemma path_push child c path k :
  path_ok child c path (Some k) → k.1 ≠ child → LinkCycleCache.cycles c !! k = None → k ∉ path →
  (∃ record, lookup t overlay k.1.1 k.1.2 = Some record ∧ ScopeRecord.scope_epoch record = k.2) →
  path_ok child c (path ++ [k]) (up k).
Proof.
  intros Hp Hchild Hfresh Hnew Hlive. split.
  - intros i p [Hi|[Hlen Hi]]%lookup_app_Some.
    + pose proof (lookup_lt_Some _ _ _ Hi). rewrite (path_up _ _ _ _ Hp _ _ Hi).
      rewrite (lookup_app_l (path ++ [k])); [done|]. rewrite length_app; simpl; lia.
    + destruct (i - length path)%nat as [|j] eqn:Hj; simplify_eq/=.
      assert (i = length path) as -> by lia.
      rewrite lookup_app_r by (rewrite length_app; simpl; lia).
      rewrite length_app; simpl. replace (S (length path) - (length path + 1))%nat with 0%nat by lia.
      by destruct (up p).
  - intros p [?| ->%list_elem_of_singleton]%elem_of_app; [by eapply path_child|done].
  - intros p [?| ->%list_elem_of_singleton]%elem_of_app; [by eapply path_fresh|done].
  - intros p [?| ->%list_elem_of_singleton]%elem_of_app; [by eapply path_live|done].
  - rewrite Permutation_app_comm. apply NoDup_cons. split; [done|by eapply path_NoDup].
Qed.

(** The path, and the link in hand, run into something on no cycle. *)
Lemma extend_path_ok child c path k :
  cache_ok c → path_ok child c path (Some k) → ¬ on_cycle k →
  cache_ok (LinkCycleCache.extend_acyclic c path) ∧
  cache_ok (LinkCycleCache.extend_acyclic c (path ++ [k])).
Proof.
  intros Hc Hp Hk.
  assert (∀ p, p ∈ path → ¬ on_cycle p) as Hpath.
  { intros p Hin. destruct (path_to_tip _ _ _ _ _ Hp Hin) as [n Hn].
    by eapply not_on_cycle_ancestor. }
  split; apply extend_acyclic_ok; [done..|].
  intros p [?| ->%list_elem_of_singleton]%elem_of_app; auto.
Qed.

Lemma not_on_cycle_stop k : up k = None → ¬ on_cycle k.
Proof. intros Hup. by apply (not_on_cycle_end k 0 k). Qed.

Lemma extend_into_cycle_ok child c path k :
  cache_ok c → path_ok child c path (Some k) → is_Some (LinkCycleCache.cycles c !! k) →
  cache_ok (LinkCycleCache.extend_acyclic c path).
Proof.
  intros Hc Hp Hk. apply extend_acyclic_ok; [done|]. intros p Hin Hcyc.
  destruct (path_to_tip _ _ _ _ _ Hp Hin) as [n Hn].
  destruct (on_cycle_back _ _ _ Hcyc Hn) as [m Hm].
  destruct (cache_closed_ancestor c (S m) k p Hc Hk Hm) as [? Hsome].
  rewrite (path_fresh _ _ _ _ Hp p Hin) in Hsome. done.
Qed.

(** What a turn of the loop answers: [true] only when the walk reaches the
    child; [true] whenever the child is on a cycle the walk is on. *)
Definition cached_answer (child : string * string) (link : ScopeParent.t) (b : bool) : Prop :=
  (b = true → ∃ k, link_key link = Some k ∧ reaches k child) ∧
  (∀ e n k, on_cycle (child, e) → ancestor n (child, e) = Some k → link_key link = Some k → b = true).

Lemma cached_answer_false child link k :
  link_key link = Some k → ¬ on_cycle k → cached_answer child link false.
Proof.
  intros Hk Hc. split; [done|]. intros e n k' He Hn Hk'. simplify_eq.
  destruct Hc. by eapply on_cycle_ancestor.
Qed.

Lemma cached_answer_cycle child link c k i M :
  cache_ok c → link_key link = Some k → LinkCycleCache.cycles c !! k = Some i →
  LinkCycleCache.members c !! i = Some M → cached_answer child link (bool_decide (child ∈ M)).
Proof.
  intros Hc Hk Hi HM. destruct (cache_members c Hc k i Hi) as (M' & HM' & Hspec). simplify_eq.
  split.
  - intros Hin%bool_decide_eq_true. exists k. split; [done|]. by apply Hspec.
  - intros e n k' He Hn Hk'. simplify_eq. apply bool_decide_eq_true, Hspec.
    destruct (on_cycle_back _ _ _ He Hn) as [m Hm]. by exists (S m), (child, e).
Qed.

Lemma cached_answer_loop child c path link k start :
  path_ok child c path (Some k) → link_key link = Some k → path !! start = Some k →
  cached_answer child link false.
Proof.
  intros Hp Hk Hstart. split; [done|]. intros e n k' He Hn Hk'. simplify_eq.
  destruct (on_cycle_back _ _ _ He Hn) as [m Hm].
  assert (k ∈ drop start path) as Hin
    by (apply in_loop; exists 0%nat; by rewrite Nat.add_0_r).
  pose proof (loop_closed _ _ _ _ _ Hp Hstart _ _ _ Hin Hm) as Hd.
  apply in_loop in Hd as [i Hi]. apply list_elem_of_lookup_2 in Hi.
  by apply (path_child _ _ _ _ Hp) in Hi.
Qed.

Lemma closes_cycle_cached_loop_spec fuel child path link c :
  cache_ok c → path_ok child c path (link_key link) →
  (length view < fuel + length path)%nat →
  ∃ b c', closes_cycle_cached_loop fuel t overlay child path link c = Some (b, c') ∧
          cache_ok c' ∧ cached_answer child link b.
Proof.
  revert path link; induction fuel as [|fuel IH]; intros path link Hc Hp Hfuel.
  { pose proof (path_size _ _ _ _ Hp). lia. }
  cbn [closes_cycle_cached_loop].
  destruct (reserved_module_id (ScopeParent.owner link)) as [owner|] eqn:Ho; last first.
  { assert (link_key link = None) as Hk by (unfold link_key; by rewrite Ho).
    eexists _, _. split_and!; [done| |split; [done|congruence]].
    apply extend_acyclic_ok; [done|]. intros p. eapply path_end. by rewrite Hk in Hp. }
  set (k := (owner, ScopeParent.scope_ref link, ScopeParent.scope_epoch link)).
  assert (link_key link = Some k) as Hk by (unfold link_key; by rewrite Ho).
  rewrite Hk in Hp. case_decide as Hchild.
  { eexists _, _. split_and!; [done..|]. split; [|done]. intros _. exists k. split; [done|].
    by exists 0%nat, k. }
  case_decide as Hac.
  { pose proof (cache_acyclic c Hc k Hac) as Hno.
    eexists _, _. split_and!; [done|by eapply extend_path_ok|by eapply cached_answer_false]. }
  destruct (LinkCycleCache.cycles c !! k) as [i|] eqn:Hi.
  { destruct (cache_members c Hc k i Hi) as (M & HM & _). rewrite HM. simpl.
    eexists _, _. split_and!; [done| |by eapply cached_answer_cycle].
    case_bool_decide; [done|]. by eapply extend_into_cycle_ok. }
  destruct (position _ path) as [start|] eqn:Hpos.
  { apply position_eq_Some in Hpos.
    eexists _, _. split_and!; [done|by eapply record_cycle_ok|by eapply cached_answer_loop]. }
  apply position_eq_None in Hpos.
  pose proof (up_link owner link Ho) as Hup. fold k in Hup.
  assert (up k = None → ∃ b c',
    Some (false, LinkCycleCache.extend_acyclic c (path ++ [k])) = Some (b, c') ∧ cache_ok c' ∧
    cached_answer child link b) as Hstop.
  { intros Hno%not_on_cycle_stop.
    eexists _, _. split_and!; [done|by eapply extend_path_ok|by eapply cached_answer_false]. }
  destruct (lookup t overlay owner (ScopeParent.scope_ref link)) as [record|] eqn:Hl; [|auto].
  destruct (_ =? _) eqn:He; simpl in *; [|auto].
  destruct (ScopeRecord.parent record) as [p|] eqn:Hpar; [|auto].
  apply Z.eqb_eq in He.
  destruct (IH (path ++ [k]) p) as (b & c' & -> & Hc' & Hb1 & Hb2); [done| | |].
  - rewrite <-Hup. apply path_push; try done. by exists record.
  - rewrite length_app; simpl; lia.
  - eexists _, _. split_and!; [done..|]. split.
    + intros Htrue. destruct (Hb1 Htrue) as (k' & Hk' & Hr). exists k. split; [done|].
      apply (reaches_step k k'); [congruence|by right].
    + intros e n k' Hcyc Hn Hk'. simplify_eq.
      destruct (on_cycle_up k) as [k' Hk']; [by eapply on_cycle_ancestor|].
      apply (Hb2 e (S n) k'); [done| |congruence]. rewrite ancestor_S_r, Hn. done.
Qed.

Lemma link_closes_cycle_cached_spec child_owner child_ref parent c :
  cache_ok c →
  let '(b, c') := link_closes_cycle_cached t overlay child_owner child_ref parent c in
  cache_ok c' ∧
  (b = true → link_closes_cycle t overlay child_owner child_ref parent = true) ∧
  (∀ e, up (child_owner, child_ref, e) = link_key parent →
        on_cycle (child_owner, child_ref, e) → b = true).
Proof.
  intros Hc. unfold link_closes_cycle_cached.
  destruct (closes_cycle_cached_loop_spec (link_fuel t overlay) (child_owner, child_ref) [] parent c)
    as (b & c' & -> & Hc' & Hb1 & Hb2); [done| |rewrite <-length_view; simpl; lia|].
  { split; [done|set_solver..|constructor]. }
  simpl. split; [done|]. split; [by rewrite link_closes_cycle_reaches|].
  intros e Hup Hcyc. destruct (on_cycle_up _ Hcyc) as [k Hk].
  apply (Hb2 e 1%nat k); [done| |congruence]. cbn [ancestor]. by rewrite Hk.
Qed.
End ancestry.
