(* ===== verification/ScopeSettle.v ===== *)
(** * Settling the new links of a sync

    The queue of [sync_owner] that checks new parent links: it terminates, and
    at its end every accepted link has been checked against the final set. *)

From S2P Require Import Prelude Collections Envelope Tokens ScopeTypes Scopes ScopeLinks.

Lemma elem_of_enumerate {A} (l : list A) i x : (i, x) ∈ enumerate l ↔ l !! i = Some x.
Proof.
  unfold enumerate. rewrite elem_of_lookup_imap. split.
  - intros (j & y & [= -> ->] & ?). done.
  - intros ?. by exists i, x.
Qed.

Lemma check_new_link_local t owner p next next' x :
  (∀ y, y ≠ x → next !! y = next' !! y) →
  ¬ (reserved_module_id (ScopeParent.owner p) = Some owner ∧ ScopeParent.scope_ref p = x) →
  check_new_link t owner p next = check_new_link t owner p next'.
Proof.
  intros Hne Hp. unfold check_new_link.
  destruct (reserved_module_id _) as [po|]; [|done].
  destruct (negb _); [done|]. unfold lookup.
  case_decide as Ho; [|done]. rewrite Hne; [done|]. intros Hx. apply Hp. by subst.
Qed.

Section settle.
Context (t : ScopeTable) (owner : string) (state : OwnerScopes.t) (scopes : list ScopeRecord.t).
Context (Hrefs : NoDup (ScopeRecord.scope_ref <$> scopes)).

Implicit Types (s : Settle.t) (r : ScopeRecord.t).

Abbreviation held x := (OwnerScopes.live state !! x).

Lemma scopes_inj i j r r' :
  scopes !! i = Some r → scopes !! j = Some r' →
  ScopeRecord.scope_ref r = ScopeRecord.scope_ref r' → i = j.
Proof.
  intros Hi Hj Heq. eapply (NoDup_lookup _ i j (ScopeRecord.scope_ref r) Hrefs);
    rewrite list_lookup_fmap; [by rewrite Hi|rewrite Hj; simpl; congruence].
Qed.

(** The link of [r] has been checked against [next]. *)
Definition link_checked (next : gmap string ScopeRecord.t)
    (link_states : gmap string ParentState.t) r : Prop :=
  ∃ p st, ScopeRecord.parent r = Some p ∧ check_new_link t owner p next = Some st ∧
          link_states !! ScopeRecord.scope_ref r = Some st.

(** What holds of the record at [i]: refused, and back to what was held; or
    accepted, and a new link checked unless it waits in the queue or is the
    one [busy]. *)
Definition record_settled (busy : option nat) s i r : Prop :=
  let x := ScopeRecord.scope_ref r in
  match Settle.refusals s !! i with
  | Some _ => Settle.next s !! x = LiveScope.record <$> held x ∧ Settle.link_states s !! x = None
  | None =>
      Settle.next s !! x = Some (ScopeRecord.without_idle_condition r) ∧
      (is_new_link state r = false → Settle.link_states s !! x = None) ∧
      (is_new_link state r = true →
       i ∈ Settle.pending s ∨ busy = Some i ∨
       link_checked (Settle.next s) (Settle.link_states s) r)
  end.

Record settle_inv (refusals0 : gmap nat string) (next0 : gmap string ScopeRecord.t)
    (busy : option nat) s : Prop := {
  inv_length : length (Settle.queued s) = length scopes;
  inv_queued i : Settle.queued s !! i = Some true ↔ i ∈ Settle.pending s;
  inv_NoDup : NoDup (Settle.pending s);
  inv_record i r : scopes !! i = Some r → record_settled busy s i r;
  inv_other x : x ∉ ScopeRecord.scope_ref <$> scopes →
    Settle.next s !! x = next0 !! x ∧ Settle.link_states s !! x = None;
  inv_refusals : refusals0 ⊆ Settle.refusals s;
}.

(** ** The inner loop *)

Lemma pop_inv refusals0 next0 i pending queued refusals ls next :
  settle_inv refusals0 next0 None (Settle.mk (i :: pending) queued refusals ls next) →
  is_Some (scopes !! i) ∧
  settle_inv refusals0 next0 (Some i) (Settle.mk pending (<[i := false]> queued) refusals ls next).
Proof.
  intros [Hlen Hq Hnd Hrec Hoth Href]; simpl in *.
  apply NoDup_cons in Hnd as [Hi Hnd].
  assert (queued !! i = Some true) as Hqi by (apply Hq; set_solver).
  split.
  { apply lookup_lt_is_Some. rewrite <-Hlen. by apply lookup_lt_is_Some. }
  split; simpl; [by rewrite length_insert| |done| |done|done].
  - intros j. destruct (decide (j = i)) as [->|Hne].
    + rewrite list_lookup_insert_eq by (by apply lookup_lt_is_Some; eexists). naive_solver.
    + rewrite list_lookup_insert_ne by done. rewrite Hq. set_solver.
  - intros j r Hj. specialize (Hrec j r Hj). unfold record_settled in *; simpl in *.
    destruct (refusals !! j); [done|]. destruct Hrec as (? & ? & Hnew). split_and!; [done..|].
    intros Hl. destruct (Hnew Hl) as [Hin|[?|?]]; [|done|tauto].
    apply elem_of_cons in Hin as [->|?]; tauto.
Qed.

Lemma unbusy_inv refusals0 next0 i s :
  settle_inv refusals0 next0 (Some i) s →
  (∀ r, scopes !! i = Some r → record_settled None s i r) →
  settle_inv refusals0 next0 None s.
Proof.
  intros [Hlen Hq Hnd Hrec Hoth Href] Hi. split; try done.
  intros j r Hj. destruct (decide (j = i)) as [->|Hne]; [by apply Hi|].
  specialize (Hrec j r Hj). unfold record_settled in *.
  destruct (Settle.refusals s !! j); [done|]. destruct Hrec as (? & ? & Hnew).
  split_and!; [done..|]. intros Hl. destruct (Hnew Hl) as [?|[?|?]]; [tauto|congruence|tauto].
Qed.

(** A link checked at the head of the queue. *)
Lemma checked_inv refusals0 next0 i r p st s :
  settle_inv refusals0 next0 (Some i) s →
  scopes !! i = Some r → Settle.refusals s !! i = None → is_new_link state r = true →
  ScopeRecord.parent r = Some p → check_new_link t owner p (Settle.next s) = Some st →
  settle_inv refusals0 next0 None
    (Settle.mk (Settle.pending s) (Settle.queued s) (Settle.refusals s)
       (<[ScopeRecord.scope_ref r := st]> (Settle.link_states s)) (Settle.next s)).
Proof.
  intros [Hlen Hq Hnd Hrec Hoth Href] Hi Hni Hl Hp Hst. split; simpl; try done.
  - intros j r' Hj. pose proof (Hrec j r' Hj) as Hs. unfold record_settled, link_checked in *; simpl.
    destruct (decide (j = i)) as [->|Hne].
    + simplify_eq. rewrite Hni in *. destruct Hs as (Hnext & _ & _). split_and!; [done|congruence|].
      intros _. right. right. exists p, st. split_and!; [done..|]. by rewrite lookup_insert_eq.
    + assert (ScopeRecord.scope_ref r ≠ ScopeRecord.scope_ref r') as Hx
        by (intros ?; apply Hne; by eapply scopes_inj).
      rewrite lookup_insert_ne by done. destruct (Settle.refusals s !! j); [done|].
      destruct Hs as (? & ? & Hnew). split_and!; [done..|].
      intros Hl'. destruct (Hnew Hl') as [?|[?|?]]; [tauto|congruence|tauto].
  - intros x Hx. rewrite lookup_insert_ne; [by apply Hoth|].
    intros <-. apply Hx, list_elem_of_fmap. exists r. split; [done|]. by eapply list_elem_of_lookup_2.
Qed.

Lemma drain_pending_spec refusals0 next0 refusals next pending queued ls :
  settle_inv refusals0 next0 None (Settle.mk pending queued refusals ls next) →
  let '(rejected, pending', queued', ls') :=
    drain_pending t owner state scopes refusals next pending queued ls in
  settle_inv refusals0 next0 rejected (Settle.mk pending' queued' refusals ls' next) ∧
  match rejected with
  | None => pending' = []
  | Some i => refusals !! i = None ∧ is_Some (scopes !! i)
  end.
Proof.
  revert queued ls; induction pending as [|i pending IH]; intros queued ls Hinv; simpl; [done|].
  apply pop_inv in Hinv as [[r Hr] Hinv]. rewrite Hr.
  pose proof (inv_record _ _ _ _ Hinv i r Hr) as Hs. unfold record_settled in Hs; simpl in Hs.
  destruct (refusals !! i) as [code|] eqn:Hi; simpl.
  { apply IH, (unbusy_inv _ _ i); [done|]. intros r' ?. simplify_eq.
    unfold record_settled; simpl. by rewrite Hi. }
  destruct Hs as (Hnext & Hold & _).
  assert (is_new_link state r = false →
    settle_inv refusals0 next0 None (Settle.mk pending (<[i:=false]> queued) refusals ls next)) as Hskip.
  { intros Hl. apply (unbusy_inv _ _ i); [done|]. intros r' ?. simplify_eq.
    unfold record_settled; simpl. rewrite Hi. split_and!; [done|auto|congruence]. }
  destruct (ScopeRecord.parent r) as [p|] eqn:Hp; last first.
  { apply IH, Hskip. unfold is_new_link. by rewrite Hp. }
  destruct (is_new_link state r) eqn:Hl; simpl; [|by apply IH, Hskip].
  destruct (check_new_link t owner p next) as [st|] eqn:Hst; [|eauto].
  apply IH. eapply (checked_inv _ _ _ _ _ _ _ Hinv); eauto.
Qed.

(** ** The ancestry pass *)

(** The record's link, once accepted, is not on a cycle of the final set. *)
Definition no_cycle_through (next : gmap string ScopeRecord.t)
    (ls : gmap string ParentState.t) r : Prop :=
  ∀ p e, ls !! ScopeRecord.scope_ref r = Some ParentState.Linked → ScopeRecord.parent r = Some p →
    up t (Some (owner, next)) (owner, ScopeRecord.scope_ref r, e) = link_key p →
    ¬ on_cycle t (Some (owner, next)) (owner, ScopeRecord.scope_ref r, e).

Definition cycle_outcome next ls (entries : list (nat * ScopeRecord.t)) (o : option nat) : Prop :=
  match o with
  | Some i => ∃ r p, (i, r) ∈ entries ∧ ls !! ScopeRecord.scope_ref r = Some ParentState.Linked ∧
      ScopeRecord.parent r = Some p ∧
      link_closes_cycle t (Some (owner, next)) owner (ScopeRecord.scope_ref r) p = true
  | None => ∀ i r, (i, r) ∈ entries → no_cycle_through next ls r
  end.

Lemma find_cycle_spec next ls entries c :
  cache_ok t (Some (owner, next)) c →
  cycle_outcome next ls entries (find_cycle t owner next ls entries c).
Proof.
  revert c; induction entries as [|[i r] entries IH]; intros c Hc; cbn [find_cycle].
  { intros ??. set_solver. }
  assert (∀ c', cache_ok t (Some (owner, next)) c' → no_cycle_through next ls r →
    cycle_outcome next ls ((i, r) :: entries) (find_cycle t owner next ls entries c')) as Hrest.
  { intros c' Hc' Hr. specialize (IH c' Hc'). unfold cycle_outcome in *.
    destruct (find_cycle t owner next ls entries c') as [j|].
    - destruct IH as (r' & p & ? & ?). exists r', p. split; [set_solver|done].
    - intros j r' [[= -> ->]|Hin]%elem_of_cons; [done|by apply (IH j)]. }
  case_bool_decide as Hl; [|apply Hrest; [done|]; intros ???; done].
  destruct (ScopeRecord.parent r) as [p|] eqn:Hp; [|apply Hrest; [done|]; intros ???; congruence].
  pose proof (link_closes_cycle_cached_spec t (Some (owner, next)) owner
                (ScopeRecord.scope_ref r) p c Hc) as Hspec.
  destruct (link_closes_cycle_cached _ _ _ _ _ _) as [b c'].
  destruct Hspec as (Hc' & Hsound & Hcomplete).
  destruct b; [exists r, p; split_and!; [set_solver|auto..]|].
  apply Hrest; [done|]. intros p' e _ Hp' Hup Hcyc. simplify_eq. by specialize (Hcomplete e Hup Hcyc).
Qed.

(** ** A rejected link *)

Lemma requeue_spec (children : list nat) pending queued :
  (∀ i, queued !! i = Some true ↔ i ∈ pending) → NoDup pending →
  let '(pending', queued') :=
    foldl (λ '(pending, queued) child,
             if decide (queued !! child = Some false)
             then (pending ++ [child], <[child := true]> queued)
             else (pending, queued)) (pending, queued) children in
  length queued' = length queued ∧
  (∀ i, queued' !! i = Some true ↔ i ∈ pending') ∧ NoDup pending' ∧
  (∀ i, i ∈ pending → i ∈ pending') ∧
  (∀ i, i ∈ children → (i < length queued)%nat → i ∈ pending').
Proof.
  revert pending queued; induction children as [|c children IH]; intros pending queued Hq Hnd; simpl.
  { split_and!; [done..|]. set_solver. }
  case_decide as Hc.
  - assert (c ∉ pending) as Hnew by (rewrite <-Hq; congruence).
    specialize (IH (pending ++ [c]) (<[c := true]> queued)).
    destruct (foldl _ _ children) as [pending' queued'].
    destruct IH as (Hlen & Hq' & Hnd' & Hsub & Hch).
    + intros i. destruct (decide (i = c)) as [->|Hne].
      * rewrite list_lookup_insert_eq by (by apply lookup_lt_is_Some; eexists). set_solver.
      * rewrite list_lookup_insert_ne by done. rewrite Hq. set_solver.
    + rewrite Permutation_app_comm. by apply NoDup_cons.
    + rewrite length_insert in *. split_and!; [done..|set_solver|].
      intros i [->|?]%elem_of_cons Hi; [apply Hsub; set_solver|by apply Hch].
  - specialize (IH pending queued Hq Hnd). destruct (foldl _ _ children) as [pending' queued'].
    destruct IH as (Hlen & Hq' & Hnd' & Hsub & Hch). split_and!; [done..|].
    intros i [->|?]%elem_of_cons Hi; [|by apply Hch]. apply Hsub, Hq.
    apply lookup_lt_is_Some in Hi as [[] Hi]; congruence.
Qed.

Lemma elem_of_children_of x i r p :
  scopes !! i = Some r → ScopeRecord.parent r = Some p →
  reserved_module_id (ScopeParent.owner p) = Some owner → ScopeParent.scope_ref p = x →
  i ∈ children_of owner scopes x.
Proof.
  intros Hi Hp Ho Hx. apply list_elem_of_fmap. exists (i, r). split; [done|].
  apply list_elem_of_filter. split; [|by apply elem_of_enumerate]. simpl. rewrite Hp. simpl.
  rewrite !bool_decide_eq_true_2; done.
Qed.

Lemma restore_held_eq x next : restore_held state x next !! x = LiveScope.record <$> held x.
Proof. unfold restore_held. destruct (held x); [apply lookup_insert_eq|apply lookup_delete_eq]. Qed.

Lemma restore_held_ne x y next : y ≠ x → restore_held state x next !! y = next !! y.
Proof.
  intros. unfold restore_held.
  destruct (held x); [by apply lookup_insert_ne|by apply lookup_delete_ne].
Qed.

Lemma reject_link_inv refusals0 next0 busy s i r :
  settle_inv refusals0 next0 busy s →
  (∀ j, busy = Some j → j = i) →
  scopes !! i = Some r → Settle.refusals s !! i = None →
  settle_inv refusals0 next0 None (reject_link owner state scopes i r s) ∧
  Settle.refusals (reject_link owner state scopes i r s)
  = <[i := error_codes.SCOPE_PARENT_NOT_PERMITTED]> (Settle.refusals s).
Proof.
  intros [Hlen Hq Hnd Hrec Hoth Href] Hbusy Hi Hni. unfold reject_link.
  pose proof (requeue_spec (children_of owner scopes (ScopeRecord.scope_ref r))
                (Settle.pending s) (Settle.queued s) Hq Hnd) as Hre.
  destruct (foldl _ _ _) as [pending' queued']. destruct Hre as (Hlen' & Hq' & Hnd' & Hsub & Hch).
  set (x := ScopeRecord.scope_ref r). 
  split; [|done]. split; simpl; try done; [congruence| | |].
  - intros j r' Hj. pose proof (Hrec j r' Hj) as Hs. unfold record_settled, link_checked in *; simpl.
    destruct (decide (j = i)) as [->|Hji].
    { simplify_eq. fold x. rewrite lookup_insert_eq. split; [apply restore_held_eq|apply lookup_delete_eq]. }
    assert (ScopeRecord.scope_ref r' ≠ x) as Hx by (intros ?; apply Hji; by eapply scopes_inj).
    rewrite lookup_insert_ne, lookup_delete_ne, restore_held_ne by done.
    destruct (Settle.refusals s !! j); [done|]. destruct Hs as (? & ? & Hnew). split_and!; [done..|].
    intros Hl. destruct (Hnew Hl) as [?|[?%Hbusy|(p & st & Hp & Hst & Hls)]]; [auto|done|].
    destruct (decide (reserved_module_id (ScopeParent.owner p) = Some owner ∧
                      ScopeParent.scope_ref p = x)) as [[]|Hloc].
    + left. apply Hch; [by eapply elem_of_children_of|]. rewrite Hlen. by eapply lookup_lt_Some.
    + right. right. exists p, st. split_and!; try done. rewrite <-Hst.
      eapply check_new_link_local; [|done]. intros. by apply restore_held_ne.
  - intros y Hy. assert (y ≠ x).
    { intros ->. apply Hy, list_elem_of_fmap. exists r. split; [done|]. by eapply list_elem_of_lookup_2. }
    rewrite restore_held_ne, lookup_delete_ne by done. by apply Hoth.
  - rewrite Href. apply insert_subseteq. done.
Qed.

(** ** The outer loop *)

(** The records not refused yet: every turn but the last refuses one. *)
Definition unrefused (refusals : gmap nat string) : gset nat :=
  set_seq 0 (length scopes) ∖ dom refusals.

Lemma unrefused_insert refusals i code r :
  scopes !! i = Some r → refusals !! i = None →
  (size (unrefused (<[i := code]> refusals)) < size (unrefused refusals))%nat.
Proof.
  intros Hi%lookup_lt_Some Hni. apply subset_size. unfold unrefused. rewrite dom_insert.
  split; [set_solver|]. intros Hsub.
  assert (i ∈ set_seq 0 (length scopes) ∖ (dom refusals : gset nat)) as Hin%Hsub; [|set_solver].
  apply elem_of_difference. split; [apply elem_of_set_seq; lia|by apply not_elem_of_dom].
Qed.

Definition settled refusals0 next0 s : Prop :=
  settle_inv refusals0 next0 None s ∧ Settle.pending s = [] ∧
  ∀ i r, scopes !! i = Some r → no_cycle_through (Settle.next s) (Settle.link_states s) r.

Lemma settle_loop_spec refusals0 next0 fuel s :
  settle_inv refusals0 next0 None s →
  (size (unrefused (Settle.refusals s)) < fuel)%nat →
  ∃ s', settle_loop fuel t owner state scopes s = Some s' ∧ settled refusals0 next0 s'.
Proof.
  revert s; induction fuel as [|fuel IH]; intros s Hinv Hfuel; [lia|]. cbn [settle_loop].
  destruct s as [pending queued refusals ls next]; simpl in *.
  pose proof (drain_pending_spec refusals0 next0 refusals next pending queued ls Hinv) as Hdrain.
  destruct (drain_pending _ _ _ _ _ _ _ _ _) as [[[rejected pending'] queued'] ls'].
  destruct Hdrain as [Hinv' Hrej]. set (s' := Settle.mk pending' queued' refusals ls' next) in *.
  assert (∀ busy i r, settle_inv refusals0 next0 busy s' → (∀ j, busy = Some j → j = i) →
    scopes !! i = Some r → refusals !! i = None →
    ∃ s'', settle_loop fuel t owner state scopes (reject_link owner state scopes i r s') = Some s'' ∧
      settled refusals0 next0 s'') as Hreject.
  { intros busy i r Hb Hbi Hi Hni.
    destruct (reject_link_inv _ _ _ _ _ _ Hb Hbi Hi Hni) as [Hb' Hrefs'].
    apply IH; [done|]. rewrite Hrefs'. pose proof (unrefused_insert refusals i
      error_codes.SCOPE_PARENT_NOT_PERMITTED r Hi Hni). simpl. lia. }
  destruct rejected as [i|].
  { destruct Hrej as [Hni [r Hi]]. rewrite Hi. eapply (Hreject (Some i)); eauto. congruence. }
  pose proof (find_cycle_spec next ls' (enumerate scopes) LinkCycleCache.empty
                (cache_ok_empty _ _)) as Hcyc.
  destruct (find_cycle _ _ _ _ _ _) as [i|]; simpl in Hcyc.
  - destruct Hcyc as (r & p & Hi%elem_of_enumerate & Hl & _). rewrite Hi.
    eapply (Hreject None); eauto; [congruence|].
    pose proof (inv_record _ _ _ _ Hinv' i r Hi) as Hs. unfold record_settled in Hs; simpl in Hs.
    destruct (refusals !! i); [|done]. destruct Hs; congruence.
  - exists s'. split; [done|]. split_and!; [done..|]. intros i r Hi. by eapply Hcyc, elem_of_enumerate.
Qed.
End settle.
