(* ===== verification/ScopeSync.v ===== *)
(** * One sync or apply, phase by phase

    What an accepted [scope.sync] or [scope.apply] does to its owner's scopes:
    the guards, the staged set, the settled links and the committed state. *)

From S2P Require Import Prelude Collections Envelope Tokens ScopeTypes Scopes.
From S2P Require Import ScopeTombstones ScopeLinks ScopeSettle.

(** ** Whole-call bounds *)

(** What [check_sync_bounds] guarantees of each record. *)
Record valid_fields `{AttributeJson} (r : ScopeRecord.t) : Prop := {
  vf_project : validate_field validate_project_id (ScopeRecord.project_id r) = Ok tt;
  vf_proof : validate_field validate_bind_proof_sha256 (ScopeRecord.bind_proof_sha256 r) = Ok tt;
  vf_ref : ScopeRecord.scope_ref r ≠ "";
  vf_flow_id : validate_field validate_flow_id
                 (ScopeAttributes.flow_id (ScopeRecord.attributes r)) = Ok tt;
  vf_flow_version : validate_field validate_flow_version
                      (ScopeAttributes.flow_version (ScopeRecord.attributes r)) = Ok tt;
  vf_flow_code_hash : validate_field validate_flow_code_hash
                        (ScopeAttributes.flow_code_hash (ScopeRecord.attributes r)) = Ok tt;
  vf_flow_install_id : validate_field validate_flow_install_id
                         (ScopeAttributes.flow_install_id (ScopeRecord.attributes r)) = Ok tt;
  vf_run_id : validate_field validate_run_id
                (ScopeAttributes.run_id (ScopeRecord.attributes r)) = Ok tt;
  vf_agent : validate_field validate_on_behalf_of_agent
               (ScopeAttributes.on_behalf_of_agent (ScopeRecord.attributes r)) = Ok tt;
  vf_size : attribute_bytes (ScopeRecord.attributes r) ≤ MAX_SCOPE_ATTRIBUTE_BYTES;
}.

Section bounds.
Context `{AttributeJson}.

Lemma check_record_bounds_ok seen r :
  check_record_bounds seen r = Ok tt → valid_fields r ∧ ScopeRecord.scope_ref r ∉ seen.
Proof.
  unfold check_record_bounds. intros Hok.
  repeat match goal with
  | H : result_bind _ _ = Ok _ |- _ => apply result_bind_Ok_inv in H as ([] & ? & H)
  | H : (if ?b then Err _ else _) = Ok _ |- _ => destruct b eqn:?; [discriminate H|]
  end.
  split; [|done]. split; try done; [|lia].
  intros Hr. rewrite Hr in *. done.
Qed.

Lemma check_records_bounds_ok seen rs :
  check_records_bounds seen rs = Ok tt →
  NoDup (ScopeRecord.scope_ref <$> rs) ∧ Forall valid_fields rs ∧
  Forall (λ r, ScopeRecord.scope_ref r ∉ seen) rs.
Proof.
  revert seen; induction rs as [|r rs IH]; intros seen; simpl; [repeat constructor|].
  intros ([] & Hr%check_record_bounds_ok & Hrs)%result_bind_Ok_inv.
  destruct Hr as [Hv Hnew], (IH _ Hrs) as (Hnd & Hall & Hseen). rewrite Forall_forall in Hseen.
  split_and!; [|by constructor|constructor; [done|]].
  - apply NoDup_cons. split; [|done]. intros (r' & Heq & Hin)%list_elem_of_fmap.
    specialize (Hseen r' Hin). set_solver.
  - apply Forall_forall. set_solver.
Qed.

Lemma check_sync_bounds_ok rs :
  check_sync_bounds rs = Ok tt →
  NoDup (ScopeRecord.scope_ref <$> rs) ∧ Forall valid_fields rs ∧
  Z.of_nat (length rs) ≤ MAX_LIVE_SCOPES_PER_OWNER.
Proof.
  unfold check_sync_bounds. destruct (_ <? _) eqn:E; [discriminate|].
  intros (? & ? & _)%check_records_bounds_ok. split_and!; [done..|lia].
Qed.
End bounds.

(** ** Staging *)

Lemma enumerate_fst {A} (l : list A) : (enumerate l).*1 = seq 0 (length l).
Proof.
  unfold enumerate. rewrite fmap_imap. apply list_eq. intros i.
  rewrite list_lookup_imap. destruct (decide (i < length l)%nat) as [Hi|Hi].
  - rewrite lookup_seq_lt by done. apply lookup_lt_is_Some in Hi as [x ->]. done.
  - rewrite lookup_seq_ge, lookup_ge_None_2 by lia. done.
Qed.

Lemma enumerate_snd {A} (l : list A) : (enumerate l).*2 = l.
Proof.
  unfold enumerate. rewrite fmap_imap. apply list_eq. intros i.
  rewrite list_lookup_imap. by destruct (l !! i).
Qed.

Section staging.
Context (h : Heap.t) (state : OwnerScopes.t) (authorized : bool) (now : Z).

Abbreviation held x := (OwnerScopes.live state !! x).

(** The code a record is refused with on its own, if any. *)
Definition own_refusal (prepared : gmap nat string) (i : nat) (r : ScopeRecord.t)
    : option string :=
  or_else (prepared !! i) (
  or_else (record_refusal r (held (ScopeRecord.scope_ref r)) (OwnerScopes.tombstones state)
             authorized now)
          (idle_refusal h r (held (ScopeRecord.scope_ref r)))).

(** What staging leaves at the record's ref. *)
Definition staged_at (prepared : gmap nat string) (next : gmap string ScopeRecord.t)
    (i : nat) (r : ScopeRecord.t) : option ScopeRecord.t :=
  match own_refusal prepared i r with
  | Some _ => or_else (LiveScope.record <$> held (ScopeRecord.scope_ref r))
                      (next !! ScopeRecord.scope_ref r)
  | None => Some (ScopeRecord.without_idle_condition r)
  end.

Lemma stage_fold prepared next entries :
  NoDup entries.*1 → NoDup (ScopeRecord.scope_ref <$> entries.*2) →
  let '(refusals, next') := foldl (stage_record h state authorized now) (prepared, next) entries in
  (∀ i r, (i, r) ∈ entries → refusals !! i = own_refusal prepared i r ∧
     next' !! ScopeRecord.scope_ref r = staged_at prepared next i r) ∧
  (∀ i, i ∉ entries.*1 → refusals !! i = prepared !! i) ∧
  (∀ x, x ∉ ScopeRecord.scope_ref <$> entries.*2 → next' !! x = next !! x).
Proof.
  revert prepared next; induction entries as [|[i r] entries IH]; intros prepared next Hi Hx.
  { simpl. split_and!; [set_solver|done..]. }
  rewrite fmap_cons, NoDup_cons in Hi. rewrite !fmap_cons, NoDup_cons in Hx.
  destruct Hi as [Hinew Hi], Hx as [Hxnew Hx]. cbn [fst snd] in *. cbn [foldl].
  set (acc := stage_record h state authorized now (prepared, next) (i, r)).
  assert (acc.1 !! i = own_refusal prepared i r ∧
          acc.2 !! ScopeRecord.scope_ref r = staged_at prepared next i r ∧
          (∀ j, j ≠ i → acc.1 !! j = prepared !! j) ∧
          (∀ y, y ≠ ScopeRecord.scope_ref r → acc.2 !! y = next !! y)) as (Ha1 & Ha2 & Ha3 & Ha4).
  { unfold acc, stage_record, staged_at. fold (own_refusal prepared i r).
    destruct (own_refusal prepared i r) as [code|] eqn:Hown; simpl.
    - rewrite lookup_insert_eq. split_and!; [done| | |].
      + destruct (held _); simpl; [by rewrite lookup_insert_eq|done].
      + intros. by rewrite lookup_insert_ne.
      + intros. destruct (held _); [by rewrite lookup_insert_ne|done].
    - rewrite lookup_insert_eq. split_and!; [|done..|].
      + unfold own_refusal in Hown. by destruct (prepared !! i).
      + intros. by rewrite lookup_insert_ne. }
  clearbody acc. destruct acc as [prepared' next']; simpl in *.
  specialize (IH prepared' next' Hi Hx). destruct (foldl _ _ _) as [refusals next''].
  destruct IH as (IH1 & IH2 & IH3). split_and!.
  - intros j r' [[= -> ->]|Hin]%elem_of_cons; [by rewrite IH2, IH3 by done|].
    assert (j ≠ i) as Hj by (intros ->; apply Hinew; apply list_elem_of_fmap; by exists (i, r')).
    assert (ScopeRecord.scope_ref r' ≠ ScopeRecord.scope_ref r) as Hy.
    { intros Heq. apply Hxnew. rewrite <-Heq. apply list_elem_of_fmap_2.
      apply list_elem_of_fmap. by exists (j, r'). }
    destruct (IH1 j r' Hin) as [-> ->]. unfold staged_at, own_refusal. by rewrite Ha3, Ha4.
  - intros j [? ?]%not_elem_of_cons. by rewrite IH2, Ha3.
  - intros y [? ?]%not_elem_of_cons. by rewrite IH3, Ha4.
Qed.
End staging.

(** ** The set a call starts from *)

Section initial.
Context (state : OwnerScopes.t).

Definition ends_ref (ends : list ScopeEnd.t) (x : string) : bool :=
  existsb (λ e, bool_decide (ScopeEnd.scope_ref e = x)
                && is_some_and (λ held, ScopeRecord.scope_epoch (LiveScope.record held)
                                        =? ScopeEnd.scope_epoch e)
                               (OwnerScopes.live state !! x)) ends.

Lemma initial_next_lookup is_apply ends x :
  initial_next state is_apply (end_result state <$> ends) !! x
  = if is_apply && negb (ends_ref ends x)
    then LiveScope.record <$> (OwnerScopes.live state !! x) else None.
Proof.
  unfold initial_next.
  set (m0 := if is_apply then _ else ∅).
  assert (m0 !! x = if is_apply then LiveScope.record <$> (OwnerScopes.live state !! x) else None)
    as Hm0 by (unfold m0; destruct is_apply; [apply lookup_fmap|apply lookup_empty]).
  clearbody m0. revert m0 Hm0. induction ends as [|e ends IH]; intros m0 Hm0.
  { simpl. rewrite Hm0. by destruct is_apply. }
  cbn [fmap list_fmap foldl ends_ref existsb]. fold (ends_ref ends x).
  destruct (decide (ScopeEnd.scope_ref e = x)) as [Hx|Hx].
  - rewrite bool_decide_eq_true_2 by done. unfold end_result at 2; simpl. rewrite Hx.
    destruct (is_some_and _ (OwnerScopes.live state !! x)) eqn:Hl; simpl.
    + rewrite andb_false_r. clear IH Hm0.
      assert (delete x m0 !! x = None) as Hnone by apply lookup_delete_eq.
      revert Hnone. generalize (delete x m0). induction ends as [|e' ends IH]; intros m1 Hm1; [done|].
      simpl. apply IH. case_decide; [|done]. by apply lookup_delete_None; right.
    + by apply IH.
  - rewrite bool_decide_eq_false_2 by done. simpl. apply IH. unfold end_result; simpl.
    case_decide; [|done]. by rewrite lookup_delete_ne.
Qed.
End initial.

(** ** What becomes of each ref *)

Section fates.
Context `{AttributeJson}.
Context (t : ScopeTable) (h : Heap.t) (owner : string) (state : OwnerScopes.t) (now : Z)
  (c : ScopeChange).

(** A ref of the owner ends up as it was held, or gone, or as a record of the
    call that passed every check. *)
Inductive fate (s : Settle.t) (x : string) : Prop :=
  | Kept :
      Settle.next s !! x = LiveScope.record <$> (OwnerScopes.live state !! x) →
      Settle.link_states s !! x = None → fate s x
  | Dropped :
      Settle.next s !! x = None → Settle.link_states s !! x = None →
      x ∉ ScopeRecord.scope_ref <$> records c →
      (∀ ends, change_end c = Some ends → ends_ref state ends x = true) → fate s x
  | Accepted i r :
      records c !! i = Some r → ScopeRecord.scope_ref r = x →
      Settle.refusals s !! i = None →
      own_refusal h state (owner_authorized t owner) now (prepared_refusals c) i r = None →
      Settle.next s !! x = Some (ScopeRecord.without_idle_condition r) →
      (is_new_link state r = true →
       link_checked t owner (Settle.next s) (Settle.link_states s) r) →
      (is_new_link state r = false → Settle.link_states s !! x = None) →
      no_cycle_through t owner (Settle.next s) (Settle.link_states s) r → fate s x.

(** The records refused, with their codes. *)
Definition refused_as (s : Settle.t) : Prop :=
  ∀ i r, records c !! i = Some r →
    match own_refusal h state (owner_authorized t owner) now (prepared_refusals c) i r with
    | Some code => Settle.refusals s !! i = Some code
    | None => True
    end.

Lemma settle_fates :
  NoDup (ScopeRecord.scope_ref <$> records c) →
  let end_results := end_result state <$> default [] (change_end c) in
  let '(refusals, next) :=
    stage_records h state (owner_authorized t owner) now (records c) (prepared_refusals c)
      (initial_next state (is_some (change_end c)) end_results) in
  ∃ s, settle_links t owner state (records c) refusals next = Some s ∧
       (∀ x, fate s x) ∧ refused_as s.
Proof.
  intros Hrefs end_results. unfold stage_records.
  pose proof (stage_fold h state (owner_authorized t owner) now (prepared_refusals c)
    (initial_next state (is_some (change_end c)) end_results) (enumerate (records c))) as Hst.
  rewrite enumerate_fst, enumerate_snd in Hst. specialize (Hst (NoDup_seq _ _) Hrefs).
  destruct (foldl _ _ _) as [refusals next]. destruct Hst as (Hrec & _ & Hoth).
  destruct (settle_loop_spec t owner state (records c) Hrefs refusals next (S (length (records c)))
    (Settle.mk (seq 0 (length (records c))) (replicate (length (records c)) true) refusals ∅ next))
    as (s & Hs & Hinv & Hpend & Hcyc).
  { split; simpl; [apply length_replicate| |apply NoDup_seq| |by intros; rewrite lookup_empty|done].
    - intros i. rewrite lookup_replicate, elem_of_seq. split; [intros [_ ?]|split; [done|]]; lia.
    - intros i r Hi. destruct (Hrec i r) as [Hr Hn]; [by apply elem_of_enumerate|].
      unfold record_settled; simpl. rewrite lookup_empty, Hr, Hn. unfold staged_at.
      destruct (own_refusal _ _ _ _ _ _ _) as [code|].
      + unfold end_results. rewrite initial_next_lookup.
        destruct (OwnerScopes.live state !! _); simpl; [done|]. by destruct (_ && _).
      + split_and!; [done..|]. left. apply elem_of_seq. apply lookup_lt_Some in Hi. lia. }
  { apply Nat.lt_succ_r. transitivity (size (set_seq 0 (length (records c)) : gset nat)).
    - apply subseteq_size. unfold unrefused. set_solver.
    - by rewrite size_set_seq. }
  exists s. split; [done|]. split.
  - intros x. destruct (decide (x ∈ ScopeRecord.scope_ref <$> records c)) as [Hx|Hx].
    + apply list_elem_of_fmap in Hx as (r & -> & [i Hi]%list_elem_of_lookup).
      pose proof (inv_record _ _ _ _ _ _ _ _ Hinv i r Hi) as Hset.
      destruct (Hrec i r) as [Hr _]; [by apply elem_of_enumerate|].
      unfold record_settled in Hset. destruct (Settle.refusals s !! i) as [code|] eqn:Hri.
      * destruct Hset. by apply Kept.
      * destruct Hset as (Hnext & Hold & Hnew). eapply Accepted; eauto.
        -- rewrite <-Hr. destruct (refusals !! i) eqn:Hri'; [|done].
           by rewrite (lookup_weaken _ _ _ _ Hri' (inv_refusals _ _ _ _ _ _ _ _ Hinv)) in Hri.
        -- intros Hl. rewrite Hpend in Hnew. destruct (Hnew Hl) as [?|[?|?]]; [set_solver|done..].
    + destruct (inv_other _ _ _ _ _ _ _ _ Hinv x Hx) as [Hn Hl].
      rewrite Hoth in Hn by done. unfold end_results in Hn. rewrite initial_next_lookup in Hn.
      destruct (change_end c) as [ends|] eqn:He; simpl in Hn.
      * destruct (ends_ref state ends x) eqn:Hends; [|by apply Kept].
        apply Dropped; [done..|]. intros ends' Hends'. congruence.
      * apply Dropped; [done..|]. congruence.
  - intros i r Hi. destruct (Hrec i r) as [Hr _]; [by apply elem_of_enumerate|].
    destruct (own_refusal _ _ _ _ _ _ _) as [code|]; [|done].
    by apply (lookup_weaken _ _ _ _ Hr (inv_refusals _ _ _ _ _ _ _ _ Hinv)).
Qed.
End fates.

(** ** Committing *)

(** Only the allocation pointer of the heap moves. *)
Definition heap_grows (h h' : Heap.t) : Prop :=
  Heap.counters h' = Heap.counters h ∧ Heap.flags h' = Heap.flags h ∧
  Heap.sets h' = Heap.sets h ∧ Heap.leases h' = Heap.leases h ∧
  (Heap.next_loc h ≤ Heap.next_loc h')%positive.

Lemma heap_grows_refl h : heap_grows h h.
Proof. split_and!; [done..|lia]. Qed.

Lemma heap_grows_trans h1 h2 h3 : heap_grows h1 h2 → heap_grows h2 h3 → heap_grows h1 h3.
Proof. unfold heap_grows. intros (?&?&?&?&?) (?&?&?&?&?). split_and!; [congruence..|lia]. Qed.

Lemma heap_grows_alloc h : heap_grows h (Heap.alloc h).2.
Proof. split_and!; [done..|simpl; lia]. Qed.

Create HintDb scopes.
#[export] Hint Resolve heap_grows_refl heap_grows_trans heap_grows_alloc : scopes.

Section commit.
Context (old : gmap string LiveScope.t) (ls : gmap string ParentState.t).

(** [room]: the version counter is far enough from its width not to wrap. *)
Context (room : Prop).

(** The version counter moved from [lo] to [hi], giving [v]. *)
Definition fresh_version (lo hi v : Z) : Prop := room → lo < v ≤ hi.

(** The scope committed for record [rec] at ref [x]. *)
Record committed (lo hi : Z) (h h' : Heap.t) (x : string) (rec : ScopeRecord.t)
    (s : LiveScope.t) : Prop := {
  com_record : LiveScope.record s = rec;
  com_parent : LiveScope.parent_state s
               = committed_parent_state ls x rec (continued old x rec);
  com_cells :
    match continued old x rec with
    | Some held =>
        LiveScope.binds s = LiveScope.binds held ∧
        LiveScope.presence s = LiveScope.presence held ∧
        LiveScope.served_modules s = LiveScope.served_modules held
    | None =>
        LiveScope.presence s = ∅ ∧
        (Heap.next_loc h ≤ LiveScope.binds s < LiveScope.served_modules s)%positive ∧
        (LiveScope.served_modules s < Heap.next_loc h')%positive
    end;
  com_version :
    (∃ held, continued old x rec = Some held ∧ LiveScope.record held = rec ∧
       LiveScope.parent_state held = LiveScope.parent_state s ∧
       LiveScope.version s = LiveScope.version held) ∨
    fresh_version lo hi (LiveScope.version s);
}.

Lemma committed_weaken lo lo' hi hi' h0 h h' h'' x rec s :
  (room → lo' ≤ lo ∧ hi ≤ hi') →
  (Heap.next_loc h0 ≤ Heap.next_loc h)%positive →
  (Heap.next_loc h' ≤ Heap.next_loc h'')%positive →
  committed lo hi h h' x rec s → committed lo' hi' h0 h'' x rec s.
Proof.
  intros Hroom Hh0 Hh [Hr Hp Hc Hv]. split; [done..| |].
  - destruct (continued old x rec); [done|]. destruct Hc as (? & ? & ?). split_and!; [done|lia..].
  - destruct Hv as [?|Hv]; [by left|right]. intros HR. specialize (Hv HR).
    destruct (Hroom HR). lia.
Qed.

Lemma next_version_small lo : 0 ≤ lo → lo + 1 < 2 ^ 64 → next_version lo = lo + 1.
Proof. intros. unfold next_version. apply wrap_id. unfold in_width. lia. Qed.

Lemma commit_record_spec lo h live x rec :
  (room → 0 ≤ lo ∧ lo + 1 < 2 ^ 64) →
  let '(hi, h', live') := commit_record old ls (lo, h, live) (x, rec) in
  (room → lo ≤ hi ≤ lo + 1) ∧ heap_grows h h' ∧
  ∃ s, live' = <[x := s]> live ∧ committed lo hi h h' x rec s.
Proof.
  intros Hroom. unfold commit_record.
  assert (room → next_version lo = lo + 1) as Hnv.
  { intros HR. apply next_version_small; by apply Hroom. }
  destruct (continued old x rec) as [held|] eqn:Hheld; cbn [is_some_and].
  - destruct (_ && _) eqn:Hsame.
    + apply andb_prop in Hsame as [Hr%bool_decide_eq_true Hp%bool_decide_eq_true].
      split; [lia|]. split; [auto with scopes|]. eexists. split; [done|].
      split; simpl; [done|by rewrite Hheld|by rewrite Hheld|].
      left. by exists held.
    + split; [intros HR; rewrite Hnv by done; lia|]. split; [auto with scopes|].
      eexists. split; [done|].
      split; simpl; [done|by rewrite Hheld|by rewrite Hheld|].
      right. intros HR. rewrite Hnv by done. lia.
  - split; [intros HR; rewrite Hnv by done; lia|]. split; [split_and!; [done..|simpl; lia]|].
    eexists. split; [done|].
    split; simpl; [done|by rewrite Hheld| |].
    + rewrite Hheld. split_and!; [done|lia..].
    + right. intros HR. rewrite Hnv by done. lia.
Qed.

Lemma commit_fold lo h live entries :
  (room → 0 ≤ lo ∧ lo + Z.of_nat (length entries) < 2 ^ 64) → NoDup entries.*1 →
  let '(hi, h', live') := foldl (commit_record old ls) (lo, h, live) entries in
  (room → lo ≤ hi ≤ lo + Z.of_nat (length entries)) ∧ heap_grows h h' ∧
  (∀ x rec, (x, rec) ∈ entries → ∃ s, live' !! x = Some s ∧ committed lo hi h h' x rec s) ∧
  (∀ x, x ∉ entries.*1 → live' !! x = live !! x).
Proof.
  revert lo h live; induction entries as [|[x rec] entries IH]; intros lo h live Hroom Hnd.
  { simpl. split; [lia|]. split; [auto with scopes|]. split; [set_solver|done]. }
  rewrite fmap_cons, NoDup_cons in Hnd. destruct Hnd as [Hx Hnd]. cbn [foldl fst length] in *.
  pose proof (commit_record_spec lo h live x rec) as Hone.
  destruct (commit_record old ls (lo, h, live) (x, rec)) as [[mid h1] live1].
  destruct Hone as (Hmid & Hh1 & s & -> & Hs); [intros HR; specialize (Hroom HR); lia|].
  specialize (IH mid h1 (<[x := s]> live)). destruct (foldl _ _ _) as [[hi h2] live2].
  destruct IH as (Hhi & Hh2 & Hin & Hout);
    [intros HR; specialize (Hroom HR); specialize (Hmid HR); lia|done|].
  assert (heap_grows h h2) as Hh.
  { eauto with scopes. }
  assert (room → lo ≤ mid ∧ mid ≤ hi) as Hlo.
  { intros HR. specialize (Hmid HR). specialize (Hhi HR). lia. }
  split; [intros HR; specialize (Hmid HR); specialize (Hhi HR); lia|]. split; [done|]. split.
  - intros y rec' [[= -> ->]|Hy]%elem_of_cons.
    + exists s. rewrite Hout, lookup_insert_eq by done. split; [done|].
      eapply committed_weaken; [| | |done]; [intros HR; specialize (Hlo HR); lia|done|apply Hh2].
    + destruct (Hin y rec' Hy) as (s' & ? & Hs'). exists s'. split; [done|].
      eapply committed_weaken; [| | |done]; [intros HR; specialize (Hlo HR); lia|apply Hh1|done].
  - intros y [Hyx Hy]%not_elem_of_cons. by rewrite Hout, lookup_insert_ne by done.
Qed.
End commit.

(** Scopes that continue none get cells of their own. *)
Definition distinct_cells (old live : gmap string LiveScope.t)
    (entries : list (string * ScopeRecord.t)) : Prop :=
  ∀ x y rx ry sx sy, x ≠ y → (x, rx) ∈ entries → (y, ry) ∈ entries →
    continued old x rx = None → continued old y ry = None →
    live !! x = Some sx → live !! y = Some sy →
    LiveScope.binds sx ≠ LiveScope.binds sy ∧
    LiveScope.served_modules sx ≠ LiveScope.served_modules sy.

Lemma commit_fold_distinct old ls lo h live entries :
  NoDup entries.*1 →
  distinct_cells old (foldl (commit_record old ls) (lo, h, live) entries).2 entries.
Proof.
  revert lo h live; induction entries as [|[x rec] entries IH]; intros lo h live Hnd.
  { intros x y rx ry sx sy _ Hx. set_solver. }
  rewrite fmap_cons, NoDup_cons in Hnd. destruct Hnd as [Hx Hnd]. cbn [foldl fst] in *.
  pose proof (commit_record_spec old ls False lo h live x rec ltac:(done)) as Hone.
  destruct (commit_record old ls (lo, h, live) (x, rec)) as [[mid h1] live1].
  destruct Hone as (_ & _ & s & -> & Hs).
  specialize (IH mid h1 (<[x := s]> live) Hnd).
  pose proof (commit_fold old ls False mid h1 (<[x := s]> live) entries ltac:(done) Hnd) as Hrest.
  destruct (foldl _ _ _) as [[hi h2] live2]; simpl in *.
  destruct Hrest as (_ & _ & Hin & Hout).
  assert (live2 !! x = Some s) as Hsx by (by rewrite Hout, lookup_insert_eq).
  assert (∀ y ry sy, (y, ry) ∈ entries → continued old x rec = None → continued old y ry = None →
    live2 !! y = Some sy →
    (LiveScope.binds s < LiveScope.binds sy)%positive ∧
    (LiveScope.served_modules s < LiveScope.served_modules sy)%positive) as Hfirst.
  { intros y ry sy Hy Hcx Hcy Hsy. destruct (Hin y ry Hy) as (sy' & Hsy' & Hcom).
    rewrite Hsy in Hsy'. injection Hsy' as <-.
    pose proof (com_cells _ _ _ _ _ _ _ _ _ _ Hs) as Hc1. rewrite Hcx in Hc1.
    pose proof (com_cells _ _ _ _ _ _ _ _ _ _ Hcom) as Hc2. rewrite Hcy in Hc2. lia. }
  intros y z ry rz sy sz Hne Hy Hz Hcy Hcz Hsy Hsz.
  apply elem_of_cons in Hy as [[= -> ->]|Hy], Hz as [[= -> ->]|Hz]; [done| | |by eapply (IH y z)].
  - rewrite Hsx in Hsy. injection Hsy as <-. destruct (Hfirst z rz sz Hz Hcy Hcz Hsz). lia.
  - rewrite Hsx in Hsz. injection Hsz as <-. destruct (Hfirst y ry sy Hy Hcz Hcy Hsy). lia.
Qed.

(** ** The whole call on its owner's state *)

Section sync_owner.
Context `{AttributeJson}.
Context (t : ScopeTable) (h : Heap.t) (owner : string) (original : OwnerScopes.t)
  (connection_id : Z) (is_current_launch : Z → bool) (now : Z) (c : ScopeChange).

(** An accepted call: [state] is the owner's state once expired scopes are
    gone, [s] the settled set, [state'] what is stored. *)
Record accepted (applied : SyncApplied.t) (state' : OwnerScopes.t) (version : Z) (h' : Heap.t)
    (state : OwnerScopes.t) (expired : list ScopeExpired.t) (s : Settle.t) : Prop := {
  acc_guards : sync_guards original connection_id is_current_launch c = Ok tt;
  acc_expire : expire_owner owner original now = (state, expired);
  acc_fate x : fate t h owner state now c s x;
  acc_refused : refused_as t h owner state now c s;
  acc_size : Z.of_nat (size (Settle.next s)) ≤ MAX_LIVE_SCOPES_PER_OWNER;
  acc_live x :
    match Settle.next s !! x with
    | Some rec => ∃ sc, OwnerScopes.live state' !! x = Some sc ∧
        committed (OwnerScopes.live state) (Settle.link_states s)
          (0 ≤ last_version t ∧ last_version t + MAX_LIVE_SCOPES_PER_OWNER < 2 ^ 64)
          (last_version t) version h h' x rec sc
    | None => OwnerScopes.live state' !! x = None
    end;
  acc_distinct x y sx sy : x ≠ y →
    OwnerScopes.live state' !! x = Some sx → OwnerScopes.live state' !! y = Some sy →
    continued (OwnerScopes.live state) x (LiveScope.record sx) = None →
    continued (OwnerScopes.live state) y (LiveScope.record sy) = None →
    LiveScope.binds sx ≠ LiveScope.binds sy ∧
    LiveScope.served_modules sx ≠ LiveScope.served_modules sy;
  acc_tombstones : OwnerScopes.tombstones state'
    = insert_all (OwnerScopes.tombstones state)
        (ended_grave <$> omap (buried (Settle.next s)) (btree_iter (OwnerScopes.live state)));
  acc_authority : OwnerScopes.authority state'
    = Some (SyncAuthority.mk connection_id (generation c));
  acc_synced : OwnerScopes.synced state' = true;
  acc_heap : heap_grows h h';
  acc_version :
    0 ≤ last_version t ∧ last_version t + MAX_LIVE_SCOPES_PER_OWNER < 2 ^ 64 →
    last_version t ≤ version ≤ last_version t + MAX_LIVE_SCOPES_PER_OWNER;
  acc_applied : applied = SyncApplied.mk
    (record_result (Settle.refusals s) (OwnerScopes.live state) (OwnerScopes.live state')
       <$> enumerate (records c))
    (end_result state <$> default [] (change_end c))
    (((λ e, ScopeEnded.mk (ScopeExpired.scope_ref e) (ScopeExpired.scope_epoch e)) <$> expired)
     ++ omap (buried (Settle.next s)) (btree_iter (OwnerScopes.live state)))
    (omap (tag_change_of owner (OwnerScopes.live original) (OwnerScopes.live state'))
       (btree_set_iter (dom (OwnerScopes.live original) ∪ dom (OwnerScopes.live state'))))
    expired;
}.

Lemma sync_guards_refs :
  sync_guards original connection_id is_current_launch c = Ok tt →
  NoDup (ScopeRecord.scope_ref <$> records c) ∧ Forall valid_fields (records c).
Proof.
  unfold sync_guards. intros (b & _ & Hg)%result_bind_Ok_inv.
  destruct (_ && _); [discriminate|]. destruct (_ && _); [discriminate|].
  apply result_bind_Ok_inv in Hg as ([] & Hb%check_sync_bounds_ok & _). tauto.
Qed.

(** The call always answers: no panic, and both loops terminate. *)
Lemma sync_owner_cases :
  (∃ code, sync_owner t h owner original connection_id is_current_launch now c = Some (Err code)) ∨
  (∃ applied state' version h' state expired s,
     sync_owner t h owner original connection_id is_current_launch now c
     = Some (Ok (applied, state', version, h')) ∧
     accepted applied state' version h' state expired s).
Proof.
  unfold sync_owner.
  destruct (sync_guards _ _ _ _) as [[]|code] eqn:Hg; [|left; by eexists].
  destruct (sync_guards_refs Hg) as [Hrefs _].
  destruct (expire_owner owner original now) as [state expired] eqn:Hexp.
  pose proof (settle_fates t h owner state now c Hrefs) as Hs. cbv zeta in Hs.
  destruct (stage_records _ _ _ _ _ _ _) as [refusals next].
  destruct Hs as (s & -> & Hfate & Href).
  destruct (_ <? _) eqn:Hsize; [left; by eexists|]. apply Z.ltb_ge in Hsize. right.
  unfold commit_owner. rewrite bury_fold.
  pose proof (commit_fold (OwnerScopes.live state) (Settle.link_states s)
    (0 ≤ last_version t ∧ last_version t + MAX_LIVE_SCOPES_PER_OWNER < 2 ^ 64)
    (last_version t) h ∅ (btree_iter (Settle.next s))) as Hcom.
  rewrite length_btree_iter in Hcom.
  pose proof (commit_fold_distinct (OwnerScopes.live state) (Settle.link_states s) (last_version t) h ∅
    (btree_iter (Settle.next s)) (NoDup_fst_btree_iter _)) as Hdist.
  destruct (foldl _ _ (btree_iter (Settle.next s))) as [[version h'] live]. simpl in Hdist.
  destruct Hcom as (Hver & Hgrow & Hin & Hout); [lia|apply NoDup_fst_btree_iter|].
  assert (∀ x sx, live !! x = Some sx → (x, LiveScope.record sx) ∈ btree_iter (Settle.next s)) as Hback.
  { intros x sx Hsx. destruct (Settle.next s !! x) as [rec|] eqn:Hx.
    - apply elem_of_btree_iter in Hx. destruct (Hin x rec Hx) as (sx' & ? & Hcom).
      assert (sx' = sx) as -> by congruence. by rewrite (com_record _ _ _ _ _ _ _ _ _ _ Hcom).
    - rewrite Hout, lookup_empty in Hsx; [done|]. intros ([y rec] & -> & Hel)%list_elem_of_fmap.
      apply elem_of_btree_iter in Hel. simpl in Hx. congruence. }
  eexists _, _, _, _, state, expired, s. split; [reflexivity|]. split; try done; simpl.
  - intros x. destruct (Settle.next s !! x) as [rec|] eqn:Hx.
    + by apply Hin, elem_of_btree_iter.
    + rewrite Hout, lookup_empty; [done|]. intros ([y rec] & Hy & Hel)%list_elem_of_fmap.
      simpl in Hy. subst. apply elem_of_btree_iter in Hel. congruence.
  - intros x y sx sy Hne Hsx Hsy Hcx Hcy.
    exact (Hdist x y _ _ sx sy Hne (Hback x sx Hsx) (Hback y sy Hsy) Hcx Hcy Hsx Hsy).
  - intros HR. specialize (Hver HR). lia.
Qed.
End sync_owner.
