(* ===== verification/ScopeRefresh.v ===== *)
(** * Settling links after a change

    What [refresh_links_to] does to the table and to the list of tag changes. *)

From S2P Require Import Prelude Collections Tokens ScopeTypes Scopes ScopeLinks.

(** The live scope at an owner and ref, and its published tag. *)
Definition scope_at (t : ScopeTable) (k : string * string) : option LiveScope.t :=
  state ← owners t !! k.1; OwnerScopes.live state !! k.2.

Definition tag_at (t : ScopeTable) (k : string * string) : option ScopeTag.t :=
  LiveScope.tag <$> scope_at t k.

(** Everything about an owner but its live scopes. *)
Definition owner_frame (t : ScopeTable) (o : string)
    : option (option SyncAuthority.t * bool * Tombstones.t) :=
  (λ st, (OwnerScopes.authority st, OwnerScopes.synced st, OwnerScopes.tombstones st))
    <$> owners t !! o.

(** [t'] holds the scopes of [t] with other link states and versions only. *)
Definition same_content (s s' : LiveScope.t) : Prop :=
  LiveScope.record s' = LiveScope.record s ∧ LiveScope.binds s' = LiveScope.binds s ∧
  LiveScope.presence s' = LiveScope.presence s ∧
  LiveScope.served_modules s' = LiveScope.served_modules s.

Definition same_records (t t' : ScopeTable) : Prop :=
  authority_owners t' = authority_owners t ∧ (∀ o, owner_frame t' o = owner_frame t o) ∧
  ∀ k, option_Forall2 same_content (scope_at t k) (scope_at t' k).

Lemma same_records_refl t : same_records t t.
Proof. split_and!; [done..|]. intros k. by destruct (scope_at t k); constructor. Qed.

Lemma same_records_trans t1 t2 t3 :
  same_records t1 t2 → same_records t2 t3 → same_records t1 t3.
Proof.
  intros (Ha & Hf & Hs) (Ha' & Hf' & Hs'). split_and!; [congruence|congruence|].
  intros k. specialize (Hs k). specialize (Hs' k).
  inversion Hs as [s1 s2 H12|]; simplify_eq; inversion Hs' as [s2' s3 H23|]; simplify_eq;
    try congruence; constructor.
  assert (s2' = s2) as -> by congruence. unfold same_content in *. intuition congruence.
Qed.

Lemma lookup_scope_at t o r : lookup t None o r = LiveScope.record <$> scope_at t (o, r).
Proof. unfold lookup, scope_at; simpl. by destruct (owners t !! o). Qed.

Lemma same_records_lookup t t' o r : same_records t t' → lookup t' None o r = lookup t None o r.
Proof.
  intros (_ & _ & Hs). rewrite !lookup_scope_at. specialize (Hs (o, r)).
  inversion Hs as [s1 s2 [Heq _]|]; [|done]. simpl. by rewrite Heq.
Qed.

(** ** One update *)

Definition update_key (u : string * string * ParentState.t) : string * string := u.1.

Definition updated (v : Z) (s : LiveScope.t) (st : ParentState.t) : LiveScope.t :=
  LiveScope.mk (LiveScope.record s) v (Some st) (LiveScope.binds s) (LiveScope.presence s)
    (LiveScope.served_modules s).

Lemma scope_at_None_owner t k : owners t !! k.1 = None → scope_at t k = None.
Proof. unfold scope_at. by intros ->. Qed.

Lemma apply_link_update_spec t tc k st s :
  scope_at t k = Some s →
  let '(t', tc') := apply_link_update (t, tc) (k, st) in
  last_version t' = next_version (last_version t) ∧
  authority_owners t' = authority_owners t ∧ (∀ o, owner_frame t' o = owner_frame t o) ∧
  scope_at t' k = Some (updated (last_version t') s st) ∧
  (∀ k', k' ≠ k → scope_at t' k' = scope_at t k') ∧
  tc' = merge_tag_change tc
          (ScopeTagChange.mk k.1 k.2 (Some (LiveScope.tag s))
             (Some (LiveScope.tag (updated (last_version t') s st))) (settle_drain st)).
Proof.
  destruct k as [o x]. unfold scope_at; simpl. intros Hs.
  destruct (owners t !! o) as [state|] eqn:Ho; simplify_eq/=. rewrite Hs.
  cbn [last_version authority_owners owners]. split_and!; try done.
  - intros o'. unfold owner_frame. cbn [owners]. destruct (decide (o' = o)) as [->|Hne].
    + rewrite lookup_insert_eq, Ho. done.
    + by rewrite lookup_insert_ne.
  - rewrite lookup_insert_eq. simpl. by rewrite lookup_insert_eq.
  - intros [o' x'] Hne; simpl. destruct (decide (o' = o)) as [->|Ho'].
    + rewrite lookup_insert_eq, Ho; simpl. rewrite lookup_insert_ne; [done|congruence].
    + by rewrite lookup_insert_ne.
Qed.

(** ** A list of updates *)

Lemma apply_link_updates_spec us t tc :
  NoDup us.*1 → (∀ u, u ∈ us → is_Some (scope_at t u.1)) →
  let t' := (foldl apply_link_update (t, tc) us).1 in
  same_records t t' ∧
  (∀ k st, (k, st) ∈ us → LiveScope.parent_state <$> scope_at t' k = Some (Some st)) ∧
  (∀ k, k ∉ us.*1 → scope_at t' k = scope_at t k).
Proof.
  revert t tc; induction us as [|[k st] us IH]; intros t tc Hnd Hlive t'; cbn [foldl] in t'.
  { split; [apply same_records_refl|]. split; [set_solver|done]. }
  rewrite fmap_cons, NoDup_cons in Hnd. destruct Hnd as [Hk Hnd]. cbn [fst] in *.
  destruct (Hlive (k, st)) as [s Hs]; [set_solver|]. cbn [fst] in Hs.
  pose proof (apply_link_update_spec t tc k st s Hs) as Hone.
  destruct (apply_link_update (t, tc) (k, st)) as [t1 tc1].
  destruct Hone as (_ & Hauth & Hframe & Hsk & Hne & _).
  destruct (IH t1 tc1 Hnd) as (Hsame & Hin & Hout).
  { intros u Hu. rewrite Hne; [apply Hlive; set_solver|].
    intros Hu'. apply Hk. rewrite <-Hu'. by apply list_elem_of_fmap_2. }
  fold t' in Hsame, Hin, Hout. split_and!.
  - eapply same_records_trans; [|done]. split_and!; [done..|]. intros k'.
    destruct (decide (k' = k)) as [->|?].
    + rewrite Hs, Hsk. by constructor.
    + rewrite Hne by done. by apply same_records_refl.
  - intros k' st' [[= -> ->]|Hu]%elem_of_cons; [|by apply Hin]. by rewrite Hout, Hsk by done.
  - intros k' [? ?]%not_elem_of_cons. by rewrite Hout, Hne by done.
Qed.

(** ** The scan *)

Section refresh.
Context `{HashOrder}.
Context (t : ScopeTable) (o : string).

(** The state the refresh leaves a scope's link in. *)
Definition refreshed_state (k : string * string) (s : LiveScope.t) : option ParentState.t :=
  match ScopeRecord.parent (LiveScope.record s) with
  | Some p =>
      if decide (ScopeParent.owner p = reserved o)
      then Some (settle_link t o k.1 k.2 s p) else LiveScope.parent_state s
  | None => LiveScope.parent_state s
  end.

Lemma elem_of_link_updates k st :
  (k, st) ∈ link_updates t o ↔
  ∃ s, scope_at t k = Some s ∧ refreshed_state k s = Some st ∧
       LiveScope.parent_state s ≠ Some st ∧
       ∃ p, ScopeRecord.parent (LiveScope.record s) = Some p ∧ ScopeParent.owner p = reserved o.
Proof.
  destruct k as [ko kx]. unfold link_updates, scope_at, refreshed_state; simpl.
  rewrite list_elem_of_bind. split.
  - intros ([o' state] & Hu & Ho'). apply elem_of_hash_iter in Ho'. simpl in Hu.
    apply list_elem_of_omap in Hu as ([x s] & Hx & Hu). apply elem_of_btree_iter in Hx.
    unfold link_update in Hu. destruct (ScopeRecord.parent _) as [p|] eqn:Hp; simplify_eq/=.
    case_decide as Hpo; simplify_eq. case_decide as Hst; simplify_eq.
    exists s. rewrite Ho'; simpl. rewrite Hp, decide_True by done. split_and!; eauto.
  - intros (s & Hs & Hst & Hne & p & Hp & Hpo). rewrite Hp, decide_True in Hst by done.
    destruct (owners t !! ko) as [state|] eqn:Hko; simplify_eq/=.
    exists (ko, state). split; [|by apply elem_of_hash_iter].
    apply list_elem_of_omap. exists (kx, s). split; [by apply elem_of_btree_iter|].
    unfold link_update. rewrite Hp; simpl. rewrite decide_True by done.
    rewrite decide_False by congruence. congruence.
Qed.

Lemma link_update_key o' e u : link_update t o o' e = Some u → u.1 = (o', e.1).
Proof.
  destruct e as [x s]. unfold link_update. intros Hu.
  destruct (ScopeRecord.parent _); simplify_eq/=. by repeat case_decide; simplify_eq.
Qed.

Lemma NoDup_link_updates : NoDup (link_updates t o).*1.
Proof.
  unfold link_updates. pose proof (NoDup_fst_hash_iter (owners t)) as Hnd. revert Hnd.
  induction (hash_iter (owners t)) as [|[o' state] l IH]; [constructor|].
  rewrite fmap_cons, NoDup_cons, bind_cons, fmap_app, NoDup_app. intros [Hnew Hnd].
  split_and!; [| |by apply IH].
  - apply (NoDup_omap_key _ (λ e, (o', e.1))); [apply link_update_key|].
    replace ((λ e, (o', e.1)) <$> btree_iter (OwnerScopes.live (o', state).2))
      with (pair o' <$> (btree_iter (OwnerScopes.live state)).*1)
      by (by rewrite <-list_fmap_compose).
    apply NoDup_fmap_2; [intros ?? [=]; done|].
    apply NoDup_fst_btree_iter.
  - intros k Hk Hk'. apply list_elem_of_fmap in Hk as (u & -> & Hk), Hk' as (u' & Heq & Hk').
    apply list_elem_of_omap in Hk as (e & _ & Hu%link_update_key).
    apply list_elem_of_bind in Hk' as ([o2 state2] & Hk' & Hl).
    apply list_elem_of_omap in Hk' as (e' & _ & Hu'%link_update_key). simplify_eq/=.
    apply Hnew, list_elem_of_fmap. exists (o2, state2). split; [|done]. simpl. congruence.
Qed.

Lemma link_updates_live u : u ∈ link_updates t o → is_Some (scope_at t u.1).
Proof. destruct u as [k st]. intros (s & Hs & _)%elem_of_link_updates. by eexists. Qed.

(** The table after the refresh: the same records, each link settled. *)
Lemma refresh_spec tc :
  let t' := (refresh_links_to t o tc).1 in
  same_records t t' ∧
  ∀ k s, scope_at t k = Some s →
    ∃ s', scope_at t' k = Some s' ∧ LiveScope.parent_state s' = refreshed_state k s ∧
          (refreshed_state k s = LiveScope.parent_state s → s' = s).
Proof.
  unfold refresh_links_to.
  destruct (apply_link_updates_spec (link_updates t o) t tc NoDup_link_updates link_updates_live)
    as (Hsame & Hin & Hout).
  split; [done|]. intros k s Hs.
  destruct (decide (k ∈ (link_updates t o).*1)) as [Hk|Hk].
  - apply list_elem_of_fmap in Hk as ([k' st] & -> & Hu). pose proof (Hin _ _ Hu) as Hst.
    apply elem_of_link_updates in Hu as (s0 & Hs0 & Hr & Hne & _). simplify_eq/=.
    apply fmap_Some in Hst as (s' & Hs' & Hst). exists s'. rewrite Hr.
    split_and!; [done..|]. congruence.
  - rewrite Hout by done. exists s. split; [done|].
    assert (refreshed_state k s = LiveScope.parent_state s) as Heq; [|by rewrite Heq].
    unfold refreshed_state. destruct (ScopeRecord.parent _) as [p|] eqn:Hp; [|done].
    case_decide as Hpo; [|done]. apply dec_stable. intros Hne. apply Hk.
    apply list_elem_of_fmap. exists (k, settle_link t o k.1 k.2 s p). split; [done|].
    apply elem_of_link_updates. exists s. unfold refreshed_state. rewrite Hp, decide_True by done.
    split_and!; eauto.
Qed.
End refresh.

(** ** The tag changes reported *)

Definition change_key (c : ScopeTagChange.t) : string * string :=
  (ScopeTagChange.owner c, ScopeTagChange.scope_ref c).

(** The list names exactly once each scope whose tag moved from [t0] to [t1],
    with its tag in both; it may name others. *)
Record tags_cover (t0 t1 : ScopeTable) (tc : list ScopeTagChange.t) : Prop := {
  cover_NoDup : NoDup (change_key <$> tc);
  cover_tags c : c ∈ tc →
    ScopeTagChange.before c = tag_at t0 (change_key c) ∧
    ScopeTagChange.after c = tag_at t1 (change_key c);
  cover_all k : tag_at t0 k ≠ tag_at t1 k → k ∈ change_key <$> tc;
}.

Lemma merge_tag_change_keys tc new :
  change_key <$> merge_tag_change tc new
  = if decide (change_key new ∈ change_key <$> tc) then change_key <$> tc
    else (change_key <$> tc) ++ [change_key new].
Proof.
  induction tc as [|c tc IH]; [done|]. cbn [merge_tag_change].
  destruct (decide (ScopeTagChange.owner c = ScopeTagChange.owner new
                    ∧ ScopeTagChange.scope_ref c = ScopeTagChange.scope_ref new)) as [Hc|Hc];
    rewrite !fmap_cons.
  - assert (change_key new = change_key c) as -> by (unfold change_key; destruct Hc; congruence).
    rewrite decide_True by set_solver. done.
  - rewrite IH. assert (change_key new ≠ change_key c) by (unfold change_key; naive_solver).
    destruct (decide (change_key new ∈ change_key <$> tc)).
    + rewrite decide_True; [done|]. apply elem_of_cons. by right.
    + rewrite decide_False; [done|]. by rewrite elem_of_cons; intros [?|?].
Qed.

Lemma elem_of_merge_tag_change tc new c :
  NoDup (change_key <$> tc) → c ∈ merge_tag_change tc new →
  (c ∈ tc ∧ change_key c ≠ change_key new) ∨
  (∃ c0, c0 ∈ tc ∧ change_key c0 = change_key new ∧
     c = ScopeTagChange.mk (ScopeTagChange.owner c0) (ScopeTagChange.scope_ref c0)
           (ScopeTagChange.before c0) (ScopeTagChange.after new)
           (ScopeDrain.widen (ScopeTagChange.drain c0) (ScopeTagChange.drain new))) ∨
  (c = new ∧ change_key new ∉ change_key <$> tc).
Proof.
  induction tc as [|c1 tc IH]; cbn [merge_tag_change].
  { intros _ ->%list_elem_of_singleton. right. right. set_solver. }
  rewrite fmap_cons, NoDup_cons. intros [Hnew Hnd].
  destruct (decide (ScopeTagChange.owner c1 = ScopeTagChange.owner new
                    ∧ ScopeTagChange.scope_ref c1 = ScopeTagChange.scope_ref new)) as [[Ho Hx]|Hc].
  - assert (change_key c1 = change_key new) as Hk by (unfold change_key; congruence).
    intros [->|Hin]%elem_of_cons.
    + right. left. exists c1. split_and!; [left|done|done].
    + left. split; [by right|]. intros Heq. apply Hnew. rewrite Hk, <-Heq.
      by apply list_elem_of_fmap_2.
  - assert (change_key c1 ≠ change_key new) as Hk.
    { unfold change_key. intros [= ? ?]. by apply Hc. }
    intros [->|Hin]%elem_of_cons; [left; split; [left|done]|].
    destruct (IH Hnd Hin) as [[? ?]|[(c0 & ? & ? & ?)|[? ?]]].
    + left. split; [by right|done].
    + right. left. exists c0. split_and!; [by right|done..].
    + right. right. split; [done|]. rewrite elem_of_cons. intros [?|?]; congruence.
Qed.

Lemma apply_link_update_cover t0 t tc k st s :
  scope_at t k = Some s → tags_cover t0 t tc →
  tags_cover t0 (apply_link_update (t, tc) (k, st)).1 (apply_link_update (t, tc) (k, st)).2.
Proof.
  intros Hs [Hnd Htags Hall]. pose proof (apply_link_update_spec t tc k st s Hs) as Hone.
  destruct (apply_link_update (t, tc) (k, st)) as [t1 tc1]; simpl.
  destruct Hone as (_ & _ & _ & Hsk & Hne & ->).
  set (new := ScopeTagChange.mk _ _ _ _ _).
  assert (change_key new = k) as Hkey by (by destruct k).
  assert (ScopeTagChange.after new = tag_at t1 k) as Hafter by (unfold tag_at; by rewrite Hsk).
  assert (∀ k', k' ≠ k → tag_at t1 k' = tag_at t k') as Hother
    by (intros; unfold tag_at; by rewrite Hne).
  split.
  - rewrite merge_tag_change_keys. case_decide; [done|].
    rewrite Permutation_app_comm. by apply NoDup_cons.
  - intros c Hc. destruct (elem_of_merge_tag_change _ _ _ Hnd Hc) as [[Hin Hk]|[Hm|[-> Hk]]].
    + destruct (Htags c Hin) as [? ?]. rewrite Hother by congruence. done.
    + destruct Hm as (c0 & Hin & Hk & ->). destruct (Htags c0 Hin) as [Hb _].
      unfold change_key at 1 2; simpl. fold (change_key c0). split; [done|].
      by rewrite Hk, Hkey, <-Hafter.
    + rewrite Hkey in *. split; [|done]. simpl. symmetry.
      transitivity (tag_at t k); [|unfold tag_at; by rewrite Hs].
      apply dec_stable. intros Hneq. by apply Hk, Hall.
  - intros k' Hneq. rewrite merge_tag_change_keys, Hkey.
    destruct (decide (k' = k)) as [->|Hk']; [case_decide; set_solver|].
    rewrite Hother in Hneq by done. apply Hall in Hneq. case_decide; set_solver.
Qed.

Lemma apply_link_updates_cover us t0 t tc :
  NoDup us.*1 → (∀ u, u ∈ us → is_Some (scope_at t u.1)) → tags_cover t0 t tc →
  tags_cover t0 (foldl apply_link_update (t, tc) us).1 (foldl apply_link_update (t, tc) us).2.
Proof.
  revert t tc; induction us as [|[k st] us IH]; intros t tc Hnd Hlive Hcov; [done|].
  rewrite fmap_cons, NoDup_cons in Hnd. destruct Hnd as [Hk Hnd]. cbn [fst foldl] in *.
  destruct (Hlive (k, st)) as [s Hs]; [set_solver|]. cbn [fst] in Hs.
  pose proof (apply_link_update_cover t0 t tc k st s Hs Hcov) as Hcov'.
  pose proof (apply_link_update_spec t tc k st s Hs) as Hone.
  destruct (apply_link_update (t, tc) (k, st)) as [t1 tc1]. destruct Hone as (_ & _ & _ & _ & Hne & _).
  apply IH; [done| |done]. intros u Hu. rewrite Hne; [apply Hlive; set_solver|].
  intros <-. apply Hk. by apply list_elem_of_fmap_2.
Qed.

Lemma refresh_cover `{HashOrder} t0 t o tc :
  tags_cover t0 t tc →
  tags_cover t0 (refresh_links_to t o tc).1 (refresh_links_to t o tc).2.
Proof.
  apply apply_link_updates_cover; [apply NoDup_link_updates|apply link_updates_live].
Qed.
