(* ===== verification/ScopeInvariant.v ===== *)
(** * Invariants of the scope table

    What holds of the table in every state the daemon can reach: attribute
    rules, epochs against tombstones, bounds, and parent links. *)

From S2P Require Import Prelude Collections Envelope Tokens ScopeTypes Scopes.
From S2P Require Import ScopeTombstones ScopeLinks ScopeSettle ScopeSync ScopeRefresh.

(** ** One scope *)

(** The attribute rules, as the documentation of the fields states them. *)
Record attributes_ok (authorized : bool) (a : ScopeAttributes.t) : Prop := {
  ao_authorized : authorized = true ∨ a = ScopeAttributes.new;
  ao_on_behalf : is_Some (ScopeAttributes.on_behalf_of_agent a) →
    ScopeAttributes.agent_id a = None ∧ ScopeAttributes.delegates a = false ∧
    ScopeAttributes.flow_id a = None;
  ao_delegates : ScopeAttributes.delegates a = true → is_Some (ScopeAttributes.agent_id a);
  ao_run : is_Some (ScopeAttributes.run_id a) →
    (is_Some (ScopeAttributes.agent_id a) ∨ is_Some (ScopeAttributes.on_behalf_of_agent a)) ∧
    ScopeAttributes.flow_id a = None;
  ao_flow : is_Some (ScopeAttributes.flow_version a) ∨ is_Some (ScopeAttributes.flow_code_hash a) ∨
      is_Some (ScopeAttributes.flow_install_id a) →
    is_Some (ScopeAttributes.flow_version a) ∧ is_Some (ScopeAttributes.flow_code_hash a) ∧
    is_Some (ScopeAttributes.flow_install_id a) ∧ is_Some (ScopeAttributes.flow_id a);
}.

Lemma is_some_is_Some {A} (o : option A) : is_some o = true ↔ is_Some o.
Proof. destruct o; simpl; split; done || by intros [? ?]. Qed.

Lemma is_empty_new a : ScopeAttributes.is_empty a = true ↔ a = ScopeAttributes.new.
Proof.
  unfold ScopeAttributes.is_empty. rewrite !andb_true_iff, !is_none_true, negb_true_iff.
  destruct a; unfold ScopeAttributes.new; simpl. split; [naive_solver|]. by intros [=].
Qed.

(** Case analysis on the presence of the fields a boolean rule mentions. *)
Ltac case_fields :=
  unfold is_none in *; rewrite <-?is_some_is_Some in *;
  repeat match goal with
  | H : context [is_some ?x] |- _ => destruct (is_some x)
  | H : context [ScopeAttributes.delegates ?x] |- _ => destruct (ScopeAttributes.delegates x)
  | |- context [is_some ?x] => destruct (is_some x)
  end; simpl in *; intuition congruence.

Lemma attributes_checked authorized a :
  attribute_refusal a authorized = None ∧ flow_identity_refusal a = None ↔
  attributes_ok authorized a.
Proof.
  unfold attribute_refusal, flow_identity_refusal. split.
  - intros [Hr Hf].
    destruct (negb (ScopeAttributes.is_empty a) && negb authorized) eqn:H1; [done|].
    destruct (is_some (ScopeAttributes.on_behalf_of_agent a) && _) eqn:H2; [done|].
    destruct (ScopeAttributes.delegates a && _) eqn:H3; [done|]. simpl in Hf. split.
    + destruct authorized; [by left|right]. apply is_empty_new.
      by destruct (ScopeAttributes.is_empty a).
    + clear Hr Hf H1 H3. rewrite <-!is_some_false. case_fields.
    + clear Hr Hf H1 H2. case_fields.
    + clear Hf H1 H2 H3. rewrite <-!is_some_false. case_fields.
    + clear Hr H1 H2 H3. case_fields.
  - intros [Ha Hb Hd Hr Hf].
    assert (negb (ScopeAttributes.is_empty a) && negb authorized = false) as ->.
    { destruct Ha as [->| ->%is_empty_new]; [apply andb_false_r|done]. }
    rewrite <-(is_some_false (ScopeAttributes.agent_id a)) in Hb.
    rewrite <-(is_some_false (ScopeAttributes.flow_id a)) in Hb, Hr.
    split; [clear Hf|clear Hb Hd Hr]; simpl; case_fields.
Qed.

(** What a record that passes its own checks satisfies. *)
Record record_passes (r : ScopeRecord.t) (held : option LiveScope.t) (ts : Tombstones.t)
    (authorized : bool) (now : Z) : Prop := {
  rp_targets : existsb bad_targets (ScopeRecord.carriers r) = false;
  rp_attributes : attributes_ok authorized (ScopeRecord.attributes r);
  rp_buried : Tombstones.cause ts (ScopeRecord.scope_ref r) (ScopeRecord.scope_epoch r) = None;
  rp_epoch : epoch_refusal r held ts = None;
  rp_expiry : expiry_refusal r held now = None;
}.

Lemma or_else_None {A} (o k : option A) : or_else o k = None ↔ o = None ∧ k = None.
Proof. destruct o; simpl; naive_solver. Qed.

Lemma record_refusal_None r held ts authorized now :
  record_refusal r held ts authorized now = None ↔ record_passes r held ts authorized now.
Proof.
  unfold record_refusal. destruct (existsb bad_targets _) eqn:Ht.
  { split; [done|]. intros [??]. congruence. }
  rewrite or_else_None. destruct (Tombstones.cause _ _ _) eqn:Hc.
  { split; [by intros [_ ?]|]. intros []; congruence. }
  rewrite !or_else_None. split.
  - intros (? & ? & ? & ?). split; try done. by apply attributes_checked.
  - intros [_ [? ?]%attributes_checked _ ? ?]. done.
Qed.

Definition target_count_ok (c : ScopeCarrier.t) : Prop :=
  ∀ targets, ScopeCarrier.targets c = Some targets →
    1 ≤ Z.of_nat (length targets) ≤ MAX_CARRIER_TARGETS.

Lemma carriers_checked carriers :
  existsb bad_targets carriers = false ↔ Forall target_count_ok carriers.
Proof.
  induction carriers as [|c cs IH]; simpl; [split; [constructor|done]|].
  rewrite orb_false_iff, IH, Forall_cons. f_equiv. unfold bad_targets, target_count_ok.
  destruct (ScopeCarrier.targets c) as [ts|]; simpl; [|done].
  rewrite orb_false_iff, Z.eqb_neq, Z.ltb_ge. split.
  - intros ? ? [= <-]. lia.
  - intros Hts. specialize (Hts ts eq_refl). lia.
Qed.

Record scope_ok `{AttributeJson} (authorized : bool) (ts : Tombstones.t) (x : string)
    (s : LiveScope.t) : Prop := {
  so_ref : ScopeRecord.scope_ref (LiveScope.record s) = x;
  so_fields : valid_fields (LiveScope.record s);
  so_attributes : attributes_ok authorized (ScopeRecord.attributes (LiveScope.record s));
  so_targets : Forall target_count_ok (ScopeRecord.carriers (LiveScope.record s));
  so_idle : ScopeRecord.replace_only_if_idle (LiveScope.record s) = false;
  so_buried e : is_Some (Tombstones.cause ts x e) → e < ScopeRecord.scope_epoch (LiveScope.record s);
  so_parent : is_Some (LiveScope.parent_state s) ↔ is_Some (ScopeRecord.parent (LiveScope.record s));
  so_parent_owner p : ScopeRecord.parent (LiveScope.record s) = Some p →
    is_Some (reserved_module_id (ScopeParent.owner p));
}.

Record owner_ok `{AttributeJson} (authorized : bool) (st : OwnerScopes.t) : Prop := {
  ow_tombstones : tombstones_ok (OwnerScopes.tombstones st);
  ow_size : Z.of_nat (size (OwnerScopes.live st)) ≤ MAX_LIVE_SCOPES_PER_OWNER;
  ow_synced : OwnerScopes.live st ≠ ∅ → OwnerScopes.synced st = true;
  ow_scope x s : OwnerScopes.live st !! x = Some s →
    scope_ok authorized (OwnerScopes.tombstones st) x s;
}.

Section owner.
Context `{AttributeJson}.

Lemma owner_ok_empty authorized : owner_ok authorized OwnerScopes.empty.
Proof.
  split; simpl; [apply tombstones_ok_empty|rewrite map_size_empty; done|done|].
  intros x s. by rewrite lookup_empty.
Qed.

(** A scope stays well-formed under a larger graveyard that buries nothing of
    its ref, and under changes to anything but its record and link. *)
Lemma scope_ok_weaken authorized ts ts' x s s' :
  scope_ok authorized ts x s →
  (∀ e, is_Some (Tombstones.cause ts' x e) → is_Some (Tombstones.cause ts x e)) →
  LiveScope.record s' = LiveScope.record s →
  (is_Some (LiveScope.parent_state s') ↔ is_Some (LiveScope.parent_state s)) →
  scope_ok authorized ts' x s'.
Proof.
  intros [] Hts Hr Hp. split; rewrite ?Hr; try done; [eauto|]. by rewrite Hp.
Qed.

Lemma elem_of_buried next (l : list (string * LiveScope.t)) e :
  e ∈ omap (buried next) l ↔
  ∃ s, (ScopeEnded.scope_ref e, s) ∈ l ∧
    ScopeEnded.scope_epoch e = ScopeRecord.scope_epoch (LiveScope.record s) ∧
    ∀ rec, next !! ScopeEnded.scope_ref e = Some rec →
           ScopeRecord.scope_epoch rec ≠ ScopeEnded.scope_epoch e.
Proof.
  rewrite list_elem_of_omap. unfold buried. split.
  - intros ([x s] & Hin & Hb); simpl in *.
    destruct (is_none_or _ (next !! x)) eqn:Hn; simplify_eq/=. exists s. split_and!; [done..|].
    intros rec Hrec. rewrite Hrec in Hn; simpl in Hn. by apply negb_true_iff, Z.eqb_neq in Hn.
  - intros (s & Hin & He & Hne). exists (ScopeEnded.scope_ref e, s). split; [done|]. simpl.
    destruct (next !! ScopeEnded.scope_ref e) as [rec|] eqn:Hrec; simpl.
    + assert ((ScopeRecord.scope_epoch rec =? ScopeRecord.scope_epoch (LiveScope.record s)) = false) as ->.
      { apply Z.eqb_neq. rewrite <-He. by apply Hne. }
      simpl. rewrite <-He. by destruct e.
    + rewrite <-He. by destruct e.
Qed.

Lemma expire_owner_ok authorized owner st now :
  owner_ok authorized st → owner_ok authorized (expire_owner owner st now).1.
Proof.
  intros [Hts Hsize Hsync Hscope]. pose proof (expire_owner_spec owner st now) as Hexp.
  destruct (expire_owner owner st now) as [st' expired]; simpl.
  destruct Hexp as (_ & Hsy & Hlive & Htomb & Hexpd). split.
  - rewrite Htomb. by apply insert_all_ok.
  - rewrite Hlive. pose proof (map_size_filter (λ e : string * LiveScope.t, not_expired now e.2)
      (OwnerScopes.live st)). lia.
  - rewrite Hsy, Hlive. intros Hne. apply Hsync. intros Hempty. apply Hne.
    by rewrite Hempty, map_filter_empty.
  - intros x s Hs. rewrite Hlive in Hs. apply map_lookup_filter_Some in Hs as [Hs Hlv]; simpl in Hlv.
    eapply scope_ok_weaken; [by apply Hscope| |done|done].
    intros e [c Hc]. rewrite Htomb in Hc.
    destruct (insert_all_cause _ _ _ _ _ Hts Hc) as [?|Hin]; [by eexists|].
    apply list_elem_of_fmap in Hin as (ex & [= -> -> _] & Hex). rewrite Hexpd in Hex.
    apply list_elem_of_omap in Hex as ([y s'] & Hy & Hex). apply elem_of_btree_iter in Hy.
    unfold expired_of in Hex; simpl in Hex. unfold not_expired in Hlv.
    destruct (passed_deadline now (LiveScope.record s')) eqn:Hd; simplify_eq/=.
Qed.
End owner.

(** ** An accepted call keeps its owner well-formed *)

Lemma continued_Some old x rec held :
  continued old x rec = Some held ↔
  old !! x = Some held ∧ ScopeRecord.scope_epoch (LiveScope.record held) = ScopeRecord.scope_epoch rec.
Proof. unfold continued. by rewrite opt_filter_Some, Z.eqb_eq. Qed.

(** An accepted record without a new link continues the scope that holds it. *)
Lemma old_link_continued state r p :
  is_new_link state r = false → ScopeRecord.parent r = Some p →
  ∃ held, continued (OwnerScopes.live state) (ScopeRecord.scope_ref r)
            (ScopeRecord.without_idle_condition r) = Some held ∧
          ScopeRecord.parent (LiveScope.record held) = Some p.
Proof.
  unfold is_new_link. intros Hl Hp. rewrite Hp in Hl.
  destruct (OwnerScopes.live state !! ScopeRecord.scope_ref r) as [held|] eqn:Hheld; [|done].
  simpl in Hl. apply orb_false_iff in Hl as [He Hpar]. exists held. split.
  - apply continued_Some. split; [done|]. by apply negb_false_iff, Z.eqb_eq in He.
  - by apply negb_false_iff, bool_decide_eq_true in Hpar.
Qed.

Lemma check_new_link_owner t owner p next st :
  check_new_link t owner p next = Some st → is_Some (reserved_module_id (ScopeParent.owner p)).
Proof. unfold check_new_link. by destruct (reserved_module_id _). Qed.

Section accepted.
Context `{AttributeJson}.
Context (t : ScopeTable) (h : Heap.t) (owner : string) (original : OwnerScopes.t)
  (connection_id : Z) (is_current_launch : Z → bool) (now : Z) (c : ScopeChange)
  (applied : SyncApplied.t) (state' : OwnerScopes.t) (version : Z) (h' : Heap.t)
  (state : OwnerScopes.t) (expired : list ScopeExpired.t) (s : Settle.t).
Context (Hacc : accepted t h owner original connection_id is_current_launch now c
                  applied state' version h' state expired s).

Abbreviation authorized := (owner_authorized t owner).

(** What is live afterwards, and where it comes from. *)
Lemma accepted_live x sc :
  OwnerScopes.live state' !! x = Some sc →
  ∃ rec, Settle.next s !! x = Some rec ∧
    committed (OwnerScopes.live state) (Settle.link_states s)
      (0 ≤ last_version t ∧ last_version t + MAX_LIVE_SCOPES_PER_OWNER < 2 ^ 64)
      (last_version t) version h h' x rec sc.
Proof.
  intros Hsc. pose proof (acc_live _ _ _ _ _ _ _ _ _ _ _ _ _ _ _ Hacc x) as Hx.
  destruct (Settle.next s !! x) as [rec|]; [|congruence].
  destruct Hx as (sc' & ? & ?). exists rec. split; [done|]. congruence.
Qed.

Lemma accepted_buried x e :
  tombstones_ok (OwnerScopes.tombstones state) →
  is_Some (Tombstones.cause (OwnerScopes.tombstones state') x e) →
  is_Some (Tombstones.cause (OwnerScopes.tombstones state) x e) ∨
  ∃ held, OwnerScopes.live state !! x = Some held ∧
    ScopeRecord.scope_epoch (LiveScope.record held) = e ∧
    ∀ rec, Settle.next s !! x = Some rec → ScopeRecord.scope_epoch rec ≠ e.
Proof.
  intros Hts [cs Hc]. rewrite (acc_tombstones _ _ _ _ _ _ _ _ _ _ _ _ _ _ _ Hacc) in Hc.
  destruct (insert_all_cause _ _ _ _ _ Hts Hc) as [?|Hin]; [left; by eexists|right].
  apply list_elem_of_fmap in Hin as (en & [= -> -> _] & Hen).
  apply elem_of_buried in Hen as (held & Hheld & He & Hne).
  exists held. split; [by apply elem_of_btree_iter|]. done.
Qed.

(** A kept record continues the scope that holds it. *)
Lemma kept_continued x rec :
  Settle.next s !! x = LiveScope.record <$> (OwnerScopes.live state !! x) →
  Settle.next s !! x = Some rec →
  ∃ held, OwnerScopes.live state !! x = Some held ∧ LiveScope.record held = rec ∧
          continued (OwnerScopes.live state) x rec = Some held.
Proof.
  intros Hk Hrec. rewrite Hrec in Hk. symmetry in Hk.
  apply fmap_Some in Hk as (held & Hheld & ->). exists held. split_and!; [done..|].
  by apply continued_Some.
Qed.

Lemma epoch_after_held r held e :
  record_passes r (OwnerScopes.live state !! ScopeRecord.scope_ref r)
    (OwnerScopes.tombstones state) authorized now →
  OwnerScopes.live state !! ScopeRecord.scope_ref r = Some held →
  e ≤ ScopeRecord.scope_epoch (LiveScope.record held) →
  e ≤ ScopeRecord.scope_epoch r.
Proof.
  intros Hp Hheld He. pose proof (rp_epoch _ _ _ _ _ Hp) as Hep. rewrite Hheld in Hep.
  unfold epoch_refusal in Hep. destruct (_ <? _) eqn:Hlt; [done|]. lia.
Qed.

(** Every ended epoch of the ref is below the accepted record's. *)
Lemma accepted_epoch_fresh r e :
  owner_ok authorized state →
  record_passes r (OwnerScopes.live state !! ScopeRecord.scope_ref r)
    (OwnerScopes.tombstones state) authorized now →
  is_Some (Tombstones.cause (OwnerScopes.tombstones state) (ScopeRecord.scope_ref r) e) →
  e < ScopeRecord.scope_epoch r.
Proof.
  intros Hok Hp Hc. set (x := ScopeRecord.scope_ref r) in *.
  assert (e ≠ ScopeRecord.scope_epoch r) as Hne.
  { intros ->. pose proof (rp_buried _ _ _ _ _ Hp) as Hb. fold x in Hb. destruct Hc. congruence. }
  enough (e ≤ ScopeRecord.scope_epoch r) by lia.
  destruct (OwnerScopes.live state !! x) as [held|] eqn:Hheld.
  - apply (epoch_after_held r held); [fold x; by rewrite Hheld|done|].
    pose proof (so_buried _ _ _ _ (ow_scope _ _ Hok x held Hheld) e Hc). lia.
  - pose proof (rp_epoch _ _ _ _ _ Hp) as Hep. unfold epoch_refusal in Hep. fold x in Hep.
    destruct (Tombstones.latest (OwnerScopes.tombstones state) x) as [l|] eqn:Hl.
    + apply latest_spec in Hl as [_ Hmax]. specialize (Hmax e Hc). simpl in Hep.
      destruct (_ <? l) eqn:Hlt; [done|]. lia.
    + destruct Hc as [cs Hc].
      pose proof (proj1 (latest_None _ x (ow_tombstones _ _ Hok)) Hl e). congruence.
Qed.

Lemma valid_without_idle r : valid_fields r → valid_fields (ScopeRecord.without_idle_condition r).
Proof. intros []. by split. Qed.

(** A kept scope keeps its link state. *)
Lemma kept_parent_state x held :
  scope_ok authorized (OwnerScopes.tombstones state) x held →
  Settle.link_states s !! x = None →
  committed_parent_state (Settle.link_states s) x (LiveScope.record held) (Some held)
  = LiveScope.parent_state held.
Proof.
  intros Hok Hls. unfold committed_parent_state. rewrite Hls.
  pose proof (so_parent _ _ _ _ Hok) as Hp.
  destruct (ScopeRecord.parent (LiveScope.record held)); [done|].
  symmetry. apply eq_None_not_Some. rewrite Hp. by intros [? ?].
Qed.

Lemma kept_scope_ok x rec sc :
  owner_ok authorized state →
  Settle.next s !! x = LiveScope.record <$> (OwnerScopes.live state !! x) →
  Settle.link_states s !! x = None → Settle.next s !! x = Some rec →
  LiveScope.record sc = rec →
  LiveScope.parent_state sc
  = committed_parent_state (Settle.link_states s) x rec (continued (OwnerScopes.live state) x rec) →
  scope_ok authorized (OwnerScopes.tombstones state') x sc.
Proof.
  intros Hok Hk Hls Hrec Hscr Hscp.
  destruct (kept_continued x rec Hk Hrec) as (held & Hheld & <- & Hcont).
  pose proof (ow_scope _ _ Hok x held Hheld) as Hh.
  rewrite Hcont, kept_parent_state in Hscp by done.
  eapply scope_ok_weaken; [done| |done|by rewrite Hscp].
  intros e He. destruct (accepted_buried x e (ow_tombstones _ _ Hok) He) as [?|(held' & Hh' & <- & Hne)];
    [done|]. simplify_eq. by destruct (Hne _ Hrec).
Qed.

(** Where an accepted record's link state comes from. *)
Lemma accepted_parent_state r :
  (is_new_link state r = true →
   link_checked t owner (Settle.next s) (Settle.link_states s) r) →
  (is_new_link state r = false → Settle.link_states s !! ScopeRecord.scope_ref r = None) →
  let ps := committed_parent_state (Settle.link_states s) (ScopeRecord.scope_ref r)
    (ScopeRecord.without_idle_condition r)
    (continued (OwnerScopes.live state) (ScopeRecord.scope_ref r)
       (ScopeRecord.without_idle_condition r)) in
  match ScopeRecord.parent r with
  | None => ps = None
  | Some p =>
      (is_new_link state r = true ∧ check_new_link t owner p (Settle.next s) = ps ∧ is_Some ps) ∨
      (∃ held, OwnerScopes.live state !! ScopeRecord.scope_ref r = Some held ∧
         ScopeRecord.scope_epoch (LiveScope.record held) = ScopeRecord.scope_epoch r ∧
         ScopeRecord.parent (LiveScope.record held) = Some p ∧ ps = LiveScope.parent_state held)
  end.
Proof.
  intros Hnew Hold ps. unfold ps, committed_parent_state; simpl.
  destruct (ScopeRecord.parent r) as [p|] eqn:Hp; [|done].
  destruct (is_new_link state r) eqn:Hl.
  - left. destruct (Hnew eq_refl) as (p' & st & Hp' & Hst & ->). simplify_eq. by rewrite Hst.
  - right. rewrite Hold by done. destruct (old_link_continued state r p Hl Hp) as (held & Hc & Hpar).
    rewrite Hc. apply continued_Some in Hc as [Hheld He]. exists held. by split_and!.
Qed.

Lemma accepted_scope_ok x i r sc :
  owner_ok authorized state → valid_fields r →
  records c !! i = Some r → ScopeRecord.scope_ref r = x →
  record_passes r (OwnerScopes.live state !! x) (OwnerScopes.tombstones state) authorized now →
  Settle.next s !! x = Some (ScopeRecord.without_idle_condition r) →
  (is_new_link state r = true →
   link_checked t owner (Settle.next s) (Settle.link_states s) r) →
  (is_new_link state r = false → Settle.link_states s !! x = None) →
  LiveScope.record sc = ScopeRecord.without_idle_condition r →
  LiveScope.parent_state sc
  = committed_parent_state (Settle.link_states s) x (ScopeRecord.without_idle_condition r)
      (continued (OwnerScopes.live state) x (ScopeRecord.without_idle_condition r)) →
  scope_ok authorized (OwnerScopes.tombstones state') x sc.
Proof.
  intros Hok Hv Hi <- Hpass Hnext Hnew Hold Hscr Hscp.
  pose proof (accepted_parent_state r Hnew Hold) as Hps. cbv zeta in Hps. rewrite <-Hscp in Hps.
  split; rewrite ?Hscr; simpl.
  - done.
  - by apply valid_without_idle.
  - by apply Hpass.
  - by apply carriers_checked, Hpass.
  - done.
  - intros e He.
    destruct (accepted_buried _ e (ow_tombstones _ _ Hok) He) as [?|(held & Hheld & <- & Hne)].
    + by apply accepted_epoch_fresh.
    + specialize (Hne _ Hnext). simpl in Hne. pose proof (epoch_after_held r held _ Hpass Hheld
        (Z.le_refl _)). lia.
  - destruct (ScopeRecord.parent r) as [p|]; [|by rewrite Hps].
    destruct Hps as [(_ & _ & Hs)|(held & Hheld & _ & Hpar & ->)]; [split; [done|by intros]|].
    rewrite (so_parent _ _ _ _ (ow_scope _ _ Hok _ held Hheld)), Hpar. done.
  - intros p Hp. rewrite Hp in Hps.
    destruct Hps as [(_ & Hck & Hs)|(held & Hheld & _ & Hpar & _)].
    + destruct Hs as [st Hs]. rewrite Hs in Hck. by eapply check_new_link_owner.
    + by eapply (so_parent_owner _ _ _ _ (ow_scope _ _ Hok _ held Hheld)).
Qed.

Lemma own_refusal_passes i r :
  own_refusal h state authorized now (prepared_refusals c) i r = None →
  record_passes r (OwnerScopes.live state !! ScopeRecord.scope_ref r)
    (OwnerScopes.tombstones state) authorized now.
Proof. unfold own_refusal. rewrite !or_else_None. intros (_ & Hp & _). by apply record_refusal_None. Qed.

Lemma accepted_records_valid r : r ∈ records c → valid_fields r.
Proof.
  destruct (sync_guards_refs _ _ _ _ (acc_guards _ _ _ _ _ _ _ _ _ _ _ _ _ _ _ Hacc)) as [_ Hv].
  rewrite Forall_forall in Hv. apply Hv.
Qed.

Lemma accepted_state_ok : owner_ok authorized original → owner_ok authorized state.
Proof.
  intros Hok. replace state with (expire_owner owner original now).1
    by (by rewrite (acc_expire _ _ _ _ _ _ _ _ _ _ _ _ _ _ _ Hacc)).
  by apply expire_owner_ok.
Qed.

Lemma accepted_owner_ok : owner_ok authorized original → owner_ok authorized state'.
Proof.
  intros Hok%accepted_state_ok. split.
  - rewrite (acc_tombstones _ _ _ _ _ _ _ _ _ _ _ _ _ _ _ Hacc). by apply insert_all_ok, Hok.
  - etransitivity; [|exact (acc_size _ _ _ _ _ _ _ _ _ _ _ _ _ _ _ Hacc)].
    rewrite <-!(size_dom (D := gset string)). apply inj_le, subseteq_size. intros x [sc Hsc]%elem_of_dom.
    apply accepted_live in Hsc as (rec & ? & _). by apply elem_of_dom_2 in H0.
  - intros _. by apply Hacc.
  - intros x sc Hsc. destruct (accepted_live x sc Hsc) as (rec & Hrec & Hcom).
    destruct Hcom as [Hscr Hscp _ _].
    destruct (acc_fate _ _ _ _ _ _ _ _ _ _ _ _ _ _ _ Hacc x)
      as [Hk Hls|Hnone|i r Hi Hx Href Hown Hnext Hnew Hold Hcyc].
    + by eapply kept_scope_ok.
    + congruence.
    + rewrite Hnext in Hrec. injection Hrec as <-. subst x. apply own_refusal_passes in Hown.
      apply (accepted_scope_ok _ i r sc); try done.
      apply accepted_records_valid. by eapply list_elem_of_lookup_2.
Qed.
End accepted.
