(* ===== verification/ScopeGraph.v ===== *)
(** * The parent graph of the scope table

    Linked scopes point at live parents and never form a cycle; pending links
    point at owners that have not synced. *)

From S2P Require Import Prelude Collections Envelope Tokens ScopeTypes Scopes.
From S2P Require Import ScopeTombstones ScopeLinks ScopeSettle ScopeSync ScopeRefresh ScopeInvariant.

Definition epoch_at (t : ScopeTable) (k : string * string) : option Z :=
  (λ s, ScopeRecord.scope_epoch (LiveScope.record s)) <$> scope_at t k.

Definition synced_at (t : ScopeTable) (o : string) : bool :=
  is_some_and OwnerScopes.synced (owners t !! o).

(** The parent a linked scope hangs under. *)
Definition linked_up (t : ScopeTable) (k : string * string) : option (string * string) :=
  s ← scope_at t k;
  if decide (LiveScope.parent_state s = Some ParentState.Linked) then
    p ← ScopeRecord.parent (LiveScope.record s);
    o ← reserved_module_id (ScopeParent.owner p);
    if decide (epoch_at t (o, ScopeParent.scope_ref p) = Some (ScopeParent.scope_epoch p))
    then Some (o, ScopeParent.scope_ref p) else None
  else None.

Fixpoint linked_path (t : ScopeTable) (n : nat) (k : string * string) : option (string * string) :=
  match n with
  | O => Some k
  | S n => k' ← linked_up t k; linked_path t n k'
  end.

Definition acyclic (t : ScopeTable) : Prop := ∀ n k, linked_path t (S n) k ≠ Some k.

(** Links into owners outside [except] are as the table's rules want them. *)
Record links_except (except : gset string) (t : ScopeTable) : Prop := {
  le_linked k s p : scope_at t k = Some s → ScopeRecord.parent (LiveScope.record s) = Some p →
    LiveScope.parent_state s = Some ParentState.Linked →
    ∃ o, reserved_module_id (ScopeParent.owner p) = Some o ∧
      (o ∈ except ∨ epoch_at t (o, ScopeParent.scope_ref p) = Some (ScopeParent.scope_epoch p));
  le_pending k s p : scope_at t k = Some s → ScopeRecord.parent (LiveScope.record s) = Some p →
    LiveScope.parent_state s = Some ParentState.Pending →
    ∃ o, reserved_module_id (ScopeParent.owner p) = Some o ∧ (o ∈ except ∨ synced_at t o = false);
}.

(** ** Linked paths are walks *)

Lemma linked_up_Some t k k' :
  linked_up t k = Some k' ↔
  ∃ s p, scope_at t k = Some s ∧ LiveScope.parent_state s = Some ParentState.Linked ∧
    ScopeRecord.parent (LiveScope.record s) = Some p ∧
    reserved_module_id (ScopeParent.owner p) = Some k'.1 ∧ ScopeParent.scope_ref p = k'.2 ∧
    epoch_at t k' = Some (ScopeParent.scope_epoch p).
Proof.
  unfold linked_up. destruct (scope_at t k) as [s|]; simpl; [|naive_solver].
  case_decide as Hl; [|naive_solver].
  destruct (ScopeRecord.parent (LiveScope.record s)) as [p|] eqn:Hp; simpl; [|naive_solver].
  destruct (reserved_module_id (ScopeParent.owner p)) as [o|] eqn:Ho; simpl; [|naive_solver].
  case_decide as He; [|split; [done|]].
  - split; [intros [= <-]; eauto 10|]. intros (? & p' & [= <-] & _ & ? & ? & ? & ?).
    destruct k'; simpl in *; congruence.
  - intros (? & p' & [= <-] & _ & ? & ? & ? & ?). destruct k'; simpl in *; congruence.
Qed.

Lemma linked_up_up t k k' e :
  linked_up t k = Some k' → epoch_at t k = Some e →
  ∃ e', epoch_at t k' = Some e' ∧ up t None (k, e) = Some (k', e').
Proof.
  intros (s & p & Hs & _ & Hp & Ho & Hr & He')%linked_up_Some He.
  exists (ScopeParent.scope_epoch p). split; [done|].
  unfold up. destruct k as [ko kx]; cbn [fst snd]. rewrite lookup_scope_at.
  unfold epoch_at in He. rewrite Hs in *; simplify_eq/=. rewrite Z.eqb_refl, Hp; simpl.
  unfold link_key. rewrite Ho; simpl. destruct k'; simpl in *. congruence.
Qed.

Lemma linked_path_walk t n k k' e :
  linked_path t n k = Some k' → epoch_at t k = Some e →
  ∃ e', epoch_at t k' = Some e' ∧ ancestor t None n (k, e) = Some (k', e').
Proof.
  revert k e; induction n as [|n IH]; intros k e Hn He; simplify_eq/=; [eauto|].
  destruct (linked_up t k) as [k1|] eqn:Hup; simplify_eq/=.
  destruct (linked_up_up t k k1 e Hup He) as (e1 & He1 & ->). simpl. by apply IH.
Qed.

Lemma linked_up_epoch t k k' : linked_up t k = Some k' → ∃ e, epoch_at t k = Some e.
Proof. intros (s & p & Hs & _)%linked_up_Some. unfold epoch_at. rewrite Hs. by eexists. Qed.

Lemma linked_path_S_r t n k : linked_path t (S n) k = (k' ← linked_path t n k; linked_up t k').
Proof.
  revert k; induction n as [|n IH]; intros k; simpl; [by destruct (linked_up t k)|].
  destruct (linked_up t k) as [k1|]; simpl; [|done]. apply IH.
Qed.

(** A change that adds no link on a cycle keeps the graph acyclic. *)
Lemma acyclic_transfer t t' :
  acyclic t →
  (∀ k k' e, linked_up t' k = Some k' → epoch_at t' k = Some e → on_cycle t' None (k, e) →
     linked_up t k = Some k') →
  acyclic t'.
Proof.
  intros Hac Hold n k Hcyc. apply (Hac n k).
  assert (∃ e, epoch_at t' k = Some e) as [e He].
  { simpl in Hcyc. destruct (linked_up t' k) eqn:Hup; [|done]. by eapply linked_up_epoch. }
  destruct (linked_path_walk _ _ _ _ _ Hcyc He) as (e' & He' & Hwalk).
  assert (e' = e) as -> by congruence. clear He'.
  assert (on_cycle t' None (k, e)) as Hoc by (by exists n).
  assert (∀ m k', linked_path t' m k = Some k' → linked_path t m k = Some k') as Hall; [|by apply Hall].
  induction m as [|m IH]; intros k' Hm; [done|].
  rewrite linked_path_S_r in Hm |- *.
  destruct (linked_path t' m k) as [k1|] eqn:Hk1; simplify_eq/=.
  rewrite (IH k1 eq_refl); simpl.
  destruct (linked_path_walk _ _ _ _ _ Hk1 He) as (e1 & He1 & Hw).
  eapply Hold; [done|done|]. by eapply on_cycle_ancestor.
Qed.

(** ** Refreshing *)

Lemma settle_link_Linked t o ko kx s p :
  settle_link t o ko kx s p = ParentState.Linked →
  epoch_at t (o, ScopeParent.scope_ref p) = Some (ScopeParent.scope_epoch p) ∧
  (LiveScope.parent_state s = Some ParentState.Linked ∨
   link_closes_cycle t None ko kx p = false).
Proof.
  unfold settle_link, epoch_at, scope_at; simpl.
  destruct (owners t !! o) as [st|]; simpl; [|by destruct (LiveScope.parent_state s) as [[]|]].
  destruct (OwnerScopes.live st !! _) as [ps|]; simpl;
    [|by destruct (LiveScope.parent_state s) as [[]|]].
  destruct (_ =? _) eqn:He; simpl; [|by destruct (LiveScope.parent_state s) as [[]|]].
  apply Z.eqb_eq in He. rewrite He. intros Hs. split; [done|].
  destruct (link_closes_cycle t None ko kx p); [|by right]. left.
  rewrite andb_false_r in Hs. by destruct (LiveScope.parent_state s) as [[]|].
Qed.

Lemma settle_link_not_pending t o ko kx s p : settle_link t o ko kx s p ≠ ParentState.Pending.
Proof.
  unfold settle_link.
  destruct (LiveScope.parent_state s) as [[]|]; [|  | done |];
    (destruct (owners t !! o) as [st|]; simpl; [|done]);
    (destruct (OwnerScopes.live st !! _) as [ps|]; simpl; [|done]);
    (destruct (_ =? _); simpl; [|done]); done || by destruct (_ && _).
Qed.

Section refresh.
Context `{HashOrder}.
Context (t : ScopeTable) (o : string) (tc : list ScopeTagChange.t).

Abbreviation t' := (refresh_links_to t o tc).1.

Lemma refresh_epoch_at k : epoch_at t' k = epoch_at t k.
Proof.
  destruct (refresh_spec t o tc) as [(_ & _ & Hs) _]. specialize (Hs k). unfold epoch_at.
  inversion Hs as [s s' [Hr _]|]; [|done]. simpl. by rewrite Hr.
Qed.

Lemma refresh_synced_at o' : synced_at t' o' = synced_at t o'.
Proof.
  destruct (refresh_spec t o tc) as [(_ & Hf & _) _]. specialize (Hf o'). unfold synced_at, owner_frame in *.
  destruct (owners t' !! o'), (owners t !! o'); simplify_eq/=; done.
Qed.

(** Each scope of the refreshed table comes from one of the table. *)
Lemma refresh_scope_at k s' :
  scope_at t' k = Some s' →
  ∃ s, scope_at t k = Some s ∧ LiveScope.record s' = LiveScope.record s ∧
       LiveScope.parent_state s' = refreshed_state t o k s.
Proof.
  intros Hs'. destruct (refresh_spec t o tc) as [(_ & _ & Hs) Hst].
  specialize (Hs k). rewrite Hs' in Hs. inversion Hs as [s ? [Hr _] Heq|]; simplify_eq.
  destruct (Hst k s) as (s'' & Hs'' & Hps & _); [done|]. exists s. split_and!; [done..|].
  rewrite <-Hps. congruence.
Qed.

Lemma refresh_links_except except :
  links_except ({[o]} ∪ except) t → links_except except t'.
Proof.
  intros [Hl Hp]. split; intros k s' p Hs' Hpar Hst;
    destruct (refresh_scope_at k s' Hs') as (s & Hs & Hr & Hps);
    rewrite Hr in Hpar; rewrite Hps in Hst; unfold refreshed_state in Hst; rewrite Hpar in Hst;
    (case_decide as Ho; [injection Hst as Hst|]).
  - exists o. rewrite Ho, refresh_epoch_at. split; [done|]. right. by eapply settle_link_Linked.
  - destruct (Hl k s p Hs Hpar Hst) as (o' & Ho' & He). exists o'. split; [done|].
    rewrite refresh_epoch_at. destruct He as [He|?]; [|by right].
    apply elem_of_union in He as [->%elem_of_singleton|?]; [|by left].
    destruct Ho. unfold reserved. by destruct (ScopeParent.owner p); simplify_eq/=.
  - by apply settle_link_not_pending in Hst.
  - destruct (Hp k s p Hs Hpar Hst) as (o' & Ho' & He). exists o'. split; [done|].
    rewrite refresh_synced_at. destruct He as [He|?]; [|by right].
    apply elem_of_union in He as [->%elem_of_singleton|?]; [|by left].
    destruct Ho. unfold reserved. by destruct (ScopeParent.owner p); simplify_eq/=.
Qed.

Lemma refresh_up k : up t' None k = up t None k.
Proof.
  unfold up. rewrite (same_records_lookup t t'); [done|]. apply refresh_spec.
Qed.

Lemma refresh_ancestor n k : ancestor t' None n k = ancestor t None n k.
Proof.
  revert k; induction n as [|n IH]; intros k; [done|]. cbn [ancestor]. rewrite refresh_up.
  destruct (up t None k); simpl; [apply IH|done].
Qed.

Lemma refresh_acyclic : acyclic t → acyclic t'.
Proof.
  intros Hac. apply (acyclic_transfer t); [done|].
  intros k k' e (s' & p & Hs' & Hst & Hpar & Ho & Hr & He')%linked_up_Some He Hcyc.
  destruct (refresh_scope_at k s' Hs') as (s & Hs & Hrec & Hps).
  rewrite Hrec in Hpar. rewrite Hps in Hst. rewrite refresh_epoch_at in He, He'.
  apply linked_up_Some. exists s, p. split_and!; try done.
  unfold refreshed_state in Hst. rewrite Hpar in Hst. case_decide as Hpo; [|done].
  injection Hst as Hst. destruct (settle_link_Linked _ _ _ _ _ _ Hst) as [_ [?|Hno]]; [done|].
  assert (link_closes_cycle t None k.1 k.2 p = true); [|congruence].
  apply link_closes_cycle_reaches. destruct Hcyc as [n Hn]. rewrite refresh_ancestor in Hn.
  cbn [ancestor] in Hn. destruct (up t None (k, e)) as [k1|] eqn:Hup; [|done]. exists k1. split.
  - rewrite <-Hup. unfold up. destruct k as [ko kx]; cbn [fst snd].
    rewrite lookup_scope_at. unfold epoch_at in He. rewrite Hs in *; simplify_eq/=.
    by rewrite Z.eqb_refl, Hpar.
  - exists n, (k, e). split; [done|]. by destruct k.
Qed.
End refresh.

(** ** Committing a call *)

Section commit.
Context `{AttributeJson}.
Context (t : ScopeTable) (h : Heap.t) (owner : string) (connection_id : Z)
  (is_current_launch : Z → bool) (now : Z) (c : ScopeChange)
  (applied : SyncApplied.t) (state' : OwnerScopes.t) (version : Z) (h' : Heap.t)
  (state : OwnerScopes.t) (expired : list ScopeExpired.t) (s : Settle.t).

Abbreviation original := (default OwnerScopes.empty (owners t !! owner)).
Abbreviation without := (with_owners t (delete owner (owners t))).

Context (Hacc : accepted without h owner original connection_id is_current_launch now c
                  applied state' version h' state expired s).
Context (Horig : owner_ok (owner_authorized t owner) original).
Context (Hlinks : links_except ∅ t).

(** The table once the call is stored, before its links are refreshed. *)
Definition stored : ScopeTable :=
  mkScopeTable (authority_owners t) (<[owner := state']> (owners t)) version.

Lemma stored_other k : k.1 ≠ owner → scope_at stored k = scope_at t k.
Proof. intros. unfold scope_at, stored; simpl. by rewrite lookup_insert_ne. Qed.

Lemma stored_own x : scope_at stored (owner, x) = OwnerScopes.live state' !! x.
Proof. unfold scope_at, stored; simpl. by rewrite lookup_insert_eq. Qed.

Lemma original_at x : OwnerScopes.live original !! x = scope_at t (owner, x).
Proof.
  clear Hacc Horig. unfold scope_at; simpl.
  destruct (owners t !! owner); simpl; [done|]. apply lookup_empty.
Qed.

(** A scope held when the links were checked was in the table. *)
Lemma held_at x held : OwnerScopes.live state !! x = Some held → scope_at t (owner, x) = Some held.
Proof.
  pose proof (expire_owner_spec owner original now) as Hexp.
  rewrite (acc_expire _ _ _ _ _ _ _ _ _ _ _ _ _ _ _ Hacc) in Hexp.
  destruct Hexp as (_ & _ & Hl & _). rewrite Hl. intros [Hh _]%map_lookup_filter_Some.
  rewrite <-original_at. exact Hh.
Qed.

(** The overlay the links were checked against is the stored table. *)
Lemma overlay_lookup o r :
  lookup without (Some (owner, Settle.next s)) o r = lookup stored None o r.
Proof.
  rewrite lookup_scope_at. unfold lookup. case_decide as Ho.
  - subst. rewrite stored_own.
    pose proof (acc_live _ _ _ _ _ _ _ _ _ _ _ _ _ _ _ Hacc r) as Hr.
    destruct (Settle.next s !! r) as [rec|]; [|by rewrite Hr].
    destruct Hr as (sc & -> & Hcom). simpl. by rewrite (com_record _ _ _ _ _ _ _ _ _ _ Hcom).
  - rewrite stored_other by (simpl; congruence). unfold scope_at; simpl.
    rewrite lookup_delete_ne by done. by destruct (owners t !! o).
Qed.

Lemma overlay_up k : up without (Some (owner, Settle.next s)) k = up stored None k.
Proof. unfold up. by rewrite overlay_lookup. Qed.

Lemma overlay_on_cycle k :
  on_cycle stored None k → on_cycle without (Some (owner, Settle.next s)) k.
Proof.
  intros [n Hn]. exists n. rewrite <-Hn. clear Hn. generalize (S n). clear n. intros n.
  revert k; induction n as [|n IH]; intros k; [done|]. cbn [ancestor]. rewrite overlay_up.
  destruct (up stored None k); simpl; [apply IH|done].
Qed.

Lemma stored_epoch o r rec :
  lookup without (Some (owner, Settle.next s)) o r = Some rec →
  epoch_at stored (o, r) = Some (ScopeRecord.scope_epoch rec).
Proof.
  rewrite overlay_lookup, lookup_scope_at. unfold epoch_at.
  destruct (scope_at stored (o, r)); simpl; congruence.
Qed.

(** A new link that was accepted as linked, or as pending. *)
Lemma check_new_link_Linked p :
  check_new_link without owner p (Settle.next s) = Some ParentState.Linked →
  ∃ o, reserved_module_id (ScopeParent.owner p) = Some o ∧
       epoch_at stored (o, ScopeParent.scope_ref p) = Some (ScopeParent.scope_epoch p).
Proof.
  unfold check_new_link. destruct (reserved_module_id _) as [o|]; [|done].
  destruct (negb (_ || _)); [done|].
  destruct (lookup without _ o _) as [rec|] eqn:Hl; [|done].
  destruct (negb (_ =? _)) eqn:He; [done|]. intros _. exists o. split; [done|].
  rewrite (stored_epoch _ _ _ Hl). apply negb_false_iff, Z.eqb_eq in He. by rewrite He.
Qed.

Lemma check_new_link_Pending p :
  check_new_link without owner p (Settle.next s) = Some ParentState.Pending →
  ∃ o, reserved_module_id (ScopeParent.owner p) = Some o ∧ o ≠ owner ∧ synced_at t o = false.
Proof.
  unfold check_new_link. destruct (reserved_module_id _) as [o|]; [|done].
  destruct (negb _) eqn:Hs.
  - intros _. exists o. apply negb_true_iff, orb_false_iff in Hs as [Ho Hs].
    apply bool_decide_eq_false in Ho. split_and!; [done..|].
    unfold with_owners in Hs; simpl in Hs. by rewrite lookup_delete_ne in Hs.
  - intros Hst. by repeat case_match.
Qed.

(** A link of the stored owner was checked by this call, or was held before. *)
Lemma stored_link x sc p :
  OwnerScopes.live state' !! x = Some sc → ScopeRecord.parent (LiveScope.record sc) = Some p →
  (check_new_link without owner p (Settle.next s) = LiveScope.parent_state sc ∧
   ∀ e, LiveScope.parent_state sc = Some ParentState.Linked →
     up stored None (owner, x, e) = link_key p → ¬ on_cycle stored None (owner, x, e)) ∨
  (∃ held, scope_at t (owner, x) = Some held ∧
     ScopeRecord.parent (LiveScope.record held) = Some p ∧
     LiveScope.parent_state sc = LiveScope.parent_state held).
Proof.
  intros Hsc Hp. destruct (accepted_live _ _ _ _ _ _ _ _ _ _ _ _ _ _ _ Hacc x sc Hsc)
    as (rec & Hrec & [Hr Hps _ _]).
  pose proof (accepted_state_ok _ _ _ _ _ _ _ _ _ _ _ _ _ _ _ Hacc Horig) as Hok.
  destruct (acc_fate _ _ _ _ _ _ _ _ _ _ _ _ _ _ _ Hacc x)
    as [Hk Hls|Hnone|i r Hi Hx Href Hown Hnext Hnew Hold Hcyc]; [|congruence|].
  - right. destruct (kept_continued _ _ x rec Hk Hrec) as (held & Hheld & <- & Hc).
    exists held. split; [by apply held_at|]. split; [congruence|]. rewrite Hps, Hc.
    eapply kept_parent_state; [|done]. by apply (ow_scope _ _ Hok).
  - rewrite Hnext in Hrec. injection Hrec as <-. subst x.
    assert (ScopeRecord.parent r = Some p) as Hpr by (by rewrite Hr in Hp).
    pose proof (accepted_parent_state _ _ _ _ r Hnew Hold) as Hcase. cbv zeta in Hcase.
    rewrite <-Hps, Hpr in Hcase. destruct Hcase as [(Hl & Hck & _)|(held & Hheld & _ & Hpar & Heq)].
    + left. split; [done|]. intros e Hlk Hup Hon%overlay_on_cycle.
      destruct (Hnew Hl) as (p' & st & Hp' & Hst & Hls).
      assert (p' = p) as -> by congruence.
      apply (Hcyc p e); [congruence|done|by rewrite overlay_up|done].
    + right. exists held. split; [by apply held_at|]. done.
Qed.

Lemma stored_links : links_except {[owner]} stored.
Proof.
  split; intros [ko kx] sc p Hsc Hp Hst; destruct (decide (ko = owner)) as [->|Hko].
  - rewrite stored_own in Hsc.
    destruct (stored_link kx sc p Hsc Hp) as [[Hck _]|(held & Hheld & Hpar & Heq)].
    + rewrite Hst in Hck. apply check_new_link_Linked in Hck as (o & ? & ?). exists o. auto.
    + rewrite Heq in Hst. destruct (le_linked _ _ Hlinks _ held p Hheld Hpar Hst) as (o & Ho & He).
      exists o. split; [done|]. destruct (decide (o = owner)) as [->|Hne]; [left; set_solver|right].
      destruct He as [?|He]; [set_solver|]. rewrite <-He. unfold epoch_at. by rewrite stored_other.
  - rewrite stored_other in Hsc by done.
    destruct (le_linked _ _ Hlinks _ sc p Hsc Hp Hst) as (o & Ho & He).
    exists o. split; [done|]. destruct (decide (o = owner)) as [->|Hne]; [left; set_solver|right].
    destruct He as [?|He]; [set_solver|]. rewrite <-He. unfold epoch_at. by rewrite stored_other.
  - rewrite stored_own in Hsc.
    destruct (stored_link kx sc p Hsc Hp) as [[Hck _]|(held & Hheld & Hpar & Heq)].
    + rewrite Hst in Hck. apply check_new_link_Pending in Hck as (o & ? & ? & Hs). exists o.
      split; [done|]. right. unfold synced_at, stored in *; simpl. by rewrite lookup_insert_ne.
    + rewrite Heq in Hst. destruct (le_pending _ _ Hlinks _ held p Hheld Hpar Hst) as (o & Ho & He).
      exists o. split; [done|]. destruct (decide (o = owner)) as [->|Hne]; [left; set_solver|right].
      destruct He as [?|He]; [set_solver|]. rewrite <-He. unfold synced_at, stored; simpl.
      by rewrite lookup_insert_ne.
  - rewrite stored_other in Hsc by done.
    destruct (le_pending _ _ Hlinks _ sc p Hsc Hp Hst) as (o & Ho & He).
    exists o. split; [done|]. destruct (decide (o = owner)) as [->|Hne]; [left; set_solver|right].
    destruct He as [?|He]; [set_solver|]. rewrite <-He. unfold synced_at, stored; simpl.
    by rewrite lookup_insert_ne.
Qed.

(** A held link, linked in [t], is still the same edge there. *)
Lemma held_linked_up k held p k' :
  scope_at t k = Some held → ScopeRecord.parent (LiveScope.record held) = Some p →
  LiveScope.parent_state held = Some ParentState.Linked →
  reserved_module_id (ScopeParent.owner p) = Some k'.1 → ScopeParent.scope_ref p = k'.2 →
  linked_up t k = Some k'.
Proof.
  intros Hheld Hpar Hst Ho Hr. apply linked_up_Some. exists held, p. split_and!; try done.
  destruct (le_linked _ _ Hlinks k held p Hheld Hpar Hst) as (o & Ho' & [?|He]); [set_solver|].
  rewrite <-He. f_equal. destruct k'; simpl in *. congruence.
Qed.

Lemma stored_acyclic : acyclic t → acyclic stored.
Proof.
  intros Hac. apply (acyclic_transfer t); [done|].
  intros [ko kx] k' e (sc & p & Hsc & Hst & Hpar & Ho & Hr & He')%linked_up_Some He Hcyc.
  destruct (decide (ko = owner)) as [->|Hko].
  - assert (up stored None (owner, kx, e) = link_key p) as Hup.
    { unfold up; cbn [fst snd]. rewrite lookup_scope_at. unfold epoch_at in He.
      rewrite Hsc in *; simplify_eq/=. by rewrite Z.eqb_refl, Hpar. }
    rewrite stored_own in Hsc.
    destruct (stored_link kx sc p Hsc Hpar) as [[_ Hno]|(held & Hheld & Hp & Heq)].
    + by destruct (Hno e Hst Hup).
    + eapply held_linked_up; eauto. congruence.
  - rewrite stored_other in Hsc by done. by eapply held_linked_up.
Qed.
End commit.
