(* ===== verification/ScopeTableOk.v ===== *)
(** * The table invariant, operation by operation

    [table_ok] collects the invariants of the scope table; every operation
    keeps it.  Tables are compared up to the empty entry a refused first sync
    leaves behind. *)

From S2P Require Import Prelude Collections Envelope Tokens ScopeTypes Scopes.
From S2P Require Import ScopeTombstones ScopeLinks ScopeSettle ScopeSync ScopeRefresh.
From S2P Require Import ScopeInvariant ScopeGraph.

Definition owner_state (t : ScopeTable) (o : string) : OwnerScopes.t :=
  default OwnerScopes.empty (owners t !! o).

(** Two tables no operation tells apart: an owner never heard of and an owner
    with an empty entry are the same. *)
#[global] Instance table_equiv : Equiv ScopeTable := λ t t',
  authority_owners t = authority_owners t' ∧ last_version t = last_version t' ∧
  ∀ o, owner_state t o = owner_state t' o.

#[global] Instance table_equivalence : Equivalence (≡@{ScopeTable}).
Proof.
  split.
  - by intros t.
  - by intros t t' (? & ? & ?).
  - intros t1 t2 t3 (? & ? & H12) (? & ? & H23). split_and!; [congruence..|].
    intros o. by rewrite H12.
Qed.

Lemma scope_at_state t k : scope_at t k = OwnerScopes.live (owner_state t k.1) !! k.2.
Proof.
  unfold scope_at, owner_state. destruct (owners t !! k.1); simpl; [done|]. by rewrite lookup_empty.
Qed.

Lemma synced_at_state t o : synced_at t o = OwnerScopes.synced (owner_state t o).
Proof. unfold synced_at, owner_state. by destruct (owners t !! o). Qed.

#[global] Instance scope_at_proper : Proper ((≡) ==> (=) ==> (=)) scope_at.
Proof. intros t t' (_ & _ & Ho) k ? <-. by rewrite !scope_at_state, Ho. Qed.

#[global] Instance synced_at_proper : Proper ((≡) ==> (=) ==> (=)) synced_at.
Proof. intros t t' (_ & _ & Ho) o ? <-. by rewrite !synced_at_state, Ho. Qed.

#[global] Instance last_version_proper : Proper ((≡) ==> (=)) last_version.
Proof. by intros t t' (_ & ? & _). Qed.

#[global] Instance owner_authorized_proper : Proper ((≡) ==> (=) ==> (=)) owner_authorized.
Proof. intros t t' (Ha & _ & _) o ? <-. unfold owner_authorized. by rewrite Ha. Qed.

#[global] Instance describe_proper : Proper ((≡) ==> (=) ==> (=) ==> (=)) describe.
Proof.
  intros t t' (Ha & _ & Ho) p ? <- x ? <-. unfold describe, scope_stamp, owner_authorized. rewrite Ha.
  destruct (reserved_module_id p) as [o|]; [|done]. specialize (Ho o). unfold owner_state in Ho.
  assert (Tombstones.latest Tombstones.empty x = None) as Hl
    by (unfold Tombstones.latest; simpl; by rewrite lookup_empty).
  destruct (owners t !! o), (owners t' !! o); simplify_eq/=; try done;
    by rewrite lookup_empty, Hl.
Qed.

#[global] Instance attribute_proper :
  Proper ((≡) ==> (=) ==> (=) ==> (=) ==> (=) ==> (=) ==> (=)) attribute.
Proof.
  intros t t' (Ha & _ & Ho) p ? <- m ? <- sel ? <- cfg ? <- now ? <-.
  unfold attribute, scope_stamp, owner_authorized. rewrite Ha.
  destruct (ScopeSelector.scope_epoch sel) as [e|]; simpl; [|done].
  destruct (reserved_module_id _) as [o|]; simpl; [|done]. specialize (Ho o). unfold owner_state in Ho.
  by destruct (owners t !! o), (owners t' !! o); simplify_eq/=.
Qed.

(** ** The invariant *)

Record table_ok `{AttributeJson} (t : ScopeTable) : Prop := {
  tk_owner o : owner_ok (owner_authorized t o) (owner_state t o);
  tk_links : links_except ∅ t;
  tk_acyclic : acyclic t;
}.

(** What the invariant depends on. *)
Definition scope_core (s : LiveScope.t) : ScopeRecord.t * option ParentState.t :=
  (LiveScope.record s, LiveScope.parent_state s).

Record same_core (t t' : ScopeTable) : Prop := {
  sc_authority : authority_owners t' = authority_owners t;
  sc_synced o : OwnerScopes.synced (owner_state t' o) = OwnerScopes.synced (owner_state t o);
  sc_tombstones o :
    OwnerScopes.tombstones (owner_state t' o) = OwnerScopes.tombstones (owner_state t o);
  sc_scopes k : scope_core <$> scope_at t' k = scope_core <$> scope_at t k;
}.

Lemma same_core_scope t t' k s' :
  same_core t t' → scope_at t' k = Some s' →
  ∃ s, scope_at t k = Some s ∧ LiveScope.record s' = LiveScope.record s ∧
       LiveScope.parent_state s' = LiveScope.parent_state s.
Proof.
  intros Hc Hs'. pose proof (sc_scopes _ _ Hc k) as Hk. rewrite Hs' in Hk.
  destruct (scope_at t k) as [s|]; simplify_eq/=. exists s. unfold scope_core in Hk. by simplify_eq.
Qed.

Lemma same_core_epoch_at t t' k : same_core t t' → epoch_at t' k = epoch_at t k.
Proof.
  intros Hc. pose proof (sc_scopes _ _ Hc k) as Hk. unfold epoch_at, scope_core in *.
  destruct (scope_at t' k), (scope_at t k); simplify_eq/=; congruence.
Qed.

Lemma same_core_linked_up t t' k : same_core t t' → linked_up t' k = linked_up t k.
Proof.
  intros Hc. pose proof (sc_scopes _ _ Hc k) as Hk. unfold linked_up, scope_core in *.
  destruct (scope_at t' k) as [s'|], (scope_at t k) as [s|]; try done.
  simpl in Hk. injection Hk as Hr Hp. simpl. rewrite Hr, Hp. case_decide; [|done]. destruct (ScopeRecord.parent _); simpl; [|done].
  destruct (reserved_module_id _); simpl; [|done]. by rewrite (same_core_epoch_at t t' _ Hc).
Qed.

(** The owner's well-formedness does not depend on versions, cells or the
    value of a link state. *)
Lemma owner_ok_frame `{AttributeJson} authorized st st' :
  owner_ok authorized st →
  OwnerScopes.synced st' = OwnerScopes.synced st →
  OwnerScopes.tombstones st' = OwnerScopes.tombstones st →
  (∀ x, is_Some (OwnerScopes.live st' !! x) ↔ is_Some (OwnerScopes.live st !! x)) →
  (∀ x s s', OwnerScopes.live st !! x = Some s → OwnerScopes.live st' !! x = Some s' →
     LiveScope.record s' = LiveScope.record s ∧
     (is_Some (LiveScope.parent_state s') ↔ is_Some (LiveScope.parent_state s))) →
  owner_ok authorized st'.
Proof.
  intros [Hts Hsize Hsync Hscope] Hsy Htomb Hlive Hsame.
  assert (dom (OwnerScopes.live st') = dom (OwnerScopes.live st) :> gset string) as Hdom
    by (apply set_eq; intros x; rewrite !elem_of_dom; apply Hlive).
  split.
  - by rewrite Htomb.
  - by rewrite <-(size_dom (D := gset string)), Hdom, size_dom.
  - rewrite Hsy. intros Hne. apply Hsync. intros Hem. apply Hne.
    apply dom_empty_iff_L. rewrite Hdom. by apply dom_empty_iff_L.
  - intros x s' Hs'. destruct (proj1 (Hlive x)) as [s Hs]; [by eexists|].
    destruct (Hsame x s s' Hs Hs') as [Hr Hp].
    eapply scope_ok_weaken; [by apply Hscope| |done|done]. by rewrite Htomb.
Qed.

Lemma same_core_owner_ok `{AttributeJson} t t' authorized o :
  same_core t t' → owner_ok authorized (owner_state t o) → owner_ok authorized (owner_state t' o).
Proof.
  intros Hc Hok. eapply owner_ok_frame; [done|apply Hc|apply Hc|..]; intros x;
    pose proof (sc_scopes _ _ Hc (o, x)) as Hx; rewrite !scope_at_state in Hx; simpl in Hx.
  - rewrite <-!(fmap_is_Some scope_core), Hx. done.
  - intros s s' Hs Hs'. rewrite Hs, Hs' in Hx. simpl in Hx. unfold scope_core in Hx.
    injection Hx as -> ->. done.
Qed.

Lemma same_core_ok `{AttributeJson} t t' : same_core t t' → table_ok t → table_ok t'.
Proof.
  intros Hc [Hown [Hl Hp] Hac]. split.
  - intros o. unfold owner_authorized. rewrite (sc_authority _ _ Hc).
    apply (same_core_owner_ok t t'); [done|apply Hown].
  - split; intros k s' p Hs' Hpar Hst; destruct (same_core_scope t t' k s' Hc Hs') as (s & Hs & Hr & Heq);
      rewrite Hr in Hpar; rewrite Heq in Hst.
    + destruct (Hl k s p Hs Hpar Hst) as (o & ? & ?). exists o.
      by rewrite (same_core_epoch_at t t' _ Hc).
    + destruct (Hp k s p Hs Hpar Hst) as (o & ? & ?). exists o.
      by rewrite synced_at_state, (sc_synced _ _ Hc), <-synced_at_state.
  - intros n k Hn. apply (Hac n k). rewrite <-Hn. symmetry.
    clear Hn. generalize (S n). clear n. intros n. revert k.
    induction n as [|n IH]; intros k; [done|]. cbn [linked_path].
    rewrite (same_core_linked_up t t' _ Hc). destruct (linked_up t k); simpl; [apply IH|done].
Qed.

#[global] Instance table_ok_proper `{AttributeJson} : Proper ((≡) ==> iff) table_ok.
Proof.
  assert (∀ t t' : ScopeTable, t ≡ t' → table_ok t → table_ok t') as Hone.
  { intros t t' Heq. apply same_core_ok. split.
    - symmetry. apply Heq.
    - intros o. by destruct Heq as (_ & _ & ->).
    - intros o. by destruct Heq as (_ & _ & ->).
    - intros k. by rewrite Heq. }
  intros t t' Heq. split; apply Hone; done.
Qed.

(** ** Refreshing *)

Lemma frame_owner_state t t' o :
  owner_frame t' o = owner_frame t o →
  OwnerScopes.synced (owner_state t' o) = OwnerScopes.synced (owner_state t o) ∧
  OwnerScopes.tombstones (owner_state t' o) = OwnerScopes.tombstones (owner_state t o).
Proof.
  unfold owner_frame, owner_state.
  destruct (owners t' !! o), (owners t !! o); simpl; intros; simplify_eq; done.
Qed.

Lemma refresh_owner_ok `{HashOrder} `{AttributeJson} t o tc authorized o' :
  owner_ok authorized (owner_state t o') →
  owner_ok authorized (owner_state (refresh_links_to t o tc).1 o').
Proof.
  intros Hok. destruct (refresh_spec t o tc) as [(_ & Hf & Hs) Hst]. cbv zeta in *.
  destruct (frame_owner_state _ _ o' (Hf o')) as [Hsy Hts].
  eapply owner_ok_frame; [done|done|done|..]; intros x;
    pose proof (Hs (o', x)) as Hx; rewrite !scope_at_state in Hx; simpl in Hx.
  - inversion Hx; simplify_eq; naive_solver.
  - intros s s' Hsc Hsc'. rewrite Hsc, Hsc' in Hx. inversion Hx as [? ? [Hr _]|]; simplify_eq.
    split; [done|]. destruct (Hst (o', x) s) as (s'' & Hs'' & Hps & _); [by rewrite scope_at_state|].
    rewrite scope_at_state in Hs''; simpl in Hs''. simplify_eq. rewrite Hps. unfold refreshed_state.
    pose proof (so_parent _ _ _ _ (ow_scope _ _ Hok x s Hsc)) as Hp.
    destruct (ScopeRecord.parent (LiveScope.record s)) as [p|]; [|done].
    case_decide; [|done]. rewrite Hp. naive_solver.
Qed.

(** ** [sync] and [apply] *)

Section change.
Context `{HashOrder} `{AttributeJson}.
Context (t : ScopeTable) (h : Heap.t) (owner : string) (connection_id : Z)
  (is_current_launch : Z → bool) (now : Z) (c : ScopeChange).

Abbreviation without := (with_owners t (delete owner (owners t))).

(** A call is refused, leaving the table as it was; or it is accepted, stored,
    and the links into the owner refreshed. *)
Inductive change_outcome : option (ScopeTable * Heap.t * Result SyncApplied.t string) → Prop :=
  | change_refused t' code : t' ≡ t → change_outcome (Some (t', h, Err code))
  | change_accepted applied state' version h' state expired s tc :
      accepted without h owner (owner_state t owner) connection_id is_current_launch now c
        applied state' version h' state expired s →
      tc = (refresh_links_to (stored t owner state' version) owner
              (SyncApplied.tag_changes applied)).2 →
      change_outcome
        (Some ((refresh_links_to (stored t owner state' version) owner
                  (SyncApplied.tag_changes applied)).1, h',
               Ok (SyncApplied.mk
                     (refresh_result owner
                        (OwnerScopes.live
                           (owner_state (refresh_links_to (stored t owner state' version) owner
                                           (SyncApplied.tag_changes applied)).1 owner)) tc
                        <$> SyncApplied.results applied)
                     (SyncApplied.end_results applied) (SyncApplied.ended applied) tc
                     (SyncApplied.expired applied)))).

Lemma change_cases :
  change_outcome (change t h owner connection_id is_current_launch now c).
Proof.
  unfold change. fold (owner_state t owner).
  destruct (sync_owner_cases without h owner (owner_state t owner) connection_id
              is_current_launch now c) as [[code ->]|Hok].
  - apply change_refused. split_and!; [done..|]. intros o. unfold owner_state; simpl.
    destruct (decide (o = owner)) as [->|?]; [by rewrite lookup_insert_eq|by rewrite lookup_insert_ne].
  - destruct Hok as (applied & state' & version & h' & state & expired & s & -> & Hacc).
    fold (stored t owner state' version).
    pose proof (change_accepted applied state' version h' state expired s _ Hacc eq_refl) as Hout.
    destruct (refresh_links_to _ _ _) as [t'' tc]. cbn [fst snd] in Hout.
    replace (default ∅ (OwnerScopes.live <$> owners t'' !! owner))
      with (OwnerScopes.live (owner_state t'' owner)); [done|].
    unfold owner_state. by destruct (owners t'' !! owner).
Qed.

(** The two outcomes of a call that answers. *)
Lemma change_inv t' h' res :
  change t h owner connection_id is_current_launch now c = Some (t', h', res) →
  (t' ≡ t ∧ h' = h ∧ ∃ code, res = Err code) ∨
  (∃ applied state' version state expired s tc results,
     accepted without h owner (owner_state t owner) connection_id is_current_launch now c
       applied state' version h' state expired s ∧
     refresh_links_to (stored t owner state' version) owner (SyncApplied.tag_changes applied)
     = (t', tc) ∧
     results = (refresh_result owner (OwnerScopes.live (owner_state t' owner)) tc
                  <$> SyncApplied.results applied) ∧
     res = Ok (SyncApplied.mk results (SyncApplied.end_results applied)
                 (SyncApplied.ended applied) tc (SyncApplied.expired applied))).
Proof.
  pose proof change_cases as Hcases. intros Heq. rewrite Heq in Hcases.
  inversion Hcases as [? code Heqv|applied state' version ? state expired s tc Hacc Htc]; subst.
  - left. eauto.
  - right. eexists _, _, _, _, _, _, _, _. split; [exact Hacc|]. split; [apply surjective_pairing|].
    split; [reflexivity|]. done.
Qed.

Lemma stored_ok applied state' version h' state expired s :
  accepted without h owner (owner_state t owner) connection_id is_current_launch now c
    applied state' version h' state expired s →
  table_ok t →
  (∀ o, owner_ok (owner_authorized t o) (owner_state (stored t owner state' version) o)) ∧
  links_except {[owner]} (stored t owner state' version) ∧
  acyclic (stored t owner state' version).
Proof.
  intros Hacc [Hown Hl Hac]. split_and!.
  - intros o. unfold owner_state, stored; simpl. destruct (decide (o = owner)) as [->|?].
    + rewrite lookup_insert_eq; simpl. 
      exact (accepted_owner_ok _ _ _ _ _ _ _ _ _ _ _ _ _ _ _ Hacc (Hown owner)).
    + rewrite lookup_insert_ne by done. apply Hown.
  - exact (stored_links _ _ _ _ _ _ _ _ _ _ _ _ _ _ Hacc (Hown owner) Hl).
  - exact (stored_acyclic _ _ _ _ _ _ _ _ _ _ _ _ _ _ Hacc (Hown owner) Hl Hac).
Qed.

Lemma change_ok t' h' res :
  change t h owner connection_id is_current_launch now c = Some (t', h', res) →
  table_ok t → table_ok t'.
Proof.
  intros [(Heqv & _)|(applied & state' & version & state & expired & s & tc & ? & Hacc & Hr & _)]%change_inv
    Hok; [by rewrite Heqv|].
  destruct (stored_ok _ _ _ _ _ _ _ Hacc Hok) as (Hown & Hl & Hac).
  replace t' with (refresh_links_to (stored t owner state' version) owner
                     (SyncApplied.tag_changes applied)).1 by (by rewrite Hr).
  split.
  - intros o. replace (owner_authorized _ o) with (owner_authorized t o).
    + by apply refresh_owner_ok.
    + unfold owner_authorized.
      destruct (refresh_spec (stored t owner state' version) owner
                  (SyncApplied.tag_changes applied)) as [(Ha & _) _]. by rewrite Ha.
  - apply refresh_links_except. by rewrite (right_id_L ∅ (∪)).
  - by apply refresh_acyclic.
Qed.
End change.
