(* ===== verification/ScopeSweep.v ===== *)
(** * Sweeping, releasing a connection, reserving a bind

    The remaining operations of the table keep its invariant; a sweep removes
    exactly the scopes whose deadline has passed and reports each. *)

From S2P Require Import Prelude Collections Envelope Tokens ScopeTypes Scopes.
From S2P Require Import ScopeTombstones ScopeLinks ScopeSettle ScopeSync ScopeRefresh.
From S2P Require Import ScopeInvariant ScopeGraph ScopeTableOk.

(** ** The expiry pass *)

Lemma sweep_fold now entries os ex tc ch :
  NoDup entries.*1 →
  let '(os', ex', tc', ch') := foldl (sweep_owner now) (os, ex, tc, ch) entries in
  (∀ o st, (o, st) ∈ entries → os' !! o = Some (expire_owner o st now).1) ∧
  (∀ o, o ∉ entries.*1 → os' !! o = os !! o) ∧
  (∀ o, o ∈ ch' ↔ o ∈ ch ∨ ∃ st, (o, st) ∈ entries ∧ (expire_owner o st now).2 ≠ []) ∧
  ex' = ex ++ (e ← entries; (expire_owner e.1 e.2 now).2) ∧
  tc' = tc ++ (e ← entries;
               expired_tag_change e.1 (OwnerScopes.live e.2) <$> (expire_owner e.1 e.2 now).2).
Proof.
  revert os ex tc ch; induction entries as [|[o st] entries IH]; intros os ex tc ch.
  { intros _. simpl. rewrite !app_nil_r. split_and!; [set_solver|done| |done..]. set_solver. }
  rewrite fmap_cons, NoDup_cons. intros [Hnew Hnd]. cbn [foldl]. rewrite !bind_cons. cbn [fst snd].
  set (acc := sweep_owner now (os, ex, tc, ch) (o, st)).
  assert (∃ ch1, acc = (<[o := (expire_owner o st now).1]> os,
    ex ++ (expire_owner o st now).2,
    tc ++ (expired_tag_change o (OwnerScopes.live st) <$> (expire_owner o st now).2), ch ++ ch1) ∧
    (∀ o', o' ∈ ch1 ↔ o' = o ∧ (expire_owner o st now).2 ≠ [])) as (ch1 & Hacc & Hch1).
  { unfold acc, sweep_owner. destruct (expire_owner o st now) as [st' [|e expired]]; cbn [fst snd].
    - exists []. rewrite !app_nil_r. split; [done|]. set_solver.
    - exists [o]. split; [done|]. intros o'. rewrite list_elem_of_singleton. naive_solver. }
  clearbody acc. subst acc.
  specialize (IH (<[o := (expire_owner o st now).1]> os) (ex ++ (expire_owner o st now).2)
    (tc ++ (expired_tag_change o (OwnerScopes.live st) <$> (expire_owner o st now).2)) (ch ++ ch1) Hnd).
  destruct (foldl _ _ _) as [[[os' ex'] tc'] ch']. destruct IH as (Hin & Hout & Hch & -> & ->).
  split_and!.
  - intros o' st' [[= -> ->]|Hel]%elem_of_cons; [|by apply Hin]. by rewrite Hout, lookup_insert_eq.
  - intros o' [? ?]%not_elem_of_cons. by rewrite Hout, lookup_insert_ne.
  - intros o'. rewrite Hch, elem_of_app, Hch1. setoid_rewrite elem_of_cons. naive_solver.
  - by rewrite (assoc_L app).
  - by rewrite (assoc_L app).
Qed.

Lemma sweep_fold_changed now entries acc :
  (length (foldl (sweep_owner now) acc entries).2 ≤ length acc.2 + length entries)%nat.
Proof.
  revert acc; induction entries as [|[o st] entries IH]; intros [[[os ex] tc] ch]; cbn [foldl]; [simpl; lia|].
  etrans; [apply IH|]. unfold sweep_owner. destruct (expire_owner o st now) as [st' [|e expired]]; simpl.
  - lia.
  - rewrite length_app. simpl. lia.
Qed.

Section sweep.
Context `{HashOrder}.
Context (t : ScopeTable) (now : Z).

(** Every owner's expired scopes gone, no link refreshed yet. *)
Definition swept_owners : gmap string OwnerScopes.t :=
  map_imap (λ o st, Some (expire_owner o st now).1) (owners t).

Definition swept : ScopeTable := with_owners t swept_owners.

Definition sweep_changes : list ScopeTagChange.t :=
  e ← hash_iter (owners t);
  expired_tag_change e.1 (OwnerScopes.live e.2) <$> (expire_owner e.1 e.2 now).2.

(** The sweep is the expiry pass followed by one refresh per changed owner. *)
Lemma sweep_expired_split :
  ∃ changed,
    ((∀ o, o ∈ changed ↔ (expire_owner o (owner_state t o) now).2 ≠ []) ∧
     (length changed ≤ size (owners t))%nat) ∧
    sweep_expired t now
    = let r := foldl (λ acc owner, refresh_links_to acc.1 owner acc.2) (swept, sweep_changes) changed in
      (r.1, mkExpirySwept (e ← hash_iter (owners t); (expire_owner e.1 e.2 now).2) r.2).
Proof.
  unfold sweep_expired.
  pose proof (sweep_fold now (hash_iter (owners t)) (owners t) [] [] [] (NoDup_fst_hash_iter _)) as Hs.
  pose proof (sweep_fold_changed now (hash_iter (owners t)) (owners t, [], [], [])) as Hlen.
  assert (length (hash_iter (owners t)) = size (owners t)) as Hsize
    by (by rewrite hash_iter_perm, length_map_to_list).
  rewrite Hsize in Hlen.
  destruct (foldl (sweep_owner now) _ _) as [[[os ex] tc] ch].
  destruct Hs as (Hin & Hout & Hch & -> & ->). exists ch. split; [split; [|exact Hlen]|].
  - intros o. rewrite Hch. unfold owner_state. setoid_rewrite elem_of_hash_iter.
    destruct (owners t !! o) as [st|]; simpl.
    + split; [|by eauto]. intros [?|(? & [= <-] & ?)]; [set_solver|done].
    + split; [|by intros []]. intros [?|(? & ? & ?)]; [set_solver|done].
  - replace os with swept_owners; [fold swept sweep_changes; by destruct (foldl _ _ _)|].
    apply map_eq. intros o. unfold swept_owners. rewrite map_lookup_imap.
    destruct (owners t !! o) as [st|] eqn:Ho; simpl.
    + symmetry. apply Hin. by apply elem_of_hash_iter.
    + symmetry. rewrite Hout; [done|]. intros ([o' st] & -> & Hel)%list_elem_of_fmap.
      apply elem_of_hash_iter in Hel. simpl in Ho. congruence.
Qed.

Lemma swept_state o : owner_state swept o = (expire_owner o (owner_state t o) now).1.
Proof.
  unfold owner_state, swept, swept_owners, with_owners; simpl. rewrite map_lookup_imap.
  by destruct (owners t !! o).
Qed.

Lemma swept_scope_at k s :
  scope_at swept k = Some s ↔ scope_at t k = Some s ∧ not_expired now s.
Proof.
  rewrite !scope_at_state, swept_state.
  pose proof (expire_owner_spec k.1 (owner_state t k.1) now) as Hexp.
  destruct (expire_owner _ _ _) as [st' expired]; simpl.
  destruct Hexp as (_ & _ & -> & _). rewrite map_lookup_filter_Some. done.
Qed.

Lemma swept_synced o : synced_at swept o = synced_at t o.
Proof.
  rewrite !synced_at_state, swept_state.
  pose proof (expire_owner_spec o (owner_state t o) now) as Hexp.
  destruct (expire_owner _ _ _) as [st' expired]. apply Hexp.
Qed.

Lemma elem_of_expired o e :
  e ∈ (expire_owner o (owner_state t o) now).2 ↔
  ∃ s, scope_at t (o, ScopeExpired.scope_ref e) = Some s ∧
    e = ScopeExpired.mk o (ScopeExpired.scope_ref e)
          (ScopeRecord.scope_epoch (LiveScope.record s)) (ScopeExpired.expires_at_ms e) ∧
    passed_deadline now (LiveScope.record s) = Some (ScopeExpired.expires_at_ms e).
Proof.
  pose proof (expire_owner_spec o (owner_state t o) now) as Hexp.
  destruct (expire_owner _ _ _) as [st' expired]; simpl.
  destruct Hexp as (_ & _ & _ & _ & ->). rewrite list_elem_of_omap.
  setoid_rewrite scope_at_state. simpl. split.
  - intros ([x s] & Hin & He). apply elem_of_btree_iter in Hin. unfold expired_of in He; simpl in He.
    destruct (passed_deadline now (LiveScope.record s)) eqn:Hd; simplify_eq/=. by exists s.
  - intros (s & Hs & He & Hd). exists (ScopeExpired.scope_ref e, s).
    split; [by apply elem_of_btree_iter|]. unfold expired_of; simpl. rewrite Hd; simpl. f_equal. by symmetry.
Qed.

Lemma unchanged_epoch_at o x :
  (expire_owner o (owner_state t o) now).2 = [] → epoch_at swept (o, x) = epoch_at t (o, x).
Proof.
  intros Hnil. unfold epoch_at. f_equal. apply option_eq. intros s. rewrite swept_scope_at.
  split; [by intros []|]. intros Hs. split; [done|]. unfold not_expired.
  destruct (passed_deadline now (LiveScope.record s)) as [d|] eqn:Hd; [|done].
  assert (ScopeExpired.mk o x (ScopeRecord.scope_epoch (LiveScope.record s)) d
            ∈ (expire_owner o (owner_state t o) now).2) as Hin.
  { apply elem_of_expired. by exists s. }
  rewrite Hnil in Hin. set_solver.
Qed.

Lemma swept_links changed :
  (∀ o, o ∈ changed ↔ (expire_owner o (owner_state t o) now).2 ≠ []) →
  links_except ∅ t → links_except (list_to_set changed) swept.
Proof.
  intros Hch [Hl Hp]. split; intros k s p [Hs _]%swept_scope_at Hpar Hst.
  - destruct (Hl k s p Hs Hpar Hst) as (o & Ho & [?|He]); [set_solver|]. exists o. split; [done|].
    destruct (decide (o ∈ changed)) as [?|Hno]; [left; by apply elem_of_list_to_set|right].
    rewrite unchanged_epoch_at; [done|]. rewrite Hch in Hno. by apply dec_stable.
  - destruct (Hp k s p Hs Hpar Hst) as (o & Ho & [?|He]); [set_solver|]. exists o. split; [done|].
    right. by rewrite swept_synced.
Qed.

Lemma swept_acyclic : acyclic t → acyclic swept.
Proof.
  intros Hac. apply (acyclic_transfer t); [done|].
  intros k k' e (s & p & [Hs _]%swept_scope_at & Hst & Hpar & Ho & Hr & He)%linked_up_Some _ _.
  apply linked_up_Some. exists s, p. split_and!; try done.
  unfold epoch_at in *. apply fmap_Some in He as (s' & [Hs' _]%swept_scope_at & ->). by rewrite Hs'.
Qed.

Lemma swept_owner_ok `{AttributeJson} authorized o :
  owner_ok authorized (owner_state t o) → owner_ok authorized (owner_state swept o).
Proof. intros. rewrite swept_state. by apply expire_owner_ok. Qed.
End sweep.

(** A run of refreshes. *)
Lemma refreshes_ok `{HashOrder} `{AttributeJson} changed t tc :
  let t' := (foldl (λ acc owner, refresh_links_to acc.1 owner acc.2) (t, tc) changed).1 in
  (∀ o, owner_ok (owner_authorized t o) (owner_state t o)) →
  links_except (list_to_set changed) t → acyclic t → table_ok t'.
Proof.
  revert t tc; induction changed as [|o changed IH]; intros t tc t' Hown Hl Hac; cbn [foldl] in t'.
  { by split. }
  unfold t'. destruct (refresh_links_to t o tc) as [t1 tc1] eqn:Hr.
  assert (t1 = (refresh_links_to t o tc).1) as Ht1 by (by rewrite Hr).
  cbn [fst snd]. rewrite Hr. apply IH; subst t1.
  - intros o'. destruct (refresh_spec t o tc) as [(Ha & _) _].
    unfold owner_authorized. rewrite Ha.
    exact (refresh_owner_ok t o tc _ o' (Hown o')).
  - by apply refresh_links_except.
  - by apply refresh_acyclic.
Qed.

Lemma sweep_ok `{HashOrder} `{AttributeJson} t now :
  table_ok t → table_ok (sweep_expired t now).1.
Proof.
  intros [Hown Hl Hac]. destruct (sweep_expired_split t now) as (changed & [Hch _] & ->).
  cbn [fst]. apply refreshes_ok.
  - intros o. apply swept_owner_ok. exact (Hown o).
  - by apply swept_links.
  - by apply swept_acyclic.
Qed.

(** Refreshing changes no record. *)
Lemma refreshes_records `{HashOrder} changed t tc k :
  LiveScope.record <$> scope_at
    (foldl (λ acc owner, refresh_links_to acc.1 owner acc.2) (t, tc) changed).1 k
  = LiveScope.record <$> scope_at t k.
Proof.
  revert t tc; induction changed as [|o changed IH]; intros t tc; cbn [foldl]; [done|].
  cbn [fst snd]. pose proof (refresh_spec t o tc) as [(_ & _ & Hs) _]. specialize (Hs k).
  destruct (refresh_links_to t o tc) as [t1 tc1]. rewrite IH. simpl in Hs.
  inversion Hs as [s s' (Hr & _)|]; simpl; congruence.
Qed.

Lemma sweep_exact `{HashOrder} t now :
  (∀ k, LiveScope.record <$> scope_at (sweep_expired t now).1 k
        = opt_filter (λ r, is_none (passed_deadline now r)) (LiveScope.record <$> scope_at t k)) ∧
  (∀ e, e ∈ swept_expired (sweep_expired t now).2 ↔
        ∃ s, scope_at t (ScopeExpired.owner e, ScopeExpired.scope_ref e) = Some s ∧
             ScopeExpired.scope_epoch e = ScopeRecord.scope_epoch (LiveScope.record s) ∧
             passed_deadline now (LiveScope.record s) = Some (ScopeExpired.expires_at_ms e)).
Proof.
  destruct (sweep_expired_split t now) as (changed & _ & ->). cbn [fst snd swept_expired]. split.
  - intros k. rewrite refreshes_records. apply option_eq. intros r.
    rewrite opt_filter_Some, is_none_true, !fmap_Some. split.
    + intros (s & [Hs Hn]%swept_scope_at & ->). eauto.
    + intros [(s & Hs & ->) Hn]. exists s. split; [|done]. by apply swept_scope_at.
  - intros e. rewrite list_elem_of_bind. split.
    + intros ([o st] & He & Hin%elem_of_hash_iter). simpl in *.
      replace st with (owner_state t o) in He by (unfold owner_state; by rewrite Hin).
      apply elem_of_expired in He as (s & Hs & Heq & Hp). exists s.
      destruct e as [eo er ee ed]; simpl in *. injection Heq as <- <-. done.
    + intros (s & Hs & He & Hp). destruct (owners t !! ScopeExpired.owner e) as [st|] eqn:Ho.
      2:{ unfold scope_at in Hs; simpl in Hs. by rewrite Ho in Hs. }
      exists (ScopeExpired.owner e, st). split; [|by apply elem_of_hash_iter]. simpl.
      replace st with (owner_state t (ScopeExpired.owner e)) by (unfold owner_state; by rewrite Ho).
      apply elem_of_expired. exists s. split_and!; [done| |done]. destruct e; simpl in *. congruence.
Qed.
