(* ===== verification/ScopeTags.v ===== *)
(** * What a change of the table reports

    The tag changes of a sync, an apply or a sweep name exactly the scopes
    whose published tag moved, and their drains cover every loss of authority. *)

From S2P Require Import Prelude Collections Envelope Tokens ScopeTypes Scopes.
From S2P Require Import ScopeTombstones ScopeLinks ScopeSettle ScopeSync ScopeRefresh.
From S2P Require Import ScopeInvariant ScopeGraph ScopeTableOk ScopeSweep.

(** ** A sync's own changes *)

Section stored_tags.
Context (t : ScopeTable) (owner : string) (state' : OwnerScopes.t) (version : Z).

Definition own_tag_changes : list ScopeTagChange.t :=
  omap (tag_change_of owner (OwnerScopes.live (owner_state t owner)) (OwnerScopes.live state'))
    (btree_set_iter (dom (OwnerScopes.live (owner_state t owner)) ∪ dom (OwnerScopes.live state'))).

Lemma tag_change_of_Some live live' x ch :
  tag_change_of owner live live' x = Some ch →
  change_key ch = (owner, x) ∧ ScopeTagChange.before ch = LiveScope.tag <$> (live !! x) ∧
  ScopeTagChange.after ch = LiveScope.tag <$> (live' !! x).
Proof. unfold tag_change_of. case_decide; intros; simplify_eq/=. done. Qed.

Lemma own_tag_changes_cover : tags_cover t (stored t owner state' version) own_tag_changes.
Proof.
  assert (∀ x, tag_at t (owner, x)
    = LiveScope.tag <$> (OwnerScopes.live (owner_state t owner) !! x)) as Hbefore
    by (intros; unfold tag_at; by rewrite scope_at_state).
  assert (∀ x, tag_at (stored t owner state' version) (owner, x)
    = LiveScope.tag <$> (OwnerScopes.live state' !! x)) as Hafter
    by (intros; unfold tag_at; by rewrite stored_own).
  split.
  - apply (NoDup_omap_key _ (pair owner)).
    + intros x ch Hch. by apply tag_change_of_Some in Hch as [? _].
    + apply NoDup_fmap_2; [by intros ?? [=]|apply NoDup_btree_set_iter].
  - intros ch (x & _ & Hch)%list_elem_of_omap.
    apply tag_change_of_Some in Hch as (-> & -> & ->). by rewrite Hbefore, Hafter.
  - intros [o x] Hne. destruct (decide (o = owner)) as [->|Ho].
    2: { exfalso. apply Hne. unfold tag_at. by rewrite stored_other. }
    rewrite Hbefore, Hafter in Hne.
    destruct (tag_change_of owner (OwnerScopes.live (owner_state t owner)) (OwnerScopes.live state') x)
      as [ch|] eqn:Hch; [|unfold tag_change_of in Hch; by rewrite decide_False in Hch].
    pose proof (tag_change_of_Some _ _ _ _ Hch) as (Hk & _). apply list_elem_of_fmap. exists ch.
    split; [done|]. apply list_elem_of_omap. exists x. split; [|done].
    apply elem_of_btree_set_iter, elem_of_union. rewrite !elem_of_dom.
    destruct (OwnerScopes.live (owner_state t owner) !! x), (OwnerScopes.live state' !! x);
      naive_solver.
Qed.
End stored_tags.

(** ** A sweep's changes *)

Lemma refreshes_cover `{HashOrder} changed t0 t tc :
  tags_cover t0 t tc →
  let r := foldl (λ acc owner, refresh_links_to acc.1 owner acc.2) (t, tc) changed in
  tags_cover t0 r.1 r.2.
Proof.
  revert t tc; induction changed as [|o changed IH]; intros t tc Hcov; [done|]. cbn [foldl].
  pose proof (refresh_cover t0 t o tc Hcov) as Hone. cbn [fst snd].
  destruct (refresh_links_to t o tc) as [t1 tc1]. by apply IH.
Qed.

Section sweep_tags.
Context `{HashOrder}.
Context (t : ScopeTable) (now : Z).

Lemma elem_of_sweep_changes ch :
  ch ∈ sweep_changes t now ↔
  ∃ o e, e ∈ (expire_owner o (owner_state t o) now).2 ∧
         ch = expired_tag_change o (OwnerScopes.live (owner_state t o)) e.
Proof.
  unfold sweep_changes. rewrite list_elem_of_bind. split.
  - intros ([o st] & Hch & Hin). apply elem_of_hash_iter in Hin.
    apply list_elem_of_fmap in Hch as (e & -> & He). exists o, e. unfold owner_state. by rewrite Hin.
  - intros (o & e & He & ->). unfold owner_state in *. destruct (owners t !! o) as [st|] eqn:Ho.
    + exists (o, st). split; [|by apply elem_of_hash_iter]. by apply list_elem_of_fmap_2.
    + simpl in He. unfold expire_owner in He. simpl in He. set_solver.
Qed.

Lemma NoDup_expired_refs o st :
  NoDup (ScopeExpired.scope_ref <$> (expire_owner o st now).2).
Proof.
  pose proof (expire_owner_spec o st now) as Hexp. destruct (expire_owner o st now) as [st' ex]; simpl.
  destruct Hexp as (_ & _ & _ & _ & ->). apply (NoDup_omap_key _ fst); [|apply NoDup_fst_btree_iter].
  intros [x s] e. unfold expired_of; simpl.
  destruct (passed_deadline now (LiveScope.record s)); intros; by simplify_eq/=.
Qed.

Lemma sweep_changes_cover : tags_cover t (swept t now) (sweep_changes t now).
Proof.
  split.
  - unfold sweep_changes. pose proof (NoDup_fst_hash_iter (owners t)) as Hnd. revert Hnd.
    induction (hash_iter (owners t)) as [|[o st] l IH]; [constructor|].
    rewrite fmap_cons, NoDup_cons, bind_cons, fmap_app, NoDup_app. intros [Hnew Hnd].
    split_and!; [| |by apply IH].
    + rewrite <-list_fmap_compose. cbn [fst snd].
      replace (change_key ∘ expired_tag_change o (OwnerScopes.live st) <$> (expire_owner o st now).2)
        with (pair o <$> (ScopeExpired.scope_ref <$> (expire_owner o st now).2))
        by (by rewrite <-list_fmap_compose).
      apply NoDup_fmap_2; [by intros ?? [=]|apply NoDup_expired_refs].
    + intros k Hk Hk'. apply list_elem_of_fmap in Hk as (? & -> & Hk), Hk' as (? & Heq & Hk').
      apply list_elem_of_fmap in Hk as (e & -> & _).
      apply list_elem_of_bind in Hk' as ([o' st'] & Hk' & Hl).
      apply list_elem_of_fmap in Hk' as (e' & -> & _). unfold change_key in Heq; simplify_eq/=.
      apply Hnew, list_elem_of_fmap. by exists (o', st').
  - intros ch (o & e & He & ->)%elem_of_sweep_changes. unfold change_key, expired_tag_change; simpl.
    apply elem_of_expired in He as (s & Hs & _ & Hd). unfold tag_at. rewrite (scope_at_state t).
    split; [done|]. destruct (scope_at (swept t now) _) as [s'|] eqn:Hs'; [|done].
    apply swept_scope_at in Hs' as [Hs' Hno]. unfold not_expired in Hno. congruence.
  - intros [o x] Hne. unfold tag_at in Hne.
    destruct (scope_at t (o, x)) as [s|] eqn:Hs; last first.
    { destruct (scope_at (swept t now) (o, x)) as [s'|] eqn:Hs'; [|done].
      apply swept_scope_at in Hs' as [? _]. congruence. }
    destruct (passed_deadline now (LiveScope.record s)) as [d|] eqn:Hd; last first.
    { destruct Hne. by rewrite (proj2 (swept_scope_at t now (o, x) s)). }
    set (e := ScopeExpired.mk o x (ScopeRecord.scope_epoch (LiveScope.record s)) d).
    apply list_elem_of_fmap. exists (expired_tag_change o (OwnerScopes.live (owner_state t o)) e).
    split; [done|]. apply elem_of_sweep_changes. exists o, e. split; [|done].
    apply elem_of_expired. by exists s.
Qed.
End sweep_tags.
