(* ===== verification/ScopeDrains.v ===== *)
(** * Which routes a change closes

    Carrier permission, and the drain computed for a change of one scope: it
    closes exactly the routes whose authority the change takes away. *)

From S2P Require Import Prelude Collections Tokens ScopeTypes Scopes.

(** The reason a drain closes a route of the scope with, as
    [publish_scope_changes] selects it; [None] leaves the route up. *)
Definition drain_reason (drain : ScopeDrain.t) (scope_owner : string) (principal : Principal)
    (module_id : string) : option RouteCloseReason.t :=
  match drain with
  | ScopeDrain.Nothing => None
  | ScopeDrain.All reason => Some reason
  | ScopeDrain.Carriers narrowed =>
      let hit :=
        negb (bool_decide (principal = Reserved scope_owner))
        && existsb (λ '(p, allowed),
                      bool_decide (p = principal)
                      && is_none_or (λ targets, negb (bool_decide (module_id ∈ targets))) allowed)
                   narrowed in
      if hit then Some RouteCloseReason.ScopeCarrierRemoved else None
  end.

(** ** Carrier permission *)

Section carriers.
Implicit Types (r : ScopeRecord.t) (p : Principal) (m : string).

Definition carrier_entry r p (c : ScopeCarrier.t) : Prop :=
  c ∈ ScopeRecord.carriers r ∧ ScopeCarrier.principal c = p.

(** The allowance accumulated over a list of the principal's entries. *)
Lemma allowance_fold (cs : list ScopeCarrier.t) (acc : option (option (gset string))) :
  let step := λ allowance carrier,
    Some (match allowance, ScopeCarrier.targets carrier with
          | Some None, _ => None
          | _, None => None
          | Some (Some set), Some targets => Some (set ∪ list_to_set targets)
          | None, Some targets => Some (list_to_set targets)
          end) in
  (foldl step acc cs = None ↔ acc = None ∧ cs = []) ∧
  ∀ m,
    match foldl step acc cs with
    | None => False | Some None => True | Some (Some set) => m ∈ set end ↔
    match acc with None => False | Some None => True | Some (Some set) => m ∈ set end ∨
    ∃ c, c ∈ cs ∧ (ScopeCarrier.targets c = None ∨
                   ∃ ts, ScopeCarrier.targets c = Some ts ∧ m ∈ ts).
Proof.
  cbv zeta. revert acc; induction cs as [|c cs IH]; intros acc; simpl.
  { split; [naive_solver|]. intros m. set_solver. }
  destruct (IH (Some (match acc, ScopeCarrier.targets c with
          | Some None, _ => None
          | _, None => None
          | Some (Some set), Some targets => Some (set ∪ list_to_set targets)
          | None, Some targets => Some (list_to_set targets)
          end))) as [IH1 IH2]. split.
  { rewrite IH1. naive_solver. }
  intros m. rewrite IH2. setoid_rewrite elem_of_cons.
  destruct acc as [[set|]|], (ScopeCarrier.targets c) as [ts|] eqn:Hts; set_solver.
Qed.

Lemma carrier_allowance_None r p :
  carrier_allowance r p = None ↔ ∀ c, ¬ carrier_entry r p c.
Proof.
  unfold carrier_allowance, carrier_entry.
  destruct (allowance_fold (filter (λ c, ScopeCarrier.principal c = p) (ScopeRecord.carriers r)) None)
    as [Hn _]. rewrite Hn. split.
  - intros [_ Hnil] c [Hin Hp]. assert (c ∈ @nil ScopeCarrier.t); [|set_solver].
    rewrite <-Hnil. by apply list_elem_of_filter.
  - intros Hno. split; [done|]. destruct (filter _ _) as [|c cs] eqn:Hf; [done|].
    assert (c ∈ c :: cs) as Hin by set_solver. rewrite <-Hf in Hin.
    apply list_elem_of_filter in Hin as [? ?]. by destruct (Hno c).
Qed.

(** A carrier may open to a module when one of its entries names no targets or
    lists the module. *)
Lemma carrier_permitted_spec r p m :
  carrier_permitted r p m = true ↔
  ∃ c, carrier_entry r p c ∧
    (ScopeCarrier.targets c = None ∨ ∃ ts, ScopeCarrier.targets c = Some ts ∧ m ∈ ts).
Proof.
  unfold carrier_permitted, carrier_entry.
  destruct (allowance_fold (filter (λ c, ScopeCarrier.principal c = p) (ScopeRecord.carriers r)) None)
    as [_ Hm]. specialize (Hm m). fold (carrier_allowance r p) in Hm.
  setoid_rewrite list_elem_of_filter in Hm.
  destruct (carrier_allowance r p) as [[set|]|]; rewrite ?bool_decide_eq_true; naive_solver.
Qed.

Lemma elem_of_carrier_principals r p :
  p ∈ carrier_principals r ↔ carrier_allowance r p ≠ None.
Proof.
  rewrite carrier_allowance_None. unfold carrier_principals, carrier_entry.
  assert (∀ cs acc, p ∈ foldl (λ principals carrier,
           if decide (ScopeCarrier.principal carrier ∈ principals) then principals
           else principals ++ [ScopeCarrier.principal carrier]) acc cs ↔
    p ∈ acc ∨ ∃ c, c ∈ cs ∧ ScopeCarrier.principal c = p) as Hfold.
  { induction cs as [|c cs IH]; intros acc; simpl; [set_solver|]. rewrite IH.
    setoid_rewrite elem_of_cons. case_decide; set_solver. }
  rewrite Hfold. split.
  - intros [?|(c & ? & ?)]; [set_solver|]. naive_solver.
  - intros Hno. right.
    destruct (decide (Exists (λ c, ScopeCarrier.principal c = p) (ScopeRecord.carriers r))) as [Hex|Hex].
    + apply Exists_exists in Hex as (c & ? & ?). eauto.
    + destruct Hno. intros c [? ?]. apply Hex, Exists_exists. eauto.
Qed.
End carriers.

(** ** The drain of a content change *)

Section drain.
Context (o : string) (b a : LiveScope.t) (p : Principal) (m : string).

Abbreviation rb := (LiveScope.record b).
Abbreviation ra := (LiveScope.record a).

(** The change takes away the authority a route of [p] to [m] stands on. *)
Definition revoked : Prop :=
  delegation_changed (ScopeRecord.attributes rb) (ScopeRecord.attributes ra) = true ∨
  (LiveScope.parent_state a = Some ParentState.Ended ∧
   LiveScope.parent_state b ≠ Some ParentState.Ended) ∨
  (p ≠ Reserved o ∧ carrier_permitted ra p m = false).

(** The route was allowed to be open: its opener is the owner or a carrier. *)
Definition was_permitted : Prop := p = Reserved o ∨ carrier_permitted rb p m = true.

Lemma narrowed_hit :
  p ≠ Reserved o → carrier_permitted rb p m = true →
  existsb (λ '(p', allowed),
             bool_decide (p' = p)
             && is_none_or (λ targets, negb (bool_decide (m ∈ targets))) allowed)
          (narrowed_carriers rb ra) = negb (carrier_permitted ra p m).
Proof.
  intros Hp Hperm. apply eq_true_iff_eq. rewrite existsb_exists, negb_true_iff.
  setoid_rewrite <-list_elem_of_In. unfold narrowed_carriers.
  unfold carrier_permitted in *. split.
  - intros ([p' allowed] & Hin & Hhit). apply andb_prop in Hhit as [->%bool_decide_eq_true Hall].
    apply list_elem_of_omap in Hin as (p' & _ & Hn).
    destruct (carrier_allowance rb p') as [[old|]|] eqn:Hb; [| |done];
      destruct (carrier_allowance ra p') as [[set|]|] eqn:Ha; try done;
      try (case_bool_decide; simpl in Hn; try done);
      injection Hn as -> <-; rewrite Ha; try done; by apply negb_true_iff in Hall.
  - intros Hnot. destruct (carrier_allowance rb p) as [was|] eqn:Hb; [|done].
    assert (p ∈ carrier_principals rb) as Hin by (apply elem_of_carrier_principals; congruence).
    destruct (carrier_allowance ra p) as [[set|]|] eqn:Ha; [|done|].
    + exists (p, Some set). rewrite bool_decide_eq_true_2 by done; simpl. rewrite Hnot. split; [|done].
      apply list_elem_of_omap. exists p. split; [done|]. rewrite Hb, Ha. destruct was as [old|]; [|done].
      rewrite bool_decide_eq_false_2; [done|]. intros Hsub.
      apply bool_decide_eq_true in Hperm. apply bool_decide_eq_false in Hnot. set_solver.
    + exists (p, None). rewrite bool_decide_eq_true_2 by done. split; [|done].
      apply list_elem_of_omap. exists p. split; [done|].
      rewrite Hb, Ha. by destruct was.
Qed.

Lemma drain_reason_widen d d' :
  is_Some (drain_reason d o p m) → is_Some (drain_reason (ScopeDrain.widen d d') o p m).
Proof.
  unfold ScopeDrain.widen. destruct (_ <? _) eqn:Hlt; [|done].
  destruct d as [|r|n], d' as [|r'|n']; simpl; try done; destruct r; simpl in Hlt; lia.
Qed.

Lemma drain_reason_widen_all d r : is_Some (drain_reason (ScopeDrain.widen d (ScopeDrain.All r)) o p m).
Proof.
  unfold ScopeDrain.widen. destruct (_ <? _) eqn:Hlt; [done|].
  destruct d as [|r'|n]; simpl; [|done|]; destruct r; simpl in Hlt; lia.
Qed.

(** The drain computed for a change at one epoch closes a permitted route
    exactly when the change revokes it. *)
Lemma drain_for_change_spec :
  was_permitted → is_Some (drain_reason (drain_for_change b a) o p m) ↔ revoked.
Proof.
  intros Hwas. unfold drain_for_change, revoked.
  set (d0 := match narrowed_carriers rb ra with [] => _ | _ => _ end).
  assert (is_Some (drain_reason d0 o p m) ↔ p ≠ Reserved o ∧ carrier_permitted ra p m = false) as Hd0.
  { transitivity (negb (bool_decide (p = Reserved o)) &&
      existsb (λ '(p', allowed), bool_decide (p' = p)
        && is_none_or (λ targets, negb (bool_decide (m ∈ targets))) allowed)
        (narrowed_carriers rb ra) = true).
    - unfold d0. destruct (narrowed_carriers rb ra) as [|n ns]; cbn [drain_reason existsb].
      + rewrite andb_false_r. split; [by intros [? ?]|done].
      + destruct (negb _ && _); [by split; [|eexists]|]. split; [by intros [? ?]|done].
    - rewrite andb_true_iff, negb_true_iff, bool_decide_eq_false.
      split; intros [Hne Hx]; (split; [done|]); destruct Hwas as [?|Hperm]; try done;
        rewrite narrowed_hit in *; by destruct (carrier_permitted ra p m). }
  destruct (delegation_changed _ _).
  { split; [by left|]. intros _. destruct (_ && _); apply drain_reason_widen_all ||
      apply drain_reason_widen, drain_reason_widen_all. }
  destruct (_ && _) eqn:Hend.
  - apply andb_prop in Hend as [?%bool_decide_eq_true Hb].
    apply negb_true_iff, bool_decide_eq_false in Hb.
    split; [|intros _; apply drain_reason_widen_all]. intros _. right. by left.
  - rewrite Hd0. split; [tauto|]. intros [?|[[Ha Hb]|?]]; [done| |done].
    apply andb_false_iff in Hend as [Hn%bool_decide_eq_false|Hn]; [done|].
    by apply negb_false_iff, bool_decide_eq_true in Hn.
Qed.
End drain.
