(* ===== verification/Forwarding.v ===== *)
(** * The forwarding table ([crates/subc-daemon/src/forwarding.rs])

    Which connections are modules, which route of a client leads to which route
    of a module, the binds still waiting for their module's answer, the drains,
    and the tags scopes are published under.

    A [FrameSink] is the number of its connection's queue; what the code asks of
    it (is it closed, did it take the frame) is an argument of the operation.
    What an operation sends or settles outside the table is its list of
    [Effect]s.  A binding is shared by the two route indexes: [addr] is its
    allocation, which also names its flow in [flows].  Fields the table only
    carries for others (harness, build class, operator app, project root) are
    left out, as are counters and logs; refusals carry their code. *)

From S2P Require Import Prelude Collections Envelope Tokens ScopeTypes Scopes ScopeDrains Flow.

(** ** Keys *)

Module ModuleEndpointId.
Record t := mk { connection_id : Z; generation : Z }.
#[global] Instance eq_dec : EqDecision t.
Proof. solve_decision. Defined.
#[global] Instance countable : Countable t :=
  inj_countable' (λ e, (connection_id e, generation e)) (λ '(c, g), mk c g) ltac:(by intros []).
End ModuleEndpointId.

Module ClientRouteKey.
Record t := mk { connection_id : Z; channel : Z }.
#[global] Instance eq_dec : EqDecision t.
Proof. solve_decision. Defined.
#[global] Instance countable : Countable t :=
  inj_countable' (λ e, (connection_id e, channel e)) (λ '(c, g), mk c g) ltac:(by intros []).
End ClientRouteKey.

Module ModuleRouteKey.
Record t := mk { endpoint : ModuleEndpointId.t; channel : Z }.
#[global] Instance eq_dec : EqDecision t.
Proof. solve_decision. Defined.
#[global] Instance countable : Countable t :=
  inj_countable' (λ e, (endpoint e, channel e)) (λ '(c, g), mk c g) ltac:(by intros []).
End ModuleRouteKey.

(** A pending relay or control call: the endpoint and its correlation id. *)
Abbreviation RelayKey := (ModuleEndpointId.t * Z)%type (only parsing).
Abbreviation Sink := Z (only parsing).

(** ** Data *)

Module RouteBinding.
Record t := mk {
  addr : positive;
  client_connection_id : Z;
  client_sink : Sink;
  client_negotiated_ver : Z;
  client_channel : Z;
  client_epoch : Z;
  module_id : string;
  module_endpoint : ModuleEndpointId.t;
  module_sink : Sink;
  module_negotiated_ver : Z;
  module_channel : Z;
  module_epoch : Z;
  principal : Principal;
  bound_at : Z;
  scope : option BoundScope.t;
}.

Definition client_key (r : t) : ClientRouteKey.t :=
  ClientRouteKey.mk (client_connection_id r) (client_channel r).
Definition module_key (r : t) : ModuleRouteKey.t :=
  ModuleRouteKey.mk (module_endpoint r) (module_channel r).
End RouteBinding.

Module DataRouteState.
Inductive t :=
  | Bound (route : RouteBinding.t)
  | Reserved
  | EpochMismatch
  | Absent.
End DataRouteState.

Inductive DataRoute :=
  | ClientSide (s : DataRouteState.t)
  | ModuleSide (s : DataRouteState.t).

Inductive GoodbyeTargetKind := ToClient | ToModule.

Module GoodbyeTarget.
Record t := mk {
  connection_id : Z;
  sink : Sink;
  negotiated_ver : Z;
  channel : Z;
  epoch : Z;
  kind : GoodbyeTargetKind;
  module_id : option string;
}.

Definition close_on_delivery_failure (g : t) : bool :=
  match kind g with ToClient => true | ToModule => false end.
End GoodbyeTarget.

Module EndpointRoute.
Record t := mk {
  goodbye_target : GoodbyeTarget.t;
  principal : Principal;
  bound_at : Z;
  draining : bool;
  drain_reason : option RouteCloseReason.t;
}.
End EndpointRoute.

Module ScopeDrainedRoute.
Record t := mk {
  reason : RouteCloseReason.t;
  scope : BoundScope.t;
  module_id : string;
  client : GoodbyeTarget.t;
  module : GoodbyeTarget.t;
}.
End ScopeDrainedRoute.

Module PendingRouteBindRelay.
Record t := mk {
  endpoint : ModuleEndpointId.t;
  module_sink : Sink;
  negotiated_ver : Z;
  client_channel : Z;
  client_epoch : Z;
  module_channel : Z;
  module_epoch : Z;
  corr : Z;
}.
End PendingRouteBindRelay.

Module ModuleDrainTarget.
Record t := mk {
  endpoint : ModuleEndpointId.t;
  sink : Sink;
  negotiated_ver : Z;
  abandoned_bindings : list GoodbyeTarget.t;
  excluded_subscriptions : Z;
}.
End ModuleDrainTarget.

Inductive RouteBindRelayOutcome :=
  | Accepted
  | Rejected (code : string)
  | DaemonRejected (code : string)
  | ModuleGone.

Record ForwardingCutover := mkForwardingCutover {
  promoted : ModuleEndpointId.t;
  incumbent : option ModuleEndpointId.t;
}.

Record ConnectionCleanup := mkConnectionCleanup {
  released_routes : list GoodbyeTarget.t;
  abandoned_relays : Z;
}.

Record PendingRelayCompletion := mkPendingRelayCompletion {
  settled_relay : bool;
  abandoned : option GoodbyeTarget.t;
}.

Module PendingModuleControlRpc.
Record t := mk {
  endpoint : ModuleEndpointId.t;
  module_sink : Sink;
  negotiated_ver : Z;
  corr : Z;
}.
End PendingModuleControlRpc.

(** The response body of a control call is opaque here. *)
Inductive ModuleControlRpcOutcome :=
  | ControlResponse (body : list byte)
  | ControlRejected (code : string)
  | ControlModuleGone
  | MalformedResponse
  | UnexpectedOp (expected actual : string)
  | DeadlineElapsed.

Inductive ModuleControlRpcCompletion :=
  | UnknownRpc
  | SettledRpc
  | LateHealthAnswer (module_id : string) (latency : Z).

Module PendingModuleControlRpcEntry.
Record t := mk {
  expected_op : string;
  deadline : Z;
  health_probe_started_at : option Z;
}.
End PendingModuleControlRpcEntry.

Module HealthProbeTombstone.
Record t := mk {
  expected_op : string;
  module_id : string;
  probe_started_at : Z;
  expires_at : Z;
}.
End HealthProbeTombstone.

Module RouteReservation.
Record t := mk {
  client_key : ClientRouteKey.t;
  module_key : ModuleRouteKey.t;
  client_epoch : Z;
  module_epoch : Z;
}.
End RouteReservation.

Module PendingRouteBindRelayEntry.
Record t := mk {
  reservation : RouteReservation.t;
  client_sink : Sink;
  client_negotiated_ver : Z;
  route_open_frame : Frame.t;
  busy_refusals : bool;
  request_window : Z;
  watch_window : option Z;
  principal : Principal;
  scope : option BoundScope.t;
  deadline : Z;
  relay_enqueued : bool;
}.

Definition enqueued (p : t) : t :=
  mk (reservation p) (client_sink p) (client_negotiated_ver p) (route_open_frame p) (busy_refusals p)
     (request_window p) (watch_window p) (principal p) (scope p) (deadline p) true.
End PendingRouteBindRelayEntry.

Inductive RouteBindRelayMark := Marked | SettledByReply | ReleasedWithoutReply.

Module RouteRelease.
Inductive t :=
  | Removed (target : GoodbyeTarget.t)
  | Stale
  | Absent.
End RouteRelease.

Inductive RoutePollSnapshot :=
  | PollBound (module_id : string) (status : option string)
  | PollAbsent.

Module ModuleConnection.
Record t := mk {
  endpoint : ModuleEndpointId.t;
  sink : Sink;
  negotiated_ver : Z;
  concurrency : Concurrency;
}.
End ModuleConnection.

Inductive ForwardingError :=
  | ConnectionRoleConflict (connection_id : Z)
  | NoModuleConnection
  | ReloadingModule (module_id : string)
  | StaleModuleEndpoint
  | UnknownReservation (client_channel module_channel : Z)
  | ClientRouteChannelExhausted (connection_id : Z)
  | ModuleRouteChannelExhausted (endpoint : ModuleEndpointId.t)
  | RelayCorrelationExhausted
  | ConnectionClosing (connection_id : Z)
  | ClientEgressClosed (connection_id : Z)
  | RouteOpenBuild
  | CandidateSlotOccupied (module_id : string)
  | ModuleEgressUnavailable (connection_id : Z)
  | Poisoned.

(** What an operation does outside the table. *)
Inductive Effect :=
  | RelayReply (key : RelayKey) (outcome : RouteBindRelayOutcome)
  | ControlReply (key : RelayKey) (outcome : ModuleControlRpcOutcome)
  | SentFrame (sink : Sink) (frame : Frame.t)
  | OperatorRouteClosed (key : ModuleRouteKey.t)
  | OperatorModuleClosed (endpoint : ModuleEndpointId.t)
  | BreakerReset (module_id : string)
  | CloseRequested (connection_id : Z) (code : string).

(** [serde_json::to_vec] of a [RouteOpen] response: channel, epoch, request and
    watch window. *)
Class RouteOpenJson := route_open_body : Z → Z → option Z → option Z → option (list byte).

(** ** The table *)

Section forwarding.
Context `{Semaphore}.

Record ForwardingInner := mkForwardingInner {
  daemon_draining : bool;
  daemon_drain_results : gmap ModuleEndpointId.t bool;
  modules_by_id : gmap string ModuleConnection.t;
  candidates_by_id : gmap string ModuleConnection.t;
  superseded_endpoints : gmap ModuleEndpointId.t ModuleConnection.t;
  endpoint_by_connection : gmap Z ModuleEndpointId.t;
  module_id_by_endpoint : gmap ModuleEndpointId.t string;
  draining_endpoints : gmap ModuleEndpointId.t RouteCloseReason.t;
  closing_connections : gset Z;
  next_generation : Z;
  reserved_client : gmap ClientRouteKey.t ModuleRouteKey.t;
  reserved_module : gmap ModuleRouteKey.t ClientRouteKey.t;
  next_client_channel : gmap Z Z;
  next_module_channel : gmap ModuleEndpointId.t Z;
  client_slot_epochs : gmap ClientRouteKey.t Z;
  module_slot_epochs : gmap ModuleRouteKey.t Z;
  last_published_epoch : gmap ClientRouteKey.t Z;
  client_to_module : gmap ClientRouteKey.t RouteBinding.t;
  module_to_client : gmap ModuleRouteKey.t RouteBinding.t;
  status : gmap (ClientRouteKey.t * Z) string;
  pending_relays : gmap RelayKey PendingRouteBindRelayEntry.t;
  relays_released_before_enqueue : gset RelayKey;
  scope_tags : gmap (string * string) ScopeTag.t;
  next_control_corr : gmap ModuleEndpointId.t Z;
  pending_control_rpcs : gmap RelayKey PendingModuleControlRpcEntry.t;
  health_probe_tombstones : gmap RelayKey HealthProbeTombstone.t;
  flows : gmap positive ChannelFlow.t;
  next_addr : positive;
  scope_heap : Heap.t;
}.

Definition empty_forwarding : ForwardingInner :=
  mkForwardingInner false ∅ ∅ ∅ ∅ ∅ ∅ ∅ ∅ 0 ∅ ∅ ∅ ∅ ∅ ∅ ∅ ∅ ∅ ∅ ∅ ∅ ∅ ∅ ∅ ∅ ∅ 1 Heap.empty.

#[global] Instance forwarding_expand : Expand ForwardingInner := λ i,
  mkForwardingInner (daemon_draining i) (daemon_drain_results i) (modules_by_id i)
  (candidates_by_id i) (superseded_endpoints i) (endpoint_by_connection i) (module_id_by_endpoint
  i) (draining_endpoints i) (closing_connections i) (next_generation i) (reserved_client i)
  (reserved_module i) (next_client_channel i) (next_module_channel i) (client_slot_epochs i)
  (module_slot_epochs i) (last_published_epoch i) (client_to_module i) (module_to_client i)
  (status i) (pending_relays i) (relays_released_before_enqueue i) (scope_tags i)
  (next_control_corr i) (pending_control_rpcs i) (health_probe_tombstones i) (flows i) 
  (next_addr i) (scope_heap i).

Implicit Types (i : ForwardingInner).

(** ** Slots and correlation ids *)

Definition next_channel (channel : Z) : Z :=
  let next := wrap 16 (channel + 1) in
  if next =? 0 then 1 else next.

(** The search both halves of [allocate_route_slots] make: the first eligible
    channel from [start] on, [None] once back at [start]. *)
Fixpoint find_channel (fuel : nat) (eligible : Z → bool) (start channel : Z) : option Z :=
  match fuel with
  | O => None
  | S fuel =>
      if eligible channel then Some channel else
      let channel := next_channel channel in
      if channel =? start then None else find_channel fuel eligible start channel
  end.

(** One turn for each of the 65,535 channels. *)
Definition channel_fuel : nat := Z.to_nat 65535.

Definition U32_MAX : Z := 2 ^ 32 - 1.

Definition client_eligible i (connection_id channel : Z) : bool :=
  let key := ClientRouteKey.mk connection_id channel in
  is_none (client_to_module i !! key) && is_none (reserved_client i !! key)
  && (default 0 (client_slot_epochs i !! key) <? U32_MAX).

Definition module_eligible i (endpoint : ModuleEndpointId.t) (channel : Z) : bool :=
  let key := ModuleRouteKey.mk endpoint channel in
  is_none (module_to_client i !! key) && is_none (reserved_module i !! key)
  && (default 0 (module_slot_epochs i !! key) <? U32_MAX).

Definition allocate_route_slots i (connection_id : Z) (endpoint : ModuleEndpointId.t)
    : ForwardingInner * Result (Z * Z * Z * Z) ForwardingError :=
  let client_start := default 1 (next_client_channel i !! connection_id) in
  let i := i <| next_client_channel := <[connection_id := client_start]> (next_client_channel i) |> in
  match find_channel channel_fuel (client_eligible i connection_id) client_start client_start with
  | None => (i, Err (ClientRouteChannelExhausted connection_id))
  | Some client_channel =>
      let module_start := default 1 (next_module_channel i !! endpoint) in
      let i := i <| next_module_channel := <[endpoint := module_start]> (next_module_channel i) |> in
      match find_channel channel_fuel (module_eligible i endpoint) module_start module_start with
      | None => (i, Err (ModuleRouteChannelExhausted endpoint))
      | Some module_channel =>
          let client_key := ClientRouteKey.mk connection_id client_channel in
          let module_key := ModuleRouteKey.mk endpoint module_channel in
          let client_epoch := default 0 (client_slot_epochs i !! client_key) + 1 in
          let module_epoch := default 0 (module_slot_epochs i !! module_key) + 1 in
          (i <| client_slot_epochs := <[client_key := client_epoch]> (client_slot_epochs i) |>
             <| module_slot_epochs := <[module_key := module_epoch]> (module_slot_epochs i) |>
             <| next_client_channel :=
                  <[connection_id := next_channel client_channel]> (next_client_channel i) |>
             <| next_module_channel :=
                  <[endpoint := next_channel module_channel]> (next_module_channel i) |>,
           Ok (client_channel, client_epoch, module_channel, module_epoch))
      end
  end.

Definition U64_MAX : Z := 2 ^ 64 - 1.

Definition allocate_control_corr i (endpoint : ModuleEndpointId.t)
    : ForwardingInner * Result Z ForwardingError :=
  let candidate := default 1 (next_control_corr i !! endpoint) in
  if candidate =? 0
  then (i <| closing_connections :=
               {[ModuleEndpointId.connection_id endpoint]} ∪ closing_connections i |>,
        Err RelayCorrelationExhausted)
  else (i <| next_control_corr :=
               <[endpoint := if candidate =? U64_MAX then 0 else candidate + 1]>
                 (next_control_corr i) |>,
        Ok candidate).

(** ** Roles *)

Definition connection_has_client_routes i (connection_id : Z) : bool :=
  existsb (λ e : ClientRouteKey.t * RouteBinding.t, ClientRouteKey.connection_id e.1 =? connection_id)
          (map_to_list (client_to_module i))
  || existsb (λ e : ClientRouteKey.t * ModuleRouteKey.t,
                ClientRouteKey.connection_id e.1 =? connection_id)
             (map_to_list (reserved_client i)).

Definition check_module_connection_role i (connection_id : Z) : Result unit ForwardingError :=
  if is_some (endpoint_by_connection i !! connection_id)
     || connection_has_client_routes i connection_id
  then Err (ConnectionRoleConflict connection_id)
  else Ok tt.

Definition module_connection_for_endpoint i (endpoint : ModuleEndpointId.t)
    : option ModuleConnection.t :=
  module_id ← module_id_by_endpoint i !! endpoint;
  let at_endpoint := opt_filter (λ m, bool_decide (ModuleConnection.endpoint m = endpoint)) in
  or_else (at_endpoint (modules_by_id i !! module_id))
    (or_else (at_endpoint (candidates_by_id i !! module_id))
       (superseded_endpoints i !! endpoint)).

Definition abandoned_route_target i (reservation : RouteReservation.t) : option GoodbyeTarget.t :=
  let endpoint := ModuleRouteKey.endpoint (RouteReservation.module_key reservation) in
  module_id ← module_id_by_endpoint i !! endpoint;
  module ← module_connection_for_endpoint i endpoint;
  if decide (ModuleConnection.endpoint module = endpoint)
  then Some (GoodbyeTarget.mk (ModuleEndpointId.connection_id (ModuleConnection.endpoint module))
               (ModuleConnection.sink module) (ModuleConnection.negotiated_ver module)
               (ModuleRouteKey.channel (RouteReservation.module_key reservation))
               (RouteReservation.module_epoch reservation) ToModule (Some module_id))
  else None.

(** ** Registering modules *)

(** [ack_queued]: the sink took the HELLO_ACK. *)
Definition enqueue_hello_ack (sink : Sink) (connection_id : Z) (hello_ack : option Frame.t)
    (ack_queued : bool) : Result (list Effect) ForwardingError :=
  match hello_ack with
  | None => Ok []
  | Some ack => if ack_queued then Ok [SentFrame sink ack]
                else Err (ModuleEgressUnavailable connection_id)
  end.

(** [checked_add(1).unwrap_or(1)]. *)
Definition bump_generation (generation : Z) : Z :=
  if generation =? U64_MAX then 1 else generation + 1.

(** The endpoint and the maps every registration fills. *)
Definition install_endpoint i (connection_id : Z) (module_id : string)
    : ForwardingInner * ModuleEndpointId.t :=
  let generation := bump_generation (next_generation i) in
  let endpoint := ModuleEndpointId.mk connection_id generation in
  (i <| next_generation := generation |>
     <| endpoint_by_connection := <[connection_id := endpoint]> (endpoint_by_connection i) |>
     <| module_id_by_endpoint := <[endpoint := module_id]> (module_id_by_endpoint i) |>
     <| next_module_channel := <[endpoint := 1]> (next_module_channel i) |>
     <| next_control_corr := <[endpoint := 1]> (next_control_corr i) |>,
   endpoint).

Definition register_module_connection i (connection_id : Z) (module_id : string)
    (negotiated_ver : Z) (concurrency : Concurrency) (sink : Sink) (hello_ack : option Frame.t)
    (ack_queued : bool)
    : ForwardingInner * list Effect * Result ModuleEndpointId.t ForwardingError :=
  if daemon_draining i || bool_decide (connection_id ∈ closing_connections i)
  then (i, [], Err (ConnectionClosing connection_id)) else
  match check_module_connection_role i connection_id with
  | Err e => (i, [], Err e)
  | Ok _ =>
      match enqueue_hello_ack sink connection_id hello_ack ack_queued with
      | Err e => (i, [], Err e)
      | Ok sent =>
          let '(i, endpoint) := install_endpoint i connection_id module_id in
          let module := ModuleConnection.mk endpoint sink negotiated_ver concurrency in
          (i <| modules_by_id := <[module_id := module]> (modules_by_id i) |>,
           sent ++ [BreakerReset module_id], Ok endpoint)
      end
  end.

Definition register_candidate_module_connection i (connection_id : Z) (module_id : string)
    (negotiated_ver : Z) (concurrency : Concurrency) (sink : Sink) (hello_ack : option Frame.t)
    (ack_queued : bool)
    : ForwardingInner * list Effect * Result ModuleEndpointId.t ForwardingError :=
  if daemon_draining i || bool_decide (connection_id ∈ closing_connections i)
  then (i, [], Err (ConnectionClosing connection_id)) else
  match check_module_connection_role i connection_id with
  | Err e => (i, [], Err e)
  | Ok _ =>
      if is_some (candidates_by_id i !! module_id)
      then (i, [], Err (CandidateSlotOccupied module_id)) else
      match enqueue_hello_ack sink connection_id hello_ack ack_queued with
      | Err e => (i, [], Err e)
      | Ok sent =>
          let '(i, endpoint) := install_endpoint i connection_id module_id in
          let module := ModuleConnection.mk endpoint sink negotiated_ver concurrency in
          (i <| candidates_by_id := <[module_id := module]> (candidates_by_id i) |>, sent, Ok endpoint)
      end
  end.

Definition cutover_candidate i (module_id : string)
    : ForwardingInner * list Effect * Result (option ForwardingCutover) ForwardingError :=
  if daemon_draining i then (i, [], Err (ReloadingModule module_id)) else
  match candidates_by_id i !! module_id with
  | None => (i, [], Ok None)
  | Some candidate =>
      let old := modules_by_id i !! module_id in
      let i := i <| candidates_by_id := delete module_id (candidates_by_id i) |>
                 <| modules_by_id := <[module_id := candidate]> (modules_by_id i) |> in
      let i := match old with
               | Some m => i <| superseded_endpoints :=
                                  <[ModuleConnection.endpoint m := m]> (superseded_endpoints i) |>
               | None => i
               end in
      (i, [BreakerReset module_id],
       Ok (Some (mkForwardingCutover (ModuleConnection.endpoint candidate)
                   (ModuleConnection.endpoint <$> old))))
  end.

(** ** Releasing routes *)

Definition release_reserved_route i (client_key : ClientRouteKey.t) (module_key : ModuleRouteKey.t)
    : ForwardingInner :=
  let i := if decide (reserved_client i !! client_key = Some module_key)
           then i <| reserved_client := delete client_key (reserved_client i) |> else i in
  let i := if decide (reserved_module i !! module_key = Some client_key)
           then i <| reserved_module := delete module_key (reserved_module i) |> else i in
  i <| status := filter (λ e, e.1.1 ≠ client_key) (status i) |>.

Definition close_flow i (addr : positive) : ForwardingInner :=
  i <| flows := alter ChannelFlow.close addr (flows i) |>.

Definition release_scope_bind i (scope : option BoundScope.t) : ForwardingInner :=
  match scope with
  | Some b => i <| scope_heap := BoundScope.release_bind (scope_heap i) b |>
  | None => i
  end.

(** A pending bind is dropped: nothing else holds its lease yet. *)
Definition drop_scope i (scope : option BoundScope.t) : ForwardingInner :=
  match scope with
  | Some b => i <| scope_heap := BoundScope.drop (scope_heap i) b |>
  | None => i
  end.

Definition module_goodbye (r : RouteBinding.t) : GoodbyeTarget.t :=
  GoodbyeTarget.mk (ModuleEndpointId.connection_id (RouteBinding.module_endpoint r))
    (RouteBinding.module_sink r) (RouteBinding.module_negotiated_ver r)
    (RouteBinding.module_channel r) (RouteBinding.module_epoch r) ToModule
    (Some (RouteBinding.module_id r)).

Definition client_goodbye (r : RouteBinding.t) : GoodbyeTarget.t :=
  GoodbyeTarget.mk (RouteBinding.client_connection_id r) (RouteBinding.client_sink r)
    (RouteBinding.client_negotiated_ver r) (RouteBinding.client_channel r)
    (RouteBinding.client_epoch r) ToClient (Some (RouteBinding.module_id r)).

Definition release_client_route i (client_key : ClientRouteKey.t) (expected_epoch : Z)
    : ForwardingInner * list Effect * RouteRelease.t :=
  match client_to_module i !! client_key with
  | None => (i, [], RouteRelease.Absent)
  | Some route =>
      if negb (RouteBinding.client_epoch route =? expected_epoch) then (i, [], RouteRelease.Stale) else
      let i := i <| client_to_module := delete client_key (client_to_module i) |> in
      let i := close_flow i (RouteBinding.addr route) in
      let i := release_scope_bind i (RouteBinding.scope route) in
      let module_key := RouteBinding.module_key route in
      let i := i <| module_to_client := delete module_key (module_to_client i) |>
                 <| status := delete (client_key, expected_epoch) (status i) |> in
      (i, [OperatorRouteClosed module_key], RouteRelease.Removed (module_goodbye route))
  end.

Definition release_module_route_locked i (module_key : ModuleRouteKey.t) (expected_epoch : Z)
    : ForwardingInner * list Effect * RouteRelease.t :=
  match module_to_client i !! module_key with
  | None => (i, [], RouteRelease.Absent)
  | Some route =>
      if negb (RouteBinding.module_epoch route =? expected_epoch) then (i, [], RouteRelease.Stale) else
      let i := i <| module_to_client := delete module_key (module_to_client i) |> in
      let i := close_flow i (RouteBinding.addr route) in
      let i := release_scope_bind i (RouteBinding.scope route) in
      let client_key := RouteBinding.client_key route in
      let i := i <| client_to_module := delete client_key (client_to_module i) |>
                 <| status := delete (client_key, RouteBinding.client_epoch route) (status i) |> in
      (i, [OperatorRouteClosed module_key], RouteRelease.Removed (client_goodbye route))
  end.

Definition release_module_route i (module_connection_id module_channel expected_epoch : Z)
    : ForwardingInner * list Effect * RouteRelease.t :=
  match endpoint_by_connection i !! module_connection_id with
  | None => (i, [], RouteRelease.Absent)
  | Some endpoint =>
      release_module_route_locked i (ModuleRouteKey.mk endpoint module_channel) expected_epoch
  end.

(** A run of releases, collecting the targets of the routes that were removed. *)
Definition release_module_routes (routes : list (ModuleRouteKey.t * Z)) i
    : ForwardingInner * list Effect * list GoodbyeTarget.t :=
  foldl (λ '(i, effects, released) '(key, epoch),
           match release_module_route_locked i key epoch with
           | (i, e, RouteRelease.Removed target) => (i, effects ++ e, released ++ [target])
           | (i, e, _) => (i, effects ++ e, released)
           end) (i, [], []) routes.

Definition release_client_routes (routes : list (ClientRouteKey.t * Z)) i
    : ForwardingInner * list Effect * list GoodbyeTarget.t :=
  foldl (λ '(i, effects, released) '(key, epoch),
           match release_client_route i key epoch with
           | (i, e, RouteRelease.Removed target) => (i, effects ++ e, released ++ [target])
           | (i, e, _) => (i, effects ++ e, released)
           end) (i, [], []) routes.

(** ** Binding a route *)

Context `{RouteOpenJson}.

(** The [RouteOpen] response to the opener. *)
Definition build_route_open (negotiated_ver : Z) (flags : Flags.t) (corr : Z)
    (route_channel route_epoch : Z) (request_window watch_window : option Z)
    : Result Frame.t ForwardingError :=
  let! body := ok_or (route_open_body route_channel route_epoch request_window watch_window)
                     RouteOpenBuild in
  map_err (λ _, RouteOpenBuild)
    (Frame.build_with_version negotiated_ver FrameType.Response flags 0 0 corr body).

(** Refused: the caller's [scope] goes away with the call. *)
Definition relay_refused i (scope : option BoundScope.t) (effects : list Effect)
    (e : ForwardingError)
    : ForwardingInner * list Effect * Result PendingRouteBindRelay.t ForwardingError :=
  (drop_scope i scope, effects, Err e).

Definition begin_route_bind_relay i (client_connection_id : Z) (client_sink : Sink)
    (client_negotiated_ver client_corr : Z) (expected_module_id : string) (principal : Principal)
    (scope : option BoundScope.t) (deadline : Z) (busy_refusals : bool)
    : ForwardingInner * list Effect * Result PendingRouteBindRelay.t ForwardingError :=
  if is_some (endpoint_by_connection i !! client_connection_id)
  then relay_refused i scope [] (ConnectionRoleConflict client_connection_id) else
  if bool_decide (client_connection_id ∈ closing_connections i)
  then relay_refused i scope [] (ConnectionClosing client_connection_id) else
  match modules_by_id i !! expected_module_id with
  | None => relay_refused i scope [] NoModuleConnection
  | Some module =>
      let endpoint := ModuleConnection.endpoint module in
      if is_some (draining_endpoints i !! endpoint)
      then relay_refused i scope [] (ReloadingModule expected_module_id) else
      if bool_decide (ModuleEndpointId.connection_id endpoint ∈ closing_connections i)
      then relay_refused i scope [] (ConnectionClosing (ModuleEndpointId.connection_id endpoint)) else
      match allocate_control_corr i endpoint with
      | (i, Err e) =>
          relay_refused i scope [CloseRequested (ModuleEndpointId.connection_id endpoint)
                                   "control_correlation_exhausted"] e
      | (i, Ok corr) =>
          match allocate_route_slots i client_connection_id endpoint with
          | (i, Err e) => relay_refused i scope [] e
          | (i, Ok (client_channel, client_epoch, module_channel, module_epoch)) =>
              let client_key := ClientRouteKey.mk client_connection_id client_channel in
              let module_key := ModuleRouteKey.mk endpoint module_channel in
              match build_route_open client_negotiated_ver (Flags.new false Priority.Passive false)
                      client_corr client_channel client_epoch None None with
              | Err e => relay_refused i scope [] e
              | Ok route_open_frame =>
                  let entry := PendingRouteBindRelayEntry.mk
                    (RouteReservation.mk client_key module_key client_epoch module_epoch)
                    client_sink client_negotiated_ver route_open_frame busy_refusals
                    (window_for (ModuleConnection.concurrency module))
                    (if busy_refusals
                        && bool_decide (ModuleConnection.concurrency module = ModuleManaged)
                     then Some DEFAULT_MODULE_MANAGED_WATCH_WINDOW else None)
                    principal scope deadline false in
                  (i <| reserved_client := <[client_key := module_key]> (reserved_client i) |>
                     <| reserved_module := <[module_key := client_key]> (reserved_module i) |>
                     <| pending_relays := <[(endpoint, corr) := entry]> (pending_relays i) |>,
                   [], Ok (PendingRouteBindRelay.mk endpoint (ModuleConnection.sink module)
                             (ModuleConnection.negotiated_ver module) client_channel client_epoch
                             module_channel module_epoch corr))
              end
          end
      end
  end.

Definition mark_route_bind_relay_enqueued i (endpoint : ModuleEndpointId.t) (corr : Z)
    : ForwardingInner * RouteBindRelayMark :=
  match pending_relays i !! (endpoint, corr) with
  | Some pending =>
      (i <| pending_relays := <[(endpoint, corr) := PendingRouteBindRelayEntry.enqueued pending]>
                                (pending_relays i) |>, Marked)
  | None =>
      if decide ((endpoint, corr) ∈ relays_released_before_enqueue i)
      then (i <| relays_released_before_enqueue :=
                   relays_released_before_enqueue i ∖ {[(endpoint, corr)]} |>, ReleasedWithoutReply)
      else (i, SettledByReply)
  end.

(** The reserved pair of a removed relay is given back, and the relay dropped. *)
Definition release_reservation i (pending : PendingRouteBindRelayEntry.t) : ForwardingInner :=
  drop_scope
    (release_reserved_route i
       (RouteReservation.client_key (PendingRouteBindRelayEntry.reservation pending))
       (RouteReservation.module_key (PendingRouteBindRelayEntry.reservation pending)))
    (PendingRouteBindRelayEntry.scope pending).

Definition abort_pending_relay i (endpoint : ModuleEndpointId.t) (corr : Z)
    (outcome : RouteBindRelayOutcome) : ForwardingInner * list Effect * option GoodbyeTarget.t :=
  match pending_relays i !! (endpoint, corr) with
  | None =>
      (i <| relays_released_before_enqueue :=
              relays_released_before_enqueue i ∖ {[(endpoint, corr)]} |>, [], None)
  | Some pending =>
      let i := i <| pending_relays := delete (endpoint, corr) (pending_relays i) |> in
      let i := release_reservation i pending in
      (i, [RelayReply (endpoint, corr) outcome],
       if PendingRouteBindRelayEntry.relay_enqueued pending
       then abandoned_route_target i (PendingRouteBindRelayEntry.reservation pending) else None)
  end.

Definition scope_refusal i (scope : BoundScope.t) : option string :=
  match scope_tags i !! (BoundScope.owner scope, BoundScope.scope_ref scope) with
  | Some current =>
      if decide (current = BoundScope.tag scope) then None else
      if ScopeTag.scope_epoch current =? ScopeTag.scope_epoch (BoundScope.tag scope)
      then Some error_codes.SCOPE_CHANGED else Some error_codes.SCOPE_ENDED
  | None => Some error_codes.SCOPE_ENDED
  end.

(** The binding a committed relay publishes. *)
Definition binding_of (pending : PendingRouteBindRelayEntry.t) (addr : positive)
    (module_id : string) (module : ModuleConnection.t) (now : Z) : RouteBinding.t :=
  let reservation := PendingRouteBindRelayEntry.reservation pending in
  RouteBinding.mk addr
    (ClientRouteKey.connection_id (RouteReservation.client_key reservation))
    (PendingRouteBindRelayEntry.client_sink pending)
    (PendingRouteBindRelayEntry.client_negotiated_ver pending)
    (ClientRouteKey.channel (RouteReservation.client_key reservation))
    (RouteReservation.client_epoch reservation)
    module_id
    (ModuleRouteKey.endpoint (RouteReservation.module_key reservation))
    (ModuleConnection.sink module) (ModuleConnection.negotiated_ver module)
    (ModuleRouteKey.channel (RouteReservation.module_key reservation))
    (RouteReservation.module_epoch reservation)
    (PendingRouteBindRelayEntry.principal pending) now (PendingRouteBindRelayEntry.scope pending).

Definition flow_of (pending : PendingRouteBindRelayEntry.t) : ChannelFlow.t :=
  if PendingRouteBindRelayEntry.busy_refusals pending
  then ChannelFlow.with_admission (PendingRouteBindRelayEntry.request_window pending) true
         (PendingRouteBindRelayEntry.watch_window pending)
  else ChannelFlow.new (PendingRouteBindRelayEntry.request_window pending).

(** The response sent on commit: with its windows when the opener asked for
    busy refusals, as built at reservation otherwise. *)
Definition commit_frame (pending : PendingRouteBindRelayEntry.t) : Result Frame.t ForwardingError :=
  let frame := PendingRouteBindRelayEntry.route_open_frame pending in
  let reservation := PendingRouteBindRelayEntry.reservation pending in
  if PendingRouteBindRelayEntry.busy_refusals pending then
    build_route_open (PendingRouteBindRelayEntry.client_negotiated_ver pending)
      (EnvelopeHeader.flags (Frame.header frame)) (EnvelopeHeader.corr (Frame.header frame))
      (ClientRouteKey.channel (RouteReservation.client_key reservation))
      (RouteReservation.client_epoch reservation)
      (Some (PendingRouteBindRelayEntry.request_window pending))
      (PendingRouteBindRelayEntry.watch_window pending)
  else Ok frame.

(** The route enters both indexes and its flow starts. *)
Definition insert_binding i (client_key : ClientRouteKey.t) (module_key : ModuleRouteKey.t)
    (binding : RouteBinding.t) (flow : ChannelFlow.t) : ForwardingInner :=
  i <| client_to_module := <[client_key := binding]> (client_to_module i) |>
    <| module_to_client := <[module_key := binding]> (module_to_client i) |>
    <| flows := <[RouteBinding.addr binding := flow]> (flows i) |>
    <| next_addr := Pos.succ (next_addr i) |>.

(** [writer_closed]: the reserved slot reported a receiver that had closed. *)
Definition publish_route i (key : RelayKey) (pending : PendingRouteBindRelayEntry.t)
    (module_id : string) (module : ModuleConnection.t) (frame : Frame.t) (writer_closed : bool)
    (now : Z) : ForwardingInner * list Effect * option GoodbyeTarget.t :=
  let reservation := PendingRouteBindRelayEntry.reservation pending in
  let client_key := RouteReservation.client_key reservation in
  let module_key := RouteReservation.module_key reservation in
  let binding := binding_of pending (next_addr i) module_id module now in
  let i := insert_binding i client_key module_key binding (flow_of pending) in
  let previous_published := last_published_epoch i !! client_key in
  let i := i <| last_published_epoch :=
                  <[client_key := RouteReservation.client_epoch reservation]>
                    (last_published_epoch i) |> in
  let i := match RouteBinding.scope binding with
           | Some b => i <| scope_heap := BoundScope.record_served (scope_heap i) b module_id |>
           | None => i
           end in
  let sent := SentFrame (PendingRouteBindRelayEntry.client_sink pending) frame in
  if writer_closed then
    let abandoned := abandoned_route_target i reservation in
    let i := i <| client_to_module := delete client_key (client_to_module i) |> in
    let i := close_flow i (RouteBinding.addr binding) in
    let i := i <| module_to_client := delete module_key (module_to_client i) |>
               <| status := delete (client_key, RouteReservation.client_epoch reservation) (status i) |>
               <| last_published_epoch :=
                    match previous_published with
                    | Some epoch => <[client_key := epoch]> (last_published_epoch i)
                    | None => delete client_key (last_published_epoch i)
                    end |> in
    (drop_scope i (RouteBinding.scope binding), [sent; RelayReply key ModuleGone], abandoned)
  else
    let i := match RouteBinding.scope binding with
             | Some b => i <| scope_heap := BoundScope.commit_presence (scope_heap i) b |>
             | None => i
             end in
    (i, [sent; RelayReply key Accepted], None).

Definition commit_route i (key : RelayKey) (pending : PendingRouteBindRelayEntry.t)
    (writer_closed : bool) (now : Z)
    : ForwardingInner * list Effect * Result (option GoodbyeTarget.t) ForwardingError :=
  let reservation := PendingRouteBindRelayEntry.reservation pending in
  let scope := PendingRouteBindRelayEntry.scope pending in
  let client_key := RouteReservation.client_key reservation in
  let module_key := RouteReservation.module_key reservation in
  let endpoint := ModuleRouteKey.endpoint module_key in
  let unknown := UnknownReservation (ClientRouteKey.channel client_key)
                   (ModuleRouteKey.channel module_key) in
  if bool_decide (ClientRouteKey.connection_id client_key ∈ closing_connections i)
  then (drop_scope i scope, [], Err (ConnectionClosing (ClientRouteKey.connection_id client_key))) else
  match module_id_by_endpoint i !! endpoint with
  | None => (drop_scope i scope, [], Err StaleModuleEndpoint)
  | Some module_id =>
      if is_some (draining_endpoints i !! endpoint)
      then (drop_scope i scope, [], Err (ReloadingModule module_id)) else
      match commit_frame pending with
      | Err e => (drop_scope i scope, [], Err e)
      | Ok frame =>
          let had_client := reserved_client i !! client_key in
          let i := i <| reserved_client := delete client_key (reserved_client i) |> in
          if negb (bool_decide (had_client = Some module_key)) then (drop_scope i scope, [], Err unknown) else
          let had_module := reserved_module i !! module_key in
          let i := i <| reserved_module := delete module_key (reserved_module i) |> in
          if negb (bool_decide (had_module = Some client_key)) then (drop_scope i scope, [], Err unknown) else
          match opt_filter (λ m, bool_decide (ModuleConnection.endpoint m = endpoint))
                  (modules_by_id i !! module_id) with
          | None => (drop_scope i scope, [], Err StaleModuleEndpoint)
          | Some module =>
              let '(i, effects, abandoned) :=
                publish_route i key pending module_id module frame writer_closed now in
              (i, effects, Ok abandoned)
          end
      end
  end.

(** [sink_closed]: the opener's queue is closed. *)
Definition complete_pending_relay i (connection_id corr : Z) (outcome : RouteBindRelayOutcome)
    (sink_closed writer_closed : bool) (now : Z)
    : ForwardingInner * list Effect * Result PendingRelayCompletion ForwardingError :=
  let unsettled := mkPendingRelayCompletion false None in
  match endpoint_by_connection i !! connection_id with
  | None => (i, [], Ok unsettled)
  | Some endpoint =>
      match pending_relays i !! (endpoint, corr) with
      | None => (i, [], Ok unsettled)
      | Some pending =>
          let key := (endpoint, corr) in
          let reservation := PendingRouteBindRelayEntry.reservation pending in
          let client := ClientRouteKey.connection_id (RouteReservation.client_key reservation) in
          let i := i <| pending_relays := delete key (pending_relays i) |> in
          (* Give the pair back, answer the opener, name the module's half. *)
          let refuse reply :=
            let i := release_reservation i pending in
            (i, [RelayReply key reply],
             Ok (mkPendingRelayCompletion true (abandoned_route_target i reservation))) in
          let settle reply :=
            (release_reservation i pending, [RelayReply key reply],
             Ok (mkPendingRelayCompletion true None)) in
          if PendingRouteBindRelayEntry.deadline pending <=? now then
            match outcome with
            | Accepted => refuse (DaemonRejected error_codes.MODULE_TIMEOUT)
            | _ => settle (DaemonRejected error_codes.MODULE_TIMEOUT)
            end
          else
          match outcome with
          | Accepted =>
              if sink_closed || bool_decide (client ∈ closing_connections i)
              then refuse ModuleGone else
              if is_some (superseded_endpoints i !! endpoint)
                 || is_some (draining_endpoints i !! endpoint)
              then refuse (DaemonRejected error_codes.MODULE_RELOADING) else
              match PendingRouteBindRelayEntry.scope pending ≫= scope_refusal i with
              | Some code => refuse (DaemonRejected code)
              | None =>
                  match commit_route i key pending writer_closed now with
                  | (i, effects, Ok abandoned) =>
                      (i, effects, Ok (mkPendingRelayCompletion true abandoned))
                  | (i, effects, Err e) => (i, effects, Err e)
                  end
              end
          | terminal => settle terminal
          end
      end
  end.

(** ** Calls to a module's control channel *)

Definition begin_control_rpc i (module_id : string) (module : ModuleConnection.t)
    (expected_op : string) (deadline : Z) (health_probe_started_at : option Z)
    (allow_draining : bool)
    : ForwardingInner * list Effect * Result PendingModuleControlRpc.t ForwardingError :=
  let endpoint := ModuleConnection.endpoint module in
  let connection_id := ModuleEndpointId.connection_id endpoint in
  if negb allow_draining && is_some (draining_endpoints i !! endpoint)
  then (i, [], Err (ReloadingModule module_id)) else
  if bool_decide (connection_id ∈ closing_connections i)
  then (i, [], Err (ConnectionClosing connection_id)) else
  let i := if is_some health_probe_started_at
           then i <| health_probe_tombstones :=
                       filter (λ e, e.1.1 ≠ endpoint) (health_probe_tombstones i) |>
           else i in
  match allocate_control_corr i endpoint with
  | (i, Err e) => (i, [CloseRequested connection_id "control_correlation_exhausted"], Err e)
  | (i, Ok corr) =>
      (i <| pending_control_rpcs :=
              <[(endpoint, corr) := PendingModuleControlRpcEntry.mk expected_op deadline
                                      health_probe_started_at]> (pending_control_rpcs i) |>,
       [], Ok (PendingModuleControlRpc.mk endpoint (ModuleConnection.sink module)
                 (ModuleConnection.negotiated_ver module) corr))
  end.

Definition begin_module_control_rpc i (module_id expected_op : string) (deadline : Z)
    (health_probe_started_at : option Z) (allow_draining : bool)
    : ForwardingInner * list Effect * Result PendingModuleControlRpc.t ForwardingError :=
  match modules_by_id i !! module_id with
  | None => (i, [], Err NoModuleConnection)
  | Some module =>
      begin_control_rpc i module_id module expected_op deadline health_probe_started_at allow_draining
  end.

Definition begin_endpoint_health_probe_rpc i (endpoint : ModuleEndpointId.t) (expected_op : string)
    (probe_started_at deadline : Z)
    : ForwardingInner * list Effect * Result PendingModuleControlRpc.t ForwardingError :=
  match module_connection_for_endpoint i endpoint with
  | None => (i, [], Err NoModuleConnection)
  | Some module =>
      begin_control_rpc i (default "" (module_id_by_endpoint i !! endpoint)) module expected_op
        deadline (Some probe_started_at) true
  end.

Definition cancel_module_control_rpc i (endpoint : ModuleEndpointId.t) (corr : Z) : ForwardingInner :=
  i <| pending_control_rpcs := delete (endpoint, corr) (pending_control_rpcs i) |>.

(** In milliseconds. *)
Definition HEALTH_PROBE_TOMBSTONE_TTL : Z := 5 * 60 * 1000.

Definition tombstone_health_probe_rpc i (endpoint : ModuleEndpointId.t) (corr now : Z)
    : ForwardingInner * bool :=
  let key := (endpoint, corr) in
  match pending_control_rpcs i !! key with
  | None => (i, false)
  | Some pending =>
      match PendingModuleControlRpcEntry.health_probe_started_at pending with
      | None => (i, false)
      | Some probe_started_at =>
          let module_id := default "unknown" (module_id_by_endpoint i !! endpoint) in
          (i <| pending_control_rpcs := delete key (pending_control_rpcs i) |>
             <| health_probe_tombstones :=
                  <[key := HealthProbeTombstone.mk (PendingModuleControlRpcEntry.expected_op pending)
                             module_id probe_started_at (now + HEALTH_PROBE_TOMBSTONE_TTL)]>
                    (health_probe_tombstones i) |>, true)
      end
  end.

(** The scheduled task, once it wakes. *)
Definition expire_health_probe_tombstone i (key : RelayKey) (now : Z) : ForwardingInner :=
  if is_some_and (λ t, HealthProbeTombstone.expires_at t <=? now) (health_probe_tombstones i !! key)
  then i <| health_probe_tombstones := delete key (health_probe_tombstones i) |>
  else i.

Definition pending_module_control_op i (connection_id corr now : Z) : option string :=
  endpoint ← endpoint_by_connection i !! connection_id;
  or_else (PendingModuleControlRpcEntry.expected_op <$> pending_control_rpcs i !! (endpoint, corr))
    (HealthProbeTombstone.expected_op <$>
       opt_filter (λ t, now <? HealthProbeTombstone.expires_at t)
         (health_probe_tombstones i !! (endpoint, corr))).

Definition complete_module_control_rpc i (connection_id corr : Z) (actual_op : option string)
    (outcome : ModuleControlRpcOutcome) (now : Z)
    : ForwardingInner * list Effect * ModuleControlRpcCompletion :=
  match endpoint_by_connection i !! connection_id with
  | None => (i, [], UnknownRpc)
  | Some endpoint =>
      let key := (endpoint, corr) in
      match pending_control_rpcs i !! key with
      | Some pending =>
          let i := i <| pending_control_rpcs := delete key (pending_control_rpcs i) |> in
          if PendingModuleControlRpcEntry.deadline pending <=? now then
            (i, [ControlReply key DeadlineElapsed],
             match PendingModuleControlRpcEntry.health_probe_started_at pending with
             | Some probe_started_at =>
                 LateHealthAnswer (default "unknown" (module_id_by_endpoint i !! endpoint))
                   (Z.max 0 (now - probe_started_at))
             | None => SettledRpc
             end)
          else
            let expected := PendingModuleControlRpcEntry.expected_op pending in
            let outcome :=
              match actual_op with
              | Some actual => if decide (actual = expected) then outcome
                               else UnexpectedOp expected actual
              | None => outcome
              end in
            (i, [ControlReply key outcome], SettledRpc)
      | None =>
          match health_probe_tombstones i !! key with
          | None => (i, [], UnknownRpc)
          | Some tombstone =>
              let i := i <| health_probe_tombstones := delete key (health_probe_tombstones i) |> in
              if HealthProbeTombstone.expires_at tombstone <=? now then (i, [], UnknownRpc)
              else (i, [], LateHealthAnswer (HealthProbeTombstone.module_id tombstone)
                             (Z.max 0 (now - HealthProbeTombstone.probe_started_at tombstone)))
          end
      end
  end.

(** ** Requests and lookups *)

Definition module_route_epoch_was_allocated i (connection_id channel epoch : Z) : bool :=
  match endpoint_by_connection i !! connection_id with
  | None => false
  | Some endpoint =>
      is_some_and (λ last, negb (epoch =? 0) && (epoch <=? last))
        (module_slot_epochs i !! ModuleRouteKey.mk endpoint channel)
  end.

(** [route] is the binding the caller looked up earlier. *)
Definition try_admit_request i (route : RouteBinding.t) (epoch corr : Z) (subscription : bool)
    : ForwardingInner * RequestAdmission :=
  if negb (epoch =? RouteBinding.client_epoch route)
     || negb (is_some_and (λ current, bool_decide (RouteBinding.addr current = RouteBinding.addr route))
                (client_to_module i !! RouteBinding.client_key route))
  then (i, Stale) else
  match flows i !! RouteBinding.addr route with
  | None => (i, Stale)
  | Some flow =>
      let '(admission, flow) := ChannelFlow.try_acquire_tagged flow corr subscription in
      let i := i <| flows := <[RouteBinding.addr route := flow]> (flows i) |> in
      match admission with
      | Stale => (i, if is_some (draining_endpoints i !! RouteBinding.module_endpoint route)
                     then ModuleReloading else Stale)
      | admission => (i, admission)
      end
  end.

Definition lookup_data_route i (connection_id channel epoch : Z) : DataRoute :=
  match endpoint_by_connection i !! connection_id with
  | Some endpoint =>
      let key := ModuleRouteKey.mk endpoint channel in
      ModuleSide
        match module_to_client i !! key with
        | Some route => if RouteBinding.module_epoch route =? epoch then DataRouteState.Bound route
                        else DataRouteState.EpochMismatch
        | None =>
            if is_some (reserved_module i !! key)
            then if bool_decide (module_slot_epochs i !! key = Some epoch)
                 then DataRouteState.Reserved else DataRouteState.EpochMismatch
            else DataRouteState.Absent
        end
  | None =>
      let key := ClientRouteKey.mk connection_id channel in
      ClientSide
        match client_to_module i !! key with
        | Some route => if RouteBinding.client_epoch route =? epoch then DataRouteState.Bound route
                        else DataRouteState.EpochMismatch
        | None =>
            if is_some (reserved_client i !! key)
            then if bool_decide (client_slot_epochs i !! key = Some epoch)
                 then DataRouteState.Reserved else DataRouteState.EpochMismatch
            else DataRouteState.Absent
        end
  end.

Definition cache_status i (endpoint : ModuleEndpointId.t) (module_channel module_epoch : Z)
    (status_text : string) : ForwardingInner * Result bool ForwardingError :=
  if is_none (module_id_by_endpoint i !! endpoint) then (i, Err StaleModuleEndpoint) else
  let module_key := ModuleRouteKey.mk endpoint module_channel in
  let handle :=
    match module_to_client i !! module_key with
    | Some route =>
        if RouteBinding.module_epoch route =? module_epoch
        then Some (RouteBinding.client_key route, RouteBinding.client_epoch route) else None
    | None =>
        match reserved_module i !! module_key with
        | Some client_key =>
            if bool_decide (module_slot_epochs i !! module_key = Some module_epoch)
            then Some (client_key, default 0 (client_slot_epochs i !! client_key)) else None
        | None => None
        end
    end in
  match handle with
  | Some handle => (i <| status := <[handle := status_text]> (status i) |>, Ok true)
  | None => (i, Ok false)
  end.

Definition route_poll_snapshot i (client_connection_id client_channel client_epoch : Z)
    : RoutePollSnapshot :=
  let client_key := ClientRouteKey.mk client_connection_id client_channel in
  match client_to_module i !! client_key with
  | None => PollAbsent
  | Some route =>
      if negb (RouteBinding.client_epoch route =? client_epoch)
         || is_none (module_id_by_endpoint i !! RouteBinding.module_endpoint route)
      then PollAbsent
      else PollBound (RouteBinding.module_id route) (status i !! (client_key, client_epoch))
  end.

(** ** Drains *)

Context `{HashOrder}.

Definition daemon_drain_result_for_connection i (connection_id : Z) : option bool :=
  if daemon_draining i
  then Some (default false (endpoint ← endpoint_by_connection i !! connection_id;
                            daemon_drain_results i !! endpoint))
  else None.

Definition record_daemon_drain_result i (endpoint : ModuleEndpointId.t) (drained : bool)
    : ForwardingInner :=
  if is_some (daemon_drain_results i !! endpoint)
  then i <| daemon_drain_results := <[endpoint := drained]> (daemon_drain_results i) |>
  else i.

Definition begin_daemon_drain i : ForwardingInner * list (string * ModuleEndpointId.t) :=
  if daemon_draining i then (i, []) else
  let i := i <| daemon_draining := true |> in
  let modules := (λ e, (e.1, ModuleConnection.endpoint e.2)) <$> hash_iter (modules_by_id i) in
  let i := foldl (λ i e,
      i <| daemon_drain_results := <[e.2 := false]> (daemon_drain_results i) |>
        <| draining_endpoints := <[e.2 := RouteCloseReason.Restart]> (draining_endpoints i) |>)
    i modules in
  let off_slot := ((λ e, ModuleConnection.endpoint e.2) <$> hash_iter (candidates_by_id i))
                  ++ (fst <$> hash_iter (superseded_endpoints i)) in
  let i := foldl (λ i endpoint,
      i <| draining_endpoints := <[endpoint := RouteCloseReason.Restart]> (draining_endpoints i) |>)
    i off_slot in
  (i, modules).

(** The flow of every route to the endpoint starts draining. *)
Definition drain_flows i (endpoint : ModuleEndpointId.t) : ForwardingInner * Z :=
  foldl (λ '(i, excluded) (e : ClientRouteKey.t * RouteBinding.t),
           match flows i !! RouteBinding.addr e.2 with
           | Some flow =>
               let '(n, flow) := ChannelFlow.begin_drain flow in
               (i <| flows := <[RouteBinding.addr e.2 := flow]> (flows i) |>,
                CreditLedger.saturating_add32 excluded n)
           | None => (i, excluded)
           end) (i, 0)
    (filter (λ e, RouteBinding.module_endpoint e.2 = endpoint) (hash_iter (client_to_module i))).

(** A pending relay dropped without an answer from the module: its pair is given
    back; the module is told at once if the bind is surely in its queue, and
    otherwise the open that is still sending it will tell. *)
Definition drop_relay (reply : RouteBindRelayOutcome)
    (acc : ForwardingInner * list Effect * list GoodbyeTarget.t) (key : RelayKey)
    : ForwardingInner * list Effect * list GoodbyeTarget.t :=
  let '(i, effects, targets) := acc in
  match pending_relays i !! key with
  | None => acc
  | Some pending =>
      let i := i <| pending_relays := delete key (pending_relays i) |> in
      let i := release_reservation i pending in
      let effects := effects ++ [RelayReply key reply] in
      if PendingRouteBindRelayEntry.relay_enqueued pending
      then (i, effects,
            targets ++ option_list (abandoned_route_target i
                                      (PendingRouteBindRelayEntry.reservation pending)))
      else (i <| relays_released_before_enqueue := {[key]} ∪ relays_released_before_enqueue i |>,
            effects, targets)
  end.

Definition drop_control_rpc (acc : ForwardingInner * list Effect) (key : RelayKey)
    : ForwardingInner * list Effect :=
  let '(i, effects) := acc in
  match pending_control_rpcs i !! key with
  | None => acc
  | Some _ => (i <| pending_control_rpcs := delete key (pending_control_rpcs i) |>,
               effects ++ [ControlReply key ControlModuleGone])
  end.

(** The keys of an endpoint, in the order the map yields them. *)
Definition endpoint_keys {A} (m : gmap RelayKey A) (endpoint : ModuleEndpointId.t) : list RelayKey :=
  filter (λ key, key.1 = endpoint) (fst <$> hash_iter m).

Definition begin_drain i (module : ModuleConnection.t) (reason : RouteCloseReason.t)
    : ForwardingInner * list Effect * ModuleDrainTarget.t :=
  let endpoint := ModuleConnection.endpoint module in
  let i := i <| draining_endpoints := <[endpoint := reason]> (draining_endpoints i) |> in
  let '(i, excluded) := drain_flows i endpoint in
  let '(i, effects, abandoned_bindings) :=
    foldl (drop_relay (DaemonRejected error_codes.MODULE_RELOADING)) (i, [], [])
      (endpoint_keys (pending_relays i) endpoint) in
  let '(i, effects) :=
    foldl drop_control_rpc (i, effects) (endpoint_keys (pending_control_rpcs i) endpoint) in
  (i, effects, ModuleDrainTarget.mk endpoint (ModuleConnection.sink module)
                 (ModuleConnection.negotiated_ver module) abandoned_bindings excluded).

Definition begin_module_drain i (module_id : string) (reason : RouteCloseReason.t)
    : ForwardingInner * list Effect * option ModuleDrainTarget.t :=
  match modules_by_id i !! module_id with
  | None => (i, [], None)
  | Some module => let '(i, effects, target) := begin_drain i module reason in (i, effects, Some target)
  end.

Definition begin_endpoint_drain i (endpoint : ModuleEndpointId.t) (reason : RouteCloseReason.t)
    : ForwardingInner * list Effect * option ModuleDrainTarget.t :=
  match module_connection_for_endpoint i endpoint with
  | None => (i, [], None)
  | Some module => let '(i, effects, target) := begin_drain i module reason in (i, effects, Some target)
  end.

(** The requests the drain of one route still waits on. *)
Definition route_drain_in_flight i (route : RouteBinding.t) : nat :=
  match flows i !! RouteBinding.addr route with
  | Some flow => ChannelFlow.drain_in_flight flow
  | None => 0
  end.

Definition endpoint_in_flight_count i (endpoint : ModuleEndpointId.t) : nat :=
  sum_list ((λ e, route_drain_in_flight i e.2) <$>
              filter (λ e, RouteBinding.module_endpoint e.2 = endpoint)
                (map_to_list (client_to_module i))).

Definition endpoint_is_draining i (endpoint : ModuleEndpointId.t) : bool :=
  is_some (draining_endpoints i !! endpoint).

Definition module_is_draining i (module_id : string) : bool :=
  is_some_and (λ m, is_some (draining_endpoints i !! ModuleConnection.endpoint m))
    (modules_by_id i !! module_id).

Definition routes_of_endpoint i (endpoint : ModuleEndpointId.t) : list (ModuleRouteKey.t * Z) :=
  (λ e, (e.1, RouteBinding.module_epoch e.2)) <$>
    filter (λ e, ModuleRouteKey.endpoint e.1 = endpoint) (hash_iter (module_to_client i)).

Definition release_module_endpoint_routes i (endpoint : ModuleEndpointId.t)
    : ForwardingInner * list Effect * list GoodbyeTarget.t :=
  release_module_routes (routes_of_endpoint i endpoint) i.

(** Sorted by connection, channel and epoch. *)
Definition census_le (a b : EndpointRoute.t) : Prop :=
  let key r := (GoodbyeTarget.connection_id (EndpointRoute.goodbye_target r),
                GoodbyeTarget.channel (EndpointRoute.goodbye_target r),
                GoodbyeTarget.epoch (EndpointRoute.goodbye_target r)) in
  let '(c, ch, e) := key a in let '(c', ch', e') := key b in
  c < c' ∨ c = c' ∧ (ch < ch' ∨ ch = ch' ∧ e ≤ e').

#[global] Instance census_le_dec a b : Decision (census_le a b).
Proof. unfold census_le. apply _. Defined.

Definition endpoint_routes i (endpoint : ModuleEndpointId.t) : list EndpointRoute.t :=
  let drain_reason := draining_endpoints i !! endpoint in
  merge_sort census_le
    ((λ e : ModuleRouteKey.t * RouteBinding.t,
        EndpointRoute.mk (client_goodbye e.2) (RouteBinding.principal e.2) (RouteBinding.bound_at e.2)
          (is_some drain_reason) drain_reason)
     <$> filter (λ e, ModuleRouteKey.endpoint e.1 = endpoint) (hash_iter (module_to_client i))).

(** ** Connections going away *)

Definition cleanup_client_connection i (connection_id : Z)
    : ForwardingInner * list Effect * list GoodbyeTarget.t :=
  let routes := (λ e, (e.1, RouteBinding.client_epoch e.2)) <$>
    filter (λ e, ClientRouteKey.connection_id e.1 = connection_id) (hash_iter (client_to_module i)) in
  let '(i, effects, released) := release_client_routes routes i in
  let pending_keys := fst <$>
    filter (λ e, ClientRouteKey.connection_id
                   (RouteReservation.client_key (PendingRouteBindRelayEntry.reservation e.2))
                 = connection_id) (hash_iter (pending_relays i)) in
  let '(i, effects, released) := foldl (drop_relay ModuleGone) (i, effects, released) pending_keys in
  let orphaned := filter (λ e, ClientRouteKey.connection_id e.1 = connection_id)
                    (hash_iter (reserved_client i)) in
  let i := foldl (λ i e, release_reserved_route i e.1 e.2) i orphaned in
  (i <| next_client_channel := delete connection_id (next_client_channel i) |>
     <| client_slot_epochs :=
          filter (λ e, ClientRouteKey.connection_id e.1 ≠ connection_id) (client_slot_epochs i) |>
     <| last_published_epoch :=
          filter (λ e, ClientRouteKey.connection_id e.1 ≠ connection_id) (last_published_epoch i) |>
     <| status := filter (λ e, ClientRouteKey.connection_id e.1.1 ≠ connection_id) (status i) |>,
   effects, released).

(** The module's names and counters go first. *)
Definition forget_endpoint i (endpoint : ModuleEndpointId.t) : ForwardingInner :=
  let at_endpoint (m : ModuleConnection.t) := bool_decide (ModuleConnection.endpoint m = endpoint) in
  let module_id := module_id_by_endpoint i !! endpoint in
  let i := i <| draining_endpoints := delete endpoint (draining_endpoints i) |>
             <| daemon_drain_results := delete endpoint (daemon_drain_results i) |>
             <| module_id_by_endpoint := delete endpoint (module_id_by_endpoint i) |> in
  let i :=
    match module_id with
    | None => i
    | Some module_id =>
        let i := if is_some_and at_endpoint (modules_by_id i !! module_id)
                 then i <| modules_by_id := delete module_id (modules_by_id i) |> else i in
        if is_some_and at_endpoint (candidates_by_id i !! module_id)
        then i <| candidates_by_id := delete module_id (candidates_by_id i) |> else i
    end in
  i <| superseded_endpoints := delete endpoint (superseded_endpoints i) |>
    <| endpoint_by_connection :=
         delete (ModuleEndpointId.connection_id endpoint) (endpoint_by_connection i) |>
    <| next_module_channel := delete endpoint (next_module_channel i) |>
    <| next_control_corr := delete endpoint (next_control_corr i) |>
    <| health_probe_tombstones := filter (λ e, e.1.1 ≠ endpoint) (health_probe_tombstones i) |>
    <| module_slot_epochs :=
         filter (λ e, ModuleRouteKey.endpoint e.1 ≠ endpoint) (module_slot_epochs i) |>.

(** A relay dropped because its module went away. *)
Definition drop_relay_gone (acc : ForwardingInner * list Effect)
    (entry : RelayKey * PendingRouteBindRelayEntry.t) : ForwardingInner * list Effect :=
  let '(i, effects) := acc in
  let i := if negb (PendingRouteBindRelayEntry.relay_enqueued entry.2)
           then i <| relays_released_before_enqueue := {[entry.1]} ∪ relays_released_before_enqueue i |>
           else i in
  (drop_scope i (PendingRouteBindRelayEntry.scope entry.2),
   effects ++ [RelayReply entry.1 ModuleGone]).

(** A reservation on the removed endpoint is given back. *)
Definition unreserve_turn i (module_key : ModuleRouteKey.t) : ForwardingInner :=
  match reserved_module i !! module_key with
  | Some client_key => release_reserved_route i client_key module_key
  | None => i
  end.

(** The relays, calls and routes of the removed endpoint. *)
Definition abandon_endpoint i (effects : list Effect) (endpoint : ModuleEndpointId.t)
    : ForwardingInner * list Effect * ConnectionCleanup :=
  let pending := filter (λ e, e.1.1 = endpoint) (hash_iter (pending_relays i)) in
  let i := i <| pending_relays := filter (λ e, e.1.1 ≠ endpoint) (pending_relays i) |> in
  let '(i, effects) := foldl drop_relay_gone (i, effects) pending in
  let '(i, effects) :=
    foldl drop_control_rpc (i, effects) (endpoint_keys (pending_control_rpcs i) endpoint) in
  let '(i, released_effects, released) := release_module_routes (routes_of_endpoint i endpoint) i in
  (i, effects ++ released_effects,
   mkConnectionCleanup released (Z.min (Z.of_nat (length pending)) U32_MAX)).

Definition remove_module_connection i (endpoint : ModuleEndpointId.t)
    : ForwardingInner * list Effect * ConnectionCleanup :=
  let i := forget_endpoint i endpoint in
  let reserved_keys :=
    filter (λ key, ModuleRouteKey.endpoint key = endpoint) (fst <$> hash_iter (reserved_module i)) in
  let i := foldl unreserve_turn i reserved_keys in
  abandon_endpoint i [OperatorModuleClosed endpoint] endpoint.

Definition cleanup_connection i (connection_id : Z)
    : ForwardingInner * list Effect * ConnectionCleanup :=
  let i := i <| closing_connections := {[connection_id]} ∪ closing_connections i |> in
  let '(i, effects, cleanup) :=
    match endpoint_by_connection i !! connection_id with
    | Some endpoint =>
        remove_module_connection
          (i <| endpoint_by_connection := delete connection_id (endpoint_by_connection i) |>) endpoint
    | None =>
        let '(i, effects, released) := cleanup_client_connection i connection_id in
        (i, effects, mkConnectionCleanup released 0)
    end in
  (i <| closing_connections := closing_connections i ∖ {[connection_id]} |>, effects, cleanup).

Definition escalate_client_delivery_failure i (connection_id channel expected_epoch : Z)
    (code : string) : ForwardingInner * list Effect * bool :=
  if bool_decide (last_published_epoch i !! ClientRouteKey.mk connection_id channel
                  = Some expected_epoch)
  then (i <| closing_connections := {[connection_id]} ∪ closing_connections i |>,
        [CloseRequested connection_id code], true)
  else (i, [], false).

(** ** Publishing scope changes *)

Definition publish_tag (tags : gmap (string * string) ScopeTag.t) (change : ScopeTagChange.t)
    : gmap (string * string) ScopeTag.t :=
  let key := (ScopeTagChange.owner change, ScopeTagChange.scope_ref change) in
  match ScopeTagChange.after change with
  | Some tag => <[key := tag]> tags
  | None => delete key tags
  end.

(** The change that counts for a scope: the last one that names it. *)
Definition by_scope (changes : list ScopeTagChange.t) : gmap (string * string) ScopeTagChange.t :=
  foldl (λ m c, <[(ScopeTagChange.owner c, ScopeTagChange.scope_ref c) := c]> m) ∅ changes.

(** Why a change closes a route. *)
Definition closing_reason (changes : list ScopeTagChange.t) (route : RouteBinding.t)
    : option RouteCloseReason.t :=
  scope ← RouteBinding.scope route;
  change ← by_scope changes !! (BoundScope.owner scope, BoundScope.scope_ref scope);
  if bool_decide (ScopeTag.scope_epoch <$> ScopeTagChange.before change
                  = Some (ScopeTag.scope_epoch (BoundScope.tag scope)))
  then drain_reason (ScopeTagChange.drain change) (BoundScope.owner scope)
         (RouteBinding.principal route) (RouteBinding.module_id route)
  else None.

Definition drain_route (acc : ForwardingInner * list Effect * list ScopeDrainedRoute.t)
    (entry : ClientRouteKey.t * Z * RouteCloseReason.t)
    : ForwardingInner * list Effect * list ScopeDrainedRoute.t :=
  let '(i, effects, drained) := acc in
  let '(client_key, client_epoch, reason) := entry in
  match client_to_module i !! client_key with
  | None => acc
  | Some route =>
      match release_client_route i client_key client_epoch with
      | (i, e, RouteRelease.Removed module) =>
          (i, effects ++ e,
           match RouteBinding.scope route with
           | Some scope => drained ++ [ScopeDrainedRoute.mk reason scope (RouteBinding.module_id route)
                                         (client_goodbye route) module]
           | None => drained
           end)
      | (i, e, _) => (i, effects ++ e, drained)
      end
  end.

Definition publish_scope_changes i (changes : list ScopeTagChange.t)
    : ForwardingInner * list Effect * list ScopeDrainedRoute.t :=
  let i := i <| scope_tags := foldl publish_tag (scope_tags i) changes |> in
  let selected :=
    omap (λ e : ClientRouteKey.t * RouteBinding.t,
            (λ reason, (e.1, RouteBinding.client_epoch e.2, reason)) <$> closing_reason changes e.2)
      (hash_iter (client_to_module i)) in
  foldl drain_route (i, [], []) selected.
End forwarding.
