(* ===== verification/ForwardingSlots.v ===== *)
(** * Route slots

    The channel search of [allocate_route_slots] visits the 65,535 channels in
    cyclic order, so it finds the first free one or shows that none is free;
    a slot's epoch only grows. *)

From S2P Require Import Prelude Collections Flow Forwarding.

(** The channel [j] places after [start]. *)
Definition channel_at (start j : Z) : Z := (start - 1 + j) mod 65535 + 1.

Definition channel_ok (c : Z) : Prop := 1 ≤ c ≤ 65535.

Lemma channel_at_ok start j : channel_ok (channel_at start j).
Proof. unfold channel_ok, channel_at. pose proof (Z.mod_pos_bound (start - 1 + j) 65535). lia. Qed.

Lemma channel_at_0 start : channel_ok start → channel_at start 0 = start.
Proof. unfold channel_ok, channel_at. intros ?. rewrite Z.mod_small; lia. Qed.

Lemma next_channel_at start j : next_channel (channel_at start j) = channel_at start (j + 1).
Proof.
  unfold next_channel, channel_at, wrap.
  replace (start - 1 + (j + 1)) with (start - 1 + j + 1) by lia.
  rewrite <-(Zplus_mod_idemp_l (start - 1 + j) 1).
  pose proof (Z.mod_pos_bound (start - 1 + j) 65535) as Hb.
  set (x := (start - 1 + j) mod 65535) in *. clearbody x.
  change (2 ^ 16) with 65536. destruct (decide (x = 65534)) as [->|Hx]; [done|].
  rewrite (Z.mod_small (x + 1 + 1)), (Z.mod_small (x + 1) 65535) by lia.
  destruct (_ =? 0) eqn:E; lia.
Qed.

Lemma channel_at_start start j :
  channel_ok start → 0 < j < 65535 → channel_at start j ≠ start.
Proof.
  unfold channel_ok, channel_at. intros ???.
  destruct (decide (start - 1 + j < 65535)).
  - rewrite Z.mod_small in *; lia.
  - assert ((start - 1 + j) mod 65535 = start - 1 + j - 65535) as Hm; [|lia].
    symmetry. apply (Z.mod_unique _ _ 1); lia.
Qed.

Lemma channel_at_wraps start : channel_ok start → channel_at start 65535 = start.
Proof.
  unfold channel_ok, channel_at. intros ?.
  replace (start - 1 + 65535) with (start - 1 + 1 * 65535) by lia.
  rewrite Z.mod_add, Z.mod_small; lia.
Qed.

(** Every channel is met on the way round. *)
Lemma channel_at_surj start c :
  channel_ok start → channel_ok c → ∃ j, 0 ≤ j < 65535 ∧ channel_at start j = c.
Proof.
  unfold channel_ok. intros ??. exists ((c - start) mod 65535).
  split; [apply Z.mod_pos_bound; lia|]. unfold channel_at.
  rewrite Zplus_mod_idemp_r. replace (start - 1 + (c - start)) with (c - 1) by lia.
  rewrite Z.mod_small; lia.
Qed.

(** What the search answers. *)
Definition first_channel (eligible : Z → bool) (start : Z) (found : option Z) : Prop :=
  match found with
  | Some c => ∃ j, 0 ≤ j < 65535 ∧ c = channel_at start j ∧ eligible c = true ∧
                   ∀ j', 0 ≤ j' < j → eligible (channel_at start j') = false
  | None => ∀ c, channel_ok c → eligible c = false
  end.

Lemma find_channel_from eligible start fuel k :
  channel_ok start → 0 ≤ k < 65535 → fuel = Z.to_nat (65535 - k) →
  (∀ j, 0 ≤ j < k → eligible (channel_at start j) = false) →
  first_channel eligible start (find_channel fuel eligible start (channel_at start k)).
Proof.
  intros Hs. revert k. induction fuel as [|fuel IH]; intros k Hk Hf Hno; [lia|].
  cbn [find_channel]. destruct (eligible (channel_at start k)) eqn:He.
  { exists k. auto. }
  assert (∀ j, 0 ≤ j < k + 1 → eligible (channel_at start j) = false) as Hno'.
  { intros j Hj. destruct (decide (j = k)) as [->|?]; [done|]. apply Hno; lia. }
  rewrite next_channel_at. destruct (decide (k + 1 = 65535)) as [Hlast|Hnot].
  - rewrite Hlast, channel_at_wraps, Z.eqb_refl by done. intros c Hc.
    destruct (channel_at_surj start c Hs Hc) as (j & Hj & <-). apply Hno'. lia.
  - rewrite (proj2 (Z.eqb_neq _ _)) by (apply channel_at_start; [done|lia]).
    apply IH; [lia|lia|done].
Qed.

Lemma find_channel_spec eligible start :
  channel_ok start → first_channel eligible start (find_channel channel_fuel eligible start start).
Proof.
  intros Hs. rewrite <-(channel_at_0 start Hs) at 3.
  apply find_channel_from; [done|lia|done|lia].
Qed.

Lemma find_channel_Some eligible start c :
  channel_ok start → find_channel channel_fuel eligible start start = Some c →
  channel_ok c ∧ eligible c = true.
Proof.
  intros Hs Hf. pose proof (find_channel_spec eligible start Hs) as Hspec. rewrite Hf in Hspec.
  destruct Hspec as (j & _ & -> & He & _). split; [apply channel_at_ok|done].
Qed.

#[global] Opaque channel_fuel.
