(* ===== verification/ForwardingInvariant.v ===== *)
(** * The invariant of the forwarding table

    The two route indexes mirror each other, as do the two reservation indexes;
    a slot is bound or reserved, never both, and at the epoch last handed out
    for it; connections are clients or modules, never both; endpoints are
    registered consistently.  Each part is stated on the maps it speaks of, so
    an operation has to show only the parts whose maps it changes. *)

From S2P Require Import Prelude Collections Envelope Tokens ScopeTypes Scopes ScopeDrains.
From S2P Require Import Flow Forwarding ForwardingSlots.

Abbreviation reserved_pair p :=
  (RouteReservation.client_key (PendingRouteBindRelayEntry.reservation p),
   RouteReservation.module_key (PendingRouteBindRelayEntry.reservation p)).

(** ** The parts *)

(** Routes and reservations. *)
Record index_ok (c2m : gmap ClientRouteKey.t RouteBinding.t) (m2c : gmap ModuleRouteKey.t RouteBinding.t)
    (rc : gmap ClientRouteKey.t ModuleRouteKey.t) (rm : gmap ModuleRouteKey.t ClientRouteKey.t)
    : Prop := {
  ix_client ck r : c2m !! ck = Some r →
    RouteBinding.client_key r = ck ∧ m2c !! RouteBinding.module_key r = Some r;
  ix_module mk r : m2c !! mk = Some r →
    RouteBinding.module_key r = mk ∧ c2m !! RouteBinding.client_key r = Some r;
  ix_reserved_client ck mk : rc !! ck = Some mk → rm !! mk = Some ck ∧ c2m !! ck = None;
  ix_reserved_module mk ck : rm !! mk = Some ck → rc !! ck = Some mk ∧ m2c !! mk = None;
}.

(** Epochs.  [gone] endpoints are being removed. *)
Record epochs_ok (gone : ModuleEndpointId.t → Prop) (c2m : gmap ClientRouteKey.t RouteBinding.t)
    (rc : gmap ClientRouteKey.t ModuleRouteKey.t) (pend : gmap RelayKey PendingRouteBindRelayEntry.t)
    (cse : gmap ClientRouteKey.t Z) (mse : gmap ModuleRouteKey.t Z) : Prop := {
  ep_bound ck r : c2m !! ck = Some r →
    cse !! ck = Some (RouteBinding.client_epoch r) ∧
    (gone (RouteBinding.module_endpoint r) ∨
     mse !! RouteBinding.module_key r = Some (RouteBinding.module_epoch r));
  ep_pending key p : pend !! key = Some p →
    let r := PendingRouteBindRelayEntry.reservation p in
    ModuleRouteKey.endpoint (RouteReservation.module_key r) = key.1 ∧
    (gone key.1 ∨
     rc !! RouteReservation.client_key r = Some (RouteReservation.module_key r) ∧
     cse !! RouteReservation.client_key r = Some (RouteReservation.client_epoch r) ∧
     mse !! RouteReservation.module_key r = Some (RouteReservation.module_epoch r));
  ep_pending_inj key key' p p' : pend !! key = Some p → pend !! key' = Some p' →
    RouteReservation.module_key (PendingRouteBindRelayEntry.reservation p)
    = RouteReservation.module_key (PendingRouteBindRelayEntry.reservation p') → key = key';
}.

(** Channels and epochs at their widths. *)
Record ranges_ok (cse : gmap ClientRouteKey.t Z) (mse : gmap ModuleRouteKey.t Z)
    (ncc : gmap Z Z) (nmc : gmap ModuleEndpointId.t Z) : Prop := {
  rg_client ck e : cse !! ck = Some e → channel_ok (ClientRouteKey.channel ck) ∧ 1 ≤ e ≤ U32_MAX;
  rg_module mk e : mse !! mk = Some e → channel_ok (ModuleRouteKey.channel mk) ∧ 1 ≤ e ≤ U32_MAX;
  rg_next_client c ch : ncc !! c = Some ch → channel_ok ch;
  rg_next_module e ch : nmc !! e = Some ch → channel_ok ch;
}.

(** Endpoints: each registered one has its connection, and fills at most one of
    the slots. *)
Record names_ok (ebc : gmap Z ModuleEndpointId.t) (mid : gmap ModuleEndpointId.t string)
    (active candidates : gmap string ModuleConnection.t)
    (superseded : gmap ModuleEndpointId.t ModuleConnection.t) : Prop := {
  nm_connection c e : ebc !! c = Some e → ModuleEndpointId.connection_id e = c ∧ is_Some (mid !! e);
  nm_endpoint e id : mid !! e = Some id → ebc !! ModuleEndpointId.connection_id e = Some e;
  nm_active id m : active !! id = Some m → mid !! ModuleConnection.endpoint m = Some id;
  nm_candidate id m : candidates !! id = Some m → mid !! ModuleConnection.endpoint m = Some id;
  nm_superseded e m : superseded !! e = Some m → ModuleConnection.endpoint m = e ∧ is_Some (mid !! e);
  nm_active_candidate id id' m m' : active !! id = Some m → candidates !! id' = Some m' →
    ModuleConnection.endpoint m ≠ ModuleConnection.endpoint m';
  nm_active_superseded id m : active !! id = Some m → superseded !! ModuleConnection.endpoint m = None;
  nm_candidate_superseded id m :
    candidates !! id = Some m → superseded !! ModuleConnection.endpoint m = None;
}.

(** Who holds routes: clients on one side, registered endpoints on the other. *)
Record holders_ok (gone : ModuleEndpointId.t → Prop) (ebc : gmap Z ModuleEndpointId.t)
    (mid : gmap ModuleEndpointId.t string) (c2m : gmap ClientRouteKey.t RouteBinding.t)
    (rc : gmap ClientRouteKey.t ModuleRouteKey.t) (mse : gmap ModuleRouteKey.t Z) : Prop := {
  hd_bound ck r : c2m !! ck = Some r →
    ebc !! ClientRouteKey.connection_id ck = None ∧
    (gone (RouteBinding.module_endpoint r) ∨
     mid !! RouteBinding.module_endpoint r = Some (RouteBinding.module_id r));
  hd_reserved ck mk : rc !! ck = Some mk →
    ebc !! ClientRouteKey.connection_id ck = None ∧
    (gone (ModuleRouteKey.endpoint mk) ∨ is_Some (mid !! ModuleRouteKey.endpoint mk));
  hd_slot mk e : mse !! mk = Some e → is_Some (mid !! ModuleRouteKey.endpoint mk);
}.

(** [corr] was handed out: [next] is the next one, 0 once they are used up. *)
Definition corr_used (next corr : Z) : Prop := 1 ≤ corr ≤ U64_MAX ∧ (next = 0 ∨ corr < next).

(** Correlation ids. *)
Record corrs_ok (gone : ModuleEndpointId.t → Prop) (mid : gmap ModuleEndpointId.t string)
    (pend : gmap RelayKey PendingRouteBindRelayEntry.t)
    (ctrl : gmap RelayKey PendingModuleControlRpcEntry.t) (next : gmap ModuleEndpointId.t Z) : Prop := {
  cr_next e id : mid !! e = Some id → ∃ n, next !! e = Some n ∧ 0 ≤ n ≤ U64_MAX;
  cr_next_registered e n : next !! e = Some n → is_Some (mid !! e);
  cr_pending e corr p : pend !! (e, corr) = Some p →
    gone e ∨ ∃ n, next !! e = Some n ∧ corr_used n corr;
  cr_control e corr p : ctrl !! (e, corr) = Some p →
    gone e ∨ ∃ n, next !! e = Some n ∧ corr_used n corr;
}.

(** A call and a relay never share an id. *)
Definition corrs_apart (pend : gmap RelayKey PendingRouteBindRelayEntry.t)
    (ctrl : gmap RelayKey PendingModuleControlRpcEntry.t) : Prop :=
  ∀ key, is_Some (pend !! key) → ctrl !! key = None.

(** Flows: each bound route has its own, at an address below the next one. *)
Record flows_ok `{Semaphore} (c2m : gmap ClientRouteKey.t RouteBinding.t)
    (fl : gmap positive ChannelFlow.t) (next : positive) : Prop := {
  fl_bound ck r : c2m !! ck = Some r → (RouteBinding.addr r < next)%positive ∧
    is_Some (fl !! RouteBinding.addr r);
  fl_inj ck ck' r r' : c2m !! ck = Some r → c2m !! ck' = Some r' →
    RouteBinding.addr r = RouteBinding.addr r' → ck = ck';
  fl_old a f : fl !! a = Some f → (a < next)%positive;
}.

(** ** Changing one route or reservation *)

(** Lookups in updated maps, by cases on the keys. *)
Ltac lookups :=
  repeat match goal with
  | H : context [<[_ := _]> _ !! _] |- _ => rewrite lookup_insert in H
  | H : context [delete _ _ !! _] |- _ => rewrite lookup_delete in H
  | |- context [<[_ := _]> _ !! _] => rewrite lookup_insert
  | |- context [delete _ _ !! _] => rewrite lookup_delete
  | _ => case_decide; subst
  end.

Section indexes.
Context (c2m : gmap ClientRouteKey.t RouteBinding.t) (m2c : gmap ModuleRouteKey.t RouteBinding.t).
Context (rc : gmap ClientRouteKey.t ModuleRouteKey.t) (rm : gmap ModuleRouteKey.t ClientRouteKey.t).
Context (Hok : index_ok c2m m2c rc rm).

Lemma index_unreserve ck mk :
  rc !! ck = Some mk → index_ok c2m m2c (delete ck rc) (delete mk rm).
Proof using Hok.
  intros Hck. destruct Hok as [Hc Hm Hrc Hrm]. destruct (Hrc _ _ Hck) as [Hmk _].
  split; [done|done|..]; intros k1 k2 Hk; try apply lookup_delete_Some in Hk as [? Hk].
  - destruct (Hrc _ _ Hk). split; [|done]. lookups; congruence.
  - destruct (Hrm _ _ Hk). split; [|done]. lookups; congruence.
Qed.

Lemma index_unbind ck r :
  c2m !! ck = Some r → index_ok (delete ck c2m) (delete (RouteBinding.module_key r) m2c) rc rm.
Proof using Hok.
  intros Hck. destruct Hok as [Hc Hm Hrc Hrm]. destruct (Hc _ _ Hck) as [Hkey Hmod].
  split; intros k1 k2 Hk; try apply lookup_delete_Some in Hk as [? Hk].
  - destruct (Hc _ _ Hk). split; [done|]. lookups; congruence.
  - destruct (Hm _ _ Hk). split; [done|]. lookups; congruence.
  - destruct (Hrc _ _ Hk). split; [done|]. by lookups.
  - destruct (Hrm _ _ Hk). split; [done|]. by lookups.
Qed.

Lemma index_reserve ck mk :
  c2m !! ck = None → rc !! ck = None → m2c !! mk = None → rm !! mk = None →
  index_ok c2m m2c (<[ck := mk]> rc) (<[mk := ck]> rm).
Proof using Hok.
  intros ????. destruct Hok as [Hc Hm Hrc Hrm].
  split; [done|done|..]; intros k1 k2 Hk; rewrite lookup_insert_Some in Hk;
    destruct Hk as [[-> ->]|[? Hk]].
  - split; [|done]. by rewrite lookup_insert_eq.
  - destruct (Hrc _ _ Hk). split; [|done]. lookups; congruence.
  - split; [|done]. by rewrite lookup_insert_eq.
  - destruct (Hrm _ _ Hk). split; [|done]. lookups; congruence.
Qed.

Lemma index_bind ck mk r :
  c2m !! ck = None → rc !! ck = None → m2c !! mk = None → rm !! mk = None →
  RouteBinding.client_key r = ck → RouteBinding.module_key r = mk →
  index_ok (<[ck := r]> c2m) (<[mk := r]> m2c) rc rm.
Proof using Hok.
  intros ???? Hck Hmk. destruct Hok as [Hc Hm Hrc Hrm].
  split; intros k1 k2 Hk; try (rewrite lookup_insert_Some in Hk; destruct Hk as [[-> ->]|[? Hk]]).
  - split; [done|]. by rewrite Hmk, lookup_insert_eq.
  - destruct (Hc _ _ Hk). split; [done|]. lookups; congruence.
  - split; [done|]. by rewrite Hck, lookup_insert_eq.
  - destruct (Hm _ _ Hk). split; [done|]. lookups; congruence.
  - destruct (Hrc _ _ Hk). split; [done|]. lookups; congruence.
  - destruct (Hrm _ _ Hk). split; [done|]. lookups; congruence.
Qed.

(** The two halves of a reservation come and go together. *)
Lemma index_reserved_iff ck mk : rc !! ck = Some mk ↔ rm !! mk = Some ck.
Proof using Hok.
  split; intros Hr.
  - apply (ix_reserved_client _ _ _ _ Hok _ _ Hr).
  - apply (ix_reserved_module _ _ _ _ Hok _ _ Hr).
Qed.
End indexes.

(** The other parts only ask more of bigger maps. *)

Lemma epochs_shrink gone c2m c2m' rc pend pend' cse mse :
  epochs_ok gone c2m rc pend cse mse → c2m' ⊆ c2m → pend' ⊆ pend →
  epochs_ok gone c2m' rc pend' cse mse.
Proof.
  intros [Hb Hp Hi] Hc Hpe. split.
  - intros ck r Hr. eapply Hb, lookup_weaken; done.
  - intros key p Hk. eapply Hp, lookup_weaken; done.
  - intros key key' p p' Hk Hk'. eapply Hi; eapply lookup_weaken; done.
Qed.

Lemma holders_shrink gone ebc mid c2m c2m' rc rc' mse :
  holders_ok gone ebc mid c2m rc mse → c2m' ⊆ c2m → rc' ⊆ rc →
  holders_ok gone ebc mid c2m' rc' mse.
Proof.
  intros [Hb Hr Hs] Hc Hrc. split.
  - intros ck r Hck. eapply Hb, lookup_weaken; done.
  - intros ck mk Hck. eapply Hr, lookup_weaken; done.
  - done.
Qed.

Lemma corrs_shrink gone mid pend pend' ctrl ctrl' next :
  corrs_ok gone mid pend ctrl next → pend' ⊆ pend → ctrl' ⊆ ctrl →
  corrs_ok gone mid pend' ctrl' next.
Proof.
  intros [Hn Hreg Hp Hc] Hpe Hct. split; [done|done|..].
  - intros e corr p Hk. eapply Hp, lookup_weaken; done.
  - intros e corr p Hk. eapply Hc, lookup_weaken; done.
Qed.

Lemma apart_shrink pend pend' ctrl ctrl' :
  corrs_apart pend ctrl → pend' ⊆ pend → ctrl' ⊆ ctrl → corrs_apart pend' ctrl'.
Proof.
  intros Ha Hp Hc key [p Hk]. specialize (Ha key (mk_is_Some _ _ (lookup_weaken _ _ _ _ Hk Hp))).
  eapply lookup_weaken_None; done.
Qed.

Lemma flows_shrink `{Semaphore} c2m c2m' fl next :
  flows_ok c2m fl next → c2m' ⊆ c2m → flows_ok c2m' fl next.
Proof.
  intros [Hb Hi Ho] Hc. split; [| |done].
  - intros ck r Hck. eapply Hb, lookup_weaken; done.
  - intros ck ck' r r' Hr Hr'. eapply Hi; eapply lookup_weaken; done.
Qed.

(** Giving back a reservation no pending relay waits for. *)
Lemma epochs_unreserve gone c2m rc pend cse mse ck :
  epochs_ok gone c2m rc pend cse mse →
  (∀ key p, pend !! key = Some p → gone key.1 ∨
     RouteReservation.client_key (PendingRouteBindRelayEntry.reservation p) ≠ ck) →
  epochs_ok gone c2m (delete ck rc) pend cse mse.
Proof.
  intros [Hb Hp Hi] Hno. split; [done| |done].
  intros key p Hk. destruct (Hp _ _ Hk) as [? [?|(?&?&?)]]; split; auto.
  destruct (Hno _ _ Hk) as [?|?]; auto. right. by rewrite lookup_delete_ne.
Qed.

Section invariant.
Context `{Semaphore}.
Implicit Types (i : ForwardingInner).

Record fw_upto (gone : ModuleEndpointId.t → Prop) i : Prop := {
  fw_index : index_ok (client_to_module i) (module_to_client i) (reserved_client i) (reserved_module i);
  fw_epochs : epochs_ok gone (client_to_module i) (reserved_client i) (pending_relays i)
                (client_slot_epochs i) (module_slot_epochs i);
  fw_ranges : ranges_ok (client_slot_epochs i) (module_slot_epochs i) (next_client_channel i)
                (next_module_channel i);
  fw_names : names_ok (endpoint_by_connection i) (module_id_by_endpoint i) (modules_by_id i)
               (candidates_by_id i) (superseded_endpoints i);
  fw_holders : holders_ok gone (endpoint_by_connection i) (module_id_by_endpoint i)
                 (client_to_module i) (reserved_client i) (module_slot_epochs i);
  fw_corrs : corrs_ok gone (module_id_by_endpoint i) (pending_relays i) (pending_control_rpcs i)
               (next_control_corr i);
  fw_apart : corrs_apart (pending_relays i) (pending_control_rpcs i);
  fw_flows : flows_ok (client_to_module i) (flows i) (next_addr i);
}.

Definition fw_ok : ForwardingInner → Prop := fw_upto (λ _, False).

Lemma empty_forwarding_ok : fw_ok empty_forwarding.
Proof. split; split || intros ?; simpl; try by intros *; rewrite ?lookup_empty; intros; simplify_eq. Qed.

End invariant.
