(* ===== verification/ForwardingOps.v ===== *)
(** * Every operation keeps the invariant of the forwarding table *)

From S2P Require Import Prelude Collections Envelope Tokens ScopeTypes Scopes ScopeDrains.
From S2P Require Import Flow Forwarding ForwardingSlots ForwardingInvariant.

(** The parts whose maps an operation leaves alone. *)
Ltac fw_frame :=
  match goal with
  | H : fw_upto _ _ |- _ => destruct H; split; simpl; try assumption
  | H : fw_ok _ |- _ => destruct H; split; simpl; try assumption
  end.

Section release.
Context `{Semaphore} (gone : ModuleEndpointId.t → Prop).
Implicit Types (i : ForwardingInner).

(** ** Releases *)

Lemma drop_scope_ok i scope : fw_upto gone i → fw_upto gone (drop_scope i scope).
Proof. intros Hok. destruct scope; simpl; [fw_frame|done]. Qed.

Lemma release_scope_bind_ok i scope : fw_upto gone i → fw_upto gone (release_scope_bind i scope).
Proof. intros Hok. destruct scope; simpl; [fw_frame|done]. Qed.

Lemma release_reserved_route_eq i ck mk :
  index_ok (client_to_module i) (module_to_client i) (reserved_client i) (reserved_module i) →
  release_reserved_route i ck mk =
  (if decide (reserved_client i !! ck = Some mk)
   then i <| reserved_client := delete ck (reserved_client i) |>
          <| reserved_module := delete mk (reserved_module i) |>
   else i) <| status := filter (λ e, e.1.1 ≠ ck) (status i) |>.
Proof.
  intros Hix. pose proof (index_reserved_iff _ _ _ _ Hix ck mk) as Hiff.
  unfold release_reserved_route. destruct (decide (reserved_client i !! ck = Some mk)) as [Hc|Hc]; simpl.
  - rewrite decide_True by (by apply Hiff). done.
  - rewrite decide_False by (by rewrite <-Hiff). done.
Qed.

Lemma release_reserved_route_ok i ck mk :
  fw_upto gone i →
  (∀ key p, pending_relays i !! key = Some p → gone key.1 ∨
     RouteReservation.module_key (PendingRouteBindRelayEntry.reservation p) ≠ mk) →
  fw_upto gone (release_reserved_route i ck mk).
Proof.
  intros Hok Hno. rewrite release_reserved_route_eq by apply Hok.
  destruct (decide _) as [Hck|Hck]; fw_frame.
  - by apply index_unreserve.
  - apply epochs_unreserve; [done|]. intros key p Hp. destruct (Hno key p Hp) as [?|Hne]; [auto|].
    destruct (ep_pending _ _ _ _ _ _ fw_epochs key p Hp) as [_ [?|(Hr&_&_)]]; [by auto|].
    right. intros Heq. rewrite Heq, Hck in Hr. congruence.
  - eapply holders_shrink; [done..|apply delete_subseteq].
Qed.

(** A pending relay goes away with its reservation. *)
Lemma drop_pending_ok i key p :
  fw_upto gone i → pending_relays i !! key = Some p →
  fw_upto gone (release_reservation (i <| pending_relays := delete key (pending_relays i) |>) p).
Proof.
  intros Hok Hp. apply drop_scope_ok, release_reserved_route_ok.
  - fw_frame.
    + eapply epochs_shrink; [done..|apply delete_subseteq].
    + eapply corrs_shrink; [done|apply delete_subseteq|done].
    + eapply apart_shrink; [done|apply delete_subseteq|done].
  - simpl. intros key' p' [Hne Hp']%lookup_delete_Some. right. intros Heq. apply Hne.
    symmetry. by apply (ep_pending_inj _ _ _ _ _ _ (fw_epochs _ _ Hok) key' key p' p).
Qed.

Lemma flows_alter c2m fl next a (f : ChannelFlow.t → ChannelFlow.t) :
  flows_ok c2m fl next → flows_ok c2m (alter f a fl) next.
Proof.
  intros [Hb Hi Ho]. split; [|done|].
  - intros ck r Hr. destruct (Hb ck r Hr) as [? Hs]. split; [done|].
    by rewrite lookup_alter_is_Some.
  - intros a' f' Ha. apply lookup_alter_Some in Ha as [(<- & x & Hx & _)|[_ Hx]]; by eapply Ho.
Qed.

Lemma unbind_ok i ck r :
  fw_upto gone i → client_to_module i !! ck = Some r →
  fw_upto gone
    (i <| client_to_module := delete ck (client_to_module i) |>
       <| flows := alter ChannelFlow.close (RouteBinding.addr r) (flows i) |>
       <| module_to_client := delete (RouteBinding.module_key r) (module_to_client i) |>).
Proof.
  intros Hok Hr. fw_frame.
  - by apply index_unbind.
  - eapply epochs_shrink; [done|apply delete_subseteq|done].
  - eapply holders_shrink; [done|apply delete_subseteq|done].
  - apply flows_alter. eapply flows_shrink; [done|apply delete_subseteq].
Qed.

Lemma release_client_route_ok i ck e :
  fw_upto gone i → fw_upto gone (release_client_route i ck e).1.1.
Proof.
  intros Hok. unfold release_client_route.
  destruct (client_to_module i !! ck) as [r|] eqn:Hr; [|done]. destruct (negb _); [done|]. simpl.
  pose proof (unbind_ok i ck r Hok Hr). destruct (RouteBinding.scope r); simpl; fw_frame.
Qed.

Lemma release_module_route_locked_ok i mk e :
  fw_upto gone i → fw_upto gone (release_module_route_locked i mk e).1.1.
Proof.
  intros Hok. unfold release_module_route_locked.
  destruct (module_to_client i !! mk) as [r|] eqn:Hr; [|done]. destruct (negb _); [done|]. simpl.
  destruct (ix_module _ _ _ _ (fw_index _ _ Hok) mk r Hr) as [<- Hc].
  pose proof (unbind_ok i _ r Hok Hc). destruct (RouteBinding.scope r); simpl; fw_frame.
Qed.

Lemma release_client_routes_ok i routes :
  fw_upto gone i → fw_upto gone (release_client_routes routes i).1.1.
Proof.
  intros Hok. unfold release_client_routes.
  apply (foldl_inv (λ acc, fw_upto gone acc.1.1)); [done|].
  intros [[j effects] released] [ck e] _ Hj. simpl in *.
  pose proof (release_client_route_ok j ck e Hj).
  by destruct (release_client_route j ck e) as [[j' eff] []].
Qed.

Lemma release_module_routes_ok i routes :
  fw_upto gone i → fw_upto gone (release_module_routes routes i).1.1.
Proof.
  intros Hok. unfold release_module_routes.
  apply (foldl_inv (λ acc, fw_upto gone acc.1.1)); [done|].
  intros [[j effects] released] [mk e] _ Hj. simpl in *.
  pose proof (release_module_route_locked_ok j mk e Hj).
  by destruct (release_module_route_locked j mk e) as [[j' eff] []].
Qed.

(** ** Drops *)

Lemma drop_relay_ok reply acc key :
  fw_upto gone acc.1.1 → fw_upto gone (drop_relay reply acc key).1.1.
Proof.
  destruct acc as [[i effects] targets]; simpl. intros Hok.
  destruct (pending_relays i !! key) as [p|] eqn:Hp; [|done].
  pose proof (drop_pending_ok i key p Hok Hp).
  destruct (PendingRouteBindRelayEntry.relay_enqueued p); simpl; [done|fw_frame].
Qed.

Lemma drop_control_rpc_ok acc key :
  fw_upto gone acc.1 → fw_upto gone (drop_control_rpc acc key).1.
Proof.
  destruct acc as [i effects]; simpl. intros Hok.
  destruct (pending_control_rpcs i !! key) as [p|] eqn:Hp; [|done]. simpl. fw_frame.
  - eapply corrs_shrink; [done|done|apply delete_subseteq].
  - eapply apart_shrink; [done|done|apply delete_subseteq].
Qed.
End release.

(** ** Draining *)

Section drains.
Context `{Semaphore} `{HashOrder}.
Implicit Types (i : ForwardingInner).

Lemma flows_insert c2m fl next a (f g : ChannelFlow.t) :
  flows_ok c2m fl next → fl !! a = Some f → flows_ok c2m (<[a := g]> fl) next.
Proof.
  intros [Hb Hi Ho] Ha. split; [|done|].
  - intros ck r Hr. destruct (Hb ck r Hr) as [? Hs]. split; [done|]. lookups; done.
  - intros a' f'. lookups; [intros _|]; by eauto.
Qed.

Lemma drain_flows_ok gone i endpoint : fw_upto gone i → fw_upto gone (drain_flows i endpoint).1.
Proof.
  intros Hok. unfold drain_flows. apply (foldl_inv (λ acc, fw_upto gone acc.1)); [done|].
  intros [j excluded] [ck r] _ Hj. simpl in *.
  destruct (flows j !! RouteBinding.addr r) as [f|] eqn:Hf; [|done].
  destruct (ChannelFlow.begin_drain f) as [n f']. simpl. fw_frame. by eapply flows_insert.
Qed.

Lemma begin_drain_ok i module reason : fw_ok i → fw_ok (begin_drain i module reason).1.1.
Proof.
  intros Hok. unfold begin_drain. cbv zeta.
  set (i1 := i <| draining_endpoints := _ |>).
  assert (fw_ok i1) as Hok1 by (unfold i1; fw_frame).
  pose proof (drain_flows_ok _ i1 (ModuleConnection.endpoint module) Hok1) as Hok2.
  destruct (drain_flows i1 _) as [i2 excluded]. simpl in Hok2.
  set (f := drop_relay (DaemonRejected error_codes.MODULE_RELOADING)).
  assert (∀ keys, fw_ok (foldl f (i2, [], []) keys).1.1) as Hok3.
  { intros keys. apply (foldl_inv (λ acc, fw_ok acc.1.1)); [done|].
    intros acc key _ ?. by apply drop_relay_ok. }
  specialize (Hok3 (endpoint_keys (pending_relays i2) (ModuleConnection.endpoint module))).
  destruct (foldl f _ _) as [[i3 effects] targets]. simpl in Hok3.
  assert (∀ keys, fw_ok (foldl drop_control_rpc (i3, effects) keys).1) as Hok4.
  { intros keys. apply (foldl_inv (λ acc, fw_ok acc.1)); [done|].
    intros acc key _ ?. by apply drop_control_rpc_ok. }
  specialize (Hok4 (endpoint_keys (pending_control_rpcs i3) (ModuleConnection.endpoint module))).
  by destruct (foldl drop_control_rpc _ _).
Qed.

Lemma begin_daemon_drain_ok i : fw_ok i → fw_ok (begin_daemon_drain i).1.
Proof.
  intros Hok. unfold begin_daemon_drain. destruct (daemon_draining i); [done|]. simpl.
  apply (foldl_inv fw_ok).
  - apply (foldl_inv fw_ok); [fw_frame|]. intros j e _ ?. fw_frame.
  - intros j e _ ?. fw_frame.
Qed.
End drains.

(** ** Reserving a route *)

Section reserve.
Context `{Semaphore}.
Implicit Types (i : ForwardingInner).

(** A fresh correlation id for a registered endpoint. *)
Lemma allocate_control_corr_Ok i e i' corr :
  fw_ok i → is_Some (module_id_by_endpoint i !! e) →
  allocate_control_corr i e = (i', Ok corr) →
  fw_ok i' ∧
  (∃ next n, i' = i <| next_control_corr := next |> ∧ next !! e = Some n ∧ corr_used n corr) ∧
  pending_relays i !! (e, corr) = None ∧ pending_control_rpcs i !! (e, corr) = None.
Proof.
  intros Hok [id Hid]. unfold allocate_control_corr.
  destruct (fw_corrs _ _ Hok) as [Hn Hreg Hp Hc]. destruct (Hn e id Hid) as (n & Hne & Hrange).
  rewrite Hne. simpl default. destruct (n =? 0) eqn:Hz; [intros; by simplify_eq|].
  intros Heq. injection Heq as <- <-.
  assert (corr_used (if n =? U64_MAX then 0 else n + 1) n) as Hused.
  { split; [lia|]. destruct (n =? U64_MAX) eqn:E; lia. }
  assert (∀ c, corr_used n c → corr_used (if n =? U64_MAX then 0 else n + 1) c) as Hkeep.
  { intros c [? [?|?]]; (split; [done|]); destruct (n =? U64_MAX) eqn:E; lia. }
  split_and!.
  - fw_frame. split.
    + intros e' id' Hid'. destruct (decide (e' = e)) as [->|?].
      * rewrite lookup_insert_eq. eexists; split; [done|]. destruct (_ =? U64_MAX) eqn:E; lia.
      * rewrite lookup_insert_ne by done. by eapply Hn.
    + intros e' n'. lookups; [by eauto|]. apply Hreg.
    + intros e' c p Hpe. destruct (Hp _ _ _ Hpe) as [[]|(n' & Hn' & Hu)]. right.
      destruct (decide (e' = e)) as [->|?].
      * rewrite lookup_insert_eq. rewrite Hne in Hn'. injection Hn' as ->. eauto.
      * rewrite lookup_insert_ne by done. eauto.
    + intros e' c p Hpe. destruct (Hc _ _ _ Hpe) as [[]|(n' & Hn' & Hu)]. right.
      destruct (decide (e' = e)) as [->|?].
      * rewrite lookup_insert_eq. rewrite Hne in Hn'. injection Hn' as ->. eauto.
      * rewrite lookup_insert_ne by done. eauto.
  - do 2 eexists. split; [done|]. by rewrite lookup_insert_eq.
  - destruct (pending_relays i !! (e, n)) as [p|] eqn:Hpe; [|done].
    destruct (Hp _ _ _ Hpe) as [[]|(n' & Hn' & _ & [?|?])]; rewrite Hne in Hn'; injection Hn'; lia.
  - destruct (pending_control_rpcs i !! (e, n)) as [p|] eqn:Hpe; [|done].
    destruct (Hc _ _ _ Hpe) as [[]|(n' & Hn' & _ & [?|?])]; rewrite Hne in Hn'; injection Hn'; lia.
Qed.

Lemma allocate_control_corr_Err gone i e i' err :
  fw_upto gone i → allocate_control_corr i e = (i', Err err) → fw_upto gone i'.
Proof.
  intros Hok. unfold allocate_control_corr. cbv zeta. destruct (_ =? 0); intros [= <- <-]. fw_frame.
Qed.

Lemma next_channel_ok c : channel_ok c → channel_ok (next_channel c).
Proof.
  intros Hc. rewrite <-(channel_at_0 c Hc), next_channel_at. apply channel_at_ok.
Qed.

(** A pair of slots just handed out. *)
Record slots_free i (ck : ClientRouteKey.t) (mk : ModuleRouteKey.t) : Prop := {
  sf_client : client_to_module i !! ck = None;
  sf_module : module_to_client i !! mk = None;
  sf_reserved_client : reserved_client i !! ck = None;
  sf_reserved_module : reserved_module i !! mk = None;
}.

Lemma ranges_client_start cse mse ncc nmc c :
  ranges_ok cse mse ncc nmc → channel_ok (default 1 (ncc !! c)).
Proof.
  intros Hok. destruct (ncc !! c) as [ch|] eqn:Hc; simpl; [|unfold channel_ok; lia].
  by eapply rg_next_client.
Qed.

Lemma ranges_module_start cse mse ncc nmc c :
  ranges_ok cse mse ncc nmc → channel_ok (default 1 (nmc !! c)).
Proof.
  intros Hok. destruct (nmc !! c) as [ch|] eqn:Hc; simpl; [|unfold channel_ok; lia].
  by eapply rg_next_module.
Qed.

Lemma ranges_next_client cse mse ncc nmc c ch :
  ranges_ok cse mse ncc nmc → channel_ok ch → ranges_ok cse mse (<[c := ch]> ncc) nmc.
Proof. intros [????] ?. split; [done|done| |done]. intros c' ch'. lookups; [congruence|eauto]. Qed.

Lemma ranges_next_module cse mse ncc nmc e ch :
  ranges_ok cse mse ncc nmc → channel_ok ch → ranges_ok cse mse ncc (<[e := ch]> nmc).
Proof. intros [????] ?. split; [done..|]. intros c' ch'. lookups; [congruence|eauto]. Qed.

Lemma ranges_slots cse mse ncc nmc ck mk ce me :
  ranges_ok cse mse ncc nmc → channel_ok (ClientRouteKey.channel ck) →
  channel_ok (ModuleRouteKey.channel mk) → 1 ≤ ce ≤ U32_MAX → 1 ≤ me ≤ U32_MAX →
  ranges_ok (<[ck := ce]> cse) (<[mk := me]> mse) ncc nmc.
Proof.
  intros [????] ????. split; [| |done|done].
  - intros ck' e. lookups; [intros [= <-]; done|eauto].
  - intros mk' e. lookups; [intros [= <-]; done|eauto].
Qed.

Lemma client_eligible_true i c ch :
  client_eligible i c ch = true →
  client_to_module i !! ClientRouteKey.mk c ch = None ∧
  reserved_client i !! ClientRouteKey.mk c ch = None ∧
  default 0 (client_slot_epochs i !! ClientRouteKey.mk c ch) < U32_MAX.
Proof.
  unfold client_eligible. intros He. split_bools.
  repeat match goal with Hn : is_none _ = true |- _ => apply is_none_true in Hn end. auto with lia.
Qed.

Lemma module_eligible_true i e ch :
  module_eligible i e ch = true →
  module_to_client i !! ModuleRouteKey.mk e ch = None ∧
  reserved_module i !! ModuleRouteKey.mk e ch = None ∧
  default 0 (module_slot_epochs i !! ModuleRouteKey.mk e ch) < U32_MAX.
Proof.
  unfold module_eligible. intros He. split_bools.
  repeat match goal with Hn : is_none _ = true |- _ => apply is_none_true in Hn end. auto with lia.
Qed.

(** Slots that were free get the next epoch. *)
Record slots_allocated i (ck : ClientRouteKey.t) (mk : ModuleRouteKey.t) (ce me : Z) i' : Prop := {
  sa_free : slots_free i ck mk;
  sa_client_channel : channel_ok (ClientRouteKey.channel ck);
  sa_module_channel : channel_ok (ModuleRouteKey.channel mk);
  sa_client_epoch : ce = default 0 (client_slot_epochs i !! ck) + 1 ∧ ce ≤ U32_MAX;
  sa_module_epoch : me = default 0 (module_slot_epochs i !! mk) + 1 ∧ me ≤ U32_MAX;
  sa_state : ∃ ncc nmc, i' =
    i <| client_slot_epochs := <[ck := ce]> (client_slot_epochs i) |>
      <| module_slot_epochs := <[mk := me]> (module_slot_epochs i) |>
      <| next_client_channel := ncc |> <| next_module_channel := nmc |> ∧
    ranges_ok (client_slot_epochs i) (module_slot_epochs i) ncc nmc;
}.

Lemma allocate_route_slots_Ok i c e i' cc ce mc me :
  fw_ok i → allocate_route_slots i c e = (i', Ok (cc, ce, mc, me)) →
  slots_allocated i (ClientRouteKey.mk c cc) (ModuleRouteKey.mk e mc) ce me i'.
Proof.
  intros Hok. pose proof (fw_ranges _ _ Hok) as Hrg. unfold allocate_route_slots.
  pose proof (ranges_client_start _ _ _ _ c Hrg) as Hcs. set (cs := default 1 _) in *.
  cbv zeta. set (i1 := i <| next_client_channel := _ |>).
  destruct (find_channel _ (client_eligible i1 c) cs cs) as [cc'|] eqn:Hfc; [|done].
  apply find_channel_Some in Hfc as [Hcc (Hc1 & Hc2 & Hc3)%client_eligible_true]; [|done].
  pose proof (ranges_module_start _ _ _ _ e Hrg) as Hms. change (next_module_channel i1) with
    (next_module_channel i). set (ms := default 1 (next_module_channel i !! e)) in *.
  set (i2 := i1 <| next_module_channel := _ |>).
  destruct (find_channel _ (module_eligible i2 e) ms ms) as [mc'|] eqn:Hfm; [|done].
  apply find_channel_Some in Hfm as [Hmc (Hm1 & Hm2 & Hm3)%module_eligible_true]; [|done].
  intros Heq. injection Heq as <- <- <- <- <-. unfold i1, i2 in *. simpl in *.
  split; [by split|done|done|lia|lia|]. do 2 eexists. split; [reflexivity|].
  apply ranges_next_module; [|by apply next_channel_ok].
  apply ranges_next_client; [|by apply next_channel_ok].
  apply ranges_next_module; [|done]. by apply ranges_next_client.
Qed.

Lemma allocate_route_slots_Err i c e i' err :
  fw_ok i → allocate_route_slots i c e = (i', Err err) → fw_ok i'.
Proof.
  intros Hok. pose proof (fw_ranges _ _ Hok) as Hrg. unfold allocate_route_slots.
  pose proof (ranges_client_start _ _ _ _ c Hrg). pose proof (ranges_module_start _ _ _ _ e Hrg).
  cbv zeta. set (i1 := i <| next_client_channel := _ |>).
  assert (fw_ok i1) as Hok1 by (unfold i1; fw_frame; by apply ranges_next_client).
  destruct (find_channel _ (client_eligible i1 c) _ _) as [cc|]; [|intros Heq; by injection Heq as <- <-].
  set (i2 := i1 <| next_module_channel := _ |>).
  destruct (find_channel _ (module_eligible i2 e) _ _) as [mc|]; intros Heq; [done|].
  injection Heq as <- <-. unfold i2, i1. clear Hok1. fw_frame. apply ranges_next_module; [|done]. by apply ranges_next_client.
Qed.

(** A slot that cannot be handed out: in use, or out of epochs. *)
Definition client_taken i (c ch : Z) : Prop :=
  let key := ClientRouteKey.mk c ch in
  is_Some (client_to_module i !! key) ∨ is_Some (reserved_client i !! key) ∨
  client_slot_epochs i !! key = Some U32_MAX.

Definition module_taken i (e : ModuleEndpointId.t) (ch : Z) : Prop :=
  let key := ModuleRouteKey.mk e ch in
  is_Some (module_to_client i !! key) ∨ is_Some (reserved_module i !! key) ∨
  module_slot_epochs i !! key = Some U32_MAX.

Lemma client_ineligible i c ch : fw_ok i → client_eligible i c ch = false → client_taken i c ch.
Proof.
  intros Hok. unfold client_eligible, client_taken. cbv zeta.
  destruct (client_to_module i !! _); [eauto|]. destruct (reserved_client i !! _); [eauto|]. simpl.
  intros Hlt%Z.ltb_ge. right. right.
  destruct (client_slot_epochs i !! _) as [e|] eqn:He; simpl in Hlt; [|unfold U32_MAX in *; lia].
  destruct (rg_client _ _ _ _ (fw_ranges _ _ Hok) _ _ He). f_equal. lia.
Qed.

Lemma module_ineligible i e ch : fw_ok i → module_eligible i e ch = false → module_taken i e ch.
Proof.
  intros Hok. unfold module_eligible, module_taken. cbv zeta.
  destruct (module_to_client i !! _); [eauto|]. destruct (reserved_module i !! _); [eauto|]. simpl.
  intros Hlt%Z.ltb_ge. right. right.
  destruct (module_slot_epochs i !! _) as [ep|] eqn:He; simpl in Hlt; [|unfold U32_MAX in *; lia].
  destruct (rg_module _ _ _ _ (fw_ranges _ _ Hok) _ _ He). f_equal. lia.
Qed.

(** Allocation fails only when every slot of one side is taken. *)
Lemma allocate_route_slots_exhausted i c e err :
  fw_ok i → (allocate_route_slots i c e).2 = Err err →
  err = ClientRouteChannelExhausted c ∧ (∀ ch, channel_ok ch → client_taken i c ch) ∨
  err = ModuleRouteChannelExhausted e ∧ (∀ ch, channel_ok ch → module_taken i e ch).
Proof.
  intros Hok. pose proof (fw_ranges _ _ Hok) as Hrg. unfold allocate_route_slots.
  pose proof (ranges_client_start _ _ _ _ c Hrg) as Hcs. pose proof (ranges_module_start _ _ _ _ e Hrg) as Hms.
  cbv zeta. set (i1 := i <| next_client_channel := _ |>).
  pose proof (find_channel_spec (client_eligible i1 c) _ Hcs) as Hfc.
  destruct (find_channel _ (client_eligible i1 c) _ _) as [cc|].
  2:{ simpl. intros [= <-]. left. split; [done|]. intros ch Hch. by apply client_ineligible, Hfc. }
  set (i2 := i1 <| next_module_channel := _ |>).
  pose proof (find_channel_spec (module_eligible i2 e) _ Hms) as Hfm.
  change (next_module_channel i1) with (next_module_channel i) in *.
  destruct (find_channel _ (module_eligible i2 e) _ _) as [mc|]; simpl; [done|].
  intros [= <-]. right. split; [done|]. intros ch Hch. by apply module_ineligible, Hfm.
Qed.

Lemma ranges_epoch_nonneg cse mse ncc nmc ck :
  ranges_ok cse mse ncc nmc → 0 ≤ default 0 (cse !! ck).
Proof.
  intros Hok. destruct (cse !! ck) as [e|] eqn:Hc; simpl; [|lia].
  apply (rg_client _ _ _ _ Hok) in Hc. lia.
Qed.

Lemma ranges_module_epoch_nonneg cse mse ncc nmc mk :
  ranges_ok cse mse ncc nmc → 0 ≤ default 0 (mse !! mk).
Proof.
  intros Hok. destruct (mse !! mk) as [e|] eqn:Hc; simpl; [|lia].
  apply (rg_module _ _ _ _ Hok) in Hc. lia.
Qed.

Lemma slots_allocated_ok i ck mk ce me i' :
  fw_ok i → is_Some (module_id_by_endpoint i !! ModuleRouteKey.endpoint mk) →
  slots_allocated i ck mk ce me i' → fw_ok i'.
Proof.
  intros Hok Hid [[Hc Hm Hrc Hrm] ? ? [Hce ?] [Hme ?] (ncc & nmc & -> & Hrg)].
  pose proof (ranges_epoch_nonneg _ _ _ _ ck Hrg). pose proof (ranges_module_epoch_nonneg _ _ _ _ mk Hrg).
  pose proof Hok as Hok'. fw_frame.
  - destruct fw_epochs as [Hb Hp Hi]. split; [| |done].
    + intros ck' r Hr. destruct (Hb ck' r Hr) as [? [[]|?]]. destruct (ix_client _ _ _ _ fw_index _ _ Hr).
      rewrite !lookup_insert_ne; [by auto|congruence..].
    + intros key p Hpe. destruct (Hp key p Hpe) as [? [[]|(Hr & ? & ?)]]. split; [done|]. right.
      destruct (ix_reserved_client _ _ _ _ fw_index _ _ Hr). rewrite !lookup_insert_ne; [done|..]; congruence.
  - apply ranges_slots; try done; lia.
  - destruct fw_holders as [Hb Hr Hs]. split; [done|done|]. intros mk' e. lookups; [done|apply Hs].
Qed.

(** The pair is reserved for a relay with a fresh correlation id. *)
Lemma reserve_ok i key p :
  let r := PendingRouteBindRelayEntry.reservation p in
  let ck := RouteReservation.client_key r in
  let mk := RouteReservation.module_key r in
  fw_ok i → slots_free i ck mk → ModuleRouteKey.endpoint mk = key.1 →
  endpoint_by_connection i !! ClientRouteKey.connection_id ck = None →
  is_Some (module_id_by_endpoint i !! key.1) →
  client_slot_epochs i !! ck = Some (RouteReservation.client_epoch r) →
  module_slot_epochs i !! mk = Some (RouteReservation.module_epoch r) →
  pending_relays i !! key = None → pending_control_rpcs i !! key = None →
  (∃ n, next_control_corr i !! key.1 = Some n ∧ corr_used n key.2) →
  fw_ok (i <| reserved_client := <[ck := mk]> (reserved_client i) |>
           <| reserved_module := <[mk := ck]> (reserved_module i) |>
           <| pending_relays := <[key := p]> (pending_relays i) |>).
Proof.
  intros r ck mk Hok [Hc Hm Hrc Hrm] Hend Hebc Hid Hce Hme Hpe Hct Hcorr. fw_frame.
  - by apply index_reserve.
  - destruct fw_epochs as [Hb Hp Hi]. split; [done|..].
    + intros key' p' [[<- <-]|[? Hp']]%lookup_insert_Some.
      { split; [done|]. right. by rewrite lookup_insert_eq. }
      destruct (Hp key' p' Hp') as [? [[]|(Hr & ? & ?)]]. split; [done|]. right.
      rewrite lookup_insert_ne; [done|]. intros Heq. unfold ck in *. congruence.
    + assert (∀ key' p', pending_relays i !! key' = Some p' →
        RouteReservation.module_key (PendingRouteBindRelayEntry.reservation p') ≠ mk) as Hnew.
      { intros key' p' Hp' Heq. destruct (Hp key' p' Hp') as [_ [[]|(Hr & _)]]. rewrite Heq in Hr.
        apply (ix_reserved_client _ _ _ _ fw_index) in Hr as [? _]. congruence. }
      intros k1 k2 p1 p2 [[<- <-]|[? H1]]%lookup_insert_Some [[<- <-]|[? H2]]%lookup_insert_Some Heq;
        [done| | |by eapply Hi].
      * by destruct (Hnew k2 p2 H2).
      * by destruct (Hnew k1 p1 H1).
  - destruct fw_holders as [Hb Hr Hs]. split; [done| |done].
    intros ck' mk' [[<- <-]|[? Hr']]%lookup_insert_Some; [|by eapply Hr].
    split; [done|]. right. by rewrite Hend.
  - destruct fw_corrs as [Hn Hreg Hp Hcc]. split; [done|done| |done].
    intros e corr p' [[-> _]|[? Hp']]%lookup_insert_Some; [by right|by eapply Hp].
  - intros key'. lookups; [done|]. apply fw_apart.
Qed.
End reserve.

(** ** Binding a route *)

Section bind.
Context `{Semaphore} `{RouteOpenJson}.
Implicit Types (i : ForwardingInner).

Lemma begin_route_bind_relay_ok i c sink ver corr id principal scope deadline busy :
  fw_ok i → fw_ok (begin_route_bind_relay i c sink ver corr id principal scope deadline busy).1.1.
Proof.
  intros Hok. unfold begin_route_bind_relay, relay_refused.
  destruct (is_some (endpoint_by_connection i !! c)) eqn:Hebc; [by apply drop_scope_ok|].
  destruct (bool_decide _); [by apply drop_scope_ok|].
  destruct (modules_by_id i !! id) as [module|] eqn:Hid; [|by apply drop_scope_ok].
  cbv zeta. set (e := ModuleConnection.endpoint module). pose proof (fw_names _ _ Hok) as Hnm.
  apply (nm_active _ _ _ _ _ Hnm) in Hid. fold e in Hid.
  destruct (is_some (draining_endpoints i !! e)); [by apply drop_scope_ok|].
  destruct (bool_decide _); [by apply drop_scope_ok|].
  destruct (allocate_control_corr i e) as [i1 [rc|err]] eqn:Hcorr.
  2:{ apply drop_scope_ok. by eapply allocate_control_corr_Err. }
  apply allocate_control_corr_Ok in Hcorr as (Hok1 & (next & n & -> & Hn & Hused) & Hp & Hct); [|by eauto..].
  set (i1 := i <| next_control_corr := next |>) in *.
  destruct (allocate_route_slots i1 c e) as [i2 [[[[cc ce] mc] me]|err]] eqn:Hslots.
  2:{ apply drop_scope_ok. by eapply allocate_route_slots_Err. }
  apply allocate_route_slots_Ok in Hslots; [|done].
  assert (fw_ok i2) as Hok2.
  { eapply (slots_allocated_ok i1); [done| |done]. simpl. by exists id. }
  destruct Hslots as [[????] ???? (ncc & nmc & -> & _)].
  destruct (build_route_open _ _ _ _ _ _ _) as [frame|err]; [|by apply drop_scope_ok].
  apply (reserve_ok _ (e, rc)); simpl; try done.
  - by apply is_some_false.
  - apply lookup_insert_eq.
  - apply lookup_insert_eq.
  - by exists n.
Qed.

Lemma mark_route_bind_relay_enqueued_ok i e corr :
  fw_ok i → fw_ok (mark_route_bind_relay_enqueued i e corr).1.
Proof.
  intros Hok. unfold mark_route_bind_relay_enqueued.
  destruct (pending_relays i !! (e, corr)) as [p|] eqn:Hp; [|case_decide; [fw_frame|done]].
  simpl. fw_frame.
  - destruct fw_epochs as [Hb Hpe Hi]. split; [done|..].
    + intros key p' [[<- <-]|[? Hp']]%lookup_insert_Some; [apply (Hpe _ p Hp)|by apply Hpe].
    + assert (∀ key p', <[(e, corr) := PendingRouteBindRelayEntry.enqueued p]> (pending_relays i) !! key
        = Some p' → ∃ p0, pending_relays i !! key = Some p0 ∧
          PendingRouteBindRelayEntry.reservation p0 = PendingRouteBindRelayEntry.reservation p') as Hold.
      { intros key p' [[<- <-]|[? Hp']]%lookup_insert_Some; eauto. }
      intros k1 k2 p1 p2 (q1 & H1 & Hq1)%Hold (q2 & H2 & Hq2)%Hold. rewrite <-Hq1, <-Hq2. by apply Hi.
  - destruct fw_corrs as [Hn Hreg Hpe Hc]. split; [done|done| |done].
    intros e' c' p' [[[= <- <-] _]|[? Hp']]%lookup_insert_Some; by eapply Hpe.
  - intros key [p' Hp']. apply fw_apart.
    apply lookup_insert_Some in Hp' as [[<- _]|[? Hp']]; by eauto.
Qed.

Lemma abort_pending_relay_ok i e corr outcome :
  fw_ok i → fw_ok (abort_pending_relay i e corr outcome).1.1.
Proof.
  intros Hok. unfold abort_pending_relay.
  destruct (pending_relays i !! (e, corr)) as [p|] eqn:Hp; [by apply drop_pending_ok|]. simpl. fw_frame.
Qed.

(** The reserved pair of an accepted relay becomes a route. *)
Lemma insert_binding_ok i r f :
  let ck := RouteBinding.client_key r in
  let mk := RouteBinding.module_key r in
  fw_ok i → slots_free i ck mk → RouteBinding.addr r = next_addr i →
  endpoint_by_connection i !! ClientRouteKey.connection_id ck = None →
  module_id_by_endpoint i !! RouteBinding.module_endpoint r = Some (RouteBinding.module_id r) →
  client_slot_epochs i !! ck = Some (RouteBinding.client_epoch r) →
  module_slot_epochs i !! mk = Some (RouteBinding.module_epoch r) →
  fw_ok (insert_binding i ck mk r f).
Proof.
  intros ck mk Hok [????] Haddr Hebc Hid Hce Hme. unfold insert_binding. fw_frame.
  - by apply index_bind.
  - destruct fw_epochs as [Hb Hpe Hi]. split; [|done..].
    intros ck' r' [[<- <-]|[? Hr']]%lookup_insert_Some; [by auto|by apply Hb].
  - destruct fw_holders as [Hb Hr Hs]. split; [|done..].
    intros ck' r' [[<- <-]|[? Hr']]%lookup_insert_Some; [by auto|by apply Hb].
  - destruct fw_flows as [Hb Hi Ho]. split.
    + intros ck' r' [[<- <-]|[? Hr']]%lookup_insert_Some.
      * rewrite lookup_insert_eq. split; [lia|done].
      * destruct (Hb ck' r' Hr') as [? Hf]. split; [lia|]. lookups; done.
    + intros k1 k2 r1 r2 [[<- <-]|[? Hr1]]%lookup_insert_Some [[<- <-]|[? Hr2]]%lookup_insert_Some Heq;
        [done| | |by eapply Hi].
      * destruct (Hb _ _ Hr2). lia.
      * destruct (Hb _ _ Hr1). lia.
    + intros a g [[<- _]|[? Ha]]%lookup_insert_Some; [lia|]. apply Ho in Ha. lia.
Qed.

Lemma publish_route_ok i key p id module frame closed now :
  fw_ok i →
  let r := PendingRouteBindRelayEntry.reservation p in
  slots_free i (RouteReservation.client_key r) (RouteReservation.module_key r) →
  endpoint_by_connection i !! ClientRouteKey.connection_id (RouteReservation.client_key r) = None →
  module_id_by_endpoint i !! ModuleRouteKey.endpoint (RouteReservation.module_key r) = Some id →
  client_slot_epochs i !! RouteReservation.client_key r = Some (RouteReservation.client_epoch r) →
  module_slot_epochs i !! RouteReservation.module_key r = Some (RouteReservation.module_epoch r) →
  fw_ok (publish_route i key p id module frame closed now).1.1.
Proof.
  intros Hok r Hfree Hebc Hid Hce Hme. unfold publish_route.
  set (b := binding_of p (next_addr i) id module now).
  assert (RouteReservation.client_key r = RouteBinding.client_key b ∧
          RouteReservation.module_key r = RouteBinding.module_key b) as [Eck Emk].
  { unfold b, r, RouteBinding.client_key, RouteBinding.module_key; simpl.
    by destruct (RouteReservation.client_key _), (RouteReservation.module_key _). }
  fold r. rewrite Eck, Emk in *.
  assert (fw_ok (insert_binding i (RouteBinding.client_key b) (RouteBinding.module_key b) b
    (flow_of p))) as Hins by (by apply insert_binding_ok).
  set (i1 := insert_binding _ _ _ _ _) in *. cbv zeta.
  pose proof (unbind_ok _ i1 (RouteBinding.client_key b) b Hins (lookup_insert_eq _ _ _)) as Hout.
  clear Hok. destruct closed; [clear Hins|clear Hout]; destruct (RouteBinding.scope b); simpl; fw_frame.
Qed.

(** What is known of a relay taken out of the table to be settled. *)
Record relay_taken i (p : PendingRouteBindRelayEntry.t) : Prop := {
  rt_reserved : let r := PendingRouteBindRelayEntry.reservation p in
    reserved_client i !! RouteReservation.client_key r = Some (RouteReservation.module_key r);
  rt_client_epoch : let r := PendingRouteBindRelayEntry.reservation p in
    client_slot_epochs i !! RouteReservation.client_key r = Some (RouteReservation.client_epoch r);
  rt_module_epoch : let r := PendingRouteBindRelayEntry.reservation p in
    module_slot_epochs i !! RouteReservation.module_key r = Some (RouteReservation.module_epoch r);
  rt_alone key' p' : pending_relays i !! key' = Some p' →
    RouteReservation.module_key (PendingRouteBindRelayEntry.reservation p')
    ≠ RouteReservation.module_key (PendingRouteBindRelayEntry.reservation p);
}.

Lemma take_pending_ok i key p :
  fw_ok i → pending_relays i !! key = Some p →
  let i' := i <| pending_relays := delete key (pending_relays i) |> in
  fw_ok i' ∧ relay_taken i' p.
Proof.
  intros Hok Hp i'. split.
  - unfold i'. fw_frame.
    + eapply epochs_shrink; [done..|apply delete_subseteq].
    + eapply corrs_shrink; [done|apply delete_subseteq|done].
    + eapply apart_shrink; [done|apply delete_subseteq|done].
  - destruct (fw_epochs _ _ Hok) as [_ Hpe Hi]. destruct (Hpe _ _ Hp) as [_ [[]|(? & ? & ?)]].
    split; [done..|]. simpl. intros key' p' [Hne Hp']%lookup_delete_Some Heq. apply Hne.
    symmetry. by apply (Hi key' key p' p).
Qed.

Lemma unreserve_ok i ck mk :
  fw_ok i → reserved_client i !! ck = Some mk →
  (∀ key p, pending_relays i !! key = Some p →
     RouteReservation.module_key (PendingRouteBindRelayEntry.reservation p) ≠ mk) →
  fw_ok (i <| reserved_client := delete ck (reserved_client i) |>
           <| reserved_module := delete mk (reserved_module i) |>).
Proof.
  intros Hok Hck Hno.
  assert (fw_ok (release_reserved_route i ck mk)) as Hrel
    by (apply release_reserved_route_ok; [done|by right; eauto]).
  rewrite release_reserved_route_eq in Hrel by apply Hok. rewrite decide_True in Hrel by done.
  clear Hok. fw_frame.
Qed.

Lemma commit_route_ok i key p closed now :
  fw_ok i → relay_taken i p → fw_ok (commit_route i key p closed now).1.1.
Proof.
  intros Hok [Hres Hce Hme Halone]. simpl in *. unfold commit_route. cbv zeta.
  set (ck := RouteReservation.client_key _) in *. set (mk := RouteReservation.module_key _) in *.
  destruct (bool_decide _); [by apply drop_scope_ok|].
  destruct (module_id_by_endpoint i !! ModuleRouteKey.endpoint mk) as [id|] eqn:Hid;
    [|by apply drop_scope_ok].
  destruct (is_some _); [by apply drop_scope_ok|].
  destruct (commit_frame p) as [frame|err]; [|by apply drop_scope_ok].
  destruct (ix_reserved_client _ _ _ _ (fw_index _ _ Hok) _ _ Hres) as [Hres' Hnc].
  destruct (ix_reserved_module _ _ _ _ (fw_index _ _ Hok) _ _ Hres') as [_ Hnm].
  destruct (hd_reserved _ _ _ _ _ _ (fw_holders _ _ Hok) _ _ Hres) as [Hebc _].
  rewrite bool_decide_eq_true_2 by done. simpl. rewrite bool_decide_eq_true_2 by done. simpl.
  pose proof (unreserve_ok i ck mk Hok Hres Halone) as Hun.
  destruct (opt_filter _ _) as [module|]; [|by apply drop_scope_ok].
  destruct (publish_route _ _ _ _ _ _ _ _) as [[i' effects] abandoned] eqn:Hpub. simpl.
  change i' with (i', effects, abandoned).1.1. rewrite <-Hpub. apply publish_route_ok; try done.
  split; simpl; try done; apply lookup_delete_eq.
Qed.

Lemma complete_pending_relay_ok i c corr outcome sink_closed writer_closed now :
  fw_ok i → fw_ok (complete_pending_relay i c corr outcome sink_closed writer_closed now).1.1.
Proof.
  intros Hok. unfold complete_pending_relay.
  destruct (endpoint_by_connection i !! c) as [e|] eqn:He; [|done].
  destruct (pending_relays i !! (e, corr)) as [p|] eqn:Hp; [|done]. cbv zeta.
  pose proof (drop_pending_ok _ i (e, corr) p Hok Hp) as Hdrop.
  destruct (_ <=? now); [by destruct outcome|]. destruct outcome; [|done..].
  destruct (sink_closed || _); [done|]. destruct (is_some _ || _); [done|].
  destruct (_ ≫= _) as [code|]; [done|].
  destruct (take_pending_ok i (e, corr) p Hok Hp) as [Hok' Htaken]. cbv zeta in Hok', Htaken.
  pose proof (commit_route_ok _ (e, corr) p writer_closed now Hok' Htaken) as Hc.
  by destruct (commit_route _ _ _ _ _) as [[i' effects] [abandoned|err]].
Qed.
End bind.

(** ** Registering modules *)

Section register.
Context `{Semaphore}.
Implicit Types (i : ForwardingInner).

Section names.
Context (ebc : gmap Z ModuleEndpointId.t) (mid : gmap ModuleEndpointId.t string).
Context (active candidates : gmap string ModuleConnection.t).
Context (superseded : gmap ModuleEndpointId.t ModuleConnection.t).
Context (Hok : names_ok ebc mid active candidates superseded).

(** No slot holds the endpoint. *)
Definition unslotted (e : ModuleEndpointId.t) : Prop :=
  (∀ id m, active !! id = Some m → ModuleConnection.endpoint m ≠ e) ∧
  (∀ id m, candidates !! id = Some m → ModuleConnection.endpoint m ≠ e) ∧
  superseded !! e = None.

Lemma names_unregistered e : mid !! e = None → unslotted e.
Proof using Hok.
  intros He. destruct Hok as [_ _ Ha Hc Hs _ _ _]. split_and!.
  - intros id m Hm <-. apply Ha in Hm. congruence.
  - intros id m Hm <-. apply Hc in Hm. congruence.
  - destruct (superseded !! e) as [m|] eqn:Hm; [|done].
    apply Hs in Hm as [_ [? ?]]. congruence.
Qed.

Lemma names_install c e id :
  ebc !! c = None → ModuleEndpointId.connection_id e = c → mid !! e = None →
  names_ok (<[c := e]> ebc) (<[e := id]> mid) active candidates superseded.
Proof using Hok.
  intros Hc Hconn He. destruct (names_unregistered e He) as (Hua & Huc & Hus).
  destruct Hok as [Hcn Hen Ha Hcd Hs Hac Has Hcs]. split; try done.
  - intros c' e' [[<- <-]|[? Hc']]%lookup_insert_Some.
    + by rewrite lookup_insert_eq.
    + destruct (Hcn c' e' Hc') as [? [id' Hid]]. split; [done|]. lookups; eauto.
  - intros e' id' [[<- <-]|[? He']]%lookup_insert_Some.
    + by rewrite Hconn, lookup_insert_eq.
    + apply Hen in He' as He''. rewrite lookup_insert_ne; [done|congruence].
  - intros id' m Hm. rewrite lookup_insert_ne; [by apply Ha|]. intros ?. by eapply Hua.
  - intros id' m Hm. rewrite lookup_insert_ne; [by apply Hcd|]. intros ?. by eapply Huc.
  - intros e' m Hm. destruct (Hs e' m Hm) as [? Hid]. split; [done|]. lookups; eauto.
Qed.

Lemma names_activate id m :
  mid !! ModuleConnection.endpoint m = Some id → unslotted (ModuleConnection.endpoint m) →
  names_ok ebc mid (<[id := m]> active) candidates superseded.
Proof using Hok.
  intros Hid (Hua & Huc & Hus). destruct Hok as [Hcn Hen Ha Hcd Hs Hac Has Hcs]. split; try done.
  - intros id' m' [[<- <-]|[? Hm']]%lookup_insert_Some; [done|by apply Ha].
  - intros id1 id2 m1 m2 [[<- <-]|[? Hm1]]%lookup_insert_Some Hm2.
    + intros ?. by eapply Huc.
    + by eapply Hac.
  - intros id' m' [[<- <-]|[? Hm']]%lookup_insert_Some; [done|by eapply Has].
Qed.

Lemma names_nominate id m :
  mid !! ModuleConnection.endpoint m = Some id → unslotted (ModuleConnection.endpoint m) →
  names_ok ebc mid active (<[id := m]> candidates) superseded.
Proof using Hok.
  intros Hid (Hua & Huc & Hus). destruct Hok as [Hcn Hen Ha Hcd Hs Hac Has Hcs]. split; try done.
  - intros id' m' [[<- <-]|[? Hm']]%lookup_insert_Some; [done|by apply Hcd].
  - intros id1 id2 m1 m2 Hm1 [[<- <-]|[? Hm2]]%lookup_insert_Some; [by eapply Hua|by eapply Hac].
  - intros id' m' [[<- <-]|[? Hm']]%lookup_insert_Some; [done|by eapply Hcs].
Qed.

Lemma names_withdraw id : names_ok ebc mid active (delete id candidates) superseded.
Proof using Hok.
  destruct Hok as [Hcn Hen Ha Hcd Hs Hac Has Hcs]. split; try done.
  - intros id' m [_ Hm]%lookup_delete_Some. by apply Hcd.
  - intros id1 id2 m1 m2 Hm1 [_ Hm2]%lookup_delete_Some. by eapply Hac.
  - intros id' m [_ Hm]%lookup_delete_Some. by eapply Hcs.
Qed.

Lemma names_retire id : names_ok ebc mid (delete id active) candidates superseded.
Proof using Hok.
  destruct Hok as [Hcn Hen Ha Hcd Hs Hac Has Hcs]. split; try done.
  - intros id' m [_ Hm]%lookup_delete_Some. by apply Ha.
  - intros id1 id2 m1 m2 [_ Hm1]%lookup_delete_Some Hm2. by eapply Hac.
  - intros id' m [_ Hm]%lookup_delete_Some. by eapply Has.
Qed.

Lemma names_supersede m :
  is_Some (mid !! ModuleConnection.endpoint m) →
  (∀ id m', active !! id = Some m' → ModuleConnection.endpoint m' ≠ ModuleConnection.endpoint m) →
  (∀ id m', candidates !! id = Some m' → ModuleConnection.endpoint m' ≠ ModuleConnection.endpoint m) →
  names_ok ebc mid active candidates (<[ModuleConnection.endpoint m := m]> superseded).
Proof using Hok.
  intros Hid Hna Hnc. destruct Hok as [Hcn Hen Ha Hcd Hs Hac Has Hcs]. split; try done.
  - intros e m' [[<- <-]|[? Hm']]%lookup_insert_Some; [done|by apply Hs].
  - intros id m' Hm'. rewrite lookup_insert_ne; [by eapply Has|]. intros ?. by eapply Hna.
  - intros id m' Hm'. rewrite lookup_insert_ne; [by eapply Hcs|]. intros ?. by eapply Hnc.
Qed.
End names.

Lemma check_module_connection_role_Ok i c :
  check_module_connection_role i c = Ok () →
  endpoint_by_connection i !! c = None ∧
  ∀ ck, ClientRouteKey.connection_id ck = c →
    client_to_module i !! ck = None ∧ reserved_client i !! ck = None.
Proof.
  unfold check_module_connection_role, connection_has_client_routes.
  destruct (is_some _) eqn:He; simpl; [done|]. destruct (existsb _ _ || _) eqn:Hex; [done|]. intros _.
  apply orb_false_elim in Hex as [Hc Hr]. split; [by apply is_some_false|].
  intros ck <-. split; apply eq_None_not_Some; intros [v Hv%elem_of_map_to_list].
  - apply not_true_iff_false in Hc. apply Hc, existsb_exists. exists (ck, v).
    split; [by apply list_elem_of_In|apply Z.eqb_refl].
  - apply not_true_iff_false in Hr. apply Hr, existsb_exists. exists (ck, v).
    split; [by apply list_elem_of_In|apply Z.eqb_refl].
Qed.

Lemma install_endpoint_ok i c id i' e :
  fw_ok i → check_module_connection_role i c = Ok () → install_endpoint i c id = (i', e) →
  fw_ok i' ∧ module_id_by_endpoint i' !! e = Some id ∧
  modules_by_id i' = modules_by_id i ∧ candidates_by_id i' = candidates_by_id i ∧
  unslotted (modules_by_id i') (candidates_by_id i') (superseded_endpoints i') e.
Proof.
  intros Hok [Hc Hno]%check_module_connection_role_Ok. unfold install_endpoint. intros Heq.
  set (e0 := ModuleEndpointId.mk c _) in Heq. simpl in Heq. injection Heq as <- <-.
  assert (module_id_by_endpoint i !! e0 = None) as He.
  { destruct (module_id_by_endpoint i !! e0) as [id'|] eqn:Hid; [|done].
    apply (nm_endpoint _ _ _ _ _ (fw_names _ _ Hok)) in Hid. simpl in Hid. congruence. }
  pose proof (names_unregistered _ _ _ _ _ (fw_names _ _ Hok) e0 He) as Hun.
  split; [|by simpl; rewrite lookup_insert_eq]. fw_frame.
  - apply ranges_next_module; [done|]. unfold channel_ok. lia.
  - by apply names_install.
  - destruct fw_holders as [Hb Hr Hs].
    assert (∀ e' v, module_id_by_endpoint i !! e' = Some v →
      <[e0 := id]> (module_id_by_endpoint i) !! e' = Some v) as Hmono.
    { intros e' v Hv. rewrite lookup_insert_ne; [done|]. intros <-. congruence. }
    split.
    + intros ck r Hck. destruct (Hb ck r Hck) as [? [[]|?]]. split; [|auto].
      rewrite lookup_insert_ne; [done|]. intros Hck'. symmetry in Hck'. apply Hno in Hck' as []. congruence.
    + intros ck mk Hck. destruct (Hr ck mk Hck) as [? [[]|[v ?]]]. split; [|right; eauto].
      rewrite lookup_insert_ne; [done|]. intros Hck'. symmetry in Hck'. apply Hno in Hck' as []. congruence.
    + intros mk x Hmk. destruct (Hs mk x Hmk) as [v ?]. eauto.
  - destruct fw_corrs as [Hn Hreg Hp Hct].
    assert (next_control_corr i !! e0 = None) as Hnn.
    { apply eq_None_not_Some. intros [n Hnn]. apply Hreg in Hnn as [??]. congruence. }
    split.
    + intros e' id' [[<- <-]|[? He']]%lookup_insert_Some.
      * rewrite lookup_insert_eq. exists 1. split; [done|]. unfold U64_MAX. lia.
      * destruct (Hn e' id' He') as (n & ? & ?). exists n. by rewrite lookup_insert_ne.
    + intros e' n [[<- _]|[? He']]%lookup_insert_Some.
      * by rewrite lookup_insert_eq.
      * rewrite lookup_insert_ne by done. by eapply Hreg.
    + intros e' corr p Hpe. destruct (Hp e' corr p Hpe) as [[]|(n & ? & ?)]. right. exists n.
      rewrite lookup_insert_ne; [done|]. congruence.
    + intros e' corr p Hpe. destruct (Hct e' corr p Hpe) as [[]|(n & ? & ?)]. right. exists n.
      rewrite lookup_insert_ne; [done|]. congruence.
Qed.

Lemma register_module_connection_ok i c id ver conc sink ack queued :
  fw_ok i → fw_ok (register_module_connection i c id ver conc sink ack queued).1.1.
Proof.
  intros Hok. unfold register_module_connection. destruct (_ || _); [done|].
  destruct (check_module_connection_role i c) as [[]|] eqn:Hrole; [|done].
  destruct (enqueue_hello_ack _ _ _ _); [|done].
  destruct (install_endpoint i c id) as [i' e] eqn:Hi.
  apply install_endpoint_ok in Hi as (Hok' & Hid & _ & _ & Hun); [|done..]. simpl. clear Hok. fw_frame.
  by apply names_activate.
Qed.

Lemma register_candidate_module_connection_ok i c id ver conc sink ack queued :
  fw_ok i → fw_ok (register_candidate_module_connection i c id ver conc sink ack queued).1.1.
Proof.
  intros Hok. unfold register_candidate_module_connection. destruct (_ || _); [done|].
  destruct (check_module_connection_role i c) as [[]|] eqn:Hrole; [|done].
  destruct (is_some _); [done|]. destruct (enqueue_hello_ack _ _ _ _); [|done].
  destruct (install_endpoint i c id) as [i' e] eqn:Hi.
  apply install_endpoint_ok in Hi as (Hok' & Hid & _ & _ & Hun); [|done..]. simpl. clear Hok. fw_frame.
  by apply names_nominate.
Qed.

Lemma cutover_candidate_ok i id : fw_ok i → fw_ok (cutover_candidate i id).1.1.
Proof.
  intros Hok. unfold cutover_candidate. destruct (daemon_draining i); [done|].
  destruct (candidates_by_id i !! id) as [cand|] eqn:Hc; [|done]. simpl.
  pose proof (fw_names _ _ Hok) as Hnm. pose proof Hnm as [Hcn Hen Ha Hcd Hs Hac Has Hcs].
  assert (∀ id' m', delete id (candidates_by_id i) !! id' = Some m' →
    ModuleConnection.endpoint m' ≠ ModuleConnection.endpoint cand) as Hother.
  { intros id' m' [Hne Hm']%lookup_delete_Some Heq. apply Hcd in Hm'. apply Hcd in Hc.
    rewrite Heq in Hm'. congruence. }
  assert (names_ok (endpoint_by_connection i) (module_id_by_endpoint i)
            (<[id := cand]> (modules_by_id i)) (delete id (candidates_by_id i))
            (superseded_endpoints i)) as Hnew.
  { apply names_activate; [by apply names_withdraw|by apply Hcd|]. split_and!; [|done|by eapply Hcs].
    intros id' m' Hm'. by eapply Hac. }
  destruct (modules_by_id i !! id) as [old|] eqn:Hold; simpl; fw_frame.
  apply names_supersede; [done|by exists id; apply Ha|..].
  - intros id' m' [[<- <-]|[Hne Hm']]%lookup_insert_Some.
    + intros Heq. symmetry in Heq. by eapply (Hac id id old cand).
    + intros Heq. apply Ha in Hm'. apply Ha in Hold. rewrite Heq in Hm'. congruence.
  - intros id' m' [_ Hm']%lookup_delete_Some Heq. symmetry in Heq. by eapply Hac.
Qed.
End register.
