(* ===== verification/ForwardingCleanup.v ===== *)
(** * Connections going away

    What the runs of releases remove, exactly; a connection that goes away takes
    with it every route, reservation and pending call that names it. *)

From S2P Require Import Prelude Collections Envelope Tokens ScopeTypes Scopes ScopeDrains.
From S2P Require Import Flow Forwarding ForwardingSlots ForwardingInvariant ForwardingOps.

(** ** Which fields a run of releases touches *)

Section only.
Context `{Semaphore}.
Implicit Types (i j : ForwardingInner).

(** [j] is [i] with other routes. *)
Definition only_routes i j : Prop := ∃ c2m m2c fl st h,
  j = i <| client_to_module := c2m |> <| module_to_client := m2c |> <| flows := fl |>
        <| status := st |> <| scope_heap := h |>.

(** [j] is [i] with other reservations and relays. *)
Definition only_relays i j : Prop := ∃ rc rm pend rel st h,
  j = i <| reserved_client := rc |> <| reserved_module := rm |> <| pending_relays := pend |>
        <| relays_released_before_enqueue := rel |> <| status := st |> <| scope_heap := h |>.
End only.

Ltac only_routes :=
  match goal with
  | |- only_routes ?i ?j =>
      exists (client_to_module j), (module_to_client j), (flows j), (status j), (scope_heap j);
      try (by destruct i)
  end.

Ltac only_relays :=
  match goal with
  | |- only_relays ?i ?j =>
      exists (reserved_client j), (reserved_module j), (pending_relays j),
        (relays_released_before_enqueue j), (status j), (scope_heap j);
      try (by destruct i)
  end.

Section frames.
Context `{Semaphore}.
Implicit Types (i j k : ForwardingInner).

#[global] Instance only_routes_preorder : PreOrder only_routes.
Proof.
  split.
  - intros i. only_routes.
  - intros i j k (? & ? & ? & ? & ? & ->) (c2m & m2c & fl & st & h & ->). by exists c2m, m2c, fl, st, h.
Qed.

#[global] Instance only_relays_preorder : PreOrder only_relays.
Proof.
  split.
  - intros i. only_relays.
  - intros i j k (? & ? & ? & ? & ? & ? & ->) (rc & rm & pend & rel & st & h & ->).
    by exists rc, rm, pend, rel, st, h.
Qed.

Lemma drop_scope_relays i scope : only_relays i (drop_scope i scope).
Proof. destruct scope; only_relays. Qed.

Lemma release_reserved_relays i ck mk : only_relays i (release_reserved_route i ck mk).
Proof. unfold release_reserved_route. do 2 case_decide; only_relays. Qed.

Lemma drop_relay_relays reply acc key : only_relays acc.1.1 (drop_relay reply acc key).1.1.
Proof.
  destruct acc as [[i effects] targets]. unfold drop_relay. cbv zeta. cbn [fst snd].
  destruct (pending_relays i !! key) as [p|]; [|done].
  set (i1 := i <| pending_relays := _ |>).
  assert (only_relays i i1) as H1 by only_relays.
  assert (only_relays i (release_reservation i1 p)) as H2.
  { etrans; [exact H1|]. etrans; [apply release_reserved_relays|apply drop_scope_relays]. }
  destruct (PendingRouteBindRelayEntry.relay_enqueued p); cbn [fst snd]; [done|].
  etrans; [exact H2|]. only_relays.
Qed.

Lemma release_client_route_routes i ck e : only_routes i (release_client_route i ck e).1.1.
Proof.
  unfold release_client_route. destruct (client_to_module i !! ck) as [r|]; [|done].
  destruct (negb _); [done|]. destruct (RouteBinding.scope r); simpl; only_routes.
Qed.

Lemma release_module_route_routes i mk e : only_routes i (release_module_route_locked i mk e).1.1.
Proof.
  unfold release_module_route_locked. destruct (module_to_client i !! mk) as [r|]; [|done].
  destruct (negb _); [done|]. destruct (RouteBinding.scope r); simpl; only_routes.
Qed.

(** ** Runs of releases *)

(** One turn of the loops, seen as a state transformer with its output. *)
Definition release_turn {K} (release : ForwardingInner → K → Z → ForwardingInner * list Effect * RouteRelease.t)
    (acc : ForwardingInner * list Effect * list GoodbyeTarget.t) (entry : K * Z)
    : ForwardingInner * list Effect * list GoodbyeTarget.t :=
  match release acc.1.1 entry.1 entry.2 with
  | (i, e, RouteRelease.Removed target) => (i, acc.1.2 ++ e, acc.2 ++ [target])
  | (i, e, _) => (i, acc.1.2 ++ e, acc.2)
  end.

Lemma release_client_routes_turns routes i :
  release_client_routes routes i = foldl (release_turn release_client_route) (i, [], []) routes.
Proof.
  unfold release_client_routes. generalize (i, @nil Effect, @nil GoodbyeTarget.t).
  induction routes as [|[ck e] routes IH]; intros [[j effects] released]; simpl; [done|]. apply IH.
Qed.

Lemma release_module_routes_turns routes i :
  release_module_routes routes i
  = foldl (release_turn release_module_route_locked) (i, [], []) routes.
Proof.
  unfold release_module_routes. generalize (i, @nil Effect, @nil GoodbyeTarget.t).
  induction routes as [|[mk e] routes IH]; intros [[j effects] released]; simpl; [done|]. apply IH.
Qed.

Lemma release_turn_state {K} release (acc : _ * _ * _) (entry : K * Z) :
  (release_turn release acc entry).1.1 = (release acc.1.1 entry.1 entry.2).1.1.
Proof. unfold release_turn. by destruct (release _ _ _) as [[j e] []]. Qed.

Lemma release_client_routes_routes routes i : only_routes i (release_client_routes routes i).1.1.
Proof.
  rewrite release_client_routes_turns. apply (foldl_inv (λ acc, only_routes i acc.1.1)); [done|].
  intros acc entry _ Hi. rewrite release_turn_state. etrans; [exact Hi|]. apply release_client_route_routes.
Qed.

Lemma release_module_routes_routes routes i : only_routes i (release_module_routes routes i).1.1.
Proof.
  rewrite release_module_routes_turns. apply (foldl_inv (λ acc, only_routes i acc.1.1)); [done|].
  intros acc entry _ Hi. rewrite release_turn_state. etrans; [exact Hi|]. apply release_module_route_routes.
Qed.

Lemma filter_delete_one {K V} `{Countable K} (m : gmap K V) (f : V → Z) (k : K) (v : V) (z : Z) :
  m !! k = Some v → f v = z → filter (λ e, (e.1, f e.2) ≠ (k, z)) m = delete k m.
Proof.
  intros Hk Hz. apply map_eq. intros k'. rewrite lookup_delete. case_decide as Hd; [subst|].
  - rewrite map_lookup_filter_None. right. intros v' Hv'. simpl. naive_solver.
  - destruct (m !! k') as [v'|] eqn:Hk'.
    + apply map_lookup_filter_Some. split; [done|]. simpl. congruence.
    + apply map_lookup_filter_None. by left.
Qed.

Lemma filter_keep_all {K V} `{Countable K} (m : gmap K V) (f : V → Z) (k : K) (z : Z) :
  (∀ v, m !! k = Some v → f v ≠ z) → filter (λ e, (e.1, f e.2) ≠ (k, z)) m = m.
Proof. intros Hno. apply map_filter_id. intros k' v Hv [= -> <-]. by eapply Hno. Qed.

Lemma release_client_route_c2m i ck e :
  client_to_module (release_client_route i ck e).1.1
  = filter (λ x, (x.1, RouteBinding.client_epoch x.2) ≠ (ck, e)) (client_to_module i).
Proof.
  unfold release_client_route. destruct (client_to_module i !! ck) as [r|] eqn:Hr.
  2:{ simpl. symmetry. apply filter_keep_all. intros v Hv. congruence. }
  destruct (RouteBinding.client_epoch r =? e) eqn:He; simpl.
  - rewrite (filter_delete_one _ _ _ r) by (done || lia). by destruct (RouteBinding.scope r).
  - symmetry. apply filter_keep_all. intros v Hv. apply Z.eqb_neq in He. congruence.
Qed.

Lemma release_module_route_m2c i mk e :
  module_to_client (release_module_route_locked i mk e).1.1
  = filter (λ x, (x.1, RouteBinding.module_epoch x.2) ≠ (mk, e)) (module_to_client i).
Proof.
  unfold release_module_route_locked. destruct (module_to_client i !! mk) as [r|] eqn:Hr.
  2:{ simpl. symmetry. apply filter_keep_all. intros v Hv. congruence. }
  destruct (RouteBinding.module_epoch r =? e) eqn:He; simpl.
  - rewrite (filter_delete_one _ _ _ r) by (done || lia). by destruct (RouteBinding.scope r).
  - symmetry. apply filter_keep_all. intros v Hv. apply Z.eqb_neq in He. congruence.
Qed.

(** A run of releases removes the routes it names, and no others. *)
Lemma release_client_routes_c2m routes i :
  client_to_module (release_client_routes routes i).1.1
  = filter (λ x, (x.1, RouteBinding.client_epoch x.2) ∉ routes) (client_to_module i).
Proof.
  rewrite release_client_routes_turns. change i with (i, @nil Effect, @nil GoodbyeTarget.t).1.1 at 2.
  generalize (i, @nil Effect, @nil GoodbyeTarget.t) as acc.
  induction routes as [|[ck e] routes IH]; intros acc; cbn [foldl].
  { symmetry. apply map_filter_id. intros k v _. apply not_elem_of_nil. }
  rewrite IH, release_turn_state, release_client_route_c2m, map_filter_filter.
  apply map_filter_ext. intros k v _. simpl. rewrite not_elem_of_cons. tauto.
Qed.

Lemma release_module_routes_m2c routes i :
  module_to_client (release_module_routes routes i).1.1
  = filter (λ x, (x.1, RouteBinding.module_epoch x.2) ∉ routes) (module_to_client i).
Proof.
  rewrite release_module_routes_turns. change i with (i, @nil Effect, @nil GoodbyeTarget.t).1.1 at 2.
  generalize (i, @nil Effect, @nil GoodbyeTarget.t) as acc.
  induction routes as [|[ck e] routes IH]; intros acc; cbn [foldl].
  { symmetry. apply map_filter_id. intros k v _. apply not_elem_of_nil. }
  rewrite IH, release_turn_state, release_module_route_m2c, map_filter_filter.
  apply map_filter_ext. intros k v _. simpl. rewrite not_elem_of_cons. tauto.
Qed.
End frames.

(** ** Removing a module's endpoint *)

Section removal.
Context `{Semaphore} `{HashOrder}.
Implicit Types (i : ForwardingInner) (e : ModuleEndpointId.t).

Lemma names_unregister ebc mid active candidates superseded e active' candidates' :
  names_ok ebc mid active candidates superseded →
  ebc !! ModuleEndpointId.connection_id e = Some e →
  active' ⊆ active → candidates' ⊆ candidates →
  (∀ id m, active' !! id = Some m → ModuleConnection.endpoint m ≠ e) →
  (∀ id m, candidates' !! id = Some m → ModuleConnection.endpoint m ≠ e) →
  names_ok (delete (ModuleEndpointId.connection_id e) ebc) (delete e mid) active' candidates'
    (delete e superseded).
Proof.
  intros [Hcn Hen Ha Hcd Hs Hac Has Hcs] He Hsa Hsc Hna Hnc.
  assert (∀ e' v, mid !! e' = Some v → e' ≠ e → delete e mid !! e' = Some v) as Hmid.
  { intros e' v ? ?. by rewrite lookup_delete_ne. }
  split.
  - intros c e' [Hne Hc]%lookup_delete_Some. destruct (Hcn c e' Hc) as [? [id Hid]].
    split; [done|]. exists id. apply Hmid; [done|congruence].
  - intros e' id [Hne He']%lookup_delete_Some. apply Hen in He' as Hc'.
    rewrite lookup_delete_ne; congruence.
  - intros id m Hm. apply Hmid; [|by eapply Hna]. eapply Ha, lookup_weaken; done.
  - intros id m Hm. apply Hmid; [|by eapply Hnc]. eapply Hcd, lookup_weaken; done.
  - intros e' m [Hne Hm]%lookup_delete_Some. destruct (Hs e' m Hm) as [? [id Hid]].
    split; [done|]. exists id. by apply Hmid.
  - intros id id' m m' Hm Hm'. eapply Hac; eapply lookup_weaken; done.
  - intros id m Hm. rewrite lookup_delete_None. right. eapply Has, lookup_weaken; done.
  - intros id m Hm. rewrite lookup_delete_None. right. eapply Hcs, lookup_weaken; done.
Qed.

(** The slot that holds the endpoint is emptied. *)
Lemma slot_emptied (slots : gmap string ModuleConnection.t) (mid : gmap ModuleEndpointId.t string) e id :
  mid !! e = Some id →
  (∀ id' m, slots !! id' = Some m → mid !! ModuleConnection.endpoint m = Some id') →
  let slots' := if is_some_and (λ m, bool_decide (ModuleConnection.endpoint m = e)) (slots !! id)
                then delete id slots else slots in
  slots' ⊆ slots ∧ ∀ id' m, slots' !! id' = Some m → ModuleConnection.endpoint m ≠ e.
Proof.
  intros He Hnames. simpl. destruct (slots !! id) as [m|] eqn:Hm; simpl.
  - case_bool_decide as Hme.
    + split; [apply delete_subseteq|]. intros id' m' [Hne Hm']%lookup_delete_Some Heq.
      apply Hnames in Hm'. congruence.
    + split; [done|]. intros id' m' Hm' Heq. apply Hnames in Hm' as Hn. congruence.
  - split; [done|]. intros id' m' Hm' Heq. apply Hnames in Hm' as Hn. congruence.
Qed.

(** What is left of a slot table without the endpoint. *)
Definition without_endpoint (slots : gmap string ModuleConnection.t) (id : string) e :=
  if is_some_and (λ m, bool_decide (ModuleConnection.endpoint m = e)) (slots !! id)
  then delete id slots else slots.

Lemma forget_endpoint_eq i e id :
  module_id_by_endpoint i !! e = Some id →
  forget_endpoint i e =
  i <| draining_endpoints := delete e (draining_endpoints i) |>
    <| daemon_drain_results := delete e (daemon_drain_results i) |>
    <| module_id_by_endpoint := delete e (module_id_by_endpoint i) |>
    <| modules_by_id := without_endpoint (modules_by_id i) id e |>
    <| candidates_by_id := without_endpoint (candidates_by_id i) id e |>
    <| superseded_endpoints := delete e (superseded_endpoints i) |>
    <| endpoint_by_connection :=
         delete (ModuleEndpointId.connection_id e) (endpoint_by_connection i) |>
    <| next_module_channel := delete e (next_module_channel i) |>
    <| next_control_corr := delete e (next_control_corr i) |>
    <| health_probe_tombstones := filter (λ x, x.1.1 ≠ e) (health_probe_tombstones i) |>
    <| module_slot_epochs := filter (λ x, ModuleRouteKey.endpoint x.1 ≠ e) (module_slot_epochs i) |>.
Proof.
  intros Hid. unfold forget_endpoint, without_endpoint. cbv zeta. rewrite Hid.
  simpl. destruct (is_some_and _ (modules_by_id i !! id)); simpl;
    destruct (is_some_and _ (candidates_by_id i !! id)); reflexivity.
Qed.

Lemma forget_endpoint_ok i c e :
  fw_ok i → endpoint_by_connection i !! c = Some e →
  fw_upto (λ e', e' = e)
    (forget_endpoint (i <| endpoint_by_connection := delete c (endpoint_by_connection i) |>) e).
Proof.
  intros Hok Hc. destruct (nm_connection _ _ _ _ _ (fw_names _ _ Hok) c e Hc) as [<- [id Hid]].
  destruct (slot_emptied (modules_by_id i) _ e id Hid (nm_active _ _ _ _ _ (fw_names _ _ Hok)))
    as [Hsa Hna].
  destruct (slot_emptied (candidates_by_id i) _ e id Hid (nm_candidate _ _ _ _ _ (fw_names _ _ Hok)))
    as [Hsc Hnc].
  rewrite (forget_endpoint_eq _ _ id) by done. destruct Hok as [Hix Hep Hrg Hnm Hhd Hcr Hap Hfl].
  split; simpl; try done.
  - destruct Hep as [Hb Hp Hi]. split; [| |done].
    + intros ck r Hr. destruct (Hb ck r Hr) as [? [[]|?]]. split; [done|].
      destruct (decide (RouteBinding.module_endpoint r = e)); [by left|right].
      by apply map_lookup_filter_Some.
    + intros key p Hpe. destruct (Hp key p Hpe) as [He [[]|(? & ? & ?)]]. split; [done|].
      destruct (decide (key.1 = e)); [by left|right]. split_and!; [done..|].
      apply map_lookup_filter_Some. split; [done|]. simpl. congruence.
  - destruct Hrg as [Hrc Hrm Hnc' Hnm']. split; [done| |done|].
    + intros mk x [Hx _]%map_lookup_filter_Some. by apply Hrm.
    + intros e' ch [_ Hch]%lookup_delete_Some. by eapply Hnm'.
  - rewrite delete_delete_eq. by eapply names_unregister; [apply Hnm|..].
  - destruct Hhd as [Hb Hr Hs]. split.
    + intros ck r Hck. destruct (Hb ck r Hck) as [? [[]|?]].
      split; [by rewrite !lookup_delete_None; auto|].
      destruct (decide (RouteBinding.module_endpoint r = e)); [by left|right]. by rewrite lookup_delete_ne.
    + intros ck mk Hck. destruct (Hr ck mk Hck) as [? [[]|?]].
      split; [by rewrite !lookup_delete_None; auto|].
      destruct (decide (ModuleRouteKey.endpoint mk = e)); [by left|right]. by rewrite lookup_delete_ne.
    + intros mk x [Hx Hne]%map_lookup_filter_Some. rewrite lookup_delete_ne by done. by eapply Hs.
  - destruct Hcr as [Hn Hreg Hp Hct]. split.
    + intros e' id' [Hne He']%lookup_delete_Some. rewrite lookup_delete_ne by done. by eapply Hn.
    + intros e' n [Hne He']%lookup_delete_Some. rewrite lookup_delete_ne by done. by eapply Hreg.
    + intros e' corr p Hpe. destruct (Hp e' corr p Hpe) as [[]|?].
      destruct (decide (e' = e)); [by left|right]. by rewrite lookup_delete_ne.
    + intros e' corr p Hpe. destruct (Hct e' corr p Hpe) as [[]|?].
      destruct (decide (e' = e)); [by left|right]. by rewrite lookup_delete_ne.
Qed.

(** Once nothing names the endpoint any more, the invariant holds as before. *)
Lemma fw_upto_done i e :
  fw_upto (λ e', e' = e) i →
  (∀ mk r, module_to_client i !! mk = Some r → ModuleRouteKey.endpoint mk ≠ e) →
  (∀ mk ck, reserved_module i !! mk = Some ck → ModuleRouteKey.endpoint mk ≠ e) →
  (∀ key p, pending_relays i !! key = Some p → key.1 ≠ e) →
  (∀ key p, pending_control_rpcs i !! key = Some p → key.1 ≠ e) →
  fw_ok i.
Proof.
  intros Hok Hm Hr Hp Hct. destruct Hok as [Hix Hep Hrg Hnm Hhd Hcr Hap Hfl]. split; try done.
  - destruct Hep as [Hb Hpe Hi]. split; [| |done].
    + intros ck r Hck. destruct (Hb ck r Hck) as [? [He|?]]; [|by auto].
      destruct (ix_client _ _ _ _ Hix ck r Hck) as [_ Hmr]. by destruct (Hm _ _ Hmr).
    + intros key p Hk. destruct (Hpe key p Hk) as [? [?|?]]; [by destruct (Hp _ _ Hk)|by auto].
  - destruct Hhd as [Hb Hrs Hs]. split; [| |done].
    + intros ck r Hck. destruct (Hb ck r Hck) as [? [He|?]]; [|by auto].
      destruct (ix_client _ _ _ _ Hix ck r Hck) as [_ Hmr]. by destruct (Hm _ _ Hmr).
    + intros ck mk Hck. destruct (Hrs ck mk Hck) as [? [He|?]]; [|by auto].
      destruct (ix_reserved_client _ _ _ _ Hix ck mk Hck) as [Hmk _]. by destruct (Hr _ _ Hmk).
  - destruct Hcr as [Hn Hreg Hpe Hcc]. split; [done|done|..].
    + intros e' corr p Hk. destruct (Hpe e' corr p Hk) as [?|?]; [by destruct (Hp _ _ Hk)|by auto].
    + intros e' corr p Hk. destruct (Hcc e' corr p Hk) as [?|?]; [by destruct (Hct _ _ Hk)|by auto].
Qed.

Lemma unreserve_turn_spec gone i mk :
  fw_upto gone i → gone (ModuleRouteKey.endpoint mk) →
  fw_upto gone (unreserve_turn i mk) ∧
  reserved_module (unreserve_turn i mk) = delete mk (reserved_module i) ∧
  pending_relays (unreserve_turn i mk) = pending_relays i ∧
  only_relays i (unreserve_turn i mk).
Proof.
  intros Hok Hgone. unfold unreserve_turn. destruct (reserved_module i !! mk) as [ck|] eqn:Hr.
  2:{ by rewrite delete_id. }
  split_and!; [| | |apply release_reserved_relays].
  - apply release_reserved_route_ok; [done|]. intros key p Hp.
    destruct (ep_pending _ _ _ _ _ _ (fw_epochs _ _ Hok) key p Hp) as [He _].
    destruct (decide (RouteReservation.module_key (PendingRouteBindRelayEntry.reservation p) = mk))
      as [<-|?]; [left; congruence|by right].
  - rewrite release_reserved_route_eq, decide_True; [done| |apply Hok].
    by apply (index_reserved_iff _ _ _ _ (fw_index _ _ Hok)).
  - rewrite release_reserved_route_eq by apply Hok. by destruct (decide _).
Qed.

Lemma filter_delete {K V} `{Countable K} (m : gmap K V) (k : K) :
  filter (λ x, x.1 ≠ k) m = delete k m.
Proof.
  apply map_eq. intros k'. rewrite map_lookup_filter, lookup_delete.
  destruct (m !! k') as [v|]; simpl; [|by case_decide].
  repeat case_guard; repeat case_decide; simpl in *; congruence.
Qed.

Lemma unreserve_run gone keys i :
  fw_upto gone i → Forall (λ mk, gone (ModuleRouteKey.endpoint mk)) keys →
  let i' := foldl unreserve_turn i keys in
  fw_upto gone i' ∧ only_relays i i' ∧ pending_relays i' = pending_relays i ∧
  reserved_module i' = filter (λ x, x.1 ∉ keys) (reserved_module i).
Proof.
  revert i. induction keys as [|mk keys IH]; intros i Hok Hgone; simpl.
  { split_and!; [done..|]. symmetry. apply map_filter_id. intros ?? _. apply not_elem_of_nil. }
  apply Forall_cons in Hgone as [Hmk Hgone].
  destruct (unreserve_turn_spec gone i mk Hok Hmk) as (Hok1 & Hrm & Hp & Honly).
  destruct (IH _ Hok1 Hgone) as (? & ? & Hp' & Hrm'). split_and!; [done|by etrans|congruence|].
  rewrite Hrm', Hrm, <-filter_delete, map_filter_filter. apply map_filter_ext.
  intros k v _. simpl. rewrite not_elem_of_cons. tauto.
Qed.

(** The relays the endpoint will never answer. *)
Lemma drop_relay_gone_spec gone entries acc :
  fw_upto gone acc.1 →
  let acc' := foldl drop_relay_gone acc entries in
  fw_upto gone acc'.1 ∧ only_relays acc.1 acc'.1 ∧
  pending_relays acc'.1 = pending_relays acc.1 ∧ reserved_module acc'.1 = reserved_module acc.1 ∧
  acc'.2 = acc.2 ++ ((λ entry, RelayReply entry.1 ModuleGone) <$> entries).
Proof.
  revert acc. induction entries as [|[key p] entries IH]; intros [i effects] Hok; simpl.
  { by rewrite app_nil_r. }
  set (i1 := if negb _ then _ else i). set (i2 := drop_scope i1 _).
  assert (fw_upto gone i1 ∧ only_relays i i1 ∧ pending_relays i1 = pending_relays i ∧
    reserved_module i1 = reserved_module i) as (Hok1 & Hr1 & Hp1 & Hm1).
  { unfold i1. destruct (negb _); [|done]. split_and!; [fw_frame|only_relays|done..]. }
  assert (pending_relays i2 = pending_relays i1 ∧ reserved_module i2 = reserved_module i1) as [Hp2 Hm2].
  { unfold i2. by destruct (PendingRouteBindRelayEntry.scope p). }
  destruct (IH (i2, effects ++ [RelayReply key ModuleGone])) as (? & ? & ? & ? & Heff).
  { by apply drop_scope_ok. }
  simpl in *. split_and!; [done| |congruence|congruence|].
  - etrans; [exact Hr1|]. etrans; [apply drop_scope_relays|done].
  - rewrite Heff. by rewrite <-app_assoc.
Qed.

(** The control calls it will never answer. *)
Lemma drop_control_turn acc key :
  (drop_control_rpc acc key).1
  = acc.1 <| pending_control_rpcs := delete key (pending_control_rpcs acc.1) |>.
Proof.
  destruct acc as [i effects]. simpl. destruct (pending_control_rpcs i !! key) eqn:Hp; [done|].
  rewrite delete_id by done. by destruct i.
Qed.

Lemma drop_control_run keys acc :
  (foldl drop_control_rpc acc keys).1
  = acc.1 <| pending_control_rpcs := filter (λ x, x.1 ∉ keys) (pending_control_rpcs acc.1) |>.
Proof.
  revert acc. induction keys as [|key keys IH]; intros acc; cbn [foldl].
  { rewrite map_filter_id; [by destruct (acc.1)|]. intros ?? _. apply not_elem_of_nil. }
  rewrite IH, drop_control_turn. simpl. f_equal.
  rewrite <-filter_delete, map_filter_filter. apply map_filter_ext.
  intros k v _. simpl. rewrite not_elem_of_cons. tauto.
Qed.

Lemma drop_control_effects keys acc : acc.2 ⊆ (foldl drop_control_rpc acc keys).2.
Proof.
  apply (foldl_inv (λ acc', acc.2 ⊆ acc'.2)); [done|]. intros [i effects] key _ Hin. simpl in *.
  destruct (pending_control_rpcs i !! key); simpl; [set_solver|done].
Qed.

Lemma elem_of_endpoint_keys {A} (m : gmap RelayKey A) e key :
  key ∈ endpoint_keys m e ↔ key.1 = e ∧ is_Some (m !! key).
Proof.
  unfold endpoint_keys. rewrite list_elem_of_filter, list_elem_of_fmap. split.
  - intros (? & [k a] & -> & Hin%elem_of_hash_iter). eauto.
  - intros (? & a & Hin%elem_of_hash_iter). split; [done|]. by exists (key, a).
Qed.

Lemma filter_endpoint_keys {A} (m : gmap RelayKey A) e :
  filter (λ x, x.1 ∉ endpoint_keys m e) m = filter (λ x, x.1.1 ≠ e) m.
Proof.
  apply map_filter_ext. intros key a Ha. simpl. rewrite elem_of_endpoint_keys.
  split; [|tauto]. intros Hno He. apply Hno. eauto.
Qed.

Lemma elem_of_routes_of_endpoint i e mk ep :
  (mk, ep) ∈ routes_of_endpoint i e ↔
  ModuleRouteKey.endpoint mk = e ∧
  ∃ r, module_to_client i !! mk = Some r ∧ RouteBinding.module_epoch r = ep.
Proof.
  unfold routes_of_endpoint. rewrite list_elem_of_fmap. split.
  - intros ([mk' r] & [= -> ->] & [? Hin%elem_of_hash_iter]%list_elem_of_filter). eauto.
  - intros (He & r & Hr & <-). exists (mk, r). split; [done|]. apply list_elem_of_filter.
    split; [done|]. by apply elem_of_hash_iter.
Qed.

(** Releasing every route of an endpoint. *)
Lemma release_endpoint_m2c i e :
  module_to_client (release_module_routes (routes_of_endpoint i e) i).1.1
  = filter (λ x, ModuleRouteKey.endpoint x.1 ≠ e) (module_to_client i).
Proof.
  rewrite release_module_routes_m2c. apply map_filter_ext. intros mk r Hr. simpl.
  rewrite elem_of_routes_of_endpoint. split; [|tauto]. intros Hno He. apply Hno. eauto.
Qed.

(** Each released route names its client once. *)
Lemma release_module_routes_targets entries acc :
  NoDup entries.*1 → (∀ mk r, (mk, r) ∈ entries → module_to_client acc.1.1 !! mk = Some r) →
  (foldl (release_turn release_module_route_locked) acc
     ((λ x, (x.1, RouteBinding.module_epoch x.2)) <$> entries)).2
  = acc.2 ++ (client_goodbye <$> entries.*2).
Proof.
  revert acc. induction entries as [|[mk r] entries IH]; intros acc Hnd Hin; cbn.
  { by rewrite app_nil_r. }
  apply NoDup_cons in Hnd as [Hmk Hnd].
  assert (module_to_client acc.1.1 !! mk = Some r) as Hr by (apply Hin; by left).
  rewrite IH; [|done|].
  - unfold release_turn, release_module_route_locked; simpl. rewrite Hr, Z.eqb_refl. simpl.
    by rewrite <-app_assoc.
  - intros mk' r' Hin'. rewrite release_turn_state, release_module_route_m2c.
    apply map_lookup_filter_Some. split; [apply Hin; by right|]. simpl. intros [= -> _].
    apply Hmk. apply list_elem_of_fmap. by exists (mk, r').
Qed.

Lemma release_client_routes_targets entries acc :
  NoDup entries.*1 → (∀ ck r, (ck, r) ∈ entries → client_to_module acc.1.1 !! ck = Some r) →
  (foldl (release_turn release_client_route) acc
     ((λ x, (x.1, RouteBinding.client_epoch x.2)) <$> entries)).2
  = acc.2 ++ (module_goodbye <$> entries.*2).
Proof.
  revert acc. induction entries as [|[ck r] entries IH]; intros acc Hnd Hin; cbn.
  { by rewrite app_nil_r. }
  apply NoDup_cons in Hnd as [Hck Hnd].
  assert (client_to_module acc.1.1 !! ck = Some r) as Hr by (apply Hin; by left).
  rewrite IH; [|done|].
  - unfold release_turn, release_client_route; simpl. rewrite Hr, Z.eqb_refl. simpl.
    by rewrite <-app_assoc.
  - intros ck' r' Hin'. rewrite release_turn_state, release_client_route_c2m.
    apply map_lookup_filter_Some. split; [apply Hin; by right|]. simpl. intros [= -> _].
    apply Hck. apply list_elem_of_fmap. by exists (ck, r').
Qed.

Lemma NoDup_fst_filter {K V} (P : K * V → Prop) `{∀ x, Decision (P x)} (l : list (K * V)) :
  NoDup l.*1 → NoDup (filter P l).*1.
Proof. intros Hnd. eapply sublist_NoDup; [exact Hnd|]. apply fmap_sublist, sublist_filter. Qed.

(** What removing an endpoint leaves. *)
Record endpoint_removed i e i' : Prop := {
  er_ok : fw_ok i';
  er_routes : module_to_client i'
    = filter (λ x, ModuleRouteKey.endpoint x.1 ≠ e) (module_to_client i);
  er_reserved : reserved_module i'
    = filter (λ x, ModuleRouteKey.endpoint x.1 ≠ e) (reserved_module i);
  er_pending : pending_relays i' = filter (λ x, x.1.1 ≠ e) (pending_relays i);
  er_control : pending_control_rpcs i' = filter (λ x, x.1.1 ≠ e) (pending_control_rpcs i);
  er_names : module_id_by_endpoint i' = delete e (module_id_by_endpoint i) ∧
    endpoint_by_connection i'
    = delete (ModuleEndpointId.connection_id e) (endpoint_by_connection i);
  er_epochs : client_slot_epochs i' = client_slot_epochs i ∧
    module_slot_epochs i' = filter (λ x, ModuleRouteKey.endpoint x.1 ≠ e) (module_slot_epochs i);
  er_tags : scope_tags i' = scope_tags i;
}.

(** The routes of an endpoint, in the order they are released. *)
Definition endpoint_entries i e : list (ModuleRouteKey.t * RouteBinding.t) :=
  filter (λ x, ModuleRouteKey.endpoint x.1 = e) (hash_iter (module_to_client i)).

Lemma release_endpoint_targets i e :
  (release_module_routes (routes_of_endpoint i e) i).2 = client_goodbye <$> (endpoint_entries i e).*2.
Proof.
  rewrite release_module_routes_turns. apply release_module_routes_targets.
  - apply NoDup_fst_filter, NoDup_fst_hash_iter.
  - intros mk r [_ Hin%elem_of_hash_iter]%list_elem_of_filter. done.
Qed.

(** The relays an endpoint will not answer, in the order they are dropped. *)
Definition endpoint_relays i e : list (RelayKey * PendingRouteBindRelayEntry.t) :=
  filter (λ x, x.1.1 = e) (hash_iter (pending_relays i)).

(** The relays and calls of the endpoint are dropped. *)
Definition abandon_calls i (effects : list Effect) e : ForwardingInner * list Effect :=
  let acc := foldl drop_relay_gone
    (i <| pending_relays := filter (λ x, x.1.1 ≠ e) (pending_relays i) |>, effects)
    (endpoint_relays i e) in
  foldl drop_control_rpc acc (endpoint_keys (pending_control_rpcs acc.1) e).

Lemma abandon_calls_spec i effects e :
  fw_upto (λ e', e' = e) i →
  let acc := abandon_calls i effects e in
  fw_upto (λ e', e' = e) acc.1 ∧
  (∃ j, only_relays i j ∧ acc.1 = j <| pending_control_rpcs := filter (λ x, x.1.1 ≠ e)
                                         (pending_control_rpcs j) |>) ∧
  pending_relays acc.1 = filter (λ x, x.1.1 ≠ e) (pending_relays i) ∧
  reserved_module acc.1 = reserved_module i ∧
  (∀ key p, pending_relays i !! key = Some p → key.1 = e → RelayReply key ModuleGone ∈ acc.2).
Proof.
  intros Hok. unfold abandon_calls. set (i1 := i <| pending_relays := _ |>).
  assert (fw_upto (λ e', e' = e) i1) as Hok1.
  { unfold i1. fw_frame.
    - eapply epochs_shrink; [done..|apply map_filter_subseteq].
    - eapply corrs_shrink; [done|apply map_filter_subseteq|done].
    - eapply apart_shrink; [done|apply map_filter_subseteq|done]. }
  assert (only_relays i i1) as Hr1 by only_relays.
  destruct (drop_relay_gone_spec (λ e', e' = e) (endpoint_relays i e) (i1, effects) Hok1)
    as (Hok2 & Hr2 & Hp2 & Hm2 & Heff).
  destruct (foldl drop_relay_gone _ _) as [i2 effects2]. cbn [fst snd] in *. cbv zeta.
  pose proof (drop_control_run (endpoint_keys (pending_control_rpcs i2) e) (i2, effects2)) as Hrun.
  cbn [fst] in Hrun. rewrite filter_endpoint_keys in Hrun. rewrite Hrun.
  split_and!; [rewrite <-Hrun|by exists i2; split; [etrans|]|done|done|].
  - apply (foldl_inv (λ acc, fw_upto (λ e', e' = e) acc.1)); [done|].
    intros acc key _ ?. by apply drop_control_rpc_ok.
  - intros key p Hp He. apply drop_control_effects. simpl. rewrite Heff. apply elem_of_app. right.
    apply list_elem_of_fmap. exists (key, p). split; [done|]. unfold endpoint_relays.
    apply list_elem_of_filter. split; [done|]. by apply elem_of_hash_iter.
Qed.

Lemma abandon_endpoint_calls i effects e :
  abandon_endpoint i effects e =
  let acc := abandon_calls i effects e in
  let rel := release_module_routes (routes_of_endpoint acc.1 e) acc.1 in
  (rel.1.1, acc.2 ++ rel.1.2,
   mkConnectionCleanup rel.2 (Z.min (Z.of_nat (length (endpoint_relays i e))) U32_MAX)).
Proof.
  unfold abandon_endpoint, abandon_calls. cbv zeta. fold (endpoint_relays i e).
  destruct (foldl drop_relay_gone _ _) as [i2 effects2]. cbn [fst snd].
  destruct (foldl drop_control_rpc _ _) as [i3 effects3]. cbn [fst snd].
  by destruct (release_module_routes _ _) as [[i4 effects4] released].
Qed.

Lemma abandon_endpoint_spec i effects e :
  fw_upto (λ e', e' = e) i →
  (∀ mk ck, reserved_module i !! mk = Some ck → ModuleRouteKey.endpoint mk ≠ e) →
  let '(i', effects', cleanup) := abandon_endpoint i effects e in
  fw_ok i' ∧
  module_to_client i' = filter (λ x, ModuleRouteKey.endpoint x.1 ≠ e) (module_to_client i) ∧
  pending_relays i' = filter (λ x, x.1.1 ≠ e) (pending_relays i) ∧
  pending_control_rpcs i' = filter (λ x, x.1.1 ≠ e) (pending_control_rpcs i) ∧
  reserved_module i' = reserved_module i ∧
  (∃ j, only_relays i j ∧
        only_routes (j <| pending_control_rpcs := filter (λ x, x.1.1 ≠ e) (pending_control_rpcs i) |>) i') ∧
  released_routes cleanup = client_goodbye <$> (endpoint_entries i e).*2 ∧
  (∀ key p, pending_relays i !! key = Some p → key.1 = e → RelayReply key ModuleGone ∈ effects').
Proof.
  intros Hok Hres. rewrite abandon_endpoint_calls. cbv zeta.
  destruct (abandon_calls_spec i effects e Hok) as (Hok1 & (j & Hij & Hj) & Hp1 & Hm1 & Heff).
  destruct (abandon_calls i effects e) as [i1 effects1]. cbn [fst snd] in *.
  pose proof (release_module_routes_ok _ i1 (routes_of_endpoint i1 e) Hok1) as Hok2.
  pose proof (release_endpoint_m2c i1 e) as Hm2. pose proof (release_endpoint_targets i1 e) as Ht.
  pose proof (release_module_routes_routes (routes_of_endpoint i1 e) i1) as Hr2.
  destruct (release_module_routes _ _) as [[i2 effects2] released]. cbn [fst snd] in *.
  destruct Hr2 as (c2m & m2c & fl & st & h & ->). destruct Hij as (rc & rm & pend & rel & st' & h' & ->).
  subst i1. simpl in *.
  split_and!; [|done..| | |].
  - apply (fw_upto_done _ e Hok2); simpl.
    + rewrite Hm2. by intros mk r [_ ?]%map_lookup_filter_Some.
    + rewrite Hm1. exact Hres.
    + rewrite Hp1. by intros key p [_ ?]%map_lookup_filter_Some.
    + by intros key p [_ ?]%map_lookup_filter_Some.
  - eexists. split; [by exists rc, rm, pend, rel, st', h'|]. by exists c2m, m2c, fl, st, h.
  - exact Ht.
  - intros key p Hp He. apply elem_of_app. left. by eapply Heff.
Qed.

Lemma remove_module_connection_spec i c e :
  fw_ok i → endpoint_by_connection i !! c = Some e →
  let i0 := i <| endpoint_by_connection := delete c (endpoint_by_connection i) |> in
  let '(i', effects, cleanup) := remove_module_connection i0 e in
  endpoint_removed i e i' ∧
  released_routes cleanup = client_goodbye <$> (endpoint_entries i e).*2 ∧
  (∀ key p, pending_relays i !! key = Some p → key.1 = e → RelayReply key ModuleGone ∈ effects).
Proof.
  intros Hok Hc i0. destruct (nm_connection _ _ _ _ _ (fw_names _ _ Hok) c e Hc) as [Hce [id Hid]].
  pose proof (forget_endpoint_ok i c e Hok Hc) as Hok1. fold i0 in Hok1.
  unfold remove_module_connection. cbv zeta.
  remember (forget_endpoint i0 e) as i1 eqn:Hi1.
  rewrite (forget_endpoint_eq i0 e id) in Hi1 by exact Hid.
  set (keys := filter _ _).
  assert (∀ mk, mk ∈ keys ↔ ModuleRouteKey.endpoint mk = e ∧ is_Some (reserved_module i1 !! mk)) as Hkeys.
  { intros mk. unfold keys. rewrite list_elem_of_filter, list_elem_of_fmap. split.
    - intros (? & [k a] & -> & Hin%elem_of_hash_iter). eauto.
    - intros (? & a & Hin%elem_of_hash_iter). split; [done|]. by exists (mk, a). }
  destruct (unreserve_run (λ e', e' = e) keys i1 Hok1) as (Hok2 & Hr2 & Hp2 & Hm2).
  { apply Forall_forall. intros mk [? _]%Hkeys. done. }
  assert (filter (λ x, x.1 ∉ keys) (reserved_module i1)
    = filter (λ x, ModuleRouteKey.endpoint x.1 ≠ e) (reserved_module i1)) as Hext.
  { apply map_filter_ext. intros mk ck Hmk. simpl. rewrite Hkeys. split; [|tauto].
    intros Hno He. apply Hno. eauto. }
  rewrite Hext in Hm2. clear Hext.
  remember (foldl unreserve_turn i1 keys) as i2 eqn:Hi2. clear Hi2 Hkeys keys.
  pose proof (abandon_endpoint_spec i2 [OperatorModuleClosed e] e Hok2) as Hspec.
  destruct (abandon_endpoint _ _ _) as [[i3 effects] cleanup].
  destruct Hspec as (Hok3 & Hm3 & Hp3 & Hct3 & Hr3 & (j & Hj & Hij) & Ht & Heff).
  { rewrite Hm2. by intros mk ck [_ ?]%map_lookup_filter_Some. }
  destruct Hr2 as (rc & rm & pend & rel & st & h & ->).
  destruct Hj as (rc' & rm' & pend' & rel' & st' & h' & ->).
  destruct Hij as (c2m & m2c & fl & st'' & h'' & ->). subst i1. simpl in *. subst.
  rewrite delete_delete_eq in *. split_and!.
  - split; simpl; first [done|congruence].
  - exact Ht.
  - intros key p Hp. apply (Heff key p). congruence.
Qed.
End removal.

(** ** Removing a client *)

Section client_removal.
Context `{Semaphore} `{HashOrder}.
Implicit Types (i : ForwardingInner) (c : Z).

Lemma release_reserved_rc i ck mk :
  reserved_client (release_reserved_route i ck mk)
  = filter (λ x, x ≠ (ck, mk)) (reserved_client i).
Proof.
  unfold release_reserved_route. destruct (decide (reserved_client i !! ck = Some mk)) as [Hr|Hr]; simpl.
  - transitivity (delete ck (reserved_client i)); [by case_decide|].
    apply map_eq. intros ck'. rewrite lookup_delete, map_lookup_filter.
    case_decide as Hd; [subst|].
    + rewrite Hr. simpl. by case_guard.
    + destruct (reserved_client i !! ck'); simpl; [|done]. case_guard; [done|]. congruence.
  - transitivity (reserved_client i); [by case_decide|]. symmetry. apply map_filter_id.
    intros ck' mk' Hk [= -> ->]. done.
Qed.

Lemma release_reserved_pending i ck mk :
  pending_relays (release_reserved_route i ck mk) = pending_relays i.
Proof. unfold release_reserved_route. by repeat case_decide. Qed.

Lemma unreserve_entries entries i :
  fw_ok i →
  (∀ ck mk key p, (ck, mk) ∈ entries → pending_relays i !! key = Some p →
     RouteReservation.module_key (PendingRouteBindRelayEntry.reservation p) ≠ mk) →
  let i' := foldl (λ i x, release_reserved_route i x.1 x.2) i entries in
  fw_ok i' ∧ only_relays i i' ∧ pending_relays i' = pending_relays i ∧
  reserved_client i' = filter (λ x, x ∉ entries) (reserved_client i).
Proof.
  revert i. induction entries as [|[ck mk] entries IH]; intros i Hok Hno; simpl.
  { split_and!; [done..|]. symmetry. apply map_filter_id. intros ?? _. apply not_elem_of_nil. }
  destruct (IH (release_reserved_route i ck mk)) as (? & ? & Hp & Hr).
  - apply release_reserved_route_ok; [done|]. intros key p Hp. right. eapply Hno; [by left|done].
  - intros ck' mk' key p Hin. rewrite release_reserved_pending. apply (Hno ck'). by right.
  - split_and!; [done| | |].
    + etrans; [apply release_reserved_relays|done].
    + by rewrite Hp, release_reserved_pending.
    + rewrite Hr, release_reserved_rc, map_filter_filter. apply map_filter_ext.
      intros k v _. rewrite not_elem_of_cons. tauto.
Qed.

Lemma drop_scope_pending i scope : pending_relays (drop_scope i scope) = pending_relays i.
Proof. by destruct scope. Qed.

Lemma drop_relay_pending reply acc key :
  pending_relays (drop_relay reply acc key).1.1 = delete key (pending_relays acc.1.1).
Proof.
  destruct acc as [[i effects] targets]. simpl. destruct (pending_relays i !! key) as [p|] eqn:Hp; simpl.
  2:{ by rewrite delete_id. }
  assert (pending_relays (release_reservation (i <| pending_relays := delete key (pending_relays i) |>) p)
    = delete key (pending_relays i)) as Heq.
  { unfold release_reservation. rewrite drop_scope_pending. by rewrite release_reserved_pending. }
  by destruct (PendingRouteBindRelayEntry.relay_enqueued p).
Qed.

Lemma drop_relay_rc reply acc key :
  reserved_client (drop_relay reply acc key).1.1 ⊆ reserved_client acc.1.1.
Proof.
  destruct acc as [[i effects] targets]. simpl. destruct (pending_relays i !! key) as [p|]; [|done].
  set (j := release_reservation _ p).
  assert (reserved_client j ⊆ reserved_client i) as Hj.
  { unfold j, release_reservation. set (j0 := release_reserved_route _ _ _).
    transitivity (reserved_client j0); [by destruct (PendingRouteBindRelayEntry.scope p)|].
    unfold j0. rewrite release_reserved_rc. apply map_filter_subseteq. }
  by destruct (PendingRouteBindRelayEntry.relay_enqueued p).
Qed.

Lemma drop_relay_effects reply acc key :
  acc.1.2 ⊆ (drop_relay reply acc key).1.2 ∧
  (is_Some (pending_relays acc.1.1 !! key) → RelayReply key reply ∈ (drop_relay reply acc key).1.2).
Proof.
  destruct acc as [[i effects] targets]. simpl. destruct (pending_relays i !! key) as [p|] eqn:Hp; simpl.
  - destruct (PendingRouteBindRelayEntry.relay_enqueued p); simpl; set_solver.
  - split; [done|]. by intros [??].
Qed.

Lemma drop_relays_targets reply keys acc : acc.2 ⊆ (foldl (drop_relay reply) acc keys).2.
Proof.
  apply (foldl_inv (λ acc', acc.2 ⊆ acc'.2)); [done|]. intros [[i effects] targets] key _ Hin. simpl in *.
  destruct (pending_relays i !! key) as [p|]; [|done].
  destruct (PendingRouteBindRelayEntry.relay_enqueued p); simpl; set_solver.
Qed.

(** A run of drops settles the relays it names, and no others. *)
Lemma drop_relay_run gone reply keys acc :
  fw_upto gone acc.1.1 →
  let acc' := foldl (drop_relay reply) acc keys in
  fw_upto gone acc'.1.1 ∧ only_relays acc.1.1 acc'.1.1 ∧
  pending_relays acc'.1.1 = filter (λ x, x.1 ∉ keys) (pending_relays acc.1.1) ∧
  reserved_client acc'.1.1 ⊆ reserved_client acc.1.1 ∧ acc.1.2 ⊆ acc'.1.2 ∧
  (∀ key, key ∈ keys → is_Some (pending_relays acc.1.1 !! key) → RelayReply key reply ∈ acc'.1.2).
Proof.
  revert acc. induction keys as [|key keys IH]; intros acc Hok; cbn [foldl].
  { split_and!; [done..| |done|done|by intros ? ?%not_elem_of_nil]. symmetry. apply map_filter_id.
    intros ?? _. apply not_elem_of_nil. }
  destruct (IH (drop_relay reply acc key)) as (? & ? & Hp & Hrc & Heff & Hall);
    [by apply drop_relay_ok|].
  destruct (drop_relay_effects reply acc key) as [Heff' Hkey].
  split_and!; [done| | | |set_solver|].
  - etrans; [apply drop_relay_relays|done].
  - rewrite Hp, drop_relay_pending, <-filter_delete, map_filter_filter. apply map_filter_ext.
    intros k v _. simpl. rewrite not_elem_of_cons. tauto.
  - etrans; [exact Hrc|apply drop_relay_rc].
  - intros key' Hin Hsome. destruct (decide (key' = key)) as [->|Hne]; [set_solver|].
    apply Hall; [set_solver|]. rewrite drop_relay_pending. by rewrite lookup_delete_ne.
Qed.

(** The routes of a client, in the order they are released. *)
Definition client_entries i c : list (ClientRouteKey.t * RouteBinding.t) :=
  filter (λ x, ClientRouteKey.connection_id x.1 = c) (hash_iter (client_to_module i)).

(** The client a pending relay was opened by. *)
Definition relay_client (p : PendingRouteBindRelayEntry.t) : Z :=
  ClientRouteKey.connection_id
    (RouteReservation.client_key (PendingRouteBindRelayEntry.reservation p)).

(** What removing a client leaves. *)
Record client_removed i c i' : Prop := {
  cl_ok : fw_ok i';
  cl_routes : client_to_module i'
    = filter (λ x, ClientRouteKey.connection_id x.1 ≠ c) (client_to_module i);
  cl_reserved ck mk : reserved_client i' !! ck = Some mk →
    reserved_client i !! ck = Some mk ∧ ClientRouteKey.connection_id ck ≠ c;
  cl_pending : pending_relays i' = filter (λ x, relay_client x.2 ≠ c) (pending_relays i);
  cl_epochs : client_slot_epochs i'
    = filter (λ x, ClientRouteKey.connection_id x.1 ≠ c) (client_slot_epochs i) ∧
    module_slot_epochs i' = module_slot_epochs i;
  cl_rest : module_id_by_endpoint i' = module_id_by_endpoint i ∧
    endpoint_by_connection i' = endpoint_by_connection i ∧
    pending_control_rpcs i' = pending_control_rpcs i ∧ scope_tags i' = scope_tags i;
}.

Lemma release_client_connection_c2m i c :
  client_to_module (release_client_routes
    ((λ x, (x.1, RouteBinding.client_epoch x.2)) <$> client_entries i c) i).1.1
  = filter (λ x, ClientRouteKey.connection_id x.1 ≠ c) (client_to_module i).
Proof.
  rewrite release_client_routes_c2m. apply map_filter_ext. intros ck r Hr. simpl.
  rewrite list_elem_of_fmap. split.
  - intros Hno Hc. apply Hno. exists (ck, r). split; [done|]. apply list_elem_of_filter.
    split; [done|]. by apply elem_of_hash_iter.
  - intros Hne ([ck' r'] & [= <- ?] & [? _]%list_elem_of_filter). done.
Qed.

Lemma release_client_targets i c :
  (release_client_routes ((λ x, (x.1, RouteBinding.client_epoch x.2)) <$> client_entries i c) i).2
  = module_goodbye <$> (client_entries i c).*2.
Proof.
  rewrite release_client_routes_turns. apply release_client_routes_targets.
  - apply NoDup_fst_filter, NoDup_fst_hash_iter.
  - intros ck r [_ Hin%elem_of_hash_iter]%list_elem_of_filter. done.
Qed.

(** The client's counters and caches are forgotten once nothing uses them. *)
Lemma forget_client_ok i c :
  fw_ok i →
  (∀ ck r, client_to_module i !! ck = Some r → ClientRouteKey.connection_id ck ≠ c) →
  (∀ key p, pending_relays i !! key = Some p → relay_client p ≠ c) →
  fw_ok (i <| next_client_channel := delete c (next_client_channel i) |>
           <| client_slot_epochs :=
                filter (λ x, ClientRouteKey.connection_id x.1 ≠ c) (client_slot_epochs i) |>
           <| last_published_epoch :=
                filter (λ x, ClientRouteKey.connection_id x.1 ≠ c) (last_published_epoch i) |>
           <| status := filter (λ x, ClientRouteKey.connection_id x.1.1 ≠ c) (status i) |>).
Proof.
  intros Hok Hc Hp. fw_frame.
  - destruct fw_epochs as [Hb Hpe Hi]. split; [| |done].
    + intros ck r Hr. destruct (Hb ck r Hr). split; [|done]. apply map_lookup_filter_Some.
      split; [done|]. by eapply Hc.
    + intros key p Hk. destruct (Hpe key p Hk) as [? [[]|(? & ? & ?)]]. split; [done|]. right.
      split_and!; [done| |done]. apply map_lookup_filter_Some. split; [done|]. by apply (Hp key).
  - destruct fw_ranges as [Hrc Hrm Hn Hm]. split; [|done| |done].
    + intros ck e [He _]%map_lookup_filter_Some. by apply Hrc.
    + intros c' ch [_ Hch]%lookup_delete_Some. by eapply Hn.
Qed.

(** The relays a client waits for. *)
Definition client_relays i c : list RelayKey :=
  fst <$> filter (λ x, relay_client x.2 = c) (hash_iter (pending_relays i)).

Lemma elem_of_client_relays i c key :
  key ∈ client_relays i c ↔ ∃ p, pending_relays i !! key = Some p ∧ relay_client p = c.
Proof.
  unfold client_relays. rewrite list_elem_of_fmap. split.
  - intros ([k p] & -> & [? Hin%elem_of_hash_iter]%list_elem_of_filter). eauto.
  - intros (p & Hp%elem_of_hash_iter & ?). exists (key, p). split; [done|]. by apply list_elem_of_filter.
Qed.

Lemma filter_client_relays i c :
  filter (λ x, x.1 ∉ client_relays i c) (pending_relays i)
  = filter (λ x, relay_client x.2 ≠ c) (pending_relays i).
Proof.
  apply map_filter_ext. intros key p Hp. simpl. rewrite elem_of_client_relays. split.
  - intros Hno Hc. apply Hno. eauto.
  - intros Hne (p' & Hp' & ?). congruence.
Qed.

(** Routes first, then the relays still waiting. *)
Definition client_settled i c : ForwardingInner * list Effect * list GoodbyeTarget.t :=
  let rel := release_client_routes
    ((λ x, (x.1, RouteBinding.client_epoch x.2)) <$> client_entries i c) i in
  foldl (drop_relay ModuleGone) rel (client_relays rel.1.1 c).

Lemma client_settled_spec i c :
  fw_ok i →
  let acc := client_settled i c in
  fw_ok acc.1.1 ∧
  (∃ j, only_routes i j ∧ only_relays j acc.1.1) ∧
  client_to_module acc.1.1
  = filter (λ x, ClientRouteKey.connection_id x.1 ≠ c) (client_to_module i) ∧
  pending_relays acc.1.1 = filter (λ x, relay_client x.2 ≠ c) (pending_relays i) ∧
  reserved_client acc.1.1 ⊆ reserved_client i ∧
  (∀ key p, pending_relays i !! key = Some p → relay_client p = c → RelayReply key ModuleGone ∈ acc.1.2) ∧
  module_goodbye <$> (client_entries i c).*2 ⊆ acc.2.
Proof.
  intros Hok. unfold client_settled. cbv zeta. set (routes := _ <$> _).
  pose proof (release_client_routes_ok _ i routes Hok) as Hok1.
  pose proof (release_client_connection_c2m i c : _ (release_client_routes routes i).1.1 = _) as Hc1.
  pose proof (release_client_routes_routes routes i) as Hr1.
  pose proof (release_client_targets i c : (release_client_routes routes i).2 = _) as Ht1.
  destruct (release_client_routes routes i) as [[i1 effects1] released1]. cbn [fst snd] in *.
  pose proof (drop_relays_targets ModuleGone (client_relays i1 c) (i1, effects1, released1)) as Ht2.
  destruct (drop_relay_run (λ _, False) ModuleGone (client_relays i1 c) (i1, effects1, released1) Hok1)
    as (Hok2 & Hr2 & Hp2 & Hrc2 & Heff & Hall).
  destruct (foldl (drop_relay ModuleGone) _ _) as [[i2 effects2] released2]. cbn [fst snd] in *.
  rewrite filter_client_relays in Hp2.
  assert (pending_relays i1 = pending_relays i ∧ reserved_client i1 = reserved_client i) as [Ep Er].
  { by destruct Hr1 as (? & ? & ? & ? & ? & ->). }
  assert (client_to_module i2 = client_to_module i1) as Ec.
  { by destruct Hr2 as (? & ? & ? & ? & ? & ? & ->). }
  split_and!; [done|by exists i1|by rewrite Ec|congruence|by rewrite <-Er| |by rewrite <-Ht1].
  intros key p Hp Hc. rewrite <-Ep in Hp. apply Hall; [|by eauto]. apply elem_of_client_relays. eauto.
Qed.

(** The reservations no relay waits for any more. *)
Definition client_orphans i c : list (ClientRouteKey.t * ModuleRouteKey.t) :=
  filter (λ x, ClientRouteKey.connection_id x.1 = c) (hash_iter (reserved_client i)).

Lemma cleanup_client_connection_eq i c :
  cleanup_client_connection i c =
  let acc := client_settled i c in
  let j := foldl (λ i x, release_reserved_route i x.1 x.2) acc.1.1 (client_orphans acc.1.1 c) in
  (j <| next_client_channel := delete c (next_client_channel j) |>
     <| client_slot_epochs :=
          filter (λ x, ClientRouteKey.connection_id x.1 ≠ c) (client_slot_epochs j) |>
     <| last_published_epoch :=
          filter (λ x, ClientRouteKey.connection_id x.1 ≠ c) (last_published_epoch j) |>
     <| status := filter (λ x, ClientRouteKey.connection_id x.1.1 ≠ c) (status j) |>,
   acc.1.2, acc.2).
Proof.
  unfold cleanup_client_connection, client_settled. cbv zeta. fold (client_entries i c).
  destruct (release_client_routes _ i) as [[i1 effects1] released1]. cbn [fst snd].
  change (fst <$> filter _ (hash_iter (pending_relays i1))) with (client_relays i1 c).
  destruct (foldl (drop_relay ModuleGone) _ _) as [[i2 effects2] released2]. cbn [fst snd].
  reflexivity.
Qed.

Lemma cleanup_client_connection_spec i c :
  fw_ok i →
  let '(i', effects, released) := cleanup_client_connection i c in
  client_removed i c i' ∧
  (∀ key p, pending_relays i !! key = Some p → relay_client p = c → RelayReply key ModuleGone ∈ effects) ∧
  module_goodbye <$> (client_entries i c).*2 ⊆ released.
Proof.
  intros Hok. rewrite cleanup_client_connection_eq. cbv zeta.
  destruct (client_settled_spec i c Hok) as (Hok1 & (j & Hij & Hj) & Hc1 & Hp1 & Hrc1 & Heff & Htell).
  destruct (client_settled i c) as [[i1 effects1] released1]. cbn [fst snd] in *.
  assert (∀ key p, pending_relays i1 !! key = Some p → relay_client p ≠ c) as Hnone.
  { rewrite Hp1. by intros key p [_ ?]%map_lookup_filter_Some. }
  destruct (unreserve_entries (client_orphans i1 c) i1 Hok1) as (Hok2 & Hr2 & Hp2 & Hrc2).
  { intros ck mk key p [Hc Hin%elem_of_hash_iter]%list_elem_of_filter Hp Heq.
    destruct (ep_pending _ _ _ _ _ _ (fw_epochs _ _ Hok1) key p Hp) as [_ [[]|(Hres & _)]].
    rewrite Heq in Hres. apply (index_reserved_iff _ _ _ _ (fw_index _ _ Hok1)) in Hres, Hin.
    apply (Hnone key p Hp). unfold relay_client. simpl in Hc. congruence. }
  remember (foldl (λ i x, release_reserved_route i x.1 x.2) i1 (client_orphans i1 c)) as i2 eqn:Hi2.
  clear Hi2. split; [|done].
  assert (client_to_module i2 = client_to_module i1) as Hc2 by (by destruct Hr2 as (? & ? & ? & ? & ? & ? & ->)).
  split; simpl.
  - apply forget_client_ok; [done|rewrite Hc2, Hc1; by intros ck r [_ ?]%map_lookup_filter_Some|].
    by rewrite Hp2.
  - congruence.
  - intros ck mk. rewrite Hrc2. intros [Hin Hno]%map_lookup_filter_Some. split.
    + by eapply lookup_weaken.
    + intros Hc. apply Hno. apply list_elem_of_filter. split; [done|]. by apply elem_of_hash_iter.
  - congruence.
  - destruct Hij as (? & ? & ? & ? & ? & ->), Hj as (? & ? & ? & ? & ? & ? & ->),
      Hr2 as (? & ? & ? & ? & ? & ? & ->). done.
  - destruct Hij as (? & ? & ? & ? & ? & ->), Hj as (? & ? & ? & ? & ? & ? & ->),
      Hr2 as (? & ? & ? & ? & ? & ? & ->). done.
Qed.

Lemma closing_ok i s : fw_ok i → fw_ok (i <| closing_connections := s |>).
Proof. intros Hok. fw_frame. Qed.


(** ** Either kind *)

(** A connection goes away: whatever named it is gone, nothing else is, and the
    other end of each route and bind is told. *)
Record connection_removed i c i' (effects : list Effect) (released : list GoodbyeTarget.t) : Prop := {
  cn_role : endpoint_by_connection i' !! c = None;
  cn_routes : client_to_module i'
    = filter (λ x, ClientRouteKey.connection_id x.1 ≠ c ∧
                   ModuleEndpointId.connection_id (RouteBinding.module_endpoint x.2) ≠ c)
        (client_to_module i);
  cn_pending : pending_relays i'
    = filter (λ x, relay_client x.2 ≠ c ∧ ModuleEndpointId.connection_id x.1.1 ≠ c) (pending_relays i);
  cn_replied key p : pending_relays i !! key = Some p →
    relay_client p = c ∨ ModuleEndpointId.connection_id key.1 = c → RelayReply key ModuleGone ∈ effects;
  cn_module_told ck r : client_to_module i !! ck = Some r → ClientRouteKey.connection_id ck = c →
    module_goodbye r ∈ released;
  cn_client_told ck r : client_to_module i !! ck = Some r →
    ModuleEndpointId.connection_id (RouteBinding.module_endpoint r) = c → client_goodbye r ∈ released;
}.

(** The module end of a route or a bind is a registered endpoint. *)
Lemma route_endpoint i ck r :
  fw_ok i → client_to_module i !! ck = Some r →
  endpoint_by_connection i !! ModuleEndpointId.connection_id (RouteBinding.module_endpoint r)
  = Some (RouteBinding.module_endpoint r) ∧
  endpoint_by_connection i !! ClientRouteKey.connection_id ck = None.
Proof.
  intros Hok Hr. destruct (hd_bound _ _ _ _ _ _ (fw_holders _ _ Hok) ck r Hr) as [Hc [[]|Hm]].
  split; [|done]. by apply (nm_endpoint _ _ _ _ _ (fw_names _ _ Hok)) in Hm.
Qed.

Lemma pending_endpoint i key p :
  fw_ok i → pending_relays i !! key = Some p →
  endpoint_by_connection i !! ModuleEndpointId.connection_id key.1 = Some key.1 ∧
  endpoint_by_connection i !! relay_client p = None.
Proof.
  intros Hok Hp. destruct (ep_pending _ _ _ _ _ _ (fw_epochs _ _ Hok) key p Hp) as [He [[]|(Hres & _)]].
  destruct (hd_reserved _ _ _ _ _ _ (fw_holders _ _ Hok) _ _ Hres) as [Hc [[]|[m Hm]]].
  rewrite He in Hm. split; [|done]. by apply (nm_endpoint _ _ _ _ _ (fw_names _ _ Hok)) in Hm.
Qed.

Lemma module_removed i c e i' effects cleanup :
  fw_ok i → endpoint_by_connection i !! c = Some e → endpoint_removed i e i' →
  released_routes cleanup = client_goodbye <$> (endpoint_entries i e).*2 →
  (∀ key p, pending_relays i !! key = Some p → key.1 = e → RelayReply key ModuleGone ∈ effects) →
  connection_removed i c i' effects (released_routes cleanup).
Proof.
  intros Hok He Hrem Ht Hrep.
  destruct (nm_connection _ _ _ _ _ (fw_names _ _ Hok) c e He) as [Hce _].
  assert (∀ ck r, client_to_module i !! ck = Some r → ClientRouteKey.connection_id ck ≠ c ∧
    (ModuleEndpointId.connection_id (RouteBinding.module_endpoint r) = c ↔
     RouteBinding.module_endpoint r = e)) as Hroute.
  { intros ck r Hr. destruct (route_endpoint i ck r Hok Hr) as [Hm Hc]. split; [congruence|].
    split; [congruence|by intros ->]. }
  assert (∀ key p, pending_relays i !! key = Some p → relay_client p ≠ c ∧
    (ModuleEndpointId.connection_id key.1 = c ↔ key.1 = e)) as Hrelay.
  { intros key p Hp. destruct (pending_endpoint i key p Hok Hp) as [Hm Hc]. split; [congruence|].
    split; [congruence|by intros ->]. }
  pose proof (er_ok _ _ _ Hrem) as Hok'.
  split.
  - destruct (er_names _ _ _ Hrem) as [_ ->]. rewrite Hce. apply lookup_delete_eq.
  - apply map_eq. intros ck. apply option_eq. intros r. rewrite map_lookup_filter_Some. simpl.
    pose proof (er_routes _ _ _ Hrem) as Hm2c. split.
    + intros Hr. destruct (ix_client _ _ _ _ (fw_index _ _ Hok') ck r Hr) as [<- Hm].
      rewrite Hm2c in Hm. apply map_lookup_filter_Some in Hm as [Hm Hne].
      destruct (ix_module _ _ _ _ (fw_index _ _ Hok) _ r Hm) as [_ Hc]. split; [done|].
      destruct (Hroute _ r Hc) as [? Hiff]. split; [done|]. simpl in Hne. tauto.
    + intros [Hr [_ Hne]]. destruct (ix_client _ _ _ _ (fw_index _ _ Hok) ck r Hr) as [<- Hm].
      destruct (Hroute _ r Hr) as [_ Hiff].
      apply (ix_module _ _ _ _ (fw_index _ _ Hok') (RouteBinding.module_key r) r).
      rewrite Hm2c. apply map_lookup_filter_Some. split; [done|]. simpl. tauto.
  - rewrite (er_pending _ _ _ Hrem). apply map_filter_ext. intros key p Hp. simpl.
    destruct (Hrelay key p Hp). tauto.
  - intros key p Hp Hor. destruct (Hrelay key p Hp). apply (Hrep key p Hp). tauto.
  - intros ck r Hr Hc. by destruct (Hroute ck r Hr).
  - intros ck r Hr Hc. apply (Hroute ck r Hr) in Hc. rewrite Ht.
    destruct (ix_client _ _ _ _ (fw_index _ _ Hok) ck r Hr) as [_ Hm].
    apply list_elem_of_fmap_2. apply (list_elem_of_fmap_2 snd _ (RouteBinding.module_key r, r)).
    apply list_elem_of_filter. split; [done|]. by apply elem_of_hash_iter.
Qed.

Lemma client_connection_removed i c i' effects released :
  fw_ok i → endpoint_by_connection i !! c = None → client_removed i c i' →
  (∀ key p, pending_relays i !! key = Some p → relay_client p = c → RelayReply key ModuleGone ∈ effects) →
  module_goodbye <$> (client_entries i c).*2 ⊆ released →
  connection_removed i c i' effects released.
Proof.
  intros Hok Hnone Hrem Hrep Htell. destruct (cl_rest _ _ _ Hrem) as (_ & Hebc & _).
  split.
  - by rewrite Hebc.
  - rewrite (cl_routes _ _ _ Hrem). apply map_filter_ext. intros ck r Hr. simpl.
    destruct (route_endpoint i ck r Hok Hr) as [Hm _]. split; [|tauto]. intros ?. split; congruence.
  - rewrite (cl_pending _ _ _ Hrem). apply map_filter_ext. intros key p Hp. simpl.
    destruct (pending_endpoint i key p Hok Hp) as [Hm _]. split; [|tauto]. intros ?. split; congruence.
  - intros key p Hp [Hc|Hc]; [by apply (Hrep key p)|].
    destruct (pending_endpoint i key p Hok Hp) as [Hm _]. congruence.
  - intros ck r Hr Hc. apply Htell, list_elem_of_fmap_2, (list_elem_of_fmap_2 snd _ (ck, r)).
    apply list_elem_of_filter. split; [done|]. by apply elem_of_hash_iter.
  - intros ck r Hr Hc. destruct (route_endpoint i ck r Hok Hr) as [Hm _]. congruence.
Qed.

Lemma cleanup_connection_spec i c :
  fw_ok i →
  let '(i', effects, cleanup) := cleanup_connection i c in
  fw_ok i' ∧ connection_removed i c i' effects (released_routes cleanup).
Proof.
  intros Hok. unfold cleanup_connection. cbv zeta. set (i1 := i <| closing_connections := _ |>).
  assert (fw_ok i1) as Hok1 by (by apply closing_ok).
  destruct (endpoint_by_connection i1 !! c) as [e|] eqn:He.
  - pose proof (remove_module_connection_spec i1 c e Hok1 He) as Hspec. cbv zeta in Hspec.
    destruct (remove_module_connection _ e) as [[i2 effects] cleanup].
    destruct Hspec as (Hrem & Ht & Hrep). split; [by apply closing_ok, (er_ok _ _ _ Hrem)|].
    by destruct (module_removed i1 c e i2 effects cleanup Hok1 He Hrem Ht Hrep).
  - pose proof (cleanup_client_connection_spec i1 c Hok1) as Hspec.
    destruct (cleanup_client_connection i1 c) as [[i2 effects] released].
    destruct Hspec as (Hrem & Hrep & Htell). split; [by apply closing_ok, (cl_ok _ _ _ Hrem)|].
    by destruct (client_connection_removed i1 c i2 effects released Hok1 He Hrem Hrep Htell).
Qed.

Lemma cleanup_connection_ok i c : fw_ok i → fw_ok (cleanup_connection i c).1.1.
Proof.
  intros Hok. pose proof (cleanup_connection_spec i c Hok) as Hspec.
  destruct (cleanup_connection i c) as [[i' effects] cleanup]. apply Hspec.
Qed.
End client_removal.
