(* ===== verification/ForwardingWorld.v ===== *)
(** * The forwarding table, operation by operation

    Every operation of the table keeps its invariant, and says what it does to
    the authority routes stand on: it adds no route and no pending bind, except
    that opening adds a pending bind and a module's acceptance turns one into a
    route. *)

From S2P Require Import Prelude Collections Envelope Tokens ScopeTypes Scopes ScopeDrains.
From S2P Require Import Flow Forwarding ForwardingSlots ForwardingInvariant ForwardingOps.
From S2P Require Import ForwardingCleanup.

Section world.
Context `{Semaphore} `{HashOrder}.
Implicit Types (i j : ForwardingInner).

(** Two relays stand on the same authority. *)
Definition same_grant (p q : PendingRouteBindRelayEntry.t) : Prop :=
  PendingRouteBindRelayEntry.scope p = PendingRouteBindRelayEntry.scope q ∧
  PendingRouteBindRelayEntry.principal p = PendingRouteBindRelayEntry.principal q.

(** No route and no pending bind is new. *)
Record shrinks i j : Prop := {
  sh_routes : client_to_module j ⊆ client_to_module i;
  sh_tags : scope_tags j = scope_tags i;
  sh_pending key p m : pending_relays j !! key = Some p → module_id_by_endpoint j !! key.1 = Some m →
    ∃ q, pending_relays i !! key = Some q ∧ same_grant q p ∧ module_id_by_endpoint i !! key.1 = Some m;
}.

#[global] Instance shrinks_preorder : PreOrder shrinks.
Proof.
  split.
  - intros i. split; [done|done|]. intros key p m ??. by exists p.
  - intros i j k [Hr1 Ht1 Hp1] [Hr2 Ht2 Hp2]. split; [by etrans|congruence|].
    intros key p m Hk Hm. destruct (Hp2 key p m Hk Hm) as (q & Hq & [] & Hm').
    destruct (Hp1 key q m Hq Hm') as (q' & ? & [] & ?). exists q'. split_and!; [done| |done].
    split; congruence.
Qed.

Lemma only_routes_shrinks i j :
  only_routes i j → client_to_module j ⊆ client_to_module i → shrinks i j.
Proof.
  intros (? & ? & ? & ? & ? & ->) Hc. split; [done|done|]. simpl. intros key p m ??. by exists p.
Qed.

Lemma only_relays_shrinks i j :
  only_relays i j → pending_relays j ⊆ pending_relays i → shrinks i j.
Proof.
  intros (? & ? & ? & ? & ? & ? & ->) Hp. split; [done|done|]. simpl in *. intros key p m Hk ?.
  exists p. split_and!; [by eapply lookup_weaken|done|done].
Qed.

Lemma release_client_route_shrinks i ck e : shrinks i (release_client_route i ck e).1.1.
Proof.
  apply only_routes_shrinks; [apply release_client_route_routes|].
  rewrite release_client_route_c2m. apply map_filter_subseteq.
Qed.

Lemma release_module_route_shrinks i mk e : shrinks i (release_module_route_locked i mk e).1.1.
Proof.
  apply only_routes_shrinks; [apply release_module_route_routes|].
  unfold release_module_route_locked. destruct (module_to_client i !! mk) as [r|]; [|done].
  destruct (negb _); [done|]. simpl. transitivity (delete (RouteBinding.client_key r) (client_to_module i)).
  - by destruct (RouteBinding.scope r).
  - apply delete_subseteq.
Qed.

Lemma release_module_routes_shrinks i routes : shrinks i (release_module_routes routes i).1.1.
Proof.
  rewrite release_module_routes_turns. apply (foldl_inv (λ acc, shrinks i acc.1.1)); [done|].
  intros acc entry _ Hi. rewrite release_turn_state. etrans; [exact Hi|apply release_module_route_shrinks].
Qed.

Lemma drop_relay_shrinks reply acc key : shrinks acc.1.1 (drop_relay reply acc key).1.1.
Proof.
  apply only_relays_shrinks; [apply drop_relay_relays|].
  rewrite drop_relay_pending. apply delete_subseteq.
Qed.

Lemma drain_flows_shrinks i e : shrinks i (drain_flows i e).1.
Proof.
  unfold drain_flows. apply (foldl_inv (λ acc, shrinks i acc.1)); [done|].
  intros [j n] [ck r] _ Hj. simpl in *. etrans; [exact Hj|].
  destruct (flows j !! RouteBinding.addr r) as [f|]; [|done].
  destruct (ChannelFlow.begin_drain f) as [n' f']. split; [done|done|]. intros key p m ??. by exists p.
Qed.

(** Fields no route stands on. *)
Ltac shrinks_frame :=
  let p := fresh in split; [done|done|]; simpl; intros ? p ???; by exists p.

Lemma begin_drain_shrinks i module reason : shrinks i (begin_drain i module reason).1.1.
Proof.
  unfold begin_drain. cbv zeta. set (i1 := i <| draining_endpoints := _ |>).
  assert (shrinks i i1) as H1 by shrinks_frame.
  pose proof (drain_flows_shrinks i1 (ModuleConnection.endpoint module)) as H2.
  destruct (drain_flows i1 _) as [i2 excluded]. simpl in H2.
  set (f := drop_relay _). set (keys := endpoint_keys (pending_relays i2) _).
  assert (shrinks i (foldl f (i2, [], []) keys).1.1) as H3.
  { apply (foldl_inv (λ acc, shrinks i acc.1.1)); [by etrans|].
    intros acc key _ Hacc. etrans; [exact Hacc|apply drop_relay_shrinks]. }
  destruct (foldl f _ _) as [[i3 effects] targets]. simpl in H3.
  set (keys' := endpoint_keys (pending_control_rpcs i3) _).
  pose proof (drop_control_run keys' (i3, effects)) as H4.
  destruct (foldl drop_control_rpc _ _) as [i4 effects4]. simpl in H4. subst i4.
  etrans; [exact H3|]. shrinks_frame.
Qed.

Lemma begin_daemon_drain_shrinks i : shrinks i (begin_daemon_drain i).1.
Proof.
  unfold begin_daemon_drain. destruct (daemon_draining i); [done|]. simpl.
  apply (foldl_inv (shrinks i)).
  - apply (foldl_inv (shrinks i)); [shrinks_frame|].
    intros j e _ Hj. etrans; [exact Hj|]. shrinks_frame.
  - intros j e _ Hj. etrans; [exact Hj|]. shrinks_frame.
Qed.

(** ** Connections *)

Lemma cleanup_shrinks i c : fw_ok i → shrinks i (cleanup_connection i c).1.1.
Proof.
  intros Hok. unfold cleanup_connection. cbv zeta. set (i1 := i <| closing_connections := _ |>).
  assert (fw_ok i1) as Hok1 by (by apply closing_ok).
  assert (shrinks i i1) as H1 by shrinks_frame.
  destruct (endpoint_by_connection i1 !! c) as [e|] eqn:He.
  - pose proof (remove_module_connection_spec i1 c e Hok1 He) as Hspec. cbv zeta in Hspec.
    destruct (remove_module_connection _ e) as [[i2 effects] cleanup]. destruct Hspec as [Hrem _].
    etrans; [exact H1|]. destruct Hrem as [Hok2 Hm _ Hp _ [Hid _] _ Ht]. split; simpl.
    + apply map_subseteq_spec. intros ck r Hr.
      destruct (ix_client _ _ _ _ (fw_index _ _ Hok2) ck r Hr) as [<- Hmk].
      rewrite Hm in Hmk. apply map_lookup_filter_Some in Hmk as [Hmk _].
      by destruct (ix_module _ _ _ _ (fw_index _ _ Hok1) _ _ Hmk).
    + done.
    + rewrite Hp, Hid. intros key p m [Hk Hne]%map_lookup_filter_Some [_ Hm']%lookup_delete_Some.
      by exists p.
  - pose proof (cleanup_client_connection_spec i1 c Hok1) as Hspec.
    destruct (cleanup_client_connection i1 c) as [[i2 effects] released]. destruct Hspec as [Hrem _].
    etrans; [exact H1|]. destruct Hrem as [Hok2 Hc _ Hp _ (Hid & _ & _ & Ht)]. split; simpl.
    + rewrite Hc. apply map_filter_subseteq.
    + done.
    + rewrite Hp, Hid. intros key p m [Hk _]%map_lookup_filter_Some ?. by exists p.
Qed.

(** A new endpoint has no pending bind. *)
Lemma install_shrinks i c id i' e :
  fw_ok i → check_module_connection_role i c = Ok () → install_endpoint i c id = (i', e) → shrinks i i'.
Proof.
  intros Hok Hrole Hi. destruct (check_module_connection_role_Ok i c Hrole) as [Hc _].
  unfold install_endpoint in Hi. injection Hi as <- <-. set (e0 := ModuleEndpointId.mk _ _).
  split; [done|done|]. simpl. intros key p m Hp Hm. exists p. split_and!; [done|done|].
  apply lookup_insert_Some in Hm as [[He _]|[_ ?]]; [|done].
  destruct key as [e corr]. simpl in *. subst e.
  destruct (cr_pending _ _ _ _ _ (fw_corrs _ _ Hok) _ _ _ Hp) as [[]|(n & Hn & _)].
  apply (cr_next_registered _ _ _ _ _ (fw_corrs _ _ Hok)) in Hn as [id' Hid].
  apply (nm_endpoint _ _ _ _ _ (fw_names _ _ Hok)) in Hid. simpl in Hid. congruence.
Qed.

Lemma register_shrinks i c id ver conc sink ack queued :
  fw_ok i → shrinks i (register_module_connection i c id ver conc sink ack queued).1.1.
Proof.
  intros Hok. unfold register_module_connection. destruct (_ || _); [done|].
  destruct (check_module_connection_role i c) as [[]|] eqn:Hrole; [|done].
  destruct (enqueue_hello_ack _ _ _ _); [|done].
  destruct (install_endpoint i c id) as [i' e] eqn:Hi.
  apply install_shrinks in Hi; [|done..]. etrans; [exact Hi|]. shrinks_frame.
Qed.

Lemma register_candidate_shrinks i c id ver conc sink ack queued :
  fw_ok i → shrinks i (register_candidate_module_connection i c id ver conc sink ack queued).1.1.
Proof.
  intros Hok. unfold register_candidate_module_connection. destruct (_ || _); [done|].
  destruct (check_module_connection_role i c) as [[]|] eqn:Hrole; [|done].
  destruct (is_some _); [done|]. destruct (enqueue_hello_ack _ _ _ _); [|done].
  destruct (install_endpoint i c id) as [i' e] eqn:Hi.
  apply install_shrinks in Hi; [|done..]. etrans; [exact Hi|]. shrinks_frame.
Qed.

Lemma cutover_shrinks i id : shrinks i (cutover_candidate i id).1.1.
Proof.
  unfold cutover_candidate. destruct (daemon_draining i); [done|].
  destruct (candidates_by_id i !! id); [|done].
  destruct (modules_by_id i !! id); shrinks_frame.
Qed.

(** ** Control calls *)

Lemma begin_control_rpc_ok i id module op deadline started allow :
  fw_ok i → is_Some (module_id_by_endpoint i !! ModuleConnection.endpoint module) →
  fw_ok (begin_control_rpc i id module op deadline started allow).1.1.
Proof.
  intros Hok Hid. unfold begin_control_rpc. cbv zeta. set (e := ModuleConnection.endpoint module) in *.
  destruct (negb allow && _); [done|]. destruct (bool_decide _); [done|].
  set (i1 := if is_some started then _ else i).
  assert (fw_ok i1 ∧ module_id_by_endpoint i1 = module_id_by_endpoint i) as [Hok1 Hid1].
  { unfold i1. destruct (is_some started); [|done]. split; [fw_frame|done]. }
  destruct (allocate_control_corr i1 e) as [i2 [corr|err]] eqn:Hcorr.
  2:{ by eapply allocate_control_corr_Err. }
  apply allocate_control_corr_Ok in Hcorr as (Hok2 & (next & n & -> & Hn & Hused) & Hp & Hct);
    [|done|by rewrite Hid1].
  simpl. clear Hok Hok1. fw_frame.
  - destruct fw_corrs as [Hnx Hreg Hpe Hcc]. split; [done|done|done|].
    intros e' corr' p' [[[= <- <-] _]|[? Hp']]%lookup_insert_Some; [by right; exists n|by eapply Hcc].
  - intros key Hk. rewrite lookup_insert_ne; [by apply fw_apart|]. intros <-.
    rewrite Hp in Hk. by destruct Hk.
Qed.

Lemma begin_control_rpc_shrinks i id module op deadline started allow :
  shrinks i (begin_control_rpc i id module op deadline started allow).1.1.
Proof.
  unfold begin_control_rpc, allocate_control_corr. cbv zeta.
  destruct (negb allow && _); [done|]. destruct (bool_decide _); [done|].
  destruct (is_some started); simpl; destruct (_ =? 0); shrinks_frame.
Qed.

Lemma begin_module_control_rpc_step i id op deadline started allow :
  fw_ok i →
  let i' := (begin_module_control_rpc i id op deadline started allow).1.1 in
  fw_ok i' ∧ shrinks i i'.
Proof.
  intros Hok. unfold begin_module_control_rpc. destruct (modules_by_id i !! id) as [m|] eqn:Hm; [|done].
  split; [|apply begin_control_rpc_shrinks]. apply begin_control_rpc_ok; [done|]. exists id.
  by apply (nm_active _ _ _ _ _ (fw_names _ _ Hok)).
Qed.

Lemma module_connection_registered i e m :
  fw_ok i → module_connection_for_endpoint i e = Some m →
  ModuleConnection.endpoint m = e ∧ is_Some (module_id_by_endpoint i !! e).
Proof.
  intros Hok. unfold module_connection_for_endpoint. destruct (module_id_by_endpoint i !! e) as [id|]; [|done].
  simpl. intros Hm. split; [|done]. unfold or_else in Hm.
  destruct (opt_filter _ (modules_by_id i !! id)) as [m'|] eqn:H1.
  { injection Hm as ->. apply opt_filter_Some in H1 as [_ Hd]. by apply bool_decide_eq_true in Hd. }
  destruct (opt_filter _ (candidates_by_id i !! id)) as [m'|] eqn:H2.
  { injection Hm as ->. apply opt_filter_Some in H2 as [_ Hd]. by apply bool_decide_eq_true in Hd. }
  by apply (nm_superseded _ _ _ _ _ (fw_names _ _ Hok)) in Hm as [? _].
Qed.

Lemma begin_endpoint_health_probe_rpc_step i e op started deadline :
  fw_ok i →
  let i' := (begin_endpoint_health_probe_rpc i e op started deadline).1.1 in
  fw_ok i' ∧ shrinks i i'.
Proof.
  intros Hok. unfold begin_endpoint_health_probe_rpc.
  destruct (module_connection_for_endpoint i e) as [m|] eqn:Hm; [|done].
  split; [|apply begin_control_rpc_shrinks]. apply begin_control_rpc_ok; [done|].
  apply module_connection_registered in Hm as [-> ?]; done.
Qed.

(** Calls that end leave the rest alone. *)
Lemma control_removed i ctrl :
  fw_ok i → ctrl ⊆ pending_control_rpcs i → fw_ok (i <| pending_control_rpcs := ctrl |>).
Proof.
  intros Hok Hsub. fw_frame.
  - by eapply corrs_shrink.
  - by eapply apart_shrink.
Qed.

Lemma cancel_module_control_rpc_ok i e corr : fw_ok i → fw_ok (cancel_module_control_rpc i e corr).
Proof. intros Hok. apply control_removed; [done|apply delete_subseteq]. Qed.

Lemma tombstone_health_probe_rpc_ok i e corr now :
  fw_ok i → fw_ok (tombstone_health_probe_rpc i e corr now).1.
Proof.
  intros Hok. unfold tombstone_health_probe_rpc.
  destruct (pending_control_rpcs i !! (e, corr)) as [p|]; [|done].
  destruct (PendingModuleControlRpcEntry.health_probe_started_at p); [|done]. simpl.
  pose proof (control_removed i (delete (e, corr) (pending_control_rpcs i)) Hok (delete_subseteq _ _)) as Hd.
  clear Hok. fw_frame.
Qed.

Lemma complete_module_control_rpc_ok i c corr op outcome now :
  fw_ok i → fw_ok (complete_module_control_rpc i c corr op outcome now).1.1.
Proof.
  intros Hok. unfold complete_module_control_rpc.
  destruct (endpoint_by_connection i !! c) as [e|]; [|done].
  destruct (pending_control_rpcs i !! (e, corr)) as [p|]; simpl.
  - assert (fw_ok (i <| pending_control_rpcs := delete (e, corr) (pending_control_rpcs i) |>)) as Hd
      by (apply control_removed; [done|apply delete_subseteq]).
    destruct (_ <=? now); done.
  - destruct (health_probe_tombstones i !! (e, corr)) as [t|]; [|done].
    destruct (_ <=? now); simpl; fw_frame.
Qed.

Lemma complete_module_control_rpc_shrinks i c corr op outcome now :
  shrinks i (complete_module_control_rpc i c corr op outcome now).1.1.
Proof.
  unfold complete_module_control_rpc. destruct (endpoint_by_connection i !! c) as [e|]; [|done].
  destruct (pending_control_rpcs i !! (e, corr)) as [p|]; simpl.
  - destruct (_ <=? now); shrinks_frame.
  - destruct (health_probe_tombstones i !! (e, corr)) as [t|]; [|done].
    destruct (_ <=? now); shrinks_frame.
Qed.

(** ** Requests and status *)

(** A request goes through, or ends, on the flow of a route. *)
Definition with_flow i (addr : positive) (f : ChannelFlow.t → ChannelFlow.t) : ForwardingInner :=
  i <| flows := alter f addr (flows i) |>.

Lemma with_flow_step i addr f : fw_ok i → fw_ok (with_flow i addr f) ∧ shrinks i (with_flow i addr f).
Proof. intros Hok. split; [fw_frame; by apply flows_alter|shrinks_frame]. Qed.

Lemma try_admit_request_step i r epoch corr sub :
  fw_ok i → let i' := (try_admit_request i r epoch corr sub).1 in fw_ok i' ∧ shrinks i i'.
Proof.
  intros Hok. unfold try_admit_request. destruct (_ || _); [done|].
  destruct (flows i !! RouteBinding.addr r) as [f|] eqn:Hf; [|done].
  destruct (ChannelFlow.try_acquire_tagged f corr sub) as [adm f'].
  assert (fw_ok (i <| flows := <[RouteBinding.addr r := f']> (flows i) |>)) as Hok'
    by (fw_frame; by eapply flows_insert).
  destruct adm; (split; [done|shrinks_frame]).
Qed.

Lemma cache_status_step i e ch epoch text :
  fw_ok i → let i' := (cache_status i e ch epoch text).1 in fw_ok i' ∧ shrinks i i'.
Proof.
  intros Hok. unfold cache_status. destruct (is_none _); [done|]. cbv zeta.
  destruct (match module_to_client i !! _ with Some _ => _ | None => _ end); [|done].
  split; [fw_frame|shrinks_frame].
Qed.

(** ** Binding *)

(** Routes, pending binds, published tags and module names are as they were. *)
Record same_authority i j : Prop := {
  sa_routes : client_to_module j = client_to_module i;
  sa_tags : scope_tags j = scope_tags i;
  sa_pending : pending_relays j = pending_relays i;
  sa_names : module_id_by_endpoint j = module_id_by_endpoint i;
}.

Lemma drop_scope_same i j scope : same_authority i j → same_authority i (drop_scope j scope).
Proof. intros []. by destruct scope. Qed.

Lemma same_authority_shrinks i j : same_authority i j → shrinks i j.
Proof.
  intros [Hc Ht Hp Hm]. split; [by rewrite Hc|done|]. rewrite Hp, Hm. intros key p m ??. by exists p.
Qed.

Lemma drop_scope_shrinks i scope : shrinks i (drop_scope i scope).
Proof. destruct scope; [shrinks_frame|done]. Qed.

(** A refused bind may have used up a correlation id and slots, nothing else. *)
Lemma allocate_corr_shrinks i e : shrinks i (allocate_control_corr i e).1.
Proof. unfold allocate_control_corr. cbv zeta. destruct (_ =? 0); shrinks_frame. Qed.

Lemma allocate_slots_shrinks i c e : shrinks i (allocate_route_slots i c e).1.
Proof.
  unfold allocate_route_slots. cbv zeta. set (i1 := i <| next_client_channel := _ |>).
  assert (shrinks i i1) as H1 by shrinks_frame.
  destruct (find_channel _ (client_eligible i1 c) _ _) as [cc|]; [|done].
  set (i2 := i1 <| next_module_channel := _ |>).
  assert (shrinks i i2) as H2 by (etrans; [exact H1|]; shrinks_frame).
  destruct (find_channel _ (module_eligible i2 e) _ _) as [mc|]; [|done].
  etrans; [exact H2|]. shrinks_frame.
Qed.

Section relay.
Context `{RouteOpenJson}.

(** What opening a route adds: one pending bind, to the module it names. *)
Lemma begin_route_bind_relay_grants i c sink ver corr id principal scope deadline busy :
  fw_ok i →
  let i' := (begin_route_bind_relay i c sink ver corr id principal scope deadline busy).1.1 in
  client_to_module i' = client_to_module i ∧ scope_tags i' = scope_tags i ∧
  ∀ key p m, pending_relays i' !! key = Some p → module_id_by_endpoint i' !! key.1 = Some m →
    (pending_relays i !! key = Some p ∧ module_id_by_endpoint i !! key.1 = Some m) ∨
    (PendingRouteBindRelayEntry.scope p = scope ∧
     PendingRouteBindRelayEntry.principal p = principal ∧ m = id).
Proof.
  intros Hok. unfold begin_route_bind_relay, relay_refused.
  assert (∀ j, same_authority i j → let i' := drop_scope j scope in
    client_to_module i' = client_to_module i ∧ scope_tags i' = scope_tags i ∧
    ∀ key p m, pending_relays i' !! key = Some p → module_id_by_endpoint i' !! key.1 = Some m →
      (pending_relays i !! key = Some p ∧ module_id_by_endpoint i !! key.1 = Some m) ∨
      (PendingRouteBindRelayEntry.scope p = scope ∧
       PendingRouteBindRelayEntry.principal p = principal ∧ m = id)) as Hrefused.
  { intros j Hj i'. destruct (drop_scope_same i j scope Hj) as [Hc Ht Hp Hm]. fold i' in Hc, Ht, Hp, Hm.
    rewrite Hc, Ht, Hp, Hm. auto. }
  assert (same_authority i i) as Hgood by done.
  destruct (is_some (endpoint_by_connection i !! c)); [by apply Hrefused|].
  destruct (bool_decide _); [by apply Hrefused|].
  destruct (modules_by_id i !! id) as [module|] eqn:Hid; [|by apply Hrefused].
  apply (nm_active _ _ _ _ _ (fw_names _ _ Hok)) in Hid. cbv zeta.
  set (e := ModuleConnection.endpoint module) in *.
  destruct (is_some (draining_endpoints i !! e)); [by apply Hrefused|].
  destruct (bool_decide _); [by apply Hrefused|].
  assert (same_authority i (allocate_control_corr i e).1) as Hg1.
  { unfold allocate_control_corr. cbv zeta. by destruct (_ =? 0). }
  destruct (allocate_control_corr i e) as [i1 [rc|err]]; [|by apply Hrefused].
  destruct Hg1 as [?? ??]. simpl in *.
  assert (same_authority i (allocate_route_slots i1 c e).1) as Hg2.
  { unfold allocate_route_slots. cbv zeta. set (j1 := i1 <| next_client_channel := _ |>).
    destruct (find_channel _ (client_eligible j1 c) _ _) as [cc|]; [|done].
    set (j2 := j1 <| next_module_channel := _ |>).
    by destruct (find_channel _ (module_eligible j2 e) _ _) as [mc|]. }
  destruct (allocate_route_slots i1 c e) as [i2 [[[[cc ce] mc] me]|err]]; [|by apply Hrefused].
  destruct (build_route_open _ _ _ _ _ _ _) as [frame|err]; [|by apply Hrefused].
  destruct Hg2 as [Hc Ht Hp Hm]. simpl in *. rewrite Hc, Ht, Hp, Hm.
  split_and!; [done|done|]. intros key p m [[<- <-]|[? Hk]]%lookup_insert_Some Hmk; [|by left].
  right. simpl in *. split_and!; [done|done|congruence].
Qed.

Lemma mark_shrinks i e corr : shrinks i (mark_route_bind_relay_enqueued i e corr).1.
Proof.
  unfold mark_route_bind_relay_enqueued. destruct (pending_relays i !! (e, corr)) as [p|] eqn:Hp.
  - split; [done|done|]. simpl. intros key q m [[<- <-]|[? Hk]]%lookup_insert_Some Hm.
    + by exists p.
    + by exists q.
  - case_decide; [shrinks_frame|done].
Qed.

Lemma drop_pending_shrinks i key p :
  pending_relays i !! key = Some p →
  shrinks i (release_reservation (i <| pending_relays := delete key (pending_relays i) |>) p).
Proof.
  intros Hp. set (i1 := i <| pending_relays := _ |>).
  assert (only_relays i i1) as Honly by only_relays.
  apply only_relays_shrinks.
  - etrans; [exact Honly|]. etrans; [apply release_reserved_relays|apply drop_scope_relays].
  - unfold release_reservation. rewrite drop_scope_pending, release_reserved_pending. apply delete_subseteq.
Qed.

Lemma abort_shrinks i e corr outcome : shrinks i (abort_pending_relay i e corr outcome).1.1.
Proof.
  unfold abort_pending_relay. destruct (pending_relays i !! (e, corr)) as [p|] eqn:Hp.
  - by apply drop_pending_shrinks.
  - shrinks_frame.
Qed.

(** A pending bind became a route: its scope was published as it was admitted. *)
Record route_committed i key p i' : Prop := {
  rcm_pending : pending_relays i !! key = Some p;
  rcm_scope b : PendingRouteBindRelayEntry.scope p = Some b → scope_refusal i b = None;
  rcm_tags : scope_tags i' = scope_tags i;
  rcm_relays k q m : pending_relays i' !! k = Some q → module_id_by_endpoint i' !! k.1 = Some m →
    pending_relays i !! k = Some q ∧ module_id_by_endpoint i !! k.1 = Some m;
  rcm_route : ∃ r m, client_to_module i' = <[RouteBinding.client_key r := r]> (client_to_module i) ∧
    module_id_by_endpoint i !! key.1 = Some m ∧ RouteBinding.module_id r = m ∧
    RouteBinding.scope r = PendingRouteBindRelayEntry.scope p ∧
    RouteBinding.principal r = PendingRouteBindRelayEntry.principal p ∧
    RouteBinding.client_epoch r
    = RouteReservation.client_epoch (PendingRouteBindRelayEntry.reservation p) ∧
    RouteBinding.client_key r
    = RouteReservation.client_key (PendingRouteBindRelayEntry.reservation p);
}.

Lemma shrinks_without_pending i key :
  shrinks i (i <| pending_relays := delete key (pending_relays i) |>).
Proof. apply only_relays_shrinks; [only_relays|apply delete_subseteq]. Qed.

Lemma unreserved_shrinks i rc rm :
  shrinks i (i <| reserved_client := rc |> <| reserved_module := rm |>).
Proof. shrinks_frame. Qed.

(** Publishing either makes the route or leaves things as they were. *)
Lemma publish_route_cases i key p m module frame closed now :
  client_to_module i !! RouteReservation.client_key (PendingRouteBindRelayEntry.reservation p) = None →
  let i' := (publish_route i key p m module frame closed now).1.1 in
  same_authority (if closed then i else
    i <| client_to_module :=
           <[RouteReservation.client_key (PendingRouteBindRelayEntry.reservation p) :=
               binding_of p (next_addr i) m module now]> (client_to_module i) |>) i'.
Proof.
  intros Hnone. unfold publish_route. cbv zeta.
  set (b := binding_of p (next_addr i) m module now).
  destruct closed, (RouteBinding.scope b); split; simpl; rewrite ?delete_insert_id by done; done.
Qed.

Lemma commit_route_cases i key p closed now :
  client_to_module i !! RouteReservation.client_key (PendingRouteBindRelayEntry.reservation p) = None →
  ModuleRouteKey.endpoint
    (RouteReservation.module_key (PendingRouteBindRelayEntry.reservation p)) = key.1 →
  let i' := (commit_route i key p closed now).1.1 in
  same_authority i i' ∨
  ∃ m module, module_id_by_endpoint i !! key.1 = Some m ∧
    same_authority
      (i <| client_to_module :=
              <[RouteReservation.client_key (PendingRouteBindRelayEntry.reservation p) :=
                  binding_of p (next_addr i) m module now]> (client_to_module i) |>) i'.
Proof.
  intros Hnone Hend. unfold commit_route. cbv zeta. rewrite Hend.
  destruct (bool_decide _); [left; by apply drop_scope_same|].
  destruct (module_id_by_endpoint i !! key.1) as [m|] eqn:Hm; [|left; by apply drop_scope_same].
  destruct (is_some _); [left; by apply drop_scope_same|].
  destruct (commit_frame p) as [frame|err]; [|left; by apply drop_scope_same].
  destruct (negb _); [left; by apply drop_scope_same|].
  set (j := i <| reserved_client := _ |>). cbv zeta.
  destruct (negb _); [left; by apply drop_scope_same|].
  destruct (opt_filter _ _) as [module|]; [|left; by apply drop_scope_same].
  set (j' := j <| reserved_module := _ |>).
  pose proof (publish_route_cases j' key p m module frame closed now Hnone) as Hpub.
  destruct (publish_route _ _ _ _ _ _ _ _) as [[i' effects] abandoned]. simpl in *.
  destruct closed; [left; by destruct Hpub|right]. exists m, module. split; [done|]. by destruct Hpub.
Qed.

Lemma complete_pending_relay_cases i c corr outcome sink_closed writer_closed now :
  fw_ok i →
  let i' := (complete_pending_relay i c corr outcome sink_closed writer_closed now).1.1 in
  shrinks i i' ∨ ∃ key p, route_committed i key p i'.
Proof.
  intros Hok. unfold complete_pending_relay.
  destruct (endpoint_by_connection i !! c) as [e|] eqn:He; [|by left].
  destruct (pending_relays i !! (e, corr)) as [p|] eqn:Hp; [|by left]. cbv zeta.
  pose proof (drop_pending_shrinks i (e, corr) p Hp) as Hdrop.
  destruct (_ <=? now); [by left; destruct outcome|]. destruct outcome; [|by left..].
  destruct (sink_closed || _); [by left|]. destruct (is_some _ || _); [by left|].
  destruct (_ ≫= _) as [code|] eqn:Hscope; [by left|].
  destruct (take_pending_ok i (e, corr) p Hok Hp) as [Hok' Htaken]. cbv zeta in *.
  set (i1 := i <| pending_relays := _ |>) in *.
  destruct (ep_pending _ _ _ _ _ _ (fw_epochs _ _ Hok) _ _ Hp) as [Hend [[]|(Hres & _ & _)]].
  destruct (ix_reserved_client _ _ _ _ (fw_index _ _ Hok) _ _ Hres) as [_ Hnone].
  pose proof (commit_route_cases i1 (e, corr) p writer_closed now Hnone Hend) as Hcases.
  destruct (commit_route i1 (e, corr) p writer_closed now) as [[i' effects] res]. cbn [fst snd] in *.
  assert (∀ R : ForwardingInner → Prop, R i' → R (match res with
    | Ok abandoned => (i', effects, Ok (mkPendingRelayCompletion true abandoned))
    | Err e => (i', effects, Err e) end).1.1) as Hres' by (by destruct res).
  destruct Hcases as [Hsame|(m & module & Hmid & [Hc Ht Hpe Hm])]; [left|right; exists (e, corr), p];
    apply Hres'.
  - etrans; [apply shrinks_without_pending|by apply same_authority_shrinks].
  - split; [done| |done| |].
    + intros b Hb. by rewrite Hb in Hscope.
    + rewrite Hpe, Hm. simpl. by intros k q m' [_ ?]%lookup_delete_Some ?.
    + exists (binding_of p (next_addr i1) m module now), m. split_and!; try done.
      * rewrite Hc. f_equal. unfold RouteBinding.client_key; simpl.
        by destruct (RouteReservation.client_key _).
      * unfold RouteBinding.client_key; simpl. by destruct (RouteReservation.client_key _).
Qed.

(** What lets a module's acceptance become a route. *)
Record acceptable i e p outcome (sink_closed writer_closed : bool) (now : Z) : Prop := {
  ac_outcome : outcome = Accepted;
  ac_in_time : now < PendingRouteBindRelayEntry.deadline p;
  ac_queues : sink_closed = false ∧ writer_closed = false;
  ac_client : ClientRouteKey.connection_id
    (RouteReservation.client_key (PendingRouteBindRelayEntry.reservation p)) ∉ closing_connections i;
  ac_module : superseded_endpoints i !! e = None ∧ draining_endpoints i !! e = None;
  ac_scope b : PendingRouteBindRelayEntry.scope p = Some b →
    scope_tags i !! (BoundScope.owner b, BoundScope.scope_ref b) = Some (BoundScope.tag b);
}.

(** The opener is told [Accepted] exactly when the route is there. *)
Definition told_truly i' key p (effects : list Effect) : Prop :=
  RelayReply key Accepted ∈ effects ↔
  is_Some (client_to_module i' !! RouteReservation.client_key (PendingRouteBindRelayEntry.reservation p)).

Lemma told_refused i' key p effects :
  client_to_module i' !! RouteReservation.client_key (PendingRouteBindRelayEntry.reservation p) = None →
  RelayReply key Accepted ∉ effects → told_truly i' key p effects.
Proof. intros Hnone Hno. unfold told_truly. rewrite Hnone. split; [done|by intros []]. Qed.

Lemma commit_route_told i key p closed now :
  client_to_module i !! RouteReservation.client_key (PendingRouteBindRelayEntry.reservation p) = None →
  let '(i', effects, res) := commit_route i key p closed now in
  pending_relays i' = pending_relays i ∧ told_truly i' key p effects ∧
  (is_Some (client_to_module i' !! RouteReservation.client_key (PendingRouteBindRelayEntry.reservation p)) →
   closed = false).
Proof.
  intros Hnone. unfold commit_route. cbv zeta.
  set (ck := RouteReservation.client_key (PendingRouteBindRelayEntry.reservation p)) in *.
  assert (∀ j, pending_relays j = pending_relays i → client_to_module j = client_to_module i →
    pending_relays (drop_scope j (PendingRouteBindRelayEntry.scope p)) = pending_relays i ∧
    told_truly (drop_scope j (PendingRouteBindRelayEntry.scope p)) key p [] ∧
    (is_Some (client_to_module (drop_scope j (PendingRouteBindRelayEntry.scope p)) !! ck) →
     closed = false)) as Hrefused.
  { intros j Hp Hc.
    assert (client_to_module (drop_scope j (PendingRouteBindRelayEntry.scope p)) !! ck = None) as Hn
      by (destruct (PendingRouteBindRelayEntry.scope p); simpl; by rewrite Hc).
    split_and!; [by destruct (PendingRouteBindRelayEntry.scope p)| |rewrite Hn; by intros []].
    apply told_refused; [done|set_solver]. }
  destruct (bool_decide _); [by apply Hrefused|].
  destruct (module_id_by_endpoint i !! _) as [m|]; [|by apply Hrefused].
  destruct (is_some _); [by apply Hrefused|].
  destruct (commit_frame p) as [frame|err]; [|by apply Hrefused].
  destruct (negb _); [by apply Hrefused|]. destruct (negb _); [by apply Hrefused|].
  destruct (opt_filter _ _) as [module|]; [|by apply Hrefused].
  unfold publish_route. cbv zeta. destruct closed; simpl.
  - destruct (PendingRouteBindRelayEntry.scope p); simpl; (split; [done|]);
      (split; [apply told_refused; simpl; [apply lookup_delete_eq|set_solver]|]); fold ck;
      rewrite lookup_delete_eq; by intros [].
  - destruct (PendingRouteBindRelayEntry.scope p); simpl; (split; [done|]); (split; [|done]);
      unfold told_truly; simpl; fold ck; rewrite lookup_insert_eq; (split; [eauto|set_solver]).
Qed.

Lemma complete_pending_relay_told i c corr outcome sink_closed writer_closed now e p :
  fw_ok i → endpoint_by_connection i !! c = Some e → pending_relays i !! (e, corr) = Some p →
  let '(i', effects, res) := complete_pending_relay i c corr outcome sink_closed writer_closed now in
  pending_relays i' = delete (e, corr) (pending_relays i) ∧ told_truly i' (e, corr) p effects ∧
  (is_Some (client_to_module i' !! RouteReservation.client_key (PendingRouteBindRelayEntry.reservation p)) →
   acceptable i e p outcome sink_closed writer_closed now).
Proof.
  intros Hok He Hp. unfold complete_pending_relay. rewrite He, Hp. cbv zeta.
  set (i1 := i <| pending_relays := _ |>).
  destruct (ep_pending _ _ _ _ _ _ (fw_epochs _ _ Hok) _ _ Hp) as [Hend [[]|(Hres & _ & _)]].
  destruct (ix_reserved_client _ _ _ _ (fw_index _ _ Hok) _ _ Hres) as [_ Hnone].
  set (ck := RouteReservation.client_key (PendingRouteBindRelayEntry.reservation p)) in *.
  assert (∀ reply P, reply ≠ Accepted →
    let i' := release_reservation i1 p in
    pending_relays i' = delete (e, corr) (pending_relays i) ∧
    told_truly i' (e, corr) p [RelayReply (e, corr) reply] ∧ (is_Some (client_to_module i' !! ck) → P))
    as Hrefused.
  { intros reply P Hr. cbv zeta. unfold release_reservation.
    assert (client_to_module (drop_scope (release_reserved_route i1 ck
      (RouteReservation.module_key (PendingRouteBindRelayEntry.reservation p)))
      (PendingRouteBindRelayEntry.scope p)) !! ck = None) as Hn.
    { destruct (PendingRouteBindRelayEntry.scope p); simpl; unfold release_reserved_route;
        simpl; by repeat case_decide. }
    rewrite drop_scope_pending, release_reserved_pending.
    split_and!; [done| |fold ck; rewrite Hn; by intros []].
    apply told_refused; [done|]. intros [[= <-]|?%not_elem_of_nil]%elem_of_cons; done. }
  destruct (_ <=? now) eqn:Hdl; [by destruct outcome; apply Hrefused|]. apply Z.leb_gt in Hdl.
  destruct outcome; [|by apply Hrefused..].
  destruct (sink_closed || _) eqn:Hq; [by apply Hrefused|]. apply orb_false_iff in Hq as [-> Hcl].
  apply bool_decide_eq_false in Hcl.
  destruct (is_some _ || _) eqn:Hm; [by apply Hrefused|]. apply orb_false_iff in Hm as [Hsup Hdr].
  destruct (_ ≫= _) as [code|] eqn:Hscope; [by apply Hrefused|].
  pose proof (commit_route_told i1 (e, corr) p writer_closed now Hnone) as Hcom.
  destruct (commit_route i1 (e, corr) p writer_closed now) as [[i' effects] res].
  destruct Hcom as (Hp' & Htold & Hopen).
  change (superseded_endpoints i1) with (superseded_endpoints i) in Hsup.
  change (draining_endpoints i1) with (draining_endpoints i) in Hdr.
  assert (writer_closed = false → acceptable i e p Accepted false writer_closed now) as Hacc.
  { intros ->. split; [done|done|done|done| |].
    - by destruct (superseded_endpoints i !! e), (draining_endpoints i !! e).
    - intros b Hb. rewrite Hb in Hscope. simpl in Hscope. unfold scope_refusal in Hscope.
      change (scope_tags i1) with (scope_tags i) in Hscope.
      destruct (scope_tags i !! _) as [tag|]; [|done].
      destruct (decide (tag = _)) as [->|]; [done|by destruct (_ =? _)]. }
  destruct res; split_and!; auto.
Qed.
End relay.

(** ** Publishing scope changes *)

Lemma drain_route_state acc entry :
  (drain_route acc entry).1.1 = (release_client_route acc.1.1 entry.1.1 entry.1.2).1.1.
Proof.
  destruct acc as [[i effects] drained], entry as [[ck e] reason]. simpl.
  destruct (client_to_module i !! ck) as [r|] eqn:Hr.
  - by destruct (release_client_route i ck e) as [[j e'] []].
  - unfold release_client_route. by rewrite Hr.
Qed.

Lemma drain_routes_run entries acc :
  let acc' := foldl drain_route acc entries in
  (∀ gone, fw_upto gone acc.1.1 → fw_upto gone acc'.1.1) ∧
  only_routes acc.1.1 acc'.1.1 ∧
  client_to_module acc'.1.1
  = filter (λ x, (x.1, RouteBinding.client_epoch x.2) ∉ entries.*1) (client_to_module acc.1.1).
Proof.
  revert acc. induction entries as [|entry entries IH]; intros acc; cbn [foldl].
  { split_and!; [done..|]. symmetry. apply map_filter_id. intros ?? _. apply not_elem_of_nil. }
  destruct (IH (drain_route acc entry)) as (Hok & Honly & Hc). rewrite drain_route_state in *.
  split_and!.
  - intros gone Hg. by apply Hok, release_client_route_ok.
  - etrans; [apply release_client_route_routes|done].
  - rewrite Hc, release_client_route_c2m, map_filter_filter. apply map_filter_ext.
    intros k v _. destruct entry as [[ck e] reason]. simpl. rewrite not_elem_of_cons. tauto.
Qed.

(** The routes a list of changes closes. *)
Definition closed_by i (changes : list ScopeTagChange.t) : list (ClientRouteKey.t * Z * RouteCloseReason.t) :=
  omap (λ e : ClientRouteKey.t * RouteBinding.t,
          (λ reason, (e.1, RouteBinding.client_epoch e.2, reason)) <$> closing_reason changes e.2)
    (hash_iter (client_to_module i)).

Lemma elem_of_closed_by i changes ck r :
  client_to_module i !! ck = Some r →
  (ck, RouteBinding.client_epoch r) ∈ (closed_by i changes).*1 ↔ is_Some (closing_reason changes r).
Proof.
  intros Hr. unfold closed_by. rewrite list_elem_of_fmap. split.
  - intros ([[ck1 e1] reason] & [= <- <-] & ([ck2 r'] & Hin%elem_of_hash_iter & Heq)%list_elem_of_omap).
    simpl in Heq. destruct (closing_reason changes r') as [reason'|] eqn:Hreason; [|done].
    injection Heq as -> ? ->. simpl in Hin. rewrite Hr in Hin. injection Hin as <-. by rewrite Hreason.
  - intros [reason Hreason]. exists (ck, RouteBinding.client_epoch r, reason). split; [done|].
    apply list_elem_of_omap. exists (ck, r). split; [by apply elem_of_hash_iter|]. simpl. by rewrite Hreason.
Qed.

Lemma publish_scope_changes_spec i changes :
  let i' := (publish_scope_changes i changes).1.1 in
  (fw_ok i → fw_ok i') ∧
  client_to_module i' = filter (λ x, closing_reason changes x.2 = None) (client_to_module i) ∧
  scope_tags i' = foldl publish_tag (scope_tags i) changes ∧
  pending_relays i' = pending_relays i ∧ module_id_by_endpoint i' = module_id_by_endpoint i.
Proof.
  unfold publish_scope_changes. cbv zeta. set (i1 := i <| scope_tags := _ |>).
  fold (closed_by i1 changes).
  destruct (drain_routes_run (closed_by i1 changes) (i1, [], [])) as (Hok & Honly & Hc). cbn [fst snd] in *.
  split_and!.
  - intros Hi. apply Hok. unfold i1. fw_frame.
  - rewrite Hc. apply map_filter_ext. intros ck r Hr. simpl.
    rewrite elem_of_closed_by by exact Hr. by rewrite eq_None_not_Some.
  - by destruct Honly as (? & ? & ? & ? & ? & ->).
  - by destruct Honly as (? & ? & ? & ? & ? & ->).
  - by destruct Honly as (? & ? & ? & ? & ? & ->).
Qed.
End world.
