(* ===== verification/ForwardingDrains.v ===== *)
(** * Draining an endpoint

    What [begin_drain] leaves: the endpoint is marked, the flows of its routes
    are closed, and every bind or call waiting on it has its answer. *)

From S2P Require Import Prelude Collections Envelope Tokens ScopeTypes Scopes ScopeDrains.
From S2P Require Import Flow Forwarding ForwardingSlots ForwardingInvariant ForwardingOps.
From S2P Require Import ForwardingCleanup ForwardingWorld.

Section drains.
Context `{Semaphore} `{HashOrder}.
Implicit Types (i j : ForwardingInner).

(** A flow that stopped taking requests. *)
Definition flow_closed i (addr : positive) : Prop :=
  ∃ f, flows i !! addr = Some f ∧ ChannelFlow.closed f = true.

(** One route of the drain's sweep over the flows. *)
Definition drain_turn (acc : ForwardingInner * Z) (e : ClientRouteKey.t * RouteBinding.t)
    : ForwardingInner * Z :=
  match flows acc.1 !! RouteBinding.addr e.2 with
  | Some flow =>
      let '(n, flow) := ChannelFlow.begin_drain flow in
      (acc.1 <| flows := <[RouteBinding.addr e.2 := flow]> (flows acc.1) |>,
       CreditLedger.saturating_add32 acc.2 n)
  | None => acc
  end.

Lemma drain_flows_turns i e :
  drain_flows i e
  = foldl drain_turn (i, 0)
      (filter (λ x, RouteBinding.module_endpoint x.2 = e) (hash_iter (client_to_module i))).
Proof.
  unfold drain_flows. generalize (i, 0). induction (filter _ _) as [|[ck r] l IH]; intros [j n]; [done|].
  cbn [foldl]. rewrite IH. done.
Qed.

(** The turn sets one flow, to a closed one. *)
Lemma drain_turn_spec acc e :
  (drain_turn acc e).1 = acc.1 <| flows := flows (drain_turn acc e).1 |> ∧
  (is_Some (flows acc.1 !! RouteBinding.addr e.2) → flow_closed (drain_turn acc e).1 (RouteBinding.addr e.2)) ∧
  (∀ a, is_Some (flows acc.1 !! a) → is_Some (flows (drain_turn acc e).1 !! a)) ∧
  (∀ a, flow_closed acc.1 a → flow_closed (drain_turn acc e).1 a).
Proof.
  unfold drain_turn. destruct (flows acc.1 !! RouteBinding.addr e.2) as [f|] eqn:Hf.
  - unfold flow_closed. simpl. split; [done|]. split; [|split].
    + intros _. rewrite lookup_insert_eq. eauto.
    + intros a. destruct (decide (RouteBinding.addr e.2 = a)) as [<-|?].
      * rewrite lookup_insert_eq. eauto.
      * by rewrite lookup_insert_ne.
    + intros a (g & Hg & Hc). destruct (decide (RouteBinding.addr e.2 = a)) as [<-|?].
      * rewrite lookup_insert_eq. eauto.
      * rewrite lookup_insert_ne by done. eauto.
  - split; [by destruct (acc.1)|]. split; [by intros []|done].
Qed.

Lemma drain_flows_spec i e :
  flows_ok (client_to_module i) (flows i) (next_addr i) →
  let i' := (drain_flows i e).1 in
  i' = i <| flows := flows i' |> ∧
  ∀ ck r, client_to_module i !! ck = Some r → RouteBinding.module_endpoint r = e →
          flow_closed i' (RouteBinding.addr r).
Proof.
  intros Hfl. rewrite drain_flows_turns. cbv zeta.
  set (entries := filter _ _).
  destruct (foldl_each
    (λ acc : ForwardingInner * Z, acc.1 = i <| flows := flows acc.1 |> ∧
       ∀ x, x ∈ entries → is_Some (flows acc.1 !! RouteBinding.addr x.2))
    (λ x acc, flow_closed acc.1 (RouteBinding.addr x.2)) drain_turn entries (i, 0)) as [[Hframe _] Hall].
  - split; [by destruct i|]. intros [ck r] [_ Hin%elem_of_hash_iter]%list_elem_of_filter.
    by apply (fl_bound _ _ _ Hfl ck r).
  - intros acc x Hx [Hacc Hlive]. destruct (drain_turn_spec acc x) as (Hfr & Hcl & Hkeep & _).
    split; [split|by apply Hcl, Hlive].
    + rewrite Hfr, Hacc. done.
    + intros y Hy. by apply Hkeep, Hlive.
  - intros acc x y _. apply drain_turn_spec.
  - split; [exact Hframe|]. intros ck r Hr He. apply (Hall (ck, r)).
    apply list_elem_of_filter. split; [done|]. by apply elem_of_hash_iter.
Qed.

Lemma drop_control_replies keys acc :
  (∀ key, key ∈ keys → is_Some (pending_control_rpcs acc.1 !! key) →
          ControlReply key ControlModuleGone ∈ (foldl drop_control_rpc acc keys).2).
Proof.
  revert acc. induction keys as [|key keys IH]; intros acc key' Hin Hsome; [set_solver|]. cbn [foldl].
  destruct (decide (key' = key)) as [->|Hne].
  - apply (drop_control_effects keys (drop_control_rpc acc key)).
    destruct acc as [i effects], Hsome as [p Hp]. simpl in *. rewrite Hp. set_solver.
  - apply IH; [set_solver|]. rewrite drop_control_turn. simpl. by rewrite lookup_delete_ne.
Qed.

(** What draining an endpoint leaves. *)
Record endpoint_drained i e reason i' (effects : list Effect) : Prop := {
  dn_draining : draining_endpoints i' = <[e := reason]> (draining_endpoints i);
  dn_routes : client_to_module i' = client_to_module i;
  dn_modules : modules_by_id i' = modules_by_id i;
  dn_closed ck r : client_to_module i !! ck = Some r → RouteBinding.module_endpoint r = e →
    flow_closed i' (RouteBinding.addr r);
  dn_pending : pending_relays i' = filter (λ x, x.1.1 ≠ e) (pending_relays i);
  dn_control : pending_control_rpcs i' = filter (λ x, x.1.1 ≠ e) (pending_control_rpcs i);
  dn_replies key : is_Some (pending_relays i !! key) → key.1 = e →
    RelayReply key (DaemonRejected error_codes.MODULE_RELOADING) ∈ effects;
  dn_control_replies key : is_Some (pending_control_rpcs i !! key) → key.1 = e →
    ControlReply key ControlModuleGone ∈ effects;
}.

Lemma begin_drain_spec i m reason :
  fw_ok i →
  let '(i', effects, target) := begin_drain i m reason in
  endpoint_drained i (ModuleConnection.endpoint m) reason i' effects.
Proof.
  intros Hok. unfold begin_drain. cbv zeta. set (e := ModuleConnection.endpoint m).
  set (i1 := i <| draining_endpoints := _ |>).
  assert (fw_ok i1) as Hok1 by (unfold i1; fw_frame).
  pose proof (drain_flows_ok _ i1 e Hok1) as Hok2.
  destruct (drain_flows_spec i1 e (fw_flows _ _ Hok1)) as [Hfr2 Hcl2]. cbv zeta in *.
  destruct (drain_flows i1 e) as [i2 excluded]. cbn [fst] in *.
  remember (flows i2) as fl eqn:Hfl. clear Hfl. subst i2. set (i2 := i1 <| flows := fl |>) in *.
  set (keys := endpoint_keys (pending_relays i2) e).
  destruct (drop_relay_run _ (DaemonRejected error_codes.MODULE_RELOADING) keys (i2, [], []) Hok2)
    as (_ & Honly & Hp3 & _ & _ & Hrep). cbn [fst snd] in *.
  destruct (foldl _ (i2, [], []) keys) as [[i3 effects3] targets]. cbn [fst snd] in *.
  set (calls := endpoint_keys (pending_control_rpcs i3) e).
  pose proof (drop_control_run calls (i3, effects3)) as Hi4.
  pose proof (drop_control_effects calls (i3, effects3)) as Heff4.
  pose proof (drop_control_replies calls (i3, effects3)) as Hcrep.
  destruct (foldl drop_control_rpc (i3, effects3) calls) as [i4 effects4]. cbn [fst snd] in *.
  assert (pending_control_rpcs i3 = pending_control_rpcs i) as Hc3
    by (by destruct Honly as (? & ? & ? & ? & ? & ? & ->)).
  rewrite Hi4. destruct Honly as (rc & rm & pend & rel & st & h & Hi3).
  split; simpl; rewrite ?Hi3; try done.
  - rewrite Hi3 in Hp3. simpl in Hp3. rewrite Hp3. apply filter_endpoint_keys.
  - unfold calls. rewrite Hc3. apply filter_endpoint_keys.
  - intros key Hk Hke. apply Heff4, Hrep; [|done]. by apply elem_of_endpoint_keys.
  - intros key Hk Hke. apply Hcrep; [apply elem_of_endpoint_keys|]; by rewrite Hc3.
Qed.

(** No bind to an endpoint that drains is begun. *)
Lemma draining_refuses_bind `{RouteOpenJson} i m id c sink ver corr principal scope deadline busy :
  modules_by_id i !! id = Some m → is_Some (draining_endpoints i !! ModuleConnection.endpoint m) →
  ∃ err, (begin_route_bind_relay i c sink ver corr id principal scope deadline busy).2 = Err err.
Proof.
  intros Hm [reason Hd]. unfold begin_route_bind_relay, relay_refused.
  destruct (is_some (endpoint_by_connection i !! c)); [eauto|].
  destruct (bool_decide _); [eauto|]. rewrite Hm. simpl. rewrite Hd. simpl. eauto.
Qed.
End drains.

(** ** Lookups *)

Section lookups.
Context `{Semaphore} `{HashOrder}.
Implicit Types (i : ForwardingInner) (r : RouteBinding.t).

(** A lookup finds exactly the bound route with that handle. *)
Lemma lookup_client_handle i c ch e r :
  fw_ok i → lookup_data_route i c ch e = ClientSide (DataRouteState.Bound r) →
  (c, ch, e) = (RouteBinding.client_connection_id r, RouteBinding.client_channel r,
                RouteBinding.client_epoch r) ∧
  client_to_module i !! ClientRouteKey.mk c ch = Some r.
Proof.
  intros Hok. unfold lookup_data_route. destruct (endpoint_by_connection i !! c) as [ep|]; [done|].
  destruct (client_to_module i !! _) as [r'|] eqn:Hr; [|by repeat case_match].
  destruct (_ =? e) eqn:He; [|done]. apply Z.eqb_eq in He. intros [= ->].
  destruct (ix_client _ _ _ _ (fw_index _ _ Hok) _ r Hr) as [Hk _]. injection Hk as <- <-.
  split; [congruence|done].
Qed.

Lemma lookup_module_handle i c ch e r :
  fw_ok i → lookup_data_route i c ch e = ModuleSide (DataRouteState.Bound r) →
  (c, ch, e) = (ModuleEndpointId.connection_id (RouteBinding.module_endpoint r),
                RouteBinding.module_channel r, RouteBinding.module_epoch r) ∧
  module_to_client i !! RouteBinding.module_key r = Some r.
Proof.
  intros Hok. unfold lookup_data_route. destruct (endpoint_by_connection i !! c) as [ep|] eqn:Hc; [|done].
  destruct (module_to_client i !! _) as [r'|] eqn:Hr; [|by repeat case_match].
  destruct (_ =? e) eqn:He; [|done]. apply Z.eqb_eq in He. intros [= ->].
  destruct (nm_connection _ _ _ _ _ (fw_names _ _ Hok) c ep Hc) as [Hce _].
  destruct (ix_module _ _ _ _ (fw_index _ _ Hok) _ r Hr) as [Hk _]. rewrite Hk. injection Hk as -> ->.
  split; [congruence|done].
Qed.

Lemma lookup_client_bound i r :
  fw_ok i →
  lookup_data_route i (RouteBinding.client_connection_id r) (RouteBinding.client_channel r)
    (RouteBinding.client_epoch r) = ClientSide (DataRouteState.Bound r) ↔
  client_to_module i !! RouteBinding.client_key r = Some r.
Proof.
  intros Hok. split.
  - intros [_ Hl]%lookup_client_handle; done.
  - intros Hr. unfold lookup_data_route. fold (RouteBinding.client_key r). rewrite Hr.
    destruct (route_endpoint i _ r Hok Hr) as [_ Hc]. simpl in Hc. by rewrite Hc, Z.eqb_refl.
Qed.

Lemma lookup_module_bound i r :
  fw_ok i →
  lookup_data_route i (ModuleEndpointId.connection_id (RouteBinding.module_endpoint r))
    (RouteBinding.module_channel r) (RouteBinding.module_epoch r) = ModuleSide (DataRouteState.Bound r) ↔
  client_to_module i !! RouteBinding.client_key r = Some r.
Proof.
  intros Hok. split.
  - intros [_ Hl]%lookup_module_handle; [|done]. by apply (ix_module _ _ _ _ (fw_index _ _ Hok)) in Hl as [_ ?].
  - intros Hr. unfold lookup_data_route. destruct (route_endpoint i _ r Hok Hr) as [-> _].
    fold (RouteBinding.module_key r).
    destruct (ix_client _ _ _ _ (fw_index _ _ Hok) _ r Hr) as [_ ->]. by rewrite Z.eqb_refl.
Qed.
End lookups.
