(* ===== verification/ScopeEffects.v ===== *)
(** * Versions, tags and revocation across a change

    A version is never reused for other content, so an unchanged tag means
    unchanged content; and a change that revokes a route closes it. *)

From S2P Require Import Prelude Collections Envelope Tokens ScopeTypes Scopes.
From S2P Require Import ScopeTombstones ScopeLinks ScopeSettle ScopeSync ScopeRefresh.
From S2P Require Import ScopeInvariant ScopeGraph ScopeTableOk ScopeSweep ScopeTags ScopeDrains.

(** The live scopes of the table. *)
Definition live_keys (t : ScopeTable) : gset (string * string) := list_to_set (view t None).

Lemma elem_of_live_keys t k : k ∈ live_keys t ↔ is_Some (scope_at t k).
Proof.
  unfold live_keys. rewrite elem_of_list_to_set. destruct k as [o x]. split.
  - unfold view; simpl. intros ([o' st] & Hin & Ho)%list_elem_of_bind.
    apply list_elem_of_fmap in Hin as ([x' s] & [= -> ->] & Hx). simpl in Hx.
    apply elem_of_map_to_list in Ho, Hx. unfold scope_at; simpl. rewrite Ho; simpl. by eexists.
  - intros [s Hs]. eapply (lookup_view t None _ _ (LiveScope.record s)).
    rewrite lookup_scope_at, Hs. done.
Qed.

Lemma live_keys_dom t t' :
  (∀ k, is_Some (scope_at t k) ↔ is_Some (scope_at t' k)) → live_keys t = live_keys t'.
Proof. intros Hk. apply set_eq. intros k. by rewrite !elem_of_live_keys. Qed.

(** Every version handed out so far is at most the counter. *)
Definition versions_ok (t : ScopeTable) : Prop :=
  0 ≤ last_version t ∧ ∀ k s, scope_at t k = Some s → LiveScope.version s ≤ last_version t.

(** ** Versions across link updates *)

Lemma apply_link_updates_versions us t tc :
  NoDup us.*1 → (∀ u, u ∈ us → is_Some (scope_at t u.1)) →
  0 ≤ last_version t → last_version t + Z.of_nat (length us) < 2 ^ 64 →
  let t' := (foldl apply_link_update (t, tc) us).1 in
  last_version t' = last_version t + Z.of_nat (length us) ∧
  ∀ k s', scope_at t' k = Some s' →
    scope_at t k = Some s' ∨ last_version t < LiveScope.version s' ≤ last_version t'.
Proof.
  revert t tc; induction us as [|[k st] us IH]; intros t tc Hnd Hlive H0 Hroom t'; cbn [foldl] in t'.
  { unfold t'; simpl. split; [lia|]. intros. by left. }
  rewrite fmap_cons, NoDup_cons in Hnd. destruct Hnd as [Hk Hnd]. cbn [fst length] in *.
  destruct (Hlive (k, st)) as [s Hs]; [set_solver|]. cbn [fst] in Hs.
  pose proof (apply_link_update_spec t tc k st s Hs) as Hone.
  destruct (apply_link_update (t, tc) (k, st)) as [t1 tc1].
  destruct Hone as (Hv & _ & _ & Hsk & Hne & _). rewrite next_version_small in Hv by lia.
  destruct (IH t1 tc1 Hnd) as [Hlv Hin]; [|lia|lia|].
  { intros u Hu. rewrite Hne; [apply Hlive; set_solver|].
    intros Hu'. apply Hk. rewrite <-Hu'. by apply list_elem_of_fmap_2. }
  fold t' in Hlv, Hin. split; [lia|]. intros k' s' Hs'.
  destruct (Hin k' s' Hs') as [Hold|?]; [|lia].
  destruct (decide (k' = k)) as [->|?]; [|left; by rewrite <-Hne].
  right. rewrite Hsk in Hold. injection Hold as <-. simpl. lia.
Qed.

Section refresh_versions.
Context `{HashOrder}.

Lemma length_link_updates t o : (length (link_updates t o) ≤ size (live_keys t))%nat.
Proof.
  rewrite <-(length_fmap fst), <-(size_list_to_set (C := gset (string * string)))
    by apply NoDup_link_updates.
  apply subseteq_size. intros k (u & -> & Hu)%elem_of_list_to_set%list_elem_of_fmap.
  apply elem_of_live_keys. by eapply link_updates_live.
Qed.

Lemma refresh_live_keys t o tc : live_keys (refresh_links_to t o tc).1 = live_keys t.
Proof.
  apply live_keys_dom. intros k. destruct (refresh_spec t o tc) as [(_ & _ & Hs) _].
  specialize (Hs k). inversion Hs; naive_solver.
Qed.

Lemma refresh_versions t o tc :
  0 ≤ last_version t → last_version t + Z.of_nat (size (live_keys t)) < 2 ^ 64 →
  let t' := (refresh_links_to t o tc).1 in
  last_version t ≤ last_version t' ≤ last_version t + Z.of_nat (size (live_keys t)) ∧
  ∀ k s', scope_at t' k = Some s' →
    scope_at t k = Some s' ∨ last_version t < LiveScope.version s' ≤ last_version t'.
Proof.
  intros H0 Hroom. pose proof (length_link_updates t o).
  destruct (apply_link_updates_versions (link_updates t o) t tc) as [Hlv Hin].
  - apply NoDup_link_updates.
  - apply link_updates_live.
  - done.
  - lia.
  - split; [|done]. unfold refresh_links_to. lia.
Qed.
End refresh_versions.

(** ** A change *)

Section change.
Context `{HashOrder} `{AttributeJson}.
Context (t : ScopeTable) (h : Heap.t) (owner : string) (connection_id : Z)
  (is_current_launch : Z → bool) (now : Z) (c : ScopeChange) (t' : ScopeTable) (h' : Heap.t).

(** The counter is far enough from its width for one call. *)
Definition version_room : Prop :=
  last_version t + MAX_LIVE_SCOPES_PER_OWNER + Z.of_nat (size (live_keys t')) < 2 ^ 64.

Context (Hver : versions_ok t) (Hroom : version_room).

Lemma stored_version applied state' version h1 state expired s :
  accepted (with_owners t (delete owner (owners t))) h owner (owner_state t owner) connection_id
    is_current_launch now c applied state' version h1 state expired s →
  last_version t ≤ version ≤ last_version t + MAX_LIVE_SCOPES_PER_OWNER ∧
  ∀ k sc, scope_at (stored t owner state' version) k = Some sc →
    (∃ sc0, scope_at t k = Some sc0 ∧ scope_core sc0 = scope_core sc ∧
            LiveScope.version sc0 = LiveScope.version sc) ∨
    last_version t < LiveScope.version sc ≤ version.
Proof.
  intros Hacc. destruct Hver as [Hpos Hv]. unfold version_room in Hroom.
  assert (0 ≤ last_version t ∧ last_version t + MAX_LIVE_SCOPES_PER_OWNER < 2 ^ 64) as HR by lia.
  split; [exact (acc_version _ _ _ _ _ _ _ _ _ _ _ _ _ _ _ Hacc HR)|].
  intros [o x] sc Hsc. destruct (decide (o = owner)) as [->|Ho]; last first.
  { left. rewrite stored_other in Hsc by done. by exists sc. }
  rewrite stored_own in Hsc.
  destruct (accepted_live _ _ _ _ _ _ _ _ _ _ _ _ _ _ _ Hacc x sc Hsc) as (rec & _ & Hcom).
  destruct (com_version _ _ _ _ _ _ _ _ _ _ Hcom) as [(held & Hc & Hr & Hp & Hvs)|Hfresh];
    [|right; by apply Hfresh].
  left. exists held. apply continued_Some in Hc as [Hheld _].
  split; [exact (held_at _ _ _ _ _ _ _ _ _ _ _ _ _ _ Hacc x held Hheld)|]. unfold scope_core.
  by rewrite Hr, Hp, (com_record _ _ _ _ _ _ _ _ _ _ Hcom).
Qed.

(** What an accepted change does to versions. *)
Lemma change_versions res :
  change t h owner connection_id is_current_launch now c = Some (t', h', res) →
  last_version t ≤ last_version t' ∧
  ∀ k sc, scope_at t' k = Some sc →
    (∃ sc0, scope_at t k = Some sc0 ∧ scope_core sc0 = scope_core sc ∧
            LiveScope.version sc0 = LiveScope.version sc) ∨
    last_version t < LiveScope.version sc ≤ last_version t'.
Proof.
  intros [(Heqv & _)|(applied & state' & version & state & expired & s & tc & ? & Hacc & Hr & _)]%change_inv.
  { setoid_rewrite Heqv. split; [done|]. intros k sc Hsc. left. by exists sc. }
  destruct (stored_version _ _ _ _ _ _ _ Hacc) as [Hv1 Hs1]. destruct Hver as [Hpos _].
  assert (t' = (refresh_links_to (stored t owner state' version) owner
                  (SyncApplied.tag_changes applied)).1) as Ht' by (by rewrite Hr).
  pose proof Hroom as Hroom'. unfold version_room in Hroom'. rewrite Ht', refresh_live_keys in Hroom'.
  destruct (refresh_versions (stored t owner state' version) owner (SyncApplied.tag_changes applied))
    as [Hlv Hs2]; [simpl; lia|simpl; lia|]. cbv zeta in *. rewrite <-Ht' in Hlv, Hs2. simpl in Hlv.
  split; [lia|].
  intros k sc Hsc. destruct (Hs2 k sc Hsc) as [Hold|?]; [|right; simpl in *; lia].
  destruct (Hs1 k sc Hold) as [?|?]; [by left|right; lia].
Qed.

Lemma change_versions_ok res :
  change t h owner connection_id is_current_launch now c = Some (t', h', res) → versions_ok t'.
Proof.
  intros Hch. destruct (change_versions res Hch) as [Hle Hs]. destruct Hver as [Hpos Hv].
  split; [lia|]. intros k sc Hsc. destruct (Hs k sc Hsc) as [(sc0 & Hsc0 & _ & <-)|?]; [|lia].
  specialize (Hv k sc0 Hsc0). lia.
Qed.

(** A tag that did not move names the content it named. *)
Lemma change_tag_content res k s s' :
  change t h owner connection_id is_current_launch now c = Some (t', h', res) →
  scope_at t k = Some s → scope_at t' k = Some s' → LiveScope.tag s = LiveScope.tag s' →
  scope_core s = scope_core s'.
Proof.
  intros Hch Hs Hs' [= _ Htag]. destruct Hver as [_ Hv].
  destruct (change_versions res Hch) as [_ Hin].
  destruct (Hin k s' Hs') as [(s0 & ? & ? & _)|?]; [congruence|]. specialize (Hv k s Hs). lia.
Qed.
End change.

(** ** The reported tag changes *)

Section change_tags.
Context `{HashOrder} `{AttributeJson}.

Lemma accepted_tag_changes t h owner connection_id is_current_launch now c
    applied state' version h' state expired s :
  accepted (with_owners t (delete owner (owners t))) h owner (owner_state t owner) connection_id
    is_current_launch now c applied state' version h' state expired s →
  SyncApplied.tag_changes applied = own_tag_changes t owner state'.
Proof. intros Hacc. by rewrite (acc_applied _ _ _ _ _ _ _ _ _ _ _ _ _ _ _ Hacc). Qed.

Lemma change_cover t h owner connection_id is_current_launch now c t' h' applied :
  change t h owner connection_id is_current_launch now c = Some (t', h', Ok applied) →
  tags_cover t t' (SyncApplied.tag_changes applied).
Proof.
  intros [(_ & _ & ? & ?)|(ap & state' & version & state & expired & s & tc & ? & Hacc & Hr & -> & Heq)]%change_inv;
    [done|]. injection Heq as ->. simpl.
  pose proof (accepted_tag_changes _ _ _ _ _ _ _ _ _ _ _ _ _ _ Hacc) as Htc.
  pose proof (refresh_cover t (stored t owner state' version) owner (SyncApplied.tag_changes ap)) as Hc.
  rewrite Hr in Hc. apply Hc. rewrite Htc. apply own_tag_changes_cover.
Qed.

Lemma sweep_cover t now :
  tags_cover t (sweep_expired t now).1 (swept_tag_changes (sweep_expired t now).2).
Proof.
  destruct (sweep_expired_split t now) as (changed & _ & ->). cbn [fst snd swept_tag_changes].
  apply refreshes_cover, sweep_changes_cover.
Qed.
End change_tags.

(** ** Drains across a refresh *)

Section drains.
Context (p : Principal) (m : string).

Definition closes (k : string * string) (tc : list ScopeTagChange.t) : Prop :=
  ∃ ch, ch ∈ tc ∧ change_key ch = k ∧ is_Some (drain_reason (ScopeTagChange.drain ch) k.1 p m).

Lemma merge_closes tc new k :
  closes k tc → closes k (merge_tag_change tc new).
Proof.
  intros (ch & Hin & Hk & Hd). induction tc as [|c0 tc IH]; [set_solver|]. cbn [merge_tag_change].
  apply elem_of_cons in Hin as [->|Hin].
  - case_decide.
    + eexists. split; [left|]. split; [done|]. simpl. by apply drain_reason_widen.
    + exists c0. split; [left|done].
  - case_decide.
    + exists ch. split; [by right|done].
    + destruct (IH Hin) as (ch' & ? & ?). exists ch'. split; [by right|done].
Qed.

Lemma merge_closes_new tc new r :
  ScopeTagChange.drain new = ScopeDrain.All r → closes (change_key new) (merge_tag_change tc new).
Proof.
  intros Hd. induction tc as [|c0 tc IH]; cbn [merge_tag_change].
  - exists new. split; [left|]. split; [done|]. by rewrite Hd.
  - case_decide as Hc.
    + eexists. split; [left|]. unfold change_key; simpl. destruct Hc as [-> ->]. split; [done|].
      rewrite Hd. apply drain_reason_widen_all.
    + destruct IH as (ch & ? & ?). exists ch. split; [by right|done].
Qed.

Lemma apply_link_updates_closes us t tc k :
  NoDup us.*1 → (∀ u, u ∈ us → is_Some (scope_at t u.1)) →
  closes k tc ∨ (k, ParentState.Ended) ∈ us → closes k (foldl apply_link_update (t, tc) us).2.
Proof.
  revert t tc; induction us as [|[k0 st] us IH]; intros t tc Hnd Hlive Hcl; cbn [foldl].
  { destruct Hcl; [done|set_solver]. }
  rewrite fmap_cons, NoDup_cons in Hnd. destruct Hnd as [Hk Hnd]. cbn [fst] in *.
  destruct (Hlive (k0, st)) as [s Hs]; [set_solver|]. cbn [fst] in Hs.
  pose proof (apply_link_update_spec t tc k0 st s Hs) as Hone.
  destruct (apply_link_update (t, tc) (k0, st)) as [t1 tc1].
  destruct Hone as (_ & _ & _ & _ & Hne & ->).
  apply IH; [done| |].
  - intros u Hu. rewrite Hne; [apply Hlive; set_solver|].
    intros Hu'. apply Hk. rewrite <-Hu'. by apply list_elem_of_fmap_2.
  - destruct Hcl as [Hcl|[[= <- <-]|?]%elem_of_cons]; [left; by apply merge_closes| |by right].
    left. destruct k as [ko kx]. by eapply (merge_closes_new _ (ScopeTagChange.mk ko kx _ _ _)).
Qed.

Lemma refresh_closes `{HashOrder} t o tc k :
  closes k tc ∨ (k, ParentState.Ended) ∈ link_updates t o → closes k (refresh_links_to t o tc).2.
Proof. apply apply_link_updates_closes; [apply NoDup_link_updates|apply link_updates_live]. Qed.
End drains.

(** ** Revocation closes routes *)

Section revocation.
Context `{HashOrder} `{AttributeJson}.
Context (p : Principal) (m : string).

Lemma delegation_changed_refl a : delegation_changed a a = false.
Proof.
  unfold delegation_changed. rewrite !bool_decide_eq_true_2 by done.
  by destruct (ScopeAttributes.delegates a).
Qed.

(** A change of content is needed to revoke anything. *)
Lemma revoked_core o s0 s1 :
  was_permitted o s0 p m → revoked o s0 s1 p m → scope_core s0 ≠ scope_core s1.
Proof.
  intros Hwas Hrev [= Hr Hp]. unfold revoked in Hrev. rewrite <-Hr, <-Hp in Hrev.
  rewrite delegation_changed_refl in Hrev. destruct Hwas as [?|Hwas]; intuition congruence.
Qed.

Context (t : ScopeTable) (h : Heap.t) (owner : string) (connection_id : Z)
  (is_current_launch : Z → bool) (now : Z) (c : ScopeChange) (t' : ScopeTable) (h' : Heap.t)
  (applied : SyncApplied.t).
Context (Hver : versions_ok t) (Hroom : version_room t t').
Context (state' : OwnerScopes.t) (version : Z) (state : OwnerScopes.t)
  (expired : list ScopeExpired.t) (s : Settle.t).
Context (Hacc : accepted (with_owners t (delete owner (owners t))) h owner (owner_state t owner)
                  connection_id is_current_launch now c applied state' version h' state expired s).

Abbreviation t1 := (stored t owner state' version).

(** The scope's own change of the call, before links are refreshed. *)
Lemma stored_closes k s0 :
  scope_at t k = Some s0 → was_permitted k.1 s0 p m →
  match scope_at t1 k with
  | None => True
  | Some s1 => ScopeRecord.scope_epoch (LiveScope.record s1)
               ≠ ScopeRecord.scope_epoch (LiveScope.record s0) ∨ revoked k.1 s0 s1 p m
  end → closes p m k (own_tag_changes t owner state').
Proof.
  intros Hs0 Hwas Hrev.
  assert (tag_at t k ≠ tag_at t1 k) as Htag.
  { unfold tag_at. rewrite Hs0. destruct (scope_at t1 k) as [s1|] eqn:Hs1; [|done]. simpl.
    intros [= He Hv]. destruct Hrev as [?|Hrev]; [done|]. apply (revoked_core k.1 s0 s1 Hwas Hrev).
    destruct (stored_version t h owner connection_id is_current_launch now c t' Hver Hroom
                _ _ _ _ _ _ _ Hacc) as [_ Hin].
    destruct (Hin k s1 Hs1) as [(sc0 & ? & ? & _)|?]; [congruence|].
    destruct Hver as [_ Hle]. specialize (Hle k s0 Hs0). lia. }
  destruct (own_tag_changes_cover t owner state' version) as [_ Htags Hall].
  apply Hall in Htag. apply list_elem_of_fmap in Htag as (ch & -> & Hch).
  exists ch. split; [done|]. split; [done|].
  apply list_elem_of_omap in Hch as (x & _ & Hch).
  destruct (tag_change_of_Some _ _ _ _ _ Hch) as (Hkey & _ & _). rewrite Hkey in *.
  rewrite scope_at_state in Hs0; simpl in Hs0. rewrite stored_own in Hrev.
  unfold tag_change_of in Hch. rewrite Hs0 in Hch. case_decide; [done|]. injection Hch as <-. simpl.
  destruct (OwnerScopes.live state' !! x) as [s1|]; [|done].
  destruct (_ =? _) eqn:He; [|done]. apply Z.eqb_eq in He.
  apply drain_for_change_spec; [done|]. destruct Hrev as [?|?]; [congruence|done].
Qed.

Lemma change_closes tc k s0 :
  refresh_links_to t1 owner (SyncApplied.tag_changes applied) = (t', tc) →
  scope_at t k = Some s0 → was_permitted k.1 s0 p m →
  match scope_at t' k with
  | None => True
  | Some s1 => ScopeRecord.scope_epoch (LiveScope.record s1)
               ≠ ScopeRecord.scope_epoch (LiveScope.record s0) ∨ revoked k.1 s0 s1 p m
  end → closes p m k tc.
Proof.
  intros Hr Hs0 Hwas Hrev.
  replace tc with (refresh_links_to t1 owner (SyncApplied.tag_changes applied)).2 by (by rewrite Hr).
  apply refresh_closes. rewrite (accepted_tag_changes _ _ _ _ _ _ _ _ _ _ _ _ _ _ Hacc).
  destruct (refresh_spec t1 owner (SyncApplied.tag_changes applied)) as [(_ & _ & Hsame) Hst].
  cbv zeta in *. rewrite Hr in Hsame, Hst; simpl in *. specialize (Hsame k).
  destruct (scope_at t1 k) as [s1|] eqn:Hs1; last first.
  { left. apply (stored_closes k s0); [done..|]. by rewrite Hs1. }
  destruct (Hst k s1 Hs1) as (s2 & Hs2 & Hps & _). rewrite Hs2 in Hrev, Hsame.
  inversion Hsame as [? ? [Hrec _]|]; subst.
  destruct (decide (LiveScope.parent_state s1 = LiveScope.parent_state s2 ∨
                    LiveScope.parent_state s2 ≠ Some ParentState.Ended)) as [Hno|Hyes].
  - left. apply (stored_closes k s0); [done..|]. rewrite Hs1. rewrite Hrec in Hrev.
    destruct Hrev as [?|Hrev]; [by left|right]. unfold revoked in *. rewrite Hrec in Hrev.
    destruct Hrev as [?|[[Hend Hb]|?]]; [by left| |by right; right].
    right. left. destruct Hno; [split; congruence|done].
  - right. apply elem_of_link_updates. exists s1.
    assert (LiveScope.parent_state s2 = Some ParentState.Ended) as Hend by (apply dec_stable; tauto).
    assert (LiveScope.parent_state s1 ≠ Some ParentState.Ended) as Hnot by (intros ?; apply Hyes; left; congruence).
    rewrite <-Hps, Hend. split_and!; [done..|]. rewrite Hend in Hps. unfold refreshed_state in Hps.
    destruct (ScopeRecord.parent (LiveScope.record s1)) as [par|]; [|congruence].
    case_decide; [eauto|congruence].
Qed.
End revocation.

(** ** Sweeps *)

Section sweeps.
Context `{HashOrder}.

Lemma refreshes_versions changed t tc :
  0 ≤ last_version t →
  last_version t + Z.of_nat (length changed) * Z.of_nat (size (live_keys t)) < 2 ^ 64 →
  let t' := (foldl (λ acc owner, refresh_links_to acc.1 owner acc.2) (t, tc) changed).1 in
  last_version t ≤ last_version t' ∧
  ∀ k s', scope_at t' k = Some s' →
    scope_at t k = Some s' ∨ last_version t < LiveScope.version s' ≤ last_version t'.
Proof.
  revert t tc; induction changed as [|o changed IH]; intros t tc H0 Hroom; cbn [foldl fst snd].
  { split; [done|]. by left. }
  cbn [length] in Hroom. rewrite Nat2Z.inj_succ, Z.mul_succ_l in Hroom.
  destruct (refresh_versions t o tc) as [Hlv Hin]; [done|lia|]. cbv zeta in *.
  pose proof (refresh_live_keys t o tc) as Hkeys.
  destruct (refresh_links_to t o tc) as [t1 tc1]. cbn [fst] in *.
  destruct (IH t1 tc1) as [Hlv' Hin']; [lia|rewrite Hkeys; lia|].
  split; [lia|]. intros k s' Hs'. destruct (Hin' k s' Hs') as [Hs1|?]; [|lia].
  destruct (Hin k s' Hs1) as [?|?]; [by left|lia].
Qed.

Lemma refreshes_closes p m changed t tc k :
  closes p m k tc →
  closes p m k (foldl (λ acc owner, refresh_links_to acc.1 owner acc.2) (t, tc) changed).2.
Proof.
  revert t tc; induction changed as [|o changed IH]; intros t tc Hcl; cbn [foldl fst snd]; [done|].
  pose proof (refresh_closes p m t o tc k (or_introl Hcl)) as Hcl'.
  destruct (refresh_links_to t o tc) as [t1 tc1]. by apply IH.
Qed.

(** The counter has room for every link a sweep may refresh. *)
Definition sweep_room (t : ScopeTable) : Prop :=
  last_version t + Z.of_nat (size (owners t)) * Z.of_nat (size (live_keys t)) < 2 ^ 64.

Lemma swept_live_keys t now : live_keys (swept t now) ⊆ live_keys t.
Proof.
  intros k [s Hs]%elem_of_live_keys. apply swept_scope_at in Hs as [Hs _]. apply elem_of_live_keys. eauto.
Qed.

Lemma sweep_versions t now :
  versions_ok t → sweep_room t →
  let t' := (sweep_expired t now).1 in
  last_version t ≤ last_version t' ∧
  ∀ k s', scope_at t' k = Some s' →
    scope_at t k = Some s' ∨ last_version t < LiveScope.version s' ≤ last_version t'.
Proof.
  intros [Hpos _] Hroom. destruct (sweep_expired_split t now) as (changed & [_ Hlen] & ->). cbn [fst].
  pose proof (subseteq_size _ _ (swept_live_keys t now)) as Hkeys. unfold sweep_room in Hroom.
  destruct (refreshes_versions changed (swept t now) (sweep_changes t now)) as [Hlv Hin].
  - done.
  - change (last_version (swept t now)) with (last_version t). nia.
  - split; [exact Hlv|]. intros k s' Hs'. destruct (Hin k s' Hs') as [Hs|?]; [|by right].
    left. by apply swept_scope_at in Hs as [? _].
Qed.

(** A sweep closes the routes of the scopes it ends. *)
Lemma sweep_closes p m t now k s :
  scope_at t k = Some s → scope_at (sweep_expired t now).1 k = None →
  closes p m k (swept_tag_changes (sweep_expired t now).2).
Proof.
  intros Hs Hnone. pose proof (proj1 (sweep_exact t now) k) as Hrec. rewrite Hnone, Hs in Hrec. simpl in Hrec.
  destruct (passed_deadline now (LiveScope.record s)) as [d|] eqn:Hd; [|done].
  destruct (sweep_expired_split t now) as (changed & _ & ->). cbn [fst snd swept_tag_changes].
  apply refreshes_closes. destruct k as [o x].
  exists (expired_tag_change o (OwnerScopes.live (owner_state t o))
            (ScopeExpired.mk o x (ScopeRecord.scope_epoch (LiveScope.record s)) d)).
  split; [|split; [done|]].
  - apply elem_of_sweep_changes. do 2 eexists. split; [|done]. apply elem_of_expired. by exists s.
  - by eexists.
Qed.
End sweeps.

(** ** Moves of the table *)

(** What the forwarding table may rely on when the table moves and reports
    [tc]: the reported changes cover the tags that moved, tags are not reused,
    and a route that loses its authority is closed. *)
Record table_move (t t' : ScopeTable) (tc : list ScopeTagChange.t) : Prop := {
  tm_cover : tags_cover t t' tc;
  tm_versions_ok : versions_ok t';
  tm_last : last_version t ≤ last_version t';
  tm_versions k s' : scope_at t' k = Some s' →
    (∃ s, scope_at t k = Some s ∧ LiveScope.record s = LiveScope.record s' ∧
          LiveScope.version s = LiveScope.version s') ∨
    last_version t < LiveScope.version s';
  tm_closes p m k s : scope_at t k = Some s → was_permitted k.1 s p m →
    match scope_at t' k with
    | None => True
    | Some s' => ScopeRecord.scope_epoch (LiveScope.record s')
                 ≠ ScopeRecord.scope_epoch (LiveScope.record s) ∨ ¬ was_permitted k.1 s' p m
    end → closes p m k tc;
}.

Section moves.
Context `{HashOrder} `{AttributeJson}.

Lemma change_move t h owner connection_id is_current_launch now c t' h' applied :
  versions_ok t → version_room t t' →
  change t h owner connection_id is_current_launch now c = Some (t', h', Ok applied) →
  table_move t t' (SyncApplied.tag_changes applied).
Proof.
  intros Hv Hr Hch. split.
  - by eapply change_cover.
  - by eapply change_versions_ok.
  - by eapply change_versions.
  - intros k s' Hs'. eapply change_versions in Hch as [_ Hin]; [|done..].
    destruct (Hin k s' Hs') as [(s & ? & [= ??] & ?)|?]; [left; eauto|right; lia].
  - intros p m k s Hs Hperm Hlost.
    destruct (change_inv _ _ _ _ _ _ _ _ _ _ Hch)
      as [(_ & _ & code & [=])|(ap & st' & v & st & ex & sl & tc & rs & Hacc & Href & _ & [= ->])].
    simpl. refine (change_closes p m t h owner connection_id is_current_launch now c t' h' ap Hv Hr
      st' v st ex sl Hacc tc k s Href Hs Hperm _).
    destruct (scope_at t' k) as [s'|]; [|done]. destruct Hlost as [?|Hnot]; [by left|right].
    right. right. unfold was_permitted in Hnot. split; [tauto|].
    destruct (carrier_permitted _ _ _); [|done]. tauto.
Qed.

Lemma sweep_move t now :
  versions_ok t → sweep_room t →
  table_move t (sweep_expired t now).1 (swept_tag_changes (sweep_expired t now).2).
Proof.
  intros Hv Hroom. destruct (sweep_versions t now Hv Hroom) as [Hlv Hin]. cbv zeta in *. destruct Hv as [Hpos Hle].
  split.
  - apply sweep_cover.
  - split; [lia|]. intros k s Hs. destruct (Hin k s Hs) as [Hs0|?]; [|lia]. specialize (Hle k s Hs0). lia.
  - done.
  - intros k s' Hs'. destruct (Hin k s' Hs') as [?|?]; [by left; exists s'|by right; lia].
  - intros p m k s Hs Hperm Hlost. destruct (scope_at (sweep_expired t now).1 k) as [s'|] eqn:Hs'.
    + pose proof (proj1 (sweep_exact t now) k) as Hrec. rewrite Hs', Hs in Hrec. simpl in Hrec.
      destruct (passed_deadline _ _); [done|]. injection Hrec as Hrec.
      unfold was_permitted in *. rewrite Hrec in Hlost. by destruct Hlost.
    + by eapply sweep_closes.
Qed.
End moves.
