(* ===== verification/ScopeAdmit.v ===== *)
(** * Admission of a bind to a scope

    What [attribute] and [check_bind_proof] answer, in terms of the live scope
    the selector names, the carriers its record lists and the bind proof; and
    the secrets behind it: the comparison of launch nonces is equality, and a
    stored bind-proof hash is matched by exactly the digest it is the hexadecimal
    rendering of. *)

From S2P Require Import Prelude Collections Envelope Tokens ScopeTypes Scopes.
From S2P Require Import ScopeRefresh ScopeDrains.

(** The opener may bind to the scope: it is the owner, or the record names it as
    a carrier for the target module. *)
Definition may_carry (owner : string) (record : ScopeRecord.t) (opener : Principal) (target : string)
    : Prop :=
  reserved_module_id opener = Some owner ∨ carrier_permitted record opener target = true.

(** The scope a selector picks out at time [now]: live, at the named epoch, not
    past its deadline, of an owner that has synced. *)
Record selected (t : ScopeTable) (sel : ScopeSelector.t) (now : Z) (owner : string)
    (scope : LiveScope.t) : Prop := {
  sl_owner : reserved_module_id (ScopeSelector.owner sel) = Some owner;
  sl_synced : is_some_and OwnerScopes.synced (owners t !! owner) = true;
  sl_scope : scope_at t (owner, ScopeSelector.scope_ref sel) = Some scope;
  sl_epoch : ScopeSelector.scope_epoch sel
             = Some (ScopeRecord.scope_epoch (LiveScope.record scope));
  sl_deadline : passed_deadline now (LiveScope.record scope) = None;
}.

Definition admission_of (t : ScopeTable) (sel : ScopeSelector.t) (owner : string)
    (scope : LiveScope.t) : ScopeAdmission.t :=
  ScopeAdmission.mk owner
    (scope_stamp t (ScopeSelector.owner sel) owner (ScopeSelector.scope_ref sel) scope)
    (LiveScope.tag scope).

Lemma attribute_ok t opener target sel configured now adm :
  attribute t opener target sel configured now = Ok adm ↔
  ∃ owner scope, selected t sel now owner scope ∧
    may_carry owner (LiveScope.record scope) opener target ∧ adm = admission_of t sel owner scope.
Proof.
  unfold attribute, may_carry. split.
  - intros Hok.
    destruct (ScopeSelector.scope_epoch sel) as [epoch|] eqn:He; [|done]. simpl in Hok.
    destruct (reserved_module_id (ScopeSelector.owner sel)) as [owner|] eqn:Ho; [|done]. simpl in Hok.
    destruct (owners t !! owner) as [st|] eqn:Hst; [|done]. simpl in Hok.
    destruct (OwnerScopes.synced st) eqn:Hsy; [|done]. simpl in Hok.
    destruct (OwnerScopes.live st !! _) as [scope|] eqn:Hsc; [|done]. simpl in Hok.
    destruct (_ =? epoch) eqn:Heq; [|done]. apply Z.eqb_eq in Heq. simpl in Hok.
    destruct (passed_deadline now _) eqn:Hp; [done|]. simpl in Hok.
    exists owner, scope. split; [|split].
    + split; [done|by rewrite Hst|unfold scope_at; simpl; by rewrite Hst|congruence|done].
    + case_bool_decide; [by left|]. right. by destruct (carrier_permitted _ _ _).
    + destruct (_ && _); [done|]. by injection Hok as <-.
  - intros (owner & scope & [Ho Hsy Hsc He Hp] & Hcarry & ->).
    rewrite He, Ho; simpl. unfold scope_at in Hsc; simpl in Hsc.
    destruct (owners t !! owner) as [st|]; [|done]. simpl in *. rewrite Hsy; simpl.
    rewrite Hsc; simpl. rewrite Z.eqb_refl, Hp; simpl.
    destruct Hcarry as [->| ->]; [by rewrite bool_decide_eq_true_2|]. by rewrite andb_false_r.
Qed.

Section proofs.
Context `{ProofCrypto}.

(** The proof a record asks of an opener that is not a module. *)
Definition proof_given (record : ScopeRecord.t) (opener : Principal) (sel : ScopeSelector.t) : Prop :=
  ∀ hash, is_reserved opener = false → ScopeRecord.bind_proof_sha256 record = Some hash →
  ∃ proof, ScopeSelector.bind_proof sel = Some proof ∧ bind_proof_matches proof hash = true.

Lemma check_bind_proof_ok t opener sel now owner scope :
  selected t sel now owner scope →
  check_bind_proof t opener sel = Ok tt ↔ proof_given (LiveScope.record scope) opener sel.
Proof.
  intros [Ho _ Hsc He _]. unfold check_bind_proof, proof_given.
  destruct (is_reserved opener); [by split|]. rewrite Ho; simpl.
  unfold scope_at in Hsc; simpl in Hsc. destruct (owners t !! owner) as [st|]; [|done]. simpl in *.
  rewrite Hsc; simpl. rewrite He, bool_decide_eq_true_2 by done; simpl.
  destruct (ScopeRecord.bind_proof_sha256 _) as [hash|]; [|by split].
  destruct (ScopeSelector.bind_proof sel) as [proof|]; simpl.
  - destruct (bind_proof_matches proof hash) eqn:Hm; simpl; (split; [|intros Hp]).
    + intros _ hash' _ [= <-]. eauto.
    + done.
    + done.
    + destruct (Hp hash) as (? & [= <-] & ?); [done..|congruence].
  - split; [done|]. intros Hp. by destruct (Hp hash) as (? & ? & _).
Qed.

Lemma admit_ok t opener target sel configured now adm :
  admit_bind t opener target sel configured now = Ok adm ↔
  ∃ owner scope, selected t sel now owner scope ∧
    may_carry owner (LiveScope.record scope) opener target ∧
    proof_given (LiveScope.record scope) opener sel ∧ adm = admission_of t sel owner scope.
Proof.
  unfold admit_bind. split.
  - destruct (attribute t opener target sel configured now) as [adm'|] eqn:Ha; [|done]. simpl.
    apply attribute_ok in Ha as (owner & scope & Hsel & Hc & ->).
    destruct (check_bind_proof t opener sel) as [[]|] eqn:Hp; [|done]. intros [= <-].
    exists owner, scope. split_and!; try done. by eapply check_bind_proof_ok.
  - intros (owner & scope & Hsel & Hc & Hp & ->).
    replace (attribute t opener target sel configured now) with
      (Ok (E:=string) (admission_of t sel owner scope))
      by (symmetry; apply attribute_ok; eauto).
    simpl. eapply check_bind_proof_ok in Hp as ->; done.
Qed.

(** A bind that was admitted is reserved: neither of the two lookups of
    [reserve_bind] that may panic does. *)
Lemma admit_reserves t opener target sel configured now adm h cid hold :
  admit_bind t opener target sel configured now = Ok adm →
  is_Some (reserve_bind t h adm opener cid hold).
Proof.
  intros (owner & scope & [_ _ Hsc _ _] & _ & _ & ->)%admit_ok. unfold reserve_bind; simpl.
  unfold scope_at in Hsc; simpl in Hsc.
  destruct (owners t !! owner) as [st|]; [|done]. simpl in *. rewrite Hsc.
  destruct (reserve_presence _ _ _ _) as [[??]?]. simpl. eauto.
Qed.
End proofs.

(** ** Constant-time comparison *)

Lemma lor_fold_zero (l : list (Z * Z)) d :
  foldl (λ diff '(x, y), Z.lor diff (Z.lxor x y)) d l = 0 ↔ d = 0 ∧ Forall (λ e, e.1 = e.2) l.
Proof.
  revert d; induction l as [|[x y] l IH]; intros d; simpl; [naive_solver|].
  rewrite IH, Z.lor_eq_0_iff, Z.lxor_eq_0_iff, Forall_cons. simpl. tauto.
Qed.

Lemma Forall_zip_eq {A} (a b : list A) :
  length a = length b → Forall (λ e, e.1 = e.2) (zip a b) ↔ a = b.
Proof.
  revert b; induction a as [|x a IH]; intros [|y b] Hlen; simplify_eq/=; [done|].
  rewrite Forall_cons, IH by lia. simpl. naive_solver.
Qed.

Lemma constant_time_eq_spec a b : constant_time_eq a b = true ↔ a = b.
Proof.
  unfold constant_time_eq. destruct (_ =? _) eqn:Hlen; simpl.
  - apply Z.eqb_eq, Nat2Z.inj in Hlen. rewrite Z.eqb_eq, lor_fold_zero, Forall_zip_eq by done. tauto.
  - split; [done|]. intros ->. by rewrite Z.eqb_refl in Hlen.
Qed.

Lemma str_bytes_inj s s' : str_bytes s = str_bytes s' → s = s'.
Proof.
  revert s'; induction s as [|a s IH]; intros [|a' s']; simpl; intros Heq; simplify_eq; [done|].
  f_equal; [|by apply IH].
  match goal with Hn : Ascii.N_of_ascii _ = _ |- _ =>
    by rewrite <-(Ascii.ascii_N_embedding a), <-(Ascii.ascii_N_embedding a'), Hn end.
Qed.

Lemma presented_iff self cid current :
  HelloLaunchNonces.presented self cid current = true ↔
  ∃ n, HelloLaunchNonces.nonce self cid = Some n ∧ current = Some n.
Proof.
  unfold HelloLaunchNonces.presented, HelloLaunchNonces.nonce.
  destruct (_ !! cid) as [n|], current as [m|]; [|naive_solver..].
  rewrite constant_time_eq_spec. split; [intros ->%str_bytes_inj|]; naive_solver.
Qed.

(** ** Hexadecimal digests *)

Definition hex_val (n : Z) : Z := if n <? 10 then 48 + n else 87 + n.

(** The lowercase hexadecimal rendering, as bytes. *)
Fixpoint hex_bytes (l : list byte) : list Z :=
  match l with
  | [] => []
  | b :: l => hex_val (byte_val b / 16) :: hex_val (byte_val b mod 16) :: hex_bytes l
  end.

(** [expected_digest] on any number of digits. *)
Definition digest_of (n : nat) (hash : list Z) : list byte :=
  (λ i, byte_of (Z.lor (wrap 8 (Z.shiftl (nibble (nth (2 * i) hash 0)) 4))
                       (nibble (nth (2 * i + 1) hash 0)))) <$> seq 0 n.

Lemma digest_of_cons n a b l :
  digest_of (S n) (a :: b :: l)
  = byte_of (Z.lor (wrap 8 (Z.shiftl (nibble a) 4)) (nibble b)) :: digest_of n l.
Proof.
  unfold digest_of. cbn [seq]. rewrite <-fmap_S_seq, fmap_cons, <-list_fmap_compose. f_equal.
  apply list_fmap_ext. intros i j _. unfold compose.
  replace (2 * S j)%nat with (S (S (2 * j))) by lia.
  replace (S (S (2 * j)) + 1)%nat with (S (S (2 * j + 1))) by lia. done.
Qed.

Lemma digest_of_hex l : digest_of (length l) (hex_bytes l) = l.
Proof.
  induction l as [|b l IH]; [done|]. cbn [length hex_bytes]. rewrite digest_of_cons, IH. f_equal.
  clear. by destruct b.
Qed.

Lemma length_hex_bytes l : length (hex_bytes l) = (2 * length l)%nat.
Proof. induction l; simpl in *; lia. Qed.

Lemma hex_bytes_inj l l' : hex_bytes l = hex_bytes l' → l = l'.
Proof.
  intros Heq. assert (length l = length l') as Hlen.
  { apply (f_equal length) in Heq. rewrite !length_hex_bytes in Heq. lia. }
  by rewrite <-(digest_of_hex l), <-(digest_of_hex l'), Heq, Hlen.
Qed.

Lemma lower_hex_val a : is_lower_hex a = true → ∃ n, 0 ≤ n < 16 ∧ a = hex_val n.
Proof.
  unfold is_lower_hex, is_ascii_digit, is_a_to_f, hex_val. intros [Ha|Ha]%orb_true_iff.
  - exists (a - 48). split; [lia|]. destruct (_ <? _) eqn:?; lia.
  - exists (a - 87). split; [lia|]. destruct (_ <? _) eqn:?; lia.
Qed.

(** Lowercase hex digits, in pairs, render some bytes. *)
Lemma hex_bytes_surj n l :
  length l = (2 * n)%nat → forallb is_lower_hex l = true → ∃ d, length d = n ∧ hex_bytes d = l.
Proof.
  revert l; induction n as [|n IH]; intros l Hlen Hl.
  { exists []. by destruct l. }
  destruct l as [|a [|b l]]; [simpl in Hlen; lia..|]. simpl in Hl. split_bools.
  destruct (IH l) as (d & <- & Hd); [simpl in Hlen; lia|done|].
  destruct (lower_hex_val a) as (x & Hx & ->); [done|].
  destruct (lower_hex_val b) as (y & Hy & ->); [done|].
  exists (byte_of (16 * x + y) :: d). split; [done|]. simpl. rewrite Hd, byte_val_of.
  rewrite wrap_id by (unfold in_width; lia). do 2 f_equal; [|f_equal]; f_equal.
  - rewrite Z.mul_comm, Z.div_add_l, Z.div_small by lia. lia.
  - rewrite Z.add_comm, Z.mul_comm, Z_mod_plus_full, Z.mod_small by lia. done.
Qed.

Lemma bind_proof_matches_iff `{ProofCrypto} proof hash :
  validate_bind_proof_sha256 hash = Ok tt →
  bind_proof_matches proof hash = true ↔
  str_len proof = 43 ∧ ∃ d, decode_slice proof 32 = Some d ∧ length d = 32%nat ∧
    hex_bytes (sha256 d) = str_bytes hash.
Proof.
  unfold validate_bind_proof_sha256, bind_proof_matches. intros Hhash.
  destruct (_ && _) eqn:Hv; [|done]. apply andb_prop in Hv as [Hlen Hhex].
  destruct (hex_bytes_surj 32 (str_bytes hash)) as (digest & Hd & Hr); [|exact Hhex|].
  { rewrite length_str_bytes. unfold str_len in Hlen. lia. }
  assert (expected_digest (str_bytes hash) = digest) as Hexp.
  { rewrite <-Hr. change expected_digest with (digest_of 32). rewrite <-Hd. apply digest_of_hex. }
  rewrite Hexp, <-Hr.
  destruct (str_len proof =? 43) eqn:H43; simpl.
  2:{ split; [done|]. intros [H43' _]. lia. }
  destruct (decode_slice proof 32) as [d|]; [|naive_solver].
  destruct (_ =? 32) eqn:H32; [|split; [done|]; intros (_ & d' & [= <-] & Hd' & _); lia].
  rewrite bool_decide_eq_true. split.
  - intros <-. split; [lia|]. exists d. split_and!; [done|lia|done].
  - intros (_ & d' & [= <-] & _ & Heq%hex_bytes_inj). done.
Qed.
