(* ===== verification/ScopeWorld.v ===== *)
(** * Reachable states of the scope table and its leases

    The operations of the table and of the leases it hands out, as a step
    relation; the cells a scope shares with its leases belong to it alone. *)

From S2P Require Import Prelude Collections Envelope Tokens ScopeTypes Scopes.
From S2P Require Import ScopeTombstones ScopeLinks ScopeSettle ScopeSync ScopeRefresh.
From S2P Require Import ScopeInvariant ScopeGraph ScopeTableOk ScopeSweep ScopeAdmit.

(** ** Releasing a connection and reserving a bind keep the table *)

Lemma release_connection_scope_at t cid k :
  scope_at (release_connection t cid) k = release_scope cid <$> scope_at t k.
Proof.
  unfold scope_at, release_connection; simpl. rewrite lookup_fmap.
  destruct (owners t !! k.1); simpl; [|done]. by rewrite lookup_fmap.
Qed.

Lemma release_connection_core t cid : same_core t (release_connection t cid).
Proof.
  split.
  - done.
  - intros o. unfold owner_state; simpl. rewrite lookup_fmap. by destruct (owners t !! o).
  - intros o. unfold owner_state; simpl. rewrite lookup_fmap. by destruct (owners t !! o).
  - intros k. rewrite release_connection_scope_at. by destruct (scope_at t k).
Qed.

(** What [reserve_bind] does: a lease on the scope's cells, maybe counted, maybe
    sharing a presence cell. *)
Record reserved_bind (t : ScopeTable) (h : Heap.t) (adm : ScopeAdmission.t) (opener : Principal)
    (t' : ScopeTable) (h' : Heap.t) (b : BoundScope.t) (held held' : LiveScope.t)
    (lease : ScopeBindLease.t) : Prop := {
  rb_held : scope_at t (BoundScope.owner b, BoundScope.scope_ref b) = Some held;
  rb_held' : scope_at t' (BoundScope.owner b, BoundScope.scope_ref b) = Some held';
  rb_record : LiveScope.record held' = LiveScope.record held;
  rb_parent : LiveScope.parent_state held' = LiveScope.parent_state held;
  rb_version : LiveScope.version held' = LiveScope.version held;
  rb_binds : LiveScope.binds held' = LiveScope.binds held;
  rb_served : LiveScope.served_modules held' = LiveScope.served_modules held;
  rb_presence cid l : LiveScope.presence held' !! cid = Some l →
    LiveScope.presence held !! cid = Some l ∨
    (Heap.next_loc h ≤ l < Heap.next_loc h')%positive;
  rb_other k : k ≠ (BoundScope.owner b, BoundScope.scope_ref b) → scope_at t' k = scope_at t k;
  rb_core : same_core t t';
  rb_lease_binds : ScopeBindLease.binds lease = LiveScope.binds held;
  rb_lease_served : ScopeBindLease.served_modules lease = LiveScope.served_modules held;
  rb_lease_released : ScopeBindLease.released lease = is_reserved opener;
  rb_lease_presence l : ScopeBindLease.presence lease = Some l →
    ∃ cid, LiveScope.presence held' !! cid = Some l;
  rb_leases : Heap.leases h' = <[BoundScope.lease b := lease]> (Heap.leases h);
  rb_loc : (Heap.next_loc h ≤ BoundScope.lease b < Heap.next_loc h')%positive;
  rb_counters l : Heap.counter h' l
    = if decide (l = LiveScope.binds held ∧ is_reserved opener = false)
      then wrap 64 (Heap.counter h l + 1) else Heap.counter h l;
  rb_sets : Heap.sets h' = Heap.sets h;
  rb_flags : Heap.flags h' = Heap.flags h;
  rb_tag : BoundScope.tag b = ScopeAdmission.tag adm;
  rb_names : BoundScope.owner b = ScopeAdmission.owner adm ∧
    BoundScope.scope_ref b = ScopeStamp.scope_ref (ScopeAdmission.stamp adm);
}.

Arguments rb_held {t h adm opener t' h' b held held' lease} _.
Arguments rb_held' {t h adm opener t' h' b held held' lease} _.
Arguments rb_record {t h adm opener t' h' b held held' lease} _.
Arguments rb_parent {t h adm opener t' h' b held held' lease} _.
Arguments rb_version {t h adm opener t' h' b held held' lease} _.
Arguments rb_binds {t h adm opener t' h' b held held' lease} _.
Arguments rb_served {t h adm opener t' h' b held held' lease} _.
Arguments rb_presence {t h adm opener t' h' b held held' lease} _ cid l _.
Arguments rb_other {t h adm opener t' h' b held held' lease} _ k _.
Arguments rb_core {t h adm opener t' h' b held held' lease} _.
Arguments rb_lease_binds {t h adm opener t' h' b held held' lease} _.
Arguments rb_lease_served {t h adm opener t' h' b held held' lease} _.
Arguments rb_lease_released {t h adm opener t' h' b held held' lease} _.
Arguments rb_lease_presence {t h adm opener t' h' b held held' lease} _ l _.
Arguments rb_leases {t h adm opener t' h' b held held' lease} _.
Arguments rb_loc {t h adm opener t' h' b held held' lease} _.
Arguments rb_counters {t h adm opener t' h' b held held' lease} _ l.
Arguments rb_sets {t h adm opener t' h' b held held' lease} _.
Arguments rb_flags {t h adm opener t' h' b held held' lease} _.
Arguments rb_tag {t h adm opener t' h' b held held' lease} _.
Arguments rb_names {t h adm opener t' h' b held held' lease} _.

Lemma with_live_core t o st x held held' :
  owners t !! o = Some st → OwnerScopes.live st !! x = Some held →
  scope_core held' = scope_core held →
  let t' := with_owners t (<[o := OwnerScopes.with_live st
                                    (<[x := held']> (OwnerScopes.live st))]> (owners t)) in
  same_core t t' ∧ scope_at t' (o, x) = Some held' ∧
  ∀ k, k ≠ (o, x) → scope_at t' k = scope_at t k.
Proof.
  intros Ho Hx Hcore t'.
  assert (scope_at t' (o, x) = Some held') as Hnew.
  { unfold scope_at, t'; simpl. rewrite lookup_insert_eq; simpl. by rewrite lookup_insert_eq. }
  assert (∀ k, k ≠ (o, x) → scope_at t' k = scope_at t k) as Hold.
  { intros [o' x'] Hne. unfold scope_at, t'; simpl. destruct (decide (o' = o)) as [->|?].
    - rewrite lookup_insert_eq, Ho; simpl. rewrite lookup_insert_ne; [done|congruence].
    - by rewrite lookup_insert_ne. }
  split_and!; [|done..]. split.
  - done.
  - intros o'. unfold owner_state, t'; simpl. destruct (decide (o' = o)) as [->|?].
    + by rewrite lookup_insert_eq, Ho.
    + by rewrite lookup_insert_ne.
  - intros o'. unfold owner_state, t'; simpl. destruct (decide (o' = o)) as [->|?].
    + by rewrite lookup_insert_eq, Ho.
    + by rewrite lookup_insert_ne.
  - intros k. destruct (decide (k = (o, x))) as [->|?]; [|by rewrite Hold].
    rewrite Hnew. unfold scope_at; simpl. rewrite Ho; simpl. rewrite Hx. simpl. by rewrite Hcore.
Qed.

Lemma reserve_presence_spec h kept cid wanted :
  let '(presence, kept', h') := reserve_presence h kept cid wanted in
  (∀ cid' l, kept' !! cid' = Some l →
     kept !! cid' = Some l ∨ (Heap.next_loc h ≤ l < Heap.next_loc h')%positive) ∧
  (∀ l, presence = Some l → ∃ cid', kept' !! cid' = Some l) ∧ heap_grows h h'.
Proof.
  unfold reserve_presence. destruct wanted; [|split_and!; [auto|done|..]; auto with scopes].
  destruct (kept !! cid) as [l|] eqn:Hl.
  { split_and!; [auto|intros ? [= <-]; eauto|..]; auto with scopes. }
  destruct (_ <? 8); [|split_and!; [auto|done|..]; auto with scopes]. simpl.
  split; [|split; [|exact (heap_grows_alloc h)]].
  - intros cid' l. destruct (decide (cid' = cid)) as [->|?].
    + rewrite lookup_insert_eq. intros [= <-]. right. lia.
    + rewrite lookup_insert_ne by done. auto.
  - intros l [= <-]. exists cid. by rewrite lookup_insert_eq.
Qed.

Lemma reserve_bind_spec t h adm opener cid hold t' h' b :
  reserve_bind t h adm opener cid hold = Some (t', h', b) →
  ∃ held held' lease, reserved_bind t h adm opener t' h' b held held' lease.
Proof.
  unfold reserve_bind. intros Hres.
  destruct (owners t !! ScopeAdmission.owner adm) as [st|] eqn:Ho; [|done].
  destruct (OwnerScopes.live st !! _) as [held|] eqn:Hx; [|done]. cbv zeta in Hres.
  set (h1 := if negb (is_reserved opener) then _ else h) in Hres.
  set (kept := filter _ (LiveScope.presence held)) in Hres.
  pose proof (reserve_presence_spec h1 kept cid (hold && negb (is_reserved opener))) as Hp.
  destruct (reserve_presence _ _ _ _) as [[presence kept'] h2]. destruct Hp as (Hkept & Hpres & Hgrow).
  assert (Heap.next_loc h1 = Heap.next_loc h ∧ Heap.leases h1 = Heap.leases h ∧
          Heap.sets h1 = Heap.sets h ∧ Heap.flags h1 = Heap.flags h ∧
          ∀ l, Heap.counter h1 l = if decide (l = LiveScope.binds held ∧ is_reserved opener = false)
                                   then wrap 64 (Heap.counter h l + 1) else Heap.counter h l)
    as (Hn1 & Hl1 & Hs1 & Hf1 & Hc1).
  { unfold h1. destruct (is_reserved opener); simpl.
    - split_and!; [done..|]. intros l. rewrite decide_False; [done|by intros [_ ?]].
    - split_and!; [done..|]. intros l. unfold Heap.counter at 1; simpl.
      case_decide as Hl; [destruct Hl as [-> _]; by rewrite lookup_insert_eq|].
      rewrite lookup_insert_ne; [done|]. intros <-. by apply Hl. }
  clearbody h1. destruct Hgrow as (Hgc & Hgf & Hgs & Hgl & Hgn). simpl in Hres.
  injection Hres as <- <- <-. simpl.
  edestruct (with_live_core t _ st _ held (LiveScope.mk (LiveScope.record held) (LiveScope.version held)
    (LiveScope.parent_state held) (LiveScope.binds held) kept' (LiveScope.served_modules held)) Ho Hx)
    as (Hcore & Hnew & Hold); [done|].
  eexists held, _, (ScopeBindLease.mk (LiveScope.binds held) (negb (negb (is_reserved opener))) presence
    (LiveScope.served_modules held)). split; [|exact Hnew|..]; try done; simpl; try congruence.
  - unfold scope_at; simpl. by rewrite Ho.
  - intros cid' l Hl. destruct (Hkept cid' l Hl) as [Hk|?]; [left|right; simpl; lia].
    by apply map_lookup_filter_Some in Hk as [? _].
  - by destruct (is_reserved opener).
  - simpl. lia.
  - intros l. rewrite <-Hc1. unfold Heap.counter; simpl. by rewrite Hgc.
Qed.

(** ** Steps *)

(** The table, the heap, the bound scopes handed out by lease, and the binds
    acknowledged so far: owner, ref, epoch and module. *)
Record World := mkWorld {
  table : ScopeTable;
  heap : Heap.t;
  bounds : gmap positive BoundScope.t;
  acked : list (string * string * Z * string);
}.

Definition initial (authority_owners : list string) : World :=
  mkWorld (new_table authority_owners) Heap.empty ∅ [].

Section steps.
Context `{HashOrder} `{AttributeJson} `{ProofCrypto}.

(** A live scope's key and epoch, as a bind carries them. *)
Definition bound_epoch (b : BoundScope.t) : string * string * Z :=
  (BoundScope.owner b, BoundScope.scope_ref b, ScopeTag.scope_epoch (BoundScope.tag b)).

Inductive step (w : World) : World → Prop :=
  | step_change owner connection_id is_current_launch now c t' h' res :
      change (table w) (heap w) owner connection_id is_current_launch now c = Some (t', h', res) →
      step w (mkWorld t' h' (bounds w) (acked w))
  | step_sweep now :
      step w (mkWorld (sweep_expired (table w) now).1 (heap w) (bounds w) (acked w))
  | step_release_connection connection_id :
      step w (mkWorld (release_connection (table w) connection_id) (heap w) (bounds w) (acked w))
  | step_bind opener target selector configured now connection_id admission t' h' b :
      admit_bind (table w) opener target selector configured now = Ok admission →
      reserve_bind (table w) (heap w) admission opener connection_id
        (ScopeSelector.hold_presence selector) = Some (t', h', b) →
      step w (mkWorld t' h' (<[BoundScope.lease b := b]> (bounds w)) (acked w))
  | step_served b module_id :
      bounds w !! BoundScope.lease b = Some b →
      step w (mkWorld (table w) (BoundScope.record_served (heap w) b module_id) (bounds w)
                ((bound_epoch b, module_id) :: acked w))
  | step_commit_presence b :
      bounds w !! BoundScope.lease b = Some b →
      step w (mkWorld (table w) (BoundScope.commit_presence (heap w) b) (bounds w) (acked w))
  | step_release_bind b :
      bounds w !! BoundScope.lease b = Some b →
      step w (mkWorld (table w) (BoundScope.release_bind (heap w) b) (bounds w) (acked w))
  | step_drop b :
      bounds w !! BoundScope.lease b = Some b →
      step w (mkWorld (table w) (BoundScope.drop (heap w) b) (bounds w) (acked w)).

Inductive reachable (authority_owners : list string) : World → Prop :=
  | reach_initial : reachable authority_owners (initial authority_owners)
  | reach_step w w' : reachable authority_owners w → step w w' → reachable authority_owners w'.

(** ** The table invariant is reached *)

Lemma new_table_ok l : table_ok (new_table l).
Proof.
  assert (∀ k, scope_at (new_table l) k = None) as Hnone
    by (intros k; unfold scope_at; simpl; by rewrite lookup_empty).
  split.
  - intros o. unfold owner_state; simpl. rewrite lookup_empty. apply owner_ok_empty.
  - split; intros k s p; by rewrite Hnone.
  - intros n k Hn. simpl in Hn. unfold linked_up in Hn. by rewrite Hnone in Hn.
Qed.

Lemma step_table_ok w w' : step w w' → table_ok (table w) → table_ok (table w').
Proof.
  intros Hstep Hok. destruct Hstep; simpl; try done.
  - by eapply change_ok.
  - by apply sweep_ok.
  - eapply same_core_ok; [apply release_connection_core|done].
  - match goal with Hr : reserve_bind _ _ _ _ _ _ = _ |- _ =>
      apply reserve_bind_spec in Hr as (held & held' & lease & Hr) end.
    eapply same_core_ok; [|done]. by eapply rb_core.
Qed.

Lemma reachable_table_ok l w : reachable l w → table_ok (table w).
Proof. induction 1; [apply new_table_ok|by eapply step_table_ok]. Qed.

(** ** Who owns the cells *)

(** The leases on a bind counter that have not been released. *)
Definition unreleased (h : Heap.t) (c : positive) : nat :=
  size (filter (λ e : positive * ScopeBindLease.t,
                  ScopeBindLease.binds e.2 = c ∧ ScopeBindLease.released e.2 = false)
               (Heap.leases h)).

Definition epoch_of (s : LiveScope.t) : Z := ScopeRecord.scope_epoch (LiveScope.record s).

(** The counter of a scope counts its unreleased leases; cells belong to one
    live scope, and a lease on them to a bind of that scope at its epoch; the
    history of a scope names only modules that acknowledged it. *)
Record heap_ok (w : World) : Prop := {
  hk_counter l : Heap.counter (heap w) l = wrap 64 (Z.of_nat (unreleased (heap w) l));
  hk_lease id l : Heap.leases (heap w) !! id = Some l →
    (id < Heap.next_loc (heap w))%positive ∧
    (ScopeBindLease.binds l < Heap.next_loc (heap w))%positive ∧
    (ScopeBindLease.served_modules l < Heap.next_loc (heap w))%positive;
  hk_fresh l : (Heap.next_loc (heap w) ≤ l)%positive → Heap.sets (heap w) !! l = None;
  hk_scope k s : scope_at (table w) k = Some s →
    (LiveScope.binds s < Heap.next_loc (heap w))%positive ∧
    (LiveScope.served_modules s < Heap.next_loc (heap w))%positive;
  hk_inj k k' s s' : scope_at (table w) k = Some s → scope_at (table w) k' = Some s' → k ≠ k' →
    LiveScope.binds s ≠ LiveScope.binds s' ∧
    LiveScope.served_modules s ≠ LiveScope.served_modules s';
  hk_bound id b l k s : bounds w !! id = Some b → Heap.leases (heap w) !! id = Some l →
    scope_at (table w) k = Some s →
    ScopeBindLease.binds l = LiveScope.binds s ∨
    ScopeBindLease.served_modules l = LiveScope.served_modules s →
    bound_epoch b = (k, epoch_of s);
  hk_acked k s m : scope_at (table w) k = Some s →
    m ∈ Heap.set_of (heap w) (LiveScope.served_modules s) → (k, epoch_of s, m) ∈ acked w;
}.

Definition same_cells (s s' : LiveScope.t) : Prop :=
  LiveScope.binds s' = LiveScope.binds s ∧
  LiveScope.served_modules s' = LiveScope.served_modules s ∧ epoch_of s' = epoch_of s.

(** Every scope of [t'] keeps the cells it had in [t], or has new ones. *)
Record cells_kept (t t' : ScopeTable) (h h' : Heap.t) : Prop := {
  ck_scope k s' : scope_at t' k = Some s' →
    (∃ s, scope_at t k = Some s ∧ same_cells s s') ∨
    (Heap.next_loc h ≤ LiveScope.binds s' < Heap.next_loc h')%positive ∧
    (Heap.next_loc h ≤ LiveScope.served_modules s' < Heap.next_loc h')%positive;
  ck_distinct k k' s s' : scope_at t' k = Some s → scope_at t' k' = Some s' → k ≠ k' →
    (Heap.next_loc h ≤ LiveScope.binds s)%positive →
    (Heap.next_loc h ≤ LiveScope.binds s')%positive →
    LiveScope.binds s ≠ LiveScope.binds s' ∧
    LiveScope.served_modules s ≠ LiveScope.served_modules s';
}.

Lemma heap_ok_table t t' h h' bs ac :
  heap_ok (mkWorld t h bs ac) → heap_grows h h' → cells_kept t t' h h' →
  heap_ok (mkWorld t' h' bs ac).
Proof.
  intros [Hcnt Hlease Hfresh Hscope Hinj Hbound Hack] (Hc & _ & Hs & Hl & Hn) [Hkeep Hdist].
  simpl in *. split; simpl.
  - intros l. unfold Heap.counter, unreleased in *. rewrite Hc, Hl. apply Hcnt.
  - intros id l. rewrite Hl. intros Hid. destruct (Hlease id l Hid) as (? & ? & ?). lia.
  - intros l Hlt. rewrite Hs. apply Hfresh. lia.
  - intros k s' Hs'. destruct (Hkeep k s' Hs') as [(s & Hsk & -> & -> & _)|?]; [|lia].
    destruct (Hscope k s Hsk). lia.
  - intros k k' s s' Hsk Hsk' Hne.
    destruct (Hkeep k s Hsk) as [(s0 & Hs0 & Hb & Hv & _)|Hf],
             (Hkeep k' s' Hsk') as [(s0' & Hs0' & Hb' & Hv' & _)|Hf'].
    + rewrite Hb, Hv, Hb', Hv'. by eapply Hinj.
    + destruct (Hscope k s0 Hs0). rewrite Hb, Hv. lia.
    + destruct (Hscope k' s0' Hs0'). rewrite Hb', Hv'. lia.
    + eapply Hdist; eauto; lia.
  - intros id b l k s' Hb Hid Hs' Hcell. rewrite Hl in Hid.
    destruct (Hkeep k s' Hs') as [(s & Hsk & Heb & Hev & Hee)|?].
    + rewrite Heb, Hev in Hcell. rewrite Hee. by eapply Hbound.
    + destruct (Hlease id l Hid) as (? & ? & ?). lia.
  - intros k s' m Hs' Hm. unfold Heap.set_of in *. rewrite Hs in Hm.
    destruct (Hkeep k s' Hs') as [(s & Hsk & _ & Hev & Hee)|[_ Hf]].
    + rewrite Hee. rewrite Hev in Hm. by apply (Hack k s m).
    + rewrite Hfresh in Hm by lia. simpl in Hm. set_solver.
Qed.

Lemma cells_kept_old t t' h bs ac :
  heap_ok (mkWorld t h bs ac) →
  (∀ k s', scope_at t' k = Some s' → ∃ s, scope_at t k = Some s ∧ same_cells s s') →
  cells_kept t t' h h.
Proof.
  intros Hok Hold. split; [by left; apply Hold|].
  intros k k' s s' Hs _ _ Hge _. destruct (Hold k s Hs) as (s0 & Hs0 & Hb & _).
  destruct (hk_scope _ Hok k s0 Hs0); simpl in *. lia.
Qed.

(** A refresh keeps every cell. *)
Lemma refresh_cells t o tc k s' :
  scope_at (refresh_links_to t o tc).1 k = Some s' →
  ∃ s, scope_at t k = Some s ∧ same_cells s s'.
Proof.
  intros Hs'. destruct (refresh_spec t o tc) as [(_ & _ & Hs) _]. specialize (Hs k).
  rewrite Hs' in Hs. inversion Hs as [s ? (Hr & Hb & _ & Hv) Heq|]; simplify_eq.
  exists s. split; [done|]. split_and!; [done..|]. unfold epoch_of. by rewrite Hr.
Qed.

Lemma refreshes_cells changed t tc k s' :
  scope_at (foldl (λ acc owner, refresh_links_to acc.1 owner acc.2) (t, tc) changed).1 k = Some s' →
  ∃ s, scope_at t k = Some s ∧ same_cells s s'.
Proof.
  revert t tc s'; induction changed as [|o changed IH]; intros t tc s' Hs'; cbn [foldl] in Hs'.
  { exists s'. by split_and!. }
  destruct (refresh_links_to t o tc) as [t1 tc1] eqn:Hr. cbn [fst snd] in Hs'. rewrite Hr in Hs'.
  destruct (IH t1 tc1 s' Hs') as (s1 & Hs1 & Hb1 & Hv1 & He1).
  replace t1 with (refresh_links_to t o tc).1 in Hs1 by (by rewrite Hr).
  apply refresh_cells in Hs1 as (s & Hs & Hb & Hv & He). exists s. split; [done|].
  split_and!; congruence.
Qed.

Lemma sweep_cells t now k s' :
  scope_at (sweep_expired t now).1 k = Some s' → ∃ s, scope_at t k = Some s ∧ same_cells s s'.
Proof.
  destruct (sweep_expired_split t now) as (changed & _ & ->). cbn [fst].
  intros (s & [Hs _]%swept_scope_at & ?)%refreshes_cells. by exists s.
Qed.

Section stored_cells.
Context (t : ScopeTable) (h : Heap.t) (owner : string) (connection_id : Z)
  (is_current_launch : Z → bool) (now : Z) (c : ScopeChange) (applied : SyncApplied.t)
  (state' : OwnerScopes.t) (version : Z) (h' : Heap.t) (state : OwnerScopes.t)
  (expired : list ScopeExpired.t) (s : Settle.t).
Context (Hacc : accepted (with_owners t (delete owner (owners t))) h owner (owner_state t owner)
                  connection_id is_current_launch now c applied state' version h' state expired s).

(** A committed scope continues one of the table, or its cells are new. *)
Lemma stored_scope_cells x sc :
  OwnerScopes.live state' !! x = Some sc →
  (∃ s0, scope_at t (owner, x) = Some s0 ∧ same_cells s0 sc) ∨
  continued (OwnerScopes.live state) x (LiveScope.record sc) = None ∧
  (Heap.next_loc h ≤ LiveScope.binds sc < Heap.next_loc h')%positive ∧
  (Heap.next_loc h ≤ LiveScope.served_modules sc < Heap.next_loc h')%positive.
Proof.
  intros Hsc. destruct (accepted_live _ _ _ _ _ _ _ _ _ _ _ _ _ _ _ Hacc x sc Hsc)
    as (rec & _ & Hcom).
  pose proof (com_cells _ _ _ _ _ _ _ _ _ _ Hcom) as Hcells.
  rewrite (com_record _ _ _ _ _ _ _ _ _ _ Hcom).
  destruct (continued _ x rec) as [held|] eqn:Hc; [left|right; split; [done|]; lia].
  apply continued_Some in Hc as [Hheld He]. exists held.
  split; [exact (held_at _ _ _ _ _ _ _ _ _ _ _ _ _ _ Hacc x held Hheld)|].
  destruct Hcells as (? & _ & ?). split_and!; [done..|]. unfold epoch_of.
  by rewrite (com_record _ _ _ _ _ _ _ _ _ _ Hcom).
Qed.

Lemma stored_cells_kept bs ac :
  heap_ok (mkWorld t h bs ac) → cells_kept t (stored t owner state' version) h h'.
Proof.
  intros Hok. split.
  - intros [o x] s' Hs'. destruct (decide (o = owner)) as [->|?].
    + rewrite stored_own in Hs'. destruct (stored_scope_cells x s' Hs') as [?|(_ & ?)]; auto.
    + rewrite stored_other in Hs' by done. left. exists s'. by split_and!.
  - intros [o x] [o' x'] sc sc' Hsc Hsc' Hne Hge Hge'.
    assert (∀ k s0, scope_at t k = Some s0 → (LiveScope.binds s0 < Heap.next_loc h)%positive) as Hlt.
    { intros k s0 Hs0. by destruct (hk_scope _ Hok k s0 Hs0). }
    destruct (decide (o = owner)) as [->|?];
      [|rewrite stored_other in Hsc by done; specialize (Hlt _ _ Hsc); lia].
    destruct (decide (o' = owner)) as [->|?];
      [|rewrite stored_other in Hsc' by done; specialize (Hlt _ _ Hsc'); lia].
    rewrite stored_own in Hsc, Hsc'.
    destruct (stored_scope_cells x sc Hsc) as [(s0 & Hs0 & Hb & _)|[Hc _]];
      [specialize (Hlt _ _ Hs0); lia|].
    destruct (stored_scope_cells x' sc' Hsc') as [(s0 & Hs0 & Hb & _)|[Hc' _]];
      [specialize (Hlt _ _ Hs0); lia|].
    apply (acc_distinct _ _ _ _ _ _ _ _ _ _ _ _ _ _ _ Hacc x x' sc sc'); try done. congruence.
Qed.
End stored_cells.

Lemma change_heap_ok t h owner connection_id is_current_launch now c t' h' res bs ac :
  change t h owner connection_id is_current_launch now c = Some (t', h', res) →
  heap_ok (mkWorld t h bs ac) → heap_ok (mkWorld t' h' bs ac).
Proof.
  intros [(Heqv & -> & _)|(ap & state' & version & state & expired & s & tc & ? & Hacc & Hr & _)]%change_inv Hok.
  { eapply heap_ok_table; [done|auto with scopes|]. eapply cells_kept_old; [done|].
    intros k s'. rewrite Heqv. intros Hs'. exists s'. by split_and!. }
  eapply heap_ok_table; [|apply heap_grows_refl|eapply cells_kept_old].
  - eapply heap_ok_table; [done|by eapply acc_heap|by eapply stored_cells_kept].
  - eapply heap_ok_table; [done|by eapply acc_heap|by eapply stored_cells_kept].
  - intros k s'. replace t' with (refresh_links_to (stored t owner state' version) owner
                     (SyncApplied.tag_changes ap)).1 by (by rewrite Hr). apply refresh_cells.
Qed.

(** ** Lease steps *)

Lemma wrap_add w n d : wrap w (wrap w n + d) = wrap w (n + d).
Proof. unfold wrap. apply Zplus_mod_idemp_l. Qed.

Lemma unreleased_insert_new h ls id l c :
  ls !! id = None →
  unreleased (Heap.set_leases h (<[id := l]> ls)) c
  = ((if decide (ScopeBindLease.binds l = c ∧ ScopeBindLease.released l = false) then 1 else 0)
     + unreleased (Heap.set_leases h ls) c)%nat.
Proof.
  intros Hid. unfold unreleased; simpl. case_decide as Hl.
  - rewrite map_filter_insert_True by done. rewrite map_size_insert_None; [done|].
    apply map_lookup_filter_None. by left.
  - rewrite map_filter_insert_False by done. by rewrite delete_id.
Qed.

Lemma unreleased_delete h ls id l c :
  ls !! id = Some l →
  unreleased (Heap.set_leases h ls) c
  = ((if decide (ScopeBindLease.binds l = c ∧ ScopeBindLease.released l = false) then 1 else 0)
     + unreleased (Heap.set_leases h (delete id ls)) c)%nat.
Proof.
  intros Hid. rewrite <-(insert_delete_id ls id l) at 1 by done.
  apply unreleased_insert_new. apply lookup_delete_eq.
Qed.

Lemma unreleased_leases h h' c : Heap.leases h' = Heap.leases h → unreleased h' c = unreleased h c.
Proof. unfold unreleased. by intros ->. Qed.

(** The lease marked released. *)
Definition released_lease (l : ScopeBindLease.t) : ScopeBindLease.t :=
  ScopeBindLease.mk (ScopeBindLease.binds l) true (ScopeBindLease.presence l)
    (ScopeBindLease.served_modules l).

(** Releasing counts the lease down once; the counter keeps in step. *)
Lemma release_bind_counter h b :
  (∀ c, Heap.counter h c = wrap 64 (Z.of_nat (unreleased h c))) →
  ∀ c, Heap.counter (BoundScope.release_bind h b) c
       = wrap 64 (Z.of_nat (unreleased (BoundScope.release_bind h b) c)).
Proof.
  intros Hcnt c. unfold BoundScope.release_bind.
  destruct (Heap.leases h !! BoundScope.lease b) as [l|] eqn:Hl; [|done].
  fold (released_lease l). set (ls' := <[BoundScope.lease b := released_lease l]> (Heap.leases h)).
  assert (unreleased h c = (if decide (ScopeBindLease.binds l = c ∧ ScopeBindLease.released l = false)
    then 1 else 0) + unreleased (Heap.set_leases h ls') c)%nat as Hun.
  { rewrite <-(unreleased_leases h (Heap.set_leases h (Heap.leases h))) by done.
    rewrite (unreleased_delete h (Heap.leases h) _ l c Hl).
    unfold ls'. rewrite <-insert_delete_eq, (unreleased_insert_new h _ _ (released_lease l))
      by apply lookup_delete_eq.
    by destruct (decide (ScopeBindLease.binds (released_lease l) = c ∧ _)) as [[_ ?]|_]. }
  destruct (ScopeBindLease.released l) eqn:Hr; simpl.
  - rewrite decide_False in Hun by (by intros [_ ?]). simpl in Hun. rewrite <-Hun. apply Hcnt.
  - rewrite (unreleased_leases (Heap.set_leases h ls')) by done.
    unfold Heap.counter, Heap.fetch_add; simpl.
    destruct (decide (ScopeBindLease.binds l = c)) as [<-|Hne].
    + rewrite lookup_insert_eq; simpl. rewrite decide_True in Hun by done.
      fold (Heap.counter h (ScopeBindLease.binds l)).
      unfold Heap.counter in Hcnt |- *; simpl. rewrite Hcnt, wrap_add. f_equal. lia.
    + rewrite lookup_insert_ne by done. rewrite decide_False in Hun by (by intros [? _]).
      simpl in Hun. rewrite <-Hun. apply Hcnt.
Qed.

Lemma release_bind_leases h b id l :
  Heap.leases (BoundScope.release_bind h b) !! id = Some l →
  ∃ l0, Heap.leases h !! id = Some l0 ∧ ScopeBindLease.binds l = ScopeBindLease.binds l0 ∧
        ScopeBindLease.served_modules l = ScopeBindLease.served_modules l0.
Proof.
  unfold BoundScope.release_bind.
  destruct (Heap.leases h !! BoundScope.lease b) as [lb|] eqn:Hl; [|by eauto].
  intros Hid.
  assert (<[BoundScope.lease b := released_lease lb]> (Heap.leases h) !! id = Some l) as Hid'
    by (by destruct (negb _)).
  apply lookup_insert_Some in Hid' as [[<- <-]|[_ ?]]; eauto.
Qed.

Lemma release_bind_rest h b :
  Heap.next_loc (BoundScope.release_bind h b) = Heap.next_loc h ∧
  Heap.sets (BoundScope.release_bind h b) = Heap.sets h ∧
  Heap.flags (BoundScope.release_bind h b) = Heap.flags h.
Proof.
  unfold BoundScope.release_bind. destruct (Heap.leases h !! _); [|done]. by destruct (negb _).
Qed.

(** The invariant needs less of the heap than it names. *)
Lemma heap_ok_leases t h h' bs ac :
  heap_ok (mkWorld t h bs ac) →
  (∀ c, Heap.counter h' c = wrap 64 (Z.of_nat (unreleased h' c))) →
  Heap.next_loc h' = Heap.next_loc h → Heap.sets h' = Heap.sets h →
  (∀ id l, Heap.leases h' !! id = Some l →
     ∃ l0, Heap.leases h !! id = Some l0 ∧ ScopeBindLease.binds l = ScopeBindLease.binds l0 ∧
           ScopeBindLease.served_modules l = ScopeBindLease.served_modules l0) →
  heap_ok (mkWorld t h' bs ac).
Proof.
  intros [Hcnt Hlease Hfresh Hscope Hinj Hbound Hack] Hc Hn Hs Hl. simpl in *.
  split; simpl; rewrite ?Hn; try done.
  - intros id l Hid. destruct (Hl id l Hid) as (l0 & Hid0 & -> & ->). by eapply Hlease.
  - intros. rewrite Hs. by apply Hfresh.
  - intros id b l k s Hb Hid Hsk. destruct (Hl id l Hid) as (l0 & Hid0 & -> & ->). by eapply Hbound.
  - intros k s m Hsk Hm. unfold Heap.set_of in *. rewrite Hs in Hm. by eapply Hack.
Qed.

Lemma release_bind_heap_ok t h b bs ac :
  heap_ok (mkWorld t h bs ac) → heap_ok (mkWorld t (BoundScope.release_bind h b) bs ac).
Proof.
  intros Hok. destruct (release_bind_rest h b) as (? & ? & ?).
  eapply heap_ok_leases; [done| |done|done|apply release_bind_leases].
  apply release_bind_counter. apply Hok.
Qed.

Lemma commit_presence_heap_ok t h b bs ac :
  heap_ok (mkWorld t h bs ac) → heap_ok (mkWorld t (BoundScope.commit_presence h b) bs ac).
Proof.
  intros Hok. unfold BoundScope.commit_presence.
  destruct (Heap.leases h !! _) as [l|]; [|done].
  destruct (ScopeBindLease.presence l); [|done].
  eapply heap_ok_leases; [done|apply Hok|done..|]. simpl. eauto.
Qed.

Lemma drop_heap_ok t h b bs ac :
  heap_ok (mkWorld t h bs ac) → heap_ok (mkWorld t (BoundScope.drop h b) bs ac).
Proof.
  intros Hok. unfold BoundScope.drop.
  pose proof (release_bind_heap_ok t h b bs ac Hok) as Hok1.
  assert (∀ l, Heap.leases (BoundScope.release_bind h b) !! BoundScope.lease b = Some l →
               ScopeBindLease.released l = true) as Hrel.
  { intros l. unfold BoundScope.release_bind.
    destruct (Heap.leases h !! BoundScope.lease b) eqn:Hl; [|congruence].
    destruct (negb _); simpl; rewrite lookup_insert_eq; by intros [= <-]. }
  set (h1 := BoundScope.release_bind h b) in *. clearbody h1.
  eapply heap_ok_leases; [exact Hok1| |done|done|].
  - intros c. transitivity (Heap.counter h1 c); [done|].
    etransitivity; [exact (hk_counter _ Hok1 c)|]. simpl. do 2 f_equal.
    destruct (Heap.leases h1 !! BoundScope.lease b) as [l|] eqn:Hl.
    + rewrite <-(unreleased_leases h1 (Heap.set_leases h1 (Heap.leases h1))) by done.
      rewrite (unreleased_delete h1 _ _ l c Hl).
      destruct (decide _) as [[_ Hf]|_]; [|done]. by rewrite (Hrel l eq_refl) in Hf.
    + by apply unreleased_leases; simpl; rewrite delete_id.
  - simpl. intros id l Hid. apply lookup_delete_Some in Hid as [_ ?]. eauto.
Qed.

Lemma served_heap_ok t h b m bs ac :
  bs !! BoundScope.lease b = Some b →
  heap_ok (mkWorld t h bs ac) →
  heap_ok (mkWorld t (BoundScope.record_served h b m) bs ((bound_epoch b, m) :: ac)).
Proof.
  intros Hb Hok. pose proof Hok as [Hcnt Hlease Hfresh Hscope Hinj Hbound Hack]. simpl in *.
  unfold BoundScope.record_served. destruct (Heap.leases h !! _) as [l|] eqn:Hl.
  - split; simpl; try done.
    + intros c Hc. destruct (Hlease _ l Hl) as (_ & _ & ?). rewrite lookup_insert_ne by lia. auto.
    + intros k s m' Hs. unfold Heap.set_of; simpl.
      destruct (decide (ScopeBindLease.served_modules l = LiveScope.served_modules s)) as [He|He].
      * rewrite He, lookup_insert_eq; simpl. intros [->%elem_of_singleton|Hm]%elem_of_union.
        -- rewrite (Hbound _ b l k s Hb Hl Hs (or_intror He)). apply elem_of_cons. by left.
        -- right. by apply Hack.
      * rewrite lookup_insert_ne by done. intros Hm. right. by apply (Hack k s m').
  - split; simpl; try done. intros k s m' Hs Hm. right. by apply (Hack k s m').
Qed.

Lemma bind_counter t h adm opener t' h' b held held' lease :
  reserved_bind t h adm opener t' h' b held held' lease →
  Heap.leases h !! BoundScope.lease b = None →
  (∀ c, Heap.counter h c = wrap 64 (Z.of_nat (unreleased h c))) →
  ∀ c, Heap.counter h' c = wrap 64 (Z.of_nat (unreleased h' c)).
Proof.
  intros Hrb Hnew Hcnt c. rewrite (rb_counters Hrb).
  rewrite (unreleased_leases (Heap.set_leases h (<[BoundScope.lease b:=lease]> (Heap.leases h))) h')
    by apply Hrb.
  rewrite unreleased_insert_new by done. rewrite (rb_lease_binds Hrb), (rb_lease_released Hrb).
  rewrite Hcnt, (unreleased_leases h (Heap.set_leases h (Heap.leases h))) by done.
  destruct (decide (c = LiveScope.binds held ∧ _)) as [[-> Ho]|Hn].
  - rewrite decide_True, wrap_add by done. f_equal. lia.
  - by rewrite decide_False by (intros [<- ?]; by apply Hn).
Qed.

(** The cells a bind leaves to the scopes of the table. *)
Lemma bind_cells t h adm opener t' h' b held held' lease k s' :
  reserved_bind t h adm opener t' h' b held held' lease →
  scope_at t' k = Some s' → ∃ s, scope_at t k = Some s ∧ same_cells s s'.
Proof.
  intros Hrb Hs'. destruct (decide (k = (BoundScope.owner b, BoundScope.scope_ref b))) as [->|Hne].
  - rewrite (rb_held' Hrb) in Hs'. injection Hs' as <-. exists held.
    split; [apply Hrb|]. split_and!; [apply Hrb..|]. unfold epoch_of. by rewrite (rb_record Hrb).
  - rewrite (rb_other Hrb) in Hs' by done. by exists s'.
Qed.

Lemma bind_heap_ok t h bs ac adm opener t' h' b held held' lease :
  heap_ok (mkWorld t h bs ac) →
  ScopeTag.scope_epoch (ScopeAdmission.tag adm) = epoch_of held →
  reserved_bind t h adm opener t' h' b held held' lease →
  heap_ok (mkWorld t' h' (<[BoundScope.lease b := b]> bs) ac).
Proof.
  intros [Hcnt Hlease Hfresh Hscope Hinj Hbound Hack] Hepoch Hrb. simpl in *.
  pose proof (λ k s', bind_cells _ _ _ _ _ _ _ _ _ _ k s' Hrb) as Hold.
  pose proof (rb_loc Hrb) as Hloc.
  pose proof (rb_held Hrb) as Hheld.
  destruct (Hscope _ held Hheld) as [Hbl Hsl].
  split; simpl.
  - eapply bind_counter; [done| |done].
    destruct (Heap.leases h !! _) as [l|] eqn:Hl; [|done]. destruct (Hlease _ l Hl). lia.
  - intros id l. rewrite (rb_leases Hrb).
    intros [[<- <-]|[_ Hl]]%lookup_insert_Some.
    + rewrite (rb_lease_binds Hrb), (rb_lease_served Hrb). lia.
    + destruct (Hlease id l Hl) as (? & ? & ?). lia.
  - intros l Hl. rewrite (rb_sets Hrb). apply Hfresh. lia.
  - intros k s' Hs'. destruct (Hold k s' Hs') as (s & Hs & -> & -> & _). destruct (Hscope k s Hs). lia.
  - intros k k' s s' Hs Hs' Hne. destruct (Hold k s Hs) as (s0 & Hs0 & -> & -> & _).
    destruct (Hold k' s' Hs') as (s0' & Hs0' & -> & -> & _). by eapply Hinj.
  - intros id b' l k s' Hb'. rewrite (rb_leases Hrb).
    intros Hl Hs'. destruct (Hold k s' Hs') as (s & Hs & -> & -> & ->).
    apply lookup_insert_Some in Hl as [[<- <-]|[Hne Hl]].
    + rewrite lookup_insert_eq in Hb'. injection Hb' as <-.
      rewrite (rb_lease_binds Hrb), (rb_lease_served Hrb).
      destruct (decide (k = (BoundScope.owner b, BoundScope.scope_ref b))) as [->|Hne].
      * intros _. unfold bound_epoch. rewrite (rb_tag Hrb), Hepoch. congruence.
      * destruct (Hinj _ _ s held Hs Hheld Hne). intros [?|?]; congruence.
    + rewrite lookup_insert_ne in Hb' by done. by apply (Hbound id b' l k s).
  - intros k s' m Hs'. unfold Heap.set_of. rewrite (rb_sets Hrb).
    destruct (Hold k s' Hs') as (s & Hs & _ & -> & ->). by apply Hack.
Qed.

(** An admitted bind names the live scope it was admitted against. *)
Lemma admit_epoch t opener target sel configured now adm held :
  admit_bind t opener target sel configured now = Ok adm →
  scope_at t (ScopeAdmission.owner adm, ScopeStamp.scope_ref (ScopeAdmission.stamp adm)) = Some held →
  ScopeTag.scope_epoch (ScopeAdmission.tag adm) = epoch_of held.
Proof.
  intros (owner & scope & [_ _ Hsc _ _] & _ & _ & ->)%admit_ok. simpl. rewrite Hsc.
  by intros [= <-].
Qed.

Lemma initial_heap_ok l : heap_ok (initial l).
Proof.
  assert (∀ k, scope_at (new_table l) k = None) as Hnone
    by (intros k; unfold scope_at; simpl; by rewrite lookup_empty).
  split; simpl; try done; intros until 0; try (by rewrite Hnone).
Qed.

Lemma step_heap_ok w w' : step w w' → heap_ok w → heap_ok w'.
Proof.
  intros Hstep Hok. destruct w as [t h bs ac].
  destruct Hstep as [| | |? ? ? ? ? ? ? ? ? ? Hadm Hres| | | |]; simpl in *.
  - by eapply change_heap_ok.
  - eapply heap_ok_table; [done|apply heap_grows_refl|]. eapply cells_kept_old; [done|].
    intros k s'. apply sweep_cells.
  - eapply heap_ok_table; [done|apply heap_grows_refl|]. eapply cells_kept_old; [done|].
    intros k s'. rewrite release_connection_scope_at.
    destruct (scope_at t k) as [s|] eqn:Hs; [|done]. intros [= <-]. by exists s.
  - destruct (reserve_bind_spec _ _ _ _ _ _ _ _ _ Hres) as (held & held' & lease & Hrb).
    eapply bind_heap_ok; [done| |done]. eapply admit_epoch; [done|].
    destruct (rb_names Hrb) as [<- <-]. apply Hrb.
  - by apply served_heap_ok.
  - by apply commit_presence_heap_ok.
  - by apply release_bind_heap_ok.
  - by apply drop_heap_ok.
Qed.

Lemma reachable_heap_ok l w : reachable l w → heap_ok w.
Proof. induction 1; [apply initial_heap_ok|by eapply step_heap_ok]. Qed.

(** ** What the counter and the flags say *)

Lemma unreleased_zero h c :
  unreleased h c = 0%nat ↔
  ∀ id l, Heap.leases h !! id = Some l → ScopeBindLease.binds l = c → ScopeBindLease.released l = true.
Proof.
  unfold unreleased. rewrite map_size_empty_iff, map_empty_filter. split.
  - intros Hall id l Hl Hb. specialize (Hall id l Hl). simpl in Hall.
    destruct (ScopeBindLease.released l); [done|]. by destruct Hall.
  - intros Hall id l Hl [Hb Hr]. simpl in *. by rewrite (Hall id l Hl Hb) in Hr.
Qed.

Lemma scope_in_use_iff w s :
  heap_ok w → Z.of_nat (size (Heap.leases (heap w))) < 2 ^ 64 →
  scope_in_use (heap w) s = false ↔
  (∀ id l, Heap.leases (heap w) !! id = Some l → ScopeBindLease.binds l = LiveScope.binds s →
           ScopeBindLease.released l = true) ∧
  (∀ cid p, LiveScope.presence s !! cid = Some p → Heap.flag (heap w) p = false).
Proof.
  intros Hok Hsize. unfold scope_in_use. rewrite (hk_counter w Hok), wrap_id.
  2:{ unfold in_width, unreleased. split; [lia|]. eapply Z.le_lt_trans; [|exact Hsize].
      apply inj_le, map_size_filter. }
  rewrite orb_false_iff, negb_false_iff, Z.eqb_eq.
  rewrite <-unreleased_zero. rewrite <-not_true_iff_false, existsb_exists. split.
  - intros [? Hf]. split; [lia|]. intros cid p Hp. apply not_true_iff_false. intros Hfl. apply Hf.
    exists (cid, p). split; [by apply list_elem_of_In, elem_of_map_to_list|done].
  - intros [? Hf]. split; [lia|]. intros ([cid p] & Hin%list_elem_of_In%elem_of_map_to_list & Hfl).
    simpl in Hfl. by rewrite (Hf cid p Hin) in Hfl.
Qed.
End steps.
