(* ===== verification/Daemon.v ===== *)
(** * The scope table and the forwarding table together
      ([crates/subc-daemon/src/control.rs])

    The handlers that hold both: a scope change or sweep publishes what it
    changed before the scope table is unlocked; [route.open] is admitted by the
    scope table and then opens a route.  The daemon is a step relation over both
    tables; every step of the forwarding table may come between the two halves
    of an open. *)

From S2P Require Import Prelude Collections Envelope Tokens ScopeTypes Scopes.
From S2P Require Import ScopeRefresh ScopeDrains Flow Forwarding.
From S2P Require Import ForwardingSlots ForwardingInvariant ForwardingOps ForwardingCleanup ForwardingWorld.
From S2P Require Import ScopeTableOk ScopeSweep ScopeTags ScopeEffects ScopeAdmit ScopeWorld.

(** ** Handlers *)

Section handlers.
Context `{Semaphore} `{HashOrder} `{AttributeJson} `{ProofCrypto}.
Implicit Types (t : ScopeTable) (fw : ForwardingInner).

(** Nothing is locked when nothing changed. *)
Definition publish_changes fw (changes : list ScopeTagChange.t)
    : ForwardingInner * list Effect * list ScopeDrainedRoute.t :=
  match changes with
  | [] => (fw, [], [])
  | _ => publish_scope_changes fw changes
  end.

Definition sweep_expired_scopes t fw (now : Z)
    : ScopeTable * ForwardingInner * list Effect * list ScopeDrainedRoute.t :=
  let '(t, swept) := sweep_expired t now in
  let '(fw, effects, drained) := publish_changes fw (swept_tag_changes swept) in
  (t, fw, effects, drained).

(** [registration]: the module registered on the connection.  The records are
    already prepared. *)
Definition handle_scope_change t fw (registration : option string) (connection_id : Z)
    (is_current_launch : Z → bool) (now : Z) (c : ScopeChange)
    : option (ScopeTable * ForwardingInner * list Effect * Result SyncApplied.t string
              * list ScopeDrainedRoute.t) :=
  match registration with
  | None => Some (t, fw, [], Err "not_registered", [])
  | Some owner =>
      let? outcome := change t (scope_heap fw) owner connection_id is_current_launch now c in
      let '(t, heap, outcome) := outcome in
      let fw := fw <| scope_heap := heap |> in
      match outcome with
      | Ok applied =>
          let '(fw, effects, drained) := publish_changes fw (SyncApplied.tag_changes applied) in
          Some (t, fw, effects, Ok applied, drained)
      | Err code => Some (t, fw, [], Err code, [])
      end
  end.

(** The scope half of [route.open]. [capabilities]: what the target provides. *)
Definition admit_route_open t fw (principal : Principal) (target_module_id : string)
    (selector : ScopeSelector.t) (owner_configured : bool) (capabilities : option (list string))
    (now connection_id : Z)
    : option (ScopeTable * ForwardingInner * Result (BoundScope.t * ScopeStamp.t) string) :=
  let checked :=
    let! admission := admit_bind t principal target_module_id selector owner_configured now in
    let! _ := check_target_flow_support (ScopeAdmission.stamp admission) capabilities in
    let! _ := check_target_agent_run_support (ScopeAdmission.stamp admission) capabilities in
    Ok admission in
  match checked with
  | Err code => Some (t, fw, Err code)
  | Ok admission =>
      let? reserved := reserve_bind t (scope_heap fw) admission principal connection_id
                         (ScopeSelector.hold_presence selector) in
      let '(t, heap, bound) := reserved in
      Some (t, fw <| scope_heap := heap |>, Ok (bound, ScopeAdmission.stamp admission))
  end.
End handlers.

(** ** Steps *)

(** An open that was admitted and has not reached the forwarding table. *)
Record Opening := mkOpening {
  op_bound : BoundScope.t;
  op_principal : Principal;
  op_target : string;
}.

Section daemon.
Context `{Semaphore} `{HashOrder} `{AttributeJson} `{ProofCrypto} `{RouteOpenJson}.
Implicit Types (i j : ForwardingInner).

Record Daemon := mkDaemon {
  scopes_of : ScopeTable;
  routes_of : ForwardingInner;
  openings : list Opening;
}.

(** What the flow of a route goes through between admission and teardown. *)
Inductive flow_op : (ChannelFlow.t → ChannelFlow.t) → Prop :=
  | flow_op_release corr : flow_op (λ f, ChannelFlow.release_corr f corr)
  | flow_op_permit : flow_op (λ f, default f (ChannelFlow.acquire_permit f))
  | flow_op_recorded corr sub : flow_op (λ f, (ChannelFlow.acquire_recorded f corr sub).2)
  | flow_op_warn now : flow_op (λ f, (ChannelFlow.should_warn_busy f now).2).

(** The operations of the forwarding table that only take away. *)
Inductive fw_op (i : ForwardingInner) : ForwardingInner → Prop :=
  | op_register c id ver conc sink ack queued :
      fw_op i (register_module_connection i c id ver conc sink ack queued).1.1
  | op_register_candidate c id ver conc sink ack queued :
      fw_op i (register_candidate_module_connection i c id ver conc sink ack queued).1.1
  | op_cutover id : fw_op i (cutover_candidate i id).1.1
  | op_control id op deadline started allow :
      fw_op i (begin_module_control_rpc i id op deadline started allow).1.1
  | op_probe e op started deadline :
      fw_op i (begin_endpoint_health_probe_rpc i e op started deadline).1.1
  | op_cancel e corr : fw_op i (cancel_module_control_rpc i e corr)
  | op_tombstone e corr now : fw_op i (tombstone_health_probe_rpc i e corr now).1
  | op_expire key now : fw_op i (expire_health_probe_tombstone i key now)
  | op_control_reply c corr op outcome now :
      fw_op i (complete_module_control_rpc i c corr op outcome now).1.1
  | op_mark e corr : fw_op i (mark_route_bind_relay_enqueued i e corr).1
  | op_abort e corr outcome : fw_op i (abort_pending_relay i e corr outcome).1.1
  | op_release_client ck epoch : fw_op i (release_client_route i ck epoch).1.1
  | op_release_module c ch epoch : fw_op i (release_module_route i c ch epoch).1.1
  | op_request r epoch corr sub : fw_op i (try_admit_request i r epoch corr sub).1
  | op_flow addr f : flow_op f → fw_op i (with_flow i addr f)
  | op_status e ch epoch text : fw_op i (cache_status i e ch epoch text).1
  | op_daemon_drain : fw_op i (begin_daemon_drain i).1
  | op_drain_result e drained : fw_op i (record_daemon_drain_result i e drained)
  | op_module_drain id reason : fw_op i (begin_module_drain i id reason).1.1
  | op_endpoint_drain e reason : fw_op i (begin_endpoint_drain i e reason).1.1
  | op_release_endpoint e : fw_op i (release_module_endpoint_routes i e).1.1
  | op_cleanup c : fw_op i (cleanup_connection i c).1.1
  | op_escalate c ch epoch code : fw_op i (escalate_client_delivery_failure i c ch epoch code).1.1.

Lemma fw_op_step i j : fw_op i j → fw_ok i → fw_ok j ∧ shrinks i j.
Proof.
  intros Hop Hok. destruct Hop.
  - split; [by apply register_module_connection_ok|by apply register_shrinks].
  - split; [by apply register_candidate_module_connection_ok|by apply register_candidate_shrinks].
  - split; [by apply cutover_candidate_ok|apply cutover_shrinks].
  - by apply begin_module_control_rpc_step.
  - by apply begin_endpoint_health_probe_rpc_step.
  - split; [by apply cancel_module_control_rpc_ok|]. by apply same_authority_shrinks.
  - split; [by apply tombstone_health_probe_rpc_ok|]. apply same_authority_shrinks.
    unfold tombstone_health_probe_rpc. destruct (pending_control_rpcs i !! (e, corr)) as [p|]; [|done].
    by destruct (PendingModuleControlRpcEntry.health_probe_started_at p).
  - unfold expire_health_probe_tombstone. destruct (is_some_and _ _); [|done].
    split; [fw_frame|by apply same_authority_shrinks].
  - split; [by apply complete_module_control_rpc_ok|apply complete_module_control_rpc_shrinks].
  - split; [by apply mark_route_bind_relay_enqueued_ok|apply mark_shrinks].
  - split; [by apply abort_pending_relay_ok|apply abort_shrinks].
  - split; [by apply release_client_route_ok|apply release_client_route_shrinks].
  - unfold release_module_route. destruct (endpoint_by_connection i !! c); [|done].
    split; [by apply release_module_route_locked_ok|apply release_module_route_shrinks].
  - by apply try_admit_request_step.
  - by apply with_flow_step.
  - by apply cache_status_step.
  - split; [by apply begin_daemon_drain_ok|apply begin_daemon_drain_shrinks].
  - unfold record_daemon_drain_result. destruct (is_some _); [|done].
    split; [fw_frame|by apply same_authority_shrinks].
  - unfold begin_module_drain. destruct (modules_by_id i !! id) as [m|]; [|done].
    pose proof (begin_drain_ok i m reason Hok). pose proof (begin_drain_shrinks i m reason).
    by destruct (begin_drain i m reason) as [[??]?].
  - unfold begin_endpoint_drain. destruct (module_connection_for_endpoint i e) as [m|]; [|done].
    pose proof (begin_drain_ok i m reason Hok). pose proof (begin_drain_shrinks i m reason).
    by destruct (begin_drain i m reason) as [[??]?].
  - split; [by apply release_module_routes_ok|apply release_module_routes_shrinks].
  - split; [by apply cleanup_connection_ok|by apply cleanup_shrinks].
  - unfold escalate_client_delivery_failure. destruct (bool_decide _); [|done].
    split; [fw_frame|by apply same_authority_shrinks].
Qed.

Definition start (authority_owners : list string) (fw : ForwardingInner) : Daemon :=
  mkDaemon (new_table authority_owners) fw [].

(** The counter of scope versions is 64 bits wide; a step that hands out
    versions leaves it room. *)
Inductive daemon_step (d : Daemon) : Daemon → Prop :=
  | ds_change registration connection_id is_current_launch now c t' fw' effects res drained :
      handle_scope_change (scopes_of d) (routes_of d) registration connection_id is_current_launch now c
      = Some (t', fw', effects, res, drained) →
      version_room (scopes_of d) t' →
      daemon_step d (mkDaemon t' fw' (openings d))
  | ds_sweep now t' fw' effects drained :
      sweep_expired_scopes (scopes_of d) (routes_of d) now = (t', fw', effects, drained) →
      sweep_room (scopes_of d) →
      daemon_step d (mkDaemon t' fw' (openings d))
  | ds_release_connection connection_id :
      daemon_step d (mkDaemon (release_connection (scopes_of d) connection_id) (routes_of d) (openings d))
  | ds_admit principal target selector configured caps now connection_id t' fw' b stamp :
      admit_route_open (scopes_of d) (routes_of d) principal target selector configured caps now
        connection_id = Some (t', fw', Ok (b, stamp)) →
      daemon_step d (mkDaemon t' fw' (mkOpening b principal target :: openings d))
  | ds_abandon l o l' :
      openings d = l ++ o :: l' →
      daemon_step d (mkDaemon (scopes_of d) (drop_scope (routes_of d) (Some (op_bound o))) (l ++ l'))
  | ds_begin l o l' c sink ver corr deadline busy :
      openings d = l ++ o :: l' →
      daemon_step d (mkDaemon (scopes_of d)
        (begin_route_bind_relay (routes_of d) c sink ver corr (op_target o) (op_principal o)
           (Some (op_bound o)) deadline busy).1.1 (l ++ l'))
  | ds_begin_unscoped c sink ver corr target principal deadline busy :
      daemon_step d (mkDaemon (scopes_of d)
        (begin_route_bind_relay (routes_of d) c sink ver corr target principal None deadline busy).1.1
        (openings d))
  | ds_complete c corr outcome sink_closed writer_closed now :
      daemon_step d (mkDaemon (scopes_of d)
        (complete_pending_relay (routes_of d) c corr outcome sink_closed writer_closed now).1.1
        (openings d))
  | ds_forwarding fw' :
      fw_op (routes_of d) fw' → daemon_step d (mkDaemon (scopes_of d) fw' (openings d)).

Inductive daemon_reachable (authority_owners : list string) : Daemon → Prop :=
  | dr_start : daemon_reachable authority_owners (start authority_owners empty_forwarding)
  | dr_step d d' : daemon_reachable authority_owners d → daemon_step d d' →
      daemon_reachable authority_owners d'.

(** ** The joint invariant *)

Definition bound_key (b : BoundScope.t) : string * string :=
  (BoundScope.owner b, BoundScope.scope_ref b).

(** What an admitted bind is worth: as long as the scope is published under the
    tag it was admitted at, the opener may carry it to the module. *)
Definition granted (t : ScopeTable) (b : BoundScope.t) (p : Principal) (m : string) : Prop :=
  ScopeTag.version (BoundScope.tag b) ≤ last_version t ∧
  ∀ s, scope_at t (bound_key b) = Some s → LiveScope.tag s = BoundScope.tag b →
       was_permitted (BoundScope.owner b) s p m.

(** What a route needs to stand: its scope is live in its epoch, and the opener
    may carry it to the module. *)
Definition authorized (t : ScopeTable) (b : BoundScope.t) (p : Principal) (m : string) : Prop :=
  ∃ s, scope_at t (bound_key b) = Some s ∧
       epoch_of s = ScopeTag.scope_epoch (BoundScope.tag b) ∧
       was_permitted (BoundScope.owner b) s p m.

Record joint t i (ops : list Opening) : Prop := {
  jt_fw : fw_ok i;
  jt_versions : versions_ok t;
  jt_tags k : scope_tags i !! k = tag_at t k;
  jt_openings o : o ∈ ops → granted t (op_bound o) (op_principal o) (op_target o);
  jt_pending key p m b : pending_relays i !! key = Some p → module_id_by_endpoint i !! key.1 = Some m →
    PendingRouteBindRelayEntry.scope p = Some b →
    granted t b (PendingRouteBindRelayEntry.principal p) m;
  jt_routes ck r b : client_to_module i !! ck = Some r → RouteBinding.scope r = Some b →
    authorized t b (RouteBinding.principal r) (RouteBinding.module_id r);
}.

Lemma granted_move t t' tc b p m : table_move t t' tc → granted t b p m → granted t' b p m.
Proof.
  intros Hmv [Hv Hg]. split; [pose proof (tm_last _ _ _ Hmv); lia|]. intros s' Hs' Htag.
  destruct (tm_versions _ _ _ Hmv _ _ Hs') as [(s & Hs & Hrec & Hver)|Hnew].
  - unfold was_permitted. rewrite <-Hrec. apply (Hg s Hs). unfold LiveScope.tag in *. congruence.
  - rewrite <-Htag in Hv. simpl in Hv. lia.
Qed.

Lemma by_scope_spec tc ch :
  NoDup (change_key <$> tc) → ch ∈ tc → by_scope tc !! change_key ch = Some ch.
Proof.
  unfold by_scope. intros Hnd Hin. pose proof (list_elem_of_split _ _ Hin) as (l & l' & ->).
  rewrite foldl_app. cbn [foldl]. fold (change_key ch).
  apply (foldl_inv (λ m, m !! change_key ch = Some ch)); [apply lookup_insert_eq|].
  intros m c Hc Hm. rewrite lookup_insert_ne; [done|]. fold (change_key c). intros Heq.
  rewrite fmap_app, fmap_cons in Hnd. apply NoDup_app in Hnd as (_ & _ & [Hnew _]%NoDup_cons).
  apply Hnew. rewrite <-Heq. by apply list_elem_of_fmap_2.
Qed.

Lemma publish_tags t t' tc tags :
  tags_cover t t' tc → (∀ k, tags !! k = tag_at t k) →
  ∀ k, foldl publish_tag tags tc !! k = tag_at t' k.
Proof.
  intros [Hnd Hct Hall] Ht k.
  assert (∀ l tags, (∀ ch, ch ∈ l → ScopeTagChange.after ch = tag_at t' (change_key ch)) →
    (tags !! k = tag_at t' k ∨ k ∈ change_key <$> l) → foldl publish_tag tags l !! k = tag_at t' k) as Hrun.
  { clear. induction l as [|ch l IH]; intros tags Hch Hk; cbn [foldl]; [set_solver|].
    apply IH; [set_solver|]. rewrite fmap_cons, elem_of_cons in Hk.
    assert (publish_tag tags ch !! k
      = if decide (k = change_key ch) then ScopeTagChange.after ch else tags !! k) as ->.
    { unfold publish_tag. fold (change_key ch).
      destruct (ScopeTagChange.after ch), (decide (k = change_key ch)) as [->|];
        by rewrite ?lookup_insert_eq, ?lookup_delete_eq, ?lookup_insert_ne, ?lookup_delete_ne. }
    destruct (decide (k = change_key ch)) as [->|]; [left; apply Hch; set_solver|].
    destruct Hk as [?|[?|?]]; [by left|done|by right]. }
  apply Hrun; [intros ch Hin; by apply Hct|]. rewrite Ht.
  destruct (decide (tag_at t k = tag_at t' k)) as [|Hne]; [by left|right; by apply Hall].
Qed.

(** Authority survives, or is lost in one of the ways a move reports. *)
Lemma still_authorized t t' b p m s :
  scope_at t (bound_key b) = Some s → epoch_of s = ScopeTag.scope_epoch (BoundScope.tag b) →
  authorized t' b p m ∨
  match scope_at t' (bound_key b) with
  | None => True
  | Some s' => epoch_of s' ≠ epoch_of s ∨ ¬ was_permitted (BoundScope.owner b) s' p m
  end.
Proof.
  intros Hs He. unfold authorized. destruct (scope_at t' (bound_key b)) as [s'|]; [|by right].
  destruct (decide (epoch_of s' = epoch_of s)) as [Heq|]; [|by right; left].
  assert (Decision (was_permitted (BoundScope.owner b) s' p m)) as Hdec by (unfold was_permitted; apply _).
  destruct Hdec; [left|by right; right]. exists s'. split_and!; [done|congruence|done].
Qed.

(** A move of the scope table, published, keeps the two in step. *)
Lemma joint_publish t t' tc i ops :
  joint t i ops → table_move t t' tc → joint t' (publish_changes i tc).1.1 ops.
Proof.
  intros [Hfw Hver Htags Hops Hpend Hroutes] Hmv. pose proof (tm_cover _ _ _ Hmv) as Hcov.
  assert ((fw_ok i → fw_ok (publish_changes i tc).1.1) ∧
    client_to_module (publish_changes i tc).1.1
    = filter (λ x, closing_reason tc x.2 = None) (client_to_module i) ∧
    scope_tags (publish_changes i tc).1.1 = foldl publish_tag (scope_tags i) tc ∧
    pending_relays (publish_changes i tc).1.1 = pending_relays i ∧
    module_id_by_endpoint (publish_changes i tc).1.1 = module_id_by_endpoint i)
    as (Hok & Hc & Ht & Hp & Hm).
  { destruct tc as [|ch tc]; [|apply publish_scope_changes_spec]. simpl.
    split_and!; [done| |done..]. symmetry. apply map_filter_id. intros ck r _. unfold closing_reason, by_scope.
    simpl. destruct (RouteBinding.scope r); simpl; [|done]. by rewrite lookup_empty. }
  split.
  - by apply Hok.
  - apply Hmv.
  - rewrite Ht. by apply publish_tags with t.
  - intros o Ho. eapply granted_move; [done|by apply Hops].
  - rewrite Hp, Hm. intros key p m b ???. eapply granted_move; [done|by eapply Hpend].
  - intros ck r b Hr Hb. rewrite Hc in Hr. apply map_lookup_filter_Some in Hr as [Hr Hkept].
    destruct (Hroutes ck r b Hr Hb) as (s & Hs & He & Hperm). simpl in Hkept.
    destruct (still_authorized t t' b (RouteBinding.principal r) (RouteBinding.module_id r) s Hs He)
      as [|Hlost]; [done|].
    destruct (tm_closes _ _ _ Hmv (RouteBinding.principal r) (RouteBinding.module_id r) (bound_key b) s
                Hs Hperm Hlost) as (ch & Hin & Hk & Hd).
    unfold closing_reason in Hkept. rewrite Hb in Hkept. simpl in Hkept.
    fold (bound_key b) in Hkept. rewrite <-Hk, by_scope_spec in Hkept; [|apply Hcov|done]. simpl in Hkept.
    rewrite bool_decide_eq_true_2 in Hkept.
    + destruct Hd as [? Hd]. simpl in Hd. congruence.
    + destruct (cover_tags _ _ _ Hcov ch Hin) as [-> _]. unfold tag_at. rewrite Hk, Hs. simpl. by f_equal.
Qed.

(** The table moves without a tag moving. *)
Lemma quiet_move t t' :
  versions_ok t → last_version t' = last_version t →
  (∀ k, (λ s, (LiveScope.record s, LiveScope.version s)) <$> scope_at t' k
        = (λ s, (LiveScope.record s, LiveScope.version s)) <$> scope_at t k) →
  table_move t t' [].
Proof.
  intros [Hpos Hle] Hlast Hsame.
  assert (∀ k s', scope_at t' k = Some s' → ∃ s, scope_at t k = Some s ∧
    LiveScope.record s = LiveScope.record s' ∧ LiveScope.version s = LiveScope.version s') as Hback.
  { intros k s' Hs'. specialize (Hsame k). rewrite Hs' in Hsame.
    destruct (scope_at t k) as [s|]; [|done]. exists s. by injection Hsame as -> ->. }
  split.
  - split; [constructor|by intros ? ?%not_elem_of_nil|]. intros k Hne. exfalso. apply Hne.
    specialize (Hsame k). unfold tag_at, LiveScope.tag.
    destruct (scope_at t k), (scope_at t' k); simplify_eq/=; congruence.
  - split; [lia|]. intros k s' (s & Hs & _ & <-)%Hback. rewrite Hlast. by eapply Hle.
  - lia.
  - intros k s' Hs'. left. by apply Hback.
  - intros p m k s Hs Hperm Hlost. exfalso. specialize (Hsame k). rewrite Hs in Hsame.
    destruct (scope_at t' k) as [s'|]; [|done]. injection Hsame as Hrec _.
    unfold was_permitted in *. rewrite Hrec in Hlost. by destruct Hlost.
Qed.

Lemma joint_quiet t t' i ops :
  joint t i ops → last_version t' = last_version t →
  (∀ k, (λ s, (LiveScope.record s, LiveScope.version s)) <$> scope_at t' k
        = (λ s, (LiveScope.record s, LiveScope.version s)) <$> scope_at t k) →
  joint t' i ops.
Proof. intros Hj ??. apply (joint_publish t t' [] i ops Hj), quiet_move; [apply Hj|done..]. Qed.

(** The cells behind the scopes are not the forwarding table's business. *)
Lemma joint_heap t i ops h : joint t i ops → joint t (i <| scope_heap := h |>) ops.
Proof. intros [? ? ? ? ? ?]. split; try done. fw_frame. Qed.

Lemma joint_shrinks t i j ops : joint t i ops → fw_ok j → shrinks i j → joint t j ops.
Proof.
  intros [Hfw Hver Htags Hops Hpend Hroutes] Hj [Hc Ht Hp]. split; try done.
  - by rewrite Ht.
  - intros key p m b Hk Hm Hb. destruct (Hp key p m Hk Hm) as (q & Hq & [Hsc Hpr] & Hm').
    rewrite <-Hpr. eapply Hpend; [done..|congruence].
  - intros ck r b Hr. eapply Hroutes. by eapply lookup_weaken.
Qed.

Lemma joint_openings t i ops ops' : joint t i ops → ops' ⊆ ops → joint t i ops'.
Proof. intros [? ? ? Hops ? ?] Hsub. split; try done. intros o Ho. by apply Hops, Hsub. Qed.

Lemma joint_pending t i j ops b p m :
  joint t i ops → fw_ok j →
  client_to_module j = client_to_module i → scope_tags j = scope_tags i →
  (∀ scope, b = Some scope → granted t scope p m) →
  (∀ key q m', pending_relays j !! key = Some q → module_id_by_endpoint j !! key.1 = Some m' →
     (pending_relays i !! key = Some q ∧ module_id_by_endpoint i !! key.1 = Some m') ∨
     (PendingRouteBindRelayEntry.scope q = b ∧ PendingRouteBindRelayEntry.principal q = p ∧ m' = m)) →
  joint t j ops.
Proof.
  intros [Hfw Hver Htags Hops Hpend Hroutes] Hj Hc Ht Hg Hp. split; rewrite ?Hc, ?Ht; try done.
  intros key q m' scope Hk Hm Hb. destruct (Hp key q m' Hk Hm) as [[Hk' Hm']|(Hsc & Hpr & ->)].
  - by eapply Hpend.
  - rewrite Hpr. apply Hg. congruence.
Qed.

Lemma joint_committed t i j ops key p :
  joint t i ops → fw_ok j → route_committed i key p j → joint t j ops.
Proof.
  intros [Hfw Hver Htags Hops Hpend Hroutes] Hj [Hp Hscope Ht Hrel (r & m & Hc & Hm & Hrm & Hrs & Hrp & _)].
  split; try done.
  - by rewrite Ht.
  - intros k q m' b Hk Hm'. destruct (Hrel k q m' Hk Hm'). by eapply Hpend.
  - intros ck r' b. rewrite Hc. intros [[<- <-]|[_ Hr]]%lookup_insert_Some Hb; [|by eapply Hroutes].
    rewrite Hrs in Hb. specialize (Hscope b Hb). unfold scope_refusal in Hscope.
    fold (bound_key b) in Hscope. rewrite Htags in Hscope. unfold tag_at in Hscope.
    destruct (scope_at t (bound_key b)) as [s|] eqn:Hs; [|done]. simpl in Hscope.
    destruct (decide _) as [Htag|]; [|by destruct (_ =? _)].
    exists s. split_and!; [done|by rewrite <-Htag|]. rewrite Hrm, Hrp. by eapply Hpend.
Qed.

Lemma admitted_granted t h p target sel configured now adm cid hold t' h' b :
  admit_bind t p target sel configured now = Ok adm →
  reserve_bind t h adm p cid hold = Some (t', h', b) → versions_ok t →
  last_version t' = last_version t ∧
  (∀ k, (λ s, (LiveScope.record s, LiveScope.version s)) <$> scope_at t' k
        = (λ s, (LiveScope.record s, LiveScope.version s)) <$> scope_at t k) ∧
  granted t b p target.
Proof.
  intros Hadm Hres [_ Hle].
  assert (last_version t' = last_version t) as Hlast.
  { unfold reserve_bind in Hres. destruct (owners t !! _) as [st|]; [|done].
    destruct (OwnerScopes.live st !! _); [|done]. cbv zeta in Hres.
    destruct (reserve_presence _ _ _ _) as [[??]?]. simpl in Hres. by injection Hres as <- _ _. }
  apply reserve_bind_spec in Hres as (held & held' & lease & Hrb).
  apply admit_ok in Hadm as (owner & s & [Ho _ Hs _ _] & Hcarry & _ & ->).
  destruct (rb_names Hrb) as [Hbo Hbx]. simpl in Hbo, Hbx.
  assert (bound_key b = (owner, ScopeSelector.scope_ref sel)) as Hkey by (unfold bound_key; congruence).
  pose proof (rb_held Hrb) as Hheld. fold (bound_key b) in Hheld.
  rewrite Hkey, Hs in Hheld. injection Hheld as <-.
  pose proof (rb_tag Hrb) as Htag. simpl in Htag.
  split_and!; [done| |].
  - intros k. destruct (decide (k = bound_key b)) as [->|Hk].
    + pose proof (rb_held' Hrb) as Hheld'. fold (bound_key b) in Hheld'.
      rewrite Hheld', Hkey, Hs. simpl.
      by rewrite (rb_record Hrb), (rb_version Hrb).
    + by rewrite (rb_other Hrb).
  - split; [rewrite Htag; simpl; by eapply Hle|]. intros s'. rewrite Hkey, Hs. intros [= <-] _.
    unfold was_permitted. rewrite Hbo. destruct Hcarry as [Hown|?]; [left|by right].
    by destruct p; simplify_eq/=.
Qed.

Lemma handle_scope_change_joint t i ops reg cid cur now c t' i' effects res drained :
  handle_scope_change t i reg cid cur now c = Some (t', i', effects, res, drained) →
  version_room t t' → joint t i ops → joint t' i' ops.
Proof.
  unfold handle_scope_change. intros Heq Hroom Hj.
  destruct reg as [owner|]; [|by injection Heq as <- <- _ _ _].
  destruct (change _ _ _ _ _ _ _) as [[[t1 h1] [applied|code]]|] eqn:Hch; [| |done]; cbn beta iota zeta in Heq.
  - pose proof (joint_publish t t1 (SyncApplied.tag_changes applied)
      (i <| scope_heap := h1 |>) ops (joint_heap _ _ _ h1 Hj)) as Hpub.
    destruct (publish_changes _ _) as [[fw1 e1] d1]. injection Heq as <- <- _ _ _.
    apply Hpub. by eapply change_move; [apply Hj|..].
  - injection Heq as <- <- _ _ _. apply joint_heap.
    destruct (change_inv _ _ _ _ _ _ _ _ _ _ Hch) as [(Heqv & _ & _)|(?&?&?&?&?&?&?&?&_&_&_&[=])].
    apply joint_quiet with t; [done|by rewrite Heqv|]. intros k. by rewrite Heqv.
Qed.

Lemma sweep_expired_scopes_joint t i ops now t' i' effects drained :
  sweep_expired_scopes t i now = (t', i', effects, drained) →
  sweep_room t → joint t i ops → joint t' i' ops.
Proof.
  unfold sweep_expired_scopes. intros Heq Hroom Hj. pose proof (sweep_move t now) as Hmv.
  destruct (sweep_expired t now) as [t1 swept]. simpl in Hmv.
  pose proof (joint_publish t t1 (swept_tag_changes swept) _ _ Hj) as Hpub.
  destruct (publish_changes _ _) as [[fw1 e1] d1]. simpl in *. injection Heq as <- <- _ _.
  apply Hpub, Hmv; [apply Hj|done].
Qed.

Lemma admit_route_open_Ok t i p target sel configured caps now cid t' i' b stamp :
  admit_route_open t i p target sel configured caps now cid = Some (t', i', Ok (b, stamp)) →
  ∃ adm h', admit_bind t p target sel configured now = Ok adm ∧
    reserve_bind t (scope_heap i) adm p cid (ScopeSelector.hold_presence sel) = Some (t', h', b) ∧
    i' = i <| scope_heap := h' |> ∧ stamp = ScopeAdmission.stamp adm.
Proof.
  unfold admit_route_open. intros Heq.
  destruct (admit_bind _ _ _ _ _ _) as [adm|] eqn:Hadm; [|done]. simpl in Heq.
  destruct (check_target_flow_support _ _) as [[]|]; [|done]. simpl in Heq.
  destruct (check_target_agent_run_support _ _) as [[]|]; [|done]. simpl in Heq.
  destruct (reserve_bind _ _ _ _ _ _) as [[[t1 h1] b1]|] eqn:Hres; [|done]. simpl in Heq.
  injection Heq as <- <- <- <-. by exists adm, h1.
Qed.

Lemma admit_route_open_joint t i ops p target sel configured caps now cid t' i' b stamp :
  admit_route_open t i p target sel configured caps now cid = Some (t', i', Ok (b, stamp)) →
  joint t i ops → joint t' i' (mkOpening b p target :: ops).
Proof.
  intros (adm & h' & Hadm & Hres & -> & _)%admit_route_open_Ok Hj.
  destruct (admitted_granted _ _ _ _ _ _ _ _ _ _ _ _ _ Hadm Hres) as (Hlast & Hsame & Hg); [apply Hj|].
  pose proof (quiet_move _ _ (jt_versions _ _ _ Hj) Hlast Hsame) as Hmv.
  apply joint_heap. destruct (joint_quiet _ _ _ _ Hj Hlast Hsame) as [? ? ? Hops ? ?].
  split; try done. intros o [->|Ho]%elem_of_cons; [|by apply Hops]. by eapply granted_move.
Qed.

Lemma joint_step d d' :
  daemon_step d d' → joint (scopes_of d) (routes_of d) (openings d) →
  joint (scopes_of d') (routes_of d') (openings d').
Proof.
  intros Hstep Hj. destruct Hstep as
    [reg cid cur now c t' fw' effects res drained Heq Hroom|now t' fw' effects drained Heq Hroom|cid
    |p target sel configured caps now cid t' fw' b stamp Heq|l o l' Hl|l o l' c sink ver corr deadline busy Hl
    |c sink ver corr target p deadline busy|c corr outcome sc wc now|fw' Hop]; simpl.
  - by eapply handle_scope_change_joint.
  - by eapply sweep_expired_scopes_joint.
  - apply joint_quiet with (scopes_of d); [done..|]. intros k. rewrite release_connection_scope_at.
    by destruct (scope_at (scopes_of d) k).
  - by eapply admit_route_open_joint.
  - apply joint_openings with (openings d); [by apply joint_heap|]. rewrite Hl. set_solver.
  - pose proof (begin_route_bind_relay_grants (routes_of d) c sink ver corr (op_target o) (op_principal o)
      (Some (op_bound o)) deadline busy (jt_fw _ _ _ Hj)) as (Hc & Ht & Hp).
    eapply (joint_pending _ (routes_of d)); [|by apply begin_route_bind_relay_ok, Hj|exact Hc|exact Ht| |exact Hp].
    + eapply joint_openings; [done|]. rewrite Hl. set_solver.
    + intros scope [= <-]. apply Hj. rewrite Hl. set_solver.
  - pose proof (begin_route_bind_relay_grants (routes_of d) c sink ver corr target p
      None deadline busy (jt_fw _ _ _ Hj)) as (Hc & Ht & Hp).
    by eapply (joint_pending _ (routes_of d)); [|by apply begin_route_bind_relay_ok, Hj|exact Hc|exact Ht| |exact Hp].
  - pose proof (complete_pending_relay_ok (routes_of d) c corr outcome sc wc now (jt_fw _ _ _ Hj)) as Hok.
    destruct (complete_pending_relay_cases (routes_of d) c corr outcome sc wc now (jt_fw _ _ _ Hj))
      as [Hsh|(key & p & Hcom)].
    + by eapply joint_shrinks.
    + by eapply joint_committed.
  - destruct (fw_op_step _ _ Hop (jt_fw _ _ _ Hj)). by eapply joint_shrinks.
Qed.

Lemma reachable_joint l d :
  daemon_reachable l d → joint (scopes_of d) (routes_of d) (openings d).
Proof.
  induction 1 as [|d d' _ IH Hstep]; [|by eapply joint_step]. split; simpl.
  - apply empty_forwarding_ok.
  - split; [done|]. intros [o x] s. unfold scope_at; simpl. by rewrite lookup_empty.
  - intros [o x]. unfold tag_at, scope_at; simpl. by rewrite !lookup_empty.
  - by intros o ?%not_elem_of_nil.
  - intros key p m b. by rewrite lookup_empty.
  - intros ck r b. by rewrite lookup_empty.
Qed.

(** ** What a step does to the routes *)

Lemma publish_changes_routes i tc :
  client_to_module (publish_changes i tc).1.1 ⊆ client_to_module i.
Proof.
  destruct tc as [|ch tc]; [done|]. simpl.
  destruct (publish_scope_changes_spec i (ch :: tc)) as (_ & -> & _). apply map_filter_subseteq.
Qed.

(** A step only takes routes away, or it commits one pending bind. *)
Lemma step_routes d d' :
  daemon_step d d' → joint (scopes_of d) (routes_of d) (openings d) →
  client_to_module (routes_of d') ⊆ client_to_module (routes_of d) ∨
  scopes_of d' = scopes_of d ∧ ∃ key p, route_committed (routes_of d) key p (routes_of d').
Proof.
  intros Hstep Hj. destruct Hstep as
    [reg cid cur now c t' fw' effects res drained Heq _|now t' fw' effects drained Heq _|cid
    |p target sel configured caps now cid t' fw' b stamp Heq|l o l' Hl|l o l' c sink ver corr deadline busy Hl
    |c sink ver corr target p deadline busy|c corr outcome sc wc now|fw' Hop]; simpl.
  - left. unfold handle_scope_change in Heq. destruct reg as [owner|]; [|by injection Heq as <- <- _ _ _].
    destruct (change _ _ _ _ _ _ _) as [[[t1 h1] [applied|code]]|]; [| |done]; cbn beta iota zeta in Heq.
    + pose proof (publish_changes_routes ((routes_of d) <| scope_heap := h1 |>)
        (SyncApplied.tag_changes applied)) as Hsub.
      destruct (publish_changes _ _) as [[fw1 e1] d1]. by injection Heq as <- <- _ _ _.
    + by injection Heq as <- <- _ _ _.
  - left. unfold sweep_expired_scopes in Heq. destruct (sweep_expired _ _) as [t2 swept].
    pose proof (publish_changes_routes (routes_of d) (swept_tag_changes swept)) as Hsub.
    destruct (publish_changes _ _) as [[fw1 e1] d1]. by injection Heq as <- <- _ _.
  - by left.
  - left. by apply admit_route_open_Ok in Heq as (adm & h' & _ & _ & -> & _).
  - by left.
  - left. by destruct (begin_route_bind_relay_grants (routes_of d) c sink ver corr (op_target o)
      (op_principal o) (Some (op_bound o)) deadline busy (jt_fw _ _ _ Hj)) as (-> & _).
  - left. by destruct (begin_route_bind_relay_grants (routes_of d) c sink ver corr target p None deadline
      busy (jt_fw _ _ _ Hj)) as (-> & _).
  - destruct (complete_pending_relay_cases (routes_of d) c corr outcome sc wc now (jt_fw _ _ _ Hj))
      as [Hsh|(key & p & Hcom)]; [left; apply Hsh|right; eauto].
  - left. destruct (fw_op_step _ _ Hop (jt_fw _ _ _ Hj)) as [_ Hsh]. apply Hsh.
Qed.
End daemon.
