(* ===== verification/DrainRun.v ===== *)
(** * A draining endpoint over time

    No step of the daemon opens a flow again that was closed, and none makes a
    route to an endpoint that drains; hence what a drain refuses stays refused as
    long as the endpoint is marked. *)

From S2P Require Import Prelude Collections Envelope Tokens ScopeTypes Scopes.
From S2P Require Import Flow Forwarding ForwardingSlots ForwardingInvariant ForwardingOps.
From S2P Require Import ForwardingCleanup ForwardingDrains ForwardingWorld Daemon.

Section shut.
Context `{Semaphore} `{HashOrder}.
Implicit Types (i j : ForwardingInner).

(** Every flow of [i] is there in [j], and closed if it was closed. *)
Definition shut_kept i j : Prop :=
  ∀ a f, flows i !! a = Some f →
    ∃ f', flows j !! a = Some f' ∧ (ChannelFlow.closed f = true → ChannelFlow.closed f' = true).

#[global] Instance shut_kept_preorder : PreOrder shut_kept.
Proof.
  split.
  - intros i a f Hf. by exists f.
  - intros i j k Hij Hjk a f (f1 & Hf1 & Hc1)%Hij. destruct (Hjk a f1 Hf1) as (f2 & Hf2 & Hc2). exists f2. auto.
Qed.

Lemma shut_same i j : flows j = flows i → shut_kept i j.
Proof. intros Heq a f Hf. exists f. by rewrite Heq. Qed.

Lemma shut_alter i j g addr :
  (∀ f, ChannelFlow.closed f = true → ChannelFlow.closed (g f) = true) → flows j = alter g addr (flows i) → shut_kept i j.
Proof.
  intros Hg Heq a f Hf. rewrite Heq. destruct (decide (a = addr)) as [->|Hne].
  - exists (g f). rewrite lookup_alter_eq, Hf. auto.
  - exists f. by rewrite lookup_alter_ne.
Qed.

Lemma shut_insert i j f1 addr :
  (∀ f, flows i !! addr = Some f → ChannelFlow.closed f = true → ChannelFlow.closed f1 = true) →
  flows j = <[addr := f1]> (flows i) → shut_kept i j.
Proof.
  intros Hg Heq a f Hf. rewrite Heq. destruct (decide (a = addr)) as [->|Hne].
  - exists f1. rewrite lookup_insert_eq. eauto.
  - exists f. by rewrite lookup_insert_ne.
Qed.

Lemma shut_relays i j : only_relays i j → shut_kept i j.
Proof. intros (? & ? & ? & ? & ? & ? & ->). by apply shut_same. Qed.

(** ** Releases *)

Lemma release_scope_bind_flows i scope : flows (release_scope_bind i scope) = flows i.
Proof. by destruct scope. Qed.

Lemma drop_scope_flows i scope : flows (drop_scope i scope) = flows i.
Proof. by destruct scope. Qed.

Lemma release_reserved_flows i ck mk : flows (release_reserved_route i ck mk) = flows i.
Proof. unfold release_reserved_route. by repeat case_decide. Qed.

Lemma release_client_route_shut i ck e : shut_kept i (release_client_route i ck e).1.1.
Proof.
  unfold release_client_route. destruct (client_to_module i !! ck) as [r|]; [|done]. destruct (negb _); [done|].
  apply (shut_alter _ _ ChannelFlow.close (RouteBinding.addr r)); [done|]. simpl. by rewrite release_scope_bind_flows.
Qed.

Lemma release_module_route_shut i mk e : shut_kept i (release_module_route_locked i mk e).1.1.
Proof.
  unfold release_module_route_locked. destruct (module_to_client i !! mk) as [r|]; [|done]. destruct (negb _); [done|].
  apply (shut_alter _ _ ChannelFlow.close (RouteBinding.addr r)); [done|]. simpl. by rewrite release_scope_bind_flows.
Qed.

Lemma release_module_routes_shut routes i : shut_kept i (release_module_routes routes i).1.1.
Proof.
  rewrite release_module_routes_turns. apply (foldl_inv (λ acc, shut_kept i acc.1.1)); [done|].
  intros acc entry _ Hi. rewrite release_turn_state. etrans; [exact Hi|apply release_module_route_shut].
Qed.

Lemma release_client_routes_shut routes i : shut_kept i (release_client_routes routes i).1.1.
Proof.
  rewrite release_client_routes_turns. apply (foldl_inv (λ acc, shut_kept i acc.1.1)); [done|].
  intros acc entry _ Hi. rewrite release_turn_state. etrans; [exact Hi|apply release_client_route_shut].
Qed.

Lemma publish_changes_shut i changes : shut_kept i (publish_changes i changes).1.1.
Proof.
  destruct changes as [|change changes]; [done|]. unfold publish_changes, publish_scope_changes. cbv zeta.
  apply (foldl_inv (λ acc, shut_kept i acc.1.1)); [by apply shut_same|].
  intros acc entry _ Hi. rewrite drain_route_state. etrans; [exact Hi|apply release_client_route_shut].
Qed.

(** ** Drains and cleanups *)

Lemma drain_flows_shut i e : shut_kept i (drain_flows i e).1.
Proof.
  unfold drain_flows. apply (foldl_inv (λ acc, shut_kept i acc.1)); [done|].
  intros [j n] [ck r] _ Hj. simpl in *. etrans; [exact Hj|].
  destruct (flows j !! RouteBinding.addr r) as [f|] eqn:Hf; [|done].
  by apply (shut_insert _ _ (ChannelFlow.begin_drain f).2 (RouteBinding.addr r)).
Qed.

Lemma drop_relays_shut reply keys acc : shut_kept acc.1.1 (foldl (drop_relay reply) acc keys).1.1.
Proof.
  apply (foldl_inv (λ acc', shut_kept acc.1.1 acc'.1.1)); [done|].
  intros acc' key _ Hacc. etrans; [exact Hacc|apply shut_relays, drop_relay_relays].
Qed.

Lemma begin_drain_shut i m reason : shut_kept i (begin_drain i m reason).1.1.
Proof.
  unfold begin_drain. cbv zeta. set (i1 := i <| draining_endpoints := _ |>).
  assert (shut_kept i i1) as H1 by by apply shut_same.
  pose proof (drain_flows_shut i1 (ModuleConnection.endpoint m)) as H2.
  destruct (drain_flows i1 _) as [i2 excluded]. simpl in H2.
  set (keys := endpoint_keys (pending_relays i2) _).
  pose proof (drop_relays_shut (DaemonRejected error_codes.MODULE_RELOADING) keys (i2, [], [])) as H3.
  destruct (foldl (drop_relay _) _ _) as [[i3 effects] targets]. simpl in H3.
  set (keys' := endpoint_keys (pending_control_rpcs i3) _).
  pose proof (drop_control_run keys' (i3, effects)) as H4.
  destruct (foldl drop_control_rpc _ _) as [i4 effects4]. simpl in H4. subst i4.
  etrans; [exact H1|]. etrans; [exact H2|]. etrans; [exact H3|]. by apply shut_same.
Qed.

Lemma begin_daemon_drain_shut i : shut_kept i (begin_daemon_drain i).1.
Proof.
  unfold begin_daemon_drain. destruct (daemon_draining i); [done|]. simpl. apply shut_same.
  apply (foldl_inv (λ j, flows j = flows i)); [|done]. by apply (foldl_inv (λ j, flows j = flows i)).
Qed.

Lemma cleanup_client_shut i c : shut_kept i (cleanup_client_connection i c).1.1.
Proof.
  unfold cleanup_client_connection. cbv zeta. set (routes := _ <$> _).
  pose proof (release_client_routes_shut routes i) as H1. destruct (release_client_routes routes i) as [[i1 e1] r1]. simpl in H1.
  set (keys := _ <$> _). pose proof (drop_relays_shut ModuleGone keys (i1, e1, r1)) as H2.
  destruct (foldl (drop_relay ModuleGone) _ _) as [[i2 e2] r2]. simpl in H2.
  etrans; [exact H1|]. etrans; [exact H2|]. apply shut_same. simpl.
  apply (foldl_inv (λ j, flows j = flows i2)); [done|]. intros j x _ Hj. by rewrite release_reserved_flows.
Qed.

Lemma forget_endpoint_flows i e : flows (forget_endpoint i e) = flows i.
Proof. unfold forget_endpoint. cbv zeta. by repeat case_match. Qed.

Lemma abandon_endpoint_shut i effects e : shut_kept i (abandon_endpoint i effects e).1.1.
Proof.
  unfold abandon_endpoint. cbv zeta. set (pending := filter _ (hash_iter _)).
  set (i1 := i <| pending_relays := _ |>).
  assert (flows (foldl drop_relay_gone (i1, effects) pending).1 = flows i) as H2.
  { apply (foldl_inv (λ acc, flows acc.1 = flows i)); [done|]. intros [j x] entry _ Hj. simpl in *. rewrite drop_scope_flows.
    by destruct (negb _). }
  destruct (foldl drop_relay_gone _ _) as [i2 e2]. simpl in H2.
  set (calls := endpoint_keys (pending_control_rpcs i2) e). pose proof (drop_control_run calls (i2, e2)) as H3.
  destruct (foldl drop_control_rpc _ _) as [i3 e3]. simpl in H3.
  assert (flows i3 = flows i) as Hi3 by by rewrite H3.
  pose proof (release_module_routes_shut (routes_of_endpoint i3 e) i3) as H4.
  destruct (release_module_routes _ i3) as [[i4 e4] r4]. simpl in *. etrans; [|exact H4]. by apply shut_same.
Qed.

Lemma cleanup_shut i c : shut_kept i (cleanup_connection i c).1.1.
Proof.
  unfold cleanup_connection. cbv zeta. set (i1 := i <| closing_connections := _ |>).
  destruct (endpoint_by_connection i1 !! c) as [e|].
  - set (i2 := i1 <| endpoint_by_connection := _ |>). unfold remove_module_connection. cbv zeta.
    set (i3 := forget_endpoint i2 e). set (keys := filter _ _).
    assert (flows (foldl unreserve_turn i3 keys) = flows i) as H3.
    { apply (foldl_inv (λ j, flows j = flows i)); [unfold i3; by rewrite forget_endpoint_flows|]. intros j key _ Hj. unfold unreserve_turn.
      destruct (reserved_module j !! key); [by rewrite release_reserved_flows|done]. }
    pose proof (abandon_endpoint_shut (foldl unreserve_turn i3 keys) [OperatorModuleClosed e] e) as H4.
    destruct (abandon_endpoint _ _ _) as [[i5 e5] c5]. simpl in *. etrans; [|exact H4]. by apply shut_same.
  - pose proof (cleanup_client_shut i1 c) as H2. destruct (cleanup_client_connection i1 c) as [[i2 e2] r2]. simpl in *.
    etrans; [|exact H2]. by apply shut_same.
Qed.
End shut.

(** ** Steps *)

Section steps.
Context `{Semaphore} `{HashOrder} `{AttributeJson} `{ProofCrypto} `{RouteOpenJson}.
Implicit Types (i j : ForwardingInner) (d : Daemon).

Lemma flow_op_shut g : flow_op g → ∀ f, ChannelFlow.closed f = true → ChannelFlow.closed (g f) = true.
Proof.
  intros Hop f Hf. destruct Hop as [corr| |corr sub|now].
  - unfold ChannelFlow.release_corr. by repeat case_match.
  - unfold ChannelFlow.acquire_permit. by destruct (sem_try_acquire _).
  - unfold ChannelFlow.acquire_recorded. by rewrite Hf.
  - unfold ChannelFlow.should_warn_busy. by destruct (is_some_and _ _).
Qed.

Lemma try_admit_shut i r epoch corr sub : shut_kept i (try_admit_request i r epoch corr sub).1.
Proof.
  unfold try_admit_request. destruct (_ || _); [done|]. destruct (flows i !! RouteBinding.addr r) as [f|] eqn:Hf; [|done].
  assert (ChannelFlow.closed f = true → ChannelFlow.closed (ChannelFlow.try_acquire_tagged f corr sub).2 = true) as Hcl
    by (intros Hc; unfold ChannelFlow.try_acquire_tagged; by rewrite Hc).
  destruct (ChannelFlow.try_acquire_tagged f corr sub) as [adm f'].
  assert (shut_kept i (i <| flows := <[RouteBinding.addr r := f']> (flows i) |>)) as Hk.
  { apply (shut_insert _ _ f' (RouteBinding.addr r)); [|done]. intros f0 Hf0. rewrite Hf in Hf0. by injection Hf0 as <-. }
  by destruct adm.
Qed.

(** The operations below leave the flows alone, on every branch. *)
Ltac same_flows := apply shut_same; repeat (case_match; simplify_eq; try done).

Lemma fw_op_shut i j : fw_op i j → shut_kept i j.
Proof.
  intros Hop. destruct Hop.
  - unfold register_module_connection, install_endpoint. same_flows.
  - unfold register_candidate_module_connection, install_endpoint. same_flows.
  - unfold cutover_candidate. same_flows.
  - unfold begin_module_control_rpc, begin_control_rpc, allocate_control_corr. same_flows.
  - unfold begin_endpoint_health_probe_rpc, begin_control_rpc, allocate_control_corr. same_flows.
  - by apply shut_same.
  - unfold tombstone_health_probe_rpc. same_flows.
  - unfold expire_health_probe_tombstone. same_flows.
  - unfold complete_module_control_rpc. same_flows.
  - unfold mark_route_bind_relay_enqueued. same_flows.
  - unfold abort_pending_relay. destruct (pending_relays i !! (e, corr)); [|by apply shut_same].
    apply shut_same. simpl. unfold release_reservation. by rewrite drop_scope_flows, release_reserved_flows.
  - apply release_client_route_shut.
  - unfold release_module_route. destruct (endpoint_by_connection i !! c); [apply release_module_route_shut|done].
  - apply try_admit_shut.
  - eapply shut_alter; [by apply flow_op_shut|done].
  - unfold cache_status. same_flows.
  - apply begin_daemon_drain_shut.
  - unfold record_daemon_drain_result. same_flows.
  - unfold begin_module_drain. destruct (modules_by_id i !! id) as [m|]; [|done].
    pose proof (begin_drain_shut i m reason). by destruct (begin_drain i m reason) as [[??]?].
  - unfold begin_endpoint_drain. destruct (module_connection_for_endpoint i e) as [m|]; [|done].
    pose proof (begin_drain_shut i m reason). by destruct (begin_drain i m reason) as [[??]?].
  - apply release_module_routes_shut.
  - apply cleanup_shut.
  - unfold escalate_client_delivery_failure. same_flows.
Qed.

Lemma allocate_corr_flows i e : flows (allocate_control_corr i e).1 = flows i.
Proof. unfold allocate_control_corr. cbv zeta. by destruct (_ =? 0). Qed.

Lemma allocate_slots_flows i c e : flows (allocate_route_slots i c e).1 = flows i.
Proof.
  unfold allocate_route_slots. cbv zeta. set (j1 := i <| next_client_channel := _ |>).
  destruct (find_channel _ (client_eligible j1 c) _ _) as [cc|]; [|done].
  set (j2 := j1 <| next_module_channel := _ |>).
  by destruct (find_channel _ (module_eligible j2 e) _ _) as [mc|].
Qed.

Lemma begin_route_bind_relay_shut i c sink ver corr id principal scope deadline busy :
  shut_kept i (begin_route_bind_relay i c sink ver corr id principal scope deadline busy).1.1.
Proof.
  assert (∀ j, flows j = flows i → shut_kept i (drop_scope j scope)) as Hrefused
    by (intros j Hj; apply shut_same; by rewrite drop_scope_flows).
  unfold begin_route_bind_relay, relay_refused.
  destruct (is_some (endpoint_by_connection i !! c)); [by apply Hrefused|]. destruct (bool_decide _); [by apply Hrefused|].
  destruct (modules_by_id i !! id) as [module|]; [|by apply Hrefused]. cbv zeta. set (e := ModuleConnection.endpoint module).
  destruct (is_some _); [by apply Hrefused|]. destruct (bool_decide _); [by apply Hrefused|].
  pose proof (allocate_corr_flows i e) as Hcorr. destruct (allocate_control_corr i e) as [i1 [rc|err]]; [|by apply Hrefused].
  pose proof (allocate_slots_flows i1 c e) as Hslots.
  destruct (allocate_route_slots i1 c e) as [i2 [[[[cc ce] mc] me]|err]]; simpl in Hcorr, Hslots; [|apply Hrefused; congruence].
  destruct (build_route_open _ _ _ _ _ _ _) as [frame|err]; [|apply Hrefused; congruence].
  apply shut_same. simpl. congruence.
Qed.

Lemma publish_route_shut i key p m module frame closed now :
  flows_ok (client_to_module i) (flows i) (next_addr i) → shut_kept i (publish_route i key p m module frame closed now).1.1.
Proof.
  intros Hfl. unfold publish_route. cbv zeta. set (b := binding_of p (next_addr i) m module now).
  set (i1 := insert_binding i _ _ b (flow_of p)).
  assert (shut_kept i i1) as Hins.
  { apply (shut_insert _ _ (flow_of p) (RouteBinding.addr b)); [|done]. intros f Hf%(fl_old _ _ _ Hfl). simpl in Hf. lia. }
  etrans; [exact Hins|]. destruct closed; [|by destruct (RouteBinding.scope b); apply shut_same].
  apply (shut_alter _ _ ChannelFlow.close (RouteBinding.addr b)); [done|]. cbn [fst]. rewrite drop_scope_flows.
  by destruct (RouteBinding.scope b).
Qed.

Ltac refused_shut := apply shut_same; cbn [fst]; by rewrite drop_scope_flows.

Lemma commit_route_shut i key p closed now :
  flows_ok (client_to_module i) (flows i) (next_addr i) → shut_kept i (commit_route i key p closed now).1.1.
Proof.
  intros Hfl. unfold commit_route. cbv zeta.
  destruct (bool_decide _); [refused_shut|].
  destruct (module_id_by_endpoint i !! _) as [m|]; [|refused_shut].
  destruct (is_some _); [refused_shut|].
  destruct (commit_frame p) as [frame|err]; [|refused_shut].
  destruct (negb _); [refused_shut|]. set (j := i <| reserved_client := _ |>). cbv zeta.
  destruct (negb _); [refused_shut|].
  destruct (opt_filter _ _) as [module|]; [|refused_shut].
  set (j' := j <| reserved_module := _ |>).
  assert (shut_kept j' (publish_route j' key p m module frame closed now).1.1) as Hp by by apply publish_route_shut.
  destruct (publish_route _ _ _ _ _ _ _ _) as [[i' effects] abandoned]. etrans; [|exact Hp]. by apply shut_same.
Qed.

(** An answered bind closes nothing else, and makes no route to an endpoint
    that drains. *)
Lemma complete_shut i c corr outcome sink_closed writer_closed now :
  fw_ok i →
  let i' := (complete_pending_relay i c corr outcome sink_closed writer_closed now).1.1 in
  shut_kept i i' ∧
  ∀ ck r, client_to_module i' !! ck = Some r →
    client_to_module i !! ck = Some r ∨ draining_endpoints i !! RouteBinding.module_endpoint r = None.
Proof.
  intros Hok. unfold complete_pending_relay.
  destruct (endpoint_by_connection i !! c) as [e|] eqn:He; [|split; [done|by left]].
  destruct (pending_relays i !! (e, corr)) as [p|] eqn:Hp; [|split; [done|by left]]. cbv zeta.
  set (i1 := i <| pending_relays := _ |>).
  assert (let i' := release_reservation i1 p in
    shut_kept i i' ∧ ∀ ck r, client_to_module i' !! ck = Some r →
      client_to_module i !! ck = Some r ∨ draining_endpoints i !! RouteBinding.module_endpoint r = None) as Hdrop.
  { cbv zeta. split.
    - apply shut_same. unfold release_reservation. by rewrite drop_scope_flows, release_reserved_flows.
    - destruct (drop_pending_shrinks i (e, corr) p Hp) as [Hsub _ _]. intros ck r Hr. left. by eapply lookup_weaken. }
  destruct (_ <=? now); [by destruct outcome|]. destruct outcome; [|by apply Hdrop..].
  destruct (sink_closed || _); [by apply Hdrop|]. destruct (is_some _ || _) eqn:Hm; [by apply Hdrop|].
  apply orb_false_iff in Hm as [_ Hdr]. destruct (_ ≫= _) as [code|]; [by apply Hdrop|].
  destruct (ep_pending _ _ _ _ _ _ (fw_epochs _ _ Hok) _ _ Hp) as [Hend [[]|(Hres & _ & _)]].
  destruct (ix_reserved_client _ _ _ _ (fw_index _ _ Hok) _ _ Hres) as [_ Hnone].
  pose proof (commit_route_cases i1 (e, corr) p writer_closed now Hnone Hend) as Hcases.
  pose proof (commit_route_shut i1 (e, corr) p writer_closed now (fw_flows _ _ Hok)) as Hshut.
  destruct (commit_route i1 (e, corr) p writer_closed now) as [[i' effects] res]. cbn [fst snd] in *.
  assert (shut_kept i i' ∧ ∀ ck r, client_to_module i' !! ck = Some r →
      client_to_module i !! ck = Some r ∨ draining_endpoints i !! RouteBinding.module_endpoint r = None) as Hdone; [|by destruct res].
  split; [etrans; [|exact Hshut]; by apply shut_same|]. intros ck r Hr.
  destruct Hcases as [[Hc _ _ _]|(m & module & _ & [Hc _ _ _])]; rewrite Hc in Hr; [by left|].
  simpl in Hr. apply lookup_insert_Some in Hr as [[_ <-]|[_ Hr]]; [right|by left]. simpl. rewrite Hend. simpl in Hdr |- *.
  by destruct (draining_endpoints i !! e).
Qed.

(** What a step keeps of a draining endpoint. *)
Lemma step_shut d d' :
  daemon_step d d' → joint (scopes_of d) (routes_of d) (openings d) →
  shut_kept (routes_of d) (routes_of d') ∧
  ∀ ck r, client_to_module (routes_of d') !! ck = Some r →
    client_to_module (routes_of d) !! ck = Some r ∨
    draining_endpoints (routes_of d) !! RouteBinding.module_endpoint r = None.
Proof.
  intros Hstep Hj. pose proof (jt_fw _ _ _ Hj) as Hok.
  assert (∀ t fw ops, d' = mkDaemon t fw ops → shut_kept (routes_of d) fw ∧ client_to_module fw ⊆ client_to_module (routes_of d) →
    shut_kept (routes_of d) (routes_of d') ∧ ∀ ck r, client_to_module (routes_of d') !! ck = Some r →
      client_to_module (routes_of d) !! ck = Some r ∨
      draining_endpoints (routes_of d) !! RouteBinding.module_endpoint r = None) as Hless.
  { intros t fw ops -> [Hs Hsub]. split; [done|]. intros ck r Hr. left. by eapply lookup_weaken. }
  destruct Hstep as
    [reg cid cur now c t' fw' effects res drained Heq _|now t' fw' effects drained Heq _|cid
    |p target sel configured caps now cid t' fw' b stamp Heq|l o l' Hl|l o l' c sink ver corr deadline busy Hl
    |c sink ver corr target p deadline busy|c corr outcome sc wc now|fw' Hop].
  - eapply Hless; [done|]. unfold handle_scope_change in Heq. destruct reg as [owner|]; [|by injection Heq as <- <- _ _ _].
    destruct (change _ _ _ _ _ _ _) as [[[t1 h1] [applied|code]]|]; [| |done]; cbn beta iota zeta in Heq.
    + pose proof (publish_changes_routes ((routes_of d) <| scope_heap := h1 |>) (SyncApplied.tag_changes applied)) as Hsub.
      pose proof (publish_changes_shut ((routes_of d) <| scope_heap := h1 |>) (SyncApplied.tag_changes applied)) as Hs.
      destruct (publish_changes _ _) as [[fw1 e1] d1]. injection Heq as <- <- _ _ _. split; [|done]. etrans; [|exact Hs]. by apply shut_same.
    + injection Heq as <- <- _ _ _. split; [by apply shut_same|done].
  - eapply Hless; [done|]. unfold sweep_expired_scopes in Heq. destruct (sweep_expired _ _) as [t2 swept].
    pose proof (publish_changes_routes (routes_of d) (swept_tag_changes swept)) as Hsub.
    pose proof (publish_changes_shut (routes_of d) (swept_tag_changes swept)) as Hs.
    destruct (publish_changes _ _) as [[fw1 e1] d1]. by injection Heq as <- <- _ _.
  - by eapply Hless.
  - eapply Hless; [done|]. apply admit_route_open_Ok in Heq as (adm & h' & _ & _ & -> & _). split; [by apply shut_same|done].
  - eapply Hless; [done|]. split; [apply shut_same, drop_scope_flows|done].
  - eapply Hless; [done|]. split; [apply begin_route_bind_relay_shut|].
    by destruct (begin_route_bind_relay_grants (routes_of d) c sink ver corr (op_target o)
      (op_principal o) (Some (op_bound o)) deadline busy Hok) as (-> & _).
  - eapply Hless; [done|]. split; [apply begin_route_bind_relay_shut|].
    by destruct (begin_route_bind_relay_grants (routes_of d) c sink ver corr target p None deadline busy Hok) as (-> & _).
  - by apply complete_shut.
  - eapply Hless; [done|]. split; [by apply fw_op_shut|]. by destruct (fw_op_step _ _ Hop Hok) as [_ []].
Qed.

(** ** Runs *)

(** A step that leaves the endpoint marked as draining. *)
Definition draining_step (e : ModuleEndpointId.t) d d' : Prop :=
  daemon_step d d' ∧ is_Some (draining_endpoints (routes_of d') !! e).

(** The endpoint is marked, has no routes but those of [i0], and their flows are
    closed. *)
Record shut_at (e : ModuleEndpointId.t) i0 i : Prop := {
  sa_marked : is_Some (draining_endpoints i !! e);
  sa_old ck r : client_to_module i !! ck = Some r → RouteBinding.module_endpoint r = e → client_to_module i0 !! ck = Some r;
  sa_closed ck r : client_to_module i !! ck = Some r → RouteBinding.module_endpoint r = e →
    ∃ f, flows i !! RouteBinding.addr r = Some f ∧ ChannelFlow.closed f = true;
}.

Lemma drained_shut i e reason i' effects : endpoint_drained i e reason i' effects → shut_at e i i'.
Proof.
  intros Hdn. split.
  - rewrite (dn_draining _ _ _ _ _ Hdn), lookup_insert_eq. eauto.
  - by rewrite (dn_routes _ _ _ _ _ Hdn).
  - intros ck r Hr He. rewrite (dn_routes _ _ _ _ _ Hdn) in Hr. by apply (dn_closed _ _ _ _ _ Hdn ck r).
Qed.

Lemma shut_run e i0 d d' :
  rtc (draining_step e) d d' → joint (scopes_of d) (routes_of d) (openings d) → shut_at e i0 (routes_of d) →
  joint (scopes_of d') (routes_of d') (openings d') ∧ shut_at e i0 (routes_of d').
Proof.
  induction 1 as [d|d d1 d' [Hstep Hmark] _ IH]; intros Hj Hs; [done|]. apply IH; [by eapply joint_step|].
  destruct (step_shut _ _ Hstep Hj) as [Hkept Hroutes].
  assert (∀ ck r, client_to_module (routes_of d1) !! ck = Some r → RouteBinding.module_endpoint r = e →
    client_to_module (routes_of d) !! ck = Some r) as Hold.
  { intros ck r Hr <-. destruct (Hroutes ck r Hr) as [?|Hno]; [done|]. destruct (sa_marked _ _ _ Hs). congruence. }
  split; [done|..]; intros ck r Hr He; specialize (Hold ck r Hr He).
  - by apply (sa_old _ _ _ Hs).
  - destruct (sa_closed _ _ _ Hs ck r Hold He) as (f & Hf & Hc). destruct (Hkept _ _ Hf) as (f' & ? & ?). eauto.
Qed.

Lemma shut_refuses e i0 i ck r corr subscription :
  fw_ok i → shut_at e i0 i → client_to_module i !! ck = Some r → RouteBinding.module_endpoint r = e →
  (try_admit_request i r (RouteBinding.client_epoch r) corr subscription).2 = ModuleReloading.
Proof.
  intros Hok Hs Hr He. unfold try_admit_request. rewrite Z.eqb_refl.
  destruct (ix_client _ _ _ _ (fw_index _ _ Hok) ck r Hr) as [-> _]. rewrite Hr. simpl.
  rewrite bool_decide_eq_true_2 by done. simpl.
  destruct (sa_closed _ _ _ Hs ck r Hr He) as (f & -> & Hc).
  unfold ChannelFlow.try_acquire_tagged. rewrite Hc, He. simpl. by destruct (sa_marked _ _ _ Hs) as [? ->].
Qed.
End steps.
