(* ===== verification/ForwardingStore.v ===== *)
(** * The forwarding table's module store

    The five maps that say which process serves which module id.  Registering a
    module, nominating a candidate, cutting over to it and a connection's going
    away change them; nothing else the daemon does to the table does. *)

From S2P Require Import Prelude Collections Envelope Tokens ScopeTypes Scopes ScopeDrains.
From S2P Require Import Flow Forwarding ForwardingSlots ForwardingInvariant ForwardingOps.
From S2P Require Import ForwardingCleanup ForwardingWorld Daemon.

Section store.
Context `{Semaphore} `{HashOrder}.
Implicit Types (i j : ForwardingInner).

Record Store := mkStore {
  st_active : gmap string ModuleConnection.t;
  st_candidates : gmap string ModuleConnection.t;
  st_superseded : gmap ModuleEndpointId.t ModuleConnection.t;
  st_endpoints : gmap Z ModuleEndpointId.t;
  st_names : gmap ModuleEndpointId.t string;
}.

#[global] Instance store_expand : Expand Store := λ s,
  mkStore (st_active s) (st_candidates s) (st_superseded s) (st_endpoints s) (st_names s).

Definition store i : Store :=
  mkStore (modules_by_id i) (candidates_by_id i) (superseded_endpoints i) (endpoint_by_connection i) (module_id_by_endpoint i).

Definition store_ok (s : Store) : Prop :=
  names_ok (st_endpoints s) (st_names s) (st_active s) (st_candidates s) (st_superseded s).

(** ** Operations that leave it alone *)

Lemma only_routes_store i j : only_routes i j → store j = store i.
Proof. by intros (? & ? & ? & ? & ? & ->). Qed.

Lemma only_relays_store i j : only_relays i j → store j = store i.
Proof. by intros (? & ? & ? & ? & ? & ? & ->). Qed.

Lemma drop_scope_store i scope : store (drop_scope i scope) = store i.
Proof. by destruct scope. Qed.

Lemma release_reserved_store i ck mk : store (release_reserved_route i ck mk) = store i.
Proof. unfold release_reserved_route. by destruct (decide _), (decide _). Qed.

Lemma release_reservation_store i p : store (release_reservation i p) = store i.
Proof. unfold release_reservation. by rewrite drop_scope_store, release_reserved_store. Qed.

Lemma drop_relay_store reply acc key : store (drop_relay reply acc key).1.1 = store acc.1.1.
Proof.
  unfold drop_relay. destruct acc as [[i effects] targets]. cbn [fst]. destruct (pending_relays i !! key) as [p|]; [|done].
  pose proof (release_reservation_store (i <| pending_relays := delete key (pending_relays i) |>) p) as Hr.
  by destruct (PendingRouteBindRelayEntry.relay_enqueued p).
Qed.

Lemma drop_control_rpc_store acc key : store (drop_control_rpc acc key).1 = store acc.1.
Proof. unfold drop_control_rpc. destruct acc as [i effects]. by destruct (pending_control_rpcs i !! key). Qed.

Lemma foldl_store {A B} (f : A → B → A) (view : A → Store) l a : (∀ a b, view (f a b) = view a) → view (foldl f a l) = view a.
Proof. intros Hf. apply (foldl_inv (λ x, view x = view a)); [done|]. intros x b _ <-. apply Hf. Qed.

Lemma drain_flows_store i e : store (drain_flows i e).1 = store i.
Proof.
  unfold drain_flows. rewrite (foldl_store _ (λ acc : ForwardingInner * Z, store acc.1)); [done|].
  intros [j n] entry. cbn [fst]. destruct (flows j !! _) as [f|]; [|done]. by destruct (ChannelFlow.begin_drain f).
Qed.

Lemma begin_drain_store i m reason : store (begin_drain i m reason).1.1 = store i.
Proof.
  unfold begin_drain. set (i1 := i <| draining_endpoints := _ |>).
  pose proof (drain_flows_store i1 (ModuleConnection.endpoint m)) as H2.
  destruct (drain_flows i1 _) as [i2 excluded]. cbn [fst] in H2.
  pose proof (foldl_store (drop_relay (DaemonRejected error_codes.MODULE_RELOADING)) (λ acc, store acc.1.1)
    (endpoint_keys (pending_relays i2) (ModuleConnection.endpoint m)) (i2, [], []) (drop_relay_store _)) as H3.
  destruct (foldl (drop_relay _) _ _) as [[i3 effects] abandoned]. cbn [fst] in H3.
  pose proof (foldl_store drop_control_rpc (λ acc, store acc.1)
    (endpoint_keys (pending_control_rpcs i3) (ModuleConnection.endpoint m)) (i3, effects) drop_control_rpc_store) as H4.
  destruct (foldl drop_control_rpc _ _) as [i4 effects']. cbn [fst] in *. by rewrite H4, H3, H2.
Qed.

Lemma allocate_corr_store i e : store (allocate_control_corr i e).1 = store i.
Proof. unfold allocate_control_corr. by destruct (_ =? 0). Qed.

Lemma allocate_slots_store i c e : store (allocate_route_slots i c e).1 = store i.
Proof.
  unfold allocate_route_slots. generalize channel_fuel as fuel. intros fuel.
  destruct (find_channel _ _ _ _); [|done]. by destruct (find_channel _ _ _ _).
Qed.

Lemma begin_control_store i id m op deadline started allow :
  store (begin_control_rpc i id m op deadline started allow).1.1 = store i.
Proof.
  unfold begin_control_rpc. destruct (_ && _); [done|]. destruct (bool_decide _); [done|].
  set (i1 := if is_some started then _ else _).
  assert (store i1 = store i) as H1 by (unfold i1; by destruct (is_some started)).
  pose proof (allocate_corr_store i1 (ModuleConnection.endpoint m)) as Ha.
  destruct (allocate_control_corr i1 _) as [i2 [corr|e]]; cbn [fst] in *; by rewrite <-H1, <-Ha.
Qed.

Context `{RouteOpenJson}.

Lemma begin_relay_store i c sink ver corr id p scope deadline busy :
  store (begin_route_bind_relay i c sink ver corr id p scope deadline busy).1.1 = store i.
Proof.
  unfold begin_route_bind_relay, relay_refused. destruct (is_some _); [apply drop_scope_store|].
  destruct (bool_decide _); [apply drop_scope_store|]. destruct (modules_by_id i !! id) as [m|]; [|apply drop_scope_store].
  destruct (is_some _); [apply drop_scope_store|]. destruct (bool_decide _); [apply drop_scope_store|].
  pose proof (allocate_corr_store i (ModuleConnection.endpoint m)) as Ha.
  destruct (allocate_control_corr i _) as [i1 [n|e]]; cbn [fst] in *; [|by rewrite drop_scope_store].
  pose proof (allocate_slots_store i1 c (ModuleConnection.endpoint m)) as Hs.
  destruct (allocate_route_slots i1 _ _) as [i2 [[[[cc ce] mc] me]|e]]; cbn [fst] in *; [|by rewrite drop_scope_store, Hs].
  destruct (build_route_open _ _ _ _ _ _ _); cbn [fst]; by rewrite ?drop_scope_store, <-Ha, <-Hs.
Qed.

Lemma publish_route_store i key p id m frame closed now : store (publish_route i key p id m frame closed now).1.1 = store i.
Proof.
  unfold publish_route. destruct closed; cbn [fst]; [rewrite drop_scope_store|]; by destruct (RouteBinding.scope _).
Qed.

Lemma commit_route_store i key p closed now : store (commit_route i key p closed now).1.1 = store i.
Proof.
  unfold commit_route. destruct (bool_decide _); [apply drop_scope_store|].
  destruct (module_id_by_endpoint i !! _) as [id|]; [|apply drop_scope_store].
  destruct (is_some _); [apply drop_scope_store|]. destruct (commit_frame p) as [frame|]; [|apply drop_scope_store].
  destruct (negb _); [cbn [fst]; by rewrite drop_scope_store|]. destruct (negb _); [cbn [fst]; by rewrite drop_scope_store|].
  destruct (opt_filter _ _) as [m|]; [|cbn [fst]; by rewrite drop_scope_store].
  set (i1 := _ <| reserved_module := _ |>). pose proof (publish_route_store i1 key p id m frame closed now) as Hp.
  by destruct (publish_route i1 _ _ _ _ _ _ _) as [[i2 effects] abandoned].
Qed.

Lemma complete_relay_store i c corr outcome sc wc now :
  store (complete_pending_relay i c corr outcome sc wc now).1.1 = store i.
Proof.
  unfold complete_pending_relay. destruct (endpoint_by_connection i !! c) as [e|]; [|done].
  destruct (pending_relays i !! (e, corr)) as [p|]; [|done]. cbv zeta.
  set (i1 := i <| pending_relays := _ |>). change (store i) with (store i1).
  destruct (_ <=? now); [destruct outcome; apply release_reservation_store|].
  destruct outcome; [|apply release_reservation_store..].
  destruct (_ || _); [apply release_reservation_store|]. destruct (_ || _); [apply release_reservation_store|].
  destruct (_ ≫= _); [apply release_reservation_store|].
  pose proof (commit_route_store i1 (e, corr) p wc now) as Hc.
  by destruct (commit_route _ _ _ _ _) as [[i2 effects] [abandoned|err]].
Qed.

Lemma drain_route_store acc entry : store (drain_route acc entry).1.1 = store acc.1.1.
Proof.
  destruct acc as [[i effects] drained], entry as [[ck epoch] reason]. unfold drain_route.
  destruct (client_to_module i !! ck) as [r|]; [|done].
  pose proof (only_routes_store _ _ (release_client_route_routes i ck epoch)) as Hr.
  by destruct (release_client_route i ck epoch) as [[i1 e1] []].
Qed.

Lemma publish_changes_store i changes : store (publish_changes i changes).1.1 = store i.
Proof.
  unfold publish_changes. destruct changes as [|ch changes]; [done|]. unfold publish_scope_changes.
  rewrite (foldl_store _ (λ acc : ForwardingInner * list Effect * list ScopeDrainedRoute.t, store acc.1.1)); [done|].
  intros. apply drain_route_store.
Qed.

(** ** Operations that change it *)

(** The endpoint [register_module_connection] makes for the connection. *)
Definition next_endpoint i (c : Z) : ModuleEndpointId.t := ModuleEndpointId.mk c (bump_generation (next_generation i)).

Definition installed (s : Store) (e : ModuleEndpointId.t) (id : string) : Store :=
  s <| st_endpoints := <[ModuleEndpointId.connection_id e := e]> (st_endpoints s) |>
    <| st_names := <[e := id]> (st_names s) |>.

Lemma register_store i c id ver conc sink ack queued :
  match (register_module_connection i c id ver conc sink ack queued).2 with
  | Ok e => e = next_endpoint i c ∧ endpoint_by_connection i !! c = None ∧
      store (register_module_connection i c id ver conc sink ack queued).1.1 =
      (installed (store i) e id) <| st_active := <[id := ModuleConnection.mk e sink ver conc]> (modules_by_id i) |>
  | Err _ => (register_module_connection i c id ver conc sink ack queued).1.1 = i
  end.
Proof.
  unfold register_module_connection. destruct (_ || _); [done|].
  destruct (check_module_connection_role i c) as [[]|] eqn:Hrole; [|done].
  apply check_module_connection_role_Ok in Hrole as [Hc _]. by destruct (enqueue_hello_ack _ _ _ _).
Qed.

Lemma register_candidate_store i c id ver conc sink ack queued :
  match (register_candidate_module_connection i c id ver conc sink ack queued).2 with
  | Ok e => e = next_endpoint i c ∧ endpoint_by_connection i !! c = None ∧ candidates_by_id i !! id = None ∧
      store (register_candidate_module_connection i c id ver conc sink ack queued).1.1 =
      (installed (store i) e id) <| st_candidates := <[id := ModuleConnection.mk e sink ver conc]> (candidates_by_id i) |>
  | Err _ => (register_candidate_module_connection i c id ver conc sink ack queued).1.1 = i
  end.
Proof.
  unfold register_candidate_module_connection. destruct (_ || _); [done|].
  destruct (check_module_connection_role i c) as [[]|] eqn:Hrole; [|done].
  apply check_module_connection_role_Ok in Hrole as [Hc _].
  destruct (candidates_by_id i !! id) as [|] eqn:Hid; [done|]. cbn [is_some]. by destruct (enqueue_hello_ack _ _ _ _).
Qed.

Definition cut_over (s : Store) (id : string) (m : ModuleConnection.t) : Store :=
  s <| st_candidates := delete id (st_candidates s) |> <| st_active := <[id := m]> (st_active s) |>
    <| st_superseded := match st_active s !! id with
                        | Some old => <[ModuleConnection.endpoint old := old]> (st_superseded s)
                        | None => st_superseded s
                        end |>.

Lemma cutover_store i id :
  match (cutover_candidate i id).2 with
  | Ok (Some cut) => ∃ m, candidates_by_id i !! id = Some m ∧ store (cutover_candidate i id).1.1 = cut_over (store i) id m
  | _ => (cutover_candidate i id).1.1 = i
  end.
Proof.
  unfold cutover_candidate. destruct (daemon_draining i); [done|]. destruct (candidates_by_id i !! id) as [m|]; [|done].
  cbn [fst snd]. exists m. split; [done|]. unfold cut_over, store. simpl. by destruct (modules_by_id i !! id).
Qed.

(** The endpoint is in no map any more. *)
Definition forgotten (s : Store) (e : ModuleEndpointId.t) : Store :=
  let id := st_names s !! e in
  let at_endpoint m := bool_decide (ModuleConnection.endpoint m = e) in
  let without (m : gmap string ModuleConnection.t) :=
    match id with
    | Some id => if is_some_and at_endpoint (m !! id) then delete id m else m
    | None => m
    end in
  mkStore (without (st_active s)) (without (st_candidates s)) (delete e (st_superseded s))
    (delete (ModuleEndpointId.connection_id e) (st_endpoints s)) (delete e (st_names s)).

Lemma forget_endpoint_store i e : store (forget_endpoint i e) = forgotten (store i) e.
Proof.
  unfold forget_endpoint, forgotten. destruct (module_id_by_endpoint i !! e) as [id|] eqn:Hid; unfold store; simpl; rewrite Hid; [|done].
  destruct (is_some_and _ (modules_by_id i !! id)); simpl; by destruct (is_some_and _ (candidates_by_id i !! id)).
Qed.

Lemma abandon_endpoint_store i effects e : store (abandon_endpoint i effects e).1.1 = store i.
Proof.
  unfold abandon_endpoint. set (i1 := i <| pending_relays := _ |>). set (pending := filter _ _).
  assert (∀ acc entry, store (drop_relay_gone acc entry).1 = store acc.1) as Hgone.
  { intros [j x] [key p]. unfold drop_relay_gone. cbn [fst]. rewrite drop_scope_store. by destruct (negb _). }
  pose proof (foldl_store drop_relay_gone (λ acc, store acc.1) pending (i1, effects) Hgone) as H2.
  destruct (foldl drop_relay_gone _ _) as [i2 effects2]. cbn [fst] in H2.
  pose proof (foldl_store drop_control_rpc (λ acc, store acc.1) (endpoint_keys (pending_control_rpcs i2) e) (i2, effects2)
    drop_control_rpc_store) as H3. destruct (foldl drop_control_rpc _ _) as [i3 effects3]. cbn [fst] in H3.
  pose proof (only_routes_store _ _ (release_module_routes_routes (routes_of_endpoint i3 e) i3)) as H4.
  destruct (release_module_routes _ _) as [[i4 effects4] released]. cbn [fst] in *. by rewrite H4, H3, H2.
Qed.

Lemma remove_module_store i e : store (remove_module_connection i e).1.1 = forgotten (store i) e.
Proof.
  unfold remove_module_connection. rewrite abandon_endpoint_store, (foldl_store _ store); [apply forget_endpoint_store|].
  intros j mk. unfold unreserve_turn. destruct (reserved_module j !! mk); [apply release_reserved_store|done].
Qed.

Lemma cleanup_client_store i c : store (cleanup_client_connection i c).1.1 = store i.
Proof.
  unfold cleanup_client_connection. set (routes := _ <$> _).
  pose proof (only_routes_store _ _ (release_client_routes_routes routes i)) as Hr.
  destruct (release_client_routes routes i) as [[i1 effects] released]. cbn [fst] in Hr. set (keys := fst <$> _).
  pose proof (foldl_store (drop_relay ModuleGone) (λ acc, store acc.1.1) keys (i1, effects, released) (drop_relay_store _)) as Hd.
  destruct (foldl (drop_relay ModuleGone) _ _) as [[i2 effects2] released2]. cbn [fst] in *.
  set (orphaned := filter _ (hash_iter (reserved_client i2))).
  transitivity (store (foldl (λ i (e : ClientRouteKey.t * ModuleRouteKey.t), release_reserved_route i e.1 e.2) i2 orphaned)); [done|].
  rewrite (foldl_store _ store); [by rewrite Hd, Hr|]. intros j e. apply release_reserved_store.
Qed.

Lemma cleanup_store i c :
  store (cleanup_connection i c).1.1 =
  match endpoint_by_connection i !! c with
  | Some e => forgotten ((store i) <| st_endpoints := delete c (endpoint_by_connection i) |>) e
  | None => store i
  end.
Proof.
  unfold cleanup_connection. set (i1 := i <| closing_connections := _ |>).
  change (endpoint_by_connection i1) with (endpoint_by_connection i).
  destruct (endpoint_by_connection i !! c) as [e|].
  - pose proof (remove_module_store (i1 <| endpoint_by_connection := delete c (endpoint_by_connection i) |>) e) as Hs.
    destruct (remove_module_connection _ e) as [[i2 effects] cleanup]. cbn [fst] in *. exact Hs.
  - pose proof (cleanup_client_store i1 c) as Hs. by destruct (cleanup_client_connection i1 c) as [[i2 effects] released].
Qed.

(** ** Nothing else changes it *)

Inductive store_op i : ForwardingInner → Prop :=
  | so_register c id ver conc sink ack queued :
      store_op i (register_module_connection i c id ver conc sink ack queued).1.1
  | so_register_candidate c id ver conc sink ack queued :
      store_op i (register_candidate_module_connection i c id ver conc sink ack queued).1.1
  | so_cutover id : store_op i (cutover_candidate i id).1.1
  | so_cleanup c : store_op i (cleanup_connection i c).1.1.

Lemma release_module_route_store i c ch epoch : store (release_module_route i c ch epoch).1.1 = store i.
Proof.
  unfold release_module_route. destruct (endpoint_by_connection i !! c); [|done].
  apply only_routes_store, release_module_route_routes.
Qed.

Lemma begin_daemon_drain_store i : store (begin_daemon_drain i).1 = store i.
Proof. unfold begin_daemon_drain. destruct (daemon_draining i); [done|]. cbn [fst]. by rewrite !(foldl_store _ store). Qed.

Lemma abort_relay_store i e corr outcome : store (abort_pending_relay i e corr outcome).1.1 = store i.
Proof.
  unfold abort_pending_relay. destruct (pending_relays i !! (e, corr)) as [p|]; [|done]. cbn [fst].
  by rewrite release_reservation_store.
Qed.

Lemma fw_op_store i j : fw_op i j → store j = store i ∨ store_op i j.
Proof.
  intros Hop. destruct Hop; try (right; by constructor); left.
  - unfold begin_module_control_rpc. destruct (modules_by_id i !! id); [apply begin_control_store|done].
  - unfold begin_endpoint_health_probe_rpc. destruct (module_connection_for_endpoint i e); [apply begin_control_store|done].
  - done.
  - unfold tombstone_health_probe_rpc. destruct (pending_control_rpcs i !! (e, corr)) as [p|]; [|done].
    by destruct (PendingModuleControlRpcEntry.health_probe_started_at p).
  - unfold expire_health_probe_tombstone. by destruct (is_some_and _ _).
  - unfold complete_module_control_rpc. destruct (endpoint_by_connection i !! c) as [e|]; [|done].
    destruct (pending_control_rpcs i !! (e, corr)) as [p|]; [by destruct (_ <=? now)|].
    destruct (health_probe_tombstones i !! (e, corr)) as [t|]; [by destruct (_ <=? now)|done].
  - unfold mark_route_bind_relay_enqueued. destruct (pending_relays i !! (e, corr)); [done|]. by destruct (decide _).
  - apply abort_relay_store.
  - apply only_routes_store, release_client_route_routes.
  - apply release_module_route_store.
  - unfold try_admit_request. destruct (_ || _); [done|]. destruct (flows i !! _) as [f|]; [|done].
    by destruct (ChannelFlow.try_acquire_tagged f corr sub) as [[] ?].
  - done.
  - unfold cache_status. destruct (is_none _); [done|]. by case_match.
  - apply begin_daemon_drain_store.
  - unfold record_daemon_drain_result. by destruct (is_some _).
  - unfold begin_module_drain. destruct (modules_by_id i !! id) as [m|]; [|done].
    pose proof (begin_drain_store i m reason) as Hs. by destruct (begin_drain i m reason) as [[? ?] ?].
  - unfold begin_endpoint_drain. destruct (module_connection_for_endpoint i e) as [m|]; [|done].
    pose proof (begin_drain_store i m reason) as Hs. by destruct (begin_drain i m reason) as [[? ?] ?].
  - apply only_routes_store, release_module_routes_routes.
  - unfold escalate_client_delivery_failure. by destruct (bool_decide _).
Qed.

Context `{AttributeJson} `{ProofCrypto}.

(** Whatever a step of the scope and forwarding tables does, the module store is
    as it was or one of the four operations ran. *)
Lemma daemon_step_store d d' :
  daemon_step d d' → store (routes_of d') = store (routes_of d) ∨ store_op (routes_of d) (routes_of d').
Proof.
  intros Hstep. destruct Hstep as [reg c cur now ch t' fw' effects res drained Hc _|now t' fw' effects drained Hs _|c
    |p target sel conf caps now c t' fw' b stamp Ha|l o l' Ho|l o l' c sink ver corr deadline busy Ho
    |c sink ver corr target p deadline busy|c corr outcome sc wc now|fw' Hop]; cbn [routes_of]; [left..|].
  - unfold handle_scope_change in Hc. destruct reg as [owner|]; [|by simplify_eq].
    destruct (change _ _ _ _ _ _ _) as [[[t1 heap] [applied|code]]|]; [|by simplify_eq/=|done].
    pose proof (publish_changes_store ((routes_of d) <| scope_heap := heap |>) (SyncApplied.tag_changes applied)) as Hp.
    cbv beta iota zeta in Hc. destruct (publish_changes _ _) as [[fw2 e2] d2]. injection Hc as _ <- _ _ _. exact Hp.
  - unfold sweep_expired_scopes in Hs. destruct (sweep_expired _ _) as [t1 swept].
    pose proof (publish_changes_store (routes_of d) (swept_tag_changes swept)) as Hp.
    destruct (publish_changes _ _) as [[fw2 e2] d2]. injection Hs as _ <- _ _. exact Hp.
  - done.
  - unfold admit_route_open in Ha. destruct (let! _ := _ in _) as [adm|]; [|done].
    destruct (reserve_bind _ _ _ _ _ _) as [[[t1 heap] b1]|]; by simplify_eq/=.
  - apply drop_scope_store.
  - apply begin_relay_store.
  - apply begin_relay_store.
  - apply complete_relay_store.
  - by apply fw_op_store.
Qed.
End store.
