(* ===== verification/Router.v ===== *)
(** * The data-plane router ([crates/subc-daemon/src/router.rs])

    What the daemon does with one frame a connection sent: look its route up,
    relay it to the other side, or answer for it.  Routing awaits other tasks in
    many places, so a handler is a program of atomic actions ([Program]): a
    lookup or update of the forwarding table under its lock, one operation on a
    flow, one offer of a frame to a connection's queue.  Whether a queue takes a
    frame, how old its backlog is and what the control handler answers are
    answers of the environment.  Counters and drop warnings are actions too;
    other logs are left out, as are the spans that time a wait. *)

From stdpp Require Import pretty.
From S2P Require Import Prelude Collections Envelope Program Egress Tokens ScopeTypes Scopes.
From S2P Require Import Flow Forwarding ForwardingWorld Daemon.

(** ** Errors *)

Inductive RouterError :=
  | ReservedChannelZero
  | DuplicateChannel (channel : Z)
  | UnknownChannel (channel epoch corr : Z)
  | StaleRouteEpoch (channel epoch corr : Z)
  | RouteBusy (channel epoch corr : Z) (detail : RouteBusyDetail.t)
  | BackendError (channel epoch corr : Z) (message : string)
  | RouteError (channel epoch corr : Z) (code message : string)
  | FrameBuild (err : Frame.FrameBuildError)
  | ForwardingFailed (err : ForwardingError).

Definition backend_with_epoch (channel epoch corr : Z) (message : string) : RouterError :=
  BackendError channel epoch corr message.

Definition route_error_with_epoch (channel epoch corr : Z) (code message : string) : RouterError :=
  RouteError channel epoch corr code message.

(** The [detail] field of an [ErrorBody]. *)
Inductive ErrorDetail :=
  | BusyDetail (detail : RouteBusyDetail.t)
  | SizeDetail (frame_bytes byte_limit : Z).

(** [serde_json::to_vec] of an [ErrorBody]: code, message, detail. *)
Class ErrorJson := error_body : string → string → option ErrorDetail → option (list byte).

Definition display_frame_build (err : Frame.FrameBuildError) : string :=
  match err with
  | Frame.BodyTooLarge body_len => "frame body is too large for u32 len: " +:+ pretty body_len +:+ " bytes"
  | Frame.BodyExceedsMax body_len max =>
      "frame body " +:+ pretty body_len +:+ " bytes exceeds max " +:+ pretty max +:+ " bytes"
  end.

(** A [RouteOpenBuild] carries no message here. *)
Definition display_forwarding (err : ForwardingError) : string :=
  match err with
  | ConnectionRoleConflict c => "connection " +:+ pretty c +:+ " already holds an incompatible role"
  | NoModuleConnection => "no module connection is registered"
  | ReloadingModule m => "module_id '" +:+ m +:+ "' is reloading"
  | StaleModuleEndpoint => "module connection generation is stale"
  | UnknownReservation c m =>
      "route reservation client channel " +:+ pretty c +:+ " / module channel " +:+ pretty m +:+
      " was not found"
  | ClientRouteChannelExhausted c =>
      "no client route channels are available for connection " +:+ pretty c
  | ModuleRouteChannelExhausted e =>
      "no module route channels are available for endpoint generation " +:+
      pretty (ModuleEndpointId.generation e) +:+ " on connection " +:+
      pretty (ModuleEndpointId.connection_id e)
  | RelayCorrelationExhausted => "module control correlation ids are exhausted"
  | ConnectionClosing c =>
      "connection " +:+ pretty c +:+ " is closing and cannot accept route allocation"
  | ClientEgressClosed c => "client connection " +:+ pretty c +:+ " egress is closed"
  | RouteOpenBuild => "failed to prebuild route.open response: "
  | CandidateSlotOccupied m => "module_id '" +:+ m +:+ "' already has a swap candidate registered"
  | ModuleEgressUnavailable c =>
      "module connection " +:+ pretty c +:+ " egress is unavailable; HELLO_ACK could not be queued"
  | Poisoned => "forwarding table lock was poisoned"
  end.

Definition display (err : RouterError) : string :=
  match err with
  | ReservedChannelZero => "channel 0 is reserved for subc"
  | DuplicateChannel ch => "backend already registered for channel " +:+ pretty ch
  | UnknownChannel ch _ corr => "unknown channel " +:+ pretty ch +:+ " for corr " +:+ pretty corr
  | StaleRouteEpoch ch _ corr => "stale route epoch for channel " +:+ pretty ch +:+ " corr " +:+ pretty corr
  | RouteBusy ch _ corr _ => "route busy on channel " +:+ pretty ch +:+ " corr " +:+ pretty corr
  | BackendError ch _ corr message =>
      "backend error on channel " +:+ pretty ch +:+ " corr " +:+ pretty corr +:+ ": " +:+ message
  | RouteError ch _ corr code message =>
      "route error " +:+ code +:+ " on channel " +:+ pretty ch +:+ " corr " +:+ pretty corr +:+ ": " +:+ message
  | FrameBuild err => "failed to build routed frame: " +:+ display_frame_build err
  | ForwardingFailed err => "forwarding error: " +:+ display_forwarding err
  end.

Definition daemon_error_flags : Flags.t :=
  Flags.with_daemon_origin (Flags.new false Priority.Passive false).

Definition FRAME_TOO_LARGE : string := "frame_too_large".

Definition ok_of {A X} (r : Result A X) : option A := match r with Ok x => Some x | Err _ => None end.

Section error_frames.
Context `{ErrorJson}.

Definition error_frame (channel epoch corr : Z) (code message : string) : option Frame.t :=
  body ← error_body code message None;
  ok_of (Frame.build FrameType.Error daemon_error_flags channel epoch corr body).

Definition to_error_frame (err : RouterError) : option Frame.t :=
  match err with
  | RouteBusy channel epoch corr detail =>
      body ← error_body error_codes.ROUTE_BUSY
               "route has no free request or watch credit; retry on the same route"
               (Some (BusyDetail detail));
      ok_of (Frame.build FrameType.Error daemon_error_flags channel epoch corr body)
  | UnknownChannel channel epoch corr =>
      error_frame channel epoch corr error_codes.UNKNOWN_CHANNEL ("unknown channel " +:+ pretty channel)
  | StaleRouteEpoch channel epoch corr =>
      error_frame channel epoch corr error_codes.STALE_ROUTE_EPOCH
        ("stale route epoch for channel " +:+ pretty channel)
  | BackendError channel epoch corr message => error_frame channel epoch corr "backend_error" message
  | RouteError channel epoch corr code message => error_frame channel epoch corr code message
  | ReservedChannelZero | DuplicateChannel _ | FrameBuild _ | ForwardingFailed _ => None
  end.

(** [None]: the serialisation panics. *)
Definition frame_too_large_error (channel epoch corr bytes limit : Z) : option (Result Frame.t RouterError) :=
  body ← error_body FRAME_TOO_LARGE
           ("module frame of " +:+ pretty bytes +:+ " bytes exceeds client egress limit of " +:+
            pretty limit +:+ " bytes") (Some (SizeDetail bytes limit));
  Some match Frame.build FrameType.Error daemon_error_flags channel epoch corr body with
       | Ok frame => Ok frame
       | Err err => Err (FrameBuild err)
       end.
End error_frames.

(** ** The orphan-GOODBYE limiter; times are in milliseconds *)

Definition ORPHAN_ROUTE_GOODBYE_INTERVAL : Z := 5000.
Definition ORPHAN_ROUTE_GOODBYE_PRUNE_AT : nat := 256.

Module OrphanGoodbyeLimiter.
Abbreviation t := (gmap Z (gmap Z Z)) (only parsing).

Definition within_interval (now sent : Z) : bool :=
  Z.max 0 (now - sent) <? ORPHAN_ROUTE_GOODBYE_INTERVAL.

Definition claim (self : t) (now connection_id channel : Z) : bool * t :=
  let channels := default ∅ (self !! connection_id) in
  if is_some_and (within_interval now) (channels !! channel)
  then (false, <[connection_id := channels]> self) else
  let channels := if (ORPHAN_ROUTE_GOODBYE_PRUNE_AT <=? size channels)%nat
                  then filter (λ e, within_interval now e.2 = true) channels else channels in
  (true, <[connection_id := <[channel := now]> channels]> self).

Definition forget_connection (self : t) (connection_id : Z) : t := delete connection_id self.
End OrphanGoodbyeLimiter.

(** ** Drop warnings: at most one a minute per connection, channel and reason *)

Record FrameDropWarning := mkFrameDropWarning { last_warned : Z; suppressed : Z }.

Abbreviation DropWarnings := (gmap Z (gmap (Z * string) FrameDropWarning)) (only parsing).

(** The warning logged, if any, says how many were suppressed before it. *)
Definition warn_frame_drop (warnings : DropWarnings) (now connection_id channel : Z) (reason : string)
    : option Z * DropWarnings :=
  let channels := default ∅ (warnings !! connection_id) in
  let store w := <[connection_id := <[(channel, reason) := w]> channels]> warnings in
  match channels !! (channel, reason) with
  | Some state =>
      if Z.max 0 (now - last_warned state) <? 60000
      then (None, store (mkFrameDropWarning (last_warned state)
                           (Z.min (suppressed state + 1) (2 ^ 64 - 1))))
      else (Some (suppressed state), store (mkFrameDropWarning now 0))
  | None => (Some 0, store (mkFrameDropWarning now 0))
  end.

(** ** Actions *)

Module RouteCtx.
Record t := mk { connection_id : Z; egress : Sink }.
End RouteCtx.

Inductive Counter :=
  | ModuleFramesDroppedNoRoute (module_id : option string)
  | ModuleFramesDroppedReleasedRoute (module_id : option string)
  | ModuleOrphanRouteGoodbyesSent
  | ModuleRequestsDroppedStaleRoute
  | ClientFramesDroppedStaleRoute
  | GoodbyeRelayClientFailed
  | GoodbyeRelayModuleDropped (module_id : option string)
  | ClientEgressCloseDeliveryFailed
  | RouteBusyCount (module_id : string) (principal : Principal)
  | RouteReleasedEpochFenced
  | RouteReleaseStaleSkipped.

(** How a bounded send ends. *)
Inductive SendOutcome :=
  | Sent
  | WriterGone
  | TimedOut
  | Stopped.

Inductive RouterAct :=
  (* the forwarding table *)
  | LookupDataRoute (connection_id channel epoch : Z)
  | ModuleIdForConnection (connection_id : Z)
  | ModuleRouteEpochWasAllocated (connection_id channel epoch : Z)
  | TryAdmitRequest (route : RouteBinding.t) (epoch corr : Z) (subscription : bool)
  | EndpointIsDraining (endpoint : ModuleEndpointId.t)
  | ReleaseModuleRoute (connection_id channel epoch : Z)
  | ReleaseClientRoute (connection_id channel epoch : Z)
  | EscalateDeliveryFailure (connection_id channel epoch : Z) (code : string)
  (* the flow of a route *)
  | FlowBusyRefusals (addr : positive)
  | FlowShouldWarnBusy (addr : positive)
  | FlowAcquirePermit (addr : positive)
  | FlowAcquireRecorded (addr : positive) (corr : Z) (subscription : bool)
  | FlowReleaseCorr (addr : positive) (corr : Z)
  (* queues *)
  | Send (sink : Sink) (frame : Frame.t)
  | TrySend (sink : Sink) (frame : Frame.t)
  | SendWithin (sink : Sink) (frame : Frame.t) (limit : Z) (stoppable : bool)
  | SinkIsClosed (sink : Sink)
  | ClientDeliveryClosed (sink : Sink)
  | BacklogAge (sink : Sink)
  (* the rest *)
  | ClaimOrphanGoodbye (connection_id channel : Z)
  | WarnFrameDrop (connection_id channel epoch : Z) (direction reason : string)
  | Count (counter : Counter)
  | HandleControlFrame (ctx : RouteCtx.t) (frame : Frame.t)
  | RuntimeIsCurrent
  | SpawnLateGoodbye (sink : Sink) (frame : Frame.t) (module_id : option string)
  | Panic.

(** A refused offer says why; a closed permit is the end of its flow. *)
Definition router_resp (a : RouterAct) : Type :=
  match a with
  | LookupDataRoute _ _ _ => DataRoute
  | ModuleIdForConnection _ => option string
  | TryAdmitRequest _ _ _ _ => RequestAdmission
  | ReleaseModuleRoute _ _ _ | ReleaseClientRoute _ _ _ => RouteRelease.t
  | ModuleRouteEpochWasAllocated _ _ _ | EndpointIsDraining _ | EscalateDeliveryFailure _ _ _ _
  | FlowBusyRefusals _ | FlowShouldWarnBusy _ | FlowAcquirePermit _ | Send _ _ | SinkIsClosed _
  | ClientDeliveryClosed _ | ClaimOrphanGoodbye _ _ | RuntimeIsCurrent => bool
  | FlowAcquireRecorded _ _ _ => Result unit unit
  | TrySend _ _ => option string
  | SendWithin _ _ _ _ => SendOutcome
  | BacklogAge _ => option Z
  | HandleControlFrame _ _ => Result (list Frame.t) RouterError
  | FlowReleaseCorr _ _ | WarnFrameDrop _ _ _ _ _ | Count _ | SpawnLateGoodbye _ _ _ => unit
  | Panic => Empty_set
  end.

#[global] Instance router_signature : Signature := {| Act := RouterAct; resp := router_resp |}.

(** ** Sinks *)

Definition CONNECTION_EGRESS_BYTE_BUDGET : Z := MAX_DELIVERED_FRAME_LEN.
Definition CONNECTION_EGRESS_STALL_GRACE : Z := 250.
Definition LATE_MODULE_GOODBYE_DEADLINE : Z := 30000.

Abbreviation Router A := (Prog (Result A RouterError)) (only parsing).

Definition header (f : Frame.t) : EnvelopeHeader.t := Frame.header f.
Definition channel_of (f : Frame.t) : Z := EnvelopeHeader.channel (header f).
Definition epoch_of_frame (f : Frame.t) : Z := EnvelopeHeader.epoch (header f).
Definition corr_of (f : Frame.t) : Z := EnvelopeHeader.corr (header f).
Definition type_of (f : Frame.t) : FrameType.t := EnvelopeHeader.ty (header f).
Definition flags_of (f : Frame.t) : Flags.t := EnvelopeHeader.flags (header f).

Definition panic {R} : Prog R := Do Panic (λ x : resp Panic, match x with end).

Definition backend_error_for (frame : Frame.t) (message : string) : RouterError :=
  backend_with_epoch (channel_of frame) (epoch_of_frame frame) (corr_of frame) message.

Definition send (sink : Sink) (frame : Frame.t) : Router unit :=
  queued ← act (Send sink frame);
  mret (if queued : bool then Ok tt else Err (backend_error_for frame "connection writer closed")).

Definition try_send_owned (sink : Sink) (frame : Frame.t) : Prog (Result unit (Frame.t * RouterError)) :=
  refused ← act (TrySend sink frame);
  mret match refused with
       | None => Ok tt
       | Some why =>
           Err (frame, backend_error_for frame ("connection writer unavailable: " +:+ why))
       end.

Definition try_send (sink : Sink) (frame : Frame.t) : Router unit :=
  r ← try_send_owned sink frame;
  mret match r with Ok _ => Ok tt | Err (_, error) => Err error end.

Record ClientDeliveryFailure := mkClientDeliveryFailure {
  frame_type : FrameType.t;
  flags : Flags.t;
  cause : string;
  error : RouterError;
}.

(** The client's reader is gone, or its queue has no room within the grace the
    age of its backlog leaves. *)
Definition send_to_client (sink : Sink) (frame : Frame.t) : Prog (Result unit ClientDeliveryFailure) :=
  let failure c e := Err (mkClientDeliveryFailure (type_of frame) (flags_of frame) c e) in
  closed ← act (ClientDeliveryClosed sink);
  if closed : bool
  then mret (failure "client_closed" (backend_error_for frame "client connection closed")) else
  r ← try_send_owned sink frame;
  match r with
  | Ok _ => mret (Ok tt)
  | Err (frame, error) =>
      closed ← act (SinkIsClosed sink);
      if closed : bool then mret (failure "client_closed" error) else
      oldest_age ← act (BacklogAge sink);
      let age := default 0 oldest_age in
      if CONNECTION_EGRESS_STALL_GRACE <? age
      then mret (failure "oldest_frame_older_than_250_ms" error) else
      result ← act (SendWithin sink frame (Z.max 0 (CONNECTION_EGRESS_STALL_GRACE - age)) true);
      mret match result with
           | Sent => Ok tt
           | Stopped => failure "client_closed" error
           | WriterGone => failure "client_closed" (backend_error_for frame "connection writer closed")
           | TimedOut => failure "waited_250_ms_without_room" error
           end
  end.

(** ** Giving up on a route's peer *)

Definition escalate_client_delivery_failure_diagnosed (connection_id channel expected_epoch : Z)
    (code : string) (diagnosis : option string) : Prog bool :=
  closed ← act (EscalateDeliveryFailure connection_id channel expected_epoch code);
  if closed : bool then mret true else
  act (WarnFrameDrop connection_id channel expected_epoch "module_to_client"
         (default "delivery_failed" diagnosis)) ≫= λ _, mret false.

(** The task that keeps offering a GOODBYE the queue refused at first. *)
Definition late_goodbye (sink : Sink) (frame : Frame.t) (module_id : option string) : Prog unit :=
  outcome ← act (SendWithin sink frame LATE_MODULE_GOODBYE_DEADLINE false);
  match outcome with
  | Sent => mret tt
  | _ => act (Count (GoodbyeRelayModuleDropped module_id))
  end.

Definition send_module_route_goodbye (sink : Sink) (frame : Frame.t) (module_id : option string) : Prog unit :=
  r ← try_send sink frame;
  match r with
  | Ok _ => mret tt
  | Err _ =>
      runtime ← act RuntimeIsCurrent;
      closed ← (if runtime : bool then act (SinkIsClosed sink) else mret true);
      if closed : bool then act (Count (GoodbyeRelayModuleDropped module_id))
      else act (SpawnLateGoodbye sink frame module_id)
  end.

Definition control_flags : Flags.t := Flags.new false Priority.Passive false.

Definition emit_route_goodbye (released : GoodbyeTarget.t) : Prog unit :=
  match Frame.build_with_version (GoodbyeTarget.negotiated_ver released) FrameType.Goodbye control_flags
          (GoodbyeTarget.channel released) (GoodbyeTarget.epoch released) 0 [] with
  | Err _ => mret tt
  | Ok frame =>
      if negb (GoodbyeTarget.close_on_delivery_failure released)
      then send_module_route_goodbye (GoodbyeTarget.sink released) frame (GoodbyeTarget.module_id released)
      else
        r ← try_send (GoodbyeTarget.sink released) frame;
        match r with
        | Ok _ => mret tt
        | Err _ =>
            closed ← escalate_client_delivery_failure_diagnosed (GoodbyeTarget.connection_id released)
                       (GoodbyeTarget.channel released) (GoodbyeTarget.epoch released)
                       "route_goodbye_delivery_failed" None;
            if closed : bool then act (Count GoodbyeRelayClientFailed) else mret tt
        end
  end.

Fixpoint emit_route_goodbyes (released_routes : list GoodbyeTarget.t) : Prog unit :=
  match released_routes with
  | [] => mret tt
  | released :: rest => emit_route_goodbye released ≫= λ _, emit_route_goodbyes rest
  end.

Definition record_route_release (release : RouteRelease.t) : Prog unit :=
  match release with
  | RouteRelease.Removed _ => act (Count RouteReleasedEpochFenced)
  | RouteRelease.Stale => act (Count RouteReleaseStaleSkipped)
  | RouteRelease.Absent => mret tt
  end.

Definition release_client_route_counted (connection_id channel epoch : Z) : Prog RouteRelease.t :=
  release ← act (ReleaseClientRoute connection_id channel epoch);
  record_route_release release ≫= λ _, mret release.

Definition release_module_route_counted (connection_id channel epoch : Z) : Prog RouteRelease.t :=
  release ← act (ReleaseModuleRoute connection_id channel epoch);
  record_route_release release ≫= λ _, mret release.

Definition handle_route_goodbye (connection_id route_channel route_epoch : Z) : Router bool :=
  release ← release_client_route_counted connection_id route_channel route_epoch;
  match release with
  | RouteRelease.Removed released_route => emit_route_goodbyes [released_route] ≫= λ _, mret (Ok true)
  | _ => mret (Ok false)
  end.

(** ** Relaying *)

(** The frame as the other side gets it: its own channel and epoch, and never
    the daemon's origin bit. *)
Definition relayed (frame : Frame.t) (channel epoch : Z) : Frame.t :=
  Frame.mk (EnvelopeHeader.mk (EnvelopeHeader.len (header frame)) (EnvelopeHeader.ver (header frame))
              (type_of frame) (Flags.without_daemon_origin (flags_of frame)) channel epoch (corr_of frame))
    (Frame.body frame).

Definition is_terminal_frame (ty : FrameType.t) : bool :=
  match ty with
  | FrameType.Response | FrameType.Error | FrameType.StreamEnd => true
  | _ => false
  end.

Definition is_type (frame : Frame.t) (ty : FrameType.t) : bool := bool_decide (type_of frame = ty).

(** Waits for a credit; the flow may close before it is recorded. *)
Definition acquire_tagged (addr : positive) (corr : Z) (subscription : bool) : Prog (Result unit unit) :=
  permit ← act (FlowAcquirePermit addr);
  if permit : bool then act (FlowAcquireRecorded addr corr subscription) else mret (Err tt).

Inductive Backend := Echo | Forward.

Section router.
Context `{ErrorJson} (backends : gmap Z Backend).

(** [ForwardBackend::handle_bound], once the frame may go: to the module, with
    the credit given back if its queue is gone. *)
Definition forward_to_module (frame : Frame.t) (route : RouteBinding.t) (acquired_credit : bool) : Router unit :=
  result ← send (RouteBinding.module_sink route)
             (relayed frame (RouteBinding.module_channel route) (RouteBinding.module_epoch route));
  match result with
  | Ok _ => mret (Ok tt)
  | Err err =>
      act (WarnFrameDrop (RouteBinding.client_connection_id route) (channel_of frame)
             (RouteBinding.client_epoch route) "client_to_module" "endpoint_gone") ≫= λ _,
      (if acquired_credit : bool then act (FlowReleaseCorr (RouteBinding.addr route) (corr_of frame))
       else mret tt) ≫= λ _,
      mret (Err (backend_with_epoch (channel_of frame) (RouteBinding.client_epoch route) (corr_of frame)
                   (display err)))
  end.

Definition module_reloading_error (frame : Frame.t) : RouterError :=
  route_error_with_epoch (channel_of frame) (epoch_of_frame frame) (corr_of frame)
    error_codes.MODULE_RELOADING
    ("module endpoint for route channel " +:+ pretty (channel_of frame) +:+ " is reloading").

Definition refuse_busy (frame : Frame.t) (route : RouteBinding.t) (detail : RouteBusyDetail.t) : Router unit :=
  act (Count (RouteBusyCount (RouteBinding.module_id route) (RouteBinding.principal route))) ≫= λ _,
  act (FlowShouldWarnBusy (RouteBinding.addr route)) ≫= λ _,
  match to_error_frame (RouteBusy (channel_of frame) (epoch_of_frame frame) (corr_of frame) detail) with
  | Some refusal => send (RouteBinding.client_sink route) refusal
  | None => panic
  end.

(** A route without busy refusals waits for its credit. *)
Definition acquire_legacy_credit (frame : Frame.t) (route : RouteBinding.t) : Router unit :=
  acquired ← acquire_tagged (RouteBinding.addr route) (corr_of frame) (Flags.is_subscription (flags_of frame));
  match acquired with
  | Ok _ => mret (Ok tt)
  | Err _ =>
      act (WarnFrameDrop (RouteBinding.client_connection_id route) (channel_of frame)
             (epoch_of_frame frame) "client_to_module" "endpoint_gone") ≫= λ _,
      draining ← act (EndpointIsDraining (RouteBinding.module_endpoint route));
      mret (Err (if draining : bool then module_reloading_error frame
                 else backend_error_for frame
                        ("flow-control window closed for route channel " +:+ pretty (channel_of frame))))
  end.

(** Only requests take a credit. *)
Definition handle_bound (frame : Frame.t) (route : RouteBinding.t) : Router unit :=
  if negb (is_type frame FrameType.Request) then forward_to_module frame route false else
  busy_refusals ← act (FlowBusyRefusals (RouteBinding.addr route));
  if busy_refusals : bool then
    admission ← act (TryAdmitRequest route (epoch_of_frame frame) (corr_of frame)
                       (Flags.is_subscription (flags_of frame)));
    match admission with
    | IsAdmitted => forward_to_module frame route true
    | Busy detail => refuse_busy frame route detail
    | ModuleReloading => mret (Err (module_reloading_error frame))
    | Stale => mret (Err (StaleRouteEpoch (channel_of frame) (epoch_of_frame frame) (corr_of frame)))
    end
  else
    _ ←! acquire_legacy_credit frame route;
    forward_to_module frame route true.

Definition forward_backend_handle (ctx : RouteCtx.t) (frame : Frame.t) : Router unit :=
  data_route ← act (LookupDataRoute (RouteCtx.connection_id ctx) (channel_of frame) (epoch_of_frame frame));
  match data_route with
  | ClientSide (DataRouteState.Bound route) => handle_bound frame route
  | _ =>
      act (WarnFrameDrop (RouteCtx.connection_id ctx) (channel_of frame) (epoch_of_frame frame)
             "client_to_module" "missing_binding") ≫= λ _,
      mret (Err (UnknownChannel (channel_of frame) (epoch_of_frame frame) (corr_of frame)))
  end.

Definition echo_backend_handle (ctx : RouteCtx.t) (frame : Frame.t) : Router unit :=
  match Frame.build_with_version (EnvelopeHeader.ver (header frame)) FrameType.Response (flags_of frame)
          (channel_of frame) (epoch_of_frame frame) (corr_of frame) (Frame.body frame) with
  | Ok response => send (RouteCtx.egress ctx) response
  | Err err => mret (Err (FrameBuild err))
  end.

Definition backend_handle (backend : Backend) (ctx : RouteCtx.t) (frame : Frame.t) : Router unit :=
  match backend with
  | Echo => echo_backend_handle ctx frame
  | Forward => forward_backend_handle ctx frame
  end.

(** ** Module frames *)

Definition record_module_frame_drop (connection_id : Z) : Router unit :=
  module_id ← act (ModuleIdForConnection connection_id);
  act (Count (ModuleFramesDroppedNoRoute module_id)) ≫= λ _, mret (Ok tt).

Definition orphan_goodbye (frame : Frame.t) : Result Frame.t Frame.FrameBuildError :=
  Frame.build_with_version (EnvelopeHeader.ver (header frame)) FrameType.Goodbye
    (Flags.new false Priority.Passive false) (channel_of frame) (epoch_of_frame frame) 0 [].

Definition answer_orphan (ctx : RouteCtx.t) (frame : Frame.t) : Router unit :=
  match orphan_goodbye frame with
  | Err err => mret (Err (FrameBuild err))
  | Ok goodbye =>
      r ← try_send (RouteCtx.egress ctx) goodbye;
      match r with
      | Ok _ => act (Count ModuleOrphanRouteGoodbyesSent) ≫= λ _, mret (Ok tt)
      | Err _ =>
          closed ← act (SinkIsClosed (RouteCtx.egress ctx));
          act (WarnFrameDrop (RouteCtx.connection_id ctx) (channel_of frame) (epoch_of_frame frame)
                 "daemon_to_module" (if closed : bool then "endpoint_gone" else "egress_budget")) ≫= λ _,
          mret (Ok tt)
      end
  end.

Definition handle_orphan_module_frame (ctx : RouteCtx.t) (frame : Frame.t) : Router unit :=
  module_id ← act (ModuleIdForConnection (RouteCtx.connection_id ctx));
  act (Count (ModuleFramesDroppedNoRoute module_id)) ≫= λ _,
  released ← act (ModuleRouteEpochWasAllocated (RouteCtx.connection_id ctx) (channel_of frame)
                    (epoch_of_frame frame));
  (if released : bool then act (Count (ModuleFramesDroppedReleasedRoute module_id)) else mret tt) ≫= λ _,
  if is_type frame FrameType.Goodbye then mret (Ok tt) else
  claimed ← act (ClaimOrphanGoodbye (RouteCtx.connection_id ctx) (channel_of frame));
  if claimed : bool then answer_orphan ctx frame else mret (Ok tt).

(** A frame that cannot reach its client closes the client's connection. *)
Definition close_undelivered (route : RouteBinding.t) (code cause : string) : Router unit :=
  closed ← escalate_client_delivery_failure_diagnosed (RouteBinding.client_connection_id route)
             (RouteBinding.client_channel route) (RouteBinding.client_epoch route) code (Some cause);
  (if closed : bool then act (Count ClientEgressCloseDeliveryFailed) else mret tt) ≫= λ _, mret (Ok tt).

Definition deliver_to_client (route : RouteBinding.t) (frame : Frame.t) : Router unit :=
  r ← send_to_client (RouteBinding.client_sink route) frame;
  match r with
  | Ok _ => mret (Ok tt)
  | Err err => close_undelivered route "module_to_client_delivery_failed" (cause err)
  end.

Definition refuse_oversized_module_frame (ctx : RouteCtx.t) (route : RouteBinding.t) (frame : Frame.t)
    (bytes : Z) : Router unit :=
  let limit := CONNECTION_EGRESS_BYTE_BUDGET in
  if is_type frame FrameType.Push then close_undelivered route FRAME_TOO_LARGE "frame_too_large"
  else if is_type frame FrameType.Request then
    match frame_too_large_error (RouteBinding.module_channel route) (RouteBinding.module_epoch route)
            (corr_of frame) bytes limit with
    | None => panic
    | Some (Err err) => mret (Err err)
    | Some (Ok error) => send (RouteCtx.egress ctx) error
    end
  else
    act (FlowReleaseCorr (RouteBinding.addr route) (corr_of frame)) ≫= λ _,
    match frame_too_large_error (RouteBinding.client_channel route) (RouteBinding.client_epoch route)
            (corr_of frame) bytes limit with
    | None => panic
    | Some (Err err) => mret (Err err)
    | Some (Ok error) => deliver_to_client route error
    end.

(** A module ends a route: the route is released and its client is told. *)
Definition relay_module_goodbye (ctx : RouteCtx.t) (frame : Frame.t) : Router unit :=
  release ← release_module_route_counted (RouteCtx.connection_id ctx) (channel_of frame) (epoch_of_frame frame);
  match release with
  | RouteRelease.Removed target =>
      r ← send_to_client (GoodbyeTarget.sink target)
            (relayed frame (GoodbyeTarget.channel target) (GoodbyeTarget.epoch target));
      match r with
      | Ok _ => mret (Ok tt)
      | Err err =>
          if GoodbyeTarget.close_on_delivery_failure target then
            closed ← escalate_client_delivery_failure_diagnosed (GoodbyeTarget.connection_id target)
                       (GoodbyeTarget.channel target) (GoodbyeTarget.epoch target)
                       "route_goodbye_delivery_failed" (Some (cause err));
            (if closed : bool then act (Count GoodbyeRelayClientFailed) else mret tt) ≫= λ _, mret (Ok tt)
          else
            act (WarnFrameDrop (GoodbyeTarget.connection_id target) (GoodbyeTarget.channel target)
                   (GoodbyeTarget.epoch target) "module_to_client" (cause err)) ≫= λ _, mret (Ok tt)
      end
  | _ =>
      act (WarnFrameDrop (RouteCtx.connection_id ctx) (channel_of frame) (epoch_of_frame frame)
             "module_to_client" "missing_binding") ≫= λ _, mret (Ok tt)
  end.

(** A frame on a bound route of a module.  A terminal frame ends its request
    whether or not the client can still take it. *)
Definition route_module_frame (ctx : RouteCtx.t) (frame : Frame.t) (route : RouteBinding.t) : Router unit :=
  if is_type frame FrameType.Goodbye then relay_module_goodbye ctx frame else
  let bytes := queued_frame_bytes frame in
  if CONNECTION_EGRESS_BYTE_BUDGET <? bytes
  then refuse_oversized_module_frame ctx route frame bytes else
  (if is_terminal_frame (type_of frame)
   then act (FlowReleaseCorr (RouteBinding.addr route) (corr_of frame)) else mret tt) ≫= λ _,
  deliver_to_client route
    (relayed frame (RouteBinding.client_channel route) (RouteBinding.client_epoch route)).

(** ** Dispatch *)

Definition reply_error (ctx : RouteCtx.t) (err : RouterError) : Router unit :=
  match to_error_frame err with
  | Some error => send (RouteCtx.egress ctx) error
  | None => mret (Ok tt)
  end.

Fixpoint send_responses (sink : Sink) (responses : list Frame.t) : Router unit :=
  match responses with
  | [] => mret (Ok tt)
  | response :: rest => _ ←! send sink response; send_responses sink rest
  end.

(** A module's frame with no route to take: a request is answered, anything else
    is dropped by [drop]. *)
Definition drop_module_frame (ctx : RouteCtx.t) (frame : Frame.t) (reason : string) (err : RouterError)
    (drop : Router unit) : Router unit :=
  act (WarnFrameDrop (RouteCtx.connection_id ctx) (channel_of frame) (epoch_of_frame frame)
         "module_to_client" reason) ≫= λ _,
  if is_type frame FrameType.Request
  then act (Count ModuleRequestsDroppedStaleRoute) ≫= λ _, reply_error ctx err
  else drop.

Definition drop_client_frame (ctx : RouteCtx.t) (frame : Frame.t) (reason : string) (err : RouterError)
    (count : Prog unit) : Router unit :=
  act (WarnFrameDrop (RouteCtx.connection_id ctx) (channel_of frame) (epoch_of_frame frame)
         "client_to_module" reason) ≫= λ _,
  if is_type frame FrameType.Request
  then count ≫= λ _, reply_error ctx err
  else mret (Ok tt).

Definition route_absent (ctx : RouteCtx.t) (frame : Frame.t) : Router unit :=
  match backends !! channel_of frame with
  | Some backend =>
      r ← backend_handle backend ctx frame;
      match r with
      | Ok _ => mret (Ok tt)
      | Err err =>
          act (WarnFrameDrop (RouteCtx.connection_id ctx) (channel_of frame) (epoch_of_frame frame)
                 "client_to_backend" "endpoint_gone") ≫= λ _, mret (Err err)
      end
  | None =>
      drop_client_frame ctx frame "unknown_channel"
        (UnknownChannel (channel_of frame) (epoch_of_frame frame) (corr_of frame)) (mret tt)
  end.

Definition route_for_connection (ctx : RouteCtx.t) (frame : Frame.t) : Router unit :=
  let channel := channel_of frame in
  let epoch := epoch_of_frame frame in
  let corr := corr_of frame in
  if channel =? 0 then
    responses ←! act (HandleControlFrame ctx frame);
    send_responses (RouteCtx.egress ctx) responses
  else
  data_route ← act (LookupDataRoute (RouteCtx.connection_id ctx) channel epoch);
  match data_route with
  | ModuleSide DataRouteState.EpochMismatch =>
      drop_module_frame ctx frame "stale_epoch" (StaleRouteEpoch channel epoch corr)
        (handle_orphan_module_frame ctx frame)
  | ModuleSide DataRouteState.Reserved =>
      drop_module_frame ctx frame "missing_binding" (UnknownChannel channel epoch corr)
        (record_module_frame_drop (RouteCtx.connection_id ctx))
  | ModuleSide DataRouteState.Absent =>
      drop_module_frame ctx frame "unknown_channel" (UnknownChannel channel epoch corr)
        (handle_orphan_module_frame ctx frame)
  | ModuleSide (DataRouteState.Bound route) => route_module_frame ctx frame route
  | ClientSide DataRouteState.EpochMismatch =>
      drop_client_frame ctx frame "stale_epoch" (StaleRouteEpoch channel epoch corr)
        (act (Count ClientFramesDroppedStaleRoute))
  | ClientSide DataRouteState.Reserved =>
      drop_client_frame ctx frame "missing_binding" (UnknownChannel channel epoch corr) (mret tt)
  | ClientSide (DataRouteState.Bound route) =>
      if is_type frame FrameType.Goodbye
      then _ ←! handle_route_goodbye (RouteCtx.connection_id ctx) channel epoch; mret (Ok tt)
      else handle_bound frame route
  | ClientSide DataRouteState.Absent => route_absent ctx frame
  end.

(** The connection's reader ([server.rs]): a failure that belongs on the wire is
    answered, any other ends the connection. *)
Definition serve_frame (ctx : RouteCtx.t) (frame : Frame.t) : Router unit :=
  route_result ← route_for_connection ctx frame;
  match route_result with
  | Ok _ => mret (Ok tt)
  | Err err =>
      match to_error_frame err with
      | Some error => send (RouteCtx.egress ctx) error
      | None => mret (Err err)
      end
  end.
End router.

Definition register_backend_arc (backends : gmap Z Backend) (channel : Z) (backend : Backend)
    : Result (gmap Z Backend) RouterError :=
  if channel =? 0 then Err ReservedChannelZero else
  if is_some (backends !! channel) then Err (DuplicateChannel channel) else
  Ok (<[channel := backend]> backends).

(** ** What the actions do *)

Section world.
Context `{Semaphore} `{HashOrder} `{AttributeJson} `{ProofCrypto} `{RouteOpenJson}.

Record World := mkWorld {
  daemon : Daemon;
  orphan_goodbyes : OrphanGoodbyeLimiter.t;
  frame_drop_warnings : DropWarnings;
  clock : Z;
}.

Definition set_routes (w : World) (fw : ForwardingInner) : World :=
  mkWorld (mkDaemon (scopes_of (daemon w)) fw (openings (daemon w))) (orphan_goodbyes w)
    (frame_drop_warnings w) (clock w).

Definition fw_of (w : World) : ForwardingInner := routes_of (daemon w).

Definition module_id_for_connection (i : ForwardingInner) (connection_id : Z) : option string :=
  endpoint_by_connection i !! connection_id ≫= λ endpoint, module_id_by_endpoint i !! endpoint.

(** One operation on the flow of a route, with its answer. *)
Definition on_flow {A} (w : World) (addr : positive) (f : ChannelFlow.t → A * ChannelFlow.t)
    (x : A) (w' : World) : Prop :=
  ∃ flow, flows (fw_of w) !! addr = Some flow ∧ x = (f flow).1 ∧
    w' = set_routes w (with_flow (fw_of w) addr (λ f0, (f f0).2)).

Definition perform (w : World) (a : RouterAct) : router_resp a → World → Prop :=
  match a with
  | LookupDataRoute c ch ep => λ x w', x = lookup_data_route (fw_of w) c ch ep ∧ w' = w
  | ModuleIdForConnection c => λ x w', x = module_id_for_connection (fw_of w) c ∧ w' = w
  | ModuleRouteEpochWasAllocated c ch ep => λ x w',
      x = module_route_epoch_was_allocated (fw_of w) c ch ep ∧ w' = w
  | TryAdmitRequest route ep corr sub => λ x w',
      let '(fw', admission) := try_admit_request (fw_of w) route ep corr sub in
      x = admission ∧ w' = set_routes w fw'
  | EndpointIsDraining e => λ x w', x = endpoint_is_draining (fw_of w) e ∧ w' = w
  | ReleaseModuleRoute c ch ep => λ x w',
      let '(fw', _, release) := release_module_route (fw_of w) c ch ep in
      x = release ∧ w' = set_routes w fw'
  | ReleaseClientRoute c ch ep => λ x w',
      let '(fw', _, release) := release_client_route (fw_of w) (ClientRouteKey.mk c ch) ep in
      x = release ∧ w' = set_routes w fw'
  | EscalateDeliveryFailure c ch ep code => λ x w',
      let '(fw', _, closed) := escalate_client_delivery_failure (fw_of w) c ch ep code in
      x = closed ∧ w' = set_routes w fw'
  | FlowBusyRefusals addr => λ x w', ∃ flow,
      flows (fw_of w) !! addr = Some flow ∧ x = ChannelFlow.busy_refusals flow ∧ w' = w
  | FlowShouldWarnBusy addr => on_flow w addr (λ f, ChannelFlow.should_warn_busy f (clock w))
  | FlowAcquirePermit addr => λ x w', ∃ flow, flows (fw_of w) !! addr = Some flow ∧
      if x : bool
      then is_Some (ChannelFlow.acquire_permit flow) ∧
           w' = set_routes w (with_flow (fw_of w) addr (λ f, default f (ChannelFlow.acquire_permit f)))
      else sem_is_closed (ChannelFlow.permits flow) = true ∧ w' = w
  | FlowAcquireRecorded addr corr sub => on_flow w addr (λ f, ChannelFlow.acquire_recorded f corr sub)
  | FlowReleaseCorr addr corr => on_flow w addr (λ f, (tt, ChannelFlow.release_corr f corr))
  | SendWithin _ _ _ stoppable => λ x w', (x = Stopped → stoppable = true) ∧ w' = w
  | ClaimOrphanGoodbye c ch => λ x w',
      let '(claimed, limiter) := OrphanGoodbyeLimiter.claim (orphan_goodbyes w) (clock w) c ch in
      x = claimed ∧ w' = mkWorld (daemon w) limiter (frame_drop_warnings w) (clock w)
  | WarnFrameDrop c ch _ _ reason => λ _ w',
      w' = mkWorld (daemon w) (orphan_goodbyes w)
             (warn_frame_drop (frame_drop_warnings w) (clock w) c ch reason).2 (clock w)
  | HandleControlFrame _ _ => λ _ w',
      rtc daemon_step (daemon w) (daemon w') ∧ orphan_goodbyes w' = orphan_goodbyes w ∧ clock w ≤ clock w'
  | Panic => λ _ _, False
  | _ => λ _ w', w' = w
  end.

(** Between two actions of one task: any step of the daemon, any frame of any
    other task, and time. *)
Definition interferes (w w' : World) : Prop :=
  (daemon_step (daemon w) (daemon w') ∨ daemon w' = daemon w) ∧ clock w ≤ clock w'.
End world.
