(* ===== verification/RouterTraces.v ===== *)
(** * What one routed frame does

    The traces of the router's programs, seen through what matters to others:
    the routes looked up, the frames queues were offered and took, the credits
    taken and given back. *)

From S2P Require Import Prelude Collections Envelope Program Egress Tokens ScopeTypes Scopes.
From S2P Require Import Flow Forwarding ForwardingDrains ForwardingWorld Daemon Router.

(** ** Views of an event *)

Definition looked_up (e : Event) : option (Z * Z * Z * DataRoute) :=
  match e with
  | existT a x =>
      match a return resp a → option (Z * Z * Z * DataRoute) with
      | LookupDataRoute c ch ep => λ x, Some (c, ch, ep, x)
      | _ => λ _, None
      end x
  end.

(** A frame offered to a queue, now or by a task of its own. *)
Definition offered (e : Event) : option (Sink * Frame.t) :=
  match projT1 e with
  | Send sink frame | TrySend sink frame | SendWithin sink frame _ _ | SpawnLateGoodbye sink frame _ =>
      Some (sink, frame)
  | _ => None
  end.

(** A frame a queue took. *)
Definition accepted (e : Event) : option (Sink * Frame.t) :=
  match e with
  | existT a x =>
      match a return resp a → option (Sink * Frame.t) with
      | Send sink frame => λ x, if x : bool then Some (sink, frame) else None
      | TrySend sink frame => λ x, match x with None => Some (sink, frame) | Some _ => None end
      | SendWithin sink frame _ _ => λ x, match x with Sent => Some (sink, frame) | _ => None end
      | _ => λ _, None
      end x
  end.

Inductive CreditMove :=
  | Take (addr : positive) (corr : Z)
  | GiveBack (addr : positive) (corr : Z).

Definition credit_move (e : Event) : option CreditMove :=
  match e with
  | existT a x =>
      match a return resp a → option CreditMove with
      | TryAdmitRequest route _ corr _ => λ x,
          match x with IsAdmitted => Some (Take (RouteBinding.addr route) corr) | _ => None end
      | FlowAcquireRecorded addr corr _ => λ x,
          match x with Ok _ => Some (Take addr corr) | Err _ => None end
      | FlowReleaseCorr addr corr => λ _, Some (GiveBack addr corr)
      | _ => λ _, None
      end x
  end.

Definition lookups (l : list Event) := omap looked_up l.
Definition accepts (l : list Event) := omap accepted l.
Definition credit_moves (l : list Event) := omap credit_move l.

(** A stretch of a trace: no route looked up, these frames taken, these credits
    moved. *)
Definition summary (l : list Event) (taken : list (Sink * Frame.t)) (moves : list CreditMove) : Prop :=
  lookups l = [] ∧ accepts l = taken ∧ credit_moves l = moves.

(** Adds up the stretches of a trace. *)
Ltac summarize :=
  repeat match goal with H : summary _ _ _ |- _ => destruct H as (? & ? & ?) end;
  unfold summary, lookups, accepts, credit_moves in *;
  csimpl; rewrite ?omap_app; csimpl; rewrite ?omap_app;
  repeat match goal with H : omap _ _ = _ |- _ => rewrite H; clear H end; csimpl;
  try (split_and!; reflexivity).

(** Takes a trace of a program apart, one call at a time. *)
Ltac tr_step H :=
  lazymatch type of H with
  | @traces _ _ (@mbind _ _ _ _ _ (@act _ ?a)) _ _ =>
      let x := fresh "x" in let l1 := fresh "l" in let l2 := fresh "l" in let H1 := fresh in
      apply traces_bind in H as (x & l1 & l2 & -> & H1 & H); apply (@traces_act router_signature a) in H1 as ->
  | traces (mret _) _ _ => destruct H as [-> ->]
  | @traces _ _ (@act _ ?a) _ _ => apply (@traces_act router_signature a) in H as ->
  | traces panic _ _ => destruct H as ([] & _)
  | traces (if ?b then _ else _) _ _ => destruct b eqn:?
  | traces (match ?b with _ => _ end) _ _ => destruct b eqn:?
  end.

(** ** Sinks *)

Lemma send_traces sink frame l r :
  traces (send sink frame) l r →
  (r = Ok tt ∧ summary l [(sink, frame)] []) ∨
  (r = Err (backend_error_for frame "connection writer closed") ∧ summary l [] []).
Proof.
  intros Ht. unfold send in Ht. repeat tr_step Ht. destruct x; [left|right]; done.
Qed.

Lemma try_send_owned_traces sink frame l r :
  traces (try_send_owned sink frame) l r →
  (r = Ok tt ∧ summary l [(sink, frame)] []) ∨ (∃ err, r = Err (frame, err) ∧ summary l [] []).
Proof.
  intros Ht. unfold try_send_owned in Ht. repeat tr_step Ht.
  destruct x; [right; eexists|left]; (split; [done|summarize]).
Qed.

Lemma try_send_traces sink frame l r :
  traces (try_send sink frame) l r →
  (r = Ok tt ∧ summary l [(sink, frame)] []) ∨ (∃ err, r = Err err ∧ summary l [] []).
Proof.
  intros (x & l1 & l2 & -> & Ht & [-> ->])%traces_bind. rewrite app_nil_r.
  destruct (try_send_owned_traces _ _ _ _ Ht) as [[-> Hs]|(err & -> & Hs)]; eauto.
Qed.

(** A client takes a frame at most once, and exactly when delivery succeeds. *)
Lemma send_to_client_traces sink frame l r :
  traces (send_to_client sink frame) l r →
  (r = Ok tt ∧ summary l [(sink, frame)] []) ∨ (∃ err, r = Err err ∧ summary l [] []).
Proof.
  intros Ht. unfold send_to_client in Ht. tr_step Ht.
  tr_step Ht; [tr_step Ht; right; eexists; (split; [done|summarize])|].
  apply traces_bind in Ht as (y & la & lb & -> & H1 & Ht).
  destruct (try_send_owned_traces _ _ _ _ H1) as [[-> Hs]|(err & -> & Hs)].
  - tr_step Ht. left. split; [done|summarize].
  - tr_step Ht. tr_step Ht; [tr_step Ht; right; eexists; (split; [done|summarize])|].
    tr_step Ht. cbv zeta in Ht. tr_step Ht; [tr_step Ht; right; eexists; (split; [done|summarize])|].
    repeat tr_step Ht.
    match goal with x : SendOutcome |- _ => destruct x end; [left|right; eexists..]; (split; [done|summarize]).
Qed.

(** ** Programs that look up no route and move no credit *)

Definition aside (e : Event) : Prop := looked_up e = None ∧ credit_move e = None.

(** Walks through a program, whatever the answers. *)
Ltac wp_walk := repeat first [done | progress simpl | progress intros | split | case_match].

Lemma aside_summary l : Forall aside l → summary l (accepts l) [].
Proof.
  intros Hl. unfold summary, lookups, credit_moves.
  induction Hl as [|e l [Hlook Hmove] _ (IH1 & _ & IH2)]; [done|].
  simpl. rewrite Hlook, Hmove. simpl in *. done.
Qed.

Section frame.
Context `{ErrorJson} (ctx : RouteCtx.t) (frame : Frame.t).

Abbreviation is_aside p := (∀ h, wp (λ _ e, aside e) p (λ _ _, True) h).

Lemma handle_route_goodbye_aside c ch ep : is_aside (handle_route_goodbye c ch ep).
Proof.
  intros h. unfold handle_route_goodbye, release_client_route_counted, record_route_release.
  unfold emit_route_goodbyes, emit_route_goodbye, send_module_route_goodbye, try_send, try_send_owned. wp_walk.
Qed.

Lemma relay_module_goodbye_aside : is_aside (relay_module_goodbye ctx frame).
Proof.
  intros h. unfold relay_module_goodbye, release_module_route_counted, record_route_release.
  unfold send_to_client, try_send_owned. wp_walk.
Qed.

Lemma handle_orphan_module_frame_aside : is_aside (handle_orphan_module_frame ctx frame).
Proof. intros h. unfold handle_orphan_module_frame, answer_orphan, try_send, try_send_owned. wp_walk. Qed.

Lemma reply_error_aside err : is_aside (reply_error ctx err).
Proof. intros h. unfold reply_error, send. wp_walk. Qed.

Lemma drop_module_frame_aside reason err drop :
  is_aside drop → is_aside (drop_module_frame ctx frame reason err drop).
Proof.
  intros Hdrop h. unfold drop_module_frame. simpl. intros x. split; [done|].
  destruct (is_type frame FrameType.Request); [|apply Hdrop]. simpl. intros y. split; [done|].
  apply reply_error_aside.
Qed.

Lemma drop_client_frame_aside reason err count :
  is_aside count → is_aside (drop_client_frame ctx frame reason err count).
Proof.
  intros Hcount h. unfold drop_client_frame. simpl. intros x. split; [done|].
  destruct (is_type frame FrameType.Request); [|done]. apply wp_bind.
  eapply wp_mono; [|apply Hcount]. intros. apply reply_error_aside.
Qed.

Lemma close_undelivered_traces route code cause l r :
  traces (close_undelivered route code cause) l r → r = Ok tt ∧ summary l [] [].
Proof.
  intros Ht. unfold close_undelivered, escalate_client_delivery_failure_diagnosed in Ht.
  simpl in Ht. destruct Ht as ([] & l' & -> & Ht); simpl in Ht.
  - by destruct Ht as (? & l2 & -> & -> & ->).
  - by destruct Ht as (? & l2 & -> & -> & ->).
Qed.

Lemma deliver_to_client_traces route f l r :
  traces (deliver_to_client route f) l r →
  r = Ok tt ∧ (summary l [] [] ∨ summary l [(RouteBinding.client_sink route, f)] []).
Proof.
  intros (x & l1 & l2 & -> & H1 & Ht)%traces_bind.
  destruct (send_to_client_traces _ _ _ _ H1) as [[-> Hs]|(err & -> & Hs)].
  - destruct Ht as [-> ->]. split; [done|]. right. summarize.
  - destruct (close_undelivered_traces _ _ _ _ _ Ht) as [-> Hs2]. split; [done|]. left. summarize.
Qed.

(** ** Credits *)

(** An error the daemon wrote itself. *)
Definition daemon_authored (f : Frame.t) : Prop :=
  type_of f = FrameType.Error ∧ Flags.is_daemon_origin (flags_of f) = true.

Lemma build_authored ch ep corr body f :
  ok_of (Frame.build FrameType.Error daemon_error_flags ch ep corr body) = Some f →
  daemon_authored f ∧ channel_of f = ch ∧ epoch_of_frame f = ep ∧ corr_of f = corr.
Proof.
  unfold Frame.build, Frame.build_with_version. destruct (_ <? _); [done|].
  destruct (bool_decide _); [|done]. by intros [= <-].
Qed.

Lemma to_error_frame_authored err f : to_error_frame err = Some f → daemon_authored f.
Proof.
  destruct err; simpl; try done; unfold error_frame; destruct (error_body _ _ _); simpl; intros Hf; try done;
    by apply build_authored in Hf as [? _].
Qed.

Lemma frame_too_large_authored ch ep corr bytes limit f :
  frame_too_large_error ch ep corr bytes limit = Some (Ok f) →
  daemon_authored f ∧ channel_of f = ch ∧ epoch_of_frame f = ep ∧ corr_of f = corr.
Proof.
  unfold frame_too_large_error. destruct (error_body _ _ _) as [body|]; [|done]. simpl.
  destruct (Frame.build _ _ _ _ _ body) as [f'|] eqn:Hb; [|done]. intros [= <-].
  apply (build_authored ch ep corr body). by rewrite Hb.
Qed.

(** ** Ends of requests *)

(** With a frame of these types a request is over for the client. *)
Definition final_types : list FrameType.t := [FrameType.Response; FrameType.Error; FrameType.StreamEnd].

(** A module's frame ends the request it belongs to if it is of such a type; or
    if it belongs to an answer and is too large for any client, whose request
    then ends with an error in its place. *)
Definition ends_request (f : Frame.t) : Prop :=
  type_of f ∈ final_types ∨
  CONNECTION_EGRESS_BYTE_BUDGET < queued_frame_bytes f ∧
  type_of f ∉ [FrameType.Request; FrameType.Push; FrameType.Goodbye].

#[global] Instance ends_request_dec f : Decision (ends_request f).
Proof. unfold ends_request. apply _. Defined.

(** Of the frames that were taken, those the client got (from others than
    itself) end its request exactly if the module's frame did. *)
Definition client_saw (route : RouteBinding.t) (taken : list (Sink * Frame.t)) : Prop :=
  ∀ f, (RouteBinding.client_sink route, f) ∈ taken → RouteBinding.client_sink route ≠ RouteCtx.egress ctx →
    (type_of f ∈ final_types ↔ ends_request frame).

Lemma client_saw_one route f :
  (type_of f ∈ final_types ↔ ends_request frame) → client_saw route [(RouteBinding.client_sink route, f)].
Proof. intros Hf f' [[= ->]|?%elem_of_nil]%elem_of_cons _; [done|contradiction]. Qed.

Lemma client_saw_none route : client_saw route [].
Proof. by intros f ?%elem_of_nil. Qed.

Lemma client_saw_own route f : client_saw route [(RouteCtx.egress ctx, f)].
Proof. intros f' [[= Heq ->]|?%elem_of_nil]%elem_of_cons Hne; [done|contradiction]. Qed.

Definition settles (route : RouteBinding.t) (l : list Event) : Prop :=
  lookups l = [] ∧
  credit_moves l = (if decide (ends_request frame) then [GiveBack (RouteBinding.addr route) (corr_of frame)] else []) ∧
  client_saw route (accepts l).

Lemma refuse_oversized_settles route l r :
  CONNECTION_EGRESS_BYTE_BUDGET < queued_frame_bytes frame → is_type frame FrameType.Goodbye = false →
  traces (refuse_oversized_module_frame ctx route frame (queued_frame_bytes frame)) l r → settles route l.
Proof.
  intros Hbig Hg. unfold refuse_oversized_module_frame, settles. apply bool_decide_eq_false in Hg.
  destruct (is_type frame FrameType.Push) eqn:Hpush; [apply bool_decide_eq_true in Hpush|apply bool_decide_eq_false in Hpush].
  { intros [_ (Hl & Ha & Hm)]%close_undelivered_traces. rewrite Hl, Ha, Hm, decide_False by (intros [H1|[_ H1]]; rewrite Hpush in H1; set_solver).
    split_and!; [done..|apply client_saw_none]. }
  destruct (is_type frame FrameType.Request) eqn:Hreq; [apply bool_decide_eq_true in Hreq|apply bool_decide_eq_false in Hreq].
  - rewrite decide_False by (intros [H1|[_ H1]]; rewrite Hreq in H1; set_solver).
    destruct (frame_too_large_error _ _ _ _ _) as [[error|err]|]; intros Ht;
      [|tr_step Ht; split_and!; [done..|apply client_saw_none]|tr_step Ht].
    destruct (send_traces _ _ _ _ Ht) as [[_ (-> & -> & ->)]|[_ (-> & -> & ->)]]; (split_and!; [done..|]); [apply client_saw_own|apply client_saw_none].
  - assert (ends_request frame) as Hends by (right; split; [done|]; set_solver). rewrite decide_True by done.
    intros Ht. tr_step Ht. destruct (frame_too_large_error _ _ _ _ _) as [[error|err]|] eqn:Herr; [| |tr_step Ht].
    + assert (type_of error ∈ final_types ↔ ends_request frame) as Hsaw.
      { apply frame_too_large_authored in Herr as [[Hty _] _]. rewrite Hty. split; [done|]. intros _. unfold final_types. set_solver. }
      destruct (deliver_to_client_traces _ _ _ _ Ht) as [_ [(Hl & Ha & Hm)|(Hl & Ha & Hm)]];
        (split_and!; unfold lookups, accepts, credit_moves in *; csimpl; [by rewrite Hl|by rewrite Hm|rewrite Ha]);
        [apply client_saw_none|by apply client_saw_one].
    + tr_step Ht. split_and!; [done..|apply client_saw_none].
Qed.

(** The relayed GOODBYE is the only frame a client gets for one. *)
Lemma relay_module_goodbye_takes h :
  wp (λ _ e, aside e ∧ ∀ sink f, accepted e = Some (sink, f) → type_of f = type_of frame) (relay_module_goodbye ctx frame) (λ _ _, True) h.
Proof.
  unfold relay_module_goodbye, release_module_route_counted, record_route_release.
  unfold send_to_client, try_send_owned. wp_walk; simplify_eq; done.
Qed.

Lemma route_module_frame_settles route l r : traces (route_module_frame ctx frame route) l r → settles route l.
Proof.
  unfold route_module_frame. destruct (is_type frame FrameType.Goodbye) eqn:Hg.
  { intros Ht. pose proof (wp_Forall _ _ _ _ _ (relay_module_goodbye_takes []) Ht) as Hall.
    apply bool_decide_eq_true in Hg.
    assert (¬ ends_request frame) as Hno by (intros [H1|[_ H1]]; rewrite Hg in H1; set_solver).
    destruct (aside_summary l) as (Hl & _ & Hm); [eapply Forall_impl; [exact Hall|]; by intros e [? _]|].
    unfold settles. rewrite Hl, Hm, decide_False by done. split_and!; [done..|].
    intros f (e & He & Hacc)%list_elem_of_omap _. rewrite Forall_forall in Hall. destruct (Hall e He) as [_ Hty].
    rewrite (Hty _ _ Hacc), Hg. split; [set_solver|done]. }
  cbv zeta. destruct (CONNECTION_EGRESS_BYTE_BUDGET <? queued_frame_bytes frame) eqn:Hbig.
  { apply Z.ltb_lt in Hbig. by apply refuse_oversized_settles. }
  apply Z.ltb_ge in Hbig. intros (x & l1 & l2 & -> & H1 & Ht)%traces_bind.
  destruct (deliver_to_client_traces _ _ _ _ Ht) as [_ Hs].
  assert (is_terminal_frame (type_of frame) = true ↔ ends_request frame) as Hterm.
  { unfold ends_request, final_types. destruct (type_of frame); simpl; split; intros; try done; set_solver by lia. }
  assert (client_saw route (accepts l2)) as Hsaw.
  { destruct Hs as [(_ & -> & _)|(_ & -> & _)]; [apply client_saw_none|apply client_saw_one]. simpl. unfold ends_request.
    split; [by left|]. intros [?|[? _]]; [done|lia]. }
  destruct (is_terminal_frame (type_of frame)) eqn:Hb; tr_step H1; unfold settles, lookups, credit_moves in *;
    [rewrite decide_True by by apply Hterm|rewrite decide_False by (intros ?%Hterm; done)];
    destruct Hs as [(Hl & _ & Hm)|(Hl & _ & Hm)]; csimpl; unfold lookups, credit_moves in Hl, Hm;
    by rewrite ?Hl, ?Hm.
Qed.

Abbreviation to_module route :=
  (RouteBinding.module_sink route,
   relayed frame (RouteBinding.module_channel route) (RouteBinding.module_epoch route)).

Lemma forward_to_module_traces route acquired l r :
  traces (forward_to_module frame route acquired) l r →
  (r = Ok tt ∧ summary l [to_module route] []) ∨
  (∃ message, r = Err (BackendError (channel_of frame) (RouteBinding.client_epoch route) (corr_of frame) message) ∧
     summary l [] (if acquired then [GiveBack (RouteBinding.addr route) (corr_of frame)] else [])).
Proof.
  intros (x & l1 & l2 & -> & H1 & Ht)%traces_bind.
  destruct (send_traces _ _ _ _ H1) as [[-> Hs]|[-> Hs]].
  - tr_step Ht. left. split; [done|summarize].
  - right. repeat tr_step Ht. destruct acquired.
    + repeat tr_step Ht. eexists. split; [done|summarize].
    + apply traces_bind in Ht as (y & l3 & l4 & -> & H2 & Ht). tr_step H2. tr_step Ht.
      eexists. split; [done|summarize].
Qed.

Lemma acquire_legacy_credit_traces route l r :
  traces (acquire_legacy_credit frame route) l r →
  (r = Ok tt ∧ summary l [] [Take (RouteBinding.addr route) (corr_of frame)]) ∨
  (∃ err, r = Err err ∧ summary l [] []).
Proof.
  intros (y & l1 & l2 & -> & H1 & Ht)%traces_bind. destruct H1 as ([] & l3 & -> & H1); simpl in H1.
  - destruct H1 as (z & l4 & -> & -> & ->). destruct z as [[]|[]]; repeat tr_step Ht.
    + left. split; [done|summarize].
    + right. eexists. split; [done|summarize].
  - destruct H1 as [-> ->]. repeat tr_step Ht. right. eexists. split; [done|summarize].
Qed.

(** How a client's frame on a bound route ends. *)
Definition client_outcome (route : RouteBinding.t) (l : list Event) (r : Result unit RouterError) : Prop :=
  let request := is_type frame FrameType.Request in
  (r = Ok tt ∧
   summary l [to_module route] (if request then [Take (RouteBinding.addr route) (corr_of frame)] else [])) ∨
  ((∃ t, summary l t [] ∧ Forall (λ o, daemon_authored o.2) t) ∨
   (request = true ∧ summary l [] [Take (RouteBinding.addr route) (corr_of frame);
                                   GiveBack (RouteBinding.addr route) (corr_of frame)])).

Lemma handle_bound_traces route l r :
  traces (handle_bound frame route) l r → client_outcome route l r.
Proof.
  unfold handle_bound, client_outcome. destruct (is_type frame FrameType.Request) eqn:Hty; cbn [negb]; intros Ht.
  2: { destruct (forward_to_module_traces _ _ _ _ Ht) as [[-> Hs]|(m & -> & Hs)]; [by left|].
       right; left. by exists []. }
  tr_step Ht. tr_step Ht.
  - tr_step Ht. tr_step Ht.
    + destruct (forward_to_module_traces _ _ _ _ Ht) as [[-> Hs]|(m & -> & Hs)].
      * left. split; [done|summarize].
      * right; right. split; [done|summarize].
    + right; left. unfold refuse_busy in Ht. repeat tr_step Ht.
      destruct (send_traces _ _ _ _ Ht) as [[_ Hs]|[_ Hs]]; eexists; (split; [summarize|]); [|done].
      constructor; [|done]. by eapply to_error_frame_authored.
    + right; left. destruct Ht as [-> ->]. exists []. split; [summarize|done].
    + right; left. destruct Ht as [-> ->]. exists []. split; [summarize|done].
  - destruct (traces_bind_ok _ _ _ _ Ht) as [([] & la & lb & -> & H1 & H2)|(err & H1 & ->)].
    + destruct (acquire_legacy_credit_traces _ _ _ H1) as [[_ Hs1]|(err & [=] & _)].
      destruct (forward_to_module_traces _ _ _ _ H2) as [[-> Hs]|(m & -> & Hs)].
      * left. split; [done|summarize].
      * right; right. split; [done|summarize].
    + destruct (acquire_legacy_credit_traces _ _ _ H1) as [[[=] _]|(err' & _ & Hs)].
      right; left. exists []. split; [summarize|done].
Qed.

(** The credits of a routed frame, once it is done, by the route it was on. *)
Definition settled (found : DataRoute) (l : list Event) (r : Result unit RouterError) : Prop :=
  lookups l = [] ∧
  match found with
  | ClientSide (DataRouteState.Bound route) =>
      let take := Take (RouteBinding.addr route) (corr_of frame) in
      let give_back := GiveBack (RouteBinding.addr route) (corr_of frame) in
      if is_type frame FrameType.Goodbye then credit_moves l = []
      else
        (r = Ok tt ∧ accepts l = [to_module route] ∧
         credit_moves l = if is_type frame FrameType.Request then [take] else []) ∨
        (Forall (λ o, daemon_authored o.2) (accepts l) ∧
         (credit_moves l = [] ∨ (is_type frame FrameType.Request = true ∧ credit_moves l = [take; give_back])))
  | ModuleSide (DataRouteState.Bound route) =>
      credit_moves l = (if decide (ends_request frame) then [GiveBack (RouteBinding.addr route) (corr_of frame)] else []) ∧
      client_saw route (accepts l)
  | _ => credit_moves l = []
  end.

Lemma handle_bound_settled route l r :
  is_type frame FrameType.Goodbye = false → traces (handle_bound frame route) l r →
  settled (ClientSide (DataRouteState.Bound route)) l r.
Proof.
  intros Hg Ht. unfold settled. rewrite Hg.
  destruct (handle_bound_traces _ _ _ Ht) as [[-> (Hl & Ha & Hm)]|[(t & (Hl & Ha & Hm) & Hall)|[Hreq (Hl & Ha & Hm)]]];
    (split; [exact Hl|]); [left|right..]; rewrite Ha, Hm; auto.
Qed.

Lemma aside_settled found l r :
  match found with
  | ClientSide (DataRouteState.Bound _) => is_type frame FrameType.Goodbye = true
  | ModuleSide (DataRouteState.Bound _) => False
  | _ => True
  end → Forall aside l → settled found l r.
Proof.
  intros Hf Hl. destruct (aside_summary l Hl) as (Hlook & _ & Hmove). unfold settled.
  split; [done|]. destruct found as [[]|[]]; try done. by rewrite Hf.
Qed.

Lemma route_for_connection_settled (backends : gmap Z Backend) tr r :
  channel_of frame ≠ 0 → backends !! channel_of frame = None →
  traces (route_for_connection backends ctx frame) tr r →
  ∃ found l, tr = ev (LookupDataRoute (RouteCtx.connection_id ctx) (channel_of frame) (epoch_of_frame frame)) found :: l ∧
    settled found l r.
Proof.
  intros Hch Hb Ht. unfold route_for_connection in Ht. cbv zeta in Ht.
  rewrite (proj2 (Z.eqb_neq _ _) Hch) in Ht. tr_step Ht. rename x into found. exists found. eexists.
  split; [reflexivity|].
  destruct found as [[route| | |]|[route| | |]].
  - destruct (is_type frame FrameType.Goodbye) eqn:Hg; [|by apply handle_bound_settled].
    apply aside_settled; [done|]. eapply wp_Forall; [|exact Ht].
    apply wp_bind_ok. eapply wp_mono; [|apply (handle_route_goodbye_aside _ _ _ [])]. by intros h [].
  - apply aside_settled; [done|]. eapply wp_Forall; [|exact Ht]. refine (drop_client_frame_aside _ _ _ _ []). intros h. wp_walk.
  - apply aside_settled; [done|]. eapply wp_Forall; [|exact Ht]. refine (drop_client_frame_aside _ _ _ _ []). intros h. wp_walk.
  - unfold route_absent in Ht. rewrite Hb in Ht. apply aside_settled; [done|]. eapply wp_Forall; [|exact Ht].
    refine (drop_client_frame_aside _ _ _ _ []). intros h. wp_walk.
  - destruct (route_module_frame_settles _ _ _ Ht) as (Hl & Hm & Hsaw). done.
  - apply aside_settled; [done|]. eapply wp_Forall; [|exact Ht]. refine (drop_module_frame_aside _ _ _ _ []).
    intros h. unfold record_module_frame_drop. wp_walk.
  - apply aside_settled; [done|]. eapply wp_Forall; [|exact Ht]. refine (drop_module_frame_aside _ _ _ _ []).
    apply handle_orphan_module_frame_aside.
  - apply aside_settled; [done|]. eapply wp_Forall; [|exact Ht]. refine (drop_module_frame_aside _ _ _ _ []).
    apply handle_orphan_module_frame_aside.
Qed.

(** What the reader adds: the answer to a failure. *)
Lemma answered_settled found l err l' t r :
  settled found l (Err err) → summary l' t [] → Forall (λ o, o.1 = RouteCtx.egress ctx ∧ daemon_authored o.2) t →
  settled found (l ++ l') r.
Proof.
  unfold settled, summary, lookups, accepts, credit_moves. intros [Hl Hs] (Hl' & Ha & Hm) Hall.
  rewrite !omap_app, Hl, Hl', Ha, Hm, !app_nil_r. split; [done|].
  destruct found as [[]|[]]; try done.
  - destruct (is_type frame FrameType.Goodbye); [done|].
    destruct Hs as [[[=] _]|[Hall' Hs]]. right. split; [|done]. apply Forall_app. split; [done|].
    eapply Forall_impl; [exact Hall|]. by intros o [_ ?].
  - destruct Hs as [Hs Hsaw]. split; [done|]. intros f [Hf|Hf]%elem_of_app Hne; [by apply Hsaw|].
    rewrite Forall_forall in Hall. by destruct (Hall _ Hf).
Qed.

Lemma serve_frame_settled (backends : gmap Z Backend) tr r :
  channel_of frame ≠ 0 → backends !! channel_of frame = None →
  traces (serve_frame backends ctx frame) tr r →
  ∃ found l, tr = ev (LookupDataRoute (RouteCtx.connection_id ctx) (channel_of frame) (epoch_of_frame frame)) found :: l ∧
    settled found l r.
Proof.
  intros Hch Hb (x & l1 & l2 & -> & H1 & Ht)%traces_bind.
  destruct (route_for_connection_settled _ _ _ Hch Hb H1) as (found & l & -> & Hs).
  exists found, (l ++ l2). split; [done|]. destruct x as [[]|err].
  - destruct Ht as [-> ->]. by rewrite app_nil_r.
  - destruct (to_error_frame err) as [f|] eqn:Hf.
    + destruct (send_traces _ _ _ _ Ht) as [[_ Hsum]|[_ Hsum]]; eapply answered_settled; eauto.
      constructor; [|done]. split; [done|]. by eapply to_error_frame_authored.
    + destruct Ht as [-> ->]. by rewrite app_nil_r.
Qed.
End frame.
