(* ===== verification/RouterSplice.v ===== *)
(** * Where a routed frame may go

    Every frame the router offers to a queue while it handles one frame, at any
    point at which it may be cut short: the relayed frame to the peer of its
    route, a notice that a route is gone, or an error the daemon wrote. *)

From S2P Require Import Prelude Collections Envelope Program Egress Tokens ScopeTypes Scopes.
From S2P Require Import Flow Forwarding ForwardingDrains ForwardingWorld Daemon Router RouterTraces.

(** A route given up for a GOODBYE: by its module, or by its client. *)
Definition released (e : Event) : option (GoodbyeTargetKind * Z * Z * Z * GoodbyeTarget.t) :=
  match e with
  | existT a x =>
      match a return resp a → option (GoodbyeTargetKind * Z * Z * Z * GoodbyeTarget.t) with
      | ReleaseModuleRoute c ch ep => λ x,
          match x with RouteRelease.Removed target => Some (ToClient, c, ch, ep, target) | _ => None end
      | ReleaseClientRoute c ch ep => λ x,
          match x with RouteRelease.Removed target => Some (ToModule, c, ch, ep, target) | _ => None end
      | _ => λ _, None
      end x
  end.

Definition claimed (e : Event) : option (Z * Z) :=
  match e with
  | existT a x =>
      match a return resp a → option (Z * Z) with
      | ClaimOrphanGoodbye c ch => λ x, if x : bool then Some (c, ch) else None
      | _ => λ _, None
      end x
  end.

Definition releases (h : list Event) := omap released h.
Definition claims (h : list Event) := omap claimed h.

Section splice.
Context `{ErrorJson} (ctx : RouteCtx.t) (frame : Frame.t).

Abbreviation found h state :=
  ((RouteCtx.connection_id ctx, channel_of frame, epoch_of_frame frame, state) ∈ lookups h).

(** The frames one frame may give rise to, and the queues they may go to, given
    what happened before. *)
Inductive outbound (h : list Event) : Sink → Frame.t → Prop :=
  | out_to_module route :
      found h (ClientSide (DataRouteState.Bound route)) → type_of frame ≠ FrameType.Goodbye →
      (type_of frame = FrameType.Request →
       Take (RouteBinding.addr route) (corr_of frame) ∈ credit_moves h) →
      outbound h (RouteBinding.module_sink route)
        (relayed frame (RouteBinding.module_channel route) (RouteBinding.module_epoch route))
  | out_to_client route :
      found h (ModuleSide (DataRouteState.Bound route)) → type_of frame ≠ FrameType.Goodbye →
      queued_frame_bytes frame ≤ CONNECTION_EGRESS_BYTE_BUDGET →
      (is_terminal_frame (type_of frame) = true →
       GiveBack (RouteBinding.addr route) (corr_of frame) ∈ credit_moves h) →
      outbound h (RouteBinding.client_sink route)
        (relayed frame (RouteBinding.client_channel route) (RouteBinding.client_epoch route))
  | out_goodbye_to_client target :
      type_of frame = FrameType.Goodbye →
      (ToClient, RouteCtx.connection_id ctx, channel_of frame, epoch_of_frame frame, target) ∈ releases h →
      outbound h (GoodbyeTarget.sink target)
        (relayed frame (GoodbyeTarget.channel target) (GoodbyeTarget.epoch target))
  | out_goodbye_to_module target goodbye :
      type_of frame = FrameType.Goodbye →
      (ToModule, RouteCtx.connection_id ctx, channel_of frame, epoch_of_frame frame, target) ∈ releases h →
      Frame.build_with_version (GoodbyeTarget.negotiated_ver target) FrameType.Goodbye control_flags
        (GoodbyeTarget.channel target) (GoodbyeTarget.epoch target) 0 [] = Ok goodbye →
      outbound h (GoodbyeTarget.sink target) goodbye
  | out_orphan goodbye :
      type_of frame ≠ FrameType.Goodbye →
      (RouteCtx.connection_id ctx, channel_of frame) ∈ claims h →
      orphan_goodbye frame = Ok goodbye →
      outbound h (RouteCtx.egress ctx) goodbye
  | out_answer error :
      daemon_authored error → corr_of error = corr_of frame →
      outbound h (RouteCtx.egress ctx) error
  | out_busy route error :
      found h (ClientSide (DataRouteState.Bound route)) →
      daemon_authored error → channel_of error = channel_of frame →
      epoch_of_frame error = epoch_of_frame frame → corr_of error = corr_of frame →
      outbound h (RouteBinding.client_sink route) error
  | out_too_large route error :
      found h (ModuleSide (DataRouteState.Bound route)) →
      daemon_authored error → channel_of error = RouteBinding.client_channel route →
      epoch_of_frame error = RouteBinding.client_epoch route → corr_of error = corr_of frame →
      outbound h (RouteBinding.client_sink route) error.

Definition confined (h : list Event) (e : Event) : Prop :=
  ∀ sink f, offered e = Some (sink, f) → outbound h sink f.

(** A failure is answered under the frame's own correlation id. *)
Definition own_failure (_ : list Event) (r : Result unit RouterError) : Prop :=
  ∀ err error, r = Err err → to_error_frame err = Some error → corr_of error = corr_of frame.

Lemma to_error_frame_corr err f :
  to_error_frame err = Some f →
  match err with
  | UnknownChannel _ _ corr | StaleRouteEpoch _ _ corr | RouteBusy _ _ corr _ | BackendError _ _ corr _
  | RouteError _ _ corr _ _ => corr_of f = corr
  | _ => True
  end.
Proof.
  destruct err; simpl; try done; unfold error_frame; destruct (error_body _ _ _); simpl; intros Hf; try done;
    by apply build_authored in Hf as (_ & _ & _ & ->).
Qed.

Lemma busy_frame ch ep corr detail f :
  to_error_frame (RouteBusy ch ep corr detail) = Some f →
  daemon_authored f ∧ channel_of f = ch ∧ epoch_of_frame f = ep ∧ corr_of f = corr.
Proof. simpl. destruct (error_body _ _ _); [|done]. apply build_authored. Qed.

Lemma outbound_later h l sink f : outbound h sink f → outbound (h ++ l) sink f.
Proof.
  assert (∀ {A} (g : Event → option A) x, x ∈ omap g h → x ∈ omap g (h ++ l)) as Hin.
  { intros A g x Hx. rewrite omap_app. apply elem_of_app. by left. }
  unfold lookups, releases, claims, credit_moves in *.
  destruct 1; [eapply out_to_module|eapply out_to_client|eapply out_goodbye_to_client
    |eapply out_goodbye_to_module|eapply out_orphan|eapply out_answer|eapply out_busy|eapply out_too_large];
    unfold lookups, releases, claims, credit_moves in *; eauto.
Qed.

Lemma calm_confined h e : offered e = None → confined h e.
Proof. intros He sink f. by rewrite He. Qed.

Lemma offer_confined h l e sink f :
  outbound h sink f → offered e = Some (sink, f) → confined (h ++ l) e.
Proof. intros Hout He sink' f'. rewrite He. intros [= <- <-]. by apply outbound_later. Qed.

(** Walks through a program whose offers are all known to be allowed. *)
Ltac confined_walk Hout :=
  repeat first
    [ progress simpl | progress intros | split
    | by apply calm_confined | by (rewrite <-?app_assoc; eapply offer_confined; [exact Hout|])
    | case_match; simplify_eq ].

Lemma send_confined sink f Q h :
  outbound h sink f →
  (∀ l (x : bool), Q (h ++ l) (if x then Ok tt else Err (backend_error_for f "connection writer closed"))) →
  wp confined (send sink f) Q h.
Proof.
  intros Hout HQ. simpl. intros x. split; [|apply (HQ [_])].
  rewrite <-(app_nil_r h). by eapply offer_confined.
Qed.

Lemma send_to_client_confined sink f Q h :
  outbound h sink f → (∀ l r, Q (h ++ l) r) → wp confined (send_to_client sink f) Q h.
Proof.
  intros Hout HQ. apply wp_traces; [|intros l r _; apply HQ]. rewrite <-(app_nil_r h).
  unfold send_to_client, try_send_owned. confined_walk Hout.
Qed.

Lemma send_module_route_goodbye_confined sink f m Q h :
  outbound h sink f → (∀ l r, Q (h ++ l) r) → wp confined (send_module_route_goodbye sink f m) Q h.
Proof.
  intros Hout HQ. apply wp_traces; [|intros l r _; apply HQ]. rewrite <-(app_nil_r h).
  unfold send_module_route_goodbye, try_send, try_send_owned. confined_walk Hout.
Qed.

Lemma try_send_confined sink f Q h :
  outbound h sink f → (∀ l r, Q (h ++ l) r) → wp confined (try_send sink f) Q h.
Proof.
  intros Hout HQ. apply wp_traces; [|intros l r _; apply HQ]. rewrite <-(app_nil_r h).
  unfold try_send, try_send_owned. confined_walk Hout.
Qed.

Lemma calm_wp {R} (p : Prog R) Q h :
  wp (λ _ e, offered e = None) p (λ _ _, True) h → (∀ l r, traces p l r → Q (h ++ l) r) → wp confined p Q h.
Proof.
  intros Hp HQ. apply wp_traces; [|done]. eapply wp_weaken; [|exact Hp]. intros. by apply calm_confined.
Qed.

Lemma close_undelivered_confined route code cause Q h :
  (∀ l, Q (h ++ l) (Ok tt)) → wp confined (close_undelivered route code cause) Q h.
Proof.
  intros HQ. apply calm_wp.
  - unfold close_undelivered, escalate_client_delivery_failure_diagnosed. wp_walk.
  - intros l r [-> _]%close_undelivered_traces. apply HQ.
Qed.

Lemma deliver_to_client_confined route f Q h :
  outbound h (RouteBinding.client_sink route) f → (∀ l, Q (h ++ l) (Ok tt)) →
  wp confined (deliver_to_client route f) Q h.
Proof.
  intros Hout HQ. apply wp_bind. apply send_to_client_confined; [done|]. intros l [[]|err].
  - apply HQ.
  - apply close_undelivered_confined. intros l'. rewrite <-app_assoc. apply HQ.
Qed.

Lemma own_failure_ok h : own_failure h (Ok tt).
Proof. by intros err error [=]. Qed.

Lemma own_failure_err h err :
  (∀ error, to_error_frame err = Some error → corr_of error = corr_of frame) → own_failure h (Err err).
Proof. intros Hc err' error [= <-]. apply Hc. Qed.

Hint Resolve own_failure_ok : core.

(** ** Client frames *)

Lemma forward_to_module_confined route acquired h :
  outbound h (RouteBinding.module_sink route)
    (relayed frame (RouteBinding.module_channel route) (RouteBinding.module_epoch route)) →
  wp confined (forward_to_module frame route acquired) own_failure h.
Proof.
  intros Hout. apply wp_bind. apply send_confined; [done|]. intros l [].
  - done.
  - simpl. intros x. split; [by apply calm_confined|]. destruct acquired; simpl.
    + intros y. split; [by apply calm_confined|]. apply own_failure_err. intros error Hf.
      by apply to_error_frame_corr in Hf.
    + apply own_failure_err. intros error Hf. by apply to_error_frame_corr in Hf.
Qed.

Lemma found_later h l state : found h state → found (h ++ l) state.
Proof. unfold lookups. rewrite omap_app. intros Hf. apply elem_of_app. by left. Qed.

Lemma take_last h e addr corr :
  credit_move e = Some (Take addr corr) → Take addr corr ∈ credit_moves (h ++ [e]).
Proof.
  intros He. unfold credit_moves. rewrite omap_app. apply elem_of_app. right. csimpl. rewrite He.
  by apply list_elem_of_here.
Qed.

Lemma is_type_true ty : is_type frame ty = true ↔ type_of frame = ty.
Proof. unfold is_type. by rewrite bool_decide_eq_true. Qed.

Lemma is_type_false ty : is_type frame ty = false ↔ type_of frame ≠ ty.
Proof. unfold is_type. by rewrite bool_decide_eq_false. Qed.

(** A request goes out once its credit is taken. *)
Lemma forward_request_confined route h e :
  found h (ClientSide (DataRouteState.Bound route)) → type_of frame ≠ FrameType.Goodbye →
  credit_move e = Some (Take (RouteBinding.addr route) (corr_of frame)) →
  wp confined (forward_to_module frame route true) own_failure (h ++ [e]).
Proof.
  intros Hf Hg He. apply forward_to_module_confined, out_to_module; [by apply found_later|done|].
  intros _. by apply take_last.
Qed.

Lemma refuse_busy_confined route detail h :
  found h (ClientSide (DataRouteState.Bound route)) →
  wp confined (refuse_busy frame route detail) own_failure h.
Proof.
  intros Hf. unfold refuse_busy. apply wp_bind, wp_act. intros x. split; [by apply calm_confined|].
  apply wp_bind, wp_act. intros y. split; [by apply calm_confined|].
  destruct (to_error_frame _) as [error|] eqn:He; [|by intros []].
  destruct (busy_frame _ _ _ _ _ He) as (Ha & Hch & Hep & Hc).
  apply send_confined; [by apply (out_busy _ route); [do 2 apply found_later|..]|].
  intros l []; [done|]. apply own_failure_err. intros error' Hf'. apply to_error_frame_corr in Hf'.
  simpl in Hf'. congruence.
Qed.

Lemma acquire_legacy_credit_confined route Q h :
  (∀ l e, credit_move e = Some (Take (RouteBinding.addr route) (corr_of frame)) → Q (h ++ l ++ [e]) (Ok tt)) →
  (∀ h err, own_failure h (Err err) → Q h (Err err)) →
  wp confined (acquire_legacy_credit frame route) Q h.
Proof.
  intros Hok Herr. unfold acquire_legacy_credit, acquire_tagged. simpl. intros x.
  split; [by apply calm_confined|]. destruct x; simpl.
  - intros y. split; [by apply calm_confined|]. destruct y as [[]|[]]; simpl.
    + rewrite <-app_assoc. by apply (Hok [_]).
    + intros ?. split; [by apply calm_confined|]. intros []; (split; [by apply calm_confined|]);
        apply Herr, own_failure_err; intros error Hf; by apply to_error_frame_corr in Hf.
  - intros ?. split; [by apply calm_confined|]. intros []; (split; [by apply calm_confined|]);
      apply Herr, own_failure_err; intros error Hf; by apply to_error_frame_corr in Hf.
Qed.

Lemma handle_bound_confined route h :
  found h (ClientSide (DataRouteState.Bound route)) → type_of frame ≠ FrameType.Goodbye →
  wp confined (handle_bound frame route) own_failure h.
Proof.
  intros Hf Hg. unfold handle_bound. destruct (is_type frame FrameType.Request) eqn:Hty; cbn [negb].
  2: { apply forward_to_module_confined, out_to_module; [done..|]. by intros ?%is_type_true; congruence. }
  apply wp_bind. intros busy. split; [by apply calm_confined|]. destruct busy.
  - apply wp_bind. intros admission. split; [by apply calm_confined|].
    destruct admission as [|detail| |].
    + apply forward_request_confined; [by apply found_later|done..].
    + apply refuse_busy_confined. by do 2 apply found_later.
    + apply own_failure_err. intros error He. by apply to_error_frame_corr in He.
    + apply own_failure_err. intros error He. by apply to_error_frame_corr in He.
  - apply wp_bind_ok, acquire_legacy_credit_confined; [|done]. intros l e He. rewrite app_assoc.
    apply forward_request_confined; [by rewrite <-app_assoc; apply found_later|done..].
Qed.

Lemma emit_route_goodbyes_confined target h :
  type_of frame = FrameType.Goodbye →
  (ToModule, RouteCtx.connection_id ctx, channel_of frame, epoch_of_frame frame, target) ∈ releases h →
  wp confined (emit_route_goodbyes [target]) (λ _ _, True) h.
Proof.
  intros Hg Hr. simpl. apply wp_bind. unfold emit_route_goodbye.
  destruct (Frame.build_with_version _ _ _ _ _ _ _) as [goodbye|] eqn:Hb; [|done].
  assert (outbound h (GoodbyeTarget.sink target) goodbye) as Hout by by eapply out_goodbye_to_module.
  destruct (negb _); [by apply send_module_route_goodbye_confined|].
  apply wp_bind. apply try_send_confined; [done|]. intros l [[]|err]; [done|].
  apply calm_wp; [|done]. unfold escalate_client_delivery_failure_diagnosed. wp_walk.
Qed.

Lemma released_last h e x : released e = Some x → x ∈ releases (h ++ [e]).
Proof.
  intros He. unfold releases. rewrite omap_app. apply elem_of_app. right. csimpl. rewrite He.
  by apply list_elem_of_here.
Qed.

Lemma releases_later h l x : x ∈ releases h → x ∈ releases (h ++ l).
Proof. unfold releases. rewrite omap_app. intros Hx. apply elem_of_app. by left. Qed.

Lemma handle_route_goodbye_confined Q h :
  type_of frame = FrameType.Goodbye → (∀ l b, Q (h ++ l) (Ok b)) →
  wp confined (handle_route_goodbye (RouteCtx.connection_id ctx) (channel_of frame) (epoch_of_frame frame)) Q h.
Proof.
  intros Hg HQ. apply wp_traces; [clear HQ|].
  - unfold handle_route_goodbye, release_client_route_counted. do 2 apply wp_bind. intros release.
    split; [by apply calm_confined|]. destruct release as [target| |]; simpl; [|by wp_walk..].
    intros ?. split; [by apply calm_confined|]. apply wp_bind.
    apply wp_mono with (Q := λ _ _, True); [done|]. apply emit_route_goodbyes_confined; [done|].
    by apply releases_later, released_last.
  - intros l r (release & l1 & l2 & -> & _ & Ht)%traces_bind. destruct release.
    + apply traces_bind in Ht as (? & l3 & l4 & -> & _ & [-> ->]). apply HQ.
    + destruct Ht as [-> ->]. apply HQ.
    + destruct Ht as [-> ->]. apply HQ.
Qed.

(** ** Module frames *)

Lemma answer_orphan_confined h :
  type_of frame ≠ FrameType.Goodbye → (RouteCtx.connection_id ctx, channel_of frame) ∈ claims h →
  wp confined (answer_orphan ctx frame) own_failure h.
Proof.
  intros Hg Hc. unfold answer_orphan. destruct (orphan_goodbye frame) as [goodbye|err] eqn:Hb.
  2: by apply own_failure_err.
  apply wp_bind. apply try_send_confined; [by apply out_orphan|]. intros l [[]|err]; simpl.
  - intros ?. split; [by apply calm_confined|done].
  - intros []; (split; [by apply calm_confined|]); intros ?; (split; [by apply calm_confined|done]).
Qed.

Lemma handle_orphan_module_frame_confined h :
  wp confined (handle_orphan_module_frame ctx frame) own_failure h.
Proof.
  unfold handle_orphan_module_frame. apply wp_bind. intros m. split; [by apply calm_confined|].
  apply wp_bind. intros ?. split; [by apply calm_confined|].
  apply wp_bind. intros was_allocated. split; [by apply calm_confined|].
  apply wp_bind. apply wp_mono with (Q := λ _ _, True).
  2: { destruct was_allocated; [|done]. intros ?. split; [by apply calm_confined|done]. }
  intros h' _ _. destruct (is_type frame FrameType.Goodbye) eqn:Hg; [done|].
  apply wp_bind. intros ok. split; [by apply calm_confined|]. destruct ok; [|done].
  apply answer_orphan_confined; [by apply is_type_false|]. unfold claims. rewrite omap_app.
  apply elem_of_app. right. by apply list_elem_of_here.
Qed.

Lemma reply_error_confined err Q h :
  (∀ error, to_error_frame err = Some error → corr_of error = corr_of frame) →
  (∀ h r, own_failure h r → Q h r) → wp confined (reply_error ctx err) Q h.
Proof.
  intros Hc HQ. unfold reply_error. destruct (to_error_frame err) as [error|] eqn:He; [|by apply HQ].
  apply send_confined; [apply out_answer; [by eapply to_error_frame_authored|by apply Hc]|].
  intros l []; apply HQ; [done|]. apply own_failure_err. intros error' Hf.
  apply to_error_frame_corr in Hf. simpl in Hf. rewrite Hf. by apply Hc.
Qed.

Lemma drop_module_frame_confined reason err drop h :
  (∀ error, to_error_frame err = Some error → corr_of error = corr_of frame) →
  (∀ h, wp confined drop own_failure h) →
  wp confined (drop_module_frame ctx frame reason err drop) own_failure h.
Proof.
  intros Hc Hdrop. unfold drop_module_frame. apply wp_bind. intros ?. split; [by apply calm_confined|].
  destruct (is_type frame FrameType.Request); [|apply Hdrop].
  apply wp_bind. intros ?. split; [by apply calm_confined|]. by apply reply_error_confined.
Qed.

Lemma drop_client_frame_confined reason err count h :
  (∀ error, to_error_frame err = Some error → corr_of error = corr_of frame) →
  (∀ h, wp confined count (λ _ _, True) h) →
  wp confined (drop_client_frame ctx frame reason err count) own_failure h.
Proof.
  intros Hc Hcount. unfold drop_client_frame. apply wp_bind. intros ?. split; [by apply calm_confined|].
  destruct (is_type frame FrameType.Request); [|done].
  apply wp_bind. eapply wp_mono; [|apply Hcount]. intros. by apply reply_error_confined.
Qed.

Lemma relay_module_goodbye_confined h :
  type_of frame = FrameType.Goodbye → wp confined (relay_module_goodbye ctx frame) own_failure h.
Proof.
  intros Hg. unfold relay_module_goodbye, release_module_route_counted. do 2 apply wp_bind. intros release.
  split; [by apply calm_confined|]. destruct release as [target| |].
  - intros ?. split; [by apply calm_confined|]. apply wp_bind. apply send_to_client_confined.
    { apply out_goodbye_to_client; [done|]. by apply releases_later, released_last. }
    intros l [[]|err]; [done|]. apply calm_wp.
    + destruct (GoodbyeTarget.close_on_delivery_failure target);
        unfold escalate_client_delivery_failure_diagnosed; wp_walk.
    + intros l' r Ht. enough (r = Ok tt) as -> by done.
      destruct (GoodbyeTarget.close_on_delivery_failure target).
      * apply traces_bind in Ht as (? & l3 & l4 & -> & _ & Ht).
        by apply traces_bind in Ht as (? & l5 & l6 & -> & _ & [-> ->]).
      * by apply traces_bind in Ht as (? & l3 & l4 & -> & _ & [-> ->]).
  - intros ?. split; [by apply calm_confined|]. intros ?. by split; [apply calm_confined|].
  - intros ?. by split; [apply calm_confined|].
Qed.

Lemma refuse_oversized_confined route bytes h :
  found h (ModuleSide (DataRouteState.Bound route)) →
  wp confined (refuse_oversized_module_frame ctx route frame bytes) own_failure h.
Proof.
  intros Hf. unfold refuse_oversized_module_frame.
  destruct (is_type frame FrameType.Push); [by apply close_undelivered_confined|].
  destruct (is_type frame FrameType.Request).
  - destruct (frame_too_large_error _ _ _ _ _) as [[error|err]|] eqn:He; [| |by intros []].
    + apply frame_too_large_authored in He as (Ha & _ & _ & Hc).
      apply send_confined; [by apply out_answer|]. intros l []; [done|]. apply own_failure_err.
      intros error' Hf'. apply to_error_frame_corr in Hf'. simpl in Hf'. congruence.
    + apply own_failure_err. intros error Hf'. unfold frame_too_large_error in He.
      destruct (error_body _ _ _); [|done]. simpl in He. destruct (Frame.build _ _ _ _ _ _); [done|].
      by injection He as <-.
  - apply wp_bind. intros ?. split; [by apply calm_confined|].
    destruct (frame_too_large_error _ _ _ _ _) as [[error|err]|] eqn:He; [| |by intros []].
    + apply frame_too_large_authored in He as (Ha & Hch & Hep & Hc).
      apply deliver_to_client_confined; [|done]. apply (out_too_large _ route); [by apply found_later|done..].
    + apply own_failure_err. intros error Hf'. unfold frame_too_large_error in He.
      destruct (error_body _ _ _); [|done]. simpl in He. destruct (Frame.build _ _ _ _ _ _); [done|].
      by injection He as <-.
Qed.

Lemma route_module_frame_confined route h :
  found h (ModuleSide (DataRouteState.Bound route)) →
  wp confined (route_module_frame ctx frame route) own_failure h.
Proof.
  intros Hf. unfold route_module_frame. cbv zeta. destruct (is_type frame FrameType.Goodbye) eqn:Hg.
  { by apply relay_module_goodbye_confined, is_type_true. }
  apply is_type_false in Hg. destruct (_ <? _) eqn:Hsize; [by apply refuse_oversized_confined|].
  apply Z.ltb_ge in Hsize. apply wp_bind. destruct (is_terminal_frame (type_of frame)) eqn:Hterm.
  - intros ?. split; [by apply calm_confined|]. apply deliver_to_client_confined; [|done].
    apply out_to_client; [by apply found_later|done..|]. intros _. unfold credit_moves. rewrite omap_app.
    apply elem_of_app. right. by apply list_elem_of_here.
  - apply deliver_to_client_confined; [|done]. apply out_to_client; try done. congruence.
Qed.

(** ** Everything *)

Lemma route_for_connection_confined (backends : gmap Z Backend) :
  channel_of frame ≠ 0 → backends !! channel_of frame = None →
  wp confined (route_for_connection backends ctx frame) own_failure [].
Proof.
  intros Hch Hb. unfold route_for_connection. cbv zeta. rewrite (proj2 (Z.eqb_neq _ _) Hch).
  apply wp_bind. intros state. split; [by apply calm_confined|].
  assert (found [ev (LookupDataRoute (RouteCtx.connection_id ctx) (channel_of frame) (epoch_of_frame frame)) state]
            state) as Hf by by apply list_elem_of_here.
  destruct state as [[route| | |]|[route| | |]].
  - destruct (is_type frame FrameType.Goodbye) eqn:Hg.
    + apply wp_bind_ok. apply handle_route_goodbye_confined; [by apply is_type_true|done].
    + apply is_type_false in Hg. by apply handle_bound_confined.
  - apply drop_client_frame_confined; [|done]. intros error He. by apply to_error_frame_corr in He.
  - apply drop_client_frame_confined; [intros error He; by apply to_error_frame_corr in He|].
    intros h ?. by split; [apply calm_confined|].
  - simpl. unfold route_absent. rewrite Hb. apply drop_client_frame_confined; [|done].
    intros error He. by apply to_error_frame_corr in He.
  - by apply route_module_frame_confined.
  - apply drop_module_frame_confined; [intros error He; by apply to_error_frame_corr in He|].
    intros h ?. split; [by apply calm_confined|]. intros ?. by split; [apply calm_confined|].
  - apply drop_module_frame_confined; [intros error He; by apply to_error_frame_corr in He|].
    apply handle_orphan_module_frame_confined.
  - apply drop_module_frame_confined; [intros error He; by apply to_error_frame_corr in He|].
    apply handle_orphan_module_frame_confined.
Qed.

Lemma serve_frame_confined (backends : gmap Z Backend) :
  channel_of frame ≠ 0 → backends !! channel_of frame = None →
  wp confined (serve_frame backends ctx frame) (λ _ _, True) [].
Proof.
  intros Hch Hb. apply wp_bind. eapply wp_mono; [|by apply route_for_connection_confined].
  intros h [[]|err] Hfail; [done|]. destruct (to_error_frame err) as [error|] eqn:He; [|done].
  apply send_confined; [|done]. apply out_answer; [by eapply to_error_frame_authored|]. by eapply Hfail.
Qed.
End splice.
