(* ===== verification/RouterRetry.v ===== *)
(** * What the daemon still says about a frame it has forwarded

    Once a client's frame was offered to its module, the only error the daemon
    may answer it with is [backend_error].  The codes a client may retry after
    ([unknown_channel], [stale_route_epoch], [module_reloading], [route_busy])
    are only ever sent for a frame no module was offered. *)

From S2P Require Import Prelude Collections Envelope Program Egress Tokens ScopeTypes Scopes.
From S2P Require Import Flow Forwarding ForwardingDrains ForwardingWorld Daemon Router RouterTraces RouterSplice.

(** A frame that is not the daemon's own, offered to wait for its queue. *)
Definition forwarded (e : Event) : option (Sink * Frame.t) :=
  match projT1 e with
  | Send sink frame => if Flags.is_daemon_origin (flags_of frame) then None else Some (sink, frame)
  | _ => None
  end.

Definition forwards (h : list Event) := omap forwarded h.

Section retry.
Context `{ErrorJson} (ctx : RouteCtx.t) (frame : Frame.t).

Definition retry_safe (h : list Event) (e : Event) : Prop :=
  forwards h ≠ [] → ∀ sink f, offered e = Some (sink, f) →
  sink = RouteCtx.egress ctx ∧
  ∃ epoch message, to_error_frame (BackendError (channel_of frame) epoch (corr_of frame) message) = Some f.

Abbreviation keeps p := (∀ h, wp (λ _ e, forwarded e = None) p (λ _ _, True) h).

Lemma forwards_app h l : forwards (h ++ l) = forwards h ++ forwards l.
Proof. apply omap_app. Qed.

(** A stretch that forwards nothing. *)
Lemma keeps_wp {R} (p : Prog R) h :
  keeps p → forwards h = [] → wp retry_safe p (λ h _, forwards h = []) h.
Proof.
  intros Hp. specialize (Hp h). revert h Hp. induction p as [r|a k IH]; simpl; intros h Hp Hh; [done|].
  intros x. destruct (Hp x) as [He Hk]. split; [by intros []|]. apply IH; [done|].
  rewrite forwards_app, Hh. unfold forwards. csimpl. by rewrite He.
Qed.

Lemma send_authored_keeps sink f : daemon_authored f → keeps (send sink f).
Proof. intros [_ Ho] h x. split; [|done]. unfold forwarded. simpl. by rewrite Ho. Qed.

Lemma keeps_bind {A B} (p : Prog A) (f : A → Prog B) : keeps p → (∀ x, keeps (f x)) → keeps (p ≫= f).
Proof. intros Hp Hf h. apply wp_bind. eapply wp_mono; [|apply Hp]. intros h' x _. apply Hf. Qed.

Lemma reply_error_keeps err : keeps (reply_error ctx err).
Proof.
  unfold reply_error. destruct (to_error_frame err) eqn:He; [|done].
  eapply send_authored_keeps, to_error_frame_authored, He.
Qed.

Lemma drop_module_frame_keeps reason err drop :
  keeps drop → keeps (drop_module_frame ctx frame reason err drop).
Proof.
  intros Hd. apply keeps_bind; [by intros h x|]. intros _. destruct (is_type frame FrameType.Request); [|done].
  apply keeps_bind; [by intros h x|]. intros _. apply reply_error_keeps.
Qed.

Lemma drop_client_frame_keeps reason err count :
  keeps count → keeps (drop_client_frame ctx frame reason err count).
Proof.
  intros Hd. apply keeps_bind; [by intros h x|]. intros _. destruct (is_type frame FrameType.Request); [|done].
  apply keeps_bind; [done|]. intros _. apply reply_error_keeps.
Qed.

Lemma handle_orphan_module_frame_keeps : keeps (handle_orphan_module_frame ctx frame).
Proof. intros h. unfold handle_orphan_module_frame, answer_orphan, try_send, try_send_owned. wp_walk. Qed.

Lemma record_module_frame_drop_keeps c : keeps (record_module_frame_drop c).
Proof. intros h. unfold record_module_frame_drop. wp_walk. Qed.

Lemma close_undelivered_keeps route code cause : keeps (close_undelivered route code cause).
Proof. intros h. unfold close_undelivered, escalate_client_delivery_failure_diagnosed. wp_walk. Qed.

Lemma deliver_to_client_keeps route f : keeps (deliver_to_client route f).
Proof.
  apply keeps_bind; [intros h; unfold send_to_client, try_send_owned; wp_walk|].
  intros [[]|err]; [done|]. apply close_undelivered_keeps.
Qed.

Lemma relay_module_goodbye_keeps : keeps (relay_module_goodbye ctx frame).
Proof.
  intros h. unfold relay_module_goodbye, release_module_route_counted, record_route_release.
  unfold send_to_client, try_send_owned. wp_walk.
Qed.

Lemma handle_route_goodbye_keeps c ch ep : keeps (handle_route_goodbye c ch ep).
Proof.
  intros h. unfold handle_route_goodbye, release_client_route_counted, record_route_release.
  unfold emit_route_goodbyes, emit_route_goodbye, send_module_route_goodbye, try_send, try_send_owned. wp_walk.
Qed.

Lemma refuse_oversized_keeps route bytes : keeps (refuse_oversized_module_frame ctx route frame bytes).
Proof.
  unfold refuse_oversized_module_frame. destruct (is_type frame FrameType.Push); [apply close_undelivered_keeps|].
  destruct (is_type frame FrameType.Request).
  - destruct (frame_too_large_error _ _ _ _ _) as [[error|err]|] eqn:He; [|done|by intros h []].
    eapply send_authored_keeps, frame_too_large_authored, He.
  - apply keeps_bind; [by intros h x|]. intros _.
    destruct (frame_too_large_error _ _ _ _ _) as [[error|err]|] eqn:He; [|done|by intros h []].
    apply deliver_to_client_keeps.
Qed.

Lemma route_module_frame_keeps route : keeps (route_module_frame ctx frame route).
Proof.
  unfold route_module_frame. cbv zeta.
  destruct (is_type frame FrameType.Goodbye); [apply relay_module_goodbye_keeps|].
  destruct (_ <? _); [apply refuse_oversized_keeps|]. apply keeps_bind; [|intros; apply deliver_to_client_keeps].
  intros h. by destruct (is_terminal_frame _).
Qed.

(** Nothing was forwarded, or the result is what forwarding can end in. *)
Definition after_forward (h : list Event) (r : Result unit RouterError) : Prop :=
  forwards h = [] ∨ r = Ok tt ∨
  ∃ epoch message, r = Err (BackendError (channel_of frame) epoch (corr_of frame) message).

Lemma unoffered_safe h e : offered e = None → retry_safe h e.
Proof. intros He _ sink f. by rewrite He. Qed.

Lemma unforwarded_safe h e : forwards h = [] → retry_safe h e.
Proof. by intros Hh []. Qed.

Lemma keeps_then {A B} (p : Prog A) (f : A → Prog B) Q h :
  keeps p → forwards h = [] → (∀ h x, forwards h = [] → wp retry_safe (f x) Q h) →
  wp retry_safe (p ≫= f) Q h.
Proof. intros Hp Hh Hf. apply wp_bind. eapply wp_mono; [|by apply keeps_wp]. intros. by apply Hf. Qed.

Lemma forward_to_module_safe route acquired h :
  forwards h = [] → wp retry_safe (forward_to_module frame route acquired) after_forward h.
Proof.
  intros Hh. unfold forward_to_module. apply wp_bind. intros x. split; [by apply unforwarded_safe|].
  destruct x; [by right; left|]. simpl. intros ?. split; [by apply unoffered_safe|].
  destruct acquired; simpl; [intros ?; split; [by apply unoffered_safe|]|]; right; right; eauto.
Qed.

Lemma handle_bound_safe route h :
  forwards h = [] → wp retry_safe (handle_bound frame route) after_forward h.
Proof.
  intros Hh. unfold handle_bound. destruct (negb _); [by apply forward_to_module_safe|].
  apply keeps_then; [by intros h' x|done|]. intros h1 busy Hh1. destruct busy.
  - apply keeps_then; [by intros h' x|done|]. intros h2 admission Hh2. destruct admission as [|detail| |].
    + by apply forward_to_module_safe.
    + eapply wp_mono; [|apply keeps_wp; [|done]]; [by left|].
      apply keeps_bind; [by intros h0 x0|]. intros ?. apply keeps_bind; [by intros h0 x0|]. intros ?.
      destruct (to_error_frame _) eqn:He; [|by intros h' []].
      eapply send_authored_keeps, to_error_frame_authored, He.
    + by left.
    + by left.
  - apply keeps_then; [|done|].
    + unfold acquire_legacy_credit, acquire_tagged. intros h'. wp_walk.
    + intros h2 [[]|err] Hh2; [by apply forward_to_module_safe|by left].
Qed.

Lemma route_for_connection_safe (backends : gmap Z Backend) :
  channel_of frame ≠ 0 → backends !! channel_of frame = None →
  wp retry_safe (route_for_connection backends ctx frame) after_forward [].
Proof.
  intros Hch Hb. unfold route_for_connection. cbv zeta. rewrite (proj2 (Z.eqb_neq _ _) Hch).
  apply keeps_then; [by intros h x|done|]. intros h state Hh.
  assert (∀ p : Prog (Result unit RouterError), keeps p → wp retry_safe p after_forward h) as Hkeep.
  { intros p Hp. eapply wp_mono; [|by apply keeps_wp]. by left. }
  destruct state as [[route| | |]|[route| | |]].
  - destruct (is_type frame FrameType.Goodbye); [|by apply handle_bound_safe]. apply Hkeep.
    apply keeps_bind; [apply handle_route_goodbye_keeps|]. by intros [].
  - by apply Hkeep, drop_client_frame_keeps.
  - apply Hkeep, drop_client_frame_keeps. by intros h' x.
  - unfold route_absent. rewrite Hb. by apply Hkeep, drop_client_frame_keeps.
  - apply Hkeep, route_module_frame_keeps.
  - apply Hkeep, drop_module_frame_keeps, record_module_frame_drop_keeps.
  - apply Hkeep, drop_module_frame_keeps, handle_orphan_module_frame_keeps.
  - apply Hkeep, drop_module_frame_keeps, handle_orphan_module_frame_keeps.
Qed.

Lemma serve_frame_safe (backends : gmap Z Backend) :
  channel_of frame ≠ 0 → backends !! channel_of frame = None →
  wp retry_safe (serve_frame backends ctx frame) (λ _ _, True) [].
Proof.
  intros Hch Hb. apply wp_bind. eapply wp_mono; [|by apply route_for_connection_safe].
  intros h [[]|err] Hafter; [done|]. destruct (to_error_frame err) as [error|] eqn:He; [|done].
  intros x. split; [|done]. intros Hne sink f [= <- <-]. split; [done|].
  destruct Hafter as [Hh|[[=]|(ep & m & [= ->])]]; [done|]. eauto.
Qed.
End retry.
