(* ===== verification/ScopeIdentity.v ===== *)
(** * What an epoch of a scope fixes

    As long as a scope stays live, and its owner's calls come before it runs out,
    it keeps or raises its epoch, and at one epoch the fields a bind relies on do
    not change. *)

From S2P Require Import Prelude Collections Envelope Tokens ScopeTypes Scopes.
From S2P Require Import ScopeTombstones ScopeLinks ScopeSettle ScopeSync ScopeRefresh.
From S2P Require Import ScopeInvariant ScopeGraph ScopeTableOk ScopeSweep ScopeWorld.

(** The fields of a record that belong to the epoch. *)
Definition identity (r : ScopeRecord.t)
    : ScopeKind.t * option string * option string * option Z * (option Z * option string * option string) :=
  (ScopeRecord.kind r, ScopeRecord.workdir r, ScopeRecord.project_id r, ScopeRecord.expires_at_ms r,
   (ScopeAttributes.flow_version (ScopeRecord.attributes r),
    ScopeAttributes.flow_code_hash (ScopeRecord.attributes r),
    ScopeAttributes.flow_install_id (ScopeRecord.attributes r))).

(** [r'] may follow [r] under one ref. *)
Definition may_follow (r r' : ScopeRecord.t) : Prop :=
  ScopeRecord.scope_epoch r ≤ ScopeRecord.scope_epoch r' ∧
  (ScopeRecord.scope_epoch r = ScopeRecord.scope_epoch r' → identity r' = identity r).

Lemma may_follow_refl r : may_follow r r.
Proof. split; [lia|done]. Qed.

#[global] Instance may_follow_trans : Transitive may_follow.
Proof. intros r1 r2 r3 [Hle Hid] [Hle' Hid']. split; [lia|]. intros Heq. rewrite Hid', Hid by lia. done. Qed.

Lemma may_follow_idle r r' : may_follow r r' → may_follow r (ScopeRecord.without_idle_condition r').
Proof. done. Qed.

Lemma epoch_refusal_follows r held ts now :
  epoch_refusal r (Some held) ts = None → expiry_refusal r (Some held) now = None →
  may_follow (LiveScope.record held) r.
Proof.
  unfold epoch_refusal, expiry_refusal, may_follow, identity. cbv zeta.
  destruct (_ <? _) eqn:Hlt; [done|]. apply Z.ltb_ge in Hlt. intros Hep Hex. split; [done|].
  intros Heq. rewrite <-Heq, Z.eqb_refl in Hep. cbn [opt_filter] in Hex.
  rewrite <-Heq, Z.eqb_refl in Hex. simpl in Hep.
  repeat case_bool_decide; simpl in *; try discriminate; try congruence.
Qed.

Section change.
Context `{HashOrder} `{AttributeJson}.
Context (t : ScopeTable) (h : Heap.t) (owner : string) (connection_id : Z)
  (is_current_launch : Z → bool) (now : Z) (c : ScopeChange).

Lemma stored_follows applied state' version h' state expired s x s0 s1 :
  accepted (with_owners t (delete owner (owners t))) h owner (owner_state t owner) connection_id
    is_current_launch now c applied state' version h' state expired s →
  scope_at t (owner, x) = Some s0 → not_expired now s0 →
  OwnerScopes.live state' !! x = Some s1 →
  may_follow (LiveScope.record s0) (LiveScope.record s1).
Proof.
  intros Hacc Hs0 Hnow Hs1.
  assert (OwnerScopes.live state !! x = Some s0) as Hheld.
  { pose proof (expire_owner_spec owner (owner_state t owner) now) as Hexp.
    rewrite (acc_expire _ _ _ _ _ _ _ _ _ _ _ _ _ _ _ Hacc) in Hexp.
    destruct Hexp as (_ & _ & -> & _). apply map_lookup_filter_Some. split; [|done].
    by rewrite scope_at_state in Hs0. }
  destruct (accepted_live _ _ _ _ _ _ _ _ _ _ _ _ _ _ _ Hacc x s1 Hs1) as (rec & Hnext & Hcom).
  rewrite (com_record _ _ _ _ _ _ _ _ _ _ Hcom).
  destruct (acc_fate _ _ _ _ _ _ _ _ _ _ _ _ _ _ _ Hacc x)
    as [Hkept _|Hnone|i r Hr <- _ Hown Hacc_next _ _ _]; [|congruence|].
  - rewrite Hheld in Hkept. simpl in Hkept. assert (rec = LiveScope.record s0) as -> by congruence.
    apply may_follow_refl.
  - assert (rec = ScopeRecord.without_idle_condition r) as -> by congruence. apply may_follow_idle.
    apply own_refusal_passes in Hown as [_ _ _ Hep Hex]. rewrite Hheld in Hep, Hex.
    by eapply epoch_refusal_follows.
Qed.

Lemma change_follows t' h' res k s0 s1 :
  change t h owner connection_id is_current_launch now c = Some (t', h', res) →
  scope_at t k = Some s0 → scope_at t' k = Some s1 → k.1 ≠ owner ∨ not_expired now s0 →
  may_follow (LiveScope.record s0) (LiveScope.record s1).
Proof.
  intros Hch Hs0 Hs1 Hk.
  destruct (change_inv _ _ _ _ _ _ _ _ _ _ Hch)
    as [(Heqv & _)|(ap & state' & v & state & ex & s & tc & rs & Hacc & Href & _)].
  - rewrite Heqv in Hs1. assert (s1 = s0) as -> by congruence. apply may_follow_refl.
  - pose proof (refresh_scope_at (stored t owner state' v) owner (SyncApplied.tag_changes ap) k s1)
      as Hfrom. rewrite Href in Hfrom. destruct (Hfrom Hs1) as (s2 & Hs2 & -> & _).
    destruct k as [o x]. destruct (decide (o = owner)) as [->|Hne].
    + rewrite stored_own in Hs2. eapply stored_follows; [done..| |done]. by destruct Hk.
    + rewrite stored_other in Hs2 by done. assert (s2 = s0) as -> by congruence. apply may_follow_refl.
Qed.
End change.

(** ** While a scope lives *)

Section lives.
Context `{HashOrder} `{AttributeJson} `{ProofCrypto}.
Implicit Types (w : World) (k : string * string).

(** A step across which the scope stays live; a sync or apply of its own owner
    comes before its deadline. *)
Inductive tended k w : World → Prop :=
  | tended_change owner connection_id is_current_launch now c t' h' res :
      change (table w) (heap w) owner connection_id is_current_launch now c = Some (t', h', res) →
      (∀ s, owner = k.1 → scope_at (table w) k = Some s → passed_deadline now (LiveScope.record s) = None) →
      is_Some (scope_at t' k) → tended k w (mkWorld t' h' (bounds w) (acked w))
  | tended_sweep now :
      is_Some (scope_at (sweep_expired (table w) now).1 k) →
      tended k w (mkWorld (sweep_expired (table w) now).1 (heap w) (bounds w) (acked w))
  | tended_other w' : step w w' → same_core (table w) (table w') → tended k w w'.

(** Every step is one of these: what is no sync, apply or sweep keeps the
    records. *)
Lemma step_kinds w w' :
  step w w' →
  (∃ owner connection_id is_current_launch now c t' h' res,
     change (table w) (heap w) owner connection_id is_current_launch now c = Some (t', h', res) ∧
     w' = mkWorld t' h' (bounds w) (acked w)) ∨
  (∃ now, w' = mkWorld (sweep_expired (table w) now).1 (heap w) (bounds w) (acked w)) ∨
  same_core (table w) (table w').
Proof.
  intros Hstep. destruct Hstep; [left; by repeat eexists|right; left; by eexists|right; right; simpl..]; try by split.
  - apply release_connection_core.
  - match goal with Hr : reserve_bind _ _ _ _ _ _ = _ |- _ => apply reserve_bind_spec in Hr as (held & held' & lease & Hr) end.
    by eapply rb_core.
Qed.

Lemma tended_step k w w' : tended k w w' → step w w'.
Proof. intros [owner cid cur now c t' h' res Hch _ _|now _|w1 Hs _]; [by eapply step_change|apply step_sweep|done]. Qed.

Lemma tended_follows k w w' s :
  tended k w w' → scope_at (table w) k = Some s →
  ∃ s', scope_at (table w') k = Some s' ∧ may_follow (LiveScope.record s) (LiveScope.record s').
Proof.
  intros [owner cid cur now c t' h' res Hch Htime [s' Hs']|now [s' Hs']|w1 _ Hcore] Hs; simpl.
  - exists s'. split; [done|]. eapply change_follows; [done..|]. destruct (decide (k.1 = owner)) as [<-|]; [right|by left].
    by apply (Htime s).
  - exists s'. split; [done|]. pose proof (proj1 (sweep_exact (table w) now) k) as Hk. rewrite Hs', Hs in Hk. simpl in Hk.
    destruct (is_none _); [|done]. injection Hk as ->. apply may_follow_refl.
  - pose proof (sc_scopes _ _ Hcore k) as Hk. rewrite Hs in Hk. destruct (scope_at (table w1) k) as [s'|] eqn:Hs'; [|done].
    exists s'. split; [done|]. destruct (same_core_scope _ _ _ _ Hcore Hs') as (s0 & Hs0 & -> & _).
    rewrite Hs in Hs0. injection Hs0 as <-. apply may_follow_refl.
Qed.

Lemma tended_run_follows k w w' s :
  rtc (tended k) w w' → scope_at (table w) k = Some s →
  ∃ s', scope_at (table w') k = Some s' ∧ may_follow (LiveScope.record s) (LiveScope.record s').
Proof.
  intros Hrun. revert s. induction Hrun as [w|w w1 w' Hstep _ IH]; intros s Hs; [exists s; split; [done|apply may_follow_refl]|].
  destruct (tended_follows _ _ _ _ Hstep Hs) as (s1 & Hs1 & Hf). destruct (IH s1 Hs1) as (s' & Hs' & Hf').
  exists s'. split; [done|]. by etrans.
Qed.

Lemma tended_reachable owners k w w' : rtc (tended k) w w' → reachable owners w → reachable owners w'.
Proof. induction 1 as [|w w1 w' Hstep _ IH]; intros Hr; [done|]. apply IH. by eapply reach_step, tended_step. Qed.
End lives.
