(* ===== verification/ScopeExamples.v ===== *)
(** * A small scope table at work

    Two owners, a head scope with a carrier and a child under it: the concrete
    states the theorems are applied at.  The crates behind the type classes are
    stood in for by functions that evaluate. *)

From S2P Require Import Prelude Collections Envelope Tokens ScopeTypes Scopes.
From S2P Require Import ScopeRefresh ScopeAdmit ScopeWorld.

(** Attributes always fit; a proof decodes to its own bytes and hashes to
    itself. *)
Definition empty_json : AttributeJson := λ _, Some [].
Definition plain_proofs : ProofCrypto := {|
  decode_slice s n := Some (take (Z.to_nat n) (byte_of <$> str_bytes s));
  sha256 l := l;
|}.

Definition head_record (epoch : Z) (carriers : list ScopeCarrier.t) : ScopeRecord.t :=
  ScopeRecord.mk "head" epoch ScopeKind.Head None None None false None None [] carriers
    ScopeAttributes.new.

Definition child_record (ref parent_ref : string) (epoch parent_epoch : Z) (deadline : option Z)
    : ScopeRecord.t :=
  ScopeRecord.mk ref epoch ScopeKind.Worker None None None false deadline
    (Some (ScopeParent.mk (Reserved "mod-a") parent_ref parent_epoch)) [] [] ScopeAttributes.new.

Definition any_target : ScopeCarrier.t := ScopeCarrier.mk Direct None.

Definition run_change (w : World) (owner : string) (now : Z) (c : ScopeChange)
    : option (ScopeTable * Heap.t * Result SyncApplied.t string) :=
  @change tree_hash_order empty_json (table w) (heap w) owner 7 (λ _, true) now c.

Definition after_change (w : World) (owner : string) (now : Z) (c : ScopeChange) : World :=
  match run_change w owner now c with
  | Some (t, h, _) => mkWorld t h (bounds w) (acked w)
  | None => w
  end.

Definition applied_of (r : option (ScopeTable * Heap.t * Result SyncApplied.t string))
    : SyncApplied.t :=
  match r with
  | Some (_, _, Ok a) => a
  | _ => SyncApplied.mk [] [] [] [] []
  end.

(** The first sync: a head open to direct clients, and a child under it. *)
Definition first_sync : ScopeChange :=
  mkScopeChange 1 [head_record 1 [any_target]; child_record "child" "head" 1 1 (Some 500)] ∅ None.

(** The second one withdraws the carrier. *)
Definition second_sync : ScopeChange :=
  mkScopeChange 2 [head_record 1 []; child_record "child" "head" 1 1 (Some 500)] ∅ None.

Definition world1 : World := after_change (initial ["mod-a"]) "mod-a" 100 first_sync.
Definition world2 : World := after_change world1 "mod-a" 200 second_sync.

Definition head_selector : ScopeSelector.t :=
  ScopeSelector.mk (Reserved "mod-a") "head" (Some 1) None true.

Definition world1_bind : option (ScopeTable * Heap.t * BoundScope.t) :=
  match @admit_bind plain_proofs (table world1) Direct "tool" head_selector true 150 with
  | Ok adm => reserve_bind (table world1) (heap world1) adm Direct 9 true
  | Err _ => None
  end.

Definition no_bound : BoundScope.t :=
  BoundScope.mk "" "" (ScopeTag.mk 0 0) None 1.

Definition bound1 : BoundScope.t :=
  match world1_bind with Some (_, _, b) => b | None => no_bound end.

(** [world1] with one bind from connection 9 to the head scope. *)
Definition world1b : World :=
  match world1_bind with
  | Some (t, h, b) => mkWorld t h (<[BoundScope.lease b := b]> (bounds world1)) (acked world1)
  | None => world1
  end.

(** The module behind the bind acknowledged it. *)
Definition world1s : World :=
  mkWorld (table world1b) (BoundScope.record_served (heap world1b) bound1 "tool") (bounds world1b)
    ((bound_epoch bound1, "tool") :: acked world1b).

Abbreviation example_reachable :=
  (@reachable tree_hash_order empty_json plain_proofs ["mod-a"]) (only parsing).

Lemma reach_change w owner now c :
  example_reachable w → is_some (run_change w owner now c) = true →
  example_reachable (after_change w owner now c).
Proof.
  unfold after_change. destruct (run_change w owner now c) as [[[t h] r]|] eqn:Hrun; [|done].
  intros Hw _. eapply reach_step; [exact Hw|]. by eapply step_change.
Qed.

Lemma world1_reachable : example_reachable world1.
Proof. apply reach_change; [apply reach_initial|vm_compute; reflexivity]. Qed.

Lemma world2_reachable : example_reachable world2.
Proof. apply reach_change; [apply world1_reachable|vm_compute; reflexivity]. Qed.

Lemma world1b_reachable : example_reachable world1b.
Proof.
  unfold world1b. destruct world1_bind as [[[t h] b]|] eqn:Hb; [|apply world1_reachable].
  unfold world1_bind in Hb. destruct (admit_bind _ _ _ _ _ _) as [adm|] eqn:Hadm; [|done].
  eapply reach_step; [apply world1_reachable|]. by eapply (step_bind _ _ _ head_selector).
Qed.

Lemma world1s_reachable : example_reachable world1s.
Proof.
  eapply reach_step; [apply world1b_reachable|]. apply (step_served world1b bound1 "tool").
  vm_compute. reflexivity.
Qed.

(** ** Parts of the examples *)

Definition no_scope : LiveScope.t :=
  LiveScope.mk (head_record 0 []) 0 None 1 ∅ 1.

Definition scope_of (w : World) (ref : string) : LiveScope.t :=
  default no_scope (scope_at (table w) ("mod-a", ref)).

Definition second_applied : SyncApplied.t := applied_of (run_change world1 "mod-a" 200 second_sync).

(** A replacement of the head at epoch 2, on condition that it is idle. *)
Definition idle_replacement : ScopeRecord.t :=
  ScopeRecord.mk "head" 2 ScopeKind.Head None None None true None None [] [] ScopeAttributes.new.

(** A 64-digit hash, and the 43-character proof that decodes to it. *)
Definition repeat_char (n : nat) (a : Ascii.ascii) : string :=
  Nat.iter n (String a) "".
Definition sample_proof : string := repeat_char 43 (Ascii.ascii_of_nat 97).
Definition sample_hash : string := Nat.iter 32 (λ s, "61" +:+ s) "".

(** ** A dead link and the order of records

    [z] keeps a link to an epoch of [x] that has ended; [y] is to hang under
    [z] and [x] under [y].  No cycle of live links arises. *)
Definition plain_record (ref : string) (epoch : Z) : ScopeRecord.t :=
  ScopeRecord.mk ref epoch ScopeKind.Worker None None None false None None [] []
    ScopeAttributes.new.

Definition dead_link1 : ScopeChange :=
  mkScopeChange 1 [plain_record "x" 1; child_record "z" "x" 1 1 None] ∅ None.
Definition dead_link2 : ScopeChange :=
  mkScopeChange 2 [plain_record "x" 2; child_record "z" "x" 1 1 None] ∅ None.

Definition dead_link_world : World :=
  after_change (after_change (initial ["mod-a"]) "mod-a" 100 dead_link1) "mod-a" 200 dead_link2.

Lemma dead_link_reachable : example_reachable dead_link_world.
Proof.
  apply reach_change; [apply reach_change; [apply reach_initial|]|]; vm_compute; reflexivity.
Qed.

Definition link_records : list ScopeRecord.t :=
  [child_record "z" "x" 1 1 None; child_record "y" "z" 1 1 None; child_record "x" "y" 2 1 None].
Definition swapped_records : list ScopeRecord.t :=
  [child_record "z" "x" 1 1 None; child_record "x" "y" 2 1 None; child_record "y" "z" 1 1 None].

Definition outcomes (records : list ScopeRecord.t)
    : list (string * ScopeRecordOutcome.t * option string) :=
  (λ r, (ScopeRecordResult.scope_ref r, ScopeRecordResult.outcome r, ScopeRecordResult.code r))
    <$> SyncApplied.results
          (applied_of (run_change dead_link_world "mod-a" 300 (mkScopeChange 3 records ∅ None))).
