(* ===== verification/DaemonExamples.v ===== *)
(** * A small daemon at work

    One module that serves, one that owns scopes, one client: the concrete
    states the routing theorems are applied at.  Semaphores are counters; the
    body of a [route.open] response is left empty. *)

From S2P Require Import Prelude Collections Envelope Tokens ScopeTypes Scopes.
From S2P Require Import ScopeEffects ScopeWorld ScopeExamples.
From S2P Require Import Flow Forwarding Daemon.

(** ** The crates stood in for *)

(** Free permits and whether the semaphore is closed. *)
Definition counting : Semaphore := {|
  sem := Z * bool;
  sem_new n := (n, false);
  sem_try_acquire s := if s.2 || (s.1 <=? 0) then None else Some (s.1 - 1, s.2);
  sem_add_permit s := (s.1 + 1, s.2);
  sem_close s := (s.1, true);
  sem_available := fst;
  sem_is_closed := snd;
|}.
#[local] Existing Instance counting.

Lemma counting_laws : SemaphoreLaws.
Proof.
  split; try done.
  - intros [n []] s'; simpl; [done|]. destruct (n <=? 0) eqn:Hn; [done|]. intros [= <-]. simpl. lia.
  - intros [n []]; simpl; [by left|]. destruct (n <=? 0) eqn:Hn; [right; lia|done].
Qed.

Definition empty_body : RouteOpenJson := λ _ _ _ _, Some [].
#[local] Existing Instance empty_body.

(** ** Steps *)

Abbreviation example_steps := (@daemon_step counting tree_hash_order empty_json plain_proofs empty_body).
Abbreviation example_daemon :=
  (@daemon_reachable counting tree_hash_order empty_json plain_proofs empty_body ["mod-a"]) (only parsing).

Definition open_up (d : Daemon) : Daemon :=
  mkDaemon (scopes_of d)
    (register_module_connection (routes_of d) 1 "tool" 1 ModuleManaged 1 None true).1.1 (openings d).

Definition run_scope_change (d : Daemon) (now : Z) (c : ScopeChange) :=
  @handle_scope_change counting tree_hash_order empty_json (scopes_of d) (routes_of d) (Some "mod-a") 7
    (λ _, true) now c.

Definition sync_up (d : Daemon) (now : Z) (c : ScopeChange) : Daemon :=
  match run_scope_change d now c with
  | Some (t, fw, _, _, _) => mkDaemon t fw (openings d)
  | None => d
  end.

Definition run_admit (d : Daemon) (now : Z) :=
  @admit_route_open counting plain_proofs (scopes_of d) (routes_of d) Direct "tool" head_selector true
    None now 9.

Definition admit_up (d : Daemon) (now : Z) : Daemon :=
  match run_admit d now with
  | Some (t, fw, Ok (b, _)) => mkDaemon t fw (mkOpening b Direct "tool" :: openings d)
  | _ => d
  end.

Definition begin_up (d : Daemon) : Daemon :=
  match openings d with
  | o :: l => mkDaemon (scopes_of d)
      (begin_route_bind_relay (routes_of d) 9 2 1 40 (op_target o) (op_principal o)
         (Some (op_bound o)) 1000 true).1.1 l
  | [] => d
  end.

Definition complete_up (d : Daemon) (now : Z) : Daemon :=
  mkDaemon (scopes_of d)
    (complete_pending_relay (routes_of d) 1 1 Accepted false false now).1.1 (openings d).

(** The module registers, the scopes are synced, the client opens a route, and
    the module accepts it. *)
Definition daemon1 : Daemon := open_up (start ["mod-a"] empty_forwarding).
Definition daemon2 : Daemon := sync_up daemon1 100 first_sync.
Definition daemon3 : Daemon := admit_up daemon2 150.
Definition daemon4 : Daemon := begin_up daemon3.
Definition daemon5 : Daemon := complete_up daemon4 160.

(** The carrier is withdrawn: the route closes. *)
Definition daemon6 : Daemon := sync_up daemon5 200 second_sync.

Lemma reach_open_up d : example_daemon d → example_daemon (open_up d).
Proof. intros Hd. eapply dr_step; [exact Hd|]. apply ds_forwarding, op_register. Qed.

Lemma reach_sync_up d now c :
  example_daemon d →
  match run_scope_change d now c with
  | Some (t, _, _, _, _) =>
      last_version (scopes_of d) + MAX_LIVE_SCOPES_PER_OWNER + Z.of_nat (size (live_keys t)) <? 2 ^ 64
  | None => false
  end = true →
  example_daemon (sync_up d now c).
Proof.
  unfold sync_up. destruct (run_scope_change d now c) as [[[[[t fw] effects] res] drained]|] eqn:Hrun; [|done].
  intros Hd Hroom%Z.ltb_lt. eapply dr_step; [exact Hd|]. eapply (ds_change d (Some "mod-a")); [exact Hrun|exact Hroom].
Qed.

Lemma reach_admit_up d now :
  example_daemon d →
  match run_admit d now with Some (_, _, Ok _) => true | _ => false end = true →
  example_daemon (admit_up d now).
Proof.
  unfold admit_up. destruct (run_admit d now) as [[[t fw] [[b stamp]|]]|] eqn:Hrun; [|done..].
  intros Hd _. eapply dr_step; [exact Hd|]. by eapply ds_admit.
Qed.

Lemma reach_begin_up d : example_daemon d → example_daemon (begin_up d).
Proof.
  intros Hd. unfold begin_up. destruct (openings d) as [|o l] eqn:Hl; [done|].
  eapply dr_step; [exact Hd|]. by apply (ds_begin d [] o l 9 2 1 40 1000 true).
Qed.

Lemma reach_complete_up d now : example_daemon d → example_daemon (complete_up d now).
Proof. intros Hd. eapply dr_step; [exact Hd|]. apply ds_complete. Qed.

Lemma daemon2_reachable : example_daemon daemon2.
Proof. apply reach_sync_up; [apply reach_open_up, dr_start|vm_compute; reflexivity]. Qed.

Lemma daemon4_reachable : example_daemon daemon4.
Proof. apply reach_begin_up, reach_admit_up; [apply daemon2_reachable|vm_compute; reflexivity]. Qed.

Lemma daemon5_reachable : example_daemon daemon5.
Proof. apply reach_complete_up, daemon4_reachable. Qed.

Lemma daemon6_reachable : example_daemon daemon6.
Proof. apply reach_sync_up; [apply daemon5_reachable|vm_compute; reflexivity]. Qed.

(** ** Parts of the examples *)

Definition tool_endpoint : ModuleEndpointId.t := ModuleEndpointId.mk 1 1.
Definition client_slot : ClientRouteKey.t := ClientRouteKey.mk 9 1.

Definition no_binding : RouteBinding.t :=
  RouteBinding.mk 1 0 0 0 0 0 "" tool_endpoint 0 0 0 0 Direct 0 None.

Definition route5 : RouteBinding.t :=
  default no_binding (client_to_module (routes_of daemon5) !! client_slot).

Definition bound5 : BoundScope.t := default no_bound (RouteBinding.scope route5).

Definition tool_connection : ModuleConnection.t := ModuleConnection.mk tool_endpoint 1 1 ModuleManaged.

Definition no_pending : PendingRouteBindRelayEntry.t :=
  PendingRouteBindRelayEntry.mk
    (RouteReservation.mk client_slot (ModuleRouteKey.mk tool_endpoint 0) 0 0) 0 0
    (Frame.mk (EnvelopeHeader.mk 0 1 FrameType.Hello (Flags.new false Priority.Passive false) 0 0 0) [])
    false 0 None Direct None 0 false.

Definition pending4 : PendingRouteBindRelayEntry.t :=
  default no_pending (pending_relays (routes_of daemon4) !! (tool_endpoint, 1)).
