(* ===== verification/ScopeTheorems.v ===== *)
(** * What the scope table promises

    The theorems on [scopes.rs], each with the state it is applied at; the
    proofs are the component files'. *)

From S2P Require Import Prelude Collections Envelope Tokens ScopeTypes Scopes.
From S2P Require Import ScopeTombstones ScopeLinks ScopeSettle ScopeSync ScopeRefresh.
From S2P Require Import ScopeInvariant ScopeGraph ScopeTableOk ScopeSweep ScopeTags ScopeDrains.
From S2P Require Import ScopeEffects ScopeAdmit ScopeWorld ScopeIdentity ScopeExamples.

Section theorems.
Context `{HashOrder} `{AttributeJson} `{ProofCrypto}.

(** ** Syncing *)

(** C7: A sync or apply always answers: no lookup panics and the loops that
    settle parent links terminate. A refused call leaves the table as it was
    and touches no cell that leases share. *)
Theorem change_total_atomic t h owner connection_id is_current_launch now c :
  ∃ t' h' res, change t h owner connection_id is_current_launch now c = Some (t', h', res) ∧
    ∀ code, res = Err code → t' ≡ t ∧ h' = h.
Proof.
  destruct (change_cases t h owner connection_id is_current_launch now c) as [t' code Heqv|];
    do 3 eexists; (split; [done|]); by intros ? [= ?].
Qed.

(** C30: In every reachable table a scope with a parent link has a link state;
    a linked scope's parent is live at exactly the epoch the link names, and a
    pending link names an owner that has not synced. *)
Theorem reachable_links owners w k s p :
  reachable owners w → scope_at (table w) k = Some s →
  ScopeRecord.parent (LiveScope.record s) = Some p →
  ∃ o, reserved_module_id (ScopeParent.owner p) = Some o ∧ is_Some (LiveScope.parent_state s) ∧
    (LiveScope.parent_state s = Some ParentState.Linked →
     epoch_at (table w) (o, ScopeParent.scope_ref p) = Some (ScopeParent.scope_epoch p)) ∧
    (LiveScope.parent_state s = Some ParentState.Pending → synced_at (table w) o = false).
Proof.
  intros [Howner [Hlinked Hpending] _]%reachable_table_ok Hs Hp.
  pose proof Hs as Hlive. rewrite scope_at_state in Hlive.
  destruct (ow_scope _ _ (Howner k.1) k.2 s Hlive) as [_ _ _ _ _ _ Hps Hpo].
  destruct (Hpo p Hp) as [o Ho]. exists o. split; [done|]. split; [by apply Hps|]. split; intros Hst.
  - destruct (Hlinked k s p Hs Hp Hst) as (o' & ? & [?|?]); [set_solver|congruence].
  - destruct (Hpending k s p Hs Hp Hst) as (o' & ? & [?|?]); [set_solver|congruence].
Qed.

(** C8: In every reachable table the linked scopes form no cycle, whatever
    order syncs, applies, sweeps and binds come in. *)
Theorem reachable_acyclic owners w n k : reachable owners w → linked_path (table w) (S n) k ≠ Some k.
Proof. intros [_ _ Hac]%reachable_table_ok. apply Hac. Qed.

(** In every reachable table a live scope obeys the attribute rules (an
    unauthorized owner's scopes carry none), names one to 16 targets per
    restricted carrier, and its epoch is above every ended epoch of its ref the
    owner remembers; the owner has at most 10,000 live scopes and 1,000
    tombstones. *)
Theorem reachable_scope_rules owners w o x s :
  reachable owners w → scope_at (table w) (o, x) = Some s →
  attributes_ok (owner_authorized (table w) o) (ScopeRecord.attributes (LiveScope.record s)) ∧
  Forall target_count_ok (ScopeRecord.carriers (LiveScope.record s)) ∧
  (∀ e, is_Some (Tombstones.cause (OwnerScopes.tombstones (owner_state (table w) o)) x e) →
        e < epoch_of s) ∧
  Z.of_nat (size (OwnerScopes.live (owner_state (table w) o))) ≤ 10000 ∧
  Z.of_nat (length (Tombstones.order (OwnerScopes.tombstones (owner_state (table w) o)))) ≤ 1000.
Proof.
  intros [Howner _ _]%reachable_table_ok Hs. rewrite scope_at_state in Hs. simpl in Hs.
  destruct (Howner o) as [Hts Hsize _ Hscope]. destruct (Hscope x s Hs) as [_ _ Hat Htg _ Hbur _ _].
  split_and!; [done..|]. apply Hts.
Qed.

(** C40: Whatever happens to the table, as long as a scope stays live and no sync
    or apply of its own owner comes after its deadline, it never goes back to a
    lower epoch, and as long as it keeps its epoch its kind, working directory,
    project, deadline and flow identity do not change.  A scope that did end comes
    back, while its tombstone is kept, only at a higher epoch; tombstones are
    bounded, so an epoch may come back after its own was evicted. *)
Theorem epoch_fixes_identity authority_owners w w' k s s' :
  reachable authority_owners w → rtc (tended k) w w' →
  scope_at (table w) k = Some s → scope_at (table w') k = Some s' →
  epoch_of s ≤ epoch_of s' ∧
  (epoch_of s = epoch_of s' → identity (LiveScope.record s') = identity (LiveScope.record s)) ∧
  (∀ e, is_Some (Tombstones.cause (OwnerScopes.tombstones (owner_state (table w') k.1)) k.2 e) → e < epoch_of s').
Proof.
  intros Hw Hrun Hs Hs'. destruct (tended_run_follows k w w' s Hrun Hs) as (s1 & Hs1 & Hle & Hid).
  rewrite Hs' in Hs1. injection Hs1 as <-. split_and!; [done..|].
  destruct (reachable_table_ok _ _ (tended_reachable _ _ _ _ Hrun Hw)) as [Howner _ _]. rewrite scope_at_state in Hs'.
  destruct (Howner k.1) as [_ _ _ Hscope]. destruct (Hscope k.2 s' Hs') as [_ _ _ _ _ Hbur _ _]. exact Hbur.
Qed.

(** A sweep at time [now] removes exactly the scopes whose deadline has
    passed, keeps every other record, and reports each removed scope with its
    epoch and deadline. *)
Theorem sweep_expired_exact t now :
  (∀ k, LiveScope.record <$> scope_at (sweep_expired t now).1 k
        = opt_filter (λ r, is_none (passed_deadline now r)) (LiveScope.record <$> scope_at t k)) ∧
  (∀ e, e ∈ swept_expired (sweep_expired t now).2 ↔
        ∃ s, scope_at t (ScopeExpired.owner e, ScopeExpired.scope_ref e) = Some s ∧
             ScopeExpired.scope_epoch e = epoch_of s ∧
             passed_deadline now (LiveScope.record s) = Some (ScopeExpired.expires_at_ms e)).
Proof. exact (sweep_exact t now). Qed.

(** ** Publishing *)

(** The tag changes a sync or apply reports name, each once and with its
    tags before and after, every scope whose published tag the call moved. *)
Theorem change_reports_tags t h owner connection_id is_current_launch now c t' h' applied :
  change t h owner connection_id is_current_launch now c = Some (t', h', Ok applied) →
  tags_cover t t' (SyncApplied.tag_changes applied).
Proof. apply change_cover. Qed.

(** While the version counter has room, a scope whose tag a call leaves
    alone has the content it had: the record and the link state a tag was
    published for never change under it. *)
Theorem tag_names_content t h owner connection_id is_current_launch now c t' h' res k s s' :
  versions_ok t → version_room t t' →
  change t h owner connection_id is_current_launch now c = Some (t', h', res) →
  scope_at t k = Some s → scope_at t' k = Some s' → LiveScope.tag s = LiveScope.tag s' →
  LiveScope.record s = LiveScope.record s' ∧ LiveScope.parent_state s = LiveScope.parent_state s'.
Proof.
  intros Hv Hr Hch Hs Hs' Htag.
  pose proof (change_tag_content t h owner connection_id is_current_launch now c t' h' Hv Hr res k s s'
    Hch Hs Hs' Htag) as [= ??]. done.
Qed.

(** A sync or apply that ends a scope, moves it to another epoch, changes
    its delegation, ends its parent or withdraws a carrier reports a drain that
    closes every route this takes the authority from: a route of [p] to [m]
    that was permitted and no longer is. *)
Theorem revocation_closes_routes p m t h owner connection_id is_current_launch now c t' h' applied k s :
  versions_ok t → version_room t t' →
  change t h owner connection_id is_current_launch now c = Some (t', h', Ok applied) →
  scope_at t k = Some s → was_permitted k.1 s p m →
  match scope_at t' k with
  | None => True
  | Some s' => epoch_of s' ≠ epoch_of s ∨ revoked k.1 s s' p m
  end →
  closes p m k (SyncApplied.tag_changes applied).
Proof.
  intros Hv Hr Hch Hs Hperm Hlost.
  destruct (change_inv _ _ _ _ _ _ _ _ _ _ Hch)
    as [(_ & _ & code & [=])|(ap & st' & v & st & ex & sl & tc & rs & Hacc & Href & _ & [= ->])].
  simpl. exact (change_closes p m t h owner connection_id is_current_launch now c t' h' ap Hv Hr
    st' v st ex sl Hacc tc k s Href Hs Hperm Hlost).
Qed.

(** The drain of a change at one epoch closes a permitted route exactly
    when the change takes its authority away, so nothing else is closed. *)
Theorem drain_closes_exactly o before after p m :
  was_permitted o before p m →
  is_Some (drain_reason (drain_for_change before after) o p m) ↔ revoked o before after p m.
Proof. apply drain_for_change_spec. Qed.

(** ** Binding *)

(** C29: A bind is admitted exactly when the selector names a live scope of a
    synced owner at its epoch and before its deadline, the opener is the owner
    or a carrier the record lists for the target module, and an opener that is
    no module shows the proof the record asks for; the admission carries the
    scope's stamp and tag. *)
Theorem admit_iff t opener target selector configured now admission :
  admit_bind t opener target selector configured now = Ok admission ↔
  ∃ owner scope, selected t selector now owner scope ∧
    may_carry owner (LiveScope.record scope) opener target ∧
    proof_given (LiveScope.record scope) opener selector ∧
    admission = admission_of t selector owner scope.
Proof. apply admit_ok. Qed.

(** A carrier may open to a module exactly when one of the record's
    entries for that principal restricts no targets or lists the module. *)
Theorem carrier_permitted_iff record principal module_id :
  carrier_permitted record principal module_id = true ↔
  ∃ c, c ∈ ScopeRecord.carriers record ∧ ScopeCarrier.principal c = principal ∧
    (ScopeCarrier.targets c = None ∨ ∃ ts, ScopeCarrier.targets c = Some ts ∧ module_id ∈ ts).
Proof. rewrite carrier_permitted_spec. unfold carrier_entry. naive_solver. Qed.

(** Against a stored hash that passes validation, a proof matches exactly
    when it has 43 characters, decodes to 32 bytes, and the hash is the
    lowercase hexadecimal rendering of their SHA-256. *)
Theorem bind_proof_exact proof hash :
  validate_bind_proof_sha256 hash = Ok tt →
  bind_proof_matches proof hash = true ↔
  str_len proof = 43 ∧ ∃ d, decode_slice proof 32 = Some d ∧ length d = 32%nat ∧
    hex_bytes (sha256 d) = str_bytes hash.
Proof. apply bind_proof_matches_iff. Qed.

(** In every reachable state, replacing a scope on condition that it is
    idle is refused exactly when some bind on it has not been released or some
    connection holds its presence: the counter and the flags say what the
    leases say. *)
Theorem idle_check_exact owners w k s r :
  reachable owners w → scope_at (table w) k = Some s →
  Z.of_nat (size (Heap.leases (heap w))) < 2 ^ 64 →
  ScopeRecord.replace_only_if_idle r = true → epoch_of s < ScopeRecord.scope_epoch r →
  idle_refusal (heap w) r (Some s) = None ↔
  (∀ id l, Heap.leases (heap w) !! id = Some l → ScopeBindLease.binds l = LiveScope.binds s →
           ScopeBindLease.released l = true) ∧
  (∀ cid p, LiveScope.presence s !! cid = Some p → Heap.flag (heap w) p = false).
Proof.
  intros Hreach%reachable_heap_ok Hs Hsize Hidle Hep. unfold idle_refusal; simpl.
  unfold epoch_of in Hep. rewrite Hidle, (proj2 (Z.ltb_lt _ _) Hep); simpl.
  rewrite <-(scope_in_use_iff w s Hreach Hsize). by destruct (scope_in_use _ _).
Qed.

(** When a scope is reported as served by a module, that module did
    acknowledge a bind of that scope at that epoch. *)
Theorem served_by_acknowledged owners w owner scope_ref epoch module_id now :
  reachable owners w →
  served_by (table w) (heap w) owner scope_ref epoch module_id now = ScopeServedByAnswer.Served →
  (owner, scope_ref, epoch, module_id) ∈ acked w.
Proof.
  intros Hreach%reachable_heap_ok. unfold served_by.
  change (_ ≫= _) with (scope_at (table w) (owner, scope_ref)).
  destruct (scope_at (table w) (owner, scope_ref)) as [s|] eqn:Hs; [|done].
  destruct (negb _ || _) eqn:Hep; [done|]. case_bool_decide as Hm; [|done]. intros _. split_bools.
  pose proof (hk_acked _ Hreach _ s module_id Hs Hm) as Hin. unfold epoch_of in Hin.
  match goal with He : (_ =? epoch) = true |- _ => apply Z.eqb_eq in He as <- end. done.
Qed.

(** ** Cycle checks *)

(** The uncached check refuses a new link exactly when walking up from it
    passes the child; the cached one, from any cache it could have built,
    never refuses more, and refuses every link that puts the child on a cycle
    of live links. *)
Theorem cycle_checks t overlay child_owner child_ref parent cache :
  cache_ok t overlay cache →
  (link_closes_cycle t overlay child_owner child_ref parent = true ↔
   ∃ k, link_key parent = Some k ∧ reaches t overlay k (child_owner, child_ref)) ∧
  let '(closes, cache') := link_closes_cycle_cached t overlay child_owner child_ref parent cache in
  cache_ok t overlay cache' ∧
  (closes = true → link_closes_cycle t overlay child_owner child_ref parent = true) ∧
  (∀ e, up t overlay (child_owner, child_ref, e) = link_key parent →
        on_cycle t overlay (child_owner, child_ref, e) → closes = true).
Proof.
  intros Hc. split; [apply link_closes_cycle_reaches|]. by apply link_closes_cycle_cached_spec.
Qed.
End theorems.

(** ** The theorems at work *)

#[local] Existing Instances tree_hash_order empty_json plain_proofs.

(** A goal about the example that evaluates. *)
Ltac example := vm_compute; reflexivity.

Lemma reachable_links_witness :
  ∃ o, Some o = Some "mod-a" ∧
       epoch_at (table world1) (o, "head") = Some 1.
Proof.
  destruct (reachable_links ["mod-a"] world1 ("mod-a", "child") (scope_of world1 "child")
    (ScopeParent.mk (Reserved "mod-a") "head" 1)) as (o & Ho & _ & Hl & _).
  - apply world1_reachable.
  - example.
  - example.
  - exists o. split; [by rewrite <-Ho|]. apply Hl. example.
Defined.

Lemma reachable_acyclic_witness :
  linked_path (table world1) 2 ("mod-a", "child") ≠ Some ("mod-a", "child").
Proof. apply (reachable_acyclic ["mod-a"] world1 1). apply world1_reachable. Defined.

Lemma reachable_scope_rules_witness :
  attributes_ok true (ScopeRecord.attributes (LiveScope.record (scope_of world1 "head"))).
Proof.
  apply (reachable_scope_rules ["mod-a"] world1 "mod-a" "head" (scope_of world1 "head")).
  - apply world1_reachable.
  - example.
Defined.

Lemma tended_after w owner now c k :
  is_some (run_change w owner now c) = true → is_some (scope_at (table (after_change w owner now c)) k) = true →
  (passed_deadline now ∘ LiveScope.record) <$> scope_at (table w) k = Some None →
  @tended tree_hash_order empty_json plain_proofs k w (after_change w owner now c).
Proof.
  unfold after_change. destruct (run_change w owner now c) as [[[t h] r]|] eqn:Hrun; [|done]. intros _ Hs Hd. simpl in Hs.
  eapply tended_change; [exact Hrun| |by destruct (scope_at t k)]. intros s _ Hk. rewrite Hk in Hd. by injection Hd.
Qed.

Lemma epoch_fixes_identity_witness :
  epoch_of (scope_of world1 "head") ≤ epoch_of (scope_of world2 "head").
Proof.
  refine (proj1 (epoch_fixes_identity ["mod-a"] world1 world2 ("mod-a", "head") _ _ world1_reachable
    (rtc_once _ _ (tended_after world1 "mod-a" 200 second_sync ("mod-a", "head") _ _ _)) _ _)); example.
Defined.

Lemma change_reports_tags_witness :
  tags_cover (table world1) (table world2) (SyncApplied.tag_changes second_applied).
Proof.
  apply (change_reports_tags (table world1) (heap world1) "mod-a" 7 (λ _, true) 200 second_sync
    (table world2) (heap world2)). example.
Defined.

Lemma world1_versions : versions_ok (table world1).
Proof.
  apply (change_versions_ok (table (initial ["mod-a"])) (heap (initial ["mod-a"])) "mod-a" 7 (λ _, true)
    100 first_sync (table world1) (heap world1)) with
    (res := Ok (applied_of (run_change (initial ["mod-a"]) "mod-a" 100 first_sync))).
  - split; [done|]. intros k s. unfold scope_at; simpl. by rewrite lookup_empty.
  - example.
  - example.
Qed.

Lemma tag_names_content_witness :
  LiveScope.record (scope_of world1 "child") = LiveScope.record (scope_of world2 "child") ∧
  LiveScope.parent_state (scope_of world1 "child") = LiveScope.parent_state (scope_of world2 "child").
Proof.
  apply (tag_names_content (table world1) (heap world1) "mod-a" 7 (λ _, true) 200 second_sync
    (table world2) (heap world2) (Ok second_applied) ("mod-a", "child"));
    [apply world1_versions|example..].
Defined.

Lemma revocation_closes_routes_witness :
  closes Direct "tool" ("mod-a", "head") (SyncApplied.tag_changes second_applied).
Proof.
  apply (revocation_closes_routes Direct "tool" (table world1) (heap world1) "mod-a" 7 (λ _, true) 200
    second_sync (table world2) (heap world2) second_applied ("mod-a", "head") (scope_of world1 "head"));
    [apply world1_versions|example|example|example|right; example|].
  replace (scope_at (table world2) ("mod-a", "head")) with (Some (scope_of world2 "head")) by example.
  do 3 right. split; [discriminate|example].
Defined.

Lemma drain_closes_exactly_witness :
  is_Some (drain_reason (drain_for_change (scope_of world1 "head") (scope_of world2 "head"))
             "mod-a" Direct "tool").
Proof.
  apply (drain_closes_exactly "mod-a" (scope_of world1 "head") (scope_of world2 "head") Direct "tool").
  - right. example.
  - do 2 right. split; [discriminate|example].
Defined.

Lemma bind_proof_exact_witness : bind_proof_matches sample_proof sample_hash = true.
Proof.
  apply (bind_proof_exact sample_proof sample_hash); [example|]. split; [example|].
  eexists. split_and!; example.
Defined.

Lemma idle_check_exact_witness :
  idle_refusal (heap world1b) idle_replacement (Some (scope_of world1b "head")) ≠ None.
Proof.
  intros [Hall _]%(idle_check_exact ["mod-a"] world1b ("mod-a", "head")).
  - assert (ScopeBindLease.released (ScopeBindLease.mk 3 false (Some 5%positive) 4) = true) as [=].
    apply (Hall (BoundScope.lease bound1)); example.
  - apply world1b_reachable.
  - example.
  - example.
  - example.
  - example.
Defined.

Lemma served_by_acknowledged_witness : ("mod-a", "head", 1, "tool") ∈ acked world1s.
Proof.
  apply (served_by_acknowledged ["mod-a"] world1s "mod-a" "head" 1 "tool" 160).
  - apply world1s_reachable.
  - example.
Defined.

Lemma cycle_checks_witness :
  link_closes_cycle (table world1) None "mod-a" "head" (ScopeParent.mk (Reserved "mod-a") "child" 1) = true.
Proof.
  refine (proj2 (proj1 (cycle_checks (table world1) None "mod-a" "head"
    (ScopeParent.mk (Reserved "mod-a") "child" 1) LinkCycleCache.empty (cache_ok_empty _ _))) _).
  exists ("mod-a", "child", 1). split; [example|].
  exists 1%nat, ("mod-a", "head", 1). split; example.
Defined.

(** Whether a new link is refused as a cycle depends on the order of the
    records in the call: from one reachable table the same three records are
    all accepted in one order, and in the other the link of [x] is refused,
    though its walk reaches [x] only through a link to an ended epoch. *)
Theorem cycle_refusal_depends_on_order :
  example_reachable dead_link_world ∧ link_records ≡ₚ swapped_records ∧
  outcomes link_records
  = [("z", ScopeRecordOutcome.Unchanged, None); ("y", ScopeRecordOutcome.Created, None);
     ("x", ScopeRecordOutcome.Updated, None)] ∧
  outcomes swapped_records
  = [("z", ScopeRecordOutcome.Unchanged, None);
     ("x", ScopeRecordOutcome.Refused, Some error_codes.SCOPE_PARENT_NOT_PERMITTED);
     ("y", ScopeRecordOutcome.Created, None)].
Proof.
  split; [apply dead_link_reachable|]. split; [apply perm_skip, perm_swap|]. split; example.
Qed.
