(* ===== verification/RoutingTheorems.v ===== *)
(** * What routing promises

    The theorems on [forwarding.rs] and on the handlers of [control.rs] that
    bring it together with the scope table, each with the state it is applied
    at; the proofs are the component files'. *)

From S2P Require Import Prelude Collections Envelope Tokens ScopeTypes Scopes.
From S2P Require Import ScopeRefresh ScopeDrains ScopeEffects ScopeWorld ScopeExamples.
From S2P Require Import Flow FlowSteps Forwarding ForwardingSlots ForwardingInvariant ForwardingOps.
From S2P Require Import ForwardingCleanup ForwardingWorld ForwardingDrains Daemon DrainRun DaemonExamples.

(** ** The abstract authority *)

(** What routing promises about authority, without tables, tags or drains: a set
    of open routes, each on behalf of an opener to a module, maybe under one
    epoch of a scope. *)
Module Authority.
Record Grant := mkGrant {
  under : option ((string * string) * Z);
  opener : Principal;
  target : string;
}.

Record State := mkState {
  records : string * string → option ScopeRecord.t;
  routes : gmap ClientRouteKey.t Grant;
}.

(** The scope is live in the grant's epoch and lets the opener reach the target. *)
Definition allowed (records : string * string → option ScopeRecord.t) (g : Grant) : Prop :=
  match under g with
  | None => True
  | Some (k, epoch) => ∃ r, records k = Some r ∧ ScopeRecord.scope_epoch r = epoch ∧
      (opener g = Reserved k.1 ∨ carrier_permitted r (opener g) (target g) = true)
  end.

(** Scopes change in any way, but only allowed routes stay; or one allowed route
    opens where there was none. *)
Inductive step (s s' : State) : Prop :=
  | change_step :
      routes s' ⊆ routes s → (∀ ck g, routes s' !! ck = Some g → allowed (records s') g) → step s s'
  | open_step ck g :
      (∀ k, records s' k = records s k) → allowed (records s) g → routes s !! ck = None →
      routes s' = <[ck := g]> (routes s) → step s s'.
End Authority.

Section abstraction.
Context `{Semaphore}.

Definition grant_of (r : RouteBinding.t) : Authority.Grant :=
  Authority.mkGrant ((λ b, (bound_key b, ScopeTag.scope_epoch (BoundScope.tag b))) <$> RouteBinding.scope r)
    (RouteBinding.principal r) (RouteBinding.module_id r).

Definition authority_of (d : Daemon) : Authority.State :=
  Authority.mkState (λ k, LiveScope.record <$> scope_at (scopes_of d) k)
    (grant_of <$> client_to_module (routes_of d)).
End abstraction.

Section theorems.
Context `{Semaphore} `{HashOrder} `{AttributeJson} `{ProofCrypto} `{RouteOpenJson}.

Lemma grant_allowed d ck g :
  joint (scopes_of d) (routes_of d) (openings d) →
  Authority.routes (authority_of d) !! ck = Some g →
  Authority.allowed (Authority.records (authority_of d)) g.
Proof.
  intros Hj. simpl. rewrite lookup_fmap. intros (r & Hr & ->)%fmap_Some.
  unfold Authority.allowed, grant_of; simpl. destruct (RouteBinding.scope r) as [b|] eqn:Hb; [|done].
  destruct (jt_routes _ _ _ Hj ck r b Hr Hb) as (s & Hs & He & Hperm). simpl.
  exists (LiveScope.record s). by rewrite Hs.
Qed.

(** C1: No route outlives the authority it was opened under: in every reachable
    state a route bound to a scope has that scope live, in the epoch it was
    bound at, and the scope's current record lets the route's opener reach the
    route's module. *)
Theorem no_route_outlives_authority owners d ck r b :
  daemon_reachable owners d →
  client_to_module (routes_of d) !! ck = Some r → RouteBinding.scope r = Some b →
  ∃ s, scope_at (scopes_of d) (BoundScope.owner b, BoundScope.scope_ref b) = Some s ∧
    ScopeRecord.scope_epoch (LiveScope.record s) = ScopeTag.scope_epoch (BoundScope.tag b) ∧
    (RouteBinding.principal r = Reserved (BoundScope.owner b) ∨
     carrier_permitted (LiveScope.record s) (RouteBinding.principal r) (RouteBinding.module_id r) = true).
Proof. intros Hd. apply (jt_routes _ _ _ (reachable_joint owners d Hd)). Qed.

(** C2: The daemon implements the abstract authority: every step of the two
    tables, forwarding operations between the halves of an open included, is a
    step in which scopes change and only allowed routes stay, or in which one
    allowed route opens in a free slot. *)
Theorem daemon_refines_authority owners d d' :
  daemon_reachable owners d → daemon_step d d' → Authority.step (authority_of d) (authority_of d').
Proof.
  intros Hd Hstep. pose proof (reachable_joint owners d Hd) as Hj.
  pose proof (joint_step d d' Hstep Hj) as Hj'.
  destruct (step_routes d d' Hstep Hj) as [Hsub|(Hsame & key & p & Hcom)].
  - apply Authority.change_step; [by apply map_fmap_mono|]. intros ck g. by apply grant_allowed.
  - destruct (rcm_route _ _ _ _ Hcom) as (r & m & Hc & _ & _ & _ & _ & _ & Hck).
    apply Authority.open_step with (RouteBinding.client_key r) (grant_of r); simpl.
    + by rewrite Hsame.
    + pose proof (grant_allowed d' (RouteBinding.client_key r) (grant_of r) Hj') as Hallowed. simpl in Hallowed.
      rewrite Hsame, Hc, lookup_fmap, lookup_insert_eq in Hallowed. by apply Hallowed.
    + rewrite lookup_fmap.
      destruct (ep_pending _ _ _ _ _ _ (fw_epochs _ _ (jt_fw _ _ _ Hj)) key p (rcm_pending _ _ _ _ Hcom))
        as [_ [[]|(Hres & _)]].
      rewrite Hck.
      by destruct (ix_reserved_client _ _ _ _ (fw_index _ _ (jt_fw _ _ _ Hj)) _ _ Hres) as [_ ->].
    + by rewrite Hc, fmap_insert.
Qed.

(** ** The table *)

(** C32: In every reachable table a bound route sits in both indexes under its
    own keys, at the epochs its slots were last handed out with; channels and
    epochs are at their widths and not zero; its opener's connection is no
    module's, its module's endpoint is registered under the route's module id;
    and a reserved slot is not bound. *)
Theorem route_table_typed owners d :
  daemon_reachable owners d →
  let i := routes_of d in
  (∀ ck r, client_to_module i !! ck = Some r →
    RouteBinding.client_key r = ck ∧ module_to_client i !! RouteBinding.module_key r = Some r ∧
    client_slot_epochs i !! ck = Some (RouteBinding.client_epoch r) ∧
    module_slot_epochs i !! RouteBinding.module_key r = Some (RouteBinding.module_epoch r) ∧
    1 ≤ RouteBinding.client_channel r ≤ 65535 ∧ 1 ≤ RouteBinding.client_epoch r < 2 ^ 32 ∧
    1 ≤ RouteBinding.module_channel r ≤ 65535 ∧ 1 ≤ RouteBinding.module_epoch r < 2 ^ 32 ∧
    endpoint_by_connection i !! RouteBinding.client_connection_id r = None ∧
    module_id_by_endpoint i !! RouteBinding.module_endpoint r = Some (RouteBinding.module_id r)) ∧
  (∀ mk r, module_to_client i !! mk = Some r →
    RouteBinding.module_key r = mk ∧ client_to_module i !! RouteBinding.client_key r = Some r) ∧
  (∀ ck mk, reserved_client i !! ck = Some mk →
    reserved_module i !! mk = Some ck ∧ client_to_module i !! ck = None ∧ module_to_client i !! mk = None).
Proof.
  intros Hd. pose proof (jt_fw _ _ _ (reachable_joint owners d Hd)) as Hok. cbv zeta. split_and!.
  - intros ck r Hr. destruct (ix_client _ _ _ _ (fw_index _ _ Hok) ck r Hr) as [<- Hm].
    destruct (ep_bound _ _ _ _ _ _ (fw_epochs _ _ Hok) _ r Hr) as [Hce [[]|Hme]].
    destruct (hd_bound _ _ _ _ _ _ (fw_holders _ _ Hok) _ r Hr) as [Hc [[]|Hid]].
    destruct (rg_client _ _ _ _ (fw_ranges _ _ Hok) _ _ Hce) as [[] []].
    destruct (rg_module _ _ _ _ (fw_ranges _ _ Hok) _ _ Hme) as [[] []].
    unfold U32_MAX in *. simpl in *. split_and!; try done; lia.
  - apply (ix_module _ _ _ _ (fw_index _ _ Hok)).
  - intros ck mk Hck. destruct (ix_reserved_client _ _ _ _ (fw_index _ _ Hok) ck mk Hck) as [Hmk Hc].
    split_and!; [done..|]. apply (ix_reserved_module _ _ _ _ (fw_index _ _ Hok) mk ck Hmk).
Qed.

(** C21: Looking up a frame's route goes both ways: the client's handle of a
    route finds it exactly when the module's handle does, and a lookup that
    finds a route finds the one whose handle was asked for. *)
Theorem lookup_roundtrip owners d :
  daemon_reachable owners d →
  let i := routes_of d in
  (∀ r, lookup_data_route i (RouteBinding.client_connection_id r) (RouteBinding.client_channel r)
          (RouteBinding.client_epoch r) = ClientSide (DataRouteState.Bound r) ↔
        lookup_data_route i (ModuleEndpointId.connection_id (RouteBinding.module_endpoint r))
          (RouteBinding.module_channel r) (RouteBinding.module_epoch r)
        = ModuleSide (DataRouteState.Bound r)) ∧
  (∀ c ch e r, lookup_data_route i c ch e = ClientSide (DataRouteState.Bound r) →
     (c, ch, e) = (RouteBinding.client_connection_id r, RouteBinding.client_channel r,
                   RouteBinding.client_epoch r)) ∧
  (∀ c ch e r, lookup_data_route i c ch e = ModuleSide (DataRouteState.Bound r) →
     (c, ch, e) = (ModuleEndpointId.connection_id (RouteBinding.module_endpoint r),
                   RouteBinding.module_channel r, RouteBinding.module_epoch r)).
Proof.
  intros Hd. pose proof (jt_fw _ _ _ (reachable_joint owners d Hd)) as Hok. cbv zeta. split_and!.
  - intros r. rewrite (lookup_client_bound _ _ Hok), (lookup_module_bound _ _ Hok). done.
  - intros c ch e r Hl. by apply lookup_client_handle in Hl as [? _].
  - intros c ch e r Hl. by apply lookup_module_handle in Hl as [? _].
Qed.

(** C31: A pair of slots is handed out whenever both sides have one: the pair is
    free, each slot's epoch is one more than the last and within 32 bits; a
    refusal means that all 65,535 channels of the side it names are bound,
    reserved or out of epochs. *)
Theorem allocation_exact owners d c e :
  daemon_reachable owners d →
  let i := routes_of d in
  match (allocate_route_slots i c e).2 with
  | Ok (cc, ce, mc, me) =>
      let ck := ClientRouteKey.mk c cc in
      let mk := ModuleRouteKey.mk e mc in
      1 ≤ cc ≤ 65535 ∧ 1 ≤ mc ≤ 65535 ∧
      client_to_module i !! ck = None ∧ reserved_client i !! ck = None ∧
      module_to_client i !! mk = None ∧ reserved_module i !! mk = None ∧
      ce = default 0 (client_slot_epochs i !! ck) + 1 ∧ ce < 2 ^ 32 ∧
      me = default 0 (module_slot_epochs i !! mk) + 1 ∧ me < 2 ^ 32
  | Err err =>
      err = ClientRouteChannelExhausted c ∧ (∀ ch, 1 ≤ ch ≤ 65535 → client_taken i c ch) ∨
      err = ModuleRouteChannelExhausted e ∧ (∀ ch, 1 ≤ ch ≤ 65535 → module_taken i e ch)
  end.
Proof.
  intros Hd. pose proof (jt_fw _ _ _ (reachable_joint owners d Hd)) as Hok. cbv zeta.
  pose proof (allocate_route_slots_exhausted (routes_of d) c e) as Herr.
  pose proof (allocate_route_slots_Ok (routes_of d) c e) as Hall.
  destruct (allocate_route_slots (routes_of d) c e) as [i' [[[[cc ce] mc] me]|err]]; simpl in *.
  - destruct (Hall i' cc ce mc me Hok eq_refl) as [[? ? ? ?] ? ? [? ?] [? ?] _].
    unfold channel_ok, U32_MAX in *. simpl in *. split_and!; try done; lia.
  - by apply Herr.
Qed.

(** ** Opening *)

(** C12: A module's answer settles the bind it names once, and truly: the bind is
    no longer pending, the opener is told it was accepted exactly when the route
    is in the table, and that takes an acceptance in time, both queues open, an
    opener that is not closing, a module neither draining nor superseded, and
    the scope still published under the tag it was admitted at. *)
Theorem bind_settled owners d c e corr p outcome sink_closed writer_closed now :
  daemon_reachable owners d →
  let i := routes_of d in
  endpoint_by_connection i !! c = Some e → pending_relays i !! (e, corr) = Some p →
  let '(i', effects, _) := complete_pending_relay i c corr outcome sink_closed writer_closed now in
  pending_relays i' = delete (e, corr) (pending_relays i) ∧
  (RelayReply (e, corr) Accepted ∈ effects ↔
   is_Some (client_to_module i' !! RouteReservation.client_key (PendingRouteBindRelayEntry.reservation p))) ∧
  (RelayReply (e, corr) Accepted ∈ effects →
   outcome = Accepted ∧ now < PendingRouteBindRelayEntry.deadline p ∧
   sink_closed = false ∧ writer_closed = false ∧
   (relay_client p ∉ closing_connections i) ∧
   superseded_endpoints i !! e = None ∧ draining_endpoints i !! e = None ∧
   (∀ b, PendingRouteBindRelayEntry.scope p = Some b →
      scope_tags i !! (BoundScope.owner b, BoundScope.scope_ref b) = Some (BoundScope.tag b))).
Proof.
  intros Hd i He Hp. pose proof (jt_fw _ _ _ (reachable_joint owners d Hd)) as Hok.
  pose proof (complete_pending_relay_told i c corr outcome sink_closed writer_closed now e p Hok He Hp)
    as Htold.
  destruct (complete_pending_relay i c corr outcome sink_closed writer_closed now) as [[i' effects] res].
  destruct Htold as (Hp' & Hiff & Hacc). split_and!; [done|done|].
  intros [Ho Ht [Hs Hw] Hc [Hsup Hdr] Hsc]%Hiff%Hacc. by split_and!.
Qed.

(** ** Drains *)

(** C13: From the moment [begin_drain] drains an endpoint, and as long as it stays
    marked, the endpoint takes on no work.  At once every bind waiting for it is
    refused as reloading and every call to it ends, while its routes stay open;
    and in every state the daemon comes to while the mark stands, it has no route
    that it did not have then, a request on one of them is refused as reloading,
    and no bind to it begins.  (The mark alone does not do it: see
    [daemon_drain_still_admits].) *)
Theorem drain_takes_no_work owners d m reason :
  daemon_reachable owners d →
  let i := routes_of d in
  let e := ModuleConnection.endpoint m in
  let '(i', effects, _) := begin_drain i m reason in
  client_to_module i' = client_to_module i ∧
  (∀ key, key.1 = e → is_Some (pending_relays i !! key) →
     RelayReply key (DaemonRejected error_codes.MODULE_RELOADING) ∈ effects ∧
     pending_relays i' !! key = None) ∧
  (∀ key, key.1 = e → is_Some (pending_control_rpcs i !! key) →
     ControlReply key ControlModuleGone ∈ effects ∧ pending_control_rpcs i' !! key = None) ∧
  ∀ d', rtc (draining_step e) (mkDaemon (scopes_of d) i' (openings d)) d' →
    (∀ ck r, client_to_module (routes_of d') !! ck = Some r → RouteBinding.module_endpoint r = e →
       client_to_module i !! ck = Some r ∧
       ∀ corr subscription,
         (try_admit_request (routes_of d') r (RouteBinding.client_epoch r) corr subscription).2 = ModuleReloading) ∧
    (∀ id m' c sink ver corr principal scope deadline busy,
       modules_by_id (routes_of d') !! id = Some m' → ModuleConnection.endpoint m' = e →
       ∃ err, (begin_route_bind_relay (routes_of d') c sink ver corr id principal scope deadline busy).2 = Err err).
Proof.
  intros Hd i e. pose proof (reachable_joint owners d Hd) as Hj. pose proof (jt_fw _ _ _ Hj) as Hok. fold i in Hok.
  pose proof (begin_drain_spec i m reason Hok) as Hspec. pose proof (begin_drain_ok i m reason Hok) as Hok'.
  pose proof (begin_drain_shrinks i m reason) as Hsh.
  destruct (begin_drain i m reason) as [[i' effects] target]. fold e in Hspec. cbn [fst] in Hok', Hsh. split_and!.
  - apply (dn_routes _ _ _ _ _ Hspec).
  - intros key Hk Hp. split; [by apply (dn_replies _ _ _ _ _ Hspec)|].
    rewrite (dn_pending _ _ _ _ _ Hspec). apply map_lookup_filter_None. right. intros ? _. simpl. by intros [].
  - intros key Hk Hp. split; [by apply (dn_control_replies _ _ _ _ _ Hspec)|].
    rewrite (dn_control _ _ _ _ _ Hspec). apply map_lookup_filter_None. right. intros ? _. simpl. by intros [].
  - intros d' Hrun. destruct (shut_run e i _ d' Hrun) as [Hj' Hs].
    { simpl. by eapply joint_shrinks. }
    { by eapply drained_shut. }
    pose proof (jt_fw _ _ _ Hj') as Hfw. split.
    + intros ck r Hr He. split; [by apply (sa_old _ _ _ Hs)|]. intros corr subscription. by eapply shut_refuses.
    + intros id m' c sink ver corr principal scope deadline busy Hm He.
      apply (draining_refuses_bind (routes_of d') m'); [done|]. rewrite He. apply (sa_marked _ _ _ Hs).
Qed.

(** ** Connections going away *)

(** C20: When a connection goes away, client or module, nothing in the table
    names it any more and nothing else is lost: exactly the routes with an end
    on it close, their other ends are told, and exactly the binds waiting on it
    are answered. *)
Theorem cleanup_leaves_no_trace owners d c :
  daemon_reachable owners d →
  let i := routes_of d in
  let '(i', effects, cleanup) := cleanup_connection i c in
  endpoint_by_connection i' !! c = None ∧
  client_to_module i'
  = filter (λ x, ClientRouteKey.connection_id x.1 ≠ c ∧
                 ModuleEndpointId.connection_id (RouteBinding.module_endpoint x.2) ≠ c)
      (client_to_module i) ∧
  pending_relays i'
  = filter (λ x, relay_client x.2 ≠ c ∧ ModuleEndpointId.connection_id x.1.1 ≠ c) (pending_relays i) ∧
  (∀ key p, pending_relays i !! key = Some p →
     relay_client p = c ∨ ModuleEndpointId.connection_id key.1 = c → RelayReply key ModuleGone ∈ effects) ∧
  (∀ ck r, client_to_module i !! ck = Some r → ClientRouteKey.connection_id ck = c →
     module_goodbye r ∈ released_routes cleanup) ∧
  (∀ ck r, client_to_module i !! ck = Some r →
     ModuleEndpointId.connection_id (RouteBinding.module_endpoint r) = c →
     client_goodbye r ∈ released_routes cleanup).
Proof.
  intros Hd i. pose proof (jt_fw _ _ _ (reachable_joint owners d Hd)) as Hok.
  pose proof (cleanup_connection_spec i c Hok) as Hspec.
  destruct (cleanup_connection i c) as [[i' effects] cleanup].
  destruct Hspec as [_ [Hrole Hroutes Hpend Hrep Hmod Hcl]]. by split_and!.
Qed.
End theorems.

(** ** Flows *)

Section flow_theorems.
Context `{SemaphoreLaws}.

(** C22: However requests, waits, answers, drains and closes follow each other,
    a route never has more requests in flight than its window nor, if it has a
    watch window, more watches (requests with the subscription flag) than that.
    A request is admitted exactly if the flow is open and both windows it needs
    have room, and is then recorded as what it is; it is refused as stale exactly
    if the flow is closed and otherwise as busy, with the right counts, and a
    refusal takes no credit.  A watch window comes with busy refusals, as
    [begin_route_bind_relay] sets it up. *)
Theorem flow_admission_exact window busy_refusals watch_window f held corr subscription :
  0 ≤ window → (∀ w, watch_window = Some w → 0 ≤ w ∧ busy_refusals = true) →
  flow_reachable window busy_refusals watch_window (f, held) →
  Z.of_nat (requests f) + Z.of_nat held ≤ window ∧
  (∀ w, watch_window = Some w → Z.of_nat (watches f) ≤ w) ∧
  let '(admission, f') := ChannelFlow.try_acquire_tagged f corr subscription in
  match admission with
  | IsAdmitted => ChannelFlow.closed f = false ∧ Z.of_nat (requests f) + Z.of_nat held < window ∧
      (subscription = true → ∀ w, watch_window = Some w → Z.of_nat (watches f) < w) ∧
      ∃ tagged, CreditLedger.credits (ChannelFlow.credits f')
                ≡ₚ (corr, mkRequestCredit subscription tagged false) :: CreditLedger.credits (ChannelFlow.credits f)
  | Busy detail => ChannelFlow.closed f = false ∧ ChannelFlow.credits f' = ChannelFlow.credits f ∧
      detail = RouteBusyDetail.mk "no_credit" (Z.of_nat (requests f)) (Z.of_nat (watches f)) window watch_window ∧
      (Z.of_nat (requests f) + Z.of_nat held = window ∨
       subscription = true ∧ ∃ w, watch_window = Some w ∧ Z.of_nat (watches f) = w)
  | Stale => ChannelFlow.closed f = true ∧ f' = f
  | ModuleReloading => False
  end.
Proof.
  intros Hw Hww Hreach. destruct (flow_reachable_tags _ _ _ _ Hw Hww Hreach) as [Hok Htags]. cbn [fst] in Htags.
  assert (∀ w, watch_window = Some w → watch_permits f = watches f) as Heq.
  { intros w Hs. symmetry. apply watches_permits; [done|]. pose proof (fk_watch_window _ _ _ Hok) as Hf. simpl in Hf.
    rewrite Hf, Hs. by exists w. }
  pose proof (try_acquire_cases window watch_window f held corr subscription Hok) as Hcases.
  split_and!; [apply Hok| |].
  - intros w Hs. rewrite <-(Heq w Hs). pose proof (fk_watch _ _ _ Hok) as Hwatch. simpl in Hwatch. rewrite Hs in Hwatch.
    destruct (ChannelFlow.watch_sem f); [|done]. apply Hwatch.
  - destruct (ChannelFlow.try_acquire_tagged f corr subscription) as [[] f']; destruct Hcases as [_ Hcases]; [| |done..].
    + destruct Hcases as (Hcl & Hroom & Hwroom & tagged & _ & ->). split_and!; [done..| |].
      * intros Hsub w Hs. rewrite <-(Heq w Hs). by apply Hwroom.
      * exists tagged. apply credits_acquire.
    + destruct Hcases as (Hcl & Hcr & Hd & Hfull). split_and!; [done..|]. destruct Hfull as [?|(? & w & Hs & ?)]; [by left|right].
      split; [done|]. exists w. by rewrite <-(Heq w Hs).
Qed.

(** C33: A drain waits for the requests in flight when it begins, watches left
    out.  Whatever happens to the flow afterwards the number it waits for never
    grows, and it is over exactly when nothing but watches is in flight.  So once
    the requests it waits for are answered it is over, with every watch still
    open (if no watch shares its correlation id with another request). *)
Theorem drain_ends window busy_refusals watch_window f held :
  0 ≤ window → (∀ w, watch_window = Some w → 0 ≤ w ∧ busy_refusals = true) →
  flow_reachable window busy_refusals watch_window (f, held) →
  let f1 := (ChannelFlow.begin_drain f).2 in
  ChannelFlow.drain_in_flight f1
  = length (filter (λ e, subscription e.2 = false) (CreditLedger.credits (ChannelFlow.credits f))) ∧
  (∀ s', rtc flow_step (f1, held) s' →
     ChannelFlow.closed s'.1 = true ∧
     (ChannelFlow.drain_in_flight s'.1 ≤ ChannelFlow.drain_in_flight f1)%nat ∧
     (ChannelFlow.drain_in_flight s'.1 = 0%nat ↔
      ∀ e, e ∈ CreditLedger.credits (ChannelFlow.credits s'.1) → subscription e.2 = true)) ∧
  (watches_apart f →
   let f2 := foldl ChannelFlow.release_corr f1 (ChannelFlow.drain_held_corrs f1) in
   ChannelFlow.drain_in_flight f2 = 0%nat ∧ watches f2 = watches f).
Proof.
  intros Hw Hww Hreach f1. destruct (flow_reachable_tags _ _ _ _ Hw Hww Hreach) as [Hok Htags]. cbn [fst] in Htags.
  pose proof (flow_begin_drain_ok _ _ _ _ Hok) as Hok1. pose proof (begin_drain_drained f Htags) as Hd.
  split_and!.
  - unfold f1. rewrite (drain_waits _ Hd). apply begin_drain_keeps.
  - intros s' Hrun. destruct (drained_run _ _ _ _ Hrun Hok1 Hd) as [Hd' Hle].
    split_and!; [apply Hd'|exact Hle|by apply drain_over].
  - intros Hap. destruct (answered_requests f1 (ChannelFlow.drain_held_corrs f1)) as [Hz Hwatch];
      [apply Hok1|done|by apply begin_drain_apart|by apply drain_held_requests|].
    split; [done|]. rewrite Hwatch. apply begin_drain_keeps.
Qed.
End flow_theorems.

(** ** The theorems at work *)

#[local] Existing Instances counting tree_hash_order empty_body.

Lemma no_route_outlives_authority_witness :
  ∃ s, scope_at (scopes_of daemon5) ("mod-a", "head") = Some s ∧
       carrier_permitted (LiveScope.record s) Direct "tool" = true.
Proof.
  destruct (@no_route_outlives_authority counting tree_hash_order empty_json plain_proofs empty_body
    ["mod-a"] daemon5 client_slot route5 bound5 daemon5_reachable) as (s & Hs & _ & Hperm).
  - vm_compute. reflexivity.
  - vm_compute. reflexivity.
  - exists s. split; [exact Hs|]. destruct Hperm as [Hp|Hp]; [vm_compute in Hp; discriminate|exact Hp].
Defined.

Lemma daemon_refines_authority_witness :
  Authority.step (authority_of daemon4) (authority_of daemon5).
Proof.
  apply (@daemon_refines_authority counting tree_hash_order empty_json plain_proofs empty_body
    ["mod-a"] daemon4 daemon5 daemon4_reachable).
  apply (@ds_complete counting tree_hash_order empty_json plain_proofs empty_body).
Defined.

Lemma route_table_typed_witness :
  module_to_client (routes_of daemon5) !! RouteBinding.module_key route5 = Some route5.
Proof.
  apply (proj1 (@route_table_typed counting tree_hash_order empty_json plain_proofs empty_body
    ["mod-a"] daemon5 daemon5_reachable) client_slot route5).
  vm_compute. reflexivity.
Defined.

Lemma lookup_roundtrip_witness :
  @lookup_data_route counting (routes_of daemon5) 1 1 1 = ModuleSide (DataRouteState.Bound route5).
Proof.
  apply (proj1 (@lookup_roundtrip counting tree_hash_order empty_json plain_proofs empty_body
    ["mod-a"] daemon5 daemon5_reachable) route5).
  vm_compute. reflexivity.
Defined.

Lemma allocation_exact_witness :
  ∃ cc ce mc me, (allocate_route_slots (routes_of daemon5) 9 tool_endpoint).2 = Ok (cc, ce, mc, me) ∧
    client_to_module (routes_of daemon5) !! ClientRouteKey.mk 9 cc = None.
Proof.
  pose proof (@allocation_exact counting tree_hash_order empty_json plain_proofs empty_body
    ["mod-a"] daemon5 9 tool_endpoint daemon5_reachable) as Hall. cbv zeta in Hall.
  assert ((allocate_route_slots (routes_of daemon5) 9 tool_endpoint).2 = Ok (2, 1, 2, 1)) as Heq
    by (vm_compute; reflexivity).
  rewrite Heq in Hall |- *. exists 2, 1, 2, 1. split; [reflexivity|].
  destruct Hall as (_ & _ & Hfree & _). exact Hfree.
Defined.

Lemma bind_settled_witness :
  pending_relays (routes_of daemon5) = delete (tool_endpoint, 1) (pending_relays (routes_of daemon4)).
Proof.
  pose proof (@bind_settled counting tree_hash_order empty_json plain_proofs empty_body ["mod-a"] daemon4 1
    tool_endpoint 1 pending4 Accepted false false 160 daemon4_reachable) as Hsettled. cbv zeta in Hsettled.
  change (routes_of daemon5)
    with (complete_pending_relay (routes_of daemon4) 1 1 Accepted false false 160).1.1.
  destruct (complete_pending_relay (routes_of daemon4) 1 1 Accepted false false 160) as [[i' effects] res].
  refine (proj1 (Hsettled _ _)); vm_compute; reflexivity.
Defined.

(** Draining the module of the route, which then refuses a request. *)
Lemma drain_takes_no_work_witness :
  let i' := (begin_drain (routes_of daemon5) tool_connection RouteCloseReason.Restart).1.1 in
  client_to_module i' = client_to_module (routes_of daemon5) ∧
  (try_admit_request i' route5 (RouteBinding.client_epoch route5) 7 false).2 = ModuleReloading.
Proof.
  assert (client_to_module (routes_of daemon5) !! client_slot = Some route5) as Hr by (vm_compute; reflexivity).
  assert (RouteBinding.module_endpoint route5 = ModuleConnection.endpoint tool_connection) as He by (vm_compute; reflexivity).
  pose proof (@drain_takes_no_work counting tree_hash_order empty_json plain_proofs empty_body ["mod-a"]
    daemon5 tool_connection RouteCloseReason.Restart daemon5_reachable) as Hdrain. cbv zeta in Hdrain.
  destruct (begin_drain (routes_of daemon5) tool_connection RouteCloseReason.Restart) as [[i' effects] target].
  destruct Hdrain as (Hc & _ & _ & Hlater). split; [exact Hc|].
  destruct (Hlater _ (rtc_refl _ _)) as [Hrefused _]. cbn [routes_of] in Hrefused. rewrite <-Hc in Hr.
  exact (proj2 (Hrefused client_slot route5 Hr He) 7 false).
Defined.

(** The drain of the whole daemon marks the endpoint but closes no flow: its
    routes go on admitting requests until the module's own drain begins. *)
Example daemon_drain_still_admits :
  let i := (begin_daemon_drain (routes_of daemon5)).1 in
  is_some (draining_endpoints i !! RouteBinding.module_endpoint route5) = true ∧
  (try_admit_request i route5 (RouteBinding.client_epoch route5) 7 false).2 = IsAdmitted.
Proof. split; vm_compute; reflexivity. Qed.

Lemma cleanup_leaves_no_trace_witness :
  module_goodbye route5 ∈ released_routes (cleanup_connection (routes_of daemon5) 9).2.
Proof.
  pose proof (@cleanup_leaves_no_trace counting tree_hash_order empty_json plain_proofs empty_body ["mod-a"]
    daemon5 9 daemon5_reachable) as Hgone. cbv zeta in Hgone.
  destruct (cleanup_connection (routes_of daemon5) 9) as [[i' effects] cleanup].
  destruct Hgone as (_ & _ & _ & _ & Htold & _).
  apply (Htold client_slot route5); vm_compute; reflexivity.
Defined.

(** A route with a single place for watches, taken. *)
Lemma flow_admission_exact_witness :
  let f := (ChannelFlow.try_acquire_tagged (ChannelFlow.with_admission 4 true (Some 1)) 5 true).2 in
  watches f = 1%nat ∧ (ChannelFlow.try_acquire_tagged f 6 true).1 = ChannelFlow.busy f ∧
  (ChannelFlow.try_acquire_tagged f 6 false).1 = IsAdmitted ∧ Z.of_nat (watches f) ≤ 1.
Proof.
  split_and!; [vm_compute; reflexivity..|].
  apply (@flow_admission_exact counting counting_laws 4 true (Some 1)
    (ChannelFlow.try_acquire_tagged (ChannelFlow.with_admission 4 true (Some 1)) 5 true).2 0 6 true); [lia|intros w [= <-]; lia| |reflexivity].
  eapply flow_next; [apply flow_initial|apply flow_try_acquire].
Defined.

(** A route with one request and one watch in flight. *)
Definition busy_flow : ChannelFlow.t :=
  (ChannelFlow.try_acquire_tagged
     (ChannelFlow.try_acquire_tagged (ChannelFlow.with_admission 4 true (Some 2)) 5 false).2 6 true).2.

Lemma busy_flow_apart : watches_apart busy_flow.
Proof.
  assert (CreditLedger.credits (ChannelFlow.credits busy_flow)
          = [(5, mkRequestCredit false false false); (6, mkRequestCredit true true false)]) as Hcr by (vm_compute; reflexivity).
  intros corr c c'. rewrite !Hcr, !elem_of_cons, !elem_of_nil. naive_solver.
Qed.

(** Once the request is answered the drain is over and the watch still open. *)
Lemma drain_ends_witness :
  let f1 := (ChannelFlow.begin_drain busy_flow).2 in
  ChannelFlow.drain_in_flight f1 = 1%nat ∧
  let f2 := foldl ChannelFlow.release_corr f1 (ChannelFlow.drain_held_corrs f1) in
  ChannelFlow.drain_in_flight f2 = 0%nat ∧ watches f2 = 1%nat.
Proof.
  destruct (@drain_ends counting counting_laws 4 true (Some 2) busy_flow 0) as (Hwaits & _ & Hover).
  - lia.
  - intros w [= <-]; lia.
  - eapply flow_next; [|apply flow_try_acquire]. eapply flow_next; [|apply flow_try_acquire].
    apply flow_initial.
  - destruct (Hover busy_flow_apart) as [Hz Hw]. split; [rewrite Hwaits; vm_compute; reflexivity|].
    split; [exact Hz|]. refine (eq_trans Hw _). vm_compute. reflexivity.
Defined.
