(* ===== verification/RouterTheorems.v ===== *)
(** * What the router promises

    Theorems about one routed frame in a running daemon ([Router],
    [RouterTraces], [RouterSplice], [RouterRetry]), the orphan-GOODBYE limiter
    and the egress queue ([Egress]). *)

From S2P Require Import Prelude Collections Envelope Program Egress Tokens ScopeTypes Scopes.
From S2P Require Import Flow Forwarding ForwardingInvariant ForwardingOps ForwardingWorld ForwardingDrains.
From S2P Require Import ScopeAdmit Daemon Router RouterTraces RouterSplice RouterRetry.
From S2P Require Import ScopeExamples DaemonExamples.

(** ** The limiter against its contract *)

Inductive LimiterOp :=
  | OpClaim (now connection_id channel : Z)
  | OpForget (connection_id : Z).

Definition limiter_step (l : OrphanGoodbyeLimiter.t) (op : LimiterOp) : option bool * OrphanGoodbyeLimiter.t :=
  match op with
  | OpClaim now c ch => let '(b, l) := OrphanGoodbyeLimiter.claim l now c ch in (Some b, l)
  | OpForget c => (None, OrphanGoodbyeLimiter.forget_connection l c)
  end.

(** The contract remembers every answer sent: connection, channel, time. *)
Definition sent_recently (sent : list (Z * Z * Z)) (now c ch : Z) : bool :=
  existsb (λ '(c', ch', t), (c' =? c) && (ch' =? ch) && OrphanGoodbyeLimiter.within_interval now t) sent.

Definition contract_step (sent : list (Z * Z * Z)) (op : LimiterOp) : option bool * list (Z * Z * Z) :=
  match op with
  | OpClaim now c ch => if sent_recently sent now c ch then (Some false, sent) else (Some true, (c, ch, now) :: sent)
  | OpForget c => (None, filter (λ e, e.1.1 ≠ c) sent)
  end.

Fixpoint answers {S} (step : S → LimiterOp → option bool * S) (s : S) (ops : list LimiterOp) : list (option bool) :=
  match ops with
  | [] => []
  | op :: ops => let '(b, s) := step s op in b :: answers step s ops
  end.

(** The clock never goes back. *)
Fixpoint in_order (t : Z) (ops : list LimiterOp) : Prop :=
  match ops with
  | [] => True
  | OpClaim now _ _ :: ops => t ≤ now ∧ in_order now ops
  | OpForget _ :: ops => in_order t ops
  end.

(** The limiter answers as the contract does from time [t] on. *)
Definition agrees (t : Z) (l : OrphanGoodbyeLimiter.t) (sent : list (Z * Z * Z)) : Prop :=
  ∀ now c ch, t ≤ now →
    is_some_and (OrphanGoodbyeLimiter.within_interval now) (default ∅ (l !! c) !! ch)
    = sent_recently sent now c ch.

Lemma within_older now now' t :
  now ≤ now' → OrphanGoodbyeLimiter.within_interval now' t = true →
  OrphanGoodbyeLimiter.within_interval now t = true.
Proof. unfold OrphanGoodbyeLimiter.within_interval. rewrite !Z.ltb_lt. lia. Qed.

Lemma pruned_lookup (m : gmap Z Z) now now' ch :
  now ≤ now' →
  is_some_and (OrphanGoodbyeLimiter.within_interval now')
    (filter (λ e, OrphanGoodbyeLimiter.within_interval now e.2 = true) m !! ch)
  = is_some_and (OrphanGoodbyeLimiter.within_interval now') (m !! ch).
Proof.
  intros Hle. destruct (m !! ch) as [t|] eqn:Hm.
  - destruct (OrphanGoodbyeLimiter.within_interval now t) eqn:Hw.
    + by rewrite (map_lookup_filter_Some_2 _ m ch t Hm Hw).
    + rewrite (proj2 (map_lookup_filter_None _ m ch)); simpl.
      * destruct (OrphanGoodbyeLimiter.within_interval now' t) eqn:Hw'; [|done].
        apply (within_older now now' t Hle) in Hw'. congruence.
      * right. intros t' Ht'. simpl. congruence.
  - by rewrite (proj2 (map_lookup_filter_None _ m ch)) by by left.
Qed.

#[local] Opaque ORPHAN_ROUTE_GOODBYE_PRUNE_AT.

Lemma claim_agrees t l sent now c ch :
  agrees t l sent → t ≤ now →
  (contract_step sent (OpClaim now c ch)).1 = (limiter_step l (OpClaim now c ch)).1 ∧
  agrees now (limiter_step l (OpClaim now c ch)).2 (contract_step sent (OpClaim now c ch)).2.
Proof.
  intros Hag Ht. simpl. unfold OrphanGoodbyeLimiter.claim. rewrite <-(Hag now c ch Ht).
  destruct (is_some_and _ _) eqn:Hrec; simpl.
  { split; [done|]. intros now' c' ch' Hn. rewrite <-(Hag now' c' ch') by lia.
    destruct (decide (c' = c)) as [->|]; [by rewrite lookup_insert_eq|by rewrite lookup_insert_ne]. }
  split; [done|]. intros now' c' ch' Hn. simpl. rewrite <-(Hag now' c' ch') by lia.
  destruct (decide (c' = c)) as [->|Hc].
  2: { rewrite lookup_insert_ne by done. by rewrite (proj2 (Z.eqb_neq c c')) by congruence. }
  rewrite lookup_insert_eq, Z.eqb_refl. simpl. destruct (decide (ch' = ch)) as [->|Hch].
  - rewrite lookup_insert_eq, Z.eqb_refl. simpl.
    destruct (is_some_and (OrphanGoodbyeLimiter.within_interval now') _) eqn:Hold; [|by rewrite orb_false_r].
    rewrite Hag in Hold by lia. exfalso. rewrite Hag in Hrec by done.
    enough (sent_recently sent now c ch = true) by congruence. unfold sent_recently in *.
    apply existsb_exists in Hold as ([[c1 ch1] t1] & Hin & Hp). apply existsb_exists.
    exists (c1, ch1, t1). split; [done|]. rewrite !andb_true_iff in *. destruct Hp as [Hkey Hw].
    split; [done|]. by eapply within_older.
  - rewrite lookup_insert_ne by done. rewrite (proj2 (Z.eqb_neq ch ch')) by congruence. simpl.
    destruct (Nat.leb _ _); [by apply pruned_lookup|done].
Qed.

Lemma forget_agrees t l sent c :
  agrees t l sent → agrees t (OrphanGoodbyeLimiter.forget_connection l c) (filter (λ e, e.1.1 ≠ c) sent).
Proof.
  intros Hag now c' ch Hn. unfold OrphanGoodbyeLimiter.forget_connection.
  destruct (decide (c' = c)) as [->|Hc].
  - rewrite lookup_delete_eq. simpl. clear Hag. unfold sent_recently. induction sent as [|[[c1 ch1] t1] sent IH]; [done|].
    rewrite filter_cons. simpl. case_decide as Hd; simpl; [|done].
    rewrite (proj2 (Z.eqb_neq c1 c)) by done. done.
  - rewrite lookup_delete_ne by done. rewrite (Hag now c' ch Hn). clear Hag. unfold sent_recently.
    induction sent as [|[[c1 ch1] t1] sent IH]; [done|]. rewrite filter_cons. simpl.
    case_decide as Hd; simpl; [by rewrite IH|]. assert (c1 = c) as -> by (destruct (decide (c1 = c)); tauto).
    by rewrite (proj2 (Z.eqb_neq c c')) by congruence.
Qed.

Lemma answers_agree t l sent ops :
  agrees t l sent → in_order t ops → answers limiter_step l ops = answers contract_step sent ops.
Proof.
  revert t l sent. induction ops as [|[now c ch|c] ops IH]; intros t l sent Hag Ho; [done|..].
  - destruct Ho as [Ht Ho]. destruct (claim_agrees t l sent now c ch Hag Ht) as [Hb Hag'].
    cbn [answers]. destruct (limiter_step l (OpClaim now c ch)) as [b1 l1], (contract_step sent (OpClaim now c ch)) as [b2 s2].
    simpl in *. f_equal; [done|]. by eapply IH.
  - simpl in Ho. cbn [answers limiter_step contract_step]. f_equal. eapply IH; [|exact Ho]. by apply forget_agrees.
Qed.

(** ** Runs in a daemon *)

Section runs.
Context `{Semaphore} `{HashOrder} `{AttributeJson} `{ProofCrypto} `{RouteOpenJson}.

Lemma set_routes_reachable owners (w : World) fw :
  daemon_reachable owners (daemon w) → fw_op (fw_of w) fw → daemon_reachable owners (daemon (set_routes w fw)).
Proof. intros Hw Hop. eapply dr_step; [exact Hw|]. by apply ds_forwarding. Qed.

Lemma interferes_reachable owners (w w' : World) :
  daemon_reachable owners (daemon w) → interferes w w' → daemon_reachable owners (daemon w').
Proof. intros Hw [[Hstep| ->] _]; [by eapply dr_step|done]. Qed.

Lemma perform_reachable owners (w : World) a x w' :
  daemon_reachable owners (daemon w) → perform w a x w' → daemon_reachable owners (daemon w').
Proof.
  intros Hw. destruct a; cbn [perform].
  all: try by intros [_ ->].
  all: try by intros ->.
  - destruct (try_admit_request _ _ _ _ _) as [fw' admission] eqn:Hop. intros [_ ->].
    apply set_routes_reachable; [done|]. replace fw' with (try_admit_request (fw_of w) route epoch corr subscription).1
      by by rewrite Hop. apply op_request.
  - destruct (release_module_route _ _ _ _) as [[fw' effects] release] eqn:Hop. intros [_ ->].
    apply set_routes_reachable; [done|]. replace fw' with (release_module_route (fw_of w) connection_id channel epoch).1.1
      by by rewrite Hop. apply op_release_module.
  - destruct (release_client_route _ _ _) as [[fw' effects] release] eqn:Hop. intros [_ ->].
    apply set_routes_reachable; [done|].
    replace fw' with (release_client_route (fw_of w) (ClientRouteKey.mk connection_id channel) epoch).1.1
      by by rewrite Hop. apply op_release_client.
  - destruct (escalate_client_delivery_failure _ _ _ _ _) as [[fw' effects] closed] eqn:Hop. intros [_ ->].
    apply set_routes_reachable; [done|].
    replace fw' with (escalate_client_delivery_failure (fw_of w) connection_id channel epoch code).1.1
      by by rewrite Hop. apply op_escalate.
  - by intros (flow & _ & _ & ->).
  - intros (flow & _ & _ & ->). apply set_routes_reachable; [done|]. apply op_flow, flow_op_warn.
  - intros (flow & _ & Hx). destruct x; destruct Hx as [_ ->]; [|done].
    apply set_routes_reachable; [done|]. apply op_flow, flow_op_permit.
  - intros (flow & _ & _ & ->). apply set_routes_reachable; [done|]. apply op_flow, flow_op_recorded.
  - intros (flow & _ & _ & ->). apply set_routes_reachable; [done|]. apply op_flow, flow_op_release.
  - destruct (OrphanGoodbyeLimiter.claim _ _ _ _). by intros [_ ->].
  - intros [Hsteps _]. revert Hw. induction Hsteps as [|d1 d2 d3 Hs _ IH]; [done|].
    intros Hd. apply IH. by eapply dr_step.
  - by intros [].
Qed.

(** ** The contract of the splice *)

Abbreviation client_handle route :=
  (RouteBinding.client_connection_id route, RouteBinding.client_channel route, RouteBinding.client_epoch route).
Abbreviation module_handle route :=
  (ModuleEndpointId.connection_id (RouteBinding.module_endpoint route), RouteBinding.module_channel route,
   RouteBinding.module_epoch route).

(** In some reachable state the route was bound, under the authority it needs. *)
Definition stood (owners : list string) (route : RouteBinding.t) : Prop :=
  ∃ d, daemon_reachable owners d ∧
    client_to_module (routes_of d) !! RouteBinding.client_key route = Some route ∧
    ∀ b, RouteBinding.scope route = Some b →
         authorized (scopes_of d) b (RouteBinding.principal route) (RouteBinding.module_id route).

Section delivery.
Context `{ErrorJson} (owners : list string) (ctx : RouteCtx.t) (frame : Frame.t).

Abbreviation handle := (RouteCtx.connection_id ctx, channel_of frame, epoch_of_frame frame).

(** The frames one frame may cause, and where they may go. *)
Inductive delivery : Sink → Frame.t → Prop :=
  | relay_to_module route :
      stood owners route → handle = client_handle route → type_of frame ≠ FrameType.Goodbye →
      delivery (RouteBinding.module_sink route)
        (relayed frame (RouteBinding.module_channel route) (RouteBinding.module_epoch route))
  | relay_to_client route :
      stood owners route → handle = module_handle route →
      (type_of frame = FrameType.Goodbye ∨ queued_frame_bytes frame ≤ CONNECTION_EGRESS_BYTE_BUDGET) →
      delivery (RouteBinding.client_sink route)
        (relayed frame (RouteBinding.client_channel route) (RouteBinding.client_epoch route))
  | notify_module route goodbye :
      stood owners route → handle = client_handle route → type_of frame = FrameType.Goodbye →
      type_of goodbye = FrameType.Goodbye → flags_of goodbye = control_flags → Frame.body goodbye = [] →
      channel_of goodbye = RouteBinding.module_channel route →
      epoch_of_frame goodbye = RouteBinding.module_epoch route →
      delivery (RouteBinding.module_sink route) goodbye
  | notify_orphan goodbye :
      type_of goodbye = FrameType.Goodbye → flags_of goodbye = control_flags → Frame.body goodbye = [] →
      channel_of goodbye = channel_of frame → epoch_of_frame goodbye = epoch_of_frame frame →
      delivery (RouteCtx.egress ctx) goodbye
  | answer error :
      daemon_authored error → corr_of error = corr_of frame → delivery (RouteCtx.egress ctx) error
  | refuse_request route error :
      stood owners route → handle = client_handle route → daemon_authored error →
      channel_of error = channel_of frame → epoch_of_frame error = epoch_of_frame frame →
      corr_of error = corr_of frame → delivery (RouteBinding.client_sink route) error
  | replace_reply route error :
      stood owners route → handle = module_handle route → daemon_authored error →
      channel_of error = RouteBinding.client_channel route →
      epoch_of_frame error = RouteBinding.client_epoch route →
      corr_of error = corr_of frame → delivery (RouteBinding.client_sink route) error.

Lemma bound_stood d route :
  daemon_reachable owners d →
  client_to_module (routes_of d) !! RouteBinding.client_key route = Some route → stood owners route.
Proof.
  intros Hd Hr. exists d. split_and!; [done..|]. intros b. apply (jt_routes _ _ _ (reachable_joint owners d Hd) _ _ _ Hr).
Qed.

Lemma client_lookup_stood (w : World) c ch ep route :
  daemon_reachable owners (daemon w) →
  lookup_data_route (fw_of w) c ch ep = ClientSide (DataRouteState.Bound route) →
  stood owners route ∧ (c, ch, ep) = client_handle route.
Proof.
  intros Hw Hl. pose proof (jt_fw _ _ _ (reachable_joint owners _ Hw)) as Hok.
  destruct (lookup_client_handle _ _ _ _ _ Hok Hl) as [Hh Hr]. split; [|done].
  apply (bound_stood (daemon w) _ Hw). injection Hh as -> -> _. exact Hr.
Qed.

Lemma module_lookup_stood (w : World) c ch ep route :
  daemon_reachable owners (daemon w) →
  lookup_data_route (fw_of w) c ch ep = ModuleSide (DataRouteState.Bound route) →
  stood owners route ∧ (c, ch, ep) = module_handle route.
Proof.
  intros Hw Hl. pose proof (jt_fw _ _ _ (reachable_joint owners _ Hw)) as Hok.
  destruct (lookup_module_handle _ _ _ _ _ Hok Hl) as [Hh _]. split; [|done].
  apply (bound_stood (daemon w) _ Hw), (lookup_module_bound _ _ Hok). injection Hh as <- <- <-. exact Hl.
Qed.

Lemma module_release_stood (w : World) c ch ep target w' :
  daemon_reachable owners (daemon w) →
  perform w (ReleaseModuleRoute c ch ep) (RouteRelease.Removed target) w' →
  ∃ route, stood owners route ∧ (c, ch, ep) = module_handle route ∧ target = client_goodbye route.
Proof.
  intros Hw. cbn [perform]. unfold release_module_route.
  destruct (endpoint_by_connection (fw_of w) !! c) as [e|] eqn:He; [|by intros [[=] _]].
  unfold release_module_route_locked.
  destruct (module_to_client (fw_of w) !! ModuleRouteKey.mk e ch) as [route|] eqn:Hr; [|by intros [[=] _]].
  destruct (RouteBinding.module_epoch route =? ep) eqn:Hep; cbn [negb]; [|by intros [[=] _]].
  intros [[= ->] _]. exists route.
  destruct (module_lookup_stood w c ch ep route Hw) as [Hs Hh]; [|done].
  unfold lookup_data_route. by rewrite He, Hr, Hep.
Qed.

Lemma client_release_stood (w : World) c ch ep target w' :
  daemon_reachable owners (daemon w) →
  perform w (ReleaseClientRoute c ch ep) (RouteRelease.Removed target) w' →
  ∃ route, stood owners route ∧ (c, ch, ep) = client_handle route ∧ target = module_goodbye route.
Proof.
  intros Hw. cbn [perform]. unfold release_client_route.
  destruct (client_to_module (fw_of w) !! ClientRouteKey.mk c ch) as [route|] eqn:Hr; [|by intros [[=] _]].
  destruct (RouteBinding.client_epoch route =? ep) eqn:Hep; cbn [negb]; [|by intros [[=] _]].
  intros [[= ->] _]. exists route. apply Z.eqb_eq in Hep.
  pose proof (jt_fw _ _ _ (reachable_joint owners _ Hw)) as Hok.
  destruct (ix_client _ _ _ _ (fw_index _ _ Hok) _ route Hr) as [Hk _].
  split_and!; [|by injection Hk as -> ->; subst|done]. apply (bound_stood (daemon w) _ Hw). by rewrite Hk.
Qed.

(** What an event of a run says about the daemon it happened in. *)
Lemma looked_up_event (h : list Event) c ch ep state :
  (c, ch, ep, state) ∈ lookups h → ev (LookupDataRoute c ch ep) state ∈ h.
Proof.
  intros ([a x] & Hin & Hl)%list_elem_of_omap. destruct a; try done. by injection Hl as <- <- <- <-.
Qed.

Lemma released_event (h : list Event) kind c ch ep target :
  (kind, c, ch, ep, target) ∈ releases h →
  match kind with
  | ToClient => ev (ReleaseModuleRoute c ch ep) (RouteRelease.Removed target) ∈ h
  | ToModule => ev (ReleaseClientRoute c ch ep) (RouteRelease.Removed target) ∈ h
  end.
Proof.
  intros ([a x] & Hin & Hl)%list_elem_of_omap. destruct a; try done; simpl in *; destruct x; try done;
    by injection Hl as <- <- <- <- <-.
Qed.

Lemma goodbye_fields ver ch ep f :
  Frame.build_with_version ver FrameType.Goodbye control_flags ch ep 0 [] = Ok f →
  type_of f = FrameType.Goodbye ∧ flags_of f = control_flags ∧ Frame.body f = [] ∧
  channel_of f = ch ∧ epoch_of_frame f = ep.
Proof. by intros [= <-]. Qed.

(** What the history allows is what the contract allows. *)
Lemma outbound_delivery h sink f :
  (∀ a x, ev a x ∈ h → ∃ w1 w2 : World, daemon_reachable owners (daemon w1) ∧ perform w1 a x w2) →
  outbound ctx frame h sink f → delivery sink f.
Proof.
  intros Hev Hout. destruct Hout as
    [route Hf Hg _|route Hf Hg Hsize _|target Hg Hr|target goodbye Hg Hr Hb|goodbye Hg _ Hb|error Ha Hc
    |route error Hf Ha Hch Hep Hc|route error Hf Ha Hch Hep Hc].
  - destruct (Hev _ _ (looked_up_event _ _ _ _ _ Hf)) as (w1 & w2 & Hw1 & Hx & _).
    destruct (client_lookup_stood _ _ _ _ _ Hw1 (eq_sym Hx)). by apply relay_to_module.
  - destruct (Hev _ _ (looked_up_event _ _ _ _ _ Hf)) as (w1 & w2 & Hw1 & Hx & _).
    destruct (module_lookup_stood _ _ _ _ _ Hw1 (eq_sym Hx)). apply relay_to_client; [done..|by right].
  - destruct (Hev _ _ (released_event _ _ _ _ _ _ Hr)) as (w1 & w2 & Hw1 & Hx).
    destruct (module_release_stood _ _ _ _ _ _ Hw1 Hx) as (route & Hs & Hh & ->).
    apply relay_to_client; [done..|by left].
  - destruct (Hev _ _ (released_event _ _ _ _ _ _ Hr)) as (w1 & w2 & Hw1 & Hx).
    destruct (client_release_stood _ _ _ _ _ _ Hw1 Hx) as (route & Hs & Hh & ->).
    apply goodbye_fields in Hb as (? & ? & ? & ? & ?). by apply (notify_module route).
  - apply goodbye_fields in Hb as (? & ? & ? & ? & ?). by apply notify_orphan.
  - by apply answer.
  - destruct (Hev _ _ (looked_up_event _ _ _ _ _ Hf)) as (w1 & w2 & Hw1 & Hx & _).
    destruct (client_lookup_stood _ _ _ _ _ Hw1 (eq_sym Hx)). by apply (refuse_request route).
  - destruct (Hev _ _ (looked_up_event _ _ _ _ _ Hf)) as (w1 & w2 & Hw1 & Hx & _).
    destruct (module_lookup_stood _ _ _ _ _ Hw1 (eq_sym Hx)). by apply (replace_reply route).
Qed.

(** Only what the daemon wrote itself carries its origin bit. *)
Lemma delivery_origin sink f :
  delivery sink f → Flags.is_daemon_origin (flags_of f) = true → daemon_authored f ∧ corr_of f = corr_of frame.
Proof.
  assert (∀ f ch ep, Flags.is_daemon_origin (flags_of (relayed f ch ep)) = false) as Hrel.
  { intros g ch ep. unfold Flags.is_daemon_origin, flags_of, relayed, Flags.without_daemon_origin. simpl.
    by rewrite <-Z.land_assoc, Z.land_0_r. }
  destruct 1; rewrite ?Hrel; try done;
    match goal with H : flags_of _ = control_flags |- _ => by rewrite H end.
Qed.
End delivery.

(** ** Theorems *)

Context `{ErrorJson}.

(** C3: A routed frame goes nowhere but to the other end of its own route.
    While the daemon handles one frame of a connection, with any of its other
    work in between and even if it is cut short, every frame it offers to a
    queue is the frame itself under the handle of the peer of the route it was
    sent on, a GOODBYE for that route or for the handle no route has, or an
    error of the daemon under the frame's correlation id.  The route was bound,
    under the scope authority it needs; and nothing but the daemon's own errors
    carries the daemon's origin bit. *)
Theorem relay_confined owners (backends : gmap Z Backend) ctx frame (w : World) tr w' rest e sink f :
  daemon_reachable owners (daemon w) →
  channel_of frame ≠ 0 → backends !! channel_of frame = None →
  run perform interferes w (serve_frame backends ctx frame) tr w' rest →
  e ∈ tr → offered e = Some (sink, f) →
  delivery owners ctx frame sink f ∧
  (Flags.is_daemon_origin (flags_of f) = true → daemon_authored f ∧ corr_of f = corr_of frame).
Proof.
  intros Hw Hch Hb Hrun (tr1 & tr2 & ->)%list_elem_of_split Hoff.
  destruct (wp_run _ _ _ _ _ _ _ _ _ _ (serve_frame_confined ctx frame backends Hch Hb) Hrun) as [Hconf _].
  specialize (Hconf tr1 e tr2 eq_refl sink f Hoff). simpl in Hconf.
  destruct (@run_event router_signature World perform interferes _ (λ w, daemon_reachable owners (daemon w)) _ _ _ _ _
    (interferes_reachable owners) (perform_reachable owners) Hw Hrun) as [_ Hev].
  assert (delivery owners ctx frame sink f) as Hd.
  { eapply outbound_delivery; [|exact Hconf]. intros a x Hin. apply Hev, elem_of_app. by left. }
  split; [done|]. by eapply delivery_origin.
Qed.

(** C4: A client may retry what the daemon says was not delivered.  Once the
    daemon offered a client's frame to its module, the only thing it still says
    about the frame is [backend_error]: never [unknown_channel],
    [stale_route_epoch], [module_reloading] or [route_busy]. *)
Theorem forwarded_then_backend_error (backends : gmap Z Backend) ctx frame (w : World) tr w' rest tr1 e tr2 sink f :
  channel_of frame ≠ 0 → backends !! channel_of frame = None →
  run perform interferes w (serve_frame backends ctx frame) tr w' rest →
  tr = tr1 ++ e :: tr2 → forwards tr1 ≠ [] → offered e = Some (sink, f) →
  sink = RouteCtx.egress ctx ∧
  ∃ epoch message,
    error_frame (channel_of frame) epoch (corr_of frame) "backend_error" message = Some f.
Proof.
  intros Hch Hb Hrun Htr.
  destruct (wp_run _ _ _ _ _ _ _ _ _ _ (serve_frame_safe ctx frame backends Hch Hb) Hrun) as [Hsafe _].
  intros Hf Hoff. exact (Hsafe tr1 e tr2 Htr Hf sink f Hoff).
Qed.

(** C18: Every request credit is settled.  Once a frame is handled, a request a
    module took holds one credit of its route; one that was refused, or that
    the module's queue did not take, holds none.  A module's frame gives the
    credit of its request back, and once, exactly if it ends the request: it is a
    RESPONSE, an ERROR or a STREAM_END, or it belongs to an answer and is too
    large for any client; whether or not the client takes it.  And what the client
    does get is of a type that ends a request exactly if the credit was given
    back. *)
Theorem credits_settled (backends : gmap Z Backend) ctx frame (w : World) tr w' r :
  channel_of frame ≠ 0 → backends !! channel_of frame = None →
  run perform interferes w (serve_frame backends ctx frame) tr w' (Ret r) →
  ∃ found l,
    tr = ev (LookupDataRoute (RouteCtx.connection_id ctx) (channel_of frame) (epoch_of_frame frame)) found :: l ∧
    settled ctx frame found l r.
Proof. intros Hch Hb Hrun. eapply serve_frame_settled; [done..|]. by eapply run_traces. Qed.
End runs.

(** C35: The limiter keeps its contract: a claim is granted exactly when no
    claim of that connection and channel was granted in the last five seconds;
    pruning old entries never changes an answer, and a connection that ended
    leaves nothing behind. *)
Theorem limiter_exact t ops :
  in_order t ops → answers limiter_step ∅ ops = answers contract_step [] ops.
Proof. apply answers_agree. intros now c ch _. by rewrite lookup_empty. Qed.

(** ** The egress queue *)

(** C34: The accounting of an egress queue is exact under every interleaving of
    its senders, frames and writer: the counters are the bytes, frames and
    waiters outstanding, and the frames that went through the budget check stay
    within it, but for a single frame that has the check to itself. *)
Theorem egress_accounting_exact budget q :
  0 ≤ budget < 2 ^ 64 - 1 → egress_reachable budget q →
  EgressAccounting.queued_bytes (accounting q) = msum bytes_of (charges q) ∧
  EgressAccounting.queued_frames (accounting q) = wrap 64 (msum frames_of (charges q)) ∧
  EgressAccounting.waiters (accounting q) = msum waits (senders q) ∧
  (msum plain_bytes_of (charges q) ≤ budget ∨ msum plain_frames_of (charges q) = 1).
Proof.
  intros Hb Hq. destruct (egress_reachable_ok budget Hb q Hq). tauto.
Qed.

(** C19: No wake-up is lost: while a sender is parked, some frame is on the
    queue; if there is room for the sender, a release is under way that will
    find it counted and notify it. *)
Theorem no_lost_wakeup budget q id n :
  0 ≤ budget < 2 ^ 64 - 1 → egress_reachable budget q →
  senders q !! id = Some (mkSender n Parked false) →
  charges q ≠ ∅ ∧
  (EgressAccounting.has_room (accounting q) n = true →
   ∃ cid q', is_Some (charges q !! cid) ∧ runs_release cid q q' ∧
             senders q' !! id = Some (mkSender n Parked true)).
Proof.
  intros Hb Hq Hs. pose proof (egress_reachable_ok budget Hb q Hq) as Hok.
  assert (EgressAccounting.has_room (accounting q) n = true →
    ∃ cid c, charges q !! cid = Some c ∧ releasing c = true) as Hrel.
  { intros Hroom. destruct (qk_parked _ _ Hok id n Hs) as [Hno|?]; [congruence|done]. }
  split.
  - intros Hempty. destruct Hrel as (cid & c & Hc & _).
    + unfold EgressAccounting.has_room. by rewrite (qk_bytes _ _ Hok), Hempty, msum_empty.
    + by rewrite Hempty, lookup_empty in Hc.
  - intros (cid & c & Hc & Hr)%Hrel.
    destruct (release_runs q cid c Hc Hr (parked_counted budget q id n false Hok Hs)) as (q' & Hruns).
    exists cid, q'. split_and!; [done..|]. destruct Hruns as (_ & _ & ->). by rewrite lookup_fmap, Hs.
Qed.

(** ** The theorems at work *)

#[local] Existing Instances counting tree_hash_order empty_json plain_proofs empty_body.

(** A request on the route of [daemon5] whose module's queue is gone: its credit
    is given back, and the client is told. *)
Definition plain_errors : ErrorJson := λ _ _ _, Some [].
#[local] Existing Instance plain_errors.

Definition ctx5 : RouteCtx.t := RouteCtx.mk 9 2.
Definition request5 : Frame.t :=
  Frame.mk (EnvelopeHeader.mk 0 1 FrameType.Request (Flags.new false Priority.Interactive false) 1 1 77) [].
Definition relayed5 : Frame.t :=
  relayed request5 (RouteBinding.module_channel route5) (RouteBinding.module_epoch route5).
Definition gone5 : RouterError :=
  BackendError 1 1 77 (display (backend_error_for relayed5 "connection writer closed")).
Definition told5 : Frame.t :=
  default request5 (to_error_frame gone5).

Definition world0 : World := mkWorld daemon5 ∅ ∅ 0.
Definition world1 : World := set_routes world0 (try_admit_request (fw_of world0) route5 1 77 false).1.
Definition world2 : World :=
  mkWorld (daemon world1) ∅ (warn_frame_drop ∅ 0 9 1 "endpoint_gone").2 0.
Definition world3 : World :=
  set_routes world2 (with_flow (fw_of world2) (RouteBinding.addr route5) (λ f, ChannelFlow.release_corr f 77)).

Definition offer5 : Event := ev (Send (RouteBinding.module_sink route5) relayed5) false.
Definition answer5 : Event := ev (Send 2 told5) true.

Definition trace5 : list Event :=
  [ ev (LookupDataRoute 9 1 1) (ClientSide (DataRouteState.Bound route5));
    ev (FlowBusyRefusals (RouteBinding.addr route5)) true;
    ev (TryAdmitRequest route5 1 77 false) IsAdmitted;
    offer5;
    ev (WarnFrameDrop 9 1 1 "client_to_module" "endpoint_gone") tt;
    ev (FlowReleaseCorr (RouteBinding.addr route5) 77) tt;
    answer5 ].

(** One action of the run, and the world it leads to. *)
Ltac next_action w :=
  refine (@run_act router_signature World perform interferes _ _ w _ _ _ _ _ _ _ _).

Lemma run5 : run perform interferes world0 (serve_frame ∅ ctx5 request5) trace5 world3 (Ret (Ok tt)).
Proof.
  next_action world0.
  { split; [vm_compute; reflexivity|reflexivity]. }
  next_action world0.
  { eexists. split; [vm_compute; reflexivity|split; reflexivity]. }
  next_action world1.
  { cbn [perform]. unfold world1. rewrite (surjective_pairing (try_admit_request _ _ _ _ _)).
    split; [vm_compute; reflexivity|reflexivity]. }
  next_action world1; [reflexivity|].
  next_action world2; [reflexivity|].
  next_action world3.
  { eexists. split; [vm_compute; reflexivity|split; reflexivity]. }
  next_action world3; [reflexivity|].
  apply run_nil.
Qed.

Lemma relay_confined_witness :
  delivery ["mod-a"] ctx5 request5 (RouteBinding.module_sink route5) relayed5.
Proof.
  refine (proj1 (relay_confined ["mod-a"] ∅ ctx5 request5 world0 trace5 world3 (Ret (Ok tt)) offer5 _ _
    daemon5_reachable _ _ run5 _ _)).
  - done.
  - apply lookup_empty.
  - unfold trace5. do 3 apply list_elem_of_further. apply list_elem_of_here.
  - reflexivity.
Defined.

Lemma forwarded_then_backend_error_witness :
  ∃ epoch message, error_frame 1 epoch 77 "backend_error" message = Some told5.
Proof.
  refine (proj2 (forwarded_then_backend_error ∅ ctx5 request5 world0 trace5 world3 (Ret (Ok tt))
    (take 6 trace5) answer5 [] 2 told5 _ _ run5 _ _ _)).
  - done.
  - apply lookup_empty.
  - reflexivity.
  - by vm_compute.
  - reflexivity.
Defined.

(** The module ends a stream on the same route, and the client takes the frame. *)
Definition ctx_tool : RouteCtx.t := RouteCtx.mk 1 1.
Definition end5 : Frame.t :=
  Frame.mk (EnvelopeHeader.mk 0 1 FrameType.StreamEnd (Flags.new false Priority.Interactive true)
    (RouteBinding.module_channel route5) (RouteBinding.module_epoch route5) 77) [].
Definition world_end : World :=
  set_routes world0 (with_flow (fw_of world0) (RouteBinding.addr route5) (λ f, ChannelFlow.release_corr f 77)).
Definition trace_end : list Event :=
  [ ev (LookupDataRoute 1 (RouteBinding.module_channel route5) (RouteBinding.module_epoch route5))
      (ModuleSide (DataRouteState.Bound route5));
    ev (FlowReleaseCorr (RouteBinding.addr route5) 77) tt;
    ev (ClientDeliveryClosed (RouteBinding.client_sink route5)) false;
    ev (TrySend (RouteBinding.client_sink route5)
          (relayed end5 (RouteBinding.client_channel route5) (RouteBinding.client_epoch route5))) None ].

Lemma run_end : run perform interferes world0 (serve_frame ∅ ctx_tool end5) trace_end world_end (Ret (Ok tt)).
Proof.
  next_action world0.
  { split; [vm_compute; reflexivity|reflexivity]. }
  next_action world_end.
  { eexists. split; [vm_compute; reflexivity|split; reflexivity]. }
  next_action world_end; [reflexivity|].
  next_action world_end; [reflexivity|].
  apply run_nil.
Qed.

Lemma credits_settled_witness :
  (∃ found l, trace5 = ev (LookupDataRoute 9 1 1) found :: l ∧ settled ctx5 request5 found l (Ok tt)) ∧
  ends_request end5 ∧ credit_moves trace_end = [GiveBack (RouteBinding.addr route5) 77].
Proof.
  assert (ends_request end5) as Hends by (left; apply (bool_decide_unpack _); vm_compute; exact I).
  split; [|split; [exact Hends|]].
  - refine (credits_settled ∅ ctx5 request5 world0 trace5 world3 (Ok tt) _ _ run5); [done|apply lookup_empty].
  - assert (channel_of end5 ≠ 0) as Hch by (vm_compute; discriminate).
    destruct (credits_settled ∅ ctx_tool end5 world0 trace_end world_end (Ok tt) Hch (lookup_empty _) run_end) as (found & l & Heq & Hs).
    pose proof (f_equal (@tail Event) Heq) as Hl. cbn [tail trace_end] in Hl. subst l.
    pose proof (f_equal (@head Event) Heq) as Hf. cbn [head trace_end] in Hf. apply (inj Some), (f_equal looked_up) in Hf.
    cbn [looked_up ev] in Hf. apply (inj Some), (f_equal snd) in Hf. cbn [snd] in Hf. subst found.
    destruct Hs as (_ & Hmoves & _). rewrite decide_True in Hmoves by exact Hends. exact Hmoves.
Defined.

(** Three frames of a module on a channel it lost, over six seconds. *)
Lemma limiter_exact_witness :
  answers limiter_step ∅ [OpClaim 0 1 5; OpClaim 3000 1 5; OpClaim 6000 1 5] = [Some true; Some false; Some true].
Proof. rewrite (limiter_exact 0); [reflexivity|]. simpl. lia. Defined.

(** A queue of 100 bytes: a frame of 80, a sender that parks for 30 more, and
    the frame's release, up to where its bytes are free. *)
Definition frame80 (p : ChargePhase) : EgressCharge := mkEgressCharge 80 1 false p.
Definition accounting1 : EgressAccounting.t :=
  (EgressAccounting.new 100) <| EgressAccounting.queued_bytes := 80 |>.
Definition accounting2 : EgressAccounting.t := EgressAccounting.add_waiter accounting1.
Definition accounting3 : EgressAccounting.t := (EgressAccounting.count_frame accounting2).2.
Definition accounting4 : EgressAccounting.t :=
  EgressAccounting.free_bytes (EgressAccounting.taken_by_writer accounting3 1) 80.

Definition queue_at (e : EgressAccounting.t) (p : ChargePhase) (s : SenderPhase) : Queue :=
  mkQueue e {[ 0%nat := frame80 p ]} {[ 0%nat := mkSender 30 s false ]}.
Definition queue4 : Queue := queue_at accounting4 Freed Parked.

Lemma reach_queue q q1 q2 :
  egress_reachable 100 q → egress_step q q1 → q1 = q2 → egress_reachable 100 q2.
Proof. intros Hq Hs <-. by eapply egress_next. Qed.

Lemma queue4_reachable : egress_reachable 100 queue4.
Proof.
  eapply (reach_queue (queue_at (EgressAccounting.taken_by_writer accounting3 1) Queued Parked));
    [|by apply (eg_free _ 0 (frame80 Queued))|reflexivity].
  eapply (reach_queue (queue_at accounting3 CountedFirst Parked));
    [|by apply (eg_mark _ 0 (frame80 CountedFirst))|reflexivity].
  eapply (reach_queue (queue_at accounting2 Charged Parked));
    [|by apply (eg_count _ 0 (frame80 Charged) true accounting3)|reflexivity].
  eapply (reach_queue (queue_at accounting2 Charged Listening));
    [|by apply (eg_park _ 0 30 false)|reflexivity].
  eapply (reach_queue (queue_at accounting2 Charged Counting));
    [|by apply (eg_listen _ 0 30 false)|reflexivity].
  eapply (reach_queue (queue_at accounting1 Charged Refused));
    [|by apply (eg_add_waiter _ 0 30 false)|reflexivity].
  eapply (reach_queue (mkQueue accounting1 {[ 0%nat := frame80 Charged ]} ∅));
    [|by apply (eg_wait _ 0 30)|reflexivity].
  eapply reach_queue; [apply egress_initial|by apply (eg_charge _ 0 80 1 accounting1)|reflexivity].
Qed.

Lemma egress_accounting_exact_witness :
  EgressAccounting.queued_bytes (accounting queue4) = msum bytes_of (charges queue4).
Proof. apply (egress_accounting_exact 100 queue4); [lia|apply queue4_reachable]. Defined.

Lemma no_lost_wakeup_witness :
  ∃ cid q', is_Some (charges queue4 !! cid) ∧ runs_release cid queue4 q' ∧
            senders q' !! 0%nat = Some (mkSender 30 Parked true).
Proof.
  refine (proj2 (no_lost_wakeup 100 queue4 0%nat 30 _ queue4_reachable _) _); [lia|reflexivity..].
Defined.
