(* ===== verification/Jsonc.v ===== *)
(** * JSON with comments ([crates/subc-jsonc])

    The normaliser, the tokenizer and the parser of [lib.rs], and the edits of
    [edit.rs] that change a document in place.  A document is the list of its
    UTF-8 bytes; offsets count bytes, as in the source.  What serde_json does
    with a string literal or a value is a parameter. *)

From S2P Require Import Prelude.

#[local] Open Scope nat_scope.

Abbreviation text := (list byte) (only parsing).

Definition NUL : byte := Byte.x00.
Definition TAB : byte := Byte.x09.
Definition NEWLINE : byte := Byte.x0a.
Definition FORM_FEED : byte := Byte.x0c.
Definition CR : byte := Byte.x0d.
Definition SPACE : byte := Byte.x20.
Definition QUOTE : byte := Byte.x22.
Definition STAR : byte := Byte.x2a.
Definition COMMA : byte := Byte.x2c.
Definition SLASH : byte := Byte.x2f.
Definition COLON : byte := Byte.x3a.
Definition LEFT_BRACKET : byte := Byte.x5b.
Definition BACKSLASH : byte := Byte.x5c.
Definition RIGHT_BRACKET : byte := Byte.x5d.
Definition LEFT_BRACE : byte := Byte.x7b.
Definition RIGHT_BRACE : byte := Byte.x7d.

(** [u8::is_ascii_whitespace] *)
Definition is_ascii_whitespace (b : byte) : bool :=
  bool_decide (b ∈ [TAB; NEWLINE; FORM_FEED; CR; SPACE]).

(** The encodings of the characters [char::is_whitespace] accepts. *)
Definition whitespace_chars : list text :=
  [[TAB]; [NEWLINE]; [Byte.x0b]; [FORM_FEED]; [CR]; [SPACE]; [Byte.xc2; Byte.x85]; [Byte.xc2; Byte.xa0];
   [Byte.xe1; Byte.x9a; Byte.x80]]
  ++ ((λ b, [Byte.xe2; Byte.x80; b]) <$>
        [Byte.x80; Byte.x81; Byte.x82; Byte.x83; Byte.x84; Byte.x85; Byte.x86; Byte.x87; Byte.x88; Byte.x89;
         Byte.x8a; Byte.xa8; Byte.xa9; Byte.xaf])
  ++ [[Byte.xe2; Byte.x81; Byte.x9f]; [Byte.xe3; Byte.x80; Byte.x80]].

(** Drops a leading whitespace character, if there is one. *)
Definition strip_space (chars : list text) (t : text) : option text :=
  match List.find (λ w, bool_decide (w `prefix_of` t)) chars with
  | Some w => Some (drop (length w) t)
  | None => None
  end.

Fixpoint skip_spaces (fuel : nat) (chars : list text) (t : text) : text :=
  match fuel with
  | O => t
  | S fuel => match strip_space chars t with Some t => skip_spaces fuel chars t | None => t end
  end.

Definition trim_start (t : text) : text := skip_spaces (length t) whitespace_chars t.
Definition trim_end (t : text) : text :=
  reverse (skip_spaces (length t) (reverse <$> whitespace_chars) (reverse t)).
Definition trim (t : text) : text := trim_end (trim_start t).

(** ** Normalising *)

(** The refusals, a constructor per message of the source. *)
Inductive JsoncError :=
  | UnterminatedComment
  | UnterminatedString
  | UnterminatedCommentAt (offset : nat)
  | UnterminatedStringAt (offset : nat)
  | InvalidStringAt (offset : nat) (error : text)
  | UnexpectedByteAt (offset : nat)
  | ExpectedValue
  | ExpectedValueAt (offset : nat)
  | ExpectedKeyAt (offset : nat)
  | MissingColon
  | ExpectedColonAt (offset : nat)
  | ExpectedCommaOrBraceAt (offset : nat)
  | ExpectedCommaOrBracketAt (offset : nat)
  | UnterminatedObject
  | UnterminatedArray
  | ContentAfterRoot
  | RootNotObject
  | EmptyPath
  | NotAnObject (path : list text)
  | NotAnArray (path : list text)
  | AlreadyExists (path : list text)
  | IsAbsent (path : list text)
  | NoElement (path : list text) (count index : nat)
  | ParentAbsent
  | NoFinalMember
  | ParentDisappeared.

Inductive StripState :=
  | Plain
  | InString (escaped : bool)
  | LineComment
  | BlockComment (prev : byte).

Definition push (b : byte) (r : Result text JsoncError) : Result text JsoncError :=
  let! out := r in Ok (b :: out).

(** The state a byte of a string literal leaves the scanner in. *)
Definition after_string_byte (escaped : bool) (ch : byte) : StripState :=
  if escaped then InString false
  else if bool_decide (ch = BACKSLASH) then InString true
  else if bool_decide (ch = QUOTE) then Plain
  else InString false.

Fixpoint strip_comments (st : StripState) (doc : text) : Result text JsoncError :=
  match doc with
  | [] =>
      match st with
      | InString _ => Err UnterminatedString
      | BlockComment _ => Err UnterminatedComment
      | Plain | LineComment => Ok []
      end
  | ch :: rest =>
      match st with
      | InString escaped => push ch (strip_comments (after_string_byte escaped ch) rest)
      | LineComment =>
          if bool_decide (ch = NEWLINE) then push NEWLINE (strip_comments Plain rest)
          else strip_comments LineComment rest
      | BlockComment prev =>
          let after := if bool_decide (prev = STAR) && bool_decide (ch = SLASH)
                       then strip_comments Plain rest else strip_comments (BlockComment ch) rest in
          if bool_decide (ch = NEWLINE) then push NEWLINE after else after
      | Plain =>
          if bool_decide (ch = QUOTE) then push ch (strip_comments (InString false) rest)
          else if bool_decide (ch = SLASH) then
            match rest with
            | next :: rest' =>
                if bool_decide (next = SLASH) then push SPACE (strip_comments LineComment rest')
                else if bool_decide (next = STAR) then push SPACE (strip_comments (BlockComment NUL) rest')
                else push ch (strip_comments Plain rest)
            | [] => push ch (strip_comments Plain rest)
            end
          else push ch (strip_comments Plain rest)
      end
  end.

(** [out] is what was written so far, last byte first. *)
Definition is_trailing_comma (out rest : text) : bool :=
  match trim_start rest with
  | next :: _ => bool_decide (next ∈ [RIGHT_BRACE; RIGHT_BRACKET])
  | [] => false
  end &&
  match skip_spaces (length out) (reverse <$> whitespace_chars) out with
  | previous :: _ => negb (bool_decide (previous ∈ [LEFT_BRACKET; LEFT_BRACE; COLON; COMMA]))
  | [] => false
  end.

Fixpoint remove_commas (in_string escaped : bool) (out input : text) : text :=
  match input with
  | [] => reverse out
  | ch :: rest =>
      if in_string then
        if escaped then remove_commas true false (ch :: out) rest
        else if bool_decide (ch = BACKSLASH) then remove_commas true true (ch :: out) rest
        else if bool_decide (ch = QUOTE) then remove_commas false false (ch :: out) rest
        else remove_commas true false (ch :: out) rest
      else if bool_decide (ch = QUOTE) then remove_commas true false (ch :: out) rest
      else if bool_decide (ch = COMMA) && is_trailing_comma out rest then remove_commas false false out rest
      else remove_commas false false (ch :: out) rest
  end.

Definition remove_json_trailing_commas (input : text) : text := remove_commas false false [] input.

Definition jsonc_to_json (doc : text) : Result text JsoncError :=
  let! out := strip_comments Plain doc in
  Ok (remove_json_trailing_commas out).

(** ** Tokens *)

Inductive TokenKind :=
  | LeftBrace
  | RightBrace
  | LeftBracket
  | RightBracket
  | Colon
  | Comma
  | StringToken (value : text)
  | Atom.

#[export] Instance token_kind_eq_dec : EqDecision TokenKind.
Proof. solve_decision. Defined.

Record Token := {
  kind : TokenKind;
  token_start : nat;
  token_end : nat;
}.

(** [serde_json::from_str::<String>] *)
Class StringJson := string_from_str : text → Result text text.

(** The scans below take the bytes from the cursor on and return how many of
    them the source's loop moves over. *)
Fixpoint scan_line (rest : text) : nat :=
  match rest with
  | b :: rest => if bool_decide (b = NEWLINE) then 0 else S (scan_line rest)
  | [] => 0
  end.

Fixpoint scan_block (rest : text) : option nat :=
  match rest with
  | a :: rest' =>
      match rest' with
      | b :: _ => if bool_decide (a = STAR) && bool_decide (b = SLASH) then Some 0 else S <$> scan_block rest'
      | [] => None
      end
  | [] => None
  end.

Fixpoint scan_string (escaped : bool) (rest : text) : option nat :=
  match rest with
  | b :: rest =>
      if escaped then S <$> scan_string false rest
      else if bool_decide (b = BACKSLASH) then S <$> scan_string true rest
      else if bool_decide (b = QUOTE) then Some 1
      else S <$> scan_string false rest
  | [] => None
  end.

Definition ends_atom (b : byte) : bool :=
  is_ascii_whitespace b
  || bool_decide (b ∈ [LEFT_BRACE; RIGHT_BRACE; LEFT_BRACKET; RIGHT_BRACKET; COLON; COMMA; QUOTE; SLASH]).

Fixpoint scan_atom (rest : text) : nat :=
  match rest with
  | b :: rest => if ends_atom b then 0 else S (scan_atom rest)
  | [] => 0
  end.

Definition punctuation (b : byte) : option TokenKind :=
  if bool_decide (b = LEFT_BRACE) then Some LeftBrace
  else if bool_decide (b = RIGHT_BRACE) then Some RightBrace
  else if bool_decide (b = LEFT_BRACKET) then Some LeftBracket
  else if bool_decide (b = RIGHT_BRACKET) then Some RightBracket
  else if bool_decide (b = COLON) then Some Colon
  else if bool_decide (b = COMMA) then Some Comma
  else None.

Definition starts_with (first second : byte) (rest : text) : bool :=
  match rest with
  | a :: b :: _ => bool_decide (a = first) && bool_decide (b = second)
  | _ => false
  end.

Section tokenize.
  Context `{StringJson}.

(** What one turn of the loop does with the bytes from the cursor on: how far
    it moves the cursor and the token it pushes, if any. *)
Definition tokenize_step (cursor : nat) (rest : text) : Result (nat * option TokenKind) JsoncError :=
  match rest with
  | [] => Ok (0, None)
  | b :: tail =>
      if is_ascii_whitespace b then Ok (1, None)
      else if starts_with SLASH SLASH rest then Ok (2 + scan_line (drop 2 rest), None)
      else if starts_with SLASH STAR rest then
        let! n := ok_or (scan_block (drop 2 rest)) (UnterminatedCommentAt cursor) in
        Ok (2 + n + 2, None)
      else if bool_decide (b = QUOTE) then
        let! n := ok_or (scan_string false tail) (UnterminatedStringAt cursor) in
        let! value := map_err (InvalidStringAt cursor) (string_from_str (take (1 + n) rest)) in
        Ok (1 + n, Some (StringToken value))
      else
        match punctuation b with
        | Some kind => Ok (1, Some kind)
        | None =>
            let n := scan_atom rest in
            if n =? 0 then Err (UnexpectedByteAt cursor) else Ok (n, Some Atom)
        end
  end.

Fixpoint tokenize_loop (fuel cursor : nat) (rest : text) : Result (list Token) JsoncError :=
  match fuel, rest with
  | S fuel, _ :: _ =>
      let! step := tokenize_step cursor rest in
      let! tokens := tokenize_loop fuel (cursor + step.1) (drop step.1 rest) in
      Ok (match step.2 with
          | Some kind => {| kind := kind; token_start := cursor; token_end := cursor + step.1 |} :: tokens
          | None => tokens
          end)
  | _, _ => Ok []
  end.

(** A turn moves the cursor, so the length of the document bounds the turns. *)
Definition tokenize (doc : text) : Result (list Token) JsoncError := tokenize_loop (length doc) 0 doc.

End tokenize.

(** ** Parsed documents *)

Record ParsedElement := {
  element_start : nat;
  element_end : nat;
  element_comma_before : option nat;
  element_comma_after : option nat;  (** the comma itself *)
}.

Record ParsedArray := {
  opening_bracket : nat;
  closing_bracket : nat;
  elements : list ParsedElement;
  array_trailing_comma : bool;
}.

Inductive ParsedObject := {
  closing_brace : nat;
  members : list ParsedMember;
  has_trailing_comma : bool;
}
with ParsedMember := {
  key : text;
  key_start : nat;
  value_start : nat;
  value_end : nat;
  comma_before : option nat;
  comma_after : option nat;  (** the end of the comma *)
  member_object : option ParsedObject;
  member_array : option ParsedArray;
}.

Record ParsedValue := {
  start : nat;
  end_ : nat;
  object : option ParsedObject;
  array : option ParsedArray;
}.

Abbreviation Parsing T := (option (Result (T * list Token) JsoncError)) (only parsing).

Definition object_value (start : nat) (close : Token) (members : list ParsedMember) (trailing : bool) : ParsedValue :=
  {| start := start;
     end_ := token_end close;
     object := Some {| closing_brace := token_start close; members := members; has_trailing_comma := trailing |};
     array := None |}.

Definition array_value (start : nat) (close : Token) (elements : list ParsedElement) (trailing : bool) : ParsedValue :=
  {| start := start;
     end_ := token_end close;
     object := None;
     array := Some {| opening_bracket := start; closing_bracket := token_start close;
                      elements := elements; array_trailing_comma := trailing |} |}.

(** The parser's cursor is the list of the tokens it has not read.  The loops
    of [parse_object] and [parse_array] are functions of their own; [None] is a
    run out of fuel. *)
Fixpoint parse_value (fuel : nat) (tokens : list Token) : Parsing ParsedValue :=
  match fuel with
  | O => None
  | S fuel =>
      match tokens with
      | [] => Some (Err ExpectedValue)
      | token :: rest =>
          match kind token with
          | LeftBrace =>
              match rest with
              | ({| kind := RightBrace |} as close) :: rest => Some (Ok (object_value (token_start token) close [] false, rest))
              | _ => parse_members fuel (token_start token) [] None rest
              end
          | LeftBracket =>
              match rest with
              | ({| kind := RightBracket |} as close) :: rest => Some (Ok (array_value (token_start token) close [] false, rest))
              | _ => parse_elements fuel (token_start token) [] None rest
              end
          | StringToken _ | Atom =>
              Some (Ok ({| start := token_start token; end_ := token_end token; object := None; array := None |}, rest))
          | _ => Some (Err (ExpectedValueAt (token_start token)))
          end
      end
  end
with parse_members (fuel : nat) (opening : nat) (done : list ParsedMember) (previous_comma : option nat)
    (tokens : list Token) : Parsing ParsedValue :=
  match fuel with
  | O => None
  | S fuel =>
      match tokens with
      | [] => Some (Err UnterminatedObject)
      | {| kind := StringToken k; token_start := key_start |} :: tokens =>
          match tokens with
          | [] => Some (Err MissingColon)
          | {| kind := Colon |} :: tokens =>
              let? parsed := parse_value fuel tokens in
              try! value := parsed in
              let member after :=
                {| key := k; key_start := key_start; value_start := start value.1; value_end := end_ value.1;
                   comma_before := previous_comma; comma_after := after;
                   member_object := object value.1; member_array := array value.1 |} in
              match value.2 with
              | ({| kind := RightBrace |} as close) :: rest =>
                  Some (Ok (object_value opening close (done ++ [member None]) false, rest))
              | ({| kind := Comma |} as comma) :: rest =>
                  let done := done ++ [member (Some (token_end comma))] in
                  match rest with
                  | ({| kind := RightBrace |} as close) :: rest => Some (Ok (object_value opening close done true, rest))
                  | _ => parse_members fuel opening done (Some (token_start comma)) rest
                  end
              | token :: _ => Some (Err (ExpectedCommaOrBraceAt (token_start token)))
              | [] => Some (Err UnterminatedObject)
              end
          | colon :: _ => Some (Err (ExpectedColonAt (token_start colon)))
          end
      | token :: _ => Some (Err (ExpectedKeyAt (token_start token)))
      end
  end
with parse_elements (fuel : nat) (opening : nat) (done : list ParsedElement) (previous_comma : option nat)
    (tokens : list Token) : Parsing ParsedValue :=
  match fuel with
  | O => None
  | S fuel =>
      let? parsed := parse_value fuel tokens in
      try! value := parsed in
      let element after :=
        {| element_start := start value.1; element_end := end_ value.1;
           element_comma_before := previous_comma; element_comma_after := after |} in
      match value.2 with
      | ({| kind := RightBracket |} as close) :: rest =>
          Some (Ok (array_value opening close (done ++ [element None]) false, rest))
      | ({| kind := Comma |} as comma) :: rest =>
          let done := done ++ [element (Some (token_start comma))] in
          match rest with
          | ({| kind := RightBracket |} as close) :: rest => Some (Ok (array_value opening close done true, rest))
          | _ => parse_elements fuel opening done (Some (token_start comma)) rest
          end
      | token :: _ => Some (Err (ExpectedCommaOrBracketAt (token_start token)))
      | [] => Some (Err UnterminatedArray)
      end
  end.

(** A call either reads a token or is the loop of one that just did. *)
Definition parse_fuel (tokens : list Token) : nat := S (2 * length tokens).

(** The value the tokens spell, with nothing after it. *)
Definition parse_whole (tokens : list Token) : Result ParsedValue JsoncError :=
  match parse_value (parse_fuel tokens) tokens with
  | Some (Ok (value, [])) => Ok value
  | Some (Ok (_, _ :: _)) => Err ContentAfterRoot
  | Some (Err error) => Err error
  | None => Err ExpectedValue
  end.

(** ** Spans *)

Record JsoncObjectSpan := {
  span_closing_brace : nat;
  span_is_empty : bool;
  span_last_member_end : option nat;
  span_has_trailing_comma : bool;
}.

(** The member a key names: the first that carries it. *)
Definition find_member (k : text) (o : ParsedObject) : option ParsedMember :=
  List.find (λ m, bool_decide (key m = k)) (members o).

Fixpoint descend (o : ParsedObject) (path : list text) : option ParsedObject :=
  match path with
  | [] => Some o
  | segment :: path =>
      match find_member segment o with
      | Some m => match member_object m with Some child => descend child path | None => None end
      | None => None
      end
  end.

Section spans.
  Context `{StringJson}.

Definition jsonc_member_span (doc : text) (path : list text) : Result (option (nat * nat)) JsoncError :=
  match reverse path with
  | [] => Ok None
  | k :: parents =>
      let! tokens := tokenize doc in
      let! root := parse_whole tokens in
      Ok (o ← object root;
          o ← descend o (reverse parents);
          index ← position (λ m, bool_decide (key m = k)) (members o);
          m ← members o !! index;
          Some match comma_before m, comma_after m, index + 1 =? length (members o) with
               | Some first, Some last, true => (first, last)
               | Some first, None, _ => (first, value_end m)
               | _, Some last, _ => (key_start m, last)
               | None, None, _ => (key_start m, value_end m)
               end)
  end.

Definition jsonc_object_span (doc : text) (path : list text) : Result (option JsoncObjectSpan) JsoncError :=
  let! tokens := tokenize doc in
  let! root := parse_whole tokens in
  Ok (o ← object root;
      o ← descend o path;
      Some {| span_closing_brace := closing_brace o;
              span_is_empty := bool_decide (members o = []);
              span_last_member_end := value_end <$> last (members o);
              span_has_trailing_comma := has_trailing_comma o |}).

End spans.
