(* ===== verification/JsoncEdit.v ===== *)
(** * Edits of a JSONC document in place ([crates/subc-jsonc/src/edit.rs])

    An edit takes the document and returns it as the call leaves it, with the
    call's result; [None] is a panic.  The document is UTF-8, and every offset
    the edits cut at comes from the tokenizer, which stops at ASCII bytes.
    Reading the file ([read_document]) is not modelled. *)

From S2P Require Import Prelude.
From S2P Require Import Jsonc.

#[local] Open Scope nat_scope.

(** ** Values and their renderings *)

(** [serde_json::Value]; a map is the list of its entries as it iterates. *)
Inductive Value (number : Type) :=
  | Null
  | Bool (b : bool)
  | Number (n : number)
  | Str (s : text)
  | Array (l : list (Value number))
  | Object (m : list (text * Value number)).
Arguments Null {_}.
Arguments Bool {_} b.
Arguments Number {_} n.
Arguments Str {_} s.
Arguments Array {_} l.
Arguments Object {_} m.

(** serde_json: [Number], [to_string] of a value and of a key, and
    [to_string_pretty]. *)
Class ValueJson := {
  number : Type;
  string_json : StringJson;
  to_string : Value number → text;
  str_to_string : text → text;
  to_string_pretty : Value number → text;
}.
#[export] Existing Instance string_json.

(** [str]'s [Ord]: bytewise. *)
Fixpoint str_leb (a b : text) : bool :=
  match a, b with
  | [], _ => true
  | _ :: _, [] => false
  | x :: a, y :: b => (byte_val x <? byte_val y)%Z || (byte_val x =? byte_val y)%Z && str_leb a b
  end.

Definition entry_le {V} (left right : text * V) : Prop := str_leb left.1 right.1 = true.

#[export] Instance entry_le_dec {V} : RelDecision (@entry_le V).
Proof. intros x y. unfold entry_le. apply _. Defined.

(** The source sorts the entries and then copies their values; the order looks
    at keys only. *)
Fixpoint sorted_keys {number} (value : Value number) : Value number :=
  match value with
  | Object m => Object (merge_sort entry_le (map (λ kv, (kv.1, sorted_keys kv.2)) m))
  | Array l => Array (map sorted_keys l)
  | other => other
  end.

(** ** Text *)

Definition slice (doc : text) (first last : nat) : option text :=
  if (first <=? last) && (last <=? length doc) then Some (take (last - first) (drop first doc)) else None.

(** [String::replace_range]; [String::insert] and [insert_str] replace an empty
    range. *)
Definition replace_range (doc : text) (first last : nat) (new : text) : option text :=
  if (first <=? last) && (last <=? length doc) then Some (take first doc ++ new ++ drop last doc) else None.

Definition insert_str (doc : text) (at_ : nat) (new : text) : option text := replace_range doc at_ at_ new.

Definition is_blank (b : byte) : bool := bool_decide (b ∈ [SPACE; TAB]).

Fixpoint take_while (p : byte → bool) (t : text) : text :=
  match t with
  | b :: t => if p b then b :: take_while p t else []
  | [] => []
  end.

(** Moves an offset over the spaces and tabs that follow it. *)
Definition skip_blanks (doc : text) (at_ : nat) : nat := at_ + length (take_while is_blank (drop at_ doc)).

(** Every caller goes on to slice the document at [at_], which panics when
    [at_] is past its end. *)
Definition line_start (doc : text) (at_ : nat) : nat :=
  let before := take at_ doc in
  match position (λ b, bool_decide (b = NEWLINE)) (reverse before) with
  | Some i => length before - i
  | None => 0
  end.

Fixpoint has_crlf (doc : text) : bool :=
  match doc with
  | [] => false
  | _ :: rest => starts_with CR NEWLINE doc || has_crlf rest
  end.

Definition newline_of (doc : text) : text := if has_crlf doc then [CR; NEWLINE] else [NEWLINE].

(** [str::lines]; [line] is the line read so far, last byte first. *)
Definition end_line (line : text) : text :=
  match line with
  | b :: line' => if bool_decide (b = CR) then reverse line' else reverse line
  | [] => []
  end.

Fixpoint lines_from (line doc : text) : list text :=
  match doc with
  | [] => match line with [] => [] | _ => [reverse line] end
  | b :: rest => if bool_decide (b = NEWLINE) then end_line line :: lines_from [] rest else lines_from (b :: line) rest
  end.

Definition lines (doc : text) : list text := lines_from [] doc.

Definition line_indent (line : text) : option text :=
  let indent := take_while is_blank line in
  if negb (bool_decide (indent = [])) && negb (bool_decide (trim_start (drop (length indent) line) = []))
  then Some indent else None.

Definition indentation_unit (doc : text) : text :=
  match head (omap line_indent (lines doc)) with
  | Some indent => indent
  | None => [SPACE; SPACE]
  end.

Definition repeat_text (t : text) (n : nat) : text := mjoin (replicate n t).

Section edit.
  Context `{ValueJson}.

Definition to_string_pretty_sorted (value : Value number) : text := to_string_pretty (sorted_keys value).

Definition render_line (indent indentation newline line : text) : text :=
  let depth := Nat.div2 (length (take_while (λ b, bool_decide (b = SPACE)) line)) in
  newline ++ indent ++ repeat_text indentation depth ++ trim_start line.

Definition render_value (value : Value number) (indent indentation newline : text) : option text :=
  match lines (to_string_pretty_sorted value) with
  | first :: rest => Some (first ++ mjoin (render_line indent indentation newline <$> rest))
  | [] => None
  end.

Definition render_in_place (doc : text) (at_ : nat) (value : Value number) : option text :=
  let? before := slice doc (line_start doc at_) at_ in
  render_value value (take_while is_blank before) (indentation_unit doc) (newline_of doc).

Definition render_member (k : text) (value : Value number) (member_indent indentation newline : text) : option text :=
  let? rendered := render_value value member_indent indentation newline in
  Some (str_to_string k ++ [COLON; SPACE] ++ rendered).

Definition nest (keys : list text) (value : Value number) : Value number :=
  foldr (λ k inner, Object [(k, inner)]) value keys.

(** ** Looking up a path *)

Inductive Lookup :=
  | Found (member : ParsedMember) (parent : ParsedObject)
  | Missing (depth : nat).

(** [path] is what is left of [whole] from [depth] on; [None] is the
    [unreachable!] at the end of the loop. *)
Fixpoint lookup_from (whole : list text) (depth : nat) (o : ParsedObject) (path : list text)
  : option (Result Lookup JsoncError) :=
  match path with
  | [] => None
  | segment :: path =>
      match find_member segment o with
      | None => Some (Ok (Missing depth))
      | Some m =>
          if depth + 1 =? length whole then Some (Ok (Found m o))
          else match member_object m with
               | Some child => lookup_from whole (depth + 1) child path
               | None => Some (Err (NotAnObject (take (depth + 1) whole)))
               end
      end
  end.

Definition lookup_path (root : ParsedObject) (path : list text) : option (Result Lookup JsoncError) :=
  match path with
  | [] => Some (Err EmptyPath)
  | _ => lookup_from path 0 root path
  end.

Definition array_at (root : ParsedObject) (path : list text) : option (Result (option ParsedArray) JsoncError) :=
  let? found := lookup_path root path in
  try! found := found in
  match found with
  | Found m _ => Some (match member_array m with Some a => Ok (Some a) | None => Err (NotAnArray path) end)
  | Missing _ => Some (Ok None)
  end.

Definition element_at (a : ParsedArray) (path : list text) (index : nat) : Result ParsedElement JsoncError :=
  ok_or (elements a !! index) (NoElement path (length (elements a)) index).

Definition parse_root (doc : text) : Result ParsedObject JsoncError :=
  let! tokens := tokenize doc in
  let! root := parse_whole tokens in
  ok_or (object root) RootNotObject.

(** ** The edits *)

Abbreviation Edit T := (option (text * Result T JsoncError)) (only parsing).

(** [let x = c?] of an edit that has not touched [doc]. *)
Definition check {A T} (doc : text) (c : option (Result A JsoncError)) (k : A → Edit T) : Edit T :=
  match c with
  | Some (Ok a) => k a
  | Some (Err e) => Some (doc, Err e)
  | None => None
  end.

(** A separator after the last member, unless there is none or one is there. *)
Definition separate_last (doc : text) (path : list text) (o : JsoncObjectSpan) : Edit JsoncObjectSpan :=
  if negb (span_is_empty o) && negb (span_has_trailing_comma o) then
    check doc (Some (ok_or (span_last_member_end o) NoFinalMember)) (λ last,
    let? doc := insert_str doc last [COMMA] in
    check doc (Some (jsonc_object_span doc path)) (λ o,
    Some (doc, ok_or o ParentDisappeared)))
  else Some (doc, Ok o).

Definition is_indent (b : byte) : bool := bool_decide (b ∈ [SPACE; TAB; CR]).

(** The loop that moves [content_end] back over blanks. *)
Definition content_end (doc : text) (closing : nat) : nat :=
  closing - length (take_while is_blank (reverse (take closing doc))).

Definition insert_before_close (doc : text) (depth closing : nat) (k : text) (value : Value number)
    (decorate : text → text → text) : option text :=
  let newline := newline_of doc in
  let indentation := indentation_unit doc in
  let first := line_start doc closing in
  let? closing_indent := slice doc first closing in
  let own_line := forallb is_indent closing_indent in
  let member_indent := if own_line then closing_indent ++ indentation else repeat_text indentation (depth + 1) in
  let? member := render_member k value member_indent indentation newline in
  let member := decorate member newline in
  if own_line then insert_str doc first (member_indent ++ member ++ newline)
  else replace_range doc (content_end doc closing) closing
         (newline ++ member_indent ++ member ++ newline ++ repeat_text indentation depth).

Definition insert_object_member_with (doc : text) (parent_path : list text) (k : text) (value : Value number)
    (decorate : text → text → text) : Edit unit :=
  check doc (Some (jsonc_object_span doc parent_path)) (λ o,
  check doc (Some (ok_or o ParentAbsent)) (λ o,
  match separate_last doc parent_path o with
  | Some (doc, Ok o) =>
      let? doc := insert_before_close doc (length parent_path) (span_closing_brace o) k value decorate in
      Some (doc, Ok ())
  | Some (doc, Err e) => Some (doc, Err e)
  | None => None
  end)).

Definition insert_object_member (doc : text) (parent_path : list text) (k : text) (value : Value number) : Edit unit :=
  insert_object_member_with doc parent_path k value (λ member _, member).

Definition insert_member_with (doc : text) (path : list text) (value : Value number)
    (decorate : text → text → text) : Edit unit :=
  check doc (Some (parse_root doc)) (λ root,
  check doc (lookup_path root path) (λ found,
  match found with
  | Found _ _ => Some (doc, Err (AlreadyExists path))
  | Missing depth =>
      let? k := path !! depth in
      insert_object_member_with doc (take depth path) k (nest (drop (depth + 1) path) value) decorate
  end)).

Definition insert_member (doc : text) (path : list text) (value : Value number) : Edit unit :=
  insert_member_with doc path value (λ member _, member).

Definition set_member (doc : text) (path : list text) (value : Value number) : Edit unit :=
  check doc (Some (parse_root doc)) (λ root,
  check doc (lookup_path root path) (λ found,
  match found with
  | Found m _ =>
      let? rendered := render_in_place doc (key_start m) value in
      let? doc := replace_range doc (value_start m) (value_end m) rendered in
      Some (doc, Ok ())
  | Missing _ => insert_member doc path value
  end)).

(** ** Removing an entry *)

Definition blank_between (doc : text) (first last : nat) : option bool :=
  let? between := slice doc first last in
  Some (bool_decide (trim between = [])).

Definition entry_cuts (doc : text) (entry : nat * nat) (comma_before comma_after : option nat) (is_last : bool)
  : option (list (nat * nat)) :=
  match opt_filter (λ _, negb (is_last && is_some comma_before)) comma_after with
  | Some comma =>
      let after := skip_blanks doc (comma + 1) in
      let? blank := blank_between doc entry.2 comma in
      Some (if blank then [(entry.1, after)] else [entry; (comma, after)])
  | None =>
      match comma_before with
      | Some comma =>
          let? blank := blank_between doc (comma + 1) entry.1 in
          Some (if blank then [(comma, entry.2)] else [(comma, comma + 1); entry])
      | None => Some [entry]
      end
  end.

(** One turn of the loop over the cuts. *)
Definition apply_cut (doc : text) (cut : nat * nat) : option text :=
  let? before := slice doc (line_start doc cut.1) cut.1 in
  let last := if forallb is_blank before then skip_blanks doc cut.2 else cut.2 in
  let? doc := replace_range doc cut.1 last [] in
  let first := line_start doc cut.1 in
  match position (λ b, bool_decide (b = NEWLINE)) (drop cut.1 doc) with
  | Some offset =>
      let newline := cut.1 + offset in
      let? blank := blank_between doc first newline in
      if blank then replace_range doc first (newline + 1) [] else Some doc
  | None => Some doc
  end.

Fixpoint apply_cuts (doc : text) (cuts : list (nat * nat)) : option text :=
  match cuts with
  | cut :: cuts => let? doc := apply_cut doc cut in apply_cuts doc cuts
  | [] => Some doc
  end.

Definition remove_entry (doc : text) (entry : nat * nat) (comma_before comma_after : option nat) (is_last : bool)
  : option text :=
  let? cuts := entry_cuts doc entry comma_before comma_after is_last in
  apply_cuts doc (reverse cuts).

Definition remove_member (doc : text) (path : list text) : Edit bool :=
  check doc (Some (parse_root doc)) (λ root,
  check doc (lookup_path root path) (λ found,
  match found with
  | Missing _ => Some (doc, Ok false)
  | Found m parent =>
      let is_last := is_some_and (λ l, key_start l =? key_start m) (last (members parent)) in
      let? doc := remove_entry doc (key_start m, value_end m) (comma_before m) (pred <$> comma_after m) is_last in
      Some (doc, Ok true)
  end)).

(** ** Array elements *)

Definition set_element (doc : text) (path : list text) (index : nat) (value : Value number) : Edit unit :=
  check doc (Some (parse_root doc)) (λ root,
  check doc (array_at root path) (λ a,
  check doc (Some (ok_or a (IsAbsent path))) (λ a,
  check doc (Some (element_at a path index)) (λ e,
  let? rendered := render_in_place doc (element_start e) value in
  let? doc := replace_range doc (element_start e) (element_end e) rendered in
  Some (doc, Ok ()))))).

Definition remove_element (doc : text) (path : list text) (index : nat) : Edit unit :=
  check doc (Some (parse_root doc)) (λ root,
  check doc (array_at root path) (λ a,
  check doc (Some (ok_or a (IsAbsent path))) (λ a,
  check doc (Some (element_at a path index)) (λ e,
  let? doc := remove_entry doc (element_start e, element_end e) (element_comma_before e) (element_comma_after e)
                (index + 1 =? length (elements a)) in
  Some (doc, Ok ()))))).

(** The new element of an array that has elements, on a line before the
    closing bracket's. *)
Definition push_line (doc : text) (a : ParsedArray) (last : ParsedElement) (first : nat)
    (closing_indent : text) (value : Value number) : option text :=
  let? before_last := slice doc (line_start doc (element_start last)) (element_start last) in
  let element_indent :=
    if forallb is_blank before_last then before_last else closing_indent ++ indentation_unit doc in
  let? rendered := render_value value element_indent (indentation_unit doc) (newline_of doc) in
  let line := element_indent ++ rendered ++ newline_of doc in
  if array_trailing_comma a then insert_str doc first line
  else let? doc := insert_str doc (element_end last) [COMMA] in
       insert_str doc (first + 1) line.

Definition push_into (doc : text) (a : ParsedArray) (value : Value number) : option text :=
  let first := line_start doc (closing_bracket a) in
  let? closing_indent := slice doc first (closing_bracket a) in
  let own_line := (opening_bracket a <? first) && forallb is_blank closing_indent in
  let compact := to_string (sorted_keys value) in
  match last (elements a) with
  | None =>
      if own_line then
        let element_indent := closing_indent ++ indentation_unit doc in
        let? rendered := render_value value element_indent (indentation_unit doc) (newline_of doc) in
        insert_str doc first (element_indent ++ rendered ++ newline_of doc)
      else insert_str doc (closing_bracket a) compact
  | Some l =>
      if own_line then push_line doc a l first closing_indent value
      else match element_comma_after l with
           | Some comma => insert_str doc (comma + 1) (SPACE :: compact)
           | None => insert_str doc (element_end l) ([COMMA; SPACE] ++ compact)
           end
  end.

Definition push_element (doc : text) (path : list text) (value : Value number) : Edit unit :=
  check doc (Some (parse_root doc)) (λ root,
  check doc (array_at root path) (λ a,
  match a with
  | None => insert_member doc path (Array [value])
  | Some a => let? doc := push_into doc a value in Some (doc, Ok ())
  end)).

End edit.
