(* ===== verification/JsoncLayout.v ===== *)
(** * The layout of a JSONC document

    A document is a sequence of lexemes, each after a gap of whitespace and
    comments, and a last gap.  [tokenize_layout] and [layout_of_tokens] show
    that the tokenizer reads exactly the documents laid out so, with the offsets
    of their lexemes. *)

From S2P Require Import Prelude.
From S2P Require Import Jsonc.

#[local] Open Scope nat_scope.

(** Whitespace and comments; an [open] gap may end in a line comment the
    document ends in. *)
Inductive gap (open : bool) : text → Prop :=
  | gap_nil : gap open []
  | gap_space b g : is_ascii_whitespace b = true → gap open g → gap open (b :: g)
  | gap_line body g : NEWLINE ∉ body → gap open g → gap open (SLASH :: SLASH :: body ++ NEWLINE :: g)
  | gap_block body g :
      scan_block (body ++ [STAR; SLASH]) = Some (length body) → gap open g →
      gap open (SLASH :: STAR :: body ++ STAR :: SLASH :: g)
  | gap_last body : open = true → NEWLINE ∉ body → gap open (SLASH :: SLASH :: body).

Record Seg := {
  seg_gap : text;
  raw : text;
  seg_kind : TokenKind;
}.

Definition seg_text (s : Seg) : text := seg_gap s ++ raw s.
Definition layout (segs : list Seg) : text := mjoin (seg_text <$> segs).

Definition seg_token (off : nat) (s : Seg) : Token :=
  {| kind := seg_kind s;
     token_start := off + length (seg_gap s);
     token_end := off + length (seg_text s) |}.

Fixpoint place (off : nat) (segs : list Seg) : list Token :=
  match segs with
  | [] => []
  | s :: segs => seg_token off s :: place (off + length (seg_text s)) segs
  end.

(** Two atoms with nothing between them would be one. *)
Fixpoint separated (segs : list Seg) : Prop :=
  match segs with
  | s :: segs' =>
      match segs' with
      | s' :: _ => seg_kind s = Atom → seg_kind s' = Atom → seg_gap s' ≠ []
      | [] => True
      end ∧ separated segs'
  | [] => True
  end.

Section layout.
  Context `{StringJson}.

Inductive lexeme : text → TokenKind → Prop :=
  | lex_punctuation b k : punctuation b = Some k → lexeme [b] k
  | lex_string body v :
      scan_string false body = Some (length body) → string_from_str (QUOTE :: body) = Ok v →
      lexeme (QUOTE :: body) (StringToken v)
  | lex_atom t : t ≠ [] → Forall (λ b, ends_atom b = false) t → lexeme t Atom.

Definition seg_ok (s : Seg) : Prop := gap false (seg_gap s) ∧ lexeme (raw s) (seg_kind s).

(** ** Scans *)

Lemma scan_line_app body rest : NEWLINE ∉ body → scan_line (body ++ NEWLINE :: rest) = length body.
Proof.
  induction body as [|b body IH]; intros Hb; simpl; [done|].
  apply not_elem_of_cons in Hb as [Hb ?]. rewrite bool_decide_eq_false_2 by done. auto.
Qed.

Lemma scan_line_end body : NEWLINE ∉ body → scan_line body = length body.
Proof.
  induction body as [|b body IH]; intros Hb; simpl; [done|].
  apply not_elem_of_cons in Hb as [Hb ?]. rewrite bool_decide_eq_false_2 by done. auto.
Qed.

Lemma scan_line_split rest :
  NEWLINE ∉ take (scan_line rest) rest ∧
  (drop (scan_line rest) rest = [] ∨ ∃ g, drop (scan_line rest) rest = NEWLINE :: g).
Proof.
  induction rest as [|b rest IH]; simpl; [set_solver|].
  case_bool_decide as Hb; simpl; [subst; split; [set_solver|eauto]|].
  destruct IH. split; [|done]. apply not_elem_of_cons. auto.
Qed.

Lemma scan_block_app t n rest : scan_block t = Some n → scan_block (t ++ rest) = Some n.
Proof.
  revert n; induction t as [|a t IH]; intros n; [done|].
  destruct t as [|b t]; [done|]. cbn [scan_block app] in *.
  destruct (_ && _); [done|]. intros (m & Hm & ->)%fmap_Some. by rewrite (IH m Hm).
Qed.

Lemma scan_block_split rest n :
  scan_block rest = Some n →
  ∃ body g, rest = body ++ STAR :: SLASH :: g ∧ length body = n ∧ scan_block (body ++ [STAR; SLASH]) = Some n.
Proof.
  revert n; induction rest as [|a rest IH]; intros n; [done|].
  destruct rest as [|b rest]; [done|]. cbn [scan_block].
  destruct (bool_decide (a = STAR) && bool_decide (b = SLASH)) eqn:E.
  - intros [= <-]. apply andb_true_iff in E as [->%bool_decide_eq_true ->%bool_decide_eq_true].
    exists [], rest. done.
  - intros (m & Hm & ->)%fmap_Some. destruct (IH m Hm) as (body & g & Heq & Hlen & Hs).
    exists (a :: body), g. simpl. rewrite Heq. split_and!; [done|lia|].
    destruct body as [|b' body]; simplify_eq/=.
    + by rewrite E.
    + rewrite E. simpl in Hs. by rewrite Hs.
Qed.

Lemma scan_string_app e t n rest : scan_string e t = Some n → scan_string e (t ++ rest) = Some n.
Proof.
  revert e n; induction t as [|a t IH]; intros e n; [done|]. simpl.
  destruct e; [|repeat case_bool_decide; [|done|]];
    intros (m & Hm & ->)%fmap_Some; by rewrite (IH _ _ Hm).
Qed.

Lemma scan_string_take e t n : scan_string e t = Some n → n ≤ length t ∧ scan_string e (take n t) = Some n ∧ 1 ≤ n.
Proof.
  revert e n; induction t as [|a t IH]; intros e n; [done|]. simpl.
  destruct e; [|destruct (bool_decide (a = BACKSLASH)) eqn:E1; [|destruct (bool_decide (a = QUOTE)) eqn:E2]].
  3: { intros [= <-]. simpl. rewrite E1, E2. split_and!; [lia|done|lia]. }
  all: intros (m & Hm & ->)%fmap_Some; destruct (IH _ _ Hm) as (? & Ht & ?); simpl;
    rewrite ?E1, ?E2, Ht; split_and!; [lia|done|lia].
Qed.

Lemma scan_atom_app t rest :
  Forall (λ b, ends_atom b = false) t →
  (∀ b, head rest = Some b → ends_atom b = true) → scan_atom (t ++ rest) = length t.
Proof.
  intros Ht Hr. induction Ht as [|b t Hb _ IH]; simpl.
  - destruct rest as [|b rest]; simpl; [done|]. by rewrite (Hr b).
  - by rewrite Hb, IH.
Qed.

Lemma scan_atom_split t :
  scan_atom t ≤ length t ∧ Forall (λ b, ends_atom b = false) (take (scan_atom t) t) ∧
  ∀ b, head (drop (scan_atom t) t) = Some b → ends_atom b = true.
Proof.
  induction t as [|a t IH]; simpl; [split_and!; [lia|constructor|done]|].
  destruct (ends_atom a) eqn:E; simpl.
  - split_and!; [lia|constructor|congruence].
  - destruct IH as (? & ? & ?). split_and!; [lia|by constructor|done].
Qed.

(** ** The loop *)

Lemma tokenize_step_moves c b rest n k : tokenize_step c (b :: rest) = Ok (n, k) → 1 ≤ n.
Proof.
  unfold tokenize_step. destruct (is_ascii_whitespace b); [intros; simplify_eq; lia|].
  destruct (starts_with SLASH SLASH _); [intros; simplify_eq; lia|].
  destruct (starts_with SLASH STAR _).
  { intros (m & _ & ?)%result_bind_Ok_inv; simplify_eq; lia. }
  destruct (bool_decide (b = QUOTE)).
  { intros (m & _ & (v & _ & ?)%result_bind_Ok_inv)%result_bind_Ok_inv; simplify_eq; lia. }
  destruct (punctuation b); [intros; simplify_eq; lia|].
  generalize (scan_atom (b :: rest)). intros [|m]; simpl; intros; simplify_eq; lia.
Qed.

Lemma tokenize_loop_fuel fuel c rest :
  length rest ≤ fuel → tokenize_loop fuel c rest = tokenize_loop (length rest) c rest.
Proof.
  revert c rest. induction (lt_wf fuel) as [fuel _ IH]; intros c rest Hf.
  destruct rest as [|b rest]; [by destruct fuel|]. destruct fuel as [|fuel]; simpl in Hf; [lia|].
  cbn [length tokenize_loop]. destruct (tokenize_step c (b :: rest)) as [[n k]|] eqn:E; [|done].
  apply tokenize_step_moves in E. cbn [result_bind fst snd].
  assert (length (drop n (b :: rest)) ≤ length rest) by (rewrite length_drop; simpl; lia).
  by rewrite (IH fuel), (IH (length rest)) by lia.
Qed.

Definition tokens_from (c : nat) (rest : text) : Result (list Token) JsoncError :=
  tokenize_loop (length rest) c rest.

Definition push_token (c n : nat) (k : option TokenKind) (tokens : list Token) : list Token :=
  match k with
  | Some k => {| kind := k; token_start := c; token_end := c + n |} :: tokens
  | None => tokens
  end.

Lemma tokens_from_step c b rest :
  tokens_from c (b :: rest) = (
  let! step := tokenize_step c (b :: rest) in
  let! tokens := tokens_from (c + step.1) (drop step.1 (b :: rest)) in
  Ok (push_token c step.1 step.2 tokens)).
Proof.
  unfold tokens_from. cbn [length tokenize_loop].
  destruct (tokenize_step c (b :: rest)) as [[n k]|] eqn:E; [|done].
  apply tokenize_step_moves in E. cbn [result_bind fst snd].
  rewrite tokenize_loop_fuel; [done|]. rewrite length_drop. simpl. lia.
Qed.

Lemma tokens_from_skip c t rest n :
  t ≠ [] → tokenize_step c (t ++ rest) = Ok (n, None) → n = length t →
  tokens_from c (t ++ rest) = tokens_from (c + length t) rest.
Proof.
  intros Ht Hs ->. destruct t as [|b t]; [done|]. cbn [app] in *. rewrite tokens_from_step, Hs.
  cbn [result_bind fst snd]. rewrite app_comm_cons, drop_app_length. by destruct (tokens_from _ rest).
Qed.

(** ** Laid out documents are read *)

Lemma tokens_from_space c b rest : is_ascii_whitespace b = true → tokens_from c (b :: rest) = tokens_from (S c) rest.
Proof.
  intros Hb. change (b :: rest) with ([b] ++ rest).
  rewrite (tokens_from_skip c [b] rest 1); [|done|simpl; by rewrite Hb|done]. f_equal. simpl. lia.
Qed.

Lemma tokens_from_line c body rest :
  NEWLINE ∉ body → (rest = [] ∨ head rest = Some NEWLINE) →
  tokens_from c (SLASH :: SLASH :: body ++ rest) = tokens_from (c + (2 + length body)) rest.
Proof.
  intros Hb Hr. change (SLASH :: SLASH :: body ++ rest) with ((SLASH :: SLASH :: body) ++ rest).
  rewrite (tokens_from_skip c _ _ (2 + length body)); [done|done| |done].
  unfold tokenize_step. cbn -[scan_line]. rewrite drop_0. destruct Hr as [->|Hr].
  - by rewrite app_nil_r, scan_line_end.
  - destruct rest; simplify_eq/=. by rewrite scan_line_app.
Qed.

Lemma tokens_from_block c body rest :
  scan_block (body ++ [STAR; SLASH]) = Some (length body) →
  tokens_from c (SLASH :: STAR :: body ++ STAR :: SLASH :: rest) = tokens_from (c + (2 + length body + 2)) rest.
Proof.
  intros Hb.
  replace (SLASH :: STAR :: body ++ STAR :: SLASH :: rest)
    with ((SLASH :: STAR :: body ++ [STAR; SLASH]) ++ rest) by (simpl; by rewrite <-(assoc_L (++))).
  rewrite (tokens_from_skip c _ _ (2 + length body + 2)); [f_equal|done| |]; simpl;
    rewrite ?length_app; simpl; [lia| |lia].
  unfold tokenize_step. cbn -[scan_block]. by rewrite drop_0, (scan_block_app _ (length body)).
Qed.

Lemma tokens_from_gap g rest c : gap false g → tokens_from c (g ++ rest) = tokens_from (c + length g) rest.
Proof.
  intros Hg. revert c. induction Hg as [|b g Hb Hg IH|body g Hb Hg IH|body g Hb Hg IH|]; intros c; simpl.
  - by rewrite Nat.add_0_r.
  - rewrite tokens_from_space, IH by done. f_equal. lia.
  - rewrite <-(assoc_L (++)). simpl. rewrite tokens_from_line, tokens_from_space, IH by auto.
    f_equal. rewrite length_app. simpl. lia.
  - rewrite <-(assoc_L (++)). simpl. rewrite tokens_from_block, IH by auto.
    f_equal. rewrite length_app. simpl. lia.
  - done.
Qed.

Lemma tokens_from_tail g c : gap true g → tokens_from c g = Ok [].
Proof.
  intros Hg. revert c. induction Hg as [|b g Hb Hg IH|body g Hb Hg IH|body g Hb Hg IH|body ? Hb]; intros c.
  - done.
  - by rewrite tokens_from_space.
  - by rewrite tokens_from_line, tokens_from_space by auto.
  - by rewrite tokens_from_block.
  - rewrite <-(app_nil_r body), tokens_from_line by auto. done.
Qed.

Lemma punctuation_facts b k :
  punctuation b = Some k →
  is_ascii_whitespace b = false ∧ b ≠ SLASH ∧ b ≠ QUOTE ∧ ends_atom b = true ∧ k ≠ Atom ∧ ∀ v, k ≠ StringToken v.
Proof. by destruct b; vm_compute; intros; simplify_eq. Qed.

Lemma starts_with_other a b c rest : c ≠ a → starts_with a b (c :: rest) = false.
Proof. intros. destruct rest; simpl; [done|]. by rewrite bool_decide_eq_false_2. Qed.

Lemma atom_facts b :
  ends_atom b = false → is_ascii_whitespace b = false ∧ b ≠ SLASH ∧ b ≠ QUOTE ∧ punctuation b = None.
Proof. by destruct b; vm_compute. Qed.

Lemma tokenize_step_lexeme c t k rest :
  lexeme t k → (k = Atom → ∀ b, head rest = Some b → ends_atom b = true) →
  tokenize_step c (t ++ rest) = Ok (length t, Some k).
Proof.
  intros Ht Hr. destruct Ht as [b k Hk|body v Hs Hv|t Ht Hall].
  - destruct (punctuation_facts b k Hk) as (Hw & Hsl & Hq & _).
    unfold tokenize_step. cbn [app]. rewrite Hw, !starts_with_other, Hk by done. by rewrite bool_decide_eq_false_2.
  - unfold tokenize_step. cbn [app]. rewrite !starts_with_other by done.
    rewrite (scan_string_app _ _ _ rest Hs). simpl. by rewrite take_app_length, Hv.
  - pose proof (scan_atom_app t rest Hall (Hr eq_refl)) as Hn. destruct t as [|b t]; [done|].
    apply Forall_cons in Hall as [Hb Hall]. destruct (atom_facts b Hb) as (Hw & Hsl & Hq & Hp).
    unfold tokenize_step. rewrite Hn. cbn [app]. rewrite Hw, !starts_with_other, Hp by done.
    by rewrite bool_decide_eq_false_2.
Qed.

Lemma lexeme_nonempty t k : lexeme t k → t ≠ [].
Proof. by intros []. Qed.

Lemma tokens_from_lexeme c t k rest :
  lexeme t k → (k = Atom → ∀ b, head rest = Some b → ends_atom b = true) →
  tokens_from c (t ++ rest) = (
  let! tokens := tokens_from (c + length t) rest in
  Ok ({| kind := k; token_start := c; token_end := c + length t |} :: tokens)).
Proof.
  intros Ht Hr. pose proof (lexeme_nonempty t k Ht). pose proof (tokenize_step_lexeme c t k rest Ht Hr) as Hs.
  destruct t as [|b t]; [done|]. cbn [app] in *. rewrite tokens_from_step, Hs.
  cbn [result_bind fst snd]. by rewrite app_comm_cons, drop_app_length.
Qed.

Lemma gap_head o g b : gap o g → head g = Some b → ends_atom b = true.
Proof. intros [|? ? Hw| | |]; intros; simplify_eq/=; try done. unfold ends_atom. by rewrite Hw. Qed.

Lemma lexeme_head t k b : lexeme t k → k ≠ Atom → head t = Some b → ends_atom b = true.
Proof. intros [? ? Hk| |] ? ?; simplify_eq/=; [by eapply punctuation_facts|done]. Qed.

Lemma layout_cons s segs : layout (s :: segs) = seg_gap s ++ raw s ++ layout segs.
Proof. unfold layout. simpl. unfold seg_text. by rewrite <-(assoc_L (++)). Qed.

Lemma layout_app segs segs' : layout (segs ++ segs') = layout segs ++ layout segs'.
Proof. unfold layout. by rewrite fmap_app, join_app. Qed.

Lemma place_app off segs segs' : place off (segs ++ segs') = place off segs ++ place (off + length (layout segs)) segs'.
Proof.
  revert off. induction segs as [|s segs IH]; intros off; simpl; [by rewrite Nat.add_0_r|].
  rewrite IH. unfold layout. simpl. by rewrite length_app, Nat.add_assoc.
Qed.

Lemma length_place off segs : length (place off segs) = length segs.
Proof. revert off; induction segs; intros; simpl; auto. Qed.

Lemma head_app_Some (t t' : text) b : head (t ++ t') = Some b → head t = Some b ∨ t = [] ∧ head t' = Some b.
Proof. destruct t; simpl; auto. Qed.

Lemma after_atom s segs tail b :
  seg_kind s = Atom → Forall seg_ok segs → separated (s :: segs) → gap true tail →
  head (layout segs ++ tail) = Some b → ends_atom b = true.
Proof.
  intros Hk Hok [Hsep _] Ht. destruct segs as [|s' segs]; [by apply (gap_head true)|].
  apply Forall_cons in Hok as [[Hg Hl] _]. rewrite layout_cons, <-!(assoc_L (++)).
  intros [Hb|[Hnil Hb]]%head_app_Some; [by apply (gap_head false _ _ Hg)|].
  apply head_app_Some in Hb as [Hb|[Hr _]]; [|by destruct (lexeme_nonempty _ _ Hl)].
  eapply lexeme_head; [done| |done]. intros ?. by apply Hsep.
Qed.

Lemma tokens_from_layout segs tail c :
  Forall seg_ok segs → separated segs → gap true tail → tokens_from c (layout segs ++ tail) = Ok (place c segs).
Proof.
  intros Hok Hsep Ht. revert c. induction segs as [|s segs IH]; intros c; [by apply tokens_from_tail|].
  pose proof Hok as [[Hg Hl] Hok']%Forall_cons.
  rewrite layout_cons, <-!(assoc_L (++)), tokens_from_gap by done.
  rewrite (tokens_from_lexeme _ _ _ _ Hl).
  - rewrite IH by (done || apply Hsep). simpl. unfold seg_token, seg_text. rewrite length_app.
    by rewrite Nat.add_assoc.
  - intros Hk b. by apply after_atom with (s := s).
Qed.

(** ** What is read is laid out *)

Lemma gap_app o g g' : gap false g → gap o g' → gap o (g ++ g').
Proof.
  intros Hg Hg'. induction Hg; simpl; [done|by constructor|..|done];
    rewrite <-(assoc_L (++)); simpl; by constructor.
Qed.

Definition laid_out (rest : text) (c : nat) (tokens : list Token) : Prop :=
  ∃ segs tail, rest = layout segs ++ tail ∧ Forall seg_ok segs ∧ separated segs ∧ gap true tail ∧
    tokens = place c segs.

Lemma laid_out_gap g rest c tokens :
  gap false g → laid_out rest (c + length g) tokens → laid_out (g ++ rest) c tokens.
Proof.
  intros Hg ([|s segs] & tail & -> & Hok & Hsep & Ht & ->).
  { exists [], (g ++ tail). split_and!; try done. by apply gap_app. }
  exists ({| seg_gap := g ++ seg_gap s; raw := raw s; seg_kind := seg_kind s |} :: segs), tail.
  apply Forall_cons in Hok as [[Hs Hl] Hok]. split_and!.
  - rewrite !layout_cons. simpl. by rewrite <-!(assoc_L (++)).
  - constructor; [|done]. split; [by apply gap_app|done].
  - destruct segs; simpl in *; [done|]. done.
  - done.
  - simpl. unfold seg_token, seg_text. simpl. rewrite !length_app. by rewrite !Nat.add_assoc.
Qed.

Lemma laid_out_lexeme t k rest c tokens :
  lexeme t k → (k = Atom → ∀ b, head rest = Some b → ends_atom b = true) →
  laid_out rest (c + length t) tokens →
  laid_out (t ++ rest) c ({| kind := k; token_start := c; token_end := c + length t |} :: tokens).
Proof.
  intros Hl Hr (segs & tail & -> & Hok & Hsep & Ht & ->).
  exists ({| seg_gap := []; raw := t; seg_kind := k |} :: segs), tail. split_and!.
  - by rewrite layout_cons, <-!(assoc_L (++)).
  - constructor; [|done]. split; [constructor|done].
  - split; [|done]. destruct segs as [|s segs]; [done|]. intros Hk Hs Hnil. simpl in Hk.
    apply Forall_cons in Hok as [[_ Hs'] _]. rewrite layout_cons, Hnil in Hr. simpl in Hr.
    rewrite Hs in Hs'. inversion Hs' as [? ? Hp| |? Hne Hall]; subst.
    + by destruct (punctuation_facts _ _ Hp) as (_ & _ & _ & _ & ? & _).
    + destruct (raw s) as [|b t'] eqn:E; [done|]. apply Forall_cons in Hall as [Hb _].
      rewrite (Hr eq_refl b eq_refl) in Hb. done.
  - done.
  - simpl. unfold seg_token, seg_text. simpl. by rewrite Nat.add_0_r.
Qed.

Lemma tokenize_step_inv c b rest n k :
  tokenize_step c (b :: rest) = Ok (n, k) →
  match k with
  | Some k => ∃ t rest', b :: rest = t ++ rest' ∧ n = length t ∧ lexeme t k ∧
      (k = Atom → ∀ b, head rest' = Some b → ends_atom b = true)
  | None => ∃ g rest', b :: rest = g ++ rest' ∧ n = length g ∧ n ≠ 0 ∧
      (gap false g ∨ gap true g ∧ (rest' = [] ∨ ∃ rest'', rest' = NEWLINE :: rest'' ∧ gap false (g ++ [NEWLINE])))
  end.
Proof.
  unfold tokenize_step. destruct (is_ascii_whitespace b) eqn:Hw.
  { intros [= <- <-]. exists [b], rest. split_and!; try done. left. by apply gap_space; [|constructor]. }
  destruct (starts_with SLASH SLASH (b :: rest)) eqn:Hline.
  { destruct rest as [|b' rest]; [done|]. simpl in Hline.
    apply andb_true_iff in Hline as [->%bool_decide_eq_true ->%bool_decide_eq_true].
    cbn [drop]. rewrite drop_0. intros [= <- <-]. destruct (scan_line_split rest) as [Hn Hr].
    exists (SLASH :: SLASH :: take (scan_line rest) rest), (drop (scan_line rest) rest). split_and!.
    - simpl. by rewrite take_drop.
    - simpl. rewrite length_take. assert (scan_line rest ≤ length rest); [|lia].
      clear. induction rest; simpl; [lia|]. case_bool_decide; lia.
    - lia.
    - right. split; [by apply gap_last|]. destruct Hr as [|[g ->]]; [by left|right]. exists g. split; [done|].
      simpl. apply gap_line; [done|constructor]. }
  destruct (starts_with SLASH STAR (b :: rest)) eqn:Hblock.
  { destruct rest as [|b' rest]; [done|]. simpl in Hblock.
    apply andb_true_iff in Hblock as [->%bool_decide_eq_true ->%bool_decide_eq_true].
    cbn [drop]. rewrite drop_0. intros (m & Hm%ok_or_Ok_inv & [= <- <-])%result_bind_Ok_inv.
    destruct (scan_block_split rest m Hm) as (body & g & -> & <- & Hs).
    exists (SLASH :: STAR :: body ++ [STAR; SLASH]), g. split_and!.
    - simpl. by rewrite <-(assoc_L (++)).
    - simpl. rewrite length_app. simpl. lia.
    - lia.
    - left. apply gap_block; [done|constructor]. }
  case_bool_decide as Hq.
  { intros (m & Hm%ok_or_Ok_inv & (v & Hv & [= <- <-])%result_bind_Ok_inv)%result_bind_Ok_inv.
    destruct (scan_string_take _ _ _ Hm) as (? & Ht & ?). subst b.
    exists (QUOTE :: take m rest), (drop m rest). split_and!; [simpl; by rewrite take_drop| | |done].
    - simpl. rewrite length_take. lia.
    - constructor; [rewrite Ht, length_take; f_equal; lia|].
      simpl in Hv. by destruct (string_from_str _); simplify_eq/=. }
  destruct (punctuation b) as [p|] eqn:Hp.
  { intros [= <- <-]. exists [b], rest. split_and!; [done..| |]; [by constructor|].
    intros ->. by apply punctuation_facts in Hp as (_ & _ & _ & _ & ? & _). }
  destruct (scan_atom_split (b :: rest)) as (Hle & Hall & Hr). revert Hle Hall Hr.
  generalize (scan_atom (b :: rest)) as m. intros [|m] Hle Hall Hr; [done|]. intros [= <- <-].
  exists (take (S m) (b :: rest)), (drop (S m) (b :: rest)). split_and!; [by rewrite take_drop| | |by intros _].
  - rewrite length_take. lia.
  - by constructor.
Qed.

Lemma tokens_from_laid_out rest c tokens : tokens_from c rest = Ok tokens → laid_out rest c tokens.
Proof.
  revert c tokens. induction (well_founded_ltof _ (@length byte) rest) as [rest _ IH]. unfold ltof in IH.
  intros c tokens. destruct rest as [|b rest].
  { intros [= <-]. exists [], []. split_and!; done || constructor. }
  rewrite tokens_from_step. intros ([n k] & Hs & (ts & Hts & [= <-])%result_bind_Ok_inv)%result_bind_Ok_inv.
  cbn [fst snd] in *. apply tokenize_step_inv in Hs. destruct k as [k|].
  - destruct Hs as (t & rest' & Heq & -> & Hl & Hr). rewrite Heq, drop_app_length in Hts. rewrite Heq in IH |- *.
    apply laid_out_lexeme; [done..|]. apply IH; [|done].
    rewrite length_app. pose proof (lexeme_nonempty _ _ Hl). destruct t; simpl; [done|lia].
  - destruct Hs as (g & rest' & Heq & -> & Hn & Hg). rewrite Heq, drop_app_length in Hts. rewrite Heq in IH |- *.
    destruct Hg as [Hg|[Hg [->|(rest'' & -> & Hg')]]].
    + apply laid_out_gap; [done|]. apply IH; [|done]. rewrite length_app. lia.
    + unfold tokens_from in Hts. injection Hts as <-. exists [], g. rewrite app_nil_r. by split_and!.
    + rewrite tokens_from_space in Hts by done. replace (g ++ NEWLINE :: rest'') with ((g ++ [NEWLINE]) ++ rest'')
        by by rewrite <-(assoc_L (++)).
      apply laid_out_gap; [done|]. rewrite length_app. simpl. rewrite Nat.add_1_r, Nat.add_succ_r.
      apply IH; [|done]. rewrite length_app. simpl. lia.
Qed.

(** The tokenizer accepts exactly the documents that are laid out, and its
    tokens are where the lexemes are. *)
Lemma tokenize_iff doc tokens : tokenize doc = Ok tokens ↔ laid_out doc 0 tokens.
Proof.
  split; [apply tokens_from_laid_out|]. intros (segs & tail & -> & Hok & Hsep & Ht & ->).
  by apply tokens_from_layout.
Qed.

End layout.
