(* ===== verification/JsoncGrammar.v ===== *)
(** * The grammar of JSONC and the parser

    A parsed document is a concrete syntax tree over the lexemes of its layout.
    [parse_value_cst] and [parse_value_inv] show that the parser accepts exactly
    the token sequences of such trees and returns the offsets of their parts;
    [tree_of] forgets the layout. *)

From S2P Require Import Prelude.
From S2P Require Import Jsonc.
From S2P Require Import JsoncLayout.

#[local] Open Scope nat_scope.

(** An entry of an object (its head is a key and a colon) or of an array (it has
    no head), with the comma after it. *)
Record Entry (C : Type) := {
  e_head : list Seg;
  e_value : C;
  e_comma : option Seg;
}.
Arguments e_head {C} e.
Arguments e_value {C} e.
Arguments e_comma {C} e.

Inductive Bracket := Braces | Brackets.

#[export] Instance bracket_eq_dec : EqDecision Bracket.
Proof. solve_decision. Defined.

Inductive Cst :=
  | CLeaf (s : Seg)
  | CNode (b : Bracket) (opening : Seg) (es : list (Entry Cst)) (closing : Seg).

Section cst_ind.
  Context (P : Cst → Prop).
  Context (Pleaf : ∀ s, P (CLeaf s)).
  Context (Pnode : ∀ b o es c, Forall (λ e, P (e_value e)) es → P (CNode b o es c)).

Fixpoint cst_ind (c : Cst) : P c :=
  match c with
  | CLeaf s => Pleaf s
  | CNode b o es c =>
      Pnode b o es c
        ((fix go es : Forall (λ e, P (e_value e)) es :=
            match es with
            | [] => List.Forall_nil _
            | e :: es => List.Forall_cons _ e es (cst_ind (e_value e)) (go es)
            end) es)
  end.
End cst_ind.

Definition entry_segs (f : Cst → list Seg) (e : Entry Cst) : list Seg :=
  e_head e ++ f (e_value e) ++ option_list (e_comma e).

Fixpoint segs (c : Cst) : list Seg :=
  match c with
  | CLeaf s => [s]
  | CNode _ o es c => o :: mjoin (map (entry_segs segs) es) ++ [c]
  end.

Definition entries_segs (es : list (Entry Cst)) : list Seg := mjoin (entry_segs segs <$> es).

(** ** Well-formed trees *)

Definition opening_kind (b : Bracket) : TokenKind := match b with Braces => LeftBrace | Brackets => LeftBracket end.
Definition closing_kind (b : Bracket) : TokenKind := match b with Braces => RightBrace | Brackets => RightBracket end.

Definition is_scalar (k : TokenKind) : bool := match k with StringToken _ | Atom => true | _ => false end.

Definition head_ok (b : Bracket) (h : list Seg) : Prop :=
  match b with
  | Braces => ∃ k colon v, h = [k; colon] ∧ seg_kind k = StringToken v ∧ seg_kind colon = Colon
  | Brackets => h = []
  end.

Definition comma_ok (o : option Seg) : Prop := ∀ s, o = Some s → seg_kind s = Comma.

(** Every entry but the last has a comma. *)
Fixpoint commas_ok (es : list (Entry Cst)) : Prop :=
  match es with
  | e :: es => comma_ok (e_comma e) ∧ (es ≠ [] → e_comma e ≠ None) ∧ commas_ok es
  | [] => True
  end.

Fixpoint wf (c : Cst) : Prop :=
  match c with
  | CLeaf s => is_scalar (seg_kind s) = true
  | CNode b o es c =>
      seg_kind o = opening_kind b ∧ seg_kind c = closing_kind b ∧ commas_ok es ∧
      foldr and True (map (λ e, head_ok b (e_head e) ∧ wf (e_value e)) es)
  end.

Definition entry_wf (b : Bracket) (e : Entry Cst) : Prop := head_ok b (e_head e) ∧ wf (e_value e).

Lemma wf_node b o es c :
  wf (CNode b o es c) ↔
  seg_kind o = opening_kind b ∧ seg_kind c = closing_kind b ∧ commas_ok es ∧ Forall (entry_wf b) es.
Proof.
  cbn [wf]. do 3 (apply and_iff_compat_l). induction es as [|e es IH]; cbn [map foldr].
  - split; [constructor|done].
  - rewrite IH, Forall_cons. done.
Qed.

Lemma segs_leaf s : segs (CLeaf s) = [s].
Proof. done. Qed.

Lemma segs_node b o es c : segs (CNode b o es c) = o :: entries_segs es ++ [c].
Proof. done. Qed.

Lemma entries_segs_cons e es : entries_segs (e :: es) = entry_segs segs e ++ entries_segs es.
Proof. done. Qed.

Lemma entries_segs_single e : entries_segs [e] = entry_segs segs e.
Proof. unfold entries_segs. simpl. by rewrite app_nil_r. Qed.

Lemma entries_segs_app es es' : entries_segs (es ++ es') = entries_segs es ++ entries_segs es'.
Proof. unfold entries_segs. by rewrite fmap_app, join_app. Qed.

(** ** Offsets *)

(** Where an entry and its commas are. *)
Record Placed := {
  p_key : text;
  p_start : nat;
  p_value : ParsedValue;
  p_before : option nat;
  p_comma : option Token;
}.

Definition entry_key (e : Entry Cst) : text :=
  match e_head e with
  | s :: _ => match seg_kind s with StringToken k => k | _ => [] end
  | [] => []
  end.

(** Where the first lexeme after [off] starts. *)
Definition first_start (off : nat) (ss : list Seg) : nat :=
  match ss with
  | s :: _ => off + length (seg_gap s)
  | [] => off
  end.

Definition value_off (off : nat) (e : Entry Cst) : nat := off + length (layout (e_head e)).
Definition comma_off (off : nat) (e : Entry Cst) : nat := value_off off e + length (layout (segs (e_value e))).
Definition entry_end (off : nat) (e : Entry Cst) : nat := off + length (layout (entry_segs segs e)).
Definition comma_token (off : nat) (e : Entry Cst) : option Token := seg_token (comma_off off e) <$> e_comma e.

Section place.
  Context (f : nat → Cst → ParsedValue).

Definition place_entry (off : nat) (before : option nat) (e : Entry Cst) : Placed :=
  {| p_key := entry_key e;
     p_start := first_start off (entry_segs segs e);
     p_value := f (value_off off e) (e_value e);
     p_before := before;
     p_comma := comma_token off e |}.

Fixpoint place_entries (off : nat) (before : option nat) (es : list (Entry Cst)) : list Placed :=
  match es with
  | [] => []
  | e :: es => place_entry off before e :: place_entries (entry_end off e) (token_start <$> comma_token off e) es
  end.
End place.

Definition member_of (p : Placed) : ParsedMember :=
  {| key := p_key p; key_start := p_start p;
     value_start := start (p_value p); value_end := end_ (p_value p);
     comma_before := p_before p; comma_after := token_end <$> p_comma p;
     member_object := object (p_value p); member_array := array (p_value p) |}.

Definition element_of (p : Placed) : ParsedElement :=
  {| element_start := start (p_value p); element_end := end_ (p_value p);
     element_comma_before := p_before p; element_comma_after := token_start <$> p_comma p |}.

Definition has_trailing (es : list (Entry Cst)) : bool := is_some_and (λ e, is_some (e_comma e)) (last es).

Definition node_value (b : Bracket) (off : nat) (ps : list Placed) (trailing : bool) (close : Token) : ParsedValue :=
  match b with
  | Braces => object_value off close (member_of <$> ps) trailing
  | Brackets => array_value off close (element_of <$> ps) trailing
  end.

(** What the parser returns for a tree laid out at [off]. *)
Fixpoint parsed (off : nat) (c : Cst) : ParsedValue :=
  match c with
  | CLeaf s =>
      {| start := off + length (seg_gap s); end_ := off + length (seg_text s); object := None; array := None |}
  | CNode b o es c =>
      let inner := off + length (seg_text o) in
      node_value b (off + length (seg_gap o)) (place_entries parsed inner None es) (has_trailing es)
        (seg_token (inner + length (layout (entries_segs es))) c)
  end.

Lemma start_parsed off c : start (parsed off c) = first_start off (segs c).
Proof. by destruct c as [s|[] o es c]. Qed.

Lemma length_layout_cons s ss : length (layout (s :: ss)) = length (seg_text s) + length (layout ss).
Proof. unfold layout. simpl. by rewrite length_app. Qed.

Lemma length_layout_app ss ss' : length (layout (ss ++ ss')) = length (layout ss) + length (layout ss').
Proof. by rewrite layout_app, length_app. Qed.

Lemma length_layout_nil : length (layout []) = 0.
Proof. done. Qed.

Lemma end_parsed off c : end_ (parsed off c) = off + length (layout (segs c)).
Proof.
  destruct c as [s|b o es c].
  - cbn [segs parsed end_]. rewrite length_layout_cons, length_layout_nil. lia.
  - rewrite segs_node, length_layout_cons, length_layout_app, length_layout_cons, length_layout_nil.
    destruct b; simpl; lia.
Qed.

Lemma place_cons off s ss : place off (s :: ss) = seg_token off s :: place (off + length (seg_text s)) ss.
Proof. done. Qed.

(** ** The parser on a tree *)

(** The loop of either kind of container. *)
Definition parse_entries (b : Bracket) (fuel off : nat) (ps : list Placed) (before : option nat) (tokens : list Token)
  : option (Result (ParsedValue * list Token) JsoncError) :=
  match b with
  | Braces => parse_members fuel off (member_of <$> ps) before tokens
  | Brackets => parse_elements fuel off (element_of <$> ps) before tokens
  end.

Definition closes (b : Bracket) (t : Token) : bool :=
  match b, kind t with
  | Braces, RightBrace | Brackets, RightBracket => true
  | _, _ => false
  end.

Lemma closes_true b t : closes b t = true ↔ kind t = closing_kind b.
Proof. destruct b, t as [[] ? ?]; simpl; split; intros; simplify_eq; done. Qed.

Definition placed_at (k : text) (entry_start : nat) (v : ParsedValue) (before : option nat) (comma : option Token) : Placed :=
  {| p_key := k; p_start := entry_start; p_value := v; p_before := before; p_comma := comma |}.

(** What the loop does after an entry. *)
Definition after_entry (b : Bracket) (fuel opening : nat) (ps : list Placed) (p : option Token → Placed)
    (tokens : list Token) : option (Result (ParsedValue * list Token) JsoncError) :=
  match tokens with
  | [] => Some (Err match b with Braces => UnterminatedObject | Brackets => UnterminatedArray end)
  | t :: rest =>
      if closes b t then Some (Ok (node_value b opening (ps ++ [p None]) false t, rest))
      else match kind t with
           | Comma =>
               let ps := ps ++ [p (Some t)] in
               let again := parse_entries b fuel opening ps (Some (token_start t)) rest in
               match rest with
               | close :: rest => if closes b close then Some (Ok (node_value b opening ps true close, rest)) else again
               | [] => again
               end
           | _ => Some (Err (match b with Braces => ExpectedCommaOrBraceAt | Brackets => ExpectedCommaOrBracketAt end
                               (token_start t)))
           end
  end.

Lemma after_entry_close b fuel opening ps p t rest :
  closes b t = true → after_entry b fuel opening ps p (t :: rest) = Some (Ok (node_value b opening (ps ++ [p None]) false t, rest)).
Proof. intros Ht. simpl. by rewrite Ht. Qed.

Lemma after_entry_trailing b fuel opening ps p t close rest :
  kind t = Comma → closes b close = true →
  after_entry b fuel opening ps p (t :: close :: rest) =
  Some (Ok (node_value b opening (ps ++ [p (Some t)]) true close, rest)).
Proof. intros Ht Hc. simpl. unfold closes at 1. rewrite Ht, Hc. by destruct b. Qed.

Lemma after_entry_comma b fuel opening ps p t next rest :
  kind t = Comma → closes b next = false →
  after_entry b fuel opening ps p (t :: next :: rest) =
  parse_entries b fuel opening (ps ++ [p (Some t)]) (Some (token_start t)) (next :: rest).
Proof. intros Ht Hc. cbn [after_entry]. unfold closes at 1. rewrite Ht, Hc. by destruct b. Qed.

Lemma parse_members_turn fuel opening ps before tk tc k tokens :
  kind tk = StringToken k → kind tc = Colon →
  parse_entries Braces (S fuel) opening ps before (tk :: tc :: tokens) =
  (let? parsed := parse_value fuel tokens in
   try! value := parsed in
   after_entry Braces fuel opening ps (placed_at k (token_start tk) value.1 before) value.2).
Proof.
  destruct tk as [? ts te], tc as [? cs ce]; simpl; intros -> ->.
  destruct (parse_value fuel tokens) as [[[v rest]|]|]; [|done..]. cbn [fst snd].
  destruct rest as [|[[] s e] rest]; try done; cbn; rewrite fmap_app; try done.
  by destruct rest as [|[[] ? ?] rest].
Qed.

Lemma parse_elements_turn fuel opening ps before tokens s :
  parse_entries Brackets (S fuel) opening ps before tokens =
  (let? parsed := parse_value fuel tokens in
   try! value := parsed in
   after_entry Brackets fuel opening ps (placed_at [] s value.1 before) value.2).
Proof.
  simpl. destruct (parse_value fuel tokens) as [[[v rest]|]|]; [|done..]. cbn [fst snd].
  destruct rest as [|[[] ? e] rest]; try done; cbn; rewrite fmap_app; try done.
  by destruct rest as [|[[] ? ?] rest].
Qed.

Lemma parse_value_node b fuel t tokens :
  kind t = opening_kind b →
  parse_value (S fuel) (t :: tokens) =
  match tokens with
  | close :: rest =>
      if closes b close then Some (Ok (node_value b (token_start t) [] false close, rest))
      else parse_entries b fuel (token_start t) [] None tokens
  | [] => parse_entries b fuel (token_start t) [] None tokens
  end.
Proof.
  destruct t as [? ts te]; simpl; intros ->. destruct b; simpl; destruct tokens as [|[[] ? ?] tokens]; done.
Qed.

Definition parses (c : Cst) : Prop :=
  ∀ fuel off rest, 2 * length (segs c) ≤ fuel →
  parse_value fuel (place off (segs c) ++ rest) = Some (Ok (parsed off c, rest)).

Lemma place_entry_at off before e :
  place_entry parsed off before e =
  placed_at (entry_key e) (first_start off (entry_segs segs e)) (parsed (value_off off e) (e_value e)) before
    (comma_token off e).
Proof. done. Qed.

(** A turn reads an entry. *)
Lemma parse_entry b e fuel opening off ps before rest :
  entry_wf b e → parses (e_value e) → 2 * length (e_head e ++ segs (e_value e)) ≤ fuel →
  parse_entries b (S fuel) opening ps before (place off (e_head e ++ segs (e_value e)) ++ rest) =
  after_entry b fuel opening ps
    (placed_at (entry_key e) (first_start off (entry_segs segs e)) (parsed (value_off off e) (e_value e)) before) rest.
Proof.
  intros [Hh Hv] Hp Hf. destruct e as [h v c]. unfold entry_key, entry_segs, value_off. cbn [e_head e_value e_comma] in *.
  destruct b; simpl in Hh.
  - destruct Hh as (k & colon & s & -> & Hk & Hco). cbn [app place]. rewrite parse_members_turn with (k := s) by done.
    cbn [app length] in Hf. rewrite Hp by lia. cbn [fst snd].
    rewrite Hk, !length_layout_cons, length_layout_nil. simpl. by rewrite Nat.add_0_r, !Nat.add_assoc.
  - subst h. cbn [app] in *.
    rewrite parse_elements_turn with (s := first_start off (segs v ++ option_list c)), Hp by done.
    cbn [fst snd]. by rewrite length_layout_nil, Nat.add_0_r.
Qed.

Definition starts_value (k : TokenKind) : bool :=
  match k with LeftBrace | LeftBracket | StringToken _ | Atom => true | _ => false end.

Lemma wf_first c : wf c → ∃ s ss, segs c = s :: ss ∧ starts_value (seg_kind s) = true.
Proof.
  destruct c as [s|b o es c]; [intros Hs; exists s, []; split; [done|]; simpl in Hs; by destruct (seg_kind s)|].
  intros (Ho & _)%wf_node. rewrite segs_node. eexists _, _. split; [done|]. rewrite Ho. by destruct b.
Qed.

Lemma entry_first b e : entry_wf b e → ∃ s ss, entry_segs segs e = s :: ss ∧ starts_value (seg_kind s) = true.
Proof.
  intros [Hh Hv]. unfold entry_segs. destruct b; simpl in Hh.
  - destruct Hh as (k & colon & v & -> & Hk & _). eexists _, _. split; [done|]. by rewrite Hk.
  - rewrite Hh. destruct (wf_first _ Hv) as (s & ss & -> & Hs). eexists _, _. by split.
Qed.

Lemma starts_value_closes b t : starts_value (kind t) = true → closes b t = false.
Proof. destruct b, t as [[] ? ?]; done. Qed.

Lemma entries_first b e es off :
  entry_wf b e → ∃ t ts, place off (entries_segs (e :: es)) = t :: ts ∧ closes b t = false.
Proof.
  intros (s & ss & Hss & Hs)%entry_first. rewrite entries_segs_cons, Hss. simpl. eexists _, _. split; [done|].
  by apply starts_value_closes.
Qed.

Lemma length_entry_segs e :
  length (entry_segs segs e) = length (e_head e ++ segs (e_value e)) + length (option_list (e_comma e)).
Proof. unfold entry_segs. rewrite !length_app. lia. Qed.

Lemma comma_off_entry off e : e_comma e = None → entry_end off e = comma_off off e.
Proof.
  intros He. unfold entry_end, comma_off, value_off, entry_segs. rewrite He. simpl.
  rewrite app_nil_r, length_layout_app. lia.
Qed.

Lemma comma_off_comma off e s : e_comma e = Some s → entry_end off e = comma_off off e + length (seg_text s).
Proof.
  intros He. unfold entry_end, comma_off, value_off, entry_segs. rewrite He. simpl.
  rewrite !length_layout_app, length_layout_cons, length_layout_nil. lia.
Qed.

Lemma place_entry_segs off e ss :
  place off (entry_segs segs e ++ ss) =
  place off (e_head e ++ segs (e_value e)) ++ option_list (comma_token off e) ++ place (entry_end off e) ss.
Proof.
  replace (entry_segs segs e ++ ss) with ((e_head e ++ segs (e_value e)) ++ option_list (e_comma e) ++ ss)
    by (unfold entry_segs; by rewrite <-!(assoc_L (++))).
  rewrite place_app. f_equal. unfold comma_token.
  replace (off + length (layout (e_head e ++ segs (e_value e)))) with (comma_off off e)
    by (rewrite length_layout_app; unfold comma_off, value_off; lia).
  destruct (e_comma e) as [s|] eqn:He; simpl; [by rewrite (comma_off_comma off e s)|by rewrite comma_off_entry].
Qed.

(** The loop reads the entries up to the closing bracket. *)
Lemma parse_entries_all b es cl fuel opening off ps before rest :
  es ≠ [] → commas_ok es → Forall (entry_wf b) es → Forall (λ e, parses (e_value e)) es →
  seg_kind cl = closing_kind b → 2 * length (entries_segs es) < fuel →
  parse_entries b fuel opening ps before (place off (entries_segs es ++ [cl]) ++ rest) =
  Some (Ok (node_value b opening (ps ++ place_entries parsed off before es) (has_trailing es)
              (seg_token (off + length (layout (entries_segs es))) cl), rest)).
Proof.
  revert fuel off ps before. induction es as [|e es IH]; intros fuel off ps before Hne Hco Hwf Hp Hcl Hf; [done|].
  apply Forall_cons in Hwf as [Hw Hwf]. apply Forall_cons in Hp as [Hp Hps]. destruct Hco as (Hc1 & Hc2 & Hco).
  rewrite entries_segs_cons, length_app, length_entry_segs in Hf. destruct fuel as [|fuel]; [lia|].
  rewrite entries_segs_cons, <-!(assoc_L (++)), place_entry_segs, <-!(assoc_L (++)), parse_entry by (done || lia).
  assert (∀ n, closes b (seg_token n cl) = true) as Hclose by (intros; by apply closes_true).
  cbn [place_entries]. rewrite place_entry_at. unfold has_trailing. rewrite length_layout_app.
  destruct (e_comma e) as [comma|] eqn:He; unfold comma_token; rewrite He; simpl option_list; cbn [app].
  - assert (kind (seg_token (comma_off off e) comma) = Comma) as Hk by by apply Hc1.
    destruct es as [|e' es].
    + cbn [entries_segs mjoin list_join fmap list_fmap place app]. rewrite after_entry_trailing by done.
      simpl. rewrite He, Nat.add_0_r. done.
    + pose proof (proj1 (Forall_cons _ _ _) Hwf) as [Hw' _].
      destruct (entries_first b e' es (entry_end off e) Hw') as (t & ts & Ht & Hopen).
      rewrite place_app, Ht. cbn [app]. rewrite after_entry_comma, !app_comm_cons, <-Ht, <-place_app by done.
      change (length (option_list (Some comma))) with 1 in Hf.
      rewrite IH by (done || lia). rewrite <-(assoc_L (++)). simpl. by rewrite Nat.add_assoc.
  - destruct es as [|e' es]; [|by destruct (Hc2 ltac:(done))].
    cbn [entries_segs mjoin list_join fmap list_fmap place app]. rewrite after_entry_close by done.
    simpl. rewrite He, Nat.add_0_r. done.
Qed.

Lemma parse_value_cst c : wf c → parses c.
Proof.
  induction c as [s|b o es c IH] using cst_ind; intros Hwf fuel off rest Hf.
  - destruct fuel as [|fuel]; [simpl in Hf; lia|]. simpl in *. unfold seg_token. destruct (seg_kind s); done.
  - apply wf_node in Hwf as (Ho & Hc & Hco & Hes). rewrite segs_node in *. cbn [place app length] in *.
    rewrite length_app in Hf. cbn [length] in Hf. destruct fuel as [|fuel]; [lia|].
    rewrite (parse_value_node b) by done. destruct es as [|e es].
    + cbn [entries_segs fmap list_fmap mjoin list_join app place]. rewrite (proj2 (closes_true b _)) by done.
      cbn [parsed]. rewrite Nat.add_0_r. done.
    + pose proof (proj1 (Forall_cons _ _ _) Hes) as [He _].
      destruct (entries_first b e es (off + length (seg_text o)) He) as (t & ts & Ht & Hopen).
      rewrite place_app, Ht. cbn [app]. rewrite Hopen, !app_comm_cons, <-Ht, <-place_app.
      rewrite parse_entries_all; [done|done|done|done| |done|lia].
      rewrite Forall_forall in IH, Hes |- *. intros e' He'. apply IH; [done|]. by apply Hes.
Qed.

(** ** What the parser accepts is a tree *)

Definition read_value (fuel : nat) : Prop :=
  ∀ ss off v rest, parse_value fuel (place off ss) = Some (Ok (v, rest)) →
  ∃ c ss', ss = segs c ++ ss' ∧ wf c ∧ v = parsed off c ∧ rest = place (off + length (layout (segs c))) ss'.

Definition read_entries (fuel : nat) : Prop :=
  ∀ b ss off opening ps before v rest,
  parse_entries b fuel opening ps before (place off ss) = Some (Ok (v, rest)) →
  ∃ es cl ss', es ≠ [] ∧ commas_ok es ∧ Forall (entry_wf b) es ∧ seg_kind cl = closing_kind b ∧
    ss = entries_segs es ++ cl :: ss' ∧
    v = node_value b opening (ps ++ place_entries parsed off before es) (has_trailing es)
          (seg_token (off + length (layout (entries_segs es))) cl) ∧
    rest = place (off + length (layout (entries_segs es ++ [cl]))) ss'.

Lemma after_entry_inv b fuel opening ps p off ss v rest :
  after_entry b fuel opening ps p (place off ss) = Some (Ok (v, rest)) →
  (∃ cl ss', ss = cl :: ss' ∧ seg_kind cl = closing_kind b ∧
     v = node_value b opening (ps ++ [p None]) false (seg_token off cl) ∧
     rest = place (off + length (seg_text cl)) ss') ∨
  (∃ comma ss', ss = comma :: ss' ∧ seg_kind comma = Comma ∧
     let ps' := ps ++ [p (Some (seg_token off comma))] in
     let off' := off + length (seg_text comma) in
     (∃ cl ss'', ss' = cl :: ss'' ∧ seg_kind cl = closing_kind b ∧
        v = node_value b opening ps' true (seg_token off' cl) ∧ rest = place (off' + length (seg_text cl)) ss'') ∨
     parse_entries b fuel opening ps' (Some (token_start (seg_token off comma))) (place off' ss') = Some (Ok (v, rest))).
Proof.
  destruct ss as [|s ss]; [done|]. cbn [place after_entry].
  destruct (closes b (seg_token off s)) eqn:Hc.
  { intros [= <- <-]. left. exists s, ss. apply closes_true in Hc. done. }
  destruct (kind (seg_token off s)) eqn:Hk; try done. intros Hp. right. exists s, ss. split_and!; [done..|].
  destruct ss as [|cl ss]; [by right|]. cbn [place] in *. destruct (closes b (seg_token _ cl)) eqn:Hcl; [left|by right].
  injection Hp as <- <-. exists cl, ss. apply closes_true in Hcl. done.
Qed.

Lemma parse_entries_inv b fuel opening ps before off ss v rest :
  parse_entries b (S fuel) opening ps before (place off ss) = Some (Ok (v, rest)) →
  ∃ h ss' value tokens k, ss = h ++ ss' ∧ head_ok b h ∧
    parse_value fuel (place (off + length (layout h)) ss') = Some (Ok (value, tokens)) ∧
    (∀ c o, k = entry_key {| e_head := h; e_value := c; e_comma := o |}) ∧
    after_entry b fuel opening ps (placed_at k (first_start off (h ++ ss')) value before) tokens = Some (Ok (v, rest)).
Proof.
  destruct b.
  - destruct ss as [|k [|colon ss]]; [done|by simpl; destruct (seg_kind k)|].
    cbn [place]. destruct (seg_kind k) as [| | | | | |s|] eqn:Hk; try (simpl; rewrite Hk; done).
    destruct (seg_kind colon) eqn:Hco; try (simpl; rewrite Hk, Hco; done).
    rewrite parse_members_turn with (k := s) by done.
    destruct (parse_value _ _) as [[[value tokens]|]|] eqn:Hv; [|done..]. intros Ha.
    exists [k; colon], ss, value, tokens, s. split_and!; [done|by eexists _, _, _|..|done].
    + rewrite !length_layout_cons, length_layout_nil, Nat.add_0_r, Nat.add_assoc. done.
    + intros. unfold entry_key. simpl. by rewrite Hk.
  - rewrite parse_elements_turn with (s := first_start off ss).
    destruct (parse_value _ _) as [[[value tokens]|]|] eqn:Hv; [|done..]. intros Ha.
    exists [], ss, value, tokens, []. rewrite length_layout_nil, Nat.add_0_r. done.
Qed.

Lemma first_start_app off ss ss' : ss ≠ [] → first_start off (ss ++ ss') = first_start off ss.
Proof. by destruct ss. Qed.

Lemma segs_nonempty c : segs c ≠ [].
Proof. by destruct c. Qed.

Lemma first_start_entry off h c ss o :
  first_start off (h ++ segs c ++ ss) = first_start off (entry_segs segs {| e_head := h; e_value := c; e_comma := o |}).
Proof.
  unfold entry_segs. simpl. destruct h; simpl; [|done]. by rewrite !first_start_app by apply segs_nonempty.
Qed.

Lemma read_entries_step fuel : read_value fuel → read_entries fuel → read_entries (S fuel).
Proof.
  intros Hval Hent b ss off opening ps before v rest Hp.
  apply parse_entries_inv in Hp as (h & ss' & value & tokens & k & -> & Hh & Hv & Hk & Ha).
  apply Hval in Hv as (c & ss'' & -> & Hc & -> & ->).
  rewrite <-Nat.add_assoc, <-length_layout_app in Ha.
  apply after_entry_inv in Ha as [(cl & ss3 & -> & Hcl & -> & ->)|(comma & ss3 & -> & Hco & Ha)].
  - exists [{| e_head := h; e_value := c; e_comma := None |}], cl, ss3.
    unfold entries_segs, entry_segs. simpl. rewrite !app_nil_r, <-!(assoc_L (++)).
    split_and!; try done.
    + by repeat constructor.
    + rewrite place_entry_at, (Hk c None), (first_start_entry _ _ _ _ None). unfold comma_token, value_off. done.
    + f_equal. rewrite !length_layout_app, length_layout_cons, length_layout_nil. lia.
  - set (e := {| e_head := h; e_value := c; e_comma := Some comma |}).
    assert (entry_wf b e) as He by done. assert (comma_ok (e_comma e)) as Hce by (by intros ? [= <-]).
    assert (comma_off off e = off + length (layout (h ++ segs c))) as Hoff
      by (unfold comma_off, value_off; simpl; rewrite length_layout_app; lia).
    rewrite (Hk c (Some comma)), (first_start_entry _ _ _ _ (Some comma)) in Ha. fold e in Ha.
    rewrite <-Hoff in Ha. rewrite <-(comma_off_comma off e comma) in Ha by done.
    destruct Ha as [(cl & ss4 & -> & Hcl & -> & ->)|Ha].
    + exists [e], cl, ss4. rewrite entries_segs_single. split_and!; try done; [by repeat constructor|..].
      { unfold entry_segs. simpl. by rewrite <-!(assoc_L (++)). }
      f_equal. unfold entry_end. rewrite length_layout_app, length_layout_cons, length_layout_nil. lia.
    + apply Hent in Ha as (es & cl & ss4 & Hne & Hcs & Hes & Hcl & -> & -> & ->).
      exists (e :: es), cl, ss4. rewrite entries_segs_cons. split_and!; try done; [by constructor|..].
      * unfold entry_segs. simpl. by rewrite <-!(assoc_L (++)).
      * cbn [place_entries]. rewrite <-(assoc_L (++)). unfold has_trailing. simpl.
        destruct es as [|e' es]; [done|]. by rewrite (length_layout_app (entry_segs segs e)), Nat.add_assoc.
      * f_equal. unfold entry_end. rewrite <-(assoc_L (++)), (length_layout_app (entry_segs segs e)). lia.
Qed.

Lemma read_node fuel b s ss off v rest :
  read_entries fuel → seg_kind s = opening_kind b →
  parse_value (S fuel) (place off (s :: ss)) = Some (Ok (v, rest)) →
  ∃ es cl ss', commas_ok es ∧ Forall (entry_wf b) es ∧ seg_kind cl = closing_kind b ∧
    ss = entries_segs es ++ cl :: ss' ∧ v = parsed off (CNode b s es cl) ∧
    rest = place (off + length (seg_text s) + length (layout (entries_segs es ++ [cl]))) ss'.
Proof.
  intros Hent Hs Hp. cbn [place] in Hp. rewrite (parse_value_node b) in Hp by done.
  destruct ss as [|cl ss]; cbn [place] in Hp; [|destruct (closes b _) eqn:Hc].
  - apply (Hent b [] (off + length (seg_text s))) in Hp as (es & ? & ? & _ & _ & _ & _ & Hnil & _).
    by destruct (entries_segs es).
  - injection Hp as <- <-. apply closes_true in Hc. exists [], cl, ss. split_and!; try done.
    + simpl. by rewrite Nat.add_0_r.
    + simpl. by rewrite length_layout_cons, length_layout_nil, Nat.add_0_r.
  - apply (Hent b (cl :: ss) (off + length (seg_text s))) in Hp as (es & cl' & ss' & ? & ? & ? & ? & ? & ? & ?).
    by exists es, cl', ss'.
Qed.

Lemma parse_value_kind fuel s ss off r :
  parse_value (S fuel) (place off (s :: ss)) = Some (Ok r) →
  (∃ b, seg_kind s = opening_kind b) ∨ is_scalar (seg_kind s) = true.
Proof.
  cbn [place parse_value]. cbn [kind seg_token].
  destruct (seg_kind s); try done; intros _; [left; by exists Braces|left; by exists Brackets|by right..].
Qed.

Lemma read_all fuel : read_value fuel ∧ read_entries fuel.
Proof.
  induction fuel as [|fuel [Hval Hent]]; [split; [done|by intros []]|].
  split; [|by apply read_entries_step]. intros ss off v rest Hp.
  destruct ss as [|s ss]; [done|]. destruct (parse_value_kind _ _ _ _ _ Hp) as [[b Hs]|Hs].
  - destruct (read_node fuel b s ss off v rest Hent Hs Hp) as (es & cl & ss' & Hco & Hes & Hcl & -> & -> & ->).
    exists (CNode b s es cl), ss'. rewrite wf_node, segs_node, length_layout_cons, Nat.add_assoc.
    split_and!; try done. simpl. by rewrite <-(assoc_L (++)).
  - exists (CLeaf s), ss. cbn [place parse_value] in Hp. cbn [kind seg_token] in Hp.
    cbn [segs]. rewrite length_layout_cons, length_layout_nil, Nat.add_0_r.
    destruct (seg_kind s) eqn:Hk; try done; injection Hp as <- <-; split_and!; try done; simpl; by rewrite Hk.
Qed.

Lemma parse_value_inv fuel ss off v rest :
  parse_value fuel (place off ss) = Some (Ok (v, rest)) →
  ∃ c ss', ss = segs c ++ ss' ∧ wf c ∧ v = parsed off c ∧ rest = place (off + length (layout (segs c))) ss'.
Proof. apply read_all. Qed.

(** ** The fuel *)

Definition enough {T} (tokens : list Token) (r : option (Result (T * list Token) JsoncError)) : Prop :=
  ∃ r', r = Some r' ∧ ∀ v rest, r' = Ok (v, rest) → length rest < length tokens.

Lemma after_entry_enough b fuel opening ps p tokens :
  (∀ ps before rest, length rest < length tokens → enough rest (parse_entries b fuel opening ps before rest)) →
  enough tokens (after_entry b fuel opening ps p tokens).
Proof.
  intros IH. destruct tokens as [|t rest]; simpl; [by eexists|].
  destruct (closes b t); [eexists; split; [done|]; intros; simplify_eq/=; lia|].
  destruct (kind t); try by eexists.
  assert (∀ ps before, enough (t :: rest) (parse_entries b fuel opening ps before rest)) as IH'.
  { intros ps' before. destruct (IH ps' before rest ltac:(simpl; lia)) as (r & -> & Hr).
    exists r. split; [done|]. intros v rest' E. apply Hr in E. simpl. lia. }
  destruct rest as [|close rest]; [apply IH'|]. destruct (closes b close); [|apply IH'].
  eexists. split; [done|]. intros; simplify_eq/=. lia.
Qed.

Lemma parse_entries_enough b fuel opening ps before tokens :
  (∀ rest, length rest ≤ length tokens → enough rest (parse_value fuel rest)) →
  (∀ ps before rest, S (length rest) < length tokens → enough rest (parse_entries b fuel opening ps before rest)) →
  enough tokens (parse_entries b (S fuel) opening ps before tokens).
Proof.
  intros Hv He.
  assert (∀ tokens' k s, length tokens' ≤ length tokens →
    enough tokens (let? parsed := parse_value fuel tokens' in
      try! value := parsed in after_entry b fuel opening ps (placed_at k s value.1 before) value.2)) as Hturn.
  { intros tokens' k s Hle. destruct (Hv tokens' Hle) as ([[v rest]|] & -> & Hr); [|by eexists].
    specialize (Hr v rest eq_refl). cbn [fst snd].
    destruct (after_entry_enough b fuel opening ps (placed_at k s v before) rest) as (r & -> & Hr').
    { intros. apply He. lia. }
    exists r. split; [done|]. intros ? ? E. apply Hr' in E. lia. }
  destruct b; [|rewrite (parse_elements_turn _ _ _ _ _ 0); by apply Hturn].
  destruct tokens as [|[[] ? ?] [|[[] ? ?] tokens]]; try by eexists.
  erewrite parse_members_turn by done. apply Hturn. simpl. lia.
Qed.

Lemma parse_enough fuel :
  (∀ tokens, 2 * length tokens < fuel → enough tokens (parse_value fuel tokens)) ∧
  (∀ b opening ps before tokens, S (2 * length tokens) < fuel →
     enough tokens (parse_entries b fuel opening ps before tokens)).
Proof.
  induction fuel as [|fuel [IHv IHe]]; [split; lia|]. split.
  2: { intros. apply parse_entries_enough; [intros; apply IHv; lia|intros; apply IHe; lia]. }
  intros [|t tokens] Hf; [by eexists|]. simpl in Hf.
  assert (∀ b, kind t = opening_kind b → enough (t :: tokens) (parse_value (S fuel) (t :: tokens))) as Hnode.
  { intros b Ht. rewrite (parse_value_node b) by done.
    assert (∀ ps, enough (t :: tokens) (parse_entries b fuel (token_start t) ps None tokens)) as He.
    { intros ps. destruct (IHe b (token_start t) ps None tokens) as (r & -> & Hr); [lia|].
      exists r. split; [done|]. intros v rest E. apply Hr in E. simpl. lia. }
    destruct tokens as [|close rest]; [apply He|]. destruct (closes b close); [|apply He].
    eexists. split; [done|]. intros; simplify_eq/=. lia. }
  destruct t as [[] ? ?]; try by eexists.
  - by apply (Hnode Braces).
  - by apply (Hnode Brackets).
  - eexists. split; [done|]. intros; simplify_eq/=. lia.
  - eexists. split; [done|]. intros; simplify_eq/=. lia.
Qed.

(** The parser reads a whole tree, or refuses with one of the source's
    messages. *)
Lemma parse_whole_spec tokens :
  ∃ r, parse_value (parse_fuel tokens) tokens = Some r ∧
    parse_whole tokens = match r with
                         | Ok (v, []) => Ok v
                         | Ok (_, _ :: _) => Err ContentAfterRoot
                         | Err e => Err e
                         end.
Proof.
  destruct (parse_enough (parse_fuel tokens)) as [Hv _]. destruct (Hv tokens) as (r & Hr & _).
  { unfold parse_fuel. lia. }
  exists r. unfold parse_whole. rewrite Hr. split; [done|]. by destruct r as [[? []]|].
Qed.

Lemma parse_whole_iff ss off v :
  parse_whole (place off ss) = Ok v ↔ ∃ c, ss = segs c ∧ wf c ∧ v = parsed off c.
Proof.
  destruct (parse_whole_spec (place off ss)) as (r & Hr & ->). split.
  - destruct r as [[w [|]]|]; intros; simplify_eq.
    apply parse_value_inv in Hr as (c & [|] & -> & Hc & -> & Hrest); [|done]. exists c. by rewrite app_nil_r.
  - intros (c & -> & Hc & ->). pose proof (parse_value_cst c Hc (parse_fuel (place off (segs c))) off []) as Hp.
    rewrite app_nil_r, Hr in Hp. unfold parse_fuel in Hp. rewrite length_place in Hp.
    by injection (Hp ltac:(lia)) as ->.
Qed.
