(* ===== verification/JsoncTree.v ===== *)
(** * What a JSONC document says

    [denotes doc t]: [doc] is laid out as a concrete syntax tree of [t].  A
    document denotes at most one tree ([denotes_unique]), and denotes one exactly
    when the tokenizer and the parser accept it ([denotes_iff]).  A [hole] is a
    place in a tree where another value can be put. *)

From S2P Require Import Prelude.
From S2P Require Import Jsonc.
From S2P Require Import JsoncLayout.
From S2P Require Import JsoncGrammar.

#[local] Open Scope nat_scope.

Inductive Tree :=
  | TString (v : text)
  | TAtom (t : text)
  | TObject (ms : list (text * Tree))
  | TArray (ts : list Tree).

Definition leaf_tree (s : Seg) : Tree :=
  match seg_kind s with StringToken v => TString v | _ => TAtom (raw s) end.

Fixpoint tree_of (c : Cst) : Tree :=
  match c with
  | CLeaf s => leaf_tree s
  | CNode Braces _ es _ => TObject (map (λ e, (entry_key e, tree_of (e_value e))) es)
  | CNode Brackets _ es _ => TArray (map (λ e, tree_of (e_value e)) es)
  end.

(** ** Atoms do not meet *)

Definition is_atom (s : Seg) : bool := match seg_kind s with Atom => true | _ => false end.

Fixpoint apart (after_atom : bool) (ss : list Seg) : Prop :=
  match ss with
  | s :: ss => after_atom && is_atom s = false ∧ apart (is_atom s) ss
  | [] => True
  end.

Lemma apart_separated p ss : apart p ss → separated ss.
Proof.
  revert p. induction ss as [|s ss IH]; intros p; [done|]. intros [_ Hss]. split; [|by eapply IH].
  destruct ss as [|s' ss]; [done|]. destruct Hss as [Hs _]. unfold is_atom in Hs.
  intros Hk Hk'. by rewrite Hk, Hk' in Hs.
Qed.

Lemma apart_other p s ss : is_atom s = false → apart false ss → apart p (s :: ss).
Proof. intros Hs Hss. simpl. rewrite Hs, andb_false_r. done. Qed.

Lemma apart_entries b es ss :
  commas_ok es → Forall (entry_wf b) es →
  Forall (λ e, ∀ ss, wf (e_value e) → (∀ p, apart p ss) → apart false (segs (e_value e) ++ ss)) es →
  (∀ p, apart p ss) → apart false (entries_segs es ++ ss).
Proof.
  induction es as [|e es IH]; intros Hco Hes Hv Hss; [apply Hss|].
  destruct Hco as (Hc & Hlast & Hco). apply Forall_cons in Hes as [[Hh Hw] Hes]. apply Forall_cons in Hv as [Hv Hvs].
  specialize (IH Hco Hes Hvs Hss).
  assert (apart false (segs (e_value e) ++ option_list (e_comma e) ++ entries_segs es ++ ss)) as Hrest.
  { apply Hv; [done|]. intros p. destruct (e_comma e) as [s|]; simpl.
    - apply (apart_other p s); [|done]. unfold is_atom. by rewrite (Hc s eq_refl).
    - destruct es; [apply Hss|]. by destruct (Hlast ltac:(done)). }
  rewrite entries_segs_cons. unfold entry_segs. rewrite <-!(assoc_L (++)). destruct b; simpl in Hh.
  - destruct Hh as (k & colon & v & -> & Hk & Hcol). simpl app.
    apply apart_other; [unfold is_atom; by rewrite Hk|]. apply apart_other; [unfold is_atom; by rewrite Hcol|done].
  - by rewrite Hh.
Qed.

Lemma wf_apart c ss : wf c → (∀ p, apart p ss) → apart false (segs c ++ ss).
Proof.
  revert ss. induction c as [s|b o es cl IH] using cst_ind; intros ss Hwf Hss; [by split|].
  apply wf_node in Hwf as (Ho & Hcl & Hco & Hes). rewrite segs_node. cbn [app].
  apply apart_other; [unfold is_atom; rewrite Ho; by destruct b|]. rewrite <-(assoc_L (++)).
  apply (apart_entries b); [done|done| |].
  - eapply Forall_impl; [apply IH|]. auto.
  - intros p. simpl app. apply apart_other; [unfold is_atom; rewrite Hcl; by destruct b|apply Hss].
Qed.

Lemma wf_separated c : wf c → separated (segs c).
Proof. intros Hc. apply (apart_separated false). rewrite <-(app_nil_r (segs c)). by apply wf_apart. Qed.

(** ** A layout has one tree *)

Definition one_tree (c : Cst) : Prop :=
  ∀ c' ss ss', wf c → wf c' → segs c ++ ss = segs c' ++ ss' → c = c' ∧ ss = ss'.

Lemma segs_first_closes b c s ss ss' : wf c → segs c ++ ss = s :: ss' → seg_kind s ≠ closing_kind b.
Proof.
  intros (s' & ss'' & -> & Hs)%wf_first. simpl. intros [= <- _] Hc. rewrite Hc in Hs. by destruct b.
Qed.

Lemma entry_first_closes b e s ss ss' : entry_wf b e → entry_segs segs e ++ ss = s :: ss' → seg_kind s ≠ closing_kind b.
Proof.
  intros (s' & ss'' & -> & Hs)%entry_first. simpl. intros [= <- _] Hc. rewrite Hc in Hs. by destruct b.
Qed.

Lemma head_unique b h h' ss ss' : head_ok b h → head_ok b h' → h ++ ss = h' ++ ss' → h = h' ∧ ss = ss'.
Proof.
  destruct b; simpl; [|by intros -> ->].
  intros (k & c & v & -> & _) (k' & c' & v' & -> & _). by intros [= -> -> ->].
Qed.

Lemma entry_unique b e e' ss ss' :
  one_tree (e_value e) → entry_wf b e → entry_wf b e' →
  e_head e ++ segs (e_value e) ++ ss = e_head e' ++ segs (e_value e') ++ ss' →
  e_head e = e_head e' ∧ e_value e = e_value e' ∧ ss = ss'.
Proof.
  intros Hone [Hh Hv] [Hh' Hv'] Heq.
  destruct (head_unique b _ _ _ _ Hh Hh' Heq) as [? Heq']. destruct (Hone _ _ _ Hv Hv' Heq') as [??]. done.
Qed.

Lemma entries_unique b es es' cl cl' ss ss' :
  Forall (λ e, one_tree (e_value e)) es →
  commas_ok es → commas_ok es' → Forall (entry_wf b) es → Forall (entry_wf b) es' →
  seg_kind cl = closing_kind b → seg_kind cl' = closing_kind b →
  entries_segs es ++ cl :: ss = entries_segs es' ++ cl' :: ss' → es = es' ∧ cl = cl' ∧ ss = ss'.
Proof.
  revert es'. induction es as [|e es IH]; intros es' Hone Hco Hco' Hes Hes' Hcl Hcl' Heq.
  - destruct es' as [|e' es']; [by simplify_eq/=|]. apply Forall_cons in Hes' as [He' _].
    rewrite entries_segs_cons, <-(assoc_L (++)) in Heq. symmetry in Heq. by apply (entry_first_closes b) in Heq.
  - apply Forall_cons in Hes as [He Hes]. destruct es' as [|e' es'].
    { rewrite entries_segs_cons, <-(assoc_L (++)) in Heq. by apply (entry_first_closes b) in Heq. }
    apply Forall_cons in Hes' as [He' Hes']. apply Forall_cons in Hone as [Hone Hones].
    destruct Hco as (Hc & Hl & Hco), Hco' as (Hc' & Hl' & Hco').
    rewrite !entries_segs_cons in Heq. unfold entry_segs in Heq. rewrite <-!(assoc_L (++)) in Heq.
    apply (entry_unique b) in Heq as (Hh & Hv & Heq); [|done..].
    destruct e as [h v o], e' as [h' v' o']; simpl in *; subst h' v'.
    destruct o as [s|], o' as [s'|]; simpl in Heq.
    + injection Heq as <- Heq. apply IH in Heq as (-> & -> & ->); done.
    + destruct es'; [|by destruct (Hl' ltac:(done))]. injection Heq as -> _.
      rewrite (Hc _ eq_refl) in Hcl'. by destruct b.
    + destruct es; [|by destruct (Hl ltac:(done))]. injection Heq as -> _.
      rewrite (Hc' _ eq_refl) in Hcl. by destruct b.
    + destruct es; [|by destruct (Hl ltac:(done))]. destruct es'; [|by destruct (Hl' ltac:(done))].
      by simplify_eq/=.
Qed.

Lemma cst_unique c : one_tree c.
Proof.
  induction c as [s|b o es cl IH] using cst_ind; intros c' ss ss' Hwf Hwf' Heq.
  - destruct c' as [s'|b' o' es' cl']; [by simplify_eq/=|]. apply wf_node in Hwf' as (Ho & _).
    simpl in Heq. injection Heq as -> _. simpl in Hwf. rewrite Ho in Hwf. by destruct b'.
  - apply wf_node in Hwf as (Ho & Hcl & Hco & Hes). destruct c' as [s'|b' o' es' cl'].
    { simpl in Heq. injection Heq as -> _. simpl in Hwf'. rewrite Ho in Hwf'. by destruct b. }
    apply wf_node in Hwf' as (Ho' & Hcl' & Hco' & Hes'). rewrite !segs_node in Heq. cbn [app] in Heq.
    injection Heq as <- Heq. assert (b' = b) as -> by (rewrite Ho in Ho'; by destruct b, b').
    rewrite <-!(assoc_L (++)) in Heq. by apply (entries_unique b) in Heq as (-> & -> & ->).
Qed.

(** ** Documents *)

Lemma layout_unique off ss ss' tail tail' :
  place off ss = place off ss' → layout ss ++ tail = layout ss' ++ tail' → ss = ss' ∧ tail = tail'.
Proof.
  revert off ss'. induction ss as [|s ss IH]; intros off [|s' ss'] Hp Hl; try done.
  cbn [place] in Hp. injection Hp as Hk Hg Ht Hp. rewrite !layout_cons, <-!(assoc_L (++)) in Hl.
  unfold seg_text in *. rewrite !length_app in *.
  apply app_inj_1 in Hl as [Hg' Hl]; [|lia]. apply app_inj_1 in Hl as [Hr Hl]; [|lia].
  rewrite Hg', Hr in Hp. destruct s, s'; simpl in *; subst. by destruct (IH _ _ Hp Hl) as [-> ->].
Qed.

Section documents.
  Context `{StringJson}.

Definition good (c : Cst) (tail : text) : Prop := wf c ∧ Forall seg_ok (segs c) ∧ gap true tail.

Definition denotes (doc : text) (t : Tree) : Prop :=
  ∃ c tail, doc = layout (segs c) ++ tail ∧ good c tail ∧ t = tree_of c.

Definition parse_document (doc : text) : Result ParsedValue JsoncError :=
  let! tokens := tokenize doc in parse_whole tokens.

Lemma good_parsed c tail :
  good c tail → tokenize (layout (segs c) ++ tail) = Ok (place 0 (segs c)) ∧
  parse_whole (place 0 (segs c)) = Ok (parsed 0 c).
Proof.
  intros (Hwf & Hok & Ht). split.
  - apply tokenize_iff. exists (segs c), tail. split_and!; [done|done|by apply wf_separated|done|done].
  - apply parse_whole_iff. by exists c.
Qed.

Lemma parse_document_iff doc v :
  parse_document doc = Ok v ↔ ∃ c tail, doc = layout (segs c) ++ tail ∧ good c tail ∧ v = parsed 0 c.
Proof.
  unfold parse_document. split.
  - intros (tokens & (ss & tail & -> & Hok & Hsep & Ht & ->)%tokenize_iff & Hp)%result_bind_Ok_inv.
    apply parse_whole_iff in Hp as (c & -> & Hc & ->). by exists c, tail.
  - intros (c & tail & -> & Hg & ->). destruct (good_parsed c tail Hg) as [-> Hp]. done.
Qed.

Lemma denotes_unique doc t t' : denotes doc t → denotes doc t' → t = t'.
Proof.
  intros (c & tail & -> & Hg & ->) (c' & tail' & Heq & Hg' & ->).
  destruct (good_parsed c tail Hg) as [Ht _]. destruct (good_parsed c' tail' Hg') as [Ht' _].
  rewrite Heq, Ht' in Ht. injection Ht as Hp. apply (layout_unique 0) in Heq as [Hs _]; [|done].
  destruct Hg as [Hw _], Hg' as [Hw' _].
  destruct (cst_unique c c' [] [] Hw Hw') as [-> _]; [by rewrite !app_nil_r|done].
Qed.

Lemma denotes_iff doc : (∃ t, denotes doc t) ↔ ∃ v, parse_document doc = Ok v.
Proof.
  split.
  - intros (t & c & tail & -> & Hg & ->). exists (parsed 0 c). apply parse_document_iff. by exists c, tail.
  - intros (v & (c & tail & -> & Hg & ->)%parse_document_iff). exists (tree_of c), c, tail. done.
Qed.

End documents.

(** ** Entries and the offsets the parser gives them *)

(** The comma before the entry that follows [es]. *)
Fixpoint comma_before_next (off : nat) (before : option nat) (es : list (Entry Cst)) : option nat :=
  match es with
  | [] => before
  | e :: es => comma_before_next (entry_end off e) (token_start <$> comma_token off e) es
  end.

Definition entries_end (off : nat) (es : list (Entry Cst)) : nat := off + length (layout (entries_segs es)).

Lemma entries_end_cons off e es : entries_end off (e :: es) = entries_end (entry_end off e) es.
Proof. unfold entries_end, entry_end. rewrite entries_segs_cons, length_layout_app. lia. Qed.

Lemma place_entries_app off before es es' :
  place_entries parsed off before (es ++ es') =
  place_entries parsed off before es ++ place_entries parsed (entries_end off es) (comma_before_next off before es) es'.
Proof.
  revert off before. induction es as [|e es IH]; intros off before; simpl.
  - unfold entries_end. simpl. by rewrite Nat.add_0_r.
  - by rewrite IH, entries_end_cons.
Qed.

Lemma length_place_entries off before es : length (place_entries parsed off before es) = length es.
Proof. revert off before. induction es; intros; simpl; auto. Qed.

Lemma place_entries_lookup off before es i p :
  place_entries parsed off before es !! i = Some p →
  ∃ es1 e es2, es = es1 ++ e :: es2 ∧ length es1 = i ∧
    p = place_entry parsed (entries_end off es1) (comma_before_next off before es1) e.
Proof.
  intros Hp. assert (i < length es) as Hi.
  { rewrite <-(length_place_entries off before es). by eapply lookup_lt_Some. }
  destruct (lookup_lt_is_Some_2 es i Hi) as [e He]. exists (take i es), e, (drop (S i) es).
  rewrite take_drop_middle, length_take by done. split_and!; [done|lia|].
  rewrite <-(take_drop_middle es i e He), place_entries_app in Hp.
  rewrite lookup_app_r in Hp by (rewrite length_place_entries, length_take; lia).
  rewrite length_place_entries, length_take in Hp. replace (i - i `min` length es) with 0 in Hp by lia.
  by injection Hp as <-.
Qed.

Lemma place_entries_last off before es p :
  last (place_entries parsed off before es) = Some p →
  ∃ es1 e, es = es1 ++ [e] ∧ p = place_entry parsed (entries_end off es1) (comma_before_next off before es1) e.
Proof.
  rewrite last_lookup, length_place_entries. intros (es1 & e & es2 & -> & Hl & ->)%place_entries_lookup.
  rewrite length_app in Hl. simpl in Hl. destruct es2; simpl in *; [by exists es1, e|lia].
Qed.

(** The first entry with a key. *)
Definition first_key (k : text) (es1 : list (Entry Cst)) (e : Entry Cst) : Prop :=
  Forall (λ e, entry_key e ≠ k) es1 ∧ entry_key e = k.

Lemma find_placed k off before es :
  match List.find (λ m, bool_decide (key m = k)) (member_of <$> place_entries parsed off before es) with
  | Some m => ∃ es1 e es2, es = es1 ++ e :: es2 ∧ first_key k es1 e ∧
      m = member_of (place_entry parsed (entries_end off es1) (comma_before_next off before es1) e)
  | None => Forall (λ e, entry_key e ≠ k) es
  end.
Proof.
  revert off before. induction es as [|e es IH]; intros off before; [constructor|].
  cbn [place_entries fmap list_fmap List.find]. case_bool_decide as Hk.
  - exists [], e, es. split_and!; [done|split; [constructor|done]|].
    unfold entries_end. simpl. by rewrite Nat.add_0_r.
  - specialize (IH (entry_end off e) (token_start <$> comma_token off e)).
    destruct (List.find _ _) as [m|]; [|by constructor].
    destruct IH as (es1 & e' & es2 & -> & [Hes1 Hk'] & ->). exists (e :: es1), e', es2.
    split_and!; [done|split; [by constructor|done]|]. by rewrite entries_end_cons.
Qed.
