(* ===== verification/JsoncPath.v ===== *)
(** * Paths of keys into a document

    A path leads to the value under the first member of each of its keys.
    [lookup_path_tree] shows that the editor's lookup finds what the tree has
    there, and [lookup_found] and [descend_object] where it lies in the
    document and what putting another value there makes of the tree. *)

From S2P Require Import Prelude.
From S2P Require Import Jsonc.
From S2P Require Import JsoncEdit.
From S2P Require Import JsoncLayout.
From S2P Require Import JsoncGrammar.
From S2P Require Import JsoncTree.

#[local] Open Scope nat_scope.

(** ** Paths in a tree *)

Fixpoint alter_key (k : text) (f : Tree → Tree) (ms : list (text * Tree)) : list (text * Tree) :=
  match ms with
  | [] => []
  | (k', t) :: ms => if bool_decide (k' = k) then (k', f t) :: ms else (k', t) :: alter_key k f ms
  end.

Fixpoint find_key (k : text) (ms : list (text * Tree)) : option Tree :=
  match ms with
  | [] => None
  | (k', t) :: ms => if bool_decide (k' = k) then Some t else find_key k ms
  end.

(** Removes the first member with a key. *)
Fixpoint remove_key (k : text) (ms : list (text * Tree)) : list (text * Tree) :=
  match ms with
  | [] => []
  | (k', t) :: ms => if bool_decide (k' = k) then ms else (k', t) :: remove_key k ms
  end.

Fixpoint tree_update (path : list text) (f : Tree → Tree) (t : Tree) : Tree :=
  match path, t with
  | [], _ => f t
  | k :: path, TObject ms => TObject (alter_key k (tree_update path f) ms)
  | _ :: _, _ => t
  end.

Inductive TreeLookup :=
  | TFound (t : Tree)
  | TMissing (depth : nat)
  | TBlocked (depth : nat).

(** [TMissing depth]: the object at the first [depth] keys has no member with
    the next; [TBlocked depth]: what they lead to is no object. *)
Fixpoint tree_lookup (depth : nat) (path : list text) (t : Tree) : TreeLookup :=
  match path, t with
  | [], _ => TFound t
  | k :: path, TObject ms =>
      match find_key k ms with
      | Some t => tree_lookup (S depth) path t
      | None => TMissing depth
      end
  | _ :: _, _ => TBlocked depth
  end.

Definition tree_members (es : list (Entry Cst)) : list (text * Tree) := (λ e, (entry_key e, tree_of (e_value e))) <$> es.

Lemma tree_of_object o es cl : tree_of (CNode Braces o es cl) = TObject (tree_members es).
Proof. done. Qed.

Lemma tree_members_app es es' : tree_members (es ++ es') = tree_members es ++ tree_members es'.
Proof. apply fmap_app. Qed.

Lemma find_key_none k es : Forall (λ e, entry_key e ≠ k) es → find_key k (tree_members es) = None.
Proof. induction 1 as [|e es He _ IH]; simpl; [done|]. by rewrite bool_decide_eq_false_2. Qed.

Lemma find_key_first k es1 e es2 :
  first_key k es1 e → find_key k (tree_members (es1 ++ e :: es2)) = Some (tree_of (e_value e)).
Proof.
  intros [Hes <-]. induction Hes as [|e' es He _ IH]; simpl; [by rewrite bool_decide_eq_true_2|].
  by rewrite bool_decide_eq_false_2.
Qed.

Lemma alter_key_first k f es1 e es2 :
  first_key k es1 e →
  alter_key k f (tree_members (es1 ++ e :: es2)) =
  tree_members es1 ++ (entry_key e, f (tree_of (e_value e))) :: tree_members es2.
Proof.
  intros [Hes <-]. induction Hes as [|e' es He _ IH]; simpl; [by rewrite bool_decide_eq_true_2|].
  rewrite bool_decide_eq_false_2 by done. by f_equal.
Qed.

Lemma remove_key_first k es1 e es2 :
  first_key k es1 e → remove_key k (tree_members (es1 ++ e :: es2)) = tree_members (es1 ++ es2).
Proof.
  intros [Hes <-]. induction Hes as [|e' es He _ IH]; simpl; [by rewrite bool_decide_eq_true_2|].
  rewrite bool_decide_eq_false_2 by done. by f_equal.
Qed.

Lemma tree_update_snoc path k f t :
  tree_update (path ++ [k]) f t =
  tree_update path (λ t, match t with TObject ms => TObject (alter_key k f ms) | t => t end) t.
Proof.
  revert t. induction path as [|k' path IH]; intros t; simpl; [by destruct t|].
  destruct t as [| |ms|]; try done. f_equal. induction ms as [|[k'' t] ms IHms]; simpl; [done|].
  rewrite IH, IHms. done.
Qed.

(** ** Holes *)

(** [n] lies in [c] between [pre] and [post], and [up] is what the tree becomes
    with another value there. *)
Record hole (c n : Cst) (pre post : list Seg) (up : Tree → Tree) : Prop := {
  hole_segs : segs c = pre ++ segs n ++ post;
  hole_wf : wf n;
  hole_tree : tree_of c = up (tree_of n);
  hole_fill : ∀ n', wf n' → ∃ c', wf c' ∧ segs c' = pre ++ segs n' ++ post ∧ tree_of c' = up (tree_of n');
}.

Lemma hole_refl c : wf c → hole c c [] [] (λ t, t).
Proof. intros Hc. split; [by rewrite app_nil_r|done|done|]. intros n' Hn. exists n'. by rewrite app_nil_r. Qed.

Lemma hole_trans c n m pre post pre' post' up up' :
  hole c n pre post up → hole n m pre' post' up' → hole c m (pre ++ pre') (post' ++ post) (λ t, up (up' t)).
Proof.
  intros [Hs _ Ht Hf] [Hs' Hw' Ht' Hf']. split; [|done| |].
  - rewrite Hs, Hs'. by rewrite <-!(assoc_L (++)).
  - by rewrite Ht, Ht'.
  - intros m' (n' & Hn' & Hsn & Htn)%Hf'. destruct (Hf n' Hn') as (c' & Hc' & Hsc & Htc).
    exists c'. rewrite Hsc, Hsn, Htc, Htn, <-!(assoc_L (++)). done.
Qed.

Lemma hole_up c n pre post up up' : hole c n pre post up → (∀ t, up t = up' t) → hole c n pre post up'.
Proof.
  intros [Hs Hw Ht Hf] Hup. split; [done|done|by rewrite <-Hup|].
  intros n' (c' & ? & ? & ?)%Hf. exists c'. by rewrite <-Hup.
Qed.

Definition node_tree (b : Bracket) (es1 : list (Entry Cst)) (e : Entry Cst) (es2 : list (Entry Cst)) (t : Tree) : Tree :=
  match b with
  | Braces => TObject (tree_members es1 ++ (entry_key e, t) :: tree_members es2)
  | Brackets => TArray ((tree_of ∘ e_value <$> es1) ++ t :: (tree_of ∘ e_value <$> es2))
  end.

Lemma tree_of_node b o es1 e es2 cl :
  tree_of (CNode b o (es1 ++ e :: es2) cl) = node_tree b es1 e es2 (tree_of (e_value e)).
Proof. destruct b; simpl; by rewrite map_app. Qed.

Lemma commas_ok_app es es' :
  commas_ok (es ++ es') ↔
  commas_ok es ∧ commas_ok es' ∧ (es' ≠ [] → Forall (λ e, e_comma e ≠ None) es).
Proof.
  induction es as [|e es IH]; simpl; [naive_solver|]. rewrite IH, Forall_cons.
  assert (es ++ es' ≠ [] ↔ es ≠ [] ∨ es' ≠ []) as -> by (destruct es; naive_solver).
  destruct es; naive_solver.
Qed.

Lemma hole_entry b o es1 e es2 cl :
  wf (CNode b o (es1 ++ e :: es2) cl) →
  hole (CNode b o (es1 ++ e :: es2) cl) (e_value e) (o :: entries_segs es1 ++ e_head e)
    (option_list (e_comma e) ++ entries_segs es2 ++ [cl]) (node_tree b es1 e es2).
Proof.
  intros (Ho & Hcl & Hco & Hes)%wf_node. pose proof Hes as [_ [[Hh Hw] _]%Forall_cons]%Forall_app.
  split; [|done|apply tree_of_node|].
  - rewrite segs_node, entries_segs_app, entries_segs_cons. unfold entry_segs. cbn [app].
    by rewrite <-!(assoc_L (++)).
  - intros n' Hn. exists (CNode b o (es1 ++ {| e_head := e_head e; e_value := n'; e_comma := e_comma e |} :: es2) cl).
    split_and!.
    + apply wf_node. split_and!; [done|done| |].
      * rewrite commas_ok_app in Hco |- *. destruct Hco as (? & [? ?] & ?). split_and!; [done| |naive_solver].
        by split.
      * apply Forall_app in Hes as [? [_ ?]%Forall_cons]. by apply Forall_app; split; [|constructor].
    + rewrite segs_node, entries_segs_app, entries_segs_cons. unfold entry_segs. cbn [app e_head e_value e_comma].
      by rewrite <-!(assoc_L (++)).
    + by rewrite tree_of_node; destruct b.
Qed.

(** ** Objects *)

Definition parsed_object (off : nat) (o : Seg) (es : list (Entry Cst)) (cl : Seg) : ParsedObject :=
  {| closing_brace := token_start (seg_token (entries_end (off + length (seg_text o)) es) cl);
     members := member_of <$> place_entries parsed (off + length (seg_text o)) None es;
     has_trailing_comma := has_trailing es |}.

Lemma object_parsed off c p :
  object (parsed off c) = Some p → ∃ o es cl, c = CNode Braces o es cl ∧ p = parsed_object off o es cl.
Proof. destruct c as [s|[] o es cl]; simpl; [done| |done]. intros [= <-]. by exists o, es, cl. Qed.

Lemma parsed_object_Some off o es cl : object (parsed off (CNode Braces o es cl)) = Some (parsed_object off o es cl).
Proof. done. Qed.

(** The offset of a member's value in the document. *)
Lemma value_off_hole off o es1 e :
  value_off (entries_end (off + length (seg_text o)) es1) e =
  off + length (layout (o :: entries_segs es1 ++ e_head e)).
Proof. unfold value_off, entries_end. rewrite length_layout_cons, length_layout_app. lia. Qed.

Lemma find_member_object k off o es cl :
  match find_member k (parsed_object off o es cl) with
  | Some m => ∃ es1 e es2, es = es1 ++ e :: es2 ∧ first_key k es1 e ∧
      m = member_of (place_entry parsed (entries_end (off + length (seg_text o)) es1)
                       (comma_before_next (off + length (seg_text o)) None es1) e)
  | None => Forall (λ e, entry_key e ≠ k) es
  end.
Proof. apply find_placed. Qed.

(** A path leads from [c] to [n], which lies between [pre] and [post]. *)
Inductive at_path : Cst → list text → Cst → list Seg → list Seg → Prop :=
  | at_nil c : at_path c [] c [] []
  | at_cons o es1 e es2 cl k path n pre post :
      first_key k es1 e → at_path (e_value e) path n pre post →
      at_path (CNode Braces o (es1 ++ e :: es2) cl) (k :: path) n ((o :: entries_segs es1 ++ e_head e) ++ pre)
        (post ++ option_list (e_comma e) ++ entries_segs es2 ++ [cl]).

Lemma tree_lookup_depth path d d' t x : tree_lookup d path t = TFound x → tree_lookup d' path t = TFound x.
Proof.
  revert d d' t. induction path as [|k path IH]; intros d d' t; [done|]. simpl.
  destruct t as [| |ms|]; try done. destruct (find_key k ms); [apply IH|done].
Qed.

Lemma tree_lookup_app d path path' t t' :
  tree_lookup d path t = TFound t' → tree_lookup d (path ++ path') t = tree_lookup (d + length path) path' t'.
Proof.
  revert d t. induction path as [|k path IH]; intros d t; simpl; [intros [= ->]; by rewrite Nat.add_0_r|].
  destruct t as [| |ms|]; try done. destruct (find_key k ms); [|done]. rewrite Nat.add_succ_r. apply IH.
Qed.

Lemma at_path_hole c path n pre post :
  at_path c path n pre post → wf c → hole c n pre post (λ t, tree_update path (λ _, t) (tree_of c)).
Proof.
  induction 1 as [c|o es1 e es2 cl k path n pre post Hk _ IH]; intros Hc; [by apply hole_refl|].
  pose proof (hole_entry _ _ _ _ _ _ Hc) as He. pose proof Hk as [_ <-].
  eapply hole_up; [eapply hole_trans; [exact He|apply IH, He]|]. intros t. simpl.
  by rewrite alter_key_first.
Qed.

Lemma at_path_lookup c path n pre post :
  at_path c path n pre post → tree_lookup 0 path (tree_of c) = TFound (tree_of n).
Proof.
  induction 1 as [c|o es1 e es2 cl k path n pre post Hk _ IH]; [done|].
  rewrite tree_of_object. cbn [tree_lookup]. rewrite find_key_first by done. by eapply tree_lookup_depth.
Qed.

Lemma at_path_update c path n pre post f :
  at_path c path n pre post → tree_update path f (tree_of c) = tree_update path (λ _, f (tree_of n)) (tree_of c).
Proof.
  induction 1 as [c|o es1 e es2 cl k path n pre post Hk _ IH]; [done|].
  rewrite tree_of_object. cbn [tree_update]. rewrite !alter_key_first by done. by rewrite IH.
Qed.

Lemma at_path_snoc c path k o es1 e es2 cl pre post :
  at_path c path (CNode Braces o (es1 ++ e :: es2) cl) pre post → first_key k es1 e →
  at_path c (path ++ [k]) (e_value e) (pre ++ o :: entries_segs es1 ++ e_head e)
    ((option_list (e_comma e) ++ entries_segs es2 ++ [cl]) ++ post).
Proof.
  intros Hp Hk. remember (CNode Braces o (es1 ++ e :: es2) cl) as n eqn:Hn.
  induction Hp as [c|o' es1' e' es2' cl' k' path n pre post Hk' _ IH]; subst.
  - simpl. rewrite app_nil_r. rewrite <-(app_nil_r (o :: _)), <-(app_nil_l (option_list _ ++ _)).
    apply at_cons; [done|constructor].
  - specialize (IH eq_refl). apply (at_cons o' es1' e' es2' cl' k' _ _ _ _ Hk') in IH.
    rewrite <-(assoc_L (++) (o' :: entries_segs es1' ++ e_head e') pre), (assoc_L (++) _ post). exact IH.
Qed.

(** With another value there, the path leads to that. *)
Lemma at_path_fill c path n pre post n' :
  at_path c path n pre post → wf c → wf n' →
  ∃ c', at_path c' path n' pre post ∧ wf c' ∧ segs c' = pre ++ segs n' ++ post ∧
    tree_of c' = tree_update path (λ _, tree_of n') (tree_of c).
Proof.
  intros Hp Hc Hn. assert (∃ c', at_path c' path n' pre post ∧ wf c' ∧ tree_of c' = tree_update path (λ _, tree_of n') (tree_of c))
    as (c' & Hp' & Hc' & Ht).
  { induction Hp as [c|o es1 e es2 cl k path n pre post Hk _ IH]; [exists n'; by split_and!; [constructor|..]|].
    pose proof (hole_wf _ _ _ _ _ (hole_entry _ _ _ _ _ _ Hc)) as He.
    destruct (IH He) as (v & Hv & Hwv & Htv).
    set (e' := {| e_head := e_head e; e_value := v; e_comma := e_comma e |}).
    exists (CNode Braces o (es1 ++ e' :: es2) cl). split_and!.
    - by apply (at_cons o es1 e' es2 cl k path n' pre post).
    - rewrite wf_node in Hc |- *. destruct Hc as (Ho & Hcl & Hco & Hes). split_and!; [done|done|..].
      + rewrite commas_ok_app in Hco |- *. naive_solver.
      + apply Forall_app in Hes as [? [[? _] ?]%Forall_cons]. apply Forall_app. by split; [|constructor].
    - rewrite tree_of_node, tree_of_object. cbn [tree_update node_tree]. rewrite alter_key_first by done. by rewrite <-Htv. }
  exists c'. split_and!; [done|done| |done]. by rewrite (hole_segs _ _ _ _ _ (at_path_hole _ _ _ _ _ Hp' Hc')).
Qed.

Lemma first_key_unique k es1 e es2 es1' e' es2' :
  first_key k es1 e → first_key k es1' e' → es1 ++ e :: es2 = es1' ++ e' :: es2' → es1 = es1' ∧ e = e'.
Proof.
  intros [H1 He] [H1' He']. revert es1' H1'.
  induction H1 as [|x es1 Hx _ IH]; intros [|x' es1'] H1' [= ? Heq]; subst x || subst e || idtac; try done.
  - by apply Forall_cons in H1' as [? _].
  - apply Forall_cons in H1' as [_ H1']. by destruct (IH es1' H1' Heq) as [-> ->].
Qed.

(** The parser's objects along it. *)
Lemma at_path_descend c path n pre post off p :
  at_path c path n pre post → object (parsed (off + length (layout pre)) n) = Some p →
  ∃ root, object (parsed off c) = Some root ∧ descend root path = Some p.
Proof.
  intros Hp. revert off. induction Hp as [c|o es1 e es2 cl k path n pre post Hk _ IH]; intros off Ho.
  - rewrite length_layout_nil, Nat.add_0_r in Ho. by exists p.
  - eexists. split; [by apply parsed_object_Some|]. cbn [descend].
    rewrite length_layout_app, Nat.add_assoc, <-value_off_hole in Ho.
    destruct (IH _ Ho) as (root & Hr & Hd).
    pose proof (find_member_object k off o (es1 ++ e :: es2) cl) as Hf. destruct (find_member _ _) as [m|].
    + destruct Hf as (es1' & e' & es2' & Heq & Hk' & ->).
      destruct (first_key_unique _ _ _ _ _ _ _ Hk' Hk (eq_sym Heq)) as [-> ->].
      cbn [member_object member_of place_entry p_value]. by rewrite Hr.
    + destruct Hk as [_ Hk]. apply Forall_app in Hf as [_ [? _]%Forall_cons]. done.
Qed.

(** The object a path leads to. *)
Definition leads_to (off : nat) (c : Cst) (path : list text) (p : ParsedObject) : Prop :=
  ∃ n pre post, at_path c path n pre post ∧ object (parsed (off + length (layout pre)) n) = Some p.

Lemma leads_to_nil off c p : object (parsed off c) = Some p → leads_to off c [] p.
Proof. intros Hp. exists c, [], []. split; [constructor|]. rewrite length_layout_nil, Nat.add_0_r. done. Qed.

Lemma leads_to_cons off o es1 e es2 cl k path p :
  first_key k es1 e →
  leads_to (value_off (entries_end (off + length (seg_text o)) es1) e) (e_value e) path p →
  leads_to off (CNode Braces o (es1 ++ e :: es2) cl) (k :: path) p.
Proof.
  intros Hk (n & pre & post & Hp & Ho). eexists n, _, _. split; [by constructor|].
  rewrite length_layout_app, Nat.add_assoc, <-value_off_hole. done.
Qed.

Lemma object_tree off c : object (parsed off c) = None → ∀ ms, tree_of c ≠ TObject ms.
Proof. destruct c as [s|[] o es cl]; simpl; try done. unfold leaf_tree. by destruct (seg_kind s). Qed.

Lemma descend_object path off c p :
  wf c → object (parsed off c) = Some p →
  match descend p path with
  | Some p' => leads_to off c path p' ∧ ∃ ms, tree_lookup 0 path (tree_of c) = TFound (TObject ms)
  | None => ∀ ms, tree_lookup 0 path (tree_of c) ≠ TFound (TObject ms)
  end.
Proof.
  revert off c p. induction path as [|k path IH]; intros off c p Hc Hp.
  - simpl. split; [by apply leads_to_nil|]. apply object_parsed in Hp as (o & es & cl & -> & _). by eexists.
  - apply object_parsed in Hp as (o & es & cl & -> & ->). cbn [descend].
    pose proof (find_member_object k off o es cl) as Hm. rewrite tree_of_object. cbn [tree_lookup].
    destruct (find_member _ _) as [m|]; [|by rewrite find_key_none].
    destruct Hm as (es1 & e & es2 & -> & Hk & ->). rewrite find_key_first by done.
    cbn [member_object member_of place_entry p_value].
    pose proof (hole_wf _ _ _ _ _ (hole_entry _ _ _ _ _ _ Hc)) as Hv.
    destruct (object _) as [child|] eqn:Ho.
    + specialize (IH _ _ _ Hv Ho). destruct (descend child path).
      * destruct IH as [Hl [ms Hms]]. split; [by apply leads_to_cons|]. exists ms. by eapply tree_lookup_depth.
      * intros ms Hms. apply (IH ms). by eapply tree_lookup_depth.
    + intros ms Hms. pose proof (object_tree _ _ Ho) as Hnot. destruct path as [|k' path]; simpl in Hms.
      * injection Hms as Hms. by apply (Hnot ms).
      * destruct (tree_of (e_value e)) as [| |ms'|] eqn:Et; try done. by destruct (Hnot ms').
Qed.

(** ** The editor's lookup *)

(** A member found lies in an object a path leads to. *)
Definition member_at (off : nat) (c : Cst) (parents : list text) (k : text) (m : ParsedMember) (parent : ParsedObject) : Prop :=
  leads_to off c parents parent ∧ find_member k parent = Some m.

Lemma lookup_from_spec whole depth path off c p :
  wf c → object (parsed off c) = Some p → path ≠ [] → length whole = depth + length path →
  match tree_lookup depth path (tree_of c) with
  | TFound _ => ∃ parents k m parent, path = parents ++ [k] ∧ member_at off c parents k m parent ∧
      lookup_from whole depth p path = Some (Ok (Found m parent))
  | TMissing d => lookup_from whole depth p path = Some (Ok (Missing d))
  | TBlocked d => lookup_from whole depth p path = Some (Err (NotAnObject (take d whole)))
  end.
Proof.
  revert depth off c p. induction path as [|k path IH]; intros depth off c p Hc Hp Hne Hl; [done|].
  pose proof Hp as (o & es & cl & -> & ->)%object_parsed. rewrite tree_of_object. cbn [tree_lookup lookup_from].
  pose proof (find_member_object k off o es cl) as Hm. destruct (find_member _ _) as [m|] eqn:Hf.
  2: { by rewrite find_key_none. }
  destruct Hm as (es1 & e & es2 & -> & Hk & ->). rewrite find_key_first by done. simpl in Hl.
  pose proof (hole_wf _ _ _ _ _ (hole_entry _ _ _ _ _ _ Hc)) as Hv.
  destruct path as [|k' path].
  - simpl in Hl |- *. rewrite (proj2 (Nat.eqb_eq _ _)) by lia.
    eexists [], k, _, _. split_and!; [done| |done]. split; [by apply leads_to_nil|done].
  - rewrite (proj2 (Nat.eqb_neq (depth + 1) _)) by (simpl in Hl; lia).
    cbn [member_object member_of place_entry p_value]. rewrite (Nat.add_1_r depth).
    destruct (object (parsed _ (e_value e))) as [child|] eqn:Ho.
    + specialize (IH (S depth) _ _ _ Hv Ho ltac:(done) ltac:(simpl in *; lia)).
      destruct (tree_lookup _ _ _) as [t|d|d]; [|done..].
      destruct IH as (parents & k'' & m & parent & -> & [Hl' Hm] & Heq). exists (k :: parents), k'', m, parent.
      split_and!; [done| |done]. split; [by apply leads_to_cons|done].
    + pose proof (object_tree _ _ Ho) as Hnot. cbn [tree_lookup].
      destruct (tree_of (e_value e)) as [| |ms|] eqn:Et; try done. by destruct (Hnot ms).
Qed.

Lemma lookup_path_tree path c p :
  wf c → object (parsed 0 c) = Some p →
  match path, tree_lookup 0 path (tree_of c) with
  | [], _ => lookup_path p path = Some (Err EmptyPath)
  | _, TFound _ => ∃ parents k m parent, path = parents ++ [k] ∧ member_at 0 c parents k m parent ∧
      lookup_path p path = Some (Ok (Found m parent))
  | _, TMissing d => lookup_path p path = Some (Ok (Missing d))
  | _, TBlocked d => lookup_path p path = Some (Err (NotAnObject (take d path)))
  end.
Proof.
  intros Hc Hp. destruct path as [|k path]; [done|].
  apply (lookup_from_spec (k :: path) 0 (k :: path) 0); done.
Qed.

(** A member found, as an entry of its object. *)
Lemma member_entry off c parents k m parent :
  member_at off c parents k m parent →
  ∃ o es1 e es2 cl pre post,
    let inner := off + length (layout pre) + length (seg_text o) in
    let n := CNode Braces o (es1 ++ e :: es2) cl in
    at_path c parents n pre post ∧
    first_key k es1 e ∧ parent = parsed_object (off + length (layout pre)) o (es1 ++ e :: es2) cl ∧
    m = member_of (place_entry parsed (entries_end inner es1) (comma_before_next inner None es1) e).
Proof.
  intros [(n & pre & post & Hp & Ho) Hm]. apply object_parsed in Ho as (o & es & cl & -> & ->).
  pose proof (find_member_object k (off + length (layout pre)) o es cl) as He. rewrite Hm in He.
  destruct He as (es1 & e & es2 & -> & Hk & ->). exists o, es1, e, es2, cl, pre, post. done.
Qed.
