(* ===== verification/JsoncRender.v ===== *)
(** * Rendering a value into a document

    [render_value] takes serde_json's pretty text apart at its line breaks and
    indents it for the place it goes to.  Given what serde_json documents of its
    output ([ValueJsonLaws]), the result spells the same tree
    ([render_value_prints]). *)

From S2P Require Import Prelude.
From S2P Require Import Jsonc.
From S2P Require Import JsoncEdit.
From S2P Require Import JsoncLayout.
From S2P Require Import JsoncGrammar.
From S2P Require Import JsoncTree.

#[local] Open Scope nat_scope.

(** ** Cutting text *)

Lemma replace_range_at (a b c new : text) first last :
  first = length a → last = length a + length b →
  replace_range (a ++ b ++ c) first last new = Some (a ++ new ++ c).
Proof.
  intros -> ->. unfold replace_range. rewrite !length_app.
  rewrite (proj2 (Nat.leb_le _ _)), (proj2 (Nat.leb_le _ (_ + (_ + _)))) by lia. simpl.
  rewrite take_app_length, (assoc_L (++) a b c), <-length_app, drop_app_length. done.
Qed.

Lemma insert_str_at (a c new : text) at_ : at_ = length a → insert_str (a ++ c) at_ new = Some (a ++ new ++ c).
Proof. intros ->. apply (replace_range_at a [] c new); simpl; lia. Qed.

Lemma slice_at (a b c : text) first last :
  first = length a → last = length a + length b → slice (a ++ b ++ c) first last = Some b.
Proof.
  intros -> ->. unfold slice. rewrite !length_app.
  rewrite (proj2 (Nat.leb_le _ _)), (proj2 (Nat.leb_le _ (_ + (_ + _)))) by lia. simpl.
  replace (length a + length b - length a) with (length b) by lia. by rewrite drop_app_length, take_app_length.
Qed.

Lemma slice_in_range doc first last : first ≤ last → last ≤ length doc → ∃ t, slice doc first last = Some t.
Proof.
  intros. unfold slice. rewrite !(proj2 (Nat.leb_le _ _)) by lia. simpl. by eexists.
Qed.

(** ** Trimming *)

Definition visible (b : byte) : bool := (32 <? byte_val b)%Z && (byte_val b <? 127)%Z.

Definition no_space_starts (b : byte) (w : text) : bool :=
  match w with a :: _ => negb (bool_decide (a = b)) | [] => false end.

Lemma strip_space_visible chars b t :
  forallb (no_space_starts b) chars = true → strip_space chars (b :: t) = None.
Proof.
  intros Hall. unfold strip_space. induction chars as [|w chars IH]; [done|]. simpl in *.
  apply andb_true_iff in Hall as [Hw Hall]. rewrite bool_decide_eq_false_2; [by apply IH|].
  destruct w as [|a w]; [done|]. intros [t' Ht]. simpl in *. injection Ht as -> _.
  by rewrite bool_decide_eq_true_2 in Hw.
Qed.

Lemma visible_starts b : visible b = true → forallb (no_space_starts b) whitespace_chars = true.
Proof. by destruct b; vm_compute. Qed.

Lemma visible_ends b : visible b = true → forallb (no_space_starts b) (reverse <$> whitespace_chars) = true.
Proof. by destruct b; vm_compute. Qed.

Lemma skip_spaces_visible fuel chars b t :
  forallb (no_space_starts b) chars = true → skip_spaces fuel chars (b :: t) = b :: t.
Proof. intros. destruct fuel; simpl; [done|]. by rewrite strip_space_visible. Qed.

Lemma strip_space_space t : strip_space whitespace_chars (SPACE :: t) = Some t.
Proof.
  unfold strip_space, whitespace_chars. cbn [app List.find].
  do 5 rewrite bool_decide_eq_false_2 by (by intros [? ?]).
  rewrite bool_decide_eq_true_2 by (by exists t). done.
Qed.

Lemma trim_start_spaces n b t : visible b = true → trim_start (replicate n SPACE ++ b :: t) = b :: t.
Proof.
  intros Hb. unfold trim_start.
  assert (∀ fuel, n ≤ fuel → skip_spaces fuel whitespace_chars (replicate n SPACE ++ b :: t) = b :: t) as Hs.
  { induction n as [|n IH]; intros fuel Hf; [by apply skip_spaces_visible, visible_starts|].
    destruct fuel as [|fuel]; [lia|]. cbn [skip_spaces replicate app]. rewrite strip_space_space. apply IH. lia. }
  apply Hs. rewrite length_app, length_replicate. lia.
Qed.

(** ** Trees with other gaps *)

Fixpoint cst_map (f : Seg → Seg) (c : Cst) : Cst :=
  match c with
  | CLeaf s => CLeaf (f s)
  | CNode b o es c =>
      CNode b (f o)
        (map (λ e, {| e_head := f <$> e_head e; e_value := cst_map f (e_value e); e_comma := f <$> e_comma e |}) es) (f c)
  end.

Section cst_map.
  Context (f : Seg → Seg).
  Context (f_raw : ∀ s, raw (f s) = raw s).
  Context (f_kind : ∀ s, seg_kind (f s) = seg_kind s).

Definition map_entry (e : Entry Cst) : Entry Cst :=
  {| e_head := f <$> e_head e; e_value := cst_map f (e_value e); e_comma := f <$> e_comma e |}.

Lemma segs_cst_map c : segs (cst_map f c) = f <$> segs c.
Proof.
  induction c as [s|b o es cl IH] using cst_ind; [done|]. cbn [cst_map]. rewrite !segs_node. cbn [fmap list_fmap].
  f_equal. rewrite fmap_app. f_equal. change (entries_segs (map_entry <$> es) = f <$> entries_segs es).
  induction IH as [|e es He _ IHes]; [done|]. cbn [fmap list_fmap]. rewrite !entries_segs_cons, fmap_app, <-IHes.
  f_equal. unfold entry_segs. simpl. rewrite He, !fmap_app. by destruct (e_comma e).
Qed.

Lemma wf_cst_map c : wf c → wf (cst_map f c).
Proof.
  induction c as [s|b o es cl IH] using cst_ind; [simpl; by rewrite f_kind|].
  intros (Ho & Hcl & Hco & Hes)%wf_node. cbn [cst_map]. apply wf_node. rewrite !f_kind. split_and!; [done|done|..].
  - clear -Hco f_kind. induction es as [|e es IH]; [done|]. destruct Hco as (Hc & Hl & Hco).
    cbn [map commas_ok e_comma]. split_and!; [| |by apply IH].
    + intros s. destruct (e_comma e) as [s'|]; simpl; [|done]. intros [= <-]. rewrite f_kind. by apply Hc.
    + destruct es; [done|]. intros _. destruct (e_comma e); [done|]. by destruct (Hl ltac:(done)).
  - clear -IH Hes f_kind. induction IH as [|e es He _ IHes]; [constructor|]. apply Forall_cons in Hes as [[Hh Hv] Hes].
    constructor; [|by apply IHes]. split; [|by apply He]. destruct b; simpl in *; [|by rewrite Hh].
    destruct Hh as (k & colon & v & -> & Hk & Hc). exists (f k), (f colon), v. by rewrite !f_kind.
Qed.

Lemma tree_cst_map c : tree_of (cst_map f c) = tree_of c.
Proof.
  assert (∀ e, entry_key (map_entry e) = entry_key e) as Hk.
  { intros [[|s h] v o]; unfold entry_key; simpl; by rewrite ?f_kind. }
  induction c as [s|b o es cl IH] using cst_ind.
  - simpl. unfold leaf_tree. by rewrite f_kind, f_raw.
  - destruct b; simpl; f_equal; rewrite map_map; apply map_ext_Forall;
      (eapply List.Forall_impl; [|exact IH]); intros e He; simpl; [|done].
    rewrite He. f_equal. apply Hk.
Qed.

End cst_map.

(** ** What serde_json prints *)

Fixpoint value_tree {number} (number_text : number → text) (v : Value number) : Tree :=
  match v with
  | Null => TAtom [Byte.x6e; Byte.x75; Byte.x6c; Byte.x6c]
  | Bool true => TAtom [Byte.x74; Byte.x72; Byte.x75; Byte.x65]
  | Bool false => TAtom [Byte.x66; Byte.x61; Byte.x6c; Byte.x73; Byte.x65]
  | Number n => TAtom (number_text n)
  | Str s => TString s
  | Array l => TArray (map (value_tree number_text) l)
  | Object m => TObject (map (λ kv, (kv.1, value_tree number_text kv.2)) m)
  end.

(** The gaps of the pretty printer: nothing, a space, or a line break and two
    spaces per level. *)
Definition pretty_gap (g : text) : Prop := g = [] ∨ g = [SPACE] ∨ ∃ k, g = NEWLINE :: replicate (2 * k) SPACE.

Definition pretty_seg (s : Seg) : Prop :=
  pretty_gap (seg_gap s) ∧ NEWLINE ∉ raw s ∧ CR ∉ raw s ∧ ∃ b t, raw s = b :: t ∧ visible b = true.

Definition tight (c : Cst) : Prop := ∀ s, head (segs c) = Some s → seg_gap s = [].

Definition prints `{StringJson} (t : text) (tree : Tree) : Prop :=
  ∃ c, t = layout (segs c) ∧ wf c ∧ Forall seg_ok (segs c) ∧ tight c ∧ tree_of c = tree.

(** A number is printed in visible characters, a value as a JSON text of it, a key as a literal that reads back
    as it; the pretty printer breaks lines only between lexemes, and control
    characters in strings are escaped. *)
Class ValueJsonLaws `{ValueJson} := {
  number_text : number → text;
  number_text_visible n : forallb visible (number_text n) = true;
  to_string_prints v : prints (to_string v) (value_tree number_text v);
  to_string_pretty_prints v :
    ∃ c, to_string_pretty v = layout (segs c) ∧ wf c ∧ Forall seg_ok (segs c) ∧ tight c ∧
      Forall pretty_seg (segs c) ∧ tree_of c = value_tree number_text v;
  str_to_string_reads k : lexeme (str_to_string k) (StringToken k);
}.

(** ** Indenting *)

Definition regap (indent unit newline : text) (s : Seg) : Seg :=
  {| seg_gap := match seg_gap s with
                | b :: g => if bool_decide (b = NEWLINE) then newline ++ indent ++ repeat_text unit (Nat.div2 (length g))
                            else seg_gap s
                | [] => []
                end;
     raw := raw s;
     seg_kind := seg_kind s |}.

Definition spaces (t : text) : Prop := Forall (λ b, is_ascii_whitespace b = true) t.

Lemma gap_spaces o t : spaces t → gap o t.
Proof. induction 1; by constructor. Qed.

Lemma spaces_app t t' : spaces (t ++ t') ↔ spaces t ∧ spaces t'.
Proof. apply Forall_app. Qed.

Lemma spaces_repeat t n : spaces t → spaces (repeat_text t n).
Proof. intros Ht. induction n; [constructor|]. by apply spaces_app. Qed.

Lemma seg_ok_regap `{StringJson} indent unit newline s :
  spaces indent → spaces unit → spaces newline → seg_ok s → seg_ok (regap indent unit newline s).
Proof.
  intros Hi Hu Hn [Hg Hl]. split; [|done]. simpl. destruct (seg_gap s) as [|b g]; [done|].
  case_bool_decide; [|done]. apply gap_spaces. rewrite !spaces_app. auto using spaces_repeat.
Qed.

Lemma lines_from_raw line t rest : NEWLINE ∉ t → lines_from line (t ++ rest) = lines_from (reverse t ++ line) rest.
Proof.
  revert line. induction t as [|b t IH]; intros line Hn; [done|]. apply not_elem_of_cons in Hn as [Hb Hn].
  simpl. rewrite bool_decide_eq_false_2, IH by done. by rewrite reverse_cons, <-(assoc_L (++)).
Qed.

Lemma end_line_other line : head line ≠ Some CR → end_line line = reverse line.
Proof. destruct line as [|b line]; [done|]. simpl. intros Hb. rewrite bool_decide_eq_false_2; congruence. Qed.

Lemma take_while_replicate n b t :
  b ≠ SPACE → take_while (λ b, bool_decide (b = SPACE)) (replicate n SPACE ++ b :: t) = replicate n SPACE.
Proof.
  intros Hb. induction n as [|n IH]; cbn [replicate app take_while].
  - by rewrite bool_decide_eq_false_2.
  - rewrite bool_decide_eq_true_2 by done. by rewrite IH.
Qed.

Lemma visible_not_space b : visible b = true → b ≠ SPACE ∧ is_ascii_whitespace b = false.
Proof. by destruct b; vm_compute. Qed.

Lemma render_line_indented indent unit newline k b t :
  visible b = true →
  render_line indent unit newline (replicate (2 * k) SPACE ++ b :: t) = newline ++ indent ++ repeat_text unit k ++ b :: t.
Proof.
  intros Hb. unfold render_line. rewrite take_while_replicate by by apply visible_not_space.
  rewrite length_replicate, Nat.div2_double, trim_start_spaces by done. done.
Qed.

(** The lines of pretty text from the middle of one on, indented, are the
    lexemes with the gaps changed. *)
Lemma lines_from_layout indent unit newline ss line :
  Forall pretty_seg ss → line ≠ [] → head line ≠ Some CR →
  ∃ more rest, lines_from line (layout ss) = (reverse line ++ more) :: rest ∧
    more ++ mjoin (render_line indent unit newline <$> rest) = layout (regap indent unit newline <$> ss).
Proof.
  intros Hss. revert line. induction Hss as [|s ss (Hg & Hn & Hr & b & t & Hraw & Hb) _ IH]; intros line Hne Hcr.
  { destruct line as [|c line]; [done|]. exists [], []. by rewrite app_nil_r. }
  assert (∀ pre, head (reverse (raw s) ++ pre) ≠ Some CR ∧ reverse (raw s) ++ pre ≠ []) as Hlast.
  { intros pre. assert (∃ x r, reverse (raw s) = x :: r) as (x & r & Hx).
    { rewrite Hraw, reverse_cons. destruct (reverse t); by eexists _, _. }
    rewrite Hx. split; [|done]. simpl. intros [= ->]. apply Hr. rewrite <-(reverse_involutive (raw s)), Hx.
    apply elem_of_reverse. by left. }
  cbn [fmap list_fmap]. rewrite !layout_cons. cbn [raw regap].
  destruct Hg as [Hg|[Hg|[k Hg]]]; cbn [seg_gap regap]; rewrite Hg.
  - cbn [app]. rewrite lines_from_raw by done. destruct (IH (reverse (raw s) ++ line)) as (more & rest & -> & Hm); [apply Hlast..|].
    exists (raw s ++ more), rest. rewrite reverse_app, reverse_involutive, <-!(assoc_L (++)), Hm. done.
  - rewrite bool_decide_eq_false_2 by done. rewrite (assoc_L (++)), lines_from_raw by set_solver.
    rewrite reverse_app, <-(assoc_L (++)).
    destruct (IH (reverse (raw s) ++ reverse [SPACE] ++ line)) as (more & rest & -> & Hm); [apply Hlast..|].
    exists ([SPACE] ++ raw s ++ more), rest.
    rewrite !reverse_app, !reverse_involutive, <-!(assoc_L (++)), Hm. done.
  - rewrite bool_decide_eq_true_2, length_replicate, Nat.div2_double by done. cbn [app lines_from].
    rewrite bool_decide_eq_true_2, end_line_other by done. rewrite (assoc_L (++)).
    rewrite lines_from_raw by (rewrite elem_of_app, elem_of_replicate; naive_solver).
    rewrite reverse_app, <-(assoc_L (++)).
    destruct (IH (reverse (raw s) ++ reverse (replicate (2 * k) SPACE) ++ [])) as (more & rest & -> & Hm); [apply Hlast..|].
    eexists [], _. split; [by rewrite (app_nil_r (reverse line))|]. cbn [app fmap list_fmap mjoin list_join].
    rewrite app_nil_r, reverse_app, !reverse_involutive, <-Hm, Hraw, <-!(assoc_L (++)). cbn [app].
    rewrite render_line_indented by done. by list_simplifier.
Qed.

Lemma render_value_prints `{ValueJsonLaws} v indent unit newline :
  spaces indent → spaces unit → spaces newline →
  ∃ t, render_value v indent unit newline = Some t ∧ prints t (value_tree number_text (sorted_keys v)).
Proof.
  intros Hi Hu Hn. unfold render_value, to_string_pretty_sorted.
  destruct (to_string_pretty_prints (sorted_keys v)) as (c & -> & Hwf & Hok & Htight & Hp & Htree).
  assert (∀ s, raw (regap indent unit newline s) = raw s) as Hraw by done.
  assert (∀ s, seg_kind (regap indent unit newline s) = seg_kind s) as Hkind by done.
  assert (∃ t, match lines (layout (segs c)) with
    | first :: rest => Some (first ++ mjoin (render_line indent unit newline <$> rest))
    | [] => None
    end = Some t ∧ t = layout (segs (cst_map (regap indent unit newline) c))) as (t & -> & ->).
  { rewrite segs_cst_map. unfold tight in Htight. destruct (segs c) as [|s ss] eqn:Hs; [by destruct (segs_nonempty c)|].
    apply Forall_cons in Hp as [(_ & Hnl & Hcr & b & r & Hr & _) Hp].
    unfold lines. rewrite layout_cons, (Htight s eq_refl). cbn [app]. rewrite lines_from_raw, app_nil_r by done.
    destruct (lines_from_layout indent unit newline ss (reverse (raw s)) Hp) as (more & rest & -> & Hm).
    - rewrite Hr, reverse_cons. by destruct (reverse r).
    - rewrite head_reverse. intros Hl%last_Some_elem_of. done.
    - eexists. split; [done|]. cbn [fmap list_fmap]. rewrite layout_cons, <-Hm. cbn [seg_gap regap raw].
      rewrite (Htight s eq_refl), reverse_involutive, <-(assoc_L (++)). done. }
  eexists. split; [done|]. exists (cst_map (regap indent unit newline) c). split_and!.
  - done.
  - by apply wf_cst_map.
  - rewrite segs_cst_map, Forall_fmap. eapply Forall_impl; [exact Hok|]. intros s. by apply seg_ok_regap.
  - intros s. rewrite segs_cst_map. unfold tight in Htight. destruct (segs c) as [|s' ss]; [done|].
    intros [= <-]. simpl. by rewrite (Htight s' eq_refl).
  - by rewrite tree_cst_map.
Qed.
