(* ===== verification/JsoncSet.v ===== *)
(** * Replacing a value in place

    The value a path or an index leads to is a hole of the document; what is
    written there spells the new value, and the bytes around it stay. *)

From S2P Require Import Prelude.
From S2P Require Import Jsonc.
From S2P Require Import JsoncEdit.
From S2P Require Import JsoncLayout.
From S2P Require Import JsoncGrammar.
From S2P Require Import JsoncTree.
From S2P Require Import JsoncPath.
From S2P Require Import JsoncRender.

#[local] Open Scope nat_scope.

(** ** The newline and the indentation of a document are whitespace *)

Lemma take_while_all p t : Forall (λ b, p b = true) (take_while p t).
Proof. induction t as [|b t IH]; simpl; [constructor|]. destruct (p b) eqn:Hb; by constructor. Qed.

Lemma blank_space b : is_blank b = true → is_ascii_whitespace b = true.
Proof. by destruct b; vm_compute. Qed.

Lemma indent_space b : is_indent b = true → is_ascii_whitespace b = true.
Proof. by destruct b; vm_compute. Qed.

Lemma spaces_blanks t : Forall (λ b, is_blank b = true) t → spaces t.
Proof. intros. eapply Forall_impl; [done|]. apply blank_space. Qed.

Lemma spaces_take_while t : spaces (take_while is_blank t).
Proof. apply spaces_blanks, take_while_all. Qed.

Lemma spaces_newline_of doc : spaces (newline_of doc).
Proof. unfold newline_of. destruct (has_crlf doc); repeat constructor. Qed.

Lemma spaces_indentation_unit doc : spaces (indentation_unit doc).
Proof.
  unfold indentation_unit. destruct (head _) as [i|] eqn:Hi; [|repeat constructor].
  assert (i ∈ omap line_indent (lines doc)) as (l & _ & Hl)%list_elem_of_omap.
  { destruct (omap line_indent (lines doc)); simplify_eq/=. by left. }
  unfold line_indent in Hl. destruct (_ && _); simplify_eq. apply spaces_take_while.
Qed.

Lemma line_start_le doc at_ : line_start doc at_ ≤ at_.
Proof. unfold line_start. rewrite length_take. destruct (position _ _); lia. Qed.

(** ** The first gap of a tree *)

Definition first_gap (c : Cst) : text := match segs c with s :: _ => seg_gap s | [] => [] end.

Definition set_gap (g : text) (s : Seg) : Seg := {| seg_gap := g; raw := raw s; seg_kind := seg_kind s |}.

Definition set_first_gap (g : text) (c : Cst) : Cst :=
  match c with
  | CLeaf s => CLeaf (set_gap g s)
  | CNode b o es cl => CNode b (set_gap g o) es cl
  end.

(** The text of a tree without its first gap. *)
Definition body (c : Cst) : text := layout (segs (set_first_gap [] c)).

Lemma layout_body c : layout (segs c) = first_gap c ++ body c.
Proof.
  unfold body, first_gap. destruct c as [s|b o es cl]; cbn [set_first_gap]; rewrite ?segs_leaf, ?segs_node; by rewrite !layout_cons.
Qed.

Lemma layout_set_first_gap g c : layout (segs (set_first_gap g c)) = g ++ body c.
Proof.
  unfold body. destruct c as [s|b o es cl]; cbn [set_first_gap]; rewrite ?segs_leaf, ?segs_node; by rewrite !layout_cons.
Qed.

Lemma wf_set_first_gap g c : wf c → wf (set_first_gap g c).
Proof. by destruct c. Qed.

Lemma tree_set_first_gap g c : tree_of (set_first_gap g c) = tree_of c.
Proof. by destruct c as [|[] ]. Qed.

Lemma tight_body c : tight c → layout (segs c) = body c.
Proof.
  intros Ht. rewrite layout_body. unfold first_gap. unfold tight in Ht.
  destruct (segs c) as [|s ss]; [done|]. by rewrite (Ht s).
Qed.

Section sets.
  Context `{StringJson}.

Lemma segs_ok_first_gap g c : gap false g → Forall seg_ok (segs c) → Forall seg_ok (segs (set_first_gap g c)).
Proof.
  intros Hg. destruct c as [s|b o es cl]; cbn [set_first_gap]; rewrite ?segs_leaf, ?segs_node;
    intros [[_ Hl] Hok]%Forall_cons; by constructor.
Qed.

Lemma gap_first_gap c : Forall seg_ok (segs c) → gap false (first_gap c).
Proof. unfold first_gap. destruct (segs c); [constructor|]. by intros [[? _] _]%Forall_cons. Qed.

Lemma body_prints c : wf c → Forall seg_ok (segs c) → prints (body c) (tree_of c).
Proof.
  intros Hw Hok. exists (set_first_gap [] c). split_and!.
  - done.
  - by apply wf_set_first_gap.
  - apply segs_ok_first_gap; [constructor|done].
  - by destruct c; intros ? [= <-].
  - apply tree_set_first_gap.
Qed.

(** ** Filling a hole *)

(** The text of a tree [c] with the value [n] between its bytes [a] and [d]. *)
Lemma hole_text c n pre post up tail :
  hole c n pre post up →
  layout (segs c) ++ tail = (layout pre ++ first_gap n) ++ body n ++ layout post ++ tail.
Proof. intros Hh. rewrite (hole_segs _ _ _ _ _ Hh), !layout_app, layout_body. by rewrite <-!(assoc_L (++)). Qed.

Lemma hole_segs_ok c n pre post up :
  hole c n pre post up → Forall seg_ok (segs c) →
  Forall seg_ok pre ∧ Forall seg_ok (segs n) ∧ Forall seg_ok post.
Proof. intros Hh. by rewrite (hole_segs _ _ _ _ _ Hh), !Forall_app. Qed.

Lemma fill_hole c n pre post up tail n' :
  good c tail → hole c n pre post up → wf n' → Forall seg_ok (segs n') →
  denotes (layout pre ++ layout (segs n') ++ layout post ++ tail) (up (tree_of n')).
Proof.
  intros (_ & Hok & Ht) Hh Hn Hok'. destruct (hole_segs_ok _ _ _ _ _ Hh Hok) as (Hpre & _ & Hpost).
  destruct (hole_fill _ _ _ _ _ Hh n' Hn) as (c' & Hc' & Hs & Htree). exists c', tail.
  rewrite Hs, !layout_app, <-!(assoc_L (++)). split_and!; [done|split_and!; [done| |done]|done].
  rewrite Hs, !Forall_app. done.
Qed.

Lemma fill_hole_text c n pre post up tail t tree :
  good c tail → hole c n pre post up → prints t tree →
  denotes ((layout pre ++ first_gap n) ++ t ++ layout post ++ tail) (up tree).
Proof.
  intros Hg Hh (p & -> & Hp & Hok & Htight & <-). pose proof Hg as (_ & Hokc & _).
  destruct (hole_segs_ok _ _ _ _ _ Hh Hokc) as (_ & Hn & _).
  rewrite (tight_body p Htight), <-!(assoc_L (++)), (assoc_L (++) (first_gap n)), <-layout_set_first_gap.
  rewrite <-(tree_set_first_gap (first_gap n) p).
  eapply fill_hole; [done|done|by apply wf_set_first_gap|]. by apply segs_ok_first_gap; [apply gap_first_gap|].
Qed.

End sets.

(** ** [set_member] of a member that is there *)

Lemma first_start_value off c : first_start off (segs c) = off + length (first_gap c).
Proof. unfold first_start, first_gap. destruct (segs c); simpl; lia. Qed.

Lemma span_of_value off c :
  start (parsed off c) = off + length (first_gap c) ∧
  end_ (parsed off c) = off + length (first_gap c) + length (body c).
Proof. rewrite start_parsed, end_parsed, layout_body, length_app, first_start_value. lia. Qed.

Section set_values.
  Context `{ValueJsonLaws}.

Lemma parse_root_object c tail p :
  good c tail → object (parsed 0 c) = Some p → parse_root (layout (segs c) ++ tail) = Ok p.
Proof. intros [Ht Hp]%good_parsed Ho. unfold parse_root. rewrite Ht. simpl. rewrite Hp. simpl. by rewrite Ho. Qed.

Lemma render_in_place_prints doc at_ v :
  at_ ≤ length doc →
  ∃ t, render_in_place doc at_ v = Some t ∧ prints t (value_tree number_text (sorted_keys v)).
Proof.
  intros Hat. unfold render_in_place.
  destruct (slice_in_range doc (line_start doc at_) at_ (line_start_le doc at_) Hat) as [before ->].
  apply render_value_prints; [apply spaces_take_while|apply spaces_indentation_unit|apply spaces_newline_of].
Qed.

(** The value of an entry, in the document. *)
Lemma entry_hole c b o es1 e es2 cl pre post up :
  hole c (CNode b o (es1 ++ e :: es2) cl) pre post up →
  hole c (e_value e) (pre ++ o :: entries_segs es1 ++ e_head e)
    ((option_list (e_comma e) ++ entries_segs es2 ++ [cl]) ++ post) (λ t, up (node_tree b es1 e es2 t)).
Proof. intros Hh. eapply hole_trans; [done|]. apply hole_entry. apply Hh. Qed.

(** A document whose tree a path can enter is an object. *)
Lemma root_object c path :
  path ≠ [] → tree_lookup 0 path (tree_of c) ≠ TBlocked 0 → ∃ p, object (parsed 0 c) = Some p.
Proof.
  destruct path as [|k path]; [done|]. intros _ Hb. destruct c as [s|[] o es cl]; [|by eexists|done].
  simpl in Hb. unfold leaf_tree in Hb. by destruct (seg_kind s).
Qed.

(** Writing over a value of the document: the bytes of the value change, and
    the tree has the new value there. *)
Lemma write_value c tail n pre post up at_ v :
  good c tail → hole c n pre post up → at_ ≤ length (layout (segs c) ++ tail) →
  ∃ a d t, layout (segs c) ++ tail = a ++ body n ++ d ∧
    render_in_place (layout (segs c) ++ tail) at_ v = Some t ∧
    replace_range (layout (segs c) ++ tail) (start (parsed (length (layout pre)) n)) (end_ (parsed (length (layout pre)) n)) t
      = Some (a ++ t ++ d) ∧
    prints (body n) (tree_of n) ∧ prints t (value_tree number_text (sorted_keys v)) ∧
    denotes (a ++ t ++ d) (up (value_tree number_text (sorted_keys v))).
Proof.
  intros Hg Hh Hat. pose proof Hg as (_ & Hok & _).
  destruct (render_in_place_prints _ _ v Hat) as (t & Ht & Hp).
  destruct (span_of_value (length (layout pre)) n) as [Hs He].
  exists (layout pre ++ first_gap n), (layout post ++ tail), t. rewrite Ht, (hole_text _ _ _ _ _ tail Hh).
  split_and!; [done|done| |apply body_prints|done|by eapply fill_hole_text].
  - apply replace_range_at; rewrite length_app; lia.
  - apply Hh.
  - by destruct (hole_segs_ok _ _ _ _ _ Hh Hok) as (_ & ? & _).
Qed.

(** The member a path names, as the editor finds it. *)
Lemma found_member c p path old :
  wf c → object (parsed 0 c) = Some p → path ≠ [] → tree_lookup 0 path (tree_of c) = TFound old →
  ∃ parents k m parent, path = parents ++ [k] ∧ member_at 0 c parents k m parent ∧
    lookup_path p path = Some (Ok (Found m parent)).
Proof.
  intros Hc Hp Hne Hold. pose proof (lookup_path_tree path c p Hc Hp) as Hl.
  destruct path; [done|]. by rewrite Hold in Hl.
Qed.

(** Where its value lies. *)
Lemma member_value c parents k m parent :
  wf c → member_at 0 c parents k m parent →
  ∃ n pre post, at_path c (parents ++ [k]) n pre post ∧
    value_start m = start (parsed (length (layout pre)) n) ∧
    value_end m = end_ (parsed (length (layout pre)) n) ∧
    member_array m = array (parsed (length (layout pre)) n) ∧
    key_start m ≤ length (layout pre).
Proof.
  intros Hc (o & es1 & e & es2 & cl & pre & post & Hp & Hk & _ & ->)%member_entry. simpl in Hp.
  eexists (e_value e), _, _. split; [by apply at_path_snoc|].
  simpl. rewrite value_off_hole, <-length_layout_app. split_and!; try done.
  pose proof (hole_wf _ _ _ _ _ (at_path_hole _ _ _ _ _ Hp Hc)) as (_ & _ & _ & Hes)%wf_node.
  apply Forall_app in Hes as [_ [[(k' & colon & v & He & _) _] _]%Forall_cons].
  unfold entries_end, entry_segs. rewrite He. simpl.
  rewrite !length_layout_app, length_layout_cons, length_layout_app, length_layout_cons.
  unfold seg_text. rewrite !length_app. lia.
Qed.

Lemma set_member_found doc t path old v :
  denotes doc t → path ≠ [] → tree_lookup 0 path t = TFound old →
  ∃ a b d b', doc = a ++ b ++ d ∧ set_member doc path v = Some (a ++ b' ++ d, Ok ()) ∧
    prints b old ∧ prints b' (value_tree number_text (sorted_keys v)) ∧
    denotes (a ++ b' ++ d) (tree_update path (λ _, value_tree number_text (sorted_keys v)) t).
Proof.
  intros (c & tail & -> & Hg & ->) Hne Hold.
  destruct (root_object c path Hne) as [p Hp]; [by rewrite Hold|].
  destruct (found_member c p path old (proj1 Hg) Hp Hne Hold) as (parents & k & m & parent & -> & Hm & Hl).
  destruct (member_value _ _ _ _ _ (proj1 Hg) Hm) as (n & pre & post & Hat & Hs & He & _ & Hks).
  pose proof (at_path_hole _ _ _ _ _ Hat (proj1 Hg)) as Hh.
  rewrite (at_path_lookup _ _ _ _ _ Hat) in Hold. injection Hold as <-.
  destruct (write_value c tail n pre post _ (key_start m) v Hg Hh) as (a & d & t' & Heq & Hr & Hw & Hb & Hp' & Hd).
  { rewrite (hole_segs _ _ _ _ _ Hh), !layout_app, !length_app. lia. }
  exists a, (body n), d, t'. split_and!; try done.
  unfold set_member. rewrite (parse_root_object c tail p Hg Hp). cbn [check]. rewrite Hl. cbn [check].
  by rewrite Hr, Hs, He, Hw.
Qed.

(** ** Arrays *)

Definition parsed_array (off : nat) (o : Seg) (es : list (Entry Cst)) (cl : Seg) : ParsedArray :=
  {| opening_bracket := off + length (seg_gap o);
     closing_bracket := token_start (seg_token (entries_end (off + length (seg_text o)) es) cl);
     elements := element_of <$> place_entries parsed (off + length (seg_text o)) None es;
     array_trailing_comma := has_trailing es |}.

Definition tree_elements (es : list (Entry Cst)) : list Tree := tree_of ∘ e_value <$> es.

Lemma tree_of_array o es cl : tree_of (CNode Brackets o es cl) = TArray (tree_elements es).
Proof. done. Qed.

(** [array_at] finds the array a path leads to. *)
Lemma array_found c p path ts :
  wf c → object (parsed 0 c) = Some p → path ≠ [] → tree_lookup 0 path (tree_of c) = TFound (TArray ts) →
  ∃ o es cl pre post, at_path c path (CNode Brackets o es cl) pre post ∧
    ts = tree_elements es ∧ array_at p path = Some (Ok (Some (parsed_array (length (layout pre)) o es cl))).
Proof.
  intros Hc Hp Hne Hts.
  destruct (found_member c p path _ Hc Hp Hne Hts) as (parents & k & m & parent & -> & Hm & Hl).
  destruct (member_value _ _ _ _ _ Hc Hm) as (n & pre & post & Hat & _ & _ & Ha & _).
  rewrite (at_path_lookup _ _ _ _ _ Hat) in Hts. injection Hts as Hts. destruct n as [s|[] o es cl].
  - simpl in Hts. unfold leaf_tree in Hts. by destruct (seg_kind s).
  - done.
  - injection Hts as <-. exists o, es, cl, pre, post. split_and!; [done|done|].
    unfold array_at. rewrite Hl, Ha. done.
Qed.

(** What [array_at] says of a path that leads elsewhere. *)
Lemma array_not_found c p path :
  wf c → object (parsed 0 c) = Some p → path ≠ [] →
  match tree_lookup 0 path (tree_of c) with
  | TFound (TArray _) => True
  | TFound _ => array_at p path = Some (Err (NotAnArray path))
  | TMissing _ => array_at p path = Some (Ok None)
  | TBlocked d => array_at p path = Some (Err (NotAnObject (take d path)))
  end.
Proof.
  intros Hc Hp Hne. pose proof (lookup_path_tree path c p Hc Hp) as Hl.
  destruct path as [|k path]; [done|]. destruct (tree_lookup 0 _ _) as [t|d|d] eqn:Ht.
  - destruct Hl as (parents & k' & m & parent & Hpath & Hm & Hl). rewrite Hpath in Ht, Hl |- *.
    destruct (member_value _ _ _ _ _ Hc Hm) as (n & pre & post & Hat & _ & _ & Ha & _).
    rewrite (at_path_lookup _ _ _ _ _ Hat) in Ht. injection Ht as <-. unfold array_at. rewrite Hl, Ha.
    destruct n as [s|[] o es cl]; simpl; [unfold leaf_tree; by destruct (seg_kind s)|done..].
  - unfold array_at. by rewrite Hl.
  - unfold array_at. by rewrite Hl.
Qed.

(** An element of an array, as the parser places it. *)
Lemma element_at_placed off o es cl path index :
  match es !! index with
  | Some e => ∃ es1 es2, es = es1 ++ e :: es2 ∧ length es1 = index ∧
      element_at (parsed_array off o es cl) path index =
      Ok (element_of (place_entry parsed (entries_end (off + length (seg_text o)) es1)
                        (comma_before_next (off + length (seg_text o)) None es1) e))
  | None => element_at (parsed_array off o es cl) path index = Err (NoElement path (length es) index)
  end.
Proof.
  unfold element_at, parsed_array. cbn [elements]. rewrite list_lookup_fmap.
  destruct (place_entries _ _ _ es !! index) as [p|] eqn:Hp.
  - apply place_entries_lookup in Hp as (es1 & e & es2 & -> & <- & ->).
    rewrite list_lookup_middle by done. by exists es1, es2.
  - apply lookup_ge_None in Hp. rewrite length_place_entries in Hp.
    rewrite lookup_ge_None_2 by done. simpl. by rewrite length_fmap, length_place_entries.
Qed.

Lemma tree_elements_insert es1 e es2 t :
  <[length es1 := t]> (tree_elements (es1 ++ e :: es2)) = tree_elements es1 ++ t :: tree_elements es2.
Proof.
  unfold tree_elements. rewrite fmap_app. cbn [fmap list_fmap].
  by rewrite <-(length_fmap (tree_of ∘ e_value) es1), insert_app_r_alt, Nat.sub_diag.
Qed.

Lemma set_element_found doc t path ts index old v :
  denotes doc t → path ≠ [] → tree_lookup 0 path t = TFound (TArray ts) → ts !! index = Some old →
  ∃ a b d b', doc = a ++ b ++ d ∧ set_element doc path index v = Some (a ++ b' ++ d, Ok ()) ∧
    prints b old ∧ prints b' (value_tree number_text (sorted_keys v)) ∧
    denotes (a ++ b' ++ d)
      (tree_update path (λ _, TArray (<[index := value_tree number_text (sorted_keys v)]> ts)) t).
Proof.
  intros (c & tail & -> & Hg & ->) Hne Hts Hold.
  destruct (root_object c path Hne) as [p Hp]; [by rewrite Hts|].
  destruct (array_found c p path ts (proj1 Hg) Hp Hne Hts) as (o & es & cl & pre & post & Hat & -> & Ha).
  pose proof (at_path_hole _ _ _ _ _ Hat (proj1 Hg)) as Hh.
  unfold tree_elements in Hold. rewrite list_lookup_fmap in Hold.
  pose proof (element_at_placed (length (layout pre)) o es cl path index) as He.
  destruct (es !! index) as [e|]; [|done]. injection Hold as <-. destruct He as (es1 & es2 & -> & <- & He).
  pose proof (entry_hole _ _ _ _ _ _ _ _ _ _ Hh) as Hv.
  destruct (write_value c tail _ _ _ _ (element_start (element_of (place_entry parsed
    (entries_end (length (layout pre) + length (seg_text o)) es1)
    (comma_before_next (length (layout pre) + length (seg_text o)) None es1) e))) v Hg Hv)
    as (a & d & t' & Heq & Hr & Hw & Hb & Hp' & Hd).
  { cbn [element_start element_of place_entry p_value]. rewrite value_off_hole, <-length_layout_app.
    rewrite (proj1 (span_of_value _ _)), (hole_text _ _ _ _ _ tail Hv), !length_app. lia. }
  exists a, (body (e_value e)), d, t'. split_and!; try done.
  - unfold set_element. rewrite (parse_root_object c tail p Hg Hp). cbn [check]. rewrite Ha. cbn [check ok_or].
    rewrite He. cbn [check]. rewrite Hr. cbn [element_start element_end element_of place_entry p_value].
    rewrite value_off_hole, <-length_layout_app, Hw. done.
  - by rewrite tree_elements_insert.
Qed.

End set_values.
