(* ===== verification/JsoncInsert.v ===== *)
(** * Adding a member to an object

    The new member goes before the closing brace: on a line of its own when the
    brace has one, after the content of its line otherwise.  Either way the gap
    before the brace is split where no comment is, so the document spells the
    object with the member last ([insert_object_member_adds]). *)

From S2P Require Import Prelude.
From S2P Require Import Jsonc.
From S2P Require Import JsoncEdit.
From S2P Require Import JsoncLayout.
From S2P Require Import JsoncGrammar.
From S2P Require Import JsoncTree.
From S2P Require Import JsoncPath.
From S2P Require Import JsoncRender.
From S2P Require Import JsoncSet.

#[local] Open Scope nat_scope.

(** ** Splitting a gap *)

Lemma suffix_last {A} (x y r : list A) z : x ++ r = y ++ [z] → r ≠ [] → z ∈ r.
Proof.
  intros Heq Hr. destruct (last r) as [w|] eqn:Hw; [|by apply last_None in Hw].
  apply last_Some in Hw as [r' ->]. rewrite (assoc_L (++)) in Heq.
  apply app_inj_tail in Heq as [_ ->]. set_solver.
Qed.

(** What comes before blanks at the end of a gap is a gap: a comment does not
    end in them. *)
Definition on_line (b : byte) : Prop := is_ascii_whitespace b = true ∧ b ≠ NEWLINE.

Lemma gap_cut (g a b x : text) :
  a ++ b = x ++ g → (b = [] ∨ ∀ r, r ≠ [] → (∃ y, x = y ++ r) → (∃ z, b = r ++ z) → False) →
  (b = [] ∧ a = x ++ g) ∨ ∃ a', a = x ++ a' ∧ g = a' ++ b.
Proof.
  intros Heq Hcut. destruct Hcut as [->|Hcut]; [left; by rewrite app_nil_r in Heq|right].
  apply app_eq_inv in Heq as [(k & -> & ->)|(k & -> & ->)]; [by exists k|].
  destruct k as [|b0 k]; [exists []; by rewrite !app_nil_r|].
  exfalso. apply (Hcut (b0 :: k)); [done|by eexists|by eexists].
Qed.

Lemma gap_split_end a b : gap false (a ++ b) → NEWLINE ∉ b → SLASH ∉ b → gap false a ∧ spaces b.
Proof.
  intros Hg. remember (a ++ b) as g eqn:Heq. revert a b Heq.
  induction Hg as [|x g Hx Hg IH|body g Hb Hg IH|body g Hb Hg IH|]; intros a b Heq Hn Hs; [| | | |done].
  - symmetry in Heq. apply app_eq_nil in Heq as [-> ->]. split; constructor.
  - destruct a as [|y a]; simplify_eq/=.
    + split; [constructor|]. constructor; [done|]. apply (IH [] g); set_solver.
    + destruct (IH a b eq_refl Hn Hs). split; [by apply gap_space|done].
  - destruct (gap_cut g a b (SLASH :: SLASH :: body ++ [NEWLINE])) as [[-> ->]|(a' & -> & ->)].
    + rewrite <-Heq. simpl. by rewrite <-(assoc_L (++)).
    + right. intros r Hr [y Hy] [z ->].
      assert (NEWLINE ∈ r) as Hin by (eapply (suffix_last y (SLASH :: SLASH :: body)); done). set_solver.
    + split; [|constructor]. rewrite <-!app_comm_cons, <-(assoc_L (++)). by apply gap_line.
    + destruct (IH a' b eq_refl Hn Hs). split; [|done].
      rewrite <-!app_comm_cons, <-(assoc_L (++)). by apply gap_line.
  - destruct (gap_cut g a b (SLASH :: STAR :: body ++ [STAR; SLASH])) as [[-> ->]|(a' & -> & ->)].
    + rewrite <-Heq. simpl. by rewrite <-(assoc_L (++)).
    + right. intros r Hr [y Hy] [z ->].
      assert (SLASH ∈ r) as Hin; [|set_solver].
      apply (suffix_last y (SLASH :: STAR :: body ++ [STAR])); [|done]. rewrite <-Hy. simpl. by rewrite <-(assoc_L (++)).
    + split; [|constructor]. rewrite <-!app_comm_cons, <-(assoc_L (++)). by apply gap_block.
    + destruct (IH a' b eq_refl Hn Hs). split; [|done].
      rewrite <-!app_comm_cons, <-(assoc_L (++)). by apply gap_block.
Qed.

Lemma gap_prefix a b : gap false (a ++ b) → Forall on_line b → gap false a.
Proof.
  intros Hg Hb. rewrite Forall_forall in Hb. apply (gap_split_end a b Hg).
  - by intros [_ ?]%Hb.
  - by intros [? _]%Hb.
Qed.

Lemma gap_split_start o a b : gap o (a ++ b) → SLASH ∉ a → spaces a ∧ gap o b.
Proof.
  induction a as [|x a IH]; intros Hg Hs; [split; [constructor|done]|].
  apply not_elem_of_cons in Hs as [Hx Hs]. inversion Hg; simplify_eq/=. destruct (IH ltac:(done) Hs).
  split; [by constructor|done].
Qed.

(** ** The line a byte is on *)

Lemma position_split `{EqDecision A} (x : A) l i :
  position (λ y, bool_decide (y = x)) l = Some i → ∃ l1 l2, l = l1 ++ x :: l2 ∧ length l1 = i ∧ x ∉ l1.
Proof.
  revert i. induction l as [|y l IH]; intros i; simpl; [done|]. case_bool_decide as Hy.
  - intros [= <-]. subst y. exists [], l. split_and!; [done|done|set_solver].
  - intros (j & Hj & ->)%fmap_Some. destruct (IH j Hj) as (l1 & l2 & -> & <- & Hn).
    exists (y :: l1), l2. split_and!; [done|done|set_solver].
Qed.

Lemma line_start_spec doc at_ :
  ∃ p1 p2, take at_ doc = p1 ++ p2 ∧ line_start doc at_ = length p1 ∧ NEWLINE ∉ p2 ∧
    (p1 = [] ∨ last p1 = Some NEWLINE).
Proof.
  unfold line_start. destruct (position _ _) as [i|] eqn:Hi.
  - apply position_split in Hi as (l1 & l2 & Hl & <- & Hn).
    assert (take at_ doc = (reverse l2 ++ [NEWLINE]) ++ reverse l1) as Ht.
    { rewrite <-(reverse_involutive (take at_ doc)), Hl. by rewrite reverse_app, reverse_cons. }
    eexists _, _. split_and!; [exact Ht| | |right; apply last_snoc].
    + rewrite Ht, !length_app, !length_reverse. lia.
    + by rewrite elem_of_reverse.
  - apply position_eq_None in Hi. rewrite elem_of_reverse in Hi.
    exists [], (take at_ doc). split_and!; [done|done|done|by left].
Qed.

(** A byte that is not whitespace keeps the line from starting before it. *)
Lemma line_start_after doc (x g y : text) b :
  doc = (x ++ [b]) ++ g ++ y → is_ascii_whitespace b = false →
  let at_ := length (x ++ [b]) + length g in
  ∃ before, slice doc (line_start doc at_) at_ = Some before ∧ NEWLINE ∉ before ∧
    ((∃ g1, g = g1 ++ before ∧ line_start doc at_ = length (x ++ [b]) + length g1) ∨ b ∈ before).
Proof.
  intros -> Hb at_. destruct (line_start_spec ((x ++ [b]) ++ g ++ y) at_) as (p1 & p2 & Ht & Hl & Hn & _).
  assert (take at_ ((x ++ [b]) ++ g ++ y) = (x ++ [b]) ++ g) as Htake.
  { unfold at_. by rewrite (assoc_L (++)), <-length_app, take_app_length. }
  rewrite Htake in Ht. exists p2. split_and!; [|done|].
  - rewrite Hl. rewrite (assoc_L (++)), Ht, <-(assoc_L (++)). apply slice_at; [done|].
    rewrite <-length_app, <-Ht, length_app. done.
  - apply app_eq_inv in Ht as [(k & Hk & ->)|(k & -> & ->)].
    + destruct k as [|k0 k]; [left; exists []|right].
      * rewrite app_nil_r in Hk. rewrite Hl, <-Hk. simpl. by split; [|lia].
      * apply elem_of_app. left. by apply (suffix_last p1 x).
    + left. exists k. split; [done|]. by rewrite Hl, length_app.
Qed.

(** ** The last byte of a lexeme *)

Lemma scan_string_last e t : scan_string e t = Some (length t) → ∃ r, t = r ++ [QUOTE].
Proof.
  revert e. induction t as [|b t IH]; intros e; [done|]. simpl.
  destruct e; [|repeat case_bool_decide].
  3: { intros [= Hl]. destruct t; [|done]. subst b. by exists []. }
  all: intros (n & Hn & [= <-])%fmap_Some; destruct (IH _ Hn) as [r ->]; by exists (b :: r).
Qed.

Lemma ends_atom_space b : ends_atom b = false → is_ascii_whitespace b = false.
Proof. unfold ends_atom. by intros [? _]%orb_false_iff. Qed.

Section inserts.
  Context `{StringJson}.

Lemma lexeme_last t k : lexeme t k → ∃ r b, t = r ++ [b] ∧ is_ascii_whitespace b = false.
Proof.
  intros [b k' Hk|body v Hs _|t' Hne Hall].
  - exists [], b. split; [done|]. by apply punctuation_facts in Hk as [? _].
  - apply scan_string_last in Hs as [r ->]. by exists (QUOTE :: r), QUOTE.
  - destruct (last t') as [b|] eqn:Hb; [|by apply last_None in Hb].
    apply last_Some in Hb as [r ->]. exists r, b. split; [done|].
    apply Forall_app in Hall as [_ [Hb _]%Forall_cons]. by apply ends_atom_space.
Qed.

Lemma layout_last ss : ss ≠ [] → Forall seg_ok ss → ∃ x b, layout ss = x ++ [b] ∧ is_ascii_whitespace b = false.
Proof.
  intros Hne Hok. destruct (last ss) as [s|] eqn:Hs; [|by apply last_None in Hs].
  apply last_Some in Hs as [ss' ->]. apply Forall_app in Hok as [_ [[_ Hl] _]%Forall_cons].
  destruct (lexeme_last _ _ Hl) as (r & b & Hr & Hb). exists (layout ss' ++ seg_gap s ++ r), b.
  rewrite layout_app, layout_cons, Hr. split; [|done]. unfold layout at 2. simpl. rewrite app_nil_r.
  by rewrite <-!(assoc_L (++)).
Qed.

Lemma comma_raw s : seg_ok s → seg_kind s = Comma → raw s = [COMMA].
Proof.
  intros [_ Hl] Hk. rewrite Hk in Hl. inversion Hl as [b k Hb| |]; subst; try done. f_equal.
  revert Hb. by destruct b; vm_compute.
Qed.

(** ** The text of a member *)

(** A key, a colon and a value, with nothing before the key. *)
Definition prints_member (t k : text) (tree : Tree) : Prop :=
  ∃ ks colon v, t = layout (ks :: colon :: segs v) ∧ Forall seg_ok (ks :: colon :: segs v) ∧
    seg_gap ks = [] ∧ seg_kind ks = StringToken k ∧ seg_kind colon = Colon ∧ wf v ∧ tree_of v = tree.

Lemma prints_member_colon k key_text t tree :
  lexeme key_text (StringToken k) → prints t tree → prints_member (key_text ++ [COLON; SPACE] ++ t) k tree.
Proof.
  intros Hk (p & -> & Hp & Hok & Htight & <-).
  exists {| seg_gap := []; raw := key_text; seg_kind := StringToken k |},
    {| seg_gap := []; raw := [COLON]; seg_kind := Colon |}, (set_first_gap [SPACE] p).
  rewrite !layout_cons, layout_set_first_gap, (tight_body p Htight). split_and!; try done.
  - constructor; [split; [constructor|done]|]. constructor; [split; [constructor|by constructor]|].
    apply segs_ok_first_gap; [|done]. by apply gap_space; [|constructor].
  - by apply wf_set_first_gap.
  - apply tree_set_first_gap.
Qed.

(** ** A member at the end of an object *)

Definition all_commas (es : list (Entry Cst)) : Prop := Forall (λ e, e_comma e ≠ None) es.

Lemma closing_gap c tail b o es cl pre post up :
  good c tail → hole c (CNode b o es cl) pre post up → gap false (seg_gap cl).
Proof.
  intros Hg Hh. destruct (hole_segs_ok _ _ _ _ _ Hh (proj1 (proj2 Hg))) as (_ & Hok & _). rewrite segs_node in Hok.
  by apply Forall_cons in Hok as [_ [_ [[? _] _]%Forall_cons]%Forall_app].
Qed.

(** An entry put after the others of a container, before a gap [w] that ends at
    its closing bracket. *)
Lemma add_entry c tail b o es cl pre post up e w :
  good c tail → hole c (CNode b o es cl) pre post up → all_commas es →
  entry_wf b e → e_comma e = None → Forall seg_ok (entry_segs segs e) → gap false w →
  denotes (layout (pre ++ o :: entries_segs es) ++ layout (entry_segs segs e) ++ w ++ raw cl ++ layout post ++ tail)
    (up (tree_of (CNode b o (es ++ [e]) cl))).
Proof.
  intros Hg Hh Hall He Hec Hoke Hw. pose proof (hole_wf _ _ _ _ _ Hh) as (Hko & Hkcl & Hco & Hwes)%wf_node.
  destruct (hole_segs_ok _ _ _ _ _ Hh (proj1 (proj2 Hg))) as (_ & Hok & _). rewrite segs_node in Hok.
  apply Forall_cons in Hok as [Ho [Hes [[_ Hcl] _]%Forall_cons]%Forall_app].
  assert (wf (CNode b o (es ++ [e]) (set_gap w cl))) as Hn'.
  { apply wf_node. split_and!; [done|done| |].
    - apply commas_ok_app. split_and!; [done| |done]. split_and!; [|done|done]. intros s. by rewrite Hec.
    - apply Forall_app. split; [done|]. by constructor; [|constructor]. }
  pose proof (fill_hole _ _ _ _ _ tail _ Hg Hh Hn') as Hd.
  replace (tree_of (CNode b o (es ++ [e]) cl)) with (tree_of (CNode b o (es ++ [e]) (set_gap w cl))) by by destruct b.
  rewrite segs_node, entries_segs_app, entries_segs_single in Hd.
  rewrite layout_cons, !layout_app, layout_cons in Hd. cbn [seg_gap set_gap raw] in Hd.
  rewrite layout_app, layout_cons. list_simplifier. apply Hd. constructor; [done|]. rewrite !Forall_app. split_and!; [done|done|].
  by constructor; [|constructor].
Qed.

Lemma add_member c tail o es cl pre post up g1 w w1 w2 t k tree :
  good c tail → hole c (CNode Braces o es cl) pre post up → all_commas es →
  seg_gap cl = g1 ++ w → Forall on_line w → spaces w1 → gap false w2 → prints_member t k tree →
  denotes (layout (pre ++ o :: entries_segs es) ++ g1 ++ w1 ++ t ++ w2 ++ raw cl ++ layout post ++ tail)
    (up (TObject (tree_members es ++ [(k, tree)]))).
Proof.
  intros Hg Hh Hall Hgap Hw Hw1 Hw2 (ks & colon & v & -> & Hoks & Hks & Hkk & Hkc & Hv & <-).
  apply Forall_cons in Hoks as [[_ Hlk] Hoks].
  assert (gap false g1) as Hg1 by (eapply gap_prefix; [|done]; rewrite <-Hgap; by eapply closing_gap).
  set (e := {| e_head := [set_gap (g1 ++ w1) ks; colon]; e_value := v; e_comma := None |}).
  assert (entry_segs segs e = set_gap (g1 ++ w1) ks :: colon :: segs v) as Hsegs.
  { unfold entry_segs, e. simpl. by rewrite app_nil_r. }
  pose proof (add_entry c tail Braces o es cl pre post up e w2 Hg Hh Hall) as Hd.
  rewrite tree_of_object, tree_members_app, Hsegs in Hd. unfold tree_members at 2, entry_key in Hd. simpl in Hd. rewrite Hkk in Hd.
  rewrite layout_cons. rewrite layout_cons in Hd. cbn [seg_gap raw set_gap] in Hd. rewrite Hks. list_simplifier. apply Hd.
  - split; [|done]. by exists (set_gap (g1 ++ w1) ks), colon, k.
  - done.
  - constructor; [|by constructor]. split; [|done]. simpl. apply gap_app; [done|by apply gap_spaces].
  - done.
Qed.

End inserts.

Lemma forallb_Forall {A} (p : A → bool) l : forallb p l = true ↔ Forall (λ a, p a = true) l.
Proof. induction l; simpl; [by split; [constructor|]|]. rewrite andb_true_iff, Forall_cons. by rewrite IHl. Qed.

Lemma is_indent_on_line b : is_indent b = true → b ≠ NEWLINE → on_line b.
Proof. intros Hb%indent_space Hn. done. Qed.

Lemma is_blank_on_line b : is_blank b = true → on_line b.
Proof. by destruct b; vm_compute. Qed.

Lemma take_while_split p t : ∃ rest, t = take_while p t ++ rest ∧ ∀ b, head rest = Some b → p b = false.
Proof.
  induction t as [|b t (rest & Ht & Hh)]; simpl; [by exists []|]. destruct (p b) eqn:Hb.
  - exists rest. simpl. by rewrite <-Ht.
  - exists (b :: t). split; [done|]. by intros ? [= <-].
Qed.

(** The blanks before a byte that follows a gap lie in the gap. *)
Lemma content_end_gap (x g y : text) b :
  is_ascii_whitespace b = false →
  ∃ g1 w, g = g1 ++ w ∧ Forall on_line w ∧
    content_end ((x ++ [b]) ++ g ++ y) (length (x ++ [b]) + length g) = length (x ++ [b]) + length g1.
Proof.
  intros Hb. unfold content_end. rewrite (assoc_L (++)), <-length_app, take_app_length, reverse_app.
  assert (∃ g1 w, g = g1 ++ w ∧ take_while is_blank (reverse g ++ reverse (x ++ [b])) = reverse w ∧
    Forall (λ b, is_blank b = true) w) as (g1 & w & -> & -> & Hw).
  { destruct (take_while_split is_blank (reverse g)) as (rest & Hg & Hh).
    exists (reverse rest), (reverse (take_while is_blank (reverse g))). split_and!.
    - rewrite <-reverse_app, <-Hg. by rewrite reverse_involutive.
    - rewrite reverse_involutive. rewrite Hg at 1. rewrite <-(assoc_L (++)).
      pose proof (take_while_all is_blank (reverse g)) as Hall.
      revert Hh Hall. generalize (take_while is_blank (reverse g)) as l. intros l Hh Hall. clear Hg.
      induction Hall as [|b' l Hb' _ IH]; simpl; [|by rewrite Hb', IH].
      destruct rest as [|b' rest]; simpl; [|by rewrite Hh].
      rewrite reverse_app. simpl. destruct (is_blank b) eqn:E; [|done].
      apply blank_space in E. by rewrite E in Hb.
    - apply Forall_reverse, take_while_all. }
  exists g1, w. split_and!; [done| |rewrite !length_app, length_reverse; lia].
  eapply Forall_impl; [done|]. apply is_blank_on_line.
Qed.

Section insert_values.
  Context `{ValueJsonLaws}.

Lemma render_member_prints k v indent unit newline :
  spaces indent → spaces unit → spaces newline →
  ∃ t, render_member k v indent unit newline = Some t ∧ prints_member t k (value_tree number_text (sorted_keys v)).
Proof.
  intros Hi Hu Hn. destruct (render_value_prints v indent unit newline Hi Hu Hn) as (t & Ht & Hp).
  unfold render_member. rewrite Ht. eexists. split; [done|]. apply prints_member_colon; [apply str_to_string_reads|done].
Qed.

(** A caller's [decorate] keeps what the member spells. *)
Definition decorates (decorate : text → text → text) : Prop :=
  ∀ t newline k tree, spaces newline → prints_member t k tree → prints_member (decorate t newline) k tree.

(** The document around the gap before an object's closing brace, and the last
    byte before the gap. *)
Lemma close_context c tail path b o es cl pre post :
  good c tail → hole c (CNode b o es cl) pre post path →
  let head := layout (pre ++ o :: entries_segs es) in
  layout (segs c) ++ tail = head ++ seg_gap cl ++ raw cl ++ layout post ++ tail ∧
  ∃ x z, head = x ++ [z] ∧ is_ascii_whitespace z = false.
Proof.
  intros Hg Hh head. split.
  - unfold head. rewrite (hole_segs _ _ _ _ _ Hh), segs_node, !layout_app, !layout_cons, layout_app, layout_cons.
    by list_simplifier.
  - apply layout_last; [by destruct pre|].
    destruct (hole_segs_ok _ _ _ _ _ Hh (proj1 (proj2 Hg))) as (? & Hok & _). rewrite segs_node in Hok.
    apply Forall_cons in Hok as [? [? _]%Forall_app]. apply Forall_app. by split; [|constructor].
Qed.

(** What is inserted, between what stays of the gap before the brace. *)
Definition inserted (doc head rest : text) (cl : Seg) (r : option text) (k : text) (tree : Tree) : Prop :=
  ∃ g1 w w' w1 t w2, seg_gap cl = g1 ++ w ++ w' ∧ Forall on_line (w ++ w') ∧ spaces w1 ∧ spaces w2 ∧
    prints_member t k tree ∧ r = Some ((head ++ g1) ++ (w1 ++ t ++ w2) ++ w' ++ rest).

Lemma insert_before_close_text doc head rest cl k v decorate depth x z :
  doc = head ++ seg_gap cl ++ rest → head = x ++ [z] → is_ascii_whitespace z = false → decorates decorate →
  inserted doc head rest cl (insert_before_close doc depth (length head + length (seg_gap cl)) k v decorate) k
    (value_tree number_text (sorted_keys v)).
Proof.
  intros Hdoc Hx Hz Hdec. pose proof Hdoc as Hdoc'. rewrite Hx in Hdoc'.
  destruct (line_start_after doc x (seg_gap cl) rest z Hdoc' Hz) as (before & Hs & Hn & Hbefore).
  rewrite <-Hx in Hs, Hbefore. unfold insert_before_close. rewrite Hs.
  pose proof (spaces_newline_of doc) as Hnl. pose proof (spaces_indentation_unit doc) as Hu.
  destruct (forallb is_indent before) eqn:Hown.
  - apply forallb_Forall in Hown. assert (spaces before) as Hsb by (eapply Forall_impl; [done|apply indent_space]).
    destruct Hbefore as [(g1 & Hgap & Hls)|Hin].
    2: { rewrite Forall_forall in Hown. apply Hown, indent_space in Hin. by rewrite Hz in Hin. }
    destruct (render_member_prints k v (before ++ indentation_unit doc) (indentation_unit doc) (newline_of doc))
      as (t & -> & Ht); [by apply spaces_app|done|done|].
    exists g1, [], before, (before ++ indentation_unit doc), (decorate t (newline_of doc)), (newline_of doc).
    split_and!; [done| |by apply spaces_app|done|by apply Hdec|].
    + rewrite Forall_forall in Hown |- *. intros y Hy. apply is_indent_on_line; [auto|]. by intros ->.
    + rewrite Hls. rewrite Hdoc at 1. rewrite Hgap, <-(assoc_L (++) g1), (assoc_L (++) head).
      apply insert_str_at. by rewrite length_app.
  - destruct (content_end_gap x (seg_gap cl) rest z Hz) as (g1 & w & Hgap & Hw & Hce).
    rewrite <-Hdoc', <-Hx in Hce. rewrite Hce.
    destruct (render_member_prints k v (repeat_text (indentation_unit doc) (depth + 1)) (indentation_unit doc) (newline_of doc))
      as (t & -> & Ht); [by apply spaces_repeat|done|done|].
    exists g1, w, [], (newline_of doc ++ repeat_text (indentation_unit doc) (depth + 1)), (decorate t (newline_of doc)),
      (newline_of doc ++ repeat_text (indentation_unit doc) depth).
    split_and!; [by rewrite app_nil_r|by rewrite app_nil_r|..].
    + apply spaces_app. split; [done|by apply spaces_repeat].
    + apply spaces_app. split; [done|by apply spaces_repeat].
    + by apply Hdec.
    + rewrite Hdoc at 1. rewrite Hgap, <-(assoc_L (++) g1), (assoc_L (++) head).
      rewrite (replace_range_at (head ++ g1) w rest); [by list_simplifier|by rewrite length_app|].
      rewrite !length_app. lia.
Qed.

Lemma on_line_spaces w : Forall on_line w → spaces w.
Proof. intros Hw. eapply Forall_impl; [done|]. by intros b [? _]. Qed.

Lemma insert_before_close_adds c tail path o es cl pre post k v decorate depth :
  let doc := layout (segs c) ++ tail in
  let head := layout (pre ++ o :: entries_segs es) in
  good c tail → at_path c path (CNode Braces o es cl) pre post → all_commas es → decorates decorate →
  ∃ g1 w d m, doc = (head ++ g1) ++ w ++ d ∧ spaces w ∧
    insert_before_close doc depth (length head + length (seg_gap cl)) k v decorate = Some ((head ++ g1) ++ m ++ d) ∧
    denotes ((head ++ g1) ++ m ++ d)
      (tree_update path (λ _, TObject (tree_members es ++ [(k, value_tree number_text (sorted_keys v))])) (tree_of c)).
Proof.
  intros doc head Hg Hp Hall Hdec.
  destruct (close_context _ _ _ _ _ _ _ _ _ Hg (at_path_hole _ _ _ _ _ Hp (proj1 Hg))) as [Hdoc (x & z & Hx & Hz)].
  fold doc in Hdoc. fold head in Hdoc, Hx.
  destruct (insert_before_close_text doc head _ cl k v decorate depth x z Hdoc Hx Hz Hdec)
    as (g1 & w & w' & w1 & t & w2 & Hgap & Hw & Hw1 & Hw2 & Ht & ->).
  exists g1, w, (w' ++ raw cl ++ layout post ++ tail), (w1 ++ t ++ w2). split_and!.
  - rewrite Hdoc, Hgap. by list_simplifier.
  - apply Forall_app in Hw as [Hw _]. by apply on_line_spaces.
  - done.
  - assert (gap false (w2 ++ w')) as Hw2'.
    { apply gap_spaces, spaces_app. split; [done|]. apply Forall_app in Hw as [_ Hw']. by apply on_line_spaces. }
    pose proof (add_member c tail o es cl pre post _ g1 (w ++ w') w1 (w2 ++ w') t k _ Hg
      (at_path_hole _ _ _ _ _ Hp (proj1 Hg)) Hall Hgap Hw Hw1 Hw2' Ht) as Hd.
    fold head in Hd. list_simplifier. exact Hd.
Qed.

(** ** The separator after the last member *)

Definition object_span (off : nat) (o : Seg) (es : list (Entry Cst)) (cl : Seg) : JsoncObjectSpan :=
  let p := parsed_object off o es cl in
  {| span_closing_brace := closing_brace p;
     span_is_empty := bool_decide (members p = []);
     span_last_member_end := value_end <$> last (members p);
     span_has_trailing_comma := has_trailing_comma p |}.

Lemma object_span_at c tail path o es cl pre post :
  good c tail → at_path c path (CNode Braces o es cl) pre post →
  jsonc_object_span (layout (segs c) ++ tail) path = Ok (Some (object_span (length (layout pre)) o es cl)).
Proof.
  intros Hg Hp. destruct (good_parsed c tail Hg) as [Ht Hw]. unfold jsonc_object_span. rewrite Ht. simpl. rewrite Hw. simpl.
  destruct (at_path_descend _ _ _ _ _ 0 _ Hp (parsed_object_Some _ _ _ _)) as (root & -> & Hd). simpl.
  rewrite Hd. done.
Qed.

Lemma object_span_closing pre o es cl :
  span_closing_brace (object_span (length (layout pre)) o es cl) =
  length (layout (pre ++ o :: entries_segs es)) + length (seg_gap cl).
Proof. simpl. unfold entries_end. rewrite length_layout_app, length_layout_cons. lia. Qed.

Lemma object_span_empty off o es cl : span_is_empty (object_span off o es cl) = bool_decide (es = []).
Proof. simpl. by destruct es. Qed.

Lemma object_span_last pre o es e cl :
  e_comma e = None →
  span_last_member_end (object_span (length (layout pre)) o (es ++ [e]) cl) =
  Some (length (layout (pre ++ o :: entries_segs (es ++ [e])))).
Proof.
  intros He. simpl. rewrite place_entries_app, fmap_app. cbn [place_entries fmap list_fmap]. rewrite last_snoc. simpl.
  f_equal. rewrite end_parsed, entries_segs_app, entries_segs_single. unfold entry_segs, value_off, entries_end.
  rewrite He. simpl. rewrite app_nil_r, length_layout_app, length_layout_cons, !length_layout_app. lia.
Qed.

Lemma commas_ok_trailing es : commas_ok es → has_trailing es = true ∨ es = [] → all_commas es.
Proof.
  intros Hco [Ht| ->]; [|constructor]. unfold has_trailing in Ht. destruct (last es) as [e|] eqn:Hl; [|done].
  apply last_Some in Hl as [es' ->]. apply commas_ok_app in Hco as (_ & _ & Hall).
  apply Forall_app. split; [by apply Hall|]. constructor; [|constructor]. simpl in Ht. by destruct (e_comma e).
Qed.

Definition comma_seg : Seg := {| seg_gap := []; raw := [COMMA]; seg_kind := Comma |}.

Lemma comma_seg_ok : seg_ok comma_seg.
Proof. split; [constructor|by constructor]. Qed.

(** Entries that all have a comma: one is added after the last if it has none. *)
Definition missing_comma (es : list (Entry Cst)) : bool := negb (bool_decide (es = [])) && negb (has_trailing es).

Definition separator (es : list (Entry Cst)) : text := if missing_comma es then [COMMA] else [].

Definition comma_last (es : list (Entry Cst)) : list (Entry Cst) :=
  match last es with
  | Some e => if missing_comma es
              then take (pred (length es)) es ++ [{| e_head := e_head e; e_value := e_value e; e_comma := Some comma_seg |}]
              else es
  | None => []
  end.

Lemma comma_last_spec es :
  comma_last es = es ∧ missing_comma es = false ∨
  ∃ es1 e, es = es1 ++ [e] ∧ e_comma e = None ∧ missing_comma es = true ∧
    comma_last es = es1 ++ [{| e_head := e_head e; e_value := e_value e; e_comma := Some comma_seg |}].
Proof.
  unfold comma_last. destruct (last es) as [e|] eqn:Hl; [|apply last_None in Hl as ->; by left].
  destruct (missing_comma es) eqn:Hm; [right|by left]. apply last_Some in Hl as [es1 ->].
  exists es1, e. split_and!; [done| |done|].
  - unfold missing_comma, has_trailing in Hm. rewrite last_snoc in Hm. apply andb_true_iff in Hm as [_ Hm].
    simpl in Hm. by destruct (e_comma e).
  - rewrite length_app, Nat.add_comm. simpl. by rewrite take_app_length.
Qed.

Lemma layout_comma_last es : layout (entries_segs (comma_last es)) = layout (entries_segs es) ++ separator es.
Proof.
  unfold separator. destruct (comma_last_spec es) as [[-> ->]|(es1 & e & -> & He & -> & ->)]; [by rewrite app_nil_r|].
  rewrite !entries_segs_app, !entries_segs_single. unfold entry_segs. rewrite He. simpl.
  rewrite app_nil_r, !layout_app. by list_simplifier.
Qed.

Section comma_last.
  Context (b : Bracket) (o cl : Seg) (es : list (Entry Cst)).
  Context (es_wf : wf (CNode b o es cl)).

Lemma all_commas_last : all_commas (comma_last es).
Proof.
  apply wf_node in es_wf as (_ & _ & Hco & _).
  destruct (comma_last_spec es) as [[-> Hm]|(es1 & e & -> & He & _ & ->)].
  - apply commas_ok_trailing; [done|]. unfold missing_comma in Hm. case_bool_decide; [by right|left].
    simpl in Hm. by destruct (has_trailing es).
  - apply commas_ok_app in Hco as (_ & _ & Hall). apply Forall_app. split; [by apply Hall|]. by constructor.
Qed.

Lemma wf_comma_last : wf (CNode b o (comma_last es) cl).
Proof.
  pose proof all_commas_last as Hall. pose proof es_wf as (Ho & Hcl & Hco & Hes)%wf_node. apply wf_node.
  destruct (comma_last_spec es) as [[-> _]|(es1 & e & Heq & He & _ & Hlast)]; [done|].
  rewrite Hlast in *. rewrite Heq in Hco, Hes. apply Forall_app in Hall as [Hall _].
  apply commas_ok_app in Hco as (? & _ & _). apply Forall_app in Hes as [? [[? ?] _]%Forall_cons].
  split_and!; [done|done| |].
  - apply commas_ok_app. split_and!; [done| |done]. split_and!; [by intros ? [= <-]|done|done].
  - apply Forall_app. split; [done|]. by constructor; [|constructor].
Qed.

End comma_last.

Lemma tree_comma_last b o cl es : tree_of (CNode b o (comma_last es) cl) = tree_of (CNode b o es cl).
Proof.
  destruct (comma_last_spec es) as [[-> _]|(es1 & e & -> & _ & _ & ->)]; [done|].
  rewrite !tree_of_node. by destruct b.
Qed.


Lemma segs_ok_comma_last es : Forall seg_ok (entries_segs es) → Forall seg_ok (entries_segs (comma_last es)).
Proof.
  destruct (comma_last_spec es) as [[-> _]|(es1 & e & -> & He & _ & ->)]; [done|].
  rewrite !entries_segs_app, !entries_segs_single, !Forall_app. unfold entry_segs. rewrite He. simpl.
  rewrite app_nil_r, !Forall_app. intros (? & ? & ?). split_and!; [done..|]. constructor; [apply comma_seg_ok|constructor].
Qed.


(** The container with a comma after its last entry, in the document. *)
Lemma fill_comma_last c tail b o es cl pre post path :
  good c tail → at_path c path (CNode b o es cl) pre post →
  ∃ c', good c' tail ∧ at_path c' path (CNode b o (comma_last es) cl) pre post ∧ tree_of c' = tree_of c ∧
    layout (pre ++ o :: entries_segs (comma_last es)) = layout (pre ++ o :: entries_segs es) ++ separator es.
Proof.
  intros Hg Hp. pose proof Hg as (Hc & Hok & Ht). pose proof (at_path_hole _ _ _ _ _ Hp Hc) as Hh.
  pose proof (hole_wf _ _ _ _ _ Hh) as Hn.
  destruct (at_path_fill _ _ _ _ _ _ Hp Hc (wf_comma_last _ _ _ _ Hn)) as (c' & Hp' & Hc' & Hsc & Htc).
  destruct (hole_segs_ok _ _ _ _ _ Hh Hok) as (Hpre & Hnok & Hpost). rewrite segs_node in Hnok.
  apply Forall_cons in Hnok as [Hoo [Hoe Hocl]%Forall_app]. exists c'. split_and!; [|done|..].
  - split_and!; [done| |done]. rewrite Hsc, segs_node, !Forall_app. split_and!; [done| |done]. constructor; [done|].
    apply Forall_app. split; [by apply segs_ok_comma_last|done].
  - rewrite Htc, tree_comma_last. symmetry. exact (hole_tree _ _ _ _ _ Hh).
  - rewrite !layout_app, !layout_cons, layout_comma_last. by list_simplifier.
Qed.

(** After it every member has a comma, and the tree is the same. *)
Lemma separate_last_at c tail path o es cl pre post :
  good c tail → at_path c path (CNode Braces o es cl) pre post →
  ∃ c', good c' tail ∧ at_path c' path (CNode Braces o (comma_last es) cl) pre post ∧
    tree_of c' = tree_of c ∧
    layout (pre ++ o :: entries_segs (comma_last es)) = layout (pre ++ o :: entries_segs es) ++ separator es ∧
    separate_last (layout (segs c) ++ tail) path (object_span (length (layout pre)) o es cl) =
    Some (layout (segs c') ++ tail, Ok (object_span (length (layout pre)) o (comma_last es) cl)).
Proof.
  intros Hg Hp. destruct (fill_comma_last _ _ _ _ _ _ _ _ _ Hg Hp) as (c' & Hg' & Hp' & Htc & Hlay).
  exists c'. split_and!; [done..|].
  destruct (close_context _ _ _ _ _ _ _ _ _ Hg (at_path_hole _ _ _ _ _ Hp (proj1 Hg))) as [Hdoc _].
  destruct (close_context _ _ _ _ _ _ _ _ _ Hg' (at_path_hole _ _ _ _ _ Hp' (proj1 Hg'))) as [Hdoc' _].
  unfold separate_last. rewrite object_span_empty. cbn [span_has_trailing_comma object_span parsed_object has_trailing_comma].
  fold (missing_comma es). rewrite Hlay in Hdoc'. unfold separator in Hdoc'.
  destruct (comma_last_spec es) as [[Heq Hm]|(es1 & e & -> & He & Hm & _)]; rewrite Hm in *.
  - rewrite Heq, Hdoc, Hdoc', app_nil_r. done.
  - rewrite object_span_last by done. cbn [ok_or check]. rewrite Hdoc, insert_str_at by done.
    rewrite <-(assoc_L (++)) in Hdoc'. rewrite <-Hdoc', (object_span_at _ _ _ _ _ _ _ _ Hg' Hp'). done.
Qed.

(** ** [insert_object_member] *)

Lemma object_at_path path c ms :
  wf c → tree_lookup 0 path (tree_of c) = TFound (TObject ms) →
  ∃ o es cl pre post, at_path c path (CNode Braces o es cl) pre post ∧ ms = tree_members es.
Proof.
  intros Hc Hms. assert (∃ p, object (parsed 0 c) = Some p) as [p Hp].
  { destruct (object (parsed 0 c)) as [p|] eqn:Hp; [by eexists|]. pose proof (object_tree _ _ Hp) as Hn.
    destruct path; simpl in Hms; [injection Hms as Hms; by destruct (Hn ms)|].
    destruct (tree_of c) as [| |ms'|] eqn:Et; try done. by destruct (Hn ms'). }
  pose proof (descend_object path 0 c p Hc Hp) as Hd. destruct (descend p path) as [p'|]; [|by destruct (Hd ms)].
  destruct Hd as [(n & pre & post & Hat & Ho) _]. apply object_parsed in Ho as (o & es & cl & -> & _).
  exists o, es, cl, pre, post. split; [done|]. rewrite (at_path_lookup _ _ _ _ _ Hat) in Hms. by injection Hms.
Qed.

Lemma insert_object_member_adds doc t path ms k v decorate :
  denotes doc t → tree_lookup 0 path t = TFound (TObject ms) → decorates decorate →
  ∃ a sep b w d m, doc = a ++ b ++ w ++ d ∧ (sep = [] ∨ sep = [COMMA]) ∧ spaces w ∧
    insert_object_member_with doc path k v decorate = Some (a ++ sep ++ b ++ m ++ d, Ok ()) ∧
    denotes (a ++ sep ++ b ++ m ++ d)
      (tree_update path (λ _, TObject (ms ++ [(k, value_tree number_text (sorted_keys v))])) t).
Proof.
  intros (c & tail & -> & Hg & ->) Hms Hdec.
  destruct (object_at_path path c ms (proj1 Hg) Hms) as (o & es & cl & pre & post & Hp & ->).
  destruct (separate_last_at _ _ _ _ _ _ _ _ Hg Hp)
    as (c' & Hg' & Hp' & Htc & Hlay & Hs).
  pose proof (hole_wf _ _ _ _ _ (at_path_hole _ _ _ _ _ Hp (proj1 Hg))) as Hn.
  assert (tree_members (comma_last es) = tree_members es) as Htes.
  { pose proof (tree_comma_last Braces o cl es) as Ht. rewrite !tree_of_object in Ht. by injection Ht. }
  pose proof (all_commas_last _ _ _ _ Hn) as Hall.
  destruct (insert_before_close_adds c' tail path o (comma_last es) cl pre post k v decorate (length path) Hg' Hp' Hall Hdec)
    as (g1 & w & d & m & Hdoc' & Hw & Hi & Hd).
  destruct (close_context _ _ _ _ _ _ _ _ _ Hg (at_path_hole _ _ _ _ _ Hp (proj1 Hg))) as [Hdoc _].
  destruct (close_context _ _ _ _ _ _ _ _ _ Hg' (at_path_hole _ _ _ _ _ Hp' (proj1 Hg'))) as [Hdoc2 _].
  exists (layout (pre ++ o :: entries_segs es)), (separator es), g1, w, d, m. rewrite Hlay in Hdoc', Hi, Hd, Hdoc2.
  rewrite Hdoc', <-!(assoc_L (++)) in Hdoc2. do 2 apply app_inv_head in Hdoc2.
  rewrite <-!(assoc_L (++)) in Hi, Hd. split_and!; [by rewrite Hdoc, <-Hdoc2| |done| |by rewrite <-Htc, <-Htes].
  { unfold separator. destruct (missing_comma es); auto. }
  unfold insert_object_member_with. rewrite (object_span_at _ _ _ _ _ _ _ _ Hg Hp). cbn [check ok_or].
  by rewrite Hs, object_span_closing, Hlay, Hi.
Qed.

(** Without an object to add to, nothing changes. *)
Lemma insert_object_member_absent doc t path k v decorate :
  denotes doc t → (∀ ms, tree_lookup 0 path t ≠ TFound (TObject ms)) →
  insert_object_member_with doc path k v decorate = Some (doc, Err ParentAbsent).
Proof.
  intros (c & tail & -> & Hg & ->) Hms. destruct (good_parsed c tail Hg) as [Ht Hw].
  unfold insert_object_member_with, jsonc_object_span. rewrite Ht. simpl. rewrite Hw. simpl.
  destruct (object (parsed 0 c)) as [p|] eqn:Hp; [|done]. simpl.
  pose proof (descend_object path 0 c p (proj1 Hg) Hp) as Hd. destruct (descend p path) as [p'|]; [|done].
  destruct Hd as [_ [ms Hd]]. by destruct (Hms ms).
Qed.

End insert_values.
