(* ===== verification/JsoncPut.v ===== *)
(** * Setting a member and appending an element

    [set_member] and [insert_member] against the tree: what they leave says what
    the document said with the value at the path ([tree_put]), and a refused call
    leaves the document.  [push_element] adds at the end of an array. *)

From S2P Require Import Prelude.
From S2P Require Import Jsonc.
From S2P Require Import JsoncEdit.
From S2P Require Import JsoncLayout.
From S2P Require Import JsoncGrammar.
From S2P Require Import JsoncTree.
From S2P Require Import JsoncPath.
From S2P Require Import JsoncRender.
From S2P Require Import JsoncSet.
From S2P Require Import JsoncInsert.

#[local] Open Scope nat_scope.

(** ** Putting a value at a path of a tree *)

Definition nest_tree (keys : list text) (x : Tree) : Tree := foldr (λ k inner, TObject [(k, inner)]) x keys.

(** A key that is absent is added last, with objects for the rest of the path. *)
Fixpoint tree_put (path : list text) (x : Tree) (t : Tree) : Tree :=
  match path, t with
  | [], _ => x
  | k :: path, TObject ms =>
      match find_key k ms with
      | Some _ => TObject (alter_key k (tree_put path x) ms)
      | None => TObject (ms ++ [(k, nest_tree path x)])
      end
  | _ :: _, _ => t
  end.

Lemma find_key_alter k f ms : find_key k (alter_key k f ms) = f <$> find_key k ms.
Proof.
  induction ms as [|[k' t] ms IH]; simpl; [done|]. case_bool_decide; simpl.
  - by rewrite bool_decide_eq_true_2.
  - by rewrite bool_decide_eq_false_2.
Qed.

Lemma alter_key_ext k f g ms t :
  find_key k ms = Some t → f t = g t → alter_key k f ms = alter_key k g ms.
Proof.
  induction ms as [|[k' t'] ms IH]; simpl; [done|]. case_bool_decide.
  - intros [= ->]. by intros ->.
  - intros Hk Hf. by rewrite IH.
Qed.

Lemma find_key_snoc k ms t : find_key k ms = None → find_key k (ms ++ [(k, t)]) = Some t.
Proof.
  induction ms as [|[k' t'] ms IH]; simpl; [by rewrite bool_decide_eq_true_2|]. by case_bool_decide.
Qed.

Lemma tree_lookup_nest d path x : tree_lookup d path (nest_tree path x) = TFound x.
Proof. revert d. induction path as [|k path IH]; intros d; simpl; [done|]. by rewrite bool_decide_eq_true_2. Qed.

(** What was put is found. *)
Lemma tree_lookup_put d path x t :
  (∀ d', tree_lookup d path t ≠ TBlocked d') → tree_lookup d path (tree_put path x t) = TFound x.
Proof.
  revert d t. induction path as [|k path IH]; intros d t Hb; [done|]. simpl in *.
  destruct t as [| |ms|]; try by destruct (Hb d). destruct (find_key k ms) as [t|] eqn:Hk; simpl.
  - rewrite find_key_alter, Hk. simpl. by apply IH.
  - rewrite find_key_snoc by done. apply tree_lookup_nest.
Qed.

Lemma tree_put_found d path x t old : tree_lookup d path t = TFound old → tree_put path x t = tree_update path (λ _, x) t.
Proof.
  revert d t. induction path as [|k path IH]; intros d t; [done|]. simpl. destruct t as [| |ms|]; try done.
  destruct (find_key k ms) as [t|] eqn:Hk; [|done]. intros Ht. f_equal. eapply alter_key_ext; [done|]. by eapply IH.
Qed.

Lemma tree_put_missing d path x t d' :
  tree_lookup d path t = TMissing d' →
  ∃ i k ms, d' = d + i ∧ path !! i = Some k ∧ tree_lookup d (take i path) t = TFound (TObject ms) ∧
    tree_put path x t = tree_update (take i path) (λ _, TObject (ms ++ [(k, nest_tree (drop (i + 1) path) x)])) t.
Proof.
  revert d t. induction path as [|k path IH]; intros d t; [done|]. simpl. destruct t as [| |ms|]; try done.
  destruct (find_key k ms) as [t|] eqn:Hk.
  - intros (i & k' & ms' & -> & Hi & Hl & Hp)%IH. exists (S i), k', ms'. simpl. rewrite Hk.
    split_and!; [lia|done|done|]. f_equal. by eapply alter_key_ext.
  - intros [= <-]. exists 0, k, ms. simpl. by rewrite drop_0, Nat.add_0_r.
Qed.

Section puts.
  Context `{ValueJsonLaws}.

Definition put_tree (v : Value number) : Tree := value_tree number_text (sorted_keys v).

Lemma put_tree_nest keys v : put_tree (nest keys v) = nest_tree keys (put_tree v).
Proof. induction keys as [|k keys IH]; [done|]. unfold put_tree in *. simpl. by rewrite IH. Qed.

Lemma decorates_id : decorates (λ member _, member).
Proof. by intros t newline k tree _ Ht. Qed.

(** ** [insert_member] and [set_member] *)

(** The refusals of a path. *)
Definition path_error (path : list text) (found : TreeLookup) : option JsoncError :=
  match path, found with
  | [], _ => Some EmptyPath
  | _, TBlocked 0 => Some RootNotObject
  | _, TBlocked d => Some (NotAnObject (take d path))
  | _, _ => None
  end.

Lemma parse_root_other c tail :
  good c tail → object (parsed 0 c) = None → parse_root (layout (segs c) ++ tail) = Err RootNotObject.
Proof. intros [Ht Hp]%good_parsed Ho. unfold parse_root. rewrite Ht. simpl. rewrite Hp. simpl. by rewrite Ho. Qed.

(** What the edits that look up a path do first. *)
Lemma lookup_document doc t path :
  denotes doc t → path ≠ [] →
  match tree_lookup 0 path t with
  | TBlocked 0 => parse_root doc = Err RootNotObject
  | found => ∃ p, parse_root doc = Ok p ∧
      match found with
      | TFound _ => ∃ m parent, lookup_path p path = Some (Ok (Found m parent))
      | TMissing d => lookup_path p path = Some (Ok (Missing d))
      | TBlocked d => lookup_path p path = Some (Err (NotAnObject (take d path)))
      end
  end.
Proof.
  intros (c & tail & -> & Hg & ->) Hne. destruct (object (parsed 0 c)) as [p|] eqn:Hp.
  - pose proof (lookup_path_tree path c p (proj1 Hg) Hp) as Hl. pose proof (parse_root_object c tail p Hg Hp) as Hr.
    destruct path as [|k path]; [done|]. apply object_parsed in Hp as (o & es & cl & -> & _).
    destruct (tree_lookup _ _ _) as [old|d|[|d]] eqn:Ht.
    + destruct Hl as (? & ? & m & parent & _ & _ & Hl). exists p. split; [done|]. by exists m, parent.
    + by exists p.
    + rewrite tree_of_object in Ht. simpl in Ht. destruct (find_key k _) as [t|]; [|done].
      exfalso. clear -Ht. assert (∀ d d' path t, tree_lookup d path t = TBlocked d' → d ≤ d') as Hd.
      { intros d d' q. revert d. induction q as [|k' q IH]; intros d t'; simpl; [done|].
        destruct t' as [| |ms'|]; try (intros [= <-]; lia). destruct (find_key k' ms'); [|done].
        intros Hq%IH. lia. }
      apply Hd in Ht. lia.
    + by exists p.
  - pose proof (object_tree _ _ Hp) as Hn. destruct path as [|k path]; [done|]. simpl.
    destruct (tree_of c) as [| |ms|] eqn:Et; try by apply parse_root_other. by destruct (Hn ms).
Qed.

Lemma insert_member_missing doc t path d v decorate :
  denotes doc t → path ≠ [] → tree_lookup 0 path t = TMissing d → decorates decorate →
  ∃ a sep b w e m, doc = a ++ b ++ w ++ e ∧ (sep = [] ∨ sep = [COMMA]) ∧ spaces w ∧
    insert_member_with doc path v decorate = Some (a ++ sep ++ b ++ m ++ e, Ok ()) ∧
    denotes (a ++ sep ++ b ++ m ++ e) (tree_put path (put_tree v) t).
Proof.
  intros Hd Hne Hm Hdec. pose proof (lookup_document doc t path Hd Hne) as Hl. rewrite Hm in Hl.
  destruct Hl as (p & Hr & Hl).
  destruct (tree_put_missing 0 path (put_tree v) t d Hm) as (i & k & ms & -> & Hi & Hms & Hput).
  destruct (insert_object_member_adds doc t (take i path) ms k (nest (drop (i + 1) path) v) decorate Hd Hms Hdec)
    as (a & sep & b & w & e & m & Hdoc & Hsep & Hw & Hins & Hd').
  exists a, sep, b, w, e, m. split_and!; try done.
  - unfold insert_member_with. rewrite Hr. cbn [check]. rewrite Hl. cbn [check]. simpl. by rewrite Hi.
  - rewrite Hput, <-put_tree_nest. done.
Qed.

(** [set_member] puts the value at the path. *)
Lemma set_member_puts doc t path v :
  denotes doc t → path_error path (tree_lookup 0 path t) = None →
  ∃ doc', set_member doc path v = Some (doc', Ok ()) ∧ denotes doc' (tree_put path (put_tree v) t).
Proof.
  intros Hd He. assert (path ≠ []) as Hne by by destruct path.
  destruct (tree_lookup 0 path t) as [old|d|d] eqn:Ht.
  - destruct (set_member_found doc t path old v Hd Hne Ht) as (a & b & e & b' & _ & Hs & _ & _ & Hd').
    eexists. split; [done|]. by rewrite (tree_put_found 0 path _ t old Ht).
  - destruct (insert_member_missing doc t path d v _ Hd Hne Ht decorates_id) as (a & sep & b & w & e & m & _ & _ & _ & Hi & Hd').
    eexists. split; [|done]. pose proof (lookup_document doc t path Hd Hne) as Hl. rewrite Ht in Hl.
    destruct Hl as (p & Hr & Hl). unfold set_member. rewrite Hr. cbn [check]. rewrite Hl. cbn [check]. done.
  - destruct path, d; done.
Qed.

End puts.

(** ** Appending an element *)

Section push.
  Context `{ValueJsonLaws}.

Lemma add_element c tail o es cl pre post up g w t tree :
  good c tail → hole c (CNode Brackets o es cl) pre post up → all_commas es →
  gap false g → gap false w → prints t tree →
  denotes (layout (pre ++ o :: entries_segs es) ++ g ++ t ++ w ++ raw cl ++ layout post ++ tail)
    (up (TArray (tree_elements es ++ [tree]))).
Proof.
  intros Hg Hh Hall Hgg Hw (p & -> & Hp & Hok & Htight & <-).
  set (e := {| e_head := []; e_value := set_first_gap g p; e_comma := None |}).
  pose proof (add_entry c tail Brackets o es cl pre post up e w Hg Hh Hall) as Hd.
  rewrite tree_of_array in Hd. unfold tree_elements in Hd. rewrite fmap_app in Hd. simpl in Hd.
  rewrite tree_set_first_gap in Hd. unfold entry_segs in Hd. simpl in Hd.
  rewrite app_nil_r, layout_set_first_gap, <-(tight_body p Htight), <-(assoc_L (++)) in Hd. apply Hd.
  - split; [done|]. by apply wf_set_first_gap.
  - done.
  - by apply segs_ok_first_gap.
  - done.
Qed.

(** What is written for the new element: a separator after the last element,
    and the element between blanks somewhere in the gap before the bracket. *)
Definition pushed (head rest : text) (es : list (Entry Cst)) (cl : Seg) (r : option text) (tree : Tree) : Prop :=
  ∃ g w s t s', seg_gap cl = g ++ w ∧ gap false g ∧ gap false w ∧ spaces s ∧ spaces s' ∧ prints t tree ∧
    r = Some (head ++ separator es ++ g ++ (s ++ t ++ s') ++ w ++ rest).

Lemma insert_twice (head mid rest sep t : text) n n' :
  n = length head → n' = length head + length sep + length mid →
  (let? doc := insert_str (head ++ mid ++ rest) n sep in insert_str doc n' t) = Some (head ++ sep ++ mid ++ t ++ rest).
Proof.
  intros -> ->. rewrite insert_str_at by done.
  replace (head ++ sep ++ mid ++ rest) with ((head ++ sep ++ mid) ++ rest) by by list_simplifier.
  rewrite insert_str_at by (rewrite !length_app; lia). by list_simplifier.
Qed.

Lemma compact_prints v : prints (to_string (sorted_keys v)) (put_tree v).
Proof. apply to_string_prints. Qed.

(** The last element of an array, in the text before the bracket's gap. *)
Lemma last_element pre o es cl :
  wf (CNode Brackets o es cl) → Forall seg_ok (entries_segs es) →
  match last (elements (parsed_array (length (layout pre)) o es cl)) with
  | None => es = []
  | Some l => es ≠ [] ∧ element_start l ≤ length (layout (pre ++ o :: entries_segs es)) ∧
      (element_comma_after l = None → missing_comma es = true ∧ element_end l = length (layout (pre ++ o :: entries_segs es))) ∧
      (∀ comma, element_comma_after l = Some comma →
        missing_comma es = false ∧ comma + 1 = length (layout (pre ++ o :: entries_segs es)))
  end.
Proof.
  intros (_ & _ & Hco & _)%wf_node Hok. cbn [elements parsed_array]. rewrite fmap_last.
  destruct (last (place_entries _ _ _ es)) as [p|] eqn:Hl; simpl.
  2: { apply last_None in Hl. by destruct es. }
  apply place_entries_last in Hl as (es1 & e & -> & ->). split; [by destruct es1|]. cbn [p_value place_entry p_comma].
  rewrite start_parsed, end_parsed, first_start_value. unfold missing_comma, has_trailing. rewrite last_snoc. cbn [is_some_and].
  rewrite bool_decide_eq_false_2 by by destruct es1.
  assert (length (layout (pre ++ o :: entries_segs (es1 ++ [e]))) =
    entry_end (entries_end (length (layout pre) + length (seg_text o)) es1) e) as ->.
  { rewrite entries_segs_app, entries_segs_single. unfold entry_end, entries_end.
    rewrite length_layout_app, length_layout_cons, length_layout_app. lia. }
  set (off := entries_end _ es1).
  assert (comma_off off e = value_off off e + length (first_gap (e_value e)) + length (body (e_value e))) as Hco'.
  { unfold comma_off. rewrite layout_body, length_app. lia. }
  unfold comma_token. destruct (e_comma e) as [s|] eqn:He; simpl.
  - rewrite (comma_off_comma _ e s) by done.
    assert (raw s = [COMMA]) as Hr.
    { apply comma_raw.
      - rewrite entries_segs_app, entries_segs_single in Hok. unfold entry_segs in Hok. rewrite He, !Forall_app in Hok.
        destruct Hok as (_ & _ & _ & Hs). by apply Forall_cons in Hs as [? _].
      - apply commas_ok_app in Hco as (_ & [Hc _] & _). by apply Hc. }
    unfold seg_text. rewrite length_app, Hr. simpl. split_and!; [lia|done|]. intros ? [= <-]. split; [done|]. lia.
  - rewrite comma_off_entry by done. split_and!; [lia| |done]. intros _. split; [done|]. unfold comma_off. lia.
Qed.

Lemma separator_nil es : missing_comma es = false → separator es = [].
Proof. intros Hm. unfold separator. by rewrite Hm. Qed.

Lemma separator_comma es : missing_comma es = true → separator es = [COMMA].
Proof. intros Hm. unfold separator. by rewrite Hm. Qed.

Lemma has_trailing_missing es : es ≠ [] → has_trailing es = negb (missing_comma es).
Proof. intros Hne. unfold missing_comma. rewrite bool_decide_eq_false_2 by done. by destruct (has_trailing es). Qed.

Section push_into.
  Context (doc head rest : text) (pre : list Seg) (o : Seg) (es : list (Entry Cst)) (cl : Seg) (v : Value number).
  Context (arr_wf : wf (CNode Brackets o es cl)) (arr_ok : Forall seg_ok (entries_segs es)).
  Context (cl_gap : gap false (seg_gap cl)).
  Context (head_eq : head = layout (pre ++ o :: entries_segs es)).
  Context (doc_eq : doc = head ++ seg_gap cl ++ rest).

Let a := parsed_array (length (layout pre)) o es cl.

(** On a line of its own. *)
Lemma push_own_line g before indent t :
  seg_gap cl = g ++ before → Forall (λ b, is_blank b = true) before → spaces indent → prints t (put_tree v) →
  pushed head rest es cl
    (if missing_comma es
     then let? doc' := insert_str doc (length head) [COMMA] in
          insert_str doc' (length head + length g + 1) (indent ++ t ++ newline_of doc)
     else insert_str doc (length head + length g) (indent ++ t ++ newline_of doc)) (put_tree v).
Proof.
  intros Hg Hb Hi Ht. exists g, before, indent, t, (newline_of doc).
  assert (Forall on_line before) as Hol by (eapply Forall_impl; [done|apply is_blank_on_line]).
  split_and!; [done| |by apply gap_spaces, on_line_spaces|done|apply spaces_newline_of|done|].
  { eapply gap_prefix; [|done]. by rewrite <-Hg. }
  unfold separator. generalize (newline_of doc) as nl. intros nl. rewrite doc_eq, Hg, <-(assoc_L (++) g). destruct (missing_comma es).
  - apply insert_twice; [done|]. simpl. lia.
  - rewrite (assoc_L (++) head). rewrite insert_str_at by by rewrite length_app. by list_simplifier.
Qed.

(** In the line of the bracket. *)
Lemma push_in_line l :
  last (elements a) = Some l →
  pushed head rest es cl
    match element_comma_after l with
    | Some comma => insert_str doc (comma + 1) (SPACE :: to_string (sorted_keys v))
    | None => insert_str doc (element_end l) ([COMMA; SPACE] ++ to_string (sorted_keys v))
    end (put_tree v).
Proof.
  intros Hl. pose proof (last_element pre o es cl arr_wf arr_ok) as Hlast. fold a in Hlast. rewrite Hl, <-head_eq in Hlast.
  destruct Hlast as (_ & _ & Hnone & Hsome). exists [], (seg_gap cl), [SPACE], (to_string (sorted_keys v)), [].
  split_and!; [done|constructor|done|by repeat constructor|constructor|apply compact_prints|].
  rewrite doc_eq, app_nil_r. destruct (element_comma_after l) as [comma|].
  - destruct (Hsome comma eq_refl) as [Hm ->]. rewrite separator_nil by done. by rewrite insert_str_at.
  - destruct (Hnone eq_refl) as [Hm ->]. rewrite separator_comma by done. by rewrite insert_str_at.
Qed.

Lemma push_into_text x z :
  head = x ++ [z] → is_ascii_whitespace z = false → pushed head rest es cl (push_into doc a v) (put_tree v).
Proof.
  intros Hx Hz. pose proof doc_eq as Hdoc'. rewrite Hx in Hdoc'.
  destruct (line_start_after doc x (seg_gap cl) rest z Hdoc' Hz) as (before & Hs & Hnl & Hbefore).
  rewrite <-Hx in Hs, Hbefore. unfold push_into.
  assert (closing_bracket a = length head + length (seg_gap cl)) as ->.
  { simpl. unfold entries_end. rewrite head_eq, length_layout_app, length_layout_cons. lia. }
  rewrite Hs. pose proof (last_element pre o es cl arr_wf arr_ok) as Hlast. fold a in Hlast. rewrite <-head_eq in Hlast.
  destruct (_ && forallb is_blank before) eqn:Hown.
  - apply andb_true_iff in Hown as [_ Hown]. apply forallb_Forall in Hown.
    destruct Hbefore as [(g & Hg & ->)|Hin].
    2: { rewrite Forall_forall in Hown. apply Hown, blank_space in Hin. by rewrite Hz in Hin. }
    destruct (last (elements a)) as [l|] eqn:Hl.
    + destruct Hlast as (Hne & Hst & Hnone & Hsome). unfold push_line.
      destruct (slice_in_range doc (line_start doc (element_start l)) (element_start l) (line_start_le _ _)) as [bl Hbl].
      { rewrite doc_eq, !length_app. lia. }
      rewrite Hbl. set (indent := if forallb is_blank bl then bl else _).
      assert (spaces indent) as Hi.
      { unfold indent. destruct (forallb is_blank bl) eqn:E; [by apply spaces_blanks, forallb_Forall|].
        apply spaces_app. split; [by apply spaces_blanks|apply spaces_indentation_unit]. }
      destruct (render_value_prints v indent (indentation_unit doc) (newline_of doc)) as (t & -> & Ht);
        [done|apply spaces_indentation_unit|apply spaces_newline_of|].
      pose proof (push_own_line g before indent t Hg Hown Hi Ht) as Hp.
      cbn [array_trailing_comma a parsed_array]. rewrite has_trailing_missing by done.
      destruct (missing_comma es) eqn:Hm; [|done]. simpl.
      destruct (element_comma_after l) as [comma|]; [by destruct (Hsome comma eq_refl)|].
      destruct (Hnone eq_refl) as [_ ->]. done.
    + assert (missing_comma es = false) as Hm by by rewrite Hlast.
      destruct (render_value_prints v (before ++ indentation_unit doc) (indentation_unit doc) (newline_of doc)) as (t & -> & Ht);
        [apply spaces_app; split; [by apply spaces_blanks|apply spaces_indentation_unit]
        |apply spaces_indentation_unit|apply spaces_newline_of|].
      pose proof (push_own_line g before (before ++ indentation_unit doc) t Hg Hown) as Hp. rewrite Hm in Hp.
      apply Hp; [|done]. apply spaces_app. split; [by apply spaces_blanks|apply spaces_indentation_unit].
  - destruct (last (elements a)) as [l|] eqn:Hl; [by apply push_in_line|].
    exists (seg_gap cl), [], [], (to_string (sorted_keys v)), []. rewrite app_nil_r.
    split_and!; [done|done|constructor|constructor|constructor|apply compact_prints|].
    rewrite separator_nil by by rewrite Hlast.
    rewrite doc_eq, (assoc_L (++)), insert_str_at by by rewrite length_app. simpl. by rewrite app_nil_r, <-!(assoc_L (++)).
Qed.

End push_into.

(** [push_element] of an array that is there. *)
Lemma push_element_found doc t path ts v :
  denotes doc t → path ≠ [] → tree_lookup 0 path t = TFound (TArray ts) →
  ∃ a sep b m d, doc = a ++ b ++ d ∧ (sep = [] ∨ sep = [COMMA]) ∧
    push_element doc path v = Some (a ++ sep ++ b ++ m ++ d, Ok ()) ∧
    denotes (a ++ sep ++ b ++ m ++ d) (tree_update path (λ _, TArray (ts ++ [put_tree v])) t).
Proof.
  intros (c & tail & -> & Hg & ->) Hne Hts.
  destruct (root_object c path Hne) as [p Hp]; [by rewrite Hts|].
  destruct (array_found c p path ts (proj1 Hg) Hp Hne Hts) as (o & es & cl & pre & post & Hat & -> & Ha).
  pose proof (at_path_hole _ _ _ _ _ Hat (proj1 Hg)) as Hh. pose proof (hole_wf _ _ _ _ _ Hh) as Hn.
  destruct (close_context _ _ _ _ _ _ _ _ _ Hg Hh) as [Hdoc (x & z & Hx & Hz)].
  destruct (hole_segs_ok _ _ _ _ _ Hh (proj1 (proj2 Hg))) as (_ & Hok & _). rewrite segs_node in Hok.
  apply Forall_cons in Hok as [_ [Hok _]%Forall_app].
  destruct (push_into_text _ _ _ pre o es cl v Hn Hok (closing_gap _ _ _ _ _ _ _ _ _ Hg Hh) eq_refl Hdoc x z Hx Hz)
    as (g & w & s & t & s' & Hgap & Hgg & Hgw & Hs & Hs' & Ht & Hr).
  eexists _, (separator es), g, (s ++ t ++ s'), (w ++ raw cl ++ layout post ++ tail). split_and!.
  - rewrite Hdoc, Hgap, <-(assoc_L (++) g). done.
  - unfold separator. destruct (missing_comma es); auto.
  - unfold push_element. rewrite (parse_root_object c tail p Hg Hp). cbn [check]. rewrite Ha. cbn [check]. by rewrite Hr.
  - destruct (fill_comma_last _ _ _ _ _ _ _ _ _ Hg Hat) as (c' & Hg' & Hat' & Htc & Hlay).
    pose proof (add_element c' tail o (comma_last es) cl pre post _ (g ++ s) (s' ++ w) t (put_tree v) Hg'
      (at_path_hole _ _ _ _ _ Hat' (proj1 Hg')) (all_commas_last _ _ _ _ Hn)) as Hd.
    rewrite Htc, Hlay in Hd.
    assert (tree_elements (comma_last es) = tree_elements es) as Hte.
    { pose proof (tree_comma_last Brackets o cl es) as Htl. rewrite !tree_of_array in Htl. by injection Htl. }
    rewrite Hte in Hd. list_simplifier. apply Hd; [..|done]; (apply gap_app; [|done || by apply gap_spaces]); [done|by apply gap_spaces].
Qed.

End push.
