(* ===== verification/JsoncCut.v ===== *)
(** * Cutting text out of a document

    [apply_cut] removes a piece that lies between two gaps, with blanks beside it
    and the line it leaves blank.  It takes only whitespace of the gaps, so what
    stays of them are gaps again ([apply_cut_gaps]). *)

From S2P Require Import Prelude.
From S2P Require Import Jsonc.
From S2P Require Import JsoncEdit.
From S2P Require Import JsoncLayout.
From S2P Require Import JsoncGrammar.
From S2P Require Import JsoncTree.
From S2P Require Import JsoncRender.
From S2P Require Import JsoncSet.
From S2P Require Import JsoncInsert.

#[local] Open Scope nat_scope.

(** ** Text that trims to nothing *)

Lemma skip_spaces_split fuel chars t :
  ∃ w, t = w ++ skip_spaces fuel chars t ∧ Forall (λ b, b ∈ mjoin chars) w.
Proof.
  revert t. induction fuel as [|fuel IH]; intros t; simpl; [exists []; by split; [|constructor]|].
  unfold strip_space. destruct (List.find _ chars) as [c|] eqn:Hf; [|exists []; by split; [|constructor]].
  apply find_some in Hf as [Hin Hp%bool_decide_eq_true]. destruct Hp as [t' ->]. rewrite drop_app_length.
  destruct (IH t') as (w & Hw & Hall). exists (c ++ w). split; [by rewrite <-(assoc_L (++)), <-Hw|].
  apply Forall_app. split; [|done]. apply Forall_forall. intros b Hb. apply list_elem_of_join.
  exists c. split; [done|]. by apply list_elem_of_In.
Qed.

Definition invisible (t : text) : Prop := Forall (λ b, visible b = false) t.

Lemma forallb_elem (p : byte → bool) l b : forallb p l = true → b ∈ l → p b = true.
Proof. intros Hl Hb. apply forallb_Forall in Hl. rewrite Forall_forall in Hl. auto. Qed.

Lemma whitespace_invisible b : b ∈ mjoin whitespace_chars → visible b = false.
Proof. intros Hb. apply negb_true_iff. revert Hb. by apply (forallb_elem (λ b, negb (visible b))). Qed.

Lemma whitespace_end_invisible b : b ∈ mjoin (reverse <$> whitespace_chars) → visible b = false.
Proof. intros Hb. apply negb_true_iff. revert Hb. by apply (forallb_elem (λ b, negb (visible b))). Qed.

Lemma trim_nil t : trim t = [] → invisible t.
Proof.
  intros Ht. unfold trim, trim_start, trim_end in Ht.
  destruct (skip_spaces_split (length t) whitespace_chars t) as (w & Hw & Hall). rewrite Hw.
  set (t' := skip_spaces (length t) whitespace_chars t) in *.
  destruct (skip_spaces_split (length t') (reverse <$> whitespace_chars) (reverse t')) as (w' & Hw' & Hall').
  apply Forall_app. split.
  - eapply Forall_impl; [done|]. apply whitespace_invisible.
  - apply (f_equal reverse) in Ht. rewrite reverse_involutive in Ht. rewrite Ht in Hw'. simpl in Hw'. rewrite app_nil_r in Hw'.
    apply (f_equal reverse) in Hw'. rewrite reverse_involutive in Hw'. rewrite Hw'. apply Forall_reverse.
    eapply Forall_impl; [done|]. apply whitespace_end_invisible.
Qed.

Lemma invisible_no_slash t : invisible t → SLASH ∉ t.
Proof. intros Ht Hin. unfold invisible in Ht. rewrite Forall_forall in Ht. by specialize (Ht _ Hin). Qed.

Lemma invisible_not_elem t b : invisible t → visible b = true → b ∉ t.
Proof. intros Ht Hb Hin. unfold invisible in Ht. rewrite Forall_forall in Ht. rewrite (Ht _ Hin) in Hb. done. Qed.

(** ** One cut *)

(** A suffix of a text without a byte, or a prefix, lies beside the byte. *)
Lemma suffix_beside (x g p u : text) z : (x ++ [z]) ++ g = p ++ u → z ∉ u → ∃ g', g = g' ++ u ∧ p = (x ++ [z]) ++ g'.
Proof.
  intros Heq Hz. apply app_eq_inv in Heq as [(k & Hk & ->)|(k & -> & ->)]; [|by exists k].
  destruct k as [|k0 k]; [exists []; rewrite app_nil_r in Hk; by rewrite app_nil_r|].
  exfalso. apply Hz, elem_of_app. left. by apply (suffix_last p x).
Qed.

Lemma prefix_beside (h r v q : text) y : h ++ y :: r = v ++ q → y ∉ v → ∃ h', h = v ++ h' ∧ q = h' ++ y :: r.
Proof.
  intros Heq Hy. apply app_eq_inv in Heq as [(k & -> & ->)|(k & -> & Hk)]; [by exists k|].
  destruct k as [|k0 k]; simplify_eq/=; [exists []; by rewrite !app_nil_r|]. set_solver.
Qed.

(** What a cut leaves of the gaps beside it: gaps, short of whitespace. *)
Definition trimmed (g h g' h' : text) : Prop :=
  gap false g' ∧ gap false h' ∧ (∃ u, g = g' ++ u ∧ spaces u) ∧ ∃ v, h = v ++ h' ∧ spaces v.

Lemma skip_blanks_at doc (a t : text) : doc = a ++ t → skip_blanks doc (length a) = length a + length (take_while is_blank t).
Proof. intros ->. unfold skip_blanks. by rewrite drop_app_length. Qed.

Lemma blanks_invisible t : invisible (take_while is_blank t).
Proof.
  eapply Forall_impl; [apply take_while_all|]. intros b Hb. by destruct b.
Qed.

(** The line the cut leaves is removed when it is blank. *)
Definition drop_blank_line (doc : text) (at_ : nat) : option text :=
  match position (λ b, bool_decide (b = NEWLINE)) (drop at_ doc) with
  | Some offset =>
      let newline := at_ + offset in
      let? blank := blank_between doc (line_start doc at_) newline in
      if blank then replace_range doc (line_start doc at_) (newline + 1) [] else Some doc
  | None => Some doc
  end.

Lemma trimmed_refl g h : gap false g → gap false h → trimmed g h g h.
Proof.
  intros Hg Hh. split_and!; [done|done|exists []; by rewrite app_nil_r; split; [|constructor]|exists []; by split; [|constructor]].
Qed.

Lemma drop_blank_line_gaps x z g h y r :
  gap false g → gap false h → visible z = true → visible y = true →
  ∃ g' h', trimmed g h g' h' ∧
    drop_blank_line (((x ++ [z]) ++ g) ++ h ++ y :: r) (length ((x ++ [z]) ++ g)) = Some ((x ++ [z]) ++ g' ++ h' ++ y :: r).
Proof.
  intros Hg Hh Hz Hy. remember ((x ++ [z]) ++ g) as p eqn:Hp. remember (p ++ h ++ y :: r) as doc eqn:Hd.
  assert (doc = (x ++ [z]) ++ g ++ h ++ y :: r) as Hdoc by by rewrite Hd, Hp, <-(assoc_L (++) (x ++ [z])).
  assert (drop (length p) doc = h ++ y :: r) as Hdrop by by rewrite Hd, drop_app_length.
  unfold drop_blank_line. rewrite Hdrop.
  destruct (line_start_spec doc (length p)) as (p1 & u & Htake & -> & Hnu & _).
  rewrite Hd, take_app_length in Htake.
  destruct (position _ _) as [off|] eqn:Hpos; [|exists g, h; rewrite Hdoc; split; [by apply trimmed_refl|done]].
  apply position_split in Hpos as (l2 & q2 & Hq & <- & Hnl).
  assert (doc = p1 ++ (u ++ l2) ++ NEWLINE :: q2) as Hdoc2 by (rewrite Hd, Hq, Htake; by rewrite <-!(assoc_L (++))).
  unfold blank_between. rewrite Hdoc2. rewrite (slice_at p1 (u ++ l2) (NEWLINE :: q2));
    [|done|rewrite Htake, !length_app; lia].
  case_bool_decide as Ht; [|exists g, h; rewrite <-Hdoc2, Hdoc; split; [by apply trimmed_refl|done]].
  apply trim_nil, Forall_app in Ht as [Hu Hl2].
  destruct (suffix_beside x g p1 u z) as (g' & -> & ->); [by rewrite <-Hp|by apply invisible_not_elem|].
  assert (y ∉ l2 ++ [NEWLINE]) as Hyl.
  { rewrite elem_of_app, list_elem_of_singleton. intros [Hin| ->]; [by apply (invisible_not_elem l2 y)|done]. }
  destruct (prefix_beside h r (l2 ++ [NEWLINE]) q2 y) as (h' & -> & ->); [by rewrite Hq, <-(assoc_L (++))|done|].
  assert (SLASH ∉ l2 ++ [NEWLINE]) as Hsl.
  { rewrite elem_of_app, list_elem_of_singleton. intros [Hin|?]; [by apply (invisible_no_slash l2)|done]. }
  destruct (gap_split_end g' u Hg Hnu (invisible_no_slash u Hu)). destruct (gap_split_start _ _ _ Hh Hsl).
  exists g', h'. split; [split_and!; [done|done|by exists u|by exists (l2 ++ [NEWLINE])]|].
  replace (((x ++ [z]) ++ g') ++ (u ++ l2) ++ NEWLINE :: h' ++ y :: r)
    with (((x ++ [z]) ++ g') ++ ((u ++ l2) ++ [NEWLINE]) ++ h' ++ y :: r) by by list_simplifier.
  rewrite replace_range_at; [by rewrite <-!(assoc_L (++))|done|]. rewrite Htake, !length_app. simpl. lia.
Qed.

Lemma apply_cut_split doc a m bl rest :
  doc = a ++ m ++ bl ++ rest → Forall (λ b, is_blank b = true) bl →
  (∀ b, head rest = Some b → is_blank b = false) →
  ∃ bl1 bl2, bl = bl1 ++ bl2 ∧ apply_cut doc (length a, length (a ++ m)) = drop_blank_line (a ++ bl2 ++ rest) (length a).
Proof.
  intros Hdoc Hbl Hrest. unfold apply_cut. cbn [fst snd].
  destruct (slice_in_range doc (line_start doc (length a)) (length a) (line_start_le _ _)) as [before ->].
  { rewrite Hdoc, !length_app. lia. }
  destruct (forallb is_blank before).
  - exists bl, []. rewrite app_nil_r. split; [done|]. rewrite (skip_blanks_at doc (a ++ m) (bl ++ rest)).
    2: { by rewrite Hdoc, <-(assoc_L (++)). }
    assert (take_while is_blank (bl ++ rest) = bl) as ->.
    { clear Hdoc. induction Hbl as [|b bl Hb _ IH]; simpl; [|by rewrite Hb, IH].
      destruct rest as [|b rest]; simpl; [done|]. by rewrite (Hrest b). }
    rewrite Hdoc, (assoc_L (++) m bl), replace_range_at by (rewrite ?length_app; lia). simpl. done.
  - exists [], bl. split; [done|]. rewrite Hdoc, replace_range_at by (rewrite ?length_app; lia). simpl. done.
Qed.

Lemma apply_cut_gaps x z g m h y r :
  gap false g → gap false h → visible z = true → visible y = true →
  ∃ g' h', trimmed g h g' h' ∧
    apply_cut ((x ++ [z]) ++ g ++ m ++ h ++ y :: r) (length ((x ++ [z]) ++ g), length ((x ++ [z]) ++ g ++ m)) =
    Some ((x ++ [z]) ++ g' ++ h' ++ y :: r).
Proof.
  intros Hg Hh Hz Hy. destruct (take_while_split is_blank (h ++ y :: r)) as (q & Hq & Hhead).
  set (bl := take_while is_blank (h ++ y :: r)) in *.
  destruct (prefix_beside h r bl q y Hq) as (h1 & Hh1 & ->).
  { apply invisible_not_elem; [apply blanks_invisible|done]. }
  destruct (apply_cut_split ((x ++ [z]) ++ g ++ m ++ h ++ y :: r) ((x ++ [z]) ++ g) m bl (h1 ++ y :: r))
    as (bl1 & bl2 & Hbl & Hcut).
  { rewrite Hh1. by list_simplifier. }
  { apply take_while_all. }
  { done. }
  rewrite (assoc_L (++) (x ++ [z]) g m), Hcut. rewrite Hh1, Hbl, <-(assoc_L (++) bl1) in Hh.
  assert (invisible (bl1 ++ bl2)) as Hinv by (rewrite <-Hbl; apply blanks_invisible).
  apply Forall_app in Hinv as [Hi1 _].
  destruct (gap_split_start _ _ _ Hh (invisible_no_slash bl1 Hi1)) as [Hs1 Hh2].
  destruct (drop_blank_line_gaps x z g (bl2 ++ h1) y r Hg Hh2 Hz Hy) as (g' & h' & (Hg' & Hh' & Hu & v & Hv & Hsv) & Hd).
  exists g', h'. split; [split_and!; [done|done|done|]|by rewrite (assoc_L (++) bl2)].
  exists (bl1 ++ v). split; [|by apply spaces_app]. rewrite Hh1, Hbl, <-!(assoc_L (++)). by rewrite Hv.
Qed.

(** ** Removing an entry with one comma *)

(** What is not whitespace. *)
Definition ink (t : text) : text := filter (λ b, is_ascii_whitespace b = false) t.

Lemma ink_app t t' : ink (t ++ t') = ink t ++ ink t'.
Proof. apply filter_app. Qed.

Lemma ink_spaces t : spaces t → ink t = [].
Proof.
  intros Ht. unfold ink. induction Ht as [|b t Hb _ IH]; [done|]. rewrite filter_cons_False; [done|]. by rewrite Hb.
Qed.

Lemma trimmed_ink g h g' h' : trimmed g h g' h' → gap false (g' ++ h') ∧ ink (g' ++ h') = ink g ++ ink h.
Proof.
  intros (Hg & Hh & (u & -> & Hu) & v & -> & Hv). split; [by apply gap_app|].
  rewrite !ink_app, (ink_spaces u Hu), (ink_spaces v Hv), app_nil_r. done.
Qed.

Lemma blank_gap g : gap false g → trim g = [] → ink g = [].
Proof.
  intros Hg Ht%trim_nil%invisible_no_slash. apply ink_spaces.
  rewrite <-(app_nil_r g) in Hg. by apply gap_split_start in Hg as [? _].
Qed.

Section remove_entry.
  Context (x : text) (z : byte) (y : byte) (r : text).
  Context (z_visible : visible z = true) (y_visible : visible y = true).

(** The document is left with one gap where the entry was. *)
Definition left_gap (result : option text) (kept : text) : Prop :=
  ∃ g, gap false g ∧ ink g = kept ∧ result = Some ((x ++ [z]) ++ g ++ y :: r).

Lemma one_cut g m h :
  gap false g → gap false h →
  left_gap (apply_cut ((x ++ [z]) ++ g ++ m ++ h ++ y :: r) (length ((x ++ [z]) ++ g), length ((x ++ [z]) ++ g ++ m)))
    (ink g ++ ink h).
Proof.
  intros Hg Hh. destruct (apply_cut_gaps x z g m h y r Hg Hh z_visible y_visible) as (g' & h' & Ht & Hc).
  apply trimmed_ink in Ht as [Hgap Hink]. exists (g' ++ h'). split_and!; [done|done|]. by rewrite Hc, <-(assoc_L (++) g').
Qed.

Lemma apply_cuts_one doc cut : apply_cuts doc [cut] = apply_cut doc cut.
Proof. simpl. by destruct (apply_cut doc cut). Qed.

Lemma blank_between_at doc (a b c : text) first last :
  doc = a ++ b ++ c → first = length a → last = length (a ++ b) → blank_between doc first last = Some (bool_decide (trim b = [])).
Proof. intros -> -> ->. unfold blank_between. rewrite (slice_at a b c); [done|done|by rewrite length_app]. Qed.

(** An entry and nothing else. *)
Lemma remove_only doc ge e gn :
  gap false ge → gap false gn → doc = (x ++ [z]) ++ ge ++ e ++ gn ++ y :: r →
  left_gap (remove_entry doc (length ((x ++ [z]) ++ ge), length ((x ++ [z]) ++ ge ++ e)) None None true) (ink ge ++ ink gn).
Proof.
  intros Hge Hgn ->. unfold remove_entry. cbn [entry_cuts opt_filter].
  change (reverse [?c]) with [c]. rewrite apply_cuts_one. by apply one_cut.
Qed.

(** An entry with the comma after it. *)
Lemma remove_after doc ge e ze gs gn before is_last :
  gap false ge → gap false gs → gap false gn → visible ze = true → is_last && is_some before = false →
  doc = (x ++ [z]) ++ ge ++ (e ++ [ze]) ++ gs ++ [COMMA] ++ gn ++ y :: r →
  left_gap (remove_entry doc (length ((x ++ [z]) ++ ge), length ((x ++ [z]) ++ ge ++ (e ++ [ze]))) before
              (Some (length ((x ++ [z]) ++ ge ++ (e ++ [ze]) ++ gs))) is_last)
    (ink ge ++ ink gs ++ ink gn).
Proof.
  intros Hge Hgs Hgn Hze Hlast Hdoc. unfold remove_entry, entry_cuts. cbn [opt_filter]. rewrite Hlast. cbn [negb fst snd].
  rewrite (blank_between_at doc ((x ++ [z]) ++ ge ++ (e ++ [ze])) gs ([COMMA] ++ gn ++ y :: r));
    [|rewrite Hdoc; by list_simplifier|done|by list_simplifier].
  set (upto := (x ++ [z]) ++ ge ++ (e ++ [ze]) ++ gs).
  assert (length upto + 1 = length (upto ++ [COMMA])) as -> by (rewrite length_app; done).
  rewrite (skip_blanks_at doc (upto ++ [COMMA]) (gn ++ y :: r)) by (rewrite Hdoc; unfold upto; by list_simplifier).
  destruct (take_while_split is_blank (gn ++ y :: r)) as (q & Hq & _).
  pose proof (blanks_invisible (gn ++ y :: r)) as Hbl. revert Hq Hbl. generalize (take_while is_blank (gn ++ y :: r)) as bl.
  intros bl Hq Hbl. destruct (prefix_beside gn r bl q y Hq) as (gn' & -> & ->); [by apply invisible_not_elem|].
  destruct (gap_split_start _ _ _ Hgn (invisible_no_slash bl Hbl)) as [Hsbl Hgn'].
  rewrite ink_app, (ink_spaces bl Hsbl). cbn [app].
  case_bool_decide as Ht.
  - change (reverse [?c]) with [c]. rewrite apply_cuts_one, (blank_gap gs Hgs Ht). cbn [app].
    pose proof (one_cut ge ((e ++ [ze]) ++ gs ++ [COMMA] ++ bl) gn' Hge Hgn') as Hc.
    replace ((x ++ [z]) ++ ge ++ ((e ++ [ze]) ++ gs ++ [COMMA] ++ bl) ++ gn' ++ y :: r) with doc in Hc
      by (rewrite Hdoc; by list_simplifier).
    rewrite <-length_app. unfold upto.
    replace ((((x ++ [z]) ++ ge ++ (e ++ [ze]) ++ gs) ++ [COMMA]) ++ bl)
      with ((x ++ [z]) ++ ge ++ (e ++ [ze]) ++ gs ++ [COMMA] ++ bl) by by list_simplifier. exact Hc.
  - change (reverse [?c; ?d]) with [d; c]. cbn [apply_cuts].
    destruct (apply_cut_gaps ((x ++ [z]) ++ ge ++ e) ze gs ([COMMA] ++ bl) gn' y r Hgs Hgn' Hze y_visible)
      as (gs' & gn'' & Htr & Hc).
    replace ((((x ++ [z]) ++ ge ++ e) ++ [ze]) ++ gs ++ ([COMMA] ++ bl) ++ gn' ++ y :: r) with doc in Hc
      by (rewrite Hdoc; by list_simplifier).
    replace ((((x ++ [z]) ++ ge ++ e) ++ [ze]) ++ gs) with upto in Hc by (unfold upto; by list_simplifier).
    replace ((((x ++ [z]) ++ ge ++ e) ++ [ze]) ++ gs ++ [COMMA] ++ bl) with ((upto ++ [COMMA]) ++ bl) in Hc
      by (unfold upto; by list_simplifier).
    rewrite <-(length_app (upto ++ [COMMA])), Hc. apply trimmed_ink in Htr as [Hgap Hink]. rewrite <-Hink.
    pose proof (one_cut ge (e ++ [ze]) (gs' ++ gn'') Hge Hgap) as Hc'.
    replace ((((x ++ [z]) ++ ge ++ e) ++ [ze]) ++ gs' ++ gn'' ++ y :: r)
      with ((x ++ [z]) ++ ge ++ (e ++ [ze]) ++ (gs' ++ gn'') ++ y :: r) by by list_simplifier.
    destruct Hc' as (g & Hg & Hi & ->). by exists g.
Qed.

(** A last entry with the comma before it. *)
Lemma remove_before doc gs ge e gn after :
  gap false gs → gap false ge → gap false gn →
  doc = (x ++ [z]) ++ gs ++ [COMMA] ++ ge ++ e ++ gn ++ y :: r →
  left_gap (remove_entry doc (length ((x ++ [z]) ++ gs ++ [COMMA] ++ ge), length ((x ++ [z]) ++ gs ++ [COMMA] ++ ge ++ e))
              (Some (length ((x ++ [z]) ++ gs))) after true)
    (ink gs ++ ink ge ++ ink gn).
Proof.
  intros Hgs Hge Hgn Hdoc. unfold remove_entry, entry_cuts. cbn [is_some andb negb fst snd].
  replace (opt_filter (λ _ : nat, false) after) with (@None nat) by by destruct after.
  set (upto := (x ++ [z]) ++ gs).
  rewrite (blank_between_at doc (upto ++ [COMMA]) ge (e ++ gn ++ y :: r));
    [|rewrite Hdoc; unfold upto; by list_simplifier|by rewrite length_app|unfold upto; by list_simplifier].
  case_bool_decide as Ht.
  - change (reverse [?c]) with [c]. rewrite apply_cuts_one, (blank_gap ge Hge Ht). cbn [app].
    pose proof (one_cut gs ([COMMA] ++ ge ++ e) gn Hgs Hgn) as Hc.
    replace ((x ++ [z]) ++ gs ++ ([COMMA] ++ ge ++ e) ++ gn ++ y :: r) with doc in Hc by (rewrite Hdoc; by list_simplifier).
    exact Hc.
  - change (reverse [?c; ?d]) with [d; c]. cbn [apply_cuts].
    destruct (apply_cut_gaps upto COMMA ge e gn y r Hge Hgn eq_refl y_visible) as (ge' & gn' & Htr & Hc).
    replace ((upto ++ [COMMA]) ++ ge ++ e ++ gn ++ y :: r) with doc in Hc by (rewrite Hdoc; unfold upto; by list_simplifier).
    replace ((upto ++ [COMMA]) ++ ge) with ((x ++ [z]) ++ gs ++ [COMMA] ++ ge) in Hc by (unfold upto; by list_simplifier).
    replace ((upto ++ [COMMA]) ++ ge ++ e) with ((x ++ [z]) ++ gs ++ [COMMA] ++ ge ++ e) in Hc
      by (unfold upto; by list_simplifier).
    rewrite Hc. apply trimmed_ink in Htr as [Hgap Hink]. rewrite <-Hink.
    pose proof (one_cut gs [COMMA] (ge' ++ gn') Hgs Hgap) as Hc'.
    replace ((upto ++ [COMMA]) ++ ge' ++ gn' ++ y :: r)
      with ((x ++ [z]) ++ gs ++ [COMMA] ++ (ge' ++ gn') ++ y :: r) by (unfold upto; by list_simplifier).
    assert (length upto + 1 = length ((x ++ [z]) ++ gs ++ [COMMA])) as ->
      by (unfold upto; rewrite !length_app; simpl; lia).
    destruct Hc' as (g & Hg & Hi & Hres). fold upto in Hres. rewrite Hres. by exists g.
Qed.

End remove_entry.
