(* ===== verification/JsoncRemove.v ===== *)
(** * Removing a member or an element

    The entry goes with one comma and whitespace beside it; the gaps left around
    it join into one, so the document spells the container without the entry
    ([remove_placed]).  Atoms are made of visible characters, as JSON's are. *)

From S2P Require Import Prelude.
From S2P Require Import Jsonc.
From S2P Require Import JsoncEdit.
From S2P Require Import JsoncLayout.
From S2P Require Import JsoncGrammar.
From S2P Require Import JsoncTree.
From S2P Require Import JsoncPath.
From S2P Require Import JsoncRender.
From S2P Require Import JsoncSet.
From S2P Require Import JsoncInsert.
From S2P Require Import JsoncCut.

#[local] Open Scope nat_scope.

(** ** Atoms of visible characters *)

Fixpoint plain_tree (t : Tree) : bool :=
  match t with
  | TString _ => true
  | TAtom a => forallb visible a
  | TObject ms => forallb (λ kt, plain_tree kt.2) ms
  | TArray ts => forallb plain_tree ts
  end.

Definition plain_seg (s : Seg) : Prop := seg_kind s = Atom → forallb visible (raw s) = true.

Lemma plain_other s : is_atom s = false → plain_seg s.
Proof. intros Hs Hk. unfold is_atom in Hs. by rewrite Hk in Hs. Qed.

Lemma plain_segs c : wf c → plain_tree (tree_of c) = true → Forall plain_seg (segs c).
Proof.
  induction c as [s|b o es cl IH] using cst_ind; intros Hwf Hp.
  - constructor; [|constructor]. intros Hk. simpl in Hp. unfold leaf_tree in Hp. by rewrite Hk in Hp.
  - apply wf_node in Hwf as (Ho & Hcl & Hco & Hes). rewrite segs_node.
    assert (Forall (λ e, plain_tree (tree_of (e_value e)) = true) es) as Hpes.
    { destruct b; simpl in Hp; apply forallb_Forall in Hp; by rewrite Forall_map in Hp. }
    constructor; [apply plain_other; unfold is_atom; rewrite Ho; by destruct b|]. apply Forall_app. split.
    2: { constructor; [|constructor]. apply plain_other. unfold is_atom. rewrite Hcl. by destruct b. }
    clear Hp. induction es as [|e es IHes]; [constructor|].
    apply Forall_cons in IH as [IHe IH], Hes as [[Hh Hv] Hes], Hpes as [Hpe Hpes]. destruct Hco as (Hc & _ & Hco).
    rewrite entries_segs_cons, Forall_app. split; [|by apply IHes]. unfold entry_segs. rewrite !Forall_app. split_and!.
    + destruct b; simpl in Hh; [|by rewrite Hh]. destruct Hh as (k & colon & v & -> & Hk & Hcol).
      repeat constructor; apply plain_other; unfold is_atom; by rewrite ?Hk, ?Hcol.
    + by apply IHe.
    + destruct (e_comma e) as [s|]; [|constructor]. constructor; [|constructor]. apply plain_other.
      unfold is_atom. by rewrite (Hc s eq_refl).
Qed.

(** ** The text of lexemes without their first gap *)

Definition list_gap (ss : list Seg) : text := match ss with s :: _ => seg_gap s | [] => [] end.
Definition list_body (ss : list Seg) : text := match ss with s :: ss => raw s ++ layout ss | [] => [] end.

Definition set_list_gap (g : text) (ss : list Seg) : list Seg :=
  match ss with s :: ss => set_gap g s :: ss | [] => [] end.

Lemma layout_list ss : layout ss = list_gap ss ++ list_body ss.
Proof. destruct ss as [|s ss]; [done|]. by rewrite layout_cons. Qed.

Lemma layout_set_list_gap g ss : ss ≠ [] → layout (set_list_gap g ss) = g ++ list_body ss.
Proof. destruct ss as [|s ss]; [done|]. intros _. simpl. by rewrite layout_cons. Qed.

Lemma first_start_list off ss : first_start off ss = off + length (list_gap ss).
Proof. destruct ss; simpl; lia. Qed.

Section visible.
  Context `{StringJson}.

Lemma lexeme_visible t k :
  lexeme t k → (k = Atom → forallb visible t = true) →
  (∃ a r, t = a :: r ∧ visible a = true) ∧ ∃ r b, t = r ++ [b] ∧ visible b = true.
Proof.
  intros [b k' Hk|body v Hs _|t' Hne Hall] Hv.
  - assert (visible b = true) as Hb by (revert Hk; by destruct b; vm_compute).
    split; [by exists b, []|by exists [], b].
  - split; [by exists QUOTE, body|]. apply scan_string_last in Hs as [r ->]. by exists (QUOTE :: r), QUOTE.
  - specialize (Hv eq_refl). apply forallb_Forall in Hv. split.
    + destruct t' as [|a r]; [done|]. exists a, r. by apply Forall_cons in Hv as [? _].
    + destruct (last t') as [b|] eqn:Hb; [|by apply last_None in Hb]. apply last_Some in Hb as [r ->].
      exists r, b. by apply Forall_app in Hv as [_ [? _]%Forall_cons].
Qed.

Lemma layout_visible_end ss :
  ss ≠ [] → Forall seg_ok ss → Forall plain_seg ss → ∃ x z, list_body ss = x ++ [z] ∧ layout ss = (list_gap ss ++ x) ++ [z] ∧ visible z = true.
Proof.
  intros Hne Hok Hpl. rewrite layout_list.
  assert (∃ x z, list_body ss = x ++ [z] ∧ visible z = true) as (x & z & -> & Hz); [|exists x, z; by rewrite (assoc_L (++))].
  destruct (last ss) as [s|] eqn:Hs; [|by apply last_None in Hs].
  apply last_Some in Hs as [ss' ->]. apply Forall_app in Hok as [_ [[_ Hl] _]%Forall_cons], Hpl as [_ [Hpl _]%Forall_cons].
  destruct (lexeme_visible _ _ Hl Hpl) as [_ (r & b & Hr & Hb)]. destruct ss' as [|s' ss']; simpl.
  - exists r, b. by rewrite app_nil_r.
  - exists (raw s' ++ layout ss' ++ seg_gap s ++ r), b. rewrite layout_app, layout_cons, Hr. split; [|done].
    unfold layout at 2. simpl. by list_simplifier.
Qed.

Lemma list_body_visible ss : ss ≠ [] → Forall seg_ok ss → Forall plain_seg ss → ∃ y r, list_body ss = y :: r ∧ visible y = true.
Proof.
  destruct ss as [|s ss]; [done|]. intros _ [[_ Hl] _]%Forall_cons [Hpl _]%Forall_cons. simpl.
  destruct (lexeme_visible _ _ Hl Hpl) as [(a & r & -> & Ha) _]. by exists a, (r ++ layout ss).
Qed.

Lemma list_gap_ok ss : Forall seg_ok ss → gap false (list_gap ss).
Proof. destruct ss; [constructor|]. by intros [[? _] _]%Forall_cons. Qed.

Lemma set_list_gap_ok g ss : gap false g → Forall seg_ok ss → Forall seg_ok (set_list_gap g ss).
Proof. destruct ss; [done|]. intros Hg [[_ Hl] Hok]%Forall_cons. by constructor. Qed.

End visible.

(** ** Trees without an entry *)

Definition set_entry_gap (g : text) (e : Entry Cst) : Entry Cst :=
  match e_head e with
  | s :: ss => {| e_head := set_gap g s :: ss; e_value := e_value e; e_comma := e_comma e |}
  | [] => {| e_head := []; e_value := set_first_gap g (e_value e); e_comma := e_comma e |}
  end.

Lemma segs_set_first_gap g c : segs (set_first_gap g c) = set_list_gap g (segs c).
Proof. by destruct c. Qed.

Lemma set_list_gap_app g ss ss' : ss ≠ [] → set_list_gap g (ss ++ ss') = set_list_gap g ss ++ ss'.
Proof. by destruct ss. Qed.

Lemma set_entry_gap_facts b g e :
  entry_wf b e →
  entry_wf b (set_entry_gap g e) ∧ entry_segs segs (set_entry_gap g e) = set_list_gap g (entry_segs segs e) ∧
  e_comma (set_entry_gap g e) = e_comma e ∧ entry_key (set_entry_gap g e) = entry_key e ∧
  tree_of (e_value (set_entry_gap g e)) = tree_of (e_value e).
Proof.
  intros [Hh Hv]. unfold set_entry_gap, entry_segs, entry_key. destruct (e_head e) as [|s ss] eqn:He; simpl.
  - split_and!; [|by rewrite segs_set_first_gap, set_list_gap_app by apply segs_nonempty|done|done|apply tree_set_first_gap].
    split; [|by apply wf_set_first_gap]. destruct b; [|done]. by destruct Hh as (? & ? & ? & ? & _).
  - split_and!; try done. split; [|done]. destruct b; [|done]. destruct Hh as (k & colon & v & [= -> ->] & Hk & Hc).
    by exists (set_gap g k), colon, v.
Qed.

(** Without an entry that is followed by others, or is the only one. *)
Lemma without_entry b o es1 e es2 cl g :
  wf (CNode b o (es1 ++ e :: es2) cl) → (es2 = [] → es1 = []) →
  ∃ n, wf n ∧ segs n = o :: entries_segs es1 ++ set_list_gap g (entries_segs es2 ++ [cl]) ∧
    tree_of n = tree_of (CNode b o (es1 ++ es2) cl).
Proof.
  intros (Ho & Hcl & Hco & Hes)%wf_node Hlast.
  apply commas_ok_app in Hco as (Hco1 & (_ & _ & Hco2) & Hall). specialize (Hall ltac:(done)).
  apply Forall_app in Hes as [Hes1 [_ Hes2]%Forall_cons]. destruct es2 as [|e2 es2].
  - rewrite (Hlast eq_refl). exists (CNode b o [] (set_gap g cl)). split_and!; [by apply wf_node|done|by destruct b].
  - apply Forall_cons in Hes2 as [He2 Hes2]. destruct (set_entry_gap_facts b g e2 He2) as (Hw & Hs & Hc & Hk & Ht).
    exists (CNode b o (es1 ++ set_entry_gap g e2 :: es2) cl). split_and!.
    + apply wf_node. split_and!; [done|done| |].
      * apply commas_ok_app. split_and!; [done| |done]. cbn [commas_ok]. by rewrite Hc.
      * apply Forall_app. split; [done|]. by constructor.
    + rewrite segs_node, entries_segs_app, !entries_segs_cons, Hs, <-!(assoc_L (++)).
      rewrite set_list_gap_app; [done|]. destruct (entry_first b e2 He2) as (? & ? & -> & _). done.
    + rewrite !tree_of_node. destruct b; simpl; by rewrite ?Hk, Ht.
Qed.

(** Without the last entry, whose comma becomes that of the one before it. *)
Lemma without_last b o es0 e0 e cl g :
  wf (CNode b o ((es0 ++ [e0]) ++ [e]) cl) →
  ∃ n, wf n ∧ segs n = o :: entries_segs es0 ++ e_head e0 ++ segs (e_value e0) ++ set_list_gap g (option_list (e_comma e) ++ [cl]) ∧
    tree_of n = tree_of (CNode b o (es0 ++ [e0]) cl).
Proof.
  intros (Ho & Hcl & Hco & Hes)%wf_node. apply commas_ok_app in Hco as (Hco0 & (Hc & _ & _) & _).
  apply commas_ok_app in Hco0 as (Hco0 & _ & Hall). specialize (Hall ltac:(done)).
  apply Forall_app in Hes as [[Hes0 [[Hh0 Hv0] _]%Forall_cons]%Forall_app _].
  exists (CNode b o (es0 ++ [{| e_head := e_head e0; e_value := e_value e0; e_comma := set_gap g <$> e_comma e |}])
    match e_comma e with Some _ => cl | None => set_gap g cl end). split_and!.
  - apply wf_node. split_and!; [done|by destruct (e_comma e)| |].
    + apply commas_ok_app. split_and!; [done| |done]. split_and!; [|done|done]. intros s.
      destruct (e_comma e) as [s'|]; [|done]. intros [= <-]. exact (Hc s' eq_refl).
    + apply Forall_app. split; [done|]. by constructor; [|constructor].
  - rewrite segs_node, entries_segs_app, entries_segs_single. unfold entry_segs. cbn [e_head e_value e_comma].
    rewrite <-!(assoc_L (++)). by destruct (e_comma e).
  - rewrite !tree_of_node. by destruct b.
Qed.

Lemma comma_before_next_snoc off before es e :
  comma_before_next off before (es ++ [e]) = token_start <$> comma_token (entries_end off es) e.
Proof.
  revert off before. induction es as [|e' es IH]; intros off before; simpl.
  - unfold entries_end. simpl. by rewrite Nat.add_0_r.
  - by rewrite IH, entries_end_cons.
Qed.

(** ** Removing an entry from the document *)

Section removes.
  Context `{StringJson}.

Lemma visible_space b : visible b = true → is_ascii_whitespace b = false.
Proof. by destruct b; vm_compute. Qed.

(** The lexemes [ss] of the document with another gap before them. *)
Lemma fill_gap c tail n pre post up ss1 ss2 g n' :
  good c tail → hole c n pre post up → gap false g → ss2 ≠ [] →
  Forall seg_ok ss1 → Forall seg_ok ss2 → wf n' → segs n' = ss1 ++ set_list_gap g ss2 →
  denotes (layout (pre ++ ss1) ++ g ++ list_body (ss2 ++ post) ++ tail) (up (tree_of n')).
Proof.
  intros Hg Hh Hgap Hne Hok1 Hok2 Hn Hs. pose proof (fill_hole _ _ _ _ _ tail n' Hg Hh Hn) as Hd.
  rewrite Hs, layout_app, layout_set_list_gap in Hd by done. destruct ss2 as [|s ss2]; [done|].
  cbn [list_body app] in *. rewrite !layout_app. rewrite <-!(assoc_L (++)) in Hd |- *. apply Hd.
  apply Forall_app. split; [done|]. by apply set_list_gap_ok.
Qed.

(** What is kept beside the entry: everything that is not whitespace, but for
    one comma. *)
Definition keeps_ink (doc entry doc' : text) : Prop :=
  ∃ a b, doc = a ++ entry ++ b ∧
    (ink doc' = ink a ++ ink b ∨
     (∃ b1 b2, b = b1 ++ COMMA :: b2 ∧ ink doc' = ink a ++ ink b1 ++ ink b2) ∨
     (∃ a1 a2, a = a1 ++ COMMA :: a2 ∧ ink doc' = ink a1 ++ ink a2 ++ ink b)).

Section remove_placed.
  Context (c : Cst) (tail : text) (b : Bracket) (o : Seg) (es1 : list (Entry Cst)) (e : Entry Cst).
  Context (es2 : list (Entry Cst)) (cl : Seg) (pre post : list Seg) (up : Tree → Tree).
  Context (c_good : good c tail) (c_plain : Forall plain_seg (segs c)).
  Context (c_hole : hole c (CNode b o (es1 ++ e :: es2) cl) pre post up).

Let doc := layout (segs c) ++ tail.
Let entry := e_head e ++ segs (e_value e).
Let off := entries_end (length (layout pre) + length (seg_text o)) es1.
Let before := comma_before_next (length (layout pre) + length (seg_text o)) None es1.
Let p := place_entry parsed off before e.

(** The lexemes of the document around the entry. *)
Lemma entry_context :
  segs c = (pre ++ o :: entries_segs es1) ++ entry ++ option_list (e_comma e) ++ (entries_segs es2 ++ [cl]) ++ post.
Proof.
  rewrite (hole_segs _ _ _ _ _ c_hole), segs_node, entries_segs_app, entries_segs_cons. unfold entry, entry_segs.
  by list_simplifier.
Qed.

Lemma entry_nonempty : entry ≠ [].
Proof. unfold entry. intros [_ Hn]%app_eq_nil. by apply segs_nonempty in Hn. Qed.

Lemma entry_off : off = length (layout (pre ++ o :: entries_segs es1)).
Proof. unfold off, entries_end. rewrite length_layout_app, length_layout_cons. lia. Qed.

Lemma entry_start : p_start p = off + length (list_gap entry).
Proof.
  unfold p. cbn [p_start place_entry]. rewrite first_start_list. unfold entry, entry_segs. f_equal. f_equal.
  destruct (e_head e) as [|s ss]; [|done]. simpl. destruct (segs (e_value e)) eqn:Hs; [by apply segs_nonempty in Hs|done].
Qed.

Lemma entry_stop : end_ (p_value p) = off + length (layout entry).
Proof. unfold p. cbn [p_value place_entry]. rewrite end_parsed. unfold value_off, entry. rewrite length_layout_app. lia. Qed.

Lemma entry_comma : token_start <$> p_comma p = (λ s, off + length (layout entry) + length (seg_gap s)) <$> e_comma e.
Proof.
  unfold p. cbn [p_comma place_entry]. unfold comma_token, comma_off, value_off, entry. rewrite length_layout_app.
  destruct (e_comma e); simpl; [|done]. f_equal. lia.
Qed.

Lemma entry_before :
  before = None ∧ es1 = [] ∨
  ∃ es0 e0 s, es1 = es0 ++ [e0] ∧ e_comma e0 = Some s ∧ seg_kind s = Comma ∧
    before = Some (length (layout (pre ++ o :: entries_segs es0 ++ e_head e0 ++ segs (e_value e0))) + length (seg_gap s)).
Proof.
  destruct (last es1) as [e0|] eqn:Hl; [right|left; apply last_None in Hl; unfold before; by rewrite Hl].
  apply last_Some in Hl as [es0 Hes]. pose proof (hole_wf _ _ _ _ _ c_hole) as (_ & _ & Hco & _)%wf_node.
  rewrite Hes in Hco. apply commas_ok_app in Hco as (Hco & _ & Hall). specialize (Hall ltac:(done)).
  apply commas_ok_app in Hco as (_ & [Hc _] & _). apply Forall_app in Hall as [_ [Hsome _]%Forall_cons].
  destruct (e_comma e0) as [s|] eqn:He; [|done]. exists es0, e0, s. split_and!; [done|done|by apply Hc|].
  unfold before. rewrite Hes, comma_before_next_snoc. unfold comma_token. rewrite He. simpl. f_equal.
  unfold comma_off, value_off, entries_end. rewrite !length_layout_app, length_layout_cons, !length_layout_app. lia.
Qed.

(** The text of the next lexemes, from their first byte on. *)
Lemma next_visible ss :
  ss ≠ [] → Forall seg_ok ss → Forall plain_seg ss →
  ∃ y r, list_body (ss ++ post) ++ tail = y :: r ∧ visible y = true.
Proof.
  intros Hne Hok Hpl. destruct ss as [|s ss]; [done|]. apply Forall_cons in Hok as [Hok _], Hpl as [Hpl _].
  destruct (list_body_visible [s] ltac:(done)) as (y & r & Hy & Hv); [by constructor; [|constructor]..|].
  simpl in Hy |- *. rewrite app_nil_r in Hy. rewrite Hy. by eexists y, _.
Qed.

Definition gone (result : option text) : Prop :=
  ∃ doc', result = Some doc' ∧ denotes doc' (up (tree_of (CNode b o (es1 ++ es2) cl))) ∧
    keeps_ink doc (list_body entry) doc'.

Lemma context_ok :
  (Forall seg_ok (pre ++ o :: entries_segs es1) ∧ Forall seg_ok entry ∧ Forall seg_ok (option_list (e_comma e)) ∧
   Forall seg_ok (entries_segs es2 ++ [cl])) ∧
  Forall plain_seg (pre ++ o :: entries_segs es1) ∧ Forall plain_seg entry ∧ Forall plain_seg (option_list (e_comma e)) ∧
  Forall plain_seg (entries_segs es2 ++ [cl]).
Proof.
  assert (∀ P : Seg → Prop, Forall P (segs c) → Forall P (pre ++ o :: entries_segs es1) ∧ Forall P entry ∧
    Forall P (option_list (e_comma e)) ∧ Forall P (entries_segs es2 ++ [cl])) as Hsplit.
  { intros P HP. rewrite entry_context in HP.
    apply Forall_app in HP as [? [? [? [? _]%Forall_app]%Forall_app]%Forall_app]. done. }
  split; apply Hsplit; [apply c_good|done].
Qed.

Lemma layout_next ss ss' : ss ≠ [] → layout (ss ++ ss') = list_gap ss ++ list_body (ss ++ ss').
Proof. intros Hne. rewrite layout_list. by destruct ss. Qed.

Lemma entry_text :
  doc = layout (pre ++ o :: entries_segs es1) ++ list_gap entry ++ list_body entry ++ layout (option_list (e_comma e))
    ++ list_gap (entries_segs es2 ++ [cl]) ++ list_body ((entries_segs es2 ++ [cl]) ++ post) ++ tail.
Proof.
  unfold doc. rewrite entry_context, (layout_app (pre ++ _)), (layout_app entry), (layout_list entry), (layout_app (option_list _)).
  rewrite (layout_next (entries_segs es2 ++ [cl]) post) by by destruct (entries_segs es2). by rewrite <-!(assoc_L (++)).
Qed.

Lemma layout_comma s : seg_ok s → seg_kind s = Comma → layout [s] = seg_gap s ++ [COMMA].
Proof. intros Hs Hk. rewrite layout_cons, (comma_raw s Hs Hk). done. Qed.

(** With the comma after it: another entry follows, or none is left. *)
Lemma remove_followed s :
  e_comma e = Some s → (es2 = [] → es1 = []) →
  gone (remove_entry doc (p_start p, end_ (p_value p)) before (token_start <$> p_comma p) (bool_decide (es2 = []))).
Proof.
  intros Hs Hlast. destruct context_ok as [(Hok1 & Hoke & Hoks & Hok2) (Hpl1 & Hple & _ & Hpl2)].
  rewrite Hs in Hoks. apply Forall_cons in Hoks as [Hoks _]. pose proof (hole_wf _ _ _ _ _ c_hole) as Hn.
  assert (seg_kind s = Comma) as Hk.
  { pose proof Hn as (_ & _ & (_ & [Hc _] & _)%commas_ok_app & _)%wf_node. by apply Hc. }
  destruct (layout_visible_end (pre ++ o :: entries_segs es1)) as (x & z & _ & Hx & Hz); [by destruct pre|done|done|].
  destruct (layout_visible_end entry entry_nonempty Hoke Hple) as (ea & ze & He & _ & Hze).
  destruct (next_visible (entries_segs es2 ++ [cl])) as (y & r & Hy & Hvy); [by destruct (entries_segs es2)|done|done|].
  pose proof entry_text as Hdoc. rewrite Hs, Hy in Hdoc. change (option_list (Some s)) with [s] in Hdoc.
  rewrite (layout_comma s Hoks Hk), Hx, He, <-(assoc_L (++) (seg_gap s)) in Hdoc.
  assert (bool_decide (es2 = []) && is_some before = false) as Hlb.
  { case_bool_decide as Hes2; [|done]. specialize (Hlast Hes2).
    destruct entry_before as [[-> _]|(es0 & ? & ? & Hes1 & _)]; [done|]. rewrite Hlast in Hes1. by destruct es0. }
  destruct (remove_after _ z y r Hz Hvy doc _ ea ze _ _ before (bool_decide (es2 = [])) (list_gap_ok _ Hoke)
    (proj1 Hoks) (list_gap_ok _ Hok2) Hze Hlb Hdoc) as (g & Hg & Hink & Hres).
  destruct (without_entry b o es1 e es2 cl g Hn Hlast) as (n & Hwn & Hsn & Htn).
  eexists. split_and!.
  - rewrite entry_start, entry_stop, entry_comma, Hs, entry_off. cbn [fmap option_fmap option_map].
    rewrite Hx. rewrite (layout_list entry), He. etrans; [|exact Hres]. f_equal; [f_equal|f_equal]; rewrite ?length_app; lia.
  - rewrite <-Hx, <-Hy, <-Htn. eapply fill_gap; [done|done|done|by destruct (entries_segs es2)| |done|done|by rewrite Hsn].
    by apply Forall_app in Hok1 as [_ ?].
  - exists (layout (pre ++ o :: entries_segs es1) ++ list_gap entry), (seg_gap s ++ [COMMA] ++ list_gap (entries_segs es2 ++ [cl]) ++ y :: r).
    rewrite Hx, He. split; [rewrite Hdoc; by rewrite <-!(assoc_L (++))|]. right. left.
    exists (seg_gap s), (list_gap (entries_segs es2 ++ [cl]) ++ y :: r). split; [done|].
    rewrite !(ink_app (_ ++ [z])), !ink_app, Hink, <-!(assoc_L (++)). done.
Qed.

(** The only entry, without a comma. *)
Lemma remove_alone :
  e_comma e = None → es1 = [] → es2 = [] →
  gone (remove_entry doc (p_start p, end_ (p_value p)) before (token_start <$> p_comma p) (bool_decide (es2 = []))).
Proof.
  intros Hs Hes1 Hes2. destruct context_ok as [(Hok1 & Hoke & _ & Hok2) (Hpl1 & Hple & _ & Hpl2)].
  pose proof (hole_wf _ _ _ _ _ c_hole) as Hn.
  destruct (layout_visible_end (pre ++ o :: entries_segs es1)) as (x & z & _ & Hx & Hz); [by destruct pre|done|done|].
  destruct (next_visible (entries_segs es2 ++ [cl])) as (y & r & Hy & Hvy); [by destruct (entries_segs es2)|done|done|].
  pose proof entry_text as Hdoc. rewrite Hs, Hy, Hx in Hdoc. change (layout (option_list None)) with (@nil byte) in Hdoc.
  destruct (remove_only _ z y r Hz Hvy doc _ _ _ (list_gap_ok _ Hoke) (list_gap_ok _ Hok2) Hdoc) as (g & Hg & Hink & Hres).
  destruct (without_entry b o es1 e es2 cl g Hn) as (n & Hwn & Hsn & Htn); [done|].
  eexists. split_and!.
  - rewrite entry_start, entry_stop, entry_comma, Hs, entry_off, Hx, (layout_list entry).
    rewrite bool_decide_eq_true_2 by done.
    destruct entry_before as [[-> _]|(es0 & ? & ? & Heq & _)]; [|rewrite Hes1 in Heq; by destruct es0].
    cbn [fmap option_fmap option_map]. etrans; [|exact Hres]. f_equal. f_equal; rewrite ?length_app; lia.
  - rewrite <-Hx, <-Hy, <-Htn. eapply fill_gap; [done|done|done|by destruct (entries_segs es2)| |done|done|by rewrite Hsn].
    by apply Forall_app in Hok1 as [_ ?].
  - exists (layout (pre ++ o :: entries_segs es1) ++ list_gap entry), (list_gap (entries_segs es2 ++ [cl]) ++ y :: r).
    rewrite Hx. split; [rewrite Hdoc; by rewrite <-!(assoc_L (++))|]. left.
    rewrite !(ink_app (_ ++ [z])), !ink_app, Hink, <-!(assoc_L (++)). done.
Qed.

(** The last entry, with the comma before it. *)
Lemma remove_final :
  es1 ≠ [] → es2 = [] →
  gone (remove_entry doc (p_start p, end_ (p_value p)) before (token_start <$> p_comma p) (bool_decide (es2 = []))).
Proof.
  intros Hes1 Hes2. destruct entry_before as [[_ ?]|(es0 & e0 & s & Heq & Hs & Hk & Hb)]; [done|].
  destruct context_ok as [(Hok1 & Hoke & Hokc & Hok2) (Hpl1 & Hple & Hplc & Hpl2)].
  pose proof (hole_wf _ _ _ _ _ c_hole) as Hn. rewrite Heq, Hes2 in Hn.
  set (prev := pre ++ o :: entries_segs es0 ++ e_head e0 ++ segs (e_value e0)).
  assert (pre ++ o :: entries_segs es1 = prev ++ [s]) as Hprev.
  { unfold prev. rewrite Heq, entries_segs_app, entries_segs_single. unfold entry_segs. rewrite Hs. by list_simplifier. }
  rewrite Hprev in Hok1, Hpl1. apply Forall_app in Hok1 as [Hokp [Hoks _]%Forall_cons], Hpl1 as [Hplp _].
  set (next := option_list (e_comma e) ++ [cl]). rewrite Hes2 in Hok2, Hpl2. cbn [entries_segs fmap list_fmap mjoin list_join app] in Hok2, Hpl2.
  assert (next ≠ []) as Hnn by (unfold next; by destruct (e_comma e)).
  assert (Forall seg_ok next) as Hokn by by apply Forall_app.
  destruct (layout_visible_end prev) as (x & z & _ & Hx & Hz); [by unfold prev; destruct pre|done|done|].
  destruct (next_visible next) as (y & r & Hy & Hvy); [done|done|by apply Forall_app|].
  assert (doc = layout prev ++ seg_gap s ++ [COMMA] ++ list_gap entry ++ list_body entry ++ list_gap next ++ y :: r) as Hdoc.
  { unfold doc. rewrite entry_context, Hprev, (layout_app (prev ++ _)), (layout_app prev), (layout_app entry), (layout_list entry).
    rewrite (layout_comma s Hoks Hk), <-Hy, Hes2, (assoc_L (++) (option_list _) _ post). cbn [entries_segs fmap list_fmap mjoin list_join app].
    fold next. rewrite (layout_next next post Hnn). by rewrite <-!(assoc_L (++)). }
  rewrite Hx in Hdoc.
  destruct (remove_before _ z y r Hz Hvy doc _ _ _ _ (token_start <$> p_comma p) (proj1 Hoks) (list_gap_ok _ Hoke)
    (list_gap_ok _ Hokn) Hdoc) as (g & Hg & Hink & Hres).
  destruct (without_last b o es0 e0 e cl g Hn) as (n & Hwn & Hsn & Htn).
  eexists. split_and!.
  - rewrite bool_decide_eq_true_2 by done. rewrite entry_start, entry_stop, entry_off, Hprev, Hb. fold prev.
    rewrite (layout_app prev), (layout_comma s Hoks Hk), Hx, (layout_list entry).
    etrans; [|exact Hres]. f_equal; [f_equal|f_equal]; rewrite ?length_app; simpl; lia.
  - rewrite <-Hx, <-Hy, Hes2, app_nil_r, Heq, <-Htn. unfold prev.
    eapply fill_gap; [done|done|done|done| |done|done|rewrite Hsn; by list_simplifier].
    by apply Forall_app in Hokp as [_ ?].
  - exists (layout prev ++ seg_gap s ++ [COMMA] ++ list_gap entry), (list_gap next ++ y :: r).
    rewrite Hx. split; [rewrite Hdoc; by list_simplifier|]. right. right.
    exists (((list_gap prev ++ x) ++ [z]) ++ seg_gap s), (list_gap entry). split; [by list_simplifier|].
    rewrite !(ink_app (_ ++ [z])), !ink_app, Hink, <-!(assoc_L (++)). done.
Qed.

(** Removing the entry leaves the container without it. *)
Lemma remove_placed :
  gone (remove_entry doc (p_start p, end_ (p_value p)) before (token_start <$> p_comma p) (bool_decide (es2 = []))).
Proof.
  destruct (decide (es2 = [])) as [Hes2|Hes2]; [destruct (decide (es1 = [])) as [Hes1|Hes1]|].
  - destruct (e_comma e) as [s|] eqn:Hs; [by apply (remove_followed s)|by apply remove_alone].
  - by apply remove_final.
  - destruct (e_comma e) as [s|] eqn:Hs; [by apply (remove_followed s)|].
    pose proof (hole_wf _ _ _ _ _ c_hole) as (_ & _ & (_ & (_ & Hc & _) & _)%commas_ok_app & _)%wf_node.
    by destruct (Hc Hes2).
Qed.

End remove_placed.

End removes.

(** ** [remove_member] and [remove_element] *)

Section remove_values.
  Context `{ValueJson}.

(** Entries start one after the other. *)
Lemma entry_starts_before off before e :
  Forall seg_ok (entry_segs segs e) → p_start (place_entry parsed off before e) < entry_end off e.
Proof.
  intros Hok. cbn [p_start place_entry]. rewrite first_start_list. unfold entry_end. rewrite layout_list, length_app.
  assert (entry_segs segs e ≠ []) as Hne.
  { unfold entry_segs. intros [_ [Hn _]%app_eq_nil]%app_eq_nil. by apply segs_nonempty in Hn. }
  destruct (entry_segs segs e) as [|s ss]; [done|]. apply Forall_cons in Hok as [[_ Hl] _]. simpl.
  pose proof (lexeme_nonempty _ _ Hl). rewrite length_app. destruct (raw s); simpl; [done|lia].
Qed.

Lemma is_last_member off o es1 e es2 cl :
  Forall seg_ok (entry_segs segs e) →
  let inner := off + length (seg_text o) in
  is_some_and (λ l, key_start l =? p_start (place_entry parsed (entries_end inner es1) (comma_before_next inner None es1) e))
    (last (members (parsed_object off o (es1 ++ e :: es2) cl))) = bool_decide (es2 = []).
Proof.
  intros Hok inner. cbn [members parsed_object]. fold inner. rewrite fmap_last.
  destruct (last es2) as [el|] eqn:Hl.
  - apply last_Some in Hl as [es2' ->]. rewrite app_comm_cons, (assoc_L (++)), place_entries_app.
    cbn [place_entries]. rewrite last_snoc. cbn [fmap option_fmap option_map is_some_and key_start member_of].
    rewrite bool_decide_eq_false_2 by by destruct es2'. apply Nat.eqb_neq.
    pose proof (entry_starts_before (entries_end inner es1) (comma_before_next inner None es1) e Hok).
    cbn [p_start place_entry] in *. rewrite (first_start_list _ (entry_segs segs el)).
    enough (entry_end (entries_end inner es1) e ≤ entries_end inner (es1 ++ e :: es2')) by lia.
    unfold entry_end, entries_end. rewrite entries_segs_app, entries_segs_cons, !length_layout_app. lia.
  - apply last_None in Hl as ->. rewrite place_entries_app. cbn [place_entries]. rewrite last_snoc.
    cbn [fmap option_fmap option_map is_some_and key_start member_of]. rewrite Nat.eqb_refl. done.
Qed.

(** The comma the parser records the end of starts a byte earlier. *)
Lemma comma_after_start off before e :
  Forall seg_ok (entry_segs segs e) → comma_ok (e_comma e) →
  pred <$> comma_after (member_of (place_entry parsed off before e)) =
  token_start <$> p_comma (place_entry parsed off before e).
Proof.
  intros Hok Hc. cbn [comma_after member_of p_comma place_entry]. unfold comma_token, entry_segs in *.
  destruct (e_comma e) as [s|]; [|done]. simpl. f_equal.
  apply Forall_app in Hok as [_ [_ [Hs _]%Forall_cons]%Forall_app].
  unfold seg_text. rewrite length_app, (comma_raw s Hs (Hc s eq_refl)). simpl. lia.
Qed.

Lemma remove_member_found doc t path old :
  denotes doc t → plain_tree t = true → path ≠ [] → tree_lookup 0 path t = TFound old →
  ∃ doc' entry parents k, path = parents ++ [k] ∧ remove_member doc path = Some (doc', Ok true) ∧
    denotes doc' (tree_update parents (λ t, match t with TObject ms => TObject (remove_key k ms) | t => t end) t) ∧
    prints_member entry k old ∧ keeps_ink doc entry doc'.
Proof.
  intros (c & tail & -> & Hg & ->) Hpl Hne Hold.
  destruct (root_object c path Hne) as [p Hp]; [by rewrite Hold|].
  destruct (found_member c p path old (proj1 Hg) Hp Hne Hold) as (parents & k & m & parent & -> & Hm & Hl).
  destruct (member_entry _ _ _ _ _ _ Hm) as (o & es1 & e & es2 & cl & pre & post & Hat & Hk & -> & ->).
  simpl in Hat. pose proof (at_path_hole _ _ _ _ _ Hat (proj1 Hg)) as Hh.
  pose proof (hole_wf _ _ _ _ _ Hh) as Hn. pose proof Hn as (_ & _ & Hco & Hes)%wf_node.
  destruct (hole_segs_ok _ _ _ _ _ Hh (proj1 (proj2 Hg))) as (_ & Hok & _).
  rewrite segs_node in Hok. apply Forall_cons in Hok as [_ [Hok _]%Forall_app].
  rewrite entries_segs_app, entries_segs_cons in Hok. apply Forall_app in Hok as [_ [Hok _]%Forall_app].
  apply commas_ok_app in Hco as (_ & [Hc _] & _). apply Forall_app in Hes as [_ [[Hhead Hv] _]%Forall_cons].
  destruct (remove_placed c tail Braces o es1 e es2 cl pre post _ Hg (plain_segs c (proj1 Hg) Hpl) Hh)
    as (doc' & Hr & Hd & Hi).
  exists doc', (list_body (e_head e ++ segs (e_value e))), parents, k. split_and!; [done| | | |done].
  - unfold remove_member. rewrite (parse_root_object c tail p Hg Hp). cbn [check]. rewrite Hl. cbn [check].
    rewrite (comma_after_start _ _ _ Hok Hc).
    cbn [key_start value_end comma_before member_of p_before place_entry]. simpl Nat.add.
    rewrite (is_last_member (length (layout pre)) o es1 e es2 cl Hok). by rewrite Hr.
  - rewrite (at_path_update _ _ _ _ _ _ Hat), tree_of_object, remove_key_first by done. by rewrite tree_of_object in Hd.
  - rewrite (tree_lookup_app _ _ _ _ _ (at_path_lookup _ _ _ _ _ Hat)), tree_of_object in Hold. simpl in Hold.
    rewrite find_key_first in Hold by done. injection Hold as <-.
    destruct Hhead as (ks & colon & v & He & Hks & Hcol). destruct Hk as [_ Hk]. unfold entry_key in Hk. rewrite He, Hks in Hk.
    subst v. exists (set_gap [] ks), colon, (e_value e). rewrite He. unfold entry_segs in Hok. rewrite He in Hok.
    apply Forall_cons in Hok as [[_ Hlk] [Hokc [Hokv _]%Forall_app]%Forall_cons].
    split_and!; try done. by constructor; [split; [constructor|]|constructor].
Qed.

Lemma remove_element_found doc t path ts index old :
  denotes doc t → plain_tree t = true → path ≠ [] → tree_lookup 0 path t = TFound (TArray ts) → ts !! index = Some old →
  ∃ doc' entry, remove_element doc path index = Some (doc', Ok ()) ∧
    denotes doc' (tree_update path (λ _, TArray (delete index ts)) t) ∧
    prints entry old ∧ keeps_ink doc entry doc'.
Proof.
  intros (c & tail & -> & Hg & ->) Hpl Hne Hts Hold.
  destruct (root_object c path Hne) as [p Hp]; [by rewrite Hts|].
  destruct (array_found c p path ts (proj1 Hg) Hp Hne Hts) as (o & es & cl & pre & post & Hat & -> & Ha).
  pose proof (at_path_hole _ _ _ _ _ Hat (proj1 Hg)) as Hh.
  unfold tree_elements in Hold. rewrite list_lookup_fmap in Hold.
  pose proof (element_at_placed (length (layout pre)) o es cl path index) as He.
  destruct (es !! index) as [e|]; [|done]. injection Hold as <-. destruct He as (es1 & es2 & -> & <- & He).
  pose proof (hole_wf _ _ _ _ _ Hh) as (_ & _ & _ & Hes)%wf_node. apply Forall_app in Hes as [_ [[Hhead Hv] _]%Forall_cons].
  simpl in Hhead.
  destruct (hole_segs_ok _ _ _ _ _ (entry_hole _ _ _ _ _ _ _ _ _ _ Hh) (proj1 (proj2 Hg))) as (_ & Hok & _).
  destruct (remove_placed c tail Brackets o es1 e es2 cl pre post _ Hg (plain_segs c (proj1 Hg) Hpl) Hh)
    as (doc' & Hr & Hd & Hi).
  exists doc', (list_body (e_head e ++ segs (e_value e))). split_and!; [| | |done].
  - unfold remove_element. rewrite (parse_root_object c tail p Hg Hp). cbn [check]. rewrite Ha. cbn [check ok_or].
    rewrite He. cbn [check element_start element_end element_comma_before element_comma_after element_of].
    cbn [p_value p_before place_entry p_comma elements parsed_array].
    rewrite length_fmap, length_place_entries, length_app.
    replace (length es1 + 1 =? length es1 + length (e :: es2)) with (bool_decide (es2 = [])).
    2: { destruct es2; simpl; case_bool_decide; try done; symmetry; [apply Nat.eqb_eq|apply Nat.eqb_neq]; lia. }
    assert (start (parsed (value_off (entries_end (length (layout pre) + length (seg_text o)) es1) e) (e_value e)) =
      p_start (place_entry parsed (entries_end (length (layout pre) + length (seg_text o)) es1)
        (comma_before_next (length (layout pre) + length (seg_text o)) None es1) e)) as ->.
    { cbn [p_start place_entry]. rewrite start_parsed, !first_start_list. unfold value_off, entry_segs. rewrite Hhead. simpl.
      rewrite Nat.add_0_r. destruct (segs (e_value e)) eqn:Hs; [by apply segs_nonempty in Hs|done]. }
    cbn [p_value p_comma place_entry] in Hr. by rewrite Hr.
  - rewrite tree_of_array in Hd.
    replace (delete (length es1) (tree_elements (es1 ++ e :: es2))) with (tree_elements (es1 ++ es2)); [done|].
    unfold tree_elements. rewrite !fmap_app. cbn [fmap list_fmap].
    by rewrite <-(length_fmap (tree_of ∘ e_value) es1), delete_middle.
  - rewrite Hhead. simpl. destruct (body_prints (e_value e) Hv Hok) as (q & Hq & Hrest).
    exists q. split; [|done]. rewrite <-Hq. unfold body. rewrite segs_set_first_gap, layout_set_list_gap; [done|apply segs_nonempty].
Qed.

End remove_values.
