(* ===== verification/JsoncSpec.v ===== *)
(** * What the edits promise

    The edits of a document against an abstract machine whose state is the tree
    the document denotes. [tree_edit] gives each edit's answer and the tree it
    leaves; [run_edit_refines] is the simulation, and [run_edits_refine] lifts it
    to sequences of edits. *)

From S2P Require Import Prelude.
From S2P Require Import Jsonc.
From S2P Require Import JsoncEdit.
From S2P Require Import JsoncLayout.
From S2P Require Import JsoncGrammar.
From S2P Require Import JsoncTree.
From S2P Require Import JsoncPath.
From S2P Require Import JsoncRender.
From S2P Require Import JsoncSet.
From S2P Require Import JsoncInsert.
From S2P Require Import JsoncPut.
From S2P Require Import JsoncRemove.

#[local] Open Scope nat_scope.

(** ** The machine *)

(** Where a path leads from the root, or why it leads nowhere. *)
Definition tree_path (path : list text) (t : Tree) : Result TreeLookup JsoncError :=
  match t, path with
  | TObject _, [] => Err EmptyPath
  | TObject _, _ =>
      match tree_lookup 0 path t with
      | TBlocked d => Err (NotAnObject (take d path))
      | found => Ok found
      end
  | _, _ => Err RootNotObject
  end.

Definition tree_array (path : list text) (t : Tree) : Result (option (list Tree)) JsoncError :=
  let! found := tree_path path t in
  match found with
  | TFound (TArray ts) => Ok (Some ts)
  | TFound _ => Err (NotAnArray path)
  | _ => Ok None
  end.

Definition tree_element (path : list text) (index : nat) (t : Tree) : Result (list Tree) JsoncError :=
  let! found := tree_array path t in
  let! ts := ok_or found (IsAbsent path) in
  let! _ := ok_or (ts !! index) (NoElement path (length ts) index) in
  Ok ts.

Fixpoint tree_remove (path : list text) (t : Tree) : Tree :=
  match path, t with
  | [k], TObject ms => TObject (remove_key k ms)
  | k :: path, TObject ms => TObject (alter_key k (tree_remove path) ms)
  | _, t => t
  end.

Lemma tree_remove_snoc parents k t :
  tree_update parents (λ t, match t with TObject ms => TObject (remove_key k ms) | t => t end) t = tree_remove (parents ++ [k]) t.
Proof.
  revert t. induction parents as [|k' parents IH]; intros t; [by destruct t|].
  destruct t as [| |ms|]; try (by destruct parents). cbn [app tree_update].
  assert (∀ f g ms, (∀ t, f t = g t) → alter_key k' f ms = alter_key k' g ms) as Hext.
  { intros f g ms' Hfg. induction ms' as [|[k'' t] ms' IHms]; simpl; [done|]. by rewrite Hfg, IHms. }
  rewrite (Hext _ _ ms IH). by destruct parents.
Qed.

(** ** Trees of visible atoms *)

Lemma plain_object ms : plain_tree (TObject ms) = true ↔ Forall (λ kt, plain_tree kt.2 = true) ms.
Proof. simpl. by rewrite forallb_Forall. Qed.

Lemma plain_array ts : plain_tree (TArray ts) = true ↔ Forall (λ t, plain_tree t = true) ts.
Proof. simpl. by rewrite forallb_Forall. Qed.

Lemma plain_alter k f ms :
  Forall (λ kt, plain_tree kt.2 = true) ms → (∀ t, plain_tree t = true → plain_tree (f t) = true) →
  Forall (λ kt, plain_tree kt.2 = true) (alter_key k f ms).
Proof.
  intros Hms Hf. induction Hms as [|[k' t] ms Ht Hms IH]; simpl; [constructor|]. case_bool_decide; by constructor; [by try apply Hf|].
Qed.

Lemma plain_remove_key k ms :
  Forall (λ kt, plain_tree kt.2 = true) ms → Forall (λ kt, plain_tree kt.2 = true) (remove_key k ms).
Proof. induction 1 as [|[k' t] ms Ht Hms IH]; simpl; [constructor|]. case_bool_decide; [done|]. by constructor. Qed.

Lemma plain_find k ms t : find_key k ms = Some t → Forall (λ kt, plain_tree kt.2 = true) ms → plain_tree t = true.
Proof.
  intros Hk Hms. induction Hms as [|[k' t'] ms Ht _ IH]; simpl in Hk; [done|]. case_bool_decide; [by simplify_eq|by apply IH].
Qed.

Lemma plain_update path f t :
  (∀ t, plain_tree t = true → plain_tree (f t) = true) → plain_tree t = true → plain_tree (tree_update path f t) = true.
Proof.
  intros Hf. revert t. induction path as [|k path IH]; intros t Ht; [by apply Hf|]. destruct t as [| |ms|]; try done.
  cbn [tree_update]. apply plain_object, plain_alter; [by apply plain_object|done].
Qed.

Lemma plain_nest keys x : plain_tree x = true → plain_tree (nest_tree keys x) = true.
Proof. intros Hx. induction keys as [|k keys IH]; [done|]. apply plain_object. by constructor; [|constructor]. Qed.

Lemma plain_put path x t : plain_tree x = true → plain_tree t = true → plain_tree (tree_put path x t) = true.
Proof.
  intros Hx. revert t. induction path as [|k path IH]; intros t Ht; [done|]. destruct t as [| |ms|]; try done. cbn [tree_put].
  pose proof (proj1 (plain_object ms) Ht) as Hms. destruct (find_key k ms); apply plain_object; [by apply plain_alter|].
  apply Forall_app. split; [done|]. by constructor; [apply plain_nest|constructor].
Qed.

Lemma plain_remove path t : plain_tree t = true → plain_tree (tree_remove path t) = true.
Proof.
  revert t. induction path as [|k path IH]; intros t Ht; [done|]. destruct t as [| |ms|]; try (by destruct path).
  pose proof (proj1 (plain_object ms) Ht) as Hms. destruct path as [|k' path]; apply plain_object; [by apply plain_remove_key|].
  by apply plain_alter.
Qed.

Lemma plain_lookup d path t x : tree_lookup d path t = TFound x → plain_tree t = true → plain_tree x = true.
Proof.
  revert d t. induction path as [|k path IH]; intros d t; simpl; [by intros [= ->]|]. destruct t as [| |ms|]; try done.
  destruct (find_key k ms) as [t|] eqn:Hk; [|done]. intros Hl Ht%plain_object. eapply IH; [done|]. by eapply plain_find.
Qed.

Section spec.
  Context `{ValueJsonLaws}.

Inductive EditOp :=
  | SetMember (path : list text) (v : Value number)
  | InsertMember (path : list text) (v : Value number)
  | InsertObjectMember (path : list text) (k : text) (v : Value number)
  | RemoveMember (path : list text)
  | SetElement (path : list text) (index : nat) (v : Value number)
  | PushElement (path : list text) (v : Value number)
  | RemoveElement (path : list text) (index : nat).

Inductive Answer := Done | Removed (there : bool).

Definition answer {T} (f : T → Answer) (r : option (text * Result T JsoncError)) : option (text * Result Answer JsoncError) :=
  match r with
  | Some (doc, Ok x) => Some (doc, Ok (f x))
  | Some (doc, Err e) => Some (doc, Err e)
  | None => None
  end.

Definition run_edit (op : EditOp) (doc : text) : option (text * Result Answer JsoncError) :=
  match op with
  | SetMember path v => answer (λ _, Done) (set_member doc path v)
  | InsertMember path v => answer (λ _, Done) (insert_member doc path v)
  | InsertObjectMember path k v => answer (λ _, Done) (insert_object_member doc path k v)
  | RemoveMember path => answer Removed (remove_member doc path)
  | SetElement path index v => answer (λ _, Done) (set_element doc path index v)
  | PushElement path v => answer (λ _, Done) (push_element doc path v)
  | RemoveElement path index => answer (λ _, Done) (remove_element doc path index)
  end.

Definition tree_edit (op : EditOp) (t : Tree) : Result (Tree * Answer) JsoncError :=
  match op with
  | SetMember path v => let! _ := tree_path path t in Ok (tree_put path (put_tree v) t, Done)
  | InsertMember path v =>
      let! found := tree_path path t in
      match found with
      | TFound _ => Err (AlreadyExists path)
      | _ => Ok (tree_put path (put_tree v) t, Done)
      end
  | InsertObjectMember path k v =>
      match tree_lookup 0 path t with
      | TFound (TObject ms) => Ok (tree_update path (λ _, TObject (ms ++ [(k, put_tree v)])) t, Done)
      | _ => Err ParentAbsent
      end
  | RemoveMember path =>
      let! found := tree_path path t in
      match found with
      | TFound _ => Ok (tree_remove path t, Removed true)
      | _ => Ok (t, Removed false)
      end
  | SetElement path index v =>
      let! ts := tree_element path index t in
      Ok (tree_update path (λ _, TArray (<[index := put_tree v]> ts)) t, Done)
  | PushElement path v =>
      let! found := tree_array path t in
      match found with
      | Some ts => Ok (tree_update path (λ _, TArray (ts ++ [put_tree v])) t, Done)
      | None => Ok (tree_put path (TArray [put_tree v]) t, Done)
      end
  | RemoveElement path index =>
      let! ts := tree_element path index t in
      Ok (tree_update path (λ _, TArray (delete index ts)) t, Done)
  end.

(** ** Simulation *)

(** The edit gives the machine's answer, and leaves a document of the machine's
    tree; a refused edit leaves the document alone. *)
Definition refines (doc : text) (r : option (text * Result Answer JsoncError)) (spec : Result (Tree * Answer) JsoncError) : Prop :=
  match spec with
  | Ok (t, a) => ∃ doc', r = Some (doc', Ok a) ∧ denotes doc' t
  | Err e => r = Some (doc, Err e)
  end.

Lemma root_document doc t :
  denotes doc t → match t with TObject _ => ∃ p, parse_root doc = Ok p | _ => parse_root doc = Err RootNotObject end.
Proof.
  intros Hd. pose proof (lookup_document doc t [[]] Hd ltac:(done)) as Hl. destruct t as [| |ms|]; try exact Hl.
  simpl in Hl. destruct (find_key [] ms); destruct Hl as (p & Hp & _); by exists p.
Qed.

Lemma tree_path_document doc t path :
  denotes doc t →
  match tree_path path t with
  | Ok found => path ≠ [] ∧ tree_lookup 0 path t = found ∧ path_error path found = None
  | Err e => parse_root doc = Err e ∨ ∃ p, parse_root doc = Ok p ∧ lookup_path p path = Some (Err e)
  end.
Proof.
  intros Hd. pose proof (root_document doc t Hd) as Hr. unfold tree_path. destruct t as [| |ms|]; try by left.
  destruct Hr as [p Hp]. destruct path as [|k path]; [right; by exists p|].
  pose proof (lookup_document doc _ (k :: path) Hd ltac:(done)) as Hl. rewrite Hp in Hl.
  destruct (tree_lookup _ _ _) as [x|d|[|d]]; [done|done|done|]. destruct Hl as (p' & [= <-] & Hl). right. by exists p.
Qed.

(** What the edits do first, when the path is refused. *)
Lemma refused_path {T} doc t path e (k : ParsedObject → Lookup → option (text * Result T JsoncError)) :
  denotes doc t → tree_path path t = Err e →
  check doc (Some (parse_root doc)) (λ root, check doc (lookup_path root path) (k root)) = Some (doc, Err e).
Proof.
  intros Hd He. pose proof (tree_path_document doc t path Hd) as Hp. rewrite He in Hp.
  destruct Hp as [->|(p & -> & Hl)]; [done|]. cbn [check]. by rewrite Hl.
Qed.

Lemma array_document doc t path :
  denotes doc t →
  match tree_array path t with
  | Ok (Some ts) => path ≠ [] ∧ tree_lookup 0 path t = TFound (TArray ts)
  | Ok None => (path ≠ [] ∧ ∃ d, tree_lookup 0 path t = TMissing d) ∧ ∃ p, parse_root doc = Ok p ∧ array_at p path = Some (Ok None)
  | Err e => parse_root doc = Err e ∨ ∃ p, parse_root doc = Ok p ∧ array_at p path = Some (Err e)
  end.
Proof.
  intros Hd. pose proof (tree_path_document doc t path Hd) as Hp. unfold tree_array.
  destruct (tree_path path t) as [found|e]; cbn [result_bind].
  2: { destruct Hp as [?|(p & Hp & Hl)]; [by left|]. right. exists p. split; [done|]. unfold array_at. by rewrite Hl. }
  destruct Hp as (Hne & Hl & Hpe). destruct Hd as (c & tail & -> & Hg & ->).
  destruct (root_object c path Hne) as [p Hp]; [rewrite Hl; destruct path, found as [|d|[|d]]; done|].
  pose proof (array_not_found c p path (proj1 Hg) Hp Hne) as Ha. pose proof (parse_root_object c tail p Hg Hp) as Hr.
  rewrite Hl in Ha. destruct found as [[| | |ts]|d|[|d]]; try done; try (right; by exists p); try (by destruct path).
  split; [|by exists p]. split; [done|]. by exists d.
Qed.

Lemma refused_array {T} doc t path e (k : ParsedObject → option ParsedArray → option (text * Result T JsoncError)) :
  denotes doc t → tree_array path t = Err e →
  check doc (Some (parse_root doc)) (λ root, check doc (array_at root path) (k root)) = Some (doc, Err e).
Proof.
  intros Hd He. pose proof (array_document doc t path Hd) as Hp. rewrite He in Hp.
  destruct Hp as [->|(p & -> & Hl)]; [done|]. cbn [check]. by rewrite Hl.
Qed.

(** An element that is not there. *)
Lemma refused_element {T} doc t path index e (k : ParsedArray → ParsedElement → option (text * Result T JsoncError)) :
  denotes doc t → tree_element path index t = Err e →
  check doc (Some (parse_root doc)) (λ root, check doc (array_at root path) (λ a,
    check doc (Some (ok_or a (IsAbsent path))) (λ a, check doc (Some (element_at a path index)) (k a)))) = Some (doc, Err e).
Proof.
  intros Hd. unfold tree_element. pose proof (array_document doc t path Hd) as Ha.
  destruct (tree_array path t) as [[ts|]|e'] eqn:Ht; cbn [result_bind ok_or].
  - destruct (ts !! index) as [x|] eqn:Hx; [done|]. intros [= <-]. destruct Ha as [Hne Hl].
    destruct Hd as (c & tail & -> & Hg & ->).
    destruct (root_object c path Hne) as [p Hp]; [by rewrite Hl|].
    rewrite (parse_root_object c tail p Hg Hp). cbn [check].
    destruct (array_found c p path ts (proj1 Hg) Hp Hne Hl) as (o & es & cl & pre & post & Hat & -> & ->). cbn [check ok_or].
    pose proof (element_at_placed (length (layout pre)) o es cl path index) as He.
    unfold tree_elements in *. rewrite list_lookup_fmap in Hx. destruct (es !! index); [done|]. by rewrite He, length_fmap.
  - intros [= <-]. destruct Ha as (_ & p & -> & Ha). cbn [check]. by rewrite Ha.
  - intros [= ->]. by apply (refused_array doc t).
Qed.

Lemma set_member_refines doc t path v :
  denotes doc t → refines doc (run_edit (SetMember path v) doc) (tree_edit (SetMember path v) t).
Proof.
  intros Hd. cbn [run_edit tree_edit]. pose proof (tree_path_document doc t path Hd) as Hp.
  destruct (tree_path path t) as [found|e] eqn:Ht; cbn [result_bind refines].
  - destruct Hp as (_ & Hl & Hpe). rewrite <-Hl in Hpe. destruct (set_member_puts doc t path v Hd Hpe) as (doc' & -> & Hd').
    by exists doc'.
  - unfold set_member. by rewrite (refused_path doc t path e).
Qed.

Lemma insert_member_refines doc t path v :
  denotes doc t → refines doc (run_edit (InsertMember path v) doc) (tree_edit (InsertMember path v) t).
Proof.
  intros Hd. cbn [run_edit tree_edit]. pose proof (tree_path_document doc t path Hd) as Hp.
  destruct (tree_path path t) as [found|e] eqn:Ht; cbn [result_bind].
  - destruct Hp as (Hne & Hl & Hpe). pose proof (lookup_document doc t path Hd Hne) as Hdoc. rewrite Hl in Hdoc.
    destruct found as [x|d|d]; cbn [refines].
    + destruct Hdoc as (p & Hr & m & parent & Hlp). unfold insert_member, insert_member_with. rewrite Hr. cbn [check]. by rewrite Hlp.
    + destruct (insert_member_missing doc t path d v _ Hd Hne Hl decorates_id) as (? & ? & ? & ? & ? & ? & _ & _ & _ & Hi & Hd').
      unfold insert_member. rewrite Hi. by eexists.
    + by destruct path, d.
  - unfold insert_member, insert_member_with. cbn [refines]. by rewrite (refused_path doc t path e).
Qed.

Lemma insert_object_member_refines doc t path k v :
  denotes doc t → refines doc (run_edit (InsertObjectMember path k v) doc) (tree_edit (InsertObjectMember path k v) t).
Proof.
  intros Hd. cbn [run_edit tree_edit]. unfold insert_object_member.
  destruct (tree_lookup 0 path t) as [[| |ms|]|d|d] eqn:Hl; cbn [refines];
    try (rewrite (insert_object_member_absent doc t path k v _ Hd); [done|by rewrite Hl]).
  destruct (insert_object_member_adds doc t path ms k v _ Hd Hl decorates_id) as (? & ? & ? & ? & ? & ? & _ & _ & _ & Hi & Hd').
  rewrite Hi. by eexists.
Qed.

Lemma remove_member_refines doc t path :
  denotes doc t → plain_tree t = true → refines doc (run_edit (RemoveMember path) doc) (tree_edit (RemoveMember path) t).
Proof.
  intros Hd Hpl. cbn [run_edit tree_edit]. pose proof (tree_path_document doc t path Hd) as Hp.
  destruct (tree_path path t) as [found|e] eqn:Ht; cbn [result_bind].
  - destruct Hp as (Hne & Hl & Hpe). pose proof (lookup_document doc t path Hd Hne) as Hdoc. rewrite Hl in Hdoc.
    destruct found as [x|d|d]; cbn [refines].
    + destruct (remove_member_found doc t path x Hd Hpl Hne Hl) as (doc' & entry & parents & k & -> & Hr & Hd' & _).
      rewrite Hr. exists doc'. split; [done|]. by rewrite <-tree_remove_snoc.
    + destruct Hdoc as (p & Hr & Hlp). unfold remove_member. rewrite Hr. cbn [check]. rewrite Hlp. cbn [check answer]. by exists doc.
    + by destruct path, d.
  - unfold remove_member. cbn [refines]. by rewrite (refused_path doc t path e).
Qed.

Lemma tree_element_found doc t path index ts :
  denotes doc t → tree_element path index t = Ok ts →
  path ≠ [] ∧ tree_lookup 0 path t = TFound (TArray ts) ∧ ∃ x, ts !! index = Some x.
Proof.
  intros Hd. unfold tree_element. pose proof (array_document doc t path Hd) as Ha.
  destruct (tree_array path t) as [[ts'|]|e]; cbn [result_bind ok_or]; [|done|done].
  destruct (ts' !! index) as [x|] eqn:Hx; [|done]. intros [= ->]. destruct Ha. split_and!; [done|done|by exists x].
Qed.

Lemma set_element_refines doc t path index v :
  denotes doc t → refines doc (run_edit (SetElement path index v) doc) (tree_edit (SetElement path index v) t).
Proof.
  intros Hd. cbn [run_edit tree_edit]. destruct (tree_element path index t) as [ts|e] eqn:He; cbn [result_bind refines].
  - destruct (tree_element_found doc t path index ts Hd He) as (Hne & Hl & x & Hx).
    destruct (set_element_found doc t path ts index x v Hd Hne Hl Hx) as (a & b & d & b' & _ & Hs & _ & _ & Hd').
    rewrite Hs. by eexists.
  - unfold set_element. by rewrite (refused_element doc t path index e (λ _ e, _)).
Qed.

Lemma remove_element_refines doc t path index :
  denotes doc t → plain_tree t = true →
  refines doc (run_edit (RemoveElement path index) doc) (tree_edit (RemoveElement path index) t).
Proof.
  intros Hd Hpl. cbn [run_edit tree_edit]. destruct (tree_element path index t) as [ts|e] eqn:He; cbn [result_bind refines].
  - destruct (tree_element_found doc t path index ts Hd He) as (Hne & Hl & x & Hx).
    destruct (remove_element_found doc t path ts index x Hd Hpl Hne Hl Hx) as (doc' & entry & Hr & Hd' & _).
    rewrite Hr. by eexists.
  - unfold remove_element. by rewrite (refused_element doc t path index e).
Qed.

Lemma push_element_refines doc t path v :
  denotes doc t → refines doc (run_edit (PushElement path v) doc) (tree_edit (PushElement path v) t).
Proof.
  intros Hd. cbn [run_edit tree_edit]. pose proof (array_document doc t path Hd) as Ha.
  destruct (tree_array path t) as [[ts|]|e] eqn:Ht; cbn [result_bind refines].
  - destruct Ha as [Hne Hl]. destruct (push_element_found doc t path ts v Hd Hne Hl) as (? & ? & ? & ? & ? & _ & _ & Hp & Hd').
    rewrite Hp. by eexists.
  - destruct Ha as ((Hne & d & Hl) & p & Hr & Ha).
    destruct (insert_member_missing doc t path d (Array [v]) _ Hd Hne Hl decorates_id) as (? & ? & ? & ? & ? & ? & _ & _ & _ & Hi & Hd').
    unfold push_element. rewrite Hr. cbn [check]. rewrite Ha. cbn [check]. unfold insert_member. rewrite Hi. by eexists.
  - unfold push_element. by rewrite (refused_array doc t path e).
Qed.

Lemma run_edit_refines op doc t :
  denotes doc t → plain_tree t = true → refines doc (run_edit op doc) (tree_edit op t).
Proof.
  destruct op; intros; [apply set_member_refines|apply insert_member_refines|apply insert_object_member_refines|
    apply remove_member_refines|apply set_element_refines|apply push_element_refines|apply remove_element_refines]; done.
Qed.

(** ** Sequences of edits *)

Fixpoint plain_value (v : Value number) : plain_tree (value_tree number_text v) = true.
Proof.
  destruct v as [|[]|n|s|l|m]; try reflexivity.
  - apply number_text_visible.
  - apply plain_array. induction l as [|v l IH]; constructor; [apply plain_value|exact IH].
  - apply plain_object. induction m as [|[k v] m IH]; constructor; [apply plain_value|exact IH].
Qed.

Lemma tree_array_plain path t ts :
  tree_array path t = Ok (Some ts) → plain_tree t = true → Forall (λ t, plain_tree t = true) ts.
Proof.
  unfold tree_array. intros (found & Hp & Hf)%result_bind_Ok_inv Ht. destruct found as [[| | |ts']|d|d]; simplify_eq.
  apply plain_array. unfold tree_path in Hp. destruct t as [| |ms|]; try done. destruct path as [|k path]; [done|].
  destruct (tree_lookup _ _ _) as [x|d|d] eqn:Hl; simplify_eq. by eapply plain_lookup.
Qed.

Lemma tree_element_plain path index t ts :
  tree_element path index t = Ok ts → plain_tree t = true → Forall (λ t, plain_tree t = true) ts.
Proof.
  unfold tree_element. intros (found & Ha & (ts' & Hts & (x & Hx & [= <-])%result_bind_Ok_inv)%result_bind_Ok_inv)%result_bind_Ok_inv Ht.
  destruct found; [|done]. injection Hts as ->. by eapply tree_array_plain.
Qed.

Lemma tree_edit_plain op t t' a : tree_edit op t = Ok (t', a) → plain_tree t = true → plain_tree t' = true.
Proof.
  intros He Ht. destruct op as [path v|path v|path k v|path|path index v|path v|path index]; cbn [tree_edit] in He.
  - apply result_bind_Ok_inv in He as (found & _ & [= <- <-]). by apply plain_put; [apply plain_value|].
  - apply result_bind_Ok_inv in He as (found & _ & He). destruct found; simplify_eq; by apply plain_put; [apply plain_value|].
  - destruct (tree_lookup 0 path t) as [[| |ms|]|d|d] eqn:Hl; simplify_eq. apply plain_update; [|done]. intros _ _.
    apply (plain_lookup _ _ _ _ Hl), plain_object in Ht. apply plain_object, Forall_app. split; [done|].
    by constructor; [apply plain_value|constructor].
  - apply result_bind_Ok_inv in He as (found & _ & He). destruct found; simplify_eq; [by apply plain_remove|done..].
  - apply result_bind_Ok_inv in He as (ts & Hts & [= <- <-]). apply plain_update; [|done]. intros _ _. apply plain_array.
    apply Forall_insert; [by eapply tree_element_plain|apply plain_value].
  - apply result_bind_Ok_inv in He as ([ts|] & Hts & [= <- <-]).
    + apply plain_update; [|done]. intros _ _. apply plain_array, Forall_app. split; [by eapply tree_array_plain|].
      by constructor; [apply plain_value|constructor].
    + apply plain_put; [|done]. apply plain_array. by constructor; [apply plain_value|constructor].
  - apply result_bind_Ok_inv in He as (ts & Hts & [= <- <-]). apply plain_update; [|done]. intros _ _. apply plain_array.
    by apply Forall_delete, (tree_element_plain _ _ _ _ Hts).
Qed.

(** A session: edits one after the other on the same document, a refused one
    changing nothing. *)
Fixpoint run_edits (ops : list EditOp) (doc : text) : option (text * list (Result Answer JsoncError)) :=
  match ops with
  | [] => Some (doc, [])
  | op :: ops =>
      let? r := run_edit op doc in
      let? rest := run_edits ops r.1 in
      Some (rest.1, r.2 :: rest.2)
  end.

Fixpoint tree_edits (ops : list EditOp) (t : Tree) : Tree * list (Result Answer JsoncError) :=
  match ops with
  | [] => (t, [])
  | op :: ops =>
      match tree_edit op t with
      | Ok (t', a) => let rest := tree_edits ops t' in (rest.1, Ok a :: rest.2)
      | Err e => let rest := tree_edits ops t in (rest.1, Err e :: rest.2)
      end
  end.

Lemma run_edits_refine ops doc t :
  denotes doc t → plain_tree t = true →
  ∃ doc', run_edits ops doc = Some (doc', (tree_edits ops t).2) ∧ denotes doc' (tree_edits ops t).1.
Proof.
  revert doc t. induction ops as [|op ops IH]; intros doc t Hd Ht; [by exists doc|]. cbn [run_edits tree_edits].
  pose proof (run_edit_refines op doc t Hd Ht) as Hr. unfold refines in Hr. destruct (tree_edit op t) as [[t' a]|e] eqn:He.
  - destruct Hr as (doc1 & -> & Hd1). cbn [fst snd].
    destruct (IH doc1 t' Hd1 (tree_edit_plain _ _ _ _ He Ht)) as (doc' & -> & Hd'). by exists doc'.
  - rewrite Hr. cbn [fst snd]. destruct (IH doc t Hd Ht) as (doc' & -> & Hd'). by exists doc'.
Qed.

End spec.
