(* ===== verification/JsoncSpan.v ===== *)
(** * The span of a member

    [jsonc_member_span] names the bytes to delete to remove a member: with them
    gone the document denotes the tree without the member, whatever comments and
    commas surround it ([member_span_removes]). *)

From S2P Require Import Prelude.
From S2P Require Import Jsonc.
From S2P Require Import JsoncEdit.
From S2P Require Import JsoncLayout.
From S2P Require Import JsoncGrammar.
From S2P Require Import JsoncTree.
From S2P Require Import JsoncPath.
From S2P Require Import JsoncRender.
From S2P Require Import JsoncSet.
From S2P Require Import JsoncInsert.
From S2P Require Import JsoncRemove.

#[local] Open Scope nat_scope.

(** The range for a member whose commas and place are known. *)
Definition span_of (m : ParsedMember) (is_last : bool) : nat * nat :=
  match comma_before m, comma_after m, is_last with
  | Some first, Some last, true => (first, last)
  | Some first, None, _ => (first, value_end m)
  | _, Some last, _ => (key_start m, last)
  | None, None, _ => (key_start m, value_end m)
  end.

(** Without the last entry and the comma after it. *)
Lemma without_final b o es0 e0 e cl g :
  wf (CNode b o ((es0 ++ [e0]) ++ [e]) cl) →
  ∃ n, wf n ∧ segs n = o :: entries_segs es0 ++ e_head e0 ++ segs (e_value e0) ++ set_list_gap g [cl] ∧
    tree_of n = tree_of (CNode b o (es0 ++ [e0]) cl).
Proof.
  intros (Ho & Hcl & Hco & Hes)%wf_node.
  destruct (without_last b o es0 e0 {| e_head := e_head e; e_value := e_value e; e_comma := None |} cl g)
    as (n & Hwn & Hsn & Htn); [|by exists n].
  apply wf_node. split_and!; [done|done| |].
  - apply commas_ok_app in Hco as (Hco & _ & Hall). apply commas_ok_app.
    split_and!; [done| |by intros _; apply Hall]. by split_and!.
  - apply Forall_app in Hes as [Hes [He _]%Forall_cons]. apply Forall_app. split; [done|]. by constructor; [|constructor].
Qed.

Section span.
  Context `{StringJson}.

(** The lexemes up to an entry's comma. *)
Lemma layout_before_comma pre o es0 e0 s :
  Forall seg_ok (pre ++ o :: entries_segs (es0 ++ [e0])) → e_comma e0 = Some s → seg_kind s = Comma →
  Forall seg_ok (o :: entries_segs es0 ++ e_head e0 ++ segs (e_value e0)) ∧ seg_ok s ∧
  layout (pre ++ o :: entries_segs (es0 ++ [e0])) =
    layout (pre ++ o :: entries_segs es0 ++ e_head e0 ++ segs (e_value e0)) ++ seg_gap s ++ [COMMA].
Proof.
  intros Hok Hs Hk. rewrite entries_segs_app, entries_segs_single in *. unfold entry_segs in *. rewrite Hs in *.
  change (option_list (Some s)) with [s] in *.
  assert (pre ++ o :: entries_segs es0 ++ e_head e0 ++ segs (e_value e0) ++ [s] =
    (pre ++ o :: entries_segs es0 ++ e_head e0 ++ segs (e_value e0)) ++ [s]) as Heq
    by (rewrite <-(assoc_L (++)); simpl; by rewrite <-!(assoc_L (++))).
  rewrite Heq in *. apply Forall_app in Hok as [[_ Hok]%Forall_app [Hoks _]%Forall_cons].
  split_and!; [done|done|]. by rewrite layout_app, (layout_comma s Hoks Hk).
Qed.

Section placed.
  Context (c : Cst) (tail : text) (b : Bracket) (o : Seg) (es1 : list (Entry Cst)) (e : Entry Cst).
  Context (es2 : list (Entry Cst)) (cl : Seg) (pre post : list Seg) (up : Tree → Tree).
  Context (c_good : good c tail).
  Context (c_hole : hole c (CNode b o (es1 ++ e :: es2) cl) pre post up).

Let doc := layout (segs c) ++ tail.
Let entry := e_head e ++ segs (e_value e).
Let inner := length (layout pre) + length (seg_text o).
Let m := member_of (place_entry parsed (entries_end inner es1) (comma_before_next inner None es1) e).

Definition cut_to (is_last : bool) : Prop :=
  ∃ doc', replace_range doc (span_of m is_last).1 (span_of m is_last).2 [] = Some doc' ∧
    denotes doc' (up (tree_of (CNode b o (es1 ++ es2) cl))).

Lemma span_context :
  Forall seg_ok (pre ++ o :: entries_segs es1) ∧ Forall seg_ok entry ∧ Forall seg_ok (option_list (e_comma e)) ∧
  Forall seg_ok (entries_segs es2 ++ [cl]).
Proof.
  pose proof (proj1 (proj2 c_good)) as HP. rewrite (entry_context _ _ _ _ _ _ _ _ _ _ c_hole) in HP.
  apply Forall_app in HP as [? [? [? [? _]%Forall_app]%Forall_app]%Forall_app]. done.
Qed.

Lemma span_comma_end : comma_after m = (λ s, entries_end inner es1 + length (layout entry) + length (layout [s])) <$> e_comma e.
Proof.
  unfold m. cbn [comma_after member_of p_comma place_entry]. unfold comma_token. destruct (e_comma e) as [s|]; [|done].
  simpl. f_equal. unfold comma_off, value_off, entry. rewrite length_layout_app, layout_cons, app_nil_r.
  unfold seg_text. lia.
Qed.

Let off := entries_end inner es1.

Lemma span_start : key_start m = off + length (list_gap entry).
Proof. apply (entry_start o es1 e pre). Qed.

Lemma span_stop : value_end m = off + length (layout entry).
Proof. apply (entry_stop o es1 e pre). Qed.

(** From the key on: another member follows, or none is left. *)
Lemma span_of_key is_last :
  (comma_before_next inner None es1 = None ∨ e_comma e ≠ None ∧ is_last = false) →
  span_of m is_last = (off + length (list_gap entry), off + length (layout entry) + length (layout (option_list (e_comma e)))).
Proof.
  intros Hcase. unfold span_of. rewrite span_comma_end, span_start, span_stop. unfold m. cbn [comma_before member_of p_before place_entry].
  fold off. destruct Hcase as [->|[Hc ->]]; destruct (e_comma e) as [s|]; simpl; try done.
  - by rewrite Nat.add_0_r.
  - by destruct (comma_before_next _ _ _).
Qed.

Lemma span_of_comma first :
  comma_before_next inner None es1 = Some first →
  span_of m true = (first, off + length (layout entry) + length (layout (option_list (e_comma e)))).
Proof.
  intros Hb. unfold span_of. rewrite span_comma_end, span_stop. unfold m. cbn [comma_before member_of p_before place_entry].
  rewrite Hb. fold off. destruct (e_comma e); simpl; [done|]. by rewrite Nat.add_0_r.
Qed.

Lemma span_followed is_last :
  (es2 = [] → es1 = []) → (comma_before_next inner None es1 = None ∨ e_comma e ≠ None ∧ is_last = false) → cut_to is_last.
Proof.
  intros Hlast Hcase. destruct span_context as (Hok1 & Hoke & _ & Hok2). pose proof (hole_wf _ _ _ _ _ c_hole) as Hn.
  set (g := list_gap entry ++ list_gap (entries_segs es2 ++ [cl])).
  destruct (without_entry b o es1 e es2 cl g Hn Hlast) as (n & Hwn & Hsn & Htn).
  exists (layout (pre ++ o :: entries_segs es1) ++ g ++ list_body ((entries_segs es2 ++ [cl]) ++ post) ++ tail). split.
  - rewrite span_of_key by done. cbn [fst snd]. unfold doc. rewrite (entry_text c tail _ _ _ _ _ _ _ _ _ c_hole).
    fold entry. unfold off, inner. rewrite entry_off. unfold g.
    rewrite (assoc_L (++) (layout (pre ++ _)) (list_gap entry)), (assoc_L (++) (list_body entry)).
    rewrite replace_range_at; [by rewrite <-!(assoc_L (++))|by rewrite length_app|].
    rewrite (layout_list entry), !length_app. lia.
  - rewrite <-Htn. eapply fill_gap; [done|done| |by destruct (entries_segs es2)| |done|done|by rewrite Hsn].
    + by apply gap_app; apply list_gap_ok.
    + by apply Forall_app in Hok1 as [_ ?].
Qed.

(** From the comma before it on: the last of several. *)
Lemma span_final es0 e0 s :
  es2 = [] → es1 = es0 ++ [e0] → e_comma e0 = Some s → seg_kind s = Comma →
  comma_before_next inner None es1 =
    Some (length (layout (pre ++ o :: entries_segs es0 ++ e_head e0 ++ segs (e_value e0))) + length (seg_gap s)) →
  cut_to true.
Proof.
  intros Hes2 Hes1 Hs Hk Hbefore. destruct span_context as (Hok1 & _ & _ & Hok2).
  pose proof (hole_wf _ _ _ _ _ c_hole) as Hn. rewrite Hes2, Hes1 in Hn. rewrite Hes1 in Hok1.
  destruct (without_final b o es0 e0 e cl (seg_gap s ++ seg_gap cl) Hn) as (n & Hwn & Hsn & Htn).
  destruct (layout_before_comma _ _ _ _ _ Hok1 Hs Hk) as (Hok0 & Hoks & HA). rewrite <-Hes1 in HA.
  set (A := layout (pre ++ o :: entries_segs es0 ++ e_head e0 ++ segs (e_value e0))) in *.
  rewrite Hes2 in Hok2. change (entries_segs [] ++ [cl]) with [cl] in Hok2.
  exists (A ++ (seg_gap s ++ seg_gap cl) ++ list_body ([cl] ++ post) ++ tail). split.
  - rewrite (span_of_comma _ Hbefore).
    cbn [fst snd]. unfold doc. rewrite (entry_text c tail _ _ _ _ _ _ _ _ _ c_hole).
    fold entry. unfold off, inner. rewrite entry_off, HA, Hes2. change (entries_segs [] ++ [cl]) with [cl]. cbn [list_gap].
    rewrite <-(assoc_L (++) A), <-(assoc_L (++) (seg_gap s)), (assoc_L (++) A (seg_gap s)).
    rewrite (assoc_L (++) (list_gap entry)), <-layout_list.
    replace ([COMMA] ++ layout entry ++ layout (option_list (e_comma e)) ++ seg_gap cl ++ list_body ([cl] ++ post) ++ tail)
      with (([COMMA] ++ layout entry ++ layout (option_list (e_comma e))) ++ seg_gap cl ++ list_body ([cl] ++ post) ++ tail)
      by by rewrite <-!(assoc_L (++)).
    rewrite replace_range_at; [by rewrite <-!(assoc_L (++))|by rewrite length_app|]. rewrite !length_app. lia.
  - rewrite Hes2, app_nil_r, Hes1, <-Htn. eapply fill_gap; [done|done| |done|done|done|done|].
    + apply gap_app; [apply Hoks|]. apply Forall_cons in Hok2 as [Hok2 _]. apply Hok2.
    + rewrite Hsn. cbn [app]. by rewrite <-!(assoc_L (++)).
Qed.

(** Whatever the member's place, the cut leaves the tree without it. *)
Lemma span_removes : cut_to (bool_decide (es2 = [])).
Proof.
  destruct (entry_before c b o es1 e es2 cl pre post up c_hole) as [[Hb Hes1]|(es0 & e0 & s & Hes1 & Hs & Hk & Hb)].
  - apply span_followed; [done|by left].
  - destruct (decide (es2 = [])) as [Hes2|Hes2].
    + rewrite bool_decide_eq_true_2 by done. by eapply span_final.
    + rewrite bool_decide_eq_false_2 by done. apply span_followed; [done|]. right. split; [|done].
      pose proof (hole_wf _ _ _ _ _ c_hole) as (_ & _ & (_ & (_ & Hc & _) & _)%commas_ok_app & _)%wf_node. by apply Hc.
Qed.

End placed.

Lemma position_first k off before es1 e es2 :
  first_key k es1 e →
  position (λ m, bool_decide (key m = k)) (member_of <$> place_entries parsed off before (es1 ++ e :: es2)) = Some (length es1).
Proof.
  intros [Hes Hk]. revert off before. induction Hes as [|e' es He _ IH]; intros off before; cbn [app place_entries fmap list_fmap position].
  - by rewrite bool_decide_eq_true_2.
  - rewrite bool_decide_eq_false_2 by done. by rewrite IH.
Qed.

Lemma position_absent k off before es :
  Forall (λ e, entry_key e ≠ k) es →
  position (λ m, bool_decide (key m = k)) (member_of <$> place_entries parsed off before es) = None.
Proof.
  intros Hes. revert off before. induction Hes as [|e es He _ IH]; intros off before; cbn [place_entries fmap list_fmap position]; [done|].
  rewrite bool_decide_eq_false_2 by done. by rewrite IH.
Qed.

(** The range among an object's members. *)
Definition member_range (o : ParsedObject) (k : text) : option (nat * nat) :=
  index ← position (λ m, bool_decide (key m = k)) (members o);
  m ← members o !! index;
  Some (span_of m (index + 1 =? length (members o))).

Lemma jsonc_member_span_eq c tail parents k :
  good c tail →
  jsonc_member_span (layout (segs c) ++ tail) (parents ++ [k]) =
  Ok (o ← object (parsed 0 c); o ← descend o parents; member_range o k).
Proof.
  intros [Ht Hw]%good_parsed. unfold jsonc_member_span. rewrite reverse_app. change (reverse [k]) with [k]. cbn [app].
  rewrite Ht. cbn [result_bind]. rewrite Hw. cbn [result_bind]. rewrite reverse_involutive. done.
Qed.

Lemma member_range_first off o es1 e es2 cl k :
  first_key k es1 e →
  let inner := off + length (seg_text o) in
  member_range (parsed_object off o (es1 ++ e :: es2) cl) k =
  Some (span_of (member_of (place_entry parsed (entries_end inner es1) (comma_before_next inner None es1) e)) (bool_decide (es2 = []))).
Proof.
  intros Hk inner.
  assert ((length es1 + 1 =? length (members (parsed_object off o (es1 ++ e :: es2) cl))) = bool_decide (es2 = [])) as Hlast.
  { cbn [members parsed_object]. rewrite length_fmap, length_place_entries, length_app. destruct es2; simpl.
    - apply Nat.eqb_eq. lia.
    - apply Nat.eqb_neq. lia. }
  assert (members (parsed_object off o (es1 ++ e :: es2) cl) !! length es1 =
    Some (member_of (place_entry parsed (entries_end inner es1) (comma_before_next inner None es1) e))) as Hm.
  { cbn [members parsed_object]. rewrite list_lookup_fmap, place_entries_app, lookup_app_r by (rewrite length_place_entries; lia).
    by rewrite length_place_entries, Nat.sub_diag. }
  unfold member_range. cbn [members parsed_object] in Hm, Hlast |- *. rewrite position_first by done.
  cbn [mbind option_bind]. by rewrite Hm, Hlast.
Qed.

(** The range of a member that is there: without it, the tree has lost the member. *)
Lemma member_span_removes doc t parents k x :
  denotes doc t → tree_lookup 0 (parents ++ [k]) t = TFound x →
  ∃ range doc', jsonc_member_span doc (parents ++ [k]) = Ok (Some range) ∧
    replace_range doc range.1 range.2 [] = Some doc' ∧
    denotes doc' (tree_update parents (λ t, match t with TObject ms => TObject (remove_key k ms) | t => t end) t).
Proof.
  intros (c & tail & -> & Hg & ->) Hx. rewrite (jsonc_member_span_eq _ _ _ _ Hg).
  destruct (root_object c (parents ++ [k])) as [p Hp]; [by destruct parents|by rewrite Hx|].
  destruct (found_member c p (parents ++ [k]) x (proj1 Hg) Hp ltac:(by destruct parents) Hx) as (parents' & k' & m & parent & Heq & Hm & _).
  apply app_inj_tail in Heq as [<- <-]. destruct (member_entry _ _ _ _ _ _ Hm) as (o & es1 & e & es2 & cl & pre & post & Hat & Hk & -> & ->).
  simpl in Hat. pose proof (at_path_hole _ _ _ _ _ Hat (proj1 Hg)) as Hh.
  destruct (at_path_descend _ _ _ _ _ 0 _ Hat (parsed_object_Some _ o _ cl)) as (root & Hr & Hd). rewrite Hr. cbn [mbind option_bind].
  rewrite Hd. cbn [mbind option_bind Nat.add]. rewrite (member_range_first _ _ _ _ _ _ _ Hk). cbn zeta.
  destruct (span_removes c tail Braces o es1 e es2 cl pre post _ Hg Hh) as (doc' & Hr' & Hd').
  eexists _, doc'. split_and!; [done|done|].
  rewrite (at_path_update _ _ _ _ _ _ Hat), tree_of_object, remove_key_first by done. by rewrite tree_of_object in Hd'.
Qed.

Lemma member_span_absent doc t path :
  denotes doc t → (path ≠ [] → ∀ x, tree_lookup 0 path t ≠ TFound x) → jsonc_member_span doc path = Ok None.
Proof.
  intros (c & tail & -> & Hg & ->) Hx.
  destruct (last path) as [k|] eqn:Hl; [|by apply last_None in Hl as ->]. apply last_Some in Hl as [parents ->].
  specialize (Hx ltac:(by destruct parents)). rewrite (jsonc_member_span_eq _ _ _ _ Hg).
  destruct (object (parsed 0 c)) as [p|] eqn:Hp; [|done]. cbn [mbind option_bind].
  pose proof (descend_object parents 0 c p (proj1 Hg) Hp) as Hd. destruct (descend p parents) as [p'|]; [|done]. cbn [mbind option_bind].
  destruct Hd as [(n & pre & post & Hat & Ho) _]. apply object_parsed in Ho as (o & es & cl & -> & ->). simpl.
  pose proof (find_member_object k (length (layout pre)) o es cl) as Hf. destruct (find_member _ _) as [m|].
  - destruct Hf as (es1 & e & es2 & -> & Hk & _). exfalso.
    eapply (Hx (tree_of (e_value e))).
    rewrite (tree_lookup_app _ _ _ _ _ (at_path_lookup _ _ _ _ _ Hat)), tree_of_object. cbn [tree_lookup]. by rewrite find_key_first.
  - unfold member_range. cbn [members parsed_object]. by rewrite position_absent.
Qed.

End span.
