(* ===== verification/JsoncStrict.v ===== *)
(** * Normalising a document

    [jsonc_to_json] turns a document into strict JSON that says the same: its
    comments become whitespace, its trailing commas go, and everything else stays
    ([jsonc_to_json_strict]). *)

From S2P Require Import Prelude.
From S2P Require Import Jsonc.
From S2P Require Import JsoncEdit.
From S2P Require Import JsoncLayout.
From S2P Require Import JsoncGrammar.
From S2P Require Import JsoncTree.
From S2P Require Import JsoncPath.
From S2P Require Import JsoncRender.
From S2P Require Import JsoncSet.
From S2P Require Import JsoncInsert.
From S2P Require Import JsoncCut.
From S2P Require Import JsoncRemove.

#[local] Open Scope nat_scope.

(** ** Comments *)

Definition pushes (t : text) (r : Result text JsoncError) : Result text JsoncError :=
  let! out := r in Ok (t ++ out).

Lemma push_pushes b r : push b r = pushes [b] r.
Proof. done. Qed.

Lemma pushes_pushes t t' r : pushes t (pushes t' r) = pushes (t ++ t') r.
Proof. destruct r; simpl; [|done]. by rewrite (assoc_L (++)). Qed.

Lemma pushes_nil r : pushes [] r = r.
Proof. by destruct r. Qed.

(** What replaces a gap: its whitespace, a space for each comment and the line
    breaks of the comments. *)
Inductive stripped (open : bool) : text → text → Prop :=
  | stripped_nil : stripped open [] []
  | stripped_space b g g' : is_ascii_whitespace b = true → stripped open g g' → stripped open (b :: g) (b :: g')
  | stripped_line body g g' :
      NEWLINE ∉ body → stripped open g g' → stripped open (SLASH :: SLASH :: body ++ NEWLINE :: g) (SPACE :: NEWLINE :: g')
  | stripped_block body g g' :
      scan_block (body ++ [STAR; SLASH]) = Some (length body) → stripped open g g' →
      stripped open (SLASH :: STAR :: body ++ STAR :: SLASH :: g) (SPACE :: filter (λ b, b = NEWLINE) body ++ g')
  | stripped_last body : open = true → NEWLINE ∉ body → stripped open (SLASH :: SLASH :: body) [SPACE].

Lemma gap_stripped o g : gap o g → ∃ g', stripped o g g'.
Proof.
  induction 1 as [|b g Hb _ [g' Hg]|body g Hb _ [g' Hg]|body g Hb _ [g' Hg]|body Ho Hb].
  - by eexists; apply stripped_nil.
  - by eexists; apply stripped_space.
  - by eexists; apply stripped_line.
  - by eexists; apply stripped_block.
  - by eexists; apply stripped_last.
Qed.

Lemma stripped_spaces o g g' : stripped o g g' → spaces g'.
Proof.
  induction 1 as [|b g g' Hb _ IH|body g g' Hb _ IH|body g g' Hb _ IH|]; [by constructor|by constructor|..].
  - by do 2 (constructor; [done|]).
  - constructor; [done|]. apply spaces_app. split; [|done]. apply Forall_forall.
    intros b [-> _]%list_elem_of_filter. done.
  - by repeat constructor.
Qed.

Lemma strip_line body rest :
  NEWLINE ∉ body → strip_comments LineComment (body ++ NEWLINE :: rest) = pushes [NEWLINE] (strip_comments Plain rest).
Proof.
  induction body as [|b body IH]; intros Hn; [done|]. apply not_elem_of_cons in Hn as [Hb Hn].
  simpl. rewrite bool_decide_eq_false_2 by done. by apply IH.
Qed.

Lemma strip_line_end body : NEWLINE ∉ body → strip_comments LineComment body = Ok [].
Proof.
  induction body as [|b body IH]; intros Hn; [done|]. apply not_elem_of_cons in Hn as [Hb Hn].
  simpl. rewrite bool_decide_eq_false_2 by done. by apply IH.
Qed.

Lemma strip_block prev body rest :
  scan_block (body ++ [STAR; SLASH]) = Some (length body) → (prev = STAR → head body ≠ Some SLASH) →
  strip_comments (BlockComment prev) (body ++ STAR :: SLASH :: rest) =
  pushes (filter (λ b, b = NEWLINE) body) (strip_comments Plain rest).
Proof.
  revert prev. induction body as [|b body IH]; intros prev Hs Hp.
  { rewrite pushes_nil. cbn. by destruct (bool_decide (prev = STAR)). }
  assert (bool_decide (prev = STAR) && bool_decide (b = SLASH) = false) as Hc.
  { apply andb_false_iff. rewrite !bool_decide_eq_false. destruct (decide (prev = STAR)) as [Hpr|]; [right|by left].
    intros ->. by apply Hp. }
  assert (scan_block (body ++ [STAR; SLASH]) = Some (length body) ∧ (b = STAR → head body ≠ Some SLASH)) as [Hs' Hp'].
  { simpl in Hs. destruct (body ++ [STAR; SLASH]) as [|b' l] eqn:Hl; [by destruct body|].
    destruct (_ && _) eqn:E; [by destruct body|]. apply fmap_Some in Hs as (n & Hn & [= ->]). split; [done|].
    intros ->. destruct body as [|b'' body]; [done|]. simpl in Hl |- *. injection Hl as -> _. intros [= ->]. done. }
  cbn [app strip_comments]. rewrite Hc, IH by done. rewrite filter_cons. destruct (decide (b = NEWLINE)) as [->|Hb].
  - by rewrite bool_decide_eq_true_2, push_pushes, pushes_pushes.
  - by rewrite bool_decide_eq_false_2.
Qed.

Lemma strip_gap g g' rest :
  stripped false g g' → strip_comments Plain (g ++ rest) = pushes g' (strip_comments Plain rest).
Proof.
  induction 1 as [|b g g' Hb _ IH|body g g' Hb _ IH|body g g' Hb _ IH|].
  - by rewrite pushes_nil.
  - simpl. assert (b ≠ QUOTE ∧ b ≠ SLASH) as [Hq Hs] by (revert Hb; by destruct b; vm_compute).
    rewrite !bool_decide_eq_false_2 by done. by rewrite IH, push_pushes, pushes_pushes.
  - simpl. rewrite <-(assoc_L (++)). simpl. rewrite strip_line, IH by done. by rewrite push_pushes, !pushes_pushes.
  - simpl. rewrite <-(assoc_L (++)). simpl. rewrite strip_block, IH by done. by rewrite push_pushes, !pushes_pushes.
  - done.
Qed.

Lemma strip_tail g g' : stripped true g g' → strip_comments Plain g = Ok g'.
Proof.
  induction 1 as [|b g g' Hb _ IH|body g g' Hb _ IH|body g g' Hb _ IH|body _ Hb].
  - done.
  - simpl. assert (b ≠ QUOTE ∧ b ≠ SLASH) as [Hq Hs] by (revert Hb; by destruct b; vm_compute).
    rewrite !bool_decide_eq_false_2 by done. by rewrite IH.
  - simpl. rewrite strip_line, IH by done. done.
  - simpl. rewrite strip_block, IH by done. done.
  - simpl. by rewrite strip_line_end.
Qed.

(** Strings and atoms stay. *)
Lemma strip_string e body rest :
  scan_string e body = Some (length body) →
  strip_comments (InString e) (body ++ rest) = pushes body (strip_comments Plain rest).
Proof.
  revert e. induction body as [|b body IH]; intros e; [done|]. simpl. unfold after_string_byte.
  destruct e; [|destruct (bool_decide (b = BACKSLASH)); [|destruct (bool_decide (b = QUOTE))]].
  3: { intros [= Hl]. destruct body; [|done]. simpl. done. }
  all: intros (n & Hn & [= <-])%fmap_Some; by rewrite IH, push_pushes, pushes_pushes.
Qed.

Lemma strip_other t rest :
  Forall (λ b, b ≠ QUOTE ∧ b ≠ SLASH) t → strip_comments Plain (t ++ rest) = pushes t (strip_comments Plain rest).
Proof.
  induction 1 as [|b t [Hq Hs] _ IH]; [by rewrite pushes_nil|].
  simpl. rewrite !bool_decide_eq_false_2 by done. by rewrite IH, push_pushes, pushes_pushes.
Qed.

Section strict.
  Context `{StringJson}.

Lemma strip_lexeme t k rest : lexeme t k → strip_comments Plain (t ++ rest) = pushes t (strip_comments Plain rest).
Proof.
  intros [b k' Hk|body v Hs _|t' _ Hall].
  - apply strip_other. constructor; [|constructor]. by apply punctuation_facts in Hk as (_ & ? & ? & _).
  - simpl. rewrite strip_string by done. by rewrite push_pushes, pushes_pushes.
  - apply strip_other. eapply Forall_impl; [done|]. intros b Hb. by apply atom_facts in Hb as (_ & ? & ? & _).
Qed.

(** The whole document: its lexemes between whitespace. *)
Definition blank_gap_of (g : text) : text := match strip_comments Plain g with Ok t => t | Err _ => [] end.

Definition blank_seg (s : Seg) : Seg := set_gap (blank_gap_of (seg_gap s)) s.

Lemma blank_gap_stripped g g' : stripped false g g' → blank_gap_of g = g'.
Proof.
  intros Hg. unfold blank_gap_of. rewrite <-(app_nil_r g), (strip_gap _ _ _ Hg). simpl. by rewrite app_nil_r.
Qed.

Lemma spaces_blank_gap g : gap false g → spaces (blank_gap_of g).
Proof. intros [g' Hg]%gap_stripped. rewrite (blank_gap_stripped _ _ Hg). by eapply stripped_spaces. Qed.

Lemma strip_layout ss tail :
  Forall seg_ok ss → gap true tail →
  ∃ tail', spaces tail' ∧ strip_comments Plain (layout ss ++ tail) = Ok (layout (blank_seg <$> ss) ++ tail').
Proof.
  intros Hok Ht. induction Hok as [|s ss [Hg Hl] _ (tail' & Hs & IH)].
  - apply gap_stripped in Ht as [g' Hg]. exists g'. split; [by eapply stripped_spaces|]. by apply strip_tail.
  - exists tail'. split; [done|]. cbn [fmap list_fmap]. rewrite !layout_cons, <-!(assoc_L (++)).
    apply gap_stripped in Hg as [g' Hg].
    rewrite (strip_gap _ _ _ Hg), (strip_lexeme _ _ _ Hl), IH, pushes_pushes. cbn [seg_gap raw blank_seg set_gap pushes result_bind].
    rewrite (blank_gap_stripped _ _ Hg). by rewrite <-!(assoc_L (++)).
Qed.

(** ** Trailing commas *)

Definition strict_comma (e : Entry Cst) : text := match e_comma e with Some s => seg_gap s | None => [] end.

(** The entries without the comma of the last, and the gap before it. *)
Fixpoint strict_entries (es : list (Entry Cst)) : list (Entry Cst) * text :=
  match es with
  | [] => ([], [])
  | e :: es =>
      match es with
      | [] => ([{| e_head := e_head e; e_value := e_value e; e_comma := None |}], strict_comma e)
      | _ => let r := strict_entries es in (e :: r.1, r.2)
      end
  end.

Fixpoint strict (c : Cst) : Cst :=
  match c with
  | CLeaf s => CLeaf s
  | CNode b o es cl =>
      let r := strict_entries (map (λ e, {| e_head := e_head e; e_value := strict (e_value e); e_comma := e_comma e |}) es) in
      CNode b o r.1 (set_gap (r.2 ++ seg_gap cl) cl)
  end.

(** A tree without trailing commas. *)
Fixpoint no_trailing (c : Cst) : Prop :=
  match c with
  | CLeaf _ => True
  | CNode _ _ es _ => has_trailing es = false ∧ foldr and True (map (λ e, no_trailing (e_value e)) es)
  end.

Definition strict_entry (e : Entry Cst) : Entry Cst :=
  {| e_head := e_head e; e_value := strict (e_value e); e_comma := e_comma e |}.

Lemma strict_entries_cons e es :
  es ≠ [] → strict_entries (e :: es) = (e :: (strict_entries es).1, (strict_entries es).2).
Proof. by destruct es. Qed.

Lemma strict_entries_nil es : (strict_entries es).1 = [] → es = [].
Proof. destruct es as [|e [|e' es]]; done. Qed.

(** What a container holds, without its layout. *)
Definition contents (es : list (Entry Cst)) : list (text * Cst) := (λ e, (entry_key e, e_value e)) <$> es.

Lemma tree_of_contents b o es cl :
  tree_of (CNode b o es cl) =
  match b with
  | Braces => TObject ((λ kv, (kv.1, tree_of kv.2)) <$> contents es)
  | Brackets => TArray ((λ kv, tree_of kv.2) <$> contents es)
  end.
Proof. unfold contents. destruct b; by rewrite <-list_fmap_compose. Qed.

Lemma strict_entries_wf b es :
  commas_ok es → Forall (entry_wf b) es →
  commas_ok (strict_entries es).1 ∧ Forall (entry_wf b) (strict_entries es).1 ∧ has_trailing (strict_entries es).1 = false ∧
  contents (strict_entries es).1 = contents es.
Proof.
  induction es as [|e es IH]; intros Hco Hes; [done|]. destruct Hco as (Hc & Hl & Hco). apply Forall_cons in Hes as [He Hes].
  destruct es as [|e' es]; [split_and!; try done; by constructor; [|constructor]|].
  rewrite strict_entries_cons by done. cbn [fst snd]. destruct (IH Hco Hes) as (Hco' & Hes' & Ht & Hv).
  split_and!; [|by constructor| |by unfold contents in *; cbn [fmap list_fmap]; f_equal].
  - split_and!; [done| |done]. intros _. by apply Hl.
  - unfold has_trailing in *. destruct (strict_entries (e' :: es)).1 eqn:E; [by apply strict_entries_nil in E|done].
Qed.

Lemma no_trailing_node b o es cl :
  no_trailing (CNode b o es cl) ↔ has_trailing es = false ∧ Forall (λ kv, no_trailing kv.2) (contents es).
Proof.
  cbn [no_trailing]. apply and_iff_compat_l. induction es as [|e es IH]; cbn [map foldr]; [split; [constructor|done]|].
  unfold contents in *. cbn [fmap list_fmap]. by rewrite IH, Forall_cons.
Qed.

Lemma commas_ok_strict_entry es : commas_ok es → commas_ok (strict_entry <$> es).
Proof.
  induction es as [|e es IH]; [done|]. intros (Hc & Hl & Hco). split_and!; [done| |by apply IH].
  destruct es; [done|]. intros _. by apply Hl.
Qed.

Lemma strict_facts c : wf c → wf (strict c) ∧ tree_of (strict c) = tree_of c ∧ no_trailing (strict c).
Proof.
  induction c as [s|b o es cl IH] using cst_ind; [done|]. intros (Ho & Hcl & Hco & Hes)%wf_node.
  assert (Forall (λ e, wf (strict (e_value e)) ∧ tree_of (strict (e_value e)) = tree_of (e_value e) ∧
    no_trailing (strict (e_value e))) es) as Hall.
  { rewrite Forall_forall in IH, Hes |- *. intros e He. apply IH; [done|]. by apply Hes. }
  destruct (strict_entries_wf b (strict_entry <$> es)) as (Hco' & Hes' & Ht & Hv).
  { by apply commas_ok_strict_entry. }
  { rewrite Forall_fmap. rewrite Forall_forall in Hall, Hes |- *. intros e He. split; [apply (Hes e He)|apply (Hall e He)]. }
  cbn [strict]. change (map _ es) with (strict_entry <$> es). split_and!.
  - by apply wf_node.
  - rewrite !tree_of_contents, Hv. unfold contents. rewrite <-!list_fmap_compose.
    destruct b; f_equal; apply list_fmap_ext; intros i e He; apply list_elem_of_lookup_2 in He;
      rewrite Forall_forall in Hall; destruct (Hall e He) as (_ & Htree & _); simpl; by rewrite Htree.
  - apply no_trailing_node. split; [done|]. rewrite Hv. unfold contents. rewrite !Forall_fmap.
    eapply Forall_impl; [exact Hall|]. intros e (_ & _ & ?). done.
Qed.

(** ** The comma pass *)

Fixpoint space_alone (b : byte) (chars : list text) : bool :=
  match chars with
  | (a :: w) :: chars => if bool_decide (a = b) then bool_decide (w = []) else space_alone b chars
  | _ => false
  end.

Lemma strip_space_alone chars b t : space_alone b chars = true → strip_space chars (b :: t) = Some t.
Proof.
  unfold strip_space. induction chars as [|[|a w] chars IH]; [done|done|]. cbn [space_alone List.find].
  destruct (bool_decide (a = b)) eqn:Ha.
  - apply bool_decide_eq_true in Ha as ->. intros ->%bool_decide_eq_true. rewrite bool_decide_eq_true_2 by by exists t. done.
  - apply bool_decide_eq_false in Ha. intros Hs. rewrite bool_decide_eq_false_2 by (intros [k Hk]; simplify_eq/=).
    by apply IH.
Qed.

Lemma space_alone_start b : is_ascii_whitespace b = true → space_alone b whitespace_chars = true.
Proof. by destruct b; vm_compute. Qed.

Lemma space_alone_end b : is_ascii_whitespace b = true → space_alone b (reverse <$> whitespace_chars) = true.
Proof. by destruct b; vm_compute. Qed.

Lemma skip_spaces_to chars sp y r fuel :
  Forall (λ b, space_alone b chars = true) sp → forallb (no_space_starts y) chars = true → length sp ≤ fuel →
  skip_spaces fuel chars (sp ++ y :: r) = y :: r.
Proof.
  intros Hsp Hy. revert fuel. induction Hsp as [|b sp Hb _ IH]; intros fuel Hf; [by apply skip_spaces_visible|].
  simpl in Hf. destruct fuel as [|fuel]; [lia|]. cbn [skip_spaces app]. rewrite (strip_space_alone _ _ _ Hb). apply IH. lia.
Qed.

Definition closes_byte (y : byte) : bool := bool_decide (y ∈ [RIGHT_BRACE; RIGHT_BRACKET]).
Definition opens_byte (z : byte) : bool := bool_decide (z ∈ [LEFT_BRACKET; LEFT_BRACE; COLON; COMMA]).

Lemma is_trailing_comma_spec sp z out sp' y r :
  spaces sp → spaces sp' → visible z = true → visible y = true →
  is_trailing_comma (reverse sp ++ z :: out) (sp' ++ y :: r) = closes_byte y && negb (opens_byte z).
Proof.
  intros Hsp Hsp' Hz Hy. unfold is_trailing_comma, trim_start.
  rewrite (skip_spaces_to whitespace_chars sp' y r).
  2: { eapply Forall_impl; [exact Hsp'|]. apply space_alone_start. }
  2: { by apply visible_starts. }
  2: { rewrite length_app. lia. }
  rewrite (skip_spaces_to (reverse <$> whitespace_chars) (reverse sp) z out); [done|..].
  - apply Forall_reverse. eapply Forall_impl; [exact Hsp|]. apply space_alone_end.
  - by apply visible_ends.
  - rewrite length_app. lia.
Qed.

Abbreviation rc := (remove_commas false false) (only parsing).

Lemma rc_other t out rest :
  Forall (λ b, b ≠ QUOTE ∧ b ≠ COMMA) t → rc out (t ++ rest) = rc (reverse t ++ out) rest.
Proof.
  intros Ht. revert out. induction Ht as [|b t [Hq Hc] _ IH]; intros out; [done|]. simpl.
  rewrite !bool_decide_eq_false_2 by done. simpl. by rewrite IH, reverse_cons, <-(assoc_L (++)).
Qed.

Lemma rc_string_body e body out rest :
  scan_string e body = Some (length body) → remove_commas true e out (body ++ rest) = rc (reverse body ++ out) rest.
Proof.
  revert e out. induction body as [|b body IH]; intros e out; [done|]. simpl.
  destruct e; [|destruct (bool_decide (b = BACKSLASH)) eqn:E1; [|destruct (bool_decide (b = QUOTE)) eqn:E2]].
  3: { intros [= Hl]. by destruct body. }
  all: intros (n & Hn & [= <-])%fmap_Some; by rewrite IH, reverse_cons, <-(assoc_L (++)).
Qed.

Lemma rc_lexeme t k out rest : lexeme t k → k ≠ Comma → rc out (t ++ rest) = rc (reverse t ++ out) rest.
Proof.
  intros [b k' Hk|body v Hs _|t' _ Hall] Hne.
  - apply rc_other. constructor; [|constructor]. split; [by apply punctuation_facts in Hk as (_ & _ & ? & _)|].
    intros ->. apply Hne. by injection Hk.
  - cbn [app remove_commas]. rewrite bool_decide_eq_true_2 by done. rewrite (rc_string_body false) by done.
    by rewrite reverse_cons, <-(assoc_L (++)).
  - apply rc_other. eapply Forall_impl; [done|]. intros b Hb. split; [by apply atom_facts in Hb as (_ & _ & ? & _)|].
    by intros ->.
Qed.

Lemma spaces_plain t : spaces t → Forall (λ b, b ≠ QUOTE ∧ b ≠ COMMA) t.
Proof. intros Ht. eapply Forall_impl; [exact Ht|]. intros b. by destruct b; vm_compute. Qed.

(** A document after the first pass. *)
Definition blank_ok (s : Seg) : Prop := spaces (seg_gap s) ∧ lexeme (raw s) (seg_kind s) ∧ plain_seg s.

Lemma blank_ok_seg s : blank_ok s → seg_ok s.
Proof. intros (Hg & Hl & _). split; [by apply gap_spaces|done]. Qed.

Lemma rc_seg s out rest :
  blank_ok s → seg_kind s ≠ Comma → rc out (seg_text s ++ rest) = rc (reverse (seg_text s) ++ out) rest.
Proof.
  intros (Hg & Hl & _) Hk. unfold seg_text. rewrite <-(assoc_L (++)), rc_other by by apply spaces_plain.
  rewrite (rc_lexeme _ _ _ _ Hl Hk). by rewrite reverse_app, <-(assoc_L (++)).
Qed.

Lemma rc_segs ss out rest :
  Forall blank_ok ss → Forall (λ s, seg_kind s ≠ Comma) ss → rc out (layout ss ++ rest) = rc (reverse (layout ss) ++ out) rest.
Proof.
  intros Hss. revert out. induction Hss as [|s ss Hs _ IH]; intros out Hk; [done|]. apply Forall_cons in Hk as [Hk Hks].
  change (layout (s :: ss)) with (seg_text s ++ layout ss). rewrite <-(assoc_L (++)), rc_seg, IH by done.
  by rewrite reverse_app, <-(assoc_L (++)).
Qed.

Definition opens_kind (k : TokenKind) : bool := match k with LeftBrace | LeftBracket | Colon | Comma => true | _ => false end.
Definition closes_kind (k : TokenKind) : bool := match k with RightBrace | RightBracket => true | _ => false end.

Lemma lexeme_opens t k :
  lexeme t k → (k = Atom → forallb visible t = true) → closes_kind k = false →
  ∃ a r, t = a :: r ∧ visible a = true ∧ closes_byte a = false.
Proof.
  intros Hl Hv Hk. destruct (lexeme_visible _ _ Hl Hv) as [(a & r & Ht & Ha) _]. exists a, r. split_and!; [done|done|].
  destruct Hl as [b k' Hp|body v _ _|t' _ Hall]; simplify_eq/=.
  - revert Hp Hk. by destruct a; vm_compute; try done; intros [= <-].
  - done.
  - apply Forall_cons in Hall as [Hb _]. revert Hb. by destruct a; vm_compute.
Qed.

Lemma lexeme_closes t k :
  lexeme t k → (k = Atom → forallb visible t = true) → opens_kind k = false →
  ∃ r b, t = r ++ [b] ∧ visible b = true ∧ opens_byte b = false.
Proof.
  intros Hl Hv Hk. destruct (lexeme_visible _ _ Hl Hv) as [_ (r & b & Ht & Hb)]. exists r, b. split_and!; [done|done|].
  destruct Hl as [b' k' Hp|body v Hs _|t' _ Hall].
  - assert (b = b') as -> by (destruct r as [|? [|]]; by simplify_eq/=).
    revert Hp Hk. by destruct b'; vm_compute; try done; intros [= <-].
  - apply scan_string_last in Hs as [r' ->]. change (QUOTE :: r' ++ [QUOTE]) with ((QUOTE :: r') ++ [QUOTE]) in Ht.
    by apply app_inj_tail in Ht as [_ <-].
  - subst. apply Forall_app in Hall as [_ [Hc _]%Forall_cons]. revert Hc. by destruct b; vm_compute.
Qed.

Lemma rc_comma s z out sp y r :
  blank_ok s → seg_kind s = Comma → visible z = true → opens_byte z = false → spaces sp → visible y = true →
  rc (z :: out) (seg_text s ++ sp ++ y :: r) =
  rc ((if closes_byte y then [] else [COMMA]) ++ reverse (seg_gap s) ++ z :: out) (sp ++ y :: r).
Proof.
  intros Hs Hk Hz Ho Hsp Hy. unfold seg_text. rewrite (comma_raw s (blank_ok_seg s Hs) Hk). destruct Hs as (Hg & _).
  rewrite <-(assoc_L (++)), rc_other by by apply spaces_plain. cbn [app remove_commas].
  rewrite bool_decide_eq_false_2, bool_decide_eq_true_2 by done. rewrite (is_trailing_comma_spec _ _ _ _ _ _ Hg Hsp Hz Hy), Ho.
  by destruct (closes_byte y).
Qed.

Lemma layout_cons_text s ss : layout (s :: ss) = seg_text s ++ layout ss.
Proof. done. Qed.

(** The ends of values and the starts of entries. *)
Lemma strict_end c :
  wf c → Forall blank_ok (segs c) → ∃ x z, layout (segs (strict c)) = x ++ [z] ∧ visible z = true ∧ opens_byte z = false.
Proof.
  destruct c as [s|b o es cl].
  - intros Hk [(_ & Hl & Hp) _]%Forall_cons. destruct (lexeme_closes _ _ Hl Hp) as (r & z & Hr & Hz).
    { simpl in Hk. by destruct (seg_kind s). }
    exists (seg_gap s ++ r), z. split; [|done]. cbn [strict]. rewrite segs_leaf, layout_cons, Hr.
    change (layout []) with (@nil byte). by rewrite app_nil_r, (assoc_L (++)).
  - intros (_ & Hk & _)%wf_node Hall. rewrite segs_node, app_comm_cons in Hall.
    apply Forall_app in Hall as [_ [(_ & Hl & Hp) _]%Forall_cons].
    destruct (lexeme_closes _ _ Hl Hp) as (r & z & Hr & Hz); [rewrite Hk; by destruct b|].
    cbn [strict]. rewrite segs_node, app_comm_cons, layout_app, (layout_cons (set_gap _ cl)). cbn [raw set_gap]. rewrite Hr.
    change (layout []) with (@nil byte). rewrite app_nil_r. cbn [seg_gap set_gap].
    match goal with |- context [layout ?l ++ ?g ++ r ++ [z]] => exists (layout l ++ g ++ r), z end.
    split; [|done]. by rewrite <-!(assoc_L (++)).
Qed.

Lemma value_first c : wf c → ∃ s ss, segs c = s :: ss ∧ closes_kind (seg_kind s) = false.
Proof.
  destruct c as [s|b o es cl]; intros Hwf.
  - exists s, []. split; [done|]. simpl in Hwf. by destruct (seg_kind s).
  - apply wf_node in Hwf as (Ho & _). rewrite segs_node. eexists _, _. split; [done|]. rewrite Ho. by destruct b.
Qed.

Lemma entry_starts b e es :
  entry_wf b e → Forall blank_ok (entries_segs (e :: es)) →
  ∃ sp y r, layout (entries_segs (e :: es)) = sp ++ y :: r ∧ spaces sp ∧ visible y = true ∧ closes_byte y = false.
Proof.
  intros [Hh Hv] Hall. rewrite entries_segs_cons in *.
  assert (∃ s ss, entry_segs segs e = s :: ss ∧ closes_kind (seg_kind s) = false) as (s & ss & Hs & Hk).
  { unfold entry_segs. destruct b; simpl in Hh.
    - destruct Hh as (k & colon & v & -> & Hk & _). eexists _, _. split; [done|]. by rewrite Hk.
    - rewrite Hh. destruct (value_first _ Hv) as (s & ss & -> & Hk). by eexists _, _. }
  rewrite Hs in *. cbn [app] in *. apply Forall_cons in Hall as [(Hg & Hl & Hp) _].
  destruct (lexeme_opens _ _ Hl Hp Hk) as (y & r & Hr & Hy & Hcl).
  rewrite layout_cons, Hr. by eexists _, y, _.
Qed.

Lemma head_no_comma b h : head_ok b h → Forall (λ s, seg_kind s ≠ Comma) h.
Proof.
  destruct b; simpl; [|by intros ->]. intros (k & colon & v & -> & Hk & Hc).
  constructor; [by rewrite Hk|]. constructor; [by rewrite Hc|constructor].
Qed.

(** The pass over a value leaves the value without its trailing commas. *)
Definition passes (c : Cst) : Prop :=
  ∀ out rest, rc out (layout (segs c) ++ rest) = rc (reverse (layout (segs (strict c))) ++ out) rest.

Definition strict_entry_text (e : Entry Cst) : text := layout (e_head e) ++ layout (segs (strict (e_value e))).

Lemma rc_entry_value b e out rest :
  entry_wf b e → Forall blank_ok (e_head e) → passes (e_value e) →
  rc out (layout (e_head e ++ segs (e_value e)) ++ rest) = rc (reverse (strict_entry_text e) ++ out) rest.
Proof.
  intros [Hh _] Hok Hp. rewrite layout_app, <-(assoc_L (++)), rc_segs by (done || by eapply head_no_comma).
  rewrite Hp. unfold strict_entry_text. by rewrite reverse_app, <-(assoc_L (++)).
Qed.

Definition strict_text (es : list (Entry Cst)) : text :=
  layout (entries_segs (strict_entries (strict_entry <$> es)).1) ++ (strict_entries (strict_entry <$> es)).2.

Lemma strict_text_single e : strict_text [e] = strict_entry_text e ++ strict_comma e.
Proof.
  unfold strict_text. simpl. rewrite entries_segs_single. unfold entry_segs, strict_entry_text, strict_comma. simpl.
  by rewrite app_nil_r, layout_app.
Qed.

Lemma strict_text_cons e es s :
  es ≠ [] → e_comma e = Some s → strict_text (e :: es) = strict_entry_text e ++ seg_text s ++ strict_text es.
Proof.
  intros Hne Hc. unfold strict_text. cbn [fmap list_fmap]. rewrite strict_entries_cons by by destruct es.
  cbn [fst snd]. rewrite entries_segs_cons. unfold entry_segs at 1, strict_entry_text. cbn [strict_entry e_head e_value e_comma].
  rewrite Hc, !layout_app. change (option_list (Some s)) with [s]. rewrite layout_cons.
  change (layout []) with (@nil byte). unfold seg_text. by rewrite app_nil_r, <-!(assoc_L (++)).
Qed.

Lemma strict_entry_end b e :
  entry_wf b e → Forall blank_ok (segs (e_value e)) →
  ∃ x z, strict_entry_text e = x ++ [z] ∧ visible z = true ∧ opens_byte z = false.
Proof.
  intros [_ Hv] Hok. destruct (strict_end _ Hv Hok) as (x & z & Hx & Hz). unfold strict_entry_text. rewrite Hx.
  exists (layout (e_head e) ++ x), z. by rewrite (assoc_L (++)).
Qed.

(** The comma after an entry is dropped before a closing bracket and kept otherwise. *)
Lemma rc_entry_comma b e s out sp y r :
  entry_wf b e → Forall blank_ok (segs (e_value e)) → blank_ok s → seg_kind s = Comma → spaces sp → visible y = true →
  rc (reverse (strict_entry_text e) ++ out) (seg_text s ++ sp ++ y :: r) =
  rc (reverse (strict_entry_text e ++ seg_gap s ++ if closes_byte y then [] else [COMMA]) ++ out) (sp ++ y :: r).
Proof.
  intros He Hv Hs Hk Hsp Hy. destruct (strict_entry_end _ _ He Hv) as (x & z & -> & Hz & Ho).
  rewrite reverse_app. change (reverse [z]) with [z]. cbn [app]. rewrite rc_comma by done.
  f_equal. rewrite !reverse_app. change (reverse [z]) with [z]. by destruct (closes_byte y); rewrite <-!(assoc_L (++)).
Qed.

Lemma comma_text s : blank_ok s → seg_kind s = Comma → seg_text s = seg_gap s ++ [COMMA].
Proof.
  intros Hs Hk. unfold seg_text. by rewrite (comma_raw s (blank_ok_seg s Hs) Hk).
Qed.

Lemma rc_entries b es sp y r out :
  commas_ok es → Forall (entry_wf b) es → Forall blank_ok (entries_segs es) → Forall (λ e, passes (e_value e)) es →
  spaces sp → visible y = true → closes_byte y = true →
  rc out (layout (entries_segs es) ++ sp ++ y :: r) = rc (reverse (strict_text es) ++ out) (sp ++ y :: r).
Proof.
  intros Hco Hwf Hok Hp Hsp Hy Hcl. revert out. induction es as [|e es IH]; intros out; [done|].
  destruct Hco as (Hc & Hl & Hco). apply Forall_cons in Hwf as [He Hwf], Hp as [Hpe Hp].
  pose proof Hok as Hokes. rewrite entries_segs_cons in Hok. apply Forall_app in Hok as [Hoke Hok].
  unfold entry_segs in Hoke. rewrite !Forall_app in Hoke. destruct Hoke as (Hh & Hv & Hs).
  rewrite entries_segs_cons. unfold entry_segs. rewrite (assoc_L (++) (e_head e)), !layout_app, <-layout_app, <-!(assoc_L (++)).
  rewrite (rc_entry_value b) by done.
  destruct (e_comma e) as [s|] eqn:Hce.
  2: { destruct es; [|by destruct (Hl ltac:(done))]. rewrite strict_text_single. unfold strict_comma. by rewrite Hce, app_nil_r. }
  change (option_list (Some s)) with [s] in *. apply Forall_cons in Hs as [Hs _].
  rewrite layout_cons. change (layout []) with (@nil byte). rewrite app_nil_r, <-(assoc_L (++)).
  rewrite (assoc_L (++) (seg_gap s)).
  change (seg_gap s ++ raw s) with (seg_text s).
  destruct es as [|e' es].
  - change (layout (entries_segs [])) with (@nil byte). cbn [app].
    rewrite (rc_entry_comma b), Hcl, strict_text_single by (done || by apply Hc).
    unfold strict_comma. by rewrite Hce, app_nil_r.
  - apply Forall_cons in Hwf as [He' Hwf]. destruct (entry_starts _ _ _ He' Hok) as (sp' & y' & r' & Ht & Hsp' & Hy' & Hcl').
    rewrite (strict_text_cons e (e' :: es) s) by done. rewrite Ht, <-(assoc_L (++)). cbn [app].
    rewrite (rc_entry_comma b), Hcl' by (done || by apply Hc). change (y' :: r' ++ ?t) with ((y' :: r') ++ t).
    rewrite (assoc_L (++) sp'), <-Ht, IH by (done || by constructor).
    f_equal. rewrite comma_text by (done || by apply Hc). rewrite !reverse_app, <-!(assoc_L (++)). done.
Qed.

Lemma closes_plain y : closes_byte y = true → y ≠ QUOTE ∧ y ≠ COMMA.
Proof. by destruct y; vm_compute. Qed.

Lemma closing_text b cl :
  blank_ok cl → seg_kind cl = closing_kind b → ∃ y, raw cl = [y] ∧ visible y = true ∧ closes_byte y = true.
Proof.
  intros (_ & Hl & _) Hk. rewrite Hk in Hl.
  destruct b; inversion Hl as [y k Hy| |]; subst; (exists y; split; [done|]); revert Hy; by destruct y; vm_compute.
Qed.

Lemma entries_blank es e : Forall blank_ok (entries_segs es) → e ∈ es → Forall blank_ok (segs (e_value e)).
Proof.
  intros Hok (i & Hi)%list_elem_of_lookup. rewrite <-(take_drop_middle _ _ _ Hi), entries_segs_app, entries_segs_cons in Hok.
  apply Forall_app in Hok as [_ [Hok _]%Forall_app]. unfold entry_segs in Hok. rewrite !Forall_app in Hok. apply Hok.
Qed.

Lemma strict_passes c : wf c → Forall blank_ok (segs c) → passes c.
Proof.
  induction c as [s|b o es cl IH] using cst_ind; intros Hwf Hok out rest.
  - apply rc_segs; [done|]. constructor; [|constructor]. simpl in Hwf. by destruct (seg_kind s).
  - apply wf_node in Hwf as (Ho & Hcl & Hco & Hes). rewrite segs_node in *.
    apply Forall_cons in Hok as [Hoo Hok]. apply Forall_app in Hok as [Hok [Hcok _]%Forall_cons].
    cbn [strict]. change (map _ es) with (strict_entry <$> es).
    rewrite segs_node, !layout_cons_text, !layout_app, !layout_cons_text, <-!(assoc_L (++)).
    rewrite rc_seg by (done || rewrite Ho; by destruct b). change (layout []) with (@nil byte). cbn [app].
    destruct (closing_text _ _ Hcok Hcl) as (y & Hy & Hvis & Hc). unfold seg_text at 2. rewrite Hy, <-(assoc_L (++)). cbn [app].
    assert (Forall (λ e, passes (e_value e)) es) as Hp.
    { rewrite Forall_forall in IH, Hes |- *. intros e He. apply IH; [done|apply (Hes e He)|by eapply entries_blank]. }
    rewrite (rc_entries b) by (done || apply Hcok).
    rewrite (rc_other (seg_gap cl)) by by apply spaces_plain, Hcok.
    change (y :: rest) with ([y] ++ rest). rewrite (rc_other [y]) by (constructor; [by apply closes_plain|constructor]).
    f_equal. unfold strict_text, seg_text. cbn [seg_gap raw set_gap]. rewrite Hy, !app_nil_r, !reverse_app, <-!(assoc_L (++)). done.
Qed.

(** ** Both passes *)

Lemma blank_seg_ok s : seg_ok s → plain_seg s → blank_ok (blank_seg s).
Proof. intros [Hg Hl] Hp. split_and!; [by apply spaces_blank_gap|done|done]. Qed.

(** Strict JSON: whitespace between the lexemes and no comma before a closing bracket. *)
Definition strict_json (s : text) (t : Tree) : Prop :=
  ∃ c tail, s = layout (segs c) ++ tail ∧ good c tail ∧ t = tree_of c ∧
    Forall (λ s, spaces (seg_gap s)) (segs c) ∧ spaces tail ∧ no_trailing c.

Lemma strict_json_denotes s t : strict_json s t → denotes s t.
Proof. intros (c & tail & -> & Hg & -> & _). by exists c, tail. Qed.

Lemma entries_segs_Forall (P : Seg → Prop) es :
  Forall P (entries_segs es) ↔
  Forall (λ e, Forall P (e_head e) ∧ Forall P (segs (e_value e)) ∧ Forall P (option_list (e_comma e))) es.
Proof.
  induction es as [|e es IH]; [split; constructor|].
  rewrite entries_segs_cons, Forall_app, Forall_cons, IH. unfold entry_segs. by rewrite !Forall_app.
Qed.

Lemma strict_entries_blank es :
  Forall blank_ok (entries_segs es) → Forall blank_ok (entries_segs (strict_entries es).1) ∧ spaces (strict_entries es).2.
Proof.
  induction es as [|e es IH]; [by repeat constructor|]. rewrite entries_segs_Forall. intros [(Hh & Hv & Hc) Hes]%Forall_cons.
  destruct es as [|e' es].
  - cbn [strict_entries fst snd]. split.
    + apply entries_segs_Forall. by repeat constructor.
    + unfold strict_comma. destruct (e_comma e); [|constructor]. by apply Forall_cons in Hc as [[? _] _].
  - rewrite strict_entries_cons by done. cbn [fst snd]. apply entries_segs_Forall in Hes. destruct (IH Hes) as [Hes' Hs].
    split; [|done]. apply entries_segs_Forall. constructor; [done|]. by apply entries_segs_Forall.
Qed.

Lemma strict_blank c : Forall blank_ok (segs c) → Forall blank_ok (segs (strict c)).
Proof.
  induction c as [s|b o es cl IH] using cst_ind; [done|]. rewrite segs_node.
  intros [Ho [Hes [(Hg & Hcl) _]%Forall_cons]%Forall_app]%Forall_cons. cbn [strict]. change (map _ es) with (strict_entry <$> es).
  destruct (strict_entries_blank (strict_entry <$> es)) as [Hes' Hs].
  { apply entries_segs_Forall. rewrite entries_segs_Forall in Hes. rewrite Forall_fmap.
    rewrite Forall_forall in IH, Hes |- *. intros e He. destruct (Hes e He) as (Hh & Hv & Hc). split_and!; [done|by apply IH|done]. }
  rewrite segs_node. constructor; [done|]. apply Forall_app. split; [done|]. constructor; [|constructor].
  split; [|done]. simpl. apply spaces_app. done.
Qed.

(** The normalised text is strict JSON that says what the document says. *)
Lemma jsonc_to_json_strict doc t :
  denotes doc t → plain_tree t = true → ∃ s, jsonc_to_json doc = Ok s ∧ strict_json s t.
Proof.
  intros (c & tail & -> & (Hwf & Hok & Ht) & ->) Hp. set (c' := cst_map blank_seg c).
  assert (segs c' = blank_seg <$> segs c) as Hsegs by by apply segs_cst_map.
  assert (wf c') as Hwf' by by apply wf_cst_map.
  assert (tree_of c' = tree_of c) as Htree by by apply tree_cst_map.
  assert (Forall blank_ok (segs c')) as Hok'.
  { rewrite Hsegs, Forall_fmap. pose proof (plain_segs _ Hwf Hp) as Hpl. rewrite Forall_forall in Hok, Hpl |- *.
    intros s Hs. apply blank_seg_ok; auto. }
  destruct (strip_layout _ _ Hok Ht) as (tail' & Hs & Hstrip). destruct (strict_facts c' Hwf') as (Hw & Hst & Hnt).
  pose proof (strict_blank _ Hok') as Hsb.
  exists (layout (segs (strict c')) ++ tail'). split.
  - unfold jsonc_to_json. rewrite Hstrip, <-Hsegs. cbn [result_bind]. f_equal. unfold remove_json_trailing_commas.
    rewrite (strict_passes c'), <-(app_nil_r tail'), rc_other by (done || by apply spaces_plain).
    cbn [remove_commas]. by rewrite !app_nil_r, reverse_app, !reverse_involutive.
  - exists (strict c'), tail'. split_and!; [done| |by rewrite Hst| |done|done].
    + split_and!; [done| |by apply gap_spaces]. eapply Forall_impl; [exact Hsb|]. apply blank_ok_seg.
    + eapply Forall_impl; [exact Hsb|]. by intros s [? _].
Qed.

End strict.
