(* ===== verification/JsoncExamples.v ===== *)
(** * A JSON library and a document

    A small printer and string reader with the laws the edits rely on, for
    numbers that are naturals, and the document the theorems are applied at. *)

From S2P Require Import Prelude.
From S2P Require Import Jsonc.
From S2P Require Import JsoncEdit.
From S2P Require Import JsoncLayout.
From S2P Require Import JsoncGrammar.
From S2P Require Import JsoncTree.
From S2P Require Import JsoncPath.
From S2P Require Import JsoncRender.
From S2P Require Import JsoncInsert.
From S2P Require Import JsoncStrict.

#[local] Open Scope nat_scope.

(** ** Strings *)

Definition hex_digits : text :=
  [Byte.x30; Byte.x31; Byte.x32; Byte.x33; Byte.x34; Byte.x35; Byte.x36; Byte.x37; Byte.x38; Byte.x39;
   Byte.x61; Byte.x62; Byte.x63; Byte.x64; Byte.x65; Byte.x66].

Definition hex_digit (n : nat) : byte := nth n hex_digits Byte.x30.

Definition hex_value (b : byte) : option nat := position (λ d, bool_decide (d = b)) hex_digits.

Definition byte_of (n : nat) : byte := default Byte.x00 (Byte.of_nat n).

Definition escape (b : byte) : text :=
  if bool_decide (b = QUOTE) || bool_decide (b = BACKSLASH) then [BACKSLASH; b]
  else if Byte.to_nat b <? 32 then
    [BACKSLASH; Byte.x75; Byte.x30; Byte.x30; hex_digit (Nat.div (Byte.to_nat b) 16); hex_digit (Nat.modulo (Byte.to_nat b) 16)]
  else [b].

Definition quote (k : text) : text := QUOTE :: mjoin (escape <$> k) ++ [QUOTE].

Definition push_char (b : byte) (r : Result text text) : Result text text := let! t := r in Ok (b :: t).

(** What follows the opening quote, up to the closing one. *)
Fixpoint unescape (t : text) : Result text text :=
  match t with
  | [] => Err []
  | b :: rest =>
      if bool_decide (b = QUOTE) then match rest with [] => Ok [] | _ => Err [] end
      else if bool_decide (b = BACKSLASH) then
        match rest with
        | c :: rest =>
            if bool_decide (c = QUOTE) || bool_decide (c = BACKSLASH) then push_char c (unescape rest)
            else match rest with
                 | z :: z' :: h :: l :: rest =>
                     match hex_value h, hex_value l with
                     | Some h, Some l =>
                         if forallb id (zip_with (λ a b, bool_decide (a = b)) [c; z; z'] [Byte.x75; Byte.x30; Byte.x30])
                         then push_char (byte_of (16 * h + l)) (unescape rest) else Err []
                     | _, _ => Err []
                     end
                 | _ => Err []
                 end
        | [] => Err []
        end
      else push_char b (unescape rest)
  end.

Definition plain_strings : StringJson :=
  λ t, match t with b :: t => if bool_decide (b = QUOTE) then unescape t else Err [] | [] => Err [] end.
#[local] Existing Instance plain_strings.

Lemma hex_digit_elem n : hex_digit n ∈ hex_digits.
Proof.
  unfold hex_digit. destruct (decide (n < length hex_digits)) as [Hn|Hn].
  - by apply list_elem_of_In, nth_In.
  - rewrite nth_overflow by lia. by left.
Qed.

Lemma hex_digit_plain n :
  hex_digit n ≠ QUOTE ∧ hex_digit n ≠ BACKSLASH ∧ ends_atom (hex_digit n) = false ∧ visible (hex_digit n) = true.
Proof.
  pose proof (hex_digit_elem n) as Hn. revert Hn. generalize (hex_digit n). apply Forall_forall.
  repeat (constructor; [by split_and!|]). constructor.
Qed.

Lemma low_byte_hex b :
  (if Byte.to_nat b <? 32 then
     match hex_value (hex_digit (Nat.div (Byte.to_nat b) 16)), hex_value (hex_digit (Nat.modulo (Byte.to_nat b) 16)) with
     | Some h, Some l => bool_decide (byte_of (16 * h + l) = b)
     | _, _ => false
     end
   else true) = true.
Proof. destruct b; vm_compute; reflexivity. Qed.

Lemma unescape_escape b rest : unescape (escape b ++ rest) = push_char b (unescape rest).
Proof.
  unfold escape. destruct (bool_decide (b = QUOTE) || bool_decide (b = BACKSLASH)) eqn:Hb.
  - cbn [app unescape]. by rewrite Hb.
  - apply orb_false_iff in Hb as [Hq Hs]. destruct (Byte.to_nat b <? 32) eqn:Hn.
    + pose proof (low_byte_hex b) as Hl. rewrite Hn in Hl. cbn [app unescape].
      destruct (hex_value _) as [h|]; [|done]. destruct (hex_value _) as [l|]; [|done]. apply bool_decide_eq_true in Hl. by rewrite Hl.
    + cbn [app unescape]. by rewrite Hq, Hs.
Qed.

Lemma scan_escape b rest : scan_string false (escape b ++ rest) = (λ n, length (escape b) + n) <$> scan_string false rest.
Proof.
  unfold escape. destruct (bool_decide (b = QUOTE) || bool_decide (b = BACKSLASH)) eqn:Hb.
  - simpl. by destruct (scan_string false rest).
  - apply orb_false_iff in Hb as [Hq Hs]. destruct (Byte.to_nat b <? 32) eqn:Hn; simpl.
    + rewrite !(bool_decide_eq_false_2 (hex_digit _ = _)) by apply hex_digit_plain. by destruct (scan_string false rest).
    + rewrite Hq, Hs. by destruct (scan_string false rest).
Qed.

Definition quote_body (k : text) : text := mjoin (escape <$> k) ++ [QUOTE].

Lemma quote_body_cons b k : quote_body (b :: k) = escape b ++ quote_body k.
Proof. unfold quote_body. simpl. by rewrite <-(assoc_L (++)). Qed.

Lemma quote_reads k : lexeme (quote k) (StringToken k).
Proof.
  apply lex_string.
  - induction k as [|b k IH]; [done|]. fold (quote_body (b :: k)) in *. fold (quote_body k) in IH.
    rewrite quote_body_cons, scan_escape, IH. simpl. by rewrite length_app.
  - unfold string_from_str, plain_strings. rewrite bool_decide_eq_true_2 by done. fold (quote_body k).
    induction k as [|b k IH]; [done|]. by rewrite quote_body_cons, unescape_escape, IH.
Qed.

(** ** Values *)

Fixpoint digits (fuel n : nat) : text :=
  match fuel with
  | O => []
  | S fuel => digits fuel (Nat.div n 10) ++ [hex_digit (Nat.modulo n 10)]
  end.

(** Decimal, in as many digits as the number's binary length. *)
Definition decimal (n : nat) : text := digits (S (Nat.log2 n)) n.

Definition leaf (g t : text) (k : TokenKind) : Seg := {| seg_gap := g; raw := t; seg_kind := k |}.

Fixpoint join_commas (es : list (Entry Cst)) : list (Entry Cst) :=
  match es with
  | [] => []
  | e :: es =>
      {| e_head := e_head e; e_value := e_value e;
         e_comma := match es with [] => None | _ => Some (leaf [] [COMMA] Comma) end |} :: join_commas es
  end.

Definition indent (pretty : bool) (depth : nat) : text := if pretty then NEWLINE :: replicate (2 * depth) SPACE else [].

Definition close_gap {A} (pretty : bool) (depth : nat) (l : list A) : text :=
  match l with [] => [] | _ => indent pretty depth end.

Fixpoint cst_of (pretty : bool) (depth : nat) (g : text) (v : Value nat) : Cst :=
  match v with
  | Null => CLeaf (leaf g [Byte.x6e; Byte.x75; Byte.x6c; Byte.x6c] Atom)
  | Bool true => CLeaf (leaf g [Byte.x74; Byte.x72; Byte.x75; Byte.x65] Atom)
  | Bool false => CLeaf (leaf g [Byte.x66; Byte.x61; Byte.x6c; Byte.x73; Byte.x65] Atom)
  | Number n => CLeaf (leaf g (decimal n) Atom)
  | Str s => CLeaf (leaf g (quote s) (StringToken s))
  | Array l =>
      CNode Brackets (leaf g [LEFT_BRACKET] LeftBracket)
        (join_commas (map (λ v, {| e_head := []; e_value := cst_of pretty (S depth) (indent pretty (S depth)) v; e_comma := None |}) l))
        (leaf (close_gap pretty depth l) [RIGHT_BRACKET] RightBracket)
  | Object m =>
      CNode Braces (leaf g [LEFT_BRACE] LeftBrace)
        (join_commas (map (λ kv, {| e_head := [leaf (indent pretty (S depth)) (quote kv.1) (StringToken kv.1); leaf [] [COLON] Colon];
            e_value := cst_of pretty (S depth) (if pretty then [SPACE] else []) kv.2; e_comma := None |}) m))
        (leaf (close_gap pretty depth m) [RIGHT_BRACE] RightBrace)
  end.

Definition plain_values : ValueJson := {|
  number := nat;
  string_json := plain_strings;
  to_string v := layout (segs (cst_of false 0 [] v));
  str_to_string := quote;
  to_string_pretty v := layout (segs (cst_of true 0 [] v));
|}.
#[local] Existing Instance plain_values.

Section value_ind.
  Context {A : Type} (P : Value A → Prop).
  Context (Pnull : P Null) (Pbool : ∀ b, P (Bool b)) (Pnumber : ∀ n, P (Number n)) (Pstr : ∀ s, P (Str s)).
  Context (Parray : ∀ l, Forall P l → P (Array l)).
  Context (Pobject : ∀ m, Forall (λ kv, P kv.2) m → P (Object m)).

Fixpoint value_ind (v : Value A) : P v :=
  match v with
  | Null => Pnull
  | Bool b => Pbool b
  | Number n => Pnumber n
  | Str s => Pstr s
  | Array l =>
      Parray l ((fix go l : Forall P l :=
        match l with [] => List.Forall_nil _ | v :: l => List.Forall_cons _ v l (value_ind v) (go l) end) l)
  | Object m =>
      Pobject m ((fix go m : Forall (λ kv, P kv.2) m :=
        match m with [] => List.Forall_nil _ | kv :: m => List.Forall_cons _ kv m (value_ind kv.2) (go m) end) m)
  end.
End value_ind.

Lemma decimal_plain n : decimal n ≠ [] ∧ Forall (λ b, ends_atom b = false ∧ visible b = true) (decimal n).
Proof.
  unfold decimal. split; [intros Hd; by apply app_eq_nil in Hd as [_ ?]|]. generalize (S (Nat.log2 n)) as fuel. intros fuel.
  revert n. induction fuel as [|fuel IH]; intros n; simpl; [constructor|]. apply Forall_app. split; [apply IH|].
  constructor; [|constructor]. split; apply hex_digit_plain.
Qed.

Lemma commas_ok_join es : commas_ok (join_commas es).
Proof.
  induction es as [|e es IH]; [done|]. cbn [join_commas commas_ok e_comma]. split_and!; [|by destruct es|done].
  intros s. destruct es; [done|]. by intros [= <-].
Qed.

Lemma join_commas_wf b es : Forall (entry_wf b) es → Forall (entry_wf b) (join_commas es).
Proof. induction 1 as [|e es He _ IH]; [constructor|]. by constructor. Qed.

Lemma contents_join es : contents (join_commas es) = contents es.
Proof. induction es as [|e es IH]; [done|]. unfold contents in *. cbn [join_commas fmap list_fmap]. by rewrite IH. Qed.

(** The lexemes printed: whitespace before them, and the pretty printer's gaps. *)
Definition printed_gap (pretty : bool) (g : text) : Prop := spaces g ∧ (pretty = true → pretty_gap g).

Definition printed (pretty : bool) (s : Seg) : Prop := seg_ok s ∧ (pretty = true → pretty_seg s).

Lemma printed_gap_nil pretty : printed_gap pretty [].
Proof. split; [constructor|by left]. Qed.

Lemma printed_indent pretty depth : printed_gap pretty (indent pretty depth).
Proof.
  destruct pretty; [|apply printed_gap_nil]. split.
  - constructor; [done|]. by apply Forall_replicate.
  - right. right. by exists depth.
Qed.

Lemma printed_close {A} pretty depth (l : list A) : printed_gap pretty (close_gap pretty depth l).
Proof. destruct l; [apply printed_gap_nil|apply printed_indent]. Qed.

Lemma printed_leaf pretty g t k :
  printed_gap pretty g → lexeme t k → NEWLINE ∉ t → CR ∉ t → (∃ b t', t = b :: t' ∧ visible b = true) → printed pretty (leaf g t k).
Proof. intros [Hs Hp] Hl Hn Hc Hv. split; [split; [by apply gap_spaces|done]|]. intros Hpr. split_and!; [by apply Hp|done..]. Qed.

Lemma printed_punctuation pretty g b k :
  printed_gap pretty g → punctuation b = Some k → printed pretty (leaf g [b] k).
Proof.
  intros Hg Hk. apply printed_leaf; [done|by constructor|..].
  1-2: intros Hb%list_elem_of_singleton; by subst b.
  exists b, []. split; [done|]. revert Hk. by destruct b; vm_compute.
Qed.

Lemma printed_atom pretty g t :
  printed_gap pretty g → t ≠ [] → Forall (λ b, ends_atom b = false ∧ visible b = true) t → printed pretty (leaf g t Atom).
Proof.
  intros Hg Hne Ht. apply printed_leaf; [done| |..].
  - constructor; [done|]. eapply Forall_impl; [exact Ht|]. by intros b [? _].
  - intros Hn. rewrite Forall_forall in Ht. by destruct (Ht _ Hn).
  - intros Hn. rewrite Forall_forall in Ht. by destruct (Ht _ Hn).
  - destruct t as [|b t]; [done|]. apply Forall_cons in Ht as [[_ Hv] _]. by exists b, t.
Qed.

Lemma escape_one_line b : NEWLINE ∉ escape b ∧ CR ∉ escape b.
Proof. split; apply (bool_decide_unpack _); by destruct b; vm_compute. Qed.

Lemma printed_string pretty g k : printed_gap pretty g → printed pretty (leaf g (quote k) (StringToken k)).
Proof.
  assert (∀ c, (∀ b, c ∉ escape b) → c ≠ QUOTE → c ∉ quote k) as Hq.
  { intros c Hc Hne [?|Hin]%elem_of_cons; [done|]. apply elem_of_app in Hin as [Hin|?%list_elem_of_singleton]; [|done].
    apply list_elem_of_join in Hin as (l & Hl & (b & -> & _)%list_elem_of_fmap). by destruct (Hc b). }
  intros Hg. apply printed_leaf; [done|apply quote_reads| | |by eexists _, _].
  - apply Hq; [|done]. apply escape_one_line.
  - apply Hq; [|done]. apply escape_one_line.
Qed.

Lemma join_commas_segs pretty es :
  Forall (λ e, Forall (printed pretty) (e_head e) ∧ Forall (printed pretty) (segs (e_value e))) es →
  Forall (printed pretty) (entries_segs (join_commas es)).
Proof.
  intros Hes. apply entries_segs_Forall. induction Hes as [|e es [Hh Hv] _ IH]; [constructor|].
  constructor; [|done]. split_and!; [done|done|]. cbn [e_comma]. destruct es; constructor; [|constructor].
  apply printed_punctuation; [apply printed_gap_nil|done].
Qed.

Lemma cst_of_segs pretty v depth g : printed_gap pretty g → Forall (printed pretty) (segs (cst_of pretty depth g v)).
Proof.
  revert depth g. induction v as [|[]|n|s|l IH|m IH] using value_ind; intros depth g Hg; cbn [cst_of].
  1-3: constructor; [|constructor]; apply printed_atom; [done|done|]; by repeat (constructor; [done|]).
  - constructor; [|constructor]. apply printed_atom; [done|apply decimal_plain..].
  - constructor; [|constructor]. by apply printed_string.
  - rewrite segs_node. constructor; [by apply printed_punctuation|]. apply Forall_app. split.
    + apply join_commas_segs. rewrite Forall_map. eapply Forall_impl; [exact IH|]. intros v Hv. split; [constructor|].
      apply Hv, printed_indent.
    + constructor; [|constructor]. apply printed_punctuation; [apply printed_close|done].
  - rewrite segs_node. constructor; [by apply printed_punctuation|]. apply Forall_app. split.
    + apply join_commas_segs. rewrite Forall_map. eapply Forall_impl; [exact IH|]. intros [k v] Hv. split.
      * constructor; [apply printed_string, printed_indent|]. constructor; [|constructor].
        apply printed_punctuation; [apply printed_gap_nil|done].
      * apply Hv. destruct pretty; [|apply printed_gap_nil]. split; [by repeat constructor|]. right. by left.
    + constructor; [|constructor]. apply printed_punctuation; [apply printed_close|done].
Qed.

Lemma cst_of_tree pretty v depth g :
  wf (cst_of pretty depth g v) ∧ tree_of (cst_of pretty depth g v) = value_tree decimal v.
Proof.
  revert depth g. induction v as [|[]|n|s|l IH|m IH] using value_ind; intros depth g; cbn [cst_of]; try done.
  - split.
    + apply wf_node. split_and!; [done|done|apply commas_ok_join|]. apply join_commas_wf. rewrite Forall_map.
      eapply Forall_impl; [exact IH|]. intros v Hv. split; [done|]. apply Hv.
    + rewrite tree_of_contents, contents_join. cbn [value_tree]. f_equal. unfold contents. rewrite <-!list_fmap_compose.
      clear -IH. induction IH as [|v l Hv _ IHl]; [done|]. cbn [fmap list_fmap map]. f_equal; [apply Hv|exact IHl].
  - split.
    + apply wf_node. split_and!; [done|done|apply commas_ok_join|]. apply join_commas_wf. rewrite Forall_map.
      eapply Forall_impl; [exact IH|]. intros [k v] Hv. split; [by eexists _, _, _|]. apply Hv.
    + rewrite tree_of_contents, contents_join. cbn [value_tree]. f_equal. unfold contents. rewrite <-!list_fmap_compose.
      clear -IH. induction IH as [|[k v] m Hv _ IHm]; [done|]. cbn [fmap list_fmap map]. f_equal; [|exact IHm].
      cbn. f_equal. apply Hv.
Qed.

Lemma cst_of_tight pretty depth v : tight (cst_of pretty depth [] v).
Proof. intros s. destruct v as [|[]| | | |]; simpl; by intros [= <-]. Qed.

Definition plain_value_laws : ValueJsonLaws.
Proof.
  refine {| number_text := decimal : number → text |}.
  - intros n. apply forallb_Forall. eapply Forall_impl; [apply decimal_plain|]. by intros b [_ ?].
  - intros v. destruct (cst_of_tree false v 0 []) as [Hwf Ht].
    exists (cst_of false 0 [] v). split_and!; [done|done| |apply cst_of_tight|done].
    eapply Forall_impl; [apply cst_of_segs, printed_gap_nil|]. by intros s [? _].
  - intros v. destruct (cst_of_tree true v 0 []) as [Hwf Ht]. pose proof (cst_of_segs true v 0 [] (printed_gap_nil _)) as Hs.
    exists (cst_of true 0 [] v). split_and!; [done|done| |apply cst_of_tight| |done].
    + eapply Forall_impl; [exact Hs|]. by intros s [? _].
    + eapply Forall_impl; [exact Hs|]. intros s [_ Hp]. by apply Hp.
  - apply quote_reads.
Defined.
#[local] Existing Instance plain_value_laws.

(** ** A document *)

(** JSON text, written with single quotes. *)
Definition json (s : string) : text := (λ b, if bool_decide (b = Byte.x27) then QUOTE else b) <$> String.list_byte_of_string s.

Definition config : text := json
"{
  // where the daemon listens
  'listen': {'port': 7, /* spare */ },
  'modules': ['a', 'b',], // started in order
}
"%string.

Definition k_listen : text := json "listen"%string.
Definition k_port : text := json "port"%string.
Definition k_modules : text := json "modules"%string.

Definition config_tree : Tree :=
  TObject [(k_listen, TObject [(k_port, TAtom (json "7"%string))]); (k_modules, TArray [TString (json "a"%string); TString (json "b"%string)])].

(** The document's lexemes. *)
Definition config_cst : Cst :=
  CNode Braces (leaf [] [LEFT_BRACE] LeftBrace)
    [{| e_head := [leaf (json "
  // where the daemon listens
  "%string) (quote k_listen) (StringToken k_listen); leaf [] [COLON] Colon];
        e_value := CNode Braces (leaf [SPACE] [LEFT_BRACE] LeftBrace)
          [{| e_head := [leaf [] (quote k_port) (StringToken k_port); leaf [] [COLON] Colon];
              e_value := CLeaf (leaf [SPACE] (json "7"%string) Atom); e_comma := Some (leaf [] [COMMA] Comma) |}]
          (leaf (json " /* spare */ "%string) [RIGHT_BRACE] RightBrace);
        e_comma := Some (leaf [] [COMMA] Comma) |};
     {| e_head := [leaf (json "
  "%string) (quote k_modules) (StringToken k_modules); leaf [] [COLON] Colon];
        e_value := CNode Brackets (leaf [SPACE] [LEFT_BRACKET] LeftBracket)
          [{| e_head := []; e_value := CLeaf (leaf [] (quote (json "a"%string)) (StringToken (json "a"%string)));
              e_comma := Some (leaf [] [COMMA] Comma) |};
           {| e_head := []; e_value := CLeaf (leaf [SPACE] (quote (json "b"%string)) (StringToken (json "b"%string)));
              e_comma := Some (leaf [] [COMMA] Comma) |}]
          (leaf [] [RIGHT_BRACKET] RightBracket);
        e_comma := Some (leaf [] [COMMA] Comma) |}]
    (leaf (json " // started in order
"%string) [RIGHT_BRACE] RightBrace).

Lemma config_layout : config = layout (segs config_cst) ++ [NEWLINE].
Proof. vm_compute. reflexivity. Qed.

(** A gap is what the tokenizer skips. *)
Definition skipped (g : text) : bool :=
  match tokenize (g ++ [Byte.x30]) with Ok [token] => token_start token =? length g | _ => false end.

Lemma skipped_gap g : skipped g = true → gap false g.
Proof.
  unfold skipped. destruct (tokenize _) as [tokens|] eqn:Ht; [|done]. apply tokenize_iff in Ht as (ss & tail & Hg & Hok & _ & _ & ->).
  destruct ss as [|s [|s' ss]]; simpl; try done. intros Hl%Nat.eqb_eq. apply Forall_cons in Hok as [[Hs _] _].
  rewrite layout_cons, <-(assoc_L (++)) in Hg. apply app_inj_1 in Hg as [-> _]; [done|]. lia.
Qed.

(** Checking a concrete tree. *)
Definition lexeme_check (t : text) (k : TokenKind) : bool :=
  match k with
  | StringToken v =>
      match t with
      | b :: body =>
          bool_decide (b = QUOTE) && bool_decide (scan_string false body = Some (length body)) &&
          match string_from_str t with Ok v' => bool_decide (v' = v) | Err _ => false end
      | [] => false
      end
  | Atom => negb (bool_decide (t = [])) && forallb (λ b, negb (ends_atom b)) t
  | k => match t with [b] => bool_decide (punctuation b = Some k) | _ => false end
  end.

Lemma lexeme_check_ok t k : lexeme_check t k = true → lexeme t k.
Proof.
  destruct k as [| | | | | |v|]; cbn [lexeme_check];
    try (destruct t as [|b [|]]; [done| |done]; intros Hp%bool_decide_eq_true; by constructor).
  - destruct t as [|b body]; [done|].
    intros [[->%bool_decide_eq_true Hs%bool_decide_eq_true]%andb_true_iff Hv]%andb_true_iff.
    destruct (string_from_str _) as [v'|] eqn:Hr; [|done]. apply bool_decide_eq_true in Hv as ->. by constructor.
  - intros [Hne Hb]%andb_true_iff. constructor; [by destruct t|]. apply forallb_Forall in Hb.
    eapply Forall_impl; [exact Hb|]. by intros b ->%negb_true_iff.
Qed.

Definition head_check (b : Bracket) (h : list Seg) : bool :=
  match b, h with
  | Braces, [k; colon] => match seg_kind k with StringToken _ => true | _ => false end && bool_decide (seg_kind colon = Colon)
  | Brackets, [] => true
  | _, _ => false
  end.

Fixpoint commas_check (es : list (Entry Cst)) : bool :=
  match es with
  | e :: es =>
      match e_comma e with Some s => bool_decide (seg_kind s = Comma) | None => bool_decide (length es = 0) end && commas_check es
  | [] => true
  end.

Fixpoint wf_check (c : Cst) : bool :=
  match c with
  | CLeaf s => is_scalar (seg_kind s)
  | CNode b o es cl =>
      bool_decide (seg_kind o = opening_kind b) && bool_decide (seg_kind cl = closing_kind b) && commas_check es &&
      forallb (λ e, head_check b (e_head e) && wf_check (e_value e)) es
  end.

Lemma head_check_ok b h : head_check b h = true → head_ok b h.
Proof.
  destruct b, h as [|k [|colon [|]]]; simpl; try done. destruct (seg_kind k) eqn:Hk; try done.
  intros Hc%bool_decide_eq_true. by eexists _, _, _.
Qed.

Lemma commas_check_ok es : commas_check es = true → commas_ok es.
Proof.
  induction es as [|e es IH]; [done|]. cbn [commas_check commas_ok]. intros [Hc Hes]%andb_true_iff.
  destruct (e_comma e) as [s|]; apply bool_decide_eq_true in Hc; (split_and!; [| |by apply IH]).
  - by intros s' [= <-].
  - done.
  - done.
  - by apply nil_length_inv in Hc as ->.
Qed.

Lemma wf_check_ok c : wf_check c = true → wf c.
Proof.
  induction c as [s|b o es cl IH] using cst_ind; [done|]. cbn [wf_check].
  intros [[[Ho%bool_decide_eq_true Hcl%bool_decide_eq_true]%andb_true_iff Hco]%andb_true_iff Hes]%andb_true_iff.
  apply wf_node. split_and!; [done|done|by apply commas_check_ok|]. apply forallb_Forall in Hes.
  rewrite Forall_forall in IH, Hes |- *. intros e He. destruct (andb_prop _ _ (Hes e He)).
  split; [by apply head_check_ok|by apply IH].
Qed.

Definition document_check (c : Cst) (tail : text) : bool :=
  wf_check c && forallb (λ s, skipped (seg_gap s) && lexeme_check (raw s) (seg_kind s)) (segs c) && skipped tail.

Lemma document_check_ok c tail : document_check c tail = true → denotes (layout (segs c) ++ tail) (tree_of c).
Proof.
  intros [[Hwf Hs]%andb_true_iff Ht]%andb_true_iff. exists c, tail. split_and!; [done| |done].
  split_and!; [by apply wf_check_ok| |by rewrite <-(app_nil_r tail); apply gap_app; [apply skipped_gap|constructor]].
  apply forallb_Forall in Hs.
  eapply Forall_impl; [exact Hs|]. intros s [Hg Hl]%andb_true_iff. split; [by apply skipped_gap|by apply lexeme_check_ok].
Qed.

Lemma config_denotes : denotes config config_tree.
Proof. rewrite config_layout. change config_tree with (tree_of config_cst). apply document_check_ok. vm_compute. reflexivity. Qed.
