(* ===== verification/JsoncTheorems.v ===== *)
(** * Theorems about documents

    What the tokenizer and the parser accept, what the edits do to a document,
    and what normalising it gives. *)

From S2P Require Import Prelude.
From S2P Require Import Jsonc.
From S2P Require Import JsoncEdit.
From S2P Require Import JsoncLayout.
From S2P Require Import JsoncGrammar.
From S2P Require Import JsoncTree.
From S2P Require Import JsoncPath.
From S2P Require Import JsoncRender.
From S2P Require Import JsoncSet.
From S2P Require Import JsoncInsert.
From S2P Require Import JsoncPut.
From S2P Require Import JsoncCut.
From S2P Require Import JsoncRemove.
From S2P Require Import JsoncSpec.
From S2P Require Import JsoncSpan.
From S2P Require Import JsoncStrict.
From S2P Require Import JsoncExamples.

#[local] Open Scope nat_scope.

(** ** Writing at one path, reading at another *)

Definition apart_paths (p q : list text) : Prop := ¬ p `prefix_of` q ∧ ¬ q `prefix_of` p.

Lemma apart_paths_cons k p q : apart_paths (k :: p) (k :: q) → apart_paths p q.
Proof. intros [Hp Hq]. split; intros Hx; [apply Hp|apply Hq]; by apply prefix_cons. Qed.

Lemma apart_paths_nil p q : apart_paths p q → p ≠ [] ∧ q ≠ [].
Proof. intros [Hp Hq]. split; intros ->; [apply Hp|apply Hq]; apply prefix_nil. Qed.

Lemma find_key_alter_other k k' f ms : k ≠ k' → find_key k' (alter_key k f ms) = find_key k' ms.
Proof.
  intros Hk. induction ms as [|[k'' t] ms IH]; simpl; [done|]. case_bool_decide as H1; simpl.
  - rewrite bool_decide_eq_false_2 by congruence. done.
  - by rewrite IH.
Qed.

Lemma find_key_snoc_other k k' ms t : k ≠ k' → find_key k' (ms ++ [(k, t)]) = find_key k' ms.
Proof.
  intros Hk. induction ms as [|[k'' t'] ms IH]; simpl; [by rewrite bool_decide_eq_false_2|]. by rewrite IH.
Qed.

Lemma tree_lookup_nest_other d p q x y : apart_paths p q → tree_lookup d q (nest_tree p x) ≠ TFound y.
Proof.
  revert d q. induction p as [|k p IH]; intros d q Hpq; [by destruct (apart_paths_nil _ _ Hpq)|].
  destruct q as [|k' q]; [by destruct (apart_paths_nil _ _ Hpq)|]. simpl. case_bool_decide as Hk; [|done]. subst k'.
  by apply IH, (apart_paths_cons k).
Qed.

Lemma tree_lookup_put_other d p q x t y :
  apart_paths p q → tree_lookup d q (tree_put p x t) = TFound y ↔ tree_lookup d q t = TFound y.
Proof.
  revert d q t. induction p as [|k p IH]; intros d q t Hpq; [by destruct (apart_paths_nil _ _ Hpq)|].
  destruct q as [|k' q]; [by destruct (apart_paths_nil _ _ Hpq)|]. destruct t as [| |ms|]; try done. cbn [tree_put].
  destruct (decide (k = k')) as [<-|Hk].
  - apply apart_paths_cons in Hpq. destruct (find_key k ms) as [t|] eqn:Hf; simpl; rewrite Hf.
    + rewrite find_key_alter, Hf. simpl. by apply IH.
    + rewrite find_key_snoc by done. split; [|done]. by intros ?%tree_lookup_nest_other.
  - destruct (find_key k ms); simpl; by rewrite ?find_key_alter_other, ?find_key_snoc_other.
Qed.

Lemma path_error_blocked path t d :
  path_error path (tree_lookup 0 path t) = None → tree_lookup 0 path t ≠ TBlocked d.
Proof. intros He Hb. rewrite Hb in He. by destruct path, d. Qed.

Section documents.
  Context `{StringJson}.

(** C36: the tokenizer and the parser accept exactly the documents laid out by a
    well-formed tree of lexemes, between comments and whitespace, and place
    every value, key and comma at its bytes; what a document says is unique. *)
Theorem parse_document_exact doc :
  (∀ v, parse_document doc = Ok v ↔ ∃ c tail, doc = layout (segs c) ++ tail ∧ good c tail ∧ v = parsed 0 c) ∧
  (∀ t t', denotes doc t → denotes doc t' → t = t').
Proof. split; [apply parse_document_iff|apply denotes_unique]. Qed.

(** deleting the bytes [jsonc_member_span] names removes the member, with
    the comma that separated it; a path to no member has no span. *)
Theorem member_span_exact doc t path :
  denotes doc t →
  (∀ x, path ≠ [] → tree_lookup 0 path t = TFound x →
     ∃ range doc', jsonc_member_span doc path = Ok (Some range) ∧ replace_range doc range.1 range.2 [] = Some doc' ∧
       denotes doc' (tree_remove path t)) ∧
  ((path ≠ [] → ∀ x, tree_lookup 0 path t ≠ TFound x) → jsonc_member_span doc path = Ok None).
Proof.
  intros Hd. split; [|by apply member_span_absent]. intros x Hne Hx.
  destruct (last path) as [k|] eqn:Hl; [|by apply last_None in Hl]. apply last_Some in Hl as [parents ->].
  rewrite <-tree_remove_snoc. by eapply member_span_removes.
Qed.

(** C38: [jsonc_to_json] turns a document into strict JSON of the same tree:
    only whitespace between the lexemes, and no comma before a closing bracket.
    Whitespace is what the tokenizer takes for it, [is_ascii_whitespace]: a form
    feed passes although RFC 8259 does not allow it ([form_feed_kept]). *)
Theorem normalised_is_strict doc t :
  denotes doc t → plain_tree t = true → ∃ s, jsonc_to_json doc = Ok s ∧ strict_json s t ∧ denotes s t.
Proof.
  intros Hd Hp. destruct (jsonc_to_json_strict doc t Hd Hp) as (s & Hs & Hj). exists s.
  split_and!; [done|done|]. by apply strict_json_denotes.
Qed.

End documents.

Section edits.
  Context `{ValueJsonLaws}.

(** C14: a session of edits does to a document what the same edits do to its
    tree: it never panics, every answer and refusal is the tree's, and the
    document it leaves says what the tree ends as. *)
Theorem edits_refine_tree ops doc t :
  denotes doc t → plain_tree t = true →
  ∃ doc', run_edits ops doc = Some (doc', (tree_edits ops t).2) ∧ denotes doc' (tree_edits ops t).1.
Proof. apply run_edits_refine. Qed.

(** [set_member] on a path nothing blocks succeeds; the path then leads to
    the value, and every path apart from it to what it led to before. *)
Theorem set_member_frame doc t path v :
  denotes doc t → path_error path (tree_lookup 0 path t) = None →
  ∃ doc' t', set_member doc path v = Some (doc', Ok ()) ∧ denotes doc' t' ∧
    tree_lookup 0 path t' = TFound (put_tree v) ∧
    ∀ q y, apart_paths path q → tree_lookup 0 q t' = TFound y ↔ tree_lookup 0 q t = TFound y.
Proof.
  intros Hd He. destruct (set_member_puts doc t path v Hd He) as (doc' & Hs & Hd').
  exists doc', (tree_put path (put_tree v) t). split_and!; [done|done| |].
  - apply tree_lookup_put. intros d. by apply path_error_blocked.
  - intros q y Hq. by apply tree_lookup_put_other.
Qed.

(** C37: writing over a member replaces the bytes of its value and nothing
    else; removing one takes its bytes, blanks and at most one comma, so every
    comment around it stays. *)
Theorem edits_local doc t path old v :
  denotes doc t → plain_tree t = true → path ≠ [] → tree_lookup 0 path t = TFound old →
  (∃ a b d b', doc = a ++ b ++ d ∧ prints b old ∧ prints b' (put_tree v) ∧
     set_member doc path v = Some (a ++ b' ++ d, Ok ())) ∧
  (∃ doc' entry k, last path = Some k ∧ prints_member entry k old ∧ keeps_ink doc entry doc' ∧
     remove_member doc path = Some (doc', Ok true)).
Proof.
  intros Hd Hp Hne Hold. split.
  - destruct (set_member_found doc t path old v Hd Hne Hold) as (a & b & d & b' & Hdoc & Hs & Hb & Hb' & _). by exists a, b, d, b'.
  - destruct (remove_member_found doc t path old Hd Hp Hne Hold) as (doc' & entry & parents & k & -> & Hr & _ & He & Hk).
    exists doc', entry, k. split_and!; [by rewrite last_snoc|done..].
Qed.

End edits.

(** ** At the document of the examples *)

#[local] Existing Instances plain_strings plain_values plain_value_laws.

Lemma config_plain : plain_tree config_tree = true.
Proof. done. Qed.

(** The path to the port. *)
Definition port_path : list text := [k_listen; k_port].

Definition new_port : Value (@number plain_values) := Number 8.

Definition config_edits : list EditOp :=
  [SetMember port_path new_port; InsertMember port_path Null; PushElement [k_modules] (Str k_port);
   RemoveElement [k_modules] 0; RemoveMember [k_modules; k_port]; RemoveMember [k_listen]].

Lemma edits_refine_tree_witness :
  ∃ doc', run_edits config_edits config =
      Some (doc', [Ok Done; Err (AlreadyExists port_path); Ok Done; Ok Done; Err (NotAnObject [k_modules]); Ok (Removed true)]) ∧
    denotes doc' (TObject [(k_modules, TArray [TString (json "b"%string); TString k_port])]).
Proof. exact (edits_refine_tree config_edits config config_tree config_denotes config_plain). Defined.

Lemma set_member_frame_witness :
  ∃ doc' t', set_member config port_path new_port = Some (doc', Ok ()) ∧ denotes doc' t' ∧
    tree_lookup 0 port_path t' = TFound (put_tree new_port) ∧
    ∀ q y, apart_paths port_path q → tree_lookup 0 q t' = TFound y ↔ tree_lookup 0 q config_tree = TFound y.
Proof. apply (set_member_frame config config_tree port_path new_port config_denotes). reflexivity. Defined.

Lemma edits_local_witness :
  (∃ a b d b', config = a ++ b ++ d ∧ prints b (TAtom (json "7"%string)) ∧ prints b' (put_tree new_port) ∧
     set_member config port_path new_port = Some (a ++ b' ++ d, Ok ())) ∧
  (∃ doc' entry k, last port_path = Some k ∧ prints_member entry k (TAtom (json "7"%string)) ∧ keeps_ink config entry doc' ∧
     remove_member config port_path = Some (doc', Ok true)).
Proof.
  apply (edits_local config config_tree port_path (TAtom (json "7"%string)) new_port config_denotes config_plain).
  - discriminate.
  - reflexivity.
Defined.

Lemma member_span_exact_witness :
  (∀ x, [k_modules] ≠ [] → tree_lookup 0 [k_modules] config_tree = TFound x →
     ∃ range doc', jsonc_member_span config [k_modules] = Ok (Some range) ∧ replace_range config range.1 range.2 [] = Some doc' ∧
       denotes doc' (tree_remove [k_modules] config_tree)) ∧
  (([k_modules] ≠ [] → ∀ x, tree_lookup 0 [k_modules] config_tree ≠ TFound x) → jsonc_member_span config [k_modules] = Ok None).
Proof. exact (member_span_exact config config_tree [k_modules] config_denotes). Defined.

Lemma normalised_is_strict_witness :
  ∃ s, jsonc_to_json config = Ok s ∧ strict_json s config_tree ∧ denotes s config_tree.
Proof. exact (normalised_is_strict config config_tree config_denotes config_plain). Defined.

(** A comment between a member's key and its value goes with the member. *)
Example remove_member_inner_comment :
  remove_member (json "{'a': /* why */ 1, 'b': 2}"%string) [json "a"%string] = Some (json "{'b': 2}"%string, Ok true).
Proof. vm_compute. reflexivity. Qed.

(** A form feed between two tokens is whitespace to the tokenizer and stays in
    the normalised document. *)
Example form_feed_kept :
  let doc := json "{'a':"%string ++ Byte.x0c :: json "1}"%string in
  jsonc_to_json doc = Ok doc ∧ is_ok (parse_document doc) = true ∧
  set_member doc [json "a"%string] Null = Some (json "{'a':"%string ++ Byte.x0c :: json "null}"%string, Ok ()).
Proof. split_and!; vm_compute; reflexivity. Qed.
