(* ===== verification/Registry.v ===== *)
(** * The module registry

    [crates/subc-daemon/src/registry.rs]: which connection holds which module
    id, in the active, the candidate or the superseded slot, what the catalog
    lists, and whom a change wakes.  The mutex is taken once per operation, so
    an operation is a function of the state; that a panic elsewhere poisoned it
    is not modelled. *)

From S2P Require Import Prelude Collections Flow.

(** ** What the registry does not look into *)

(** The fields of a role, of a manifest's capability block and of a manifest
    that neither the registry nor the HELLO handler reads. *)
Class ManifestTypes := {
  RoleRest : Type;
  CapabilityDeclarations : Type;
  ManifestRest : Type;
}.

(** [tokio::sync::watch], the sender's side: the value, the version a receiver
    compares, and the receivers there are.  [watch_channel v] is
    [watch::channel(v).0], whose receiver is dropped. *)
Class Watch := {
  watch : Type;
  watch_channel : Z → watch;
  watch_subscribe : watch → watch;
  watch_send_modify : (Z → Z) → watch → watch;
  watch_value : watch → Z;
  watch_version : watch → Z;
  watch_receivers : watch → Z;
}.

Class WatchLaws `{Watch} := {
  channel_value v : watch_value (watch_channel v) = v;
  subscribe_value s : watch_value (watch_subscribe s) = watch_value s;
  subscribe_version s : watch_version (watch_subscribe s) = watch_version s;
  subscribe_receivers s : watch_receivers (watch_subscribe s) = watch_receivers s + 1;
  channel_receivers v : watch_receivers (watch_channel v) = 0;
  modify_value f s : watch_value (watch_send_modify f s) = f (watch_value s);
  modify_version f s : watch_version s < watch_version (watch_send_modify f s);
  modify_receivers f s : watch_receivers (watch_send_modify f s) = watch_receivers s;
}.

(** ** Data *)

Inductive ChannelState := ChannelActive | ChannelClosed.

#[global] Instance channel_state_eq_dec : EqDecision ChannelState.
Proof. solve_decision. Defined.

Inductive RegistrationEndReason :=
  | ConnectionClosed
  | ExplicitGoodbye
  | Replaced
  | SupervisorStop
  | SupervisorRestart
  | RegistrationFailed.

Definition end_reason_as_str (r : RegistrationEndReason) : string :=
  match r with
  | ConnectionClosed => "connection_closed"
  | ExplicitGoodbye => "explicit_goodbye"
  | Replaced => "replaced"
  | SupervisorStop => "supervisor_stop"
  | SupervisorRestart => "supervisor_restart"
  | RegistrationFailed => "registration_failed"
  end.

Inductive RegistryError :=
  | DuplicateModuleId (module_id : string)
  | PathHazardModuleId (module_id reason : string).

(** ** Module ids as path components *)

(** [char::is_control] anywhere in UTF-8 text: C0, DEL, and C1, which is encoded
    in two bytes. *)
Fixpoint any_control (s : list Ascii.ascii) : bool :=
  match s with
  | [] => false
  | a :: rest =>
      let n := Z.of_N (Ascii.N_of_ascii a) in
      (n <? 32) || (n =? 127)
      || (n =? 194) && match rest with
                       | b :: _ => let m := Z.of_N (Ascii.N_of_ascii b) in (128 <=? m) && (m <=? 159)
                       | [] => false
                       end
      || any_control rest
  end.

Definition contains_char (c : Ascii.ascii) (s : string) : bool := bool_decide (c ∈ String.list_ascii_of_string s).

Definition SLASH_CHAR : Ascii.ascii := Ascii.ascii_of_N 47.
Definition BACKSLASH_CHAR : Ascii.ascii := Ascii.ascii_of_N 92.

Definition module_id_path_hazard (module_id : string) : Result unit string :=
  if bool_decide (module_id = "") then Err "empty" else
  if contains_char SLASH_CHAR module_id || contains_char BACKSLASH_CHAR module_id then Err "contains a path separator" else
  if bool_decide (module_id = ".") || bool_decide (module_id = "..") then Err "is a dot path component" else
  if any_control (String.list_ascii_of_string module_id) then Err "contains a control character" else
  if 255 <? Z.of_nat (String.length module_id) then Err "is longer than 255 bytes" else
  Ok tt.

Section registry.
Context `{ManifestTypes} `{Watch} `{HashOrder}.

Inductive ProviderRole :=
  | ToolProvider (concurrency : Concurrency) (rest : RoleRest)
  | PipelineStage (rest : RoleRest)
  | ManagementSurface (concurrency : Concurrency) (rest : RoleRest)
  | InternalService (rest : RoleRest).

Record ModuleManifest := mkModuleManifest {
  module_id : string;
  manifest_protocol_ver : Z;
  manifest_ready : option bool;
  provides : list ProviderRole;
  capabilities : option CapabilityDeclarations;
  manifest_rest : ManifestRest;
}.

#[global] Instance manifest_expand : Expand ModuleManifest := λ m,
  mkModuleManifest (module_id m) (manifest_protocol_ver m) (manifest_ready m) (provides m) (capabilities m) (manifest_rest m).

Record ModuleRegistration := mkModuleRegistration {
  manifest : ModuleManifest;
  ready : bool;
  reg_negotiated_ver : Z;
  reg_state : ChannelState;
  reg_connection : Z;
  control_ops : list string;
}.

#[global] Instance registration_expand : Expand ModuleRegistration := λ r,
  mkModuleRegistration (manifest r) (ready r) (reg_negotiated_ver r) (reg_state r) (reg_connection r) (control_ops r).

Definition reg_id (r : ModuleRegistration) : string := module_id (manifest r).

Inductive RegistrationSlot :=
  | SlotActive (module_id : string)
  | SlotCandidate (module_id : string)
  | SlotConnection (connection_id : Z).

Inductive SlotKind := KindActive | KindCandidate | KindSuperseded.

#[global] Instance slot_kind_eq_dec : EqDecision SlotKind.
Proof. solve_decision. Defined.

Record RegistryCutover := mkRegistryCutover {
  promoted : ModuleRegistration;
  cut_superseded : option ModuleRegistration;
}.

Record RegistryInner := mkRegistryInner {
  module_changes : gmap string watch;
  reg_modules : gmap string ModuleRegistration;
  reg_candidates : gmap string ModuleRegistration;
  reg_superseded : list ModuleRegistration;
  nonce_verified : gset Z;
  superseded_by : gmap Z Z;
  unpublished : gset Z;
  reg_generation : Z;
}.

#[global] Instance registry_expand : Expand RegistryInner := λ t,
  mkRegistryInner (module_changes t) (reg_modules t) (reg_candidates t) (reg_superseded t) (nonce_verified t)
    (superseded_by t) (unpublished t) (reg_generation t).

Definition empty_registry : RegistryInner := mkRegistryInner ∅ ∅ ∅ [] ∅ ∅ ∅ 0.

Implicit Types (t : RegistryInner) (r : ModuleRegistration).

(** ** Helpers of the state *)

Definition owned_by (connection_id : Z) (r : ModuleRegistration) : bool := reg_connection r =? connection_id.

Definition send_change (f : Z → Z) t (id : string) : RegistryInner :=
  match module_changes t !! id with
  | Some sender => t <| module_changes := <[id := watch_send_modify f sender]> (module_changes t) |>
  | None => t
  end.

Definition notify_module_changed t (id : string) : RegistryInner := send_change (λ accepted, accepted) t id.

Definition bump_catalog t : RegistryInner := t <| reg_generation := wrap 64 (reg_generation t + 1) |>.

(** The first of [values().find(owned_by)]. *)
Definition find_owned (connection_id : Z) (m : gmap string ModuleRegistration) : option ModuleRegistration :=
  List.find (owned_by connection_id) (hash_iter m).*2.

Definition find_by_connection t (connection_id : Z) : option (SlotKind * ModuleRegistration) :=
  or_else ((λ r, (KindActive, r)) <$> find_owned connection_id (reg_modules t))
    (or_else ((λ r, (KindCandidate, r)) <$> find_owned connection_id (reg_candidates t))
       ((λ r, (KindSuperseded, r)) <$> List.find (owned_by connection_id) (reg_superseded t))).

(** [registration_mut] and an assignment through it. *)
Definition update_owned (f : ModuleRegistration → ModuleRegistration) (connection_id : Z)
    (m : gmap string ModuleRegistration) : option (gmap string ModuleRegistration) :=
  e ← List.find (λ e, owned_by connection_id e.2) (hash_iter m);
  Some (<[e.1 := f e.2]> m).

Fixpoint update_first (f : ModuleRegistration → ModuleRegistration) (connection_id : Z) (l : list ModuleRegistration)
    : option (list ModuleRegistration) :=
  match l with
  | [] => None
  | r :: l => if owned_by connection_id r then Some (f r :: l) else cons r <$> update_first f connection_id l
  end.

Definition registration_mut t (slot : SlotKind) (connection_id : Z) (f : ModuleRegistration → ModuleRegistration)
    : option RegistryInner :=
  match slot with
  | KindActive => m ← update_owned f connection_id (reg_modules t); Some (t <| reg_modules := m |>)
  | KindCandidate => m ← update_owned f connection_id (reg_candidates t); Some (t <| reg_candidates := m |>)
  | KindSuperseded => l ← update_first f connection_id (reg_superseded t); Some (t <| reg_superseded := l |>)
  end.

Definition close_registration (r : ModuleRegistration) : ModuleRegistration := r <| reg_state := ChannelClosed |>.

Definition close_module t (id : string) (listed : bool) : RegistryInner * option ModuleRegistration :=
  match reg_modules t !! id with
  | None => (t, None)
  | Some r =>
      let t := t <| reg_modules := delete id (reg_modules t) |> in
      (if listed then bump_catalog t else t, Some (close_registration r))
  end.

(** ** Operations *)

(** Subscribing first drops the senders nobody listens to. *)
Definition subscribe_module_changes t (id : string) : RegistryInner :=
  let kept := filter (λ e : string * watch, 0 < watch_receivers e.2) (module_changes t) in
  let sender := default (watch_channel 0) (kept !! id) in
  t <| module_changes := <[id := watch_subscribe sender]> kept |>.

Definition new_registration (m : ModuleManifest) (negotiated_ver connection_id : Z) (ops : list string) : ModuleRegistration :=
  mkModuleRegistration m (default true (manifest_ready m)) negotiated_ver ChannelActive connection_id ops.

Definition record_nonce t (connection_id : Z) (verified : bool) : RegistryInner :=
  t <| nonce_verified := if verified then {[connection_id]} ∪ nonce_verified t else nonce_verified t ∖ {[connection_id]} |>.

Definition register_active t (m : ModuleManifest) (negotiated_ver connection_id : Z) (ops : list string)
    (publish verified : bool) : RegistryInner * Result ModuleRegistration RegistryError :=
  let id := module_id m in
  match module_id_path_hazard id with
  | Err reason => (t, Err (PathHazardModuleId id reason))
  | Ok _ =>
      if is_some (reg_modules t !! id) then (t, Err (DuplicateModuleId id)) else
      let r := new_registration m negotiated_ver connection_id ops in
      let t := t <| reg_modules := <[id := r]> (reg_modules t) |> in
      let t := record_nonce t connection_id verified in
      let t := if publish then bump_catalog t else t <| unpublished := {[connection_id]} ∪ unpublished t |> in
      (send_change (λ accepted, wrap 64 (accepted + 1)) t (reg_id r), Ok r)
  end.

Definition register_with_control_ops t m negotiated_ver connection_id ops :=
  register_active t m negotiated_ver connection_id ops true false.

Definition register_unpublished_with_control_ops t m negotiated_ver connection_id ops :=
  register_active t m negotiated_ver connection_id ops false false.

Definition register_unpublished_verified_with_control_ops t m negotiated_ver connection_id ops verified :=
  register_active t m negotiated_ver connection_id ops false verified.

Definition register_candidate t (m : ModuleManifest) (negotiated_ver connection_id : Z) (ops : list string)
    (publish verified : bool) : RegistryInner * Result ModuleRegistration RegistryError :=
  let id := module_id m in
  match module_id_path_hazard id with
  | Err reason => (t, Err (PathHazardModuleId id reason))
  | Ok _ =>
      if is_some (reg_candidates t !! id) then (t, Err (DuplicateModuleId id)) else
      let r := new_registration m negotiated_ver connection_id ops in
      let t := t <| reg_candidates := <[id := r]> (reg_candidates t) |> in
      let t := record_nonce t connection_id verified in
      let t := if publish then t else t <| unpublished := {[connection_id]} ∪ unpublished t |> in
      (notify_module_changed t (reg_id r), Ok r)
  end.

Definition register_candidate_with_control_ops t m negotiated_ver connection_id ops :=
  register_candidate t m negotiated_ver connection_id ops true false.

Definition register_unpublished_candidate_with_control_ops t m negotiated_ver connection_id ops :=
  register_candidate t m negotiated_ver connection_id ops false false.

Definition register_unpublished_verified_candidate_with_control_ops t m negotiated_ver connection_id ops :=
  register_candidate t m negotiated_ver connection_id ops false true.

Definition publish_registration t (connection_id : Z) : RegistryInner * bool :=
  if decide (connection_id ∈ unpublished t) then
    let t := t <| unpublished := unpublished t ∖ {[connection_id]} |> in
    match find_by_connection t connection_id with
    | None => (t, false)
    | Some (slot, r) =>
        let t := match slot with KindActive => bump_catalog t | _ => t end in
        (notify_module_changed t (reg_id r), true)
    end
  else (t, false).

Definition promote_candidate t (id : string) : RegistryInner * option RegistryCutover :=
  match reg_candidates t !! id with
  | None => (t, None)
  | Some promoted =>
      let old := reg_modules t !! id in
      let t := t <| reg_candidates := delete id (reg_candidates t) |>
                 <| reg_modules := <[id := promoted]> (reg_modules t) |> in
      let t := match old with
               | Some s => t <| superseded_by := <[reg_connection s := reg_connection promoted]> (superseded_by t) |>
                             <| reg_superseded := reg_superseded t ++ [s] |>
               | None => t
               end in
      (notify_module_changed (bump_catalog t) id, Some (mkRegistryCutover promoted old))
  end.

(** The assignments through the reference. *)
Definition update_catalog (roles : list ProviderRole) (caps : option CapabilityDeclarations) (is_ready : option bool)
    (r : ModuleRegistration) : ModuleRegistration :=
  let r := r <| manifest := (manifest r) <| provides := roles |> |> in
  let r := match caps with
           | Some caps => r <| manifest := (manifest r) <| capabilities := Some caps |> |>
           | None => r
           end in
  match is_ready with
  | Some b => r <| ready := b |> <| manifest := (manifest r) <| manifest_ready := Some b |> |>
  | None => r
  end.

Definition replace_catalog_for_connection t (connection_id : Z) (roles : list ProviderRole)
    (caps : option CapabilityDeclarations) (is_ready : option bool) : option (RegistryInner * option ModuleRegistration) :=
  match find_by_connection t connection_id with
  | None => Some (t, None)
  | Some (slot, r) =>
      let f := update_catalog roles caps is_ready in
      let? t := registration_mut t slot connection_id f in
      let updated := f r in
      let t := match slot with
               | KindActive => if decide (connection_id ∈ unpublished t) then t else bump_catalog t
               | _ => t
               end in
      Some (notify_module_changed t (reg_id updated), Some updated)
  end.

(** The ids in a map that a connection holds, in the map's order. *)
Definition owned_ids (connection_id : Z) (m : gmap string ModuleRegistration) : list string :=
  (filter (λ e : string * ModuleRegistration, owned_by connection_id e.2) (hash_iter m)).*1.

Definition close_owned (listed : bool) (acc : RegistryInner * list ModuleRegistration) (id : string)
    : RegistryInner * list ModuleRegistration :=
  let '(t, closed) := acc in
  match close_module t id listed with
  | (t, Some r) => (t, closed ++ [r])
  | (t, None) => (t, closed)
  end.

Definition close_candidate (acc : RegistryInner * list ModuleRegistration) (id : string)
    : RegistryInner * list ModuleRegistration :=
  let '(t, closed) := acc in
  match reg_candidates t !! id with
  | Some r => (t <| reg_candidates := delete id (reg_candidates t) |>, closed ++ [close_registration r])
  | None => (t, closed)
  end.

(** One turn of the loop over the closed registrations: what it forgets, whom
    it wakes, and the end it logs. *)
Definition end_registration (reason : RegistrationEndReason) (replaced : gset Z)
    (acc : RegistryInner * list (string * string * option Z)) (r : ModuleRegistration)
    : RegistryInner * list (string * string * option Z) :=
  let '(t, ends) := acc in
  let t := t <| nonce_verified := nonce_verified t ∖ {[reg_connection r]} |> in
  let t := notify_module_changed t (reg_id r) in
  if decide (reg_connection r ∈ replaced) then
    (t <| superseded_by := delete (reg_connection r) (superseded_by t) |>,
     ends ++ [(reg_id r, end_reason_as_str Replaced, superseded_by t !! reg_connection r)])
  else (t, ends ++ [(reg_id r, end_reason_as_str reason, None)]).

Definition deregister_connection_with_reason t (connection_id : Z) (reason : RegistrationEndReason)
    : RegistryInner * list ModuleRegistration * list (string * string * option Z) :=
  let was_published := negb (bool_decide (connection_id ∈ unpublished t)) in
  let t := t <| unpublished := unpublished t ∖ {[connection_id]} |> in
  let '(t, closed) := foldl (close_owned was_published) (t, []) (owned_ids connection_id (reg_modules t)) in
  let '(t, closed) := foldl close_candidate (t, closed) (owned_ids connection_id (reg_candidates t)) in
  let removed := filter (λ r, owned_by connection_id r) (reg_superseded t) in
  let kept := filter (λ r, ¬ owned_by connection_id r) (reg_superseded t) in
  let replaced : gset Z := list_to_set (reg_connection <$> removed) in
  let t := t <| reg_superseded := kept |> in
  let closed := closed ++ (close_registration <$> removed) in
  let '(t, ends) := foldl (end_registration reason replaced) (t, []) closed in
  (t, closed, ends).

Definition deregister_connection t (connection_id : Z) :=
  deregister_connection_with_reason t connection_id ConnectionClosed.

(** ** Lookups *)

Definition get_module t (id : string) : option ModuleRegistration := reg_modules t !! id.

Definition get_candidate t (id : string) : option ModuleRegistration := reg_candidates t !! id.

Definition registration t (slot : RegistrationSlot) : option ModuleRegistration :=
  match slot with
  | SlotActive id => reg_modules t !! id
  | SlotCandidate id => reg_candidates t !! id
  | SlotConnection c => snd <$> find_by_connection t c
  end.

Definition is_published t r : bool := negb (bool_decide (reg_connection r ∈ unpublished t)).

Definition published_registration t (slot : RegistrationSlot) : option ModuleRegistration :=
  opt_filter (is_published t) (registration t slot).

Definition get_module_by_connection t (connection_id : Z) : option ModuleRegistration :=
  snd <$> find_by_connection t connection_id.

Definition active_registration_count t : nat := size (reg_modules t).

Definition id_le (a b : ModuleRegistration) : Prop := String.le (reg_id a) (reg_id b).

#[global] Instance id_le_dec : RelDecision id_le.
Proof. intros a b. unfold id_le. apply _. Defined.

Definition list_modules t : Z * list ModuleRegistration :=
  (reg_generation t, merge_sort id_le (filter (λ r, is_published t r) (hash_iter (reg_modules t)).*2)).

Definition list_modules_with_nonce_verification t : Z * list (ModuleRegistration * bool) :=
  (reg_generation t,
   (λ r, (r, bool_decide (reg_connection r ∈ nonce_verified t))) <$>
     merge_sort id_le (filter (λ r, is_published t r) (hash_iter (reg_modules t)).*2)).

Definition list_registered_modules t : list ModuleRegistration := merge_sort id_le (hash_iter (reg_modules t)).*2.

End registry.
