(* ===== verification/RegistryOk.v ===== *)
(** * The registry's invariant

    A connection holds at most one registration, whichever slot it sits in, and
    the sets beside the slots speak of connections that hold one. *)

From S2P Require Import Prelude Collections Registry.

Ltac registry_cbn :=
  cbn [module_changes reg_modules reg_candidates reg_superseded nonce_verified superseded_by unpublished reg_generation
       bump_catalog set_field fst snd].

Section registry_ok.
Context `{ManifestTypes} `{Watch} `{HashOrder}.
Implicit Types (t : RegistryInner) (r : ModuleRegistration).

Definition all_registrations t : list ModuleRegistration :=
  (map_to_list (reg_modules t)).*2 ++ (map_to_list (reg_candidates t)).*2 ++ reg_superseded t.

Definition connections t : list Z := reg_connection <$> all_registrations t.

Record registry_ok t : Prop := {
  ok_active_id id r : reg_modules t !! id = Some r → reg_id r = id;
  ok_candidate_id id r : reg_candidates t !! id = Some r → reg_id r = id;
  ok_connections : NoDup (connections t);
  ok_unpublished c : c ∈ unpublished t → c ∈ connections t;
  ok_nonce c : c ∈ nonce_verified t → c ∈ connections t;
  ok_superseded_by c : is_Some (superseded_by t !! c) ↔ c ∈ reg_connection <$> reg_superseded t;
  ok_generation : in_width 64 (reg_generation t);
}.

Definition holds t (slot : SlotKind) r : Prop :=
  match slot with
  | KindActive => reg_modules t !! reg_id r = Some r
  | KindCandidate => reg_candidates t !! reg_id r = Some r
  | KindSuperseded => r ∈ reg_superseded t
  end.

Lemma elem_of_map_values {V} (m : gmap string V) v : v ∈ (map_to_list m).*2 ↔ ∃ k, m !! k = Some v.
Proof.
  rewrite list_elem_of_fmap. split.
  - intros ([k v'] & -> & Hk%elem_of_map_to_list). by exists k.
  - intros [k Hk]. exists (k, v). by rewrite elem_of_map_to_list.
Qed.

Lemma elem_of_all t r :
  r ∈ all_registrations t ↔ (∃ id, reg_modules t !! id = Some r) ∨ (∃ id, reg_candidates t !! id = Some r) ∨ r ∈ reg_superseded t.
Proof. unfold all_registrations. rewrite !elem_of_app, !elem_of_map_values. done. Qed.

Lemma holds_all t slot r : holds t slot r → r ∈ all_registrations t.
Proof. rewrite elem_of_all. destruct slot; simpl; eauto. Qed.

Lemma all_holds t r : registry_ok t → r ∈ all_registrations t → ∃ slot, holds t slot r.
Proof.
  intros Hok. rewrite elem_of_all. intros [[id Hr]|[[id Hr]|Hr]].
  - exists KindActive. simpl. by rewrite (ok_active_id t Hok id r Hr).
  - exists KindCandidate. simpl. by rewrite (ok_candidate_id t Hok id r Hr).
  - by exists KindSuperseded.
Qed.

Lemma holds_connection t slot r : holds t slot r → reg_connection r ∈ connections t.
Proof. intros Hr%holds_all. by apply list_elem_of_fmap_2. Qed.

(** ** One registration per connection *)

Lemma NoDup_fmap_elem {A B} (f : A → B) l x y : NoDup (f <$> l) → x ∈ l → y ∈ l → f x = f y → x = y.
Proof.
  induction l as [|z l IH]; rewrite ?fmap_cons; [by intros _ ?%elem_of_nil|].
  intros [Hz Hl]%NoDup_cons Hx Hy Hf. rewrite elem_of_cons in Hx, Hy.
  destruct Hx as [->|Hx], Hy as [->|Hy]; [done|..|by apply IH]; exfalso; apply Hz.
  - rewrite Hf. by apply list_elem_of_fmap_2.
  - rewrite <-Hf. by apply list_elem_of_fmap_2.
Qed.

Lemma connection_unique t r r' :
  registry_ok t → r ∈ all_registrations t → r' ∈ all_registrations t → reg_connection r = reg_connection r' → r = r'.
Proof. intros Hok. apply NoDup_fmap_elem, Hok. Qed.

Lemma slot_unique t slot slot' r r' :
  registry_ok t → holds t slot r → holds t slot' r' → reg_connection r = reg_connection r' → slot = slot' ∧ r = r'.
Proof.
  intros Hok Hr Hr' Hc. pose proof (connection_unique t r r' Hok (holds_all _ _ _ Hr) (holds_all _ _ _ Hr') Hc) as <-.
  split; [|done]. pose proof (ok_connections t Hok) as Hnd. unfold connections, all_registrations in Hnd.
  rewrite !fmap_app in Hnd. apply NoDup_app in Hnd as (_ & Hd1 & (_ & Hd2 & _)%NoDup_app).
  assert (∀ id, reg_modules t !! id = Some r → reg_connection r ∈ reg_connection <$> (map_to_list (reg_modules t)).*2) as Ha.
  { intros id Hid. apply list_elem_of_fmap_2, elem_of_map_values. by exists id. }
  assert (∀ id, reg_candidates t !! id = Some r → reg_connection r ∈ reg_connection <$> (map_to_list (reg_candidates t)).*2) as Hb.
  { intros id Hid. apply list_elem_of_fmap_2, elem_of_map_values. by exists id. }
  assert (r ∈ reg_superseded t → reg_connection r ∈ reg_connection <$> reg_superseded t) as Hs by apply list_elem_of_fmap_2.
  destruct slot, slot'; simpl in *; try done; exfalso.
  - apply (Hd1 _ (Ha _ Hr)). apply elem_of_app. left. by eapply Hb.
  - apply (Hd1 _ (Ha _ Hr)). apply elem_of_app. right. by apply Hs.
  - apply (Hd1 _ (Ha _ Hr')). apply elem_of_app. left. by eapply Hb.
  - apply (Hd2 _ (Hb _ Hr)). by apply Hs.
  - apply (Hd1 _ (Ha _ Hr')). apply elem_of_app. right. by apply Hs.
  - apply (Hd2 _ (Hb _ Hr')). by apply Hs.
Qed.

(** ** Finding a connection's registration *)

Lemma elem_of_hash_values {V} (m : gmap string V) v : v ∈ (hash_iter m).*2 ↔ ∃ k, m !! k = Some v.
Proof. rewrite hash_iter_perm. apply elem_of_map_values. Qed.

Lemma find_Some {A} (p : A → bool) l a : List.find p l = Some a → a ∈ l ∧ p a = true.
Proof. intros [Hin Hp]%List.find_some. split; [by apply list_elem_of_In|done]. Qed.

Lemma find_None {A} (p : A → bool) l a : List.find p l = None → a ∈ l → p a = false.
Proof. intros Hf Ha%list_elem_of_In. by eapply List.find_none. Qed.

Lemma find_owned_Some c m r : find_owned c m = Some r → (∃ id, m !! id = Some r) ∧ reg_connection r = c.
Proof. intros [Hin Hp]%find_Some. split; [by apply elem_of_hash_values|]. by apply Z.eqb_eq. Qed.

Lemma find_owned_None c m id r : find_owned c m = None → m !! id = Some r → reg_connection r ≠ c.
Proof.
  intros Hf Hr. apply Z.eqb_neq. eapply (find_None (owned_by c)); [exact Hf|]. apply elem_of_hash_values. by exists id.
Qed.

Lemma find_by_connection_Some t c slot r :
  registry_ok t → find_by_connection t c = Some (slot, r) ↔ holds t slot r ∧ reg_connection r = c.
Proof.
  intros Hok.
  assert (∀ slot r, find_by_connection t c = Some (slot, r) → holds t slot r ∧ reg_connection r = c) as Hfind.
  { clear slot r. intros slot r. unfold find_by_connection.
    destruct (find_owned c (reg_modules t)) as [a|] eqn:Ha; simpl.
    { intros [= <- <-]. apply find_owned_Some in Ha as [[id Hid] Hc]. simpl. by rewrite (ok_active_id t Hok _ _ Hid). }
    destruct (find_owned c (reg_candidates t)) as [b|] eqn:Hb; simpl.
    { intros [= <- <-]. apply find_owned_Some in Hb as [[id Hid] Hc]. simpl. by rewrite (ok_candidate_id t Hok _ _ Hid). }
    destruct (List.find _ _) as [s|] eqn:Hs; simpl; [|done]. intros [= <- <-]. apply find_Some in Hs as [Hin Hc].
    split; [done|]. by apply Z.eqb_eq. }
  split; [apply Hfind|]. intros [Hr <-]. destruct (find_by_connection t (reg_connection r)) as [[slot' r']|] eqn:Hf.
  - destruct (Hfind slot' r' eq_refl) as [Hr' Hc]. by destruct (slot_unique t slot' slot r' r Hok Hr' Hr Hc) as [-> ->].
  - exfalso. unfold find_by_connection in Hf.
    destruct (find_owned _ (reg_modules t)) eqn:Ha; [done|]. destruct (find_owned _ (reg_candidates t)) eqn:Hb; [done|].
    destruct (List.find _ _) eqn:Hs; [done|]. destruct slot; simpl in Hr.
    + by apply (find_owned_None _ _ _ _ Ha Hr).
    + by apply (find_owned_None _ _ _ _ Hb Hr).
    + apply (find_None _ _ _ Hs) in Hr. unfold owned_by in Hr. by rewrite Z.eqb_refl in Hr.
Qed.

Lemma find_by_connection_None t c : registry_ok t → find_by_connection t c = None ↔ c ∉ connections t.
Proof.
  intros Hok. split.
  - intros Hf (r & -> & Hr)%list_elem_of_fmap. apply (all_holds t r Hok) in Hr as [slot Hr].
    pose proof (proj2 (find_by_connection_Some t _ slot r Hok) (conj Hr eq_refl)). congruence.
  - intros Hc. destruct (find_by_connection t c) as [[slot r]|] eqn:Hf; [|done].
    apply (find_by_connection_Some t c slot r Hok) in Hf as [Hr <-]. by destruct Hc; eapply holds_connection.
Qed.

(** ** What an operation leaves *)

(** The parts the invariant and the catalog read. *)
Definition same_slots t t' : Prop :=
  reg_modules t' = reg_modules t ∧ reg_candidates t' = reg_candidates t ∧ reg_superseded t' = reg_superseded t ∧
  nonce_verified t' = nonce_verified t ∧ superseded_by t' = superseded_by t ∧ unpublished t' = unpublished t.

Lemma registry_ok_same t t' : same_slots t t' → in_width 64 (reg_generation t') → registry_ok t → registry_ok t'.
Proof.
  intros (Hm & Hc & Hs & Hn & Hb & Hu) Hg [? ? ? ? ? ? ?].
  assert (connections t' = connections t) as Hcon by (unfold connections, all_registrations; by rewrite Hm, Hc, Hs).
  split; rewrite ?Hm, ?Hc, ?Hs, ?Hn, ?Hb, ?Hu, ?Hcon; done.
Qed.

Lemma send_change_slots f t id : same_slots t (send_change f t id) ∧ reg_generation (send_change f t id) = reg_generation t.
Proof. unfold send_change. by destruct (module_changes t !! id). Qed.

Lemma registry_ok_send f t id : registry_ok t → registry_ok (send_change f t id).
Proof.
  intros Hok. destruct (send_change_slots f t id) as [Hs Hg]. eapply registry_ok_same; [exact Hs| |done]. rewrite Hg. apply Hok.
Qed.

Lemma registry_ok_bump t : registry_ok t → registry_ok (bump_catalog t).
Proof. intros Hok. eapply registry_ok_same; [|apply wrap_in_width; lia|exact Hok]. done. Qed.

Lemma map_values_insert {V} (m : gmap string V) k v :
  m !! k = None → (map_to_list (<[k := v]> m)).*2 ≡ₚ v :: (map_to_list m).*2.
Proof. intros Hk. by rewrite map_to_list_insert. Qed.

Lemma map_values_delete {V} (m : gmap string V) k v :
  m !! k = Some v → (map_to_list m).*2 ≡ₚ v :: (map_to_list (delete k m)).*2.
Proof. intros Hk. rewrite <-(map_to_list_delete m k v) by done. done. Qed.

(** A registration more, of a connection that held none. *)
Lemma registry_ok_added t t' r :
  registry_ok t → all_registrations t' ≡ₚ r :: all_registrations t → reg_connection r ∉ connections t →
  (∀ id x, reg_modules t' !! id = Some x → reg_id x = id) → (∀ id x, reg_candidates t' !! id = Some x → reg_id x = id) →
  (∀ c, c ∈ unpublished t' → c = reg_connection r ∨ c ∈ unpublished t) →
  (∀ c, c ∈ nonce_verified t' → c = reg_connection r ∨ c ∈ nonce_verified t) →
  reg_superseded t' = reg_superseded t → superseded_by t' = superseded_by t → in_width 64 (reg_generation t') →
  registry_ok t'.
Proof.
  intros Hok Hall Hnew Hm Hc Hu Hn Hs Hb Hg.
  assert (connections t' ≡ₚ reg_connection r :: connections t) as Hcon by (unfold connections; by rewrite Hall).
  assert (∀ c (X : gset Z), (∀ c, c ∈ X → c ∈ connections t) → c = reg_connection r ∨ c ∈ X → c ∈ connections t') as Hin.
  { intros c X HX. rewrite Hcon, elem_of_cons. intros [->|Hc']; [by left|right; by apply HX]. }
  split; [done|done|..].
  - rewrite Hcon. apply NoDup_cons. split; [done|apply Hok].
  - intros c Hc'. apply (Hin c _ (ok_unpublished t Hok)). by apply Hu.
  - intros c Hc'. apply (Hin c _ (ok_nonce t Hok)). by apply Hn.
  - intros c. rewrite Hs, Hb. apply Hok.
  - done.
Qed.

Lemma record_nonce_elem t c verified x : x ∈ nonce_verified (record_nonce t c verified) → x = c ∨ x ∈ nonce_verified t.
Proof. unfold record_nonce. destruct verified; simpl; set_solver. Qed.

Lemma register_active_ok t m ver c ops publish verified :
  registry_ok t → c ∉ connections t → registry_ok (register_active t m ver c ops publish verified).1.
Proof.
  intros Hok Hc. unfold register_active. destruct (module_id_path_hazard _); [|done].
  destruct (reg_modules t !! module_id m) as [|] eqn:Hm; [done|]. cbn [is_some fst].
  apply registry_ok_send. set (r := new_registration m ver c ops).
  apply (registry_ok_added t _ r); [done|..].
  - destruct publish; unfold all_registrations; simpl; by rewrite map_values_insert.
  - done.
  - assert (∀ id x, <[module_id m := r]> (reg_modules t) !! id = Some x → reg_id x = id) as Hid.
    { intros id x [[<- <-]|[_ Hx]]%lookup_insert_Some; [done|by apply Hok]. }
    by destruct publish.
  - destruct publish; simpl; apply Hok.
  - destruct publish; simpl; set_solver.
  - intros x. destruct publish; simpl; apply (record_nonce_elem t c verified).
  - by destruct publish.
  - by destruct publish.
  - destruct publish; simpl; [by apply wrap_in_width|apply Hok].
Qed.

Lemma register_candidate_ok t m ver c ops publish verified :
  registry_ok t → c ∉ connections t → registry_ok (register_candidate t m ver c ops publish verified).1.
Proof.
  intros Hok Hc. unfold register_candidate. destruct (module_id_path_hazard _); [|done].
  destruct (reg_candidates t !! module_id m) as [|] eqn:Hm; [done|]. cbn [is_some fst].
  apply registry_ok_send. set (r := new_registration m ver c ops).
  apply (registry_ok_added t _ r); [done|..].
  - destruct publish; unfold all_registrations; simpl; rewrite map_values_insert by done; symmetry; apply Permutation_middle.
  - done.
  - destruct publish; simpl; apply Hok.
  - assert (∀ id x, <[module_id m := r]> (reg_candidates t) !! id = Some x → reg_id x = id) as Hid.
    { intros id x [[<- <-]|[_ Hx]]%lookup_insert_Some; [done|by apply (ok_candidate_id t Hok)]. }
    by destruct publish.
  - destruct publish; simpl; set_solver.
  - intros x. destruct publish; simpl; apply (record_nonce_elem t c verified).
  - by destruct publish.
  - by destruct publish.
  - destruct publish; simpl; apply Hok.
Qed.

Lemma publish_registration_ok t c : registry_ok t → registry_ok (publish_registration t c).1.
Proof.
  intros Hok. unfold publish_registration. destruct (decide _) as [Hc|]; [|done].
  assert (registry_ok (t <| unpublished := unpublished t ∖ {[c]} |>)) as Hok'.
  { destruct Hok. split; try done. simpl. intros x Hx. apply ok_unpublished0. set_solver. }
  destruct (find_by_connection _ c) as [[slot r]|]; [|done]. cbn [fst]. apply registry_ok_send.
  destruct slot; [by apply registry_ok_bump|done..].
Qed.

(** The slots rearranged: the same registrations, as connections see them. *)
Lemma registry_ok_moved t t' :
  registry_ok t → connections t' ≡ₚ connections t →
  (∀ id x, reg_modules t' !! id = Some x → reg_id x = id) → (∀ id x, reg_candidates t' !! id = Some x → reg_id x = id) →
  unpublished t' = unpublished t → nonce_verified t' = nonce_verified t →
  (∀ c, is_Some (superseded_by t' !! c) ↔ c ∈ reg_connection <$> reg_superseded t') → in_width 64 (reg_generation t') →
  registry_ok t'.
Proof.
  intros Hok Hcon Hm Hc Hu Hn Hb Hg. split; try done.
  - rewrite Hcon. apply Hok.
  - intros c. rewrite Hu, Hcon. apply Hok.
  - intros c. rewrite Hn, Hcon. apply Hok.
Qed.

Lemma promote_candidate_ok t id : registry_ok t → registry_ok (promote_candidate t id).1.
Proof.
  intros Hok. unfold promote_candidate. destruct (reg_candidates t !! id) as [p|] eqn:Hp; [|done]. cbn [fst].
  apply registry_ok_send, registry_ok_bump.
  assert (∀ i x, <[id := p]> (reg_modules t) !! i = Some x → reg_id x = i) as Hm.
  { intros i x [[<- <-]|[_ Hx]]%lookup_insert_Some; [by apply (ok_candidate_id t Hok)|by apply Hok]. }
  assert (∀ i x, delete id (reg_candidates t) !! i = Some x → reg_id x = i) as Hc.
  { intros i x [_ Hx]%lookup_delete_Some. by apply (ok_candidate_id t Hok). }
  destruct (reg_modules t !! id) as [s|] eqn:Hs; (eapply (registry_ok_moved t); [done| |done|done|done|done| |apply Hok]).
  - unfold connections, all_registrations. simpl. apply Permutation_map.
    rewrite <-(insert_delete_id _ _ _ Hs) at 2.
    rewrite <-insert_delete_eq, !map_values_insert by apply lookup_delete_None, or_introl, eq_refl.
    rewrite (map_values_delete _ _ _ Hp). solve_Permutation.
  - intros c. simpl. rewrite fmap_app, elem_of_app. simpl. rewrite list_elem_of_singleton, <-(ok_superseded_by t Hok c).
    rewrite lookup_insert_is_Some'. naive_solver.
  - unfold connections, all_registrations. simpl. apply Permutation_map.
    rewrite map_values_insert by done. rewrite (map_values_delete _ _ _ Hp). solve_Permutation.
  - apply Hok.
Qed.

(** ** Writing through [registration_mut] *)

Lemma update_owned_spec f c m r id :
  (∀ i x, m !! i = Some x → reg_connection x = c → i = id) → m !! id = Some r → reg_connection r = c →
  update_owned f c m = Some (<[id := f r]> m).
Proof.
  intros Huniq Hr Hc. unfold update_owned. destruct (List.find _ _) as [[i x]|] eqn:Hf; simpl.
  - apply find_Some in Hf as [Hin%elem_of_hash_iter Hx%Z.eqb_eq]. simpl in Hx.
    pose proof (Huniq i x Hin Hx) as ->. rewrite Hr in Hin. by injection Hin as ->.
  - apply (find_None _ _ (id, r)) in Hf; [|by apply elem_of_hash_iter]. simpl in Hf. unfold owned_by in Hf. by apply Z.eqb_neq in Hf.
Qed.

Lemma update_first_spec f c l r :
  r ∈ l → reg_connection r = c → (∀ x, x ∈ l → reg_connection x = c → x = r) →
  ∃ l1 l2, l = l1 ++ r :: l2 ∧ update_first f c l = Some (l1 ++ f r :: l2).
Proof.
  intros Hin Hc. induction l as [|x l IH]; [by apply elem_of_nil in Hin|]. intros Huniq. simpl. unfold owned_by.
  destruct (reg_connection x =? c) eqn:Hx.
  - apply Z.eqb_eq in Hx. rewrite (Huniq x) by (by left || done). by exists [], l.
  - apply elem_of_cons in Hin as [->|Hin]; [by apply Z.eqb_neq in Hx|].
    destruct IH as (l1 & l2 & -> & ->); [done|intros y Hy; apply Huniq; by right|]. by exists (x :: l1), l2.
Qed.

Definition written t (slot : SlotKind) r r' (t' : RegistryInner) : Prop :=
  match slot with
  | KindActive => t' = t <| reg_modules := <[reg_id r := r']> (reg_modules t) |>
  | KindCandidate => t' = t <| reg_candidates := <[reg_id r := r']> (reg_candidates t) |>
  | KindSuperseded => ∃ l1 l2, reg_superseded t = l1 ++ r :: l2 ∧ t' = t <| reg_superseded := l1 ++ r' :: l2 |>
  end.

Lemma registration_mut_spec t slot c r f :
  registry_ok t → find_by_connection t c = Some (slot, r) →
  ∃ t', registration_mut t slot c f = Some t' ∧ written t slot r (f r) t'.
Proof.
  intros Hok [Hr Hc]%find_by_connection_Some; [|done]. pose proof (slot_unique t slot slot r) as Huniq.
  destruct slot; unfold registration_mut; simpl in *.
  - rewrite (update_owned_spec f c _ r (reg_id r)); [by eexists|..|done|done].
    intros i x Hx Hcx. destruct (Huniq x Hok Hr) as [_ ->]; [simpl; by rewrite (ok_active_id t Hok _ _ Hx)|by rewrite Hc, Hcx|].
    symmetry. by apply (ok_active_id t Hok).
  - rewrite (update_owned_spec f c _ r (reg_id r)); [by eexists|..|done|done].
    intros i x Hx Hcx. destruct (Huniq x Hok Hr) as [_ ->]; [simpl; by rewrite (ok_candidate_id t Hok _ _ Hx)|by rewrite Hc, Hcx|].
    symmetry. by apply (ok_candidate_id t Hok).
  - destruct (update_first_spec f c (reg_superseded t) r Hr Hc) as (l1 & l2 & Hl & ->).
    + intros x Hx Hcx. destruct (Huniq x Hok Hr Hx) as [_ ->]; [by rewrite Hc, Hcx|done].
    + simpl. eexists. split; [done|]. by exists l1, l2.
Qed.

Lemma written_connections t slot r r' t' :
  holds t slot r → written t slot r r' t' → reg_connection r' = reg_connection r → connections t' ≡ₚ connections t.
Proof.
  intros Hr Hw Hc.
  assert (∀ m : gmap string ModuleRegistration, m !! reg_id r = Some r →
    reg_connection <$> (map_to_list (<[reg_id r := r']> m)).*2 ≡ₚ reg_connection <$> (map_to_list m).*2) as Hperm.
  { intros m Hm. rewrite <-insert_delete_eq, map_values_insert by apply lookup_delete_None, or_introl, eq_refl.
    rewrite (map_values_delete _ _ _ Hm). simpl. by rewrite Hc. }
  unfold connections, all_registrations. destruct slot; simpl in Hr, Hw.
  - subst t'. simpl. by rewrite !fmap_app, Hperm.
  - subst t'. simpl. by rewrite !fmap_app, Hperm.
  - destruct Hw as (l1 & l2 & Hl & ->). simpl. by rewrite Hl, !fmap_app, !fmap_cons, Hc.
Qed.

Lemma written_ok t slot r r' t' :
  registry_ok t → holds t slot r → written t slot r r' t' → reg_connection r' = reg_connection r → reg_id r' = reg_id r →
  registry_ok t'.
Proof.
  intros Hok Hr Hw Hc Hid. pose proof (written_connections t slot r r' t' Hr Hw Hc) as Hperm.
  destruct slot; simpl in Hr, Hw; [subst t'|subst t'|destruct Hw as (l1 & l2 & Hl & ->)];
    (apply (registry_ok_moved t); try done; try apply Hok).
  - simpl. intros i x [[<- <-]|[_ Hx]]%lookup_insert_Some; [done|by apply Hok].
  - simpl. intros i x [[<- <-]|[_ Hx]]%lookup_insert_Some; [done|by apply (ok_candidate_id t Hok)].
  - intros c. simpl. rewrite fmap_app, fmap_cons, Hc, (ok_superseded_by t Hok c), Hl, fmap_app, fmap_cons. done.
Qed.

Lemma update_catalog_keeps roles caps is_ready r :
  reg_connection (update_catalog roles caps is_ready r) = reg_connection r ∧ reg_id (update_catalog roles caps is_ready r) = reg_id r.
Proof. by destruct r as [[] ? ? ? ? ?], caps, is_ready. Qed.

(** The [expect] of the update never fires. *)
Lemma replace_catalog_spec t c roles caps is_ready :
  registry_ok t →
  match find_by_connection t c with
  | None => replace_catalog_for_connection t c roles caps is_ready = Some (t, None)
  | Some (slot, r) =>
      ∃ t', written t slot r (update_catalog roles caps is_ready r) t' ∧
        replace_catalog_for_connection t c roles caps is_ready =
        Some (notify_module_changed
                match slot with
                | KindActive => if decide (c ∈ unpublished t) then t' else bump_catalog t'
                | _ => t'
                end (reg_id r), Some (update_catalog roles caps is_ready r))
  end.
Proof.
  intros Hok. unfold replace_catalog_for_connection. destruct (find_by_connection t c) as [[slot r]|] eqn:Hf; [|done].
  destruct (registration_mut_spec t slot c r (update_catalog roles caps is_ready) Hok Hf) as (t' & Ht' & Hw).
  rewrite Ht'. exists t'. split; [done|].
  assert (unpublished t' = unpublished t) as -> by (destruct slot; simpl in Hw; [by subst|by subst|by destruct Hw as (? & ? & _ & ->)]).
  destruct (update_catalog_keeps roles caps is_ready r) as [_ ->]. done.
Qed.

Lemma replace_catalog_ok t c roles caps is_ready t' answer :
  registry_ok t → replace_catalog_for_connection t c roles caps is_ready = Some (t', answer) → registry_ok t'.
Proof.
  intros Hok. pose proof (replace_catalog_spec t c roles caps is_ready Hok) as Hs.
  destruct (find_by_connection t c) as [[slot x]|] eqn:Hf; [|rewrite Hs; by intros [= <- <-]].
  destruct Hs as (t1 & Hw & ->). intros [= <- _]. apply registry_ok_send.
  apply find_by_connection_Some in Hf as [Hx _]; [|done].
  destruct (update_catalog_keeps roles caps is_ready x) as [Hc Hid].
  pose proof (written_ok t slot x _ t1 Hok Hx Hw Hc Hid) as Hok1.
  destruct slot; [|done|done]. destruct (decide _); [done|by apply registry_ok_bump].
Qed.

(** ** A connection that goes away *)

Lemma elem_of_owned_ids c m id : id ∈ owned_ids c m ↔ ∃ r, m !! id = Some r ∧ reg_connection r = c.
Proof.
  unfold owned_ids. rewrite list_elem_of_fmap. split.
  - intros ([i r] & -> & [Hc Hin%elem_of_hash_iter]%list_elem_of_filter). exists r. split; [done|]. by apply Z.eqb_eq, Is_true_true.
  - intros (r & Hr & Hc). exists (id, r). split; [done|]. apply list_elem_of_filter. split; [by apply Is_true_true, Z.eqb_eq|].
    by apply elem_of_hash_iter.
Qed.

Lemma NoDup_owned_ids c m : NoDup (owned_ids c m).
Proof. unfold owned_ids. eapply sublist_NoDup; [apply (NoDup_fst_hash_iter m)|]. apply fmap_sublist, sublist_filter. Qed.

Lemma NoDup_singleton_list {A} (l : list A) a : NoDup l → (∀ x, x ∈ l ↔ x = a) → l = [a].
Proof.
  intros Hnd Hl. destruct l as [|x l]; [by destruct (proj1 (elem_of_nil a)); apply Hl|].
  assert (x = a) as -> by (apply Hl; by left). f_equal. apply NoDup_cons in Hnd as [Hx _].
  destruct l as [|y l]; [done|]. destruct Hx. assert (y = a) as -> by (apply Hl; right; by left). by left.
Qed.

Lemma owned_ids_slot kind m t c slot r :
  registry_ok t → find_by_connection t c = Some (slot, r) → (∀ id x, m !! id = Some x ↔ holds t kind x ∧ reg_id x = id) →
  owned_ids c m = if decide (slot = kind) then [reg_id r] else [].
Proof.
  intros Hok [Hr Hc]%find_by_connection_Some Hm; [|done].
  assert (∀ id, id ∈ owned_ids c m ↔ slot = kind ∧ id = reg_id r) as Hin.
  { intros id. rewrite elem_of_owned_ids. split.
    - intros (x & [Hx <-]%Hm & Hcx). destruct (slot_unique t slot kind r x Hok Hr Hx) as [-> ->]; [by rewrite Hc, Hcx|done].
    - intros [-> ->]. exists r. by rewrite Hm. }
  destruct (decide (slot = kind)) as [->|Hne].
  - apply NoDup_singleton_list; [apply NoDup_owned_ids|]. intros x. rewrite Hin. naive_solver.
  - apply elem_of_nil_inv. intros x Hx%Hin. by destruct Hx.
Qed.

Lemma active_holds t id x : registry_ok t → reg_modules t !! id = Some x ↔ holds t KindActive x ∧ reg_id x = id.
Proof.
  intros Hok. simpl. split; [|by intros [Hx <-]]. intros Hx. by rewrite (ok_active_id t Hok id x Hx).
Qed.

Lemma candidate_holds t id x : registry_ok t → reg_candidates t !! id = Some x ↔ holds t KindCandidate x ∧ reg_id x = id.
Proof.
  intros Hok. simpl. split; [|by intros [Hx <-]]. intros Hx. by rewrite (ok_candidate_id t Hok id x Hx).
Qed.

Lemma owned_superseded t c slot r :
  registry_ok t → find_by_connection t c = Some (slot, r) →
  filter (λ r, owned_by c r) (reg_superseded t) = match slot with KindSuperseded => [r] | _ => [] end.
Proof.
  intros Hok [Hr Hc]%find_by_connection_Some; [|done].
  assert (∀ x, x ∈ filter (λ r, owned_by c r) (reg_superseded t) ↔ slot = KindSuperseded ∧ x = r) as Hin.
  { intros x. rewrite list_elem_of_filter. split.
    - intros [Hcx%Is_true_true%Z.eqb_eq Hx].
      destruct (slot_unique t slot KindSuperseded r x Hok Hr Hx) as [-> ->]; [by rewrite Hc, Hcx|done].
    - intros [-> ->]. split; [by apply Is_true_true, Z.eqb_eq|done]. }
  destruct slot.
  - apply elem_of_nil_inv. intros x Hx%Hin. by destruct Hx.
  - apply elem_of_nil_inv. intros x Hx%Hin. by destruct Hx.
  - apply NoDup_singleton_list; [|intros x; rewrite Hin; naive_solver].
    apply NoDup_filter. pose proof (ok_connections t Hok) as Hnd. unfold connections, all_registrations in Hnd.
    apply NoDup_fmap_1 in Hnd. by apply NoDup_app in Hnd as (_ & _ & (_ & _ & ?)%NoDup_app).
Qed.

(** What is left when the connection [c] goes, which held [r] in [slot]. *)
Definition gone t (slot : SlotKind) r : RegistryInner :=
  let c := reg_connection r in
  let listed := bool_decide (c ∉ unpublished t) in
  let t := t <| unpublished := unpublished t ∖ {[c]} |> <| nonce_verified := nonce_verified t ∖ {[c]} |> in
  match slot with
  | KindActive =>
      let t := t <| reg_modules := delete (reg_id r) (reg_modules t) |> in
      if listed then bump_catalog t else t
  | KindCandidate => t <| reg_candidates := delete (reg_id r) (reg_candidates t) |>
  | KindSuperseded =>
      t <| reg_superseded := filter (λ x, ¬ owned_by c x) (reg_superseded t) |>
        <| superseded_by := delete c (superseded_by t) |>
  end.

Definition logged_end t (slot : SlotKind) r (reason : RegistrationEndReason) : string * string * option Z :=
  match slot with
  | KindSuperseded => (reg_id r, end_reason_as_str Replaced, superseded_by t !! reg_connection r)
  | _ => (reg_id r, end_reason_as_str reason, None)
  end.

Lemma filter_none {A} (P : A → Prop) `{∀ x, Decision (P x)} l : filter P l = [] → filter (λ x, ¬ P x) l = l.
Proof.
  induction l as [|x l IH]; [done|]. rewrite !filter_cons. destruct (decide (P x)); [done|].
  rewrite decide_True by done. intros Hl. by rewrite IH.
Qed.

Lemma deregister_active t r reason :
  owned_ids (reg_connection r) (reg_modules t) = [reg_id r] → owned_ids (reg_connection r) (reg_candidates t) = [] →
  filter (λ x, owned_by (reg_connection r) x) (reg_superseded t) = [] → reg_modules t !! reg_id r = Some r →
  deregister_connection_with_reason t (reg_connection r) reason =
  (notify_module_changed (gone t KindActive r) (reg_id r), [close_registration r], [logged_end t KindActive r reason]).
Proof.
  destruct t as [ch ms cs ss nv sb up g]. cbn [reg_modules reg_candidates reg_superseded]. intros Ha Hb Hs Hr.
  unfold deregister_connection_with_reason. registry_cbn. rewrite Ha. cbn [foldl close_owned]. unfold close_module.
  registry_cbn. rewrite Hr. unfold gone. registry_cbn. rewrite bool_decide_not.
  destruct (negb _); registry_cbn; rewrite Hb; cbn [foldl app]; registry_cbn; rewrite Hs, (filter_none _ _ Hs);
    cbn [foldl app fmap list_fmap list_to_set end_registration]; rewrite decide_False by set_solver; done.
Qed.

Lemma deregister_candidate t r reason :
  owned_ids (reg_connection r) (reg_modules t) = [] → owned_ids (reg_connection r) (reg_candidates t) = [reg_id r] →
  filter (λ x, owned_by (reg_connection r) x) (reg_superseded t) = [] → reg_candidates t !! reg_id r = Some r →
  deregister_connection_with_reason t (reg_connection r) reason =
  (notify_module_changed (gone t KindCandidate r) (reg_id r), [close_registration r], [logged_end t KindCandidate r reason]).
Proof.
  intros Ha Hb Hs Hr. unfold deregister_connection_with_reason. cbn [reg_modules set_field]. rewrite Ha.
  cbn [foldl reg_candidates set_field]. rewrite Hb. cbn [foldl close_candidate reg_candidates]. rewrite Hr.
  cbn [reg_superseded set_field]. rewrite Hs, (filter_none _ _ Hs).
  cbn [foldl app fmap list_fmap list_to_set end_registration]. rewrite decide_False by set_solver. done.
Qed.

Lemma deregister_superseded t r reason :
  owned_ids (reg_connection r) (reg_modules t) = [] → owned_ids (reg_connection r) (reg_candidates t) = [] →
  filter (λ x, owned_by (reg_connection r) x) (reg_superseded t) = [r] →
  deregister_connection_with_reason t (reg_connection r) reason =
  (notify_module_changed (gone t KindSuperseded r) (reg_id r), [close_registration r], [logged_end t KindSuperseded r reason]).
Proof.
  intros Ha Hb Hs. unfold deregister_connection_with_reason. cbn [reg_modules set_field]. rewrite Ha.
  cbn [foldl reg_candidates set_field]. rewrite Hb. cbn [foldl reg_superseded]. rewrite Hs.
  cbn [foldl app fmap list_fmap list_to_set end_registration]. rewrite decide_True by (simpl; set_solver).
  unfold notify_module_changed, send_change. cbn [reg_connection close_registration set_field].
  change (reg_id (close_registration r)) with (reg_id r). cbn [module_changes gone set_field].
  by destruct (module_changes t !! reg_id r).
Qed.

Lemma deregister_found t c slot r reason :
  registry_ok t → find_by_connection t c = Some (slot, r) →
  deregister_connection_with_reason t c reason =
  (notify_module_changed (gone t slot r) (reg_id r), [close_registration r], [logged_end t slot r reason]).
Proof.
  intros Hok Hf.
  pose proof (owned_ids_slot KindActive (reg_modules t) t c slot r Hok Hf (λ id x, active_holds t id x Hok)) as Ha.
  pose proof (owned_ids_slot KindCandidate (reg_candidates t) t c slot r Hok Hf (λ id x, candidate_holds t id x Hok)) as Hb.
  pose proof (owned_superseded t c slot r Hok Hf) as Hs. apply find_by_connection_Some in Hf as [Hr <-]; [|done].
  destruct slot; [by apply deregister_active|by apply deregister_candidate|by apply deregister_superseded].
Qed.

Lemma deregister_none t c reason :
  registry_ok t → find_by_connection t c = None → deregister_connection_with_reason t c reason = (t, [], []).
Proof.
  intros Hok Hf. pose proof (proj1 (find_by_connection_None t c Hok) Hf) as Hc.
  assert (∀ r, r ∈ all_registrations t → reg_connection r ≠ c) as Hne.
  { intros r Hr <-. by apply Hc, list_elem_of_fmap_2. }
  assert (owned_ids c (reg_modules t) = []) as Ha.
  { apply elem_of_nil_inv. intros id (r & Hr & Hcr)%elem_of_owned_ids. apply (Hne r); [|done]. apply elem_of_all. eauto. }
  assert (owned_ids c (reg_candidates t) = []) as Hb.
  { apply elem_of_nil_inv. intros id (r & Hr & Hcr)%elem_of_owned_ids. apply (Hne r); [|done]. apply elem_of_all. eauto. }
  assert (filter (λ x, owned_by c x) (reg_superseded t) = []) as Hs.
  { apply elem_of_nil_inv. intros r [Hcr%Is_true_true%Z.eqb_eq Hr]%list_elem_of_filter. apply (Hne r); [|done]. apply elem_of_all. eauto. }
  unfold deregister_connection_with_reason. cbn [reg_modules set_field]. rewrite Ha. cbn [foldl reg_candidates]. rewrite Hb.
  cbn [foldl reg_superseded set_field]. rewrite Hs, (filter_none _ _ Hs). cbn [foldl app fmap list_fmap].
  assert (unpublished t ∖ {[c]} = unpublished t) as ->.
  { pose proof (ok_unpublished t Hok c) as Hu. set_solver. }
  by destruct t.
Qed.

Lemma gone_all t slot r : registry_ok t → holds t slot r → all_registrations t ≡ₚ r :: all_registrations (gone t slot r).
Proof.
  intros Hok Hr. unfold all_registrations. destruct slot; simpl in Hr; unfold gone.
  - destruct (bool_decide _); registry_cbn; by rewrite (map_values_delete _ _ _ Hr).
  - registry_cbn. rewrite (map_values_delete _ _ _ Hr). solve_Permutation.
  - registry_cbn. assert (find_by_connection t (reg_connection r) = Some (KindSuperseded, r)) as Hf by by apply find_by_connection_Some.
    pose proof (owned_superseded t _ _ r Hok Hf) as Hs. simpl in Hs.
    rewrite <-(filter_app_complement (λ x, owned_by (reg_connection r) x) (reg_superseded t)) at 1. rewrite Hs.
    solve_Permutation.
Qed.

Lemma gone_superseded_by t slot r c :
  registry_ok t → holds t slot r →
  is_Some (superseded_by (gone t slot r) !! c) ↔ c ∈ reg_connection <$> reg_superseded (gone t slot r).
Proof.
  intros Hok Hr. destruct slot; unfold gone.
  - destruct (bool_decide _); registry_cbn; apply Hok.
  - registry_cbn. apply Hok.
  - registry_cbn. rewrite lookup_delete_is_Some, (ok_superseded_by t Hok c), !list_elem_of_fmap. split.
    + intros (Hc & x & -> & Hx). exists x. split; [done|]. apply list_elem_of_filter. split; [|done].
      rewrite Is_true_true. unfold owned_by. rewrite Z.eqb_eq. congruence.
    + intros (x & -> & [Hc Hx]%list_elem_of_filter). rewrite Is_true_true in Hc. unfold owned_by in Hc. rewrite Z.eqb_eq in Hc.
      split; [congruence|]. by exists x.
Qed.

Lemma gone_sets t slot r :
  unpublished (gone t slot r) = unpublished t ∖ {[reg_connection r]} ∧
  nonce_verified (gone t slot r) = nonce_verified t ∖ {[reg_connection r]}.
Proof. destruct slot; unfold gone; [|done|done]. by destruct (bool_decide _). Qed.

Lemma gone_maps t slot r :
  reg_modules (gone t slot r) = match slot with KindActive => delete (reg_id r) (reg_modules t) | _ => reg_modules t end ∧
  reg_candidates (gone t slot r) = match slot with KindCandidate => delete (reg_id r) (reg_candidates t) | _ => reg_candidates t end.
Proof. destruct slot; unfold gone; [|done|done]. by destruct (bool_decide _). Qed.

Lemma gone_registry_ok t slot r : registry_ok t → holds t slot r → registry_ok (gone t slot r).
Proof.
  intros Hok Hr. pose proof (gone_all t slot r Hok Hr) as Hall. destruct (gone_sets t slot r) as [Hu Hn].
  assert (connections t ≡ₚ reg_connection r :: connections (gone t slot r)) as Hcon by (unfold connections; by rewrite Hall).
  pose proof (ok_connections t Hok) as Hnd. rewrite Hcon in Hnd. apply NoDup_cons in Hnd as [Hc Hnd].
  assert (∀ x (X : gset Z), (∀ x, x ∈ X → x ∈ connections t) → x ∈ X ∖ {[reg_connection r]} → x ∈ connections (gone t slot r)) as Hin.
  { intros x X HX [Hx Hne]%elem_of_difference. apply HX in Hx. rewrite Hcon, elem_of_cons in Hx. set_solver. }
  split; [..|done|by intros x; rewrite Hu; apply Hin, Hok|by intros x; rewrite Hn; apply Hin, (ok_nonce t Hok)|
    intros x; by apply gone_superseded_by|].
  - intros id x. destruct (gone_maps t slot r) as [-> _]. intros Hx. apply (ok_active_id t Hok).
    destruct slot; [|done|done]. by apply lookup_delete_Some in Hx as [_ ?].
  - intros id x. destruct (gone_maps t slot r) as [_ ->]. intros Hx. apply (ok_candidate_id t Hok).
    destruct slot; [done| |done]. by apply lookup_delete_Some in Hx as [_ ?].
  - destruct slot; unfold gone; [|apply Hok|apply Hok]. destruct (bool_decide _); [by apply wrap_in_width|apply Hok].
Qed.

Lemma deregister_ok t c reason : registry_ok t → registry_ok (deregister_connection_with_reason t c reason).1.1.
Proof.
  intros Hok. destruct (find_by_connection t c) as [[slot r]|] eqn:Hf.
  - rewrite (deregister_found t c slot r reason Hok Hf). cbn [fst]. apply registry_ok_send.
    apply find_by_connection_Some in Hf as [Hr _]; [|done]. by apply gone_registry_ok.
  - by rewrite (deregister_none t c reason Hok Hf).
Qed.

(** ** What stays *)

Lemma find_by_connection_ext t t' c :
  registry_ok t → registry_ok t' → (∀ slot r, reg_connection r = c → holds t slot r ↔ holds t' slot r) →
  find_by_connection t' c = find_by_connection t c.
Proof.
  intros Hok Hok' Hh. destruct (find_by_connection t c) as [[slot r]|] eqn:Hf.
  - apply find_by_connection_Some in Hf as [Hr Hc]; [|done]. apply find_by_connection_Some; [done|]. by rewrite <-Hh.
  - destruct (find_by_connection t' c) as [[slot r]|] eqn:Hf'; [|done].
    apply find_by_connection_Some in Hf' as [Hr Hc]; [|done]. rewrite <-Hh in Hr by done.
    assert (find_by_connection t c = Some (slot, r)) by by apply find_by_connection_Some. congruence.
Qed.

Lemma holds_send f t id slot r : holds (send_change f t id) slot r ↔ holds t slot r.
Proof. destruct (send_change_slots f t id) as [(Hm & Hc & Hs & _) _]. unfold holds. by rewrite Hm, Hc, Hs. Qed.

Lemma gone_holds_before t slot x slot' r : holds (gone t slot x) slot' r → holds t slot' r.
Proof.
  destruct (gone_maps t slot x) as [Hm Hc]. destruct slot'; simpl; intros Hr.
  - rewrite Hm in Hr. destruct slot; [|done..]. by apply lookup_delete_Some in Hr as [_ ?].
  - rewrite Hc in Hr. destruct slot; [done| |done]. by apply lookup_delete_Some in Hr as [_ ?].
  - unfold gone in Hr. destruct slot; [by destruct (bool_decide _)|done|]. by apply list_elem_of_filter in Hr as [_ ?].
Qed.

Lemma gone_holds t slot x slot' r :
  registry_ok t → holds t slot x → holds (gone t slot x) slot' r ↔ holds t slot' r ∧ reg_connection r ≠ reg_connection x.
Proof.
  intros Hok Hx. pose proof (gone_registry_ok t slot x Hok Hx) as Hok'. pose proof (gone_all t slot x Hok Hx) as Hall.
  pose proof (ok_connections t Hok) as Hnd. unfold connections in Hnd. rewrite Hall in Hnd.
  apply NoDup_cons in Hnd as [Hnx _]. split.
  - intros Hr. split; [by eapply gone_holds_before|]. intros Heq. apply Hnx. rewrite <-Heq. by apply holds_connection in Hr.
  - intros [Hr Hne]. assert (r ∈ all_registrations (gone t slot x)) as Hin.
    { apply holds_all in Hr. rewrite Hall, elem_of_cons in Hr. destruct Hr as [->|]; done. }
    apply (all_holds _ r Hok') in Hin as [s Hs]. pose proof (gone_holds_before _ _ _ _ _ Hs) as Hs'.
    by destruct (slot_unique t slot' s r r Hok Hr Hs' eq_refl) as [-> _].
Qed.

Lemma subscribe_ok t id : registry_ok t → registry_ok (subscribe_module_changes t id).
Proof. intros Hok. eapply registry_ok_same; [|apply Hok|exact Hok]. done. Qed.

Lemma empty_registry_ok : registry_ok empty_registry.
Proof.
  split; try done.
  - unfold connections, all_registrations. simpl. rewrite !map_to_list_empty. constructor.
  - intros c. simpl. rewrite lookup_empty, elem_of_nil. split; [by intros []|done].
Qed.

End registry_ok.
