(* ===== verification/RegistrySteps.v ===== *)
(** * The registry over time

    Every operation as a step; what the catalog shows changes only together with
    its generation, and what a supervisor subscribed to changes only together
    with the version it compares. *)

From S2P Require Import Prelude Collections Registry RegistryOk.

Section registry_steps.
Context `{ManifestTypes} `{WatchLaws} `{HashOrder}.
Implicit Types (t : RegistryInner) (r : ModuleRegistration).

(** ** Steps *)

(** A connection registers at most once: the handler of a HELLO refuses a
    connection that is already a module. *)
Inductive registry_step t : RegistryInner → Prop :=
  | step_subscribe id : registry_step t (subscribe_module_changes t id)
  | step_receivers id s s' :
      module_changes t !! id = Some s → watch_value s' = watch_value s → watch_version s' = watch_version s →
      registry_step t (t <| module_changes := <[id := s']> (module_changes t) |>)
  | step_register m ver c ops publish verified :
      get_module_by_connection t c = None → registry_step t (register_active t m ver c ops publish verified).1
  | step_register_candidate m ver c ops publish verified :
      get_module_by_connection t c = None → registry_step t (register_candidate t m ver c ops publish verified).1
  | step_publish c : registry_step t (publish_registration t c).1
  | step_promote id : registry_step t (promote_candidate t id).1
  | step_replace c roles caps is_ready t' answer :
      replace_catalog_for_connection t c roles caps is_ready = Some (t', answer) → registry_step t t'
  | step_deregister c reason : registry_step t (deregister_connection_with_reason t c reason).1.1.

Definition registry_reachable := rtc registry_step empty_registry.

Lemma get_by_connection_None t c : registry_ok t → get_module_by_connection t c = None → c ∉ connections t.
Proof.
  intros Hok Hc. apply find_by_connection_None; [done|]. unfold get_module_by_connection in Hc.
  by destruct (find_by_connection t c).
Qed.

Lemma registry_step_ok t t' : registry_step t t' → registry_ok t → registry_ok t'.
Proof.
  intros Hstep Hok. destruct Hstep.
  - by apply subscribe_ok.
  - eapply registry_ok_same; [|apply Hok|exact Hok]. done.
  - apply register_active_ok; [done|]. by apply get_by_connection_None.
  - apply register_candidate_ok; [done|]. by apply get_by_connection_None.
  - by apply publish_registration_ok.
  - by apply promote_candidate_ok.
  - by eapply replace_catalog_ok.
  - by apply deregister_ok.
Qed.

Lemma registry_reachable_ok t : registry_reachable t → registry_ok t.
Proof.
  unfold registry_reachable. intros Ht. assert (registry_ok empty_registry) as Hok by apply empty_registry_ok.
  induction Ht as [|t1 t2 t3 Hs _ IH]; [done|]. by apply IH, (registry_step_ok _ _ Hs).
Qed.

(** ** The catalog *)

Definition listed t r : Prop := holds t KindActive r ∧ reg_connection r ∉ unpublished t.

Definition catalog t : list ModuleRegistration := (list_modules t).2.

#[local] Instance id_le_total : Total id_le.
Proof. intros a b. unfold id_le. apply (total String.le). Qed.

#[local] Instance id_le_trans : Transitive id_le.
Proof. intros a b c. unfold id_le. apply transitivity. Qed.

Lemma elem_of_catalog t r : registry_ok t → r ∈ catalog t ↔ listed t r.
Proof.
  intros Hok. unfold catalog, list_modules. cbn [snd]. rewrite merge_sort_Permutation, list_elem_of_filter, elem_of_hash_values.
  unfold listed, is_published. rewrite Is_true_true, negb_true_iff, bool_decide_eq_false. split.
  - intros [Hu [id Hid]]. split; [|done]. by apply (active_holds t id r Hok) in Hid as [? _].
  - intros [Hr Hu]. split; [done|]. by exists (reg_id r).
Qed.

Lemma NoDup_catalog t : registry_ok t → NoDup (catalog t).
Proof.
  intros Hok. unfold catalog, list_modules. cbn [snd]. rewrite merge_sort_Permutation. apply NoDup_filter.
  rewrite hash_iter_perm. pose proof (ok_connections t Hok) as Hnd. unfold connections, all_registrations in Hnd.
  apply NoDup_fmap_1 in Hnd. by apply NoDup_app in Hnd as [? _].
Qed.

Lemma catalog_sorted t : StronglySorted id_le (catalog t).
Proof. apply (StronglySorted_merge_sort id_le). Qed.

Lemma catalog_ext t t' : registry_ok t → registry_ok t' → (∀ r, listed t' r ↔ listed t r) → catalog t' = catalog t.
Proof.
  intros Hok Hok' Heq. apply (StronglySorted_unique_strong id_le); [|apply catalog_sorted..|].
  - intros a b Ha Hb Hab Hba. rewrite elem_of_catalog in Ha, Hb by done. apply Heq in Ha.
    assert (reg_id a = reg_id b) as Hid by by apply (anti_symm String.le).
    destruct Ha as [Ha _], Hb as [Hb _]. simpl in Ha, Hb. rewrite Hid in Ha. congruence.
  - apply NoDup_Permutation; [by apply NoDup_catalog..|]. intros r. by rewrite !elem_of_catalog.
Qed.

Lemma listed_same t t' r : same_slots t t' → listed t' r ↔ listed t r.
Proof. intros (Hm & _ & _ & _ & _ & Hu). unfold listed, holds. by rewrite Hm, Hu. Qed.

Lemma listed_send f t id r : listed (send_change f t id) r ↔ listed t r.
Proof. apply listed_same, send_change_slots. Qed.

(** A connection without an active registration may be published or not. *)
Lemma listed_unpublished t t' c r :
  reg_modules t' = reg_modules t → (∀ x, x ≠ c → x ∈ unpublished t' ↔ x ∈ unpublished t) →
  (∀ r, holds t KindActive r → reg_connection r ≠ c) → listed t' r ↔ listed t r.
Proof.
  intros Hm Hu Hc. unfold listed, holds. rewrite Hm. split; intros [Hr Hn]; (split; [done|]); by rewrite (Hu _ (Hc r Hr)) in *.
Qed.

Lemma not_connection_active t c r : c ∉ connections t → holds t KindActive r → reg_connection r ≠ c.
Proof. intros Hc Hr <-. by eapply Hc, holds_connection. Qed.

Lemma other_slot_active t c slot x r :
  registry_ok t → find_by_connection t c = Some (slot, x) → slot ≠ KindActive → holds t KindActive r → reg_connection r ≠ c.
Proof.
  intros Hok [Hx <-]%find_by_connection_Some Hs Hr Hc; [|done]. by destruct (slot_unique t slot KindActive x r Hok Hx Hr) as [-> _].
Qed.

Lemma register_active_listed t m ver c ops verified r :
  registry_ok t → c ∉ connections t → listed (register_active t m ver c ops false verified).1 r ↔ listed t r.
Proof.
  intros Hok Hc. unfold register_active. destruct (module_id_path_hazard _); [|done].
  destruct (reg_modules t !! module_id m) as [|] eqn:Hm; [done|]. cbn [is_some fst]. rewrite listed_send.
  unfold listed, holds. simpl. split.
  - intros [[[_ <-]|[_ Hr]]%lookup_insert_Some Hu]; simpl in *; set_solver.
  - intros [Hr Hu]. pose proof (not_connection_active t c r Hc Hr). split; [|set_solver].
    rewrite lookup_insert_ne; [done|]. intros Hid. by rewrite Hid, Hr in Hm.
Qed.

Lemma register_candidate_listed t m ver c ops publish verified r :
  registry_ok t → c ∉ connections t → listed (register_candidate t m ver c ops publish verified).1 r ↔ listed t r.
Proof.
  intros Hok Hc. unfold register_candidate. destruct (module_id_path_hazard _); [|done].
  destruct (reg_candidates t !! module_id m) as [|] eqn:Hm; [done|]. cbn [is_some fst]. unfold notify_module_changed. rewrite listed_send.
  apply (listed_unpublished t _ c); [by destruct publish|destruct publish; simpl; set_solver|].
  intros x. by apply not_connection_active.
Qed.

Lemma publish_listed t c :
  registry_ok t → (∀ r, listed (publish_registration t c).1 r ↔ listed t r) ∨
    reg_generation (publish_registration t c).1 = wrap 64 (reg_generation t + 1).
Proof.
  intros Hok. unfold publish_registration. destruct (decide _) as [Hc|]; [|by left].
  change (find_by_connection (t <| unpublished := unpublished t ∖ {[c]} |>) c) with (find_by_connection t c).
  assert (∀ slot x, find_by_connection t c = Some (slot, x) → slot ≠ KindActive →
    ∀ r, listed (t <| unpublished := unpublished t ∖ {[c]} |>) r ↔ listed t r) as Hother.
  { intros slot x Hf Hs r. apply (listed_unpublished t _ c); [done|simpl; set_solver|].
    intros y. by apply (other_slot_active t c slot x). }
  destruct (find_by_connection t c) as [[[] r]|] eqn:Hf; cbn [fst].
  - right. unfold notify_module_changed. by rewrite (proj2 (send_change_slots _ _ _)).
  - left. intros x. unfold notify_module_changed. rewrite listed_send. by eapply Hother.
  - left. intros x. unfold notify_module_changed. rewrite listed_send. by eapply Hother.
  - left. intros x. apply (listed_unpublished t _ c); [done|simpl; set_solver|].
    intros y. apply not_connection_active. by apply find_by_connection_None.
Qed.

Lemma replace_listed t c roles caps is_ready t' answer :
  registry_ok t → replace_catalog_for_connection t c roles caps is_ready = Some (t', answer) →
  (∀ r, listed t' r ↔ listed t r) ∨ reg_generation t' = wrap 64 (reg_generation t + 1).
Proof.
  intros Hok. pose proof (replace_catalog_spec t c roles caps is_ready Hok) as Hs.
  destruct (find_by_connection t c) as [[slot x]|] eqn:Hf; [|rewrite Hs; intros [= <- <-]; by left].
  destruct Hs as (t1 & Hw & ->). intros [= <- _]. destruct (update_catalog_keeps roles caps is_ready x) as [Hc Hid].
  set (x' := update_catalog roles caps is_ready x) in *. apply find_by_connection_Some in Hf as [Hx Hcx]; [|done].
  destruct slot; simpl in Hw.
  - subst t1. destruct (decide _) as [Hu|Hu].
    + left. intros r. unfold notify_module_changed. rewrite listed_send. unfold listed, holds. simpl. split.
      * intros [[[_ <-]|[_ Hr]]%lookup_insert_Some Hn]; [|done]. by rewrite Hc, Hcx in Hn.
      * intros [Hr Hn]. split; [|done]. rewrite lookup_insert_ne; [done|]. intros Hid'.
        rewrite <-Hid' in Hr. simpl in Hx. rewrite Hx in Hr. injection Hr as <-. by rewrite Hcx in Hn.
    + right. unfold notify_module_changed. by rewrite (proj2 (send_change_slots _ _ _)).
  - subst t1. left. intros r. unfold notify_module_changed. by rewrite listed_send.
  - destruct Hw as (l1 & l2 & _ & ->). left. intros r. unfold notify_module_changed. by rewrite listed_send.
Qed.

Lemma gone_other_listed t slot x r :
  registry_ok t → holds t slot x → slot ≠ KindActive → listed (gone t slot x) r ↔ listed t r.
Proof.
  intros Hok Hx Hs. destruct (gone_maps t slot x) as [Hm _]. destruct (gone_sets t slot x) as [Hu _].
  apply (listed_unpublished t _ (reg_connection x)); [by destruct slot|rewrite Hu; set_solver|].
  intros y. apply (other_slot_active t _ slot x); [done| |done]. by apply find_by_connection_Some.
Qed.

Lemma gone_listed t slot x :
  registry_ok t → holds t slot x →
  (∀ r, listed (gone t slot x) r ↔ listed t r) ∨ reg_generation (gone t slot x) = wrap 64 (reg_generation t + 1).
Proof.
  intros Hok Hx. destruct (decide (slot = KindActive)) as [->|]; [|left; intros r; by apply gone_other_listed].
  unfold gone. case_bool_decide as Hn; [by right|]. left. intros r. unfold listed, holds. simpl. split.
  - intros [[Hne Hr]%lookup_delete_Some Hr']. split; [done|]. intros Hin. apply Hr'. apply elem_of_difference. split; [done|].
    intros Hc%elem_of_singleton. by destruct (slot_unique t KindActive KindActive r x Hok Hr Hx Hc) as [_ ->].
  - intros [Hr Hr']. split; [|set_solver]. apply lookup_delete_Some. split; [|done]. intros Hid.
    rewrite <-Hid in Hr. simpl in Hx. rewrite Hx in Hr. by injection Hr as <-.
Qed.

(** What the catalog shows changes only with its generation. *)
Lemma catalog_step t t' :
  registry_ok t → registry_step t t' → catalog t' = catalog t ∨ reg_generation t' = wrap 64 (reg_generation t + 1).
Proof.
  intros Hok Hstep. pose proof (registry_step_ok t t' Hstep Hok) as Hok'.
  assert ((∀ r, listed t' r ↔ listed t r) ∨ reg_generation t' = wrap 64 (reg_generation t + 1)) as [Hl|Hg];
    [|left; by apply catalog_ext|by right].
  destruct Hstep as [id|id s s' Hs Hv Hver|m ver c ops publish verified Hc|m ver c ops publish verified Hc|c|id|c roles caps rdy t' a Hr|c reason].
  - by left.
  - by left.
  - apply get_by_connection_None in Hc; [|done]. destruct publish.
    + unfold register_active. destruct (module_id_path_hazard _); [|by left]. destruct (is_some _); [by left|]. cbn [fst].
      right. by rewrite (proj2 (send_change_slots _ _ _)).
    + left. intros r. by apply register_active_listed.
  - left. intros r. apply register_candidate_listed; [done|]. by apply get_by_connection_None.
  - by apply publish_listed.
  - unfold promote_candidate. destruct (reg_candidates t !! id); [|by left]. cbn [fst]. right.
    unfold notify_module_changed. rewrite (proj2 (send_change_slots _ _ _)). by destruct (reg_modules t !! id).
  - by eapply replace_listed.
  - destruct (find_by_connection t c) as [[slot x]|] eqn:Hf.
    + rewrite (deregister_found t c slot x reason Hok Hf). cbn [fst]. unfold notify_module_changed.
      apply find_by_connection_Some in Hf as [Hx _]; [|done].
      destruct (gone_listed t slot x Hok Hx) as [Hl|Hg]; [left; intros r; by rewrite listed_send|right].
      by rewrite (proj2 (send_change_slots _ _ _)).
    + rewrite (deregister_none t c reason Hok Hf). by left.
Qed.

(** ** Notifications *)

(** What the lookups by slot say of an id. *)
Definition slot_view t (id : string) :=
  (registration t (SlotActive id), registration t (SlotCandidate id),
   published_registration t (SlotActive id), published_registration t (SlotCandidate id)).

Definition at_id t (id : string) r : Prop := reg_modules t !! id = Some r ∨ reg_candidates t !! id = Some r.

Lemma slot_view_same t t' id :
  reg_modules t' !! id = reg_modules t !! id → reg_candidates t' !! id = reg_candidates t !! id →
  (∀ r, at_id t id r → reg_connection r ∈ unpublished t' ↔ reg_connection r ∈ unpublished t) → slot_view t' id = slot_view t id.
Proof.
  intros Hm Hc Hu. unfold slot_view, published_registration, registration. rewrite Hm, Hc.
  assert (∀ o : option ModuleRegistration, (∀ r, o = Some r → at_id t id r) → opt_filter (is_published t') o = opt_filter (is_published t) o) as Ho.
  { intros [r|] Hr; [|done]. simpl. unfold is_published. by rewrite (bool_decide_ext _ _ (Hu r (Hr r eq_refl))). }
  by rewrite !Ho by (unfold at_id; eauto).
Qed.

Lemma at_id_connections t id r : at_id t id r → reg_connection r ∈ connections t.
Proof. intros [Hr|Hr]; apply list_elem_of_fmap_2, elem_of_all; eauto. Qed.

(** The registrations at other ids belong to other connections. *)
Lemma at_id_other t c slot x id r :
  registry_ok t → find_by_connection t c = Some (slot, x) → at_id t id r → id ≠ reg_id x → reg_connection r ≠ c.
Proof.
  intros Hok [Hx <-]%find_by_connection_Some Hr Hid Hc; [|done].
  assert (∃ slot', holds t slot' r ∧ reg_id r = id) as (slot' & Hr' & <-).
  { destruct Hr as [Hr|Hr]; [apply (active_holds t id r Hok) in Hr|apply (candidate_holds t id r Hok) in Hr]; by eexists. }
  by destruct (slot_unique t slot' slot r x Hok Hr' Hx Hc) as [_ ->].
Qed.

Lemma send_change_lookup f t id j :
  module_changes (send_change f t id) !! j =
  if decide (j = id) then watch_send_modify f <$> module_changes t !! id else module_changes t !! j.
Proof.
  unfold send_change. destruct (module_changes t !! id) as [s|] eqn:Hs; destruct (decide (j = id)) as [->|Hj]; simpl; [|..|done].
  - apply lookup_insert_eq.
  - by apply lookup_insert_ne.
  - done.
Qed.

Lemma slot_view_send f t id j : slot_view (send_change f t id) j = slot_view t j.
Proof.
  destruct (send_change_slots f t id) as [(Hm & Hc & _ & _ & _ & Hu) _]. apply slot_view_same; by rewrite ?Hm, ?Hc, ?Hu.
Qed.

(** [t'] differs from [t] in what is registered at [id] only, and tells so. *)
Definition told (f : Z → Z) t t' (id : string) : Prop :=
  ∃ t1, t' = send_change f t1 id ∧ module_changes t1 = module_changes t ∧ ∀ j, j ≠ id → slot_view t1 j = slot_view t j.

Definition unchanged (v : Z) : Z := v.
Definition one_more (v : Z) : Z := wrap 64 (v + 1).

(** What a step does, as its subscribers see it. *)
Inductive step_effect t t' : Prop :=
  | effect_silent : (∀ id, slot_view t' id = slot_view t id) →
      (∀ id s, module_changes t !! id = Some s → 0 < watch_receivers s →
         ∃ s', module_changes t' !! id = Some s' ∧ watch_value s' = watch_value s ∧ watch_version s' = watch_version s) →
      step_effect t t'
  | effect_changed id : told unchanged t t' id → step_effect t t'
  | effect_registered id : told one_more t t' id → reg_modules t !! id = None → is_Some (reg_modules t' !! id) → step_effect t t'.

Lemma effect_refl t : step_effect t t.
Proof. apply effect_silent; [done|]. intros id s Hs _. by exists s. Qed.

Lemma send_change_modules f t id : reg_modules (send_change f t id) = reg_modules t.
Proof. apply send_change_slots. Qed.

Lemma register_active_effect t m ver c ops publish verified :
  c ∉ connections t → step_effect t (register_active t m ver c ops publish verified).1.
Proof.
  intros Hc. unfold register_active. destruct (module_id_path_hazard _); [|apply effect_refl].
  destruct (reg_modules t !! module_id m) as [|] eqn:Hm; [apply effect_refl|]. cbn [is_some fst].
  apply (effect_registered _ _ (module_id m)); [|done|].
  - eexists. split; [done|]. split; [by destruct publish|].
    intros j Hj. apply slot_view_same; [destruct publish; simpl; by rewrite lookup_insert_ne|by destruct publish|].
    intros r Hr%at_id_connections. destruct publish; simpl; set_solver.
  - rewrite send_change_modules. destruct publish; simpl; by rewrite lookup_insert_eq.
Qed.

Lemma register_candidate_effect t m ver c ops publish verified :
  c ∉ connections t → step_effect t (register_candidate t m ver c ops publish verified).1.
Proof.
  intros Hc. unfold register_candidate. destruct (module_id_path_hazard _); [|apply effect_refl].
  destruct (is_some _); [apply effect_refl|]. cbn [fst].
  apply (effect_changed _ _ (module_id m)). eexists. split; [done|]. split; [by destruct publish|].
  intros j Hj. apply slot_view_same; [by destruct publish|destruct publish; simpl; by rewrite lookup_insert_ne|].
  intros r Hr%at_id_connections. destruct publish; simpl; set_solver.
Qed.

Lemma publish_effect t c : registry_ok t → step_effect t (publish_registration t c).1.
Proof.
  intros Hok. unfold publish_registration. destruct (decide _) as [Hc|]; [|apply effect_refl].
  change (find_by_connection (t <| unpublished := unpublished t ∖ {[c]} |>) c) with (find_by_connection t c).
  destruct (find_by_connection t c) as [[slot x]|] eqn:Hf; cbn [fst].
  - apply (effect_changed _ _ (reg_id x)). eexists. split; [done|]. split; [by destruct slot|].
    intros j Hj. apply slot_view_same; [by destruct slot|by destruct slot|].
    intros r Hr. pose proof (at_id_other t c slot x j r Hok Hf Hr Hj). destruct slot; simpl; set_solver.
  - exfalso. apply find_by_connection_None in Hf; [|done]. by apply Hf, (ok_unpublished t Hok).
Qed.

Lemma promote_effect t id : step_effect t (promote_candidate t id).1.
Proof.
  unfold promote_candidate. destruct (reg_candidates t !! id) as [p|]; [|apply effect_refl]. cbn [fst].
  apply (effect_changed _ _ id). eexists. split; [done|]. split; [by destruct (reg_modules t !! id)|].
  intros j Hj. apply slot_view_same.
  - destruct (reg_modules t !! id); simpl; by rewrite lookup_insert_ne.
  - destruct (reg_modules t !! id); simpl; by rewrite lookup_delete_ne.
  - intros r _. by destruct (reg_modules t !! id).
Qed.

Lemma replace_effect t c roles caps is_ready t' answer :
  registry_ok t → replace_catalog_for_connection t c roles caps is_ready = Some (t', answer) → step_effect t t'.
Proof.
  intros Hok. pose proof (replace_catalog_spec t c roles caps is_ready Hok) as Hs.
  destruct (find_by_connection t c) as [[slot x]|] eqn:Hf; [|rewrite Hs; intros [= <- <-]; apply effect_refl].
  destruct Hs as (t1 & Hw & ->). intros [= <- _]. apply (effect_changed _ _ (reg_id x)). eexists. split; [done|].
  destruct slot; simpl in Hw; [subst t1|subst t1|destruct Hw as (l1 & l2 & _ & ->)].
  - split; [by destruct (decide _)|]. intros j Hj.
    apply slot_view_same; destruct (decide _); simpl; by rewrite ?lookup_insert_ne.
  - split; [done|]. intros j Hj. apply slot_view_same; simpl; by rewrite ?lookup_insert_ne.
  - done.
Qed.

Lemma deregister_effect t c reason : registry_ok t → step_effect t (deregister_connection_with_reason t c reason).1.1.
Proof.
  intros Hok. destruct (find_by_connection t c) as [[slot x]|] eqn:Hf.
  - rewrite (deregister_found t c slot x reason Hok Hf). cbn [fst]. apply (effect_changed _ _ (reg_id x)).
    eexists. split; [done|]. destruct (gone_maps t slot x) as [Hm Hc]. destruct (gone_sets t slot x) as [Hu _]. split.
    + destruct slot; unfold gone; [by destruct (bool_decide _)|done|done].
    + intros j Hj. apply slot_view_same.
      * rewrite Hm. destruct slot; by rewrite ?lookup_delete_ne.
      * rewrite Hc. destruct slot; by rewrite ?lookup_delete_ne.
      * intros r Hr. pose proof (at_id_other t c slot x j r Hok Hf Hr Hj).
        apply find_by_connection_Some in Hf as [_ Hcx]; [|done]. rewrite Hu. set_solver.
  - rewrite (deregister_none t c reason Hok Hf). apply effect_refl.
Qed.

Lemma registry_step_effect t t' : registry_ok t → registry_step t t' → step_effect t t'.
Proof.
  intros Hok [id|id s s' Hs Hv Hver|m ver c ops publish verified Hc|m ver c ops publish verified Hc|c|id|c roles caps rdy t1 a Hr|c reason].
  - apply effect_silent; [done|]. intros j s Hs Hpos.
    assert (filter (λ e : string * watch, 0 < watch_receivers e.2) (module_changes t) !! j = Some s) as Hk
      by by apply map_lookup_filter_Some.
    simpl. destruct (decide (j = id)) as [->|Hj].
    + rewrite lookup_insert_eq, Hk. simpl. eexists. split; [done|]. by rewrite subscribe_value, subscribe_version.
    + rewrite lookup_insert_ne by done. by exists s.
  - apply effect_silent; [done|]. intros j x Hx _. simpl. destruct (decide (j = id)) as [->|Hj].
    + rewrite lookup_insert_eq. exists s'. rewrite Hs in Hx. by injection Hx as <-.
    + rewrite lookup_insert_ne by done. by exists x.
  - apply register_active_effect. by apply get_by_connection_None.
  - apply register_candidate_effect. by apply get_by_connection_None.
  - by apply publish_effect.
  - apply promote_effect.
  - by eapply replace_effect.
  - by apply deregister_effect.
Qed.

(** A sender somebody listens to: a change at its id moves its version, and its
    value counts the active registrations accepted. *)
Lemma told_sender f t t' id j s :
  told f t t' id → module_changes t !! j = Some s →
  ∃ s', module_changes t' !! j = Some s' ∧
    if decide (j = id) then watch_version s < watch_version s' ∧ watch_value s' = f (watch_value s)
    else slot_view t' j = slot_view t j ∧ s' = s.
Proof.
  intros (t1 & -> & Hch & Hv) Hs. rewrite send_change_lookup, Hch. destruct (decide (j = id)) as [->|Hj].
  - rewrite Hs. simpl. eexists. split; [done|]. split; [apply modify_version|apply modify_value].
  - exists s. split_and!; [done| |done]. rewrite slot_view_send. by apply Hv.
Qed.

Lemma registry_step_noticed t t' id s :
  registry_ok t → registry_step t t' → module_changes t !! id = Some s → 0 < watch_receivers s →
  ∃ s', module_changes t' !! id = Some s' ∧ watch_version s ≤ watch_version s' ∧
    (¬ watch_version s < watch_version s' → slot_view t' id = slot_view t id) ∧
    (watch_value s' = watch_value s ∨
     watch_value s' = wrap 64 (watch_value s + 1) ∧ reg_modules t !! id = None ∧ is_Some (reg_modules t' !! id)).
Proof.
  intros Hok Hstep Hs Hpos.
  destruct (registry_step_effect t t' Hok Hstep) as [Hv Hk|j Ht|j Ht Hnone Hsome].
  - destruct (Hk id s Hs Hpos) as (s' & Hs' & Hval & Hver). exists s'. split_and!; [done|lia|by rewrite Hv|by left].
  - destruct (told_sender _ _ _ _ _ _ Ht Hs) as (s' & Hs' & Hcase). exists s'. split; [done|].
    destruct (decide (id = j)); [destruct Hcase; split_and!; [lia|lia|by left]|].
    destruct Hcase as [Hv ->]. split_and!; [lia|done|by left].
  - destruct (told_sender _ _ _ _ _ _ Ht Hs) as (s' & Hs' & Hcase). exists s'. split; [done|].
    destruct (decide (id = j)) as [->|]; [destruct Hcase; split_and!; [lia|lia|by right]|].
    destruct Hcase as [Hv ->]. split_and!; [lia|done|by left].
Qed.

(** ** Runs *)

Lemma send_change_generation f t id : reg_generation (send_change f t id) = reg_generation t.
Proof. apply send_change_slots. Qed.

Lemma send_change_nonce f t id : nonce_verified (send_change f t id) = nonce_verified t.
Proof. by destruct (send_change_slots f t id) as [(_ & _ & _ & Hn & _) _]. Qed.

Lemma send_change_connections f t id : connections (send_change f t id) = connections t.
Proof.
  destruct (send_change_slots f t id) as [(Hm & Hc & Hs & _) _]. unfold connections, all_registrations. by rewrite Hm, Hc, Hs.
Qed.

Lemma generation_step t t' :
  registry_ok t → registry_step t t' → reg_generation t' = reg_generation t ∨ reg_generation t' = wrap 64 (reg_generation t + 1).
Proof.
  intros Hok [id|id s s' Hs Hv Hver|m ver c ops publish verified Hc|m ver c ops publish verified Hc|c|id|c roles caps rdy t1 a Hr|c reason].
  - by left.
  - by left.
  - unfold register_active. destruct (module_id_path_hazard _); [|by left]. destruct (is_some _); [by left|]. cbn [fst].
    rewrite send_change_generation. destruct publish; [by right|by left].
  - unfold register_candidate. destruct (module_id_path_hazard _); [|by left]. destruct (is_some _); [by left|]. cbn [fst].
    unfold notify_module_changed. rewrite send_change_generation. left. by destruct publish.
  - unfold publish_registration. destruct (decide _); [|by left].
    destruct (find_by_connection _ c) as [[slot x]|]; [|by left]. cbn [fst]. unfold notify_module_changed.
    rewrite send_change_generation. destruct slot; [by right|by left..].
  - unfold promote_candidate. destruct (reg_candidates t !! id); [|by left]. cbn [fst]. right.
    unfold notify_module_changed. rewrite send_change_generation. by destruct (reg_modules t !! id).
  - pose proof (replace_catalog_spec t c roles caps rdy Hok) as Hsp.
    destruct (find_by_connection t c) as [[slot x]|]; [|rewrite Hsp in Hr; injection Hr as <- _; by left].
    destruct Hsp as (t2 & Hw & Heq). rewrite Heq in Hr. injection Hr as <- _. unfold notify_module_changed.
    rewrite send_change_generation.
    destruct slot; simpl in Hw; [subst t2; destruct (decide _); [by left|by right]|subst t2; by left|].
    destruct Hw as (l1 & l2 & _ & ->). by left.
  - destruct (find_by_connection t c) as [[slot x]|] eqn:Hf; [|rewrite (deregister_none t c reason Hok Hf); by left].
    rewrite (deregister_found t c slot x reason Hok Hf). cbn [fst]. unfold notify_module_changed.
    rewrite send_change_generation. unfold gone. destruct slot; [|by left..].
    case_bool_decide; [by right|by left].
Qed.

(** Whether a connection proved its launch is settled while it is registered. *)
Lemma nonce_step t t' c :
  registry_ok t → registry_step t t' → c ∈ connections t → c ∈ connections t' →
  c ∈ nonce_verified t' ↔ c ∈ nonce_verified t.
Proof.
  intros Hok [id|id s s' Hs Hv Hver|m ver d ops publish verified Hd|m ver d ops publish verified Hd|d|id|d roles caps rdy t1 a Hr|d reason] Hc Hc'.
  - done.
  - done.
  - apply get_by_connection_None in Hd; [|done]. unfold register_active. destruct (module_id_path_hazard _); [|done].
    destruct (is_some _); [done|]. cbn [fst]. rewrite send_change_nonce.
    assert (c ≠ d) by congruence. destruct publish, verified; simpl; set_solver.
  - apply get_by_connection_None in Hd; [|done]. unfold register_candidate. destruct (module_id_path_hazard _); [|done].
    destruct (is_some _); [done|]. cbn [fst]. unfold notify_module_changed.
    rewrite send_change_nonce.
    assert (c ≠ d) by congruence. destruct publish, verified; simpl; set_solver.
  - unfold publish_registration. destruct (decide _); [|done].
    destruct (find_by_connection _ d) as [[slot x]|]; [|done]. cbn [fst]. unfold notify_module_changed.
    rewrite send_change_nonce. by destruct slot.
  - unfold promote_candidate. destruct (reg_candidates t !! id); [|done]. cbn [fst]. unfold notify_module_changed.
    rewrite send_change_nonce. by destruct (reg_modules t !! id).
  - pose proof (replace_catalog_spec t d roles caps rdy Hok) as Hsp.
    destruct (find_by_connection t d) as [[slot x]|]; [|rewrite Hsp in Hr; by injection Hr as <- _].
    destruct Hsp as (t2 & Hw & Heq). rewrite Heq in Hr. injection Hr as <- _. unfold notify_module_changed.
    rewrite send_change_nonce.
    destruct slot; simpl in Hw; [subst t2; by destruct (decide _)|by subst t2|]. by destruct Hw as (l1 & l2 & _ & ->).
  - destruct (find_by_connection t d) as [[slot x]|] eqn:Hf; [|by rewrite (deregister_none t d reason Hok Hf)].
    rewrite (deregister_found t d slot x reason Hok Hf) in *. cbn [fst] in *. unfold notify_module_changed in *.
    rewrite send_change_nonce. rewrite send_change_connections in Hc'. rewrite (proj2 (gone_sets t slot x)).
    apply find_by_connection_Some in Hf as [Hx Hd]; [|done].
    pose proof (ok_connections t Hok) as Hnd. unfold connections in Hnd. rewrite (gone_all t slot x Hok Hx) in Hnd.
    apply NoDup_cons in Hnd as [Hnx _]. assert (c ≠ reg_connection x) by (intros ->; by apply Hnx). set_solver.
Qed.

(** What [catalog.list] answers: the generation, and each registration with
    whether its connection proved its launch. *)
Definition listing t : list (ModuleRegistration * bool) := (list_modules_with_nonce_verification t).2.

Lemma listing_catalog t : listing t = (λ r, (r, bool_decide (reg_connection r ∈ nonce_verified t))) <$> catalog t.
Proof. done. Qed.

Lemma listed_connection t r : listed t r → reg_connection r ∈ connections t.
Proof. intros [Hr _]. by eapply holds_connection. Qed.

Lemma listing_step t t' :
  registry_ok t → registry_step t t' →
  reg_generation t' = reg_generation t ∧ listing t' = listing t ∨ reg_generation t' = wrap 64 (reg_generation t + 1).
Proof.
  intros Hok Hstep. destruct (generation_step t t' Hok Hstep) as [Hg|Hg]; [|by right].
  destruct (catalog_step t t' Hok Hstep) as [Hcat|]; [|by right]. left. split; [done|].
  pose proof (registry_step_ok t t' Hstep Hok) as Hok'. rewrite !listing_catalog, Hcat. apply list_fmap_ext.
  intros i r Hi%list_elem_of_lookup_2. f_equal. apply bool_decide_ext. apply nonce_step; [done|done|..].
  - by apply listed_connection, elem_of_catalog.
  - apply listed_connection, elem_of_catalog; [done|]. by rewrite Hcat.
Qed.

Lemma listing_run n t t' :
  registry_ok t → nsteps registry_step n t t' →
  ∃ k, 0 ≤ k ≤ Z.of_nat n ∧ reg_generation t' = wrap 64 (reg_generation t + k) ∧ (k = 0 → listing t' = listing t).
Proof.
  intros Hok Hrun. revert Hok. induction Hrun as [t|n t1 t2 t3 Hs _ IH]; intros Hok.
  - exists 0. split_and!; [lia..| |done]. rewrite Z.add_0_r. symmetry. apply wrap_id, Hok.
  - destruct IH as (k & Hk & Hg & Hl); [by eapply registry_step_ok|].
    destruct (listing_step t1 t2 Hok Hs) as [[Hg' Hl']|Hg'].
    + exists k. split_and!; [lia..| |]; [by rewrite Hg, Hg'|]. intros Hk0. by rewrite Hl, Hl'.
    + exists (k + 1). split_and!; [lia..| |lia]. rewrite Hg, Hg'. unfold wrap. rewrite Zplus_mod_idemp_l. f_equal. lia.
Qed.

(** A supervisor that stays subscribed. *)
Definition subscribed_step (id : string) t t' : Prop :=
  registry_step t t' ∧ ∃ s, module_changes t !! id = Some s ∧ 0 < watch_receivers s.

Lemma noticed_run id t t' s :
  registry_ok t → rtc (subscribed_step id) t t' → module_changes t !! id = Some s →
  ∃ s', module_changes t' !! id = Some s' ∧ watch_version s ≤ watch_version s' ∧
    (watch_version s' = watch_version s → slot_view t' id = slot_view t id).
Proof.
  intros Hok Hrun. revert s Hok. induction Hrun as [t|t1 t2 t3 [Hs (s1 & Hs1 & Hpos)] _ IH]; intros s Hok Hs0.
  - by exists s.
  - rewrite Hs1 in Hs0. injection Hs0 as ->.
    destruct (registry_step_noticed t1 t2 id s Hok Hs Hs1 Hpos) as (s2 & Hs2 & Hle & Hv & _).
    destruct (IH s2) as (s3 & Hs3 & Hle' & Hsame); [by eapply registry_step_ok|done|].
    exists s3. split_and!; [done|lia|]. intros Heq. rewrite Hsame by lia.
    destruct (decide (watch_version s < watch_version s2)); [lia|].
    by apply Hv.
Qed.

(** ** Promotion *)

Lemma get_by_connection_ext t t' c :
  registry_ok t → registry_ok t' → (∀ r, (∃ slot, holds t' slot r) ↔ ∃ slot, holds t slot r) →
  get_module_by_connection t' c = get_module_by_connection t c.
Proof.
  intros Hok Hok' Hh. apply option_eq. intros r. unfold get_module_by_connection.
  assert (∀ t, registry_ok t → snd <$> find_by_connection t c = Some r ↔ (∃ slot, holds t slot r) ∧ reg_connection r = c) as Hiff.
  { clear. intros t Hok. rewrite fmap_Some. split.
    - intros ([slot x] & [Hx Hc]%find_by_connection_Some & ->); [|done]. simpl. eauto.
    - intros [[slot Hr] Hc]. exists (slot, r). by rewrite find_by_connection_Some. }
  by rewrite !Hiff, Hh.
Qed.

Lemma promote_spec t id p :
  registry_ok t → reg_candidates t !! id = Some p →
  ∃ t', promote_candidate t id = (t', Some (mkRegistryCutover p (reg_modules t !! id))) ∧
    reg_modules t' = <[id := p]> (reg_modules t) ∧ reg_candidates t' = delete id (reg_candidates t) ∧
    reg_superseded t' = reg_superseded t ++ option_list (reg_modules t !! id) ∧
    unpublished t' = unpublished t ∧ reg_generation t' = wrap 64 (reg_generation t + 1) ∧
    ∀ old, reg_modules t !! id = Some old → superseded_by t' !! reg_connection old = Some (reg_connection p).
Proof.
  intros Hok Hp. unfold promote_candidate. rewrite Hp. eexists. split; [done|]. unfold notify_module_changed.
  rewrite send_change_generation. set (t1 := bump_catalog _).
  destruct (send_change_slots (λ a, a) t1 id) as [(-> & -> & -> & _ & -> & ->) _]. subst t1.
  destruct (reg_modules t !! id) as [old|]; simpl; split_and!; try done.
  - intros x [= ->]. apply lookup_insert_eq.
  - by rewrite app_nil_r.
Qed.

Lemma promote_holds t id p t' cut r :
  registry_ok t → reg_candidates t !! id = Some p → promote_candidate t id = (t', cut) →
  (∃ slot, holds t' slot r) ↔ ∃ slot, holds t slot r.
Proof.
  intros Hok Hp Heq. pose proof (promote_candidate_ok t id Hok) as Hok'.
  destruct (promote_spec t id p Hok Hp) as (t1 & Heq' & Hm & Hc & Hs & _). rewrite Heq in Heq', Hok'. injection Heq' as <- _.
  assert (∀ t, registry_ok t → (∃ slot, holds t slot r) ↔ r ∈ all_registrations t) as Hiff.
  { clear. intros t Hok. split; [by intros [slot Hr%holds_all]|by apply all_holds]. }
  rewrite !Hiff by done. cbn [fst] in *. unfold all_registrations. rewrite Hm, Hc, Hs.
  rewrite (map_values_delete (reg_candidates t) id p) by done. destruct (reg_modules t !! id) as [old|] eqn:Ho.
  - rewrite <-(insert_delete_eq (reg_modules t)), (map_values_delete (reg_modules t) id old) by done.
    rewrite map_values_insert by apply lookup_delete_eq. simpl. set_solver.
  - rewrite map_values_insert by done. simpl. set_solver.
Qed.

End registry_steps.
