(* ===== verification/RegistryView.v ===== *)
(** * What the registry says of a connection

    The slot and the id a connection holds: all that the handlers of HELLO and
    of a connection's end rely on, and what every operation does to it. *)

From S2P Require Import Prelude Collections Registry RegistryOk RegistrySteps.

Section view.
Context `{ManifestTypes} `{WatchLaws} `{HashOrder}.
Implicit Types (t : RegistryInner) (r : ModuleRegistration).

Definition reg_view t (c : Z) : option (SlotKind * string) := prod_map id reg_id <$> find_by_connection t c.

Lemma reg_view_Some t c slot id :
  registry_ok t → reg_view t c = Some (slot, id) ↔ ∃ r, holds t slot r ∧ reg_connection r = c ∧ reg_id r = id.
Proof.
  intros Hok. unfold reg_view. rewrite fmap_Some. split.
  - intros ([s r] & [Hr Hc]%find_by_connection_Some & [= -> ->]); [|done]. by exists r.
  - intros (r & Hr & Hc & <-). exists (slot, r). split; [|done]. by apply find_by_connection_Some.
Qed.

Lemma reg_view_None t c : registry_ok t → reg_view t c = None ↔ c ∉ connections t.
Proof. intros Hok. unfold reg_view. rewrite fmap_None. by apply find_by_connection_None. Qed.

Lemma reg_view_by_connection t c : get_module_by_connection t c = None ↔ reg_view t c = None.
Proof. unfold get_module_by_connection, reg_view. by rewrite !fmap_None. Qed.

Lemma reg_view_ext t t' c :
  registry_ok t → registry_ok t' →
  (∀ slot id, (∃ r, holds t' slot r ∧ reg_connection r = c ∧ reg_id r = id) ↔
              ∃ r, holds t slot r ∧ reg_connection r = c ∧ reg_id r = id) → reg_view t' c = reg_view t c.
Proof. intros Hok Hok' Hh. apply option_eq. intros [slot id]. by rewrite !reg_view_Some, Hh. Qed.

Lemma reg_view_same t t' c : same_slots t t' → reg_view t' c = reg_view t c.
Proof. intros (Hm & Hc & Hs & _). unfold reg_view, find_by_connection. by rewrite Hm, Hc, Hs. Qed.

Lemma reg_view_send f t id c : reg_view (send_change f t id) c = reg_view t c.
Proof. apply reg_view_same, send_change_slots. Qed.

Lemma send_change_unpublished f t id : unpublished (send_change f t id) = unpublished t.
Proof. by destruct (send_change_slots f t id) as [(_ & _ & _ & _ & _ & Hu) _]. Qed.

Lemma active_unique t c c' id :
  registry_ok t → reg_view t c = Some (KindActive, id) → reg_view t c' = Some (KindActive, id) → c = c'.
Proof. intros Hok (r & Hr & <- & Hid)%reg_view_Some (r' & Hr' & <- & Hid')%reg_view_Some; [|done..]. simpl in *. congruence. Qed.

Lemma candidate_unique t c c' id :
  registry_ok t → reg_view t c = Some (KindCandidate, id) → reg_view t c' = Some (KindCandidate, id) → c = c'.
Proof. intros Hok (r & Hr & <- & Hid)%reg_view_Some (r' & Hr' & <- & Hid')%reg_view_Some; [|done..]. simpl in *. congruence. Qed.

(** ** Operations *)

(** Everything the handlers see of a registration that was just made. *)
Record registered t t' (c : Z) (slot : SlotKind) (id : string) (verified : bool) : Prop := {
  rg_ok : registry_ok t';
  rg_view d : reg_view t' d = if decide (d = c) then Some (slot, id) else reg_view t d;
  rg_unpublished d : d ∈ unpublished t' ↔ d = c ∨ d ∈ unpublished t;
  rg_verified d : d ∈ nonce_verified t' ↔ d = c ∧ verified = true ∨ d ≠ c ∧ d ∈ nonce_verified t;
}.

Lemma added_view t t' c slot id x :
  registry_ok t → registry_ok t' → reg_view t c = None → reg_connection x = c → reg_id x = id →
  (∀ slot' r, holds t' slot' r ↔ slot' = slot ∧ r = x ∨ holds t slot' r) →
  ∀ d, reg_view t' d = if decide (d = c) then Some (slot, id) else reg_view t d.
Proof.
  intros Hok Hok' Hc Hx Hid Hh d. destruct (decide (d = c)) as [->|Hd].
  - apply reg_view_Some; [done|]. exists x. split_and!; [|done..]. apply Hh. by left.
  - apply reg_view_ext; [done..|]. intros s i. split; intros (r & Hr & Hrc & Hi); exists r.
    + apply Hh in Hr as [[-> ->]|Hr]; [congruence|done].
    + split; [|done]. apply Hh. by right.
Qed.

Lemma register_active_view t m ver c ops verified t' res :
  registry_ok t → reg_view t c = None → register_active t m ver c ops false verified = (t', res) →
  match res with
  | Ok r => r = new_registration m ver c ops ∧ registered t t' c KindActive (module_id m) verified
  | Err _ => t' = t
  end.
Proof.
  intros Hok Hc Heq. pose proof (register_active_ok t m ver c ops false verified Hok (proj1 (reg_view_None t c Hok) Hc)) as Hok'.
  rewrite Heq in Hok'. cbn [fst] in Hok'. unfold register_active in Heq.
  destruct (module_id_path_hazard _); [|by simplify_eq]. destruct (reg_modules t !! module_id m) as [|] eqn:Hm; [by simplify_eq/=|].
  cbn [is_some] in Heq. injection Heq as <- <-. split; [done|]. split; [done|..].
  - apply (added_view t _ c KindActive (module_id m) (new_registration m ver c ops)); [done..|]. intros slot' r.
    rewrite holds_send. destruct slot'; simpl; [|naive_solver..]. rewrite lookup_insert_Some. split.
    + intros [[_ <-]|[_ Hr]]; [by left|by right].
    + intros [[_ ->]|Hr]; [by left|right]. split; [|done]. intros Hid. by rewrite Hid, Hr in Hm.
  - intros d. rewrite send_change_unpublished. simpl. set_solver.
  - intros d. rewrite send_change_nonce. destruct (decide (d = c)), verified; simpl; set_solver.
Qed.

Lemma register_candidate_view t m ver c ops verified t' res :
  registry_ok t → reg_view t c = None → register_candidate t m ver c ops false verified = (t', res) →
  match res with
  | Ok r => r = new_registration m ver c ops ∧ registered t t' c KindCandidate (module_id m) verified
  | Err _ => t' = t
  end.
Proof.
  intros Hok Hc Heq. pose proof (register_candidate_ok t m ver c ops false verified Hok (proj1 (reg_view_None t c Hok) Hc)) as Hok'.
  rewrite Heq in Hok'. cbn [fst] in Hok'. unfold register_candidate in Heq.
  destruct (module_id_path_hazard _); [|by simplify_eq]. destruct (reg_candidates t !! module_id m) as [|] eqn:Hm; [by simplify_eq/=|].
  cbn [is_some] in Heq. injection Heq as <- <-. split; [done|]. unfold notify_module_changed in *. split; [done|..].
  - apply (added_view t _ c KindCandidate (module_id m) (new_registration m ver c ops)); [done..|]. intros slot' r.
    rewrite holds_send. destruct slot'; simpl; [naive_solver| |naive_solver]. rewrite lookup_insert_Some. split.
    + intros [[_ <-]|[_ Hr]]; [by left|by right].
    + intros [[_ ->]|Hr]; [by left|right]. split; [|done]. intros Hid. by rewrite Hid, Hr in Hm.
  - intros d. rewrite send_change_unpublished. simpl. set_solver.
  - intros d. rewrite send_change_nonce. destruct (decide (d = c)), verified; simpl; set_solver.
Qed.

Lemma publish_view t c t' b :
  registry_ok t → publish_registration t c = (t', b) →
  registry_ok t' ∧ (∀ d, reg_view t' d = reg_view t d) ∧ (∀ d, d ∈ unpublished t' ↔ d ∈ unpublished t ∧ d ≠ c) ∧
  nonce_verified t' = nonce_verified t.
Proof.
  intros Hok Heq. pose proof (publish_registration_ok t c Hok) as Hok'. rewrite Heq in Hok'. cbn [fst] in Hok'. split; [done|].
  unfold publish_registration in Heq. destruct (decide _) as [Hc|Hc]; [|simplify_eq; set_solver].
  destruct (find_by_connection _ c) as [[slot r]|]; simplify_eq; [|split_and!; [done|simpl; set_solver|done]].
  unfold notify_module_changed. split_and!.
  - intros d. rewrite reg_view_send. by destruct slot.
  - intros d. rewrite send_change_unpublished. destruct slot; simpl; set_solver.
  - rewrite send_change_nonce. by destruct slot.
Qed.

Lemma deregister_view t c reason t' closed ends :
  registry_ok t → deregister_connection_with_reason t c reason = (t', closed, ends) →
  registry_ok t' ∧ (∀ d, reg_view t' d = if decide (d = c) then None else reg_view t d) ∧
  (∀ d, d ∈ unpublished t' ↔ d ∈ unpublished t ∧ d ≠ c) ∧ (∀ d, d ∈ nonce_verified t' ↔ d ∈ nonce_verified t ∧ d ≠ c).
Proof.
  intros Hok Heq. pose proof (deregister_ok t c reason Hok) as Hok'. rewrite Heq in Hok'. cbn [fst] in Hok'. split; [done|].
  destruct (find_by_connection t c) as [[slot r]|] eqn:Hf.
  - rewrite (deregister_found t c slot r reason Hok Hf) in Heq. injection Heq as <- _ _.
    apply find_by_connection_Some in Hf as [Hr Hc]; [|done]. unfold notify_module_changed in *. destruct (gone_sets t slot r) as [Hu Hn].
    split_and!.
    + intros d. destruct (decide (d = c)) as [->|Hd].
      * apply reg_view_None; [done|]. rewrite send_change_connections. intros Hin.
        pose proof (ok_connections t Hok) as Hnd. unfold connections in Hnd. rewrite (gone_all t slot r Hok Hr) in Hnd.
        apply NoDup_cons in Hnd as [Hnr _]. by rewrite <-Hc in Hin.
      * rewrite reg_view_send. apply reg_view_ext; [done|by apply gone_registry_ok|]. intros s i.
        setoid_rewrite gone_holds; [|done..]. split; [intros (x & [? ?] & ? & ?); by exists x|].
        intros (x & ? & ? & ?). exists x. split_and!; [done|congruence|done|done].
    + intros d. rewrite send_change_unpublished, Hu. set_solver.
    + intros d. rewrite send_change_nonce, Hn. set_solver.
  - rewrite (deregister_none t c reason Hok Hf) in Heq. injection Heq as <- _ _.
    apply find_by_connection_None in Hf; [|done]. split_and!; intros d.
    + destruct (decide (d = c)) as [->|]; [|done]. by apply reg_view_None.
    + split; [|by intros []]. intros Hd. split; [done|]. intros ->. by apply Hf, (ok_unpublished t Hok).
    + split; [|by intros []]. intros Hd. split; [done|]. intros ->. by apply Hf, (ok_nonce t Hok).
Qed.

(** Promotion moves two connections, if any: the candidate and the one it
    supersedes. *)
Definition promoted_view (id : string) (v : SlotKind * string) : SlotKind * string :=
  if decide (v.2 = id) then (match v.1 with KindCandidate => KindActive | _ => KindSuperseded end, id) else v.

Lemma promote_view_lookup t id p t' c :
  registry_ok t → registry_ok t' → reg_candidates t !! id = Some p →
  promote_candidate t id = (t', Some (mkRegistryCutover p (reg_modules t !! id))) →
  reg_view t' c = promoted_view id <$> reg_view t c.
Proof.
  intros Hok Hok' Hp Heq. destruct (promote_spec t id p Hok Hp) as (t1 & Heq' & Hm & Hc & Hs & _).
  rewrite Heq in Heq'. injection Heq' as <-. destruct (reg_view t c) as [[slot i]|] eqn:Hv; simpl.
  - apply reg_view_Some in Hv as (r & Hr & Hrc & Hi); [|done]. unfold promoted_view. cbn [fst snd].
    destruct (decide (i = id)) as [->|Hne]; apply reg_view_Some; try done; exists r; (split; [|done]);
      destruct slot; simpl in *; rewrite ?Hm, ?Hc, ?Hs, ?Hi in *.
    + rewrite Hr. set_solver.
    + rewrite lookup_insert_eq. congruence.
    + set_solver.
    + by rewrite lookup_insert_ne.
    + by rewrite lookup_delete_ne.
    + set_solver.
  - apply reg_view_None; [done|]. apply reg_view_None in Hv; [|done]. intros (r & -> & Hr)%list_elem_of_fmap. apply Hv.
    apply (all_holds t' r Hok') in Hr. apply (promote_holds t id p t' _ r Hok Hp Heq) in Hr as [slot Hr]. by eapply holds_connection.
Qed.

Lemma promote_view t id t' cut :
  registry_ok t → promote_candidate t id = (t', cut) →
  registry_ok t' ∧ unpublished t' = unpublished t ∧ nonce_verified t' = nonce_verified t ∧
  match cut with
  | None => t' = t ∧ ∀ c, reg_view t c ≠ Some (KindCandidate, id)
  | Some cut => reg_view t (reg_connection (promoted cut)) = Some (KindCandidate, id) ∧ get_module t' id = Some (promoted cut) ∧
      ∀ c, reg_view t' c = promoted_view id <$> reg_view t c
  end.
Proof.
  intros Hok Heq. pose proof (promote_candidate_ok t id Hok) as Hok'. rewrite Heq in Hok'. cbn [fst] in Hok'. split; [done|].
  destruct (reg_candidates t !! id) as [p|] eqn:Hp.
  - destruct (promote_spec t id p Hok Hp) as (t1 & Heq' & Hm & Hc & Hs & Hu & _).
    assert (nonce_verified t' = nonce_verified t) as Hn.
    { unfold promote_candidate in Heq. rewrite Hp in Heq. injection Heq as <- _. unfold notify_module_changed.
      rewrite send_change_nonce. by destruct (reg_modules t !! id). }
    rewrite Heq in Heq'. injection Heq' as <- ->. split_and!; [done..| | |].
    + apply reg_view_Some; [done|]. exists p. pose proof (ok_candidate_id t Hok id p Hp) as Hid.
      split_and!; [|done..]. simpl. by rewrite Hid.
    + unfold get_module. rewrite Hm. apply lookup_insert_eq.
    + intros c. by apply (promote_view_lookup t id p t' c Hok Hok' Hp Heq).
  - assert (t' = t ∧ cut = None) as [-> ->] by (unfold promote_candidate in Heq; rewrite Hp in Heq; by simplify_eq).
    split_and!; [done..|]. intros c (r & Hr & _ & <-)%reg_view_Some; [|done]. simpl in Hr. congruence.
Qed.

(** The operations that are none of the handlers'. *)
Inductive quiet_step t : RegistryInner → Prop :=
  | quiet_subscribe id : quiet_step t (subscribe_module_changes t id)
  | quiet_receivers id s s' :
      module_changes t !! id = Some s → watch_value s' = watch_value s → watch_version s' = watch_version s →
      quiet_step t (t <| module_changes := <[id := s']> (module_changes t) |>)
  | quiet_replace c roles caps is_ready t' answer :
      replace_catalog_for_connection t c roles caps is_ready = Some (t', answer) → quiet_step t t'.

Lemma quiet_registry_step t t' : quiet_step t t' → registry_step t t'.
Proof. intros []; by econstructor. Qed.

Lemma written_view t slot r r' t' c :
  registry_ok t → registry_ok t' → holds t slot r → written t slot r r' t' → reg_connection r' = reg_connection r → reg_id r' = reg_id r →
  reg_view t' c = reg_view t c.
Proof.
  intros Hok Hok' Hr Hw Hc Hid.
  assert (holds t' slot r' ∧ ∀ s x, holds t s x → (s = slot ∧ x = r) ∨ holds t' s x) as [Hr' Hkeep].
  { destruct slot; simpl in Hw, Hr.
    - subst t'. split; [simpl; rewrite Hid; apply lookup_insert_eq|]. intros [] x Hx; simpl in *; [|by right..].
      destruct (decide (reg_id x = reg_id r)) as [Hxr|]; [left; rewrite Hxr in Hx; by simplify_eq|right; by rewrite lookup_insert_ne].
    - subst t'. split; [simpl; rewrite Hid; apply lookup_insert_eq|]. intros [] x Hx; simpl in *; [by right| |by right].
      destruct (decide (reg_id x = reg_id r)) as [Hxr|]; [left; rewrite Hxr in Hx; by simplify_eq|right; by rewrite lookup_insert_ne].
    - destruct Hw as (l1 & l2 & Hl & ->). split; [simpl; set_solver|]. intros [] x Hx; simpl in *; [by right..|].
      rewrite Hl in Hx. set_solver. }
  destruct (reg_view t c) as [[s i]|] eqn:Hv.
  - apply reg_view_Some in Hv as (x & Hx & Hxc & Hi); [|done]. apply reg_view_Some; [done|].
    destruct (Hkeep s x Hx) as [[-> ->]|Hx']; [exists r'|exists x]; split_and!; done || congruence.
  - apply reg_view_None; [done|]. apply reg_view_None in Hv; [|done].
    assert (connections t' ≡ₚ connections t) as Hperm by by eapply written_connections. by rewrite Hperm.
Qed.

Lemma quiet_view t t' :
  registry_ok t → quiet_step t t' →
  registry_ok t' ∧ (∀ c, reg_view t' c = reg_view t c) ∧ unpublished t' = unpublished t ∧ nonce_verified t' = nonce_verified t.
Proof.
  intros Hok Hstep. split; [by eapply registry_step_ok, Hok; apply quiet_registry_step|].
  destruct Hstep as [id|id s s' Hs Hv Hver|c roles caps is_ready t' answer Hr]; [done..|].
  pose proof (replace_catalog_ok t c roles caps is_ready t' answer Hok Hr) as Hok'.
  pose proof (replace_catalog_spec t c roles caps is_ready Hok) as Hsp.
  destruct (find_by_connection t c) as [[slot x]|] eqn:Hf; [|rewrite Hsp in Hr; by injection Hr as <- _].
  destruct Hsp as (t1 & Hw & Heq). rewrite Heq in Hr. injection Hr as <- _. unfold notify_module_changed.
  apply find_by_connection_Some in Hf as [Hx Hc]; [|done]. destruct (update_catalog_keeps roles caps is_ready x) as [Hc' Hid'].
  pose proof (written_ok t slot x _ t1 Hok Hx Hw Hc' Hid') as Hok1.
  assert (unpublished t1 = unpublished t ∧ nonce_verified t1 = nonce_verified t) as [Hu Hn].
  { destruct slot; simpl in Hw; [by subst t1|by subst t1|by destruct Hw as (l1 & l2 & _ & ->)]. }
  rewrite send_change_unpublished, send_change_nonce. split_and!.
  - intros d. rewrite reg_view_send, <-(written_view t slot x _ t1 d Hok Hok1 Hx Hw Hc' Hid').
    destruct slot; [by destruct (decide _)|done..].
  - destruct slot; [by destruct (decide _)|done..].
  - destruct slot; [by destruct (decide _)|done..].
Qed.
End view.
