(* ===== verification/RegistryTheorems.v ===== *)
(** * What the module registry promises *)

From S2P Require Import Prelude Collections Registry RegistryOk RegistrySteps.

Section claims.
Context `{ManifestTypes} `{WatchLaws} `{HashOrder}.
Implicit Types (t : RegistryInner) (r : ModuleRegistration).

(** C16: [catalog.list] shows exactly the published active registrations, each
    once and in the order of their ids; and its generation names what it shows:
    over fewer than 2^64 operations, an equal generation means an equal list,
    down to which connections proved their launch. *)
Theorem generation_names_listing n t t' :
  registry_reachable t → nsteps registry_step n t t' → Z.of_nat n < 2 ^ 64 →
  (∀ r, r ∈ (list_modules t).2 ↔ get_module t (reg_id r) = Some r ∧ is_published t r = true) ∧
  NoDup (list_modules t).2 ∧ StronglySorted id_le (list_modules t).2 ∧
  ((list_modules t').1 = (list_modules t).1 →
   list_modules t' = list_modules t ∧ list_modules_with_nonce_verification t' = list_modules_with_nonce_verification t).
Proof.
  intros Hok%registry_reachable_ok Hrun Hn. split_and!.
  - intros r. fold (catalog t). rewrite elem_of_catalog by done. unfold listed, is_published.
    by rewrite negb_true_iff, bool_decide_eq_false.
  - by apply NoDup_catalog.
  - apply catalog_sorted.
  - destruct (listing_run n t t' Hok Hrun) as (k & Hk & Hg & Hl). intros Heq. cbn [list_modules fst] in Heq.
    assert (k = 0) as ->.
    { rewrite Hg in Heq. unfold wrap in Heq. pose proof (ok_generation t Hok) as Hw. unfold in_width in Hw.
      destruct (decide (reg_generation t + k < 2 ^ 64)) as [Hlt|Hge].
      - rewrite Z.mod_small in Heq by lia. lia.
      - replace (reg_generation t + k) with (reg_generation t + k - 2 ^ 64 + 1 * 2 ^ 64) in Heq by lia.
        rewrite Z_mod_plus_full, Z.mod_small in Heq by lia. lia. }
    specialize (Hl eq_refl). split; apply injective_projections; [done| |done|done].
    apply (f_equal (fmap fst)) in Hl. rewrite !listing_catalog, <-!list_fmap_compose in Hl.
    unfold compose in Hl. simpl in Hl. by rewrite !list_fmap_id in Hl.
Qed.

(** C28: Nothing a supervisor waits for escapes it: while it stays subscribed to
    an id, the version it compares never goes back, and as long as the version
    is the one it saw, every lookup of the id's slots still answers the same. *)
Theorem subscriber_told id t t' s :
  registry_reachable t → rtc (subscribed_step id) t t' → module_changes t !! id = Some s →
  ∃ s', module_changes t' !! id = Some s' ∧ watch_version s ≤ watch_version s' ∧
    (watch_version s' = watch_version s →
     get_module t' id = get_module t id ∧ get_candidate t' id = get_candidate t id ∧
     published_registration t' (SlotActive id) = published_registration t (SlotActive id) ∧
     published_registration t' (SlotCandidate id) = published_registration t (SlotCandidate id)).
Proof.
  intros Hok%registry_reachable_ok Hrun Hs. destruct (noticed_run id t t' s Hok Hrun Hs) as (s' & Hs' & Hle & Hv).
  exists s'. split_and!; [done..|]. intros Heq. specialize (Hv Heq). unfold slot_view in Hv. by simplify_eq/=.
Qed.

(** C27: A departure takes exactly the connection's own registration: it is
    returned closed and its end logged, as replaced and by whom if a swap
    superseded it and with the given reason otherwise; every other connection
    keeps what it held; and the catalog's generation moves exactly if the
    registration was listed.  Of a connection that holds none, nothing happens. *)
Theorem deregistration_exact t c reason :
  registry_reachable t →
  match find_by_connection t c with
  | None => deregister_connection_with_reason t c reason = (t, [], [])
  | Some (slot, r) =>
      ∃ t', deregister_connection_with_reason t c reason =
            (t', [r <| reg_state := ChannelClosed |>],
             [match slot with
              | KindSuperseded => (reg_id r, "replaced", superseded_by t !! c)
              | _ => (reg_id r, end_reason_as_str reason, None)
              end]) ∧
        (∀ d, find_by_connection t' d = if decide (d = c) then None else find_by_connection t d) ∧
        reg_generation t' = if bool_decide (slot = KindActive) && is_published t r
                            then wrap 64 (reg_generation t + 1) else reg_generation t
  end.
Proof.
  intros Hok%registry_reachable_ok. destruct (find_by_connection t c) as [[slot r]|] eqn:Hf; [|by apply deregister_none].
  pose proof (deregister_ok t c reason Hok) as Hok'. rewrite (deregister_found t c slot r reason Hok Hf) in Hok' |- *.
  cbn [fst] in Hok'. eexists. pose proof (proj1 (find_by_connection_Some t c slot r Hok) Hf) as [Hr Hc]. split_and!.
  - f_equal. by destruct slot; simpl; rewrite <-?Hc.
  - intros d. destruct (decide (d = c)) as [->|Hd].
    + apply find_by_connection_None; [done|]. intros (x & Hx & [slot' Hx']%all_holds)%list_elem_of_fmap; [|done].
      unfold notify_module_changed in Hx'. rewrite holds_send, gone_holds in Hx' by done. destruct Hx' as [_ Hne]. congruence.
    + apply find_by_connection_ext; [done..|]. intros slot' x Hx. unfold notify_module_changed.
      rewrite holds_send, gone_holds by done. split; [|by intros []]. intros Hx'. split; [done|congruence].
  - unfold notify_module_changed. rewrite send_change_generation. unfold gone, is_published.
    destruct slot; [|done..]. rewrite bool_decide_not. by destruct (negb _).
Qed.

(** C26: Promotion puts the candidate in the active slot, moves the catalog's
    generation and keeps every registration reachable by its connection; the
    process it replaced is superseded, and when its connection goes the end is
    logged as replaced by the promoted connection, with the catalog as it was. *)
Theorem promotion_exact t id p :
  registry_reachable t → get_candidate t id = Some p →
  ∃ t', promote_candidate t id = (t', Some (mkRegistryCutover p (get_module t id))) ∧
    get_module t' id = Some p ∧ get_candidate t' id = None ∧
    reg_generation t' = wrap 64 (reg_generation t + 1) ∧
    (∀ c, get_module_by_connection t' c = get_module_by_connection t c) ∧
    ∀ old reason, get_module t id = Some old →
      find_by_connection t' (reg_connection old) = Some (KindSuperseded, old) ∧
      ∃ t'', deregister_connection_with_reason t' (reg_connection old) reason =
             (t'', [close_registration old], [(id, "replaced", Some (reg_connection p))]) ∧
        list_modules t'' = list_modules t' ∧ get_module t'' id = Some p.
Proof.
  intros Hok%registry_reachable_ok Hp. unfold get_candidate in Hp. pose proof (promote_candidate_ok t id Hok) as Hok'.
  destruct (promote_spec t id p Hok Hp) as (t' & Heq & Hm & Hc & Hs & _ & Hg & Hby).
  pose proof (λ r, promote_holds t id p t' _ r Hok Hp Heq) as Hh. rewrite Heq in Hok'. cbn [fst] in Hok'.
  exists t'. unfold get_module, get_candidate. rewrite Hm, Hc, lookup_insert_eq, lookup_delete_eq.
  split_and!; [done..|intros c; by apply get_by_connection_ext|]. intros old reason Ho.
  assert (holds t' KindSuperseded old) as Hold by (simpl; rewrite Hs, Ho; set_solver).
  assert (find_by_connection t' (reg_connection old) = Some (KindSuperseded, old)) as Hf by by apply find_by_connection_Some.
  split; [done|]. pose proof (deregister_ok t' (reg_connection old) reason Hok') as Hok''.
  rewrite (deregister_found t' _ _ _ reason Hok' Hf) in Hok'' |- *.
  exists (notify_module_changed (gone t' KindSuperseded old) (reg_id old)). split_and!.
  - simpl. by rewrite (Hby old Ho), (ok_active_id t Hok id old Ho).
  - apply injective_projections; [apply send_change_generation|]. apply (catalog_ext t'); [exact Hok'|exact Hok''|]. intros r.
    unfold notify_module_changed. by rewrite listed_send, gone_other_listed.
  - unfold notify_module_changed. rewrite send_change_modules, (proj1 (gone_maps _ _ _)), Hm. apply lookup_insert_eq.
Qed.
End claims.

(** ** A registry at work

    One module, its supervisor waiting for it, and a candidate that registers
    beside it.  A watch channel is its value, its version and the number of its
    receivers. *)

Definition plain_manifests : ManifestTypes := {|
  RoleRest := unit;
  CapabilityDeclarations := unit;
  ManifestRest := unit;
|}.

Definition counted_watch : Watch := {|
  watch := Z * Z * Z;
  watch_channel v := (v, 0, 0);
  watch_subscribe s := (s.1, s.2 + 1);
  watch_send_modify f s := (f s.1.1, s.1.2 + 1, s.2);
  watch_value s := s.1.1;
  watch_version s := s.1.2;
  watch_receivers s := s.2;
|}.

#[local] Existing Instances plain_manifests counted_watch tree_hash_order.

#[local] Instance counted_watch_laws : WatchLaws.
Proof. split; intros; simpl; done || lia. Qed.

Definition tool : ModuleManifest := mkModuleManifest "tool" 1 None [] None tt.

Definition waiting : RegistryInner := subscribe_module_changes empty_registry "tool".
Definition registering : RegistryInner := (register_unpublished_with_control_ops waiting tool 1 1 []).1.
Definition serving : RegistryInner := (publish_registration registering 1).1.
Definition warming : RegistryInner := (register_unpublished_verified_candidate_with_control_ops serving tool 1 2 []).1.
Definition warm : RegistryInner := (publish_registration warming 2).1.

Lemma waiting_registering : registry_step waiting registering.
Proof. apply step_register. by vm_compute. Qed.

Lemma serving_warming : registry_step serving warming.
Proof. apply step_register_candidate. by vm_compute. Qed.

Lemma waiting_reachable : registry_reachable waiting.
Proof. apply rtc_once. apply step_subscribe. Qed.

Lemma serving_reachable : registry_reachable serving.
Proof. eapply rtc_r; [eapply rtc_r; [apply waiting_reachable|apply waiting_registering]|apply step_publish]. Qed.

Lemma warm_reachable : registry_reachable warm.
Proof. eapply rtc_r; [eapply rtc_r; [apply serving_reachable|apply serving_warming]|apply step_publish]. Qed.

(** A candidate registers without the catalog's noticing. *)
Lemma generation_names_listing_witness :
  (list_modules serving).1 = 1 ∧ length (list_modules serving).2 = 1%nat ∧
  list_modules warming = list_modules serving ∧
  list_modules_with_nonce_verification warming = list_modules_with_nonce_verification serving.
Proof.
  split; [by vm_compute|]. split; [by vm_compute|].
  destruct (generation_names_listing 1 serving warming serving_reachable) as (_ & _ & _ & Hgen).
  - econstructor; [apply serving_warming|constructor].
  - lia.
  - apply Hgen. by vm_compute.
Defined.

(** The supervisor's version moves when the module registers. *)
Lemma subscriber_told_witness :
  ∃ s', module_changes registering !! "tool" = Some s' ∧ 0 ≤ watch_version s' ∧
    (watch_version s' = 0 → get_module registering "tool" = get_module waiting "tool").
Proof.
  destruct (subscriber_told "tool" waiting registering (0, 0, 1) waiting_reachable) as (s' & Hs' & Hle & Hv).
  - apply rtc_once. split; [apply waiting_registering|]. exists (0, 0, 1). split; [by vm_compute|done].
  - by vm_compute.
  - exists s'. split; [done|]. split; [done|]. intros Heq. by apply Hv.
Defined.

(** The candidate's connection goes; the module stays listed. *)
Lemma deregistration_exact_witness :
  ∃ t', (deregister_connection_with_reason warm 2 ExplicitGoodbye).1.1 = t' ∧
    find_by_connection t' 2 = None ∧ find_by_connection t' 1 = find_by_connection warm 1 ∧ reg_generation t' = 1.
Proof.
  assert (find_by_connection warm 2 = Some (KindCandidate, new_registration tool 1 2 [])) as Hf by by vm_compute.
  pose proof (deregistration_exact warm 2 ExplicitGoodbye warm_reachable) as Hd. rewrite Hf in Hd.
  destruct Hd as (t' & Heq & Hfind & Hg). exists t'. split; [by rewrite Heq|]. split; [by rewrite Hfind|].
  split; [by rewrite Hfind|]. rewrite Hg. by vm_compute.
Defined.

(** The candidate takes over and the old process leaves. *)
Lemma promotion_exact_witness :
  ∃ t' cut, promote_candidate warm "tool" = (t', Some cut) ∧ reg_connection (promoted cut) = 2 ∧
    reg_connection <$> get_module t' "tool" = Some 2 ∧
    (deregister_connection_with_reason t' 1 ConnectionClosed).2 = [("tool", "replaced", Some 2)].
Proof.
  destruct (promotion_exact warm "tool" (new_registration tool 1 2 [])) as (t' & Heq & Hm & _ & _ & _ & Hold);
    [apply warm_reachable|by vm_compute|].
  destruct (Hold (new_registration tool 1 1 []) ConnectionClosed) as (_ & t'' & Hd & _); [by vm_compute|].
  eexists t', _. split; [exact Heq|]. split; [done|]. split; [by rewrite Hm|]. simpl in Hd. by rewrite Hd.
Defined.
