(* ===== verification/LaunchNonces.v ===== *)
(** * Launch nonces and the names they guard

    [crates/subc-daemon/src/supervise.rs], the part of [SupervisorHandle] that
    says who may call themselves what: the nonce of each spawn, the names and
    prefixes reserved to the holders of such a nonce, and the swaps under way.
    Each field is behind a mutex of its own, taken for one read or one write; an
    operation here reads the fields it needs at one instant.  A poisoned mutex
    is entered like any other, as the code does. *)

From S2P Require Import Prelude Collections Scopes ScopeAdmit.

(** ** Data *)

Record OpenSwap := mkOpenSwap {
  candidate_nonce : string;
  incumbent_nonce : option string;
  candidate_admitted : bool;
}.

#[global] Instance open_swap_expand : Expand OpenSwap := λ s,
  mkOpenSwap (candidate_nonce s) (incumbent_nonce s) (candidate_admitted s).

Inductive SwapHelloAdmission := NotSwapping | Candidate | Refused.

#[global] Instance swap_admission_eq_dec : EqDecision SwapHelloAdmission.
Proof. solve_decision. Defined.

Inductive ReservedHelloRejection :=
  | RejectExact (module_id : string)
  | RejectPrefix (prefix owner_module_id : string).

(** [modules] is the roster, as the set of its keys. *)
Record SupervisorHandle := mkSupervisorHandle {
  modules : gset string;
  configured_ids : gset string;
  reserved_nonces : gmap string (option string);
  removal_tombstones : gmap string Z;
  spawn_nonces : gmap string string;
  reserved_prefix_owners : gmap string string;
  swaps : gmap string OpenSwap;
}.

#[global] Instance handle_expand : Expand SupervisorHandle := λ h,
  mkSupervisorHandle (modules h) (configured_ids h) (reserved_nonces h) (removal_tombstones h) (spawn_nonces h)
    (reserved_prefix_owners h) (swaps h).

Definition new_handle : SupervisorHandle := mkSupervisorHandle ∅ ∅ ∅ ∅ ∅ ∅ ∅.

(** What of a [ModuleSpec] matters here. *)
Record Identity := mkIdentity {
  spec_module_id : string;
  spec_reserved : bool;
  spec_reserved_prefixes : list string;
}.

Definition nonce_eq (a b : string) : bool := constant_time_eq (str_bytes a) (str_bytes b).

(** ** Operations *)

Section handle.
Context `{HashOrder}.
Implicit Types (h : SupervisorHandle).

Definition set_spawn_nonce h (module_id nonce : string) : SupervisorHandle :=
  h <| spawn_nonces := <[module_id := nonce]> (spawn_nonces h) |>.

Definition set_reserved_nonce h (module_id nonce : string) : SupervisorHandle :=
  h <| reserved_nonces := <[module_id := Some nonce]> (reserved_nonces h) |>.

Definition disowned (owner_module_id : string) (owners : gmap string string) : gmap string string :=
  filter (λ e : string * string, e.2 ≠ owner_module_id) owners.

Definition set_reserved_prefixes h (owner_module_id : string) (prefixes : list string) : SupervisorHandle :=
  h <| reserved_prefix_owners :=
         foldl (λ owners prefix, <[prefix := owner_module_id]> owners)
           (disowned owner_module_id (reserved_prefix_owners h)) prefixes |>.

Definition apply_identity_configuration h (spec : Identity) : SupervisorHandle :=
  let id := spec_module_id spec in
  let h := set_reserved_prefixes h id (spec_reserved_prefixes spec) in
  let spawn_nonce := spawn_nonces h !! id in
  let h := if spec_reserved spec then h <| reserved_nonces := <[id := spawn_nonce]> (reserved_nonces h) |> else h in
  h <| removal_tombstones := delete id (removal_tombstones h) |>.

Definition swap_nonce_matches h (module_id presented : string) : bool :=
  is_some_and (λ swap, nonce_eq (candidate_nonce swap) presented
                       || is_some_and (λ incumbent, nonce_eq incumbent presented) (incumbent_nonce swap))
    (swaps h !! module_id).

(** [max_by_key] keeps the last of the longest. *)
Definition longer (best : option (string * string)) (e : string * string) : option (string * string) :=
  match best with
  | Some b => if (str_len b.1 <=? str_len e.1)%Z then Some e else Some b
  | None => Some e
  end.

Definition matched_prefix h (module_id : string) : option (string * string) :=
  foldl longer None
    (filter (λ e : string * string, String.prefix e.1 module_id = true) (hash_iter (reserved_prefix_owners h))).

Definition reserved_hello_verification h (module_id : string) (presented : option string)
    : Result bool ReservedHelloRejection :=
  match reserved_nonces h !! module_id with
  | Some expected =>
      let authorized := match expected with
                        | Some expected => is_some_and (λ p, nonce_eq expected p) presented
                        | None => false
                        end in
      if authorized then Ok true else Err (RejectExact module_id)
  | None =>
      match matched_prefix h module_id with
      | None => Ok false
      | Some (prefix, owner_module_id) =>
          let authorized :=
            is_some_and (λ p, is_some_and (λ expected, nonce_eq expected p) (spawn_nonces h !! owner_module_id)
                              || swap_nonce_matches h owner_module_id p) presented in
          if authorized then Ok true else Err (RejectPrefix prefix owner_module_id)
      end
  end.

Definition reserved_hello_authorized h (module_id : string) (presented : option string) : bool :=
  match reserved_hello_verification h module_id presented with Ok _ => true | Err _ => false end.

Definition spawned_consumer_authorized h (module_id presented : string) : bool :=
  if str_is_empty presented then false else
  is_some_and (λ expected, nonce_eq expected presented) (spawn_nonces h !! module_id)
  || swap_nonce_matches h module_id presented.

Definition open_swap h (module_id nonce : string) : SupervisorHandle :=
  h <| swaps := <[module_id := mkOpenSwap nonce (spawn_nonces h !! module_id) false]> (swaps h) |>.

Definition close_swap h (module_id : string) : SupervisorHandle :=
  h <| swaps := delete module_id (swaps h) |>.

Definition swap_open h (module_id : string) : bool := is_some (swaps h !! module_id).

Definition promote_swap_nonce h (module_id : string) (reserved : bool) : SupervisorHandle :=
  match swaps h !! module_id with
  | None => h
  | Some swap =>
      let h := set_spawn_nonce h module_id (candidate_nonce swap) in
      if reserved then set_reserved_nonce h module_id (candidate_nonce swap) else h
  end.

Definition swap_hello_admission h (module_id : string) (presented : option string) : SwapHelloAdmission :=
  match swaps h !! module_id with
  | None => NotSwapping
  | Some swap =>
      match presented with
      | None => Refused
      | Some presented =>
          if nonce_eq (candidate_nonce swap) presented then
            if candidate_admitted swap then Refused else Candidate
          else if is_some_and (λ incumbent, nonce_eq incumbent presented) (incumbent_nonce swap) then NotSwapping
          else Refused
      end
  end.

Definition mark_swap_candidate_admitted h (module_id : string) : SupervisorHandle :=
  h <| swaps := alter (λ swap, swap <| candidate_admitted := true |>) module_id (swaps h) |>.

Definition spawn_launch_nonce_for h (module_id : string) : option string := spawn_nonces h !! module_id.

Definition mark_configured h (module_id : string) : SupervisorHandle :=
  h <| configured_ids := {[module_id]} ∪ configured_ids h |>.

(** [insert], and whether a module was there. *)
Definition insert_module h (module_id : string) : SupervisorHandle * bool :=
  let h := mark_configured h module_id in
  (h <| modules := {[module_id]} ∪ modules h |>, bool_decide (module_id ∈ modules h)).

Definition unmark_configured_unless_rostered h (module_id : string) : SupervisorHandle :=
  if decide (module_id ∈ modules h) then h else h <| configured_ids := configured_ids h ∖ {[module_id]} |>.

Definition is_configured h (module_id : string) : bool := bool_decide (module_id ∈ configured_ids h).

Definition establish_identity h (spec : Identity) : SupervisorHandle :=
  mark_configured (apply_identity_configuration h spec) (spec_module_id spec).

Definition retire h (module_id : string) : SupervisorHandle * bool :=
  let h := h <| spawn_nonces := delete module_id (spawn_nonces h) |> in
  let h := close_swap h module_id in
  let h := if is_some (reserved_nonces h !! module_id)
           then h <| reserved_nonces := <[module_id := None]> (reserved_nonces h) |> else h in
  let h := h <| reserved_prefix_owners := disowned module_id (reserved_prefix_owners h) |> in
  let removed := bool_decide (module_id ∈ modules h) in
  let h := h <| modules := modules h ∖ {[module_id]} |> in
  (h <| configured_ids := configured_ids h ∖ {[module_id]} |>, removed).

Definition record_rescan_removal h (module_id : string) (unix_ms : Z) : SupervisorHandle :=
  h <| removal_tombstones := <[module_id := unix_ms]> (removal_tombstones h) |>.

Definition removal_tombstone_age_ms h (module_id : string) (unix_ms : Z) : option Z :=
  (λ removed_at_ms, Z.max 0 (unix_ms - removed_at_ms)) <$> removal_tombstones h !! module_id.

Definition release_retained_reserved_gate h (module_id : string) : SupervisorHandle * bool :=
  if decide (module_id ∈ modules h) then (h, false) else
  match reserved_nonces h !! module_id with
  | Some None => (h <| reserved_nonces := delete module_id (reserved_nonces h) |>, true)
  | _ => (h, false)
  end.

(** Recording the nonce of a spawn, before the process starts. *)
Inductive SpawnRole := PlainSpawn | SwapCandidateSpawn.

Definition record_spawn h (role : SpawnRole) (module_id : string) (reserved : bool) (nonce : string) : SupervisorHandle :=
  match role with
  | PlainSpawn =>
      let h := set_spawn_nonce h module_id nonce in
      if reserved then set_reserved_nonce h module_id nonce else h
  | SwapCandidateSpawn => open_swap h module_id nonce
  end.
End handle.

(** ** Comparisons and prefixes *)

Lemma nonce_eq_spec a b : nonce_eq a b = true ↔ a = b.
Proof. unfold nonce_eq. rewrite constant_time_eq_spec. split; [apply str_bytes_inj|by intros ->]. Qed.

Lemma is_some_and_true {A} (p : A → bool) o : is_some_and p o = true ↔ ∃ a, o = Some a ∧ p a = true.
Proof. destruct o; simpl; naive_solver. Qed.

Lemma prefix_length_eq p q s : String.prefix p s = true → String.prefix q s = true → String.length p = String.length q → p = q.
Proof.
  revert q s. induction p as [|a p IH]; intros [|b q] [|c s]; simpl; try done.
  destruct (Ascii.ascii_dec a c) as [->|], (Ascii.ascii_dec b c) as [->|]; try done. intros Hp Hq Hlen. f_equal.
  apply (IH q s); [done..|lia].
Qed.

(** [p] is the longest of [prefixes] that [s] starts with. *)
Definition longest_prefix (prefixes : gmap string string) (s p : string) : Prop :=
  is_Some (prefixes !! p) ∧ String.prefix p s = true ∧
  ∀ q, is_Some (prefixes !! q) → String.prefix q s = true → str_len q ≤ str_len p.

Lemma longer_max l b :
  match foldl longer b l with
  | None => b = None ∧ l = []
  | Some e => (b = Some e ∨ e ∈ l) ∧ (∀ x, b = Some x ∨ x ∈ l → str_len x.1 ≤ str_len e.1)
  end.
Proof.
  revert b. induction l as [|e l IH]; intros b; simpl.
  - destruct b as [x|]; [|done]. split; [by left|]. intros y [[= ->]|?%elem_of_nil]; done || lia.
  - specialize (IH (longer b e)). destruct (foldl longer (longer b e) l) as [x|].
    + destruct IH as [Hin Hmax]. assert (str_len e.1 ≤ str_len x.1 ∧ ∀ y, b = Some y → str_len y.1 ≤ str_len x.1) as [He Hb].
      { destruct b as [b|]; simpl in *; [|split; [apply Hmax; by left|done]].
        destruct (str_len b.1 <=? str_len e.1) eqn:Hle.
        - specialize (Hmax e (or_introl eq_refl)). split; [done|]. intros y [= <-]. lia.
        - specialize (Hmax b (or_introl eq_refl)). split; [lia|]. by intros y [= <-]. }
      split.
      * destruct Hin as [Heq|]; [|right; by right]. unfold longer in Heq. destruct b as [b|]; [destruct (_ <=? _)|];
          injection Heq as ->; [right; by left|by left|right; by left].
      * intros y [Hy|[->|Hy]%elem_of_cons]; [by apply Hb|done|apply Hmax; by right].
    + destruct IH as [Heq _]. unfold longer in Heq. destruct b as [b|]; [by destruct (_ <=? _)|done].
Qed.

Section handle_lemmas.
Context `{HashOrder}.
Implicit Types (h : SupervisorHandle).

Lemma matched_prefix_Some h id p owner :
  matched_prefix h id = Some (p, owner) ↔
  longest_prefix (reserved_prefix_owners h) id p ∧ reserved_prefix_owners h !! p = Some owner.
Proof.
  unfold matched_prefix. set (l := filter _ _).
  assert (∀ q o, (q, o) ∈ l ↔ String.prefix q id = true ∧ reserved_prefix_owners h !! q = Some o) as Hl.
  { intros q o. unfold l. by rewrite list_elem_of_filter, elem_of_hash_iter. }
  pose proof (longer_max l None) as Hmax. destruct (foldl longer None l) as [[p' o']|]; [|split; [done|]].
  - destruct Hmax as [[?|Hin] Hmax]; [done|]. apply Hl in Hin as [Hp Ho].
    assert (∀ q o, reserved_prefix_owners h !! q = Some o → String.prefix q id = true → str_len q ≤ str_len p') as Hall.
    { intros q o Hq Hpre. apply (Hmax (q, o)). right. by apply Hl. }
    split.
    + intros [= -> ->]. split; [|done]. split_and!; [by eexists|done|]. intros q [o Hq]. by eapply Hall.
    + intros [(_ & Hpre & Hlong) Ho'].
      assert (p = p') as ->; [|congruence]. apply (prefix_length_eq p p' id); [done..|].
      pose proof (Hall p owner Ho' Hpre). pose proof (Hlong p' (ex_intro _ o' Ho) Hp). unfold str_len in *. lia.
  - destruct Hmax as [_ Hnil]. intros [(_ & Hpre & _) Ho]. assert ((p, owner) ∈ l) as Hin by by apply Hl.
    rewrite Hnil in Hin. by apply elem_of_nil in Hin.
Qed.

Lemma matched_prefix_None h id :
  matched_prefix h id = None ↔ ∀ q, is_Some (reserved_prefix_owners h !! q) → String.prefix q id = false.
Proof.
  unfold matched_prefix. set (l := filter _ _).
  assert (∀ q o, (q, o) ∈ l ↔ String.prefix q id = true ∧ reserved_prefix_owners h !! q = Some o) as Hl.
  { intros q o. unfold l. by rewrite list_elem_of_filter, elem_of_hash_iter. }
  pose proof (longer_max l None) as Hmax. destruct (foldl longer None l) as [[p' o']|]; split; try done.
  - destruct Hmax as [[?|Hin] _]; [done|]. apply Hl in Hin as [Hp Ho]. intros Hnone.
    rewrite (Hnone p') in Hp; [done|by eexists].
  - destruct Hmax as [_ Hnil]. intros _ q [o Ho]. destruct (String.prefix q id) eqn:Hp; [|done].
    assert ((q, o) ∈ l) as Hin by by apply Hl. rewrite Hnil in Hin. by apply elem_of_nil in Hin.
Qed.

(** [n] is a nonce of one of the two processes of a swap under way. *)
Definition swap_nonce h (id n : string) : Prop :=
  ∃ swap, swaps h !! id = Some swap ∧ (candidate_nonce swap = n ∨ incumbent_nonce swap = Some n).

Lemma swap_nonce_matches_spec h id n : swap_nonce_matches h id n = true ↔ swap_nonce h id n.
Proof.
  unfold swap_nonce_matches, swap_nonce. rewrite is_some_and_true.
  setoid_rewrite orb_true_iff. setoid_rewrite is_some_and_true. setoid_rewrite nonce_eq_spec. naive_solver.
Qed.

(** [n] is the current nonce of a process of the module. *)
Definition current_nonce h (id n : string) : Prop := spawn_nonces h !! id = Some n ∨ swap_nonce h id n.

Lemma current_nonce_spec h id n :
  is_some_and (λ expected, nonce_eq expected n) (spawn_nonces h !! id) || swap_nonce_matches h id n = true ↔ current_nonce h id n.
Proof.
  unfold current_nonce. rewrite orb_true_iff, swap_nonce_matches_spec, is_some_and_true. setoid_rewrite nonce_eq_spec. naive_solver.
Qed.

(** Who may register under an id, and whether that took a proof. *)
Definition may_register h (id : string) (presented : option string) (proved : bool) : Prop :=
  match reserved_nonces h !! id with
  | Some gate => proved = true ∧ is_Some presented ∧ gate = presented
  | None =>
      if proved then ∃ p owner n, longest_prefix (reserved_prefix_owners h) id p ∧
                                  reserved_prefix_owners h !! p = Some owner ∧ presented = Some n ∧ current_nonce h owner n
      else ∀ q, is_Some (reserved_prefix_owners h !! q) → String.prefix q id = false
  end.

Lemma verification_spec h id presented proved :
  reserved_hello_verification h id presented = Ok proved ↔ may_register h id presented proved.
Proof.
  unfold reserved_hello_verification, may_register. destruct (reserved_nonces h !! id) as [[n|]|].
  - destruct presented as [p|]; simpl; [|split; [done|by intros (_ & [? ?] & _)]].
    destruct (nonce_eq n p) eqn:Hn.
    + apply nonce_eq_spec in Hn as ->. split; [intros [= <-]; eauto|by intros (-> & _)].
    + split; [done|]. intros (_ & _ & [= ->]). by rewrite (proj2 (nonce_eq_spec p p) eq_refl) in Hn.
  - split; [done|]. by intros (_ & [? ->] & ?).
  - destruct (matched_prefix h id) as [[p owner]|] eqn:Hm.
    + apply matched_prefix_Some in Hm as [Hlong Ho]. destruct (is_some_and _ presented) eqn:Ha.
      * apply is_some_and_true in Ha as (n & -> & Hn%current_nonce_spec).
        destruct proved; split; try done; [by exists p, owner, n|]. intros Hnone. destruct Hlong as (Hp & Hpre & _). by rewrite Hnone in Hpre.
      * split; [done|]. destruct proved.
        -- intros (q & o & n & Hq & Hqo & -> & Hn). assert (matched_prefix h id = Some (q, o)) as Hm by by apply matched_prefix_Some.
           assert (matched_prefix h id = Some (p, owner)) as Hm' by by apply matched_prefix_Some.
           assert (o = owner) as -> by congruence. simpl in Ha. by rewrite (proj2 (current_nonce_spec h owner n) Hn) in Ha.
        -- intros Hnone. destruct Hlong as (Hp & Hpre & _). by rewrite Hnone in Hpre.
    + pose proof (proj1 (matched_prefix_None h id) Hm) as Hnone. destruct proved; split; try done.
      intros (q & o & n & (Hq & Hpre & _) & _). by rewrite Hnone in Hpre.
Qed.
End handle_lemmas.

(** ** Histories

    What the daemon does to a handle, beside a ledger of what it did so far: the
    nonces minted, each for the module of the spawn it was minted for, and the
    prefixes configured, each with its owner.  A minted nonce is the hexadecimal
    rendering of 32 bytes; that it is not empty is all that matters here. *)

Record Ledger := mkLedger {
  minted : list (string * string);
  owned : list (string * string);
}.

Definition no_ledger : Ledger := mkLedger [] [].

Definition mint (id n : string) (l : Ledger) : Ledger := mkLedger ((id, n) :: minted l) (owned l).

Definition configure (spec : Identity) (l : Ledger) : Ledger :=
  mkLedger (minted l) (((λ p, (p, spec_module_id spec)) <$> spec_reserved_prefixes spec) ++ owned l).

Inductive handle_step : Ledger * SupervisorHandle → Ledger * SupervisorHandle → Prop :=
  | hs_spawn l h role id reserved n :
      n ≠ "" → handle_step (l, h) (mint id n l, record_spawn h role id reserved n)
  | hs_configure l h spec : handle_step (l, h) (configure spec l, apply_identity_configuration h spec)
  | hs_establish l h spec : handle_step (l, h) (configure spec l, establish_identity h spec)
  | hs_insert l h id : handle_step (l, h) (l, (insert_module h id).1)
  | hs_unmark l h id : handle_step (l, h) (l, unmark_configured_unless_rostered h id)
  | hs_promote l h id reserved : handle_step (l, h) (l, promote_swap_nonce h id reserved)
  | hs_mark l h id : handle_step (l, h) (l, mark_swap_candidate_admitted h id)
  | hs_close l h id : handle_step (l, h) (l, close_swap h id)
  | hs_retire l h id : handle_step (l, h) (l, (retire h id).1)
  | hs_removal l h id now : handle_step (l, h) (l, record_rescan_removal h id now)
  | hs_release l h id : handle_step (l, h) (l, (release_retained_reserved_gate h id).1).

Record ledger_ok (l : Ledger) (h : SupervisorHandle) : Prop := {
  lo_minted id n : (id, n) ∈ minted l → n ≠ "";
  lo_spawn id n : spawn_nonces h !! id = Some n → (id, n) ∈ minted l;
  lo_reserved id n : reserved_nonces h !! id = Some (Some n) → (id, n) ∈ minted l;
  lo_swap id s : swaps h !! id = Some s →
    (id, candidate_nonce s) ∈ minted l ∧ ∀ n, incumbent_nonce s = Some n → (id, n) ∈ minted l;
  lo_owner p o : reserved_prefix_owners h !! p = Some o → (p, o) ∈ owned l;
}.

Lemma ledger_mint l h id n : n ≠ "" → ledger_ok l h → ledger_ok (mint id n l) h.
Proof.
  intros Hn [H1 H2 H3 H4 H5]. split; simpl; [|eauto using list_elem_of_further..|done].
  - intros j m [Heq|?]%elem_of_cons; [by simplify_eq|eauto].
  - intros j s Hs. destruct (H4 j s Hs). split; eauto using list_elem_of_further.
Qed.

Lemma ledger_set_spawn l h id n : (id, n) ∈ minted l → ledger_ok l h → ledger_ok l (set_spawn_nonce h id n).
Proof. intros Hn [H1 H2 H3 H4 H5]. split; simpl; [done| |done..]. intros j m [[-> ->]|[_ ?]]%lookup_insert_Some; eauto. Qed.

Lemma ledger_set_reserved l h id n :
  (∀ m, n = Some m → (id, m) ∈ minted l) → ledger_ok l h →
  ledger_ok l (h <| reserved_nonces := <[id := n]> (reserved_nonces h) |>).
Proof.
  intros Hn [H1 H2 H3 H4 H5]. split; simpl; [done|done| |done..]. intros j m [[-> ?]|[_ ?]]%lookup_insert_Some; eauto.
Qed.

Lemma ledger_set_swaps l h m :
  (∀ id s, m !! id = Some s → (id, candidate_nonce s) ∈ minted l ∧ ∀ n, incumbent_nonce s = Some n → (id, n) ∈ minted l) →
  ledger_ok l h → ledger_ok l (h <| swaps := m |>).
Proof. intros Hm [H1 H2 H3 H4 H5]. by split. Qed.

Lemma prefixes_owned o prefixes (m : gmap string string) p q :
  foldl (λ owners prefix, <[prefix := o]> owners) m prefixes !! p = Some q →
  m !! p = Some q ∨ p ∈ prefixes ∧ q = o.
Proof.
  revert m. induction prefixes as [|x l IH]; intros m; simpl; [by left|]. intros [[[-> <-]|[_ Hm]]%lookup_insert_Some|[Hp ->]]%IH.
  - right. split; [by left|done].
  - by left.
  - right. split; [by right|done].
Qed.

Lemma ledger_configure l h spec : ledger_ok l h → ledger_ok (configure spec l) (apply_identity_configuration h spec).
Proof.
  intros [H1 H2 H3 H4 H5].
  assert (∀ p o, reserved_prefix_owners (set_reserved_prefixes h (spec_module_id spec) (spec_reserved_prefixes spec)) !! p = Some o →
    (p, o) ∈ owned (configure spec l)) as Ho.
  { intros p o. simpl. intros [[Hp _]%map_lookup_filter_Some|[Hp ->]]%prefixes_owned; apply elem_of_app; [right; eauto|left].
    apply list_elem_of_fmap. by exists p. }
  unfold apply_identity_configuration. destruct (spec_reserved spec); split; simpl; try done.
  intros j n [[-> ?]|[_ ?]]%lookup_insert_Some; eauto.
Qed.

Lemma ledger_step w w' : handle_step w w' → ledger_ok w.1 w.2 → ledger_ok w'.1 w'.2.
Proof.
  intros [l h role id reserved n Hn|l h spec|l h spec|l h id|l h id|l h id reserved|l h id
         |l h id|l h id|l h id now|l h id]; cbn [fst snd]; intros Hok.
  - pose proof (ledger_mint l h id n Hn Hok) as Hok'. destruct role; simpl.
    + assert ((id, n) ∈ minted (mint id n l)) as Hin by by left.
      pose proof (ledger_set_spawn _ h id n Hin Hok') as Hs. destruct reserved; [|done].
      apply ledger_set_reserved; [|done]. by intros m [= <-].
    + apply ledger_set_swaps; [|done]. intros j s [[-> <-]|[_ Hs]]%lookup_insert_Some; simpl.
      * split; [by left|]. intros m Hm. right. by apply Hok.
      * by apply (lo_swap _ _ Hok').
  - by apply ledger_configure.
  - destruct (ledger_configure l h spec Hok) as [H1 H2 H3 H4 H5]. by split.
  - destruct Hok as [H1 H2 H3 H4 H5]. by split.
  - unfold unmark_configured_unless_rostered. destruct (decide _); [done|]. destruct Hok as [H1 H2 H3 H4 H5]. by split.
  - unfold promote_swap_nonce. destruct (swaps h !! id) as [s|] eqn:Hs; [|done].
    destruct (lo_swap _ _ Hok id s Hs) as [Hc _]. pose proof (ledger_set_spawn _ h id _ Hc Hok). destruct reserved; [|done].
    apply ledger_set_reserved; [|done]. by intros m [= <-].
  - apply ledger_set_swaps; [|done]. intros j s. rewrite lookup_alter_Some.
    intros [(-> & s0 & Hs0 & ->)|[_ Hs]]; [by apply (lo_swap _ _ Hok) in Hs0|by apply (lo_swap _ _ Hok)].
  - apply ledger_set_swaps; [|done]. intros j s [_ Hs]%lookup_delete_Some. by apply (lo_swap _ _ Hok).
  - destruct Hok as [H1 H2 H3 H4 H5]. unfold retire. split; cbn [fst]; [done|..].
    + destruct (is_some _); simpl; intros j m [_ ?]%lookup_delete_Some; eauto.
    + destruct (is_some _); simpl; [|eauto]. intros j m [[_ ?]|[_ ?]]%lookup_insert_Some; eauto; done.
    + destruct (is_some _); simpl; intros j s [_ ?]%lookup_delete_Some; eauto.
    + destruct (is_some _); simpl; intros p o [Hp _]%map_lookup_filter_Some; eauto.
  - destruct Hok as [H1 H2 H3 H4 H5]. by split.
  - unfold release_retained_reserved_gate. destruct (decide _); [done|].
    destruct (reserved_nonces h !! id) as [[|]|]; [done| |done]. destruct Hok as [H1 H2 H3 H4 H5].
    split; simpl; [done|done| |done..]. intros j m [_ ?]%lookup_delete_Some. eauto.
Qed.

Lemma ledger_run w w' : rtc handle_step w w' → ledger_ok w.1 w.2 → ledger_ok w'.1 w'.2.
Proof. induction 1 as [|w1 w2 w3 Hstep _ IH]; [done|]. intros Hok. by apply IH, (ledger_step _ _ Hstep). Qed.

Lemma no_ledger_ok : ledger_ok no_ledger new_handle.
Proof. split; simpl; [by intros ?? ?%elem_of_nil|..]; intros j x Hx; by apply lookup_empty_Some in Hx. Qed.

(** [n] was minted for the module [id], or for a module that was given a prefix
    of [id]. *)
Definition vouched (l : Ledger) (id n : string) : Prop :=
  (id, n) ∈ minted l ∨
  ∃ p owner, (p, owner) ∈ owned l ∧ String.prefix p id = true ∧ (owner, n) ∈ minted l.

Lemma current_nonce_minted l h id n : ledger_ok l h → current_nonce h id n → (id, n) ∈ minted l.
Proof.
  intros Hok [Hs|(s & Hs & Hn)]; [by apply (lo_spawn _ _ Hok)|]. destruct (lo_swap _ _ Hok id s Hs) as [Hc Hi].
  destruct Hn as [<-|Hn]; [done|by apply Hi].
Qed.

Lemma verification_vouched `{HashOrder} l h id presented :
  ledger_ok l h → reserved_hello_verification h id presented = Ok true → ∃ n, presented = Some n ∧ vouched l id n.
Proof.
  intros Hok Hv%verification_spec. unfold may_register in Hv. destruct (reserved_nonces h !! id) as [gate|] eqn:Hg.
  - destruct Hv as (_ & [n ->] & ->). exists n. split; [done|]. left. by apply (lo_reserved _ _ Hok).
  - destruct Hv as (p & owner & n & (_ & Hpre & _) & Ho & -> & Hn). exists n. split; [done|]. right.
    exists p, owner. split_and!; [by apply (lo_owner _ _ Hok)|done|by eapply current_nonce_minted].
Qed.

Lemma consumer_minted l h id n : ledger_ok l h → spawned_consumer_authorized h id n = true → (id, n) ∈ minted l.
Proof.
  intros Hok. unfold spawned_consumer_authorized. destruct (str_is_empty n); [done|].
  rewrite current_nonce_spec. by apply current_nonce_minted.
Qed.

Lemma admission_minted l h id presented :
  ledger_ok l h → swap_hello_admission h id presented = Candidate → ∃ n, presented = Some n ∧ (id, n) ∈ minted l.
Proof.
  intros Hok. unfold swap_hello_admission. destruct (swaps h !! id) as [s|] eqn:Hs; [|done].
  destruct presented as [n|]; [|done]. destruct (nonce_eq _ n) eqn:Hn; [|by destruct (is_some_and _ _)].
  apply nonce_eq_spec in Hn as <-. intros _. exists (candidate_nonce s). split; [done|]. by destruct (lo_swap _ _ Hok id s Hs).
Qed.

(** A gate stands until it is released. *)
Lemma gate_stays l h l' h' id :
  handle_step (l, h) (l', h') → is_Some (reserved_nonces h !! id) →
  is_Some (reserved_nonces h' !! id) ∨
  (h' = (release_retained_reserved_gate h id).1) ∧ (l' = l) ∧ (id ∉ modules h) ∧ reserved_nonces h !! id = Some None.
Proof.
  assert (∀ (m : gmap string (option string)) j v, is_Some (m !! id) → is_Some ((<[j := v]> m) !! id)) as Hins.
  { intros m j v Hm. destruct (decide (j = id)) as [->|]; [rewrite lookup_insert_eq; by eexists|by rewrite lookup_insert_ne]. }
  intros Hstep Hid. inversion Hstep; subst; [left..|].
  - destruct role, reserved; simpl; by try apply Hins.
  - unfold apply_identity_configuration. destruct (spec_reserved spec); simpl; by try apply Hins.
  - unfold establish_identity, apply_identity_configuration. destruct (spec_reserved spec); simpl; by try apply Hins.
  - done.
  - unfold unmark_configured_unless_rostered. by destruct (decide _).
  - unfold promote_swap_nonce. destruct (swaps h !! id0); [|done]. destruct reserved; simpl; by try apply Hins.
  - done.
  - done.
  - unfold retire. destruct (is_some _); simpl; by try apply Hins.
  - done.
  - unfold release_retained_reserved_gate. destruct (decide (id0 ∈ modules h)); [by left|].
    destruct (reserved_nonces h !! id0) as [[|]|] eqn:Hg; [by left| |by left].
    destruct (decide (id0 = id)) as [->|]; [by right; rewrite decide_False, Hg|]. left. simpl. by rewrite lookup_delete_ne.
Qed.

Lemma gate_run l h l' h' id :
  rtc handle_step (l, h) (l', h') → is_Some (reserved_nonces h !! id) →
  is_Some (reserved_nonces h' !! id) ∨
  ∃ l1 h1, rtc handle_step (l, h) (l1, h1) ∧ (id ∉ modules h1) ∧ reserved_nonces h1 !! id = Some None ∧
    rtc handle_step (l1, (release_retained_reserved_gate h1 id).1) (l', h').
Proof.
  remember (l, h) as w eqn:Hw. remember (l', h') as w' eqn:Hw'. intros Hrun. revert l h Hw.
  induction Hrun as [w|w [l1 h1] w' Hstep Hrun IH]; intros l h -> Hid; [simplify_eq; by left|].
  destruct (gate_stays l h l1 h1 id Hstep Hid) as [Hid1|(-> & -> & Hm & Hg)].
  - destruct (IH Hw' l1 h1 eq_refl Hid1) as [?|(l2 & h2 & Hr & Hrest)]; [by left|right]. exists l2, h2. split; [|done].
    by eapply rtc_l.
  - right. exists l, h. by split_and!.
Qed.
