(* ===== verification/Hello.v ===== *)
(** * Registering, swapping and leaving

    [crates/subc-daemon/src/control.rs]: the handler of a module's HELLO and the
    teardown of a connection, and [supervise_swap.rs]: the cutover of a swap.
    Each touches several shared tables, one lock at a time, so each is a program
    of atomic actions ([Program]).  What the HELLO body parses and validates to
    is an argument; the capability evaluator, the supervisor's process snapshots
    and the encoding of the acknowledgement answer as the environment likes.
    Refusals carry their code, not their text. *)

From S2P Require Import Prelude Collections Envelope Program Tokens ScopeTypes Scopes.
From S2P Require Import Flow Forwarding Registry LaunchNonces.

(** ** Small helpers *)

Definition MODULE_BASELINE_CONTROL_OPS : list string := ["route.bind"; "route.status"].

Definition push_new (effective : list string) (op : string) : list string :=
  if decide (op ∈ effective) then effective else effective ++ [op].

Definition effective_module_control_ops (declared : option (list string)) : list string :=
  foldl push_new (foldl push_new [] MODULE_BASELINE_CONTROL_OPS) (default [] declared).

Definition negotiate_version (peer_version : Z) : option Z :=
  if negb (peer_version =? PROTOCOL_VERSION) then None else Some PROTOCOL_VERSION.

Definition forwarding_error_code (err : ForwardingError) : string :=
  match err with
  | ConnectionRoleConflict _ => "invalid_request"
  | NoModuleConnection => "target_unavailable"
  | ReloadingModule _ => "module_reloading"
  | ClientRouteChannelExhausted _ | ModuleRouteChannelExhausted _ => "route_limit"
  | StaleModuleEndpoint | UnknownReservation _ _ | ConnectionClosing _ | ClientEgressClosed _
  | ModuleEgressUnavailable _ => "target_unavailable"
  | CandidateSlotOccupied _ => "duplicate_module_id"
  | RelayCorrelationExhausted | RouteOpenBuild | Poisoned => "forwarding_error"
  end.

(** [str::trim().is_empty()]: nothing but characters of Unicode's [White_Space],
    in UTF-8. *)
Fixpoint blank (s : list Z) : bool :=
  match s with
  | [] => true
  | a :: rest =>
      if (9 <=? a) && (a <=? 13) || (a =? 32) then blank rest else
      match rest with
      | b :: rest =>
          if (a =? 194) && ((b =? 133) || (b =? 160)) then blank rest else
          match rest with
          | c :: rest =>
              if (a =? 225) && (b =? 154) && (c =? 128)
                 || (a =? 226) && (b =? 128) && ((128 <=? c) && (c <=? 138) || (c =? 168) || (c =? 169) || (c =? 175))
                 || (a =? 226) && (b =? 129) && (c =? 159)
                 || (a =? 227) && (b =? 128) && (c =? 128)
              then blank rest else false
          | [] => false
          end
      | [] => false
      end
  end.

Section hello.
Context `{ManifestTypes} `{Watch} `{HashOrder} `{Semaphore}.

Definition role_concurrency (role : ProviderRole) : option Concurrency :=
  match role with
  | ToolProvider c _ | ManagementSurface c _ => Some c
  | PipelineStage _ | InternalService _ => None
  end.

Definition manifest_concurrency (m : ModuleManifest) : Concurrency := default ModuleManaged (head (omap role_concurrency (provides m))).

Record ModuleHelloBody := mkModuleHelloBody {
  hello_manifest : ModuleManifest;
  hello_protocol_ver : Z;
  hello_control_ops : option (list string);
  hello_launch_nonce : option string;
}.

(** ** Actions *)

(** What is done in parts of the daemon that are not modelled. *)
Inductive Elsewhere :=
  | NotifyRegistrationRelease
  | WakeDeadlineLoop
  | RefreshRequirements
  | ApplyRegistrationCapabilities (r : ModuleRegistration)
  | RecordActivityRegistration (id : string)
  | PushRouteClosed (id : string) (routes : list EndpointRoute.t) (reason : RouteCloseReason.t) (drained terminal : bool)
      (abandoned : Z)
  | EmitRouteGoodbyes (targets : list GoodbyeTarget.t)
  | RemoveSpawnSubscribers (connection_id : Z)
  | AbortActivityStreams (connection_id : Z)
  | ReleaseScopeAuthority (connection_id : Z).

Inductive Action :=
  (* the registry *)
  | ByConnection (connection_id : Z)
  | RegisterUnpublished (m : ModuleManifest) (ver connection_id : Z) (ops : list string) (verified : bool)
  | RegisterUnpublishedCandidate (m : ModuleManifest) (ver connection_id : Z) (ops : list string)
  | Publish (connection_id : Z)
  | Deregister (connection_id : Z) (reason : RegistrationEndReason)
  | Promote (id : string)
  (* the supervisor's handle *)
  | SwapAdmission (id : string) (nonce : option string)
  | ReservedVerification (id : string) (nonce : option string)
  | MarkAdmitted (id : string)
  | PromoteNonce (id : string) (reserved : bool)
  (* the forwarding table *)
  | HasClientRoutes (connection_id : Z)
  | Install (connection_id : Z) (id : string) (ver : Z) (conc : Concurrency) (sink : Sink) (ack : Frame.t)
  | InstallCandidate (connection_id : Z) (id : string) (ver : Z) (conc : Concurrency) (sink : Sink) (ack : Frame.t)
  | EndpointFor (connection_id : Z)
  | RoutesOf (endpoint : ModuleEndpointId.t)
  | DrainResult (connection_id : Z)
  | Cleanup (connection_id : Z)
  | CutOver (id : string)
  (* the nonces presented so far *)
  | RecordNonce (connection_id : Z) (nonce : option string)
  | ForgetNonce (connection_id : Z)
  (* questions answered elsewhere *)
  | ReservedCapability (id : string) (caps : option CapabilityDeclarations)
  | BuildAck (ver : Z) (id : string)
  | EndReason (id : string)
  | WillRecover (id : string)
  | Elsewhere_ (what : Elsewhere).

Definition answer (a : Action) : Type :=
  match a with
  | ByConnection _ => option ModuleRegistration
  | RegisterUnpublished _ _ _ _ _ | RegisterUnpublishedCandidate _ _ _ _ => Result ModuleRegistration RegistryError
  | Publish _ => bool
  | Deregister _ _ => list ModuleRegistration
  | Promote _ => option RegistryCutover
  | SwapAdmission _ _ => SwapHelloAdmission
  | ReservedVerification _ _ => Result bool ReservedHelloRejection
  | HasClientRoutes _ => bool
  | Install _ _ _ _ _ _ | InstallCandidate _ _ _ _ _ _ => Result ModuleEndpointId.t ForwardingError
  | EndpointFor _ => option ModuleEndpointId.t
  | RoutesOf _ => list EndpointRoute.t
  | DrainResult _ => option bool
  | Cleanup _ => ConnectionCleanup
  | CutOver _ => Result (option ForwardingCutover) ForwardingError
  | ReservedCapability _ _ => bool
  | BuildAck _ _ => option Frame.t
  | EndReason _ => option RegistrationEndReason
  | WillRecover _ => option bool
  | MarkAdmitted _ | PromoteNonce _ _ | RecordNonce _ _ | ForgetNonce _ | Elsewhere_ _ => unit
  end.

#[global] Instance hello_signature : Signature := {| Act := Action; resp := answer |}.

Definition do (a : Action) : Prog (answer a) := act a.
Definition elsewhere (what : Elsewhere) : Prog unit := do (Elsewhere_ what).

(** ** HELLO *)

(** What goes back on the connection; [HelloFailed]: the acknowledgement could
    not be built. *)
Inductive HelloReply :=
  | HelloRefused (code : string)
  | HelloAcknowledged (ack : option Frame.t)
  | HelloFailed.

Definition registry_error_code (err : RegistryError) : string :=
  match err with
  | DuplicateModuleId _ => "duplicate_module_id"
  | PathHazardModuleId _ _ => "invalid_module_id"
  end.

(** Forwarding refused: the registration is taken back. *)
Definition hello_unregister (connection_id : Z) (code : string) : Prog HelloReply :=
  closed ← do (Deregister connection_id RegistrationFailed);
  match closed with
  | [] => mret (HelloRefused code)
  | _ => _ ← elsewhere NotifyRegistrationRelease; mret (HelloRefused code)
  end.

Definition hello_published (connection_id : Z) (r : ModuleRegistration) (reply : HelloReply) : Prog HelloReply :=
  _ ← do (Publish connection_id);
  _ ← elsewhere (ApplyRegistrationCapabilities r);
  _ ← elsewhere (RecordActivityRegistration (reg_id r));
  mret reply.

Definition install_error_code (err : ForwardingError) : string :=
  match err with
  | ConnectionRoleConflict _ => "invalid_hello"
  | err => forwarding_error_code err
  end.

Definition hello_register (connection_id : Z) (sink : option Sink) (m : ModuleManifest) (ver : Z) (ops : list string)
    (verified : bool) (ack : Frame.t) : Prog HelloReply :=
  registered ← do (RegisterUnpublished m ver connection_id ops verified);
  match registered with
  | Err err => mret (HelloRefused (registry_error_code err))
  | Ok r =>
      match sink with
      | None => hello_published connection_id r (HelloAcknowledged (Some ack))
      | Some sink =>
          installed ← do (Install connection_id (reg_id r) ver (manifest_concurrency (manifest r)) sink ack);
          match installed with
          | Err err => hello_unregister connection_id (install_error_code err)
          | Ok _ => hello_published connection_id r (HelloAcknowledged None)
          end
      end
  end.

Definition candidate_published (connection_id : Z) (id : string) (reply : HelloReply) : Prog HelloReply :=
  _ ← do (Publish connection_id);
  _ ← do (MarkAdmitted id);
  mret reply.

Definition register_swap_candidate (connection_id : Z) (sink : option Sink) (m : ModuleManifest) (ver : Z)
    (ops : list string) (ack : Frame.t) : Prog HelloReply :=
  registered ← do (RegisterUnpublishedCandidate m ver connection_id ops);
  match registered with
  | Err err => mret (HelloRefused (registry_error_code err))
  | Ok r =>
      match sink with
      | None => candidate_published connection_id (module_id m) (HelloAcknowledged (Some ack))
      | Some sink =>
          installed ← do (InstallCandidate connection_id (module_id m) ver (manifest_concurrency (manifest r)) sink ack);
          match installed with
          | Err err => hello_unregister connection_id (forwarding_error_code err)
          | Ok _ => candidate_published connection_id (module_id m) (HelloAcknowledged None)
          end
      end
  end.

(** The gates are passed; [verified]: a nonce was asked for and was right. *)
Definition hello_admitted (connection_id : Z) (sink : option Sink) (hello : ModuleHelloBody) (ver : Z)
    (swap_candidate verified : bool) : Prog HelloReply :=
  let m := hello_manifest hello in
  refused ← do (ReservedCapability (module_id m) (capabilities m));
  if (refused : bool) then mret (HelloRefused "reserved_capability") else
  client ← do (HasClientRoutes connection_id);
  if (client : bool) then mret (HelloRefused "invalid_hello") else
  _ ← do (RecordNonce connection_id (hello_launch_nonce hello));
  let ops := effective_module_control_ops (hello_control_ops hello) in
  ack ← do (BuildAck ver (module_id m));
  match ack with
  | None => mret HelloFailed
  | Some ack =>
      if swap_candidate then register_swap_candidate connection_id sink m ver ops ack
      else hello_register connection_id sink m ver ops verified ack
  end.

(** [parsed]: the body as [serde_json] and the validators of its fields leave it. *)
Definition handle_hello (connection_id : Z) (sink : option Sink) (parsed : Result ModuleHelloBody string) : Prog HelloReply :=
  known ← do (ByConnection connection_id);
  if is_some known then mret (HelloRefused "invalid_hello") else
  match parsed with
  | Err code => mret (HelloRefused code)
  | Ok hello =>
      let m := hello_manifest hello in
      if negb (hello_protocol_ver hello =? manifest_protocol_ver m) then mret (HelloRefused "invalid_manifest") else
      if blank (str_bytes (module_id m)) then mret (HelloRefused "invalid_manifest") else
      match negotiate_version (hello_protocol_ver hello) with
      | None => mret (HelloRefused "version_unsupported")
      | Some ver =>
          admission ← do (SwapAdmission (module_id m) (hello_launch_nonce hello));
          match admission with
          | Refused => mret (HelloRefused "swap_token_invalid")
          | Candidate => hello_admitted connection_id sink hello ver true true
          | NotSwapping =>
              verification ← do (ReservedVerification (module_id m) (hello_launch_nonce hello));
              match verification with
              | Err _ => mret (HelloRefused "reserved_module")
              | Ok verified => hello_admitted connection_id sink hello ver false verified
              end
          end
      end
  end.

(** ** A connection ends *)

(** The reason logged for the end of a registration. *)
Definition end_reason_for (connection_id : Z) (requested : RegistrationEndReason) : Prog RegistrationEndReason :=
  match requested with
  | ConnectionClosed =>
      known ← do (ByConnection connection_id);
      match known with
      | None => mret requested
      | Some r => reason ← do (EndReason (reg_id r)); mret (default requested reason)
      end
  | _ => mret requested
  end.

(** The module's id and the routes its clients lose. *)
Definition crash_closed_routes (connection_id : Z) : Prog (option (string * list EndpointRoute.t)) :=
  known ← do (ByConnection connection_id);
  match known with
  | None => mret None
  | Some r =>
      endpoint ← do (EndpointFor connection_id);
      match endpoint with
      | None => mret None
      | Some e => routes ← do (RoutesOf e); mret (Some (reg_id r, routes))
      end
  end.

(** Why they lose them, whether requests were let finish, and for good or not. *)
Definition close_verdict (connection_id : Z) (id : string) : Prog (RouteCloseReason.t * bool * bool) :=
  will_recover ← do (WillRecover id);
  let terminal := match will_recover with Some b => negb b | None => false end in
  drained ← do (DrainResult connection_id);
  mret (match drained with
        | Some drained => (RouteCloseReason.Restart, drained, terminal)
        | None => (RouteCloseReason.Crash, false, terminal)
        end).

(** Both tables have forgotten the connection; who else is told. *)
Definition report_teardown (connection_id : Z)
    (crash_closed : option (string * list EndpointRoute.t * (RouteCloseReason.t * bool * bool)))
    (registrations : list ModuleRegistration) (cleanup : ConnectionCleanup) : Prog unit :=
  _ ← match crash_closed with
      | None => mret tt
      | Some (id, routes, (reason, drained, terminal)) =>
          elsewhere (PushRouteClosed id routes reason drained terminal (abandoned_relays cleanup))
      end;
  _ ← elsewhere (EmitRouteGoodbyes (released_routes cleanup));
  _ ← match registrations with
      | [] => mret tt
      | _ => _ ← elsewhere NotifyRegistrationRelease; _ ← elsewhere WakeDeadlineLoop; elsewhere RefreshRequirements
      end;
  _ ← elsewhere (RemoveSpawnSubscribers connection_id);
  _ ← elsewhere (AbortActivityStreams connection_id);
  _ ← do (ForgetNonce connection_id);
  elsewhere (ReleaseScopeAuthority connection_id).

Definition cleanup_connection_with_end_reason (connection_id : Z) (requested : RegistrationEndReason)
    : Prog (list ModuleRegistration) :=
  end_reason ← end_reason_for connection_id requested;
  crash_closed ← crash_closed_routes connection_id;
  crash_closed ← match crash_closed with
                 | None => mret None
                 | Some (id, routes) =>
                     verdict ← close_verdict connection_id id; mret (Some (id, routes, verdict))
                 end;
  registrations ← do (Deregister connection_id end_reason);
  cleanup ← do (Cleanup connection_id);
  _ ← report_teardown connection_id crash_closed registrations cleanup;
  mret registrations.

Definition handle_goodbye (connection_id : Z) : Prog (list ModuleRegistration) :=
  cleanup_connection_with_end_reason connection_id ExplicitGoodbye.

(** ** A swap cuts over *)

Inductive SwapOutcome :=
  | SwapCompleted (promoted : ModuleRegistration)
  | CutoverLost
  | PromotionLost.

(** From the probe of the candidate to the drain of the incumbent. *)
Definition swap_cutover (id : string) (reserved : bool) : Prog SwapOutcome :=
  cut ← do (CutOver id);
  match cut with
  | Ok (Some _) =>
      cutover ← do (Promote id);
      match cutover with
      | Some cutover =>
          let r := Registry.promoted cutover in
          _ ← do (PromoteNonce id reserved);
          _ ← elsewhere (ApplyRegistrationCapabilities r);
          _ ← elsewhere (RecordActivityRegistration id);
          mret (SwapCompleted r)
      | None => mret PromotionLost
      end
  | _ => mret CutoverLost
  end.

End hello.
