(* ===== verification/HelloWorld.v ===== *)
(** * Modules coming and going, all at once

    The handlers of every connection and the swaps of every module, interleaved
    action by action, with everything else the daemon does in between. *)

From S2P Require Import Prelude Collections Envelope Program Tokens ScopeTypes Scopes.
From S2P Require Import Flow Forwarding ForwardingInvariant ForwardingStore.
From S2P Require Import Registry RegistryOk RegistrySteps RegistryView LaunchNonces Hello.

Section world.
Context `{ManifestTypes} `{WatchLaws} `{HashOrder} `{Semaphore}.

Record World := mkWorld {
  w_registry : RegistryInner;
  w_forwarding : ForwardingInner;
  w_ledger : Ledger;
  w_handle : SupervisorHandle;
  w_nonces : HelloLaunchNonces.t;
}.

#[global] Instance world_expand : Expand World := λ w,
  mkWorld (w_registry w) (w_forwarding w) (w_ledger w) (w_handle w) (w_nonces w).

Implicit Types (w : World).

(** ** Actions *)

Definition on_registry {A} w (x : A) w' (result : RegistryInner * A) : Prop :=
  x = result.2 ∧ w' = w <| w_registry := result.1 |>.

(** An action, the answer it may get, and the world it leaves. *)
Definition perform w (a : Action) : answer a → World → Prop :=
  match a return answer a → World → Prop with
  | ByConnection c => λ x w', x = get_module_by_connection (w_registry w) c ∧ w' = w
  | RegisterUnpublished m ver c ops verified => λ x w',
      on_registry w x w' (register_unpublished_verified_with_control_ops (w_registry w) m ver c ops verified)
  | RegisterUnpublishedCandidate m ver c ops => λ x w',
      on_registry w x w' (register_unpublished_verified_candidate_with_control_ops (w_registry w) m ver c ops)
  | Publish c => λ x w', on_registry w x w' (publish_registration (w_registry w) c)
  | Deregister c reason => λ x w',
      on_registry w x w' (deregister_connection_with_reason (w_registry w) c reason).1
  | Promote id => λ x w', on_registry w x w' (promote_candidate (w_registry w) id)
  | SwapAdmission id nonce => λ x w', x = swap_hello_admission (w_handle w) id nonce ∧ w' = w
  | ReservedVerification id nonce => λ x w', x = reserved_hello_verification (w_handle w) id nonce ∧ w' = w
  | MarkAdmitted id => λ _ w', w' = w <| w_handle := mark_swap_candidate_admitted (w_handle w) id |>
  | PromoteNonce id reserved => λ _ w', w' = w <| w_handle := promote_swap_nonce (w_handle w) id reserved |>
  | HasClientRoutes c => λ x w', x = connection_has_client_routes (w_forwarding w) c ∧ w' = w
  | Install c id ver conc sink ack => λ x w', ∃ queued,
      x = (register_module_connection (w_forwarding w) c id ver conc sink (Some ack) queued).2 ∧
      w' = w <| w_forwarding := (register_module_connection (w_forwarding w) c id ver conc sink (Some ack) queued).1.1 |>
  | InstallCandidate c id ver conc sink ack => λ x w', ∃ queued,
      x = (register_candidate_module_connection (w_forwarding w) c id ver conc sink (Some ack) queued).2 ∧
      w' = w <| w_forwarding := (register_candidate_module_connection (w_forwarding w) c id ver conc sink (Some ack) queued).1.1 |>
  | EndpointFor c => λ x w', x = endpoint_by_connection (w_forwarding w) !! c ∧ w' = w
  | RoutesOf e => λ x w', x = endpoint_routes (w_forwarding w) e ∧ w' = w
  | DrainResult c => λ x w', x = daemon_drain_result_for_connection (w_forwarding w) c ∧ w' = w
  | Cleanup c => λ x w',
      x = (cleanup_connection (w_forwarding w) c).2 ∧ w' = w <| w_forwarding := (cleanup_connection (w_forwarding w) c).1.1 |>
  | CutOver id => λ x w',
      x = (cutover_candidate (w_forwarding w) id).2 ∧ w' = w <| w_forwarding := (cutover_candidate (w_forwarding w) id).1.1 |>
  | RecordNonce c nonce => λ _ w', w' = w <| w_nonces := HelloLaunchNonces.record (w_nonces w) c nonce |>
  | ForgetNonce c => λ _ w', w' = w <| w_nonces := HelloLaunchNonces.forget (w_nonces w) c |>
  | ReservedCapability _ _ | BuildAck _ _ | EndReason _ | WillRecover _ | Elsewhere_ _ => λ _ w', w' = w
  end.

(** ** The system *)

(** [sink_of c]: the queue of frames to the connection; the daemon's server
    always has one. *)
Context (sink_of : Z → option Sink).

Record System := mkSystem {
  world : World;
  handlers : gmap Z (Prog unit);
  swappers : gmap string (Prog unit);
}.

#[global] Instance system_expand : Expand System := λ s, mkSystem (world s) (handlers s) (swappers s).

Implicit Types (s : System).

Definition finish {A} (p : Prog A) : Prog unit := p ≫= λ _, mret tt.

(** A connection's frames are handled one after the other, its end last; a
    module's supervisor runs one swap at a time.  [guard] restricts what may
    happen when. *)
Inductive system_step (guard : System → Action → Prop) s : System → Prop :=
  | ss_hello c parsed :
      handlers s !! c = None →
      system_step guard s (s <| handlers := <[c := finish (handle_hello c (sink_of c) parsed)]> (handlers s) |>)
  | ss_end c reason :
      handlers s !! c = None →
      system_step guard s (s <| handlers := <[c := finish (cleanup_connection_with_end_reason c reason)]> (handlers s) |>)
  | ss_handler c a k x w' :
      handlers s !! c = Some (Do a k) → guard s a → perform (world s) a x w' →
      system_step guard s (s <| world := w' |> <| handlers := <[c := k x]> (handlers s) |>)
  | ss_handled c :
      handlers s !! c = Some (Ret tt) → system_step guard s (s <| handlers := delete c (handlers s) |>)
  | ss_swap id reserved :
      swappers s !! id = None →
      system_step guard s (s <| swappers := <[id := finish (swap_cutover id reserved)]> (swappers s) |>)
  | ss_swapper id a k x w' :
      swappers s !! id = Some (Do a k) → guard s a → perform (world s) a x w' →
      system_step guard s (s <| world := w' |> <| swappers := <[id := k x]> (swappers s) |>)
  | ss_swapped id :
      swappers s !! id = Some (Ret tt) → system_step guard s (s <| swappers := delete id (swappers s) |>)
  | ss_registry t' :
      quiet_step (w_registry (world s)) t' →
      system_step guard s (s <| world := (world s) <| w_registry := t' |> |>)
  | ss_handle l h :
      handle_step (w_ledger (world s), w_handle (world s)) (l, h) →
      system_step guard s (s <| world := (world s) <| w_ledger := l |> <| w_handle := h |> |>)
  | ss_forwarding fw :
      fw_ok fw → store fw = store (w_forwarding (world s)) →
      system_step guard s (s <| world := (world s) <| w_forwarding := fw |> |>).

Definition start_system : System :=
  mkSystem (mkWorld empty_registry empty_forwarding no_ledger new_handle (HelloLaunchNonces.mk ∅)) ∅ ∅.

Definition system_reachable (guard : System → Action → Prop) : System → Prop := rtc (system_step guard) start_system.
End world.
