(* ===== verification/HelloPhases.v ===== *)
(** * What a handler knows

    The phases a connection's handler goes through, and that the handlers of
    HELLO and of a connection's end follow them.  A phase says what holds of the
    connection between two actions, whatever other connections do. *)

From S2P Require Import Prelude Collections Envelope Program Tokens ScopeTypes Scopes.
From S2P Require Import Flow Forwarding ForwardingInvariant ForwardingStore.
From S2P Require Import Registry RegistryOk RegistrySteps RegistryView LaunchNonces Hello HelloWorld.

(** [PhSettled]: nothing is under way.  [PhFresh]: the connection is not a
    module.  [PhVouched], [PhRecorded]: moreover a nonce was found right, and
    recorded.  [PhRegistered], [PhSeated]: registered, then also installed, but
    not published.  [PhFailed]: registered, but not to be installed.  [PhGone]:
    deregistered, maybe still installed. *)
Inductive Phase :=
  | PhSettled
  | PhFresh
  | PhVouched (id : string) (nonce : option string)
  | PhRecorded (id : string) (nonce : option string)
  | PhRegistered (id : string) (candidate : bool)
  | PhFailed
  | PhSeated (id : string)
  | PhGone.

Section phases.
Context `{ManifestTypes} `{WatchLaws} `{HashOrder} `{Semaphore}.
Context (sink_of : Z → option Sink).
Implicit Types (w : World) (ph : Phase).

(** May a connection in this phase register as the module [id]? *)
Definition may_claim ph (id : string) (verified : bool) : bool :=
  match ph with
  | PhFresh => negb verified
  | PhRecorded id' _ => bool_decide (id' = id)
  | _ => false
  end.

(** The phase after an action of the connection's handler; [None]: an action the
    phase does not allow. *)
Definition next (c : Z) ph (a : Action) : answer a → option Phase :=
  match a return answer a → option Phase with
  | ByConnection c' => λ x, Some match ph, x with PhSettled, None => if c' =? c then PhFresh else ph | _, _ => ph end
  | SwapAdmission id nonce => λ x, Some match ph, x with PhFresh, Candidate => PhVouched id nonce | _, _ => ph end
  | ReservedVerification id nonce => λ x, Some match ph, x with PhFresh, Ok true => PhVouched id nonce | _, _ => ph end
  | RecordNonce c' nonce => λ _,
      if c' =? c then
        match ph with
        | PhFresh => Some PhFresh
        | PhVouched id nonce' => if decide (nonce' = nonce) then Some (PhRecorded id nonce) else None
        | _ => None
        end
      else None
  | ForgetNonce c' => λ _, match ph with PhFresh => if c' =? c then Some PhFresh else None | _ => None end
  | RegisterUnpublished m _ c' _ verified => λ x,
      if (c' =? c) && may_claim ph (module_id m) verified
      then Some match x with Ok r => PhRegistered (reg_id r) false | Err _ => PhFresh end else None
  | RegisterUnpublishedCandidate m _ c' _ => λ x,
      if (c' =? c) && may_claim ph (module_id m) true
      then Some match x with Ok _ => PhRegistered (module_id m) true | Err _ => PhFresh end else None
  | Install c' id _ _ _ _ => λ x,
      match ph with
      | PhRegistered id' false =>
          if (c' =? c) && bool_decide (id' = id) then Some match x with Ok _ => PhSeated id | Err _ => PhFailed end else None
      | _ => None
      end
  | InstallCandidate c' id _ _ _ _ => λ x,
      match ph with
      | PhRegistered id' true =>
          if (c' =? c) && bool_decide (id' = id) then Some match x with Ok _ => PhSeated id | Err _ => PhFailed end else None
      | _ => None
      end
  | Publish c' => λ _,
      if c' =? c then
        match ph with
        | PhSeated _ => Some PhSettled
        | PhRegistered _ _ => match sink_of c with None => Some PhSettled | Some _ => None end
        | _ => None
        end
      else None
  | Deregister c' _ => λ _,
      if c' =? c then
        match ph with
        | PhSettled | PhFresh => Some PhGone
        | PhFailed => Some PhFresh
        | _ => None
        end
      else None
  | Cleanup c' => λ _, match ph with PhGone => if c' =? c then Some PhFresh else None | _ => None end
  | Promote _ | PromoteNonce _ _ | CutOver _ => λ _, None
  | _ => λ _, Some ph
  end.

(** A handler changes only what is its connection's. *)
Lemma next_own c ph a x ph' :
  next c ph a x = Some ph' →
  match a with
  | RegisterUnpublished _ _ c' _ _ | RegisterUnpublishedCandidate _ _ c' _ | Publish c' | Deregister c' _ | Install c' _ _ _ _ _
  | InstallCandidate c' _ _ _ _ _ | Cleanup c' | RecordNonce c' _ | ForgetNonce c' => c' = c
  | _ => True
  end.
Proof.
  assert (∀ (b : bool) (o : option Phase), (if b then o else None) = Some ph' → b = true) as Hif by by intros [].
  destruct a; simpl; try done; intros Hn; try (destruct ph as [| | | |? []| | |]; try done);
    apply Hif in Hn; try apply andb_prop in Hn as [Hn _]; by apply Z.eqb_eq.
Qed.

Definition resting ph : Prop :=
  match ph with PhSettled | PhFresh | PhVouched _ _ | PhRecorded _ _ => True | _ => False end.

Fixpoint follows {R} (c : Z) ph (p : Prog R) (Q : Phase → R → Prop) : Prop :=
  match p with
  | Ret r => Q ph r
  | Do a k => ∀ x, ∃ ph', next c ph a x = Some ph' ∧ follows c ph' (k x) Q
  end.

Lemma follows_bind {A B} c ph (p : Prog A) (f : A → Prog B) Q :
  follows c ph p (λ ph' r, follows c ph' (f r) Q) → follows c ph (p ≫= f) Q.
Proof.
  revert ph. induction p as [r|a k IH]; intros ph; [done|]. simpl. intros Hp x. destruct (Hp x) as (ph' & Hn & Hk).
  exists ph'. split; [done|]. by apply IH.
Qed.

Lemma follows_mono {R} c ph (p : Prog R) (Q Q' : Phase → R → Prop) :
  (∀ ph r, Q ph r → Q' ph r) → follows c ph p Q → follows c ph p Q'.
Proof.
  intros HQ. revert ph. induction p as [r|a k IH]; intros ph; simpl; [apply HQ|]. intros Hp x.
  destruct (Hp x) as (ph' & ? & ?). exists ph'. auto.
Qed.

Lemma follows_do {R} c ph a (k : answer a → Prog R) Q :
  (∀ x, ∃ ph', next c ph a x = Some ph' ∧ follows c ph' (k x) Q) → follows c ph (do a ≫= k) Q.
Proof. done. Qed.

(** ** The handlers follow the phases *)

(** One action: the phase computes. *)
Ltac step x :=
  apply follows_do; intros x; eexists;
  split; [simpl; rewrite ?Z.eqb_refl, ?bool_decide_true by done; reflexivity|]; cbv beta.

Lemma hello_unregister_follows c code : follows c PhFailed (hello_unregister c code) (λ ph _, resting ph).
Proof. unfold hello_unregister. step closed. destruct closed; [done|]. step u. done. Qed.

Lemma hello_published_follows c ph r reply :
  (∃ id, ph = PhSeated id) ∨ (∃ id b, ph = PhRegistered id b) ∧ sink_of c = None →
  follows c ph (hello_published c r reply) (λ ph _, resting ph).
Proof.
  intros Hph. unfold hello_published. apply follows_do. intros x. exists PhSettled. split.
  - simpl. rewrite Z.eqb_refl. destruct Hph as [[id ->]|[(id & b & ->) ->]]; done.
  - step u. step u'. done.
Qed.

Lemma candidate_published_follows c ph id reply :
  (∃ id, ph = PhSeated id) ∨ (∃ id b, ph = PhRegistered id b) ∧ sink_of c = None →
  follows c ph (candidate_published c id reply) (λ ph _, resting ph).
Proof.
  intros Hph. unfold candidate_published. apply follows_do. intros x. exists PhSettled. split.
  - simpl. rewrite Z.eqb_refl. destruct Hph as [[id' ->]|[(id' & b & ->) ->]]; done.
  - step u. done.
Qed.

Lemma hello_register_follows c ph m ver ops verified ack :
  may_claim ph (module_id m) verified = true →
  follows c ph (hello_register c (sink_of c) m ver ops verified ack) (λ ph _, resting ph).
Proof.
  intros Hph. unfold hello_register. apply follows_do. intros x. eexists. split; [simpl; rewrite Z.eqb_refl, Hph; reflexivity|].
  destruct x as [r|err]; [|done]. destruct (sink_of c) as [sink|] eqn:Hs; [|apply hello_published_follows; eauto].
  step y. destruct y as [e|err]; [apply hello_published_follows; eauto|apply hello_unregister_follows].
Qed.

Lemma register_swap_candidate_follows c ph m ver ops ack :
  may_claim ph (module_id m) true = true →
  follows c ph (register_swap_candidate c (sink_of c) m ver ops ack) (λ ph _, resting ph).
Proof.
  intros Hph. unfold register_swap_candidate. apply follows_do. intros x. eexists.
  split; [simpl; rewrite Z.eqb_refl, Hph; reflexivity|].
  destruct x as [r|err]; [|done]. destruct (sink_of c) as [sink|] eqn:Hs; [|apply candidate_published_follows; eauto].
  step y. destruct y as [e|err]; [apply candidate_published_follows; eauto|apply hello_unregister_follows].
Qed.

Lemma hello_admitted_follows c ph hello ver swap_candidate verified :
  ph = PhFresh ∧ swap_candidate = false ∧ verified = false ∨
    ph = PhVouched (module_id (hello_manifest hello)) (hello_launch_nonce hello) →
  follows c ph (hello_admitted c (sink_of c) hello ver swap_candidate verified) (λ ph _, resting ph).
Proof.
  intros Hph. assert (resting ph) as Hrest by (destruct Hph as [[-> _]| ->]; done). unfold hello_admitted.
  step refused. destruct refused; [done|]. step client. destruct client; [done|].
  apply follows_do. intros u. set (id := module_id (hello_manifest hello)) in *.
  exists (match ph with PhFresh => PhFresh | _ => PhRecorded id (hello_launch_nonce hello) end). split.
  { simpl. rewrite Z.eqb_refl. destruct Hph as [[-> _]| ->]; [done|]. by rewrite decide_True. }
  apply follows_do. intros ack. eexists. split; [reflexivity|]. cbv beta.
  destruct ack as [ack|]; [|by destruct Hph as [[-> _]| ->]].
  destruct swap_candidate.
  - apply register_swap_candidate_follows. destruct Hph as [(-> & ? & _)| ->]; [done|]. by apply bool_decide_true.
  - apply hello_register_follows. destruct Hph as [(-> & _ & ->)| ->]; [done|]. by apply bool_decide_true.
Qed.

Lemma handle_hello_follows c parsed : follows c PhSettled (handle_hello c (sink_of c) parsed) (λ ph _, resting ph).
Proof.
  unfold handle_hello. apply follows_do. intros known. eexists. split; [reflexivity|]. cbv beta.
  destruct known as [r|]; [done|]. cbn [is_some]. rewrite Z.eqb_refl. destruct parsed as [hello|code]; [|done].
  cbv zeta. destruct (negb _); [done|]. destruct (blank _); [done|]. destruct (negotiate_version _) as [ver|]; [|done].
  apply follows_do. intros admission. eexists. split; [reflexivity|]. cbv beta. destruct admission; [|apply hello_admitted_follows; by right|done].
  apply follows_do. intros verification. eexists. split; [reflexivity|]. cbv beta.
  destruct verification as [verified|]; [|done]. apply hello_admitted_follows. destruct verified; [by right|by left].
Qed.

(** Nothing of the connection is under way. *)
Definition idle ph : Prop := ph = PhSettled ∨ ph = PhFresh.

Lemma by_connection_idle c ph x : idle ph → ∃ ph', next c ph (ByConnection c) x = Some ph' ∧ idle ph'.
Proof. intros [-> | ->]; simpl; rewrite ?Z.eqb_refl; destruct x; eexists; split; done || (by left) || (by right). Qed.

Lemma end_reason_follows c ph requested : idle ph → follows c ph (end_reason_for c requested) (λ ph _, idle ph).
Proof.
  intros Hph. destruct requested; try done. apply follows_do. intros known.
  destruct (by_connection_idle c ph known Hph) as (ph' & Hn & Hph'). exists ph'. split; [done|].
  destruct known as [r|]; [|done]. step reason. done.
Qed.

Lemma crash_closed_follows c ph : idle ph → follows c ph (crash_closed_routes c) (λ ph _, idle ph).
Proof.
  intros Hph. apply follows_do. intros known. destruct (by_connection_idle c ph known Hph) as (ph' & Hn & Hph').
  exists ph'. split; [done|]. destruct known as [r|]; [|done]. step e. destruct e as [e|]; [|done]. step routes. done.
Qed.

Lemma report_teardown_follows c crash registrations cleanup :
  follows c PhFresh (report_teardown c crash registrations cleanup) (λ ph _, ph = PhFresh).
Proof.
  assert (follows c PhFresh
    (_ ← elsewhere (EmitRouteGoodbyes (released_routes cleanup));
     _ ← match registrations with
         | [] => mret tt
         | _ => _ ← elsewhere NotifyRegistrationRelease; _ ← elsewhere WakeDeadlineLoop; elsewhere RefreshRequirements
         end;
     _ ← elsewhere (RemoveSpawnSubscribers c); _ ← elsewhere (AbortActivityStreams c); _ ← do (ForgetNonce c);
     elsewhere (ReleaseScopeAuthority c)) (λ ph _, ph = PhFresh)) as Hrest.
  { step u. apply follows_bind. apply (follows_mono c _ _ (λ ph _, ph = PhFresh)).
    - intros ph u' ->. step a. step b. step d. intros e. by exists PhFresh.
    - destruct registrations; [done|]. step a. step b. intros d. by exists PhFresh. }
  unfold report_teardown. destruct crash as [[[id routes] [[reason drained] terminal]]|]; [step u; exact Hrest|exact Hrest].
Qed.

Lemma cleanup_follows c reason : follows c PhSettled (cleanup_connection_with_end_reason c reason) (λ ph _, resting ph).
Proof.
  apply follows_bind. eapply follows_mono; [|apply end_reason_follows; by left]. intros ph end_reason Hph.
  apply follows_bind. eapply follows_mono; [|by apply crash_closed_follows]. clear ph Hph. intros ph crash Hph.
  apply follows_bind. apply (follows_mono c _ _ (λ ph _, idle ph)).
  - clear ph Hph. intros ph crash' Hph. apply follows_do. intros closed. exists PhGone. split.
    { simpl. rewrite Z.eqb_refl. by destruct Hph as [-> | ->]. }
    step cleanup. apply follows_bind. eapply follows_mono; [|apply report_teardown_follows]. by intros ? [] ->.
  - destruct crash as [[id routes]|]; [|done]. step will. step drained. done.
Qed.

(** With the result dropped, as the system runs them. *)
Lemma finish_follows {R} c ph (p : Prog R) : follows c ph p (λ ph _, resting ph) → follows c ph (finish p) (λ ph _, resting ph).
Proof. intros Hp. by apply follows_bind. Qed.
End phases.
