(* ===== verification/HelloInvariant.v ===== *)
(** * The invariant of modules coming and going

    What holds of a connection in each phase of its handler, that its own
    actions lead from one to the next, and that nobody else disturbs it. *)

From S2P Require Import Prelude Collections Envelope Program Tokens ScopeTypes Scopes.
From S2P Require Import Flow Forwarding ForwardingInvariant ForwardingOps ForwardingCleanup ForwardingStore.
From S2P Require Import Registry RegistryOk RegistrySteps RegistryView LaunchNonces Hello HelloWorld HelloPhases.

Section invariant.
Context `{ManifestTypes} `{WatchLaws} `{HashOrder} `{Semaphore}.
Context (sink_of : Z → option Sink).
Implicit Types (w : World) (ph : Phase) (s : System).

(** The id a connection is registered under, and the endpoint it has. *)
Definition reg_name w (c : Z) : option string := snd <$> reg_view (w_registry w) c.

Definition endpoint_of w (c : Z) : option ModuleEndpointId.t := endpoint_by_connection (w_forwarding w) !! c.

Definition seated w (c : Z) (id : string) : Prop :=
  ∃ e, endpoint_of w c = Some e ∧ module_id_by_endpoint (w_forwarding w) !! e = Some id.

Definition presented w (c : Z) : option string := HelloLaunchNonces.nonce (w_nonces w) c.

Definition phase_ok w (c : Z) ph : Prop :=
  match ph with
  | PhSettled =>
      match reg_name w c with
      | None => endpoint_of w c = None
      | Some id => (c ∉ unpublished (w_registry w)) ∧ (seated w c id ∨ (sink_of c = None ∧ endpoint_of w c = None))
      end
  | PhFresh => reg_name w c = None ∧ endpoint_of w c = None
  | PhVouched id nonce => reg_name w c = None ∧ endpoint_of w c = None ∧ ∃ n, nonce = Some n ∧ vouched (w_ledger w) id n
  | PhRecorded id nonce =>
      reg_name w c = None ∧ endpoint_of w c = None ∧ ∃ n, presented w c = Some n ∧ vouched (w_ledger w) id n
  | PhRegistered id _ => reg_name w c = Some id ∧ c ∈ unpublished (w_registry w) ∧ endpoint_of w c = None
  | PhFailed => is_Some (reg_name w c) ∧ c ∈ unpublished (w_registry w) ∧ endpoint_of w c = None
  | PhSeated id => reg_name w c = Some id ∧ c ∈ unpublished (w_registry w) ∧ seated w c id
  | PhGone => reg_name w c = None
  end.

Record world_ok w : Prop := {
  wo_registry : registry_ok (w_registry w);
  wo_forwarding : fw_ok (w_forwarding w);
  wo_ledger : ledger_ok (w_ledger w) (w_handle w);
  wo_verified c : c ∈ nonce_verified (w_registry w) →
    ∃ id n, reg_name w c = Some id ∧ presented w c = Some n ∧ vouched (w_ledger w) id n;
}.

(** Nothing a phase of [d] speaks of has changed. *)
Record kept w w' (d : Z) : Prop := {
  kp_name : reg_name w' d = reg_name w d;
  kp_unpublished : d ∈ unpublished (w_registry w') ↔ d ∈ unpublished (w_registry w);
  kp_endpoint : endpoint_of w' d = endpoint_of w d;
  kp_seated id : seated w d id → seated w' d id;
  kp_presented : presented w' d = presented w d;
  kp_vouched id n : vouched (w_ledger w) id n → vouched (w_ledger w') id n;
}.

Lemma kept_refl w d : kept w w d.
Proof. by split. Qed.

Lemma phase_ok_kept w w' d ph : kept w w' d → phase_ok w d ph → phase_ok w' d ph.
Proof.
  intros [Hn Hu He Hs Hp Hv]. destruct ph; simpl; rewrite ?Hn, ?He, ?Hu, ?Hp; try done.
  - destruct (reg_name w d) as [id|]; [|done]. rewrite Hu. intros [? [?|?]]; auto.
  - intros (? & ? & n & ? & ?). eauto 6.
  - intros (? & ? & n & ? & ?). eauto 6.
  - intros (? & ? & ?). auto.
Qed.

(** ** One table at a time *)

(** The store still says the same of the connection's endpoint. *)
Definition store_kept (st st' : Store) (d : Z) : Prop :=
  st_endpoints st' !! d = st_endpoints st !! d ∧ ∀ e, st_endpoints st !! d = Some e → st_names st' !! e = st_names st !! e.

Lemma kept_store w fw d : store_kept (store (w_forwarding w)) (store fw) d → kept w (w <| w_forwarding := fw |>) d.
Proof.
  intros [He Hm]. split; try done. intros id (e & Hc & Hid). exists e. split; [by rewrite <-Hc|]. by rewrite <-Hid; apply Hm.
Qed.

Lemma reg_name_set w t d : reg_name (w <| w_registry := t |>) d = snd <$> reg_view t d.
Proof. done. Qed.

Lemma kept_registry w t d :
  reg_view t d = reg_view (w_registry w) d → (d ∈ unpublished t ↔ d ∈ unpublished (w_registry w)) →
  kept w (w <| w_registry := t |>) d.
Proof. intros Hv Hu. split; try done. unfold reg_name. simpl. by rewrite Hv. Qed.

Lemma vouched_mono l l' id n : minted l ⊆ minted l' → owned l ⊆ owned l' → vouched l id n → vouched l' id n.
Proof. intros Hm Ho [Hin|(p & o & ? & ? & ?)]; [left; eauto|right; exists p, o; eauto]. Qed.

Lemma handle_step_grows l h l' h' : handle_step (l, h) (l', h') → minted l ⊆ minted l' ∧ owned l ⊆ owned l'.
Proof. inversion 1; subst; simpl; set_solver. Qed.

Lemma kept_handle w l h d :
  handle_step (w_ledger w, w_handle w) (l, h) → kept w (w <| w_ledger := l |> <| w_handle := h |>) d.
Proof. intros [Hm Ho]%handle_step_grows. split; try done. intros id n. by apply vouched_mono. Qed.

Lemma kept_nonces w d nonces :
  HelloLaunchNonces.nonce nonces d = presented w d → kept w (w <| w_nonces := nonces |>) d.
Proof. intros Hn. by split. Qed.

(** ** The module store *)

Lemma installed_kept st e id d : store_ok st → d ≠ ModuleEndpointId.connection_id e → store_kept st (installed st e id) d.
Proof.
  intros Hok Hd. split; simpl; [by rewrite lookup_insert_ne|]. intros e' He'. rewrite lookup_insert_ne; [done|].
  intros <-. apply (nm_connection _ _ _ _ _ Hok) in He' as [? _]. congruence.
Qed.

Lemma forgotten_kept st c e d :
  store_ok st → st_endpoints st !! c = Some e → d ≠ c → store_kept st (forgotten (st <| st_endpoints := delete c (st_endpoints st) |>) e) d.
Proof.
  intros Hok He Hd. apply (nm_connection _ _ _ _ _ Hok) in He as [Hc _]. split; simpl.
  - by rewrite Hc, !lookup_delete_ne.
  - intros e' He'. rewrite lookup_delete_ne; [done|]. intros <-. apply (nm_connection _ _ _ _ _ Hok) in He' as [? _]. congruence.
Qed.

Lemma forgotten_endpoint st c e :
  store_ok st → st_endpoints st !! c = Some e →
  st_endpoints (forgotten (st <| st_endpoints := delete c (st_endpoints st) |>) e) !! c = None.
Proof. intros Hok He. simpl. rewrite lookup_delete_None. right. apply lookup_delete_eq. Qed.

Lemma fw_store_ok fw : fw_ok fw → store_ok (store fw).
Proof. intros Hok. apply Hok. Qed.

(** ** The actions of a handler *)

Section own.
Context (w : World) (c : Z) (Hok : world_ok w).

(** What an action of [c]'s handler must do. *)
Definition leads ph w' : Prop := world_ok w' ∧ phase_ok w' c ph ∧ ∀ d, d ≠ c → kept w w' d.

Lemma leads_same ph : phase_ok w c ph → leads ph w.
Proof. intros Hph. split_and!; [done..|]. intros d _. apply kept_refl. Qed.

(** [c] is the only connection whose proof of launch may have changed. *)
Lemma world_ok_registry t :
  registry_ok t → (∀ d, d ≠ c → reg_view t d = reg_view (w_registry w) d) →
  (∀ d, d ∈ nonce_verified t → d ≠ c → d ∈ nonce_verified (w_registry w)) →
  (c ∈ nonce_verified t → ∃ slot id n, reg_view t c = Some (slot, id) ∧ presented w c = Some n ∧ vouched (w_ledger w) id n) →
  world_ok (w <| w_registry := t |>).
Proof.
  intros Ht Hview Hver Hc. destruct Hok as [Hr Hf Hl Hv]. split; try done. intros d Hd. destruct (decide (d = c)) as [->|Hdc].
  - destruct (Hc Hd) as (slot & id & n & Hid & ? & ?). exists id, n. split_and!; [|done..]. unfold reg_name. simpl. by rewrite Hid.
  - destruct (Hv d (Hver d Hd Hdc)) as (id & n & Hid & ? & ?). exists id, n. split_and!; [|done..].
    unfold reg_name in *. simpl. by rewrite Hview.
Qed.

Lemma register_leads t slot id verified ph :
  registered (w_registry w) t c slot id verified → reg_name w c = None → endpoint_of w c = None →
  (verified = true → ∃ n, presented w c = Some n ∧ vouched (w_ledger w) id n) →
  ph = PhRegistered id (bool_decide (slot = KindCandidate)) → leads ph (w <| w_registry := t |>).
Proof.
  intros [Ht Hview Hu Hn] Hname He Hver ->. assert (reg_view t c = Some (slot, id)) as Hc by by rewrite Hview, decide_True.
  split_and!.
  - apply world_ok_registry; [done|..].
    + intros d Hd. by rewrite Hview, decide_False.
    + intros d Hd Hdc. apply Hn in Hd. naive_solver.
    + intros [[_ Hv]|[? _]]%Hn; [|done]. destruct (Hver Hv) as (n & ? & ?). by exists slot, id, n.
  - cbn [phase_ok]. rewrite reg_name_set, Hc. split_and!; [done|apply Hu; by left|done].
  - intros d Hd. apply kept_registry; [by rewrite Hview, decide_False|]. rewrite Hu. naive_solver.
Qed.

Lemma publish_leads t b id ph :
  publish_registration (w_registry w) c = (t, b) → reg_name w c = Some id →
  seated w c id ∨ (sink_of c = None ∧ endpoint_of w c = None) → ph = PhSettled → leads ph (w <| w_registry := t |>).
Proof.
  intros (Ht & Hview & Hu & Hn)%publish_view Hname Hs ->; [|apply Hok]. split_and!.
  - apply world_ok_registry; [done|done|by rewrite Hn|]. rewrite Hn. intros (id' & n & Hid & ? & ?)%(wo_verified _ Hok).
    unfold reg_name in Hid. apply fmap_Some in Hid as ([slot id''] & Hid & ->). exists slot, id'', n. by rewrite Hview.
  - cbn [phase_ok]. rewrite reg_name_set, Hview. fold (reg_name w c). rewrite Hname. split; [|exact Hs].
    intros Hin. by apply Hu in Hin as [_ ?].
  - intros d Hd. apply kept_registry; [apply Hview|]. rewrite Hu. naive_solver.
Qed.

Lemma deregister_leads t closed ends reason ph :
  deregister_connection_with_reason (w_registry w) c reason = (t, closed, ends) →
  ph = PhGone ∨ ph = PhFresh ∧ endpoint_of w c = None → leads ph (w <| w_registry := t |>).
Proof.
  intros (Ht & Hview & Hu & Hn)%deregister_view Hph; [|apply Hok]. split_and!.
  - apply world_ok_registry; [done|..].
    + intros d Hd. by rewrite Hview, decide_False.
    + intros d Hd _. by apply Hn in Hd as [? _].
    + by intros [_ ?]%Hn.
  - assert (reg_name (w <| w_registry := t |>) c = None) as Hnone by (unfold reg_name; simpl; by rewrite Hview, decide_True).
    destruct Hph as [-> |[-> He]]; [done|]. by split.
  - intros d Hd. apply kept_registry; [by rewrite Hview, decide_False|]. rewrite Hu. naive_solver.
Qed.

(** A change of the forwarding table. *)
Lemma forwarding_leads fw ph :
  fw_ok fw → (∀ d, d ≠ c → store_kept (store (w_forwarding w)) (store fw) d) →
  phase_ok (w <| w_forwarding := fw |>) c ph → leads ph (w <| w_forwarding := fw |>).
Proof.
  intros Hfw Hkept Hph. split_and!; [|done|]; [|intros d Hd; apply kept_store; by apply Hkept]. by destruct Hok.
Qed.

(** A change of the recorded nonces, of a connection that is no module. *)
Lemma nonces_leads nonces ph :
  reg_name w c = None → (∀ d, d ≠ c → HelloLaunchNonces.nonce nonces d = presented w d) →
  phase_ok (w <| w_nonces := nonces |>) c ph → leads ph (w <| w_nonces := nonces |>).
Proof.
  intros Hc Hother Hph. split_and!; [|done|]; [|intros d Hd; apply kept_nonces; by apply Hother].
  destruct Hok as [Hr Hf Hl Hv]. split; try done. intros d Hd. destruct (Hv d Hd) as (id & n & Hid & Hn & Hvo).
  exists id, n. split_and!; [done| |done]. unfold presented. simpl. rewrite Hother; [done|]. intros ->. unfold reg_name in *. congruence.
Qed.

Lemma record_other nonces d nonce : d ≠ c → HelloLaunchNonces.nonce (HelloLaunchNonces.record nonces c nonce) d = HelloLaunchNonces.nonce nonces d.
Proof.
  intros Hd. unfold HelloLaunchNonces.nonce, HelloLaunchNonces.record. destruct nonce as [n|]; [destruct (negb _)|]; simpl;
    by rewrite ?lookup_insert_ne, ?lookup_delete_ne.
Qed.

Lemma record_own nonces n : n ≠ "" → HelloLaunchNonces.nonce (HelloLaunchNonces.record nonces c (Some n)) c = Some n.
Proof.
  intros Hn. unfold HelloLaunchNonces.nonce, HelloLaunchNonces.record. destruct (str_is_empty n) eqn:He; [by apply str_is_empty_true in He|].
  apply lookup_insert_eq.
Qed.

Lemma vouched_nonempty l h id n : ledger_ok l h → vouched l id n → n ≠ "".
Proof. intros Hl [Hin|(p & o & _ & _ & Hin)]; by eapply (lo_minted _ _ Hl). Qed.

(** ** Every action *)

Lemma register_action m ver ops verified x w' ph ph' :
  phase_ok w c ph → next sink_of c ph (RegisterUnpublished m ver c ops verified) x = Some ph' →
  perform w (RegisterUnpublished m ver c ops verified) x w' → leads ph' w'.
Proof.
  simpl. rewrite Z.eqb_refl. destruct (may_claim ph _ _) eqn:Hm; [|done]. intros Hph [= <-] [Hx ->].
  assert (reg_name w c = None ∧ endpoint_of w c = None ∧
    (verified = true → ∃ n, presented w c = Some n ∧ vouched (w_ledger w) (module_id m) n)) as (Hname & He & Hver).
  { destruct ph; try done; simpl in Hm, Hph.
    - destruct Hph. by destruct verified.
    - apply bool_decide_eq_true in Hm as ->. naive_solver. }
  destruct (register_unpublished_verified_with_control_ops _ _ _ _ _ _) as [t res] eqn:Hreg. cbn [fst snd] in *. subst res.
  apply register_active_view in Hreg; [|apply Hok|by unfold reg_name in Hname; apply fmap_None in Hname].
  destruct x as [r|err].
  - destruct Hreg as [-> Hreg]. by eapply register_leads.
  - subst t. replace (w <| w_registry := w_registry w |>) with w by by destruct w. by apply leads_same.
Qed.

Lemma register_candidate_action m ver ops x w' ph ph' :
  phase_ok w c ph → next sink_of c ph (RegisterUnpublishedCandidate m ver c ops) x = Some ph' →
  perform w (RegisterUnpublishedCandidate m ver c ops) x w' → leads ph' w'.
Proof.
  simpl. rewrite Z.eqb_refl. destruct (may_claim ph _ _) eqn:Hm; [|done]. intros Hph [= <-] [Hx ->].
  assert (reg_name w c = None ∧ endpoint_of w c = None ∧ ∃ n, presented w c = Some n ∧ vouched (w_ledger w) (module_id m) n)
    as (Hname & He & Hver).
  { destruct ph; try done; simpl in Hm, Hph. apply bool_decide_eq_true in Hm as ->. naive_solver. }
  destruct (register_unpublished_verified_candidate_with_control_ops _ _ _ _ _) as [t res] eqn:Hreg. cbn [fst snd] in *. subst res.
  apply register_candidate_view in Hreg; [|apply Hok|by unfold reg_name in Hname; apply fmap_None in Hname].
  destruct x as [r|err].
  - destruct Hreg as [_ Hreg]. by eapply register_leads.
  - subst t. replace (w <| w_registry := w_registry w |>) with w by by destruct w. by apply leads_same.
Qed.

Lemma same_registry : w <| w_registry := w_registry w |> = w.
Proof. by destruct w. Qed.

Lemma same_forwarding : w <| w_forwarding := w_forwarding w |> = w.
Proof. by destruct w. Qed.

(** The endpoint was made, or forwarding is as it was. *)
Lemma installed_leads fw (res : Result ModuleEndpointId.t ForwardingError) id (active : bool) m :
  fw_ok fw →
  match res with
  | Ok e => e = next_endpoint (w_forwarding w) c ∧
      store fw = if active then (installed (store (w_forwarding w)) e id) <| st_active := <[id := m e]> (modules_by_id (w_forwarding w)) |>
                 else (installed (store (w_forwarding w)) e id) <| st_candidates := <[id := m e]> (candidates_by_id (w_forwarding w)) |>
  | Err _ => fw = w_forwarding w
  end →
  phase_ok w c (PhRegistered id (negb active)) →
  leads (match res with Ok _ => PhSeated id | Err _ => PhFailed end) (w <| w_forwarding := fw |>).
Proof.
  intros Hfw Hres (Hname & Hu & He). destruct res as [e|err].
  - destruct Hres as [-> Hst]. pose proof (fw_store_ok _ (wo_forwarding _ Hok)) as Hsok.
    apply forwarding_leads; [done|..].
    + intros d Hd. rewrite Hst. destruct (installed_kept (store (w_forwarding w)) (next_endpoint (w_forwarding w) c) id d Hsok Hd) as [H1' H2'].
      by destruct active; split.
    + split_and!; [done..|]. exists (next_endpoint (w_forwarding w) c). unfold endpoint_of. cbn [w_forwarding set_field].
      change (endpoint_by_connection fw) with (st_endpoints (store fw)). change (module_id_by_endpoint fw) with (st_names (store fw)).
      rewrite Hst. destruct active; simpl; by rewrite !lookup_insert_eq.
  - subst fw. rewrite same_forwarding. apply leads_same. simpl. split_and!; [by eexists|done..].
Qed.

Lemma install_action id ver conc sink ack x w' ph ph' :
  phase_ok w c ph → next sink_of c ph (Install c id ver conc sink ack) x = Some ph' →
  perform w (Install c id ver conc sink ack) x w' → leads ph' w'.
Proof.
  intros Hph Hn (queued & Hx & ->). simpl in Hn. destruct ph as [| | | |id' [|]| | |]; try done. rewrite Z.eqb_refl in Hn.
  destruct (bool_decide _) eqn:Hid; [|done]. apply bool_decide_eq_true in Hid as ->. injection Hn as <-.
  pose proof (register_store (w_forwarding w) c id ver conc sink (Some ack) queued) as Hs. rewrite <-Hx in Hs.
  apply (installed_leads _ x id true (λ e, ModuleConnection.mk e sink ver conc)); [apply register_module_connection_ok, Hok| |done].
  destruct x; naive_solver.
Qed.

Lemma install_candidate_action id ver conc sink ack x w' ph ph' :
  phase_ok w c ph → next sink_of c ph (InstallCandidate c id ver conc sink ack) x = Some ph' →
  perform w (InstallCandidate c id ver conc sink ack) x w' → leads ph' w'.
Proof.
  intros Hph Hn (queued & Hx & ->). simpl in Hn. destruct ph as [| | | |id' [|]| | |]; try done. rewrite Z.eqb_refl in Hn.
  destruct (bool_decide _) eqn:Hid; [|done]. apply bool_decide_eq_true in Hid as ->. injection Hn as <-.
  pose proof (register_candidate_store (w_forwarding w) c id ver conc sink (Some ack) queued) as Hs. rewrite <-Hx in Hs.
  apply (installed_leads _ x id false (λ e, ModuleConnection.mk e sink ver conc)); [apply register_candidate_module_connection_ok, Hok| |done].
  destruct x; naive_solver.
Qed.

Lemma cleanup_action x w' ph ph' :
  phase_ok w c ph → next sink_of c ph (Cleanup c) x = Some ph' → perform w (Cleanup c) x w' → leads ph' w'.
Proof.
  intros Hph Hn [Hx ->]. simpl in Hn. destruct ph; try done. rewrite Z.eqb_refl in Hn. injection Hn as <-.
  pose proof (fw_store_ok _ (wo_forwarding _ Hok)) as Hsok. pose proof (cleanup_store (w_forwarding w) c) as Hs.
  apply forwarding_leads; [apply cleanup_connection_ok, Hok|..].
  - intros d Hd. rewrite Hs. destruct (endpoint_by_connection (w_forwarding w) !! c) as [e|] eqn:He; [|done].
    by apply (forgotten_kept (store (w_forwarding w))).
  - split; [done|]. unfold endpoint_of. cbn [w_forwarding set_field].
    change (endpoint_by_connection ?fw) with (st_endpoints (store fw)). rewrite Hs.
    destruct (endpoint_by_connection (w_forwarding w) !! c) as [e|] eqn:He; [|done].
    by apply (forgotten_endpoint (store (w_forwarding w))).
Qed.

Lemma publish_action x w' ph ph' :
  phase_ok w c ph → next sink_of c ph (Publish c) x = Some ph' → perform w (Publish c) x w' → leads ph' w'.
Proof.
  intros Hph Hn [Hx ->]. simpl in Hn. rewrite Z.eqb_refl in Hn.
  destruct (publish_registration (w_registry w) c) as [t b] eqn:Hp. cbn [fst snd] in *.
  destruct ph as [| | | |id b'| |id|]; try done.
  - destruct (sink_of c) eqn:Hs; [done|]. injection Hn as <-. destruct Hph as (Hname & _ & He). eapply publish_leads; [done..| |done]. auto.
  - injection Hn as <-. destruct Hph as (Hname & _ & Hs). eapply publish_leads; [done..| |done]. auto.
Qed.

Lemma deregister_action reason x w' ph ph' :
  phase_ok w c ph → next sink_of c ph (Deregister c reason) x = Some ph' → perform w (Deregister c reason) x w' → leads ph' w'.
Proof.
  intros Hph Hn [Hx ->]. simpl in Hn. rewrite Z.eqb_refl in Hn.
  destruct (deregister_connection_with_reason (w_registry w) c reason) as [[t closed] ends] eqn:Hd. cbn [fst snd] in *.
  destruct ph; try done; injection Hn as <-; (eapply deregister_leads; [done|]); [by left|by left|right].
  by destruct Hph as (_ & _ & He).
Qed.

Lemma record_action nonce x w' ph ph' :
  phase_ok w c ph → next sink_of c ph (RecordNonce c nonce) x = Some ph' → perform w (RecordNonce c nonce) x w' → leads ph' w'.
Proof.
  intros Hph Hn ->. simpl in Hn. rewrite Z.eqb_refl in Hn. destruct ph as [| |id nonce'| | | | |]; try done.
  - injection Hn as <-. apply nonces_leads; [apply Hph|intros d Hd; by apply record_other|exact Hph].
  - destruct (decide _) as [->|]; [|done]. injection Hn as <-. destruct Hph as (Hname & He & n & -> & Hv).
    apply nonces_leads; [done|intros d Hd; by apply record_other|]. split_and!; [done..|]. exists n. split; [|done].
    apply record_own. eapply vouched_nonempty; [apply Hok|done].
Qed.

Lemma forget_action x w' ph ph' :
  phase_ok w c ph → next sink_of c ph (ForgetNonce c) x = Some ph' → perform w (ForgetNonce c) x w' → leads ph' w'.
Proof.
  intros Hph Hn ->. simpl in Hn. destruct ph; try done. rewrite Z.eqb_refl in Hn. injection Hn as <-.
  apply nonces_leads; [apply Hph| |exact Hph]. intros d Hd. unfold HelloLaunchNonces.nonce, HelloLaunchNonces.forget. simpl.
  by rewrite lookup_delete_ne.
Qed.

Lemma handle_leads h ph : handle_step (w_ledger w, w_handle w) (w_ledger w, h) → phase_ok w c ph → leads ph (w <| w_handle := h |>).
Proof.
  intros Hs Hph. split_and!; [|done|].
  - pose proof (ledger_step _ _ Hs (wo_ledger _ Hok)) as Hl. destruct Hok. by split.
  - intros d _. by split.
Qed.
End own.

(** ** What the answers tell *)

Lemma by_connection_phase w c ph c' x ph' :
  phase_ok w c ph → next sink_of c ph (ByConnection c') x = Some ph' → x = get_module_by_connection (w_registry w) c' →
  phase_ok w c ph'.
Proof.
  intros Hph [= <-] ->. destruct ph; try done. destruct (get_module_by_connection _ c') eqn:Hg; [done|].
  destruct (c' =? c) eqn:Hc; [|done]. apply Z.eqb_eq in Hc as ->. apply reg_view_by_connection in Hg.
  simpl in *. unfold reg_name in *. rewrite Hg in *. done.
Qed.

Lemma admission_phase w c ph id nonce x ph' :
  world_ok w → phase_ok w c ph → next sink_of c ph (SwapAdmission id nonce) x = Some ph' →
  x = swap_hello_admission (w_handle w) id nonce → phase_ok w c ph'.
Proof.
  intros Hok Hph [= <-] Hx. destruct ph; try done. destruct x; try done. symmetry in Hx.
  apply (admission_minted (w_ledger w)) in Hx as (n & -> & Hn); [|apply Hok]. destruct Hph. split_and!; [done..|]. exists n. split; [done|]. by left.
Qed.

Lemma verification_phase w c ph id nonce x ph' :
  world_ok w → phase_ok w c ph → next sink_of c ph (ReservedVerification id nonce) x = Some ph' →
  x = reserved_hello_verification (w_handle w) id nonce → phase_ok w c ph'.
Proof.
  intros Hok Hph [= <-] Hx. destruct ph; try done. destruct x as [[|]|]; try done. symmetry in Hx.
  apply (verification_vouched (w_ledger w)) in Hx as (n & -> & Hn); [|apply Hok]. destruct Hph. split_and!; [done..|]. by exists n.
Qed.

(** A handler's action is of its own connection, and leads to the next phase. *)
Lemma own_step w c ph a x w' ph' :
  world_ok w → phase_ok w c ph → next sink_of c ph a x = Some ph' → perform w a x w' → leads w c ph' w'.
Proof.
  intros Hok Hph Hn Hp. pose proof (next_own _ _ _ _ _ _ Hn) as Hown.
  destruct a as [c'|m ver c' ops verified|m ver c' ops|c'|c' reason|id|id nonce|id nonce|id|id reserved|c'|c' id ver conc sink ack
    |c' id ver conc sink ack|c'|e|c'|c'|id|c' nonce|c'|id caps|ver id|id|id|what];
    cbn beta iota in Hown; try subst c'; try done; try (injection Hn as <-; simpl in Hp; subst w'; by apply leads_same).
  - destruct Hp as [Hx ->]. apply leads_same; [done|]. by eapply by_connection_phase.
  - by eapply register_action.
  - by eapply register_candidate_action.
  - by eapply publish_action.
  - by eapply deregister_action.
  - destruct Hp as [Hx ->]. apply leads_same; [done|]. by eapply admission_phase.
  - destruct Hp as [Hx ->]. apply leads_same; [done|]. by eapply verification_phase.
  - simpl in Hp. subst w'. injection Hn as <-. apply handle_leads; [done|constructor|done].
  - destruct Hp as [_ ->]. injection Hn as <-. by apply leads_same.
  - by eapply install_action.
  - by eapply install_candidate_action.
  - destruct Hp as [_ ->]. injection Hn as <-. by apply leads_same.
  - destruct Hp as [_ ->]. injection Hn as <-. by apply leads_same.
  - destruct Hp as [_ ->]. injection Hn as <-. by apply leads_same.
  - by eapply cleanup_action.
  - by eapply record_action.
  - by eapply forget_action.
Qed.

(** ** Swaps *)

(** [SwCut]: forwarding routes to the candidate, the registry has not heard. *)
Inductive SwapPhase := SwStart | SwCut | SwDone.

Definition next_swap (id : string) (sph : SwapPhase) (a : Action) : answer a → option SwapPhase :=
  match a return answer a → option SwapPhase with
  | CutOver id' => λ x,
      match sph with
      | SwStart => if decide (id' = id) then Some match x with Ok (Some _) => SwCut | _ => SwDone end else None
      | _ => None
      end
  | Promote id' => λ _, match sph with SwCut => if decide (id' = id) then Some SwDone else None | _ => None end
  | PromoteNonce _ _ | Elsewhere_ _ => λ _, match sph with SwDone => Some SwDone | _ => None end
  | _ => λ _, None
  end.

Fixpoint swap_follows {R} (id : string) (sph : SwapPhase) (p : Prog R) : Prop :=
  match p with
  | Ret _ => sph = SwDone
  | Do a k => (a = Promote id ↔ sph = SwCut) ∧ ∀ x, ∃ sph', next_swap id sph a x = Some sph' ∧ swap_follows id sph' (k x)
  end.

Lemma swap_cutover_follows id reserved : swap_follows id SwStart (finish (swap_cutover id reserved)).
Proof.
  split; [done|]. intros cut. eexists. split; [simpl; by rewrite decide_True|].
  destruct cut as [[cut|]|err]; simpl; [|done..].
  split; [done|]. intros cutover. eexists. split; [by rewrite decide_True|]. destruct cutover as [cutover|]; simpl; [|done].
  split; [done|]. intros u. eexists. split; [done|]. split; [done|]. intros v. eexists. split; [done|].
  split; [done|]. intros y. by eexists.
Qed.

Lemma cut_over_kept st id m d : store_kept st (cut_over st id m) d.
Proof. done. Qed.

Lemma swapper_step w id sph a x w' sph' :
  world_ok w → next_swap id sph a x = Some sph' → perform w a x w' → world_ok w' ∧ ∀ d, kept w w' d.
Proof.
  intros Hok Hn Hp. destruct a as [| | | | |id'| | | |id' reserved| | | | | | | |id'| | | | | | |what]; try done.
  - destruct Hp as [Hx ->]. destruct (promote_candidate (w_registry w) id') as [t cut] eqn:Hpr. cbn [fst snd] in *.
    apply promote_view in Hpr as (Ht & Hu & Hnv & Hview); [|apply Hok].
    assert (∀ d, reg_name (w <| w_registry := t |>) d = reg_name w d) as Hname.
    { intros d. rewrite reg_name_set. unfold reg_name. destruct cut as [cut|]; [|by destruct Hview as [-> _]].
      destruct Hview as (_ & _ & ->). destruct (reg_view (w_registry w) d) as [[slot i]|]; [|done]. simpl. unfold promoted_view.
      simpl. by destruct (decide (i = id')) as [->|]. }
    split.
    + destruct Hok as [Hr Hf Hl Hv]. split; try done. intros c Hc. rewrite Hname. apply Hv. simpl in Hc. by rewrite Hnv in Hc.
    + intros d. split; try done. simpl. by rewrite Hu.
  - simpl in Hp. subst w'. split; [|by intros d; split].
    assert (handle_step (w_ledger w, w_handle w) (w_ledger w, promote_swap_nonce (w_handle w) id' reserved)) as Hs by constructor.
    pose proof (ledger_step _ _ Hs (wo_ledger _ Hok)) as Hl. destruct Hok. by split.
  - destruct Hp as [Hx ->]. pose proof (cutover_store (w_forwarding w) id') as Hs. split.
    + pose proof (cutover_candidate_ok (w_forwarding w) id' (wo_forwarding _ Hok)). by destruct Hok.
    + intros d. apply kept_store. rewrite <-Hx in Hs. destruct x as [[cut|]|err]; [|by rewrite Hs..].
      destruct Hs as (m & _ & ->). apply cut_over_kept.
  - simpl in Hp. subst w'. split; [done|]. intros d. apply kept_refl.
Qed.

(** ** The system *)

#[local] Arguments phase_ok : simpl never.

Record system_ok s : Prop := {
  so_world : world_ok (world s);
  so_idle c : handlers s !! c = None → phase_ok (world s) c PhSettled;
  so_handler c p : handlers s !! c = Some p → ∃ ph, follows sink_of c ph p (λ ph _, resting ph) ∧ phase_ok (world s) c ph;
  so_swapper id p : swappers s !! id = Some p → ∃ sph, swap_follows id sph p;
}.

Lemma resting_settled w c ph : resting ph → phase_ok w c ph → phase_ok w c PhSettled.
Proof. unfold phase_ok. destruct ph; simpl; try done; intros _; [intros [-> ?]|intros (-> & ? & _)|intros (-> & ? & _)]; done. Qed.

(** The world moved, and disturbed nobody. *)
Lemma system_ok_kept s w' :
  system_ok s → world_ok w' → (∀ d, kept (world s) w' d) → system_ok (s <| world := w' |>).
Proof.
  intros [Hw Hi Hh Hs] Hok Hkept. split; simpl; [done|..|done].
  - intros c Hc. by eapply phase_ok_kept, Hi.
  - intros c p Hp. destruct (Hh c p Hp) as (ph & Hf & Hph). exists ph. split; [done|]. by eapply phase_ok_kept.
Qed.

Lemma start_ok s p c :
  system_ok s → handlers s !! c = None → follows sink_of c PhSettled p (λ ph _, resting ph) →
  system_ok (s <| handlers := <[c := p]> (handlers s) |>).
Proof.
  intros [Hw Hi Hh Hs] Hc Hp. split; simpl; [done|..|done].
  - intros d [Hd _]%lookup_insert_None. by apply Hi.
  - intros d q [[<- <-]|[_ Hq]]%lookup_insert_Some; [|by apply Hh]. exists PhSettled. split; [done|]. by apply Hi.
Qed.

Lemma system_step_ok guard s s' : system_step sink_of guard s s' → system_ok s → system_ok s'.
Proof.
  intros Hstep Hok. pose proof Hok as [Hw Hi Hh Hs].
  destruct Hstep as [c parsed Hc|c reason Hc|c a k x w' Hc _ Hp|c Hc|id reserved Hid|id a k x w' Hid _ Hp|id Hid|t' Ht|l h Hl|fw Hfw Hst].
  - apply start_ok; [done..|]. apply finish_follows, handle_hello_follows.
  - apply start_ok; [done..|]. apply finish_follows, cleanup_follows.
  - destruct (Hh c _ Hc) as (ph & Hf & Hph). destruct (Hf x) as (ph' & Hn & Hf').
    destruct (own_step (world s) c ph a x w' ph' Hw Hph Hn Hp) as (Hw' & Hph' & Hkept). split; simpl; [done|..|done].
    + intros d [Hd Hdc]%lookup_insert_None. eapply phase_ok_kept; [by apply Hkept|]. by apply Hi.
    + intros d q [[<- <-]|[Hdc Hq]]%lookup_insert_Some; [by exists ph'|]. destruct (Hh d q Hq) as (phd & Hfd & Hphd).
      exists phd. split; [done|]. by eapply phase_ok_kept; [apply Hkept|].
  - destruct (Hh c _ Hc) as (ph & Hf & Hph). split; simpl; [done|..|done].
    + intros d [->|Hd]%lookup_delete_None; [by eapply resting_settled|by apply Hi].
    + intros d q [_ Hq]%lookup_delete_Some. by apply Hh.
  - split; simpl; [done..|]. intros j q [[<- <-]|[_ Hq]]%lookup_insert_Some; [|by apply (Hs j)].
    exists SwStart. apply swap_cutover_follows.
  - destruct (Hs id _ Hid) as (sph & _ & Hf). destruct (Hf x) as (sph' & Hn & Hf').
    destruct (swapper_step (world s) id sph a x w' sph' Hw Hn Hp) as [Hw' Hkept].
    destruct (system_ok_kept s w' Hok Hw' Hkept) as [Hw2 Hi2 Hh2 _]. split; simpl; [done..|].
    intros j q [[<- <-]|[_ Hq]]%lookup_insert_Some; [by exists sph'|by apply (Hs j)].
  - split; simpl; [done..|]. intros j q [_ Hq]%lookup_delete_Some. by apply (Hs j).
  - destruct (quiet_view _ _ (wo_registry _ Hw) Ht) as (Hok' & Hview & Hu & Hn). apply system_ok_kept; [done|..].
    + destruct Hw as [Hr Hf Hl Hv]. split; try done. intros c Hc. simpl in Hc. rewrite Hn in Hc.
      destruct (Hv c Hc) as (id & n & Hid & ? & ?). exists id, n. split_and!; [|done..]. by rewrite reg_name_set, Hview.
    + intros d. apply kept_registry; [apply Hview|by rewrite Hu].
  - apply system_ok_kept; [done| |intros d; by apply kept_handle].
    pose proof (ledger_step _ _ Hl (wo_ledger _ Hw)) as Hl'. pose proof (handle_step_grows _ _ _ _ Hl) as [Hm Ho].
    destruct Hw as [Hr Hf _ Hv]. split; try done. intros c Hc. destruct (Hv c Hc) as (id & n & ? & ? & ?).
    exists id, n. split_and!; [done..|]. by eapply vouched_mono.
  - apply system_ok_kept; [done|by destruct Hw|]. intros d. apply kept_store. by rewrite Hst.
Qed.

Lemma start_system_ok : system_ok start_system.
Proof.
  split; [|..].
  - split; simpl; [apply empty_registry_ok|apply empty_forwarding_ok|apply no_ledger_ok|]. intros c Hc. by apply elem_of_empty in Hc.
  - intros c _. unfold phase_ok, reg_name. simpl.
    destruct (reg_view empty_registry c) as [[slot id]|] eqn:Hv; simpl; [|done].
    apply reg_view_Some in Hv as (r & Hr & _); [|apply empty_registry_ok]. destruct slot; simpl in Hr;
      [by apply lookup_empty_Some in Hr|by apply lookup_empty_Some in Hr|by apply elem_of_nil in Hr].
  - intros c p Hp. simpl in Hp. by apply lookup_empty_Some in Hp.
  - intros id p Hp. simpl in Hp. by apply lookup_empty_Some in Hp.
Qed.

Lemma system_reachable_ok guard s : system_reachable sink_of guard s → system_ok s.
Proof.
  intros Hs. assert (system_ok start_system) as Hok by apply start_system_ok. unfold system_reachable in Hs.
  induction Hs as [|s1 s2 s3 Hstep _ IH]; [done|]. by apply IH, (system_step_ok _ _ _ Hstep).
Qed.

(** ** What the tables say *)

Lemma reg_name_by_connection w c : reg_name w c = reg_id <$> get_module_by_connection (w_registry w) c.
Proof. unfold reg_name, get_module_by_connection, reg_view. by destruct (find_by_connection _ c). Qed.

Lemma listed_name w r :
  world_ok w → r ∈ (list_modules (w_registry w)).2 →
  reg_view (w_registry w) (reg_connection r) = Some (KindActive, reg_id r) ∧ (reg_connection r ∉ unpublished (w_registry w)).
Proof.
  intros Hok Hr. fold (catalog (w_registry w)) in Hr. apply elem_of_catalog in Hr as [Hr Hp]; [|apply Hok]. split; [|done].
  apply reg_view_Some; [apply Hok|]. by exists r.
Qed.

(** Whatever the handler is at, a published module is installed. *)
Lemma published_seated s c id :
  system_ok s → reg_name (world s) c = Some id → c ∉ unpublished (w_registry (world s)) → is_Some (sink_of c) →
  seated (world s) c id.
Proof.
  intros Hok Hname Hp [sink Hsink]. assert (∃ ph, phase_ok (world s) c ph) as [ph Hph].
  { destruct (handlers s !! c) as [p|] eqn:Hh; [destruct (so_handler s Hok c p Hh) as (ph & _ & ?)|pose proof (so_idle s Hok c Hh)]; eauto. }
  destruct ph; unfold phase_ok in Hph; rewrite Hname in Hph; try (destruct Hph as (Hph & _); done); try done.
  - destruct Hph as [_ [?|[? _]]]; [done|congruence].
  - by destruct Hph as (_ & ? & _).
  - by destruct Hph as (_ & ? & _).
  - by destruct Hph as (_ & ? & _).
Qed.
End invariant.
