(* ===== verification/HelloSwap.v ===== *)
(** * Swaps and where routes go

    Forwarding cuts over before the registry promotes.  As long as no HELLO of
    the module is half-way through while its swap cuts over, the endpoint of a
    registered process sits where its slot in the registry says. *)

From S2P Require Import Prelude Collections Envelope Program Tokens ScopeTypes Scopes.
From S2P Require Import Flow Forwarding ForwardingInvariant ForwardingOps ForwardingCleanup ForwardingStore.
From S2P Require Import Registry RegistryOk RegistrySteps RegistryView LaunchNonces Hello HelloWorld HelloPhases HelloInvariant.

Section swap.
Context `{ManifestTypes} `{WatchLaws} `{HashOrder} `{Semaphore}.
Context (sink_of : Z → option Sink).
Implicit Types (w : World) (ph : Phase) (s : System) (st : Store).

(** ** The assumption *)

(** Forwarding has cut over and the registry has not promoted. *)
Definition cutting s (id : string) : Prop := ∃ k, swappers s !! id = Some (Do (Promote id) k).

(** HELLOs of a module do not overlap its cutover: none is unpublished when it
    begins, and none registers before it is over. *)
Definition calm s (a : Action) : Prop :=
  match a with
  | CutOver id => ∀ c slot, reg_view (w_registry (world s)) c = Some (slot, id) → c ∉ unpublished (w_registry (world s))
  | RegisterUnpublished m _ _ _ _ | RegisterUnpublishedCandidate m _ _ _ => ¬ cutting s (module_id m)
  | _ => True
  end.

(** ** Where an endpoint sits *)

Definition active_at st (id : string) (e : ModuleEndpointId.t) : Prop := ModuleConnection.endpoint <$> st_active st !! id = Some e.
Definition candidate_at st (id : string) (e : ModuleEndpointId.t) : Prop := ModuleConnection.endpoint <$> st_candidates st !! id = Some e.

Definition sits st (cut : string → Prop) (slot : SlotKind) (id : string) (e : ModuleEndpointId.t) : Prop :=
  match slot with
  | KindActive => active_at st id e ∨ is_Some (st_superseded st !! e)
  | KindCandidate => (cut id → active_at st id e) ∧ (¬ cut id → candidate_at st id e)
  | KindSuperseded => True
  end.

Record placed w (cut : string → Prop) : Prop := {
  pl_quiet id c slot : cut id → reg_view (w_registry w) c = Some (slot, id) → c ∉ unpublished (w_registry w);
  pl_sits c slot id e : reg_view (w_registry w) c = Some (slot, id) → endpoint_of w c = Some e →
    sits (store (w_forwarding w)) cut slot id e;
}.

Lemma sits_ext st st' cut cut' slot id e :
  st_active st' !! id = st_active st !! id → st_candidates st' !! id = st_candidates st !! id →
  (is_Some (st_superseded st !! e) → is_Some (st_superseded st' !! e)) → (cut' id ↔ cut id) →
  sits st cut slot id e → sits st' cut' slot id e.
Proof.
  intros Ha Hc Hs Hcut. destruct slot; simpl; unfold active_at, candidate_at; [|by rewrite Ha, Hc, Hcut|done].
  rewrite Ha. intros [?|?]; auto.
Qed.

(** Another endpoint was forgotten. *)
Lemma forgotten_at (m m' : gmap string ModuleConnection.t) st e ec id :
  e ≠ ec → m' = match st_names st !! ec with
                | Some i => if is_some_and (λ x, bool_decide (ModuleConnection.endpoint x = ec)) (m !! i) then delete i m else m
                | None => m
                end →
  ModuleConnection.endpoint <$> m !! id = Some e → ModuleConnection.endpoint <$> m' !! id = Some e.
Proof.
  intros Hne -> Hm. destruct (st_names st !! ec) as [i|]; [|done].
  destruct (is_some_and _ (m !! i)) eqn:Hi; [|done]. rewrite lookup_delete_ne; [done|]. intros ->.
  destruct (m !! id) as [x|]; [|done]. simpl in *. apply bool_decide_eq_true in Hi. congruence.
Qed.

Lemma forgotten_sits st c cut slot id e ec :
  e ≠ ec → sits st cut slot id e → sits (forgotten (st <| st_endpoints := delete c (st_endpoints st) |>) ec) cut slot id e.
Proof.
  intros Hne. destruct slot; simpl; [|..|done].
  - intros [Ha|Hs]; [left; by eapply (forgotten_at _ _ st)|right]. simpl. by rewrite lookup_delete_ne.
  - intros [Ha Hc]. split; intros Hcut; [specialize (Ha Hcut)|specialize (Hc Hcut)]; by eapply (forgotten_at _ _ st).
Qed.

(** Nothing moved. *)
Lemma placed_same w w' cut :
  (∀ d, reg_view (w_registry w') d = reg_view (w_registry w) d) → unpublished (w_registry w') = unpublished (w_registry w) →
  store (w_forwarding w') = store (w_forwarding w) → placed w cut → placed w' cut.
Proof.
  intros Hview Hu Hst [Hq Hs]. split.
  - intros id c slot. rewrite Hview, Hu. apply Hq.
  - intros c slot id e. rewrite Hview, Hst. unfold endpoint_of. change (endpoint_by_connection ?fw) with (st_endpoints (store fw)).
    rewrite Hst. apply Hs.
Qed.

(** What a handler's phase says of the slot. *)
Definition slot_ok w (c : Z) ph : Prop :=
  match ph with
  | PhRegistered id candidate => reg_view (w_registry w) c = Some (if candidate then KindCandidate else KindActive, id)
  | _ => True
  end.

Section own.
Context (w : World) (c : Z) (cut : string → Prop).
Context (Hok : world_ok w) (Hpl : placed w cut).

(** The registry changed, for [c] only. *)
Lemma placed_registry t :
  (∀ d, d ≠ c → reg_view t d = reg_view (w_registry w) d) →
  (∀ d, d ≠ c → d ∈ unpublished t → d ∈ unpublished (w_registry w)) →
  match reg_view t c with
  | Some (slot, id) =>
      (reg_view (w_registry w) c = Some (slot, id) ∨ endpoint_of w c = None) ∧
      (c ∈ unpublished t → ¬ cut id)
  | None => True
  end → placed (w <| w_registry := t |>) cut.
Proof.
  intros Hview Hu Hc. split; simpl.
  - intros id d slot Hcut Hd Hun. destruct (decide (d = c)) as [->|Hdc].
    + rewrite Hd in Hc. by apply Hc in Hun.
    + rewrite Hview in Hd by done. by eapply (pl_quiet _ _ Hpl id d slot), Hu.
  - intros d slot id e Hd He. destruct (decide (d = c)) as [->|Hdc].
    + rewrite Hd in Hc. change (endpoint_of w c = Some e) in He. destruct Hc as [[Hc|Hc] _]; [|congruence]. by eapply (pl_sits _ _ Hpl c).
    + rewrite Hview in Hd by done. by eapply (pl_sits _ _ Hpl d).
Qed.

(** The forwarding table changed. *)
Lemma placed_forwarding fw :
  (∀ d slot id e, reg_view (w_registry w) d = Some (slot, id) → endpoint_by_connection fw !! d = Some e →
     sits (store fw) cut slot id e) → placed (w <| w_forwarding := fw |>) cut.
Proof. intros Hs. split; simpl; [apply Hpl|exact Hs]. Qed.

(** A registered connection that is not published stops the cutover. *)
Lemma unpublished_calm id slot : reg_view (w_registry w) c = Some (slot, id) → c ∈ unpublished (w_registry w) → ¬ cut id.
Proof. intros Hv Hu Hcut. by eapply (pl_quiet _ _ Hpl id c slot). Qed.

Lemma install_placed fw id m :
  reg_view (w_registry w) c = Some (KindActive, id) → c ∈ unpublished (w_registry w) →
  store fw = (installed (store (w_forwarding w)) (next_endpoint (w_forwarding w) c) id)
               <| st_active := <[id := m]> (modules_by_id (w_forwarding w)) |> →
  ModuleConnection.endpoint m = next_endpoint (w_forwarding w) c → placed (w <| w_forwarding := fw |>) cut.
Proof.
  intros Hv Hu Hst Hm. pose proof (unpublished_calm id _ Hv Hu) as Hcalm. apply placed_forwarding. intros d slot j e Hd He.
  change (endpoint_by_connection fw) with (st_endpoints (store fw)) in He. rewrite Hst in *. simpl in He.
  apply lookup_insert_Some in He as [[<- <-]|[Hdc He]].
  - rewrite Hv in Hd. injection Hd as <- <-. left. unfold active_at. simpl. by rewrite lookup_insert_eq, <-Hm.
  - pose proof (pl_sits _ _ Hpl d slot j e Hd He) as Hs. destruct (decide (j = id)) as [->|Hj].
    + destruct slot; [by pose proof (active_unique _ _ _ _ (wo_registry _ Hok) Hd Hv)| |done].
      destruct Hs as [_ Hs]. split; [done|]. intros _. exact (Hs Hcalm).
    + eapply sits_ext, Hs; [simpl; by rewrite lookup_insert_ne|done..].
Qed.

Lemma install_candidate_placed fw id m :
  reg_view (w_registry w) c = Some (KindCandidate, id) → c ∈ unpublished (w_registry w) →
  store fw = (installed (store (w_forwarding w)) (next_endpoint (w_forwarding w) c) id)
               <| st_candidates := <[id := m]> (candidates_by_id (w_forwarding w)) |> →
  ModuleConnection.endpoint m = next_endpoint (w_forwarding w) c → placed (w <| w_forwarding := fw |>) cut.
Proof.
  intros Hv Hu Hst Hm. pose proof (unpublished_calm id _ Hv Hu) as Hcalm. apply placed_forwarding. intros d slot j e Hd He.
  change (endpoint_by_connection fw) with (st_endpoints (store fw)) in He. rewrite Hst in *. simpl in He.
  apply lookup_insert_Some in He as [[<- <-]|[Hdc He]].
  - rewrite Hv in Hd. injection Hd as <- <-. split; [done|]. intros _. unfold candidate_at. simpl. by rewrite lookup_insert_eq, <-Hm.
  - pose proof (pl_sits _ _ Hpl d slot j e Hd He) as Hs. destruct (decide (j = id)) as [->|Hj].
    + destruct slot; [exact Hs| |done]. by pose proof (candidate_unique _ _ _ _ (wo_registry _ Hok) Hd Hv).
    + eapply sits_ext, Hs; [done|simpl; by rewrite lookup_insert_ne|done..].
Qed.

Lemma cleanup_placed : reg_view (w_registry w) c = None → placed (w <| w_forwarding := (cleanup_connection (w_forwarding w) c).1.1 |>) cut.
Proof.
  intros Hc. apply placed_forwarding. intros d slot j e Hd He.
  change (endpoint_by_connection ?fw) with (st_endpoints (store fw)) in He. rewrite cleanup_store in *.
  assert (d ≠ c) as Hdc by congruence. pose proof (fw_store_ok _ (wo_forwarding _ Hok)) as Hsok.
  destruct (endpoint_by_connection (w_forwarding w) !! c) as [ec|] eqn:Hec; [|by apply (pl_sits _ _ Hpl d)].
  destruct (forgotten_kept (store (w_forwarding w)) c ec d Hsok Hec Hdc) as [Hend _].
  pose proof (eq_trans (eq_sym Hend) He) as He'. clear He Hend. pose proof (pl_sits _ _ Hpl d slot j e Hd He') as Hs.
  apply forgotten_sits; [|exact Hs]. intros ->. apply (nm_connection _ _ _ _ _ Hsok) in He' as [? _].
  apply (nm_connection _ _ _ _ _ Hsok) in Hec as [? _]. congruence.
Qed.

(** ** The actions of a handler *)

Definition stays ph w' : Prop :=
  placed w' cut ∧ slot_ok w' c ph ∧ ∀ d, d ≠ c → reg_view (w_registry w') d = reg_view (w_registry w) d.

Lemma stays_same ph w' :
  w_registry w' = w_registry w → store (w_forwarding w') = store (w_forwarding w) → slot_ok w c ph → stays ph w'.
Proof.
  intros Hr Hst Hs. split_and!; [|unfold slot_ok in *; by rewrite Hr|intros d _; by rewrite Hr].
  eapply placed_same, Hpl; [intros d|..]; by rewrite ?Hr.
Qed.

Lemma register_stays t slot id verified (candidate : bool) :
  registered (w_registry w) t c slot id verified → endpoint_of w c = None → ¬ cut id →
  slot = (if candidate then KindCandidate else KindActive) → stays (PhRegistered id candidate) (w <| w_registry := t |>).
Proof.
  intros [Ht Hview Hu Hn] He Hcut ->. assert (∀ d, d ≠ c → reg_view t d = reg_view (w_registry w) d) as Hother.
  { intros d Hd. by rewrite Hview, decide_False. }
  split_and!; [|simpl; by rewrite Hview, decide_True|done]. apply placed_registry; [done|..].
  - intros d Hd Hin. apply Hu in Hin. naive_solver.
  - rewrite Hview, decide_True by done. split; [by right|done].
Qed.

Lemma phase_name ph : phase_ok sink_of w c ph → may_claim ph "" false = true ∨ (∃ id n, ph = PhRecorded id n) → reg_view (w_registry w) c = None ∧ endpoint_of w c = None.
Proof.
  intros Hph [Hm|(id & n & ->)].
  - destruct ph; try done; destruct Hph as (Hname & He & _) || destruct Hph as (Hname & He); by apply fmap_None in Hname.
  - destruct Hph as (Hname & He & _). by apply fmap_None in Hname.
Qed.

Lemma claim_free ph id verified :
  phase_ok sink_of w c ph → may_claim ph id verified = true → reg_view (w_registry w) c = None ∧ endpoint_of w c = None.
Proof. intros Hph Hm. apply (phase_name ph Hph). destruct ph; try done; [by left|right; eauto]. Qed.

Lemma register_placed m ver ops verified x w' ph ph' :
  phase_ok sink_of w c ph → next sink_of c ph (RegisterUnpublished m ver c ops verified) x = Some ph' →
  perform w (RegisterUnpublished m ver c ops verified) x w' → ¬ cut (module_id m) → stays ph' w'.
Proof.
  simpl. rewrite Z.eqb_refl. destruct (may_claim ph _ _) eqn:Hm; [|done]. intros Hph [= <-] [Hx ->] Hcut.
  destruct (claim_free _ _ _ Hph Hm) as [Hv He].
  destruct (register_unpublished_verified_with_control_ops _ _ _ _ _ _) as [t res] eqn:Hreg. cbn [fst snd] in *. subst res.
  apply register_active_view in Hreg; [|apply Hok|done]. destruct x as [r|err].
  - destruct Hreg as [-> Hreg]. by eapply register_stays.
  - subst t. by apply stays_same.
Qed.

Lemma register_candidate_placed m ver ops x w' ph ph' :
  phase_ok sink_of w c ph → next sink_of c ph (RegisterUnpublishedCandidate m ver c ops) x = Some ph' →
  perform w (RegisterUnpublishedCandidate m ver c ops) x w' → ¬ cut (module_id m) → stays ph' w'.
Proof.
  simpl. rewrite Z.eqb_refl. destruct (may_claim ph _ _) eqn:Hm; [|done]. intros Hph [= <-] [Hx ->] Hcut.
  destruct (claim_free _ _ _ Hph Hm) as [Hv He].
  destruct (register_unpublished_verified_candidate_with_control_ops _ _ _ _ _) as [t res] eqn:Hreg. cbn [fst snd] in *. subst res.
  apply register_candidate_view in Hreg; [|apply Hok|done]. destruct x as [r|err].
  - destruct Hreg as [_ Hreg]. by eapply register_stays.
  - subst t. by apply stays_same.
Qed.

(** Publishing and deregistering leave no registration of [c] unpublished. *)
Lemma settle_stays t ph :
  (∀ d, d ≠ c → reg_view t d = reg_view (w_registry w) d) →
  (∀ d, d ∈ unpublished t ↔ d ∈ unpublished (w_registry w) ∧ d ≠ c) →
  reg_view t c = reg_view (w_registry w) c ∨ reg_view t c = None →
  (∀ id b, ph ≠ PhRegistered id b) → stays ph (w <| w_registry := t |>).
Proof.
  intros Hview Hu Hc Hph. split_and!; [|by destruct ph; try done; edestruct Hph|done].
  apply placed_registry; [done|intros d _ Hd; by apply Hu in Hd as [? _]|].
  destruct (reg_view t c) as [[slot id]|]; [|done]. destruct Hc as [Hc|]; [|done].
  split; [by left|]. by intros [_ ?]%Hu.
Qed.

Lemma install_stays id ver conc sink ack x w' ph ph' :
  phase_ok sink_of w c ph → slot_ok w c ph → next sink_of c ph (Install c id ver conc sink ack) x = Some ph' →
  perform w (Install c id ver conc sink ack) x w' → stays ph' w'.
Proof.
  intros Hph Hslot Hn (queued & Hx & ->). simpl in Hn. destruct ph as [| | | |id' [|]| | |]; try done. rewrite Z.eqb_refl in Hn.
  destruct (bool_decide _) eqn:Hid; [|done]. apply bool_decide_eq_true in Hid as ->. injection Hn as <-.
  pose proof (register_store (w_forwarding w) c id ver conc sink (Some ack) queued) as Hs. rewrite <-Hx in Hs.
  destruct Hph as (_ & Hu & _). destruct x as [e|err].
  - destruct Hs as (-> & _ & Hs). split_and!; [|done..]. by eapply install_placed.
  - rewrite Hs. by apply stays_same.
Qed.

Lemma install_candidate_stays id ver conc sink ack x w' ph ph' :
  phase_ok sink_of w c ph → slot_ok w c ph → next sink_of c ph (InstallCandidate c id ver conc sink ack) x = Some ph' →
  perform w (InstallCandidate c id ver conc sink ack) x w' → stays ph' w'.
Proof.
  intros Hph Hslot Hn (queued & Hx & ->). simpl in Hn. destruct ph as [| | | |id' [|]| | |]; try done. rewrite Z.eqb_refl in Hn.
  destruct (bool_decide _) eqn:Hid; [|done]. apply bool_decide_eq_true in Hid as ->. injection Hn as <-.
  pose proof (register_candidate_store (w_forwarding w) c id ver conc sink (Some ack) queued) as Hs. rewrite <-Hx in Hs.
  destruct Hph as (_ & Hu & _). destruct x as [e|err].
  - destruct Hs as (-> & _ & _ & Hs). split_and!; [|done..]. by eapply install_candidate_placed.
  - rewrite Hs. by apply stays_same.
Qed.

Lemma own_placed a x w' ph ph' :
  phase_ok sink_of w c ph → slot_ok w c ph → next sink_of c ph a x = Some ph' → perform w a x w' →
  match a with RegisterUnpublished m _ _ _ _ | RegisterUnpublishedCandidate m _ _ _ => ¬ cut (module_id m) | _ => True end →
  stays ph' w'.
Proof.
  intros Hph Hslot Hn Hp Hguard. pose proof (next_own _ _ _ _ _ _ Hn) as Hown.
  destruct a as [c'|m ver c' ops verified|m ver c' ops|c'|c' reason|id|id nonce|id nonce|id|id reserved|c'|c' id ver conc sink ack
    |c' id ver conc sink ack|c'|e|c'|c'|id|c' nonce|c'|id caps|ver id|id|id|what];
    cbn beta iota in Hown; try subst c'; try done; try (injection Hn as <-; simpl in Hp; subst w'; by apply stays_same).
  - destruct Hp as [_ ->]. injection Hn as <-. apply stays_same; [done..|]. by destruct ph, x; try destruct (_ =? _).
  - by eapply register_placed.
  - by eapply register_candidate_placed.
  - destruct Hp as [Hx ->]. destruct (publish_registration (w_registry w) c) as [t b] eqn:Hpub.
    apply publish_view in Hpub as (_ & Hview & Hu & _); [|apply Hok]. cbn [fst snd] in *.
    apply settle_stays; [by intros d _|done|by left|]. simpl in Hn. rewrite Z.eqb_refl in Hn.
    destruct ph; try done; [destruct (sink_of c); [done|]|]; by injection Hn as <-.
  - destruct Hp as [Hx ->]. destruct (deregister_connection_with_reason (w_registry w) c reason) as [[t closed] ends] eqn:Hd.
    apply deregister_view in Hd as (_ & Hview & Hu & _); [|apply Hok]. cbn [fst snd] in *.
    apply settle_stays; [|done|right; by rewrite Hview, decide_True|].
    + intros d Hdc. by rewrite Hview, decide_False.
    + simpl in Hn. rewrite Z.eqb_refl in Hn. destruct ph; try done; by injection Hn as <-.
  - destruct Hp as [_ ->]. injection Hn as <-. apply stays_same; [done..|]. by destruct ph, x.
  - destruct Hp as [_ ->]. injection Hn as <-. apply stays_same; [done..|]. by destruct ph, x as [[]|].
  - destruct Hp as [_ ->]. injection Hn as <-. by apply stays_same.
  - by eapply install_stays.
  - by eapply install_candidate_stays.
  - destruct Hp as [_ ->]. injection Hn as <-. by apply stays_same.
  - destruct Hp as [_ ->]. injection Hn as <-. by apply stays_same.
  - destruct Hp as [_ ->]. injection Hn as <-. by apply stays_same.
  - destruct Hp as [_ ->]. simpl in Hn. destruct ph; try done. rewrite Z.eqb_refl in Hn. injection Hn as <-.
    split_and!; [|done..]. apply cleanup_placed. by apply fmap_None in Hph.
  - simpl in Hp. subst w'. apply stays_same; [done..|]. simpl in Hn. rewrite Z.eqb_refl in Hn.
    destruct ph; try done; [|destruct (decide _); [|done]]; by injection Hn as <-.
  - simpl in Hp. subst w'. apply stays_same; [done..|]. simpl in Hn. rewrite Z.eqb_refl in Hn. destruct ph; try done. by injection Hn as <-.
Qed.
End own.

(** ** The actions of a swap *)

Lemma placed_cut w (cut cut' : string → Prop) : (∀ id, cut' id ↔ cut id) → placed w cut → placed w cut'.
Proof.
  intros Hcut [Hq Hs]. split.
  - intros id c slot Hid. apply Hq. by apply Hcut.
  - intros c slot id e Hc He. eapply sits_ext; [done..|apply Hcut|]. by eapply Hs.
Qed.

Section swapper.
Context (w : World) (id : string) (cut : string → Prop).
Context (Hok : world_ok w) (Hpl : placed w cut).

Lemma cut_over_sits st m slot j e :
  ¬ cut id → st_candidates st !! id = Some m → sits st cut slot j e →
  sits (cut_over st id m) (λ i, cut i ∨ i = id) slot j e.
Proof.
  intros Hnc Hm. assert (is_Some (st_superseded st !! e) → is_Some (st_superseded (cut_over st id m) !! e)) as Hsup.
  { intros Hs. simpl. destruct (st_active st !! id) as [old|]; [|done].
    destruct (decide (ModuleConnection.endpoint old = e)) as [->|]; [rewrite lookup_insert_eq|rewrite lookup_insert_ne]; by eauto. }
  destruct (decide (j = id)) as [->|Hj].
  - destruct slot; simpl; [|..|done].
    + intros [Ha|Hs]; right; [|by apply Hsup]. unfold active_at in Ha. destruct (st_active st !! id) as [old|]; [|done].
      injection Ha as <-. rewrite lookup_insert_eq. by eexists.
    + intros [_ Hc]. specialize (Hc Hnc). split; [|tauto]. intros _. unfold active_at, candidate_at in *. simpl.
      by rewrite lookup_insert_eq, <-Hm.
  - apply sits_ext; [simpl; by rewrite lookup_insert_ne|simpl; by rewrite lookup_delete_ne|done|naive_solver].
Qed.

Lemma cut_over_placed fw m :
  (∀ c slot, reg_view (w_registry w) c = Some (slot, id) → c ∉ unpublished (w_registry w)) → ¬ cut id →
  candidates_by_id (w_forwarding w) !! id = Some m → store fw = cut_over (store (w_forwarding w)) id m →
  placed (w <| w_forwarding := fw |>) (λ i, cut i ∨ i = id).
Proof.
  intros Hcalm Hnc Hm Hst. split; simpl.
  - intros j c slot [Hj| ->]; [by apply Hpl|apply Hcalm].
  - intros c slot j e Hc He. rewrite Hst. apply cut_over_sits; [done..|]. eapply (pl_sits _ _ Hpl); [done|].
    change (st_endpoints (store fw) !! c = Some e) in He. by rewrite Hst in He.
Qed.

Lemma promote_placed t x :
  promote_candidate (w_registry w) id = (t, x) → cut id →
  placed (w <| w_registry := t |>) (λ i, cut i ∧ i ≠ id) ∧
  ∀ c slot j, c ∈ unpublished (w_registry w) → reg_view (w_registry w) c = Some (slot, j) → reg_view t c = Some (slot, j).
Proof.
  intros (_ & Hu & _ & Hx)%promote_view Hcut; [|apply Hok]. destruct x as [x|].
  - destruct Hx as (_ & _ & Hview). split; [split; simpl|].
    + intros j c slot [Hj Hne] Hc. rewrite Hview in Hc. apply fmap_Some in Hc as ([slot' j'] & Hc & Heq). rewrite Hu.
      unfold promoted_view in Heq. simpl in Heq. destruct (decide (j' = id)); simplify_eq. by eapply (pl_quiet _ _ Hpl).
    + intros c slot j e Hc He. rewrite Hview in Hc. apply fmap_Some in Hc as ([slot' j'] & Hc & Heq).
      pose proof (pl_sits _ _ Hpl c slot' j' e Hc He) as Hs. unfold promoted_view in Heq. simpl in Heq.
      destruct (decide (j' = id)) as [->|Hne]; injection Heq as -> ->.
      * destruct slot'; [done| |done]. left. by apply Hs.
      * eapply sits_ext, Hs; [done..|]. naive_solver.
    + intros c slot j Hc Hv. rewrite Hview, Hv. simpl. unfold promoted_view. simpl. destruct (decide (j = id)) as [->|]; [|done].
      by destruct (pl_quiet _ _ Hpl id c slot Hcut Hv).
  - destruct Hx as [-> Hnone]. split; [split; simpl|done].
    + intros j c slot [Hj _]. by apply (pl_quiet _ _ Hpl).
    + intros c slot j e Hc He. pose proof (pl_sits _ _ Hpl c slot j e Hc He) as Hs.
      destruct (decide (j = id)) as [->|Hne]; [|eapply sits_ext, Hs; [done..|]; naive_solver].
      destruct slot; [done| |done]. by apply Hnone in Hc.
Qed.
End swapper.

(** ** The system *)

#[local] Arguments phase_ok : simpl never.
#[local] Arguments slot_ok : simpl never.

Record calm_ok s : Prop := {
  co_system : system_ok sink_of s;
  co_slots c p : handlers s !! c = Some p →
    ∃ ph, follows sink_of c ph p (λ ph _, resting ph) ∧ phase_ok sink_of (world s) c ph ∧ slot_ok (world s) c ph;
  co_placed : placed (world s) (cutting s);
}.

Lemma slot_ok_ext w w' c ph :
  (∀ slot j, c ∈ unpublished (w_registry w) → reg_view (w_registry w) c = Some (slot, j) → reg_view (w_registry w') c = Some (slot, j)) →
  phase_ok sink_of w c ph → slot_ok w c ph → slot_ok w' c ph.
Proof. unfold phase_ok, slot_ok. destruct ph; try done. intros Hv (_ & Hu & _). by apply Hv. Qed.

(** The world moved, and disturbed nobody. *)
Lemma slots_kept s w' c p :
  calm_ok s → (∀ d, kept (world s) w' d) →
  (∀ d slot j, d ∈ unpublished (w_registry (world s)) → reg_view (w_registry (world s)) d = Some (slot, j) →
     reg_view (w_registry w') d = Some (slot, j)) →
  handlers s !! c = Some p → ∃ ph, follows sink_of c ph p (λ ph _, resting ph) ∧ phase_ok sink_of w' c ph ∧ slot_ok w' c ph.
Proof.
  intros Hok Hkept Hv Hp. destruct (co_slots s Hok c p Hp) as (ph & Hf & Hph & Hs). exists ph.
  split_and!; [done|by eapply phase_ok_kept|]. by eapply slot_ok_ext; [apply Hv|..].
Qed.

Lemma start_calm s p c :
  calm_ok s → system_ok sink_of (s <| handlers := <[c := p]> (handlers s) |>) → handlers s !! c = None →
  follows sink_of c PhSettled p (λ ph _, resting ph) → calm_ok (s <| handlers := <[c := p]> (handlers s) |>).
Proof.
  intros Hok Hsys Hc Hp. split; [done| |apply Hok]. simpl. intros d q [[<- <-]|[_ Hq]]%lookup_insert_Some; [|by apply Hok].
  exists PhSettled. split_and!; [done| |done]. by apply (so_idle _ _ (co_system s Hok)).
Qed.

(** A module is being cut over as long as its swap is in [SwCut]. *)
Lemma cutting_swapper s id a k x sph sph' :
  swappers s !! id = Some (Do a k) → (a = Promote id ↔ sph = SwCut) → swap_follows id sph' (k x) →
  (cutting s id ↔ sph = SwCut) ∧
  ∀ j, cutting (s <| swappers := <[id := k x]> (swappers s) |>) j ↔ (j = id ∧ sph' = SwCut) ∨ (j ≠ id ∧ cutting s j).
Proof.
  intros Hid Hsph Hf. unfold cutting. split.
  - rewrite Hid, <-Hsph. split; [by intros (k' & [= -> _])|]. intros ->. by eexists.
  - intros j. simpl. destruct (decide (j = id)) as [->|Hj]; [|rewrite lookup_insert_ne by done; naive_solver].
    rewrite lookup_insert_eq. split.
    + intros (k' & [= Hk]). left. split; [done|]. rewrite Hk in Hf. by apply Hf.
    + intros [[_ ->]|[? _]]; [|done]. destruct (k x) as [[]|a' k']; [done|]. destruct Hf as [Ha _].
      pose proof (proj2 Ha eq_refl) as ->. by eexists.
Qed.

Lemma swapper_calm s id a k x w' :
  calm_ok s → swappers s !! id = Some (Do a k) → calm s a → perform (world s) a x w' →
  placed w' (cutting (s <| swappers := <[id := k x]> (swappers s) |>)) ∧
  ∀ d slot j, d ∈ unpublished (w_registry (world s)) → reg_view (w_registry (world s)) d = Some (slot, j) →
    reg_view (w_registry w') d = Some (slot, j).
Proof.
  intros Hok Hid Hg Hp. pose proof (co_system s Hok) as [Hw _ _ Hs]. destruct (Hs id _ Hid) as (sph & Hsph & Hf).
  destruct (Hf x) as (sph' & Hn & Hf'). pose proof (cutting_swapper s id a k x sph sph' Hid Hsph Hf') as [Hbefore Hafter].
  destruct a as [| | | | |id'| | | |id' reserved| | | | | | | |id'| | | | | | |what]; try done; simpl in Hn.
  - destruct sph; try done. destruct (decide (id' = id)) as [->|]; [|done]. injection Hn as <-. destruct Hp as [_ ->].
    destruct (promote_candidate (w_registry (world s)) id) as [t y] eqn:Hpr.
    destruct (promote_placed (world s) id (cutting s) Hw (co_placed s Hok) t y Hpr) as [Hpl Hview]; [by apply Hbefore|].
    split; [|done]. eapply placed_cut, Hpl. intros j. rewrite Hafter. naive_solver.
  - destruct sph; try done. injection Hn as <-. simpl in Hp. subst w'. split; [|done].
    eapply placed_cut; [|by eapply placed_same, (co_placed s Hok)]. intros j. rewrite Hafter. naive_solver.
  - destruct sph; try done. destruct (decide (id' = id)) as [->|]; [|done]. injection Hn as <-. destruct Hp as [-> ->]. split; [|done].
    pose proof (cutover_store (w_forwarding (world s)) id) as Hst. destruct (cutover_candidate (w_forwarding (world s)) id).2 as [[cut|]|err].
    + destruct Hst as (m & Hm & Hst). eapply placed_cut, (cut_over_placed (world s) id (cutting s)); [|apply Hok|done|naive_solver|done..].
      intros j. rewrite Hafter. naive_solver.
    + rewrite Hst. eapply placed_cut; [|by eapply placed_same, (co_placed s Hok)]. intros j. rewrite Hafter. naive_solver.
    + rewrite Hst. eapply placed_cut; [|by eapply placed_same, (co_placed s Hok)]. intros j. rewrite Hafter. naive_solver.
  - destruct sph; try done. injection Hn as <-. simpl in Hp. subst w'. split; [|done]. eapply placed_cut, Hok. intros j. rewrite Hafter. naive_solver.
Qed.

Lemma world_calm s w' :
  calm_ok s → system_ok sink_of (s <| world := w' |>) → (∀ d, kept (world s) w' d) →
  (∀ d, reg_view (w_registry w') d = reg_view (w_registry (world s)) d) →
  unpublished (w_registry w') = unpublished (w_registry (world s)) → store (w_forwarding w') = store (w_forwarding (world s)) →
  calm_ok (s <| world := w' |>).
Proof.
  intros Hok Hsys Hkept Hview Hu Hst. split; [done|..].
  - simpl. intros c p. apply slots_kept; [done..|]. intros d slot j _. by rewrite Hview.
  - by eapply placed_same, (co_placed s Hok).
Qed.

Lemma system_step_calm s s' : system_step sink_of calm s s' → calm_ok s → calm_ok s'.
Proof.
  intros Hstep Hok. pose proof (system_step_ok _ _ _ _ Hstep (co_system s Hok)) as Hsys.
  pose proof (co_system s Hok) as [Hw _ _ Hs]. pose proof (co_placed s Hok) as Hpl.
  destruct Hstep as [c parsed Hc|c reason Hc|c a k x w' Hc Hg Hp|c Hc|id reserved Hid|id a k x w' Hid Hg Hp|id Hid|t' Ht|l h Hl|fw Hfw Hst].
  - apply start_calm; [done..|]. apply finish_follows, handle_hello_follows.
  - apply start_calm; [done..|]. apply finish_follows, cleanup_follows.
  - destruct (co_slots s Hok c _ Hc) as (ph & Hf & Hph & Hslot). destruct (Hf x) as (ph' & Hn & Hf').
    destruct (own_step sink_of (world s) c ph a x w' ph' Hw Hph Hn Hp) as (Hw' & Hph' & Hkept).
    destruct (own_placed (world s) c (cutting s) Hw Hpl a x w' ph ph' Hph Hslot Hn Hp) as (Hpl' & Hslot' & Hview); [by destruct a|].
    split; [done| |done]. simpl. intros d q [[<- <-]|[Hdc Hq]]%lookup_insert_Some; [by exists ph'|].
    destruct (co_slots s Hok d q Hq) as (phd & Hfd & Hphd & Hsd). exists phd.
    split_and!; [done|by eapply phase_ok_kept; [apply Hkept|]|]. eapply slot_ok_ext; [|done..]. intros. by rewrite Hview.
  - split; [done| |done]. simpl. intros d q [_ Hq]%lookup_delete_Some. by apply Hok.
  - split; [done|apply Hok|]. eapply placed_cut, Hpl. intros j. unfold cutting. simpl.
    destruct (decide (j = id)) as [->|]; [|by rewrite lookup_insert_ne]. rewrite lookup_insert_eq, Hid. naive_solver.
  - destruct (swapper_calm s id a k x w' Hok Hid Hg Hp) as [Hpl' Hview]. destruct (Hs id _ Hid) as (sph & _ & Hf).
    destruct (Hf x) as (sph' & Hn & Hf'). destruct (swapper_step (world s) id sph a x w' sph' Hw Hn Hp) as [Hw' Hkept].
    split; [done| |done]. simpl. intros d q. by apply slots_kept.
  - split; [done|apply Hok|]. eapply placed_cut, Hpl. intros j. unfold cutting. simpl.
    destruct (decide (j = id)) as [->|]; [|by rewrite lookup_delete_ne]. rewrite lookup_delete_eq, Hid. naive_solver.
  - destruct (quiet_view _ _ (wo_registry _ Hw) Ht) as (_ & Hview & Hu & _). apply world_calm; [done..| |done|done|done].
    intros d. apply kept_registry; [apply Hview|by rewrite Hu].
  - apply world_calm; [done..| |done|done|done]. intros d. by apply kept_handle.
  - apply world_calm; [done..| |done|done|done]. intros d. apply kept_store. by rewrite Hst.
Qed.

Lemma start_system_calm : calm_ok start_system.
Proof.
  pose proof (start_system_ok sink_of) as Hok. split; [done|..].
  - intros c p Hp. simpl in Hp. by apply lookup_empty_Some in Hp.
  - split.
    + intros id c slot (k & Hk). simpl in Hk. by apply lookup_empty_Some in Hk.
    + intros c slot id e _ He. unfold endpoint_of in He. simpl in He. by apply lookup_empty_Some in He.
Qed.

Lemma system_reachable_calm s : system_reachable sink_of calm s → calm_ok s.
Proof.
  intros Hs. assert (calm_ok start_system) as Hok by apply start_system_calm. unfold system_reachable in Hs.
  induction Hs as [|s1 s2 s3 Hstep _ IH]; [done|]. by apply IH, (system_step_calm _ _ Hstep).
Qed.
End swap.
