(* ===== verification/HelloExamples.v ===== *)
(** * A module launched, served and swapped

    Handlers run one after the other on concrete tables: the states the theorems
    on registering and swapping are applied at. *)

From S2P Require Import Prelude Collections Envelope Program Tokens ScopeTypes Scopes.
From S2P Require Import Flow Forwarding ForwardingInvariant ForwardingStore DaemonExamples.
From S2P Require Import Registry RegistryOk RegistrySteps RegistryView RegistryTheorems LaunchNonces.
From S2P Require Import Hello HelloWorld HelloPhases HelloInvariant HelloSwap.

(** Nothing is ruled out. *)
Definition any_order `{ManifestTypes} `{Watch} `{HashOrder} `{Semaphore} (_ : System) (_ : Action) : Prop := True.

(** ** Handlers run

    A handler run to its end with nobody in between.  The parts that are not
    modelled let everything pass; [ack] is the acknowledgement they build. *)

Section exec.
Context `{ManifestTypes} `{WatchLaws} `{HashOrder} `{Semaphore}.
Context (sink_of : Z → option Sink) (ack : Frame.t).

Definition take w (a : Action) : answer a * World :=
  match a return answer a * World with
  | ByConnection c => (get_module_by_connection (w_registry w) c, w)
  | RegisterUnpublished m ver c ops verified =>
      let '(t, x) := register_unpublished_verified_with_control_ops (w_registry w) m ver c ops verified in (x, w <| w_registry := t |>)
  | RegisterUnpublishedCandidate m ver c ops =>
      let '(t, x) := register_unpublished_verified_candidate_with_control_ops (w_registry w) m ver c ops in (x, w <| w_registry := t |>)
  | Publish c => let '(t, x) := publish_registration (w_registry w) c in (x, w <| w_registry := t |>)
  | Deregister c reason =>
      let '(t, x, _) := deregister_connection_with_reason (w_registry w) c reason in (x, w <| w_registry := t |>)
  | Promote id => let '(t, x) := promote_candidate (w_registry w) id in (x, w <| w_registry := t |>)
  | SwapAdmission id nonce => (swap_hello_admission (w_handle w) id nonce, w)
  | ReservedVerification id nonce => (reserved_hello_verification (w_handle w) id nonce, w)
  | MarkAdmitted id => (tt, w <| w_handle := mark_swap_candidate_admitted (w_handle w) id |>)
  | PromoteNonce id reserved => (tt, w <| w_handle := promote_swap_nonce (w_handle w) id reserved |>)
  | HasClientRoutes c => (connection_has_client_routes (w_forwarding w) c, w)
  | Install c id ver conc sink a =>
      let '(fw, _, x) := register_module_connection (w_forwarding w) c id ver conc sink (Some a) true in (x, w <| w_forwarding := fw |>)
  | InstallCandidate c id ver conc sink a =>
      let '(fw, _, x) := register_candidate_module_connection (w_forwarding w) c id ver conc sink (Some a) true in
      (x, w <| w_forwarding := fw |>)
  | EndpointFor c => (endpoint_by_connection (w_forwarding w) !! c, w)
  | RoutesOf e => (endpoint_routes (w_forwarding w) e, w)
  | DrainResult c => (daemon_drain_result_for_connection (w_forwarding w) c, w)
  | Cleanup c => let '(fw, _, x) := cleanup_connection (w_forwarding w) c in (x, w <| w_forwarding := fw |>)
  | CutOver id => let '(fw, _, x) := cutover_candidate (w_forwarding w) id in (x, w <| w_forwarding := fw |>)
  | RecordNonce c nonce => (tt, w <| w_nonces := HelloLaunchNonces.record (w_nonces w) c nonce |>)
  | ForgetNonce c => (tt, w <| w_nonces := HelloLaunchNonces.forget (w_nonces w) c |>)
  | ReservedCapability _ _ => (false, w)
  | BuildAck _ _ => (Some ack, w)
  | EndReason _ => (None, w)
  | WillRecover _ => (None, w)
  | Elsewhere_ what => (tt, w)
  end.

Lemma take_performs w a : perform w a (take w a).1 (take w a).2.
Proof.
  destruct a; cbn [take perform]; try done; unfold on_registry; try exists true;
    repeat match goal with |- context [let '(_, _) := ?f in _] => destruct f as [? ?] end; done.
Qed.

Fixpoint exec {R} w (p : Prog R) : World :=
  match p with
  | Ret _ => w
  | Do a k => exec (take w a).2 (k (take w a).1)
  end.

(** With no swap at work, the handler of a connection may run to its end. *)
Lemma exec_reachable guard c ph (p : Prog unit) w hs :
  (∀ s a, swappers s = ∅ → (∀ id, a ≠ CutOver id) → guard s a) → follows sink_of c ph p (λ _ _, True) →
  rtc (system_step sink_of guard) (mkSystem w (<[c := p]> hs) ∅) (mkSystem (exec w p) (delete c hs) ∅).
Proof.
  intros Hguard. revert ph w hs. induction p as [[]|a k IH]; intros ph w hs Hf.
  - apply rtc_once. pose proof (ss_handled sink_of guard (mkSystem w (<[c := Ret tt]> hs) ∅) c (lookup_insert_eq _ _ _)) as Hstep.
    cbn in Hstep. rewrite delete_insert_eq in Hstep. exact Hstep.
  - destruct (Hf (take w a).1) as (ph' & Hn & Hf'). eapply rtc_l; [|exact (IH _ ph' (take w a).2 hs Hf')].
    pose proof (ss_handler sink_of guard (mkSystem w (<[c := Do a k]> hs) ∅) c a k (take w a).1 (take w a).2) as Hstep.
    cbn [handlers swappers world set_field] in Hstep. rewrite insert_insert_eq in Hstep. apply Hstep; [apply lookup_insert_eq| |apply take_performs].
    apply Hguard; [done|]. by intros id ->.
Qed.
(** The next [n] actions of a connection's handler, and of a module's swap. *)
Fixpoint run_handler (n : nat) (c : Z) (s : System) : System :=
  match n, handlers s !! c with
  | S n, Some (Do a k) =>
      run_handler n c (s <| world := (take (world s) a).2 |> <| handlers := <[c := k (take (world s) a).1]> (handlers s) |>)
  | _, _ => s
  end.

Fixpoint run_swapper (n : nat) (id : string) (s : System) : System :=
  match n, swappers s !! id with
  | S n, Some (Do a k) =>
      run_swapper n id (s <| world := (take (world s) a).2 |> <| swappers := <[id := k (take (world s) a).1]> (swappers s) |>)
  | _, _ => s
  end.

Lemma run_handler_steps n c s : rtc (system_step sink_of any_order) s (run_handler n c s).
Proof.
  revert s. induction n as [|n IH]; intros s; simpl; [reflexivity|]. destruct (handlers s !! c) as [[r|a k]|] eqn:Hc; [reflexivity| |reflexivity].
  eapply rtc_l; [|apply IH]. by eapply ss_handler; [|done|apply take_performs].
Qed.

Lemma run_swapper_steps n id s : rtc (system_step sink_of any_order) s (run_swapper n id s).
Proof.
  revert s. induction n as [|n IH]; intros s; simpl; [reflexivity|]. destruct (swappers s !! id) as [[r|a k]|] eqn:Hc; [reflexivity| |reflexivity].
  eapply rtc_l; [|apply IH]. by eapply ss_swapper; [|done|apply take_performs].
Qed.
End exec.

Lemma reachable_mono `{ManifestTypes} `{WatchLaws} `{HashOrder} `{Semaphore} sink_of (guard guard' : System → Action → Prop) s :
  (∀ s a, guard s a → guard' s a) → system_reachable sink_of guard s → system_reachable sink_of guard' s.
Proof.
  intros Hg. unfold system_reachable. intros Hs. induction Hs as [|s1 s2 s3 Hstep _ IH]; [done|]. eapply rtc_l, IH.
  destruct Hstep; [eapply ss_hello|eapply ss_end|eapply ss_handler|eapply ss_handled|eapply ss_swap|eapply ss_swapper|eapply ss_swapped
    |eapply ss_registry|eapply ss_handle|eapply ss_forwarding]; eauto.
Qed.

(** ** One module *)

#[local] Existing Instances plain_manifests counted_watch counted_watch_laws tree_hash_order counting.

Definition queue_of (c : Z) : option Sink := Some c.

Definition plain_ack : Frame.t :=
  Frame.mk (EnvelopeHeader.mk 0 2 FrameType.HelloAck (Flags.new false Priority.Passive false) 0 0 0) [].

Definition tool_manifest : ModuleManifest := mkModuleManifest "tool" 2 None [] None tt.

Definition tool_hello (nonce : string) : ModuleHelloBody := mkModuleHelloBody tool_manifest 2 None (Some nonce).

Definition tool_spec : Identity := mkIdentity "tool" true [].

(** The supervisor reserves the id and spawns the module. *)
Definition launched : World :=
  mkWorld empty_registry empty_forwarding (mint "tool" "n1" (configure tool_spec no_ledger))
    (record_spawn (establish_identity new_handle tool_spec) PlainSpawn "tool" true "n1") (HelloLaunchNonces.mk ∅).

Definition say_hello (w : World) (c : Z) (nonce : string) : World :=
  exec plain_ack w (finish (handle_hello c (queue_of c) (Ok (tool_hello nonce)))).

Definition served : World := say_hello launched 1 "n1".

(** A swap opens and its candidate says HELLO. *)
Definition spawned : World :=
  served <| w_ledger := mint "tool" "n2" (w_ledger served) |>
         <| w_handle := record_spawn (w_handle served) SwapCandidateSpawn "tool" true "n2" |>.

Definition paired : World := say_hello spawned 2 "n2".

(** Forwarding cuts over. *)
Definition cut_world : World := (take plain_ack paired (CutOver "tool")).2.

(** ** How it gets there *)

Lemma calm_without_swaps (s : System) a : swappers s = ∅ → (∀ id, a ≠ CutOver id) → calm s a.
Proof.
  intros Hs Ha. assert (∀ id, ¬ cutting s id) as Hc.
  { intros id (k & Hk). rewrite Hs in Hk. by apply lookup_empty_Some in Hk. }
  destruct a; simpl; try done. by destruct (Ha id).
Qed.

Lemma say_hello_reachable w c nonce :
  system_reachable queue_of calm (mkSystem w ∅ ∅) → system_reachable queue_of calm (mkSystem (say_hello w c nonce) ∅ ∅).
Proof.
  intros Hw. unfold system_reachable in *. etransitivity; [exact Hw|].
  pose proof (ss_hello queue_of calm (mkSystem w ∅ ∅) c (Ok (tool_hello nonce)) (lookup_empty _)) as Hstep. cbn in Hstep.
  eapply rtc_l; [exact Hstep|]. rewrite <-(delete_empty (M := gmap Z) c) at 2.
  eapply exec_reachable; [apply calm_without_swaps|]. eapply follows_mono; [|apply finish_follows, handle_hello_follows]. done.
Qed.

Lemma handle_reachable w l h :
  system_reachable queue_of calm (mkSystem w ∅ ∅) → handle_step (w_ledger w, w_handle w) (l, h) →
  system_reachable queue_of calm (mkSystem (w <| w_ledger := l |> <| w_handle := h |>) ∅ ∅).
Proof. intros Hw Hs. eapply rtc_r; [exact Hw|]. exact (ss_handle queue_of calm (mkSystem w ∅ ∅) l h Hs). Qed.

Lemma launched_reachable : system_reachable queue_of calm (mkSystem launched ∅ ∅).
Proof.
  apply (handle_reachable (mkWorld empty_registry empty_forwarding (configure tool_spec no_ledger)
    (establish_identity new_handle tool_spec) (HelloLaunchNonces.mk ∅))); [|by apply hs_spawn].
  apply (handle_reachable (mkWorld empty_registry empty_forwarding no_ledger new_handle (HelloLaunchNonces.mk ∅))); [|by apply hs_establish].
  apply rtc_refl.
Qed.

Lemma served_reachable : system_reachable queue_of calm (mkSystem served ∅ ∅).
Proof. apply say_hello_reachable, launched_reachable. Qed.

Lemma paired_reachable : system_reachable queue_of calm (mkSystem paired ∅ ∅).
Proof. apply say_hello_reachable, handle_reachable; [apply served_reachable|by apply hs_spawn]. Qed.

(** The swap, once forwarding has answered. *)
Definition swap_rest (cut : Result (option ForwardingCutover) ForwardingError) : Prog unit :=
  finish (match cut with
          | Ok (Some _) =>
              cutover ← do (Promote "tool");
              match cutover with
              | Some cutover =>
                  let r := promoted cutover in
                  _ ← do (PromoteNonce "tool" true);
                  _ ← elsewhere (ApplyRegistrationCapabilities r);
                  _ ← elsewhere (RecordActivityRegistration "tool");
                  mret (SwapCompleted r)
              | None => mret PromotionLost
              end
          | _ => mret CutoverLost
          end).

Definition cut_system : System :=
  mkSystem cut_world ∅ {["tool" := swap_rest (take plain_ack paired (CutOver "tool")).1]}.

Lemma paired_published c slot : reg_view (w_registry paired) c = Some (slot, "tool") → c ∉ unpublished (w_registry paired).
Proof. assert (unpublished (w_registry paired) = ∅) as -> by by vm_compute. intros _. apply not_elem_of_empty. Qed.

(** A swap starts, and forwarding answers. *)
Lemma swap_reachable w x w' :
  system_reachable queue_of calm (mkSystem w ∅ ∅) →
  (∀ c slot, reg_view (w_registry w) c = Some (slot, "tool") → c ∉ unpublished (w_registry w)) →
  perform w (CutOver "tool") x w' → system_reachable queue_of calm (mkSystem w' ∅ {["tool" := swap_rest x]}).
Proof.
  intros Hw Hcalm Hp. set (sw := mkSystem w ∅ {["tool" := finish (swap_cutover "tool" true)]}).
  assert (system_reachable queue_of calm sw) as Hsw.
  { eapply rtc_r; [exact Hw|]. apply (ss_swap queue_of calm (mkSystem w ∅ ∅) "tool" true), lookup_empty. }
  eapply rtc_r; [exact Hsw|]. pose proof (ss_swapper queue_of calm sw "tool" (CutOver "tool") swap_rest x w') as Hstep.
  assert (<["tool" := swap_rest x]> (swappers sw) = {["tool" := swap_rest x]}) as Hins by apply insert_singleton_eq.
  rewrite Hins in Hstep. apply Hstep; [apply lookup_singleton_eq|exact Hcalm|exact Hp].
Qed.

Lemma cut_reachable : system_reachable queue_of calm cut_system.
Proof. exact (swap_reachable paired _ cut_world paired_reachable paired_published (take_performs plain_ack paired (CutOver "tool"))). Qed.

(** ** A HELLO that overlaps a cutover

    The module's HELLO stalls between its registration and the installation of
    its endpoint; meanwhile a swap opens, its candidate says HELLO and forwarding
    cuts over; then the HELLO goes on. *)

Definition with_hello (c : Z) (nonce : string) (s : System) : System :=
  s <| handlers := <[c := finish (handle_hello c (queue_of c) (Ok (tool_hello nonce)))]> (handlers s) |>.

Definition stalled : System := run_handler plain_ack 8 1 (with_hello 1 "n1" (mkSystem launched ∅ ∅)).

Definition swap_opened : System :=
  stalled <| world := (world stalled) <| w_ledger := mint "tool" "n2" (w_ledger (world stalled)) |>
    <| w_handle := record_spawn (w_handle (world stalled)) SwapCandidateSpawn "tool" true "n2" |> |>.

Definition candidate_in : System := run_handler plain_ack 20 2 (with_hello 2 "n2" swap_opened).

Definition forwarding_cut : System :=
  run_swapper plain_ack 1 "tool" (candidate_in <| swappers := <["tool" := finish (swap_cutover "tool" true)]> (swappers candidate_in) |>).

Definition overtaken : System := run_handler plain_ack 1 1 forwarding_cut.

Lemma overtaken_reachable : system_reachable queue_of any_order overtaken.
Proof.
  unfold system_reachable. etransitivity; [|apply run_handler_steps].
  etransitivity; [|apply run_swapper_steps]. eapply rtc_r; [|apply ss_swap; by vm_compute].
  etransitivity; [|apply run_handler_steps]. eapply rtc_r; [|apply ss_hello; by vm_compute].
  eapply rtc_r; [|apply ss_handle; by apply hs_spawn].
  etransitivity; [|apply run_handler_steps]. eapply rtc_r; [|apply ss_hello; by vm_compute].
  eapply (reachable_mono queue_of calm); [done|apply launched_reachable].
Qed.
