(* ===== verification/HelloTheorems.v ===== *)
(** * What registering, swapping and leaving promise *)

From S2P Require Import Prelude Collections Envelope Program Tokens ScopeTypes Scopes.
From S2P Require Import Flow Forwarding ForwardingInvariant ForwardingStore DaemonExamples.
From S2P Require Import Registry RegistryOk RegistrySteps RegistryView RegistryTheorems LaunchNonces.
From S2P Require Import Hello HelloWorld HelloPhases HelloInvariant HelloSwap HelloExamples.

Section claims.
Context `{ManifestTypes} `{WatchLaws} `{HashOrder} `{Semaphore}.
Context (sink_of : Z → option Sink).
Implicit Types (s : System) (r : ModuleRegistration).

(** C9: However the handlers of all connections and the swaps of all modules
    interleave, the registry and the forwarding table agree on every connection:
    a published registration has an endpoint under its id, and a connection with
    no handler at work is either registered, published and so installed, or in
    neither table. *)
Theorem tables_agree s c :
  system_reachable sink_of any_order s → is_Some (sink_of c) →
  (∀ r, published_registration (w_registry (world s)) (SlotConnection c) = Some r → seated (world s) c (reg_id r)) ∧
  (handlers s !! c = None →
   match get_module_by_connection (w_registry (world s)) c with
   | Some r => is_published (w_registry (world s)) r = true ∧ seated (world s) c (reg_id r)
   | None => endpoint_of (world s) c = None
   end).
Proof.
  intros Hok%system_reachable_ok Hsink. pose proof (so_world _ _ Hok) as Hw.
  assert (∀ r, get_module_by_connection (w_registry (world s)) c = Some r → reg_connection r = c) as Hc.
  { intros r Hr. apply fmap_Some in Hr as ([slot r'] & Hr & ->). by apply find_by_connection_Some in Hr as [_ ?]; [|apply Hw]. }
  pose proof (reg_name_by_connection (world s) c) as Hname. split.
  - intros r [Hr Hp]%opt_filter_Some. change (get_module_by_connection (w_registry (world s)) c = Some r) in Hr.
    unfold is_published in Hp. rewrite (Hc r Hr), negb_true_iff, bool_decide_eq_false in Hp.
    by eapply published_seated; [|rewrite Hname, Hr|..].
  - intros Hi. pose proof (so_idle _ _ Hok c Hi) as Hph. simpl in Hph. rewrite Hname in Hph.
    destruct (get_module_by_connection _ c) as [r|] eqn:Hr; simpl in Hph; [|done]. destruct Hph as [Hp Hs]. split.
    + unfold is_published. by rewrite (Hc r eq_refl), bool_decide_false.
    + by eapply published_seated; [|rewrite Hname|..].
Qed.

(** C17: As long as no HELLO of a module overlaps its cutover, new routes of a
    listed module go to the listed process: its endpoint is the active one of its
    id, unless a cutover has superseded it already. *)
Theorem listed_is_routed s r :
  system_reachable sink_of calm s → r ∈ (list_modules (w_registry (world s))).2 → is_Some (sink_of (reg_connection r)) →
  ∃ e, endpoint_of (world s) (reg_connection r) = Some e ∧
    (ModuleConnection.endpoint <$> modules_by_id (w_forwarding (world s)) !! reg_id r = Some e ∨
     is_Some (superseded_endpoints (w_forwarding (world s)) !! e)).
Proof.
  intros Hok%system_reachable_calm Hr Hsink. pose proof (co_system _ _ Hok) as Hsys.
  destruct (listed_name (world s) r (so_world _ _ Hsys) Hr) as [Hv Hp].
  destruct (published_seated sink_of s (reg_connection r) (reg_id r) Hsys) as (e & He & _); [by unfold reg_name; rewrite Hv|done..|].
  exists e. split; [done|]. by apply (pl_sits _ _ (co_placed _ _ Hok) _ _ _ _ Hv).
Qed.

(** C11: As long as no HELLO of a module overlaps its cutover ([calm]), a swap
    hands over without a gap: when the registry comes to name the candidate, the
    candidate's endpoint already is the one new routes of the module go to.
    Without that condition it does not hold: [handover_overtaken]. *)
Theorem swap_hands_over s id k cut w' :
  system_reachable sink_of calm s → swappers s !! id = Some (Do (Promote id) k) →
  perform (world s) (Promote id) (Some cut) w' → is_Some (sink_of (reg_connection (promoted cut))) →
  get_module (w_registry w') id = Some (promoted cut) ∧ w_forwarding w' = w_forwarding (world s) ∧
  ∃ e, endpoint_of (world s) (reg_connection (promoted cut)) = Some e ∧
    ModuleConnection.endpoint <$> modules_by_id (w_forwarding (world s)) !! id = Some e.
Proof.
  intros Hok%system_reachable_calm Hid [Hx ->] Hsink. pose proof (co_system _ _ Hok) as Hsys.
  destruct (promote_candidate (w_registry (world s)) id) as [t x] eqn:Hp. cbn [fst snd] in *. subst x.
  apply promote_view in Hp as (_ & _ & _ & Hv & Hm & _); [|apply Hsys]. split_and!; [done..|].
  assert (cutting s id) as Hcut by by eexists. pose proof (pl_quiet _ _ (co_placed _ _ Hok) _ _ _ Hcut Hv) as Hpub.
  destruct (published_seated sink_of s (reg_connection (promoted cut)) id Hsys) as (e & He & _); [by unfold reg_name; rewrite Hv|done..|].
  exists e. split; [done|]. by apply (pl_sits _ _ (co_placed _ _ Hok) _ _ _ _ Hv He).
Qed.

(** C10: The catalog's word on who proved its launch is true in every
    interleaving: a registration it shows as verified is of a connection whose
    recorded nonce was minted for a spawn of that module, or of a module that was
    given a prefix of its id. *)
Theorem verified_is_launched s r :
  system_reachable sink_of any_order s → (r, true) ∈ (list_modules_with_nonce_verification (w_registry (world s))).2 →
  ∃ n, HelloLaunchNonces.nonce (w_nonces (world s)) (reg_connection r) = Some n ∧ vouched (w_ledger (world s)) (reg_id r) n.
Proof.
  intros Hok%system_reachable_ok Hr. pose proof (so_world _ _ Hok) as Hw. cbn [list_modules_with_nonce_verification snd] in Hr.
  apply list_elem_of_fmap in Hr as (r' & [= <- Hv] & Hr). symmetry in Hv. apply bool_decide_eq_true in Hv.
  destruct (listed_name (world s) r Hw Hr) as [Hview _]. destruct (wo_verified _ Hw _ Hv) as (id & n & Hid & Hn & Hvouch).
  unfold reg_name in Hid. rewrite Hview in Hid. injection Hid as <-. by exists n.
Qed.

(** C15: Reserved ids are guarded.  In every history of the supervisor's handle, a
    HELLO passes exactly if its nonce is the one its id or the longest reserved
    prefix of its id asks for, or neither is reserved; and once an id is reserved,
    whoever registers under it proves it with a nonce minted for a spawn of that
    module, until the gate is released, which takes the module to be no longer
    supervised and its nonce retired. *)
Theorem reserved_ids_guarded l h l' h' id :
  rtc handle_step (no_ledger, new_handle) (l, h) → rtc handle_step (l, h) (l', h') →
  (∀ presented proved, reserved_hello_verification h' id presented = Ok proved ↔ may_register h' id presented proved) ∧
  (is_Some (reserved_nonces h !! id) →
   (∀ presented proved, reserved_hello_verification h' id presented = Ok proved →
      proved = true ∧ ∃ n, presented = Some n ∧ (id, n) ∈ minted l') ∨
   ∃ l1 h1, rtc handle_step (l, h) (l1, h1) ∧ (id ∉ modules h1) ∧ reserved_nonces h1 !! id = Some None ∧
     rtc handle_step (l1, (release_retained_reserved_gate h1 id).1) (l', h')).
Proof.
  intros Hl Hrun. split; [intros; apply verification_spec|]. intros Hid.
  destruct (gate_run l h l' h' id Hrun Hid) as [[gate Hg]|?]; [left|by right]. intros presented proved Hv%verification_spec.
  unfold may_register in Hv. rewrite Hg in Hv. destruct Hv as (-> & [n ->] & ->). split; [done|]. exists n. split; [done|].
  eapply (lo_reserved l' h'); [|done]. apply (ledger_run (l, h) (l', h') Hrun), (ledger_run (no_ledger, new_handle) (l, h) Hl), no_ledger_ok.
Qed.
End claims.

(** ** The module of the examples *)

#[local] Existing Instances plain_manifests counted_watch counted_watch_laws tree_hash_order counting.

(** Registered, published and installed. *)
Lemma tables_agree_witness : seated served 1 "tool".
Proof.
  assert (get_module_by_connection (w_registry served) 1 =
          Some (new_registration tool_manifest 2 1 (effective_module_control_ops None))) as Hr by by vm_compute.
  destruct (tables_agree queue_of (mkSystem served ∅ ∅) 1) as [_ Hidle];
    [exact (reachable_mono _ _ _ _ (λ _ _ _, I) served_reachable)|by eexists|].
  specialize (Hidle (lookup_empty _)). cbn [world] in Hidle. rewrite Hr in Hidle. apply Hidle.
Defined.

(** New routes go to the process that registered. *)
Lemma listed_is_routed_witness :
  ∃ e, endpoint_of served 1 = Some e ∧
    (ModuleConnection.endpoint <$> modules_by_id (w_forwarding served) !! "tool" = Some e ∨
     is_Some (superseded_endpoints (w_forwarding served) !! e)).
Proof.
  apply (listed_is_routed queue_of (mkSystem served ∅ ∅) (new_registration tool_manifest 2 1 (effective_module_control_ops None)));
    [exact served_reachable| |by eexists].
  cbn [world]. assert ((list_modules (w_registry served)).2 =
    [new_registration tool_manifest 2 1 (effective_module_control_ops None)]) as -> by by vm_compute. by left.
Defined.

(** The candidate takes over. *)
Lemma swap_hands_over_witness :
  ∃ w' e, get_module (w_registry w') "tool" = Some (new_registration tool_manifest 2 2 (effective_module_control_ops None)) ∧
    endpoint_of cut_world 2 = Some e ∧ ModuleConnection.endpoint <$> modules_by_id (w_forwarding cut_world) !! "tool" = Some e.
Proof.
  assert (∃ k, swap_rest (take plain_ack paired (CutOver "tool")).1 = Do (Promote "tool") k) as [k Hk].
  { assert (∃ cut, (take plain_ack paired (CutOver "tool")).1 = Ok (Some cut)) as [cut ->] by (vm_compute; by eexists). by eexists. }
  assert (∃ old, (promote_candidate (w_registry cut_world) "tool").2 =
    Some (mkRegistryCutover (new_registration tool_manifest 2 2 (effective_module_control_ops None)) old)) as [old Hp]
    by (vm_compute; by eexists).
  destruct (swap_hands_over queue_of cut_system "tool" k
    (mkRegistryCutover (new_registration tool_manifest 2 2 (effective_module_control_ops None)) old)
    (cut_world <| w_registry := (promote_candidate (w_registry cut_world) "tool").1 |>)) as (Hm & _ & e & He & Hact).
  - exact cut_reachable.
  - unfold cut_system. cbn [swappers]. rewrite Hk. apply lookup_singleton_eq.
  - split; [exact (eq_sym Hp)|done].
  - by eexists.
  - eexists _, e. split; [exact Hm|]. split; [exact He|exact Hact].
Defined.

(** The catalog shows it as verified, and it is. *)
Lemma verified_is_launched_witness :
  ∃ n, HelloLaunchNonces.nonce (w_nonces served) 1 = Some n ∧ vouched (w_ledger served) "tool" n.
Proof.
  apply (verified_is_launched queue_of (mkSystem served ∅ ∅) (new_registration tool_manifest 2 1 (effective_module_control_ops None)));
    [exact (reachable_mono _ _ _ _ (λ _ _ _, I) served_reachable)|].
  cbn [world]. assert ((list_modules_with_nonce_verification (w_registry served)).2 =
    [(new_registration tool_manifest 2 1 (effective_module_control_ops None), true)]) as -> by by vm_compute. by left.
Defined.

(** Reserved before its first spawn, and still after it. *)
Lemma reserved_ids_guarded_witness :
  (∀ presented proved, reserved_hello_verification (w_handle launched) "tool" presented = Ok proved →
     proved = true ∧ ∃ n, presented = Some n ∧ (("tool", n) ∈ minted (w_ledger launched))) ∨
  ∃ l1 h1, rtc handle_step (configure tool_spec no_ledger, establish_identity new_handle tool_spec) (l1, h1) ∧
    ("tool" ∉ modules h1).
Proof.
  destruct (reserved_ids_guarded (configure tool_spec no_ledger) (establish_identity new_handle tool_spec)
    (w_ledger launched) (w_handle launched) "tool") as [_ [Hg|(l1 & h1 & Hr & Hm & _)]].
  - apply rtc_once, hs_establish.
  - apply rtc_once. by apply hs_spawn.
  - vm_compute. by eexists.
  - by left.
  - right. by exists l1, h1.
Defined.

(** ** Who is asked for a nonce *)

(** A module that is no longer reserved is still asked for the nonce it had when
    it was, until its gate is released. *)
Example unreserved_still_checked :
  let h := record_spawn (establish_identity new_handle tool_spec) PlainSpawn "tool" true "n1" in
  let h := record_spawn (apply_identity_configuration h (mkIdentity "tool" false [])) PlainSpawn "tool" false "n2" in
  reserved_hello_verification h "tool" (Some "n2") = Err (RejectExact "tool") ∧
  reserved_hello_verification h "tool" (Some "n1") = Ok true.
Proof. by vm_compute. Qed.

(** While its module is swapped, a HELLO without a nonce is refused, reserved or
    not. *)
Example swap_checks_every_module :
  let h := record_spawn (establish_identity new_handle (mkIdentity "tool" false [])) PlainSpawn "tool" false "n1" in
  swap_hello_admission (record_spawn h SwapCandidateSpawn "tool" false "n2") "tool" None = Refused.
Proof. by vm_compute. Qed.

(** ** A handover that is overtaken *)

(** The HELLO that installs its endpoint after the cutover takes the module's
    routes: the registry comes to name the candidate (connection 2) while new
    routes go to the process of the overlapping HELLO (connection 1). *)
Example handover_overtaken :
  let '(cut, w') := take plain_ack (world overtaken) (Promote "tool") in
  system_reachable queue_of any_order overtaken ∧ perform (world overtaken) (Promote "tool") cut w' ∧
  is_some_and (λ p, match p with Do (Promote _) _ => true | _ => false end) (swappers overtaken !! "tool") = true ∧
  reg_connection <$> get_module (w_registry w') "tool" = Some 2 ∧ is_some (endpoint_of w' 2) = true ∧
  (ModuleEndpointId.connection_id ∘ ModuleConnection.endpoint) <$> modules_by_id (w_forwarding w') !! "tool" = Some 1.
Proof.
  rewrite (surjective_pairing (take plain_ack (world overtaken) (Promote "tool"))).
  split; [apply overtaken_reachable|]. split; [apply take_performs|]. split_and!; vm_compute; reflexivity.
Qed.
