(* ===== verification/Capabilities.v ===== *)
(** * Capability requirements

    [crates/subc-daemon/src/capability_requirements.rs]: which of the
    capabilities that modules require are provided, are still awaited, or will
    never be provided as the daemon is configured; and which modules claim a
    capability that is reserved to another.  The evaluator's state is behind one
    mutex, so an operation is a function on it; [now_ms] is what the daemon's
    monotonic clock says.  Waking the loop that waits for the next deadline is
    the last component of what an operation returns. *)

From S2P Require Import Prelude Collections.

(** ** Data *)

Definition CAPABILITY_SETTLE_DEADLINE_MS : Z := 120000.

Inductive CapabilityNeed := Required | Optional.

#[global] Instance capability_need_eq_dec : EqDecision CapabilityNeed.
Proof. solve_decision. Defined.

Record CapabilityRequirement := mkCapabilityRequirement {
  requirement_capability : string;
  requirement_need : CapabilityNeed;
}.

Record CapabilityDeclarations := mkCapabilityDeclarations {
  declared_provides : list string;
  declared_requires : list CapabilityRequirement;
  must_never_reach : list string;
}.

Inductive CapabilityVerdict := Provided | Pending | NeverProvided.

#[global] Instance capability_verdict_eq_dec : EqDecision CapabilityVerdict.
Proof. solve_decision. Defined.

Definition verdict_as_str (v : CapabilityVerdict) : string :=
  match v with
  | Provided => "provided"
  | Pending => "pending"
  | NeverProvided => "never_provided"
  end.

Inductive ProcessEvidence := EvidenceAbsent | EvidenceStarting | EvidenceRegistered.

#[global] Instance process_evidence_eq_dec : EqDecision ProcessEvidence.
Proof. solve_decision. Defined.

Inductive RequirementSeverity := SeverityError | SeverityInfo.

Record RequirementStatus := mkRequirementStatus {
  status_consumer : string;
  status_capability : string;
  status_need : CapabilityNeed;
  status_verdict : CapabilityVerdict;
  status_episode_seq : Z;
  config_satisfiable : bool;
  runtime_available : bool;
  status_detail : string;
}.

Record RequirementEvent := mkRequirementEvent {
  event_severity : RequirementSeverity;
  event_status : RequirementStatus;
}.

Inductive DuplicateClaimSource := FromHello | FromCatalogUpdate.

Record DuplicateClaimEvent := mkDuplicateClaimEvent {
  claim_capability : string;
  claimants : list string;
  claim_source : DuplicateClaimSource;
}.

Inductive ModuleState :=
  | StateStarting | StateRunning | StateUnresponsive | StateRestarting | StateDraining
  | StateStopped | StateFailed | StateDisabled.

Record RuntimeModule := mkRuntimeModule {
  runtime_module_id : string;
  runtime_state : ModuleState;
  runtime_enabled : bool;
}.

Record RegisteredModule := mkRegisteredModule {
  registered_module_id : string;
  registered_version : string;
  registered_capabilities : option CapabilityDeclarations;
}.

Record VersionChange := mkVersionChange { version_from : string; version_to : string }.

Inductive ManifestChange :=
  | Unchanged
  | VersionOnly (version : VersionChange)
  | ProvidesChanged (added removed : list string) (version : option VersionChange).

(** The consumer and the capability. *)
Definition RequirementKey : Type := string * string.

Record CachedManifest := mkCachedManifest {
  cached_declarations : CapabilityDeclarations;
  cached_version : string;
  cached_generation : Z;
}.

Record RequirementRecord := mkRequirementRecord {
  last_verdict : option CapabilityVerdict;
  episode_seq : Z;
}.

(** A configured candidate is whether it is enabled, a candidate's deadline its
    milliseconds. *)
Record EvaluatorState := mkEvaluatorState {
  configured : gmap string bool;
  reserved_capabilities : gmap string string;
  config_generation : Z;
  cached : gmap string CachedManifest;
  candidates : gmap string Z;
  process : gmap string ProcessEvidence;
  requirements : gmap RequirementKey RequirementRecord;
  statuses : gmap RequirementKey RequirementStatus;
}.

#[global] Instance evaluator_expand : Expand EvaluatorState := λ s,
  mkEvaluatorState (configured s) (reserved_capabilities s) (config_generation s) (cached s) (candidates s) (process s)
    (requirements s) (statuses s).

Definition new_evaluator : EvaluatorState := mkEvaluatorState ∅ ∅ 0 ∅ ∅ ∅ ∅ ∅.

Implicit Types (s : EvaluatorState) (key : RequirementKey).

(** ** Helpers *)

(** [BTreeMap] from a list of entries: the last of a key counts. *)
Definition collect {V} (entries : list (string * V)) : gmap string V :=
  foldl (λ m e, <[e.1 := e.2]> m) ∅ entries.

(** [BTreeMap<RequirementKey, V>], in key order. *)
Definition key_order {V} (a b : RequirementKey * V) : Prop :=
  if decide (a.1.1 = b.1.1) then String.le a.1.2 b.1.2 else String.le a.1.1 b.1.1.

#[global] Instance key_order_dec {V} : RelDecision (@key_order V).
Proof. intros a b. unfold key_order. destruct (decide _); apply _. Defined.

Definition by_key {V} (m : gmap RequirementKey V) : list (RequirementKey * V) := merge_sort key_order (map_to_list m).

Definition saturating_add64 (a b : Z) : Z := Z.min (a + b) (2 ^ 64 - 1).

Definition need_name (need : CapabilityNeed) : string :=
  match need with Required => "required" | Optional => "optional" end.

Definition empty_declarations : CapabilityDeclarations := mkCapabilityDeclarations [] [] [].

Definition provides (declarations : option CapabilityDeclarations) (capability : string) : bool :=
  is_some_and (λ d, existsb (λ claim, bool_decide (claim = capability)) (declared_provides d)) declarations.

Definition enabled_in (enabled : bool) (runtime : option RuntimeModule) : bool :=
  match runtime with Some module => runtime_enabled module | None => enabled end.

Definition between (old_version : string) (old_provides : list string) (new_version : string) (new_provides : list string)
    : ManifestChange :=
  let old : gset string := list_to_set old_provides in
  let new : gset string := list_to_set new_provides in
  let added := btree_set_iter (new ∖ old) in
  let removed := btree_set_iter (old ∖ new) in
  let version := if decide (old_version = new_version) then None else Some (mkVersionChange old_version new_version) in
  match added, removed, version with
  | [], [], None => Unchanged
  | [], [], Some version => VersionOnly version
  | _, _, version => ProvidesChanged added removed version
  end.

(** ** Configuration and HELLOs *)

Definition configured_enabled s (module_id : string) : option bool := configured s !! module_id.

Definition kept_in {V} (ids : gmap string bool) (m : gmap string V) : gmap string V :=
  filter (λ e : string * V, is_Some (ids !! e.1)) m.

Definition configure s (modules : list (string * bool)) (reserved : gmap string string) : EvaluatorState * bool :=
  let ids := collect modules in
  if decide (configured s = ids ∧ reserved_capabilities s = reserved) then (s, false) else
  let generation := wrap 64 (config_generation s + 1) in
  (s <| config_generation := generation |> <| configured := ids |> <| reserved_capabilities := reserved |>
     <| cached := (λ c, mkCachedManifest (cached_declarations c) (cached_version c) generation) <$> kept_in ids (cached s) |>
     <| candidates := kept_in ids (candidates s) |> <| process := kept_in ids (process s) |>, true).

Definition record_hello s (r : RegisteredModule) : EvaluatorState * ManifestChange * bool :=
  let declarations := default empty_declarations (registered_capabilities r) in
  let id := registered_module_id r in
  if negb (is_some (configured s !! id)) then (s, Unchanged, false) else
  let change := match cached s !! id with
                | Some c => between (cached_version c) (declared_provides (cached_declarations c))
                              (registered_version r) (declared_provides declarations)
                | None => Unchanged
                end in
  (s <| cached := <[id := mkCachedManifest declarations (registered_version r) (config_generation s)]> (cached s) |>, change, true).

Definition reserved_hello_refusals s (module_id : string) (capabilities : option CapabilityDeclarations)
    : list DuplicateClaimEvent :=
  match capabilities with
  | None => []
  | Some capabilities =>
      omap (λ capability,
              match reserved_capabilities s !! capability with
              | None => None
              | Some bound_module =>
                  if decide (bound_module = module_id) then None
                  else Some (mkDuplicateClaimEvent capability [bound_module; module_id] FromHello)
              end) (declared_provides capabilities)
  end.

(** ** Evaluation *)

(** What the processes say about one configured module. *)
Definition process_evidence (runtime : gmap string RuntimeModule) (registered : gmap string RegisteredModule)
    (module_id : string) (enabled : bool) : ProcessEvidence :=
  if is_some (registered !! module_id) then EvidenceRegistered
  else if negb (enabled_in enabled (runtime !! module_id)) then EvidenceAbsent
  else match runtime_state <$> runtime !! module_id with
       | Some (StateStarting | StateRunning | StateRestarting | StateDraining | StateUnresponsive) => EvidenceStarting
       | Some (StateStopped | StateFailed | StateDisabled) | None => EvidenceAbsent
       end.

(** A module that begins to start is given until its deadline. *)
Definition note_process (now_ms : Z) (runtime : gmap string RuntimeModule) (registered : gmap string RegisteredModule)
    s (module : string * bool) : EvaluatorState :=
  let '(module_id, enabled) := module in
  let evidence := process_evidence runtime registered module_id enabled in
  let previous := process s !! module_id in
  let s := s <| process := <[module_id := evidence]> (process s) |> in
  match evidence with
  | EvidenceStarting =>
      if decide (previous = Some EvidenceStarting) then s
      else s <| candidates := <[module_id := saturating_add64 now_ms CAPABILITY_SETTLE_DEADLINE_MS]> (candidates s) |>
  | EvidenceAbsent | EvidenceRegistered => s <| candidates := delete module_id (candidates s) |>
  end.

Definition insert_requirements (output : gmap RequirementKey CapabilityNeed) (consumer : string)
    (declarations : CapabilityDeclarations) : gmap RequirementKey CapabilityNeed :=
  foldl (λ output r, <[(consumer, requirement_capability r) := requirement_need r]> output) output
    (declared_requires declarations).

Definition requirement_declarations s (registered : gmap string RegisteredModule) (runtime : gmap string RuntimeModule)
    : gmap RequirementKey CapabilityNeed :=
  let from_cache :=
    foldl (λ output e,
             if negb (enabled_in e.2 (runtime !! e.1)) then output else
             match cached s !! e.1 with
             | Some c => insert_requirements output e.1 (cached_declarations c)
             | None => output
             end) ∅ (btree_iter (configured s)) in
  foldl (λ output e, insert_requirements output e.1 (default empty_declarations (registered_capabilities e.2)))
    from_cache (btree_iter registered).

Definition candidate_applies s (module_id capability : string) : bool :=
  match cached s !! module_id with
  | Some c => provides (Some (cached_declarations c)) capability
  | None => true
  end.

Definition expired_candidate_detail s (now_ms : Z) : string :=
  let expired := filter (λ e : string * Z, e.2 ≤ now_ms ∧ process s !! e.1 = Some EvidenceStarting) (btree_iter (candidates s)) in
  String.concat "; "
    ((λ e : string * Z,
        match cached s !! e.1 with
        | None => (e.1 ++ " still starting after 120s (claims unknown)")%string
        | Some c =>
            (e.1 ++ " still starting after 120s (claims cached: "
              ++ String.concat ", " (btree_set_iter (list_to_set (declared_provides (cached_declarations c)))) ++ ")")%string
        end) <$> expired).

Definition requirement_detail key (need : CapabilityNeed) (verdict : CapabilityVerdict) (expired_detail : string) : string :=
  let base := (key.1 ++ " requires:" ++ key.2 ++ " " ++ verdict_as_str verdict ++ " (" ++ need_name need ++ ")")%string in
  if str_is_empty expired_detail then base else (base ++ "; " ++ expired_detail)%string.

(** Whether some configured and enabled module claims the capability. *)
Definition satisfiable s (runtime : gmap string RuntimeModule) (registered : gmap string RegisteredModule) (capability : string)
    : bool :=
  existsb (λ e : string * bool,
             enabled_in e.2 (runtime !! e.1)
             && (is_some_and (λ m, provides (registered_capabilities m) capability) (registered !! e.1)
                 || is_some_and (λ c, provides (Some (cached_declarations c)) capability) (cached s !! e.1)))
    (btree_iter (configured s)).

Definition available (registered : gmap string RegisteredModule) (capability : string) : bool :=
  existsb (λ e : string * RegisteredModule, provides (registered_capabilities e.2) capability) (btree_iter registered).

Definition verdict_for s (now_ms : Z) (registered : gmap string RegisteredModule) (capability : string) : CapabilityVerdict :=
  if available registered capability then Provided
  else if existsb (λ e : string * Z, (now_ms <? e.2) && candidate_applies s e.1 capability) (btree_iter (candidates s))
  then Pending else NeverProvided.

(** One turn of the loop over the requirements. *)
Definition evaluate_requirement (now_ms : Z) (runtime : gmap string RuntimeModule) (registered : gmap string RegisteredModule)
    (expired_detail : string) (acc : EvaluatorState * list RequirementEvent) (requirement : RequirementKey * CapabilityNeed)
    : EvaluatorState * list RequirementEvent :=
  let '(s, events) := acc in
  let '(key, need) := requirement in
  let runtime_available := available registered key.2 in
  let config_satisfiable := satisfiable s runtime registered key.2 in
  let verdict := verdict_for s now_ms registered key.2 in
  let record := default (mkRequirementRecord None 0) (requirements s !! key) in
  let transitioned := negb (bool_decide (last_verdict record = Some verdict)) in
  let seq := if transitioned && bool_decide (verdict = NeverProvided) then saturating_add64 (episode_seq record) 1
             else episode_seq record in
  let status := mkRequirementStatus key.1 key.2 need verdict seq config_satisfiable runtime_available
                  (requirement_detail key need verdict expired_detail) in
  let s := s <| requirements := <[key := mkRequirementRecord (Some verdict) seq]> (requirements s) |>
             <| statuses := <[key := status]> (statuses s) |> in
  let severity := if bool_decide (need = Required) && bool_decide (verdict = NeverProvided) then SeverityError else SeverityInfo in
  (s, if transitioned then events ++ [mkRequirementEvent severity status] else events).

(** A requirement that is no longer declared keeps its count of episodes. *)
Definition forget_undeclared s (declared : gmap RequirementKey CapabilityNeed) : EvaluatorState :=
  s <| requirements := map_imap (λ key record,
         Some (if is_some (declared !! key) then record else mkRequirementRecord None (episode_seq record))) (requirements s) |>
    <| statuses := filter (λ e : RequirementKey * RequirementStatus, is_Some (declared !! e.1)) (statuses s) |>.

Definition evaluate_at_ms s (now_ms : Z) (runtime : list RuntimeModule) (registered : list RegisteredModule)
    : EvaluatorState * list RequirementEvent :=
  let runtime := collect ((λ m, (runtime_module_id m, m)) <$> runtime) in
  let registered := collect ((λ m, (registered_module_id m, m)) <$> registered) in
  let s := foldl (note_process now_ms runtime registered) s (btree_iter (configured s)) in
  let declared := requirement_declarations s registered runtime in
  let s := forget_undeclared s declared in
  foldl (evaluate_requirement now_ms runtime registered (expired_candidate_detail s now_ms)) (s, []) (by_key declared).

(** ** Queries *)

Definition all_statuses s : list RequirementStatus := (by_key (statuses s)).*2.

Definition verdict s (consumer capability : string) : option CapabilityVerdict :=
  status_verdict <$> statuses s !! (consumer, capability).

Definition required_problem_detail s (module_id : string) : option string :=
  let problems := filter (λ st, status_consumer st = module_id ∧ status_need st = Required ∧ status_verdict st = NeverProvided)
                    (all_statuses s) in
  match problems with
  | [] => None
  | _ => Some (String.concat "; "
           ((λ st, ("requires:" ++ status_capability st ++ " unprovided (" ++ status_detail st ++ ")")%string) <$> problems))
  end.

Definition duplicate_claims s (source : DuplicateClaimSource) (registered : list RegisteredModule) : list DuplicateClaimEvent :=
  omap (λ e : string * string,
          let '(capability, bound_module) := e in
          let conflicts : gset string := list_to_set (registered_module_id <$>
            filter (λ m, registered_module_id m ≠ bound_module ∧ provides (registered_capabilities m) capability = true) registered) in
          match btree_set_iter conflicts with
          | [] => None
          | conflicts => Some (mkDuplicateClaimEvent capability (bound_module :: conflicts) source)
          end) (btree_iter (reserved_capabilities s)).

(** What a consumer's requirement would lose to the modules that are taken away. *)
Definition requirement_warnings (removed disabled : gset string) (registered : list RegisteredModule) (consumer : string)
    (requirement : CapabilityRequirement) : list string :=
  (λ m, ((if decide (registered_module_id m ∈ removed) then "removing" else "disabling") ++ " " ++ registered_module_id m
           ++ " leaves " ++ consumer ++ " requires:" ++ requirement_capability requirement ++ " unprovided")%string) <$>
  filter (λ m, (registered_module_id m ∈ removed ∨ registered_module_id m ∈ disabled) ∧
               provides (registered_capabilities m) (requirement_capability requirement) = true) registered.

Definition preview_warnings (resulting_modules : list (string * bool)) (removed disabled : list string)
    (registered : list RegisteredModule) : list string :=
  let enabled : gset string := list_to_set (filter (λ e : string * bool, e.2 = true) resulting_modules).*1 in
  let staying := filter (λ m, registered_module_id m ∈ enabled) registered in
  btree_set_iter (list_to_set
    (consumer ← staying;
     requirement ← filter (λ r, requirement_need r = Required)
                     (declared_requires (default empty_declarations (registered_capabilities consumer)));
     if existsb (λ m, provides (registered_capabilities m) (requirement_capability requirement)) staying then []
     else requirement_warnings (list_to_set removed) (list_to_set disabled) registered (registered_module_id consumer) requirement)).

(** ** Waiting *)

Definition next_deadline_delay s (now_ms : Z) : option Z :=
  foldl (λ best e, if (now_ms <? e.2) then Some (match best with Some b => Z.min b (e.2 - now_ms) | None => e.2 - now_ms end) else best)
    None (btree_iter (candidates s)).
