(* ===== verification/CapabilityEval.v ===== *)
(** * One evaluation of the capability requirements

    What the loops of [evaluate_at_ms] compute: the evidence on each configured
    module, the requirements that are declared, and the record, the status and
    the event of each of them. *)

From S2P Require Import Prelude Collections Capabilities.

#[local] Arguments note_process : simpl never.
#[local] Arguments evaluate_requirement : simpl never.

(** ** Entries and folds *)

Lemma collect_snoc {V} (l : list (string * V)) e : collect (l ++ [e]) = <[e.1 := e.2]> (collect l).
Proof. unfold collect. by rewrite foldl_app. Qed.

Lemma list_to_map_btree_iter {V} (m : gmap string V) : list_to_map (btree_iter m) = m.
Proof.
  rewrite (list_to_map_proper (btree_iter m) (map_to_list m)); [apply list_to_map_to_list|apply NoDup_fst_btree_iter|apply btree_iter_perm].
Qed.

Lemma by_key_perm {V} (m : gmap RequirementKey V) : by_key m ≡ₚ map_to_list m.
Proof. apply merge_sort_Permutation. Qed.

Lemma elem_of_by_key {V} (m : gmap RequirementKey V) k v : (k, v) ∈ by_key m ↔ m !! k = Some v.
Proof. rewrite by_key_perm. apply elem_of_map_to_list. Qed.

Lemma NoDup_fst_by_key {V} (m : gmap RequirementKey V) : NoDup (by_key m).*1.
Proof. rewrite by_key_perm. apply NoDup_fst_map_to_list. Qed.

Lemma list_to_map_by_key {V} (m : gmap RequirementKey V) : list_to_map (by_key m) = m.
Proof. rewrite (list_to_map_proper (by_key m) (map_to_list m)); [apply list_to_map_to_list|apply NoDup_fst_by_key|apply by_key_perm]. Qed.

Lemma existsb_iff {A} (p : A → bool) l : existsb p l = true ↔ ∃ x, x ∈ l ∧ p x = true.
Proof. rewrite existsb_exists. by setoid_rewrite list_elem_of_In. Qed.

Lemma provides_iff d capability :
  provides d capability = true ↔ ∃ declarations, d = Some declarations ∧ capability ∈ declared_provides declarations.
Proof.
  unfold provides. destruct d as [d|]; simpl; [|split; [done|by intros (? & ? & _)]]. rewrite existsb_iff. split.
  - intros (x & Hx & ->%bool_decide_eq_true). by exists d.
  - intros (d' & [= <-] & Hx). exists capability. by rewrite bool_decide_true.
Qed.

(** ** The evidence *)

Section evaluation.
Context (now_ms : Z) (runtime : gmap string RuntimeModule) (registered : gmap string RegisteredModule).
Implicit Types (s : EvaluatorState) (key : RequirementKey).

(** Everything the evidence does not touch. *)
Definition same_setup s s' : Prop :=
  configured s' = configured s ∧ reserved_capabilities s' = reserved_capabilities s ∧
  config_generation s' = config_generation s ∧ cached s' = cached s.

(** The deadline a candidate has after an evaluation. *)
Definition deadline_after s (module_id : string) (enabled : bool) : option Z :=
  match process_evidence runtime registered module_id enabled with
  | EvidenceStarting =>
      if decide (process s !! module_id = Some EvidenceStarting) then candidates s !! module_id
      else Some (saturating_add64 now_ms CAPABILITY_SETTLE_DEADLINE_MS)
  | _ => None
  end.

Definition noted s s' (modules : gmap string bool) : Prop :=
  same_setup s s' ∧ requirements s' = requirements s ∧ statuses s' = statuses s ∧
  ∀ m, match modules !! m with
       | Some enabled => process s' !! m = Some (process_evidence runtime registered m enabled) ∧
                         candidates s' !! m = deadline_after s m enabled
       | None => process s' !! m = process s !! m ∧ candidates s' !! m = candidates s !! m
       end.

Lemma note_process_other s m enabled m' :
  m' ≠ m → process (note_process now_ms runtime registered s (m, enabled)) !! m' = process s !! m' ∧
           candidates (note_process now_ms runtime registered s (m, enabled)) !! m' = candidates s !! m'.
Proof.
  intros Hm. unfold note_process. destruct (process_evidence _ _ m enabled); simpl;
    [|destruct (decide _); simpl|]; by rewrite ?lookup_insert_ne, ?lookup_delete_ne.
Qed.

Lemma note_process_own s m enabled :
  process (note_process now_ms runtime registered s (m, enabled)) !! m = Some (process_evidence runtime registered m enabled) ∧
  candidates (note_process now_ms runtime registered s (m, enabled)) !! m = deadline_after s m enabled.
Proof.
  unfold note_process, deadline_after. destruct (process_evidence _ _ m enabled); simpl.
  - by rewrite lookup_insert_eq, lookup_delete_eq.
  - destruct (decide _); simpl; by rewrite !lookup_insert_eq.
  - by rewrite lookup_insert_eq, lookup_delete_eq.
Qed.

Lemma note_process_setup s e :
  let s' := note_process now_ms runtime registered s e in
  same_setup s s' ∧ requirements s' = requirements s ∧ statuses s' = statuses s.
Proof.
  destruct e as [m enabled]. unfold note_process. destruct (process_evidence _ _ m enabled); [|destruct (decide _)|]; done.
Qed.

Lemma note_all s l : NoDup l.*1 → noted s (foldl (note_process now_ms runtime registered) s l) (list_to_map l).
Proof.
  revert s. induction l as [|[m enabled] l IH]; intros s; simpl.
  { intros _. split_and!; [done..|]. intros m. by rewrite lookup_empty. }
  intros [Hm Hl]%NoDup_cons. destruct (IH (note_process now_ms runtime registered s (m, enabled)) Hl) as (Hsame & Hr & Hst & Hall).
  destruct (note_process_setup s (m, enabled)) as (Hsame' & Hr' & Hst').
  split_and!; [|congruence..|].
  { destruct Hsame as (? & ? & ? & ?), Hsame' as (? & ? & ? & ?). split_and!; congruence. }
  intros m'. specialize (Hall m'). destruct (decide (m' = m)) as [->|Hne].
  - rewrite lookup_insert_eq. rewrite not_elem_of_list_to_map_1 in Hall by done. destruct Hall as [-> ->]. apply note_process_own.
  - rewrite lookup_insert_ne by done. destruct (note_process_other s m enabled m' Hne) as [Hp Hc].
    destruct (list_to_map l !! m') as [en|]; unfold deadline_after in *; by rewrite ?Hp, ?Hc in Hall.
Qed.

(** ** The verdicts *)

(** What one turn of the loop writes and reports. *)
Record Judgement := mkJudgement {
  judged_record : RequirementRecord;
  judged_status : RequirementStatus;
  judged_event : option RequirementEvent;
}.

Definition judged s (detail : string) key (need : CapabilityNeed) : Judgement :=
  let v := verdict_for s now_ms registered key.2 in
  let record := default (mkRequirementRecord None 0) (requirements s !! key) in
  let transitioned := negb (bool_decide (last_verdict record = Some v)) in
  let seq := if transitioned && bool_decide (v = NeverProvided) then saturating_add64 (episode_seq record) 1 else episode_seq record in
  let status := mkRequirementStatus key.1 key.2 need v seq (satisfiable s runtime registered key.2) (available registered key.2)
                  (requirement_detail key need v detail) in
  let severity := if bool_decide (need = Required) && bool_decide (v = NeverProvided) then SeverityError else SeverityInfo in
  mkJudgement (mkRequirementRecord (Some v) seq) status (if transitioned then Some (mkRequirementEvent severity status) else None).

Lemma evaluate_requirement_judged s events detail key need :
  evaluate_requirement now_ms runtime registered detail (s, events) (key, need) =
  (s <| requirements := <[key := judged_record (judged s detail key need)]> (requirements s) |>
     <| statuses := <[key := judged_status (judged s detail key need)]> (statuses s) |>,
   events ++ option_list (judged_event (judged s detail key need))).
Proof.
  unfold evaluate_requirement, judged. cbn [judged_record judged_status judged_event]. f_equal.
  by destruct (negb _); [|rewrite app_nil_r].
Qed.

(** The parts of the state that a judgement reads. *)
Definition same_grounds s s' : Prop := same_setup s s' ∧ candidates s' = candidates s ∧ process s' = process s.

Lemma judged_ext s s' detail key need :
  same_grounds s s' → requirements s' !! key = requirements s !! key → judged s' detail key need = judged s detail key need.
Proof.
  intros ((Hc & _ & _ & Hca) & Hd & _) Hr. unfold judged, verdict_for, satisfiable, candidate_applies. by rewrite Hr, Hc, Hca, Hd.
Qed.

Lemma evaluate_all s events detail l :
  NoDup l.*1 →
  let '(s', events') := foldl (evaluate_requirement now_ms runtime registered detail) (s, events) l in
  same_grounds s s' ∧ events' = events ++ omap (λ e, judged_event (judged s detail e.1 e.2)) l ∧
  ∀ key, match (list_to_map l : gmap _ _) !! key with
         | Some need => requirements s' !! key = Some (judged_record (judged s detail key need)) ∧
                        statuses s' !! key = Some (judged_status (judged s detail key need))
         | None => requirements s' !! key = requirements s !! key ∧ statuses s' !! key = statuses s !! key
         end.
Proof.
  revert s events. induction l as [|[key need] l IH]; intros s events; cbn [foldl].
  { intros _. split_and!; [done|by rewrite app_nil_r|]. intros k. cbn [list_to_map foldr]. by rewrite lookup_empty. }
  intros [Hk Hl]%NoDup_cons. rewrite evaluate_requirement_judged. set (j := judged s detail key need).
  set (s1 := s <| requirements := <[key := judged_record j]> (requirements s) |> <| statuses := <[key := judged_status j]> (statuses s) |>).
  specialize (IH s1 (events ++ option_list (judged_event j)) Hl).
  destruct (foldl _ _ l) as [s' events']. destruct IH as ((Hs & Hc & Hp) & -> & Hall).
  assert (∀ k n, k ≠ key → judged s1 detail k n = judged s detail k n) as Hj.
  { intros k n Hne. apply judged_ext; [done|]. simpl. by rewrite lookup_insert_ne. }
  split_and!; [done| |].
  - rewrite <-app_assoc. f_equal. cbn [omap list_omap fst snd]. fold j.
    assert (omap (λ e, judged_event (judged s1 detail e.1 e.2)) l = omap (λ e, judged_event (judged s detail e.1 e.2)) l) as ->.
    { apply list_omap_ext, Forall_Forall2_diag, Forall_forall. intros [k n] Hin. cbn [fst snd]. rewrite Hj; [done|].
      intros ->. apply Hk. apply list_elem_of_fmap. by exists (key, n). }
    by destruct (judged_event j).
  - intros k. specialize (Hall k). cbn [list_to_map foldr uncurry]. destruct (decide (k = key)) as [->|Hne].
    + rewrite lookup_insert_eq. rewrite not_elem_of_list_to_map_1 in Hall by done.
      cbn [s1 requirements statuses set_field] in Hall. by rewrite !lookup_insert_eq in Hall.
    + rewrite lookup_insert_ne by done. destruct (list_to_map l !! k) as [n|]; [by rewrite Hj in Hall|].
      cbn [s1 requirements statuses set_field] in Hall. by rewrite !lookup_insert_ne in Hall.
Qed.
End evaluation.

(** ** The whole of it *)

Definition runtime_map (runtime : list RuntimeModule) : gmap string RuntimeModule :=
  collect ((λ m, (runtime_module_id m, m)) <$> runtime).

Definition registered_map (registered : list RegisteredModule) : gmap string RegisteredModule :=
  collect ((λ m, (registered_module_id m, m)) <$> registered).

Lemma declarations_ext s s' registered runtime :
  same_setup s s' → requirement_declarations s' registered runtime = requirement_declarations s registered runtime.
Proof. intros (Hc & _ & _ & Hca). unfold requirement_declarations. by rewrite Hc, Hca. Qed.

Lemma detail_ext s s' now_ms : same_grounds s s' → expired_candidate_detail s' now_ms = expired_candidate_detail s now_ms.
Proof. intros ((_ & _ & _ & Hca) & Hc & Hp). unfold expired_candidate_detail. by rewrite Hca, Hc, Hp. Qed.

Record evaluated (now_ms : Z) (runtime : gmap string RuntimeModule) (registered : gmap string RegisteredModule)
    (s s1 s' : EvaluatorState) (events : list RequirementEvent) : Prop := {
  ev_noted : noted now_ms runtime registered s s1 (configured s);
  ev_grounds : same_grounds s1 s';
  ev_judged key :
    match requirement_declarations s registered runtime !! key with
    | Some need =>
        let j := judged now_ms runtime registered s1 (expired_candidate_detail s1 now_ms) key need in
        requirements s' !! key = Some (judged_record j) ∧ statuses s' !! key = Some (judged_status j)
    | None => requirements s' !! key = (λ r, mkRequirementRecord None (episode_seq r)) <$> requirements s !! key ∧
              statuses s' !! key = None
    end;
  ev_events : events = omap (λ e, judged_event (judged now_ms runtime registered s1 (expired_candidate_detail s1 now_ms) e.1 e.2))
                         (by_key (requirement_declarations s registered runtime));
}.

Lemma forget_undeclared_lookup s declared key :
  requirements (forget_undeclared s declared) !! key =
    (if is_some (declared !! key) then requirements s !! key
     else (λ r, mkRequirementRecord None (episode_seq r)) <$> requirements s !! key) ∧
  statuses (forget_undeclared s declared) !! key = if is_some (declared !! key) then statuses s !! key else None.
Proof.
  unfold forget_undeclared. cbn [requirements statuses set_field]. split.
  - rewrite map_lookup_imap. destruct (requirements s !! key) as [r|]; simpl; by destruct (declared !! key).
  - destruct (declared !! key) as [n|] eqn:Hk; simpl.
    + destruct (statuses s !! key) as [st|] eqn:Hst; [by apply map_lookup_filter_Some|]. apply map_lookup_filter_None. by left.
    + apply map_lookup_filter_None. right. intros st _. simpl. rewrite Hk. by intros [].
Qed.

Lemma evaluate_spec s now_ms runtime registered s' events :
  evaluate_at_ms s now_ms runtime registered = (s', events) →
  ∃ s1, evaluated now_ms (runtime_map runtime) (registered_map registered) s s1 s' events.
Proof.
  unfold evaluate_at_ms. fold (runtime_map runtime) (registered_map registered).
  set (rt := runtime_map runtime). set (rg := registered_map registered). clearbody rt rg.
  pose proof (note_all now_ms rt rg s (btree_iter (configured s)) (NoDup_fst_btree_iter _)) as Hn.
  rewrite list_to_map_btree_iter in Hn.
  set (s1 := foldl (note_process now_ms rt rg) s (btree_iter (configured s))) in *. clearbody s1.
  pose proof Hn as (Hsame & Hr & _ & _). rewrite (declarations_ext s s1) by done.
  set (declared := requirement_declarations s rg rt). set (s0 := forget_undeclared s1 declared).
  assert (same_grounds s1 s0) as Hg by done. rewrite (detail_ext s1 s0) by done.
  assert (∀ key need, declared !! key = Some need → judged now_ms rt rg s0 (expired_candidate_detail s1 now_ms) key need =
    judged now_ms rt rg s1 (expired_candidate_detail s1 now_ms) key need) as Hj.
  { intros key need Hk. apply judged_ext; [done|]. etransitivity; [apply forget_undeclared_lookup|]. by rewrite Hk. }
  pose proof (evaluate_all now_ms rt rg s0 [] (expired_candidate_detail s1 now_ms) (by_key declared) (NoDup_fst_by_key _)) as Hall.
  intros Heq. rewrite Heq in Hall. rewrite list_to_map_by_key in Hall. destruct Hall as (Hg' & -> & Hall). exists s1. split; [done|..].
  - destruct Hg as ((? & ? & ? & ?) & ? & ?), Hg' as ((? & ? & ? & ?) & ? & ?). split_and!; [split_and!|..]; congruence.
  - intros key. specialize (Hall key). fold declared. destruct (declared !! key) as [need|] eqn:Hk.
    + cbv zeta. by rewrite <-Hj.
    + destruct (forget_undeclared_lookup s1 declared key) as [Hr0 Hst0]. fold s0 in Hr0, Hst0.
      rewrite Hk in Hr0, Hst0. rewrite Hr0, Hst0, Hr in Hall. exact Hall.
  - rewrite app_nil_l. apply list_omap_ext, Forall_Forall2_diag, Forall_forall. intros [key need] Hin%elem_of_by_key. cbn [fst snd]. by rewrite Hj.
Qed.
