(* ===== verification/CapabilitySettle.v ===== *)
(** * Time and the capability requirements

    Between two deadlines nothing changes; a module that starts is waited for
    until its deadline, counted from the first evaluation that saw it start; and
    every absence of a capability has a number of its own. *)

From S2P Require Import Prelude Collections Capabilities CapabilityEval.

Implicit Types (s : EvaluatorState) (key : RequirementKey).

(** ** The next deadline *)

Lemma next_deadline_fold now l best :
  (∀ b, best = Some b → 0 < b) →
  let r := foldl (λ best (e : string * Z), if (now <? e.2) then Some (match best with Some b => Z.min b (e.2 - now) | None => e.2 - now end)
                           else best) best l in
  (∀ x, r = Some x → 0 < x ∧ (∀ b, best = Some b → x ≤ b) ∧ ∀ e, e ∈ l → now < e.2 → now + x ≤ e.2) ∧
  (r = None → best = None ∧ ∀ e, e ∈ l → e.2 ≤ now).
Proof.
  revert best. induction l as [|e l IH]; intros best Hb; cbn [foldl].
  { split; [|by intros ->; split; [|intros ? ?%elem_of_nil]]. intros x ->. split_and!; [auto|naive_solver|by intros ? ?%elem_of_nil]. }
  destruct (now <? e.2) eqn:He; [apply Z.ltb_lt in He|apply Z.ltb_ge in He].
  - destruct (IH (Some (match best with Some b => Z.min b (e.2 - now) | None => e.2 - now end))) as [Hs Hn].
    { intros b [= <-]. destruct best as [b|]; [|lia]. specialize (Hb b eq_refl). lia. }
    split; [|by intros [? _]%Hn]. intros x Hx. destruct (Hs x Hx) as (Hpos & Hle & Hl). specialize (Hle _ eq_refl). split_and!; [done|..].
    + intros b ->. lia.
    + intros e' [->|Hin]%elem_of_cons Hlt; [destruct best; lia|by apply Hl].
  - destruct (IH best Hb) as [Hs Hn]. split.
    + intros x Hx. destruct (Hs x Hx) as (? & ? & Hl). split_and!; [done..|]. intros e' [->|Hin]%elem_of_cons ?; [lia|by apply Hl].
    + intros Hx. destruct (Hn Hx) as [? Hl]. split; [done|]. intros e' [->|Hin]%elem_of_cons; [done|by apply Hl].
Qed.

(** No deadline passes before the delay is over. *)
Lemma next_deadline_quiet s now t m d :
  (∀ x, next_deadline_delay s now = Some x → t < now + x) → now ≤ t → candidates s !! m = Some d → d ≤ now ∨ t < d.
Proof.
  intros Hx Ht Hd. destruct (next_deadline_fold now (btree_iter (candidates s)) None) as [Hs Hn]; [done|].
  fold (next_deadline_delay s now) in Hs, Hn. assert ((m, d) ∈ btree_iter (candidates s)) as Hin by by apply elem_of_btree_iter.
  destruct (next_deadline_delay s now) as [x|].
  - destruct (decide (now < d)); [right|left; lia]. specialize (Hx x eq_refl). destruct (Hs x eq_refl) as (_ & _ & Hl).
    specialize (Hl (m, d) Hin). simpl in Hl. lia.
  - left. by apply (proj2 (Hn eq_refl) (m, d)).
Qed.

Lemma existsb_ext_in {A} (p q : A → bool) l : (∀ x, x ∈ l → p x = q x) → existsb p l = existsb q l.
Proof.
  induction l as [|x l IH]; intros Hl; [done|]. simpl. rewrite (Hl x) by by left. f_equal. apply IH. intros y Hy. apply Hl. by right.
Qed.

Section between_deadlines.
Context (now t : Z) (Hle : now ≤ t).

Lemma verdict_quiet s registered capability :
  (∀ m d, candidates s !! m = Some d → d ≤ now ∨ t < d) → verdict_for s t registered capability = verdict_for s now registered capability.
Proof.
  intros Hd. unfold verdict_for. destruct (available _ _); [done|].
  rewrite (existsb_ext_in _ (λ e : string * Z, (now <? e.2) && candidate_applies s e.1 capability)); [done|].
  intros [m d] Hin%elem_of_btree_iter. cbn [fst snd]. f_equal. destruct (Hd m d Hin); [|].
  - by rewrite !(proj2 (Z.ltb_ge _ _)) by lia.
  - by rewrite !(proj2 (Z.ltb_lt _ _)) by lia.
Qed.

Lemma detail_quiet s :
  (∀ m d, candidates s !! m = Some d → d ≤ now ∨ t < d) → expired_candidate_detail s t = expired_candidate_detail s now.
Proof.
  intros Hd. unfold expired_candidate_detail. do 2 f_equal. apply filter_ext_in. intros [m d] Hin%elem_of_btree_iter. cbn [fst snd].
  destruct (Hd m d Hin); split; intros [? ?]; (split; [lia|done]).
Qed.
End between_deadlines.

(** ** Nothing happens before the next deadline *)

Lemma note_settled s s1 s' now t runtime registered events :
  evaluated now runtime registered s s1 s' events →
  ∀ s2, noted t runtime registered s' s2 (configured s') → same_grounds s' s2.
Proof.
  intros [(Hsame & _ & _ & Hall) (Hg & Hgc & Hgp) _ _] s2 (Hsame2 & _ & _ & Hall2). split; [done|].
  assert (∀ m, process s2 !! m = process s' !! m ∧ candidates s2 !! m = candidates s' !! m) as Hm.
  { intros m. specialize (Hall m). specialize (Hall2 m).
    replace (configured s') with (configured s) in Hall2 by (destruct Hsame as (? & _), Hg as (? & _); congruence).
    destruct (configured s !! m) as [enabled|]; [|done]. rewrite <-Hgc, <-Hgp in Hall. destruct Hall as [Hp Hc], Hall2 as [Hp2 Hc2].
    split; [congruence|]. rewrite Hc2. unfold deadline_after in *. rewrite Hp. by destruct (process_evidence _ _ m enabled). }
  split; apply map_eq; intros m; apply Hm.
Qed.

Lemma state_eq s s' :
  same_grounds s s' → requirements s' = requirements s → statuses s' = statuses s → s' = s.
Proof. intros ((? & ? & ? & ?) & ? & ?) ? ?. destruct s, s'; simpl in *. congruence. Qed.

Lemma judged_settled s1 s2 now t runtime registered key need r :
  same_grounds s1 s2 → now ≤ t → (∀ m d, candidates s1 !! m = Some d → d ≤ now ∨ t < d) →
  let detail := expired_candidate_detail s1 now in
  let j := judged now runtime registered s1 detail key need in
  requirements s2 !! key = Some r → r = judged_record j →
  judged t runtime registered s2 (expired_candidate_detail s2 t) key need = mkJudgement (judged_record j) (judged_status j) None.
Proof.
  intros Hg Hle Hd detail j Hr ->. rewrite (detail_ext s1 s2), (detail_quiet now t) by done. fold detail.
  assert (verdict_for s2 t registered key.2 = verdict_for s1 now registered key.2) as Hv.
  { rewrite <-(verdict_quiet now t) by done. destruct Hg as ((_ & _ & _ & Hca) & Hc & _). unfold verdict_for, candidate_applies. by rewrite Hc, Hca. }
  assert (satisfiable s2 runtime registered key.2 = satisfiable s1 runtime registered key.2) as Hsat.
  { destruct Hg as ((Hc & _ & _ & Hca) & _). unfold satisfiable. by rewrite Hc, Hca. }
  unfold judged at 1. rewrite Hv, Hsat, Hr. cbn [default id judged_record last_verdict episode_seq].
  unfold j, judged. cbn [judged_record judged_status last_verdict episode_seq]. rewrite bool_decide_true by done. done.
Qed.

Lemma same_grounds_trans s1 s2 s3 : same_grounds s1 s2 → same_grounds s2 s3 → same_grounds s1 s3.
Proof. intros ((? & ? & ? & ?) & ? & ?) ((? & ? & ? & ?) & ? & ?). split_and!; [split_and!|..]; congruence. Qed.

Lemma evaluated_setup now runtime registered s s1 s' events : evaluated now runtime registered s s1 s' events → same_setup s s'.
Proof.
  intros Hev. destruct (ev_noted _ _ _ _ _ _ _ Hev) as ((? & ? & ? & ?) & _), (ev_grounds _ _ _ _ _ _ _ Hev) as ((? & ? & ? & ?) & _).
  split_and!; congruence.
Qed.

(** A second evaluation on the same grounds writes what is there. *)
Lemma settled_same now t runtime registered s s1 s' events s2 s2' events2 :
  evaluated now runtime registered s s1 s' events → evaluated t runtime registered s' s2 s2' events2 → now ≤ t →
  (∀ m d, candidates s' !! m = Some d → d ≤ now ∨ t < d) →
  ∀ key, requirements s2' !! key = requirements s' !! key ∧ statuses s2' !! key = statuses s' !! key ∧
    ∀ need, requirement_declarations s' registered runtime !! key = Some need →
      judged_event (judged t runtime registered s2 (expired_candidate_detail s2 t) key need) = None.
Proof.
  intros Ha Hb Hle Hd key. pose proof (note_settled _ _ _ _ t _ _ _ Ha s2 (ev_noted _ _ _ _ _ _ _ Hb)) as Hsb.
  pose proof (same_grounds_trans _ _ _ (ev_grounds _ _ _ _ _ _ _ Ha) Hsb) as Hab.
  pose proof (ev_judged _ _ _ _ _ _ _ Ha key) as Hka. pose proof (ev_judged _ _ _ _ _ _ _ Hb key) as Hkb.
  rewrite (declarations_ext s s') in Hkb |- * by by eapply evaluated_setup.
  destruct (requirement_declarations s registered runtime !! key) as [need|] eqn:Hk.
  - destruct Hka as [Hr Hst]. erewrite judged_settled in Hkb; [|exact Hab|done|..|done].
    + destruct Hkb as [-> ->]. cbn [judged_record judged_status]. split_and!; [done..|]. intros need' [= <-].
      erewrite judged_settled; [done|exact Hab|done|..|done].
      * intros m d Hm. apply (Hd m). by destruct (ev_grounds _ _ _ _ _ _ _ Ha) as (_ & -> & _).
      * destruct (ev_noted _ _ _ _ _ _ _ Hb) as (_ & -> & _). exact Hr.
    + intros m d Hm. apply (Hd m). by destruct (ev_grounds _ _ _ _ _ _ _ Ha) as (_ & -> & _).
    + destruct (ev_noted _ _ _ _ _ _ _ Hb) as (_ & -> & _). exact Hr.
  - destruct Hka as [Hr Hst], Hkb as [Hr2 Hst2]. rewrite Hr2, Hst2, Hr, Hst. split_and!; [by destruct (requirements s !! key)|done|done].
Qed.

Lemma evaluate_settled s now runtime registered s1 events t :
  evaluate_at_ms s now runtime registered = (s1, events) → now ≤ t →
  (∀ x, next_deadline_delay s1 now = Some x → t < now + x) → evaluate_at_ms s1 t runtime registered = (s1, []).
Proof.
  intros Heq Hle Hx. destruct (evaluate_at_ms s1 t runtime registered) as [s2 events2] eqn:Heq2.
  apply evaluate_spec in Heq as [a Ha]. apply evaluate_spec in Heq2 as [b Hb].
  pose proof (settled_same _ _ _ _ _ _ _ _ _ _ _ Ha Hb Hle (λ m d, next_deadline_quiet s1 now t m d Hx Hle)) as Hsame. f_equal.
  - apply state_eq; [|apply map_eq; intros key; by apply Hsame..].
    eapply same_grounds_trans; [by eapply note_settled; [|apply Hb]|apply Hb].
  - rewrite (ev_events _ _ _ _ _ _ _ Hb).
    assert (∀ e, e ∈ by_key (requirement_declarations s1 (registered_map registered) (runtime_map runtime)) →
      judged_event (judged t (runtime_map runtime) (registered_map registered) b (expired_candidate_detail b t) e.1 e.2) = None) as Hnone.
    { intros [key need] Hin%elem_of_by_key. by apply (Hsame key). }
    induction (by_key _) as [|e l IH]; [done|]. cbn [omap list_omap]. rewrite Hnone by by left.
    apply IH. intros e' He'. apply Hnone. by right.
Qed.
