(* ===== verification/CapabilityHistory.v ===== *)
(** * Histories of the capability evaluator

    The evaluator beside what really happened: since when each module has been
    seen starting, and which absences were reported under which number. *)

From S2P Require Import Prelude Collections Capabilities CapabilityEval CapabilitySettle.

Implicit Types (s : EvaluatorState) (key : RequirementKey).

(** ** What happened *)

Record History := mkHistory {
  h_now : Z;
  h_since : gmap string Z;
  h_absences : list (RequirementKey * Z);
}.

Implicit Types (h : History).

(** Since when each configured module has been starting, once it is looked at. *)
Definition starting_since (since : gmap string Z) (modules : gmap string bool) (now : Z)
    (runtime : gmap string RuntimeModule) (registered : gmap string RegisteredModule) : gmap string Z :=
  map_imap (λ m enabled, if decide (process_evidence runtime registered m enabled = EvidenceStarting)
                         then Some (default now (since !! m)) else None) modules.

(** The absences among the events, and those of one requirement. *)
Definition absence_of (e : RequirementEvent) : option (RequirementKey * Z) :=
  let st := event_status e in
  if decide (status_verdict st = NeverProvided) then Some ((status_consumer st, status_capability st), status_episode_seq st) else None.

Definition absences_of key (l : list (RequirementKey * Z)) : list Z := omap (λ e, if decide (e.1 = key) then Some e.2 else None) l.

Inductive evaluator_step : EvaluatorState * History → EvaluatorState * History → Prop :=
  | es_configure s h modules reserved :
      evaluator_step (s, h) ((configure s modules reserved).1,
                             mkHistory (h_now h) (kept_in (collect modules) (h_since h)) (h_absences h))
  | es_hello s h r : evaluator_step (s, h) ((record_hello s r).1.1, h)
  | es_evaluate s h now runtime registered s' events :
      h_now h ≤ now → now + CAPABILITY_SETTLE_DEADLINE_MS < 2 ^ 64 →
      evaluate_at_ms s now runtime registered = (s', events) →
      evaluator_step (s, h)
        (s', mkHistory now (starting_since (h_since h) (configured s) now (runtime_map runtime) (registered_map registered))
               (h_absences h ++ omap absence_of events)).

Definition start_history : History := mkHistory 0 ∅ [].

Definition evaluator_reachable : EvaluatorState * History → Prop := rtc evaluator_step (new_evaluator, start_history).

(** ** Deadlines *)

(** A candidate's deadline is 120 seconds from when it began to start. *)
Record deadlines_ok s (since : gmap string Z) (now : Z) : Prop := {
  dl_since m t : since !! m = Some t →
    process s !! m = Some EvidenceStarting ∧ candidates s !! m = Some (t + CAPABILITY_SETTLE_DEADLINE_MS) ∧ t ≤ now ∧
    is_Some (configured s !! m);
  dl_other m : since !! m = None → process s !! m ≠ Some EvidenceStarting ∧ candidates s !! m = None;
}.

Lemma kept_in_lookup {V} (ids : gmap string bool) (m : gmap string V) i :
  kept_in ids m !! i = if is_some (ids !! i) then m !! i else None.
Proof.
  unfold kept_in. destruct (ids !! i) as [b|] eqn:Hi; simpl.
  - destruct (m !! i) as [v|] eqn:Hm; [apply map_lookup_filter_Some; split; [done|]; simpl; rewrite Hi; by eexists|]. apply map_lookup_filter_None. by left.
  - apply map_lookup_filter_None. right. intros v _. simpl. rewrite Hi. by intros [].
Qed.

Lemma configure_deadlines s since now modules reserved :
  deadlines_ok s since now → deadlines_ok (configure s modules reserved).1 (kept_in (collect modules) since) now.
Proof.
  intros [Hs Ho]. unfold configure. destruct (decide _) as [[Hc _]|_]; cbn [fst].
  - split; intros m; rewrite kept_in_lookup, <-Hc.
    + intros t. destruct (is_some _) in |- *; [|done]. apply Hs.
    + destruct (configured s !! m) eqn:Hm; simpl; [apply Ho|]. intros _. destruct (since !! m) as [t|] eqn:Ht; [|by apply Ho].
      destruct (Hs m t Ht) as (_ & _ & _ & [? ?]). congruence.
  - split; intros m; rewrite kept_in_lookup; cbn [process candidates configured set_field]; rewrite !kept_in_lookup.
    + destruct (collect modules !! m) as [b|]; [|done]. simpl. intros t Ht. destruct (Hs m t Ht) as (? & ? & ? & _). by split_and!.
    + destruct (collect modules !! m); simpl; [apply Ho|done].
Qed.

Lemma hello_deadlines s since now r : deadlines_ok s since now → deadlines_ok (record_hello s r).1.1 since now.
Proof. intros [Hs Ho]. unfold record_hello. destruct (negb _); by split. Qed.

Lemma evaluate_deadlines s since now t runtime registered s1 s' events :
  deadlines_ok s since now → now ≤ t → t + CAPABILITY_SETTLE_DEADLINE_MS < 2 ^ 64 →
  evaluated t runtime registered s s1 s' events → deadlines_ok s' (starting_since since (configured s) t runtime registered) t.
Proof.
  intros [Hs Ho] Hle Hmax Hev. pose proof (evaluated_setup _ _ _ _ _ _ _ Hev) as (Hc & _).
  destruct (ev_noted _ _ _ _ _ _ _ Hev) as (_ & _ & _ & Hall), (ev_grounds _ _ _ _ _ _ _ Hev) as (_ & Hgc & Hgp).
  rewrite <-Hgc, <-Hgp in Hall. unfold starting_since.
  split; intros m; specialize (Hall m); rewrite map_lookup_imap, ?Hc; destruct (configured s !! m) as [enabled|] eqn:Hm; simpl; try done.
  - destruct Hall as [Hp Hcand]. unfold deadline_after in Hcand. destruct (decide (process_evidence runtime registered m enabled = _)) as [He|]; [|done].
    rewrite He in Hp, Hcand.
    intros x [= <-]. destruct (since !! m) as [t0|] eqn:Ht; simpl.
    + destruct (Hs m t0 Ht) as (Hp0 & Hc0 & ? & _). rewrite decide_True in Hcand by done.
      split_and!; [done|congruence|lia|by eexists].
    + destruct (Ho m Ht) as [Hp0 _]. rewrite decide_False in Hcand by done. unfold saturating_add64 in Hcand. rewrite Z.min_l in Hcand by lia.
      split_and!; [done..|by eexists].
  - destruct Hall as [Hp Hcand]. unfold deadline_after in Hcand. destruct (decide (process_evidence runtime registered m enabled = _)) as [|He]; [done|]. intros _.
    rewrite Hp, Hcand. split; [congruence|]. by destruct (process_evidence _ _ m enabled).
  - destruct Hall as [Hp Hcand]. intros _. rewrite Hp, Hcand. destruct (since !! m) as [t0|] eqn:Ht; [|by apply Ho].
    destruct (Hs m t0 Ht) as (_ & _ & _ & [? ?]). congruence.
Qed.

(** ** Episodes *)

Lemma absences_app key l1 l2 : absences_of key (l1 ++ l2) = absences_of key l1 ++ absences_of key l2.
Proof. apply omap_app. Qed.

(** The events of one loop, for one requirement. *)
Lemma absences_loop (f : RequirementKey → CapabilityNeed → option RequirementEvent) key l :
  NoDup l.*1 → (∀ k n e, f k n = Some e → (status_consumer (event_status e), status_capability (event_status e)) = k) →
  absences_of key (omap absence_of (omap (λ e, f e.1 e.2) l)) =
  match (list_to_map l : gmap _ _) !! key with
  | Some need => option_list (snd <$> (f key need ≫= absence_of))
  | None => []
  end.
Proof.
  intros Hl Hf. assert (∀ k n e a, f k n = Some e → absence_of e = Some a → a.1 = k) as Hkey.
  { intros k n e a Hfe. unfold absence_of. destruct (decide _); [|done]. intros [= <-]. by apply (Hf k n e). }
  induction l as [|[k n] l IH]; [done|]. cbn [list_to_map foldr uncurry fmap list_fmap fst snd] in *. apply NoDup_cons in Hl as [Hk Hl].
  specialize (IH Hl). fold (list_to_map (M := gmap RequirementKey CapabilityNeed) l).
  assert (absences_of key (omap absence_of (omap (λ e, f e.1 e.2) ((k, n) :: l))) =
    (if decide (k = key) then option_list (snd <$> (f k n ≫= absence_of)) else []) ++
    absences_of key (omap absence_of (omap (λ e, f e.1 e.2) l))) as ->.
  { cbn [omap list_omap fst snd]. destruct (f k n) as [e|] eqn:He; simpl; [|by destruct (decide _)].
    destruct (absence_of e) as [[k' q]|] eqn:Ha; simpl; [|by destruct (decide _)].
    apply (Hkey k n e) in Ha as <-; [|done]. unfold absences_of at 1. simpl. by destruct (decide _). }
  rewrite IH. destruct (decide (k = key)) as [->|Hne].
  - rewrite lookup_insert_eq, not_elem_of_list_to_map_1 by done. apply app_nil_r.
  - by rewrite lookup_insert_ne.
Qed.

(** The number a requirement's record stands at. *)
Definition episode_of s key : Z := match requirements s !! key with Some r => episode_seq r | None => 0 end.

Definition episodes_ok s (absences : list (RequirementKey * Z)) : Prop :=
  ∀ key, absences_of key absences = seqZ 1 (episode_of s key) ∧ 0 ≤ episode_of s key ∧
    ∀ st, statuses s !! key = Some st → status_episode_seq st = episode_of s key.

Lemma seqZ_snoc n : 0 ≤ n → seqZ 1 n ++ [n + 1] = seqZ 1 (n + 1).
Proof. intros Hn. rewrite seqZ_app by lia. f_equal. rewrite Z.add_comm. done. Qed.

(** A transition into absence takes the next number. *)
Lemma judged_absence s now runtime registered detail key need :
  let j := judged now runtime registered s detail key need in
  let told := option_list (snd <$> (judged_event j ≫= absence_of)) in
  let n := episode_of s key in
  (told = [] ∧ episode_seq (judged_record j) = n ∨
   told = [saturating_add64 n 1] ∧ episode_seq (judged_record j) = saturating_add64 n 1) ∧
  status_episode_seq (judged_status j) = episode_seq (judged_record j).
Proof.
  intros j told n. split; [|done]. unfold told, j, judged. cbn [judged_record judged_event episode_seq].
  replace (episode_seq (default (mkRequirementRecord None 0) (requirements s !! key))) with n
    by (unfold n, episode_of; by destruct (requirements s !! key)).
  destruct (negb _) eqn:Ht; [|by left]. cbn [andb]. unfold absence_of. simpl. destruct (bool_decide (_ = NeverProvided)) eqn:Hv.
  - apply bool_decide_eq_true in Hv. rewrite decide_True by done. by right.
  - apply bool_decide_eq_false in Hv. rewrite decide_False by done. by left.
Qed.

Lemma judged_event_key s now runtime registered detail key need e :
  judged_event (judged now runtime registered s detail key need) = Some e →
  (status_consumer (event_status e), status_capability (event_status e)) = key.
Proof. unfold judged. cbn [judged_event]. destruct (negb _); [|done]. intros [= <-]. by destruct key. Qed.

Lemma absences_length key l : (length (absences_of key l) ≤ length l)%nat.
Proof.
  induction l as [|e l IH]; [done|]. unfold absences_of in *. cbn [omap list_omap]. destruct (decide (e.1 = key)); cbn [length]; lia.
Qed.

Lemma evaluate_episodes s now runtime registered s1 s' events absences :
  evaluated now runtime registered s s1 s' events → episodes_ok s absences →
  Z.of_nat (length (absences ++ omap absence_of events)) < 2 ^ 64 → episodes_ok s' (absences ++ omap absence_of events).
Proof.
  intros Hev Hok Hlen key. destruct (Hok key) as (Habs & Hpos & _). pose proof (absences_length key (absences ++ omap absence_of events)) as Hle.
  rewrite absences_app in Hle |- *. pose proof (ev_judged _ _ _ _ _ _ _ Hev key) as Hj.
  assert (absences_of key (omap absence_of events) = match requirement_declarations s registered runtime !! key with
    | Some need => option_list (snd <$> (judged_event (judged now runtime registered s1 (expired_candidate_detail s1 now) key need) ≫= absence_of))
    | None => [] end) as Htold.
  { rewrite (ev_events _ _ _ _ _ _ _ Hev).
    rewrite (absences_loop (λ k n, judged_event (judged now runtime registered s1 (expired_candidate_detail s1 now) k n)));
      [by rewrite list_to_map_by_key|apply NoDup_fst_by_key|]. intros k n e. apply judged_event_key. }
  rewrite Htold in Hle |- *. destruct (requirement_declarations s registered runtime !! key) as [need|].
  - destruct (judged_absence s1 now runtime registered (expired_candidate_detail s1 now) key need) as [Hcases Hst].
    replace (episode_of s1 key) with (episode_of s key) in Hcases
      by (unfold episode_of; by destruct (ev_noted _ _ _ _ _ _ _ Hev) as (_ & -> & _)).
    cbv zeta in Hj, Hcases, Hst. set (j := judged _ _ _ _ _ _ _) in *. clearbody j.
    destruct Hj as [Hr Hs']. unfold episode_of at 1 2 3. rewrite Hr, Hs'. destruct Hcases as [[Hnil Hseq]|[Hone Hseq]].
    + rewrite Hnil, app_nil_r, Hseq. split_and!; [done..|]. intros st [= <-]. congruence.
    + rewrite Hone, Habs in Hle |- *. rewrite Hseq. rewrite length_app, length_seqZ in Hle. simpl in Hle.
      assert (saturating_add64 (episode_of s key) 1 = episode_of s key + 1) as Hsat by (unfold saturating_add64; lia).
      rewrite Hsat in *. split_and!; [by apply seqZ_snoc|lia|]. intros st [= <-]. congruence.
  - destruct Hj as [Hr Hs']. rewrite app_nil_r. unfold episode_of at 1 2 3. rewrite Hr, Hs'. unfold episode_of in Habs, Hpos.
    by destruct (requirements s !! key).
Qed.

(** ** Every history *)

Definition evaluator_ok (w : EvaluatorState * History) : Prop :=
  deadlines_ok w.1 (h_since w.2) (h_now w.2) ∧
  (Z.of_nat (length (h_absences w.2)) < 2 ^ 64 → episodes_ok w.1 (h_absences w.2)).

Lemma evaluator_step_ok w w' : evaluator_step w w' → evaluator_ok w → evaluator_ok w'.
Proof.
  intros Hstep [IHd IHe].
  destruct Hstep as [s h modules reserved|s h r|s h now runtime registered s' events Hle Hmax Heq]; split; cbn [fst snd h_since h_now h_absences] in *.
  - by apply configure_deadlines.
  - intros Hlen. specialize (IHe Hlen). unfold configure. by destruct (decide _).
  - by apply hello_deadlines.
  - intros Hlen. specialize (IHe Hlen). unfold record_hello. by destruct (negb _).
  - apply evaluate_spec in Heq as [s1 Hev]. by eapply evaluate_deadlines.
  - apply evaluate_spec in Heq as [s1 Hev]. intros Hlen. eapply evaluate_episodes; [done| |done].
    apply IHe. rewrite length_app in Hlen. lia.
Qed.

Lemma start_evaluator_ok : evaluator_ok (new_evaluator, start_history).
Proof.
  split; simpl; [split; simpl; intros m; [by intros t ?%lookup_empty_Some|done]|]. intros _ key. split_and!; [done..|].
  simpl. by intros st ?%lookup_empty_Some.
Qed.

Lemma evaluator_history w : evaluator_reachable w → evaluator_ok w.
Proof.
  unfold evaluator_reachable. intros Hrun. pose proof start_evaluator_ok as Hok.
  induction Hrun as [|w1 w2 w3 Hstep _ IH]; [done|]. by apply IH, (evaluator_step_ok _ _ Hstep).
Qed.

(** ** What is required *)

(** The module [c] requires [capability], by what it registered with or, as long
    as it is enabled, by the last manifest the daemon saw of it. *)
Definition requires_now s (runtime : gmap string RuntimeModule) (registered : gmap string RegisteredModule) (c capability : string) : Prop :=
  ∃ d, capability ∈ requirement_capability <$> declared_requires d ∧
    ((∃ r, registered !! c = Some r ∧ registered_capabilities r = Some d) ∨
     (∃ enabled cache, configured s !! c = Some enabled ∧ enabled_in enabled (runtime !! c) = true ∧
        cached s !! c = Some cache ∧ cached_declarations cache = d)).

Lemma insert_requirements_lookup output c d k capability :
  is_Some (insert_requirements output c d !! (k, capability)) ↔
  is_Some (output !! (k, capability)) ∨ k = c ∧ capability ∈ requirement_capability <$> declared_requires d.
Proof.
  unfold insert_requirements. revert output. induction (declared_requires d) as [|r l IH]; intros output; cbn [foldl fmap list_fmap].
  { split; [by left|]. by intros [?|[_ ?%elem_of_nil]]. }
  rewrite IH, lookup_insert_is_Some, elem_of_cons. destruct (decide ((c, requirement_capability r) = (k, capability))) as [Heq|Hne].
  - injection Heq as -> ->. naive_solver.
  - split; [intros [[?|[? ?]]|[-> ?]]|intros [?|[-> [->|?]]]]; naive_solver.
Qed.

Lemma declare_fold {A} (f : gmap RequirementKey CapabilityNeed → A → gmap RequirementKey CapabilityNeed) (P : A → Prop) key l output :
  (∀ output a, is_Some (f output a !! key) ↔ is_Some (output !! key) ∨ P a) →
  is_Some (foldl f output l !! key) ↔ is_Some (output !! key) ∨ ∃ a, a ∈ l ∧ P a.
Proof.
  intros Hf. revert output. induction l as [|a l IH]; intros output; cbn [foldl].
  - split; [by left|]. intros [?|(a & ?%elem_of_nil & _)]; done.
  - rewrite IH, Hf. setoid_rewrite elem_of_cons. naive_solver.
Qed.

Lemma requirement_declared s runtime registered c capability :
  is_Some (requirement_declarations s registered runtime !! (c, capability)) ↔ requires_now s runtime registered c capability.
Proof.
  unfold requirement_declarations, requires_now.
  rewrite (declare_fold _ (λ e : string * RegisteredModule, c = e.1 ∧
    capability ∈ requirement_capability <$> declared_requires (default empty_declarations (registered_capabilities e.2))))
    by (intros output [m r]; apply insert_requirements_lookup).
  rewrite (declare_fold _ (λ e : string * bool, c = e.1 ∧ enabled_in e.2 (runtime !! e.1) = true ∧
    ∃ cache, cached s !! e.1 = Some cache ∧ capability ∈ requirement_capability <$> declared_requires (cached_declarations cache))).
  2: { intros output [m enabled]. cbn [fst snd]. destruct (enabled_in enabled (runtime !! m)); simpl; [|naive_solver].
       destruct (cached s !! m) as [cache|]; [|naive_solver]. rewrite insert_requirements_lookup. naive_solver. }
  rewrite lookup_empty. split.
  - intros [[[? ?]|([m enabled] & Hin%elem_of_btree_iter & -> & He & cache & Hc & Hcap)]|([m r] & Hin%elem_of_btree_iter & -> & Hcap)]; [done|..].
    + exists (cached_declarations cache). split; [done|]. right. by exists enabled, cache.
    + simpl in *. destruct (registered_capabilities r) as [d|] eqn:Hd; [|by apply elem_of_nil in Hcap]. exists d. split; [done|]. left. by exists r.
  - intros (d & Hcap & [(r & Hr & Hd)|(enabled & cache & He & Hen & Hc & <-)]).
    + right. exists (c, r). rewrite elem_of_btree_iter. simpl. by rewrite Hd.
    + left. right. exists (c, enabled). rewrite elem_of_btree_iter. split_and!; [done..|]. by exists cache.
Qed.

(** ** What a verdict says *)

Lemma available_iff registered capability :
  available registered capability = true ↔ ∃ m r, registered !! m = Some r ∧ provides (registered_capabilities r) capability = true.
Proof.
  unfold available. rewrite existsb_iff. split.
  - intros ([m r] & Hin%elem_of_btree_iter & Hp). by exists m, r.
  - intros (m & r & Hin & Hp). exists (m, r). by rewrite elem_of_btree_iter.
Qed.

Lemma verdict_provided s now registered capability :
  verdict_for s now registered capability = Provided ↔ available registered capability = true.
Proof. unfold verdict_for. destruct (available _ _); [done|]. by destruct (existsb _ _). Qed.

Lemma verdict_pending s now registered capability :
  verdict_for s now registered capability = Pending ↔
  available registered capability = false ∧
  ∃ m d, candidates s !! m = Some d ∧ now < d ∧ candidate_applies s m capability = true.
Proof.
  unfold verdict_for. destruct (available _ _); [naive_solver|]. destruct (existsb _ _) eqn:He.
  - split; [|done]. intros _. split; [done|]. apply existsb_iff in He as ([m d] & Hin%elem_of_btree_iter & [Hlt%Z.ltb_lt Ha]%andb_prop).
    by exists m, d.
  - split; [done|]. intros (_ & m & d & Hm & Hlt & Ha). assert (existsb (λ e : string * Z, (now <? e.2) && candidate_applies s e.1 capability)
      (btree_iter (candidates s)) = true) as Ht; [|congruence].
    apply existsb_iff. exists (m, d). rewrite elem_of_btree_iter. split; [done|]. simpl. by rewrite Ha, (proj2 (Z.ltb_lt _ _) Hlt).
Qed.
