(* ===== verification/CapabilityTheorems.v ===== *)
(** * What the capability evaluator promises *)

From S2P Require Import Prelude Collections Capabilities CapabilityEval CapabilitySettle CapabilityHistory.

Implicit Types (s : EvaluatorState) (h : History).

(** ** A history to try the evaluator on *)

Inductive Input :=
  | Configure (modules : list (string * bool)) (reserved : gmap string string)
  | HelloFrom (r : RegisteredModule)
  | EvaluateAt (now : Z) (runtime : list RuntimeModule) (registered : list RegisteredModule).

(** One input; an evaluation that the clock rules out is skipped. *)
Definition play (w : EvaluatorState * History) (i : Input) : EvaluatorState * History :=
  let '(s, h) := w in
  match i with
  | Configure modules reserved =>
      ((configure s modules reserved).1, mkHistory (h_now h) (kept_in (collect modules) (h_since h)) (h_absences h))
  | HelloFrom r => ((record_hello s r).1.1, h)
  | EvaluateAt now runtime registered =>
      if decide (h_now h ≤ now ∧ now + CAPABILITY_SETTLE_DEADLINE_MS < 2 ^ 64) then
        let '(s', events) := evaluate_at_ms s now runtime registered in
        (s', mkHistory now (starting_since (h_since h) (configured s) now (runtime_map runtime) (registered_map registered))
               (h_absences h ++ omap absence_of events))
      else w
  end.

Definition played (inputs : list Input) : EvaluatorState * History := foldl play (new_evaluator, start_history) inputs.

Lemma play_step w i : rtc evaluator_step w (play w i).
Proof.
  destruct w as [s h], i as [modules reserved|r|now runtime registered]; simpl; [apply rtc_once; constructor..|].
  destruct (decide (h_now h ≤ now ∧ now + CAPABILITY_SETTLE_DEADLINE_MS < 2 ^ 64)) as [[? ?]|]; [|reflexivity].
  destruct (evaluate_at_ms s now runtime registered) as [s' events] eqn:Hev. apply rtc_once. by constructor.
Qed.

Lemma played_reachable inputs : evaluator_reachable (played inputs).
Proof.
  unfold evaluator_reachable, played. generalize (new_evaluator, start_history).
  induction inputs as [|i inputs IH]; intros w; simpl; [reflexivity|]. etransitivity; [apply play_step|apply IH].
Qed.

Lemma played_parts inputs : evaluator_reachable ((played inputs).1, (played inputs).2).
Proof. rewrite <-surjective_pairing. apply played_reachable. Qed.

(** The agent needs a store, which is slow to start, comes up and fails. *)
Definition agent : RegisteredModule :=
  mkRegisteredModule "agent" "1.0" (Some (mkCapabilityDeclarations [] [mkCapabilityRequirement "storage" Required] [])).

Definition store : RegisteredModule := mkRegisteredModule "store" "1.0" (Some (mkCapabilityDeclarations ["storage"] [] [])).

Definition modules_with (state : ModuleState) : list RuntimeModule :=
  [mkRuntimeModule "agent" StateRunning true; mkRuntimeModule "store" state true].

Definition store_starts : list Input :=
  [Configure [("agent", true); ("store", true)] {["storage" := "store"]}; HelloFrom agent;
   EvaluateAt 1000 (modules_with StateStarting) [agent]].

Definition store_fails : list Input :=
  store_starts ++ [EvaluateAt 121000 (modules_with StateStarting) [agent]; HelloFrom store;
                   EvaluateAt 130000 (modules_with StateRunning) [agent; store];
                   EvaluateAt 140000 (modules_with StateFailed) [agent]].

(** ** Verdicts *)





(** ** Absences *)

(** C24: Absences are numbered without gaps or repeats: over a whole history, as
    long as fewer than 2^64 were reported, the ones reported for a requirement
    carry the numbers 1, 2, 3 and so on, even if it is withdrawn and declared
    again in between; and its status shows the last of them. *)
Theorem absences_numbered s h consumer capability :
  evaluator_reachable (s, h) → Z.of_nat (length (h_absences h)) < 2 ^ 64 →
  let told := absences_of (consumer, capability) (h_absences h) in
  told = seqZ 1 (Z.of_nat (length told)) ∧
  ∀ st, statuses s !! (consumer, capability) = Some st → status_episode_seq st = Z.of_nat (length told).
Proof.
  intros [_ Hep]%evaluator_history Hlen told. destruct (Hep Hlen (consumer, capability)) as (Hseq & Hpos & Hst). cbn [snd] in *.
  assert (Z.of_nat (length told) = episode_of s (consumer, capability)) as Hn.
  { unfold told. rewrite Hseq, length_seqZ. cbn [fst] in *. lia. }
  split; [by rewrite Hn|]. intros st Hs. rewrite Hn. by apply Hst.
Qed.

Lemma absences_numbered_witness : absences_of ("agent", "storage") (h_absences (played store_fails).2) = [1; 2].
Proof.
  destruct (absences_numbered _ _ "agent" "storage" (played_parts store_fails) ltac:(by vm_compute)) as [Htold _].
  rewrite Htold. by vm_compute.
Defined.

(** ** Waiting *)

(** C25: Waiting for the next deadline misses nothing: as long as the inputs stay
    and the delay that [next_deadline_delay] names has not passed, evaluating
    again reports nothing and leaves the evaluator as it is. *)
Theorem quiet_until_deadline s now runtime registered s' events t :
  evaluate_at_ms s now runtime registered = (s', events) → now ≤ t →
  (∀ delay, next_deadline_delay s' now = Some delay → t < now + delay) →
  evaluate_at_ms s' t runtime registered = (s', []).
Proof. apply evaluate_settled. Qed.

Lemma quiet_until_deadline_witness :
  let s := (played store_starts).1 in
  next_deadline_delay s 1000 = Some 120000 ∧ evaluate_at_ms s 120999 (modules_with StateStarting) [agent] = (s, []).
Proof.
  assert (next_deadline_delay (played store_starts).1 1000 = Some 120000) as Hs by by vm_compute.
  split; [exact Hs|].
  assert (evaluate_at_ms (played (take 2 store_starts)).1 1000 (modules_with StateStarting) [agent] =
    ((played store_starts).1, (evaluate_at_ms (played (take 2 store_starts)).1 1000 (modules_with StateStarting) [agent]).2)) as Hev
    by by vm_compute.
  refine (quiet_until_deadline _ 1000 _ _ _ _ 120999 Hev ltac:(lia) _).
  intros delay Hd. rewrite Hs in Hd. injection Hd as <-. lia.
Defined.

(** ** Reserved capabilities *)





